(* ===== verification/_CoqProject ===== *)
-Q . S2P
Prelude.v
Strs.v
Float.v
Arrow.v
ArrowRef.v
ArrowTake.v
Connector.v
Join.v
JoinCorrect.v
Cache.v
CacheCorrect.v
Merger.v
MergerCorrect.v
SqlToSubquery.v
SqlCorrect.v
Ppl.v
PplCorrect.v
Rewrite.v
LogicalPlan.v
Cost.v
Errors.v
Resilience.v
Tenancy.v
Views.v
ViewsCorrect.v
Transactions.v
Json.v
JsonRef.v
Sorting.v
PlanTools.v
RowSets.v
RowColumns.v
RowOrder.v
RowGroups.v
Logs.v
Alerts.v
Jobs.v
Prepared.v
Stores.v
SharedState.v
Routing.v
SqlText.v
SqlTextCorrect.v
SqlStatements.v
FileConnectors.v
FileConnectorsCorrect.v
Tabular.v
LakeTables.v
Otel.v
QueryDsl.v
Search.v
NetAddr.v
QueryText.v
Lineage.v
QueryStrings.v
CoreStores.v
Export.v
MetricQueries.v
DocStores.v
SqlAnswers.v
SqlRows.v
WasmPlugins.v
Kafka.v
Dynamo.v
QueryTextCorrect.v
Security.v
ServerState.v
Results.v
ResultsCorrect.v
Federate.v
FederateCorrect.v
Streams.v
QueryHandler.v
QueryHandlerCorrect.v
Access.v
AccessCorrect.v
Webhooks.v
Configuration.v
Endpoints.v
Advice.v
