(* ===== verification/Prelude.v ===== *)
(** * Fuse: a verification library for the federated query engine

    Fuse answers one query from many datasources.  A SQL or PPL text is
    translated into sub-queries, the sub-queries are rewritten and sent to
    connectors (through a result cache), the returned Arrow batches are joined
    or merged, and a server around this engine keeps materialized views,
    transactions and tenants and guards the connectors with a circuit breaker
    and retries.  The sources are under [src/crates]: [fuse-core] (shared
    types, logical plans), [fuse-engine] (the query path), [fuse-server] and
    [fuse-connectors] (a crate per kind of datasource).

    This library translates that code into executable Gallina, function by
    function, and proves what makes each part correct.  Where the code does
    not do what it is meant to, a theorem states what it does instead.

    ** How code is modelled

    - A fallible call returns [outcome]: [Ok], [Err] with the source's error
      value, or [Panic].  A lock-protected structure is a state that each
      operation takes and returns; clock readings are arguments.
    - Unsigned integers are [N] with the casts, wrap-arounds and saturations
      of the source written out ([as_u32], [wrapping_add_u32],
      [saturating_add]); signed 64-bit literals are [Z] with their range;
      floats are the Standard Library's [SpecFloat] at binary64.
    - Hash maps and sets are [gmap] and [gset].  Strings are ASCII.
    - Code outside the repository is a parameter: the Arrow compute kernels
      are the class [ArrowKernels], with what Arrow documents of them as
      [ArrowLaws] and the instance [RefArrow] showing that the laws can hold; a
      datasource is the class [FederatedConnector]; the SQL parser and printer,
      the cache's hasher, the natural logarithm, the rendering of floats, the
      operation being retried, connector writes and query execution are
      section variables.  JSON text is the class [JsonOps] (the number and text
      functions of [serde_json]) with the laws [JsonLaws], which the reference
      printer [RefJson] satisfies.  The order in which a hash map is iterated
      is an argument wherever the result can depend on it, with the hypothesis
      that every entry is visited once.
    - The connectors' remote systems are parameters: an object store's listing
      and objects, decoded Parquet and CSV files, the partitions and records of
      a Kafka broker, and the answers of a search, catalog or DynamoDB service as
      functions of the request; so are the drivers of the SQL databases, of
      MongoDB and of Redis ([RedisClient], with the laws [RedisLaws] and the
      instance [RefRedis]), the polls of a submitted query, and the instances of
      a WebAssembly engine.  So are HMAC and SHA-256, the buckets of the rate
      limiter, the URL parser, the HTTP client of the webhooks, the parser of
      JSON and TOML documents, the resolver of secrets, the file system and the
      schemas a connector discovers.
    - The query handler runs in a state monad over the server's state with the
      reply as its early exit; connector calls run in a second one over the
      registry and a list of events, one per call of a connector, per slot taken
      or returned and per statistic noted.  The clock, failure injection, per-connector timeouts
      and the end of the race with the timeout and the cancellation are fields
      of [QueryEnv], [HandlerEnv] and [Ambient].  The row filter and the text
      of a cell are [RowKernels], with the laws [RowLaws] and the instance
      [RefRows].

    ** Files

    Shared:
    - [Prelude]: outcomes, machine integers, list lemmas, tactics, hints;
    - [Strs]: Rust string operations and their lemmas;
    - [Arrow], [ArrowRef], [ArrowTake]: batches, kernels and their laws, the
      reference instance, and what a [take] by row numbers yields;
    - [Float]: binary64 operations and their order;
    - [Json], [JsonRef]: JSON values, rows and their texts, and a printer whose
      texts determine the value;
    - [Sorting]: Rust's stable sort, B-tree order, minima and maxima;
    - [Connector]: [fuse-core/src/connector.rs], with the three-valued meaning
      of a [FilterExpr]; [Errors]: [fuse-core/src/error.rs];
    - [Configuration]: the configuration file with its secrets, validation, TLS
      tables and URLs, and the registry that [fuse-server/src/main.rs] fills at
      startup, with the limits that panic there.  A validated configuration starts
      unless a rate limit is zero or a datasource has more permits than a
      semaphore holds; what is registered is what a factory could make; a URL
      reads back.

    The query path:
    - [SqlToSubquery], [SqlCorrect]: [fuse-engine/src/sql_to_subquery.rs].  The
      pushed-down filter keeps every row the SQL condition keeps
      ([sql_to_subquery_loses_no_row]), and exactly the same rows on the part of
      the syntax that is translated in full ([translate_expr_exact]).  Both state
      their provisos; lemmas show the rows that are lost without them: under a
      negated conjunction translated in part, under a LIKE with ESCAPE or ANY,
      which the translation drops, and for names of other tables;
    - [Ppl], [PplCorrect]: [fuse-engine/src/ppl.rs] and [resolve_query].  The
      parser inverts a canonical printer for every command;
    - [Rewrite]: [fuse-engine/src/rewrite.rs] and [optimizer.rs].  Pushing the
      user's clauses to every source of a union gives the rows of the query on
      the union; a merged limit gives the same page; join conditions are split
      to the side they mention;
    - [LogicalPlan]: [fuse-core]'s optimizer, plan builder, rules, pushdown and
      predicates.  Reordering and rules preserve the rows; literals read back;
    - [PlanTools]: the visitors, printer, validator, merger, cost model and
      comparison of plans, the types and the co-usage graph of [fuse-core];
    - [CoreStores]: the registries of [fuse-core] (views, metadata, health and
      query statistics) and the server's feedback, replays and data quality;
    - [Cost]: [fuse-engine/src/cost.rs], [plan.rs] and the planning part of
      [join.rs].  The cheapest connector is the first minimum;
    - [Join], [JoinCorrect]: [fuse-engine/src/join.rs].  The hash join is the
      relational join for every join type, and narrowing the probe side by the
      build keys changes neither an inner nor a semi join, when the probe query
      has no limit and the key columns are of one type;
    - [Cache], [CacheCorrect]: [fuse-engine/src/cache.rs] and
      [cache_middleware.rs].  The cache refines a list kept in order of last
      use, within its entry bound; the caching connector is transparent for
      keys that tell queries apart;
    - [Merger], [MergerCorrect]: [fuse-engine/src/merger.rs].  Union schema,
      alignment, multi-column sort with limit, deduplication.

    The server:
    - [Resilience]: [fuse-server/src/circuit_breaker.rs] and [retry.rs].  The
      breaker refuses while the failures since the last success reach the
      threshold and the recovery time runs, and then lets a probe through; that
      it lets every further request through too is a lemma;
    - [Tenancy]: [fuse-server/src/tenant.rs];
    - [Views], [ViewsCorrect]: [fuse-engine/src/materialized.rs] and
      [fuse-server/src/refresh_scheduler.rs].  A view holds its source's rows as
      of its last successful refresh, if its watermarks grow as strings;
    - [Transactions]: [fuse-server/src/transaction.rs] and the transaction
      statements of [api.rs].

    The server's operators on JSON rows, all under [fuse-server/src]:
    - [RowSets]: [joiner.rs], [set_ops.rs], [intersect.rs], [distinct.rs] and others.
      The operators compare texts of values; they are the nested-loop joins and
      the set operations on values;
    - [RowColumns]: projection, reordering, pivot, transpose,
      flattening, null handling, coercion and type inference.  Cells keep their
      names and values, and an inferred type fits every cell of its column;
    - [RowOrder], [RowGroups]: sorting, ranking, paging,
      grouping, statistics, sampling.  The comparator is a total preorder, so a
      sort is a stable sorted permutation; pages and groups partition the rows;
    - [Export]: downloads as CSV, NDJSON and text tables, and rows as typed
      columns.  A written file reads back.

    The server's stores:
    - [Logs]: query history, audit log, timeouts and the change feed.  Each log
      holds the newest entries of what was recorded; a view is pending exactly
      when one of its sources changed since it was last taken;
    - [Jobs]: [async_query.rs], [dedup.rs] and [scheduler.rs].  The
      job store drops the finished job submitted first only when it is full, and
      stays within its bound unless its jobs are unfinished; every
      caller waiting for a query in flight is answered; a cron expression means
      what its fields say;
    - [Prepared]: [prepared.rs], the PREPARE and EXECUTE
      statements of [api.rs] and [templates.rs].  A prepared query executed with
      numbers runs the query with the numbers in its holes;
    - [Stores]: plan, explain and schema caches, adaptive time to
      live, usage and cost accounting, the query policy, tags and aliases;
    - [Alerts]: the alert monitor and the rules on query results.  An alert
      fires on the rising edge of its condition;
    - [SharedState]: the stores that live in Redis or in memory.  While Redis
      answers, both keep the same map; the lists agree with a bounded log;
    - [Routing]: federation, routing, adaptive limits and connector health.  A
      route leads to a registered server that is healthy, and to one of least
      cost while the 64-bit sums do not wrap.

    The connectors, under [fuse-connectors]:
    - [SqlText], [SqlTextCorrect], [SqlStatements]: the SQL text that the
      PostgreSQL, DuckDB, ClickHouse, Arrow Flight, Snowflake, Athena, Timestream,
      BigQuery, Spark, Cassandra and S3 connectors write.  A reader of standard
      SQL, with the meaning of its operators and literals, reads conditions and
      whole statements as the sub-query they were made from, where quoting is
      sound, and examples show where it is not (MySQL among them);
    - [FileConnectors], [FileConnectorsCorrect], [LakeTables]: S3, CSV and JSON
      files, Delta Lake and Iceberg.  Pruning loses no row, limits cut exactly,
      the files read are those the log or the snapshot names, the newest version
      of a Delta table whatever version is configured;
    - [Tabular]: the shared tables of texts; [Otel]: the telemetry store;
    - [QueryDsl], [Search]: OpenSearch and Elasticsearch.  A query body selects
      the documents the filter keeps, patterns with wildcards or backslashes of
      their own apart; scrolling and search_after return all pages;
    - [Kafka]: topics as rows.  A query returns the fetched messages that pass
      its filter, up to its limit;
    - [Dynamo]: filters as DynamoDB expressions.  Key condition
      and filter expression, with the aliases of the request, select the items
      the filter keeps, when its test of the partition key is one conjunct;
    - [MetricQueries]: InfluxDB and Prometheus; [DocStores]: MongoDB and Redis.
      A filter document selects the documents the filter keeps;
    - [SqlAnswers]: the services that are submitted a query and polled.  The
      first report that a query is over decides the answer;
    - [SqlRows]: rows read from SQL databases and written to them.  An insert
      appends the rows of its batch, in the text that standard SQL reads;
    - [WasmPlugins]: connectors loaded as WebAssembly modules.

    The query handler, in [fuse-server/src/api.rs] unless said otherwise:
    - [QueryText], [QueryTextCorrect]: what the handler reads from the text of a
      query: sources, clauses, statements, cursors, sub-queries, windows.  The
      sources are exactly those a specification of the text names; literals have
      no influence; cursors and scripts read back;
    - [QueryStrings], [Lineage]: the smaller helpers on query texts (sanitizing,
      fingerprints, cache keys, validation, comparison) and the lineage of a
      result;
    - [Security]: [fuse-core/src/security.rs].  The filter on results enforces
      the field policies;
    - [ServerState]: the result cache of [plan_cache.rs], the running queries,
      the schema cache and [cost_estimator.rs];
    - [Results], [ResultsCorrect]: HAVING, re-aggregation, paging and JSON.  Each
      is its relational meaning on the rows of all batches;
    - [Federate], [FederateCorrect]: the registry ([fuse-core/src/registry.rs])
      and the execution on one source, of a UNION, of a JOIN and of CTEs.  A
      UNION returns the rows of the sources that answered and reports the others;
      no query that runs to its end keeps a connection slot, while interrupted
      single queries and panicking tasks do ([Federate.interrupted]);
    - [QueryHandler], [QueryHandlerCorrect]: [query_handler] as a whole, in
      stages that follow its text.  Every call of a connector is an event: a
      tenant's plain query contacts only granted datasources, and the statements
      that run before the check do not keep to them; queries that are executed
      and answered are recorded once, those answered earlier not at all; the
      running queries are restored; and lemmas state where the handler surprises
      (the cache ignores the caller, OFFSET is applied twice, DISTINCT forgets
      the order);
    - [Streams]: [streaming.rs] and [sse_stream.rs], a query answered as events,
      and [otel_ingest.rs].  A stream delivers the rows its connector sends, in
      order; the error that a connector returns is dropped;
    - [Endpoints]: the other handlers of [api.rs] on the data path: downloads,
      datasources and schemas, validation, EXPLAIN, views over REST, alert rules,
      traces, several statements in one request, questions in English.  What a
      question becomes is a fixed text around quoted names;
    - [Advice]: similar queries, compiled queries, suggestions, completions,
      tuning, predictions, relationships between tables and prompts for a
      language model.  A suggested query reads the table it was made for; the
      groups, recommendations and relationships are exactly those that their
      specifications name.

    What stands in front of the handlers, and what they call back:
    - [Access], [AccessCorrect]: [auth.rs], [request_signing.rs], [rate_limit.rs]
      and the order of the layers in [lib.rs].  A request reaches a route exactly
      when its signature, key and limits allow it; a signature binds timestamp
      and body; rotation refines a ledger of keys, which a grace period beyond
      the clock closes for good; and the router as it is built configures
      neither keys nor signing;
    - [NetAddr]: [url_validator.rs] with the standard library's address parser.
      Which hosts a callback may name;
    - [Webhooks]: [webhook.rs].  Registry invariant, delivery
      with retries, the dead-letter queue, and conditions that cannot be met.

    Theorems that are properties of the program carry an identifier C<n> in
    their comment; those with hypotheses have a witness of the same name with
    the suffix [_witness] that applies them to concrete data.

    ** Bounds and fuel

    The cache's eviction loops run on fuel [S (length lru)]; each round
    removes an element of the queue, and [cache_refines_lru] shows that they
    always return. The retry loop runs on fuel [S max_retries] and
    [with_retry_spec] shows that it always returns. The loop that counts a
    query's placeholders runs on the query's length; [count_template] shows
    that this is enough. The searches in query texts (sources, CONTAINS, IN
    sub-queries, CTEs) run on the length of the text plus one, since each
    round moves forward; their theorems show that they return. The wait for a
    submitted Athena query has fuel because the loop of the source has no
    bound: what it returns is stated for a service that reaches a final state
    within the fuel. The reader of SQL conditions against which the
    connectors' texts are checked runs on eight times the number of tokens
    plus eight. Paging loops run on the number of pages plus two, and their
    theorems show that they end. Rounds of a recursive CTE are bounded by the
    code's own hundred. Readers that strip prefixes run on the length of their
    text. Every other recursion is structural. Joins and deduplication store
    row numbers as [u32]: their theorems assume that a side has at most 2^32
    rows. The breaker's failure counter is a [u32]: its theorem assumes a
    history shorter than 2^32 events; the retry theorem excludes a retry limit
    of [u32::MAX], at which the attempt counter wraps. The flag that says
    whether a page is followed by another adds in a machine word: its theorem
    assumes that the sum fits, and [has_next_wraps] says what happens
    otherwise. Usage and cost counters are taken not to overflow.

    ** What is not modelled

    The clients of the remote systems, DataFusion's execution behind
    [fuse-engine/src/planner.rs], GraphQL, certificates, tracing and metrics,
    and the middleware that only adds headers are I/O or calls into libraries.
    The command line, the connector SDK and the telemetry readers of [s3-o11y]
    are glue around what is modelled.  Approximate aggregates, anomaly scores
    and the comparison of benchmarks are floating-point statistics that no answer
    to a query depends on.  Spark delegation compares two numbers and calls a stub.

    Text outside ASCII is not covered: Unicode case mapping can change the
    length of a string.  In the query path the iteration order of hash maps is
    fixed by [gmap]; no theorem there depends on it.  The tasks of a UNION share
    no state but the recorded statistics, so they are run one after the other in
    the order in which they are awaited. *)

From stdpp Require Import base list gmap strings sets sorting.
From Stdlib Require Import NArith ZArith Lia.

(** ** Outcomes

    A Rust call returns [Ok], returns [Err], or panics (an index out of
    bounds, an [unwrap] on [None]).  The three are kept apart: a theorem that
    says [Ok] excludes the panic as well as the error. *)

Inductive outcome (E A : Type) : Type :=
| Ok (a : A)
| Err (e : E)
| Panic.
Arguments Ok {E A} a.
Arguments Err {E A} e.
Arguments Panic {E A}.

#[export] Instance outcome_ret (E : Type) : MRet (outcome E) := λ A a, Ok a.
#[export] Instance outcome_bind (E : Type) : MBind (outcome E) := λ A B f m,
  match m with
  | Ok a => f a
  | Err e => Err e
  | Panic => Panic
  end.

(** [opt.ok_or_else(|| e)] followed by [?]. *)
Definition ok_or {E A : Type} (o : option A) (e : E) : outcome E A :=
  match o with
  | Some a => Ok a
  | None => Err e
  end.

(** [res.map_err(f)]. *)
Definition map_err {E E' A : Type} (f : E → E') (m : outcome E A) : outcome E' A :=
  match m with
  | Ok a => Ok a
  | Err e => Err (f e)
  | Panic => Panic
  end.

(** [res.is_ok()], [res.unwrap_or_default()] and the like read the value. *)
Definition ok_value {E A : Type} (m : outcome E A) : option A :=
  match m with
  | Ok a => Some a
  | _ => None
  end.

Lemma bind_ok_inv {E A B : Type} (m : outcome E A) (f : A → outcome E B) b :
  m ≫= f = Ok b → ∃ a, m = Ok a ∧ f a = Ok b.
Proof. destruct m; naive_solver. Qed.

(** Split every [bind] that is known to return [Ok]. *)
Ltac inv_ok :=
  repeat match goal with
  | H : mbind _ _ = Ok _ |- _ =>
      let a := fresh "a" in let Ha := fresh "Ha" in
      apply bind_ok_inv in H as (a & Ha & H)
  | H : Ok _ = Ok _ |- _ => injection H as H; try subst
  | H : mret _ = Ok _ |- _ => injection H as H; try subst
  | H : Err _ = Ok _ |- _ => discriminate H
  | H : Panic = Ok _ |- _ => discriminate H
  end.

Lemma mapM_outcome_Ok {E A B : Type} (f : A → outcome E B) (g : A → B) l :
  (∀ x, x ∈ l → f x = Ok (g x)) → mapM f l = Ok (g <$> l).
Proof.
  induction l as [|x l IH]; intros H; [done|]; cbn.
  rewrite (H x) by set_solver. cbn.
  rewrite IH; [done|]. intros y Hy. apply H. set_solver.
Qed.

Lemma mapM_outcome_ext {E A B : Type} (f g : A → outcome E B) l :
  (∀ x, x ∈ l → f x = g x) → mapM f l = mapM g l.
Proof.
  induction l as [|x l IH]; intros H; [done|]. cbn [mapM].
  rewrite (H x), IH by set_solver. done.
Qed.

Lemma mapM_outcome_fmap {E A B C : Type} (f : B → outcome E C) (g : A → B) l :
  mapM f (g <$> l) = mapM (λ x, f (g x)) l.
Proof. induction l as [|x l IH]; [done|]. cbn [mapM fmap list_fmap]. by rewrite IH. Qed.

Lemma mapM_outcome_length {E A B : Type} (f : A → outcome E B) l k :
  mapM f l = Ok k → length k = length l.
Proof.
  revert k; induction l as [|x l IH]; intros k H; cbn in H; inv_ok; [done|].
  cbn. eauto.
Qed.

Lemma mapM_outcome_Forall2 {E A B : Type} (f : A → outcome E B) l k :
  mapM f l = Ok k → Forall2 (λ x y, f x = Ok y) l k.
Proof.
  revert k; induction l as [|x l IH]; intros k H; cbn in H; inv_ok;
    constructor; auto.
Qed.

(** ** Machine integers

    Unsigned integers are [N] with the width written out where the code
    casts, saturates or can overflow. *)

Definition u64_max : N := 18446744073709551615.
Definition u32_modulus : N := 4294967296.

(** [a.saturating_add(b)] on [u64]. *)
Definition saturating_add (a b : N) : N := N.min (a + b) u64_max.

(** [i as u32]: the cast keeps the low 32 bits. *)
Definition as_u32 (i : nat) : N := N.of_nat i `mod` u32_modulus.

Lemma as_u32_id i : (N.of_nat i < u32_modulus)%N → as_u32 i = N.of_nat i.
Proof. intros. unfold as_u32. by apply N.mod_small. Qed.

(** [n as i32]: the low 32 bits, read with a sign. *)
Definition as_i32 (n : N) : Z := ((Z.of_N n + 2147483648) `mod` 4294967296 - 2147483648)%Z.

(** ** Lists *)

(** [iter().position(p)]. *)
Definition position {A : Type} (p : A → bool) : list A → option nat :=
  fix go l :=
    match l with
    | [] => None
    | x :: l => if p x then Some 0 else S <$> go l
    end.

(** [iter().enumerate()] from an offset. *)
Fixpoint enumerate_from {A : Type} (i : nat) (l : list A) : list (nat * A) :=
  match l with
  | [] => []
  | x :: l => (i, x) :: enumerate_from (S i) l
  end.
Definition enumerate {A : Type} (l : list A) : list (nat * A) := enumerate_from 0 l.

(** The elements of [l] at the given positions, positions out of range
    skipped. *)
Definition gather {A : Type} (l : list A) (idx : list nat) : list A :=
  omap (λ i, l !! i) idx.

Lemma position_Some {A : Type} (p : A → bool) l i :
  position p l = Some i → ∃ x, l !! i = Some x ∧ p x = true.
Proof.
  revert i; induction l as [|x l IH]; intros i H; [done|]; cbn in H.
  destruct (p x) eqn:Hp; [simplify_eq; eauto|].
  apply fmap_Some in H as (j & Hj & ->). cbn. eauto.
Qed.

Lemma position_first {A : Type} (p : A → bool) l i :
  position p l = Some i → ∀ j x, j < i → l !! j = Some x → p x = false.
Proof.
  revert i; induction l as [|y l IH]; intros i H j x Hj Hx; [done|]; cbn in H.
  destruct (p y) eqn:Hp; [simplify_eq; lia|].
  apply fmap_Some in H as (k & Hk & ->).
  destruct j as [|j]; cbn in Hx; [by simplify_eq|].
  eapply IH; eauto; lia.
Qed.

Lemma position_None {A : Type} (p : A → bool) l :
  position p l = None ↔ Forall (λ x, p x = false) l.
Proof.
  induction l as [|x l IH]; cbn; [by split|].
  rewrite Forall_cons. destruct (p x); [by split; naive_solver|].
  rewrite fmap_None, IH. naive_solver.
Qed.

Lemma enumerate_from_lookup {A : Type} (l : list A) i j :
  enumerate_from i l !! j = (λ x, (i + j, x)) <$> l !! j.
Proof.
  revert i j; induction l as [|x l IH]; intros i [|j]; cbn; try done.
  - by rewrite Nat.add_0_r.
  - rewrite IH. destruct (l !! j); cbn; [do 2 f_equal; lia|done].
Qed.

Lemma enumerate_lookup {A : Type} (l : list A) j :
  enumerate l !! j = (λ x, (j, x)) <$> l !! j.
Proof. apply enumerate_from_lookup. Qed.

Lemma enumerate_from_app {A : Type} (l k : list A) i :
  enumerate_from i (l ++ k) = enumerate_from i l ++ enumerate_from (i + length l) k.
Proof.
  revert i; induction l as [|x l IH]; intros i; cbn; [by rewrite Nat.add_0_r|].
  rewrite IH. do 3 f_equal. lia.
Qed.

Lemma enumerate_from_length {A : Type} (l : list A) i :
  length (enumerate_from i l) = length l.
Proof. revert i; induction l as [|x l IH]; intros i; cbn; [done|]. by rewrite IH. Qed.

Lemma gather_length {A : Type} (l : list A) idx :
  Forall (λ i, i < length l) idx → length (gather l idx) = length idx.
Proof.
  induction 1 as [|i idx Hi _ IH]; [done|]. cbn.
  destruct (lookup_lt_is_Some_2 l i Hi) as [x ->]. cbn. by f_equal.
Qed.

Lemma gather_app {A : Type} (l : list A) idx idx' :
  gather l (idx ++ idx') = gather l idx ++ gather l idx'.
Proof. apply omap_app. Qed.

Lemma gather_seq_prefix {A : Type} (k l : list A) :
  gather (k ++ l) (seq (length k) (length l)) = l.
Proof.
  revert k; induction l as [|x l IH]; intros k; [done|]. cbn.
  rewrite lookup_app_r, Nat.sub_diag by lia. cbn. f_equal.
  specialize (IH (k ++ [x])). rewrite <- app_assoc, length_app in IH. cbn in IH.
  by rewrite Nat.add_1_r in IH.
Qed.

Lemma gather_seq {A : Type} (l : list A) : gather l (seq 0 (length l)) = l.
Proof. apply (gather_seq_prefix []). Qed.

Lemma gather_sublist {A : Type} (l : list A) idx idx' :
  idx `sublist_of` idx' → gather l idx `sublist_of` gather l idx'.
Proof.
  induction 1 as [|i k k' _ IH|i k k' _ IH]; [constructor|..]; unfold gather in *; cbn;
    destruct (l !! i); auto using sublist_skip, sublist_cons.
Qed.

Lemma StronglySorted_pair {A : Type} (R : A → A → Prop) l :
  StronglySorted R l → ∀ i j x y, l !! i = Some x → l !! j = Some y → i < j → R x y.
Proof.
  induction 1 as [|z l _ IH Hz]; intros i j x y Hi Hj Hij; [done|].
  destruct j as [|j]; [lia|]. cbn in Hj. destruct i as [|i]; cbn in Hi.
  - simplify_eq. by eapply Forall_lookup_1 in Hz.
  - eapply IH; eauto; lia.
Qed.

Lemma StronglySorted_sublist {A : Type} (R : A → A → Prop) l k :
  l `sublist_of` k → StronglySorted R k → StronglySorted R l.
Proof.
  induction 1 as [|x l k Hl IH|x l k Hl IH]; intros Hk; [done|..];
    apply StronglySorted_inv in Hk as [Hk Hx]; [|by apply IH].
  constructor; [by apply IH|]. rewrite Forall_forall in Hx |- *.
  intros y Hy. apply Hx. by eapply elem_of_sublist.
Qed.

Lemma elem_of_concat {A : Type} (x : A) (ls : list (list A)) :
  x ∈ concat ls ↔ ∃ l, x ∈ l ∧ l ∈ ls.
Proof.
  induction ls as [|l ls IH]; cbn; [set_solver|].
  rewrite elem_of_app, IH. set_solver.
Qed.

Lemma list_filter_iff' {A : Type} (P Q : A → Prop) `{!∀ x, Decision (P x), !∀ x, Decision (Q x)} (l : list A) :
  (∀ x, x ∈ l → P x ↔ Q x) → filter P l = filter Q l.
Proof.
  induction l as [|x l IH]; intros Hiff; [done|]. rewrite !filter_cons.
  destruct (Hiff x) as [HPQ HQP]; [set_solver|]. rewrite IH by set_solver.
  by repeat case_decide; try naive_solver.
Qed.

Lemma Forall_filter {A : Type} (P Q : A → Prop) `{!∀ x, Decision (Q x)} (l : list A) :
  Forall P l → Forall P (filter Q l).
Proof. rewrite !Forall_forall. intros HP x [_ Hx]%list_elem_of_filter. auto. Qed.

Lemma list_filter_all {A : Type} (l : list A) : filter (λ _, True) l = l.
Proof. induction l as [|x l IH]; [done|]. rewrite filter_cons_True by done. by f_equal. Qed.

Lemma list_filter_none {A : Type} (l : list A) : filter (λ _, False) l = [].
Proof. induction l as [|x l IH]; [done|]. rewrite filter_cons_False by tauto. exact IH. Qed.

Lemma Forall_filter_nil {A : Type} (P : A → Prop) `{!∀ x, Decision (P x)} (l : list A) :
  filter P l = [] ↔ Forall (λ x, ¬ P x) l.
Proof.
  induction l as [|x l IH]; [done|]. rewrite filter_cons, Forall_cons, <- IH.
  destruct (decide (P x)); naive_solver.
Qed.

Lemma list_filter_fmap {A B : Type} (P : B → Prop) `{!∀ x, Decision (P x)} (f : A → B) (l : list A) :
  filter P (f <$> l) = f <$> filter (λ x, P (f x)) l.
Proof.
  induction l as [|x l IH]; [done|]. rewrite fmap_cons, !filter_cons, IH. by destruct (decide (P (f x))).
Qed.

Lemma fmap_concat {A B : Type} (f : A → B) (ls : list (list A)) :
  (f <$> concat ls : list B) = concat ((λ l : list A, (f <$> l : list B)) <$> ls).
Proof. induction ls as [|l ls IH]; cbn; [done|]. by rewrite fmap_app, IH. Qed.

(** Dropping the elements that contribute nothing. *)
Lemma concat_filter {A B : Type} (P : A → Prop) `{!∀ x, Decision (P x)} (F : A → list B) l :
  (∀ x, ¬ P x → F x = []) → concat (F <$> filter P l) = concat (F <$> l).
Proof.
  intros HF. induction l as [|x l IH]; [done|]. rewrite filter_cons.
  case_decide; cbn; [by rewrite IH|]. by rewrite HF, IH.
Qed.

(** A filter and its complement partition a list. *)
Lemma filter_partition {A : Type} (P Q : A → Prop) `{!∀ x, Decision (P x), !∀ x, Decision (Q x)} (l : list A) :
  (∀ x, Q x ↔ ¬ P x) → filter P l ++ filter Q l ≡ₚ l.
Proof.
  intros HQ. induction l as [|x l IH]; [done|]. rewrite !filter_cons.
  destruct (decide (P x)) as [HP|HP].
  - rewrite decide_False by (rewrite HQ; tauto). cbn. by apply perm_skip.
  - rewrite decide_True by (by apply HQ).
    etrans; [symmetry; apply Permutation_middle|]. by apply perm_skip.
Qed.

(** [filter(|x| seen.insert(f(x)))]: keep the first element of each key. *)
Section Dedup.
Context {A K : Type} `{Countable K} (f : A → K).

Fixpoint dedup_seen (seen : gset K) (l : list A) : list A :=
  match l with
  | [] => []
  | x :: l =>
      if decide (f x ∈ seen) then dedup_seen seen l
      else x :: dedup_seen ({[f x]} ∪ seen) l
  end.

Lemma dedup_sublist seen l : dedup_seen seen l `sublist_of` l.
Proof.
  revert seen; induction l as [|x l IH]; intros seen; cbn; [constructor|].
  case_decide; [apply sublist_cons|constructor]; apply IH.
Qed.

Lemma dedup_keys seen l k :
  k ∈ f <$> dedup_seen seen l ↔ k ∈ f <$> l ∧ k ∉ seen.
Proof.
  revert seen; induction l as [|x l IH]; intros seen; cbn; [set_solver|].
  case_decide; [rewrite IH|cbn; rewrite elem_of_cons, IH]; rewrite elem_of_cons;
    destruct (decide (k = f x)) as [->|]; set_solver.
Qed.

Lemma dedup_NoDup seen l : NoDup (f <$> dedup_seen seen l).
Proof.
  revert seen; induction l as [|x l IH]; intros seen; cbn; [constructor|].
  case_decide; [apply IH|]. cbn. constructor; [|apply IH].
  intros [_ Hx]%dedup_keys. set_solver.
Qed.

Lemma dedup_app seen l k :
  dedup_seen seen (l ++ k) =
    dedup_seen seen l ++ dedup_seen (list_to_set (f <$> dedup_seen seen l) ∪ seen) k.
Proof.
  revert seen; induction l as [|x l IH]; intros seen; cbn.
  { by rewrite (left_id_L ∅ (∪)). }
  case_decide; [apply IH|]. cbn. rewrite IH. do 3 f_equal. set_solver.
Qed.
End Dedup.

(** The first of every group of equal elements, in order. *)
Fixpoint nub {A : Type} `{EqDecision A} (l : list A) : list A :=
  match l with
  | [] => []
  | x :: l => x :: filter (λ y, y ≠ x) (nub l)
  end.

Lemma elem_of_nub {A : Type} `{EqDecision A} (l : list A) x : x ∈ nub l ↔ x ∈ l.
Proof.
  induction l as [|y l IH]; [done|]. cbn. rewrite !elem_of_cons, list_elem_of_filter, IH.
  destruct (decide (x = y)); naive_solver.
Qed.

Lemma NoDup_nub {A : Type} `{EqDecision A} (l : list A) : NoDup (nub l).
Proof.
  induction l as [|y l IH]; cbn; [constructor|]. constructor; [|by apply NoDup_filter].
  intros [H _]%list_elem_of_filter. done.
Qed.

(** Deduplicating by a key that tells all elements apart. *)
Lemma dedup_seen_nub {A K : Type} `{EqDecision A, Countable K} (f : A → K) seen l :
  (∀ x y, f x = f y → x = y) →
  dedup_seen f seen l = filter (λ x, f x ∉ seen) (nub l).
Proof.
  intros Hf. revert seen; induction l as [|x l IH]; intros seen; [done|]. cbn [dedup_seen nub].
  rewrite filter_cons, list_filter_filter. case_decide as Hx.
  - rewrite decide_False by tauto. rewrite IH. apply list_filter_iff. intros y. split; [|tauto].
    intros Hy. split; [done|]. intros ->. done.
  - rewrite decide_True by done. f_equal. rewrite IH. apply list_filter_iff. intros y.
    rewrite elem_of_union, elem_of_singleton. split.
    + intros Hy. split; [tauto|]. intros ->. tauto.
    + intros [Hs Hne] [Hy%Hf|Hy]; naive_solver.
Qed.

Lemma dedup_nub {A K : Type} `{EqDecision A, Countable K} (f : A → K) l :
  (∀ x y, f x = f y → x = y) → dedup_seen f ∅ l = nub l.
Proof.
  intros Hf. rewrite dedup_seen_nub by done.
  induction (nub l) as [|x l' IH]; [done|]. rewrite filter_cons, decide_True by set_solver.
  by rewrite IH.
Qed.

(** ** Strings *)

Lemma str_app_assoc (a b c : string) : a +:+ (b +:+ c) = (a +:+ b) +:+ c.
Proof. induction a as [|x a IH]; [done|]. exact (f_equal (String x) IH). Qed.

(** ** Automation

    [fuse] collects the rewriting rules and [fuse_core] the facts that the
    component files close their routine goals with. *)

Create HintDb fuse_core discriminated.
Create Rewrite HintDb fuse.
#[export] Hint Resolve mapM_outcome_length gather_length : fuse_core.

(** Case split on the innermost [if] or [match] of the goal. *)
Ltac break_match :=
  match goal with
  | |- context [match ?x with _ => _ end] =>
      lazymatch x with
      | context [match _ with _ => _ end] => fail
      | _ => let E := fresh "E" in destruct x eqn:E
      end
  end.

(** The same in the hypotheses. *)
Ltac break_match_hyp :=
  match goal with
  | H : context [match ?x with _ => _ end] |- _ =>
      lazymatch x with
      | context [match _ with _ => _ end] => fail
      | _ => let E := fresh "E" in destruct x eqn:E
      end
  end.
