(* ===== verification/Strs.v ===== *)
(** * Strs: the string operations the parsers use

    Strings are byte strings.  The models are those of Rust's [str] methods on
    ASCII text: case folding and white space are the ASCII ones, and an index
    returned by [find] is a byte offset. *)

From S2P Require Import Prelude.
From stdpp Require Import base list strings pretty.
From Stdlib Require Import NArith ZArith Lia Ascii.

(** ** Characters *)

Definition ascii_lower (a : ascii) : ascii :=
  let n := N_of_ascii a in
  if ((65 <=? n) && (n <=? 90))%N then ascii_of_N (n + 32) else a.

Definition is_whitespace (a : ascii) : bool :=
  let n := N_of_ascii a in ((9 <=? n) && (n <=? 13) || (n =? 32))%N.

Definition is_char (c a : ascii) : bool := Ascii.eqb c a.

(** ** Strings *)

(** [s.chars().all(p)]. *)
Fixpoint str_all (p : ascii → bool) (s : string) : bool :=
  match s with
  | EmptyString => true
  | String a s => p a && str_all p s
  end.

Fixpoint to_lowercase (s : string) : string :=
  match s with
  | EmptyString => EmptyString
  | String a s => String (ascii_lower a) (to_lowercase s)
  end.

Definition ascii_upper (a : ascii) : ascii :=
  let n := N_of_ascii a in
  if ((97 <=? n) && (n <=? 122))%N then ascii_of_N (n - 32) else a.

Fixpoint to_uppercase (s : string) : string :=
  match s with
  | EmptyString => EmptyString
  | String a s => String (ascii_upper a) (to_uppercase s)
  end.

(** [s.eq_ignore_ascii_case(t)]. *)
Definition eq_ignore_case (s t : string) : bool := String.eqb (to_lowercase s) (to_lowercase t).

Definition starts_with (pat s : string) : bool := String.prefix pat s.

(** [s.trim_start_matches(p)] and [s.trim_end_matches(p)]. *)
Fixpoint trim_start_while (p : ascii → bool) (s : string) : string :=
  match s with
  | EmptyString => EmptyString
  | String a s' => if p a then trim_start_while p s' else s
  end.
Fixpoint trim_end_while (p : ascii → bool) (s : string) : string :=
  match s with
  | EmptyString => EmptyString
  | String a s' =>
      match trim_end_while p s' with
      | EmptyString => if p a then EmptyString else String a EmptyString
      | s'' => String a s''
      end
  end.
Definition trim_start (s : string) : string := trim_start_while is_whitespace s.
Definition trim_end (s : string) : string := trim_end_while is_whitespace s.
Definition trim (s : string) : string := trim_end (trim_start s).

(** [&s[n..]] and [&s[..n]]. *)
Fixpoint str_drop (n : nat) (s : string) : string :=
  match n, s with
  | S n, String _ s => str_drop n s
  | 0, s => s
  | _, EmptyString => EmptyString
  end.
Fixpoint str_take (n : nat) (s : string) : string :=
  match n, s with
  | S n, String a s => String a (str_take n s)
  | _, _ => EmptyString
  end.

(** [s.find(pat)] for a string and for a character class. *)
Fixpoint find_sub (pat s : string) : option nat :=
  if starts_with pat s then Some 0
  else match s with
       | EmptyString => None
       | String _ s => S <$> find_sub pat s
       end.
Fixpoint find_char (p : ascii → bool) (s : string) : option nat :=
  match s with
  | EmptyString => None
  | String a s => if p a then Some 0 else S <$> find_char p s
  end.

(** [s.rfind(pat)]. *)
Fixpoint rfind_sub (pat s : string) : option nat :=
  match s with
  | EmptyString => if starts_with pat "" then Some 0 else None
  | String _ s' =>
      match rfind_sub pat s' with
      | Some i => Some (S i)
      | None => if starts_with pat s then Some 0 else None
      end
  end.

(** [s.split(c)]: never empty. *)
Fixpoint split_on (p : ascii → bool) (s : string) : list string :=
  match s with
  | EmptyString => [EmptyString]
  | String a s =>
      if p a then EmptyString :: split_on p s
      else match split_on p s with
           | [] => [String a EmptyString]
           | w :: ws => String a w :: ws
           end
  end.

(** [s.split_whitespace()]. *)
Definition split_whitespace (s : string) : list string := filter (λ w, w ≠ "") (split_on is_whitespace s).

(** [s.trim_matches(p)], [s.starts_with(c)] and [s.ends_with(c)]. *)
Definition trim_matches (p : ascii → bool) (s : string) : string := trim_end_while p (trim_start_while p s).
Definition starts_with_char (c : ascii) (s : string) : bool :=
  match s with String a _ => Ascii.eqb c a | EmptyString => false end.
Fixpoint ends_with_char (c : ascii) (s : string) : bool :=
  match s with
  | EmptyString => false
  | String a EmptyString => Ascii.eqb c a
  | String _ s => ends_with_char c s
  end.

(** [s.split_once(c)] and [s.splitn(2, p)]. *)
Definition split_once (p : ascii → bool) (s : string) : option (string * string) :=
  (λ i, (str_take i s, str_drop (S i) s)) <$> find_char p s.
Definition splitn2 (p : ascii → bool) (s : string) : list string :=
  match split_once p s with
  | Some (a, b) => [a; b]
  | None => [s]
  end.

(** [s.strip_prefix(p)]. *)
Definition str_strip_prefix (p s : string) : option string :=
  if starts_with p s then Some (str_drop (String.length p) s) else None.

Definition strip_prefix_char (c : ascii) (s : string) : option string :=
  match s with
  | String a s' => if Ascii.eqb a c then Some s' else None
  | EmptyString => None
  end.

(** [parts.join(sep)]. *)
Fixpoint join_with (sep : string) (l : list string) : string :=
  match l with
  | [] => ""
  | [x] => x
  | x :: l => x +:+ sep +:+ join_with sep l
  end.

(** [s.replace(pat, rep)]: left to right without overlap.  [skip] counts the
    characters of an occurrence that are still to be passed over. *)
Fixpoint replace_go (pat rep : string) (skip : nat) (s : string) : string :=
  match s with
  | EmptyString => match pat with EmptyString => rep | _ => EmptyString end
  | String a s' =>
      match skip with
      | S skip => replace_go pat rep skip s'
      | 0 =>
          if starts_with pat s then
            match String.length pat with
            | 0 => rep +:+ String a (replace_go pat rep 0 s')
            | S n => rep +:+ replace_go pat rep n s'
            end
          else String a (replace_go pat rep 0 s')
      end
  end.
Definition replace (pat rep s : string) : string := replace_go pat rep 0 s.

(** ** Numbers *)

Definition digit_value (a : ascii) : option N :=
  let n := N_of_ascii a in
  if ((48 <=? n) && (n <=? 57))%N then Some (n - 48)%N else None.

(** The value of a string of digits, most significant first. *)
Fixpoint digits_value (acc : N) (s : string) : option N :=
  match s with
  | EmptyString => Some acc
  | String a s => d ← digit_value a; digits_value (10 * acc + d) s
  end.

Definition parse_digits (s : string) : option N :=
  match s with EmptyString => None | _ => digits_value 0 s end.

(** [s.parse::<u64>().ok()]: an optional plus sign, digits, and the range. *)
Definition parse_u64 (s : string) : option N :=
  n ← parse_digits (default s (strip_prefix_char "+" s));
  if (n <=? u64_max)%N then Some n else None.

(** [s.parse::<u32>().ok()]. *)
Definition u32_max : N := 4294967295.
Definition parse_u32 (s : string) : option N :=
  match parse_u64 s with Some n => if (n <=? u32_max)%N then Some n else None | None => None end.

(** [s.parse::<i64>().ok()]. *)
Definition i64_max : Z := 9223372036854775807.
Definition i64_min : Z := -9223372036854775808.
Definition parse_i64 (s : string) : option Z :=
  z ← match strip_prefix_char "-" s with
      | Some s => n ← parse_digits s; Some (- Z.of_N n)%Z
      | None => n ← parse_digits (default s (strip_prefix_char "+" s)); Some (Z.of_N n)
      end;
  if ((i64_min <=? z) && (z <=? i64_max))%Z then Some z else None.

(** Two's complement wrap-around at 64 bits. *)
Definition wrap_i64 (z : Z) : Z := ((z - i64_min) `mod` 2 ^ 64 + i64_min)%Z.

Lemma wrap_i64_id z : (i64_min ≤ z ≤ i64_max)%Z → wrap_i64 z = z.
Proof. unfold wrap_i64, i64_min, i64_max. intros. rewrite Z.mod_small; lia. Qed.

(** ** Lemmas *)

Lemma str_app_nil (s : string) : s +:+ "" = s.
Proof. induction s as [|a s IH]; [done|]. exact (f_equal (String a) IH). Qed.

Lemma str_app_cons a (s t : string) : String a s +:+ t = String a (s +:+ t).
Proof. done. Qed.

Lemma str_length_app (s t : string) : String.length (s +:+ t) = String.length s + String.length t.
Proof. induction s as [|a s IH]; [done|]. rewrite str_app_cons. cbn [String.length]. lia. Qed.

Lemma to_lowercase_app s t : to_lowercase (s +:+ t) = to_lowercase s +:+ to_lowercase t.
Proof. induction s as [|a s IH]; [done|]. exact (f_equal (String (ascii_lower a)) IH). Qed.

Lemma to_lowercase_length s : String.length (to_lowercase s) = String.length s.
Proof. induction s as [|a s IH]; cbn; [done|]. by rewrite IH. Qed.

Lemma str_all_app p s t : str_all p (s +:+ t) = str_all p s && str_all p t.
Proof.
  induction s as [|a s IH]; [done|]. rewrite str_app_cons. cbn. by rewrite IH, andb_assoc.
Qed.

Lemma str_all_impl (p q : ascii → bool) s :
  (∀ a, p a = true → q a = true) → str_all p s = true → str_all q s = true.
Proof.
  intros Hpq. induction s as [|a s IH]; [done|]. cbn. intros [Ha Hs]%andb_prop.
  by rewrite (Hpq a Ha), IH.
Qed.

Lemma str_take_app s t : str_take (String.length s) (s +:+ t) = s.
Proof. induction s as [|a s IH]; cbn; [by destruct t|]. by rewrite str_app_cons, IH. Qed.

Lemma str_drop_app s t n : str_drop (String.length s + n) (s +:+ t) = str_drop n t.
Proof. induction s as [|a s IH]; [done|]. exact IH. Qed.

Lemma str_drop_exact s t : str_drop (String.length s) (s +:+ t) = t.
Proof. rewrite <- (Nat.add_0_r (String.length s)), str_drop_app. by destruct t. Qed.

Lemma find_char_app p s t :
  str_all (λ a, negb (p a)) s = true →
  find_char p (s +:+ t) = (λ n, String.length s + n) <$> find_char p t.
Proof.
  induction s as [|a s IH]; intros H.
  - change ("" +:+ t) with t. cbn. by destruct (find_char p t).
  - cbn in H. apply andb_prop in H as [Ha Hs]. rewrite str_app_cons. cbn.
    apply negb_true_iff in Ha. rewrite Ha, (IH Hs). by destruct (find_char p t).
Qed.

Lemma find_char_none p s : str_all (λ a, negb (p a)) s = true → find_char p s = None.
Proof.
  induction s as [|a s IH]; [done|]. cbn. intros [Ha Hs]%andb_prop.
  apply negb_true_iff in Ha. by rewrite Ha, IH.
Qed.

(** *** Trimming *)

Definition first_ok (s : string) : bool :=
  match s with String a _ => negb (is_whitespace a) | EmptyString => false end.
Fixpoint last_ok (s : string) : bool :=
  match s with
  | EmptyString => false
  | String a EmptyString => negb (is_whitespace a)
  | String _ s => last_ok s
  end.

Lemma first_ok_app s t : first_ok s = true → first_ok (s +:+ t) = true.
Proof. by destruct s. Qed.

Lemma last_ok_app s t : last_ok t = true → last_ok (s +:+ t) = true.
Proof.
  intros Ht. induction s as [|a s IH]; [done|]. rewrite str_app_cons.
  destruct (s +:+ t) eqn:E; [|exact IH]. destruct s; [|done].
  change ("" +:+ t) with t in E. by subst t.
Qed.

Lemma trim_start_id s : first_ok s = true → trim_start s = s.
Proof. unfold trim_start. destruct s as [|a s]; [done|]. cbn. intros H%negb_true_iff. by rewrite H. Qed.

Lemma trim_end_id s : last_ok s = true → trim_end s = s.
Proof.
  unfold trim_end. induction s as [|a s IH]; [done|]. cbn.
  destruct s as [|b s]; [intros H%negb_true_iff; cbn; by rewrite H|].
  intros H. by rewrite (IH H).
Qed.

Lemma trim_id s : first_ok s = true → last_ok s = true → trim s = s.
Proof. intros. unfold trim. rewrite trim_start_id by done. by apply trim_end_id. Qed.

Lemma trim_start_space w s :
  str_all is_whitespace w = true → trim_start (w +:+ s) = trim_start s.
Proof.
  unfold trim_start. induction w as [|a w IH]; [done|]. rewrite str_app_cons. cbn. intros [-> H]%andb_prop. by apply IH.
Qed.

Lemma trim_end_spaces w : str_all is_whitespace w = true → trim_end w = "".
Proof.
  unfold trim_end. induction w as [|a w IH]; [done|]. cbn. intros [Ha H]%andb_prop.
  by rewrite (IH H), Ha.
Qed.

Lemma trim_end_space s w :
  str_all is_whitespace w = true → trim_end (s +:+ w) = trim_end s.
Proof.
  intros Hw. induction s as [|a s IH]; [by apply trim_end_spaces|].
  rewrite str_app_cons. unfold trim_end in *. cbn. by rewrite IH.
Qed.

Lemma trim_start_app s w : first_ok (trim_start s) = true → trim_start (s +:+ w) = trim_start s +:+ w.
Proof.
  unfold trim_start. induction s as [|a s IH]; [done|]. rewrite str_app_cons. cbn.
  by destruct (is_whitespace a).
Qed.

Lemma trim_start_blank s : first_ok (trim_start s) = true ∨ str_all is_whitespace s = true.
Proof.
  unfold trim_start. induction s as [|a s IH]; [by right|]. cbn.
  destruct (is_whitespace a) eqn:Ha; [|left; cbn; by rewrite Ha]. exact IH.
Qed.

(** White space around a text does not survive trimming. *)
Lemma trim_pad w s w' :
  str_all is_whitespace w = true → str_all is_whitespace w' = true →
  trim (w +:+ s +:+ w') = trim s.
Proof.
  intros Hw Hw'. unfold trim. rewrite trim_start_space by done.
  destruct (trim_start_blank s) as [Hs|Hs].
  - rewrite trim_start_app by done. by apply trim_end_space.
  - assert (∀ t, str_all is_whitespace t = true → trim_start t = "") as Hb.
    { intros t Ht. rewrite <- (str_app_nil t). by rewrite trim_start_space. }
    by rewrite !Hb by (rewrite ?str_all_app, ?Hs; done).
Qed.

Lemma trim_end_first s : first_ok s = true → first_ok (trim_end s) = true.
Proof.
  unfold trim_end. destruct s as [|a s]; [done|]. cbn. intros Ha.
  destruct (trim_end_while is_whitespace s); cbn; [|done].
  apply negb_true_iff in Ha as Ha'. by rewrite Ha'.
Qed.

Lemma trim_end_idem s : trim_end (trim_end s) = trim_end s.
Proof.
  unfold trim_end. induction s as [|a s IH]; [done|]. cbn.
  destruct (trim_end_while is_whitespace s) as [|b t] eqn:E.
  - destruct (is_whitespace a) eqn:Ha; cbn; [done|by rewrite Ha].
  - cbn in IH |- *. by rewrite IH.
Qed.

Lemma trim_idem s : trim (trim s) = trim s.
Proof.
  unfold trim. destruct (trim_start_blank s) as [Hs|Hs].
  - rewrite (trim_start_id (trim_end _)) by by apply trim_end_first. apply trim_end_idem.
  - rewrite <- (str_app_nil s), trim_start_space by done. done.
Qed.

(** *** Splitting a joined list *)

Lemma split_on_nonempty p s : split_on p s ≠ [].
Proof. induction s as [|a s IH]; cbn; [done|]. destruct (p a); [done|]. by destruct (split_on p s). Qed.

Lemma split_on_app p s t :
  str_all (λ a, negb (p a)) s = true →
  split_on p (s +:+ t) =
    match split_on p t with [] => [] | w :: ws => (s +:+ w) :: ws end.
Proof.
  induction s as [|a s IH]; intros H.
  - change ("" +:+ t) with t. by destruct (split_on p t).
  - cbn in H. apply andb_prop in H as [Ha Hs]. apply negb_true_iff in Ha.
    rewrite str_app_cons. cbn. rewrite Ha, (IH Hs).
    pose proof (split_on_nonempty p t). by destruct (split_on p t).
Qed.

Lemma split_on_none p s : str_all (λ a, negb (p a)) s = true → split_on p s = [s].
Proof. intros H. rewrite <- (str_app_nil s) at 1. rewrite split_on_app by done. cbn. by rewrite str_app_nil. Qed.

Lemma join_with_cons sep x y l :
  join_with sep (x :: y :: l) = x +:+ sep +:+ join_with sep (y :: l).
Proof. done. Qed.

(** Splitting a list that was joined with a padded separator gives the parts
    back, up to the padding. *)
Lemma split_join c l r ws :
  is_whitespace c = false → str_all is_whitespace l = true → str_all is_whitespace r = true →
  ws ≠ [] → Forall (λ w, str_all (λ a, negb (is_char c a)) w = true) ws →
  trim <$> split_on (is_char c) (join_with (l +:+ String c r) ws) = trim <$> ws.
Proof.
  intros Hc Hl Hr. induction ws as [|w [|w' ws] IH]; intros Hne Hws; [done|..].
  - apply Forall_cons in Hws as [Hw _]. cbn [join_with]. by rewrite split_on_none.
  - apply Forall_cons in Hws as [Hw Hws]. rewrite join_with_cons, <- str_app_assoc.
    assert (∀ s, str_all is_whitespace s = true → str_all (λ a, negb (is_char c a)) s = true) as Hsp.
    { intros s. apply str_all_impl. intros a Ha. apply negb_true_iff. unfold is_char.
      apply Ascii.eqb_neq. intros ->. congruence. }
    rewrite str_app_assoc, split_on_app by by rewrite str_all_app, Hw, Hsp.
    rewrite str_app_cons. cbn [split_on]. rewrite (Ascii.eqb_refl c : is_char c c = true).
    rewrite str_app_nil, (fmap_cons trim (w +:+ l)), (fmap_cons trim w). f_equal.
    + change (w +:+ l) with ("" +:+ w +:+ l). by apply trim_pad.
    + rewrite <- IH by done. rewrite split_on_app by by apply Hsp.
      destruct (split_on (is_char c) (join_with (l +:+ String c r) (w' :: ws))) as [|x xs]; [done|].
      cbn. f_equal. rewrite <- (str_app_nil x) at 1. by apply trim_pad.
Qed.

(** ** Printed numbers *)

Lemma digit_of_char (d : N) : (d < 10)%N → digit_value (pretty_N_char d) = Some d.
Proof.
  intros Hd. assert (d = 0 ∨ d = 1 ∨ d = 2 ∨ d = 3 ∨ d = 4 ∨ d = 5 ∨ d = 6 ∨ d = 7 ∨ d = 8 ∨ d = 9)%N
    as H by lia.
  by repeat destruct H as [->|H]; subst.
Qed.

Lemma digits_value_pretty (x : N) : ∀ s,
  digits_value 0 (pretty_N_go x s) = digits_value x s.
Proof.
  induction (N.lt_wf_0 x) as [x _ IH]. intros s.
  destruct (decide (0 < x)%N) as [Hx|Hx].
  - rewrite pretty_N_go_step by done.
    rewrite IH by (apply N.div_lt; lia). cbn [digits_value].
    rewrite digit_of_char by (apply N.mod_lt; lia). cbn [mbind option_bind].
    f_equal. rewrite <- N.div_mod by lia. done.
  - assert (x = 0)%N as -> by lia. by rewrite pretty_N_go_0.
Qed.

Lemma digits_value_digits s : ∀ acc n,
  digits_value acc s = Some n → str_all (λ a, bool_decide (is_Some (digit_value a))) s = true.
Proof.
  induction s as [|a s IH]; intros acc n H; [done|]. cbn in H |- *.
  destruct (digit_value a) as [d|]; [|done]. cbn in H. by apply IH in H as ->.
Qed.

Lemma pretty_N_eq (n : N) : (0 < n)%N → pretty n = pretty_N_go n "".
Proof. intros. unfold pretty, pretty_N. by rewrite decide_False by lia. Qed.

Lemma parse_pretty (n : N) : parse_digits (pretty n) = Some n.
Proof.
  destruct (decide (n = 0%N)) as [->|Hn]; [done|].
  pose proof (digits_value_pretty n "") as H. rewrite <- pretty_N_eq in H by lia. cbn in H.
  unfold parse_digits. destruct (pretty n) eqn:E; [|done]. cbn in H. congruence.
Qed.

Lemma pretty_digits (n : N) : str_all (λ a, bool_decide (is_Some (digit_value a))) (pretty n) = true.
Proof.
  pose proof (parse_pretty n) as H. unfold parse_digits in H.
  destruct (pretty n) as [|a s] eqn:E; [done|]. by eapply digits_value_digits.
Qed.

Lemma parse_u64_pretty (n : N) : (n ≤ u64_max)%N → parse_u64 (pretty n) = Some n.
Proof.
  intros Hn. unfold parse_u64.
  assert (strip_prefix_char "+" (pretty n) = None) as ->.
  { pose proof (pretty_digits n) as H. destruct (pretty n) as [|a s]; [done|]. cbn in H |- *.
    destruct (Ascii.eqb_spec a "+") as [->|]; [done|done]. }
  cbn [default]. rewrite parse_pretty. cbn. by rewrite (proj2 (N.leb_le _ _)).
Qed.

Lemma pretty_nonempty (n : N) : pretty n ≠ "".
Proof. intros E. pose proof (parse_pretty n) as H. rewrite E in H. done. Qed.

Lemma pretty_no_space (n : N) : str_all (λ a, negb (is_whitespace a)) (pretty n) = true.
Proof.
  eapply str_all_impl; [|apply pretty_digits]. intros a Ha%bool_decide_eq_true.
  destruct a as [[] [] [] [] [] [] [] []]; try done; by destruct Ha.
Qed.

Lemma pretty_first_ok (n : N) : first_ok (pretty n) = true.
Proof.
  pose proof (pretty_no_space n) as H. pose proof (pretty_nonempty n).
  destruct (pretty n); [done|]. cbn in H. by apply andb_prop in H as [? _].
Qed.

Lemma starts_with_app p s : starts_with p (p +:+ s) = true.
Proof.
  induction p as [|a p IH]; [by destruct s|]. rewrite str_app_cons. cbn.
  destruct (ascii_dec a a); [exact IH|done].
Qed.

Lemma starts_with_iff p s : starts_with p s = true ↔ ∃ t, s = p +:+ t.
Proof.
  split; [|intros [t ->]; apply starts_with_app].
  revert s. induction p as [|a p IH]; intros s H; [by exists s|].
  destruct s as [|b s]; [done|]. cbn in H. destruct (ascii_dec a b) as [<-|]; [|done].
  destruct (IH s H) as [t ->]. by exists t.
Qed.

Lemma find_sub_prefix p s : find_sub p (p +:+ s) = Some 0.
Proof.
  pose proof (starts_with_app p s) as H. destruct (p +:+ s); cbn [find_sub]; by rewrite H.
Qed.

Lemma to_uppercase_app s t : to_uppercase (s +:+ t) = to_uppercase s +:+ to_uppercase t.
Proof. induction s as [|a s IH]; [done|]. rewrite !str_app_cons. cbn. by rewrite IH. Qed.

Lemma digits_avoid c (n : N) :
  digit_value c = None → str_all (λ a, negb (is_char c a)) (pretty n) = true.
Proof.
  intros Hc. eapply str_all_impl; [|apply pretty_digits]. intros a Ha%bool_decide_eq_true.
  unfold is_char. destruct (Ascii.eqb_spec c a) as [<-|]; [|done]. rewrite Hc in Ha. by destruct Ha.
Qed.

(** Replacing a character. *)
Lemma replace_char c rep a s :
  replace (String c "") rep (String a s) =
    if Ascii.eqb a c then rep +:+ replace (String c "") rep s else String a (replace (String c "") rep s).
Proof.
  unfold replace. cbn [replace_go]. unfold starts_with. cbn [String.prefix].
  destruct (Ascii.eqb_spec a c) as [->|Hne].
  - destruct (ascii_dec c c); [|done]. by destruct s.
  - by destruct (ascii_dec c a) as [->|].
Qed.

Lemma replace_char_none c rep s :
  str_all (λ a, negb (is_char c a)) s = true → replace (String c "") rep s = s.
Proof.
  induction s as [|a s IH]; [done|]. cbn [str_all]. intros [Ha Hs]%andb_prop. rewrite replace_char, IH by done.
  unfold is_char in Ha. rewrite Ascii.eqb_sym in Ha. by destruct (Ascii.eqb a c).
Qed.

Lemma strip_prefix_app p s : str_strip_prefix p (p +:+ s) = Some s.
Proof. unfold str_strip_prefix. by rewrite starts_with_app, str_drop_exact. Qed.

Lemma str_all_join p sep l : str_all p sep = true → Forall (λ w, str_all p w = true) l → str_all p (join_with sep l) = true.
Proof.
  intros Hs. induction l as [|x [|y l] IH]; intros Hl; [done|exact (Forall_inv Hl)|].
  apply Forall_cons in Hl as [Hx Hl]. rewrite join_with_cons, !str_all_app, Hx, Hs. by apply IH.
Qed.
