(* ===== verification/Float.v ===== *)
(** * Float: binary64 numbers

    The [f64] arithmetic and comparisons of the engine and the server, computed
    with the Standard Library's [SpecFloat] at precision 53, and the order of the
    numbers other than NaN as the lexicographic order of a rank. *)

From stdpp Require Import base list.
From Stdlib Require Import NArith ZArith Lia SpecFloat.

(** ** binary64 arithmetic *)

Abbreviation f64 := spec_float.
Definition fadd (x y : f64) : f64 := SFadd 53 1024 x y.
Definition fmul (x y : f64) : f64 := SFmul 53 1024 x y.
Definition fdiv (x y : f64) : f64 := SFdiv 53 1024 x y.
(** [n as f64]: rounded to nearest, ties to even. *)
Definition f64_of_N (n : N) : f64 := binary_normalize 53 1024 (Z.of_N n) 0 false.

(** [a.min(b)] and [a.max(b)]: a NaN operand is ignored. *)
Definition fmin (a b : f64) : f64 :=
  match SFcompare a b with
  | Some Gt => b
  | Some _ => a
  | None => match a with S754_nan => b | _ => a end
  end.
Definition fmax (a b : f64) : f64 :=
  match SFcompare a b with
  | Some Lt => b
  | Some _ => a
  | None => match a with S754_nan => b | _ => a end
  end.

Definition f_zero : f64 := S754_zero false.
Definition fsub (x y : f64) : f64 := SFsub 53 1024 x y.
Definition fsqrt (x : f64) : f64 := SFsqrt 53 1024 x.

(** [a < b] and [a <= b]: false when an operand is NaN. *)
Definition fltb (a b : f64) : bool := match SFcompare a b with Some Lt => true | _ => false end.
Definition fleb (a b : f64) : bool :=
  match SFcompare a b with Some Lt | Some Eq => true | _ => false end.
Definition feqb (a b : f64) : bool := match SFcompare a b with Some Eq => true | _ => false end.

(** [iter.sum::<f64>()]; the fold starts from -0.0. *)
Definition fsum (l : list f64) : f64 := foldl fadd (S754_zero true) l.

(** ** The order of binary64 numbers *)

(** A number other than NaN, placed in a lexicographic order. *)
Definition float_rank (x : f64) : Z * Z * Z :=
  match x with
  | S754_zero _ | S754_nan => (0, 0, 0)
  | S754_infinity s => (if s then -2 else 2, 0, 0)
  | S754_finite s m e => if s then (-1, - e, - Zpos m) else (1, e, Zpos m)
  end%Z.
Definition rank_compare (x y : Z * Z * Z) : comparison :=
  match Z.compare x.1.1 y.1.1 with
  | Eq => match Z.compare x.1.2 y.1.2 with
          | Eq => Z.compare x.2 y.2
          | c => c
          end
  | c => c
  end.

Lemma SFcompare_rank x y :
  x ≠ S754_nan → y ≠ S754_nan → SFcompare x y = Some (rank_compare (float_rank x) (float_rank y)).
Proof.
  assert (∀ a b, Pos.compare_cont Eq a b = Z.compare (Zpos a) (Zpos b)) as Hpos by done.
  destruct x as [[]|[]| |[] m e], y as [[]|[]| |[] m' e']; try done; intros _ _;
    cbn [SFcompare float_rank]; unfold rank_compare; cbn [fst snd]; f_equal; rewrite ?Hpos.
  - rewrite !Z.compare_opp, (Z.compare_antisym e e'), (Z.compare_antisym (Zpos m) (Zpos m')).
    by destruct (e ?= e')%Z, (Zpos m ?= Zpos m')%Z.
Qed.

Lemma rank_compare_le x y :
  rank_compare x y ≠ Gt ↔
  (x.1.1 < y.1.1 ∨ x.1.1 = y.1.1 ∧ (x.1.2 < y.1.2 ∨ x.1.2 = y.1.2 ∧ x.2 ≤ y.2))%Z.
Proof.
  unfold rank_compare.
  destruct (Z.compare_spec x.1.1 y.1.1), (Z.compare_spec x.1.2 y.1.2),
    (Z.compare_spec x.2 y.2); split; intros; first [congruence|lia|exfalso; lia].
Qed.

Lemma rank_compare_trans x y z :
  rank_compare x y ≠ Gt → rank_compare y z ≠ Gt → rank_compare x z ≠ Gt.
Proof. rewrite !rank_compare_le. lia. Qed.

Lemma rank_compare_antisym x y : rank_compare y x = CompOpp (rank_compare x y).
Proof.
  destruct x as [[a b] c], y as [[a' b'] c']. unfold rank_compare. cbn.
  rewrite (Z.compare_antisym a a'), (Z.compare_antisym b b'), (Z.compare_antisym c c').
  by destruct (a ?= a')%Z, (b ?= b')%Z, (c ?= c')%Z.
Qed.

(** ** Casts *)

Definition u64_top : N := 18446744073709551615.

(** [f as u64]: toward zero, within the range, zero for what is no number. *)
Definition f64_as_u64 (f : f64) : N :=
  match f with
  | S754_zero _ | S754_nan | S754_infinity true | S754_finite true _ _ => 0%N
  | S754_infinity false => u64_top
  | S754_finite false m e =>
      let z := if (0 <=? e)%Z then Z.shiftl (Zpos m) e else Z.shiftr (Zpos m) (- e) in
      N.min (Z.to_N z) u64_top
  end.
