(* ===== verification/Arrow.v ===== *)
(** * Arrow: the columnar data the engine works on

    The engine's results are Apache Arrow [RecordBatch]es.  Arrow is a
    dependency, so this file fixes only what the engine can see of it: the
    data a batch holds (a schema, and per column a data type and a list of
    nullable values), and the compute kernels the engine calls, as the
    parameters of the class [ArrowKernels].  What Arrow documents of those
    kernels is the class [ArrowLaws]; every theorem that depends on a kernel
    names that class.  [RefArrow] of the file [ArrowRef] is a concrete model. *)

From S2P Require Import Prelude.
From stdpp Require Import base list strings sorting.
From Stdlib Require Import NArith ZArith Lia SpecFloat.

(** ** Types, values, columns, batches *)

Inductive DataType : Type :=
| Int8 | Int16 | Int32 | Int64
| Float32 | Float64
| Utf8 | LargeUtf8
| Boolean
| OtherType (name : string).

#[export] Instance DataType_eq_dec : EqDecision DataType.
Proof. solve_decision. Defined.

Inductive ArrayValue : Type :=
| VInt (z : Z)
| VFloat (f : spec_float)
| VUtf8 (s : string)
| VBool (b : bool)
| VOther (s : string).

#[export] Instance spec_float_eq_dec : EqDecision spec_float.
Proof. solve_decision. Defined.
#[export] Instance ArrayValue_eq_dec : EqDecision ArrayValue.
Proof. solve_decision. Defined.

(** A cell is [None] when the validity bit is off. *)
Abbreviation cell := (option ArrayValue).

Record Array : Type := mkArray { data_type : DataType; data : list cell }.

#[export] Instance Array_eq_dec : EqDecision Array.
Proof. solve_decision. Defined.

Record Field : Type := mkField { name : string; field_type : DataType; nullable : bool }.

#[export] Instance Field_eq_dec : EqDecision Field.
Proof. solve_decision. Defined.

Abbreviation Schema := (list Field).

Record RecordBatch : Type :=
  mkBatch { schema : Schema; columns : list Array; num_rows : nat }.

Definition ArrowError : Type := string.

(** [array.len()], [array.is_null(i)], [schema.index_of(name)]. *)
Definition array_len (a : Array) : nat := length (data a).
Definition value_at (a : Array) (i : nat) : cell := mjoin (data a !! i).
Definition is_null (a : Array) (i : nat) : bool := bool_decide (value_at a i = None).
Definition index_of (s : Schema) (n : string) : option nat :=
  position (λ f, String.eqb (name f) n) s.

(** Row [i] of a list of columns, and all rows of a batch. *)
Definition row_at (cols : list Array) (i : nat) : list cell := (λ a, value_at a i) <$> cols.
Definition batch_rows (b : RecordBatch) : list (list cell) :=
  row_at (columns b) <$> seq 0 (num_rows b).

(** A column may stand under a field when the types agree and a
    non-nullable field has no nulls. *)
Definition conforms (f : Field) (a : Array) : Prop :=
  data_type a = field_type f ∧
  (nullable f = true ∨ Forall (λ c : cell, c ≠ None) (data a)).

#[export] Instance conforms_dec f a : Decision (conforms f a).
Proof. unfold conforms. apply _. Defined.

(** The invariant of a batch that [RecordBatch::try_new] enforces. *)
Definition wf_columns (s : Schema) (cols : list Array) (n : nat) : Prop :=
  Forall2 conforms s cols ∧ Forall (λ a, array_len a = n) cols.
Definition wf_batch (b : RecordBatch) : Prop :=
  wf_columns (schema b) (columns b) (num_rows b).

#[export] Instance wf_columns_dec s cols n : Decision (wf_columns s cols n).
Proof. unfold wf_columns. apply _. Defined.
#[export] Instance wf_batch_dec b : Decision (wf_batch b).
Proof. unfold wf_batch. apply _. Defined.

(** Column-wise concatenation of batches under a schema. *)
Definition concat_columns (s : Schema) (bs : list RecordBatch) : list Array :=
  imap (λ i f, mkArray (field_type f)
                 (concat ((λ b, from_option data [] (columns b !! i)) <$> bs))) s.
Definition concat_ref (s : Schema) (bs : list RecordBatch) : RecordBatch :=
  mkBatch s (concat_columns s bs) (sum_list (num_rows <$> bs)).

(** ** Sort keys *)

Record SortColumn : Type :=
  mkSortColumn { values : Array; descending : bool; nulls_first : bool }.

(** Comparison of two cells under the options of a sort column, given the
    order of the values. *)
Definition cell_compare (cmp : ArrayValue → ArrayValue → comparison)
    (desc nf : bool) (x y : cell) : comparison :=
  match x, y with
  | None, None => Eq
  | None, Some _ => if nf then Lt else Gt
  | Some _, None => if nf then Gt else Lt
  | Some a, Some b => if desc then cmp b a else cmp a b
  end.

(** Lexicographic comparison of rows [i] and [j]. *)
Fixpoint lex_compare (cmp : ArrayValue → ArrayValue → comparison)
    (cols : list SortColumn) (i j : nat) : comparison :=
  match cols with
  | [] => Eq
  | c :: cols =>
      match cell_compare cmp (descending c) (nulls_first c)
              (value_at (values c) i) (value_at (values c) j) with
      | Eq => lex_compare cmp cols i j
      | r => r
      end
  end.

Definition lex_le cmp cols (i j : nat) : Prop := lex_compare cmp cols i j ≠ Gt.

#[export] Instance lex_le_dec cmp cols i j : Decision (lex_le cmp cols i j).
Proof. unfold lex_le. apply _. Defined.

(** ** The kernels the engine calls *)

Class ArrowKernels : Type := {
  arrow_take : Array → list N → outcome ArrowError Array;
  concat_batches : Schema → list RecordBatch → outcome ArrowError RecordBatch;
  try_new : Schema → list Array → outcome ArrowError RecordBatch;
  boolean_not : list bool → outcome ArrowError (list bool);
  nullif : Array → list bool → outcome ArrowError Array;
  new_null_array : DataType → nat → Array;
  cast : Array → DataType → outcome ArrowError Array;
  lexsort_to_indices : list SortColumn → option nat → outcome ArrowError (list N);
  batch_slice : RecordBatch → nat → nat → RecordBatch;
  array_value_to_string : Array → nat → ArrowError + string;
  array_debug : Array → nat → string;
  value_compare : ArrayValue → ArrayValue → comparison;
}.

(** A total preorder on values, as a comparison function. *)
Class CompareLaws {A : Type} (cmp : A → A → comparison) : Prop := {
  cmp_antisym x y : cmp y x = CompOpp (cmp x y);
  cmp_trans x y z : cmp x y ≠ Gt → cmp y z ≠ Gt → cmp x z ≠ Gt;
}.

(** What Arrow documents of the kernels. *)
Class ArrowLaws (K : ArrowKernels) : Prop := {
  (** in range, [arrow_take] is the gather; past the end it panics *)
  take_in_range a idx :
    Forall (λ i, (i < N.of_nat (array_len a))%N) idx →
    arrow_take a idx = Ok (mkArray (data_type a) (gather (data a) (N.to_nat <$> idx)));
  take_out_of_range a idx :
    ¬ Forall (λ i, (i < N.of_nat (array_len a))%N) idx → arrow_take a idx = Panic;
  (** the batches' own schemas are ignored, their columns are concatenated *)
  concat_batches_ok s bs :
    s ≠ [] → Forall (λ b, wf_columns s (columns b) (num_rows b)) bs →
    concat_batches s bs = Ok (concat_ref s bs);
  try_new_ok s c cols :
    wf_columns s (c :: cols) (array_len c) →
    try_new s (c :: cols) = Ok (mkBatch s (c :: cols) (array_len c));
  boolean_not_ok m : boolean_not m = Ok (negb <$> m);
  (** the value where the mask is false, null where it is true *)
  nullif_ok a m :
    length m = array_len a →
    nullif a m = Ok (mkArray (data_type a)
                       (zip_with (λ (c : cell) (b : bool), if b then None else c) (data a) m));
  new_null_array_ok t n : new_null_array t n = mkArray t (replicate n None);
  cast_ok a t a' : cast a t = Ok a' → data_type a' = t ∧ array_len a' = array_len a;
  batch_slice_ok b n :
    wf_batch b → n ≤ num_rows b →
    batch_slice b 0 n =
      mkBatch (schema b) ((λ a, mkArray (data_type a) (take n (data a))) <$> columns b) n;
  (** the indices of the rows in sort order, up to the limit *)
  lexsort_ok c cols limit :
    Forall (λ c', array_len (values c') = array_len (values c)) cols →
    ∃ full, lexsort_to_indices (c :: cols) limit =
              Ok (N.of_nat <$> match limit with Some n => take n full | None => full end) ∧
            Permutation full (seq 0 (array_len (values c))) ∧
            StronglySorted (lex_le value_compare (c :: cols)) full;
  value_compare_laws :: CompareLaws value_compare;
}.

(** ** Facts about batches and kernels *)

Lemma is_null_true a i : is_null a i = true ↔ value_at a i = None.
Proof. apply bool_decide_eq_true. Qed.
Lemma is_null_false a i : is_null a i = false ↔ ∃ v, value_at a i = Some v.
Proof.
  unfold is_null. rewrite bool_decide_eq_false. destruct (value_at a i); naive_solver.
Qed.

Lemma value_at_lookup a i c : data a !! i = Some c → value_at a i = c.
Proof. unfold value_at. by intros ->. Qed.

Lemma index_of_Some s n i :
  index_of s n = Some i → ∃ f, s !! i = Some f ∧ name f = n.
Proof.
  intros (f & Hf & Hn)%position_Some. exists f. split; [done|]. by apply String.eqb_eq.
Qed.

Lemma index_of_None s n : index_of s n = None ↔ n ∉ (name <$> s).
Proof.
  unfold index_of. rewrite position_None, Forall_forall, list_elem_of_fmap. split.
  - intros H (f & -> & Hf). specialize (H f Hf). by rewrite String.eqb_refl in H.
  - intros H f Hf. apply String.eqb_neq. intros <-. eauto.
Qed.

Lemma index_of_NoDup s n i f :
  NoDup (name <$> s) → s !! i = Some f → name f = n → index_of s n = Some i.
Proof.
  intros Hnd Hf Hn. destruct (index_of s n) as [j|] eqn:E.
  - apply index_of_Some in E as (g & Hg & Hgn). f_equal.
    apply (NoDup_lookup (name <$> s) j i n Hnd); rewrite list_lookup_fmap.
    + by rewrite Hg; cbn; rewrite Hgn.
    + by rewrite Hf; cbn; rewrite Hn.
  - apply index_of_None in E. destruct E. apply list_elem_of_fmap.
    exists f. split; [done|]. by eapply list_elem_of_lookup_2.
Qed.

Lemma batch_rows_length b : length (batch_rows b) = num_rows b.
Proof. unfold batch_rows. by rewrite length_fmap, length_seq. Qed.

Lemma wf_columns_length s cols n : wf_columns s cols n → length cols = length s.
Proof. intros [H _]. symmetry. by eapply Forall2_length. Qed.

Lemma wf_columns_lookup s cols n i a :
  wf_columns s cols n → cols !! i = Some a → array_len a = n.
Proof. intros [_ H] Ha. by eapply Forall_lookup_1 in H. Qed.

Lemma wf_columns_type s cols n i f a :
  wf_columns s cols n → s !! i = Some f → cols !! i = Some a → conforms f a.
Proof. intros [H _] Hf Ha. by eapply Forall2_lookup_lr. Qed.

Lemma conforms_nullable f a :
  data_type a = field_type f → nullable f = true → conforms f a.
Proof. intros. split; auto. Qed.

Lemma sum_list_length_concat {A B : Type} (f : A → list B) (l : list A) :
  length (concat (f <$> l)) = sum_list (length ∘ f <$> l).
Proof. induction l as [|x l IH]; cbn; [done|]. by rewrite length_app, IH. Qed.

(** Concatenating well-formed batches gives a well-formed batch. *)
Lemma concat_ref_wf s bs :
  Forall (λ b, wf_columns s (columns b) (num_rows b)) bs → wf_batch (concat_ref s bs).
Proof.
  intros Hbs. split; cbn.
  - apply Forall2_same_length_lookup_2; unfold concat_columns; [by rewrite length_imap|].
    intros i f a Hf Ha. rewrite list_lookup_imap, Hf in Ha. cbn in Ha. simplify_eq.
    split; [done|]. cbn. destruct (nullable f) eqn:Hn; [by left|right].
    apply Forall_concat, Forall_fmap, Forall_forall. intros b Hb.
    rewrite Forall_forall in Hbs. specialize (Hbs b Hb). cbn.
    destruct (columns b !! i) as [a|] eqn:Ea; cbn; [|done].
    destruct (wf_columns_type _ _ _ _ _ _ Hbs Hf Ea) as [_ [?|?]]; congruence.
  - apply Forall_lookup_2. intros i a Ha. unfold concat_columns in Ha.
    rewrite list_lookup_imap in Ha. destruct (s !! i) as [f|] eqn:Hf; cbn in Ha; [|done].
    simplify_eq. unfold array_len. cbn. rewrite sum_list_length_concat.
    f_equal. apply list_fmap_ext. intros _ b Hb%list_elem_of_lookup_2. cbn.
    rewrite Forall_forall in Hbs. specialize (Hbs b Hb).
    destruct (columns b !! i) as [a|] eqn:Ea; cbn.
    + by eapply wf_columns_lookup.
    + apply lookup_ge_None in Ea. apply lookup_lt_Some in Hf.
      rewrite (wf_columns_length _ _ _ Hbs) in Ea. lia.
Qed.

Lemma concat_ref_lookup s bs i f :
  s !! i = Some f →
  columns (concat_ref s bs) !! i =
    Some (mkArray (field_type f) (concat ((λ b, from_option data [] (columns b !! i)) <$> bs))).
Proof. intros Hf. cbn. unfold concat_columns. by rewrite list_lookup_imap, Hf. Qed.

Lemma concat_ref_row_l s b bs i :
  wf_columns s (columns b) (num_rows b) → i < num_rows b →
  row_at (concat_columns s (b :: bs)) i = row_at (columns b) i.
Proof.
  intros Hb Hi. apply list_eq. intros j. unfold row_at, concat_columns.
  rewrite !list_lookup_fmap, list_lookup_imap.
  pose proof (wf_columns_length _ _ _ Hb) as Hlen.
  destruct (s !! j) as [f|] eqn:Hf; cbn.
  - apply lookup_lt_Some in Hf as Hj. rewrite <- Hlen in Hj.
    destruct (lookup_lt_is_Some_2 _ _ Hj) as [a Ha]. rewrite Ha. cbn. f_equal.
    pose proof (wf_columns_lookup _ _ _ _ _ Hb Ha) as Hl. unfold value_at, array_len in *. cbn.
    by rewrite lookup_app_l by lia.
  - apply lookup_ge_None in Hf. rewrite <- Hlen in Hf. by rewrite lookup_ge_None_2.
Qed.

Lemma concat_ref_row_r s b bs i :
  wf_columns s (columns b) (num_rows b) →
  row_at (concat_columns s (b :: bs)) (num_rows b + i) = row_at (concat_columns s bs) i.
Proof.
  intros Hb. apply list_eq. intros j. unfold row_at, concat_columns.
  rewrite !list_lookup_fmap, !list_lookup_imap.
  pose proof (wf_columns_length _ _ _ Hb) as Hlen.
  destruct (s !! j) as [f|] eqn:Hf; cbn; [|done]. f_equal.
  apply lookup_lt_Some in Hf as Hj. rewrite <- Hlen in Hj.
  destruct (lookup_lt_is_Some_2 _ _ Hj) as [a Ha]. rewrite Ha.
  pose proof (wf_columns_lookup _ _ _ _ _ Hb Ha) as Hl. unfold value_at, array_len in *. cbn.
  rewrite lookup_app_r by lia. do 2 f_equal. lia.
Qed.

(** The rows of a concatenation are the rows of the batches, in order. *)
Lemma concat_ref_rows s bs :
  Forall (λ b, wf_columns s (columns b) (num_rows b)) bs →
  batch_rows (concat_ref s bs) = concat (batch_rows <$> bs).
Proof.
  induction 1 as [|b bs Hb _ IH]; [done|]. rewrite fmap_cons. cbn [concat]. rewrite <- IH.
  unfold batch_rows, concat_ref. cbn [columns num_rows]. rewrite fmap_cons.
  change (sum_list (num_rows b :: (num_rows <$> bs))) with (num_rows b + sum_list (num_rows <$> bs)).
  rewrite seq_app, fmap_app. f_equal.
  - apply list_fmap_ext. intros i k Hk. apply concat_ref_row_l; [done|].
    apply lookup_seq in Hk. lia.
  - change (0 + num_rows b) with (id (num_rows b)). rewrite <- (Nat.add_0_r (id _)).
    rewrite <- fmap_add_seq, <- list_fmap_compose. apply list_fmap_ext.
    intros i k Hk. by apply concat_ref_row_r.
Qed.
