(* ===== verification/ArrowRef.v ===== *)
(** * ArrowRef: a concrete model of the Arrow kernels

    One executable instance of [ArrowKernels] that satisfies [ArrowLaws], so
    that the laws are consistent and the theorems proved against them can be
    evaluated on concrete batches. *)

From S2P Require Import Prelude Arrow.
From stdpp Require Import base list strings sorting countable pretty.
From Stdlib Require Import NArith ZArith Lia SpecFloat.

(** ** A total order on values: constructor first, then a numeric key. *)

Definition float_key (f : spec_float) : Z :=
  match f with
  | S754_zero s => if s then -1 else 0
  | S754_infinity s => if s then -2 else 2
  | S754_nan => 3
  | S754_finite s m e =>
      4 + Zpos (encode (s, m, match e with Z0 => (0%N, xH) | Zpos p => (1%N, p) | Zneg p => (2%N, p) end))
  end.

Definition value_key (v : ArrayValue) : Z * Z :=
  match v with
  | VInt z => (0, z)
  | VFloat f => (1, float_key f)
  | VUtf8 s => (2, Zpos (encode s))
  | VBool b => (3, if b then 1 else 0)
  | VOther s => (4, Zpos (encode s))
  end%Z.

Definition key_compare (x y : Z * Z) : comparison :=
  match Z.compare (fst x) (fst y) with
  | Eq => Z.compare (snd x) (snd y)
  | r => r
  end.

Definition ref_compare (x y : ArrayValue) : comparison :=
  key_compare (value_key x) (value_key y).

Lemma key_compare_antisym x y : key_compare y x = CompOpp (key_compare x y).
Proof.
  unfold key_compare. rewrite (Z.compare_antisym (fst x)), (Z.compare_antisym (snd x)).
  by destruct (fst x ?= fst y)%Z, (snd x ?= snd y)%Z.
Qed.

Lemma key_compare_trans x y z :
  key_compare x y ≠ Gt → key_compare y z ≠ Gt → key_compare x z ≠ Gt.
Proof.
  unfold key_compare.
  destruct (Z.compare_spec (fst x) (fst y)), (Z.compare_spec (fst y) (fst z)),
    (Z.compare_spec (fst x) (fst z)), (Z.compare_spec (snd x) (snd y)),
    (Z.compare_spec (snd y) (snd z)), (Z.compare_spec (snd x) (snd z)); lia || done.
Qed.

#[export] Instance ref_compare_laws : CompareLaws ref_compare.
Proof.
  split; intros; [apply key_compare_antisym | by eapply key_compare_trans].
Qed.

Lemma float_key_inj f g : float_key f = float_key g → f = g.
Proof.
  destruct f as [[]|[]| |s m e], g as [[]|[]| |s' m' e']; cbn; try done; try lia.
  intros H. assert (encode (s, m, match e with Z0 => (0%N, xH) | Zpos p => (1%N, p) | Zneg p => (2%N, p) end)
    = encode (s', m', match e' with Z0 => (0%N, xH) | Zpos p => (1%N, p) | Zneg p => (2%N, p) end)) as E by lia.
  apply encode_inj in E. destruct e, e'; by simplify_eq.
Qed.

Lemma value_key_inj x y : value_key x = value_key y → x = y.
Proof.
  destruct x as [?|?|?|[]|?], y as [?|?|?|[]|?]; cbn; intros [=]; try done; f_equal;
    first [done | by apply float_key_inj | by apply encode_inj].
Qed.

(** Values that compare equal are equal. *)
Lemma ref_compare_eq x y : ref_compare x y = Eq → x = y.
Proof.
  unfold ref_compare, key_compare. intros H. apply value_key_inj.
  destruct (value_key x) as [a b], (value_key y) as [c d]. cbn in H.
  destruct (Z.compare_spec a c) as [->| |]; [|done..]. apply Z.compare_eq in H. by subst.
Qed.

(** ** From a total preorder on values to one on rows *)

Section RowOrder.
Context (cmp : ArrayValue → ArrayValue → comparison) `{!CompareLaws cmp}.

Lemma cell_compare_antisym d nf x y :
  cell_compare cmp d nf y x = CompOpp (cell_compare cmp d nf x y).
Proof. destruct x, y, d, nf; cbn; try done; apply cmp_antisym. Qed.

Lemma cell_compare_trans d nf x y z :
  cell_compare cmp d nf x y ≠ Gt → cell_compare cmp d nf y z ≠ Gt →
  cell_compare cmp d nf x z ≠ Gt.
Proof.
  destruct x, y, z, d, nf; cbn; try done; intros; eapply cmp_trans; eauto.
Qed.

Lemma cell_compare_eq_trans d nf x y z :
  cell_compare cmp d nf x y = Eq → cell_compare cmp d nf y z = Eq →
  cell_compare cmp d nf x z = Eq.
Proof.
  intros Hxy Hyz.
  assert (cell_compare cmp d nf x z ≠ Gt)
    by (eapply (cell_compare_trans d nf x y z); congruence).
  assert (cell_compare cmp d nf z x ≠ Gt).
  { eapply (cell_compare_trans d nf z y x);
      rewrite cell_compare_antisym, ?Hxy, ?Hyz; cbn; done. }
  rewrite (cell_compare_antisym d nf x z) in *.
  by destruct (cell_compare cmp d nf x z).
Qed.

Lemma lex_compare_antisym cols i j :
  lex_compare cmp cols j i = CompOpp (lex_compare cmp cols i j).
Proof.
  induction cols as [|c cols IH]; cbn; [done|].
  rewrite (cell_compare_antisym _ _ (value_at (values c) i)).
  by destruct (cell_compare cmp _ _ _ _).
Qed.

Lemma lex_le_trans cols : Transitive (lex_le cmp cols).
Proof.
  unfold lex_le. intros i j k. induction cols as [|c cols IH]; cbn; [done|].
  set (x := value_at _ i). set (y := value_at _ j). set (z := value_at _ k).
  set (d := descending c). set (nf := nulls_first c).
  pose proof (cell_compare_trans d nf x y z) as T.
  pose proof (cell_compare_trans d nf z x y) as T1.
  pose proof (cell_compare_trans d nf y z x) as T2.
  pose proof (cell_compare_eq_trans d nf x y z) as Te.
  rewrite (cell_compare_antisym d nf x z), (cell_compare_antisym d nf y z) in T1.
  rewrite (cell_compare_antisym d nf x z), (cell_compare_antisym d nf x y) in T2.
  destruct (cell_compare cmp d nf x y), (cell_compare cmp d nf y z),
    (cell_compare cmp d nf x z); cbn in *; naive_solver.
Qed.

Lemma lex_le_total cols : Total (lex_le cmp cols).
Proof.
  intros i j. unfold lex_le. rewrite (lex_compare_antisym cols i j).
  destruct (lex_compare cmp cols i j); cbn; naive_solver.
Qed.
End RowOrder.

(** ** The instance *)

Definition ref_show (a : Array) (i : nat) : string :=
  match value_at a i with
  | None => ""
  | Some (VInt z) => pretty z
  | Some (VUtf8 s) => s
  | Some (VOther s) => s
  | Some (VBool b) => if b then "true" else "false"
  | Some (VFloat f) => pretty (float_key f)
  end.

(** The debug form of a one-row slice, which tells all values apart. *)
Definition ref_debug (a : Array) (i : nat) : string :=
  match value_at a i with
  | None => "null"
  | Some v => pretty (fst (value_key v)) +:+ ":" +:+ pretty (snd (value_key v))
  end.

Lemma ref_debug_inj a i b j : ref_debug a i = ref_debug b j ↔ value_at a i = value_at b j.
Proof.
  unfold ref_debug. split; [|by intros ->].
  destruct (value_at a i) as [v|], (value_at b j) as [w|]; [| | |done].
  - intros H. f_equal. apply value_key_inj.
    destruct v, w; cbn in H |- *; vm_compute (pretty _) in H; try discriminate H.
    all: injection H as H; f_equal; by apply (inj pretty).
  - destruct v; discriminate.
  - destruct w; discriminate.
Qed.

(** A cast to [Utf8] renders the values; other casts are left abstract and
    keep them. *)
Definition ref_cast (a : Array) (t : DataType) : Array :=
  mkArray t (if decide (t = Utf8)
             then imap (λ i (c : cell), c ≫= λ _, Some (VUtf8 (ref_show a i))) (data a)
             else data a).

Lemma ref_cast_len a t : array_len (ref_cast a t) = array_len a.
Proof. unfold ref_cast, array_len. cbn. case_decide; [by rewrite length_imap|done]. Qed.

Definition RefArrow : ArrowKernels := {|
  arrow_take a idx :=
    if decide (Forall (λ i, (i < N.of_nat (array_len a))%N) idx)
    then Ok (mkArray (data_type a) (gather (data a) (N.to_nat <$> idx)))
    else Panic;
  concat_batches s bs :=
    if decide (s ≠ [] ∧ Forall (λ b, wf_columns s (columns b) (num_rows b)) bs)
    then Ok (concat_ref s bs) else Err "concat_batches";
  try_new s cols :=
    match cols with
    | [] => Err "no columns"
    | c :: _ =>
        if decide (wf_columns s cols (array_len c))
        then Ok (mkBatch s cols (array_len c)) else Err "invalid batch"
    end;
  boolean_not m := Ok (negb <$> m);
  nullif a m :=
    if decide (length m = array_len a)
    then Ok (mkArray (data_type a)
               (zip_with (λ (c : cell) (b : bool), if b then None else c) (data a) m))
    else Err "nullif";
  new_null_array t n := mkArray t (replicate n None);
  cast a t := Ok (ref_cast a t);
  lexsort_to_indices cols limit :=
    match cols with
    | [] => Err "no sort columns"
    | c :: _ =>
        let full := merge_sort (lex_le ref_compare cols) (seq 0 (array_len (values c))) in
        Ok (N.of_nat <$> match limit with Some n => take n full | None => full end)
    end;
  batch_slice b _ n :=
    mkBatch (schema b) ((λ a, mkArray (data_type a) (take n (data a))) <$> columns b) n;
  array_value_to_string a i := inr (ref_show a i);
  array_debug a i := ref_debug a i;
  value_compare := ref_compare;
|}.

#[export] Instance RefArrowLaws : ArrowLaws RefArrow.
Proof.
  split; cbn; try done.
  - intros a idx H. by rewrite decide_True.
  - intros a idx H. by rewrite decide_False.
  - intros s bs Hs Hbs. by rewrite decide_True.
  - intros s c cols H. by rewrite decide_True.
  - intros a m H. by rewrite decide_True.
  - intros a t a' ?. simplify_eq. split; [done|]. apply ref_cast_len.
  - intros c cols limit _. eexists. split; [done|]. split.
    + apply merge_sort_Permutation.
    + apply StronglySorted_merge_sort; [apply lex_le_trans | apply lex_le_total]; apply _.
  - apply _.
Qed.
