(* ===== verification/ArrowTake.v ===== *)
(** * ArrowTake: what a [take] by row numbers makes of a batch

    The join, the sort and the deduplication all build their output by a [take]
    of every column at one list of row numbers.  [pick] is the column such a
    list selects, a missing number giving a null; the lemmas say that the result
    is well formed and which rows it has. *)

From S2P Require Import Prelude Arrow.
From stdpp Require Import base list strings.
From Stdlib Require Import NArith Lia.

(** Row numbers are stored as [u32]; up to this many rows the cast is exact. *)
Definition fits_u32 (n : nat) : Prop := (N.of_nat n ≤ u32_modulus)%N.

Lemma fits_u32_cast n i : fits_u32 n → i < n → as_u32 i = N.of_nat i.
Proof. unfold fits_u32. intros. apply as_u32_id. lia. Qed.

(** The cells of one side of an output row. *)
Definition side_row (cols : list Array) (o : option nat) : list cell :=
  match o with
  | Some i => row_at cols i
  | None => replicate (length cols) None
  end.

(** The cells a list of optional row numbers selects from a column. *)
Definition pick (col : Array) (idx : list (option nat)) : Array :=
  mkArray (data_type col) ((λ o, o ≫= value_at col) <$> idx).

Lemma pick_len col idx : array_len (pick col idx) = length idx.
Proof. apply length_fmap. Qed.

Lemma pick_value col idx j o : idx !! j = Some o → value_at (pick col idx) j = o ≫= value_at col.
Proof. intros Hj. apply value_at_lookup. cbn. by rewrite list_lookup_fmap, Hj. Qed.

Lemma pick_row cols idx j o :
  idx !! j = Some o → row_at ((λ c, pick c idx) <$> cols) j = side_row cols o.
Proof.
  intros Hj. unfold row_at. rewrite <- list_fmap_compose.
  assert (∀ c, (λ a, value_at a j) (pick c idx) = o ≫= value_at c) as E
    by (intros; by apply pick_value).
  destruct o as [i|]; cbn.
  - apply list_fmap_ext. intros _ c _. apply E.
  - induction cols as [|c cols IH]; [done|]. cbn. rewrite IH. by rewrite pick_value with (o := None).
Qed.

(** Row numbers that a column can serve: a missing row still reads slot 0. *)
Definition servable (len : nat) (o : option nat) : Prop :=
  match o with Some i => i < len | None => 0 < len end.

Lemma pick_conforms f col n idx :
  conforms f col → array_len col = n → Forall (servable n) idx → Forall is_Some idx →
  conforms f (pick col idx).
Proof.
  intros [Ht Hnull] Hlen Hidx Hsome. split; [done|].
  destruct Hnull as [?|Hnull]; [by left|right]. cbn. rewrite Forall_fmap.
  eapply Forall_impl; [apply (proj2 (Forall_and _ _) (conj Hidx Hsome))|].
  intros o [Ho [i ->]]. cbn in *. rewrite <- Hlen in Ho. unfold value_at.
  destruct (lookup_lt_is_Some_2 (data col) i Ho) as [c Hc]. rewrite Hc. cbn.
  rewrite Forall_lookup in Hnull. eauto.
Qed.

Lemma pick_rows s cols rows :
  batch_rows (mkBatch s ((λ c, pick c (Some <$> rows)) <$> cols) (length rows)) =
    row_at cols <$> rows.
Proof.
  unfold batch_rows. cbn. apply list_eq. intros j. rewrite !list_lookup_fmap.
  destruct (rows !! j) as [i|] eqn:Hj.
  - rewrite lookup_seq_lt by by eapply lookup_lt_Some. cbn.
    by rewrite (pick_row cols _ j (Some i)) by by rewrite list_lookup_fmap, Hj.
  - apply lookup_ge_None in Hj. by rewrite lookup_seq_ge by lia.
Qed.

Lemma pick_wf (b : RecordBatch) rows :
  wf_batch b → Forall (λ i, i < num_rows b) rows →
  wf_columns (schema b) ((λ c, pick c (Some <$> rows)) <$> columns b) (length rows).
Proof.
  intros [Hb Hbl] Hrows. split.
  - apply Forall2_fmap_r, Forall2_same_length_lookup_2; [by eapply Forall2_length|].
    intros i f c Hf Hc. cbn. eapply pick_conforms.
    + exact (Forall2_lookup_lr _ _ _ _ _ _ Hb Hf Hc).
    + exact (Forall_lookup_1 _ _ _ _ Hbl Hc).
    + by rewrite Forall_fmap.
    + rewrite Forall_fmap. apply Forall_forall. intros. cbn. eauto.
  - rewrite Forall_fmap. apply Forall_forall. intros c _. unfold compose.
    by rewrite pick_len, length_fmap.
Qed.

Section Take.
Context `{K : ArrowKernels, !ArrowLaws K}.

(** [take] at row numbers in range, as Arrow's own kernels produce them. *)
Lemma take_rows col n rows :
  array_len col = n → Forall (λ i, i < n) rows →
  arrow_take col (N.of_nat <$> rows) = Ok (pick col (Some <$> rows)).
Proof.
  intros Hlen Hrows. rewrite take_in_range.
  - unfold pick. do 2 f_equal. induction Hrows as [|i rows Hi _ IH]; [done|]. cbn.
    rewrite Nat2N.id. rewrite <- Hlen in Hi.
    destruct (lookup_lt_is_Some_2 (data col) i Hi) as [c Hc]. rewrite Hc. cbn.
    f_equal; [|exact IH]. unfold value_at. by rewrite Hc.
  - rewrite Forall_fmap. eapply Forall_impl; [exact Hrows|]. intros i Hi. unfold compose.
    cbn in Hi. lia.
Qed.

(** The same at row numbers the engine cast to [u32]. *)
Lemma take_pick col n rows :
  array_len col = n → fits_u32 n → Forall (λ i, i < n) rows →
  arrow_take col (as_u32 <$> rows) = Ok (pick col (Some <$> rows)).
Proof.
  intros Hlen Hfit Hrows. rewrite <- (take_rows col n rows Hlen Hrows). f_equal.
  induction Hrows as [|i rows Hi _ IH]; [done|]. rewrite !fmap_cons, IH.
  by rewrite (fits_u32_cast n).
Qed.
End Take.

(** The first rows of a batch. *)
Lemma batch_slice_rows `{K : ArrowKernels, !ArrowLaws K} b n :
  wf_batch b → n ≤ num_rows b →
  batch_rows (batch_slice b 0 n) = take n (batch_rows b) ∧ num_rows (batch_slice b 0 n) = n ∧
  schema (batch_slice b 0 n) = schema b.
Proof.
  intros Hwf Hn. rewrite batch_slice_ok by done. split_and!; [|done..].
  unfold batch_rows. cbn [columns num_rows]. rewrite <- fmap_take.
  replace (take n (seq 0 (num_rows b))) with (seq 0 n) by (rewrite take_seq; f_equal; lia).
  apply list_fmap_ext. intros _ i Hi%list_elem_of_lookup_2%elem_of_seq.
  unfold row_at. rewrite <- list_fmap_compose. apply list_fmap_ext. intros _ c _.
  unfold value_at, compose. cbn. by rewrite lookup_take_lt by lia.
Qed.
