(* ===== verification/Connector.v ===== *)
(** * Connector: the sub-query language sent to datasource connectors

    Models [crates/fuse-core/src/connector.rs] (capabilities, [SubQuery],
    [FilterExpr] and the expression types) and the error types of
    [crates/fuse-core/src/error.rs] that the engine raises.  A connector is an
    object behind the [FederatedConnector] trait: the class below, with one
    operation per trait method the engine calls.

    The specification part gives [FilterExpr] the three-valued reading of SQL
    over a row environment: it is what a connector promises when it declares
    [supports_filtering]. *)

From S2P Require Import Prelude Arrow.
From stdpp Require Import base list strings.
From Stdlib Require Import NArith ZArith SpecFloat.

(** ** Capabilities *)

Inductive LatencyClass : Type := Low | Medium | High.

Record ConnectorCapabilities : Type := {
  supports_filtering : bool;
  supports_projection : bool;
  supports_aggregation : bool;
  supports_sorting : bool;
  supports_limit : bool;
  supports_join : bool;
  max_concurrent_queries : N;
  supports_streaming : bool;
  latency_class : LatencyClass;
}.

(** [ConnectorCapabilities::full]. *)
Definition full : ConnectorCapabilities := {|
  supports_filtering := true;
  supports_projection := true;
  supports_aggregation := true;
  supports_sorting := true;
  supports_limit := true;
  supports_join := false;
  max_concurrent_queries := 16;
  supports_streaming := true;
  latency_class := Low;
|}.

(** ** Expressions *)

Inductive ScalarValue : Type :=
| Null
| SBoolean (b : bool)
| SInt64 (z : Z)
| SFloat64 (f : spec_float)
| SUtf8 (s : string).

#[export] Instance ScalarValue_eq_dec : EqDecision ScalarValue.
Proof. solve_decision. Defined.

Inductive ComparisonOp : Type :=
| OpEq | OpNeq | OpLt | OpLte | OpGt | OpGte | OpLike | OpILike | OpContains.

#[export] Instance ComparisonOp_eq_dec : EqDecision ComparisonOp.
Proof. solve_decision. Defined.

Inductive FilterExpr : Type :=
| FAnd (l r : FilterExpr)
| FOr (l r : FilterExpr)
| FNot (e : FilterExpr)
| FComparison (field : string) (op : ComparisonOp) (value : ScalarValue)
| FIn (field : string) (vals : list ScalarValue)
| FIsNull (field : string)
| FIsNotNull (field : string).

#[export] Instance FilterExpr_eq_dec : EqDecision FilterExpr.
Proof. solve_decision. Defined.

Inductive AggFunction : Type :=
| Count | CountDistinct | Sum | Avg | Min | Max
| ApproxCountDistinct | ApproxPercentile (p : spec_float).

#[export] Instance AggFunction_eq_dec : EqDecision AggFunction.
Proof. solve_decision. Defined.

Record AggregationExpr : Type := mkAgg {
  agg_function : AggFunction;
  agg_field : option string;
  agg_alias : string;
}.

#[export] Instance AggregationExpr_eq_dec : EqDecision AggregationExpr.
Proof. solve_decision. Defined.

Record SortExpr : Type := mkSort { sort_field : string; sort_descending : bool }.

#[export] Instance SortExpr_eq_dec : EqDecision SortExpr.
Proof. solve_decision. Defined.

(** A [serde_json::Value], carried by its serialisation: the engine only
    stores and forwards it. *)
Abbreviation JsonText := string (only parsing).

Record SubQuery : Type := mkSubQuery {
  table : string;
  projections : list string;
  filter_expr : option FilterExpr;
  aggregations : list AggregationExpr;
  group_by : list string;
  having : option FilterExpr;
  sort : list SortExpr;
  limit : option N;
  offset : option N;
  passthrough : option JsonText;
}.

#[export] Instance SubQuery_eq_dec : EqDecision SubQuery.
Proof. solve_decision. Defined.

(** ** Errors *)

Inductive ConnectorError : Type :=
| QueryFailed (msg : string)
| SchemaDiscovery (msg : string)
| Auth (msg : string)
| Connection (msg : string)
| ChannelClosed
| Unsupported (msg : string)
| ConnArrow (e : ArrowError)
| ConnOther (msg : string).

(** [DataFusionError], as far as the engine builds one. *)
Inductive EngineError : Type :=
| Plan (msg : string)
| ArrowErr (e : ArrowError)
| External (e : ConnectorError).

(** ** The connector object *)

Class FederatedConnector : Type := {
  connector_id : string;
  capabilities : ConnectorCapabilities;
  execute : SubQuery → outcome ConnectorError (list RecordBatch);
}.

(** ** Specification: the meaning of a filter

    [None] is SQL's unknown.  The meaning of a comparison of two scalars is a
    parameter [cmp]; a comparison with null is unknown. *)

Abbreviation tri := (option bool).

Definition tri_and (a b : tri) : tri :=
  match a, b with
  | Some false, _ | _, Some false => Some false
  | Some true, Some true => Some true
  | _, _ => None
  end.

Definition tri_or (a b : tri) : tri :=
  match a, b with
  | Some true, _ | _, Some true => Some true
  | Some false, Some false => Some false
  | _, _ => None
  end.

Definition tri_not (a : tri) : tri := negb <$> a.

Section FilterMeaning.
Context (cmp : ComparisonOp → ScalarValue → ScalarValue → bool).

Definition tri_cmp (op : ComparisonOp) (x y : ScalarValue) : tri :=
  match x, y with
  | Null, _ | _, Null => None
  | _, _ => Some (cmp op x y)
  end.

(** [x IN (vs)]: the disjunction of the equalities. *)
Definition tri_in (x : ScalarValue) (vs : list ScalarValue) : tri :=
  foldr (λ v acc, tri_or (tri_cmp OpEq x v) acc) (Some false) vs.

Fixpoint eval_filter (env : string → ScalarValue) (e : FilterExpr) : tri :=
  match e with
  | FAnd l r => tri_and (eval_filter env l) (eval_filter env r)
  | FOr l r => tri_or (eval_filter env l) (eval_filter env r)
  | FNot e => tri_not (eval_filter env e)
  | FComparison f op v => tri_cmp op (env f) v
  | FIn f vs => tri_in (env f) vs
  | FIsNull f => Some (bool_decide (env f = Null))
  | FIsNotNull f => Some (bool_decide (env f ≠ Null))
  end.

(** The rows a filter keeps are those on which it is true. *)
Definition keeps (env : string → ScalarValue) (e : FilterExpr) : Prop :=
  eval_filter env e = Some true.
Definition keeps_opt (env : string → ScalarValue) (e : option FilterExpr) : Prop :=
  match e with Some e => keeps env e | None => True end.
End FilterMeaning.

Lemma tri_and_true a b : tri_and a b = Some true ↔ a = Some true ∧ b = Some true.
Proof. destruct a as [[]|], b as [[]|]; naive_solver. Qed.

Lemma tri_or_true a b : tri_or a b = Some true ↔ a = Some true ∨ b = Some true.
Proof. destruct a as [[]|], b as [[]|]; naive_solver. Qed.

Lemma tri_and_assoc a b c : tri_and a (tri_and b c) = tri_and (tri_and a b) c.
Proof. by destruct a as [[]|], b as [[]|], c as [[]|]. Qed.

Lemma tri_and_comm a b : tri_and a b = tri_and b a.
Proof. by destruct a as [[]|], b as [[]|]. Qed.

Lemma keeps_and cmp env l r :
  keeps cmp env (FAnd l r) ↔ keeps cmp env l ∧ keeps cmp env r.
Proof. apply tri_and_true. Qed.

Lemma keeps_or cmp env l r :
  keeps cmp env (FOr l r) ↔ keeps cmp env l ∨ keeps cmp env r.
Proof. apply tri_or_true. Qed.

#[export] Hint Rewrite tri_and_true tri_or_true keeps_and keeps_or : fuse.
