(* ===== verification/Join.v ===== *)
(** * Join: cross-source joins

    Models [crates/fuse-engine/src/join.rs] (its planner is in [Cost]): the
    extraction of join keys and the IN-list they become, the local hash join
    over record batches for all six join types, and the semi-join pipeline
    that ties them to two connectors.

    Row indices are stored as [u32]; the casts are written out ([as_u32]).
    [JoinCorrect] proves the theorems. *)

From S2P Require Import Prelude Arrow Connector.
From stdpp Require Import base list gmap strings.
From Stdlib Require Import NArith ZArith Lia SpecFloat.

(** ** Data *)

Inductive JoinType : Type := Inner | JLeft | JRight | JFull | JSemi | JAnti.

#[export] Instance JoinType_eq_dec : EqDecision JoinType.
Proof. solve_decision. Defined.

Section HashJoin.
Context `{K : ArrowKernels}.

(** ** Keys *)

(** [array_value_to_string(col, row).unwrap_or_default()] *)
Definition display (col : Array) (row : nat) : string :=
  match array_value_to_string col row with
  | inr s => s
  | inl _ => ""
  end.

(** Only non-null rows are read; a value that is not of the column's type
    would fail the downcast. *)
Definition array_value_to_scalar (col : Array) (row : nat) : outcome EngineError ScalarValue :=
  match data_type col with
  | Utf8 => match value_at col row with Some (VUtf8 s) => Ok (SUtf8 s) | _ => Panic end
  | Int64 => match value_at col row with Some (VInt z) => Ok (SInt64 z) | _ => Panic end
  | Float64 => match value_at col row with Some (VFloat f) => Ok (SFloat64 f) | _ => Panic end
  | Boolean => match value_at col row with Some (VBool b) => Ok (SBoolean b) | _ => Panic end
  | _ =>
      match array_value_to_string col row with
      | inr s => Ok (SUtf8 s)
      | inl e => Err (ArrowErr e)
      end
  end.

(** [format!("{:?}", val)], the key under which a value is seen. *)
Context (debug_scalar : ScalarValue → string).

(** The loop over the rows of one batch: the state is the set of seen
    renderings and the keys collected so far. *)
Fixpoint extract_rows (col : Array) (rows : list nat) (seen : gset string)
    (keys : list ScalarValue) : outcome EngineError (gset string * list ScalarValue) :=
  match rows with
  | [] => Ok (seen, keys)
  | row :: rows =>
      if is_null col row then extract_rows col rows seen keys
      else
        val ← array_value_to_scalar col row;
        let key := debug_scalar val in
        if decide (key ∈ seen) then extract_rows col rows seen keys
        else extract_rows col rows ({[key]} ∪ seen) (keys ++ [val])
  end.

Fixpoint extract_batches (batches : list RecordBatch) (key_column : string)
    (seen : gset string) (keys : list ScalarValue) : outcome EngineError (list ScalarValue) :=
  match batches with
  | [] => Ok keys
  | batch :: batches =>
      col_idx ← ok_or (index_of (schema batch) key_column)
                  (Plan ("join key '" +:+ key_column +:+ "' not found"));
      match columns batch !! col_idx with
      | None => Panic
      | Some col =>
          '(seen, keys) ← extract_rows col (seq 0 (array_len col)) seen keys;
          extract_batches batches key_column seen keys
      end
  end.

Definition extract_join_keys (batches : list RecordBatch) (key_column : string) :
    outcome EngineError (list ScalarValue) :=
  extract_batches batches key_column ∅ [].

Definition keys_to_in_filter (field : string) (keys : list ScalarValue) : option FilterExpr :=
  match keys with
  | [] => None
  | _ => Some (FIn field keys)
  end.

(** ** The hash table of the build side: key to row indices *)

Definition table_push (t : gmap string (list N)) (key : string) (row : N) :
    gmap string (list N) :=
  <[key := default [] (t !! key) ++ [row]]> t.

Definition build_step (col : Array) (t : gmap string (list N)) (row : nat) :
    gmap string (list N) :=
  if is_null col row then t else table_push t (display col row) (as_u32 row).

Definition build_table (col : Array) (n : nat) : gmap string (list N) :=
  foldl (build_step col) ∅ (seq 0 n).

(** ** Probing *)

Record probe_state : Type := mkProbe {
  build_indices : list (option N);
  probe_indices : list (option N);
  build_matched : list bool;
}.

Definition keeps_unmatched (jt : JoinType) : bool :=
  match jt with
  | JLeft | JAnti | JFull => true
  | _ => false
  end.

Definition push_pair (b p : option N) (st : probe_state) : probe_state :=
  mkProbe (build_indices st ++ [b]) (probe_indices st ++ [p]) (build_matched st).

Definition push_probe (p : option N) (st : probe_state) : probe_state :=
  mkProbe (build_indices st) (probe_indices st ++ [p]) (build_matched st).

(** One matching build row: both indices, and the row marked matched. *)
Definition push_match (p : N) (st : probe_state) (br : N) : probe_state :=
  mkProbe (build_indices st ++ [Some br]) (probe_indices st ++ [Some p])
    (<[N.to_nat br := true]> (build_matched st)).

Definition probe_step (jt : JoinType) (t : gmap string (list N)) (col : Array)
    (st : probe_state) (probe_row : nat) : probe_state :=
  let unmatched :=
    if keeps_unmatched jt then push_pair None (Some (as_u32 probe_row)) st else st in
  if is_null col probe_row then unmatched
  else
    match t !! display col probe_row with
    | Some build_rows =>
        match jt with
        | JSemi => push_probe (Some (as_u32 probe_row)) st
        | JAnti => st
        | _ => foldl (push_match (as_u32 probe_row)) st build_rows
        end
    | None => unmatched
    end.

Definition probe_all (jt : JoinType) (t : gmap string (list N)) (col : Array)
    (n_build n_probe : nat) : probe_state :=
  foldl (probe_step jt t col) (mkProbe [] [] (replicate n_build false)) (seq 0 n_probe).

(** Full outer join: the build rows nobody matched, with no probe row. *)
Definition emit_unmatched (st : probe_state) : probe_state :=
  foldl (λ st '(row, matched),
           if (matched : bool) then st else push_pair (Some (as_u32 row)) None st)
    st (enumerate (build_matched st)).

(** ** Output *)

Definition gather_with_nulls (col : Array) (indices : list (option N)) :
    outcome ArrowError Array :=
  taken ← arrow_take col (default 0%N <$> indices);
  mask ← boolean_not ((λ o, bool_decide (is_Some o)) <$> indices);
  nullif taken mask.

Definition merge_schemas (build probe : Schema) (_build_key probe_key : string)
    (jt : JoinType) : Schema :=
  ((λ f, match jt with
         | JLeft | JFull => mkField (name f) (field_type f) true
         | _ => f
         end) <$> build) ++
  omap (λ f,
          if String.eqb (name f) probe_key then None
          else Some (mkField
                       (match index_of build (name f) with
                        | Some _ => "probe_" +:+ name f
                        | None => name f
                        end) (field_type f) true)) probe.

(** The columns of a list with the one at [skip] left out. *)
Definition skip_nth {A : Type} (skip : nat) (l : list A) : list A :=
  omap (λ '(i, a), if Nat.eqb i skip then None else Some a) (enumerate l).

(** Lines after the swap of a right join. *)
Definition hash_join_body (build_batches : list RecordBatch) (build_key : string)
    (probe_batches : list RecordBatch) (probe_key : string) (jt : JoinType) :
    outcome EngineError (list RecordBatch) :=
  match build_batches, probe_batches with
  | b0 :: _, p0 :: _ =>
      let build_schema := schema b0 in
      let probe_schema := schema p0 in
      build_merged ← map_err ArrowErr (concat_batches build_schema build_batches);
      probe_merged ← map_err ArrowErr (concat_batches probe_schema probe_batches);
      build_key_idx ← ok_or (index_of build_schema build_key)
                        (Plan ("build key '" +:+ build_key +:+ "' not found"));
      probe_key_idx ← ok_or (index_of probe_schema probe_key)
                        (Plan ("probe key '" +:+ probe_key +:+ "' not found"));
      match columns build_merged !! build_key_idx, columns probe_merged !! probe_key_idx with
      | Some build_col, Some probe_col =>
          let t := build_table build_col (num_rows build_merged) in
          let st := probe_all jt t probe_col (num_rows build_merged) (num_rows probe_merged) in
          let st := match jt with JFull => emit_unmatched st | _ => st end in
          match jt with
          | JSemi | JAnti =>
              let pi := omap id (probe_indices st) in
              cols ← map_err ArrowErr (mapM (λ col, arrow_take col pi) (columns probe_merged));
              r ← map_err ArrowErr (try_new probe_schema cols);
              Ok [r]
          | _ =>
              let output_schema :=
                merge_schemas build_schema probe_schema build_key probe_key jt in
              bcols ← map_err ArrowErr
                        (mapM (λ col, gather_with_nulls col (build_indices st))
                           (columns build_merged));
              pcols ← map_err ArrowErr
                        (mapM (λ col, gather_with_nulls col (probe_indices st))
                           (skip_nth probe_key_idx (columns probe_merged)));
              r ← map_err ArrowErr (try_new output_schema (bcols ++ pcols));
              Ok [r]
          end
      | _, _ => Panic
      end
  | _, _ => Ok []
  end.

Definition hash_join (build_batches : list RecordBatch) (build_key : string)
    (probe_batches : list RecordBatch) (probe_key : string) (jt : JoinType) :
    outcome EngineError (list RecordBatch) :=
  match jt with
  | JRight => hash_join_body probe_batches probe_key build_batches build_key JLeft
  | _ => hash_join_body build_batches build_key probe_batches probe_key jt
  end.

(** ** The semi-join pipeline *)

Definition augment_filter (existing in_filter : option FilterExpr) : option FilterExpr :=
  match existing, in_filter with
  | Some e, Some f => Some (FAnd e f)
  | None, Some f => Some f
  | Some e, None => Some e
  | None, None => None
  end.

Definition with_filter (q : SubQuery) (f : option FilterExpr) : SubQuery :=
  mkSubQuery (table q) (projections q) f (aggregations q) (group_by q) (having q)
    (sort q) (limit q) (offset q) (passthrough q).

Definition execute_semi_join (build_connector : FederatedConnector) (build_query : SubQuery)
    (build_key : string) (probe_connector : FederatedConnector) (probe_query : SubQuery)
    (probe_key : string) (jt : JoinType) : outcome EngineError (list RecordBatch) :=
  build_batches ← map_err External (@execute build_connector build_query);
  match build_batches with
  | [] => Ok []
  | _ =>
      keys ← extract_join_keys build_batches build_key;
      match keys with
      | [] => Ok []
      | _ =>
          let in_filter := keys_to_in_filter probe_key keys in
          let augmented_probe :=
            with_filter probe_query (augment_filter (filter_expr probe_query) in_filter) in
          probe_batches ← map_err External (@execute probe_connector augmented_probe);
          hash_join build_batches build_key probe_batches probe_key jt
      end
  end.
End HashJoin.
