(* ===== verification/JoinCorrect.v ===== *)
(** * JoinCorrect: the hash join refines the relational join

    The specification is the relational reading: which pairs of build and
    probe rows a join of each type returns, in which order, and the rows they
    make.  Row indices are stored as [u32], so the theorems about [hash_join]
    carry the bound under which the cast is exact. *)

From S2P Require Import Prelude Arrow ArrowRef ArrowTake Connector Join.
From stdpp Require Import base list gmap strings.
From Stdlib Require Import NArith ZArith Lia SpecFloat.

(** ** Specification: the pairs of rows a join relates *)

Section JoinSpec.
Context `{K : ArrowKernels}.

(** The join key of a row: its displayed value, none when null. *)
Definition key_at (col : Array) (i : nat) : option string :=
  if is_null col i then None else Some (display col i).

(** Build rows with a key, in row order. *)
Definition matching (bcol : Array) (n : nat) (k : option string) : list nat :=
  match k with
  | None => []
  | Some k => filter (λ i, key_at bcol i = Some k) (seq 0 n)
  end.

Definition pairs_of (jt : JoinType) (bcol : Array) (n : nat) (pcol : Array) (p : nat) :
    list (option nat * option nat) :=
  match matching bcol n (key_at pcol p) with
  | [] => if keeps_unmatched jt then [(None, Some p)] else []
  | bs => (λ b, (Some b, Some p)) <$> bs
  end.

(** A build row is matched when a probe row has its (non-null) key. *)
Definition matched_by (bcol pcol : Array) (m b : nat) : Prop :=
  Exists (λ p, key_at bcol b ≠ None ∧ key_at bcol b = key_at pcol p) (seq 0 m).

#[export] Instance matched_by_dec bcol pcol m b : Decision (matched_by bcol pcol m b).
Proof. unfold matched_by. apply _. Defined.

(** Probe-major order, build rows ascending; a full join adds the build
    rows without a partner at the end. *)
Definition join_pairs (jt : JoinType) (bcol : Array) (n : nat) (pcol : Array) (m : nat) :
    list (option nat * option nat) :=
  concat (pairs_of jt bcol n pcol <$> seq 0 m) ++
  match jt with
  | JFull => (λ b, (Some b, None)) <$> filter (λ b, ¬ matched_by bcol pcol m b) (seq 0 n)
  | _ => []
  end.

Definition joined_row (bcols pcols : list Array) (pk : nat) (pr : option nat * option nat) :
    list cell :=
  side_row bcols (fst pr) ++ side_row (skip_nth pk pcols) (snd pr).
End JoinSpec.

(** ** Correctness of the building blocks *)

Section Blocks.
Context `{K : ArrowKernels}.
Implicit Types (col bcol pcol : Array) (jt : JoinType) (st : probe_state).

Lemma matching_S bcol n k :
  matching bcol (S n) (Some k) =
    matching bcol n (Some k) ++ (if decide (key_at bcol n = Some k) then [n] else []).
Proof.
  unfold matching. rewrite seq_S, filter_app, filter_cons, filter_nil. cbn [Nat.add].
  by repeat case_decide.
Qed.

Lemma matching_lt bcol n k : Forall (λ i, i < n) (matching bcol n k).
Proof.
  destruct k as [k|]; cbn; [|by constructor].
  apply Forall_forall. intros i [_ Hi]%list_elem_of_filter.
  by apply elem_of_seq in Hi as [_ Hi].
Qed.

(** The table maps a key to the rows that carry it, in order. *)
Lemma build_table_lookup col n k :
  build_table col n !! k =
    match matching col n (Some k) with [] => None | l => Some (as_u32 <$> l) end.
Proof.
  induction n as [|n IH]; [done|].
  rewrite matching_S. unfold build_table in *. rewrite seq_S, foldl_app.
  cbn [foldl Nat.add]. unfold build_step at 1.
  destruct (is_null col n) eqn:En.
  { rewrite decide_False by (unfold key_at; by rewrite En). by rewrite app_nil_r, IH. }
  unfold table_push. rewrite lookup_insert.
  assert (key_at col n = Some (display col n)) as -> by (unfold key_at; by rewrite En).
  destruct (decide (Some (display col n) = Some k)) as [E|E]; simplify_eq.
  - rewrite decide_True by done. rewrite IH.
    destruct (matching col n (Some (display col n))); cbn; [done|].
    by rewrite fmap_app.
  - rewrite decide_False by congruence. by rewrite app_nil_r.
Qed.

(** Indices as the code stores them. *)
Definition stored (o : option nat) : option N := as_u32 <$> o.

Lemma foldl_push_match p st brs :
  foldl (push_match p) st brs =
    mkProbe (build_indices st ++ (Some <$> brs))
      (probe_indices st ++ ((λ _, Some p) <$> brs))
      (foldl (λ m br, <[N.to_nat br := true]> m) (build_matched st) brs).
Proof.
  revert st; induction brs as [|br brs IH]; intros st; cbn.
  { by rewrite !app_nil_r; destruct st. }
  rewrite IH. cbn. by rewrite <- !app_assoc.
Qed.

(** What one probe row adds for the join types that return both sides. *)
Lemma probe_step_pairs jt bcol n pcol st p :
  jt = Inner ∨ jt = JLeft ∨ jt = JFull →
  let prs := pairs_of jt bcol n pcol p in
  let st' := probe_step jt (build_table bcol n) pcol st p in
  build_indices st' = build_indices st ++ (stored ∘ fst <$> prs) ∧
  probe_indices st' = probe_indices st ++ (stored ∘ snd <$> prs).
Proof.
  intros Hjt. cbn. unfold probe_step, pairs_of, key_at.
  destruct (is_null pcol p); cbn.
  { destruct (keeps_unmatched jt); cbn; rewrite ?app_nil_r; done. }
  rewrite build_table_lookup. unfold matching, key_at.
  destruct (filter _ _) as [|b bs].
  { destruct (keeps_unmatched jt); cbn; rewrite ?app_nil_r; done. }
  assert (∀ T (x y z : T), match jt with JSemi => x | JAnti => y | _ => z end = z) as ->
    by (intros; naive_solver).
  rewrite foldl_push_match. cbn [build_indices probe_indices].
  split; f_equal; cbn; f_equal; rewrite <- ?list_fmap_compose; done.
Qed.

Lemma probe_all_S jt t col n m :
  probe_all jt t col n (S m) = probe_step jt t col (probe_all jt t col n m) m.
Proof. unfold probe_all. by rewrite seq_S, foldl_app. Qed.

Lemma probe_all_pairs jt bcol n pcol m :
  jt = Inner ∨ jt = JLeft ∨ jt = JFull →
  let prs := concat (pairs_of jt bcol n pcol <$> seq 0 m) in
  let st := probe_all jt (build_table bcol n) pcol n m in
  build_indices st = stored ∘ fst <$> prs ∧ probe_indices st = stored ∘ snd <$> prs.
Proof.
  intros Hjt. cbn. induction m as [|m [IHb IHp]]; [done|].
  rewrite probe_all_S.
  destruct (probe_step_pairs jt bcol n pcol
              (probe_all jt (build_table bcol n) pcol n m) m Hjt) as [-> ->].
  rewrite seq_S, fmap_app, concat_app, !fmap_app, IHb, IHp. cbn.
  by rewrite app_nil_r.
Qed.

(** The rows a semi join keeps, and an anti join. *)
Definition has_match bcol n pcol (p : nat) : Prop := matching bcol n (key_at pcol p) ≠ [].

#[export] Instance has_match_dec bcol n pcol p : Decision (has_match bcol n pcol p).
Proof. unfold has_match. apply _. Defined.

Definition kept (jt : JoinType) bcol n pcol (p : nat) : Prop :=
  match jt with
  | JSemi => has_match bcol n pcol p
  | _ => ¬ has_match bcol n pcol p
  end.

#[export] Instance kept_dec jt bcol n pcol p : Decision (kept jt bcol n pcol p).
Proof. unfold kept. destruct jt; apply _. Defined.

Lemma probe_step_filter jt bcol n pcol st p :
  jt = JSemi ∨ jt = JAnti →
  probe_indices (probe_step jt (build_table bcol n) pcol st p) =
    probe_indices st ++ (if decide (kept jt bcol n pcol p) then [Some (as_u32 p)] else []).
Proof.
  intros Hjt. case_decide as E; revert E; unfold kept, has_match, key_at, probe_step;
    (destruct (is_null pcol p);
      [|rewrite build_table_lookup; destruct (matching _ _ _)]);
    destruct Hjt as [-> | ->]; cbn; intros E; rewrite ?app_nil_r; naive_solver.
Qed.

Lemma probe_all_filter jt bcol n pcol m :
  jt = JSemi ∨ jt = JAnti →
  probe_indices (probe_all jt (build_table bcol n) pcol n m) =
    stored ∘ Some <$> filter (kept jt bcol n pcol) (seq 0 m).
Proof.
  intros Hjt. induction m as [|m IH]; [by destruct Hjt as [-> | ->]|].
  rewrite probe_all_S, probe_step_filter, IH by done.
  rewrite seq_S, filter_app, fmap_app. f_equal. cbn [Nat.add].
  rewrite filter_cons, filter_nil. by case_decide.
Qed.

(** Which build rows end up marked. *)
Lemma foldl_mark_lookup (l : list bool) (brs : list N) b :
  foldl (λ m br, <[N.to_nat br := true]> m) l brs !! b =
    if decide (b ∈ N.to_nat <$> brs) then (λ _, true) <$> (l !! b) else l !! b.
Proof.
  revert l; induction brs as [|br brs IH]; intros l; cbn; [done|].
  rewrite IH. clear IH. rewrite list_lookup_insert.
  destruct (l !! b) as [x|] eqn:E; cbn.
  - assert (b < length l) by by eapply lookup_lt_Some.
    repeat case_decide; cbn; try done; set_solver.
  - apply lookup_ge_None in E. repeat case_decide; cbn; try done; try lia; set_solver.
Qed.

Lemma elem_of_matching bcol n k b :
  b ∈ matching bcol n k ↔ b < n ∧ key_at bcol b ≠ None ∧ key_at bcol b = k.
Proof.
  destruct k as [k|]; cbn; [rewrite list_elem_of_filter, elem_of_seq|]; [|set_solver].
  split; [intros [-> ?]|intros (? & ? & ?)]; (split; [done || lia|]); [naive_solver|lia].
Qed.

Lemma stored_matching bcol n k :
  fits_u32 n → as_u32 <$> matching bcol n k = N.of_nat <$> matching bcol n k.
Proof.
  intros Hn. apply list_fmap_ext. intros i b Hb%list_elem_of_lookup_2.
  apply elem_of_matching in Hb as [Hb _]. by eapply fits_u32_cast.
Qed.

Lemma probe_step_matched jt bcol n pcol st p :
  jt = Inner ∨ jt = JLeft ∨ jt = JFull →
  build_matched (probe_step jt (build_table bcol n) pcol st p) =
    foldl (λ m br, <[N.to_nat br := true]> m) (build_matched st)
      (as_u32 <$> matching bcol n (key_at pcol p)).
Proof.
  intros Hjt. unfold probe_step, key_at.
  destruct (is_null pcol p); [by destruct (keeps_unmatched jt)|].
  rewrite build_table_lookup.
  destruct (matching _ _ _); [by destruct (keeps_unmatched jt)|].
  destruct Hjt as [-> | [-> | ->]]; by rewrite foldl_push_match.
Qed.

Lemma matched_by_S bcol pcol m b :
  matched_by bcol pcol (S m) b ↔
    matched_by bcol pcol m b ∨ (key_at bcol b ≠ None ∧ key_at bcol b = key_at pcol m).
Proof.
  unfold matched_by. rewrite seq_S, Exists_app, Exists_cons, Exists_nil. naive_solver.
Qed.

Lemma probe_all_matched jt bcol n pcol m b :
  jt = Inner ∨ jt = JLeft ∨ jt = JFull → fits_u32 n →
  build_matched (probe_all jt (build_table bcol n) pcol n m) !! b =
    if decide (b < n) then Some (bool_decide (matched_by bcol pcol m b)) else None.
Proof.
  intros Hjt Hn. induction m as [|m IH].
  { assert (¬ matched_by bcol pcol 0 b) by (by inversion 1).
    rewrite bool_decide_eq_false_2 by done. unfold probe_all. cbn [seq foldl build_matched].
    case_decide; [by apply lookup_replicate_2|]. apply lookup_replicate_None. lia. }
  rewrite probe_all_S, probe_step_matched, foldl_mark_lookup, IH, stored_matching by done.
  rewrite <- list_fmap_compose.
  assert (N.to_nat ∘ N.of_nat <$> matching bcol n (key_at pcol m) =
          matching bcol n (key_at pcol m)) as ->.
  { rewrite <- (list_fmap_id (matching _ _ _)) at 2. apply list_fmap_ext. cbn. lia. }
  pose proof (elem_of_matching bcol n (key_at pcol m) b) as Hm.
  pose proof (matched_by_S bcol pcol m b) as HS.
  destruct (decide (b ∈ matching bcol n (key_at pcol m))) as [Hin|Hin].
  - apply Hm in Hin as (Hb & Hk). rewrite !decide_True by done. cbn. symmetry.
    f_equal. apply bool_decide_eq_true_2. tauto.
  - case_decide as Hb; [|done]. f_equal. apply bool_decide_ext. tauto.
Qed.

(** The rows not marked, in order. *)
Definition unmarked (l : list (nat * bool)) : list nat :=
  omap (λ '(i, b), if (b : bool) then None else Some i) l.

Lemma emit_foldl st l :
  let st' := foldl (λ st '(row, matched),
           if (matched : bool) then st else push_pair (Some (as_u32 row)) None st) st l in
  build_indices st' = build_indices st ++ (stored ∘ Some <$> unmarked l) ∧
  probe_indices st' = probe_indices st ++ ((λ _, None) <$> unmarked l).
Proof.
  cbn. revert st; induction l as [|[i b] l IH]; intros st; [by rewrite !app_nil_r|].
  destruct b; cbn [foldl unmarked omap list_omap]; [apply IH|].
  destruct (IH (push_pair (Some (as_u32 i)) None st)) as [-> ->]. cbn.
  by rewrite <- !app_assoc.
Qed.

Lemma unmarked_filter (P : nat → Prop) `{!∀ i, Decision (P i)} k n :
  unmarked (enumerate_from k ((λ i, bool_decide (P i)) <$> seq k n)) =
    filter (λ i, ¬ P i) (seq k n).
Proof.
  revert k; induction n as [|n IH]; intros k; [done|].
  cbn [seq fmap list_fmap enumerate_from unmarked omap list_omap].
  rewrite filter_cons. fold (unmarked (enumerate_from (S k) ((λ i, bool_decide (P i)) <$> seq (S k) n))).
  rewrite IH. destruct (decide (P k)).
  - rewrite bool_decide_eq_true_2, decide_False by tauto. done.
  - rewrite bool_decide_eq_false_2, decide_True by tauto. done.
Qed.

Lemma probe_full_indices bcol n pcol m :
  fits_u32 n →
  let prs := join_pairs JFull bcol n pcol m in
  let st := emit_unmatched (probe_all JFull (build_table bcol n) pcol n m) in
  build_indices st = stored ∘ fst <$> prs ∧ probe_indices st = stored ∘ snd <$> prs.
Proof.
  intros Hn. cbn. unfold emit_unmatched.
  set (st := probe_all JFull (build_table bcol n) pcol n m).
  destruct (emit_foldl st (enumerate (build_matched st))) as [-> ->].
  destruct (probe_all_pairs JFull bcol n pcol m) as [Hb Hp]; [tauto|].
  assert (build_matched st = (λ b, bool_decide (matched_by bcol pcol m b)) <$> seq 0 n) as ->.
  { apply list_eq. intros b. unfold st. rewrite probe_all_matched by tauto.
    rewrite list_lookup_fmap. case_decide.
    - by rewrite lookup_seq_lt.
    - by rewrite lookup_seq_ge by lia. }
  unfold enumerate. rewrite unmarked_filter. unfold join_pairs.
  rewrite !fmap_app, <- !list_fmap_compose. unfold st. rewrite Hb, Hp. done.
Qed.
End Blocks.

(** ** Columns of the output *)

Lemma skip_nth_from {A : Type} (i k : nat) (l : list A) :
  omap (λ '(j, a), if Nat.eqb j i then None else Some a) (enumerate_from k l) =
    if decide (k ≤ i) then delete (i - k) l else l.
Proof.
  revert k; induction l as [|a l IH]; intros k; [by case_decide|].
  cbn. destruct (Nat.eqb_spec k i) as [->|Hne]; rewrite IH.
  - rewrite decide_False, decide_True, Nat.sub_diag by lia. done.
  - repeat case_decide; try lia; [|done].
    replace (i - k) with (S (i - S k)) by lia. done.
Qed.

Lemma skip_nth_delete {A : Type} i (l : list A) : skip_nth i l = delete i l.
Proof.
  unfold skip_nth, enumerate. rewrite skip_nth_from, decide_True by lia.
  by rewrite Nat.sub_0_r.
Qed.

Lemma skip_nth_fmap {A B : Type} (f : A → B) i (l : list A) :
  skip_nth i (f <$> l) = f <$> skip_nth i l.
Proof.
  rewrite !skip_nth_delete. revert i; induction l as [|a l IH]; intros [|i]; cbn; try done.
  by rewrite IH.
Qed.

Lemma skip_named (s : Schema) (pk : string) (pi : nat) (g : Field → Field) :
  NoDup (name <$> s) → index_of s pk = Some pi →
  omap (λ f, if String.eqb (name f) pk then None else Some (g f)) s = g <$> skip_nth pi s.
Proof.
  rewrite skip_nth_delete. revert pi; induction s as [|f s IH]; intros pi Hnd Hpi; [done|].
  apply NoDup_cons in Hnd as [Hf Hnd]. cbn in *.
  destruct (String.eqb_spec (name f) pk) as [E|E].
  - injection Hpi as <-. cbn. clear IH. induction s as [|f' s IH]; [done|]. cbn.
    destruct (String.eqb_spec (name f') pk) as [E'|E']; [set_solver|].
    rewrite IH; [done|set_solver|by apply NoDup_cons in Hnd as [_ ?]].
  - apply fmap_Some in Hpi as (j & Hj & ->). cbn. by rewrite (IH j).
Qed.

Section Gather.
Context `{K : ArrowKernels, !ArrowLaws K}.

Lemma gather_with_nulls_ok col idx :
  fits_u32 (array_len col) → Forall (servable (array_len col)) idx →
  gather_with_nulls col (stored <$> idx) = Ok (pick col idx).
Proof.
  intros Hfit Hidx. unfold gather_with_nulls.
  assert (Forall (λ i, (i < N.of_nat (array_len col))%N) (default 0%N <$> (stored <$> idx))) as Hr.
  { rewrite !Forall_fmap. eapply Forall_impl; [exact Hidx|]. intros [i|] Hi; cbn in *; [|lia].
    rewrite (fits_u32_cast (array_len col)) by done. lia. }
  rewrite take_in_range by done. cbn [mbind outcome_bind].
  rewrite boolean_not_ok. cbn [mbind outcome_bind].
  assert (∀ l, Forall (servable (array_len col)) l →
     zip_with (λ (c : cell) (b : bool), if b then None else c)
       (gather (data col) (N.to_nat <$> (default 0%N <$> (stored <$> l))))
       (negb <$> ((λ o, bool_decide (is_Some o)) <$> (stored <$> l))) =
     (λ o, o ≫= value_at col) <$> l) as Hz.
  { induction 1 as [|o l Ho _ IH]; [done|].
    destruct o as [i|]; cbn in *.
    - rewrite (fits_u32_cast (array_len col)), Nat2N.id by done.
      destruct (lookup_lt_is_Some_2 (data col) i Ho) as [c Hc]. rewrite Hc. cbn.
      f_equal; [|exact IH]. unfold value_at. by rewrite Hc.
    - unfold array_len in Ho. destruct (data col) as [|c d]; cbn in *; [lia|].
      change (N.to_nat 0) with 0. cbn. f_equal. exact IH. }
  rewrite nullif_ok; cbn.
  - unfold pick. rewrite <- Hz by done. done.
  - unfold array_len. cbn. rewrite !length_fmap, gather_length; [by rewrite !length_fmap|].
    rewrite Forall_fmap. eapply Forall_impl; [exact Hr|]. unfold array_len. cbn. lia.
Qed.

(** A missing row over an empty column reads slot 0 and panics. *)
Lemma gather_with_nulls_panic col idx :
  array_len col = 0 → None ∈ idx → gather_with_nulls col (stored <$> idx) = Panic.
Proof.
  intros Hlen Hin. unfold gather_with_nulls. rewrite take_out_of_range; [done|].
  intros H. rewrite !Forall_fmap, Forall_forall in H. specialize (H None Hin).
  cbn in H. lia.
Qed.
End Gather.

(** ** The hash join refines the relational specification *)

(** One side of a join: a non-empty list of batches that share the first
    batch's schema, its concatenation [m], and the key column. *)
Record join_side (bs : list RecordBatch) (key : string)
    (m : RecordBatch) (ki : nat) (col : Array) : Prop := {
  js_merged : ∃ b0 rest, bs = b0 :: rest ∧ m = concat_ref (schema b0) bs ∧
    Forall (λ b, wf_columns (schema b0) (columns b) (num_rows b)) bs;
  js_key : index_of (schema m) key = Some ki;
  js_col : columns m !! ki = Some col;
  js_fits : fits_u32 (num_rows m);
}.

Section HashJoinCorrect.
Context `{K : ArrowKernels, !ArrowLaws K}.
Implicit Types (jt : JoinType).

Lemma join_side_concat bs key m ki col :
  join_side bs key m ki col →
  wf_batch m ∧ ∃ b0 rest, bs = b0 :: rest ∧ schema m = schema b0 ∧
    concat_batches (schema b0) bs = Ok m.
Proof.
  intros [(b0 & rest & -> & -> & Hwf) Hkey _ _]. split; [by apply concat_ref_wf|].
  exists b0, rest. split_and!; [done..|]. apply concat_batches_ok; [|done].
  apply index_of_Some in Hkey as (f & Hf & _). cbn in Hf. by destruct (schema b0).
Qed.

Lemma elem_of_pairs jt bcol n pcol m b p :
  (b, p) ∈ concat (pairs_of jt bcol n pcol <$> seq 0 m) →
  ∃ j, p = Some j ∧ j < m ∧
    match b with
    | Some i => i < n ∧ key_at bcol i ≠ None ∧ key_at bcol i = key_at pcol j
    | None => keeps_unmatched jt = true ∧ matching bcol n (key_at pcol j) = []
    end.
Proof.
  rewrite elem_of_concat. intros (l & Hin & Hl).
  apply list_elem_of_fmap in Hl as (j & -> & Hj). apply elem_of_seq in Hj as [_ Hj].
  unfold pairs_of in Hin. pose proof (elem_of_matching bcol n (key_at pcol j)) as Hm.
  destruct (matching bcol n (key_at pcol j)) as [|b0 bs] eqn:E.
  - destruct (keeps_unmatched jt); [|set_solver].
    apply list_elem_of_singleton in Hin as [= -> ->]. eauto 10.
  - rewrite <- E in *. apply list_elem_of_fmap in Hin as (i & [= -> ->] & Hi).
    apply Hm in Hi. eauto 10.
Qed.

Lemma elem_of_join_pairs jt bcol n pcol m b p :
  (b, p) ∈ join_pairs jt bcol n pcol m →
  (b, p) ∈ concat (pairs_of jt bcol n pcol <$> seq 0 m) ∨
  (jt = JFull ∧ p = None ∧ ∃ i, b = Some i ∧ i < n ∧ ¬ matched_by bcol pcol m i).
Proof.
  unfold join_pairs. rewrite elem_of_app. intros [?|H]; [by left|right].
  destruct jt; try set_solver. split; [done|].
  apply list_elem_of_fmap in H as (i & [= -> ->] & Hi).
  apply list_elem_of_filter in Hi as [? Hi]. apply elem_of_seq in Hi. naive_solver lia.
Qed.

Lemma join_pairs_servable jt bcol n pcol m :
  jt = Inner ∨ (0 < n ∧ 0 < m) →
  Forall (λ pr, servable n (fst pr) ∧ servable m (snd pr)) (join_pairs jt bcol n pcol m).
Proof.
  intros Hjt. apply Forall_forall. intros [b p] Hin. cbn.
  apply elem_of_join_pairs in Hin as [Hin|(-> & -> & i & -> & Hi & _)].
  - apply elem_of_pairs in Hin as (j & -> & Hj & Hb).
    destruct b as [i|]; cbn; [naive_solver|].
    destruct Hb as [Hk _]. destruct Hjt as [->|?]; [done|]. cbn. lia.
  - cbn. destruct Hjt as [?|?]; [done|lia].
Qed.

Lemma inner_pairs_some bcol n pcol m :
  Forall (λ pr : option nat * option nat, is_Some (fst pr)) (join_pairs Inner bcol n pcol m).
Proof.
  apply Forall_forall. intros [b p] Hin. cbn.
  apply elem_of_join_pairs in Hin as [Hin|(? & _)]; [|done].
  apply elem_of_pairs in Hin as (j & -> & Hj & Hb).
  destruct b as [i|]; [eauto|]. destruct Hb as [? _]. done.
Qed.

(** The final probe state holds exactly the specified pairs. *)
Lemma final_indices jt bcol n pcol m :
  jt = Inner ∨ jt = JLeft ∨ jt = JFull → fits_u32 n →
  let st := probe_all jt (build_table bcol n) pcol n m in
  let st := match jt with JFull => emit_unmatched st | _ => st end in
  let prs := join_pairs jt bcol n pcol m in
  build_indices st = stored <$> (fst <$> prs) ∧ probe_indices st = stored <$> (snd <$> prs).
Proof.
  intros Hjt Hn. cbn. rewrite <- !list_fmap_compose.
  destruct Hjt as [-> | [-> | ->]]; [| |by apply probe_full_indices];
    unfold join_pairs; rewrite app_nil_r; apply probe_all_pairs; tauto.
Qed.

Lemma gather_columns cols n idx :
  Forall (λ a, array_len a = n) cols → fits_u32 n → Forall (servable n) idx →
  mapM (λ col, gather_with_nulls col (stored <$> idx)) cols =
    Ok ((λ c, pick c idx) <$> cols).
Proof.
  intros Hlen Hfit Hidx. apply mapM_outcome_Ok. intros c Hc.
  rewrite Forall_forall in Hlen. specialize (Hlen c Hc).
  apply gather_with_nulls_ok; by rewrite Hlen.
Qed.

(** The output schema fits the gathered columns. *)
Lemma output_wf jt (bm pm : RecordBatch) bk pk pi prs :
  wf_batch bm → wf_batch pm → NoDup (name <$> schema pm) →
  index_of (schema pm) pk = Some pi →
  jt = Inner ∨ jt = JLeft ∨ jt = JFull →
  Forall (servable (num_rows bm)) (fst <$> prs) →
  (jt = Inner → Forall is_Some (fst <$> prs)) →
  wf_columns (merge_schemas (schema bm) (schema pm) bk pk jt)
    (((λ c, pick c (fst <$> prs)) <$> columns bm) ++
     ((λ c, pick c (snd <$> prs)) <$> skip_nth pi (columns pm))) (length prs).
Proof.
  intros [Hb Hbl] [Hp Hpl] Hnd Hpi Hjt Hidx Hsome. split.
  - unfold merge_schemas. apply Forall2_app.
    + apply Forall2_fmap, Forall2_same_length_lookup_2; [by eapply Forall2_length|].
      intros i f c Hf Hc. cbn.
      pose proof (Forall2_lookup_lr _ _ _ _ _ _ Hb Hf Hc) as Hfc.
      assert (array_len c = num_rows bm) by exact (Forall_lookup_1 _ _ _ _ Hbl Hc).
      destruct Hjt as [-> | [-> | ->]];
        [eapply pick_conforms; eauto|apply conforms_nullable; by destruct Hfc..].
    + rewrite (skip_named _ _ pi) by done. rewrite !skip_nth_delete.
      apply Forall2_fmap. eapply Forall2_impl; [by apply Forall2_delete|].
      intros f c [Ht _]. by apply conforms_nullable.
  - rewrite Forall_app, !Forall_fmap. split; apply Forall_forall; intros c _; unfold compose;
      by rewrite pick_len, length_fmap.
Qed.

Lemma output_rows s bcols pcols pi prs :
  let cols := ((λ c, pick c (fst <$> prs)) <$> bcols) ++
              ((λ c, pick c (snd <$> prs)) <$> skip_nth pi pcols) in
  batch_rows (mkBatch s cols (length prs)) = joined_row bcols pcols pi <$> prs.
Proof.
  cbn. unfold batch_rows. cbn. apply list_eq. intros j.
  rewrite !list_lookup_fmap. destruct (prs !! j) as [pr|] eqn:Hj.
  - rewrite lookup_seq_lt by by eapply lookup_lt_Some. cbn. f_equal.
    unfold row_at at 1. rewrite fmap_app. fold (row_at ((λ c, pick c (fst <$> prs)) <$> bcols) j).
    fold (row_at ((λ c, pick c (snd <$> prs)) <$> skip_nth pi pcols) j).
    rewrite (pick_row bcols _ j (fst pr)), (pick_row (skip_nth pi pcols) _ j (snd pr));
      [done|by rewrite list_lookup_fmap, Hj..].
  - apply lookup_ge_None in Hj. by rewrite lookup_seq_ge by lia.
Qed.

Lemma hash_join_body_pairs jt bs bk bm ki bcol ps pk pm pi pcol :
  join_side bs bk bm ki bcol → join_side ps pk pm pi pcol →
  NoDup (name <$> schema pm) → jt = Inner ∨ jt = JLeft ∨ jt = JFull →
  jt = Inner ∨ (0 < num_rows bm ∧ 0 < num_rows pm) →
  ∃ r, hash_join_body bs bk ps pk jt = Ok [r] ∧
    schema r = merge_schemas (schema bm) (schema pm) bk pk jt ∧
    batch_rows r = joined_row (columns bm) (columns pm) pi <$>
                     join_pairs jt bcol (num_rows bm) pcol (num_rows pm).
Proof.
  intros Hbs Hps Hnd Hjt Hne.
  destruct (join_side_concat _ _ _ _ _ Hbs) as (Hbwf & b0 & brest & Ebs & Ebsch & Hbc).
  destruct (join_side_concat _ _ _ _ _ Hps) as (Hpwf & p0 & prest & Eps & Epsch & Hpc).
  destruct Hbs as [_ Hbk Hbcol Hbfit], Hps as [_ Hpk Hpcol Hpfit].
  set (prs := join_pairs jt bcol (num_rows bm) pcol (num_rows pm)).
  pose proof (join_pairs_servable jt bcol _ pcol _ Hne) as Hserv. fold prs in Hserv.
  apply Forall_and in Hserv as [Hfst Hsnd].
  apply (proj2 (Forall_fmap fst (servable (num_rows bm)) prs)) in Hfst.
  apply (proj2 (Forall_fmap snd (servable (num_rows pm)) prs)) in Hsnd.
  destruct (final_indices jt bcol (num_rows bm) pcol (num_rows pm) Hjt Hbfit) as [Hbi Hpi].
  fold prs in Hbi, Hpi.
  assert (wf_columns (merge_schemas (schema bm) (schema pm) bk pk jt)
    (((λ c, pick c (fst <$> prs)) <$> columns bm) ++
     ((λ c, pick c (snd <$> prs)) <$> skip_nth pi (columns pm))) (length prs)) as Hout.
  { eapply output_wf; eauto. intros ->. rewrite Forall_fmap. apply inner_pairs_some. }
  assert (∃ c cols, columns bm = c :: cols) as (c & cols & Ecols).
  { destruct (columns bm); [done|eauto]. }
  exists (mkBatch (merge_schemas (schema bm) (schema pm) bk pk jt)
    (((λ c, pick c (fst <$> prs)) <$> columns bm) ++
     ((λ c, pick c (snd <$> prs)) <$> skip_nth pi (columns pm))) (length prs)).
  split; [|split; [done|apply output_rows]].
  assert (Forall (λ a, array_len a = num_rows pm) (skip_nth pi (columns pm))) as Hskip.
  { rewrite skip_nth_delete. apply Forall_delete. apply Hpwf. }
  unfold hash_join_body. rewrite Ebs, Eps. rewrite <- Ebs, <- Eps, Hbc, Hpc.
  cbn [map_err mbind outcome_bind].
  rewrite <- Ebsch, <- Epsch, Hbk, Hpk. cbn [ok_or mbind outcome_bind].
  rewrite Hbcol, Hpcol.
  assert (bcols_ok := gather_columns (columns bm) (num_rows bm) _ (proj2 Hbwf) Hbfit Hfst).
  assert (pcols_ok := gather_columns _ (num_rows pm) _ Hskip Hpfit Hsnd).
  destruct Hjt as [E | [E | E]]; rewrite E in Hbi, Hpi |- *;
    cbv zeta iota beta in Hbi, Hpi |- *; rewrite Hbi, Hpi, bcols_ok;
    cbn [map_err mbind outcome_bind]; rewrite pcols_ok;
    cbn [map_err mbind outcome_bind]; rewrite <- E;
    rewrite Ecols in Hout |- *; cbn [fmap list_fmap app] in Hout |- *;
    rewrite try_new_ok; rewrite ?pick_len, ?length_fmap; done.
Qed.

(** ** Semi and anti joins *)

Lemma kept_rows_lt jt bcol n pcol m :
  Forall (λ i, i < m) (filter (kept jt bcol n pcol) (seq 0 m)).
Proof.
  apply Forall_forall. intros i [_ Hi]%list_elem_of_filter.
  by apply elem_of_seq in Hi as [_ ?].
Qed.

Lemma hash_join_body_filter jt bs bk bm ki bcol ps pk pm pi pcol :
  join_side bs bk bm ki bcol → join_side ps pk pm pi pcol → jt = JSemi ∨ jt = JAnti →
  ∃ r, hash_join_body bs bk ps pk jt = Ok [r] ∧ schema r = schema pm ∧
    batch_rows r = row_at (columns pm) <$>
      filter (kept jt bcol (num_rows bm) pcol) (seq 0 (num_rows pm)).
Proof.
  intros Hbs Hps Hjt.
  destruct (join_side_concat _ _ _ _ _ Hbs) as (Hbwf & b0 & brest & Ebs & Ebsch & Hbc).
  destruct (join_side_concat _ _ _ _ _ Hps) as (Hpwf & p0 & prest & Eps & Epsch & Hpc).
  destruct Hbs as [_ Hbk Hbcol Hbfit], Hps as [_ Hpk Hpcol Hpfit].
  set (rows := filter (kept jt bcol (num_rows bm) pcol) (seq 0 (num_rows pm))).
  assert (Forall (λ i, i < num_rows pm) rows) as Hrows by apply kept_rows_lt.
  pose proof (pick_wf pm rows Hpwf Hrows) as Hout.
  exists (mkBatch (schema pm) ((λ c, pick c (Some <$> rows)) <$> columns pm) (length rows)).
  split; [|split; [done|apply pick_rows]].
  assert (mapM (λ col, arrow_take col (as_u32 <$> rows)) (columns pm) =
            Ok ((λ c, pick c (Some <$> rows)) <$> columns pm)) as Hcols.
  { apply mapM_outcome_Ok. intros c [i Hi]%list_elem_of_lookup.
    eapply take_pick; [|exact Hpfit|exact Hrows].
    exact (Forall_lookup_1 _ _ _ _ (proj2 Hpwf) Hi). }
  assert (omap id (probe_indices (probe_all jt (build_table bcol (num_rows bm)) pcol
            (num_rows bm) (num_rows pm))) = as_u32 <$> rows) as Hpi.
  { rewrite probe_all_filter by done. fold rows. clear.
    induction rows as [|i l IH]; [done|]. cbn. f_equal. exact IH. }
  assert (∃ c cols, columns pm = c :: cols) as (c & cols & Ecols).
  { destruct (columns pm); [done|eauto]. }
  unfold hash_join_body. rewrite Ebs, Eps. rewrite <- Ebs, <- Eps, Hbc, Hpc.
  cbn [map_err mbind outcome_bind].
  rewrite <- Ebsch, <- Epsch, Hbk, Hpk. cbn [ok_or mbind outcome_bind].
  rewrite Hbcol, Hpcol.
  destruct Hjt as [E | E]; rewrite E in Hpi |- *; cbv zeta iota beta in Hpi |- *;
    rewrite Hpi, Hcols; cbn [map_err mbind outcome_bind];
    rewrite Ecols in Hout |- *; cbn [fmap list_fmap] in Hout |- *;
    rewrite try_new_ok; rewrite ?pick_len, ?length_fmap; done.
Qed.
End HashJoinCorrect.

(** ** The relation a join computes, declaratively *)

Section JoinRelation.
Context `{K : ArrowKernels}.
Implicit Types (jt : JoinType) (bcol pcol : Array).

(** Build row [i] and probe row [j] agree on a non-null key. *)
Definition rows_match bcol n pcol m (i j : nat) : Prop :=
  i < n ∧ j < m ∧ key_at bcol i ≠ None ∧ key_at bcol i = key_at pcol j.

(** A duplicate-free list of pairs that is the join relation of type [jt]. *)
Record join_relation jt bcol n pcol m (prs : list (option nat * option nat)) : Prop := {
  jr_nodup : NoDup prs;
  jr_both i j : (Some i, Some j) ∈ prs ↔ rows_match bcol n pcol m i j;
  jr_probe j : (None, Some j) ∈ prs ↔
    keeps_unmatched jt = true ∧ j < m ∧ ¬ ∃ i, rows_match bcol n pcol m i j;
  jr_build i : (Some i, None) ∈ prs ↔
    jt = JFull ∧ i < n ∧ ¬ ∃ j, rows_match bcol n pcol m i j;
  jr_none : (None, None) ∉ prs;
}.

Lemma pairs_of_elem jt bcol n pcol p b q :
  (b, q) ∈ pairs_of jt bcol n pcol p ↔
    q = Some p ∧
    match b with
    | Some i => i < n ∧ key_at bcol i ≠ None ∧ key_at bcol i = key_at pcol p
    | None => keeps_unmatched jt = true ∧ matching bcol n (key_at pcol p) = []
    end.
Proof.
  unfold pairs_of. pose proof (elem_of_matching bcol n (key_at pcol p)) as Hm.
  destruct (matching bcol n (key_at pcol p)) as [|b0 bs] eqn:E.
  - transitivity (b = None ∧ q = Some p ∧ keeps_unmatched jt = true).
    { destruct (keeps_unmatched jt); [rewrite list_elem_of_singleton|]; set_solver. }
    destruct b as [i|]; [|naive_solver]. split; [naive_solver|].
    intros (-> & Hi). exfalso. apply Hm in Hi. set_solver.
  - rewrite list_elem_of_fmap. split.
    + intros (i & [= -> ->] & Hi). by apply Hm in Hi.
    + intros [-> Hb]. destruct b as [i|]; [|naive_solver]. exists i. by rewrite Hm.
Qed.

Lemma pairs_of_NoDup jt bcol n pcol p : NoDup (pairs_of jt bcol n pcol p).
Proof.
  unfold pairs_of. assert (NoDup (matching bcol n (key_at pcol p))) as Hnd.
  { destruct (key_at pcol p); cbn; [|constructor]. apply NoDup_filter, NoDup_seq. }
  destruct (matching bcol n (key_at pcol p)) as [|b bs].
  - destruct (keeps_unmatched jt); [apply NoDup_singleton|constructor].
  - apply NoDup_fmap; [|done]. intros x y Hxy. by injection Hxy.
Qed.

Lemma concat_pairs_elem jt bcol n pcol m b q :
  (b, q) ∈ concat (pairs_of jt bcol n pcol <$> seq 0 m) ↔
    ∃ j, j < m ∧ (b, q) ∈ pairs_of jt bcol n pcol j.
Proof.
  rewrite elem_of_concat. split.
  - intros (l & Hin & (j & -> & [_ Hj]%elem_of_seq)%list_elem_of_fmap). eauto.
  - intros (j & Hj & Hin). eexists. split; [exact Hin|].
    apply list_elem_of_fmap. exists j. split; [done|]. apply elem_of_seq. lia.
Qed.

Lemma concat_pairs_NoDup jt bcol n pcol m :
  NoDup (concat (pairs_of jt bcol n pcol <$> seq 0 m)).
Proof.
  induction m as [|m IH]; [constructor|].
  rewrite seq_S, fmap_app, concat_app. cbn [Nat.add fmap list_fmap concat].
  rewrite app_nil_r. apply NoDup_app. split_and!; [done| |apply pairs_of_NoDup].
  intros [b q] (j & Hj & [-> _]%pairs_of_elem)%concat_pairs_elem [Hq _]%pairs_of_elem.
  simplify_eq. lia.
Qed.

Lemma no_match bcol n pcol m j :
  j < m → (matching bcol n (key_at pcol j) = [] ↔ ¬ ∃ i, rows_match bcol n pcol m i j).
Proof.
  intros Hj. pose proof (elem_of_matching bcol n (key_at pcol j)) as Hm.
  unfold rows_match. destruct (matching bcol n (key_at pcol j)) as [|b bs]; [|split; [done|]].
  - split; [|done]. intros _ (i & Hi & _ & Hk).
    assert (i ∈ []) by (apply Hm; naive_solver). set_solver.
  - intros []. exists b. assert (b ∈ b :: bs) as Hb by set_solver. apply Hm in Hb.
    naive_solver.
Qed.

Lemma matched_by_iff bcol n pcol m i :
  i < n → (matched_by bcol pcol m i ↔ ∃ j, rows_match bcol n pcol m i j).
Proof.
  intros Hi. unfold matched_by, rows_match. rewrite Exists_exists. split.
  - intros (j & [_ Hj]%elem_of_seq & Hk). eauto.
  - intros (j & _ & Hj & Hk). exists j. rewrite elem_of_seq. split; [lia|done].
Qed.

(** The pairs of the executable specification are the join relation. *)
Lemma join_pairs_relation jt bcol n pcol m :
  join_relation jt bcol n pcol m (join_pairs jt bcol n pcol m).
Proof.
  set (orphans := match jt with
    | JFull => (λ b, (Some b, @None nat)) <$> filter (λ b, ¬ matched_by bcol pcol m b) (seq 0 n)
    | _ => [] end).
  assert (∀ b q, (b, q) ∈ orphans ↔ jt = JFull ∧ q = None ∧
            ∃ i, b = Some i ∧ i < n ∧ ¬ ∃ j, rows_match bcol n pcol m i j) as Horph.
  { intros b q. unfold orphans.
    destruct (decide (jt = JFull)) as [->|Hne]; [|destruct jt; set_solver].
    rewrite list_elem_of_fmap. split.
    - intros (i & [= -> ->] & [Hm [_ Hi]%elem_of_seq]%list_elem_of_filter).
      rewrite (matched_by_iff bcol n) in Hm by done. eauto 10.
    - intros (_ & -> & i & -> & Hi & Hm). exists i. split; [done|].
      apply list_elem_of_filter. rewrite (matched_by_iff bcol n), elem_of_seq by done.
      split; [done|lia]. }
  assert (join_pairs jt bcol n pcol m =
            concat (pairs_of jt bcol n pcol <$> seq 0 m) ++ orphans) as -> by done.
  split.
  - apply NoDup_app. split_and!; [apply concat_pairs_NoDup| |].
    + intros [b q] (j & _ & [-> _]%pairs_of_elem)%concat_pairs_elem (_ & ? & _)%Horph. done.
    + unfold orphans. destruct jt; try constructor. apply NoDup_fmap.
      { intros x y Hxy. by injection Hxy. }
      apply NoDup_filter, NoDup_seq.
  - intros i j. rewrite elem_of_app, concat_pairs_elem, Horph. setoid_rewrite pairs_of_elem.
    unfold rows_match. naive_solver.
  - intros j. rewrite elem_of_app, concat_pairs_elem, Horph. setoid_rewrite pairs_of_elem.
    split.
    + intros [(j' & Hj & [= ->] & Hk & Hm)|(_ & ? & _)]; [|done].
      rewrite no_match in Hm by exact Hj. done.
    + intros (Hk & Hj & Hm). left. exists j. by rewrite no_match.
  - intros i. rewrite elem_of_app, concat_pairs_elem, Horph. setoid_rewrite pairs_of_elem.
    naive_solver.
  - rewrite elem_of_app, concat_pairs_elem, Horph. setoid_rewrite pairs_of_elem. naive_solver.
Qed.
End JoinRelation.

(** ** Empty sides *)

Section EmptyBuild.
Context `{K : ArrowKernels, !ArrowLaws K}.

Lemma join_pairs_empty_build jt bcol pcol m :
  keeps_unmatched jt = true →
  None ∈ (fst <$> concat (pairs_of jt bcol 0 pcol <$> seq 0 (S m))).
Proof.
  intros Hk. cbn. assert (pairs_of jt bcol 0 pcol 0 = [(None, Some 0)]) as ->.
  { unfold pairs_of. destruct (key_at pcol 0); cbn; by rewrite Hk. }
  cbn. set_solver.
Qed.

Lemma hash_join_body_empty_build jt bs bk bm ki bcol ps pk pm pi pcol :
  join_side bs bk bm ki bcol → join_side ps pk pm pi pcol →
  num_rows bm = 0 → 0 < num_rows pm → jt = JLeft ∨ jt = JFull →
  hash_join_body bs bk ps pk jt = Panic.
Proof.
  intros Hbs Hps Hb Hp Hjt.
  destruct (join_side_concat _ _ _ _ _ Hbs) as (Hbwf & b0 & brest & Ebs & Ebsch & Hbc).
  destruct (join_side_concat _ _ _ _ _ Hps) as (Hpwf & p0 & prest & Eps & Epsch & Hpc).
  destruct Hbs as [_ Hbk Hbcol Hbfit], Hps as [_ Hpk Hpcol Hpfit].
  assert (jt = Inner ∨ jt = JLeft ∨ jt = JFull) as Hjt' by tauto.
  assert (None ∈ fst <$> join_pairs jt bcol (num_rows bm) pcol (num_rows pm)) as Hnone.
  { unfold join_pairs. rewrite fmap_app, elem_of_app, Hb. left.
    destruct (num_rows pm) as [|m]; [lia|]. apply join_pairs_empty_build.
    by destruct Hjt as [-> | ->]. }
  destruct (final_indices jt bcol (num_rows bm) pcol (num_rows pm) Hjt' Hbfit) as [Hbi _].
  assert (∃ c cols, columns bm = c :: cols) as (c & cols & Ecols).
  { destruct (columns bm); [done|eauto]. }
  assert (array_len c = 0).
  { rewrite <- Hb. eapply (wf_columns_lookup _ _ _ 0); [exact Hbwf|]. by rewrite Ecols. }
  unfold hash_join_body. rewrite Ebs, Eps. rewrite <- Ebs, <- Eps, Hbc, Hpc.
  cbn [map_err mbind outcome_bind].
  rewrite <- Ebsch, <- Epsch, Hbk, Hpk. cbn [ok_or mbind outcome_bind].
  rewrite Hbcol, Hpcol.
  destruct Hjt as [E | E]; rewrite E in Hbi, Hnone |- *; cbv zeta iota beta in Hbi |- *;
    rewrite Hbi, Ecols; cbn [mapM]; by rewrite gather_with_nulls_panic.
Qed.
End EmptyBuild.

(** ** Key extraction *)

Section KeyExtraction.
Context `{K : ArrowKernels} (debug_scalar : ScalarValue → string).

(** Every non-null row of the column converts. *)
Definition convertible (col : Array) : Prop :=
  ∀ row, row < array_len col → is_null col row = false →
    ∃ v, array_value_to_scalar col row = Ok v.

(** The non-null values of a column, in row order. *)
Definition row_scalar (col : Array) (row : nat) : option ScalarValue :=
  if is_null col row then None else ok_value (array_value_to_scalar col row).
Definition column_scalars (col : Array) : list ScalarValue :=
  omap (row_scalar col) (seq 0 (array_len col)).

Lemma extract_rows_dedup col rows seen keys :
  Forall (λ row, is_null col row = false → ∃ v, array_value_to_scalar col row = Ok v) rows →
  let new := dedup_seen debug_scalar seen (omap (row_scalar col) rows) in
  extract_rows debug_scalar col rows seen keys =
    Ok (list_to_set (debug_scalar <$> new) ∪ seen, keys ++ new).
Proof.
  cbn. intros H. revert seen keys.
  induction H as [|row rows Hrow _ IH]; intros seen keys; cbn.
  { by rewrite app_nil_r, (left_id_L ∅ (∪)). }
  destruct (is_null col row) eqn:E.
  { assert (row_scalar col row = None) as -> by (unfold row_scalar; by rewrite E). apply IH. }
  destruct (Hrow eq_refl) as [v Hv]. rewrite Hv.
  assert (row_scalar col row = Some v) as -> by (unfold row_scalar; by rewrite E, Hv). cbn.
  case_decide; [apply IH|]. rewrite IH, <- app_assoc. cbn. do 2 f_equal. set_solver.
Qed.

(** Every batch has the key column, and it converts. *)
Definition keyed (key : string) (b : RecordBatch) (col : Array) : Prop :=
  ∃ i, index_of (schema b) key = Some i ∧ columns b !! i = Some col ∧ convertible col.

Lemma extract_batches_dedup key batches cols seen keys :
  Forall2 (keyed key) batches cols →
  extract_batches debug_scalar batches key seen keys =
    Ok (keys ++ dedup_seen debug_scalar seen (concat (column_scalars <$> cols))).
Proof.
  intros H. revert seen keys.
  induction H as [|b c batches cols (i & Hi & Hc & Hconv) _ IH]; intros seen keys; cbn.
  { by rewrite app_nil_r. }
  rewrite Hi. cbn. rewrite Hc, extract_rows_dedup.
  - cbn. rewrite IH, dedup_app, app_assoc. done.
  - apply Forall_forall. intros row [_ Hr]%elem_of_seq. by apply Hconv.
Qed.
End KeyExtraction.

(** ** The semi-join pipeline *)

Section Pipeline.
Context `{K : ArrowKernels, !ArrowLaws K} (debug_scalar : ScalarValue → string).

(** Probe row [i] satisfies [key IN (keys)]. *)
Definition in_keys (keys : list ScalarValue) (pcol : Array) (i : nat) : Prop :=
  match row_scalar pcol i with Some v => v ∈ keys | None => False end.

#[export] Instance in_keys_dec keys pcol i : Decision (in_keys keys pcol i).
Proof. unfold in_keys. destruct (row_scalar pcol i); apply _. Defined.

(** [q'] asks for the rows of [q] that also satisfy [f]: all other clauses are
    the same, and its filter keeps a row exactly when [q]'s filter and [f] do,
    however it is written. *)
Record narrows (q q' : SubQuery) (f : FilterExpr) : Prop := {
  nw_table : table q' = table q;
  nw_projections : projections q' = projections q;
  nw_aggregations : aggregations q' = aggregations q;
  nw_group_by : group_by q' = group_by q;
  nw_having : having q' = having q;
  nw_sort : sort q' = sort q;
  nw_limit : limit q' = limit q;
  nw_offset : offset q' = offset q;
  nw_passthrough : passthrough q' = passthrough q;
  nw_filter : ∀ cmp env, keeps_opt cmp env (filter_expr q') ↔
                keeps_opt cmp env (filter_expr q) ∧ keeps cmp env f;
}.

Lemma augment_narrows q f : narrows q (with_filter q (augment_filter (filter_expr q) (Some f))) f.
Proof.
  split; try done. intros cmp env. cbn. destruct (filter_expr q) as [e|]; cbn; [apply keeps_and|tauto].
Qed.

(** The situation in which the pipeline runs. [ps] is what the probe
    connector returns for the query as given; [ps'] what it returns for any
    query narrowed by the IN-list, which a connector that honours filters makes
    the selection of the rows of [ps] whose key is in the list.  Displayed keys
    depend on the value only, and agree exactly when the scalars do. *)
Record pipeline (bc pc : FederatedConnector) (bq pq : SubQuery) (bk pk : string)
    (bs ps ps' : list RecordBatch) (bm pm pm' : RecordBatch) (ki pi : nat)
    (bcol pcol pcol' : Array) (cols : list Array) : Prop := {
  pl_build : @execute bc bq = Ok bs;
  pl_bside : join_side bs bk bm ki bcol;
  pl_keyed : Forall2 (keyed bk) bs cols;
  pl_some : concat (column_scalars <$> cols) ≠ [];
  pl_debug : ∀ v w, v ∈ concat (column_scalars <$> cols) → w ∈ concat (column_scalars <$> cols) →
    debug_scalar v = debug_scalar w → v = w;
  pl_probe : @execute pc pq = Ok ps;
  pl_pside : join_side ps pk pm pi pcol;
  pl_pushed : ∀ keys q', extract_join_keys debug_scalar bs bk = Ok keys → narrows pq q' (FIn pk keys) →
    @execute pc q' = Ok ps' ∧
    num_rows pm' = length (filter (in_keys keys pcol) (seq 0 (num_rows pm))) ∧
    ∀ j i, filter (in_keys keys pcol) (seq 0 (num_rows pm)) !! j = Some i →
      row_at (columns pm') j = row_at (columns pm) i ∧ key_at pcol' j = key_at pcol i;
  pl_pside' : join_side ps' pk pm' pi pcol';
  pl_schema : schema pm' = schema pm;
  pl_width : length (columns pm') = length (columns pm);
  pl_agree : ∀ i, i < num_rows pm →
    in_keys (concat (column_scalars <$> cols)) pcol i ↔ has_match bcol (num_rows bm) pcol i;
}.

Context {bc pc : FederatedConnector} {bq pq : SubQuery} {bk pk : string}
  {bs ps ps' : list RecordBatch} {bm pm pm' : RecordBatch} {ki pi : nat}
  {bcol pcol pcol' : Array} {cols : list Array}
  (PL : pipeline bc pc bq pq bk pk bs ps ps' bm pm pm' ki pi bcol pcol pcol' cols).

Definition selected : list nat := filter (has_match bcol (num_rows bm) pcol) (seq 0 (num_rows pm)).

(** The pipeline reaches the hash join of the selected probe rows. *)
Lemma pipeline_reaches jt :
  execute_semi_join debug_scalar bc bq bk pc pq pk jt = hash_join bs bk ps' pk jt ∧
  num_rows pm' = length selected ∧
  ∀ j i, selected !! j = Some i →
    row_at (columns pm') j = row_at (columns pm) i ∧ key_at pcol' j = key_at pcol i.
Proof.
  destruct PL. set (all := concat (column_scalars <$> cols)) in *.
  assert (extract_join_keys debug_scalar bs bk = Ok (dedup_seen debug_scalar ∅ all)) as Hk
    by (unfold extract_join_keys; by rewrite (extract_batches_dedup _ _ _ cols)).
  set (keys := dedup_seen debug_scalar ∅ all) in *.
  assert (∀ v, v ∈ keys ↔ v ∈ all) as Hkeys.
  { intros v. split; intros Hv; [eapply elem_of_sublist; [exact Hv|apply dedup_sublist]|].
    assert (debug_scalar v ∈ debug_scalar <$> keys) as (w & Hw & Hin)%list_elem_of_fmap.
    { apply dedup_keys. split; [by apply list_elem_of_fmap_2|set_solver]. }
    rewrite (pl_debug0 v w); [done|done| |done].
    eapply elem_of_sublist; [exact Hin|apply dedup_sublist]. }
  destruct (pl_pushed0 keys _ Hk (augment_narrows pq (FIn pk keys))) as (Hexec & Hlen & Hsel).
  assert (filter (in_keys keys pcol) (seq 0 (num_rows pm)) = selected) as Esel.
  { apply list_filter_iff'. intros i [_ Hi]%elem_of_seq. rewrite <- pl_agree0 by done.
    unfold in_keys. destruct (row_scalar pcol i); [apply Hkeys|done]. }
  rewrite Esel in *. split; [|done].
  unfold execute_semi_join. rewrite pl_build0. cbn [map_err mbind outcome_bind].
  destruct pl_bside0 as [(b0 & rest & -> & _) _ _ _]. rewrite Hk. cbn [mbind outcome_bind].
  destruct keys as [|k0 ks] eqn:Ek.
  { destruct all as [|v vs]; [done|]. specialize (Hkeys v). set_solver. }
  cbn [keys_to_in_filter]. rewrite <- Ek. unfold keys in *. rewrite Ek, Hexec. done.
Qed.

(** The output rows one probe row contributes to an inner join. *)
Definition inner_rows (pcols : list Array) (col : Array) (j : nat) : list (list cell) :=
  joined_row (columns bm) pcols pi <$> pairs_of Inner bcol (num_rows bm) col j.

Lemma inner_rows_eq pcols pcols' col col' i j :
  row_at pcols' j = row_at pcols i → key_at col' j = key_at col i →
  inner_rows pcols' col' j = inner_rows pcols col i.
Proof.
  intros Hrow Hkey. unfold inner_rows, pairs_of. rewrite Hkey.
  destruct (matching _ _ _) as [|b0 ms]; [done|].
  rewrite <- !list_fmap_compose. apply list_fmap_ext. intros _ b _. cbn.
  unfold joined_row. cbn. f_equal.
  unfold row_at in *. by rewrite <- !skip_nth_fmap, Hrow.
Qed.

Lemma pipeline_inner_rows :
  joined_row (columns bm) (columns pm') pi <$>
    join_pairs Inner bcol (num_rows bm) pcol' (num_rows pm') =
  joined_row (columns bm) (columns pm) pi <$>
    join_pairs Inner bcol (num_rows bm) pcol (num_rows pm).
Proof.
  destruct (pipeline_reaches Inner) as (_ & Hlen & Hsel).
  unfold join_pairs. rewrite !app_nil_r, !fmap_concat, <- !list_fmap_compose.
  transitivity (concat (inner_rows (columns pm) pcol <$> selected)).
  - f_equal. apply list_eq. intros j. rewrite !list_lookup_fmap.
    destruct (selected !! j) as [i|] eqn:Hj.
    + destruct (Hsel j i Hj) as [Hrow Hkey].
      rewrite lookup_seq_lt by (rewrite Hlen; by eapply lookup_lt_Some). cbn. f_equal.
      by apply inner_rows_eq.
    + apply lookup_ge_None in Hj. by rewrite lookup_seq_ge by lia.
  - apply concat_filter. intros i Hi. unfold inner_rows, pairs_of, has_match in *.
    unfold compose. destruct (matching _ _ _); [done|]. destruct Hi. done.
Qed.

Lemma pipeline_kept_rows :
  filter (kept JSemi bcol (num_rows bm) pcol') (seq 0 (num_rows pm')) = seq 0 (num_rows pm') ∧
  filter (kept JAnti bcol (num_rows bm) pcol') (seq 0 (num_rows pm')) = [].
Proof.
  destruct (pipeline_reaches Inner) as (_ & Hlen & Hsel).
  assert (∀ j, j ∈ seq 0 (num_rows pm') → has_match bcol (num_rows bm) pcol' j) as Hm.
  { intros j [_ Hj]%elem_of_seq. rewrite Hlen in Hj.
    destruct (lookup_lt_is_Some_2 selected j Hj) as [i Hi].
    destruct (Hsel j i Hi) as [_ Hkey]. unfold has_match. rewrite Hkey.
    apply list_elem_of_lookup_2, list_elem_of_filter in Hi as [Hi _]. exact Hi. }
  split.
  - rewrite (list_filter_iff' _ (λ _, True)) by naive_solver. by apply list_filter_all.
  - rewrite (list_filter_iff' _ (λ _, False)); [by apply list_filter_none|].
    intros j Hj. split; [|done]. intros Hn. by apply Hn, Hm.
Qed.
End Pipeline.

(** ** Concrete inputs *)

Definition ex_ids (l : list string) : Array := mkArray Utf8 ((λ s, Some (VUtf8 s)) <$> l).
Definition ex_ints (l : list Z) : Array := mkArray Int64 ((λ z, Some (VInt z)) <$> l).
Definition ex_build_schema : Schema := [mkField "id" Utf8 false; mkField "value" Int64 false].
Definition ex_probe_schema : Schema := [mkField "id" Utf8 false; mkField "name" Utf8 false].
Definition ex_build (ids : list string) (vals : list Z) : RecordBatch :=
  mkBatch ex_build_schema [ex_ids ids; ex_ints vals] (length ids).
Definition ex_probe (ids names : list string) : RecordBatch :=
  mkBatch ex_probe_schema [ex_ids ids; ex_ids names] (length ids).

Definition ex_b : RecordBatch := ex_build ["a"; "b"; "b"] [1; 2; 3]%Z.
Definition ex_p : RecordBatch := ex_probe ["b"; "d"; "a"] ["bob"; "dave"; "al"].

(** Every batch holds a side whose key column can be read off. *)
Ltac solve_side :=
  split;
  [ eexists _, _; split_and!; [reflexivity|reflexivity|];
    refine (bool_decide_unpack _ _); vm_compute; exact I
  | reflexivity | reflexivity | vm_compute; discriminate ].

(** ... and that its key column, of at most three rows, converts. *)
Ltac solve_keyed :=
  repeat (apply Forall2_cons; split);
  [ exists 0; (split; [reflexivity|]); (split; [reflexivity|]); intros row Hrow _;
    cbn in Hrow; repeat (destruct row as [|row]; [eexists; reflexivity|]); lia ..
  | apply Forall2_nil; exact I ].

(** A connector that always returns one batch, and one that evaluates the
    filter on the rows of a two-column table. *)
Definition ex_const (b : RecordBatch) : FederatedConnector := {|
  connector_id := "build";
  capabilities := full;
  execute q := Ok [b];
|}.
Definition ex_cmp (op : ComparisonOp) (x y : ScalarValue) : bool := bool_decide (x = y).
Definition ex_env (r : string * string) (f : string) : ScalarValue :=
  if decide (f = "id") then SUtf8 r.1 else if decide (f = "name") then SUtf8 r.2 else Null.
#[export] Instance keeps_opt_dec cmp env f : Decision (keeps_opt cmp env f).
Proof. destruct f; unfold keeps_opt, keeps; apply _. Defined.
Definition ex_rows (rs : list (string * string)) : RecordBatch := ex_probe rs.*1 rs.*2.
Definition ex_connector (rs : list (string * string)) : FederatedConnector := {|
  connector_id := "probe";
  capabilities := full;
  execute q := Ok [ex_rows (filter (λ r, keeps_opt ex_cmp (ex_env r) (filter_expr q)) rs)];
|}.
Definition ex_table : list (string * string) := [("b", "bob"); ("d", "dave"); ("a", "al")].

Lemma ex_connector_narrowed q q' f rs :
  narrows q q' f → filter_expr q = None →
  @execute (ex_connector rs) q' = @execute (ex_connector rs) (with_filter q (Some f)).
Proof.
  intros Hn Hq. cbn. do 3 f_equal. apply list_filter_iff'. intros r _.
  rewrite (nw_filter _ _ _ Hn), Hq. cbn. tauto.
Qed.

Definition ex_query : SubQuery := mkSubQuery "t" [] None [] [] None [] None None None.
Definition ex_debug (v : ScalarValue) : string := match v with SUtf8 s => s | _ => "" end.
Definition ex_sel : RecordBatch := ex_probe ["b"; "a"] ["bob"; "al"].

(** ** Properties *)


(** A right join keeps every build row: it is the left join of the
    swapped sides, with the probe columns first and the build key dropped. *)
Theorem hash_join_right_relational `{K : ArrowKernels, !ArrowLaws K} bs bk bm ki bcol ps pk pm pi pcol :
  join_side bs bk bm ki bcol → join_side ps pk pm pi pcol →
  NoDup (name <$> schema bm) → 0 < num_rows bm → 0 < num_rows pm →
  ∃ r prs, hash_join bs bk ps pk JRight = Ok [r] ∧
    join_relation JLeft pcol (num_rows pm) bcol (num_rows bm) prs ∧
    batch_rows r = joined_row (columns pm) (columns bm) ki <$> prs ∧
    (∀ i, i < num_rows bm → ∃ o, (o, Some i) ∈ prs).
Proof.
  intros Hbs Hps Hnd Hb Hp.
  destruct (hash_join_body_pairs JLeft ps pk pm pi pcol bs bk bm ki bcol)
    as (r & Hr & _ & Hrows); [done..|tauto|tauto|].
  pose proof (join_pairs_relation JLeft pcol (num_rows pm) bcol (num_rows bm)) as Hrel.
  exists r, (join_pairs JLeft pcol (num_rows pm) bcol (num_rows bm)).
  split_and!; [done..|]. intros i Hi.
  destruct (matching pcol (num_rows pm) (key_at bcol i)) as [|j js] eqn:E.
  - exists None. apply (jr_probe _ _ _ _ _ _ Hrel). split_and!; [done..|].
    by rewrite <- no_match by exact Hi.
  - exists (Some j). apply (jr_both _ _ _ _ _ _ Hrel).
    assert (j ∈ matching pcol (num_rows pm) (key_at bcol i)) as Hj by (rewrite E; set_solver).
    apply elem_of_matching in Hj. unfold rows_match. naive_solver.
Qed.

(** A semi join returns the probe rows that have a partner and an anti
    join those that have none, in probe order and with the probe schema; the
    two results partition the probe side. *)
Theorem semi_anti_partition `{K : ArrowKernels, !ArrowLaws K} bs bk bm ki bcol ps pk pm pi pcol :
  join_side bs bk bm ki bcol → join_side ps pk pm pi pcol →
  ∃ rs ra, hash_join bs bk ps pk JSemi = Ok [rs] ∧ hash_join bs bk ps pk JAnti = Ok [ra] ∧
    schema rs = schema pm ∧ schema ra = schema pm ∧
    batch_rows rs = row_at (columns pm) <$>
      filter (λ j, matching bcol (num_rows bm) (key_at pcol j) ≠ []) (seq 0 (num_rows pm)) ∧
    batch_rows ra = row_at (columns pm) <$>
      filter (λ j, ¬ matching bcol (num_rows bm) (key_at pcol j) ≠ []) (seq 0 (num_rows pm)) ∧
    batch_rows rs ++ batch_rows ra ≡ₚ batch_rows pm.
Proof.
  intros Hbs Hps.
  destruct (hash_join_body_filter JSemi bs bk bm ki bcol ps pk pm pi pcol)
    as (rs & Hrs & Hss & Hsr); [done..|tauto|].
  destruct (hash_join_body_filter JAnti bs bk bm ki bcol ps pk pm pi pcol)
    as (ra & Hra & Has & Har); [done..|tauto|].
  exists rs, ra. split_and!; try done.
  rewrite Hsr, Har, <- fmap_app. unfold batch_rows. f_equiv. by apply filter_partition.
Qed.

(** A left or full join panics when the build side is a batch without
    rows and the probe side has one: the missing build row is read from slot 0
    of an empty column. *)
Theorem outer_join_empty_build_panics `{K : ArrowKernels, !ArrowLaws K} jt bs bk bm ki bcol ps pk pm pi pcol :
  join_side bs bk bm ki bcol → join_side ps pk pm pi pcol →
  num_rows bm = 0 → 0 < num_rows pm → jt = JLeft ∨ jt = JFull →
  hash_join bs bk ps pk jt = Panic.
Proof.
  intros Hbs Hps Hb Hp Hjt. transitivity (hash_join_body bs bk ps pk jt).
  - by destruct Hjt as [-> | ->].
  - by eapply hash_join_body_empty_build.
Qed.

(** The extracted join keys are the non-null values of the key column in
    order of first appearance: none has the rendering of an earlier one, and
    every non-null value's rendering is among them. *)
Theorem extract_join_keys_distinct `{K : ArrowKernels} debug_scalar key batches cols :
  Forall2 (keyed key) batches cols →
  ∃ keys, extract_join_keys debug_scalar batches key = Ok keys ∧
    keys `sublist_of` concat (column_scalars <$> cols) ∧
    NoDup (debug_scalar <$> keys) ∧
    ∀ v, v ∈ concat (column_scalars <$> cols) → debug_scalar v ∈ debug_scalar <$> keys.
Proof.
  intros H. eexists. split; [unfold extract_join_keys; by rewrite (extract_batches_dedup _ _ _ cols)|].
  split_and!; [apply dedup_sublist|apply dedup_NoDup|].
  intros v Hv. apply dedup_keys. split; [by apply list_elem_of_fmap_2|set_solver].
Qed.

(** C7: when the probe connector honours the pushed IN-list, the semi-join
    pipeline computes the same inner join and the same semi join as fetching
    the whole probe side [ps] and joining locally.  Hypotheses, in order: the
    build side answers [bs], with one merged batch and a key column, and its
    batches have the key columns [cols]; it has at least one key; no two of its
    keys print the same; the probe connector answers [ps] to the query as given,
    and to every query narrowed by the IN-list exactly the rows of [ps] whose
    key is in the list, in their order (so the probe query has no LIMIT or
    OFFSET that would let other rows in); both answers have a key column, the
    same schema and distinct column names; and on every probe row, being in the
    list of keys and having a partner in the join agree (the key columns have
    the same type: the join compares displayed keys, the list compares values). *)
Theorem semi_join_pipeline_sound `{K : ArrowKernels, !ArrowLaws K} debug_scalar
    bc pc bq pq bk pk bs ps ps' bm pm pm' ki pi bcol pcol pcol' cols :
  @execute bc bq = Ok bs → join_side bs bk bm ki bcol → Forall2 (keyed bk) bs cols →
  concat (column_scalars <$> cols) ≠ [] →
  (∀ v w, v ∈ concat (column_scalars <$> cols) → w ∈ concat (column_scalars <$> cols) →
     debug_scalar v = debug_scalar w → v = w) →
  @execute pc pq = Ok ps → join_side ps pk pm pi pcol →
  (∀ keys q', extract_join_keys debug_scalar bs bk = Ok keys → narrows pq q' (FIn pk keys) →
     @execute pc q' = Ok ps' ∧
     num_rows pm' = length (filter (in_keys keys pcol) (seq 0 (num_rows pm))) ∧
     ∀ j i, filter (in_keys keys pcol) (seq 0 (num_rows pm)) !! j = Some i →
       row_at (columns pm') j = row_at (columns pm) i ∧ key_at pcol' j = key_at pcol i) →
  join_side ps' pk pm' pi pcol' → schema pm' = schema pm → length (columns pm') = length (columns pm) →
  (∀ i, i < num_rows pm →
     in_keys (concat (column_scalars <$> cols)) pcol i ↔ has_match bcol (num_rows bm) pcol i) →
  NoDup (name <$> schema pm) →
  ∀ jt, jt = Inner ∨ jt = JSemi →
  ∃ r r', execute_semi_join debug_scalar bc bq bk pc pq pk jt = Ok [r'] ∧
    hash_join bs bk ps pk jt = Ok [r] ∧ batch_rows r' = batch_rows r.
Proof.
  intros H1 H2 H3 H4 H5 H6 H7 H8 H9 H10 H11 H12 Hnd jt Hjt.
  assert (pipeline debug_scalar bc pc bq pq bk pk bs ps ps' bm pm pm' ki pi bcol pcol pcol' cols) as PL by by constructor.
  clear H1 H2 H3 H4 H5 H6 H7 H8 H9 H10 H11 H12.
  destruct (pipeline_reaches debug_scalar PL jt) as (-> & Hlen & Hsel).
  pose proof (pl_bside _ _ _ _ _ _ _ _ _ _ _ _ _ _ _ _ _ _ _ PL) as Hbs.
  pose proof (pl_pside _ _ _ _ _ _ _ _ _ _ _ _ _ _ _ _ _ _ _ PL) as Hps.
  pose proof (pl_pside' _ _ _ _ _ _ _ _ _ _ _ _ _ _ _ _ _ _ _ PL) as Hps'.
  pose proof (pl_schema _ _ _ _ _ _ _ _ _ _ _ _ _ _ _ _ _ _ _ PL) as Hs.
  destruct Hjt as [-> | ->].
  - destruct (hash_join_body_pairs Inner _ _ _ _ _ _ _ _ _ _ Hbs Hps) as (r & Hr & _ & Er); [done|tauto..|].
    destruct (hash_join_body_pairs Inner _ _ _ _ _ _ _ _ _ _ Hbs Hps') as (r' & Hr' & _ & Er');
      [by rewrite Hs|tauto..|].
    exists r, r'. split_and!; [done..|]. rewrite Er, Er'. exact (pipeline_inner_rows debug_scalar PL).
  - destruct (hash_join_body_filter JSemi _ _ _ _ _ _ _ _ _ _ Hbs Hps) as (r & Hr & _ & Er); [tauto|].
    destruct (hash_join_body_filter JSemi _ _ _ _ _ _ _ _ _ _ Hbs Hps') as (r' & Hr' & _ & Er'); [tauto|].
    exists r, r'. split_and!; [done..|]. rewrite Er, Er'.
    destruct (pipeline_kept_rows debug_scalar PL) as [-> _].
    apply list_eq. intros j. rewrite !list_lookup_fmap.
    change (filter (kept JSemi bcol (num_rows bm) pcol) (seq 0 (num_rows pm)))
      with (@selected K bm pm bcol pcol).
    destruct (@selected K bm pm bcol pcol !! j) as [i|] eqn:Hj.
    + rewrite lookup_seq_lt by (rewrite Hlen; by eapply lookup_lt_Some). cbn. f_equal.
      by apply Hsel.
    + apply lookup_ge_None in Hj. by rewrite lookup_seq_ge by lia.
Qed.

(** Run through the same pipeline an anti join returns no rows at all,
    whatever the probe side holds: the IN-list has already removed every row
    the anti join is meant to return. *)
Theorem semi_join_pipeline_anti_empty `{K : ArrowKernels, !ArrowLaws K} debug_scalar
    bc pc bq pq bk pk bs ps ps' bm pm pm' ki pi bcol pcol pcol' cols :
  pipeline debug_scalar bc pc bq pq bk pk bs ps ps' bm pm pm' ki pi bcol pcol pcol' cols →
  ∃ r, execute_semi_join debug_scalar bc bq bk pc pq pk JAnti = Ok [r] ∧ batch_rows r = [].
Proof.
  intros PL. destruct (pipeline_reaches debug_scalar PL JAnti) as (-> & _).
  pose proof (pl_bside _ _ _ _ _ _ _ _ _ _ _ _ _ _ _ _ _ _ _ PL) as Hbs.
  pose proof (pl_pside' _ _ _ _ _ _ _ _ _ _ _ _ _ _ _ _ _ _ _ PL) as Hps'.
  destruct (hash_join_body_filter JAnti _ _ _ _ _ _ _ _ _ _ Hbs Hps') as (r' & Hr' & _ & Er'); [tauto|].
  exists r'. split; [done|]. rewrite Er'.
  by destruct (pipeline_kept_rows debug_scalar PL) as [_ ->].
Qed.

(** ** Witnesses *)


Lemma hash_join_right_relational_witness :
  ∃ r prs, @hash_join RefArrow [ex_b] "id" [ex_p] "id" JRight = Ok [r] ∧
    @join_relation RefArrow JLeft (ex_ids ["b"; "d"; "a"]) 3 (ex_ids ["a"; "b"; "b"]) 3 prs ∧
    batch_rows r = joined_row (columns ex_p) (columns ex_b) 0 <$> prs ∧
    (∀ i, i < 3 → ∃ o, (o, Some i) ∈ prs).
Proof.
  apply (hash_join_right_relational [ex_b] "id" ex_b 0 (ex_ids ["a"; "b"; "b"])
           [ex_p] "id" ex_p 0 (ex_ids ["b"; "d"; "a"])).
  - solve_side.
  - solve_side.
  - refine (bool_decide_unpack _ _). vm_compute. exact I.
  - cbn; lia.
  - cbn; lia.
Defined.

Lemma semi_anti_partition_witness :
  ∃ rs ra, @hash_join RefArrow [ex_b] "id" [ex_p] "id" JSemi = Ok [rs] ∧
    @hash_join RefArrow [ex_b] "id" [ex_p] "id" JAnti = Ok [ra] ∧
    batch_rows rs ++ batch_rows ra ≡ₚ batch_rows ex_p.
Proof.
  destruct (semi_anti_partition (K := RefArrow) [ex_b] "id" ex_b 0 (ex_ids ["a"; "b"; "b"])
           [ex_p] "id" ex_p 0 (ex_ids ["b"; "d"; "a"])) as (rs & ra & H1 & H2 & _ & _ & _ & _ & H3).
  - solve_side.
  - solve_side.
  - exists rs, ra. split; [exact H1|]. split; [exact H2|exact H3].
Defined.

Lemma outer_join_empty_build_panics_witness :
  @hash_join RefArrow [ex_build [] []] "id" [ex_p] "id" JLeft = Panic.
Proof.
  apply (outer_join_empty_build_panics JLeft [ex_build [] []] "id" (ex_build [] []) 0 (ex_ids [])
           [ex_p] "id" ex_p 0 (ex_ids ["b"; "d"; "a"])).
  - solve_side.
  - solve_side.
  - reflexivity.
  - cbn; lia.
  - left. reflexivity.
Defined.

Lemma extract_join_keys_distinct_witness :
  ∃ keys, @extract_join_keys RefArrow ex_debug [ex_b; ex_sel] "id" = Ok keys ∧
    NoDup (ex_debug <$> keys).
Proof.
  destruct (extract_join_keys_distinct (K := RefArrow) ex_debug "id" [ex_b; ex_sel]
    [ex_ids ["a"; "b"; "b"]; ex_ids ["b"; "a"]]) as (keys & H1 & _ & H2 & _).
  - solve_keyed.
  - exists keys. split; [exact H1|exact H2].
Defined.

(** The situation of the pipeline theorems on concrete connectors. *)
Ltac solve_pipeline :=
  split;
  [ reflexivity
  | solve_side
  | solve_keyed
  | discriminate
  | intros v w Hv Hw; cbn in Hv, Hw; rewrite !elem_of_cons in Hv, Hw;
    destruct Hv as [->|[->|[->|Hv]]]; destruct Hw as [->|[->|[->|Hw]]];
    try (exfalso; by apply not_elem_of_nil in Hv); try (exfalso; by apply not_elem_of_nil in Hw);
    cbn; congruence
  | reflexivity
  | solve_side
  | intros keys q' Hk Hn; vm_compute in Hk; injection Hk as <-;
    rewrite (ex_connector_narrowed _ _ _ _ Hn eq_refl); split; [reflexivity|];
    split; [reflexivity|]; intros j i Hj; vm_compute in Hj;
    do 2 (destruct j as [|j]; [injection Hj as <-; split; reflexivity|]); discriminate
  | solve_side
  | reflexivity
  | reflexivity
  | intros i Hi; do 3 (destruct i as [|i];
      [vm_compute; split; intros H; try done; try set_solver|]); cbn in Hi; lia ].

Lemma semi_join_pipeline_sound_witness :
  ∃ r r', @execute_semi_join RefArrow ex_debug (ex_const ex_b) ex_query "id"
            (ex_connector ex_table) ex_query "id" Inner = Ok [r'] ∧
    @hash_join RefArrow [ex_b] "id" [ex_p] "id" Inner = Ok [r] ∧ batch_rows r' = batch_rows r.
Proof.
  assert (pipeline (K := RefArrow) ex_debug (ex_const ex_b)
    (ex_connector ex_table) ex_query ex_query "id" "id" [ex_b] [ex_p] [ex_sel]
    ex_b ex_p ex_sel 0 0 (ex_ids ["a"; "b"; "b"]) (ex_ids ["b"; "d"; "a"]) (ex_ids ["b"; "a"])
    [ex_ids ["a"; "b"; "b"]]) as [H1 H2 H3 H4 H5 H6 H7 H8 H9 H10 H11 H12] by solve_pipeline.
  apply (semi_join_pipeline_sound (K := RefArrow) ex_debug (ex_const ex_b)
    (ex_connector ex_table) ex_query ex_query "id" "id" [ex_b] [ex_p] [ex_sel]
    ex_b ex_p ex_sel 0 0 (ex_ids ["a"; "b"; "b"]) (ex_ids ["b"; "d"; "a"]) (ex_ids ["b"; "a"])
    [ex_ids ["a"; "b"; "b"]]); try assumption.
  - refine (bool_decide_unpack _ _). vm_compute. exact I.
  - left. reflexivity.
Defined.

Lemma semi_join_pipeline_anti_empty_witness :
  ∃ r, @execute_semi_join RefArrow ex_debug (ex_const ex_b) ex_query "id"
         (ex_connector ex_table) ex_query "id" JAnti = Ok [r] ∧ batch_rows r = [].
Proof.
  eapply (semi_join_pipeline_anti_empty (K := RefArrow) ex_debug (ex_const ex_b)
    (ex_connector ex_table) ex_query ex_query "id" "id" [ex_b] [ex_p] [ex_sel]
    ex_b ex_p ex_sel 0 0 (ex_ids ["a"; "b"; "b"]) (ex_ids ["b"; "d"; "a"]) (ex_ids ["b"; "a"])
    [ex_ids ["a"; "b"; "b"]]).
  solve_pipeline.
Defined.
