(* ===== verification/Cache.v ===== *)
(** * Cache: the query result cache and the caching connector

    Models [crates/fuse-engine/src/cache.rs] (TTL expiry, LRU eviction, memory
    budget) and [crates/fuse-engine/src/cache_middleware.rs] (the wrapper that
    consults the cache before a connector).

    The lock makes each operation atomic, so an operation is a function from
    the state before to the state after; the clock reading of the operation is
    an argument [now] in the unit of the TTLs.  Byte counts are unbounded: the
    code adds [usize] sizes of buffers that are all in memory at once.  The
    eviction loops run on fuel, one more than the length of the LRU queue, which
    the refinement theorem of [CacheCorrect] shows to be enough. *)

From S2P Require Import Prelude Strs Arrow Connector.
From stdpp Require Import base list gmap strings sets.
From Stdlib Require Import NArith Lia.

Definition DEFAULT_MAX_ENTRIES : N := 1024.
Definition DEFAULT_MAX_BYTES : N := 256 * 1024 * 1024.

(** [default_ttl], in seconds. *)
Definition default_ttl (connector_type : string) : N :=
  if decide (connector_type ∈ ["opensearch"; "elasticsearch"]) then 30
  else if decide (connector_type ∈ ["prometheus"; "influxdb"; "timestream"]) then 60
  else if decide (connector_type = "cloudwatch") then 60
  else if decide (connector_type = "kafka") then 10
  else if decide (connector_type = "redis") then 15
  else if decide (connector_type ∈ ["postgres"; "mysql"; "clickhouse"; "cassandra"]) then 60
  else if decide (connector_type ∈ ["dynamodb"; "mongodb"]) then 30
  else if decide (connector_type = "duckdb") then 120
  else if decide (connector_type ∈ ["s3"; "s3-o11y"; "csv-json"]) then 300
  else if decide (connector_type ∈ ["athena"; "bigquery"; "snowflake"; "spark"]) then 300
  else if decide (connector_type ∈ ["delta-lake"; "iceberg"]) then 300
  else if decide (connector_type = "arrow-flight") then 60
  else if decide (connector_type = "fuse") then 30
  else 30.

Record CachedResult : Type := mkCached {
  batches : list RecordBatch;
  created : N;
  ttl : N;
  estimated_bytes : N;
}.

(** [self.created.elapsed() > self.ttl]; elapsed time does not go below 0. *)
Definition is_expired (now : N) (e : CachedResult) : bool := (ttl e <? now - created e)%N.

Record CacheInner : Type := mkInner {
  entries : gmap N CachedResult;
  lru : list N;
  max_entries : N;
  max_bytes : N;
  total_bytes : N;
  hits : N;
  misses : N;
  evictions : N;
}.

Record CacheStats : Type := mkStats {
  s_entries : N; s_hits : N; s_misses : N; s_evictions : N;
  s_max_entries : N; s_total_bytes : N; s_max_bytes : N;
}.

Section QueryCache.
(** [arr.get_buffer_memory_size()], which Arrow computes. *)
Context (buffer_memory_size : Array → N).

Definition sum_N (l : list N) : N := foldr N.add 0%N l.

Definition batches_bytes (bs : list RecordBatch) : N :=
  sum_N ((λ b, sum_N (buffer_memory_size <$> columns b)) <$> bs).

Definition with_limits (max_entries max_bytes : N) : CacheInner :=
  mkInner ∅ [] (N.max max_entries 1) (N.max max_bytes 1) 0 0 0 0.
Definition with_capacity (max_entries : N) : CacheInner :=
  with_limits max_entries DEFAULT_MAX_BYTES.
Definition new : CacheInner := with_limits DEFAULT_MAX_ENTRIES DEFAULT_MAX_BYTES.

Definition touch (key : N) (st : CacheInner) : CacheInner :=
  mkInner (entries st) (filter (λ k, k ≠ key) (lru st) ++ [key]) (max_entries st)
    (max_bytes st) (total_bytes st) (hits st) (misses st) (evictions st).

(** The flag says whether an entry was removed. *)
Definition evict_one_lru (st : CacheInner) : CacheInner * bool :=
  match lru st with
  | [] => (st, false)
  | oldest :: rest =>
      match entries st !! oldest with
      | Some removed =>
          (mkInner (delete oldest (entries st)) rest (max_entries st) (max_bytes st)
             (total_bytes st - estimated_bytes removed) (hits st) (misses st)
             (evictions st + 1), true)
      | None =>
          (mkInner (entries st) rest (max_entries st) (max_bytes st) (total_bytes st)
             (hits st) (misses st) (evictions st), false)
      end
  end.

(** [while cond { if !evict_one_lru() { break } }]; [None] is out of fuel. *)
Fixpoint evict_while (cond : CacheInner → bool) (fuel : nat) (st : CacheInner) :
    option CacheInner :=
  match fuel with
  | 0 => None
  | S fuel =>
      if cond st then
        match evict_one_lru st with
        | (st', true) => evict_while cond fuel st'
        | (st', false) => Some st'
        end
      else Some st
  end.

Definition over_count (st : CacheInner) : bool :=
  (max_entries st <=? N.of_nat (size (entries st)))%N.
Definition over_bytes (new_bytes : N) (st : CacheInner) : bool :=
  (max_bytes st <? total_bytes st + new_bytes)%N && negb (bool_decide (entries st = ∅)).

Definition evict_until_fits (new_bytes : N) (st : CacheInner) : option CacheInner :=
  st ← evict_while over_count (S (length (lru st))) st;
  evict_while (over_bytes new_bytes) (S (length (lru st))) st.

Definition get (now : N) (key : N) (st : CacheInner) : CacheInner * option (list RecordBatch) :=
  match entries st !! key with
  | Some entry =>
      if negb (is_expired now entry) then
        (touch key (mkInner (entries st) (lru st) (max_entries st) (max_bytes st)
                      (total_bytes st) (hits st + 1) (misses st) (evictions st)),
         Some (batches entry))
      else
        (mkInner (delete key (entries st)) (filter (λ k, k ≠ key) (lru st)) (max_entries st)
           (max_bytes st) (total_bytes st - estimated_bytes entry) (hits st)
           (misses st + 1) (evictions st + 1), None)
  | None =>
      (mkInner (entries st) (lru st) (max_entries st) (max_bytes st) (total_bytes st)
         (hits st) (misses st + 1) (evictions st), None)
  end.

Definition put (now : N) (key : N) (bs : list RecordBatch) (t : N) (st : CacheInner) :
    option CacheInner :=
  let new_bytes := batches_bytes bs in
  st ← match entries st !! key with
       | Some old =>
           Some (mkInner (delete key (entries st)) (lru st) (max_entries st) (max_bytes st)
                   (total_bytes st - estimated_bytes old) (hits st) (misses st) (evictions st))
       | None => evict_until_fits new_bytes st
       end;
  Some (touch key (mkInner (<[key := mkCached bs now t new_bytes]> (entries st)) (lru st)
                     (max_entries st) (max_bytes st) (total_bytes st + new_bytes)
                     (hits st) (misses st) (evictions st))).

(** One iteration of the removal loop of [evict_expired]. *)
Definition remove_key (st : gmap N CachedResult * N) (k : N) : gmap N CachedResult * N :=
  match fst st !! k with
  | Some removed => (delete k (fst st), (snd st - estimated_bytes removed)%N)
  | None => st
  end.

Definition evict_expired (now : N) (st : CacheInner) : CacheInner * N :=
  let expired_keys := fst <$> filter (λ kv, is_expired now (snd kv) = true)
                                (map_to_list (entries st)) in
  let '(entries', total') := foldl remove_key (entries st, total_bytes st) expired_keys in
  let removed := (N.of_nat (size (entries st)) - N.of_nat (size entries'))%N in
  (mkInner entries' (filter (λ k, k ∉ expired_keys) (lru st)) (max_entries st) (max_bytes st)
     total' (hits st) (misses st) (evictions st + removed), removed).

Definition clear (st : CacheInner) : CacheInner :=
  mkInner ∅ [] (max_entries st) (max_bytes st) 0 (hits st) (misses st) (evictions st).

Definition stats (st : CacheInner) : CacheStats :=
  mkStats (N.of_nat (size (entries st))) (hits st) (misses st) (evictions st)
    (max_entries st) (total_bytes st) (max_bytes st).
End QueryCache.

(** ** The caching connector *)

Section CachingConnector.
Context (buffer_memory_size : Array → N).
(** [DefaultHasher] over the two strings, and the [Debug] renderings. *)
Context (cache_key : string → string → N).
Context (debug_filter : option FilterExpr → string)
  (debug_aggs : list AggregationExpr → string) (debug_group_by : list string → string)
  (debug_sort : list SortExpr → string) (debug_limit : option N → string).

Definition make_key (inner : FederatedConnector) (q : SubQuery) : N :=
  cache_key (@connector_id inner)
    (table q +:+ ":" +:+ join_with "," (projections q) +:+ ":" +:+
     debug_filter (filter_expr q) +:+ ":" +:+ debug_aggs (aggregations q) +:+ ":" +:+
     debug_group_by (group_by q) +:+ ":" +:+ debug_sort (sort q) +:+ ":" +:+
     debug_limit (limit q)).

(** [now] and [now'] are the clock readings of the lookup and of the insertion
    after the inner call.  [None] only if the cache ran out of fuel, which it
    never does. *)
Definition cached_execute (inner : FederatedConnector) (t now now' : N) (q : SubQuery)
    (st : CacheInner) : option (CacheInner * outcome ConnectorError (list RecordBatch)) :=
  let key := make_key inner q in
  match get now key st with
  | (st, Some bs) => Some (st, Ok bs)
  | (st, None) =>
      match @execute inner q with
      | Ok bs =>
          st ← put buffer_memory_size now' key bs t st;
          Some (st, Ok bs)
      | Err e => Some (st, Err e)
      | Panic => Some (st, Panic)
      end
  end.
End CachingConnector.
