(* ===== verification/CacheCorrect.v ===== *)
(** * CacheCorrect: the result cache is an LRU queue with a memory budget

    The abstract cache is the list of its entries from the least to the most
    recently used.  [repr] relates the three fields the code keeps in step
    (hash map, LRU deque, byte counter) to that list; every operation of
    [Cache] is simulated by the list operation, so the loops terminate, the
    counter is the exact sum and no entry is lost or leaked.  On top of it: the
    capacity bound, the budget, and the transparency of the caching connector. *)

From S2P Require Import Prelude Arrow Connector Cache.
From stdpp Require Import base list gmap strings sets.
From Stdlib Require Import NArith Lia.

(** ** The abstract cache *)

Abbreviation lru_list := (list (N * CachedResult)).

Definition without (key : N) (l : lru_list) : lru_list := filter (λ kv, fst kv ≠ key) l.
Definition bytes_of (l : lru_list) : N := sum_N (estimated_bytes ∘ snd <$> l).

(** Drop the least recently used entries until [ok] holds or none is left. *)
Fixpoint trim (ok : lru_list → bool) (l : lru_list) : lru_list :=
  match l with
  | [] => []
  | kv :: l' => if ok l then l else trim ok l'
  end.

Inductive cache_op : Type :=
| OpGet (now key : N)
| OpPut (now key : N) (bs : list RecordBatch) (t : N)
| OpExpire (now : N)
| OpClear.

Section Spec.
Context (size_of : Array → N) (cap budget : N).

Definition room (l : lru_list) : bool := (N.of_nat (length l) <? cap)%N.
Definition within (new_bytes : N) (l : lru_list) : bool :=
  (bytes_of l + new_bytes <=? budget)%N.

(** What each operation does to the list, and what a lookup answers. *)
Definition spec_op (op : cache_op) (l : lru_list) : lru_list * option (list RecordBatch) :=
  match op with
  | OpGet now key =>
      match (list_to_map l : gmap N CachedResult) !! key with
      | Some e =>
          if is_expired now e then (without key l, None)
          else (without key l ++ [(key, e)], Some (batches e))
      | None => (l, None)
      end
  | OpPut now key bs t =>
      let n := batches_bytes size_of bs in
      let l := if decide (key ∈ fst <$> l) then without key l
               else trim (within n) (trim room l) in
      (l ++ [(key, mkCached bs now t n)], None)
  | OpExpire now => (filter (λ kv, is_expired now (snd kv) = false) l, None)
  | OpClear => ([], None)
  end.

Fixpoint spec_run (ops : list cache_op) (l : lru_list) :
    lru_list * list (option (list RecordBatch)) :=
  match ops with
  | [] => (l, [])
  | op :: ops =>
      let '(l, r) := spec_op op l in
      let '(l, rs) := spec_run ops l in (l, r :: rs)
  end.
End Spec.

(** ** The concrete cache, driven by the same operations *)

Definition run_op (size_of : Array → N) (op : cache_op) (st : CacheInner) :
    option (CacheInner * option (list RecordBatch)) :=
  match op with
  | OpGet now key => Some (get now key st)
  | OpPut now key bs t => st ← put size_of now key bs t st; Some (st, None)
  | OpExpire now => Some (fst (evict_expired now st), None)
  | OpClear => Some (clear st, None)
  end.

Fixpoint run_ops (size_of : Array → N) (ops : list cache_op) (st : CacheInner) :
    option (CacheInner * list (option (list RecordBatch))) :=
  match ops with
  | [] => Some (st, [])
  | op :: ops =>
      '(st, r) ← run_op size_of op st;
      '(st, rs) ← run_ops size_of ops st;
      Some (st, r :: rs)
  end.

(** The representation invariant. *)
Record repr (cap budget : N) (st : CacheInner) (l : lru_list) : Prop := {
  repr_nodup : NoDup (fst <$> l);
  repr_lru : lru st = fst <$> l;
  repr_entries : entries st = list_to_map l;
  repr_bytes : total_bytes st = bytes_of l;
  repr_cap : max_entries st = cap;
  repr_budget : max_bytes st = budget;
}.

(** ** Facts about the list *)

Lemma fst_filter (P : N → Prop) `{!∀ x, Decision (P x)} (l : lru_list) :
  fst <$> filter (λ kv, P (fst kv)) l = filter P (fst <$> l).
Proof.
  induction l as [|[k e] l IH]; [done|]. rewrite fmap_cons, !filter_cons. cbn [fst].
  case_decide; cbn; by rewrite IH.
Qed.

Lemma without_fst key l : fst <$> without key l = filter (λ k, k ≠ key) (fst <$> l).
Proof. unfold without. by rewrite <- (fst_filter (λ k, k ≠ key)). Qed.

Lemma filter_list_to_map (P : N * CachedResult → Prop) `{!∀ x, Decision (P x)} l :
  NoDup (fst <$> l) →
  (list_to_map (filter P l) : gmap N CachedResult) = filter P (list_to_map l).
Proof.
  induction l as [|[k e] l IH]; intros Hnd; [done|]. rewrite filter_cons. cbn in Hnd.
  apply NoDup_cons in Hnd as [Hk Hnd]. rewrite list_to_map_cons.
  case_decide as HP; cbn.
  - rewrite IH by done. by rewrite map_filter_insert_True.
  - rewrite IH by done. rewrite map_filter_insert_False by done.
    rewrite delete_id; [done|]. by apply not_elem_of_list_to_map_1.
Qed.

Lemma without_map key l :
  NoDup (fst <$> l) →
  (list_to_map (without key l) : gmap N CachedResult) = delete key (list_to_map l).
Proof.
  intros Hnd. unfold without. rewrite filter_list_to_map by done.
  apply map_eq. intros k. rewrite map_lookup_filter.
  destruct (decide (k = key)) as [->|Hk].
  - rewrite lookup_delete_eq. destruct (list_to_map l !! key); cbn; [|done].
    by rewrite option_guard_False by naive_solver.
  - rewrite lookup_delete_ne by done. destruct (list_to_map l !! k); cbn; [|done].
    by rewrite option_guard_True.
Qed.

Lemma without_absent key l : key ∉ fst <$> l → without key l = l.
Proof.
  unfold without. induction l as [|[k e] l IH]; intros Hk; [done|]. cbn in Hk.
  rewrite filter_cons_True by (cbn; set_solver). rewrite IH; [done|set_solver].
Qed.

Lemma without_NoDup key l : NoDup (fst <$> l) → NoDup (fst <$> without key l).
Proof. intros. rewrite without_fst. by apply NoDup_filter. Qed.

Lemma without_not_in key l : key ∉ fst <$> without key l.
Proof. rewrite without_fst, list_elem_of_filter. tauto. Qed.

Lemma without_length key l : key ∈ fst <$> l → length (without key l) < length l.
Proof.
  unfold without. induction l as [|[k e] l IH]; intros Hin; [by apply not_elem_of_nil in Hin|].
  rewrite filter_cons. cbn in Hin. destruct (decide (k = key)) as [->|Hne].
  - rewrite decide_False by naive_solver.
    pose proof (length_filter (λ kv : N * CachedResult, fst kv ≠ key) l). cbn. lia.
  - rewrite decide_True by done. cbn. apply elem_of_cons in Hin as [?|Hin]; [congruence|].
    specialize (IH Hin). lia.
Qed.

Lemma bytes_of_app l k : bytes_of (l ++ k) = (bytes_of l + bytes_of k)%N.
Proof.
  unfold bytes_of, sum_N. rewrite fmap_app. induction (estimated_bytes ∘ snd <$> l) as [|x h IH].
  - done.
  - cbn [app foldr]. rewrite IH. apply N.add_assoc.
Qed.

Lemma sum_N_Permutation (l k : list N) : l ≡ₚ k → sum_N l = sum_N k.
Proof. unfold sum_N. induction 1; cbn [foldr]; lia. Qed.

Lemma bytes_of_cons k e l : bytes_of ((k, e) :: l) = (estimated_bytes e + bytes_of l)%N.
Proof. done. Qed.

Lemma bytes_without key e l :
  NoDup (fst <$> l) → (list_to_map l : gmap N CachedResult) !! key = Some e →
  bytes_of l = (estimated_bytes e + bytes_of (without key l))%N.
Proof.
  unfold without. induction l as [|[k x] l IH]; intros Hnd He; [done|]. cbn in Hnd.
  apply NoDup_cons in Hnd as [Hk Hnd]. rewrite list_to_map_cons in He. cbn in He.
  rewrite bytes_of_cons, filter_cons. destruct (decide (k = key)) as [->|Hne].
  - rewrite decide_False by naive_solver.
    rewrite lookup_insert_eq in He. simplify_eq. f_equal. f_equal.
    symmetry. by apply without_absent.
  - rewrite lookup_insert_ne in He by done. rewrite decide_True by done.
    rewrite bytes_of_cons, (IH Hnd He). lia.
Qed.

Lemma list_to_map_is_Some key (l : lru_list) :
  is_Some ((list_to_map l : gmap N CachedResult) !! key) ↔ key ∈ fst <$> l.
Proof.
  split.
  - intros [e He]. destruct (decide (key ∈ fst <$> l)) as [?|Hn]; [done|].
    apply (not_elem_of_list_to_map_1 (M := gmap N)) in Hn. congruence.
  - intros Hin. destruct ((list_to_map l : gmap N CachedResult) !! key) eqn:E; [eauto|].
    apply (not_elem_of_list_to_map_2 (M := gmap N)) in E. done.
Qed.

Lemma size_list_to_map (l : lru_list) :
  NoDup (fst <$> l) → size (list_to_map l : gmap N CachedResult) = length l.
Proof.
  intros. by rewrite <- (length_map_to_list (list_to_map l : gmap N CachedResult)),
    map_to_list_to_map.
Qed.

Lemma trim_suffix ok l : trim ok l `suffix_of` l.
Proof.
  induction l as [|kv l IH]; cbn; [done|]. destruct (ok _); [done|].
  by apply suffix_cons_r.
Qed.

Lemma trim_ok ok l : ok (trim ok l) = true ∨ trim ok l = [].
Proof. induction l as [|kv l IH]; cbn; [by right|]. by destruct (ok (kv :: l)) eqn:E; [left|]. Qed.

(** Nothing longer would have done: every longer suffix fails the test. *)
Lemma trim_minimal ok l k :
  k `suffix_of` l → length (trim ok l) < length k → ok k = false.
Proof.
  induction l as [|kv l IH]; intros Hk Hlen.
  { apply suffix_nil_inv in Hk as ->. cbn in Hlen. lia. }
  cbn in Hlen. destruct (ok (kv :: l)) eqn:E.
  - apply suffix_length in Hk. lia.
  - destruct k as [|kv' k]; [cbn in Hlen; lia|].
    apply suffix_cons_inv in Hk as [->|Hk]; auto.
Qed.

Lemma suffix_NoDup_fst (l k : lru_list) :
  l `suffix_of` k → NoDup (fst <$> k) → NoDup (fst <$> l).
Proof. intros [h ->]. rewrite fmap_app, NoDup_app. tauto. Qed.

Lemma suffix_fst_elem key (l k : lru_list) :
  l `suffix_of` k → key ∈ fst <$> l → key ∈ fst <$> k.
Proof. intros [h ->]. rewrite fmap_app. set_solver. Qed.

(** ** The eviction loops *)

(** Evicting the least recently used entry drops the head of the list. *)
Lemma evict_one_repr cap budget st k e l :
  repr cap budget st ((k, e) :: l) →
  ∃ st', evict_one_lru st = (st', true) ∧ repr cap budget st' l.
Proof.
  intros [Hnd Hlru Hent Hbytes Hcap Hbud]. unfold evict_one_lru.
  rewrite Hlru, Hent. cbn in Hnd |- *. apply NoDup_cons in Hnd as [Hk Hnd].
  rewrite lookup_insert_eq. eexists. split; [done|]. constructor; cbn; try done.
  - rewrite delete_insert_id; [done|].
    by apply (not_elem_of_list_to_map_1 (M := gmap N)).
  - rewrite Hbytes, bytes_of_cons. lia.
Qed.

Lemma evict_one_repr_nil cap budget st :
  repr cap budget st [] → evict_one_lru st = (st, false).
Proof. intros [_ Hlru _ _ _ _]. unfold evict_one_lru. by rewrite Hlru. Qed.

(** A loop whose test is the negation of [ok] on the represented list computes
    [trim ok], and fuel past the length of the list is enough. *)
Lemma evict_while_repr cap budget (ok : lru_list → bool) cond :
  (∀ st l, repr cap budget st l → l ≠ [] → cond st = negb (ok l)) →
  ∀ l st fuel, repr cap budget st l → length l < fuel →
  ∃ st', evict_while cond fuel st = Some st' ∧ repr cap budget st' (trim ok l).
Proof.
  intros Hcond l. induction l as [|[k e] l IH]; intros st fuel Hr Hfuel;
    (destruct fuel as [|fuel]; [lia|]); cbn [evict_while trim].
  - destruct (cond st); [rewrite (evict_one_repr_nil _ _ _ Hr)|]; eauto.
  - rewrite (Hcond _ _ Hr) by done. destruct (ok ((k, e) :: l)); cbn [negb]; [eauto|].
    destruct (evict_one_repr _ _ _ _ _ _ Hr) as (st1 & -> & Hr1).
    apply IH; [done|]. cbn in Hfuel. lia.
Qed.

Lemma repr_lru_length cap budget st l : repr cap budget st l → length (lru st) = length l.
Proof. intros [_ -> _ _ _ _]. apply length_fmap. Qed.

Lemma repr_size cap budget st l : repr cap budget st l → size (entries st) = length l.
Proof. intros [Hnd _ -> _ _ _]. by apply size_list_to_map. Qed.

Lemma over_count_room cap budget st l :
  repr cap budget st l → over_count st = negb (room cap l).
Proof.
  intros Hr. unfold over_count, room. rewrite (repr_size _ _ _ _ Hr), (repr_cap _ _ _ _ Hr).
  by rewrite N.ltb_antisym, negb_involutive.
Qed.

Lemma over_bytes_within cap budget n st l :
  repr cap budget st l → l ≠ [] → over_bytes n st = negb (within budget n l).
Proof.
  intros Hr Hl. unfold over_bytes, within.
  rewrite (repr_bytes _ _ _ _ Hr), (repr_budget _ _ _ _ Hr).
  rewrite bool_decide_false; [by rewrite andb_true_r, N.ltb_antisym|].
  intros Hemp. destruct l as [|[k e] l]; [done|].
  rewrite (repr_entries _ _ _ _ Hr) in Hemp. cbn in Hemp. by apply insert_non_empty in Hemp.
Qed.

Lemma evict_until_fits_repr cap budget n st l :
  repr cap budget st l →
  ∃ st', evict_until_fits n st = Some st' ∧
         repr cap budget st' (trim (within budget n) (trim (room cap) l)).
Proof.
  intros Hr. unfold evict_until_fits. rewrite (repr_lru_length _ _ _ _ Hr).
  destruct (evict_while_repr cap budget (room cap) over_count
              (λ st l Hr _, over_count_room _ _ st l Hr) l st (S (length l)) Hr)
    as (st1 & -> & Hr1); [lia|]. cbn [mbind option_bind].
  rewrite (repr_lru_length _ _ _ _ Hr1).
  apply (evict_while_repr cap budget _ _ (over_bytes_within cap budget n) _ _ _ Hr1). lia.
Qed.

(** ** The operations *)

Lemma repr_push cap budget st l key e ents h mi ev :
  repr cap budget st l → key ∉ fst <$> l → ents = list_to_map l →
  repr cap budget
    (touch key (mkInner (<[key := e]> ents) (lru st) (max_entries st) (max_bytes st)
                  (total_bytes st + estimated_bytes e) h mi ev))
    (l ++ [(key, e)]).
Proof.
  intros [Hnd Hlru Hent Hbytes Hcap Hbud] Hk ->. constructor; cbn; try done.
  - rewrite fmap_app. apply NoDup_app. split_and!; [done| |apply NoDup_singleton].
    set_solver.
  - rewrite Hlru, fmap_app, <- without_fst, without_absent by done. done.
  - rewrite list_to_map_app. cbn.
    apply map_eq. intros k. destruct (decide (k = key)) as [->|Hne].
    + rewrite lookup_insert_eq, lookup_union_r, lookup_insert_eq; [done|].
      by apply (not_elem_of_list_to_map_1 (M := gmap N)).
    + rewrite lookup_insert_ne by done.
      destruct ((list_to_map l : gmap N CachedResult) !! k) eqn:E.
      * by erewrite lookup_union_Some_l.
      * rewrite lookup_union_r by done. by rewrite lookup_insert_ne, lookup_empty.
  - rewrite bytes_of_app, Hbytes. unfold bytes_of at 3. cbn. lia.
Qed.

Lemma get_repr cap budget size_of now key st l :
  repr cap budget st l →
  repr cap budget (fst (get now key st)) (fst (spec_op size_of cap budget (OpGet now key) l)) ∧
  snd (get now key st) = snd (spec_op size_of cap budget (OpGet now key) l).
Proof.
  intros Hr. pose proof Hr as [Hnd Hlru Hent Hbytes Hcap Hbud].
  unfold get, spec_op. rewrite Hent.
  destruct (list_to_map l !! key) as [e|] eqn:He; [|by split; [constructor|]].
  pose proof (bytes_without _ _ _ Hnd He) as Hb.
  destruct (is_expired now e); cbn [negb fst snd]; (split; [|done]).
  - constructor; cbn; try done.
    + by apply without_NoDup.
    + by rewrite Hlru, without_fst.
    + by rewrite without_map.
    + rewrite Hbytes, Hb. lia.
  - constructor; cbn; try done.
    + rewrite fmap_app. apply NoDup_app.
      split_and!; [by apply without_NoDup| |apply NoDup_singleton].
      intros k Hk ->%list_elem_of_singleton. by eapply without_not_in.
    + by rewrite Hlru, fmap_app, without_fst.
    + rewrite list_to_map_app, without_map by done. cbn.
      apply map_eq. intros k. destruct (decide (k = key)) as [->|Hne].
      * rewrite lookup_union_r, lookup_insert_eq; [done|]. apply lookup_delete_eq.
      * rewrite lookup_union_l, lookup_delete_ne; [done..|].
        by rewrite lookup_insert_ne, lookup_empty.
    + rewrite Hbytes, bytes_of_app, Hb, bytes_of_cons.
      change (bytes_of []) with 0%N. lia.
Qed.

Lemma put_repr cap budget size_of now key bs t st l :
  repr cap budget st l →
  ∃ st', put size_of now key bs t st = Some st' ∧
         repr cap budget st' (fst (spec_op size_of cap budget (OpPut now key bs t) l)).
Proof.
  intros Hr. pose proof Hr as [Hnd Hlru Hent Hbytes Hcap Hbud].
  unfold put, spec_op. rewrite Hent. cbn [fst].
  destruct (list_to_map l !! key) as [e|] eqn:He.
  - cbn [mbind option_bind]. rewrite decide_True by (apply list_to_map_is_Some; eauto).
    eexists. split; [done|].
    pose proof (bytes_without _ _ _ Hnd He) as Hb.
    pose proof (repr_push cap budget
      (mkInner (delete key (list_to_map l)) (filter (λ k, k ≠ key) (lru st)) (max_entries st)
         (max_bytes st) (total_bytes st - estimated_bytes e) (hits st) (misses st) (evictions st))
      (without key l) key (mkCached bs now t (batches_bytes size_of bs))
      (delete key (list_to_map l)) (hits st) (misses st) (evictions st)) as Hp.
    destruct Hp as [Hp1 Hp2 Hp3 Hp4 Hp5 Hp6].
    { constructor; cbn; try done.
      - by apply without_NoDup.
      - by rewrite Hlru, without_fst.
      - by rewrite without_map.
      - rewrite Hbytes, Hb. lia. }
    { apply without_not_in. }
    { by rewrite without_map. }
    constructor; try done. cbn in Hp2 |- *. rewrite <- Hp2. f_equal.
    rewrite list_filter_filter. apply list_filter_iff. naive_solver.
  - rewrite decide_False
      by (rewrite <- (list_to_map_is_Some key l), He; by intros [? ?]).
    destruct (evict_until_fits_repr cap budget (batches_bytes size_of bs) _ _ Hr)
      as (st1 & -> & Hr1). cbn [mbind option_bind].
    eexists. split; [done|].
    apply (repr_push cap budget st1 _ key (mkCached bs now t (batches_bytes size_of bs))).
    + done.
    + intros Hin%(suffix_fst_elem _ _ _ (trim_suffix _ _))%(suffix_fst_elem _ _ _ (trim_suffix _ _)).
      apply list_to_map_is_Some in Hin as [? ?]. congruence.
    + apply (repr_entries _ _ _ _ Hr1).
Qed.

(** The removal loop of [evict_expired] over a set of keys of the map. *)
Lemma remove_keys_repr (l : lru_list) ks :
  NoDup (fst <$> l) → NoDup ks →
  foldl remove_key (list_to_map l, bytes_of l) ks =
    (list_to_map (filter (λ kv, fst kv ∉ ks) l), bytes_of (filter (λ kv, fst kv ∉ ks) l)).
Proof.
  revert l. induction ks as [|k ks IH]; intros l Hnd Hks.
  { cbn. rewrite (list_filter_iff _ (λ _, True)), list_filter_all; [done|set_solver]. }
  apply NoDup_cons in Hks as [Hk Hks].
  assert (filter (λ kv, fst kv ∉ k :: ks) l = filter (λ kv, fst kv ∉ ks) (without k l)) as ->.
  { unfold without. rewrite list_filter_filter. apply list_filter_iff. set_solver. }
  rewrite <- IH by auto using without_NoDup. cbn [foldl]. f_equal.
  unfold remove_key. cbn [fst snd]. rewrite without_map by done.
  destruct (list_to_map l !! k) as [e|] eqn:He.
  - rewrite (bytes_without _ _ _ Hnd He). f_equal. lia.
  - rewrite delete_id by done. rewrite without_absent; [done|].
    by apply (not_elem_of_list_to_map_2 (M := gmap N)).
Qed.

Lemma expired_keys_elem now (l : lru_list) kv :
  NoDup (fst <$> l) → kv ∈ l →
  fst kv ∈ fst <$> filter (λ kv, is_expired now (snd kv) = true)
                     (map_to_list (list_to_map l : gmap N CachedResult))
  ↔ is_expired now (snd kv) = true.
Proof.
  intros Hnd Hkv. rewrite list_elem_of_fmap. split.
  - intros (kv' & Heq & Hkv'). apply list_elem_of_filter in Hkv' as [He Hin].
    rewrite (map_to_list_to_map l Hnd) in Hin.
    replace kv with kv'; [done|]. destruct kv as [k e], kv' as [k' e']. cbn in *. subst k'.
    apply (elem_of_list_to_map_1 (M := gmap N)) in Hkv, Hin; [congruence|done..].
  - intros He. exists kv. split; [done|]. apply list_elem_of_filter. split; [done|].
    by rewrite (map_to_list_to_map l Hnd).
Qed.

Lemma evict_expired_repr cap budget size_of now st l :
  repr cap budget st l →
  repr cap budget (fst (evict_expired now st))
    (fst (spec_op size_of cap budget (OpExpire now) l)) ∧
  N.to_nat (snd (evict_expired now st)) =
    length l - length (fst (spec_op size_of cap budget (OpExpire now) l)).
Proof.
  intros Hr. pose proof Hr as [Hnd Hlru Hent Hbytes Hcap Hbud].
  unfold evict_expired, spec_op. rewrite Hent, Hbytes.
  set (ks := fst <$> filter _ (map_to_list _)).
  assert (NoDup ks) as Hks.
  { unfold ks. eapply sublist_NoDup;
      [exact (NoDup_fst_map_to_list (list_to_map l : gmap N CachedResult))|].
    apply fmap_sublist, sublist_filter. }
  rewrite remove_keys_repr by done. cbn [fst snd].
  assert (filter (λ kv, fst kv ∉ ks) l = filter (λ kv, is_expired now (snd kv) = false) l)
    as Hfilter.
  { apply list_filter_iff'. intros kv Hkv.
    pose proof (expired_keys_elem now l kv Hnd Hkv) as Hex. fold ks in Hex.
    rewrite Hex. by rewrite not_true_iff_false. }
  rewrite Hfilter.
  assert (NoDup (fst <$> filter (λ kv, is_expired now (snd kv) = false) l)) as Hnd'.
  { eapply sublist_NoDup; [exact Hnd|]. apply fmap_sublist, sublist_filter. }
  split.
  - constructor; cbn; try done. rewrite Hlru, <- Hfilter. by rewrite <- (fst_filter (λ k, k ∉ ks)).
  - rewrite !size_list_to_map by done. lia.
Qed.

Lemma clear_repr cap budget st l : repr cap budget st l → repr cap budget (clear st) [].
Proof. intros [? ? ? ? ? ?]. constructor; try done. constructor. Qed.

Lemma with_limits_repr c b : repr (N.max c 1) (N.max b 1) (with_limits c b) [].
Proof. constructor; try done. constructor. Qed.

(** One operation: the code and the list agree on the answer and stay related. *)
Lemma run_op_repr size_of cap budget op st l :
  repr cap budget st l →
  ∃ st', run_op size_of op st = Some (st', snd (spec_op size_of cap budget op l)) ∧
         repr cap budget st' (fst (spec_op size_of cap budget op l)).
Proof.
  intros Hr. destruct op as [now key|now key bs t|now|]; cbn [run_op].
  - destruct (get_repr cap budget size_of now key st l Hr) as [Hr' Hres].
    exists (fst (get now key st)). rewrite <- Hres. by rewrite <- surjective_pairing.
  - destruct (put_repr cap budget size_of now key bs t st l Hr) as (st' & -> & Hr').
    cbn [mbind option_bind]. eauto.
  - destruct (evict_expired_repr cap budget size_of now st l Hr) as [Hr' _].
    eexists. split; [done|]. exact Hr'.
  - eexists. split; [done|]. by eapply clear_repr.
Qed.

Lemma run_ops_repr size_of cap budget ops : ∀ st l,
  repr cap budget st l →
  ∃ st', run_ops size_of ops st = Some (st', snd (spec_run size_of cap budget ops l)) ∧
         repr cap budget st' (fst (spec_run size_of cap budget ops l)).
Proof.
  induction ops as [|op ops IH]; intros st l Hr; cbn [run_ops spec_run]; [eauto|].
  destruct (run_op_repr size_of cap budget op st l Hr) as (st1 & -> & Hr1).
  destruct (spec_op size_of cap budget op l) as [l1 r]. cbn [fst snd] in *.
  destruct (IH st1 l1 Hr1) as (st2 & Hrun & Hr2). cbn [mbind option_bind].
  rewrite Hrun. destruct (spec_run size_of cap budget ops l1) as [l2 rs]. eauto.
Qed.

(** The abstract cache never holds more entries than its capacity. *)
Lemma spec_op_length size_of cap budget op l :
  (1 ≤ cap)%N → (N.of_nat (length l) ≤ cap)%N →
  (N.of_nat (length (fst (spec_op size_of cap budget op l))) ≤ cap)%N.
Proof.
  intros Hcap Hl. destruct op as [now key|now key bs t|now|]; cbn [spec_op fst]; [| | |cbn; lia].
  - destruct (list_to_map l !! key) as [e|] eqn:He; [|done].
    assert (key ∈ fst <$> l) as Hin by (apply list_to_map_is_Some; eauto).
    pose proof (without_length key l Hin).
    destruct (is_expired now e); cbn [fst]; rewrite ?length_app; cbn; lia.
  - rewrite length_app. cbn [length]. case_decide as Hin.
    + pose proof (without_length key l Hin). lia.
    + pose proof (suffix_length _ _ (trim_suffix (within budget (batches_bytes size_of bs))
                                       (trim (room cap) l))).
      destruct (trim_ok (room cap) l) as [Hr|Hr].
      * apply N.ltb_lt in Hr. lia.
      * rewrite Hr in *. cbn in *. lia.
  - pose proof (length_filter (λ kv : N * CachedResult, is_expired now (snd kv) = false) l). lia.
Qed.

Lemma spec_run_length size_of cap budget ops : ∀ l,
  (1 ≤ cap)%N → (N.of_nat (length l) ≤ cap)%N →
  (N.of_nat (length (fst (spec_run size_of cap budget ops l))) ≤ cap)%N.
Proof.
  induction ops as [|op ops IH]; intros l Hcap Hl; [done|]. cbn [spec_run].
  pose proof (spec_op_length size_of cap budget op l Hcap Hl) as H1.
  destruct (spec_op size_of cap budget op l) as [l1 r]. cbn [fst] in H1.
  specialize (IH l1 Hcap H1). by destruct (spec_run size_of cap budget ops l1).
Qed.

Lemma put_trim_minimal cap budget n l k :
  k `suffix_of` l → length (trim (within budget n) (trim (room cap) l)) < length k →
  room cap k = false ∨ within budget n k = false.
Proof.
  intros Hk Hlen. destruct (decide (length (trim (room cap) l) < length k)) as [Hlt|Hge].
  - left. by eapply trim_minimal.
  - right. eapply trim_minimal; [|done].
    destruct (suffix_weak_total k (trim (room cap) l) l Hk (trim_suffix _ _)) as [?|Hs]; [done|].
    rewrite (suffix_length_eq _ _ Hs) by lia. done.
Qed.

(** The entry that was just put is found under its key. *)
Lemma put_lookup cap budget size_of now key bs t st' l :
  repr cap budget st' (fst (spec_op size_of cap budget (OpPut now key bs t) l)) →
  entries st' !! key = Some (mkCached bs now t (batches_bytes size_of bs)).
Proof.
  intros Hr. rewrite (repr_entries _ _ _ _ Hr).
  apply elem_of_list_to_map_1; [apply (repr_nodup _ _ _ _ Hr)|].
  cbn [spec_op fst]. apply elem_of_app. right. by apply list_elem_of_singleton.
Qed.

(** ** Provenance: nothing is in the cache that was not put there *)

Lemma trim_Forall (P : N * CachedResult → Prop) ok l : Forall P l → Forall P (trim ok l).
Proof. intros HP. destruct (trim_suffix ok l) as [h Hh]. rewrite Hh, Forall_app in HP. tauto. Qed.

Lemma without_Forall (P : N * CachedResult → Prop) key l : Forall P l → Forall P (without key l).
Proof. apply Forall_filter. Qed.

Lemma list_to_map_Forall (P : N * CachedResult → Prop) (l : lru_list) k e :
  Forall P l → (list_to_map l : gmap N CachedResult) !! k = Some e → P (k, e).
Proof.
  rewrite Forall_forall. intros HP He. apply HP.
  by apply (elem_of_list_to_map_2 (M := gmap N)).
Qed.

Lemma spec_op_Forall (P : N * CachedResult → Prop) size_of cap budget op l :
  Forall P l →
  (∀ now key bs t, op = OpPut now key bs t → P (key, mkCached bs now t (batches_bytes size_of bs))) →
  Forall P (fst (spec_op size_of cap budget op l)).
Proof.
  intros Hl Hput. destruct op as [now key|now key bs t|now|]; cbn [spec_op fst].
  - destruct (list_to_map l !! key) as [e|] eqn:He; [|done].
    destruct (is_expired now e); cbn [fst]; [by apply without_Forall|].
    apply Forall_app. split; [by apply without_Forall|].
    constructor; [|done]. by eapply list_to_map_Forall.
  - apply Forall_app. split; [|constructor; [by apply Hput|done]].
    case_decide; [by apply without_Forall|by do 2 apply trim_Forall].
  - by apply Forall_filter.
  - done.
Qed.

(** ** The caching connector *)

(** What happens to a cache a wrapper uses: requests, and maintenance. *)
Inductive cache_event : Type :=
| Request (now now' : N) (q : SubQuery)
| Sweep (now : N)
| Clear.

Section Transparency.
Context (size_of : Array → N) (cache_key : string → string → N).
Context (df : option FilterExpr → string) (da : list AggregationExpr → string)
  (dg : list string → string) (ds : list SortExpr → string) (dl : option N → string).
Context (inner : FederatedConnector) (t : N).

Let key_of (q : SubQuery) : N := make_key cache_key df da dg ds dl inner q.
Let cached := cached_execute size_of cache_key df da dg ds dl inner t.

Fixpoint serve (evs : list cache_event) (st : CacheInner) :
    option (CacheInner * list (outcome ConnectorError (list RecordBatch))) :=
  match evs with
  | [] => Some (st, [])
  | Request now now' q :: evs =>
      '(st, r) ← cached now now' q st;
      '(st, rs) ← serve evs st;
      Some (st, r :: rs)
  | Sweep now :: evs => serve evs (fst (evict_expired now st))
  | Clear :: evs => serve evs (clear st)
  end.

(** The answers without a cache. *)
Fixpoint direct (evs : list cache_event) : list (outcome ConnectorError (list RecordBatch)) :=
  match evs with
  | [] => []
  | Request _ _ q :: evs => @execute inner q :: direct evs
  | _ :: evs => direct evs
  end.

(** Every entry is the inner connector's answer to every query of its key. *)
Definition truthful (kv : N * CachedResult) : Prop :=
  ∀ q, key_of q = fst kv → @execute inner q = Ok (batches (snd kv)).

Hypothesis keys_agree : ∀ q q', key_of q = key_of q' → @execute inner q = @execute inner q'.

Lemma cached_execute_truthful cap budget now now' q st l :
  repr cap budget st l → Forall truthful l →
  ∃ st' l', cached now now' q st = Some (st', @execute inner q) ∧
            repr cap budget st' l' ∧ Forall truthful l'.
Proof.
  intros Hr Hl. unfold cached, cached_execute. fold (key_of q).
  destruct (get_repr cap budget size_of now (key_of q) st l Hr) as [Hr1 Hres].
  pose proof (spec_op_Forall truthful size_of cap budget (OpGet now (key_of q)) l Hl
                ltac:(done)) as Hl1.
  destruct (get now (key_of q) st) as [st1 r]. cbn [fst snd] in *.
  destruct r as [bs|].
  - do 2 eexists. split; [|by split]. do 2 f_equal.
    cbn [spec_op] in Hres.
    destruct (list_to_map l !! key_of q) as [e|] eqn:He; [|done].
    destruct (is_expired now e); [done|]. cbn in Hres. simplify_eq.
    symmetry. by apply (list_to_map_Forall truthful l _ _ Hl He).
  - destruct (@execute inner q) as [bs|e|] eqn:Hex; [|eauto..].
    destruct (put_repr cap budget size_of now' (key_of q) bs t st1 _ Hr1)
      as (st2 & -> & Hr2). cbn [mbind option_bind].
    do 2 eexists. split; [done|]. split; [exact Hr2|].
    apply spec_op_Forall; [done|]. intros ? ? ? ? ?. simplify_eq.
    intros q' Hq'. cbn in *. rewrite <- Hex. by apply keys_agree.
Qed.

Lemma serve_truthful cap budget evs : ∀ st l,
  repr cap budget st l → Forall truthful l →
  ∃ st', serve evs st = Some (st', direct evs).
Proof.
  induction evs as [|[now now' q|now|] evs IH]; intros st l Hr Hl; cbn [serve direct]; [eauto| | |].
  - destruct (cached_execute_truthful cap budget now now' q st l Hr Hl)
      as (st1 & l1 & -> & Hr1 & Hl1). cbn [mbind option_bind].
    destruct (IH st1 l1 Hr1 Hl1) as (st2 & ->). eauto.
  - eapply IH; [apply (evict_expired_repr cap budget size_of); exact Hr|].
    apply spec_op_Forall; [done|done].
  - eapply IH; [by eapply clear_repr|constructor].
Qed.
End Transparency.

(** ** Properties of the cache *)

(** C2: for every sequence of lookups, insertions, expiry sweeps and clears on a
    new cache, the operations all terminate, every lookup answers what the
    abstract LRU list answers, and the final hash map, deque and byte counter
    represent the final list. *)
Theorem cache_refines_lru size_of c b ops :
  ∃ st, run_ops size_of ops (with_limits c b) =
          Some (st, snd (spec_run size_of (N.max c 1) (N.max b 1) ops [])) ∧
        repr (N.max c 1) (N.max b 1) st
          (fst (spec_run size_of (N.max c 1) (N.max b 1) ops [])).
Proof. apply run_ops_repr, with_limits_repr. Qed.

(** In every state the cache can reach, the number of entries is within the
    capacity, the byte counter is the exact sum over the entries (so the
    saturating subtractions never saturate), and the deque lists each cached
    key exactly once. *)
Theorem cache_invariant size_of c b ops st rs :
  run_ops size_of ops (with_limits c b) = Some (st, rs) →
  (N.of_nat (size (entries st)) ≤ N.max c 1)%N ∧
  total_bytes st = sum_N (estimated_bytes ∘ snd <$> map_to_list (entries st)) ∧
  NoDup (lru st) ∧ ∀ k, k ∈ lru st ↔ is_Some (entries st !! k).
Proof.
  intros Hrun.
  destruct (run_ops_repr size_of _ _ ops _ _ (with_limits_repr c b)) as (st' & Hrun' & Hr).
  rewrite Hrun' in Hrun. simplify_eq. set (l := fst _) in Hr.
  pose proof (spec_run_length size_of (N.max c 1) (N.max b 1) ops [] ltac:(lia) ltac:(cbn; lia)).
  fold l in H. split_and!.
  - by rewrite (repr_size _ _ _ _ Hr).
  - rewrite (repr_bytes _ _ _ _ Hr), (repr_entries _ _ _ _ Hr). apply sum_N_Permutation.
    apply fmap_Permutation. symmetry. by apply map_to_list_to_map, (repr_nodup _ _ _ _ Hr).
  - rewrite (repr_lru _ _ _ _ Hr). apply (repr_nodup _ _ _ _ Hr).
  - intros k. rewrite (repr_lru _ _ _ _ Hr), (repr_entries _ _ _ _ Hr).
    symmetry. apply list_to_map_is_Some.
Qed.

(** Inserting a key that is not cached evicts from the least recently used
    end and no more than it must: what is kept is a suffix of the recency list,
    every longer suffix would break the capacity or the memory budget, and
    afterwards the cache is within the budget or holds only the new entry. *)
Theorem put_evicts_minimally size_of cap budget now key bs t st l :
  repr cap budget st l → entries st !! key = None →
  let n := batches_bytes size_of bs in
  ∃ st' dropped kept,
    put size_of now key bs t st = Some st' ∧ l = dropped ++ kept ∧
    repr cap budget st' (kept ++ [(key, mkCached bs now t n)]) ∧
    (∀ k, k `suffix_of` l → length kept < length k →
          room cap k = false ∨ within budget n k = false) ∧
    ((total_bytes st' ≤ budget)%N ∨ kept = []).
Proof.
  intros Hr Hnone n. destruct (put_repr cap budget size_of now key bs t st l Hr)
    as (st' & Hput & Hr'). cbn [spec_op fst] in Hr'.
  rewrite decide_False in Hr'
    by (rewrite <- list_to_map_is_Some, <- (repr_entries _ _ _ _ Hr), Hnone; by intros [? ?]).
  fold n in Hr'. set (kept := trim (within budget n) (trim (room cap) l)) in *.
  assert (kept `suffix_of` l) as [dropped Hl]
    by (etrans; apply trim_suffix).
  exists st', dropped, kept. split_and!; try done.
  - intros k. apply put_trim_minimal.
  - rewrite (repr_bytes _ _ _ _ Hr'), bytes_of_app.
    destruct (trim_ok (within budget n) (trim (room cap) l)) as [Hok|Hnil]; [left|by right].
    fold kept in Hok. unfold within in Hok. apply N.leb_le in Hok.
    rewrite bytes_of_cons. change (bytes_of []) with 0%N. cbn [estimated_bytes]. lia.
Qed.

(** A result that was just stored is what a lookup returns as long as its
    TTL has not passed, whatever was evicted to make room, and is not returned
    any more afterwards. *)
Theorem put_then_get size_of cap budget now key bs t st l :
  repr cap budget st l →
  ∃ st', put size_of now key bs t st = Some st' ∧
    (∀ later, (later - now ≤ t)%N → snd (get later key st') = Some bs) ∧
    (∀ later, (t < later - now)%N → snd (get later key st') = None).
Proof.
  intros Hr. destruct (put_repr cap budget size_of now key bs t st l Hr)
    as (st' & Hput & Hr'). exists st'. split; [done|].
  pose proof (put_lookup _ _ _ _ _ _ _ _ _ Hr') as Hkey.
  split; intros later Hl; unfold get; rewrite Hkey;
    unfold is_expired; cbn [created ttl].
  - by rewrite (proj2 (N.ltb_ge _ _)).
  - by rewrite (proj2 (N.ltb_lt _ _)).
Qed.

(** Replacing the result of a key that is already cached evicts nothing:
    every other entry stays and the new size is simply added, so a larger
    replacement can take the cache over its memory budget. *)
Theorem put_overwrite_skips_budget size_of cap budget now key bs t st l old :
  repr cap budget st l → entries st !! key = Some old →
  ∃ st', put size_of now key bs t st = Some st' ∧
    (∀ k, k ≠ key → entries st' !! k = entries st !! k) ∧
    total_bytes st' = (total_bytes st - estimated_bytes old + batches_bytes size_of bs)%N.
Proof.
  intros Hr Hold. unfold put. rewrite Hold. cbn [mbind option_bind].
  eexists. split; [done|]. split; [|done]. intros k Hk. cbn.
  by rewrite lookup_insert_ne, lookup_delete_ne.
Qed.

(** If two queries get the same cache key only when the connector answers
    them alike, the caching wrapper is transparent: over any sequence of
    requests, sweeps and clears every request terminates with exactly the answer
    (rows, error or panic) the inner connector would have given. *)
Theorem caching_transparent size_of cache_key df da dg ds dl inner t c b evs :
  (∀ q q', make_key cache_key df da dg ds dl inner q = make_key cache_key df da dg ds dl inner q' →
           @execute inner q = @execute inner q') →
  ∃ st, serve size_of cache_key df da dg ds dl inner t evs (with_limits c b) =
          Some (st, direct inner evs).
Proof.
  intros Hkeys. eapply serve_truthful; [exact Hkeys|apply with_limits_repr|constructor].
Qed.

(** The key leaves out HAVING, OFFSET and the passthrough query, so that
    premise fails for queries that differ only there: after a page has been
    served, a request for another page within the TTL returns the first page's
    rows, whatever the connector would answer. *)
Theorem cache_key_confuses_pages size_of cache_key df da dg ds dl inner t now now' later later'
    cap budget st l q h o p bs :
  repr cap budget st l →
  @execute inner q = Ok bs →
  snd (get now (make_key cache_key df da dg ds dl inner q) st) = None →
  (later - now' ≤ t)%N →
  let q' := mkSubQuery (table q) (projections q) (filter_expr q) (aggregations q) (group_by q)
              h (sort q) (limit q) o p in
  let cached := cached_execute size_of cache_key df da dg ds dl inner t in
  ∃ st1 st2, cached now now' q st = Some (st1, Ok bs) ∧
             cached later later' q' st1 = Some (st2, Ok bs).
Proof.
  intros Hr Hex Hmiss Hlater q' cached. unfold cached, cached_execute.
  change (make_key cache_key df da dg ds dl inner q')
    with (make_key cache_key df da dg ds dl inner q).
  set (key := make_key _ _ _ _ _ _ _ q) in *.
  destruct (get_repr cap budget size_of now key st l Hr) as [Hr1 _].
  destruct (get now key st) as [st0 r]. cbn [fst snd] in *. subst r. rewrite Hex.
  destruct (put_repr cap budget size_of now' key bs t st0 _ Hr1) as (st1 & -> & Hr2).
  cbn [mbind option_bind]. exists st1.
  pose proof (put_lookup _ _ _ _ _ _ _ _ _ Hr2) as Hin.
  unfold get. rewrite Hin. unfold is_expired. cbn [created ttl].
  rewrite (proj2 (N.ltb_ge _ _)) by done. cbn [negb]. eauto.
Qed.

(** ** Witnesses *)

Definition ex_size (a : Array) : N := N.of_nat (array_len a).
Definition ex_batch (n : nat) : RecordBatch :=
  mkBatch [] [mkArray Int64 (replicate n (Some (VInt 7)))] n.

(** Keys 1 and 2 of three bytes each, in a cache of seven bytes. *)
Definition ex_list : lru_list :=
  [(1%N, mkCached [ex_batch 3] 0 10 3); (2%N, mkCached [ex_batch 3] 0 10 3)].
Definition ex_cache : CacheInner := mkInner (list_to_map ex_list) [1%N; 2%N] 4 7 6 0 0 0.

Lemma ex_cache_repr : repr 4 7 ex_cache ex_list.
Proof. constructor; [refine (bool_decide_unpack _ _); vm_compute; exact I|done..]. Qed.

Lemma cache_invariant_witness :
  ∃ st rs, run_ops ex_size [OpPut 0 1 [ex_batch 3] 10; OpPut 0 2 [ex_batch 9] 10; OpGet 5 1; OpGet 5 2]
             (with_limits 4 7) = Some (st, rs) ∧
           rs = [None; None; None; Some [ex_batch 9]] ∧
           (N.of_nat (size (entries st)) ≤ 4)%N.
Proof.
  do 2 eexists. split; [vm_compute; reflexivity|]. split; [reflexivity|].
  refine (proj1 (cache_invariant ex_size 4 7
    [OpPut 0 1 [ex_batch 3] 10; OpPut 0 2 [ex_batch 9] 10; OpGet 5 1; OpGet 5 2] _ _ _)).
  vm_compute; reflexivity.
Defined.

(** Two of the six bytes must go: exactly key 1 is evicted. *)
Lemma put_evicts_minimally_witness :
  ∃ st', put ex_size 0 9 [ex_batch 2] 10 ex_cache = Some st' ∧ (total_bytes st' ≤ 7)%N ∧
         lru st' = [2%N; 9%N].
Proof.
  destruct (put_evicts_minimally ex_size 4 7 0 9 [ex_batch 2] 10 ex_cache ex_list
              ex_cache_repr eq_refl) as (st' & dropped & kept & Hput & _).
  exists st'. split; [exact Hput|]. clear dropped kept.
  vm_compute in Hput. injection Hput as <-. by split.
Defined.

Lemma put_then_get_witness :
  ∃ st', put ex_size 3 9 [ex_batch 2] 10 ex_cache = Some st' ∧
         snd (get 13 9 st') = Some [ex_batch 2] ∧ snd (get 14 9 st') = None.
Proof.
  destruct (put_then_get ex_size 4 7 3 9 [ex_batch 2] 10 ex_cache ex_list ex_cache_repr)
    as (st' & Hput & Hin & Hout).
  exists st'. split; [exact Hput|]. split; [apply Hin|apply Hout]; lia.
Defined.

(** Replacing three bytes by nine leaves twelve in a cache of seven. *)
Lemma put_overwrite_skips_budget_witness :
  ∃ st', put ex_size 0 1 [ex_batch 9] 10 ex_cache = Some st' ∧
         (max_bytes ex_cache < total_bytes st')%N ∧ is_Some (entries st' !! 2%N).
Proof.
  destruct (put_overwrite_skips_budget ex_size 4 7 0 1 [ex_batch 9] 10 ex_cache ex_list
              (mkCached [ex_batch 3] 0 10 3) ex_cache_repr eq_refl) as (st' & Hput & Hrest & Hsum).
  exists st'. split; [exact Hput|]. split.
  - rewrite Hsum. by vm_compute.
  - rewrite Hrest by done. by eexists.
Defined.

(** A connector that fails on [LIMIT 0], with a key that reads off exactly
    that: the last character of the rendered query. *)
Fixpoint last_char (s : string) : N :=
  match s with
  | EmptyString => 0
  | String a EmptyString => Ascii.N_of_ascii a
  | String _ s => last_char s
  end.

Lemma last_char_app s a : last_char (s +:+ String a "") = Ascii.N_of_ascii a.
Proof.
  induction s as [|b s IH]; [done|]. change (String b s +:+ String a "")
    with (String b (s +:+ String a "")).
  rewrite <- IH. cbn [last_char]. by destruct s.
Qed.

Definition ex_debug {A : Type} (_ : A) : string := "".
Definition ex_debug_limit (o : option N) : string := if decide (o = Some 0%N) then "0" else "n".
Definition ex_key (_ q : string) : N := last_char q.
Definition ex_connector : FederatedConnector := {|
  connector_id := "c";
  capabilities := full;
  execute := λ q, if decide (limit q = Some 0%N) then Err (QueryFailed "LIMIT 0")
                  else Ok [ex_batch 1];
|}.
Definition ex_query (l o : option N) : SubQuery :=
  mkSubQuery "t" [] None [] [] None [] l o None.

Lemma ex_make_key q :
  make_key ex_key ex_debug ex_debug ex_debug ex_debug ex_debug_limit ex_connector q =
    if decide (limit q = Some 0%N) then 48%N else 110%N.
Proof.
  unfold make_key, ex_key, ex_debug_limit.
  destruct (decide (limit q = Some 0%N));
    rewrite !str_app_assoc; apply last_char_app.
Qed.

Lemma caching_transparent_witness :
  ∃ st, serve ex_size ex_key ex_debug ex_debug ex_debug ex_debug ex_debug_limit ex_connector 10
          [Request 0 1 (ex_query None None); Request 2 3 (ex_query (Some 0%N) None);
           Sweep 4; Request 5 6 (ex_query None None)] (with_limits 4 7) =
        Some (st, [Ok [ex_batch 1]; Err (QueryFailed "LIMIT 0"); Ok [ex_batch 1]]).
Proof.
  apply (caching_transparent ex_size ex_key ex_debug ex_debug ex_debug ex_debug ex_debug_limit
           ex_connector 10 4 7
           [Request 0 1 (ex_query None None); Request 2 3 (ex_query (Some 0%N) None);
            Sweep 4; Request 5 6 (ex_query None None)]).
  intros q q'. rewrite !ex_make_key. cbn [execute ex_connector].
  by repeat case_decide.
Defined.

(** A connector with two pages: the second request gets the first page. *)
Definition ex_paged : FederatedConnector := {|
  connector_id := "c";
  capabilities := full;
  execute := λ q, if decide (offset q = None) then Ok [ex_batch 2] else Ok [ex_batch 1];
|}.

Lemma cache_key_confuses_pages_witness :
  @execute ex_paged (ex_query None (Some 2%N)) = Ok [ex_batch 1] ∧
  ∃ st1 st2,
    cached_execute ex_size ex_key ex_debug ex_debug ex_debug ex_debug ex_debug_limit ex_paged 10
      0 1 (ex_query None None) ex_cache = Some (st1, Ok [ex_batch 2]) ∧
    cached_execute ex_size ex_key ex_debug ex_debug ex_debug ex_debug ex_debug_limit ex_paged 10
      5 5 (ex_query None (Some 2%N)) st1 = Some (st2, Ok [ex_batch 2]).
Proof.
  split; [done|].
  apply (cache_key_confuses_pages ex_size ex_key ex_debug ex_debug ex_debug ex_debug
           ex_debug_limit ex_paged 10 0 1 5 5 4 7 ex_cache ex_list (ex_query None None)
           None (Some 2%N) None [ex_batch 2]);
    [exact ex_cache_repr|reflexivity|reflexivity|lia].
Defined.
