(* ===== verification/Merger.v ===== *)
(** * Merger: combining the results of several sub-queries

    Models [crates/fuse-engine/src/merger.rs]: the union schema, schema
    alignment, union, concatenation with a global limit, global sort and
    deduplication.  The Arrow kernels are the parameters of [ArrowKernels]. *)

From S2P Require Import Prelude Arrow Connector.
From stdpp Require Import base list gmap strings.
From Stdlib Require Import NArith ZArith.

(** ** Union schema *)

Definition wider_type (a b : DataType) : DataType :=
  if decide (a = b) then a
  else
    match a, b with
    | Int8, (Int16 | Int32 | Int64) => b
    | Int16, (Int32 | Int64) => b
    | Int32, Int64 => b
    | (Int16 | Int32 | Int64), Int8 => a
    | (Int32 | Int64), Int16 => a
    | Int64, Int32 => a
    | Float32, Float64 => Float64
    | Float64, Float32 => Float64
    | (Int8 | Int16 | Int32 | Int64), Float64 => Float64
    | Float64, (Int8 | Int16 | Int32 | Int64) => Float64
    | Utf8, LargeUtf8 | LargeUtf8, Utf8 => LargeUtf8
    | _, _ => a
    end.

(** The loop body: [field_map] and [seen] are the two accumulators. *)
Definition union_step (acc : list (string * DataType) * gset string) (f : Field) :
    list (string * DataType) * gset string :=
  let '(field_map, seen) := acc in
  match position (λ nt, String.eqb (fst nt) (name f)) field_map with
  | Some pos =>
      (alter (λ nt, (fst nt, wider_type (snd nt) (field_type f))) pos field_map, seen)
  | None =>
      if decide (name f ∈ seen) then (field_map, seen)
      else (field_map ++ [(name f, field_type f)], {[name f]} ∪ seen)
  end.

Definition union_schema (schemas : list Schema) : Schema :=
  let '(field_map, _) := foldl union_step ([], ∅) (concat schemas) in
  (λ nt, mkField (fst nt) (snd nt) (1 <? length schemas)) <$> field_map.

(** [schemas.windows(2).all(|w| w[0] == w[1])]. *)
Fixpoint all_same (schemas : list Schema) : bool :=
  match schemas with
  | s :: ((s' :: _) as rest) => bool_decide (s = s') && all_same rest
  | _ => true
  end.

Section Merge.
Context `{K : ArrowKernels}.

(** [batch.column(i)] panics past the last column. *)
Definition column {E : Type} (b : RecordBatch) (i : nat) : outcome E Array :=
  match columns b !! i with Some c => Ok c | None => Panic end.

Definition align_column (b : RecordBatch) (f : Field) : outcome EngineError Array :=
  match index_of (schema b) (name f) with
  | Some idx =>
      col ← column b idx;
      if decide (data_type col = field_type f) then Ok col
      else map_err ArrowErr (cast col (field_type f))
  | None => Ok (new_null_array (field_type f) (num_rows b))
  end.

Definition align_batch (b : RecordBatch) (target : Schema) : outcome EngineError RecordBatch :=
  columns ← mapM (align_column b) target;
  map_err ArrowErr (try_new target columns).

Definition union_batches (batch_sets : list (list RecordBatch)) :
    outcome EngineError (list RecordBatch) :=
  let all_batches := concat batch_sets in
  match all_batches with
  | [] => Ok []
  | _ =>
      let schemas := schema <$> all_batches in
      if all_same schemas then Ok all_batches
      else mapM (λ b, align_batch b (union_schema schemas)) all_batches
  end.

Definition merge_batches (bs : list RecordBatch) (limit : option nat) :
    outcome EngineError (list RecordBatch) :=
  match bs with
  | [] => Ok []
  | b0 :: _ =>
      merged ← map_err ArrowErr (concat_batches (schema b0) bs);
      match limit with
      | Some n => if n <? num_rows merged then Ok [batch_slice merged 0 n] else Ok [merged]
      | None => Ok [merged]
      end
  end.

Definition take_all (b : RecordBatch) (idx : list N) : outcome EngineError (list Array) :=
  mapM (λ col, map_err ArrowErr (arrow_take col idx)) (columns b).

Definition sort_batches (bs : list RecordBatch) (sort_columns : list nat)
    (descending : list bool) (limit : option nat) : outcome EngineError (list RecordBatch) :=
  match bs, sort_columns with
  | [], _ | _, [] => merge_batches bs limit
  | b0 :: _, _ =>
      merged ← map_err ArrowErr (concat_batches (schema b0) bs);
      cols ← mapM (λ '(col_idx, desc),
                     col ← column merged col_idx;
                     Ok (mkSortColumn col desc (negb desc))) (zip sort_columns descending);
      indices ← map_err ArrowErr (lexsort_to_indices cols limit);
      sorted_columns ← take_all merged indices;
      sorted ← map_err ArrowErr (try_new (schema b0) sorted_columns);
      Ok [sorted]
  end.

(** [for &col_idx in &col_indices { … if prev != curr { differs = true; break } }]. *)
Fixpoint row_differs (sorted : RecordBatch) (col_indices : list nat) (row : nat) :
    outcome EngineError bool :=
  match col_indices with
  | [] => Ok false
  | i :: rest =>
      col ← column sorted i;
      if String.eqb (array_debug col (row - 1)) (array_debug col row)
      then row_differs sorted rest row
      else Ok true
  end.

(** The flags [keep[0..num_rows]]. *)
Definition keep_flags (sorted : RecordBatch) (col_indices : list nat) (num_rows : nat) :
    outcome EngineError (list bool) :=
  match num_rows with
  | 0 => Ok []
  | S n => rest ← mapM (row_differs sorted col_indices) (seq 1 n); Ok (true :: rest)
  end.

(** [keep.iter().enumerate().filter_map(|(i, &k)| if k { Some(i as u32) } else { None })]. *)
Definition kept_indices (keep : list bool) : list N :=
  omap (λ '(i, k), if (k : bool) then Some (as_u32 i) else None) (enumerate keep).

Definition dedup_batches (bs : list RecordBatch) (dedup_columns : list string) :
    outcome EngineError (list RecordBatch) :=
  match bs, dedup_columns with
  | [], _ | _, [] => Ok bs
  | b0 :: _, _ =>
      merged ← map_err ArrowErr (concat_batches (schema b0) bs);
      col_indices ← mapM (λ n, ok_or (index_of (schema b0) n)
                                 (Plan ("Dedup column '" +:+ n +:+ "' not found"))) dedup_columns;
      sort_cols ← mapM (λ i, col ← column merged i; Ok (mkSortColumn col false true)) col_indices;
      sorted_indices ← map_err ArrowErr (lexsort_to_indices sort_cols None);
      sorted_columns ← take_all merged sorted_indices;
      sorted ← map_err ArrowErr (try_new (schema b0) sorted_columns);
      keep ← keep_flags sorted col_indices (num_rows merged);
      deduped_columns ← take_all sorted (kept_indices keep);
      result ← map_err ArrowErr (try_new (schema b0) deduped_columns);
      Ok [result]
  end.
End Merge.
