(* ===== verification/MergerCorrect.v ===== *)
(** * MergerCorrect: union, sort, limit and deduplication of results

    The merged result is specified on rows: a union keeps every row and widens
    it with nulls, a limited merge is a prefix, a sort is an ordered
    permutation, and a deduplication keeps one row of every key. *)

From S2P Require Import Prelude Arrow ArrowRef ArrowTake Connector Merger.
From stdpp Require Import base list gmap strings sorting.
From Stdlib Require Import NArith ZArith Lia.

(** ** Types that widen *)

(** A value of the first type can be held by the second. *)
Definition widens (a b : DataType) : bool :=
  match a, b with
  | Int8, (Int8 | Int16 | Int32 | Int64 | Float64) => true
  | Int16, (Int16 | Int32 | Int64 | Float64) => true
  | Int32, (Int32 | Int64 | Float64) => true
  | Int64, (Int64 | Float64) => true
  | Float32, (Float32 | Float64) => true
  | Utf8, LargeUtf8 => true
  | _, _ => bool_decide (a = b)
  end.

Definition comparable (a b : DataType) : Prop := widens a b = true ∨ widens b a = true.

#[export] Instance comparable_dec a b : Decision (comparable a b).
Proof. unfold comparable. apply _. Defined.

Lemma widens_refl a : widens a a = true.
Proof. destruct a; try done. apply bool_decide_true. done. Qed.

Lemma widens_trans a b c : widens a b = true → widens b c = true → widens a c = true.
Proof.
  destruct a, b; try done; destruct c; try done; cbn; rewrite ?bool_decide_eq_true; congruence.
Qed.

(** On comparable types [wider_type] is the greater of the two. *)
Lemma wider_type_max a b :
  comparable a b →
  widens a (wider_type a b) = true ∧ widens b (wider_type a b) = true ∧
  (wider_type a b = a ∨ wider_type a b = b).
Proof.
  intros H. unfold wider_type. case_decide as Hab.
  { subst. rewrite widens_refl. auto. }
  destruct H as [H|H]; destruct a, b; cbn in H |- *; try done; auto;
    rewrite ?bool_decide_eq_true in H; simplify_eq; auto.
Qed.

(** ** The union schema *)

(** The types a name has in a list of fields, in order. *)
Definition types_of (n : string) (fs : list Field) : list DataType :=
  field_type <$> filter (λ f, name f = n) fs.

(** The field list after folding a prefix: first appearances, each with the
    types of its name folded by [wider_type]. *)
Definition fold_types (ts : list DataType) : option DataType :=
  match ts with [] => None | t :: ts => Some (foldl wider_type t ts) end.

Lemma types_of_snoc n fs f :
  types_of n (fs ++ [f]) = types_of n fs ++ (if decide (name f = n) then [field_type f] else []).
Proof.
  unfold types_of. rewrite filter_app, fmap_app. f_equal. rewrite filter_cons.
  by case_decide.
Qed.

Lemma fold_types_snoc ts t :
  fold_types (ts ++ [t]) = Some (from_option (λ t', wider_type t' t) t (fold_types ts)).
Proof. destruct ts as [|t0 ts]; [done|]. cbn. by rewrite foldl_snoc. Qed.

Lemma types_of_nil n fs : n ∉ name <$> fs → types_of n fs = [].
Proof.
  intros Hn. unfold types_of. induction fs as [|f fs IH]; [done|]. rewrite filter_cons.
  rewrite decide_False by (cbn in Hn; set_solver). apply IH. set_solver.
Qed.

Record union_inv (fs : list Field) (acc : list (string * DataType) * gset string) : Prop := {
  ui_names : fst <$> fst acc = dedup_seen id ∅ (name <$> fs);
  ui_seen : snd acc = list_to_set (fst <$> fst acc);
  ui_types : Forall (λ nt, fold_types (types_of (fst nt) fs) = Some (snd nt)) (fst acc);
}.

Lemma union_inv_mem fs acc n :
  union_inv fs acc → n ∈ fst <$> fst acc ↔ n ∈ name <$> fs.
Proof.
  intros [Hn _ _]. rewrite Hn. pose proof (dedup_keys id ∅ (name <$> fs) n) as H.
  rewrite !list_fmap_id in H. set_solver.
Qed.

Lemma alter_fst (pos : nat) (g : string * DataType → DataType) (l : list (string * DataType)) :
  fst <$> alter (λ nt, (fst nt, g nt)) pos l = fst <$> l.
Proof.
  revert pos. induction l as [|x l IH]; intros [|pos]; cbn; [done..|]. f_equal. apply IH.
Qed.

Lemma union_step_inv fs acc f :
  union_inv fs acc → union_inv (fs ++ [f]) (union_step acc f).
Proof.
  intros Hinv. pose proof (union_inv_mem _ _ (name f) Hinv) as Hmem.
  pose proof Hinv as [Hn Hs Ht]. destruct acc as [fm seen]. cbn [fst snd] in *.
  assert (NoDup (fst <$> fm)) as Hnd.
  { rewrite Hn, <- (list_fmap_id (dedup_seen _ _ _)). apply dedup_NoDup. }
  assert (name f ∈ fst <$> fm →
          dedup_seen id ∅ (name <$> fs ++ [f]) = dedup_seen id ∅ (name <$> fs)) as Hold.
  { intros Hin. rewrite fmap_app, dedup_app. cbn [fmap list_fmap dedup_seen].
    rewrite decide_True; [by rewrite app_nil_r|].
    rewrite list_fmap_id, <- Hn. set_solver. }
  unfold union_step. destruct (position _ fm) as [pos|] eqn:Hpos.
  - apply position_Some in Hpos as ([n t] & Hl & Heq). cbn in Heq. apply String.eqb_eq in Heq.
    subst n. assert (name f ∈ fst <$> fm) as Hin
      by (apply list_elem_of_fmap; exists (name f, t); split; [done|by eapply list_elem_of_lookup_2]).
    constructor; cbn [fst snd].
    + by rewrite alter_fst, Hold.
    + by rewrite alter_fst.
    + apply Forall_lookup_2. intros j [n u] Hj. rewrite types_of_snoc. cbn [fst snd].
      rewrite Forall_lookup in Ht. destruct (decide (j = pos)) as [->|Hne].
      * rewrite list_lookup_alter_eq, Hl in Hj. cbn in Hj. simplify_eq.
        rewrite decide_True, fold_types_snoc by done. pose proof (Ht _ _ Hl) as Hf. cbn [fst snd] in Hf. by rewrite Hf.
      * rewrite list_lookup_alter_ne in Hj by done. rewrite decide_False.
        { rewrite app_nil_r. apply (Ht _ _ Hj). }
        intros <-. apply Hne. eapply (NoDup_lookup _ _ _ (name f) Hnd);
          rewrite list_lookup_fmap; [by rewrite Hj|by rewrite Hl].
  - assert (name f ∉ fst <$> fm) as Hnin.
    { apply position_None in Hpos. rewrite Forall_forall in Hpos.
      intros ([n t] & E & Hin)%list_elem_of_fmap. cbn in E. subst n.
      specialize (Hpos _ Hin). cbn in Hpos. by rewrite String.eqb_refl in Hpos. }
    rewrite decide_False by (subst seen; set_solver). constructor; cbn [fst snd].
    + rewrite !fmap_app, dedup_app, Hn. f_equal. cbn [fmap list_fmap dedup_seen].
      rewrite decide_False; [done|]. rewrite list_fmap_id, <- Hn. set_solver.
    + rewrite fmap_app. cbn. subst seen. set_solver.
    + apply Forall_app. split.
      * apply Forall_forall. intros [n t] Hin. rewrite Forall_forall in Ht. cbn.
        rewrite types_of_snoc, decide_False; [rewrite app_nil_r; by apply (Ht _ Hin)|].
        intros <-. apply Hnin. apply list_elem_of_fmap. by exists (name f, t).
      * constructor; [|done]. cbn.
        rewrite types_of_snoc, decide_True, types_of_nil by tauto. done.
Qed.

Lemma union_fold_inv fs : union_inv fs (foldl union_step ([], ∅) fs).
Proof.
  induction fs as [|f fs IH] using rev_ind; [by constructor|].
  rewrite foldl_snoc. by apply union_step_inv.
Qed.

(** Folding [wider_type] over pairwise comparable types gives their greatest. *)
Lemma foldl_wider t ts :
  (∀ a b, a ∈ t :: ts → b ∈ t :: ts → comparable a b) →
  foldl wider_type t ts ∈ t :: ts ∧ Forall (λ a, widens a (foldl wider_type t ts) = true) (t :: ts).
Proof.
  revert t. induction ts as [|u ts IH]; intros t Hc.
  { cbn. split; [set_solver|]. constructor; [apply widens_refl|done]. }
  cbn [foldl].
  destruct (wider_type_max t u) as (H1 & H2 & H3); [apply Hc; set_solver|].
  destruct (IH (wider_type t u)) as [Hin Hall].
  { intros a b Ha Hb. apply Hc; destruct H3 as [E|E]; rewrite E in *; set_solver. }
  rewrite Forall_cons in Hall. destruct Hall as [Hw Hall]. split.
  - destruct H3 as [E|E]; rewrite E in Hin |- *; set_solver.
  - repeat constructor; [by eapply widens_trans..|done].
Qed.

Lemma union_schema_lookup ss j f :
  union_schema ss !! j = Some f →
  fold_types (types_of (name f) (concat ss)) = Some (field_type f) ∧
  nullable f = (1 <? length ss).
Proof.
  unfold union_schema. pose proof (union_fold_inv (concat ss)) as [_ _ Ht].
  destruct (foldl union_step ([], ∅) (concat ss)) as [fm seen]. cbn [fst] in Ht.
  rewrite list_lookup_fmap. intros ([n t] & Hj & ->)%fmap_Some.
  split; [|done]. exact (Forall_lookup_1 _ _ _ _ Ht Hj).
Qed.

Lemma union_schema_names ss :
  name <$> union_schema ss = dedup_seen id ∅ (name <$> concat ss).
Proof.
  unfold union_schema. pose proof (union_fold_inv (concat ss)) as [Hn _ _].
  destruct (foldl union_step ([], ∅) (concat ss)) as [fm seen]. cbn [fst] in Hn.
  rewrite <- Hn, <- list_fmap_compose. done.
Qed.

Lemma union_schema_nonempty ss : concat ss ≠ [] → union_schema ss ≠ [].
Proof.
  intros Hss E. pose proof (union_schema_names ss) as Hn. rewrite E in Hn.
  destruct (concat ss) as [|f fs]; [done|]. cbn [fmap list_fmap dedup_seen] in Hn.
  by rewrite decide_False in Hn by set_solver.
Qed.

Lemma all_same_spec ss s0 : all_same (s0 :: ss) = true ↔ Forall (eq s0) ss.
Proof.
  revert s0. induction ss as [|s ss IH]; intros s0; [by split|].
  change (all_same (s0 :: s :: ss)) with (bool_decide (s0 = s) && all_same (s :: ss)).
  rewrite andb_true_iff, bool_decide_eq_true, IH, Forall_cons. naive_solver.
Qed.

Lemma not_all_same ss : all_same ss = false → concat ss ≠ [] ∧ 1 < length ss.
Proof.
  destruct ss as [|s0 ss]; [done|]. intros H. split.
  - intros E. cbn in E. apply app_eq_nil in E as [-> E].
    enough (all_same ([] :: ss) = true) by congruence. apply all_same_spec.
    apply Forall_forall. intros s Hs. destruct s as [|f s]; [done|]. exfalso.
    assert (f ∈ concat ss) as Hf by (apply elem_of_concat; exists (f :: s); set_solver).
    rewrite E in Hf. set_solver.
  - destruct ss; [done|]. cbn. lia.
Qed.

Section Union.
Context `{K : ArrowKernels, !ArrowLaws K}.

(** What the aligned column of a field is made from. *)
Definition aligned_from (b : RecordBatch) (f : Field) (a : Array) : Prop :=
  match index_of (schema b) (name f) with
  | None => a = mkArray (field_type f) (replicate (num_rows b) None)
  | Some i => ∃ col, columns b !! i = Some col ∧
      (if decide (data_type col = field_type f) then a = col
       else cast col (field_type f) = Ok a)
  end.

(** Every cast that aligning the batch needs is one Arrow can do. *)
Definition castable (b : RecordBatch) (target : Schema) : Prop :=
  ∀ f i col, f ∈ target → index_of (schema b) (name f) = Some i → columns b !! i = Some col →
    data_type col ≠ field_type f → ∃ a, cast col (field_type f) = Ok a.

Lemma align_column_ok b f target :
  wf_batch b → castable b target → f ∈ target →
  ∃ a, align_column b f = Ok a ∧ aligned_from b f a ∧
       data_type a = field_type f ∧ array_len a = num_rows b.
Proof.
  intros Hb Hcast Hf. unfold align_column, aligned_from, column.
  destruct (index_of (schema b) (name f)) as [i|] eqn:Hi.
  - apply index_of_Some in Hi as Hs. destruct Hs as (g & Hg & _).
    apply lookup_lt_Some in Hg. rewrite <- (wf_columns_length _ _ _ Hb) in Hg.
    destruct (lookup_lt_is_Some_2 _ _ Hg) as [col Hcol]. rewrite Hcol.
    cbn [mbind outcome_bind]. pose proof (wf_columns_lookup _ _ _ _ _ Hb Hcol) as Hlen.
    case_decide as Ht.
    + exists col. split_and!; [done| |done..]. exists col. by rewrite decide_True.
    + destruct (Hcast f i col Hf Hi Hcol Ht) as [a Ha]. exists a. rewrite Ha.
      destruct (cast_ok _ _ _ Ha) as [Hta Hla]. split_and!; [done| |done|congruence].
      exists col. by rewrite decide_False.
  - rewrite new_null_array_ok. eexists. split; [done|]. split_and!; [done..|].
    unfold array_len. cbn. apply length_replicate.
Qed.

Lemma align_batch_ok b target :
  wf_batch b → castable b target → target ≠ [] → Forall (λ f, nullable f = true) target →
  ∃ r, align_batch b target = Ok r ∧ schema r = target ∧ num_rows r = num_rows b ∧
       wf_batch r ∧ Forall2 (aligned_from b) target (columns r).
Proof.
  intros Hb Hcast Hne Hnull.
  assert (∃ cols, mapM (align_column b) target = Ok cols ∧
    Forall2 (λ f a, aligned_from b f a ∧ data_type a = field_type f ∧
                    array_len a = num_rows b) target cols) as (cols & Hm & Hall).
  { assert (∀ l, l ⊆ target → ∃ cols, mapM (align_column b) l = Ok cols ∧
      Forall2 (λ f a, aligned_from b f a ∧ data_type a = field_type f ∧
                    array_len a = num_rows b) l cols) as H; [|by apply H].
    induction l as [|f l IH]; intros Hl; [by exists []|].
    destruct (align_column_ok b f target Hb Hcast) as (a & Ha & Hrest); [set_solver|].
    destruct IH as (cols & Hc & Hcols); [set_solver|].
    exists (a :: cols). cbn. rewrite Ha. cbn. rewrite Hc. split; [done|]. by constructor. }
  assert (wf_columns target cols (num_rows b)) as Hwf.
  { split.
    - apply Forall2_same_length_lookup_2; [by eapply Forall2_length|]. intros i f a Hf Ha.
      destruct (Forall2_lookup_lr _ _ _ _ _ _ Hall Hf Ha) as (_ & ? & _).
      apply conforms_nullable; [done|]. exact (Forall_lookup_1 _ _ _ _ Hnull Hf).
    - apply Forall_lookup_2. intros i a Ha.
      destruct (Forall2_lookup_r _ _ _ _ _ Hall Ha) as (f & _ & _ & _ & ?). done. }
  destruct cols as [|c cols]; [inversion Hall; by subst|].
  assert (array_len c = num_rows b) as Hc by by apply (wf_columns_lookup _ _ _ 0 _ Hwf).
  exists (mkBatch target (c :: cols) (num_rows b)). unfold align_batch. rewrite Hm.
  cbn [mbind outcome_bind]. rewrite try_new_ok, Hc by by rewrite Hc.
  split_and!; [done..|]. eapply Forall2_impl; [exact Hall|]. by intros f a (? & _).
Qed.

Lemma align_all target :
  target ≠ [] → Forall (λ f, nullable f = true) target →
  ∀ l, Forall wf_batch l → Forall (λ b, castable b target) l →
  ∃ res, mapM (λ b, align_batch b target) l = Ok res ∧
    Forall2 (λ b r, schema r = target ∧ num_rows r = num_rows b ∧ wf_batch r ∧
                    Forall2 (aligned_from b) target (columns r)) l res.
Proof.
  intros Hne Hnull l. induction l as [|b l IH]; intros Hwf Hcast; [by exists []|].
  apply Forall_cons in Hwf as [Hb Hwf], Hcast as [Hc Hcast].
  destruct (align_batch_ok b target Hb Hc Hne Hnull) as (r & Hr & Hrest).
  destruct (IH Hwf Hcast) as (res & Hm & Hres). exists (r :: res). cbn [mapM].
  rewrite Hr, Hm. split; [done|]. by constructor.
Qed.
End Union.

(** ** Taking rows of a concatenation *)

Section Rows.
Context `{K : ArrowKernels, !ArrowLaws K}.

Definition same_schema (bs : list RecordBatch) (b0 : RecordBatch) : Prop :=
  schema b0 ≠ [] ∧ Forall (λ b, wf_columns (schema b0) (columns b) (num_rows b)) bs.

Lemma take_all_ok b rows :
  wf_batch b → Forall (λ i, i < num_rows b) rows →
  take_all b (N.of_nat <$> rows) = Ok ((λ c, pick c (Some <$> rows)) <$> columns b).
Proof.
  intros Hb Hrows. apply mapM_outcome_Ok. intros c [i Hi]%list_elem_of_lookup.
  by rewrite (take_rows c (num_rows b)) by (done || by eapply wf_columns_lookup).
Qed.

Lemma take_all_u32 b rows :
  wf_batch b → fits_u32 (num_rows b) → Forall (λ i, i < num_rows b) rows →
  take_all b (as_u32 <$> rows) = Ok ((λ c, pick c (Some <$> rows)) <$> columns b).
Proof.
  intros Hb Hfit Hrows. apply mapM_outcome_Ok. intros c [i Hi]%list_elem_of_lookup.
  by rewrite (take_pick c (num_rows b)) by (done || by eapply wf_columns_lookup).
Qed.

(** The batch that a list of row numbers selects. *)
Definition picked (b : RecordBatch) (rows : list nat) : RecordBatch :=
  mkBatch (schema b) ((λ c, pick c (Some <$> rows)) <$> columns b) (length rows).

Lemma picked_try_new b rows :
  wf_batch b → schema b ≠ [] → Forall (λ i, i < num_rows b) rows →
  try_new (schema b) ((λ c, pick c (Some <$> rows)) <$> columns b) = Ok (picked b rows).
Proof.
  intros Hb Hne Hrows. pose proof (pick_wf b rows Hb Hrows) as Hwf.
  unfold picked. destruct (columns b) as [|c cols] eqn:Hc.
  - pose proof (wf_columns_length _ _ _ Hb) as Hl. rewrite Hc in Hl. by destruct (schema b).
  - cbn [fmap list_fmap] in *.
    pose proof (wf_columns_lookup _ _ _ 0 _ Hwf eq_refl) as Hl.
    rewrite try_new_ok by by rewrite Hl. by rewrite Hl.
Qed.

Lemma picked_rows b rows : batch_rows (picked b rows) = row_at (columns b) <$> rows.
Proof. apply pick_rows. Qed.

Lemma picked_wf b rows :
  wf_batch b → Forall (λ i, i < num_rows b) rows → wf_batch (picked b rows).
Proof. apply pick_wf. Qed.
End Rows.

(** ** Order and keys of rows *)

Definition cell_of (row : list cell) (i : nat) : cell := mjoin (row !! i).

(** Rows compared on columns [ks], each ascending with nulls first or
    descending with nulls last. *)
Fixpoint row_compare (cmp : ArrayValue → ArrayValue → comparison) (ks : list (nat * bool))
    (r r' : list cell) : comparison :=
  match ks with
  | [] => Eq
  | (i, desc) :: ks =>
      match cell_compare cmp desc (negb desc) (cell_of r i) (cell_of r' i) with
      | Eq => row_compare cmp ks r r'
      | c => c
      end
  end.
Definition row_le cmp ks (r r' : list cell) : Prop := row_compare cmp ks r r' ≠ Gt.

Definition row_key (cis : list nat) (row : list cell) : list cell := cell_of row <$> cis.

Definition sort_column_of (b : RecordBatch) (k : nat * bool) (c : SortColumn) : Prop :=
  columns b !! fst k = Some (values c) ∧ descending c = snd k ∧ nulls_first c = negb (snd k).

Lemma cell_of_row cols i j c : cols !! i = Some c → cell_of (row_at cols j) i = value_at c j.
Proof. intros Hc. unfold cell_of, row_at. by rewrite list_lookup_fmap, Hc. Qed.

Lemma lex_compare_rows cmp b ks cs i j :
  Forall2 (sort_column_of b) ks cs →
  lex_compare cmp cs i j = row_compare cmp ks (row_at (columns b) i) (row_at (columns b) j).
Proof.
  induction 1 as [|[k d] c ks cs (Hc & Hd & Hn) _ IH]; [done|]. cbn in *.
  by rewrite !(cell_of_row _ _ _ _ Hc), Hd, Hn, IH.
Qed.

Lemma sorted_rows cmp b ks cs full :
  Forall2 (sort_column_of b) ks cs →
  StronglySorted (lex_le cmp cs) full → StronglySorted (row_le cmp ks) (row_at (columns b) <$> full).
Proof.
  intros Hcs. induction 1 as [|i full _ IH Hall]; [constructor|]. cbn. constructor; [done|].
  rewrite Forall_fmap. eapply Forall_impl; [exact Hall|]. intros j Hij.
  unfold compose, row_le. by rewrite <- (lex_compare_rows _ b ks cs).
Qed.

(** Mutually ordered rows have the same key, when values that compare equal
    are equal. *)
Lemma row_le_antisym cmp ks r r' :
  CompareLaws cmp → (∀ x y, cmp x y = Eq → x = y) →
  row_le cmp ks r r' → row_le cmp ks r' r → row_key (fst <$> ks) r = row_key (fst <$> ks) r'.
Proof.
  intros Hlaws Heq. unfold row_le, row_key. induction ks as [|[i d] ks IH]; [done|]. cbn.
  rewrite (cell_compare_antisym cmp d (negb d) (cell_of r i)).
  destruct (cell_compare cmp d (negb d) (cell_of r i) (cell_of r' i)) eqn:E; cbn; [|done..].
  intros H1 H2. f_equal; [|by apply IH].
  destruct (cell_of r i), (cell_of r' i), d; cbn in E; try done; f_equal;
    [symmetry|]; by apply Heq.
Qed.

Lemma row_le_key cmp ks r r1 r2 :
  row_key (fst <$> ks) r1 = row_key (fst <$> ks) r2 → row_le cmp ks r r1 → row_le cmp ks r r2.
Proof.
  unfold row_le, row_key. induction ks as [|[i d] ks IH]; [done|]. cbn. intros [= -> Hk].
  destruct (cell_compare _ _ _ _ _); [by apply IH|done..].
Qed.

(** ** Keeping the first row of every run of equal keys *)

Section Runs.
Context {A B : Type} `{!EqDecision B} (key : A → B) (rows : list A).

(** The positions that start a run. *)
Definition starts (r : nat) : Prop :=
  r = 0 ∨ key <$> rows !! (r - 1) ≠ key <$> rows !! r.
#[local] Instance starts_dec r : Decision (starts r).
Proof. unfold starts. apply _. Defined.

Definition run_heads : list A := gather rows (filter starts (seq 0 (length rows))).

Lemma run_heads_sublist : run_heads `sublist_of` rows.
Proof.
  unfold run_heads. rewrite <- (gather_seq rows) at 3.
  apply gather_sublist, sublist_filter.
Qed.

Lemma elem_of_run_heads x :
  x ∈ run_heads ↔ ∃ i, rows !! i = Some x ∧ starts i.
Proof.
  unfold run_heads, gather. rewrite list_elem_of_omap. split.
  - intros (i & [Hi _]%list_elem_of_filter & Hx). eauto.
  - intros (i & Hx & Hi). exists i. split; [|done]. apply list_elem_of_filter. split; [done|].
    apply elem_of_seq. apply lookup_lt_Some in Hx. lia.
Qed.

(** Every row's key is the key of a run head. *)
Lemma run_heads_cover i x : rows !! i = Some x → ∃ y, y ∈ run_heads ∧ key y = key x.
Proof.
  revert x. induction i as [|i IH]; intros x Hx.
  - exists x. split; [|done]. apply elem_of_run_heads. exists 0. split; [done|by left].
  - destruct (lookup_lt_is_Some_2 rows i) as [z Hz]; [apply lookup_lt_Some in Hx; lia|].
    destruct (decide (key z = key x)) as [E|E].
    + destruct (IH z Hz) as (y & Hy & Hyz). exists y. split; [done|congruence].
    + exists x. split; [|done]. apply elem_of_run_heads. exists (S i). split; [done|right].
      replace (S i - 1) with i by lia. rewrite Hz, Hx. cbn. congruence.
Qed.

Context (R : A → A → Prop).
Hypothesis R_antisym : ∀ x y, R x y → R y x → key x = key y.
Hypothesis R_key : ∀ x y z, key y = key z → R x y → R x z.
Hypothesis R_sorted : StronglySorted R rows.

(** In sorted rows equal keys are adjacent, so two run heads differ. *)
Lemma run_heads_apart i j x y :
  i < j → rows !! i = Some x → rows !! j = Some y → starts j → key x ≠ key y.
Proof.
  intros Hij Hx Hy [->|Hstart] Hkey; [lia|]. apply Hstart.
  destruct (decide (i = j - 1)) as [->|Hne]; [rewrite Hx, Hy; cbn; congruence|].
  destruct (lookup_lt_is_Some_2 rows (j - 1)) as [z Hz]; [apply lookup_lt_Some in Hy; lia|].
  rewrite Hz, Hy. cbn. f_equal. rewrite <- Hkey. symmetry. apply R_antisym.
  - apply (StronglySorted_pair R rows R_sorted i (j - 1)); [done..|lia].
  - apply (R_key _ y); [done|].
    apply (StronglySorted_pair R rows R_sorted (j - 1) j); [done..|lia].
Qed.

Lemma run_heads_NoDup : NoDup (key <$> run_heads).
Proof.
  unfold run_heads. generalize 0 (length rows). intros a n. revert a.
  induction n as [|n IH]; intros a; [constructor|]. cbn [seq]. rewrite filter_cons.
  case_decide as Ha; [|apply IH]. unfold gather. cbn.
  destruct (rows !! a) as [x|] eqn:Hx; [|apply IH]. cbn. constructor; [|apply IH].
  intros (y & Hkey & Hy)%list_elem_of_fmap. unfold gather in Hy.
  apply list_elem_of_omap in Hy as (j & [Hj Hin]%list_elem_of_filter & Hy).
  apply elem_of_seq in Hin. exact (run_heads_apart a j x y ltac:(lia) Hx Hy Hj Hkey).
Qed.
End Runs.

(** ** Sorting and deduplicating a concatenation *)

(** What the deduplication further relies on: the debug form of a cell tells
    values apart, and values that compare equal are equal. *)
Class DedupLaws (K : ArrowKernels) : Prop := {
  debug_faithful a i j : array_debug a i = array_debug a j ↔ value_at a i = value_at a j;
  compare_faithful x y : value_compare x y = Eq → x = y;
}.

Lemma dedup_indices_ok (s : Schema) names cis :
  Forall2 (λ n i, index_of s n = Some i) names cis →
  mapM (λ n, ok_or (index_of s n) (Plan ("Dedup column '" +:+ n +:+ "' not found"))) names = Ok cis.
Proof.
  induction 1 as [|n i names cis Hi _ IH]; [done|]. cbn [mapM]. by rewrite Hi, IH.
Qed.

Definition limited {A : Type} (limit : option nat) (l : list A) : list A :=
  match limit with Some n => take n l | None => l end.

Lemma limited_fmap {A B : Type} (f : A → B) limit l : f <$> limited limit l = limited limit (f <$> l).
Proof. destruct limit; [|done]. apply fmap_take. Qed.

Lemma limited_Forall {A : Type} (P : A → Prop) limit l : Forall P l → Forall P (limited limit l).
Proof. destruct limit; [|done]. apply Forall_take. Qed.

Section SortDedup.
Context `{K : ArrowKernels, !ArrowLaws K}.

Lemma merged_concat b0 bs :
  same_schema bs b0 →
  concat_batches (schema b0) bs = Ok (concat_ref (schema b0) bs) ∧
  wf_batch (concat_ref (schema b0) bs) ∧
  batch_rows (concat_ref (schema b0) bs) = concat (batch_rows <$> bs).
Proof.
  intros [Hne Hbs]. split_and!;
    [by apply concat_batches_ok|by apply concat_ref_wf|by apply concat_ref_rows].
Qed.

Definition sort_column (m : RecordBatch) (k : nat * bool) : outcome EngineError SortColumn :=
  col ← column m (fst k); Ok (mkSortColumn col (snd k) (negb (snd k))).

Lemma sort_columns_ok m ks :
  Forall (λ k, fst k < length (columns m)) ks →
  ∃ cs, mapM (sort_column m) ks = Ok cs ∧ Forall2 (sort_column_of m) ks cs.
Proof.
  induction 1 as [|[i d] ks Hi _ (cs & Hm & Hcs)]; [by exists []|]. cbn in Hi.
  destruct (lookup_lt_is_Some_2 _ _ Hi) as [c Hc].
  exists (mkSortColumn c d (negb d) :: cs). split; [|by constructor].
  cbn [mapM]. rewrite Hm. unfold sort_column, column. cbn [fst snd]. by rewrite Hc.
Qed.

Lemma lexsort_rows m ks cs limit :
  wf_batch m → ks ≠ [] → Forall2 (sort_column_of m) ks cs →
  ∃ full, lexsort_to_indices cs limit = Ok (N.of_nat <$> limited limit full) ∧
    Forall (λ i, i < num_rows m) (limited limit full) ∧
    row_at (columns m) <$> full ≡ₚ batch_rows m ∧
    StronglySorted (row_le value_compare ks) (row_at (columns m) <$> full).
Proof.
  intros Hm Hks Hcs. destruct Hcs as [|k c ks cs Hc Hcs]; [done|].
  assert (array_len (values c) = num_rows m) as Hlen
    by (destruct Hc as (Hc & _); by eapply wf_columns_lookup).
  destruct (lexsort_ok c cs limit) as (full & Hsort & Hperm & Hsorted).
  { apply Forall_lookup_2. intros i c' Hc'.
    destruct (Forall2_lookup_r _ _ _ _ _ Hcs Hc') as (k' & _ & Hk' & _).
    rewrite Hlen. by eapply wf_columns_lookup. }
  rewrite Hlen in Hperm. exists full. split; [exact Hsort|]. split_and!.
  - apply limited_Forall. rewrite Hperm. apply Forall_forall. intros i Hi%elem_of_seq. lia.
  - unfold batch_rows. by apply fmap_Permutation.
  - eapply sorted_rows; [|exact Hsorted]. by constructor.
Qed.

Lemma sort_batches_rows b0 rest sc desc limit :
  let bs := b0 :: rest in let ks := zip sc desc in
  same_schema bs b0 → ks ≠ [] → Forall (λ k, fst k < length (schema b0)) ks →
  ∃ r sorted, sort_batches bs sc desc limit = Ok [r] ∧ schema r = schema b0 ∧ wf_batch r ∧
    sorted ≡ₚ concat (batch_rows <$> bs) ∧ StronglySorted (row_le value_compare ks) sorted ∧
    batch_rows r = limited limit sorted.
Proof.
  intros bs ks Hbs Hks Hin. destruct (merged_concat b0 bs Hbs) as (Hc & Hwf & Hrows).
  set (m := concat_ref (schema b0) bs) in *.
  rewrite <- (wf_columns_length _ _ _ Hwf : length (columns m) = length (schema b0)) in Hin.
  destruct (sort_columns_ok m ks Hin) as (cs & Hcs & Hall).
  destruct (lexsort_rows m ks cs limit Hwf Hks Hall) as (full & Hsort & Hlt & Hperm & Hsorted).
  exists (picked m (limited limit full)), (row_at (columns m) <$> full).
  rewrite picked_rows, limited_fmap, <- Hrows. split_and!; try done; [|by apply picked_wf].
  unfold sort_batches. destruct sc as [|i sc]; [done|]. unfold bs at 1.
  fold bs. rewrite Hc. cbn [map_err mbind outcome_bind].
  replace (mapM _ (zip (i :: sc) desc)) with (mapM (sort_column m) ks)
    by (apply mapM_outcome_ext; by intros [? ?]).
  rewrite Hcs. cbn [mbind outcome_bind]. rewrite Hsort. cbn [map_err mbind outcome_bind].
  rewrite take_all_ok by done. cbn [mbind outcome_bind].
  change (schema b0) with (schema m). rewrite picked_try_new; [done|done|apply Hbs|done].
Qed.

Context `{!DedupLaws K}.

Lemma row_differs_ok m cis r :
  Forall (λ i, i < length (columns m)) cis →
  row_differs m cis r =
    Ok (bool_decide (row_key cis (row_at (columns m) (r - 1)) ≠
                     row_key cis (row_at (columns m) r))).
Proof.
  induction 1 as [|i cis Hi _ IH]; [done|]. cbn [row_differs].
  destruct (lookup_lt_is_Some_2 _ _ Hi) as [c Hc]. unfold column. rewrite Hc.
  cbn [mbind outcome_bind]. unfold row_key. rewrite !fmap_cons.
  rewrite !(cell_of_row _ _ _ _ Hc).
  destruct (String.eqb_spec (array_debug c (r - 1)) (array_debug c r)) as [E|E];
    rewrite debug_faithful in E.
  - rewrite IH. f_equal. apply bool_decide_ext. unfold row_key. rewrite E.
    split; intros Hne Heq; apply Hne; [by injection Heq|by rewrite Heq].
  - rewrite bool_decide_true; [done|]. congruence.
Qed.

Lemma keep_flags_ok m cis n :
  Forall (λ i, i < length (columns m)) cis → num_rows m = n →
  keep_flags m cis n =
    Ok ((λ r, bool_decide (starts (row_key cis) (batch_rows m) r)) <$> seq 0 n).
Proof.
  intros Hcis Hn. destruct n as [|n]; [done|]. cbn [keep_flags seq].
  rewrite (mapM_outcome_Ok _ (λ r, bool_decide (starts (row_key cis) (batch_rows m) r))).
  - cbn [mbind outcome_bind]. rewrite fmap_cons. do 2 f_equal.
  - intros r Hr%elem_of_seq. rewrite row_differs_ok by done. f_equal. apply bool_decide_ext.
    unfold starts, batch_rows. rewrite !list_lookup_fmap, !lookup_seq_lt by lia. cbn.
    split; [intros ?; right; congruence|intros [?|?]; [lia|congruence]].
Qed.

Lemma kept_indices_filter (P : nat → Prop) `{!∀ r, Decision (P r)} n :
  kept_indices ((λ r, bool_decide (P r)) <$> seq 0 n) = as_u32 <$> filter P (seq 0 n).
Proof.
  unfold kept_indices, enumerate. generalize 0 as a. induction n as [|n IH]; intros a; [done|].
  cbn [seq fmap list_fmap enumerate_from omap list_omap]. rewrite filter_cons, IH.
  case_bool_decide; [by rewrite decide_True|by rewrite decide_False].
Qed.

Lemma row_at_gather cols n ps :
  Forall (λ p, p < n) ps →
  row_at cols <$> ps = gather (row_at cols <$> seq 0 n) ps.
Proof.
  induction 1 as [|p ps Hp _ IH]; [done|]. unfold gather in *. cbn.
  rewrite list_lookup_fmap, lookup_seq_lt by done. cbn. by rewrite IH.
Qed.

Lemma dedup_batches_rows b0 rest names cis :
  let bs := b0 :: rest in
  same_schema bs b0 → names ≠ [] → fits_u32 (sum_list (num_rows <$> bs)) →
  Forall2 (λ n i, index_of (schema b0) n = Some i) names cis →
  ∃ r sorted, dedup_batches bs names = Ok [r] ∧ schema r = schema b0 ∧
    sorted ≡ₚ concat (batch_rows <$> bs) ∧
    StronglySorted (row_le value_compare ((., false) <$> cis)) sorted ∧
    batch_rows r = run_heads (row_key cis) sorted.
Proof.
  intros bs Hbs Hnames Hfit Hcis. destruct (merged_concat b0 bs Hbs) as (Hc & Hwf & Hrows).
  set (m := concat_ref (schema b0) bs) in *. set (ks := (., false) <$> cis).
  assert (ks ≠ []) as Hks by (destruct Hcis; done).
  assert (Forall (λ i, i < length (columns m)) cis) as Hin.
  { rewrite (wf_columns_length _ _ _ Hwf). eapply Forall2_Forall_r; [exact Hcis|].
    apply Forall_forall. intros n _ i (f & Hf & _)%index_of_Some. by eapply lookup_lt_Some. }
  destruct (sort_columns_ok m ks) as (cs & Hcs & Hall); [unfold ks; by rewrite Forall_fmap|].
  destruct (lexsort_rows m ks cs None Hwf Hks Hall) as (full & Hsort & Hlt & Hperm & Hsorted).
  cbn [limited] in Hsort, Hlt. set (sm := picked m full).
  assert (wf_batch sm) as Hwfs by by apply picked_wf.
  assert (batch_rows sm = row_at (columns m) <$> full) as Hsm by apply picked_rows.
  assert (num_rows sm = num_rows m) as Hn.
  { rewrite <- (batch_rows_length sm), <- (batch_rows_length m), Hsm. by rewrite Hperm. }
  set (ps := filter (starts (row_key cis) (batch_rows sm)) (seq 0 (num_rows m))).
  assert (Forall (λ i, i < num_rows sm) ps) as Hps.
  { apply Forall_forall. intros i [_ Hi]%list_elem_of_filter. apply elem_of_seq in Hi. lia. }
  exists (picked sm ps), (batch_rows sm). rewrite picked_rows.
  split_and!; [|done|by rewrite Hsm, Hperm, Hrows|by rewrite Hsm|].
  - unfold dedup_batches. destruct names as [|n0 names]; [done|]. unfold bs at 1. fold bs.
    rewrite Hc. cbn [map_err mbind outcome_bind].
    rewrite (dedup_indices_ok _ _ _ Hcis). cbn [mbind outcome_bind].
    replace (mapM _ cis) with (mapM (sort_column m) ks)
      by (unfold ks; by rewrite mapM_outcome_fmap).
    rewrite Hcs. cbn [mbind outcome_bind]. rewrite Hsort. cbn [map_err mbind outcome_bind].
    rewrite take_all_ok by done. cbn [mbind outcome_bind].
    change (schema b0) with (schema m). rewrite picked_try_new by (done || apply Hbs).
    cbn [map_err mbind outcome_bind]. fold sm.
    rewrite keep_flags_ok by (done || by cbn; rewrite length_fmap). cbn [mbind outcome_bind].
    rewrite kept_indices_filter. fold ps.
    rewrite take_all_u32 by (done || by rewrite Hn). cbn [mbind outcome_bind].
    change (schema m) with (schema sm). rewrite picked_try_new by (done || apply Hbs). done.
  - rewrite (row_at_gather _ (num_rows sm)) by done. unfold run_heads, ps.
    rewrite batch_rows_length, <- Hn. done.
Qed.
End SortDedup.

Lemma merge_batches_rows `{K : ArrowKernels, !ArrowLaws K} b0 rest limit :
  same_schema (b0 :: rest) b0 →
  ∃ r, merge_batches (b0 :: rest) limit = Ok [r] ∧ schema r = schema b0 ∧
       batch_rows r = limited limit (concat (batch_rows <$> b0 :: rest)).
Proof.
  intros Hbs. destruct (merged_concat b0 (b0 :: rest) Hbs) as (Hc & Hwf & Hrows).
  set (m := concat_ref (schema b0) (b0 :: rest)) in *. unfold merge_batches. rewrite Hc, <- Hrows.
  cbn [map_err mbind outcome_bind].
  destruct limit as [n|]; cbn [limited]; [|by exists m].
  destruct (Nat.ltb_spec n (num_rows m)) as [Hlt|Hge].
  - eexists. split; [done|]. by destruct (batch_slice_rows m n) as (-> & _ & ->); [|lia|].
  - exists m. by rewrite take_ge by (by rewrite batch_rows_length).
Qed.

(** ** Properties of the merger *)

(** The union schema has every column name once, in the order of first
    appearance, and when the types a column has are comparable under widening
    its type is one of them and can hold all the others. *)
Theorem union_schema_widest (ss : list Schema) :
  name <$> union_schema ss = dedup_seen id ∅ (name <$> concat ss) ∧
  NoDup (name <$> union_schema ss) ∧
  ∀ f, f ∈ union_schema ss →
    (∀ a b, a ∈ types_of (name f) (concat ss) → b ∈ types_of (name f) (concat ss) →
            comparable a b) →
    field_type f ∈ types_of (name f) (concat ss) ∧
    Forall (λ t, widens t (field_type f) = true) (types_of (name f) (concat ss)).
Proof.
  rewrite union_schema_names. split_and!; [done| |].
  - rewrite <- (list_fmap_id (dedup_seen _ _ _)). apply dedup_NoDup.
  - intros f [j Hj]%list_elem_of_lookup Hc.
    destruct (union_schema_lookup ss j f Hj) as [Ht _].
    destruct (types_of (name f) (concat ss)) as [|t ts]; [done|]. cbn in Ht.
    injection Ht as <-. by apply foldl_wider.
Qed.

(** The union of well-formed results with differing schemas succeeds when
    the casts it needs do, returns one batch per input batch with all its rows,
    all under the union schema, and each column is the batch's column of that
    name (cast if its type differs) or nulls if the batch has none. *)
Theorem union_batches_aligned `{K : ArrowKernels, !ArrowLaws K} (sets : list (list RecordBatch)) :
  let all := concat sets in let target := union_schema (schema <$> all) in
  all_same (schema <$> all) = false →
  Forall wf_batch all → Forall (λ b, castable b target) all →
  ∃ res, union_batches sets = Ok res ∧
    Forall2 (λ b r, schema r = target ∧ num_rows r = num_rows b ∧ wf_batch r ∧
                    Forall2 (aligned_from b) target (columns r)) all res.
Proof.
  intros all target Hdiff Hwf Hcast. unfold union_batches. fold all. rewrite Hdiff. fold target.
  destruct (not_all_same _ Hdiff) as [Hne Hlen].
  assert (target ≠ []) as Htne by by apply union_schema_nonempty.
  assert (Forall (λ f, nullable f = true) target) as Hnull.
  { apply Forall_lookup_2. intros j f [_ ->]%union_schema_lookup. by apply Nat.ltb_lt. }
  destruct (align_all target Htne Hnull all Hwf Hcast) as (res & Hm & Hres).
  exists res. split; [|done]. rewrite <- Hm. by destruct all.
Qed.

(** C12: a global sort returns one batch under the common schema whose rows are
    all input rows in the requested order (ascending with nulls first or
    descending with nulls last per column), cut to the limit.  There is at least
    one batch, all are of one schema, and there is at least one sort column, each
    within the schema. *)
Theorem sort_batches_sorted `{K : ArrowKernels, !ArrowLaws K} b0 rest sc desc limit :
  same_schema (b0 :: rest) b0 → zip sc desc ≠ [] →
  Forall (λ k, fst k < length (schema b0)) (zip sc desc) →
  ∃ r sorted, sort_batches (b0 :: rest) sc desc limit = Ok [r] ∧ schema r = schema b0 ∧ wf_batch r ∧
    sorted ≡ₚ concat (batch_rows <$> b0 :: rest) ∧
    StronglySorted (row_le value_compare (zip sc desc)) sorted ∧
    batch_rows r = limited limit sorted.
Proof. apply sort_batches_rows. Qed.

(** C11: deduplication returns rows of the input, no two with the same values
    in the key columns, one for every combination of values that occurs, in
    ascending order of the key.  There is at least one batch, all are of one
    schema, they hold fewer than 2^32 rows, and there is at least one key column,
    each of the schema. *)
Theorem dedup_batches_one_per_key `{K : ArrowKernels, !ArrowLaws K, !DedupLaws K}
    b0 rest names cis :
  let rows := concat (batch_rows <$> b0 :: rest) in
  same_schema (b0 :: rest) b0 → names ≠ [] → fits_u32 (sum_list (num_rows <$> b0 :: rest)) →
  Forall2 (λ n i, index_of (schema b0) n = Some i) names cis →
  ∃ r, dedup_batches (b0 :: rest) names = Ok [r] ∧ schema r = schema b0 ∧
    NoDup (row_key cis <$> batch_rows r) ∧
    (∀ row, row ∈ batch_rows r → row ∈ rows) ∧
    (∀ row, row ∈ rows → ∃ row', row' ∈ batch_rows r ∧ row_key cis row' = row_key cis row) ∧
    StronglySorted (row_le value_compare ((., false) <$> cis)) (batch_rows r).
Proof.
  intros rows Hbs Hnames Hfit Hcis.
  destruct (dedup_batches_rows b0 rest names cis Hbs Hnames Hfit Hcis)
    as (r & sorted & Hr & Hs & Hperm & Hsorted & Hrows).
  assert (fst <$> ((., false) <$> cis) = cis) as Hfst
    by (rewrite <- list_fmap_compose; apply list_fmap_id).
  exists r. rewrite Hrows. split_and!; [done..| | | |].
  - eapply run_heads_NoDup; [| |exact Hsorted].
    + intros x y H1 H2. rewrite <- Hfst. 
      by apply (row_le_antisym value_compare _ _ _ value_compare_laws compare_faithful).
    + intros x y z Hk. rewrite <- Hfst in Hk. by apply row_le_key.
  - intros row Hrow. unfold rows. rewrite <- Hperm.
    eapply elem_of_sublist; [exact Hrow|]. apply run_heads_sublist.
  - intros row Hrow. unfold rows in Hrow. rewrite <- Hperm in Hrow.
    apply list_elem_of_lookup in Hrow as [i Hi]. by eapply run_heads_cover.
  - eapply StronglySorted_sublist; [apply run_heads_sublist|exact Hsorted].
Qed.

(** ** Witnesses *)

#[export] Instance RefDedupLaws : DedupLaws RefArrow.
Proof. split; [intros; apply ref_debug_inj|apply ref_compare_eq]. Qed.

Definition ex_left : RecordBatch :=
  mkBatch [mkField "id" Int32 false; mkField "host" Utf8 true]
    [mkArray Int32 [Some (VInt 2); Some (VInt 1)]; mkArray Utf8 [Some (VUtf8 "b"); None]] 2.
Definition ex_right : RecordBatch :=
  mkBatch [mkField "id" Int64 false; mkField "lat" Float64 true]
    [mkArray Int64 [Some (VInt 9)]; mkArray Float64 [None]] 1.
Definition ex_more : RecordBatch :=
  mkBatch [mkField "id" Int32 false; mkField "host" Utf8 true]
    [mkArray Int32 [Some (VInt 2); Some (VInt 3)]; mkArray Utf8 [Some (VUtf8 "c"); None]] 2.

Lemma union_batches_aligned_witness :
  ∃ res, @union_batches RefArrow [[ex_left]; [ex_right]] = Ok res ∧
    Forall2 (λ b r, schema r = [mkField "id" Int64 true; mkField "host" Utf8 true;
                                mkField "lat" Float64 true] ∧ num_rows r = num_rows b)
      [ex_left; ex_right] res.
Proof.
  destruct (@union_batches_aligned RefArrow _ [[ex_left]; [ex_right]]) as (res & Hres & Hall).
  - reflexivity.
  - refine (bool_decide_unpack _ _); vm_compute; exact I.
  - repeat constructor; intros f i col _ _ _ _; eexists; reflexivity.
  - exists res. split; [exact Hres|]. eapply Forall2_impl; [exact Hall|].
    intros b r (-> & -> & _). by split.
Defined.

Lemma ex_same_schema : same_schema [ex_left; ex_more] ex_left.
Proof. split; [done|]. refine (bool_decide_unpack _ _); vm_compute; exact I. Qed.

(** Sorted on [id] descending, the first two of four rows. *)
Lemma sort_batches_sorted_witness :
  ∃ r, @sort_batches RefArrow [ex_left; ex_more] [0] [true] (Some 2) = Ok [r] ∧
    batch_rows r = [[Some (VInt 3); None]; [Some (VInt 2); Some (VUtf8 "b")]].
Proof.
  destruct (@sort_batches_sorted RefArrow _ ex_left [ex_more] [0] [true] (Some 2))
    as (r & sorted & Hr & _).
  - exact ex_same_schema.
  - done.
  - repeat constructor.
  - exists r. split; [exact Hr|]. vm_compute in Hr. injection Hr as <-. reflexivity.
Defined.

Lemma dedup_batches_one_per_key_witness :
  ∃ r, @dedup_batches RefArrow [ex_left; ex_more] ["id"] = Ok [r] ∧
    NoDup (row_key [0] <$> batch_rows r) ∧ length (batch_rows r) = 3.
Proof.
  destruct (@dedup_batches_one_per_key RefArrow _ _ ex_left [ex_more] ["id"] [0])
    as (r & Hr & _ & Hnd & _).
  - exact ex_same_schema.
  - done.
  - unfold fits_u32. vm_compute. discriminate.
  - repeat constructor.
  - exists r. split; [exact Hr|]. split; [exact Hnd|].
    vm_compute in Hr. injection Hr as <-. reflexivity.
Defined.
