(* ===== verification/SqlToSubquery.v ===== *)
(** * SqlToSubquery: from SQL to a connector sub-query

    Models [crates/fuse-engine/src/sql_to_subquery.rs].  The syntax tree is the
    part of sqlparser's AST the translation matches on, with one constructor
    for everything it does not; the SQL parser, the printer of expressions
    ([to_string]) and the parsing of floating-point literals are parameters. *)

From S2P Require Import Prelude Strs Arrow Connector.
From stdpp Require Import base list strings.
From Stdlib Require Import NArith ZArith SpecFloat.

(** ** The syntax tree *)

Inductive Value : Type :=
| Number (n : string)
| SingleQuotedString (s : string)
| DoubleQuotedString (s : string)
| BooleanValue (b : bool)
| NullValue
| OtherValue (text : string).

Inductive BinaryOperator : Type :=
| BAnd | BOr | BEq | BNotEq | BLt | BLtEq | BGt | BGtEq | BOther (name : string).
Inductive UnaryOperator : Type := UNot | UMinus | UOther (name : string).

Inductive SqlExpr : Type :=
| Identifier (value : string)
| CompoundIdentifier (ids : list string)
| Function_ (f : SqlFunction)
| ValueExpr (v : Value)
| BinaryOp (left : SqlExpr) (op : BinaryOperator) (right : SqlExpr)
| UnaryOp (op : UnaryOperator) (inner : SqlExpr)
| IsNull (inner : SqlExpr)
| IsNotNull (inner : SqlExpr)
| InList (expr : SqlExpr) (items : list SqlExpr) (negated : bool)
| Like (expr pattern : SqlExpr) (negated any : bool) (escape_char : option Value)
| ILike (expr pattern : SqlExpr) (negated any : bool) (escape_char : option Value)
| Nested (inner : SqlExpr)
| Between (expr low high : SqlExpr) (negated : bool)
| OtherExpr (text : string)
with SqlFunction : Type :=
| mkFunction (fn_name : string) (over : bool) (args : FunctionArguments)
with FunctionArguments : Type :=
| ArgList (distinct : bool) (args : list FunctionArg)
| OtherArgs
with FunctionArg : Type :=
| UnnamedArg (e : SqlExpr)
| UnnamedWildcard
| OtherArg.

Inductive SelectItem : Type :=
| UnnamedExpr (e : SqlExpr)
| ExprWithAlias (e : SqlExpr) (alias : string)
| Wildcard
| QualifiedWildcard.

Inductive GroupByExpr : Type := GroupExpressions (es : list SqlExpr) | GroupAll.

Record OrderByExpr : Type := mkOrder { order_expr : SqlExpr; asc : option bool }.
Inductive OrderByKind : Type := OrderExpressions (es : list OrderByExpr) | OrderAll.

Inductive LimitClause : Type :=
| LimitOffset (limit offset : option SqlExpr)
| OffsetCommaLimit (offset limit : SqlExpr).

(** A part of an object name is an identifier or something else. *)
Definition ObjectName : Type := list (option string).

Inductive Query : Type :=
| mkQuery (body : SetExpr) (order_by : option OrderByKind) (limit_clause : option LimitClause)
with SetExpr : Type :=
| SelectBody (s : Select)
| SetOperation (left right : SetExpr)
| OtherBody
with Select : Type :=
| mkSelect (projection : list SelectItem) (from : list TableWithJoins)
    (selection : option SqlExpr) (group_by : GroupByExpr) (having : option SqlExpr)
with TableWithJoins : Type :=
| mkTableWithJoins (relation : TableFactor) (joins : list TableFactor)
with TableFactor : Type :=
| Table (name : ObjectName)
| Derived (subquery : Query)
| OtherFactor.

Inductive Statement : Type := QueryStatement (q : Query) | OtherStatement.

(** ** Translation *)

Section Translate.
Context (parse_sql : string → string + list Statement).
Context (show_expr : SqlExpr → string) (parse_f64 : string → option spec_float).

Definition object_name_to_string (name : ObjectName) : string :=
  default "" (mjoin (last name)).

Definition expr_to_column_name (e : SqlExpr) : option string :=
  match e with
  | Identifier id => Some id
  | CompoundIdentifier ids => last ids
  | Function_ f => Some (show_expr (Function_ f))
  | _ => None
  end.

Definition value_to_scalar (v : Value) : option ScalarValue :=
  match v with
  | Number n =>
      match parse_i64 n with
      | Some i => Some (SInt64 i)
      | None => SFloat64 <$> parse_f64 n
      end
  | SingleQuotedString s | DoubleQuotedString s => Some (SUtf8 s)
  | BooleanValue b => Some (SBoolean b)
  | NullValue => Some Null
  | OtherValue _ => None
  end.

(** Negating [i64::MIN] wraps. *)
Fixpoint sql_expr_to_scalar (e : SqlExpr) : option ScalarValue :=
  match e with
  | ValueExpr v => value_to_scalar v
  | UnaryOp UMinus inner =>
      match sql_expr_to_scalar inner with
      | Some (SInt64 n) => Some (SInt64 (wrap_i64 (- n)))
      | Some (SFloat64 f) => Some (SFloat64 (SFopp f))
      | _ => None
      end
  | _ => None
  end.

Definition comparison_op (op : BinaryOperator) : option ComparisonOp :=
  match op with
  | BEq => Some OpEq
  | BNotEq => Some OpNeq
  | BLt => Some OpLt
  | BLtEq => Some OpLte
  | BGt => Some OpGt
  | BGtEq => Some OpGte
  | _ => None
  end.

Definition reversed_op (op : ComparisonOp) : ComparisonOp :=
  match op with
  | OpLt => OpGt
  | OpLte => OpGte
  | OpGt => OpLt
  | OpGte => OpLte
  | other => other
  end.

(** The comparison case of [translate_binary_op]. *)
Definition translate_comparison (left : SqlExpr) (op : BinaryOperator) (right : SqlExpr) :
    option FilterExpr :=
  comp_op ← comparison_op op;
  match expr_to_column_name left, sql_expr_to_scalar right with
  | Some field, Some value => Some (FComparison field comp_op value)
  | _, _ =>
      match sql_expr_to_scalar left, expr_to_column_name right with
      | Some value, Some field => Some (FComparison field (reversed_op comp_op) value)
      | _, _ => None
      end
  end.

Definition negate_if (negated : bool) (f : FilterExpr) : FilterExpr :=
  if negated then FNot f else f.

Definition and_opt (l r : option FilterExpr) : option FilterExpr :=
  match l, r with
  | Some l, Some r => Some (FAnd l r)
  | Some l, None => Some l
  | None, Some r => Some r
  | None, None => None
  end.

Definition or_opt (l r : option FilterExpr) : option FilterExpr :=
  match l, r with
  | Some l, Some r => Some (FOr l r)
  | _, _ => None
  end.

(** [translate_expr] with [translate_binary_op] in place.  The patterns of the
    code leave the [any] and the [escape_char] of LIKE and ILIKE unread. *)
Fixpoint translate_expr (e : SqlExpr) : option FilterExpr :=
  match e with
  | BinaryOp l BAnd r => and_opt (translate_expr l) (translate_expr r)
  | BinaryOp l BOr r => or_opt (translate_expr l) (translate_expr r)
  | BinaryOp l op r => translate_comparison l op r
  | UnaryOp UNot inner => FNot <$> translate_expr inner
  | IsNull inner => FIsNull <$> expr_to_column_name inner
  | IsNotNull inner => FIsNotNull <$> expr_to_column_name inner
  | InList expr items negated =>
      col ← expr_to_column_name expr;
      Some (negate_if negated (FIn col (omap sql_expr_to_scalar items)))
  | Like expr pattern negated _ _ =>
      field ← expr_to_column_name expr;
      value ← sql_expr_to_scalar pattern;
      Some (negate_if negated (FComparison field OpLike value))
  | ILike expr pattern negated _ _ =>
      field ← expr_to_column_name expr;
      value ← sql_expr_to_scalar pattern;
      Some (negate_if negated (FComparison field OpILike value))
  | Nested inner => translate_expr inner
  | Between expr low high negated =>
      field ← expr_to_column_name expr;
      low_val ← sql_expr_to_scalar low;
      high_val ← sql_expr_to_scalar high;
      Some (negate_if negated
              (FAnd (FComparison field OpGte low_val) (FComparison field OpLte high_val)))
  | _ => None
  end.

(** *** Projections and aggregations *)

Definition agg_function_of (func_name : string) (is_distinct : bool) : option AggFunction :=
  if decide (func_name = "count") then Some (if is_distinct then CountDistinct else Count)
  else if decide (func_name = "sum") then Some Sum
  else if decide (func_name = "avg") then Some Avg
  else if decide (func_name = "min") then Some Min
  else if decide (func_name = "max") then Some Max
  else None.

Definition agg_field_of (args : FunctionArguments) : option string :=
  match args with
  | ArgList _ (UnnamedArg e :: _) => expr_to_column_name e
  | _ => None
  end.

Definition try_extract_agg (e : SqlExpr) (alias : option string) : option AggregationExpr :=
  match e with
  | Function_ (mkFunction fname over args) =>
      if over then None
      else
        let func_name := to_lowercase fname in
        let is_distinct := match args with ArgList d _ => d | OtherArgs => false end in
        agg_fn ← agg_function_of func_name is_distinct;
        let field := agg_field_of args in
        let default_alias :=
          match field with Some f => func_name +:+ "_" +:+ f | None => func_name end in
        Some (mkAgg agg_fn field (default default_alias alias))
  | _ => None
  end.

(** One step of the loop over the select list. *)
Definition project_item (acc : list string * list AggregationExpr) (item : SelectItem) :
    list string * list AggregationExpr :=
  let '(projections, aggregations) := acc in
  match item with
  | UnnamedExpr e =>
      match try_extract_agg e None with
      | Some agg => (projections, aggregations ++ [agg])
      | None => (projections ++ [default (show_expr e) (expr_to_column_name e)], aggregations)
      end
  | ExprWithAlias e alias =>
      match try_extract_agg e (Some alias) with
      | Some agg => (projections, aggregations ++ [agg])
      | None =>
          (projections ++ [default (show_expr e +:+ " AS " +:+ alias) (expr_to_column_name e)],
           aggregations)
      end
  | Wildcard | QualifiedWildcard => (projections, aggregations)
  end.
Definition extract_projections_and_aggs (items : list SelectItem) :
    list string * list AggregationExpr := foldl project_item ([], []) items.

(** *** The other clauses *)

Definition extract_group_by (g : GroupByExpr) : list string :=
  match g with
  | GroupExpressions es => omap expr_to_column_name es
  | GroupAll => []
  end.

Definition extract_order_by (o : OrderByKind) : list SortExpr :=
  match o with
  | OrderExpressions es =>
      omap (λ o, (λ field, mkSort field (default false (negb <$> asc o)))
                 <$> expr_to_column_name (order_expr o)) es
  | OrderAll => []
  end.

Definition expr_to_u64 (e : SqlExpr) : option N :=
  match e with
  | ValueExpr (Number n) => parse_u64 n
  | _ => None
  end.

Definition extract_limit (c : LimitClause) : option N :=
  match c with
  | LimitOffset limit _ => limit ≫= expr_to_u64
  | OffsetCommaLimit _ limit => expr_to_u64 limit
  end.

Definition extract_offset (c : LimitClause) : option N :=
  match c with
  | LimitOffset _ offset => offset ≫= expr_to_u64
  | OffsetCommaLimit _ _ => None
  end.

Fixpoint relation_table_name (t : TableFactor) : outcome ConnectorError string :=
  match t with
  | Table name => Ok (object_name_to_string name)
  | Derived (mkQuery (SelectBody (mkSelect _ from _ _ _)) _ _) =>
      match from with
      | [] => Err (QueryFailed "no FROM clause")
      | mkTableWithJoins relation _ :: _ => relation_table_name relation
      end
  | Derived _ => Err (QueryFailed "unsupported subquery body")
  | OtherFactor => Err (QueryFailed "unsupported FROM clause")
  end.

Definition extract_table_name (from : list TableWithJoins) : outcome ConnectorError string :=
  match from with
  | [] => Err (QueryFailed "no FROM clause")
  | mkTableWithJoins relation _ :: _ => relation_table_name relation
  end.

Definition extract_inner_filter (from : list TableWithJoins) : option FilterExpr :=
  match from with
  | mkTableWithJoins (Derived (mkQuery (SelectBody (mkSelect _ _ selection _ _)) _ _)) _ :: _ =>
      selection ≫= translate_expr
  | _ => None
  end.

(** The select that is translated: the body, or the left branch of a set
    operation. *)
Definition main_select (body : SetExpr) : outcome ConnectorError Select :=
  match body with
  | SelectBody s => Ok s
  | SetOperation l _ =>
      match l with
      | SelectBody s => Ok s
      | _ => Err (QueryFailed "expected SELECT in UNION")
      end
  | OtherBody => Err (QueryFailed "expected simple SELECT")
  end.

Definition select_to_subquery (s : Select) (order_by : option OrderByKind)
    (limit_clause : option LimitClause) : outcome ConnectorError SubQuery :=
  let '(mkSelect projection from selection group_by having) := s in
  let inner_filter := extract_inner_filter from in
  table ← extract_table_name from;
  let '(projections, aggregations) := extract_projections_and_aggs projection in
  let outer_filter := selection ≫= translate_expr in
  Ok (mkSubQuery table projections (and_opt outer_filter inner_filter) aggregations
        (extract_group_by group_by) (having ≫= translate_expr)
        (default [] (extract_order_by <$> order_by))
        (limit_clause ≫= extract_limit) (limit_clause ≫= extract_offset) None).

Definition sql_to_subquery (sql : string) : outcome ConnectorError SubQuery :=
  match parse_sql sql with
  | inl e => Err (QueryFailed ("SQL parse error: " +:+ e))
  | inr [] => Err (QueryFailed "empty SQL")
  | inr (QueryStatement (mkQuery body order_by limit_clause) :: _) =>
      select ← main_select body;
      select_to_subquery select order_by limit_clause
  | inr (OtherStatement :: _) => Err (QueryFailed "expected SELECT query")
  end.
End Translate.
