(* ===== verification/SqlCorrect.v ===== *)
(** * SqlCorrect: the sub-query asks for the rows the SQL asks for

    SQL conditions get a three-valued meaning of their own over a row: names are
    looked up as the SQL writes them, literals are read from their text, the
    comparisons come from an order on the values, LIKE is a pattern matcher with
    its ESCAPE, and what the translation does not understand has an arbitrary
    meaning.  On the fragment that is understood completely the pushed filter
    means the same; beyond it the filter only ever keeps more rows, provided
    that nothing is dropped under a negation or from an IN list, no LIKE has an
    ESCAPE or ANY and no function is compared with a literal.  The lemmas at the
    end show that each of these provisos is needed. *)

From S2P Require Import Prelude Strs Arrow Connector SqlToSubquery.
From stdpp Require Import base list strings sets.
From Stdlib Require Import NArith ZArith SpecFloat Ascii.

(** ** The meaning of SQL conditions *)

(** SQL's LIKE: [%] stands for any text, [_] for one character, and the
    character after the escape character for itself. *)
Fixpoint sql_like (esc : option ascii) (p s : string) : bool :=
  match p with
  | EmptyString => bool_decide (s = "")
  | String a p' =>
      if decide (esc = Some a) then
        match p', s with
        | String b p'', String c s' => bool_decide (b = c) && sql_like esc p'' s'
        | _, _ => false
        end
      else if decide (a = "%"%char) then
        (fix any_suffix (s : string) : bool :=
           sql_like esc p' s || match s with String _ s' => any_suffix s' | EmptyString => false end) s
      else
        match s with
        | String c s' => bool_decide (a = "_"%char ∨ a = c) && sql_like esc p' s'
        | EmptyString => false
        end
  end.

Example like_prefix : sql_like None "10%" "100x" = true.
Proof. reflexivity. Qed.
Example like_escaped : sql_like (Some "!"%char) "10!%" "10%" = true.
Proof. reflexivity. Qed.
Example like_unescaped : sql_like None "10!%" "10%" = false.
Proof. reflexivity. Qed.

(** The tokens of numbers have no sign. *)
Definition unsigned (n : string) : bool :=
  match n with
  | String a _ => bool_decide (is_Some (digit_value a)) || bool_decide (a = "."%char)
  | EmptyString => false
  end.

(** The order of values is the same read from either side. *)
Definition antisymmetric (order : ScalarValue → ScalarValue → option comparison) : Prop :=
  ∀ x y, order y x = CompOpp <$> order x y.

Section Meaning.
Context (show_expr : SqlExpr → string) (parse_f64 : string → option spec_float).
Context (order : ScalarValue → ScalarValue → option comparison) (as_text : ScalarValue → string).

(** The meaning of the expressions outside the translated fragment. *)
Abbreviation env_of_names := (list string → ScalarValue).
Context (other : SqlExpr → env_of_names → tri)
        (other_scalar : SqlExpr → env_of_names → ScalarValue).

(** The name of a column, as the SQL writes it. *)
Definition column_of (e : SqlExpr) : option (list string) :=
  match e with
  | Identifier c => Some [c]
  | CompoundIdentifier (id :: ids) => Some (id :: ids)
  | _ => None
  end.

(** A whole number below 2^63 is an integer, any other number is a double. *)
Definition number_value (n : string) : option ScalarValue :=
  match digits_value 0 n with
  | Some i => if (i <? 2 ^ 63)%N then Some (SInt64 (Z.of_N i)) else SFloat64 <$> parse_f64 n
  | None => SFloat64 <$> parse_f64 n
  end.

Fixpoint literal_value (e : SqlExpr) : option ScalarValue :=
  match e with
  | ValueExpr (Number n) => if unsigned n then number_value n else None
  | ValueExpr (SingleQuotedString s | DoubleQuotedString s) => Some (SUtf8 s)
  | ValueExpr (BooleanValue b) => Some (SBoolean b)
  | ValueExpr NullValue => Some Null
  | UnaryOp UMinus inner =>
      match literal_value inner with
      | Some (SInt64 z) => Some (SInt64 (- z))
      | Some (SFloat64 f) => Some (SFloat64 (SFopp f))
      | _ => None
      end
  | _ => None
  end.

Definition value_of (env : env_of_names) (e : SqlExpr) : ScalarValue :=
  match column_of e with
  | Some ids => env ids
  | None => default (other_scalar e env) (literal_value e)
  end.

(** A test of two values is unknown when one of them is null. *)
Definition tri_test (x y : ScalarValue) (b : bool) : tri :=
  if decide (x = Null ∨ y = Null) then None else Some b.

(** What a SQL comparison asks of the order of its operands. *)
Definition asks (op : BinaryOperator) : option (option comparison → bool) :=
  match op with
  | BEq => Some (λ o, bool_decide (o = Some Eq))
  | BNotEq => Some (λ o, bool_decide (o ≠ Some Eq))
  | BLt => Some (λ o, bool_decide (o = Some Lt))
  | BLtEq => Some (λ o, bool_decide (o = Some Lt ∨ o = Some Eq))
  | BGt => Some (λ o, bool_decide (o = Some Gt))
  | BGtEq => Some (λ o, bool_decide (o = Some Gt ∨ o = Some Eq))
  | _ => None
  end.
Definition test_eq (x y : ScalarValue) : tri := tri_test x y (bool_decide (order x y = Some Eq)).
Definition in_range (x low high : ScalarValue) : tri :=
  tri_and (tri_test x low (bool_decide (order x low = Some Gt ∨ order x low = Some Eq)))
          (tri_test x high (bool_decide (order x high = Some Lt ∨ order x high = Some Eq))).

(** [x IN (vs)]: true if one is equal, else unknown if one comparison is. *)
Definition test_in (x : ScalarValue) (vs : list ScalarValue) : tri :=
  if decide (Some true ∈ (test_eq x <$> vs)) then Some true
  else if decide (None ∈ (test_eq x <$> vs)) then None else Some false.

Definition test_like (fold_case : string → string) (esc : option ascii) (x p : ScalarValue) : tri :=
  tri_test x p (sql_like esc (fold_case (as_text p)) (fold_case (as_text x))).

Definition negated_if (negated : bool) (t : tri) : tri := if negated then negb <$> t else t.

(** LIKE ... ESCAPE takes one character. *)
Definition like_meaning (fold_case : string → string) (env : env_of_names) (whole expr pattern : SqlExpr)
    (any : bool) (escape : option Value) : tri :=
  match any, escape with
  | false, None => test_like fold_case None (value_of env expr) (value_of env pattern)
  | false, Some (SingleQuotedString (String c EmptyString)) =>
      test_like fold_case (Some c) (value_of env expr) (value_of env pattern)
  | _, _ => other whole env
  end.

Fixpoint meaning (env : env_of_names) (e : SqlExpr) : tri :=
  match e with
  | BinaryOp l BAnd r => tri_and (meaning env l) (meaning env r)
  | BinaryOp l BOr r => tri_or (meaning env l) (meaning env r)
  | BinaryOp l op r =>
      match asks op with
      | Some test =>
          tri_test (value_of env l) (value_of env r) (test (order (value_of env l) (value_of env r)))
      | None => other e env
      end
  | UnaryOp UNot inner => negb <$> meaning env inner
  | IsNull inner => Some (bool_decide (value_of env inner = Null))
  | IsNotNull inner => Some (bool_decide (value_of env inner ≠ Null))
  | InList expr items negated =>
      negated_if negated (test_in (value_of env expr) (value_of env <$> items))
  | Like expr pattern negated any escape =>
      negated_if negated (like_meaning id env e expr pattern any escape)
  | ILike expr pattern negated any escape =>
      negated_if negated (like_meaning to_lowercase env e expr pattern any escape)
  | Nested inner => meaning env inner
  | Between expr low high negated =>
      negated_if negated (in_range (value_of env expr) (value_of env low) (value_of env high))
  | _ => other e env
  end.

(** ** The meaning of a pushed filter

    A datasource compares in the same order; its LIKE has no escape. *)

Definition source_cmp (op : ComparisonOp) (x y : ScalarValue) : bool :=
  match op with
  | OpEq => bool_decide (order x y = Some Eq)
  | OpNeq => bool_decide (order x y ≠ Some Eq)
  | OpLt => bool_decide (order x y = Some Lt)
  | OpLte => bool_decide (order x y = Some Lt ∨ order x y = Some Eq)
  | OpGt => bool_decide (order x y = Some Gt)
  | OpGte => bool_decide (order x y = Some Gt ∨ order x y = Some Eq)
  | OpLike => sql_like None (as_text y) (as_text x)
  | OpILike => sql_like None (to_lowercase (as_text y)) (to_lowercase (as_text x))
  | OpContains => false
  end.

(** Every name the SQL writes is that of a column of the table read. *)
Definition names_of_table (env : env_of_names) (row : string → ScalarValue) : Prop :=
  ∀ qualifier c, env (qualifier ++ [c]) = row c.

(** ** Fragments *)

Definition is_column (e : SqlExpr) : bool := bool_decide (is_Some (column_of e)).
Definition is_literal (e : SqlExpr) : bool := bool_decide (is_Some (literal_value e)).
Definition is_function (e : SqlExpr) : bool := match e with Function_ _ => true | _ => false end.
Definition is_comparison (op : BinaryOperator) : bool := bool_decide (is_Some (asks op)).

(** The number tokens of a literal are those of the tokenizer. *)
Fixpoint lexed (e : SqlExpr) : bool :=
  match e with
  | ValueExpr (Number n) => unsigned n
  | UnaryOp UMinus inner => lexed inner
  | _ => true
  end.

(** A column compared with a literal, on either side. *)
Definition column_literal (l r : SqlExpr) : bool :=
  is_column l && is_literal r || is_literal l && is_column r.
(** A function compared with a literal: pushed as if it were a column. *)
Definition function_literal (l r : SqlExpr) : bool :=
  is_function l && is_literal r || is_literal l && is_function r.
Definition plain_like (any : bool) (escape : option Value) : bool :=
  negb any && bool_decide (escape = None).

(** Every part of the condition has a translation. *)
Fixpoint translatable (e : SqlExpr) : bool :=
  match e with
  | BinaryOp l (BAnd | BOr) r => translatable l && translatable r
  | BinaryOp l op r => is_comparison op && column_literal l r
  | UnaryOp UNot inner => translatable inner
  | IsNull inner | IsNotNull inner => is_column inner
  | InList expr items _ => is_column expr && forallb is_literal items
  | Like expr pattern _ any escape | ILike expr pattern _ any escape =>
      is_column expr && is_literal pattern && plain_like any escape
  | Nested inner => translatable inner
  | Between expr low high _ => is_column expr && is_literal low && is_literal high
  | _ => false
  end.

(** No part of the condition has one. *)
Fixpoint unread (e : SqlExpr) : bool :=
  match e with
  | BinaryOp l BAnd r => unread l && unread r
  | BinaryOp l BOr r => unread l || unread r
  | BinaryOp l op r =>
      negb (is_comparison op) ||
      lexed l && lexed r && negb (column_literal l r) && negb (function_literal l r)
  | UnaryOp UNot inner | Nested inner => unread inner
  | IsNull inner | IsNotNull inner => negb (is_column inner) && negb (is_function inner)
  | InList expr _ _ => negb (is_column expr) && negb (is_function expr)
  | Like expr pattern _ _ _ | ILike expr pattern _ _ _ =>
      lexed pattern && negb ((is_column expr || is_function expr) && is_literal pattern)
  | Between expr low high _ =>
      lexed low && lexed high &&
      negb ((is_column expr || is_function expr) && is_literal low && is_literal high)
  | _ => true
  end.

(** Every condition without AND and OR is translated completely or not at all,
    and nothing is dropped under a negation. *)
Fixpoint drops_safely (e : SqlExpr) : bool :=
  match e with
  | BinaryOp l (BAnd | BOr) r => drops_safely l && drops_safely r
  | Nested inner => drops_safely inner
  | _ => translatable e || unread e
  end.

(** ** Lemmas *)

Abbreviation column_name := (expr_to_column_name show_expr).
Abbreviation scalar := (sql_expr_to_scalar parse_f64).
Abbreviation translate := (translate_expr show_expr parse_f64).

(** *** The code's reading of names and literals *)

Lemma column_read e ids :
  column_of e = Some ids → ∃ q c, ids = q ++ [c] ∧ column_name e = Some c.
Proof.
  destruct e as [c|[|id more]| | | | | | | | | | | |]; try done; cbn.
  - intros [= <-]. by exists [], c.
  - intros [= <-]. destruct (last (id :: more)) as [c|] eqn:Hl; [|by apply last_None in Hl].
    apply last_Some in Hl as [q Hq]. by exists q, c.
Qed.

Lemma unnamed e : is_column e = false → is_function e = false → column_name e = None.
Proof.
  unfold is_column. destruct e as [|[|]| | | | | | | | | | | |]; try done; cbn;
    (intros H; apply bool_decide_eq_false in H; exfalso; apply H; eauto).
Qed.

Lemma literal_not_column e v : scalar e = Some v → column_name e = None ∧ column_of e = None.
Proof. by destruct e. Qed.

Definition in_i64 (v : ScalarValue) : Prop :=
  match v with SInt64 z => (- 2 ^ 63 < z < 2 ^ 63)%Z | _ => True end.

Lemma number_value_read n :
  unsigned n = true →
  value_to_scalar parse_f64 (Number n) = number_value n ∧
  (∀ v, number_value n = Some v → in_i64 v).
Proof.
  intros Hn. cbn [value_to_scalar]. unfold number_value.
  assert (parse_i64 n = match digits_value 0 n with
                        | Some i => if (i <? 2 ^ 63)%N then Some (Z.of_N i) else None
                        | None => None end) as ->.
  { unfold parse_i64. destruct n as [|a n]; [done|].
    assert (a ≠ "-"%char ∧ a ≠ "+"%char) as [Hm Hp] by (split; intros ->; done).
    unfold strip_prefix_char. cbn [default].
    rewrite (proj2 (Ascii.eqb_neq a "-") Hm), (proj2 (Ascii.eqb_neq a "+") Hp).
    change (default (String a n) None) with (String a n). cbn [parse_digits].
    destruct (digits_value 0 (String a n)) as [i|]; [|done]. cbn [mbind option_bind].
    unfold i64_min, i64_max.
    destruct (N.ltb_spec i (2 ^ 63)), (Z.leb_spec (-9223372036854775808) (Z.of_N i)),
      (Z.leb_spec (Z.of_N i) 9223372036854775807); cbn; try done; lia. }
  destruct (digits_value 0 n) as [i|].
  - destruct (N.ltb_spec i (2 ^ 63)); split; try done.
    + intros v [= <-]. cbn. lia.
    + intros v. by destruct (parse_f64 n); intros [= <-].
  - split; [done|]. intros v. by destruct (parse_f64 n); intros [= <-].
Qed.

Lemma literal_value_read e :
  lexed e = true → scalar e = literal_value e ∧ (∀ v, literal_value e = Some v → in_i64 v).
Proof.
  induction e as [| | |[n| | | | |]| |op i IH| | | | | | | |]; try done; cbn [lexed].
  - intros Hn. cbn [literal_value]. rewrite Hn. by apply number_value_read.
  - intros _. by split; [|intros v [= <-]].
  - intros _. by split; [|intros v [= <-]].
  - intros _. by split; [|intros v [= <-]].
  - intros _. by split; [|intros v [= <-]].
  - destruct op; try done. intros [Hi Hb]%IH. cbn [literal_value sql_expr_to_scalar]. rewrite Hi.
    destruct (literal_value i) as [[| |z| |]|]; try done.
    + specialize (Hb _ eq_refl). cbn in Hb. split.
      * rewrite wrap_i64_id; [done|unfold i64_min, i64_max; lia].
      * intros v [= <-]. cbn. lia.
    + split; [done|]. by intros v [= <-].
Qed.

Lemma literal_lexed e v : literal_value e = Some v → lexed e = true.
Proof.
  revert v. induction e as [| | |[n| | | | |]| |op i IH| | | | | | | |]; try done; intros v; cbn.
  - by destruct (unsigned n).
  - destruct op; try done. intros H. destruct (literal_value i) as [w|]; [|done]. by apply (IH w).
Qed.

Lemma literal_read e v : literal_value e = Some v → scalar e = Some v.
Proof. intros H. destruct (literal_value_read e (literal_lexed e v H)) as [-> _]. done. Qed.

Lemma not_literal e : lexed e = true → is_literal e = false → scalar e = None.
Proof.
  intros [-> _]%literal_value_read H. apply bool_decide_eq_false in H.
  destruct (literal_value e); [|done]. exfalso. apply H. eauto.
Qed.

Lemma column_some e : is_column e = true → ∃ q c, column_of e = Some (q ++ [c]) ∧ column_name e = Some c.
Proof. intros [ids H]%bool_decide_eq_true. destruct (column_read e ids H) as (q & c & -> & E). eauto. Qed.
Lemma literal_some e : is_literal e = true → ∃ v, literal_value e = Some v ∧ scalar e = Some v.
Proof. intros [v H]%bool_decide_eq_true. apply literal_read in H as H'. eauto. Qed.

(** *** Values *)

Context (env : env_of_names) (row : string → ScalarValue).
Hypothesis Hrow : names_of_table env row.
Hypothesis Horder : antisymmetric order.
Abbreviation cmp := source_cmp.

Lemma value_of_column e q c : column_of e = Some (q ++ [c]) → value_of env e = row c.
Proof. intros He. unfold value_of. by rewrite He. Qed.

Lemma value_of_literal e v : literal_value e = Some v → value_of env e = v.
Proof.
  intros He. unfold value_of.
  destruct (literal_not_column e v (literal_read e v He)) as [_ ->]. by rewrite He.
Qed.

Lemma value_of_items items :
  forallb is_literal items = true → value_of env <$> items = omap scalar items.
Proof.
  induction items as [|e items IH]; [done|]. cbn. intros [He Hi]%andb_prop.
  apply literal_some in He as (v & Hv & ->). by rewrite (value_of_literal e v Hv), IH.
Qed.

Lemma eval_negate_if negated f :
  eval_filter cmp row (negate_if negated f) = negated_if negated (eval_filter cmp row f).
Proof. by destruct negated. Qed.

(** *** Tests *)

Lemma tri_cmp_test op x y : tri_cmp cmp op x y = tri_test x y (cmp op x y).
Proof. unfold tri_test. destruct x, y; cbn; try done; by rewrite decide_False by naive_solver. Qed.

Lemma tri_test_swap x y b : tri_test x y b = tri_test y x b.
Proof. unfold tri_test. by repeat case_decide; naive_solver. Qed.

Lemma asks_op op c test :
  comparison_op op = Some c → asks op = Some test → ∀ x y, cmp c x y = test (order x y).
Proof. by destruct op; intros [= <-] [= <-]. Qed.

(** The mirrored operator asks the same of the swapped operands. *)
Lemma asks_reversed op c test :
  comparison_op op = Some c → asks op = Some test →
  ∀ x y, cmp (reversed_op c) y x = test (order x y).
Proof.
  intros Hc Ht x y. pose proof (Horder x y) as Ho.
  destruct op; try done; injection Hc as <-; injection Ht as <-; cbn; rewrite Ho;
    by destruct (order x y) as [[]|].
Qed.

Lemma comparison_op_asks op : comparison_op op = None ↔ asks op = None.
Proof. by destruct op. Qed.

Lemma tri_in_test x vs : tri_in cmp x vs = test_in x vs.
Proof.
  assert (∀ v, tri_cmp cmp OpEq x v = test_eq x v) as Hq by (intros v; apply tri_cmp_test).
  unfold test_in. induction vs as [|v vs IH]; [done|].
  cbn [tri_in foldr]. fold (tri_in cmp x vs). rewrite IH, Hq. clear IH.
  change (test_eq x <$> v :: vs) with (test_eq x v :: (test_eq x <$> vs)).
  generalize (test_eq x v) as t, (test_eq x <$> vs) as ts. intros t ts.
  destruct t as [[]|]; repeat case_decide; rewrite ?elem_of_cons in *; naive_solver.
Qed.

Lemma in_range_test x low high :
  tri_and (tri_cmp cmp OpGte x low) (tri_cmp cmp OpLte x high) = in_range x low high.
Proof. by rewrite !tri_cmp_test. Qed.

(** *** Comparisons *)

Lemma binary_op_case l op r :
  op = BAnd ∨ op = BOr ∨
  (translate (BinaryOp l op r) = translate_comparison show_expr parse_f64 l op r ∧
   meaning env (BinaryOp l op r) =
     match asks op with
     | Some test =>
         tri_test (value_of env l) (value_of env r) (test (order (value_of env l) (value_of env r)))
     | None => other (BinaryOp l op r) env
     end ∧
   translatable (BinaryOp l op r) = is_comparison op && column_literal l r ∧
   unread (BinaryOp l op r) =
     negb (is_comparison op) ||
     lexed l && lexed r && negb (column_literal l r) && negb (function_literal l r) ∧
   drops_safely (BinaryOp l op r) =
     translatable (BinaryOp l op r) || unread (BinaryOp l op r)).
Proof. destruct op; auto; right; right; by split_and!. Qed.

Lemma comparison_exact l op r :
  is_comparison op && column_literal l r = true →
  ∃ f, translate_comparison show_expr parse_f64 l op r = Some f ∧
    eval_filter cmp row f =
      match asks op with
      | Some test =>
          tri_test (value_of env l) (value_of env r) (test (order (value_of env l) (value_of env r)))
      | None => other (BinaryOp l op r) env
      end.
Proof.
  intros [Hop H]%andb_prop. apply bool_decide_eq_true in Hop as [test Ht]. rewrite Ht.
  unfold translate_comparison.
  destruct (comparison_op op) as [c|] eqn:Hc; [|apply comparison_op_asks in Hc; congruence]. cbn.
  apply orb_prop in H as [[H1 H2]%andb_prop|[H1 H2]%andb_prop].
  - apply column_some in H1 as (q & x & Hx & ->). apply literal_some in H2 as (v & Hv & ->). eexists. split; [done|].
    cbn. by rewrite (value_of_column l q x Hx), (value_of_literal r v Hv), tri_cmp_test,
      (asks_op op c test Hc Ht).
  - apply literal_some in H1 as (v & Hv & Es). apply column_some in H2 as (q & x & Hx & ->).
    destruct (literal_not_column l v Es) as [-> _]. rewrite Es. eexists. split; [done|].
    cbn. by rewrite (value_of_column r q x Hx), (value_of_literal l v Hv), tri_cmp_test,
      (asks_reversed op c test Hc Ht), tri_test_swap.
Qed.

Lemma comparison_unread l op r :
  negb (is_comparison op) ||
    lexed l && lexed r && negb (column_literal l r) && negb (function_literal l r) = true →
  translate_comparison show_expr parse_f64 l op r = None.
Proof.
  unfold translate_comparison. intros [Hop|H]%orb_prop.
  - apply negb_true_iff, bool_decide_eq_false in Hop.
    destruct (asks op) eqn:Ha; [exfalso; apply Hop; eauto|]. by apply comparison_op_asks in Ha as ->.
  - apply andb_prop in H as [[[Ll Lr]%andb_prop Hc]%andb_prop Hf].
    apply negb_true_iff, orb_false_iff in Hc as [C1 C2], Hf as [F1 F2].
    destruct (comparison_op op) as [c|]; [|done]. cbn.
    assert (∀ a b, lexed b = true → is_column a && is_literal b = false →
              is_function a && is_literal b = false →
              column_name a = None ∨ scalar b = None) as Hside.
    { intros a b Hb Ha Hf. destruct (is_literal b) eqn:Eb; [left|right; by apply not_literal].
      rewrite andb_true_r in Ha, Hf. by apply unnamed. }
    rewrite andb_comm in C2, F2.
    destruct (Hside l r Lr C1 F1) as [->| ->], (Hside r l Ll C2 F2) as [->| ->];
      repeat case_match; done.
Qed.

(** *** LIKE and BETWEEN *)

Lemma like_exact (f : string → string) e x p any esc :
  is_literal p = true → plain_like any esc = true →
  like_meaning f env e x p any esc = test_like f None (value_of env x) (value_of env p).
Proof.
  intros _ [Ha Hn]%andb_prop. apply negb_true_iff in Ha as ->. apply bool_decide_eq_true in Hn as ->.
  done.
Qed.

Lemma pushed_unread x p :
  lexed p && negb ((is_column x || is_function x) && is_literal p) = true →
  column_name x = None ∨ scalar p = None.
Proof.
  intros [Hp H]%andb_prop. apply negb_true_iff, andb_false_iff in H as [H|H].
  - apply orb_false_iff in H as [??]. left. by apply unnamed.
  - right. by apply not_literal.
Qed.

(** Use the facts [translatable] gives about the operands. *)
Ltac use_operands :=
  repeat match goal with
  | H : andb _ _ = true |- _ => apply andb_prop in H as [? ?]
  | H : is_column ?e = true |- _ =>
      let c := fresh "c" in let q := fresh "q" in let Hc := fresh "Hc" in
      apply column_some in H as (q & c & Hc & ->)
  | H : is_literal ?e = true |- _ =>
      let v := fresh "v" in let Hv := fresh "Hv" in let Es := fresh "Es" in
      apply literal_some in H as (v & Hv & ->)
  end.
Ltac use_values :=
  repeat match goal with
  | H : column_of ?e = Some (?q ++ [?c]) |- _ => rewrite (value_of_column e q c H); clear H
  | H : literal_value ?e = Some ?v |- _ => rewrite (value_of_literal e v H); clear H
  end.

Lemma translate_exact e :
  translatable e = true →
  ∃ f, translate e = Some f ∧ eval_filter cmp row f = meaning env e.
Proof.
  induction e as [| | | |l IHl op r IHr|op i IHi|i|i|x _ items neg|x _ p _ neg any esc
    |x _ p _ neg any esc|i IHi|x _ lo _ hi _ neg|]; intros H; try done.
  - destruct (binary_op_case l op r) as [->|[->|(Ht & Hm & Htr & _)]].
    + apply andb_prop in H as [Hl Hr].
      destruct (IHl Hl) as (fl & El & Ml), (IHr Hr) as (fr & Er & Mr).
      exists (FAnd fl fr). cbn. by rewrite El, Er, Ml, Mr.
    + apply andb_prop in H as [Hl Hr].
      destruct (IHl Hl) as (fl & El & Ml), (IHr Hr) as (fr & Er & Mr).
      exists (FOr fl fr). cbn. by rewrite El, Er, Ml, Mr.
    + rewrite Htr in H. rewrite Ht, Hm. by apply comparison_exact.
  - destruct op; try done. destruct (IHi H) as (f & Ef & M). exists (FNot f). cbn.
    by rewrite Ef, M.
  - cbn in H |- *. use_operands. eexists. split; [done|]. cbn. by use_values.
  - cbn in H |- *. use_operands. eexists. split; [done|]. cbn. by use_values.
  - cbn in H |- *. use_operands. eexists. split; [done|].
    rewrite eval_negate_if, value_of_items by done. cbn. use_values. by rewrite tri_in_test.
  - cbn in H |- *. apply andb_prop in H as [[Hx Hp]%andb_prop Hl]. rewrite like_exact by done.
    use_operands. eexists. split; [done|]. rewrite eval_negate_if. cbn. use_values.
    by rewrite tri_cmp_test.
  - cbn in H |- *. apply andb_prop in H as [[Hx Hp]%andb_prop Hl]. rewrite like_exact by done.
    use_operands. eexists. split; [done|]. rewrite eval_negate_if. cbn. use_values.
    by rewrite tri_cmp_test.
  - destruct (IHi H) as (f & Ef & M). exists f. by split.
  - cbn in H |- *. use_operands. eexists. split; [done|]. rewrite eval_negate_if. cbn. use_values.
    by rewrite in_range_test.
Qed.

(** What is not read is not pushed. *)
Lemma translate_unread e : unread e = true → translate e = None.
Proof.
  induction e as [| | | |l IHl op r IHr|op i IHi|i|i|x _ items neg|x _ p _ neg any esc
    |x _ p _ neg any esc|i IHi|x _ lo _ hi _ neg|]; intros H; try done.
  - destruct (binary_op_case l op r) as [->|[->|(Ht & _ & _ & Hu & _)]].
    + apply andb_prop in H as [Hl Hr]. cbn. by rewrite (IHl Hl), (IHr Hr).
    + apply orb_prop in H as [H|H]; cbn; [by rewrite (IHl H)|rewrite (IHr H)].
      by destruct (translate l).
    + rewrite Ht. apply comparison_unread. by rewrite <- Hu.
  - destruct op; try done. cbn in *. by rewrite (IHi H).
  - cbn in *. apply andb_prop in H as [?%negb_true_iff ?%negb_true_iff]. by rewrite unnamed.
  - cbn in *. apply andb_prop in H as [?%negb_true_iff ?%negb_true_iff]. by rewrite unnamed.
  - cbn in *. apply andb_prop in H as [?%negb_true_iff ?%negb_true_iff]. by rewrite unnamed.
  - cbn in *. destruct (pushed_unread x p H) as [->| ->]; [done|]. by destruct (column_name x).
  - cbn in *. destruct (pushed_unread x p H) as [->| ->]; [done|]. by destruct (column_name x).
  - by apply IHi.
  - cbn in *. apply andb_prop in H as [[Hlo Hhi]%andb_prop H].
    apply negb_true_iff, andb_false_iff in H as [[H|H]%andb_false_iff|H].
    + apply orb_false_iff in H as [??]. by rewrite unnamed.
    + rewrite (not_literal lo) by done. by destruct (column_name x).
    + rewrite (not_literal hi) by done. destruct (column_name x); [|done]. by destruct (scalar lo).
Qed.

Lemma whole_keeps e :
  translatable e || unread e = true → meaning env e = Some true → keeps_opt cmp row (translate e).
Proof.
  intros [H|H]%orb_prop Hm; [|by rewrite translate_unread].
  destruct (translate_exact e H) as (f & -> & M). cbn. unfold keeps. by rewrite M.
Qed.

(** A condition that is true of a row keeps the row. *)
Lemma translate_keeps e :
  drops_safely e = true → meaning env e = Some true → keeps_opt cmp row (translate e).
Proof.
  induction e as [| | | |l IHl op r IHr| | | | | | |i IHi| |]; intros Hs Hm;
    try (by apply whole_keeps).
  - destruct (binary_op_case l op r) as [->|[->|(_ & _ & _ & _ & Hd)]].
    + apply andb_prop in Hs as [Hl Hr]. cbn in Hm. apply tri_and_true in Hm as [Ml Mr].
      specialize (IHl Hl Ml). specialize (IHr Hr Mr). cbn.
      destruct (translate l), (translate r); cbn in *; rewrite ?keeps_and; auto.
    + apply andb_prop in Hs as [Hl Hr]. cbn in Hm |- *. apply tri_or_true in Hm.
      destruct (translate l), (translate r); try done. cbn in *. rewrite keeps_or.
      destruct Hm; auto.
    + apply whole_keeps; [|done]. by rewrite <- Hd.
  - by apply IHi.
Qed.
End Meaning.

(** ** The whole translation *)

(** The table a relation reads, through the first relations of the nested
    selects. *)
Inductive reads_table : TableFactor → string → Prop :=
| ReadsTable name : reads_table (Table name) (object_name_to_string name)
| ReadsDerived p rel js rest sel g h ob lc t :
    reads_table rel t →
    reads_table (Derived (mkQuery (SelectBody (mkSelect p (mkTableWithJoins rel js :: rest) sel g h))
                            ob lc)) t.

Lemma relation_table_name_ok rel t : reads_table rel t → relation_table_name rel = Ok t.
Proof. by induction 1. Qed.

(** Induction along the nesting of derived tables. *)
Lemma relation_table_name_cases : ∀ rel : TableFactor,
  (∃ t, relation_table_name rel = Ok t ∧ reads_table rel t) ∨
  (∃ m, relation_table_name rel = Err (QueryFailed m)).
Proof.
  fix IH 1. intros rel. destruct rel as [name|[[[p from sel g h]| |] ob lc]|]; cbn; try (right; by eexists).
  - left. eexists. split; [done|]. constructor.
  - destruct from as [|[rel js] rest]; [right; by eexists|].
    destruct (IH rel) as [(t & Ht & Hr)|Hm]; [left|by right].
    exists t. split; [done|]. by constructor.
Qed.

(** The select the engine translates, and the condition of its derived table. *)
Definition translated_select (stmts : list Statement) (s : Select) : Prop :=
  ∃ body ob lc rest, stmts = QueryStatement (mkQuery body ob lc) :: rest ∧
    (body = SelectBody s ∨ ∃ r, body = SetOperation (SelectBody s) r).
Definition where_of (s : Select) : option SqlExpr :=
  let '(mkSelect _ _ sel _ _) := s in sel.
Definition from_of (s : Select) : list TableWithJoins :=
  let '(mkSelect _ from _ _ _) := s in from.
Definition inner_where (s : Select) : option SqlExpr :=
  match from_of s with
  | mkTableWithJoins (Derived (mkQuery (SelectBody s') _ _)) _ :: _ => where_of s'
  | _ => None
  end.
Definition opt_all {A : Type} (P : A → Prop) (o : option A) : Prop := from_option P True o.

Lemma sql_to_subquery_select parse_sql show_expr parse_f64 sql q :
  sql_to_subquery parse_sql show_expr parse_f64 sql = Ok q →
  ∃ stmts s t, parse_sql sql = inr stmts ∧ translated_select stmts s ∧
    extract_table_name (from_of s) = Ok t ∧ table q = t ∧
    filter_expr q = and_opt (where_of s ≫= translate_expr show_expr parse_f64)
                            (inner_where s ≫= translate_expr show_expr parse_f64).
Proof.
  unfold sql_to_subquery. destruct (parse_sql sql) as [|[|[[body ob lc]|] rest]]; try done.
  intros (s & Hs & H)%bind_ok_inv. unfold select_to_subquery in H.
  destruct s as [p from sel g h].
  apply bind_ok_inv in H as (t & Ht & H).
  destruct (extract_projections_and_aggs show_expr p). injection H as <-.
  exists (QueryStatement (mkQuery body ob lc) :: rest), (mkSelect p from sel g h), t.
  split_and!; [done| |done|done|].
  - exists body, ob, lc, rest. split; [done|].
    destruct body as [s|[s|?|] r|]; cbn in Hs; simplify_eq; eauto.
  - cbn. f_equal. unfold inner_where. cbn [from_of].
    by destruct from as [|[[?|[[[? ? ? ? ?]|? ?|] ? ?]|] ?] ?].
Qed.

(** ** Properties of the translation *)

(** C10: a condition every part of which has a translation (comparisons of a
    column with a literal on either side, IN, LIKE and ILIKE without ESCAPE and
    ANY, BETWEEN, IS NULL and AND, OR, NOT of them) is translated to a filter
    that has the same three-valued meaning on every row of the table, if the
    datasource compares in the order of the values, reads a LIKE without an
    escape character, and every name in the condition, qualified or not, is that
    of a column of the table. *)
Theorem translate_expr_exact show_expr parse_f64 order as_text other other_scalar e :
  antisymmetric order →
  translatable parse_f64 e = true →
  ∃ f, translate_expr show_expr parse_f64 e = Some f ∧
    ∀ env row, names_of_table env row →
      eval_filter (source_cmp order as_text) row f =
      meaning parse_f64 order as_text other other_scalar env e.
Proof.
  intros Ho He.
  pose proof (λ env row Hn, translate_exact show_expr parse_f64 order as_text other other_scalar
                             env row Hn Ho e He) as H.
  destruct (H (λ _, Null) (λ _, Null) (λ _ _, eq_refl)) as (f & Hf & _).
  exists f. split; [done|]. intros env row Hn. destruct (H env row Hn) as (f' & Hf' & M). congruence.
Qed.

(** C3: the sub-query reads the table of the first FROM relation and its
    filter loses no row of it: a row on which the WHERE conditions of the select
    and of its derived table are true is kept, whatever the parts mean that
    could not be translated.  Provisos: every name in the conditions, qualified
    or not, is that of a column of that table (no condition on a joined table,
    no renaming by the derived table), and [drops_safely]: every condition
    without AND and OR is translated completely or not at all, nothing is
    dropped under a NOT, and no column or function is compared by a LIKE with
    ESCAPE or ANY, no function with a literal, and no IN list holds anything
    but literals. *)
Theorem sql_to_subquery_loses_no_row parse_sql show_expr parse_f64 order as_text other other_scalar
    sql q :
  antisymmetric order →
  sql_to_subquery parse_sql show_expr parse_f64 sql = Ok q →
  ∃ stmts s, parse_sql sql = inr stmts ∧ translated_select stmts s ∧
    (∃ rel js rest, from_of s = mkTableWithJoins rel js :: rest ∧ reads_table rel (table q)) ∧
    ∀ env row, names_of_table env row →
      let holds e := drops_safely parse_f64 e = true ∧
             meaning parse_f64 order as_text other other_scalar env e = Some true in
      opt_all holds (where_of s) → opt_all holds (inner_where s) →
      keeps_opt (source_cmp order as_text) row (filter_expr q).
Proof.
  intros Hcmp (stmts & s & t & Hp & Hs & Ht & Hq & Hf)%sql_to_subquery_select.
  exists stmts, s. split_and!; [done..| |].
  - destruct (from_of s) as [|[rel js] rest]; [done|]. exists rel, js, rest. split; [done|].
    cbn in Ht. destruct (relation_table_name_cases rel) as [(t' & Ht' & Hr)|(m & Hm)]; congruence.
  - intros env row Hn holds Ho Hi. rewrite Hf.
    assert (∀ o, opt_all holds o →
              keeps_opt (source_cmp order as_text) row (o ≫= translate_expr show_expr parse_f64))
      as Hkeep.
    { intros [e|] H; [|done]. destruct H as [Hd Hm]. by eapply translate_keeps. }
    apply Hkeep in Ho, Hi.
    destruct (where_of s ≫= _), (inner_where s ≫= _); cbn in *; rewrite ?keeps_and; auto.
Qed.

(** *** The provisos are needed *)

(** Under a NOT the dropped part of a conjunction does lose rows: for a
    condition NOT (l AND r) where only l has a translation the filter is NOT l,
    and a row with l true and r false satisfies the condition but is not kept. *)
Theorem negated_conjunction_loses_rows show_expr parse_f64 order as_text other other_scalar l r env row :
  antisymmetric order → names_of_table env row →
  translatable parse_f64 l = true → translate_expr show_expr parse_f64 r = None →
  meaning parse_f64 order as_text other other_scalar env l = Some true →
  meaning parse_f64 order as_text other other_scalar env r = Some false →
  let e := UnaryOp UNot (Nested (BinaryOp l BAnd r)) in
  meaning parse_f64 order as_text other other_scalar env e = Some true ∧
  ∃ f, translate_expr show_expr parse_f64 e = Some f ∧ ¬ keeps (source_cmp order as_text) row f.
Proof.
  intros Hcmp Hn Hl Hr Ml Mr e. split; [cbn; by rewrite Ml, Mr|].
  destruct (translate_exact show_expr parse_f64 order as_text other other_scalar env row Hn Hcmp l Hl)
    as (fl & Efl & M).
  exists (FNot fl). cbn. rewrite Efl, Hr. split; [done|]. unfold keeps. cbn.
  by rewrite M, Ml.
Qed.

(** The ESCAPE of a LIKE is dropped and its pattern pushed as it is. *)
Lemma escape_is_dropped show_expr parse_f64 x p negated any esc :
  translate_expr show_expr parse_f64 (Like x p negated any esc) =
  translate_expr show_expr parse_f64 (Like x p negated false None).
Proof. done. Qed.

(** [name LIKE '10!%' ESCAPE '!'] is true of 10% but the pushed filter is not. *)
Lemma escape_loses_rows show_expr parse_f64 order other other_scalar :
  let e := Like (Identifier "name") (ValueExpr (SingleQuotedString "10!%")) false false
             (Some (SingleQuotedString "!")) in
  let text v := match v with SUtf8 s => s | _ => "" end in
  meaning parse_f64 order text other other_scalar (λ _, SUtf8 "10%") e = Some true ∧
  ∃ f, translate_expr show_expr parse_f64 e = Some f ∧
    ¬ keeps (source_cmp order text) (λ _, SUtf8 "10%") f.
Proof. cbn. split; [done|]. eexists. split; [done|]. done. Qed.

(** A call compared with a literal is pushed as a column of that name. *)
Lemma function_is_pushed_as_column show_expr parse_f64 f s :
  translate_expr show_expr parse_f64 (BinaryOp (Function_ f) BEq (ValueExpr (SingleQuotedString s))) =
  Some (FComparison (show_expr (Function_ f)) OpEq (SUtf8 s)).
Proof. done. Qed.

(** A condition on a joined table is pushed to the first one:
    [SELECT * FROM a JOIN b WHERE b.x = 'v']. *)
Lemma joined_condition_is_pushed show_expr parse_f64 :
  let stmt := QueryStatement (mkQuery (SelectBody (mkSelect [Wildcard]
    [mkTableWithJoins (Table [Some "a"]) [Table [Some "b"]]]
    (Some (BinaryOp (CompoundIdentifier ["b"; "x"]) BEq (ValueExpr (SingleQuotedString "v"))))
    (GroupExpressions []) None)) None None) in
  ∃ q, sql_to_subquery (λ _, inr [stmt]) show_expr parse_f64 "sql" = Ok q ∧
    table q = "a" ∧ filter_expr q = Some (FComparison "x" OpEq (SUtf8 "v")).
Proof. eexists. by split_and!. Qed.

(** The translation succeeds exactly on texts whose first statement is a
    query with a select body (or a set operation whose left branch is one) that
    reads a table through its first relations; otherwise it returns an error,
    and it never panics. *)
Theorem sql_to_subquery_ok_iff parse_sql show_expr parse_f64 sql :
  sql_to_subquery parse_sql show_expr parse_f64 sql ≠ Panic ∧
  ((∃ q, sql_to_subquery parse_sql show_expr parse_f64 sql = Ok q) ↔
   ∃ stmts s rel js rest t, parse_sql sql = inr stmts ∧ translated_select stmts s ∧
     from_of s = mkTableWithJoins rel js :: rest ∧ reads_table rel t).
Proof.
  split; [|split].
  - unfold sql_to_subquery. destruct (parse_sql sql) as [|[|[[body ob lc]|] ?]]; try done.
    destruct body as [[p from sel g h]|[[p from sel g h]|?|] r|]; cbn; try done;
      (destruct from as [|[rel js] rest]; [done|]; cbn;
       destruct (relation_table_name_cases rel) as [(t & -> & _)|(m & ->)]; [|done];
       cbn; by destruct (extract_projections_and_aggs show_expr p)).
  - intros (q & (stmts & s & t & Hp & Hs & Ht & _)%sql_to_subquery_select).
    destruct (from_of s) as [|[rel js] rest] eqn:Hfrom; [done|]. cbn in Ht.
    destruct (relation_table_name_cases rel) as [(t' & Ht' & Hr)|(m & Hm)]; [|congruence].
    by exists stmts, s, rel, js, rest, t'.
  - intros (stmts & s & rel & js & rest & t & Hp & (body & ob & lc & more & -> & Hbody) & Hfrom & Hr).
    unfold sql_to_subquery. rewrite Hp.
    assert (main_select body = Ok s) as -> by by destruct Hbody as [->|[r ->]].
    cbn [mbind outcome_bind]. unfold select_to_subquery. destruct s as [p from sel g h].
    cbn in Hfrom. subst from. cbn [extract_table_name].
    rewrite (relation_table_name_ok _ _ Hr). cbn [mbind outcome_bind].
    destruct (extract_projections_and_aggs show_expr p). eauto.
Qed.

(** MySQL's [LIMIT offset, limit] form keeps the limit and loses the offset. *)
Lemma comma_offset_lost o l : extract_offset (OffsetCommaLimit o l) = None.
Proof. done. Qed.

(** ** Witnesses *)

Definition ex_show (e : SqlExpr) : string := "expr".
Definition ex_f64 (s : string) : option spec_float := None.
Definition ex_order (x y : ScalarValue) : option comparison :=
  match x, y with
  | SInt64 a, SInt64 b => Some (a ?= b)%Z
  | _, _ => None
  end.
Definition ex_text (v : ScalarValue) : string := match v with SUtf8 s => s | _ => "" end.

Lemma ex_order_antisymmetric : antisymmetric ex_order.
Proof. intros [] []; try done. cbn. by rewrite Z.compare_antisym. Qed.

(** [NOT 5 < status AND host IN ('a', 'b')]. *)
Definition ex_cond : SqlExpr :=
  BinaryOp (UnaryOp UNot (BinaryOp (ValueExpr (Number "5")) BLt (Identifier "status"))) BAnd
    (InList (CompoundIdentifier ["t"; "host"])
       [ValueExpr (SingleQuotedString "a"); ValueExpr (SingleQuotedString "b")] false).

Lemma translate_expr_exact_witness :
  ∃ f, translate_expr ex_show ex_f64 ex_cond = Some f ∧
    f = FAnd (FNot (FComparison "status" OpGt (SInt64 5))) (FIn "host" [SUtf8 "a"; SUtf8 "b"]).
Proof.
  destruct (translate_expr_exact ex_show ex_f64 ex_order ex_text (λ _ _, None) (λ _ _, Null) ex_cond
              ex_order_antisymmetric eq_refl) as (f & Hf & _).
  exists f. split; [exact Hf|]. vm_compute in Hf. by injection Hf as <-.
Defined.

(** [SELECT * FROM (SELECT * FROM logs WHERE status = 500) WHERE f(host)]. *)
Definition ex_stmt : Statement :=
  QueryStatement (mkQuery (SelectBody (mkSelect [Wildcard]
    [mkTableWithJoins (Derived (mkQuery (SelectBody (mkSelect [Wildcard]
        [mkTableWithJoins (Table [Some "logs"]) []]
        (Some (BinaryOp (Identifier "status") BEq (ValueExpr (Number "500"))))
        (GroupExpressions []) None)) None None)) []]
    (Some (OtherExpr "f(host)")) (GroupExpressions []) None)) None None).

Lemma sql_to_subquery_loses_no_row_witness :
  ∃ q, sql_to_subquery (λ _, inr [ex_stmt]) ex_show ex_f64 "sql" = Ok q ∧
    keeps_opt (source_cmp ex_order ex_text) (λ _, SInt64 500) (filter_expr q).
Proof.
  eexists. split; [reflexivity|].
  destruct (sql_to_subquery_loses_no_row (λ _, inr [ex_stmt]) ex_show ex_f64 ex_order
              ex_text (λ _ _, Some true) (λ _ _, Null) "sql" _ ex_order_antisymmetric eq_refl)
    as (stmts & s & Hp & Hs & _ & Hkeep).
  injection Hp as <-. destruct Hs as (body & ob & lc & rest & [= <- <- <- <-] & [[= <-]|[r [=]]]).
  apply (Hkeep (λ _, SInt64 500)); by split.
Defined.

Lemma negated_conjunction_loses_rows_witness :
  let l := BinaryOp (Identifier "a") BEq (ValueExpr (Number "1")) in
  let e := UnaryOp UNot (Nested (BinaryOp l BAnd (OtherExpr "f(b)"))) in
  meaning ex_f64 ex_order ex_text (λ _ _, Some false) (λ _ _, Null) (λ _, SInt64 1) e = Some true ∧
  ∃ f, translate_expr ex_show ex_f64 e = Some f ∧
    ¬ keeps (source_cmp ex_order ex_text) (λ _, SInt64 1) f.
Proof.
  apply (negated_conjunction_loses_rows ex_show ex_f64 ex_order ex_text (λ _ _, Some false) (λ _ _, Null)
           (BinaryOp (Identifier "a") BEq (ValueExpr (Number "1"))) (OtherExpr "f(b)")
           (λ _, SInt64 1) (λ _, SInt64 1) ex_order_antisymmetric (λ _ _, eq_refl)); reflexivity.
Defined.
