(* ===== verification/Ppl.v ===== *)
(** * Ppl: the piped query language

    Models [crates/fuse-engine/src/ppl.rs] (detection, parser and translation
    to SQL) and [resolve_query] of [crates/fuse-engine/src/planner.rs].  Text is
    ASCII. *)

From S2P Require Import Prelude Strs Arrow Connector.
From stdpp Require Import base list strings pretty.
From Stdlib Require Import NArith Ascii.

Record QualifiedTable : Type := mkTable { datasource : option string; table : string }.

(** [Display for QualifiedTable]. *)
Definition show_table (t : QualifiedTable) : string :=
  match datasource t with
  | Some ds => ds +:+ "." +:+ table t
  | None => table t
  end.

Record StatsAgg : Type :=
  mkStatsAgg { func : string; field : option string; alias : option string }.
Record SortField : Type := mkSortField { sf_field : string; sf_descending : bool }.
Record EvalExpr : Type := mkEval { ev_alias : string; ev_expr : string }.
Record RenameExpr : Type := mkRename { old_name : string; new_name : string }.

Inductive PplCommand : Type :=
| PplWhere (expr : string)
| PplStats (aggs : list StatsAgg) (by_fields : list string)
| PplSort (fields : list SortField)
| PplHead (n : N)
| PplFields (include : bool) (names : list string)
| PplDedup (fields : list string)
| PplEval (exprs : list EvalExpr)
| PplRename (renames : list RenameExpr)
| PplTop (n : N) (fields : list string)
| PplRare (fields : list string).

Record PplQuery : Type :=
  mkPpl { sources : list QualifiedTable; commands : list PplCommand }.

(** [PplParseError(String)]. *)
Record PplParseError : Type := mkPplError { ppl_msg : string }.
Definition ppl_err {A : Type} (m : string) : outcome PplParseError A := Err (mkPplError m).

Definition is_ppl (input : string) : bool :=
  let trimmed := to_lowercase (trim_start input) in
  starts_with "source" trimmed || starts_with "search" trimmed.

(** ** Parsing *)

Definition comma : ascii → bool := is_char ",".
Definition bar : ascii → bool := is_char "|".

Definition strip_ppl_prefix (input : string) : outcome PplParseError string :=
  let rest := if starts_with "search" (to_lowercase input)
              then trim_start (str_drop 6 input) else input in
  if negb (starts_with "source" (to_lowercase rest))
  then ppl_err "Expected 'source = ...'"
  else
    let after_source := trim_start (str_drop 6 rest) in
    if negb (starts_with "=" after_source) then ppl_err "Expected '=' after 'source'"
    else Ok (trim_start (str_drop 1 after_source)).

Definition parse_qualified_table (input : string) : outcome PplParseError QualifiedTable :=
  if decide (input = "") then ppl_err "Empty table reference"
  else match split_once (is_char ".") input with
       | Some (ds, t) => Ok (mkTable (Some (trim ds)) (trim t))
       | None => Ok (mkTable None input)
       end.

Definition parse_sources (input : string) : outcome PplParseError (list QualifiedTable) :=
  if decide (input = "") then ppl_err "No sources specified"
  else mapM (λ s, parse_qualified_table (trim s)) (split_on comma input).

Definition split_first_word (input : string) : string * string :=
  match find_char is_whitespace input with
  | Some pos => (str_take pos input, trim_start (str_drop pos input))
  | None => (input, "")
  end.

Definition parse_stats_agg (input : string) : outcome PplParseError StatsAgg :=
  let '(expr, alias) :=
    match find_sub " as " (to_lowercase input) with
    | Some pos => (str_take pos input, Some (trim (str_drop (pos + 4) input)))
    | None => (input, None)
    end in
  let expr := trim expr in
  match find_char (is_char "(") expr with
  | Some paren_start =>
      let func := trim (str_take paren_start expr) in
      let inner := trim (trim_end_while (is_char ")") (str_drop (S paren_start) expr)) in
      let field := if decide (inner = "" ∨ inner = "*") then None else Some inner in
      Ok (mkStatsAgg func field alias)
  | None => ppl_err ("Invalid aggregation expression: '" +:+ expr +:+ "'")
  end.

Definition trimmed_fields (input : string) : list string := trim <$> split_on comma input.

Definition parse_stats (input : string) : outcome PplParseError PplCommand :=
  let '(agg_part, by_part) :=
    match find_sub " by " (to_lowercase input) with
    | Some pos => (str_take pos input, Some (str_drop (pos + 4) input))
    | None => (input, None)
    end in
  aggs ← mapM (λ a, parse_stats_agg (trim a)) (split_on comma agg_part);
  Ok (PplStats aggs (from_option trimmed_fields [] by_part)).

Definition parse_sort_field (f : string) : SortField :=
  let f := trim f in
  match strip_prefix_char "-" f with
  | Some rest => mkSortField (trim rest) true
  | None =>
      match strip_prefix_char "+" f with
      | Some rest => mkSortField (trim rest) false
      | None => mkSortField f false
      end
  end.

Definition parse_sort (input : string) : outcome PplParseError PplCommand :=
  Ok (PplSort (parse_sort_field <$> split_on comma input)).

Definition parse_head (input : string) : outcome PplParseError PplCommand :=
  if decide (input = "") then Ok (PplHead 10)
  else match parse_u64 (trim input) with
       | Some n => Ok (PplHead n)
       | None => ppl_err ("Invalid head count: '" +:+ input +:+ "'")
       end.

Definition parse_fields (input : string) : outcome PplParseError PplCommand :=
  let '(include, rest) :=
    match strip_prefix_char "-" input with
    | Some r => (false, trim r)
    | None =>
        match strip_prefix_char "+" input with
        | Some r => (true, trim r)
        | None => (true, input)
        end
    end in
  Ok (PplFields include (trimmed_fields rest)).

Definition parse_dedup (input : string) : outcome PplParseError PplCommand :=
  let fields := trimmed_fields input in
  if decide (fields = [] ∨ fields = [""]) then ppl_err "dedup requires at least one field"
  else Ok (PplDedup fields).

Definition parse_eval_expr (part : string) : outcome PplParseError EvalExpr :=
  let part := trim part in
  eq_pos ← ok_or (find_char (is_char "=") part)
                 (mkPplError ("eval expression missing '=': '" +:+ part +:+ "'"));
  let alias := trim (str_take eq_pos part) in
  let expr := trim (str_drop (S eq_pos) part) in
  if decide (alias = "" ∨ expr = "")
  then ppl_err ("eval expression incomplete: '" +:+ part +:+ "'")
  else Ok (mkEval alias expr).

Definition parse_eval (input : string) : outcome PplParseError PplCommand :=
  exprs ← mapM parse_eval_expr (split_on comma input); Ok (PplEval exprs).

Definition parse_rename_expr (part : string) : outcome PplParseError RenameExpr :=
  let part := trim part in
  as_pos ← ok_or (find_sub " as " (to_lowercase part))
                 (mkPplError ("rename missing 'AS': '" +:+ part +:+ "'"));
  let old := trim (str_take as_pos part) in
  let new := trim (str_drop (as_pos + 4) part) in
  if decide (old = "" ∨ new = "") then ppl_err ("rename incomplete: '" +:+ part +:+ "'")
  else Ok (mkRename old new).

Definition parse_rename (input : string) : outcome PplParseError PplCommand :=
  renames ← mapM parse_rename_expr (split_on comma input); Ok (PplRename renames).

Definition nonempty_fields (input : string) : list string :=
  filter (λ f, f ≠ "") (trimmed_fields input).

Definition parse_top (input : string) : outcome PplParseError PplCommand :=
  let parts := splitn2 is_whitespace input in
  let '(n, field_str) :=
    match parse_u64 (default "" (parts !! 0)) with
    | Some num => (num, default "" (parts !! 1))
    | None => (10%N, input)
    end in
  let fields := nonempty_fields field_str in
  if decide (fields = []) then ppl_err "top requires at least one field"
  else Ok (PplTop n fields).

Definition parse_rare (input : string) : outcome PplParseError PplCommand :=
  let fields := nonempty_fields input in
  if decide (fields = []) then ppl_err "rare requires at least one field"
  else Ok (PplRare fields).

Definition parse_command (input : string) : outcome PplParseError PplCommand :=
  let '(keyword, rest) := split_first_word input in
  let k := to_lowercase keyword in
  if decide (k = "where") then Ok (PplWhere rest)
  else if decide (k = "stats") then parse_stats rest
  else if decide (k = "sort") then parse_sort rest
  else if decide (k = "head") then parse_head rest
  else if decide (k = "fields") then parse_fields rest
  else if decide (k = "dedup") then parse_dedup rest
  else if decide (k = "eval") then parse_eval rest
  else if decide (k = "rename") then parse_rename rest
  else if decide (k = "top") then parse_top rest
  else if decide (k = "rare") then parse_rare rest
  else ppl_err ("Unknown command: '" +:+ k +:+ "'").

Definition parse_ppl (input : string) : outcome PplParseError PplQuery :=
  let trimmed := trim input in
  body ← strip_ppl_prefix trimmed;
  match split_on bar body with
  | [] => ppl_err "Empty query"
  | source_seg :: segs =>
      sources ← parse_sources (trim source_seg);
      commands ← mapM (λ seg, parse_command (trim seg)) segs;
      Ok (mkPpl sources commands)
  end.

(** ** Translation to SQL *)

(** [iter().find_map(f)], also the [for … return] loops. *)
Fixpoint find_map {A B : Type} (f : A → option B) (l : list A) : option B :=
  match l with
  | [] => None
  | x :: l => match f x with Some b => Some b | None => find_map f l end
  end.

Definition find_projection : list PplCommand → option string :=
  find_map (λ c, match c with PplFields true names => Some (join_with ", " names) | _ => None end).
Definition find_renames (cmds : list PplCommand) : list RenameExpr :=
  concat (omap (λ c, match c with PplRename rs => Some rs | _ => None end) cmds).
Definition find_top : list PplCommand → option (N * list string) :=
  find_map (λ c, match c with PplTop n fields => Some (n, fields) | _ => None end).
Definition find_rare : list PplCommand → option (list string) :=
  find_map (λ c, match c with PplRare fields => Some fields | _ => None end).
Definition find_where : list PplCommand → option string :=
  find_map (λ c, match c with PplWhere e => Some e | _ => None end).
Definition find_head : list PplCommand → option N :=
  find_map (λ c, match c with PplHead n => Some n | _ => None end).

Definition stats_part (a : StatsAgg) : string :=
  let expr := match field a with
              | Some f => func a +:+ "(" +:+ f +:+ ")"
              | None => func a +:+ "(*)"
              end in
  match alias a with
  | Some al => expr +:+ " AS " +:+ al
  | None => expr
  end.

Definition find_stats (cmds : list PplCommand) : option string * option string :=
  match find_map (λ c, match c with PplStats aggs by_f => Some (aggs, by_f) | _ => None end) cmds with
  | Some (aggs, by_f) =>
      let parts := join_with ", " (stats_part <$> aggs) in
      match by_f with
      | [] => (Some parts, None)
      | _ => (Some (join_with ", " by_f +:+ ", " +:+ parts), Some (join_with ", " by_f))
      end
  | None => (None, None)
  end.

Definition sort_part (f : SortField) : string :=
  sf_field f +:+ (if sf_descending f then " DESC" else " ASC").
Definition find_sort : list PplCommand → option string :=
  find_map (λ c, match c with
                 | PplSort fields => Some (join_with ", " (sort_part <$> fields))
                 | _ => None
                 end).

(** The clauses after [top] and [rare] have overridden the others. *)
Definition resolve_clauses (cmds : list PplCommand) :
    option string * option string * option string * option N :=
  match find_top cmds with
  | Some (n, fields) =>
      let fs := join_with ", " fields in
      (Some (fs +:+ ", COUNT(*) AS count"), Some fs, Some "count DESC", Some n)
  | None =>
      match find_rare cmds with
      | Some fields =>
          let fs := join_with ", " fields in
          (Some (fs +:+ ", COUNT(*) AS count"), Some fs, Some "count ASC", Some 10%N)
      | None => (find_stats cmds, find_sort cmds, find_head cmds)
      end
  end.

Definition eval_suffix (cmds : list PplCommand) : string :=
  foldl (λ sel c, match c with
                  | PplEval es =>
                      foldl (λ sel e, sel +:+ ", " +:+ ev_expr e +:+ " AS " +:+ ev_alias e) sel es
                  | _ => sel
                  end) "" cmds.

Definition rename_select (sel : string) (r : RenameExpr) : string :=
  replace (old_name r) (old_name r +:+ " AS " +:+ new_name r) sel.

Definition final_select (cmds : list PplCommand) (stats_select : option string) : string :=
  match stats_select with
  | Some ss => ss
  | None =>
      foldl rename_select (default "*" (find_projection cmds) +:+ eval_suffix cmds)
        (find_renames cmds)
  end.

Definition clause (kw : string) (o : option string) : string :=
  match o with Some x => kw +:+ x | None => "" end.

Definition source_select (sel : string) (where_clause group_by : option string)
    (src : QualifiedTable) : string :=
  "SELECT " +:+ sel +:+ " FROM " +:+ show_table src +:+
  clause " WHERE " where_clause +:+ clause " GROUP BY " group_by.

Definition ppl_to_sql (q : PplQuery) : outcome PplParseError string :=
  match sources q with
  | [] => ppl_err "No sources specified"
  | _ =>
      let '(stats_select, group_by, order_by, limit) := resolve_clauses (commands q) in
      let per_source := source_select (final_select (commands q) stats_select)
                          (find_where (commands q)) group_by <$> sources q in
      Ok (join_with " UNION ALL " per_source +:+ clause " ORDER BY " order_by +:+
          clause " LIMIT " (pretty <$> limit))
  end.

(** [FuseEngine::resolve_query]; the PPL error becomes a planning error. *)
Definition resolve_query (query : string) : outcome EngineError string :=
  if is_ppl query then
    map_err (λ e, Plan ("PPL parse error: " +:+ ppl_msg e))
      (parsed ← parse_ppl query; ppl_to_sql parsed)
  else Ok query.
