(* ===== verification/PplCorrect.v ===== *)
(** * PplCorrect: the PPL parser inverts the printer

    Queries over identifiers and well-delimited expressions have a canonical
    text; parsing that text gives the query back, for every command.  The
    second part says what the SQL of a query depends on. *)

From S2P Require Import Prelude Strs Arrow Connector Ppl.
From stdpp Require Import base list strings pretty sets.
From Stdlib Require Import NArith ZifyBool Lia Ascii.

(** ** Words and texts *)

Definition ident_char (a : ascii) : bool :=
  let n := N_of_ascii a in
  ((48 <=? n) && (n <=? 57) || (65 <=? n) && (n <=? 90) || (97 <=? n) && (n <=? 122) || (n =? 95))%N.

(** An identifier. *)
Definition word (s : string) : Prop := s ≠ "" ∧ str_all ident_char s = true.

(** A text without surrounding white space and without the given characters. *)
Definition no_char (c : ascii) (s : string) : Prop := str_all (λ a, negb (is_char c a)) s = true.
Definition text (s : string) : Prop := first_ok s = true ∧ last_ok s = true.

Lemma ident_not_space a : ident_char a = true → negb (is_whitespace a) = true.
Proof.
  unfold ident_char, is_whitespace. generalize (N_of_ascii a). intros n H. lia.
Qed.

Lemma word_all (q : ascii → bool) w :
  (∀ a, ident_char a = true → q a = true) → word w → str_all q w = true.
Proof. intros Hq [_ Hw]. by eapply str_all_impl. Qed.

Lemma word_no_char c w : ident_char c = false → word w → no_char c w.
Proof.
  intros Hc. apply word_all. intros a Ha. apply negb_true_iff, Ascii.eqb_neq. congruence.
Qed.

Lemma word_no_space w : word w → str_all (λ a, negb (is_whitespace a)) w = true.
Proof. apply word_all, ident_not_space. Qed.

Lemma no_space_text s : s ≠ "" → str_all (λ a, negb (is_whitespace a)) s = true → text s.
Proof.
  intros Hne Hs. split.
  - destruct s as [|a s]; [done|]. cbn in *. by apply andb_prop in Hs as [? _].
  - induction s as [|a s IH]; [done|]. cbn in Hs. apply andb_prop in Hs as [Ha Hs].
    destruct s as [|b s]; [done|]. by apply IH.
Qed.

Lemma word_text w : word w → text w.
Proof. intros Hw. apply no_space_text; [apply Hw|by apply word_no_space]. Qed.

Lemma text_trim s : text s → trim s = s.
Proof. intros [? ?]. by apply trim_id. Qed.

Lemma text_nonempty s : text s → s ≠ "".
Proof. by intros [? _] ->. Qed.

Lemma no_char_app c s t : no_char c s → no_char c t → no_char c (s +:+ t).
Proof. unfold no_char. intros Hs Ht. by rewrite str_all_app, Hs, Ht. Qed.

Lemma text_app s t : first_ok s = true → last_ok t = true → text (s +:+ t).
Proof. intros. split; [by apply first_ok_app|by apply last_ok_app]. Qed.

Lemma first_join sep x l : first_ok x = true → first_ok (join_with sep (x :: l)) = true.
Proof. intros Hx. destruct l; [done|]. rewrite join_with_cons. by apply first_ok_app. Qed.

Lemma last_join sep l : l ≠ [] → Forall (λ w, last_ok w = true) l → last_ok (join_with sep l) = true.
Proof.
  induction l as [|x [|y l] IH]; intros Hne Hl; [done|by apply Forall_cons in Hl as [? _]|].
  apply Forall_cons in Hl as [_ Hl]. rewrite join_with_cons. do 2 apply last_ok_app. by apply IH.
Qed.

Lemma join_text sep l : l ≠ [] → Forall text l → text (join_with sep l).
Proof.
  intros Hne Hl. split.
  - destruct l as [|x l]; [done|]. apply first_join. by apply Forall_cons in Hl as [[? _] _].
  - apply last_join; [done|]. eapply Forall_impl; [exact Hl|]. by intros w [_ ?].
Qed.

Lemma join_no_char c sep l : no_char c sep → Forall (no_char c) l → no_char c (join_with sep l).
Proof.
  intros Hsep. induction l as [|x [|y l] IH]; intros Hl; [done|by apply Forall_cons in Hl as [? _]|].
  apply Forall_cons in Hl as [Hx Hl]. rewrite join_with_cons. auto using no_char_app.
Qed.

Lemma trim_texts l : Forall text l → trim <$> l = l.
Proof. induction 1 as [|x l Hx _ IH]; [done|]. cbn. by rewrite text_trim, IH. Qed.

(** A comma-separated list is read back. *)
Lemma fields_back l :
  l ≠ [] → Forall (λ w, text w ∧ no_char "," w) l →
  trim <$> split_on comma (join_with ", " l) = l.
Proof.
  intros Hne Hl. apply Forall_and in Hl as [Ht Hc].
  etrans; [exact (split_join "," "" " " l eq_refl eq_refl eq_refl Hne Hc)|]. by apply trim_texts.
Qed.

Lemma words_fields l : Forall word l → Forall (λ w, text w ∧ no_char "," w) l.
Proof.
  intros Hl. eapply Forall_impl; [exact Hl|]. intros w Hw.
  split; [by apply word_text|by apply word_no_char].
Qed.

(** ** Finding a keyword between spaces *)

Definition no_space (s : string) : Prop := no_char " " s.

Lemma find_sub_skip p w s :
  no_space w → find_sub (String " " p) (w +:+ s) =
               (λ n, String.length w + n) <$> find_sub (String " " p) s.
Proof.
  unfold no_space, no_char. induction w as [|a w IH]; intros Hw.
  - change ("" +:+ s) with s. by destruct (find_sub _ s).
  - cbn in Hw. apply andb_prop in Hw as [Ha Hw]. rewrite str_app_cons. cbn [find_sub].
    assert (starts_with (String " " p) (String a (w +:+ s)) = false) as ->.
    { unfold starts_with. cbn [String.prefix].
      destruct (ascii_dec " " a) as [E|]; [|done].
      rewrite <- E in Ha. discriminate Ha. }
    rewrite (IH Hw). by destruct (find_sub _ s).
Qed.

Lemma find_sub_none p w : no_space w → find_sub (String " " p) w = None.
Proof. intros Hw. rewrite <- (str_app_nil w), find_sub_skip by done. done. Qed.

Lemma find_sub_space p s :
  find_sub (String " " p) (String " " s) =
    if starts_with p s then Some 0 else S <$> find_sub (String " " p) s.
Proof.
  cbn [find_sub]. unfold starts_with at 1. cbn [String.prefix].
  destruct (ascii_dec " " " "); [|done]. done.
Qed.

Lemma lower_char_space a : is_char " " (ascii_lower a) = is_char " " a.
Proof. by destruct a as [[] [] [] [] [] [] [] []]. Qed.

Lemma lower_no_space w : no_space w → no_space (to_lowercase w).
Proof.
  unfold no_space, no_char. induction w as [|a w IH]; [done|]. cbn [str_all to_lowercase].
  intros [Ha Hw]%andb_prop. by rewrite (IH Hw), lower_char_space, Ha.
Qed.

(** ** The canonical text of a query *)

Definition print_agg (a : StatsAgg) : string :=
  func a +:+ "(" +:+ default "" (field a) +:+ ")" +:+
  match alias a with Some al => " as " +:+ al | None => "" end.
Definition print_sort (f : SortField) : string :=
  (if sf_descending f then "- " else "+ ") +:+ sf_field f.
Definition print_eval (e : EvalExpr) : string := ev_alias e +:+ " = " +:+ ev_expr e.
Definition print_rename (r : RenameExpr) : string := old_name r +:+ " as " +:+ new_name r.

(** The keyword and the argument of a command. *)
Definition print_parts (c : PplCommand) : string * string :=
  match c with
  | PplWhere e => ("where", e)
  | PplStats aggs by_f =>
      ("stats", join_with ", " (print_agg <$> aggs) +:+
                match by_f with [] => "" | _ => " by " +:+ join_with ", " by_f end)
  | PplSort fs => ("sort", join_with ", " (print_sort <$> fs))
  | PplHead n => ("head", pretty n)
  | PplFields include names =>
      ("fields", (if include then "+ " else "- ") +:+ join_with ", " names)
  | PplDedup fs => ("dedup", join_with ", " fs)
  | PplEval es => ("eval", join_with ", " (print_eval <$> es))
  | PplRename rs => ("rename", join_with ", " (print_rename <$> rs))
  | PplTop n fs => ("top", pretty n +:+ " " +:+ join_with ", " fs)
  | PplRare fs => ("rare", join_with ", " fs)
  end.
Definition print_command (c : PplCommand) : string :=
  let '(kw, arg) := print_parts c in kw +:+ " " +:+ arg.
Definition print_ppl (q : PplQuery) : string :=
  "source = " +:+
  join_with " | " (join_with ", " (show_table <$> sources q) :: (print_command <$> commands q)).

Definition opt_word (o : option string) : Prop := from_option word True o.

Definition wf_agg (a : StatsAgg) : Prop :=
  word (func a) ∧ opt_word (field a) ∧ opt_word (alias a) ∧
  to_lowercase <$> alias a ≠ Some "by".
Definition wf_command (c : PplCommand) : Prop :=
  match c with
  | PplWhere e => text e ∧ no_char "|" e
  | PplStats aggs by_f => aggs ≠ [] ∧ Forall wf_agg aggs ∧ Forall word by_f
  | PplSort fs => fs ≠ [] ∧ Forall (λ f, word (sf_field f)) fs
  | PplHead n => (n ≤ u64_max)%N
  | PplFields _ names => names ≠ [] ∧ Forall word names
  | PplDedup fs => fs ≠ [] ∧ Forall word fs
  | PplEval es => es ≠ [] ∧
      Forall (λ e, word (ev_alias e) ∧ text (ev_expr e) ∧ no_char "," (ev_expr e) ∧
                   no_char "|" (ev_expr e)) es
  | PplRename rs => rs ≠ [] ∧ Forall (λ r, word (old_name r) ∧ word (new_name r)) rs
  | PplTop n fs => (n ≤ u64_max)%N ∧ fs ≠ [] ∧ Forall word fs
  | PplRare fs => fs ≠ [] ∧ Forall word fs
  end.
Definition wf_table (t : QualifiedTable) : Prop := opt_word (datasource t) ∧ word (table t).
Definition wf_query (q : PplQuery) : Prop :=
  sources q ≠ [] ∧ Forall wf_table (sources q) ∧ Forall wf_command (commands q).

(** ** Arguments are well delimited *)

Definition ok_arg (s : string) : Prop := text s ∧ no_char "|" s.

Lemma ok_word w : word w → ok_arg w.
Proof. intros Hw. split; [by apply word_text|by apply word_no_char]. Qed.

Lemma ok_join sep l : no_char "|" sep → l ≠ [] → Forall ok_arg l → ok_arg (join_with sep l).
Proof.
  intros Hs Hne Hl. apply Forall_and in Hl as [Ht Hb].
  split; [by apply join_text|by apply join_no_char].
Qed.

Lemma ok_app s t : first_ok s = true → no_char "|" s → ok_arg t → ok_arg (s +:+ t).
Proof. intros Hs Hb [[_ Ht] Htb]. split; [by apply text_app|by apply no_char_app]. Qed.

Lemma ok_join_fmap {A : Type} (f : A → string) sep l :
  no_char "|" sep → l ≠ [] → Forall (λ x, ok_arg (f x)) l → ok_arg (join_with sep (f <$> l)).
Proof. intros Hs Hne Hl. apply ok_join; [done|by destruct l|by rewrite Forall_fmap]. Qed.

Lemma ok_words sep l : no_char "|" sep → l ≠ [] → Forall word l → ok_arg (join_with sep l).
Proof. intros Hs Hne Hl. apply ok_join; [done..|]. eapply Forall_impl; [exact Hl|apply ok_word]. Qed.

(** The call of an aggregate: function name and parenthesised field. *)
Definition call (a : StatsAgg) : string := func a +:+ "(" +:+ default "" (field a) +:+ ")".

Lemma print_agg_call a :
  print_agg a = call a +:+ match alias a with Some al => " as " +:+ al | None => "" end.
Proof. unfold print_agg, call. by rewrite !str_app_assoc. Qed.

Lemma opt_word_all (q : ascii → bool) o :
  (∀ a, ident_char a = true → q a = true) → opt_word o → str_all q (default "" o) = true.
Proof. intros Hq Ho. destruct o as [w|]; [by apply word_all|done]. Qed.

Lemma call_all (q : ascii → bool) a :
  (∀ c, ident_char c = true → q c = true) → q "("%char = true → q ")"%char = true →
  wf_agg a → str_all q (call a) = true.
Proof.
  intros Hq Ho Hc (Hf & Hfd & _). unfold call. rewrite !str_all_app, (word_all q _ Hq Hf),
    (opt_word_all q _ Hq Hfd). cbn. by rewrite Ho, Hc.
Qed.

Lemma call_text a : wf_agg a → text (call a).
Proof.
  intros Ha. apply no_space_text.
  - destruct Ha as ([Hf _] & _). unfold call. by destruct (func a).
  - apply call_all; try done. apply ident_not_space.
Qed.

Lemma call_no_char c a :
  ident_char c = false → is_char c "(" = false → is_char c ")" = false → wf_agg a → no_char c (call a).
Proof.
  intros Hc Ho Hcl. apply call_all; [|by rewrite Ho|by rewrite Hcl].
  intros x Hx. apply negb_true_iff, Ascii.eqb_neq. congruence.
Qed.

Lemma agg_fields a : wf_agg a → text (print_agg a) ∧ no_char "," (print_agg a) ∧ no_char "|" (print_agg a).
Proof.
  intros Ha. rewrite print_agg_call. pose proof (call_text a Ha) as [Hf Hl].
  pose proof (call_no_char "," a eq_refl eq_refl eq_refl Ha).
  pose proof (call_no_char "|" a eq_refl eq_refl eq_refl Ha).
  destruct Ha as (_ & _ & Hal & _). destruct (alias a) as [al|]; [|by rewrite str_app_nil].
  split_and!.
  - apply text_app; [done|]. apply last_ok_app. by apply (word_text al Hal).
  - apply no_char_app; [done|]. apply no_char_app; [done|]. by apply word_no_char.
  - apply no_char_app; [done|]. apply no_char_app; [done|]. by apply word_no_char.
Qed.

Lemma pretty_ok (n : N) : ok_arg (pretty n).
Proof.
  pose proof (pretty_digits n) as Hd. split.
  - apply no_space_text; [pose proof (parse_pretty n); by destruct (pretty n)|].
    eapply str_all_impl; [|exact Hd]. intros a Ha%bool_decide_eq_true.
    destruct a as [[] [] [] [] [] [] [] []]; try done; by destruct Ha.
  - eapply str_all_impl; [|exact Hd]. intros a Ha%bool_decide_eq_true.
    apply negb_true_iff, Ascii.eqb_neq. intros <-. by destruct Ha.
Qed.

(** Text on both sides of a separator. *)
Lemma ok_between s m t : ok_arg s → no_char "|" m → ok_arg t → ok_arg (s +:+ m +:+ t).
Proof.
  intros [[Hs _] Hsb] Hm [[_ Ht] Htb]. split.
  - apply text_app; [done|]. by apply last_ok_app.
  - by repeat apply no_char_app.
Qed.

Lemma arg_ok c : wf_command c → ok_arg (snd (print_parts c)).
Proof.
  destruct c as [e|aggs by_f|fs|n|inc names|fs|es|rs|n fs|fs]; cbn [print_parts snd wf_command].
  - done.
  - intros (Hne & Haggs & Hby).
    assert (ok_arg (join_with ", " (print_agg <$> aggs))) as Hj.
    { apply ok_join_fmap; [done..|]. eapply Forall_impl; [exact Haggs|].
      intros a (? & _ & ?)%agg_fields. by split. }
    destruct by_f as [|b by_f]; [by rewrite str_app_nil|].
    apply ok_between; [done..|]. by apply ok_words.
  - intros [Hne Hfs]. apply ok_join_fmap; [done..|]. eapply Forall_impl; [exact Hfs|].
    intros f Hf. unfold print_sort. apply ok_app; [by destruct (sf_descending f)..|by apply ok_word].
  - intros _. apply pretty_ok.
  - intros [Hne Hn]. apply ok_app; [by destruct inc..|by apply ok_words].
  - intros [Hne Hn]. by apply ok_words.
  - intros [Hne Hes]. apply ok_join_fmap; [done..|]. eapply Forall_impl; [exact Hes|].
    intros e (Ha & Ht & _ & Hb). by apply ok_between; [apply ok_word| |].
  - intros [Hne Hrs]. apply ok_join_fmap; [done..|]. eapply Forall_impl; [exact Hrs|].
    intros r [Ho Hn]. by apply ok_between; [apply ok_word| |apply ok_word].
  - intros (_ & Hne & Hn). by apply ok_between; [apply pretty_ok| |apply ok_words].
  - intros [Hne Hn]. by apply ok_words.
Qed.

(** ** Each argument is read back *)

Lemma mapM_trim {A : Type} (f : string → outcome PplParseError A) l :
  mapM (λ s, f (trim s)) l = mapM f (trim <$> l).
Proof. by rewrite mapM_outcome_fmap. Qed.

(** A printed list of items is read back when each item is. *)
Lemma items_back {A : Type} (print : A → string) (f : string → outcome PplParseError A) l :
  l ≠ [] → Forall (λ x, text (print x) ∧ no_char "," (print x)) l →
  Forall (λ x, f (print x) = Ok x) l →
  mapM f (trim <$> split_on comma (join_with ", " (print <$> l))) = Ok l.
Proof.
  intros Hne Htext Hf. rewrite fields_back; [|by destruct l|by rewrite Forall_fmap].
  rewrite mapM_outcome_fmap, (mapM_outcome_Ok _ id); [by rewrite list_fmap_id|].
  rewrite Forall_forall in Hf. exact Hf.
Qed.

Lemma trim_end_paren s : no_char ")" s → trim_end_while (is_char ")") (s +:+ ")") = s.
Proof.
  unfold no_char. induction s as [|a s IH]; [done|]. cbn [str_all]. intros [Ha Hs]%andb_prop.
  rewrite str_app_cons. cbn [trim_end_while]. rewrite (IH Hs). apply negb_true_iff in Ha.
  rewrite Ha. by destruct s.
Qed.

Lemma default_trim o : opt_word o → trim (default "" o) = default "" o.
Proof. intros Ho. destruct o as [w|]; [by apply text_trim, word_text|done]. Qed.

Lemma parse_call_back f al :
  wf_agg (mkStatsAgg f.1 f.2 al) →
  match find_char (is_char "(") (call (mkStatsAgg f.1 f.2 al)) with
  | Some p =>
      let e := call (mkStatsAgg f.1 f.2 al) in
      let func := trim (str_take p e) in
      let inner := trim (trim_end_while (is_char ")") (str_drop (S p) e)) in
      (func, if decide (inner = "" ∨ inner = "*") then None else Some inner) = f
  | None => False
  end.
Proof.
  destruct f as [fn fd]. intros (Hf & Hfd & _). cbn [fst snd func field] in *.
  unfold call. cbn [func field].
  rewrite find_char_app by by apply (word_no_char "(").
  change (find_char (is_char "(") ("(" +:+ default "" fd +:+ ")")) with (Some 0).
  cbn [fmap option_fmap option_map]. rewrite Nat.add_0_r. cbv zeta.
  rewrite str_take_app, <- Nat.add_1_r, str_drop_app.
  change (str_drop 1 ("(" +:+ default "" fd +:+ ")")) with (default "" fd +:+ ")").
  rewrite trim_end_paren
    by (destruct fd as [w|]; [by apply word_no_char|done]).
  rewrite default_trim, text_trim by (done || by apply word_text). f_equal.
  destruct fd as [w|]; cbn [default]; [|by rewrite decide_True by auto].
  rewrite decide_False; [done|]. destruct Hfd as [Hne Hw]. intros [E|E]; change (id w) with w in E; subst w; done.
Qed.

Lemma agg_back a : wf_agg a → parse_stats_agg (print_agg a) = Ok a.
Proof.
  intros Ha. pose proof (call_no_char " " a eq_refl eq_refl eq_refl Ha) as Hsp.
  pose proof (call_text a Ha) as Ht. rewrite print_agg_call. unfold parse_stats_agg.
  destruct a as [fn fd al]. pose proof (parse_call_back (fn, fd) al Ha) as Hcall. cbn [fst snd] in Hcall.
  cbn [alias]. set (e := call _) in *. rewrite to_lowercase_app.
  rewrite find_sub_skip by by apply lower_no_space. rewrite to_lowercase_length.
  destruct al as [al|].
  - change (to_lowercase (" as " +:+ al)) with (String " " ("as " +:+ to_lowercase al)).
    rewrite find_sub_space, starts_with_app. cbn [fmap option_fmap option_map].
    rewrite Nat.add_0_r, str_take_app, str_drop_app.
    change (str_drop 4 (" as " +:+ al)) with al. rewrite (text_trim e Ht).
    destruct Ha as (_ & _ & Hal & _). cbn in Hal. rewrite (text_trim al) by by apply word_text.
    destruct (find_char (is_char "(") e); [|done]. cbv zeta in Hcall |- *.
    pose proof (f_equal fst Hcall) as Hfn. pose proof (f_equal snd Hcall) as Hfd.
    cbn [fst snd] in Hfn, Hfd. by rewrite Hfn, Hfd.
  - change (find_sub " as " (to_lowercase "")) with (@None nat).
    cbn [fmap option_fmap option_map]. rewrite str_app_nil, (text_trim e Ht).
    destruct (find_char (is_char "(") e); [|done]. cbv zeta in Hcall |- *.
    pose proof (f_equal fst Hcall) as Hfn. pose proof (f_equal snd Hcall) as Hfd.
    cbn [fst snd] in Hfn, Hfd. by rewrite Hfn, Hfd.
Qed.

(** *** The position of [by] *)

Lemma not_by_long w t :
  no_space w → 3 ≤ String.length w → starts_with "by " (w +:+ t) = false.
Proof.
  intros Hw Hl. destruct w as [|a [|b [|c w]]]; cbn in Hl; try lia.
  rewrite !str_app_cons. unfold starts_with. cbn [String.prefix].
  destruct (ascii_dec "b" a), (ascii_dec "y" b), (ascii_dec " " c) as [<-|]; try done.
  unfold no_space, no_char in Hw. cbn in Hw. by rewrite !andb_false_r in Hw.
Qed.

(** What can follow an aggregate: the end, a comma or a space. *)
Definition delimited (t : string) : Prop :=
  match t with EmptyString => True | String a _ => a = " "%char ∨ a = ","%char end.

Lemma not_by_word w t :
  no_space w → w ≠ "" → w ≠ "by" → delimited t → starts_with "by " (w +:+ t) = false.
Proof.
  intros Hw Hne Hby Ht.
  destruct w as [|a [|b [|c w]]]; [done| | |apply not_by_long; [done|cbn; lia]];
    rewrite ?str_app_cons; unfold starts_with; cbn [String.prefix].
  - destruct (ascii_dec "b" a); [|done]. destruct t as [|x t]; [done|]. change ("" +:+ String x t) with (String x t).
    cbn [String.prefix]. destruct (ascii_dec "y" x) as [<-|]; [|done]. by destruct Ht.
  - destruct (ascii_dec "b" a) as [<-|], (ascii_dec "y" b) as [<-|]; done.
Qed.

Lemma call_length a : wf_agg a → 3 ≤ String.length (call a).
Proof.
  intros ([Hf _] & _). unfold call. rewrite !str_length_app. destruct (func a); [done|]. cbn. lia.
Qed.

Lemma by_after_agg a t :
  wf_agg a → delimited t →
  find_sub " by " (to_lowercase (print_agg a) +:+ t) =
    (λ n, String.length (print_agg a) + n) <$> find_sub " by " t.
Proof.
  intros Ha Ht. pose proof (call_no_char " " a eq_refl eq_refl eq_refl Ha) as Hsp.
  rewrite print_agg_call, to_lowercase_app, <- str_app_assoc.
  rewrite find_sub_skip by by apply lower_no_space.
  rewrite to_lowercase_length, str_length_app.
  destruct Ha as (_ & _ & Hal & Hby). destruct (alias a) as [al|].
  - change (to_lowercase (" as " +:+ al)) with (String " " ("as" +:+ String " " (to_lowercase al))).
    rewrite str_app_cons, find_sub_space, <- str_app_assoc.
    change (starts_with "by " ("as" +:+ String " " (to_lowercase al) +:+ t)) with false. cbv iota.
    rewrite find_sub_skip, str_app_cons, find_sub_space by done.
    rewrite not_by_word; [| | | |done].
    + rewrite find_sub_skip by by apply lower_no_space, word_no_char.
      rewrite to_lowercase_length, str_length_app. change (String.length " as ") with 4.
      destruct (find_sub " by " t); cbn; [f_equal; lia|done].
    + by apply lower_no_space, word_no_char.
    + destruct Hal as [Hne _]. by destruct al.
    + intros E. apply Hby. cbn. by rewrite E.
  - rewrite Nat.add_0_r. done.
Qed.

Lemma lower_delimited s : delimited (to_lowercase s) ↔ delimited s.
Proof.
  destruct s as [|a s]; [done|]. cbn.
  destruct a as [[] [] [] [] [] [] [] []]; split; intros [E|E]; try discriminate E; auto.
Qed.

Lemma by_after_aggs aggs t :
  aggs ≠ [] → Forall wf_agg aggs → delimited t →
  find_sub " by " (to_lowercase (join_with ", " (print_agg <$> aggs)) +:+ t) =
    (λ n, String.length (join_with ", " (print_agg <$> aggs)) + n) <$> find_sub " by " t.
Proof.
  induction aggs as [|a [|b aggs] IH]; intros Hne Hw Ht; [done|..].
  - apply Forall_cons in Hw as [Ha _]. by apply by_after_agg.
  - apply Forall_cons in Hw as [Ha Hw]. rewrite !fmap_cons, join_with_cons, <- fmap_cons.
    set (rest := join_with ", " (print_agg <$> b :: aggs)) in *.
    rewrite !to_lowercase_app, <- !str_app_assoc, by_after_agg by (done || by right).
    change (to_lowercase ", ") with ("," +:+ " "). rewrite <- str_app_assoc.
    rewrite find_sub_skip, str_app_cons, find_sub_space by done.
    change ("" +:+ ?x) with x.
    assert (starts_with "by " (to_lowercase rest +:+ t) = false) as ->.
    { apply Forall_cons in Hw as [Hb _]. unfold rest. rewrite fmap_cons.
      assert (∃ u, join_with ", " (print_agg b :: (print_agg <$> aggs)) = call b +:+ u) as [u ->].
      { rewrite print_agg_call. destruct (print_agg <$> aggs); [by eexists|].
        rewrite join_with_cons, <- str_app_assoc. by eexists. }
      rewrite to_lowercase_app, <- str_app_assoc. apply not_by_long.
      - by apply lower_no_space, call_no_char.
      - rewrite to_lowercase_length. by apply call_length. }
    rewrite (IH ltac:(done) Hw Ht), !str_length_app.
    change (String.length ", ") with 2. change (String.length ",") with 1.
    destruct (find_sub " by " t); cbn; [f_equal; lia|done].
Qed.

Lemma stats_back aggs by_f :
  wf_command (PplStats aggs by_f) →
  parse_stats (snd (print_parts (PplStats aggs by_f))) = Ok (PplStats aggs by_f).
Proof.
  intros (Hne & Haggs & Hby). cbn [print_parts snd]. unfold parse_stats.
  assert (mapM (λ a, parse_stats_agg (trim a)) (split_on comma (join_with ", " (print_agg <$> aggs)))
          = Ok aggs) as Hm.
  { rewrite mapM_trim. apply items_back; [done| |].
    - eapply Forall_impl; [exact Haggs|]. intros a (? & ? & _)%agg_fields. by split.
    - eapply Forall_impl; [exact Haggs|apply agg_back]. }
  pose proof (λ t, by_after_aggs aggs t Hne Haggs) as Hfind.
  set (A := join_with ", " (print_agg <$> aggs)) in *.
  rewrite to_lowercase_app.
  destruct by_f as [|b by_f].
  - rewrite Hfind by done. change (find_sub " by " (to_lowercase "")) with (@None nat).
    cbn [fmap option_fmap option_map]. rewrite str_app_nil. cbv beta iota zeta. by rewrite Hm.
  - rewrite Hfind by by left.
    change (to_lowercase (" by " +:+ ?x)) with (String " " ("by " +:+ to_lowercase x)).
    rewrite (find_sub_space "by "), starts_with_app. cbn [fmap option_fmap option_map].
    rewrite Nat.add_0_r, str_take_app, str_drop_app. cbv beta iota zeta. rewrite Hm. cbn [mbind outcome_bind from_option].
    do 2 f_equal. change (str_drop 4 (" by " +:+ ?x)) with x.
    apply fields_back; [done|]. by apply words_fields.
Qed.

(** *** The other commands *)

Lemma trim_lead s : text s → trim (" " +:+ s) = s.
Proof.
  intros Hs. rewrite <- (str_app_nil s) at 1. rewrite trim_pad by done. by apply text_trim.
Qed.

Lemma trim_trail s : text s → trim (s +:+ " ") = s.
Proof.
  intros Hs. change (s +:+ " ") with ("" +:+ s +:+ " "). rewrite trim_pad by done.
  by apply text_trim.
Qed.

Lemma sort_back f : word (sf_field f) → parse_sort_field (print_sort f) = f.
Proof.
  intros Hf%word_text. unfold parse_sort_field, print_sort.
  assert (text ((if sf_descending f then "- " else "+ ") +:+ sf_field f)) as Ht.
  { apply text_app; [by destruct (sf_descending f)|]. apply Hf. }
  rewrite (text_trim _ Ht). destruct f as [w []]; cbn [sf_descending sf_field] in *.
  - change (strip_prefix_char "-" ("- " +:+ w)) with (Some (" " +:+ w)).
    cbv beta iota zeta. by rewrite trim_lead.
  - change (strip_prefix_char "-" ("+ " +:+ w)) with (@None string).
    change (strip_prefix_char "+" ("+ " +:+ w)) with (Some (" " +:+ w)).
    cbv beta iota zeta. by rewrite trim_lead.
Qed.

Lemma eval_back e :
  word (ev_alias e) → text (ev_expr e) → parse_eval_expr (print_eval e) = Ok e.
Proof.
  intros Ha He. unfold parse_eval_expr, print_eval. pose proof (word_text _ Ha) as Hat.
  rewrite text_trim by (apply text_app; [apply Hat|apply last_ok_app, He]).
  rewrite find_char_app by by apply (word_no_char "=").
  change (find_char (is_char "=") (" = " +:+ ev_expr e)) with (Some 1).
  cbn [fmap option_fmap option_map ok_or mbind outcome_bind].
  change (ev_alias e +:+ " = " +:+ ev_expr e) with (ev_alias e +:+ " " +:+ "= " +:+ ev_expr e).
  assert (str_take (String.length (ev_alias e) + 1) (ev_alias e +:+ " " +:+ "= " +:+ ev_expr e)
          = ev_alias e +:+ " ") as ->.
  { rewrite str_app_assoc. replace (String.length (ev_alias e) + 1)
      with (String.length (ev_alias e +:+ " ")) by apply str_length_app. apply str_take_app. }
  rewrite <- Nat.add_succ_r, str_drop_app.
  change (str_drop 2 (" " +:+ "= " +:+ ev_expr e)) with (" " +:+ ev_expr e).
  rewrite trim_trail, trim_lead by done. rewrite decide_False; [by destruct e|].
  intros [E|E]; [by apply text_nonempty in Hat|by apply text_nonempty in He].
Qed.

Lemma rename_back r :
  word (old_name r) → word (new_name r) → parse_rename_expr (print_rename r) = Ok r.
Proof.
  intros Ho Hn. unfold parse_rename_expr, print_rename.
  pose proof (word_text _ Ho) as Hot. pose proof (word_text _ Hn) as Hnt.
  rewrite text_trim by (apply text_app; [apply Hot|apply last_ok_app, Hnt]).
  rewrite to_lowercase_app, find_sub_skip by by apply lower_no_space, word_no_char.
  change (to_lowercase (" as " +:+ ?x)) with (String " " ("as " +:+ to_lowercase x)).
  rewrite find_sub_space, starts_with_app.
  cbn [fmap option_fmap option_map ok_or mbind outcome_bind].
  rewrite Nat.add_0_r, to_lowercase_length, str_take_app, str_drop_app.
  change (str_drop 4 (" as " +:+ new_name r)) with (new_name r).
  rewrite !text_trim by done. rewrite decide_False; [by destruct r|].
  intros [E|E]; [by apply text_nonempty in Hot|by apply text_nonempty in Hnt].
Qed.

Lemma filter_words l : Forall word l → filter (λ f, f ≠ "") l = l.
Proof.
  induction 1 as [|w l [Hw _] _ IH]; [done|]. rewrite filter_cons_True by done. by rewrite IH.
Qed.

Lemma word_list_back l : l ≠ [] → Forall word l → trimmed_fields (join_with ", " l) = l.
Proof. intros. apply fields_back; [done|by apply words_fields]. Qed.

Lemma nonempty_back l : l ≠ [] → Forall word l → nonempty_fields (join_with ", " l) = l.
Proof. intros. unfold nonempty_fields. by rewrite word_list_back, filter_words. Qed.

Lemma digit_not_space a :
  bool_decide (is_Some (digit_value a)) = true → negb (is_whitespace a) = true.
Proof.
  intros Ha%bool_decide_eq_true. destruct a as [[] [] [] [] [] [] [] []]; try done; by destruct Ha.
Qed.

Lemma top_split n s :
  splitn2 is_whitespace (pretty (n : N) +:+ " " +:+ s) = [pretty n; s].
Proof.
  unfold splitn2, split_once. rewrite find_char_app.
  - change (find_char is_whitespace (" " +:+ s)) with (Some 0).
    cbn [fmap option_fmap option_map]. rewrite Nat.add_0_r, str_take_app.
    by rewrite <- Nat.add_1_r, str_drop_app.
  - eapply str_all_impl; [|apply pretty_digits]. apply digit_not_space.
Qed.

(** The argument of a command, handed to the command's parser. *)
Definition parse_arg (c : PplCommand) : string → outcome PplParseError PplCommand :=
  match c with
  | PplWhere _ => λ s, Ok (PplWhere s)
  | PplStats _ _ => parse_stats
  | PplSort _ => parse_sort
  | PplHead _ => parse_head
  | PplFields _ _ => parse_fields
  | PplDedup _ => parse_dedup
  | PplEval _ => parse_eval
  | PplRename _ => parse_rename
  | PplTop _ _ => parse_top
  | PplRare _ => parse_rare
  end.

Lemma sort_cmd_back l : wf_command (PplSort l) → parse_arg (PplSort l) (snd (print_parts (PplSort l))) = Ok (PplSort l).
Proof.
  intros Hc. cbn [parse_arg]. destruct Hc as [Hne Hfs]. cbn [print_parts snd]. unfold parse_sort. do 2 f_equal.
  assert (∀ k, parse_sort_field <$> k = parse_sort_field <$> (trim <$> k)) as ->.
  { intros k. rewrite <- list_fmap_compose. apply list_fmap_ext. intros _ s _.
    unfold parse_sort_field, compose. by rewrite trim_idem. }
  rewrite fields_back; [|by destruct l|].
  + rewrite <- list_fmap_compose. rewrite <- (list_fmap_id l) at 2. apply list_fmap_ext.
    intros i f Hf. apply sort_back. exact (Forall_lookup_1 _ _ _ _ Hfs Hf).
  + rewrite Forall_fmap. eapply Forall_impl; [exact Hfs|]. intros f Hf. unfold compose, print_sort.
    split; [apply text_app; [by destruct (sf_descending f)|by apply word_text]|].
    apply no_char_app; [by destruct (sf_descending f)|by apply word_no_char].
Qed.

Lemma eval_cmd_back l : wf_command (PplEval l) → parse_arg (PplEval l) (snd (print_parts (PplEval l))) = Ok (PplEval l).
Proof.
  intros Hc. cbn [parse_arg]. destruct Hc as [Hne Hes]. cbn [print_parts snd]. unfold parse_eval.
  rewrite (mapM_outcome_ext _ (λ s, parse_eval_expr (trim s)))
    by (intros s _; unfold parse_eval_expr; by rewrite trim_idem).
  rewrite mapM_trim, items_back; [done|done|..].
  + eapply Forall_impl; [exact Hes|]. intros e (Ha & Ht & Hcm & _).
    split; [apply text_app; [by apply word_text|by apply last_ok_app, Ht]|].
    by repeat apply no_char_app; [apply word_no_char| |].
  + eapply Forall_impl; [exact Hes|]. intros e (Ha & Ht & _). by apply eval_back.
Qed.

Lemma rename_cmd_back l : wf_command (PplRename l) → parse_arg (PplRename l) (snd (print_parts (PplRename l))) = Ok (PplRename l).
Proof.
  intros Hc. cbn [parse_arg]. destruct Hc as [Hne Hrs]. cbn [print_parts snd]. unfold parse_rename.
  rewrite (mapM_outcome_ext _ (λ s, parse_rename_expr (trim s)))
    by (intros s _; unfold parse_rename_expr; by rewrite trim_idem).
  rewrite mapM_trim, items_back; [done|done|..].
  + eapply Forall_impl; [exact Hrs|]. intros r [Ho Hn].
    split; [apply text_app; [by apply word_text|by apply last_ok_app, word_text]|].
    by repeat apply no_char_app; [apply word_no_char| |apply word_no_char].
  + eapply Forall_impl; [exact Hrs|]. intros r [Ho Hn]. by apply rename_back.
Qed.

Lemma arg_back c : wf_command c → parse_arg c (snd (print_parts c)) = Ok c.
Proof.
  intros Hc. destruct c as [e|aggs by_f|fs|n|inc names|fs|es|rs|n fs|fs]; cbn [parse_arg].
  - done.
  - by apply stats_back.
  - by apply sort_cmd_back.
  - cbn [print_parts snd]. unfold parse_head. destruct (pretty_ok n) as [Ht _].
    rewrite decide_False by by apply text_nonempty. rewrite text_trim by done.
    by rewrite parse_u64_pretty.
  - destruct Hc as [Hne Hn]. destruct (ok_words ", " names eq_refl Hne Hn) as [Ht _].
    unfold parse_fields. cbn [print_parts snd]. destruct inc.
    + change (strip_prefix_char "-" ("+ " +:+ ?x)) with (@None string).
      change (strip_prefix_char "+" ("+ " +:+ ?x)) with (Some (" " +:+ x)). cbv beta iota zeta.
      by rewrite trim_lead, word_list_back.
    + change (strip_prefix_char "-" ("- " +:+ ?x)) with (Some (" " +:+ x)). cbv beta iota zeta.
      by rewrite trim_lead, word_list_back.
  - destruct Hc as [Hne Hn]. cbn [print_parts snd]. unfold parse_dedup.
    rewrite word_list_back by done. rewrite decide_False; [done|].
    intros [?| ->]; [done|]. apply Forall_cons in Hn as [[? _] _]. done.
  - by apply eval_cmd_back.
  - by apply rename_cmd_back.
  - destruct Hc as (Hn & Hne & Hfs). cbn [print_parts snd]. unfold parse_top.
    rewrite top_split. cbn [lookup list_lookup default from_option id].
    rewrite parse_u64_pretty by done. cbv beta iota zeta.
    rewrite nonempty_back by done. by rewrite decide_False.
  - destruct Hc as [Hne Hfs]. cbn [print_parts snd]. unfold parse_rare.
    rewrite nonempty_back by done. by rewrite decide_False.
Qed.

(** ** The whole query *)

Lemma split_kw kw arg :
  word kw → first_ok arg = true → split_first_word (kw +:+ " " +:+ arg) = (kw, arg).
Proof.
  intros Hkw Harg. unfold split_first_word. rewrite find_char_app by by apply word_no_space.
  change (find_char is_whitespace (" " +:+ arg)) with (Some 0).
  cbn [fmap option_fmap option_map]. rewrite Nat.add_0_r, str_take_app, str_drop_exact.
  by rewrite (trim_start_space " "), trim_start_id.
Qed.

Lemma command_back c : wf_command c → parse_command (print_command c) = Ok c.
Proof.
  intros Hc. pose proof (arg_back c Hc) as Harg. destruct (arg_ok c Hc) as [[Hf _] _].
  unfold print_command, parse_command.
  destruct c; cbn [print_parts snd] in *; (rewrite split_kw by done); exact Harg.
Qed.

Lemma command_ok c : wf_command c → ok_arg (print_command c).
Proof.
  intros Hc. pose proof (arg_ok c Hc) as Harg. unfold print_command.
  assert (word (fst (print_parts c))) as Hkw by by destruct c.
  destruct (print_parts c) as [kw arg]. cbn [fst snd] in *.
  apply ok_between; [by apply ok_word|done|done].
Qed.

Lemma split_once_dot ds t : word ds → split_once (is_char ".") (ds +:+ "." +:+ t) = Some (ds, t).
Proof.
  intros Hd. unfold split_once. rewrite find_char_app by by apply (word_no_char ".").
  change (find_char (is_char ".") ("." +:+ t)) with (Some 0).
  cbn [fmap option_fmap option_map]. rewrite Nat.add_0_r, str_take_app.
  by rewrite <- Nat.add_1_r, str_drop_app.
Qed.

Lemma table_fields t : wf_table t → text (show_table t) ∧ no_char "," (show_table t) ∧ no_char "|" (show_table t).
Proof.
  intros [Hd Ht]. unfold show_table. pose proof (word_text _ Ht) as [Hf Hl].
  destruct (datasource t) as [ds|].
  - pose proof (word_text _ Hd) as [Hdf _]. split_and!.
    + apply text_app; [done|]. by apply last_ok_app.
    + by repeat apply no_char_app; [apply word_no_char| |apply word_no_char].
    + by repeat apply no_char_app; [apply word_no_char| |apply word_no_char].
  - split_and!; [done|by apply word_no_char..].
Qed.

Lemma table_back t : wf_table t → parse_qualified_table (show_table t) = Ok t.
Proof.
  intros Ht. destruct (table_fields t Ht) as [Htext _].
  unfold parse_qualified_table. rewrite decide_False by by apply text_nonempty.
  destruct t as [[ds|] n], Ht as [Hd Hn]; unfold show_table; cbn [datasource table] in *.
  - rewrite split_once_dot by done. rewrite !text_trim by by apply word_text. done.
  - unfold split_once. by rewrite find_char_none by by apply (word_no_char ".").
Qed.

Lemma sources_back ts :
  ts ≠ [] → Forall wf_table ts → parse_sources (join_with ", " (show_table <$> ts)) = Ok ts.
Proof.
  intros Hne Hts. unfold parse_sources. rewrite decide_False.
  - rewrite mapM_trim. apply items_back; [done|..].
    + eapply Forall_impl; [exact Hts|]. intros t (? & ? & _)%table_fields. by split.
    + eapply Forall_impl; [exact Hts|apply table_back].
  - apply text_nonempty, join_text; [by destruct ts|]. rewrite Forall_fmap.
    eapply Forall_impl; [exact Hts|]. by intros t (? & _)%table_fields.
Qed.

Lemma strip_prefix_back body :
  first_ok body = true → strip_ppl_prefix ("source = " +:+ body) = Ok body.
Proof.
  intros Hb. unfold strip_ppl_prefix.
  change (starts_with "search" (to_lowercase ("source = " +:+ body))) with false. cbv iota.
  change (starts_with "source" (to_lowercase ("source = " +:+ body))) with true. cbn [negb].
  change (trim_start (str_drop 6 ("source = " +:+ body))) with ("= " +:+ body).
  change (starts_with "=" ("= " +:+ body)) with true. cbn [negb].
  change (str_drop 1 ("= " +:+ body)) with (" " +:+ body).
  by rewrite (trim_start_space " "), trim_start_id.
Qed.

Lemma parse_print q : wf_query q → parse_ppl (print_ppl q) = Ok q.
Proof.
  destruct q as [ts cs]. intros (Hne & Hts & Hcs). cbn [sources commands] in *. unfold print_ppl.
  cbn [sources commands].
  set (segs := join_with ", " (show_table <$> ts) :: (print_command <$> cs)).
  assert (Forall ok_arg segs) as Hok.
  { constructor.
    - apply ok_join_fmap; [done..|]. eapply Forall_impl; [exact Hts|].
      intros t (? & _ & ?)%table_fields. by split.
    - rewrite Forall_fmap. eapply Forall_impl; [exact Hcs|apply command_ok]. }
  apply Forall_and in Hok as [Htext Hbar].
  assert (text (join_with " | " segs)) as [Hf Hl] by by apply join_text.
  unfold parse_ppl. rewrite text_trim by by apply text_app.
  rewrite strip_prefix_back by done. cbn [mbind outcome_bind].
  assert (trim <$> split_on bar (join_with " | " segs) = segs) as Hsplit.
  { etrans; [exact (split_join "|" " " " " segs eq_refl eq_refl eq_refl ltac:(done) Hbar)|].
    by apply trim_texts. }
  destruct (split_on bar (join_with " | " segs)) as [|s0 rest]; [done|].
  unfold segs in Hsplit. rewrite fmap_cons in Hsplit. injection Hsplit as Hs0 Hrest.
  rewrite Hs0, sources_back by done. cbn [mbind outcome_bind].
  rewrite mapM_trim, Hrest, mapM_outcome_fmap, (mapM_outcome_Ok _ id).
  - cbn [mbind outcome_bind]. by rewrite list_fmap_id.
  - intros c Hc. apply command_back. rewrite Forall_forall in Hcs. auto.
Qed.

(** ** What the SQL depends on *)

Lemma find_map_app {A B : Type} (f : A → option B) l k :
  find_map f (l ++ k) = match find_map f l with Some b => Some b | None => find_map f k end.
Proof. induction l as [|x l IH]; [done|]. cbn. by destruct (f x). Qed.

Lemma find_map_drop {A B : Type} (f : A → option B) l c k :
  f c = None → find_map f (l ++ c :: k) = find_map f (l ++ k).
Proof. intros Hc. rewrite !find_map_app. cbn. by rewrite Hc. Qed.

(** A command that contributes to no clause. *)
Definition inert (c : PplCommand) : Prop :=
  match c with
  | PplDedup _ | PplFields false _ => True
  | _ => False
  end.

Lemma inert_dropped ts l c k :
  inert c → ppl_to_sql (mkPpl ts (l ++ c :: k)) = ppl_to_sql (mkPpl ts (l ++ k)).
Proof.
  intros Hc. unfold ppl_to_sql. cbn [sources commands]. destruct ts as [|t ts]; [done|].
  assert (∀ {B} (f : PplCommand → option B), f c = None →
            find_map f (l ++ c :: k) = find_map f (l ++ k)) as Hd
    by (intros B f; apply find_map_drop).
  assert (resolve_clauses (l ++ c :: k) = resolve_clauses (l ++ k)) as ->.
  { unfold resolve_clauses, find_top, find_rare, find_stats, find_sort, find_head.
    rewrite !Hd by (by destruct c as [| | | |[]| | | | |]). done. }
  assert (∀ ss, final_select (l ++ c :: k) ss = final_select (l ++ k) ss) as Hsel.
  { intros [ss|]; [done|]. unfold final_select, find_projection, find_renames, eval_suffix.
    rewrite Hd, !foldl_app, !omap_app by (by destruct c as [| | | |[]| | | | |]).
    by destruct c as [| | | |[]| | | | |]. }
  unfold find_where. rewrite Hd by (by destruct c).
  destruct (resolve_clauses (l ++ k)) as [[[ss gb] ob] lim]. by rewrite Hsel.
Qed.

Lemma later_where_dropped ts l e k e' m :
  ppl_to_sql (mkPpl ts (l ++ PplWhere e :: k ++ PplWhere e' :: m)) =
  ppl_to_sql (mkPpl ts (l ++ PplWhere e :: k ++ m)).
Proof.
  unfold ppl_to_sql. cbn [sources commands]. destruct ts as [|t ts]; [done|].
  change (l ++ PplWhere e :: k ++ PplWhere e' :: m) with (l ++ [PplWhere e] ++ k ++ PplWhere e' :: m).
  change (l ++ PplWhere e :: k ++ m) with (l ++ [PplWhere e] ++ k ++ m).
  rewrite !app_assoc. set (h := (l ++ [PplWhere e]) ++ k).
  assert (find_where (h ++ PplWhere e' :: m) = find_where (h ++ m)) as ->.
  { unfold find_where, h. rewrite !find_map_app. by destruct (find_map _ l). }
  assert (resolve_clauses (h ++ PplWhere e' :: m) = resolve_clauses (h ++ m)) as ->.
  { unfold resolve_clauses, find_top, find_rare, find_stats, find_sort, find_head.
    by rewrite !find_map_drop. }
  assert (∀ ss, final_select (h ++ PplWhere e' :: m) ss = final_select (h ++ m) ss) as Hsel.
  { intros [ss|]; [done|]. unfold final_select, find_projection, find_renames, eval_suffix.
    by rewrite find_map_drop, !foldl_app, !omap_app. }
  destruct (resolve_clauses (h ++ m)) as [[[ss gb] ob] lim]. by rewrite Hsel.
Qed.

(** ** Properties of the PPL front end *)

(** C8: the canonical text of a well-formed query (identifiers as names, any
    number of sources and commands of every kind) is recognised as PPL, parses
    to exactly that query, and resolves to its SQL. *)
Theorem ppl_round_trip q :
  wf_query q →
  is_ppl (print_ppl q) = true ∧ parse_ppl (print_ppl q) = Ok q ∧
  ∃ sql, ppl_to_sql q = Ok sql ∧ resolve_query (print_ppl q) = Ok sql.
Proof.
  intros Hq. split; [done|]. split; [by apply parse_print|].
  assert (∃ sql, ppl_to_sql q = Ok sql) as [sql Hsql].
  { destruct Hq as (Hne & _). unfold ppl_to_sql. destruct (sources q); [done|].
    destruct (resolve_clauses (commands q)) as [[[? ?] ?] ?]. eauto. }
  exists sql. split; [done|]. unfold resolve_query.
  change (is_ppl (print_ppl q)) with true. cbv iota.
  rewrite parse_print by done. cbn [mbind outcome_bind]. by rewrite Hsql.
Qed.

(** The SQL is the same with and without a [dedup], an excluding
    [fields -], or a second [where]: these commands are accepted by the parser
    and then have no effect on the query that runs. *)
Theorem ppl_to_sql_ignores ts l k :
  (∀ fs, ppl_to_sql (mkPpl ts (l ++ PplDedup fs :: k)) = ppl_to_sql (mkPpl ts (l ++ k))) ∧
  (∀ names, ppl_to_sql (mkPpl ts (l ++ PplFields false names :: k)) = ppl_to_sql (mkPpl ts (l ++ k))) ∧
  (∀ e e' m, ppl_to_sql (mkPpl ts (l ++ PplWhere e :: k ++ PplWhere e' :: m)) =
             ppl_to_sql (mkPpl ts (l ++ PplWhere e :: k ++ m))).
Proof.
  split_and!; intros; [by apply inert_dropped..|apply later_where_dropped].
Qed.

(** ** Witnesses *)

Definition ex_query : PplQuery :=
  mkPpl [mkTable (Some "os") "logs"; mkTable None "metrics"]
    [PplWhere "status >= 500";
     PplStats [mkStatsAgg "count" None (Some "n"); mkStatsAgg "avg" (Some "latency") None] ["host"];
     PplSort [mkSortField "n" true]; PplTop 5 ["host"]; PplHead 20].

Lemma ppl_round_trip_witness :
  print_ppl ex_query =
    "source = os.logs, metrics | where status >= 500 | stats count() as n, avg(latency) by host | sort - n | top 5 host | head 20"
  ∧ parse_ppl (print_ppl ex_query) = Ok ex_query.
Proof.
  split; [reflexivity|]. refine (proj1 (proj2 (ppl_round_trip ex_query _))).
  split; [done|]. split; repeat constructor; done.
Defined.
