(* ===== verification/Rewrite.v ===== *)
(** * Rewrite: rewriting sub-queries before the fan-out

    Models [crates/fuse-engine/src/rewrite.rs] and
    [crates/fuse-engine/src/optimizer.rs]: copying the user's query into the
    per-source sub-queries, projection pruning, the in-place optimizer rules and
    the splitting of a join condition.  The code mutates the sub-queries in
    place; here each mutation is a function on [SubQuery]. *)

From S2P Require Import Prelude Strs Arrow Connector SqlToSubquery.
From stdpp Require Import base list strings sets.
From Stdlib Require Import NArith Lia Ascii.

(** ** Push-down of the base query *)

(** The loop body of [push_down_to_sources]. *)
Definition push_down_one (base sq : SubQuery) : SubQuery :=
  let push_aggs := bool_decide (aggregations sq = []) && negb (bool_decide (aggregations base = [])) in
  {| table := table sq;
     projections := if bool_decide (projections sq = []) && negb (bool_decide (projections base = []))
                    then projections base else projections sq;
     filter_expr := match filter_expr sq with None => filter_expr base | f => f end;
     aggregations := if push_aggs then aggregations base else aggregations sq;
     group_by := if push_aggs then group_by base else group_by sq;
     having := if push_aggs then match having sq with None => having base | h => h end
               else having sq;
     sort := if bool_decide (sort sq = []) && negb (bool_decide (sort base = []))
             then sort base else sort sq;
     limit := match limit base with
              | Some base_limit =>
                  match limit sq with
                  | None => Some base_limit
                  | Some existing => Some (N.min existing base_limit)
                  end
              | None => limit sq
              end;
     offset := offset sq;
     passthrough := passthrough sq |}.

Definition push_down_to_sources (base : SubQuery) (per_source : list SubQuery) : list SubQuery :=
  push_down_one base <$> per_source.

Definition prune_projections (projections available_fields : list string) : list string :=
  if decide (projections = []) then []
  else filter (λ p, p ∈ available_fields) projections.

(** ** Optimizer rules *)

Definition with_sort (sq : SubQuery) (s : list SortExpr) : SubQuery :=
  mkSubQuery (table sq) (projections sq) (filter_expr sq) (aggregations sq) (group_by sq)
    (having sq) s (limit sq) (offset sq) (passthrough sq).
Definition with_limit_offset (sq : SubQuery) (l o : option N) : SubQuery :=
  mkSubQuery (table sq) (projections sq) (filter_expr sq) (aggregations sq) (group_by sq)
    (having sq) (sort sq) l o (passthrough sq).

Definition eliminate_redundant_sort (sq : SubQuery) : SubQuery :=
  if decide (sort sq ≠ [] ∧ limit sq = None ∧ group_by sq ≠ []) then with_sort sq [] else sq.

Definition merge_adjacent_limits (sq : SubQuery) : SubQuery :=
  match limit sq, offset sq with
  | Some l, Some o => with_limit_offset sq (Some (saturating_add l o)) None
  | _, _ => sq
  end.

Definition optimize (sq : SubQuery) : SubQuery :=
  merge_adjacent_limits (eliminate_redundant_sort sq).

(** ** Join conditions *)

(** [field.rsplit('.').next()]: the part after the last dot. *)
Definition bare (field : string) : string := default field (last (split_on (is_char ".") field)).

Fixpoint split_join_filters (filter : FilterExpr) (left_columns right_columns : list string) :
    option FilterExpr * option FilterExpr :=
  match filter with
  | FAnd l r =>
      let '(ll, lr) := split_join_filters l left_columns right_columns in
      let '(rl, rr) := split_join_filters r left_columns right_columns in
      (and_opt ll rl, and_opt lr rr)
  | FComparison field _ _ =>
      if decide (bare field ∈ left_columns) then (Some filter, None)
      else if decide (bare field ∈ right_columns) then (None, Some filter)
      else (Some filter, Some filter)
  | _ => (Some filter, Some filter)
  end.

(** ** What a connector can take over *)

Record PushdownDecision : Type := mkDecision {
  push_filters : bool; push_projections : bool; push_aggregations : bool;
  push_sort : bool; push_limit : bool;
}.
Definition apply_connector_pushdown (c : ConnectorCapabilities) : PushdownDecision :=
  mkDecision (supports_filtering c) (supports_projection c) (supports_aggregation c)
    (supports_sorting c) (supports_limit c).
Definition any_pushdown (d : PushdownDecision) : bool :=
  push_filters d || push_projections d || push_aggregations d || push_sort d || push_limit d.

(** ** Specification: the rows a source returns *)

Section SourceRows.
Context {R : Type} (cmp : ComparisonOp → ScalarValue → ScalarValue → bool)
  (env_of : R → string → ScalarValue).

Definition take_limit (l : option N) (rows : list R) : list R :=
  match l with Some n => take (N.to_nat n) rows | None => rows end.

#[export] Instance keeps_opt_dec env f : Decision (keeps_opt cmp env f).
Proof. destruct f; cbn; unfold keeps; apply _. Defined.

(** A source that honours the filter and the limit of a plain row query. *)
Definition source_rows (sq : SubQuery) (rows : list R) : list R :=
  take_limit (limit sq) (filter (λ r, keeps_opt cmp (env_of r) (filter_expr sq)) rows).

Lemma take_concat_take n (ls : list (list R)) (ks : list (list R)) :
  Forall2 (λ l k, ∃ m, n ≤ m ∧ k = take m l ∨ k = l) ls ks →
  take n (concat ks) = take n (concat ls).
Proof.
  revert n ks. induction ls as [|l ls IH]; intros n ks H.
  - apply Forall2_nil_inv_l in H as ->. done.
  - apply Forall2_cons_inv_l in H as (k & ks' & Hk & Hks & ->). cbn.
    rewrite !take_app.
    assert (take n k = take n l) as Htake.
    { destruct Hk as (m & [[Hm ->]| ->]); [|done]. rewrite take_take. f_equal. lia. }
    rewrite Htake. f_equal.
    destruct (decide (length l ≤ n)) as [Hl|Hl].
    + assert (k = l) as ->.
      { destruct Hk as (m & [[Hm ->]| ->]); [|done]. rewrite take_ge; [done|lia]. }
      apply IH. eapply Forall2_impl; [exact Hks|]. intros x y (m & [[Hm ->]| ->]); exists m; [|by right].
      left. split; [lia|done].
    + assert (n ≤ length k).
      { destruct Hk as (m & [[Hm ->]| ->]); [rewrite length_take|]; lia. }
      replace (n - length k) with 0 by lia. replace (n - length l) with 0 by lia. done.
Qed.
End SourceRows.

(** *** Limits *)

Lemma take_limit_min {R : Type} (own : option N) n (rows : list R) :
  take_limit (match own with None => Some n | Some k => Some (N.min k n) end) rows =
  take (N.to_nat n) (take_limit own rows).
Proof.
  destruct own as [k|]; [|done]. cbn. rewrite take_take. f_equal. lia.
Qed.

Lemma push_down_source {R : Type} cmp (env_of : R → string → ScalarValue) base sq n rows :
  limit base = Some n → filter_expr sq = None →
  source_rows cmp env_of (push_down_one base sq) rows =
    take (N.to_nat n)
      (take_limit (limit sq) (filter (λ r, keeps_opt cmp (env_of r) (filter_expr base)) rows)).
Proof.
  intros Hl Hf. unfold source_rows. cbn [filter_expr limit push_down_one]. rewrite Hl, Hf.
  apply take_limit_min.
Qed.

(** *** Conditions of a join *)

(** Every conjunct compares a column that one of the sides has. *)
Fixpoint separable (f : FilterExpr) (lc rc : list string) : Prop :=
  match f with
  | FAnd l r => separable l lc rc ∧ separable r lc rc
  | FComparison field _ _ => bare field ∈ lc ∨ bare field ∈ rc
  | _ => False
  end.

Lemma keeps_and_opt cmp env a b :
  keeps_opt cmp env (and_opt a b) ↔ keeps_opt cmp env a ∧ keeps_opt cmp env b.
Proof. destruct a, b; cbn; rewrite ?keeps_and; tauto. Qed.

(** ** Properties of the rewrites *)

(** Pushing the base filter and limit to every source loses nothing: the
    first [n] rows of the concatenated answers are the first [n] rows of what
    the sources hold under the base filter and their own limits. *)
Theorem union_push_down_same_rows {R : Type} cmp (env_of : R → string → ScalarValue)
    base sqs (rows : list (list R)) n :
  limit base = Some n → Forall (λ sq, filter_expr sq = None) sqs →
  take (N.to_nat n)
    (concat (zip_with (source_rows cmp env_of) (push_down_to_sources base sqs) rows)) =
  take (N.to_nat n)
    (concat (zip_with (λ sq rs, take_limit (limit sq)
                                  (filter (λ r, keeps_opt cmp (env_of r) (filter_expr base)) rs))
               sqs rows)).
Proof.
  intros Hl Hsqs. apply take_concat_take. revert rows.
  induction Hsqs as [|sq sqs Hf _ IH]; intros [|r rows]; try constructor; [|apply IH].
  exists (N.to_nat n). left. split; [done|]. by apply push_down_source.
Qed.

(** Tightening LIMIT and OFFSET to one fetch limit keeps the page: applying
    the offset and the limit to the fetched prefix gives the rows they give on
    the whole result, also when the sum saturates. *)
Theorem merged_limit_same_page {R : Type} sq (rows : list R) l o :
  limit sq = Some l → offset sq = Some o → (N.of_nat (length rows) ≤ u64_max)%N →
  offset (merge_adjacent_limits sq) = None ∧
  take (N.to_nat l) (drop (N.to_nat o) (take_limit (limit (merge_adjacent_limits sq)) rows)) =
  take (N.to_nat l) (drop (N.to_nat o) rows).
Proof.
  intros Hl Ho Hlen. unfold merge_adjacent_limits. rewrite Hl, Ho. split; [done|].
  cbn [limit with_limit_offset take_limit]. unfold saturating_add.
  destruct (N.le_ge_cases (l + o) u64_max) as [Hle|Hge].
  - rewrite N.min_l by done. rewrite skipn_firstn_comm, take_take. f_equal. lia.
  - rewrite N.min_r by done. rewrite (take_ge rows) by lia. done.
Qed.

(** A join condition whose conjuncts each compare a column of one side is
    split so that each part can be decided on that side alone: a joined row
    satisfies the condition exactly when its left row passes the left part and
    its right row passes the right part. *)
Theorem split_join_filters_separates cmp (env envL envR : string → ScalarValue) f lc rc :
  separable f lc rc →
  (∀ x, bare x ∈ lc → envL x = env x) →
  (∀ x, bare x ∉ lc → bare x ∈ rc → envR x = env x) →
  let '(l, r) := split_join_filters f lc rc in
  keeps cmp env f ↔ keeps_opt cmp envL l ∧ keeps_opt cmp envR r.
Proof.
  intros Hs HL HR. induction f as [a IHa b IHb| | |x op v| | |]; try done.
  - destruct Hs as [Ha Hb]. specialize (IHa Ha). specialize (IHb Hb). cbn [split_join_filters].
    destruct (split_join_filters a lc rc) as [la ra], (split_join_filters b lc rc) as [lb rb].
    rewrite keeps_and, !keeps_and_opt. tauto.
  - cbn [split_join_filters]. destruct (decide (bare x ∈ lc)) as [Hx|Hx].
    + unfold keeps_opt, keeps. cbn [eval_filter]. rewrite (HL x Hx). tauto.
    + destruct Hs as [?|Hr]; [done|]. rewrite decide_True by done.
      unfold keeps_opt, keeps. cbn [eval_filter]. rewrite (HR x Hx Hr). tauto.
Qed.

(** A disjunction over columns of both sides is pushed to both, and a side
    that does not have the other's column drops rows of the join: the right row
    of a joined row that satisfies [a OR b] through its left column [a] fails. *)
Theorem split_join_or_loses_rows cmp (env envR : string → ScalarValue) a opa va b opb vb lc rc :
  let f := FOr (FComparison a opa va) (FComparison b opb vb) in
  eval_filter cmp env (FComparison a opa va) = Some true →
  eval_filter cmp env (FComparison b opb vb) = Some false →
  envR a = Null → envR b = env b →
  keeps cmp env f ∧ ∃ g, snd (split_join_filters f lc rc) = Some g ∧ ¬ keeps cmp envR g.
Proof.
  intros f Ha Hb HRa HRb. unfold keeps, f. cbn [eval_filter] in *. split.
  - by rewrite Ha.
  - eexists. split; [done|]. cbn [eval_filter]. rewrite HRa, HRb, Hb. cbn. done.
Qed.

(** ** Witnesses *)

Definition ex_base (f : option FilterExpr) (l o : option N) : SubQuery :=
  mkSubQuery "" [] f [] [] None [] l o None.
Definition ex_env (r : Z) (x : string) : ScalarValue := SInt64 r.
Definition ex_eq (op : ComparisonOp) (x y : ScalarValue) : bool := bool_decide (x = y).
Definition ex_seven : FilterExpr := FComparison "x" OpEq (SInt64 7).

Lemma union_push_down_same_rows_witness :
  take 2 (concat (zip_with (source_rows ex_eq ex_env)
            (push_down_to_sources (ex_base (Some ex_seven) (Some 2%N) None)
               [ex_base None None None; ex_base None (Some 5%N) None])
            [[1; 7; 2]; [7; 7; 7]]%Z)) = [7; 7]%Z.
Proof.
  etrans; [exact (union_push_down_same_rows ex_eq ex_env (ex_base (Some ex_seven) (Some 2%N) None)
            [ex_base None None None; ex_base None (Some 5%N) None] [[1; 7; 2]; [7; 7; 7]]%Z 2%N
            eq_refl ltac:(repeat constructor))|].
  vm_compute. reflexivity.
Defined.

Lemma merged_limit_same_page_witness :
  take 2 (drop 1 (take_limit (limit (merge_adjacent_limits (ex_base None (Some 2%N) (Some 1%N))))
            [1; 2; 3; 4; 5]%Z)) = [2; 3]%Z.
Proof.
  refine (proj2 (merged_limit_same_page (ex_base None (Some 2%N) (Some 1%N)) [1; 2; 3; 4; 5]%Z
            2%N 1%N eq_refl eq_refl _)).
  vm_compute. discriminate.
Defined.

Definition ex_joined (x : string) : ScalarValue :=
  if decide (x = "l.a") then SInt64 1 else if decide (x = "b") then SInt64 2 else Null.

Lemma split_join_filters_separates_witness :
  let f := FAnd (FComparison "l.a" OpEq (SInt64 1)) (FComparison "b" OpEq (SInt64 2)) in
  split_join_filters f ["a"] ["b"] =
    (Some (FComparison "l.a" OpEq (SInt64 1)), Some (FComparison "b" OpEq (SInt64 2))) ∧
  (keeps ex_eq ex_joined f ↔
   keeps ex_eq ex_joined (FComparison "l.a" OpEq (SInt64 1)) ∧
   keeps ex_eq ex_joined (FComparison "b" OpEq (SInt64 2))).
Proof.
  split; [reflexivity|].
  refine (split_join_filters_separates ex_eq ex_joined ex_joined ex_joined
    (FAnd (FComparison "l.a" OpEq (SInt64 1)) (FComparison "b" OpEq (SInt64 2))) ["a"] ["b"] _ _ _).
  - split; refine (bool_decide_unpack _ _); vm_compute; exact I.
  - done.
  - done.
Defined.

Lemma split_join_or_loses_rows_witness :
  let f := FOr (FComparison "l.a" OpEq (SInt64 1)) (FComparison "b" OpEq (SInt64 9)) in
  keeps ex_eq ex_joined f ∧
  ∃ g, snd (split_join_filters f ["a"] ["b"]) = Some g ∧
       ¬ keeps ex_eq (λ x, if decide (x = "b") then SInt64 2 else Null) g.
Proof.
  apply (split_join_or_loses_rows ex_eq ex_joined
           (λ x, if decide (x = "b") then SInt64 2 else Null)
           "l.a" OpEq (SInt64 1) "b" OpEq (SInt64 9) ["a"] ["b"]); reflexivity.
Defined.
