(* ===== verification/LogicalPlan.v ===== *)
(** * LogicalPlan: the logical plans of the core crate

    Models [fuse-core]'s [optimizer.rs] (reordering of an operation list),
    [plan_builder.rs] and [plan_rules.rs] (plan trees and rules),
    [limit_pushdown.rs] (integer part), [pushdown.rs] (negotiation with a
    connector) and [predicate.rs] (predicates and their SQL). *)

From S2P Require Import Prelude Strs Arrow Connector.
From stdpp Require Import base list strings sets.
From Stdlib Require Import NArith Lia Ascii.

(** ** Reordering a list of operations ([optimizer.rs]) *)

Inductive LogicalOp : Type :=
| OpScan (datasource table : string)
| OpFilter (predicate : string)
| OpProject (columns : list string)
| OpSort (columns : list string)
| OpLimit (count : N)
| OpJoin (join_type : string)
| OpAggregate (group_by : list string).

Definition is_filter (op : LogicalOp) : bool := match op with OpFilter _ => true | _ => false end.
Definition is_scan (op : LogicalOp) : bool := match op with OpScan _ _ => true | _ => false end.
Definition is_barrier (op : LogicalOp) : bool :=
  match op with OpJoin _ | OpAggregate _ => true | _ => false end.

(** [vec.insert(i, x)], for [i] within the vector. *)
Definition vec_insert {A : Type} (i : nat) (x : A) (l : list A) : list A := take i l ++ x :: drop i l.

(** The second loop: [result], the filters not yet placed, and the flag. *)
Definition place_step (acc : list LogicalOp * list LogicalOp * bool) (op : LogicalOp) :
    list LogicalOp * list LogicalOp * bool :=
  let '(result, filters, placed) := acc in
  if negb placed && is_barrier op then (result ++ filters ++ [op], [], true)
  else (result ++ [op], filters, placed).

Definition optimize_ops (ops : list LogicalOp) : list LogicalOp :=
  let filters := filter (λ op, is_filter op = true) ops in
  let others := filter (λ op, is_filter op = false) ops in
  let '(result, filters, _) := foldl place_step ([], filters, false) others in
  match filters with
  | [] => result
  | _ =>
      let scan_end := default (length result) (position (λ op, negb (is_scan op)) result) in
      foldl (λ res '(i, f), vec_insert (scan_end + i) f res) result (enumerate filters)
  end.

(** ** Plan trees ([plan_builder.rs], [plan_rules.rs]) *)

Inductive PlanOp : Type :=
| Scan (datasource table : string)
| Filter (input : PlanOp) (predicate : string)
| Project (input : PlanOp) (columns : list string)
| Sort (input : PlanOp) (keys : list (string * bool))
| Limit (input : PlanOp) (count : N).

Record OptRule : Type := mkRule { rule_name : string; rule_apply : PlanOp → PlanOp }.

Definition apply_rules (plan : PlanOp) (rules : list OptRule) : PlanOp :=
  foldl (λ plan rule, rule_apply rule plan) plan rules.

Fixpoint eliminate_max_limit (op : PlanOp) : PlanOp :=
  match op with
  | Limit input count =>
      if decide (count = u64_max) then input else Limit (eliminate_max_limit input) count
  | Filter input predicate => Filter (eliminate_max_limit input) predicate
  | Project input columns => Project (eliminate_max_limit input) columns
  | Sort input keys => Sort (eliminate_max_limit input) keys
  | Scan _ _ => op
  end.
Definition EliminateMaxLimit : OptRule := mkRule "eliminate_max_limit" eliminate_max_limit.

(** ** Predicates ([predicate.rs]) *)

Inductive Predicate : Type :=
| PEq (field value : string)
| PGt (field value : string)
| PLt (field value : string)
| PLike (field pattern : string)
| PIn (field : string) (vals : list string)
| PAnd (preds : list Predicate)
| POr (preds : list Predicate)
| PNot (pred : Predicate).

(** A quote in a literal is doubled. *)
Definition escape (s : string) : string := replace "'" "''" s.
Definition quoted (s : string) : string := "'" +:+ s +:+ "'".
Definition parens (s : string) : string := "(" +:+ s +:+ ")".

Fixpoint to_sql (p : Predicate) : string :=
  match p with
  | PEq field value => field +:+ " = " +:+ quoted (escape value)
  | PGt field value => field +:+ " > " +:+ quoted value
  | PLt field value => field +:+ " < " +:+ quoted value
  | PLike field pattern => field +:+ " LIKE " +:+ quoted pattern
  | PIn field vals =>
      field +:+ " IN (" +:+ join_with ", " ((λ v, quoted (escape v)) <$> vals) +:+ ")"
  | PAnd preds => join_with " AND " ((λ p, parens (to_sql p)) <$> preds)
  | POr preds => join_with " OR " ((λ p, parens (to_sql p)) <$> preds)
  | PNot pred => "NOT (" +:+ to_sql pred +:+ ")"
  end.

(** The builder: each call wraps the current operation. *)
Definition scan (datasource table : string) : PlanOp := Scan datasource table.
Definition filter_plan (pred : Predicate) (current : PlanOp) : PlanOp := Filter current (to_sql pred).
Definition project (columns : list string) (current : PlanOp) : PlanOp := Project current columns.
Definition sort_plan (key : string) (desc : bool) (current : PlanOp) : PlanOp :=
  Sort current [(key, desc)].
Definition limit_plan (count : N) (current : PlanOp) : PlanOp := Limit current count.

(** ** Fetch limits ([limit_pushdown.rs]) *)

Definition union_fetch_limit (global_limit : N) (source_count : nat) : N := global_limit.
Definition offset_fetch_limit (limit offset : N) : N := saturating_add limit offset.

(** ** Negotiation ([pushdown.rs]) *)

Record PushdownPlan : Type := mkPushdown {
  filter_pushdown : bool; projection_pushdown : bool; aggregation_pushdown : bool;
  sort_pushdown : bool; limit_pushdown : bool; local_operations : list string;
}.

Definition local_if (needs pushed : bool) (op : string) : list string :=
  if needs && negb pushed then [op] else [].

Definition negotiate (caps : ConnectorCapabilities)
    (needs_filter needs_projection needs_aggregation needs_sort needs_limit : bool) : PushdownPlan :=
  let filter_pd := needs_filter && supports_filtering caps in
  let proj_pd := needs_projection && supports_projection caps in
  let agg_pd := needs_aggregation && supports_aggregation caps in
  let sort_pd := needs_sort && supports_sorting caps in
  let limit_pd := needs_limit && supports_limit caps in
  mkPushdown filter_pd proj_pd agg_pd sort_pd limit_pd
    (local_if needs_filter filter_pd "filter" ++ local_if needs_projection proj_pd "projection" ++
     local_if needs_aggregation agg_pd "aggregation" ++ local_if needs_sort sort_pd "sort" ++
     local_if needs_limit limit_pd "limit").

(** ** Facts about the reordering *)

Lemma vec_insert_app {A : Type} (l k : list A) x : vec_insert (length l) x (l ++ k) = l ++ x :: k.
Proof. unfold vec_insert. by rewrite take_app_length, drop_app_length. Qed.

(** Inserting a list element by element at consecutive positions. *)
Lemma insert_run {A : Type} (fs : list A) i (l k : list A) s :
  length l = s + i →
  foldl (λ res '(j, f), vec_insert (s + j) f res) (l ++ k) (enumerate_from i fs) = l ++ fs ++ k.
Proof.
  revert i l. induction fs as [|f fs IH]; intros i l Hl; [done|]. cbn [enumerate_from foldl].
  rewrite <- Hl, vec_insert_app. change (l ++ f :: k) with (l ++ [f] ++ k).
  rewrite app_assoc, IH by (rewrite length_app; cbn; lia). by rewrite <- app_assoc.
Qed.

Lemma insert_all {A : Type} (fs result : list A) s :
  s ≤ length result →
  foldl (λ res '(i, f), vec_insert (s + i) f res) result (enumerate fs) =
    take s result ++ fs ++ drop s result.
Proof.
  intros Hs. rewrite <- (take_drop s result) at 1.
  apply (insert_run fs 0 (take s result) (drop s result) s). rewrite length_take. lia.
Qed.

Lemma place_placed others : ∀ result,
  foldl place_step (result, [], true) others = (result ++ others, [], true).
Proof.
  induction others as [|op others IH]; intros result; [by rewrite app_nil_r|].
  cbn. by rewrite IH, <- app_assoc.
Qed.

(** Before the first barrier nothing happens; at it all filters are placed. *)
Lemma place_all others : ∀ result filters,
  (Forall (λ op, is_barrier op = false) others ∧
   foldl place_step (result, filters, false) others = (result ++ others, filters, false)) ∨
  (∃ a b c, others = a ++ b :: c ∧ Forall (λ op, is_barrier op = false) a ∧
     foldl place_step (result, filters, false) others =
       (result ++ a ++ filters ++ b :: c, [], true)).
Proof.
  induction others as [|op others IH]; intros result filters; [left; by rewrite app_nil_r|].
  cbn [foldl place_step negb andb]. destruct (is_barrier op) eqn:Hop.
  - right. exists [], op, others. split; [done|]. split; [constructor|].
    rewrite place_placed. cbn. by rewrite <- !app_assoc.
  - destruct (IH (result ++ [op]) filters) as [[Hall Hf]|(a & b & c & -> & Ha & Hf)].
    + left. split; [by constructor|]. by rewrite Hf, <- app_assoc.
    + right. exists (op :: a), b, c. split; [done|]. split; [by constructor|].
      by rewrite Hf, <- app_assoc.
Qed.

(** The result: the filters go in one block between two parts of the rest, the
    first of which has no join or aggregation. *)
Lemma optimize_ops_shape ops :
  ∃ pre post,
    filter (λ op, is_filter op = false) ops = pre ++ post ∧
    Forall (λ op, is_barrier op = false) pre ∧
    optimize_ops ops = pre ++ filter (λ op, is_filter op = true) ops ++ post.
Proof.
  unfold optimize_ops. set (fs := filter (λ op, is_filter op = true) ops).
  set (os := filter (λ op, is_filter op = false) ops).
  destruct (place_all os [] fs) as [[Hall Hf]|(a & b & c & Hos & Ha & Hf)]; rewrite Hf.
  - cbn [app]. destruct fs as [|f fs'] eqn:Efs.
    + exists os, []. rewrite !app_nil_r. done.
    + set (s := default (length os) (position _ os)).
      assert (s ≤ length os) as Hs.
      { unfold s. destruct (position _ os) as [i|] eqn:Hi; [|done].
        apply position_Some in Hi as (x & Hx & _). apply lookup_lt_Some in Hx. cbn. lia. }
      exists (take s os), (drop s os). split; [by rewrite take_drop|].
      split; [by apply Forall_take|]. by apply insert_all.
  - exists a, (b :: c). done.
Qed.

Lemma filter_filter_bool (b b' : bool) (ops : list LogicalOp) :
  filter (λ op, is_filter op = b) (filter (λ op, is_filter op = b') ops) =
    if bool_decide (b = b') then filter (λ op, is_filter op = b) ops else [].
Proof.
  rewrite list_filter_filter. case_bool_decide as Hb.
  - subst. apply list_filter_iff. naive_solver.
  - rewrite (list_filter_iff _ (λ _, False)); [apply list_filter_none|].
    intros op. split; [intros [? ?]; congruence|done].
Qed.

(** A filter after a limit is moved before it. *)
Lemma optimize_moves_filter_before_limit ds t n p :
  optimize_ops [OpScan ds t; OpLimit n; OpFilter p] = [OpScan ds t; OpFilter p; OpLimit n].
Proof. done. Qed.

(** ** Literals *)

(** Read a SQL string literal: two quotes are one, a single one ends it. *)
Fixpoint read_body (s : string) : option (string * string) :=
  match s with
  | EmptyString => None
  | String a s' =>
      if decide (a = "'"%char) then
        match s' with
        | String b s'' =>
            if decide (b = "'"%char) then (λ '(v, r), (String a v, r)) <$> read_body s''
            else Some (EmptyString, s')
        | EmptyString => Some (EmptyString, EmptyString)
        end
      else (λ '(v, r), (String a v, r)) <$> read_body s'
  end.
Definition read_literal (s : string) : option (string * string) :=
  match s with
  | String a s' => if decide (a = "'"%char) then read_body s' else None
  | EmptyString => None
  end.

Lemma escape_cons a s :
  escape (String a s) = (if decide (a = "'"%char) then "''" else String a "") +:+ escape s.
Proof.
  unfold escape, replace. cbn [replace_go]. unfold starts_with. cbn [String.prefix].
  destruct (Ascii.ascii_dec "'" a) as [<-|Hne].
  - rewrite decide_True by done. by destruct s.
  - rewrite decide_False by congruence. done.
Qed.

Definition no_quote_first (s : string) : Prop :=
  match s with String a _ => a ≠ "'"%char | EmptyString => True end.

Lemma read_body_end rest : no_quote_first rest → read_body (String "'" rest) = Some ("", rest).
Proof.
  intros H. cbn [read_body]. rewrite decide_True by done.
  destruct rest as [|b rest]; [done|]. by rewrite decide_False.
Qed.

Lemma read_body_escape s rest :
  no_quote_first rest → read_body (escape s +:+ String "'" rest) = Some (s, rest).
Proof.
  intros Hrest. induction s as [|a s IH]; [by apply read_body_end|].
  rewrite escape_cons. case_decide as Ha.
  - subst a. change (read_body (("''" +:+ escape s) +:+ String "'" rest))
      with ((λ '(v, r), (String "'" v, r)) <$> read_body (escape s +:+ String "'" rest)).
    by rewrite IH.
  - change ((String a "" +:+ escape s) +:+ String "'" rest)
      with (String a (escape s +:+ String "'" rest)). cbn [read_body].
    rewrite decide_False by done. by rewrite IH.
Qed.

Lemma read_quoted_escape s rest :
  no_quote_first rest → read_literal (quoted (escape s) +:+ rest) = Some (s, rest).
Proof.
  intros Hrest. unfold quoted.
  replace (("'" +:+ escape s +:+ "'") +:+ rest) with (String "'" (escape s +:+ String "'" rest))
    by (rewrite <- !str_app_assoc; done).
  by apply read_body_escape.
Qed.

(** A greater-than literal is not escaped: it ends at the value's own quote. *)
Lemma gt_literal_breaks_out :
  to_sql (PGt "a" "1' OR '1' = '1") = "a > '1' OR '1' = '1'" ∧
  read_literal "'1' OR '1' = '1'" = Some ("1", " OR '1' = '1'").
Proof. done. Qed.

(** ** The meaning of a plan *)

Section PlanRows.
Context {R : Type} (scan_rows : string → string → list R) (holds : string → R → bool)
  (project_row : list string → R → R) (sort_rows : list (string * bool) → list R → list R).

Fixpoint plan_rows (p : PlanOp) : list R :=
  match p with
  | Scan ds t => scan_rows ds t
  | Filter input pred => filter (λ r, holds pred r = true) (plan_rows input)
  | Project input cols => project_row cols <$> plan_rows input
  | Sort input keys => sort_rows keys (plan_rows input)
  | Limit input n => take (N.to_nat n) (plan_rows input)
  end.

Hypothesis scan_fits : ∀ ds t, (N.of_nat (length (scan_rows ds t)) ≤ u64_max)%N.
Hypothesis sort_perm : ∀ ks l, sort_rows ks l ≡ₚ l.

Lemma plan_rows_fit p : (N.of_nat (length (plan_rows p)) ≤ u64_max)%N.
Proof.
  induction p as [ds t|p IH pred|p IH cols|p IH ks|p IH n]; cbn [plan_rows].
  - apply scan_fits.
  - pose proof (length_filter (λ r, holds pred r = true) (plan_rows p)). lia.
  - by rewrite length_fmap.
  - by rewrite sort_perm.
  - rewrite length_take. lia.
Qed.

Lemma eliminate_max_limit_rows p : plan_rows (eliminate_max_limit p) = plan_rows p.
Proof.
  induction p as [ds t|p IH pred|p IH cols|p IH ks|p IH n]; cbn [eliminate_max_limit plan_rows];
    [done|by rewrite IH..|].
  case_decide as Hn; cbn [plan_rows]; [|by rewrite IH].
  pose proof (plan_rows_fit p). rewrite take_ge; [done|lia].
Qed.
End PlanRows.

(** ** Properties of logical plans *)

(** Reordering keeps the operations: the filters and the other operations
    each come in their original order, none is lost or repeated, and every
    filter comes before the first join or aggregation. *)
Theorem optimize_ops_reorders ops :
  filter (λ op, is_filter op = true) (optimize_ops ops) = filter (λ op, is_filter op = true) ops ∧
  filter (λ op, is_filter op = false) (optimize_ops ops) = filter (λ op, is_filter op = false) ops ∧
  ∀ i j f b, optimize_ops ops !! i = Some f → is_filter f = true →
             optimize_ops ops !! j = Some b → is_barrier b = true → i < j.
Proof.
  destruct (optimize_ops_shape ops) as (pre & post & Hothers & Hpre & ->).
  assert (∀ op, op ∈ pre ++ post → is_filter op = false) as Hno.
  { intros op. rewrite <- Hothers. by intros [? _]%list_elem_of_filter. }
  assert (filter (λ op, is_filter op = true) (pre ++ post) = []) as Hnil.
  { rewrite <- Hothers. apply (filter_filter_bool true false). }
  rewrite filter_app in Hnil. apply app_eq_nil in Hnil as [Hnp Hnq]. split_and!.
  - rewrite !filter_app, Hnp, Hnq, app_nil_r. apply (filter_filter_bool true true).
  - rewrite !filter_app, (filter_filter_bool false true), bool_decide_false by done.
    rewrite app_nil_l, <- filter_app, <- Hothers.
    apply (filter_filter_bool false false).
  - intros i j f b Hi Hf Hj Hb.
    assert (length pre ≤ j) as Hpj.
    { destruct (decide (length pre ≤ j)) as [?|Hlt]; [done|].
      rewrite lookup_app_l in Hj by lia. rewrite (Forall_lookup_1 _ _ _ _ Hpre Hj) in Hb. done. }
    set (fs := filter (λ op, is_filter op = true) ops) in *.
    rewrite lookup_app_r in Hj by done.
    assert (length fs ≤ j - length pre).
    { destruct (decide (length fs ≤ j - length pre)) as [?|Hlt]; [done|].
      rewrite lookup_app_l in Hj by lia.
      apply list_elem_of_lookup_2, list_elem_of_filter in Hj as [Hj _]. by destruct b. }
    destruct (decide (i < j)) as [?|Hge]; [done|].
    rewrite lookup_app_r, lookup_app_r in Hi by lia.
    apply list_elem_of_lookup_2 in Hi. rewrite (Hno f) in Hf; [done|].
    apply elem_of_app. by right.
Qed.

(** Every sequence of rules that keep the rows of a plan keeps them, and
    removing limits of [u64::MAX] is such a rule, for tables that a [u64] can
    count and sorts that permute their input. *)
Theorem apply_rules_same_rows {R : Type} (scan_rows : string → string → list R) holds project_row
    sort_rows p rules :
  (∀ ds t, (N.of_nat (length (scan_rows ds t)) ≤ u64_max)%N) →
  (∀ ks l, sort_rows ks l ≡ₚ l) →
  (∀ r, r ∈ rules → r = EliminateMaxLimit ∨
     ∀ q, plan_rows scan_rows holds project_row sort_rows (rule_apply r q) =
          plan_rows scan_rows holds project_row sort_rows q) →
  plan_rows scan_rows holds project_row sort_rows (apply_rules p rules) =
  plan_rows scan_rows holds project_row sort_rows p.
Proof.
  intros Hscan Hsort. unfold apply_rules. revert p.
  induction rules as [|r rules IH]; intros p Hr; [done|]. cbn [foldl].
  rewrite IH by (intros; apply Hr; set_solver).
  destruct (Hr r) as [->|H]; [set_solver| |apply H].
  by apply eliminate_max_limit_rows.
Qed.

(** The literals of equality and IN predicates survive their SQL: a reader
    of SQL string literals gets back the value, quotes included, whatever
    follows. *)
Theorem predicate_literals_read_back field value vals rest :
  no_quote_first rest →
  (∃ sql, to_sql (PEq field value) +:+ rest = field +:+ " = " +:+ sql ∧
          read_literal sql = Some (value, rest)) ∧
  ∃ lits, to_sql (PIn field vals) = field +:+ " IN (" +:+ join_with ", " lits +:+ ")" ∧
    Forall2 (λ v lit, ∀ tail, no_quote_first tail → read_literal (lit +:+ tail) = Some (v, tail))
      vals lits.
Proof.
  intros Hrest. split.
  - exists (quoted (escape value) +:+ rest). split; [|by apply read_quoted_escape].
    cbn [to_sql]. by rewrite <- !str_app_assoc.
  - exists ((λ v, quoted (escape v)) <$> vals). split; [done|].
    induction vals as [|v vals IH]; [constructor|]. cbn. constructor; [|done].
    intros tail. by apply read_quoted_escape.
Qed.

(** ** Witnesses *)

Lemma apply_rules_same_rows_witness :
  apply_rules (Limit (Filter (Scan "d" "t") "p") u64_max) [EliminateMaxLimit] =
    Filter (Scan "d" "t") "p" ∧
  plan_rows (λ _ _, [1; 2; 3]) (λ _ r, 1 <? r) (λ _ r, r) (λ _ l, l)
    (apply_rules (Limit (Filter (Scan "d" "t") "p") u64_max) [EliminateMaxLimit]) = [2; 3].
Proof.
  split; [reflexivity|].
  etrans; [apply (apply_rules_same_rows (λ _ _, [1; 2; 3]) (λ _ r, 1 <? r) (λ _ r, r) (λ _ l, l)
    (Limit (Filter (Scan "d" "t") "p") u64_max) [EliminateMaxLimit])|].
  - intros _ _. vm_compute. discriminate.
  - done.
  - intros r Hr. left. by apply list_elem_of_singleton in Hr.
  - cbn [plan_rows]. rewrite take_ge; [reflexivity|].
    etrans; [apply length_filter|]. change (length [1; 2; 3]) with 3. unfold u64_max. lia.
Defined.

Lemma predicate_literals_read_back_witness :
  to_sql (PEq "name" "O'Brien") = "name = 'O''Brien'" ∧
  ∃ sql, to_sql (PEq "name" "O'Brien") +:+ " AND" = "name" +:+ " = " +:+ sql ∧
         read_literal sql = Some ("O'Brien", " AND").
Proof.
  split; [reflexivity|].
  refine (proj1 (predicate_literals_read_back "name" "O'Brien" [] " AND" _)). done.
Defined.
