(* ===== verification/Cost.v ===== *)
(** * Cost: cost estimates, join planning and plan trees

    Models [crates/fuse-engine/src/cost.rs], the planning part of
    [crates/fuse-engine/src/join.rs] and [crates/fuse-engine/src/plan.rs].
    Costs are the binary64 numbers of the file [Float]; the natural logarithm
    and the one-decimal rendering of a float are parameters. *)

From S2P Require Import Prelude Strs Float Arrow Connector Rewrite.
From stdpp Require Import base list strings pretty sets.
From Stdlib Require Import NArith ZArith Lia SpecFloat.

(** ** Constants *)

Definition f_0_001 : f64 := S754_finite false 4611686018427388 (-62).
Definition f_0_01 : f64 := S754_finite false 5764607523034235 (-59).
Definition f_0_02 : f64 := S754_finite false 5764607523034235 (-58).
Definition f_0_05 : f64 := S754_finite false 7205759403792794 (-57).
Definition f_0_1 : f64 := S754_finite false 7205759403792794 (-56).
Definition f_1 : f64 := f64_of_N 1.
Definition f_3 : f64 := f64_of_N 3.
Definition f_10 : f64 := f64_of_N 10.

(** ** Estimates ([cost.rs]) *)

Record CostEstimate : Type := mkCost { cpu : f64; network : f64; total : f64 }.
Definition cost_new (cpu network : f64) : CostEstimate := mkCost cpu network (fadd cpu network).
Definition cost_zero : CostEstimate := cost_new f_zero f_zero.

Record TableStats : Type := mkTableStats { estimated_rows : N; avg_row_bytes : N }.
Definition default_stats : TableStats := mkTableStats 10000 256.

Record QueryWorkload : Type := mkWorkload {
  has_filter : bool; has_aggregation : bool; has_sort : bool; has_limit : bool;
  limit_value : option N; projection_count : N; total_columns : N; is_cached : bool;
}.
Definition default_workload : QueryWorkload :=
  mkWorkload false false false false None 0 0 false.

Definition CACHE_HIT_COST : f64 := f_0_001.
Definition FILTER_SELECTIVITY : f64 := f_0_1.
Definition AGG_REDUCTION : f64 := f_0_01.

Definition latency_multiplier (c : LatencyClass) : f64 :=
  match c with Low => f_1 | Medium => f_3 | High => f_10 end.

(** Rows the connector returns after the work it does itself. *)
Definition remote_rows (caps : ConnectorCapabilities) (stats : TableStats) (w : QueryWorkload) : f64 :=
  let rows := f64_of_N (estimated_rows stats) in
  let rows := if has_filter w && supports_filtering caps then fmul rows FILTER_SELECTIVITY else rows in
  let rows := if has_aggregation w && supports_aggregation caps
              then fmul rows AGG_REDUCTION else rows in
  match limit_value w with
  | Some limit => if supports_limit caps then fmin rows (f64_of_N limit) else rows
  | None => rows
  end.

Definition col_ratio (w : QueryWorkload) : f64 :=
  if ((0 <? projection_count w) && (0 <? total_columns w))%N
  then fdiv (f64_of_N (projection_count w)) (f64_of_N (total_columns w))
  else f_1.

Definition estimate_remote_cost (caps : ConnectorCapabilities) (stats : TableStats)
    (w : QueryWorkload) : CostEstimate :=
  if is_cached w then cost_new CACHE_HIT_COST f_zero
  else
    let latency := latency_multiplier (latency_class caps) in
    let row_bytes := fmul (f64_of_N (avg_row_bytes stats)) (col_ratio w) in
    cost_new (fmul latency f_10)
      (fmul (fmul (fmul (remote_rows caps stats w) row_bytes) latency) f_0_001).

Section WithLn.
Context (ln : f64 → f64).

Definition estimate_local_cost (caps : ConnectorCapabilities) (stats : TableStats)
    (w : QueryWorkload) : CostEstimate :=
  if is_cached w then cost_new CACHE_HIT_COST f_zero
  else
    let latency := latency_multiplier (latency_class caps) in
    let rows := f64_of_N (estimated_rows stats) in
    let rows := if has_filter w && supports_filtering caps
                then fmul rows FILTER_SELECTIVITY else rows in
    let network := fmul (fmul (fmul rows (f64_of_N (avg_row_bytes stats))) latency) f_0_001 in
    let cpu := fmul rows f_0_01 in
    let cpu := if has_aggregation w then fadd cpu (fmul rows f_0_05) else cpu in
    let cpu := if has_sort w then fadd cpu (fmul (fmul rows (ln (fmax rows f_1))) f_0_02) else cpu in
    cost_new cpu network.

Definition should_push_down (caps : ConnectorCapabilities) (stats : TableStats)
    (w : QueryWorkload) : bool :=
  if has_aggregation w && negb (supports_aggregation caps) then false
  else if has_sort w && negb (supports_sorting caps) then false
  else SFleb (total (estimate_remote_cost caps stats w)) (total (estimate_local_cost caps stats w)).
End WithLn.

(** [a.partial_cmp(&b).unwrap_or(Ordering::Equal)]. *)
Definition cmp_cost (a b : f64) : comparison := default Eq (SFcompare a b).

(** [iter.min_by(cmp)]: of equal elements the first is kept. *)
Definition min_step {A : Type} (cmp : A → A → comparison) (best x : A) : A :=
  match cmp best x with Gt => x | _ => best end.
Definition min_by {A : Type} (cmp : A → A → comparison) (l : list A) : option A :=
  match l with [] => None | x :: l => Some (foldl (min_step cmp) x l) end.

Definition pick_cheapest_connector (candidates : list (ConnectorCapabilities * TableStats))
    (w : QueryWorkload) : option nat :=
  fst <$> min_by (λ a b, cmp_cost (snd a) (snd b))
            ((λ '(i, (caps, stats)), (i, total (estimate_remote_cost caps stats w)))
               <$> enumerate candidates).

(** ** Join planning ([join.rs]) *)

Inductive JoinStrategy : Type := HashStrategy | SemiStrategy.
Inductive JoinSide : Type := LeftSide | RightSide.
Record JoinPlan : Type := mkJoinPlan {
  build_side : JoinSide; strategy : JoinStrategy; join_cost : CostEstimate;
}.
Definition SEMI_JOIN_KEY_THRESHOLD : N := 10000.

Definition plan_join (left_caps : ConnectorCapabilities) (left_stats : TableStats)
    (right_caps : ConnectorCapabilities) (right_stats : TableStats) (w : QueryWorkload) : JoinPlan :=
  let left_cost := estimate_remote_cost left_caps left_stats w in
  let right_cost := estimate_remote_cost right_caps right_stats w in
  let '(build_side, build_rows) :=
    if (estimated_rows left_stats <=? estimated_rows right_stats)%N
    then (LeftSide, estimated_rows left_stats) else (RightSide, estimated_rows right_stats) in
  mkJoinPlan build_side
    (if (build_rows <=? SEMI_JOIN_KEY_THRESHOLD)%N then SemiStrategy else HashStrategy)
    (cost_new (fadd (cpu left_cost) (cpu right_cost)) (fadd (network left_cost) (network right_cost))).

(** ** Plan trees ([plan.rs]) *)

Inductive PlanNode : Type :=
| mkNode (op : string) (detail : option string) (est_rows : option N) (est_cost : option f64)
    (children : list PlanNode).

Definition node_op (n : PlanNode) : string := let '(mkNode op _ _ _ _) := n in op.
Definition node_rows (n : PlanNode) : option N := let '(mkNode _ _ r _ _) := n in r.
Definition node_children (n : PlanNode) : list PlanNode := let '(mkNode _ _ _ _ c) := n in c.

Definition leaf (op detail : string) : PlanNode := mkNode op (Some detail) None None [].
Definition with_children (op : string) (children : list PlanNode) : PlanNode :=
  mkNode op None None None children.

Definition newline : string := String (Ascii.ascii_of_nat 10) "".

Section Render.
(** [format!("{:.1}", c)]. *)
Context (show_cost : f64 → string).

(** The operator with its annotations. *)
Definition node_label (op : string) (detail : option string) (r : option N) (c : option f64) : string :=
  op +:+ from_option (λ d, " [" +:+ d +:+ "]") "" detail
     +:+ from_option (λ r : N, " (est. " +:+ pretty r +:+ " rows)") "" r
     +:+ from_option (λ c, " (cost: " +:+ show_cost c +:+ ")") "" c.

Fixpoint str_repeat (n : nat) (s : string) : string :=
  match n with 0 => "" | S n => s +:+ str_repeat n s end.

Fixpoint to_text (n : PlanNode) (indent : nat) : string :=
  let '(mkNode op d r c children) := n in
  join_with newline
    ((str_repeat indent "  " +:+ node_label op d r c) ::
     ((λ child, to_text child (S indent)) <$> children)).

Definition branch (prefix : string) (is_last : bool) : string :=
  if decide (prefix = "") then "" else if is_last then "└── " else "├── ".
Definition child_prefix (prefix : string) (is_last : bool) : string :=
  if decide (prefix = "") then "" else if is_last then prefix +:+ "    " else prefix +:+ "│   ".

(** What [render] appends to its output buffer. *)
Fixpoint render (n : PlanNode) (prefix : string) (is_last : bool) : string :=
  let '(mkNode op d r c children) := n in
  prefix +:+ branch prefix is_last +:+ node_label op d r c +:+ newline +:+
  (fix go (l : list PlanNode) : string :=
     match l with
     | [] => ""
     | child :: rest =>
         render child (child_prefix prefix is_last) (bool_decide (rest = [])) +:+ go rest
     end) children.
Definition to_tree (n : PlanNode) : string := render n "" true.
End Render.

Definition pushed_ops (caps : ConnectorCapabilities) (w : QueryWorkload) : list string :=
  let d := apply_connector_pushdown caps in
  (if has_filter w && push_filters d then ["filter"] else []) ++
  (if has_aggregation w && push_aggregations d then ["aggregation"] else []) ++
  (if has_sort w && push_sort d then ["sort"] else []) ++
  (if has_limit w && push_limit d then ["limit"] else []).

Definition plan_single (datasource table : string) (caps : ConnectorCapabilities)
    (w : QueryWorkload) : PlanNode :=
  let pushed := pushed_ops caps w in
  let push_detail := match pushed with
                     | [] => "no pushdown"
                     | _ => "pushdown: " +:+ join_with ", " pushed
                     end in
  mkNode "RemoteScan" (Some (datasource +:+ "." +:+ table +:+ " (" +:+ push_detail +:+ ")"))
    (Some (estimated_rows default_stats)) (Some (total (estimate_remote_cost caps default_stats w))) [].

Definition sum_rows (nodes : list PlanNode) : N := foldr N.add 0%N (omap node_rows nodes).

Definition plan_union (refs : list (string * string)) (caps : list ConnectorCapabilities)
    (w : QueryWorkload) (limit : option N) : PlanNode :=
  let children := zip_with (λ '(ds, tbl) c, plan_single ds tbl c w) refs caps in
  let total_est := sum_rows children in
  let merge := mkNode "UnionAll" None (Some total_est) None children in
  match limit with
  | Some n => mkNode "GlobalLimit" (Some ("limit " +:+ pretty n)) (Some (N.min total_est n)) None [merge]
  | None => merge
  end.

Definition plan_join_node (left right : string * string) (left_caps right_caps : ConnectorCapabilities)
    (join_key : string) : PlanNode :=
  let left_scan := plan_single (fst left) (snd left) left_caps default_workload in
  let right_scan := plan_single (fst right) (snd right) right_caps default_workload in
  let left_rows := default 10000%N (node_rows left_scan) in
  let right_rows := default 10000%N (node_rows right_scan) in
  mkNode (if (N.min left_rows right_rows <=? 10000)%N then "SemiJoin" else "HashJoin")
    (Some ("on " +:+ join_key)) (Some (N.min left_rows right_rows)) None [left_scan; right_scan].

(** ** The minimum *)

Section Argmin.
Context {A : Type} (cmp : A → A → comparison) (rank : A → Z * Z * Z).

Lemma min_by_snoc l x m :
  min_by cmp l = Some m → min_by cmp (l ++ [x]) = Some (min_step cmp m x).
Proof. destruct l as [|y l]; [done|]. cbn. intros [= <-]. by rewrite foldl_snoc. Qed.

(** The first of the smallest elements. *)
Definition first_min (l : list A) (m : A) : Prop :=
  ∃ i, l !! i = Some m ∧
    (∀ j x, l !! j = Some x → rank_compare (rank m) (rank x) ≠ Gt) ∧
    (∀ j x, j < i → l !! j = Some x → rank_compare (rank m) (rank x) = Lt).

Lemma rank_lt_le x y z :
  rank_compare (rank y) (rank x) = Gt → rank_compare (rank y) (rank z) ≠ Gt →
  rank_compare (rank x) (rank z) = Lt.
Proof.
  intros Hyx Hyz. destruct (rank_compare (rank x) (rank z)) eqn:E; [|done|]; exfalso;
    assert (rank_compare (rank z) (rank x) ≠ Gt)
      by (rewrite rank_compare_antisym, E; done);
    apply (rank_compare_trans (rank y) (rank z) (rank x)); done.
Qed.

Lemma min_by_first l :
  (∀ x y, x ∈ l → y ∈ l → cmp x y = rank_compare (rank x) (rank y)) → l ≠ [] →
  ∃ m, min_by cmp l = Some m ∧ first_min l m.
Proof.
  induction l as [|y l IH] using rev_ind; intros Hcmp Hne; [done|]. clear Hne.
  destruct (decide (l = [])) as [->|Hl].
  - exists y. split; [done|]. exists 0. split; [done|].
    split; [intros [|j] x [= <-]|lia]. pose proof (rank_compare_antisym (rank y) (rank y)).
    by destruct (rank_compare (rank y) (rank y)).
  - destruct IH as (m & Hm & i & Hi & Hle & Hlt); [set_solver|done|].
    exists (min_step cmp m y). split; [by apply min_by_snoc|].
    assert (m ∈ l) as Hin by by eapply list_elem_of_lookup_2.
    unfold min_step. rewrite Hcmp by set_solver.
    destruct (rank_compare (rank m) (rank y)) eqn:E.
    3: { exists (length l). split; [by rewrite lookup_app_r, Nat.sub_diag|]. split.
      - intros j x [Hj|[_ Hj]]%lookup_app_Some.
        + rewrite (rank_lt_le y m x) by eauto. done.
        + apply list_lookup_singleton_Some in Hj as [_ <-].
          pose proof (rank_compare_antisym (rank y) (rank y)).
          by destruct (rank_compare (rank y) (rank y)).
      - intros j x Hj Hx. rewrite lookup_app_l in Hx by done. apply (rank_lt_le y m x); eauto. }
    all: exists i; split; [by apply lookup_app_l_Some|]; split;
      [intros j x [Hj|[_ Hj]]%lookup_app_Some;
         [eauto|apply list_lookup_singleton_Some in Hj as [_ <-]; by rewrite E]
      |intros j x Hj Hx; apply lookup_lt_Some in Hi; rewrite lookup_app_l in Hx by lia; eauto].
Qed.
End Argmin.

(** ** Plan trees *)

Lemma PlanNode_nested_ind (P : PlanNode → Prop) :
  (∀ op d r c children, Forall P children → P (mkNode op d r c children)) → ∀ n, P n.
Proof.
  intros H. fix IH 1. intros [op d r c children]. apply H.
  induction children as [|n l IHl]; constructor; [apply IH|exact IHl].
Qed.

(** The labels of a tree in preorder. *)
Fixpoint labels (show_cost : f64 → string) (n : PlanNode) : list string :=
  let '(mkNode op d r c children) := n in
  node_label show_cost op d r c :: concat (labels show_cost <$> children).

Definition lines (ls : list string) : string := foldr (λ l s, l +:+ newline +:+ s) "" ls.

Lemma lines_app l k : lines (l ++ k) = lines l +:+ lines k.
Proof.
  induction l as [|x l IH]; [done|]. cbn [app lines foldr] in *. unfold lines in IH.
  by rewrite IH, <- !str_app_assoc.
Qed.

Lemma render_flat show_cost n b : render show_cost n "" b = lines (labels show_cost n).
Proof.
  revert b. induction n as [op d r c children IH] using PlanNode_nested_ind. intros b.
  cbn [render labels]. change (lines (?x :: ?l)) with (x +:+ newline +:+ lines l).
  change (branch "" b) with "". change ("" +:+ "" +:+ ?x) with x. do 2 f_equal.
  change (child_prefix "" b) with "".
  induction IH as [|n l Hn _ IHl]; [done|].
  rewrite Hn, IHl, fmap_cons. cbn [concat]. by rewrite lines_app.
Qed.

Lemma plan_join_always_semi left right lc rc key :
  node_op (plan_join_node left right lc rc key) = "SemiJoin".
Proof. done. Qed.

(** ** Properties of planning *)

(** Among the candidates for a table the chosen connector has the smallest
    estimated remote cost, and it is the first one with that cost; no candidate,
    no choice. *)
Theorem pick_cheapest_is_first_minimum candidates w :
  Forall (λ cs, total (estimate_remote_cost (fst cs) (snd cs) w) ≠ S754_nan) candidates →
  match pick_cheapest_connector candidates w with
  | None => candidates = []
  | Some i => ∃ ci, candidates !! i = Some ci ∧
      ∀ j cj, candidates !! j = Some cj →
        let cost x := total (estimate_remote_cost (fst x) (snd x) w) in
        SFleb (cost ci) (cost cj) = true ∧ (j < i → SFltb (cost ci) (cost cj) = true)
  end.
Proof.
  intros Hnan. unfold pick_cheapest_connector.
  set (f := λ '(i, (caps, stats)), (i, total (estimate_remote_cost caps stats w))).
  destruct (decide (candidates = [])) as [->|Hne]; [done|].
  assert (∀ j cj, candidates !! j = Some cj →
    (f <$> enumerate candidates) !! j = Some (j, total (estimate_remote_cost (fst cj) (snd cj) w)) ∧
    total (estimate_remote_cost (fst cj) (snd cj) w) ≠ S754_nan) as Hget.
  { intros j [c s] Hj. split; [|exact (Forall_lookup_1 _ _ _ _ Hnan Hj)].
    by rewrite list_lookup_fmap, enumerate_lookup, Hj. }
  assert (∀ x, x ∈ f <$> enumerate candidates → snd x ≠ S754_nan ∧ is_Some (candidates !! fst x)) as Hel.
  { intros x [j Hj]%list_elem_of_lookup. rewrite list_lookup_fmap, enumerate_lookup in Hj.
    destruct (candidates !! j) as [[c s]|] eqn:E; [|done]. cbn in Hj. injection Hj as <-.
    destruct (Hget j (c, s) E) as [_ Hn]. cbn. rewrite E. eauto. }
  destruct (min_by_first (λ a b : nat * f64, cmp_cost (snd a) (snd b)) (λ x, float_rank (snd x))
              (f <$> enumerate candidates)) as (m & Hm & i & Hi & Hle & Hlt).
  { intros x y Hx Hy. unfold cmp_cost. destruct (Hel x Hx) as [Hx' _], (Hel y Hy) as [Hy' _].
    by rewrite SFcompare_rank. }
  { destruct candidates as [|[? ?] ?]; done. }
  rewrite Hm. cbn [fmap option_fmap option_map].
  destruct (Hel m (list_elem_of_lookup_2 _ _ _ Hi)) as [Hmn [ci Hci]].
  assert (i = fst m ∧ snd m = total (estimate_remote_cost (fst ci) (snd ci) w)) as [-> Hcost].
  { rewrite list_lookup_fmap, enumerate_lookup in Hi.
    destruct (candidates !! i) as [[c s]|] eqn:E; [|done]. cbn in Hi. injection Hi as <-.
    cbn in Hci. rewrite E in Hci. by injection Hci as <-. }
  exists ci. split; [done|]. intros j cj Hj. destruct (Hget j cj Hj) as [Hj' Hjn].
  unfold SFleb, SFltb. rewrite <- Hcost, SFcompare_rank by done. split.
  - specialize (Hle j _ Hj'). cbn in Hle. by destruct (rank_compare _ _).
  - intros Hji. specialize (Hlt j _ Hji Hj'). cbn in Hlt. by rewrite Hlt.
Qed.

(** The tree rendering of a plan is the list of its node labels in
    preorder, one per line: the prefix of the root is empty and is passed on
    empty, so no node is ever drawn with a branch or an indentation. *)
Theorem to_tree_is_flat show_cost n :
  to_tree show_cost n = lines (labels show_cost n).
Proof. apply render_flat. Qed.

(** ** Witnesses *)

Definition ex_caps (l : LatencyClass) : ConnectorCapabilities := {|
  supports_filtering := true; supports_projection := true; supports_aggregation := true;
  supports_sorting := true; supports_limit := true; supports_join := false;
  max_concurrent_queries := 4; supports_streaming := false; latency_class := l |}.

Lemma pick_cheapest_is_first_minimum_witness :
  pick_cheapest_connector
    [(ex_caps High, default_stats); (ex_caps Low, default_stats); (ex_caps Low, default_stats)]
    default_workload = Some 1 ∧
  SFltb (total (estimate_remote_cost (ex_caps Low) default_stats default_workload))
        (total (estimate_remote_cost (ex_caps High) default_stats default_workload)) = true.
Proof.
  split; [vm_compute; reflexivity|].
  pose proof (pick_cheapest_is_first_minimum
    [(ex_caps High, default_stats); (ex_caps Low, default_stats); (ex_caps Low, default_stats)]
    default_workload ltac:(repeat constructor; vm_compute; discriminate)) as H.
  replace (pick_cheapest_connector _ _) with (Some 1) in H by (vm_compute; reflexivity).
  destruct H as (ci & [= <-] & H).
  exact (proj2 (H 0 (ex_caps High, default_stats) eq_refl) ltac:(lia)).
Defined.
