(* ===== verification/Errors.v ===== *)
(** * Errors: structured error codes

    Models [crates/fuse-core/src/error.rs]: the code constants, the error
    types with their messages, and the code of every error.  The connector
    errors themselves are declared in [Connector]. *)

From S2P Require Import Prelude Strs Arrow Connector.
From stdpp Require Import base list strings pretty.
From Stdlib Require Import NArith Lia.

Record ErrorCode : Type := mkCode { as_u16 : N }.

#[export] Instance ErrorCode_eq_dec : EqDecision ErrorCode.
Proof. solve_decision. Defined.

Definition CONFIG_INVALID := mkCode 1000.
Definition CONFIG_MISSING_FIELD := mkCode 1001.
Definition CONFIG_SECRET_RESOLVE := mkCode 1002.
Definition CONNECTOR_ERROR := mkCode 2000.
Definition REGISTRY_DUPLICATE := mkCode 2001.
Definition REGISTRY_NOT_FOUND := mkCode 2002.
Definition CONNECTOR_QUERY_FAILED := mkCode 2010.
Definition CONNECTOR_SCHEMA_FAILED := mkCode 2011.
Definition CONNECTOR_UNSUPPORTED := mkCode 2012.
Definition CONNECTOR_CHANNEL_CLOSED := mkCode 2013.
Definition PARSE_ERROR := mkCode 3000.
Definition PLAN_ERROR := mkCode 4000.
Definition EXECUTION_ERROR := mkCode 5000.
Definition AUTH_FAILED := mkCode 6000.
Definition AUTH_CONNECTION_FAILED := mkCode 6001.
Definition IO_ERROR := mkCode 7000.
Definition ARROW_ERROR := mkCode 7001.

(** [{:04}]: at least four digits, padded with zeros on the left. *)
Fixpoint zeros (n : nat) : string := match n with 0 => "" | S n => "0" +:+ zeros n end.
Definition pad4 (n : N) : string :=
  let s := pretty n in zeros (4 - String.length s) +:+ s.
Definition code_display (c : ErrorCode) : string := "FUSE-" +:+ pad4 (as_u16 c).

Inductive RegistryError : Type :=
| DuplicateId (id : string)
| NotFound (id : string).

Definition registry_error_display (e : RegistryError) : string :=
  match e with
  | DuplicateId id => "[FUSE-2001] connector with id '" +:+ id +:+ "' already registered"
  | NotFound id => "[FUSE-2002] connector '" +:+ id +:+ "' not found"
  end.

Inductive FuseError : Type :=
| FConnector (code : ErrorCode) (msg : string)
| FRegistry (e : RegistryError)
| FConfig (code : ErrorCode) (msg : string)
| FParse (msg : string)
| FPlan (msg : string)
| FExecution (msg : string)
| FArrow (e : ArrowError)
| FIo (e : string).

Definition fuse_error_display (e : FuseError) : string :=
  match e with
  | FConnector code msg => "[" +:+ code_display code +:+ "] connector error: " +:+ msg
  | FRegistry e => "registry error: " +:+ registry_error_display e
  | FConfig code msg => "[" +:+ code_display code +:+ "] config error: " +:+ msg
  | FParse msg => "[FUSE-3000] query parse error: " +:+ msg
  | FPlan msg => "[FUSE-4000] query planning error: " +:+ msg
  | FExecution msg => "[FUSE-5000] execution error: " +:+ msg
  | FArrow e => e
  | FIo e => e
  end.

Definition connector (msg : string) : FuseError := FConnector CONNECTOR_ERROR msg.
Definition config (msg : string) : FuseError := FConfig CONFIG_INVALID msg.

Definition error_code (e : FuseError) : ErrorCode :=
  match e with
  | FConnector code _ => code
  | FRegistry (DuplicateId _) => REGISTRY_DUPLICATE
  | FRegistry (NotFound _) => REGISTRY_NOT_FOUND
  | FConfig code _ => code
  | FParse _ => PARSE_ERROR
  | FPlan _ => PLAN_ERROR
  | FExecution _ => EXECUTION_ERROR
  | FArrow _ => ARROW_ERROR
  | FIo _ => IO_ERROR
  end.

Definition connector_error_display (e : ConnectorError) : string :=
  match e with
  | QueryFailed m => "query execution failed: " +:+ m
  | SchemaDiscovery m => "schema discovery failed: " +:+ m
  | Auth m => "authentication failed: " +:+ m
  | Connection m => "connection failed: " +:+ m
  | ChannelClosed => "streaming channel closed"
  | Unsupported m => "unsupported operation: " +:+ m
  | ConnArrow e => e
  | ConnOther m => m
  end.

Definition connector_error_code (e : ConnectorError) : ErrorCode :=
  match e with
  | QueryFailed _ => CONNECTOR_QUERY_FAILED
  | SchemaDiscovery _ => CONNECTOR_SCHEMA_FAILED
  | Auth _ => AUTH_FAILED
  | Connection _ => AUTH_CONNECTION_FAILED
  | ChannelClosed => CONNECTOR_CHANNEL_CLOSED
  | Unsupported _ => CONNECTOR_UNSUPPORTED
  | ConnArrow _ => ARROW_ERROR
  | ConnOther _ => CONNECTOR_ERROR
  end.

(** Where a message names a code, it is the code the error carries: the
    message shown to the user and the machine-readable code agree. *)
Lemma display_shows_code e :
  match e with
  | FArrow _ | FIo _ => True
  | FRegistry r => fuse_error_display e =
      "registry error: [" +:+ code_display (error_code e) +:+
      str_drop 10 (registry_error_display r)
  | _ => ∃ rest, fuse_error_display e = "[" +:+ code_display (error_code e) +:+ "] " +:+ rest
  end.
Proof. destruct e as [c m|[]|c m| | | | |]; cbn -[String.append]; eauto; try (eexists; reflexivity). Qed.
