(* ===== verification/Resilience.v ===== *)
(** * Resilience: the circuit breaker and the retry wrapper

    Models [crates/fuse-server/src/circuit_breaker.rs] and
    [crates/fuse-server/src/retry.rs].  Instants and durations are numbers of
    nanoseconds; [t.elapsed()] at [now] is [now - t], which [std] saturates at
    zero as subtraction on [N] does.  [u32] counters wrap at their width.

    The breaker is specified from the outside: by the history of requests,
    successes and failures of one datasource, no matter what happens to the
    others in between.  The retry loop carries fuel; [with_retry] starts it
    with one more than the number of retries, which is shown to be enough. *)

From S2P Require Import Prelude.
From stdpp Require Import base list gmap strings.
From Stdlib Require Import NArith Lia.

(** [a + b] on [u32] with the overflow check off. *)
Definition wrapping_add_u32 (a b : N) : N := (a + b) `mod` u32_modulus.

Lemma wrapping_add_u32_id a b : (a + b < u32_modulus)%N → wrapping_add_u32 a b = (a + b)%N.
Proof. apply N.mod_small. Qed.

(** ** The circuit breaker *)

Module Breaker.

Inductive CircuitState : Type := Closed | Open | HalfOpen.

#[export] Instance CircuitState_eq_dec : EqDecision CircuitState.
Proof. solve_decision. Defined.

Record BreakerState : Type := mkBreaker {
  state_of : CircuitState;
  failure_count : N;
  last_failure : option N;
  last_success : option N;
}.

Record CircuitBreaker : Type := mkCircuitBreaker {
  breakers : gmap string BreakerState;
  failure_threshold : N;
  recovery_timeout : N;
}.

Definition nanos_per_sec : N := 1000000000.

Definition new (threshold recovery_secs : N) : CircuitBreaker :=
  mkCircuitBreaker ∅ threshold (recovery_secs * nanos_per_sec).

(** The entry [or_insert] creates. *)
Definition fresh : BreakerState := mkBreaker Closed 0 None None.

Definition set_breaker (cb : CircuitBreaker) (d : string) (b : BreakerState) : CircuitBreaker :=
  mkCircuitBreaker (<[d := b]> (breakers cb)) (failure_threshold cb) (recovery_timeout cb).

(** [last_failure.map(|t| t.elapsed() > recovery_timeout).unwrap_or(true)]. *)
Definition recovered (cb : CircuitBreaker) (now : N) (b : BreakerState) : bool :=
  from_option (λ t, (recovery_timeout cb <? now - t)%N) true (last_failure b).

Definition allow (cb : CircuitBreaker) (now : N) (d : string) : bool * CircuitBreaker :=
  let b := default fresh (breakers cb !! d) in
  match state_of b with
  | Closed => (true, set_breaker cb d b)
  | Open =>
      if recovered cb now b
      then (true, set_breaker cb d (mkBreaker HalfOpen (failure_count b) (last_failure b) (last_success b)))
      else (false, set_breaker cb d b)
  | HalfOpen => (true, set_breaker cb d b)
  end.

Definition record_success (cb : CircuitBreaker) (now : N) (d : string) : CircuitBreaker :=
  match breakers cb !! d with
  | Some b => set_breaker cb d (mkBreaker Closed 0 (last_failure b) (Some now))
  | None => cb
  end.

Definition record_failure (cb : CircuitBreaker) (now : N) (d : string) : CircuitBreaker :=
  let b := default fresh (breakers cb !! d) in
  let n := wrapping_add_u32 (failure_count b) 1 in
  set_breaker cb d
    (mkBreaker (if (failure_threshold cb <=? n)%N then Open else state_of b)
       n (Some now) (last_success b)).

Definition state (cb : CircuitBreaker) (d : string) : CircuitState :=
  from_option state_of Closed (breakers cb !! d).

(** *** Histories *)

Inductive kind : Type := Allow | Success | Failure.
#[export] Instance kind_eq_dec : EqDecision kind.
Proof. solve_decision. Defined.
Record event : Type := mkEvent { time : N; what : kind; on : string }.

Definition step (cb : CircuitBreaker) (e : event) : CircuitBreaker :=
  match what e with
  | Allow => (allow cb (time e) (on e)).2
  | Success => record_success cb (time e) (on e)
  | Failure => record_failure cb (time e) (on e)
  end.

(** What an outside observer of datasource [d] counts: the failures since the
    last success, and the time of the last failure. *)
Definition streak_step (d : string) (n : N) (e : event) : N :=
  if decide (on e = d) then
    match what e with Allow => n | Success => 0 | Failure => n + 1 end
  else n.
Definition streak (d : string) (evs : list event) : N := foldl (streak_step d) 0%N evs.

Definition failed_step (d : string) (t : option N) (e : event) : option N :=
  if decide (on e = d ∧ what e = Failure) then Some (time e) else t.
Definition last_failed (d : string) (evs : list event) : option N := foldl (failed_step d) None evs.

(** The clock does not run backwards. *)
Definition chronological (evs : list event) (now : N) : Prop :=
  ∀ i j e e', evs !! i = Some e → evs !! j = Some e' → i ≤ j → (time e ≤ time e' ≤ now)%N.

(** *** The invariant *)

Definition tripped (cb : CircuitBreaker) (n : N) : Prop := (0 < n ∧ failure_threshold cb ≤ n)%N.

Definition state_ok (cb : CircuitBreaker) (b : BreakerState) (now : N) : Prop :=
  match state_of b with
  | Closed => ¬ tripped cb (failure_count b)
  | Open => tripped cb (failure_count b)
  | HalfOpen => tripped cb (failure_count b) ∧
      ∃ tf, last_failure b = Some tf ∧ (recovery_timeout cb < now - tf)%N
  end.

(** The entry of [d], if any, agrees with the observer. *)
Definition inv (cb : CircuitBreaker) (d : string) (n : N) (t : option N) (now : N) : Prop :=
  let b := default fresh (breakers cb !! d) in
  failure_count b = n ∧ last_failure b = t ∧ (0 < n → is_Some t)%N ∧ state_ok cb b now.

Lemma inv_now cb d n t now now' :
  (now ≤ now')%N → inv cb d n t now → inv cb d n t now'.
Proof.
  intros Hle (? & ? & ? & H). split_and!; [done..|]. unfold state_ok in *.
  destruct (state_of _); [done..|]. destruct H as (? & tf & ? & ?).
  split; [done|]. exists tf. split; [done|lia].
Qed.

Lemma inv_other cb d b d' n t now :
  d ≠ d' → inv (set_breaker cb d' b) d n t now ↔ inv cb d n t now.
Proof. intros Hd. unfold inv, state_ok, tripped. cbn. by rewrite !lookup_insert_ne by done. Qed.

Lemma inv_at cb d b n t now :
  inv (set_breaker cb d b) d n t now ↔
  failure_count b = n ∧ last_failure b = t ∧ (0 < n → is_Some t)%N ∧ state_ok cb b now.
Proof. unfold inv, state_ok, tripped. cbn. by rewrite !lookup_insert_eq. Qed.

Lemma allow_inv cb d d' n t now :
  inv cb d n t now → inv (allow cb now d').2 d n t now.
Proof.
  intros Hinv. unfold allow; cbv zeta. destruct (decide (d = d')) as [<-|Hd].
  - destruct Hinv as (Hn & Ht & Hs & Hok). set (b := default fresh (breakers cb !! d)) in *.
    unfold state_ok in Hok. destruct (state_of b) eqn:E; cbn [snd];
      [| |by rewrite inv_at; unfold state_ok; rewrite E].
    { rewrite inv_at. unfold state_ok. by rewrite E. }
    destruct (recovered _ _ _) eqn:El; cbn [snd]; rewrite inv_at; unfold state_ok; cbn;
      [|by rewrite E].
    split_and!; [done..|]. destruct Hs as [tf ->]; [apply Hok + (rewrite <- Hn; apply Hok)|].
    unfold recovered in El. rewrite Ht in El |- *. cbn in El. exists tf. split; [done|]. by apply N.ltb_lt.
  - set (b := default fresh (breakers cb !! d')).
    destruct (state_of b); [|destruct (recovered _ _ _)|]; cbn [snd]; by rewrite inv_other.
Qed.

Lemma success_inv cb d d' n t now :
  inv cb d n t now →
  inv (record_success cb now d') d (if decide (d' = d) then 0%N else n) t now.
Proof.
  intros Hinv. unfold record_success. case_decide as Hd; subst.
  - destruct (breakers cb !! d) as [b|] eqn:E.
    + destruct Hinv as (Hn & Ht & Hs & Hok). rewrite E in *. cbn in *.
      rewrite inv_at. cbn. split_and!; [done|done|lia|]. unfold state_ok, tripped; cbn. lia.
    + destruct Hinv as (Hn & Ht & Hs & Hok). rewrite E in *. cbn in *. subst.
      unfold inv. rewrite E. cbn. done.
  - destruct (breakers cb !! d'); [by rewrite inv_other by done|done].
Qed.

Lemma failure_inv cb d d' n t now :
  (n + 1 < u32_modulus)%N → inv cb d n t now →
  inv (record_failure cb now d') d (if decide (d' = d) then n + 1 else n)%N
    (if decide (d' = d) then Some now else t) now.
Proof.
  intros Hlt Hinv. unfold record_failure. case_decide as Hd; subst; [|by rewrite inv_other].
  destruct Hinv as (Hn & Ht & Hs & Hok). set (b := default fresh (breakers cb !! d)) in *.
  rewrite inv_at. cbn. rewrite Hn, wrapping_add_u32_id by done.
  split_and!; [done|done|eauto|]. unfold state_ok, tripped in *. cbn.
  destruct (N.leb_spec (failure_threshold cb) (n + 1)); cbn; [lia|].
  destruct (state_of b); lia.
Qed.

Lemma step_inv cb d n t e :
  (n + 1 < u32_modulus)%N → inv cb d n t (time e) →
  inv (step cb e) d (streak_step d n e) (failed_step d t e) (time e).
Proof.
  intros Hlt Hinv. unfold step, streak_step, failed_step. destruct e as [now k d']; cbn in *.
  destruct k; cbn.
  - rewrite (decide_False (P := _ ∧ _)) by naive_solver. destruct (decide (d' = d)); by apply allow_inv.
  - rewrite (decide_False (P := _ ∧ _)) by naive_solver. by apply success_inv.
  - pose proof (failure_inv cb d d' n t now Hlt Hinv) as H.
    destruct (decide (d' = d)); [rewrite (decide_True (P := _ ∧ _)) by done
                                |rewrite (decide_False (P := _ ∧ _)) by naive_solver]; done.
Qed.

Lemma step_params cb e :
  failure_threshold (step cb e) = failure_threshold cb ∧
  recovery_timeout (step cb e) = recovery_timeout cb.
Proof.
  unfold step, allow, record_success, record_failure. destruct (what e).
  - destruct (state_of _); [done|by destruct (recovered _ _ _)|done].
  - by destruct (_ !! _).
  - done.
Qed.

Lemma streak_le d n evs : (foldl (streak_step d) n evs ≤ n + N.of_nat (length evs))%N.
Proof.
  revert n; induction evs as [|e evs IH]; intros n; cbn [foldl length]; [lia|].
  specialize (IH (streak_step d n e)). enough (streak_step d n e ≤ n + 1)%N by lia.
  unfold streak_step. case_decide; [destruct (what e)|]; lia.
Qed.

Lemma run_inv threshold secs d evs now :
  chronological evs now → (N.of_nat (length evs) < u32_modulus)%N →
  let cb := foldl step (new threshold secs) evs in
  inv cb d (streak d evs) (last_failed d evs) now ∧
  failure_threshold cb = threshold ∧ recovery_timeout cb = (secs * nanos_per_sec)%N.
Proof.
  revert now; induction evs as [|e evs IH] using rev_ind; intros now Hc Hl.
  { split; [|done]. unfold inv, state_ok, tripped, streak, last_failed. cbn [foldl new breakers].
    rewrite lookup_empty. cbn. split_and!; [done|done|lia|lia]. }
  rewrite length_app in Hl. cbn in Hl. unfold streak, last_failed. rewrite !foldl_app. cbn [foldl].
  assert ((evs ++ [e]) !! length evs = Some e) as He by by rewrite lookup_app_r, Nat.sub_diag by lia.
  destruct (IH (time e)) as (Hinv & Ht & Hr); [|lia|].
  { intros i j x y Hx Hy Hij. pose proof (lookup_lt_Some _ _ _ Hy).
    split; [apply (Hc i j x y)|apply (Hc j (length evs) y e)]; rewrite ?lookup_app_l by lia; auto; lia. }
  pose proof (streak_le d 0 evs). fold (streak d evs) in *. fold (last_failed d evs) in *.
  destruct (step_params (foldl step (new threshold secs) evs) e) as [-> ->].
  split; [|done]. apply (inv_now _ _ _ _ (time e)); [by apply (Hc (length evs) (length evs) e e)|].
  apply step_inv; [lia|done].
Qed.

Lemma refused_iff threshold secs d evs now :
  chronological evs now → (N.of_nat (length evs) < u32_modulus)%N →
  (allow (foldl step (new threshold secs) evs) now d).1 = false ↔
  (0 < streak d evs)%N ∧ (threshold ≤ streak d evs)%N ∧
  ∃ tf, last_failed d evs = Some tf ∧ (now - tf ≤ secs * nanos_per_sec)%N.
Proof.
  intros Hc Hl. destruct (run_inv threshold secs d evs now Hc Hl) as ((Hn & Ht & Hs & Hok) & Hth & Hr).
  set (cb := foldl step _ evs) in *. unfold allow; cbv zeta. set (b := default fresh (breakers cb !! d)) in *.
  unfold state_ok, tripped in Hok. rewrite <- Hn, <- Ht, <- Hr. rewrite Hth in Hok.
  destruct (state_of b); cbn [fst].
  - split; [done|]. naive_solver.
  - rewrite <- Hn in Hs. destruct (Hs (proj1 Hok)) as [tf Htf].
    unfold recovered. rewrite Ht, Htf. cbn.
    destruct (N.ltb_spec (recovery_timeout cb) (now - tf)); cbn; split; [done| | |done].
    + intros (_ & _ & tf' & [= <-] & ?). lia.
    + intros _. split_and!; [lia..|]. eauto.
  - split; [done|]. intros (_ & _ & tf & Htf & ?). destruct Hok as (_ & tf' & Htf' & ?).
    rewrite Htf in Htf'. simplify_eq. lia.
Qed.

(** C13: After any history of requests, successes and failures over any number
    of datasources (fewer than 2^32 of them, in the order of the clock) a
    request to [d] is let through while [d] has failed fewer times since its
    last success than the threshold; it is refused while [d] has failed at least
    that often and its last failure is no more than the recovery time ago; and
    the first request after the recovery time, the probe, is let through.  What
    happens to further requests before the outcome of the probe is known is not
    part of this property: the source's comment allows one request, the code
    lets all through ([half_open_admits_all]). *)
Theorem breaker_follows_failures threshold secs d evs now :
  chronological evs now → (N.of_nat (length evs) < u32_modulus)%N →
  let admitted := (allow (foldl step (new threshold secs) evs) now d).1 in
  (streak d evs = 0%N ∨ (streak d evs < threshold)%N → admitted = true) ∧
  ∀ tf, last_failed d evs = Some tf → (0 < streak d evs)%N → (threshold ≤ streak d evs)%N →
    ((now - tf ≤ secs * nanos_per_sec)%N → admitted = false) ∧
    ((secs * nanos_per_sec < now - tf)%N →
     Forall (λ e, what e = Allow → on e = d → (time e - tf ≤ secs * nanos_per_sec)%N) evs →
     admitted = true).
Proof.
  intros Hc Hl admitted. pose proof (refused_iff threshold secs d evs now Hc Hl) as H. fold admitted in H.
  destruct admitted.
  - split; [done|]. intros tf Htf H0 Ht. split; [|done]. intros Hw. assert (true = false) as He by (apply H; eauto 6). discriminate He.
  - destruct H as [(H0 & Ht & tf & Htf & Hw) _]; [done|]. split; [lia|].
    intros tf' Htf' _ _. rewrite Htf in Htf'. injection Htf' as <-. split; [done|]. lia.
Qed.

Lemma breaker_follows_failures_witness :
  let evs := [mkEvent 5 Failure "a"; mkEvent 6 Failure "b"; mkEvent 7 Allow "a"; mkEvent 9 Failure "a"] in
  (allow (foldl step (new 2 30) evs) 10 "a").1 = false ∧ (allow (foldl step (new 2 30) evs) 10 "b").1 = true.
Proof.
  intros evs.
  assert (chronological evs 10) as Hc
    by (intros [|[|[|[|i]]]] [|[|[|[|j]]]] e e' He He' Hij; cbn in *; simplify_eq; cbn; lia).
  split.
  - destruct (breaker_follows_failures 2 30 "a" evs 10 Hc ltac:(vm_compute; reflexivity)) as [_ H].
    destruct (H 9%N) as [Hr _]; [reflexivity|vm_compute; reflexivity|vm_compute; discriminate|].
    apply Hr. vm_compute. discriminate.
  - destruct (breaker_follows_failures 2 30 "b" evs 10 Hc ltac:(vm_compute; reflexivity)) as [H _].
    apply H. right. vm_compute. reflexivity.
Defined.

(** A half-open breaker lets every request through until an outcome is
    recorded: the single probe of the state's documentation is not enforced. *)
Lemma half_open_admits_all cb d probes :
  state cb d = HalfOpen →
  let go := foldl (λ '(oks, cb) now, let '(ok, cb) := allow cb now d in (oks ++ [ok], cb)) ([], cb) probes in
  go.1 = replicate (length probes) true ∧ state go.2 d = HalfOpen.
Proof.
  intros Hs. induction probes as [|now probes IH] using rev_ind; [done|].
  rewrite foldl_app, length_app, replicate_add. cbn -[allow].
  destruct (foldl _ _ probes) as [oks cb']. cbn in IH. destruct IH as [-> H'].
  unfold allow. unfold state in H'. destruct (breakers cb' !! d) as [b|] eqn:E; [|done]. cbn in H' |- *.
  rewrite H'. unfold state. cbn. by rewrite lookup_insert_eq.
Qed.

End Breaker.

(** ** Retry with exponential backoff *)

Module Retry.

(** The largest [Duration]: [u64::MAX] seconds and 999,999,999 nanoseconds. *)
Definition duration_max : N := 18446744073709551616 * 1000000000 - 1.
Definition millis (n : N) : N := n * 1000000.
Definition secs (n : N) : N := n * 1000000000.

Record RetryConfig : Type := mkRetry {
  max_retries : N;
  initial_backoff : N;
  max_backoff : N;
}.

Definition default_config : RetryConfig := mkRetry 3 (millis 100) (secs 5).

(** [2u32.saturating_pow(k)]. *)
Definition saturating_pow2 (k : N) : N := N.min (2 ^ k) (u32_modulus - 1).

(** [Duration * u32] panics on overflow. *)
Definition duration_mul (d k : N) : option N :=
  if (d * k <=? duration_max)%N then Some (d * k)%N else None.

Section WithRetry.
Context {S T E : Type} (op : S → (E + T) * S) (config : RetryConfig).

(** The loop; the list holds the sleeps, in order.  [None]: out of fuel. *)
Fixpoint retry_loop (fuel : nat) (attempt : N) (s : S) : option (outcome E T * S * list N) :=
  match fuel with
  | 0 => None
  | Datatypes.S fuel =>
      match op s with
      | (inr v, s) => Some (Ok v, s, [])
      | (inl e, s) =>
          let attempt := wrapping_add_u32 attempt 1 in
          if (max_retries config <? attempt)%N then Some (Err e, s, [])
          else
            match duration_mul (initial_backoff config) (saturating_pow2 (attempt - 1)) with
            | None => Some (Panic, s, [])
            | Some b =>
                let backoff := N.min b (max_backoff config) in
                '(r, s, sleeps) ← retry_loop fuel attempt s;
                Some (r, s, backoff :: sleeps)
            end
      end
  end.

Definition with_retry (s : S) : option (outcome E T * S * list N) :=
  retry_loop (Datatypes.S (N.to_nat (max_retries config))) 0 s.

(** The state before call [i], and the result of call [i]. *)
Definition state_at (s : S) (i : nat) : S := Nat.iter i (λ s, (op s).2) s.
Definition call (s : S) (i : nat) : E + T := (op (state_at s i)).1.
Definition as_outcome (r : E + T) : outcome E T :=
  match r with inl e => Err e | inr v => Ok v end.
(** The wait before retry [i + 1]. *)
Definition backoff_at (i : nat) : N :=
  N.min (initial_backoff config * saturating_pow2 (N.of_nat i)) (max_backoff config).

Hypothesis retries_fit : (max_retries config < u32_modulus - 1)%N.
Hypothesis backoff_fits : (initial_backoff config * (u32_modulus - 1) ≤ duration_max)%N.

Lemma state_at_succ s i : state_at (op s).2 i = state_at s (Datatypes.S i).
Proof. unfold state_at. by rewrite Nat.iter_succ_r. Qed.

Lemma duration_mul_pow2 k :
  duration_mul (initial_backoff config) (saturating_pow2 k) =
    Some (initial_backoff config * saturating_pow2 k)%N.
Proof.
  unfold duration_mul. destruct (N.leb_spec (initial_backoff config * saturating_pow2 k) duration_max); [done|].
  assert (saturating_pow2 k ≤ u32_modulus - 1)%N as Hk by apply N.le_min_r.
  pose proof (N.mul_le_mono_l _ _ (initial_backoff config) Hk). lia.
Qed.

Lemma retry_loop_spec fuel a s :
  (N.of_nat a + N.of_nat fuel = max_retries config + 1)%N → 0 < fuel →
  ∃ k, k < fuel ∧ (∀ i, i < k → ∃ e, call s i = inl e) ∧
       (k = fuel - 1 ∨ ∃ v, call s k = inr v) ∧
       retry_loop fuel (N.of_nat a) s =
         Some (as_outcome (call s k), state_at s (Datatypes.S k), backoff_at <$> seq a k).
Proof.
  revert a s; induction fuel as [|fuel IH]; intros a s Hf Hpos; [lia|]. cbn [retry_loop].
  destruct (op s) as [[e|v] s'] eqn:Eop.
  2:{ exists 0. unfold call, state_at. cbn. rewrite Eop. cbn. split_and!; eauto; lia. }
  rewrite wrapping_add_u32_id by (unfold u32_modulus in *; lia).
  destruct (N.ltb_spec (max_retries config) (N.of_nat a + 1)).
  - exists 0. unfold call, state_at. cbn. rewrite Eop. cbn. split_and!; [lia..|left; lia|done].
  - rewrite N.add_sub, duration_mul_pow2. replace (N.of_nat a + 1)%N with (N.of_nat (Datatypes.S a)) by lia.
    destruct (IH (Datatypes.S a) s') as (k & Hk & Hfail & Hend & ->); [lia..|].
    assert (s' = (op s).2) as Hs' by by rewrite Eop.
    assert (∀ i, call s' i = call s (Datatypes.S i)) as Hcall
      by (intros i; unfold call; by rewrite Hs', state_at_succ).
    exists (Datatypes.S k). split_and!; [lia| | |].
    + intros [|i] Hi; [exists e; unfold call, state_at; cbn; by rewrite Eop|].
      rewrite <- Hcall. apply Hfail. lia.
    + rewrite <- Hcall. destruct Hend as [->|?]; [left; lia|by right].
    + cbn [mbind option_bind]. by rewrite Hcall, Hs', state_at_succ.
Qed.

(** The retry wrapper always returns: it calls the operation until its
    first success, at most [max_retries + 1] times, and returns that success
    or the last error; the wait before retry [i + 1] is
    [min(initial * 2^i, max)], with the power saturating at [u32::MAX], so it
    never exceeds the configured maximum. *)
Theorem with_retry_spec s :
  ∃ k, (N.of_nat k ≤ max_retries config)%N ∧
       (∀ i, i < k → ∃ e, call s i = inl e) ∧
       (N.of_nat k = max_retries config ∨ ∃ v, call s k = inr v) ∧
       with_retry s = Some (as_outcome (call s k), state_at s (Datatypes.S k), backoff_at <$> seq 0 k) ∧
       Forall (λ d, d ≤ max_backoff config)%N (backoff_at <$> seq 0 k).
Proof.
  destruct (retry_loop_spec (Datatypes.S (N.to_nat (max_retries config))) 0 s)
    as (k & Hk & Hfail & Hend & Hrun); [lia..|].
  exists k. split_and!; [lia|done| |exact Hrun|].
  - destruct Hend as [->|?]; [left; lia|by right].
  - apply Forall_fmap, Forall_true. intros i. apply N.le_min_r.
Qed.
End WithRetry.

(** The third call of an operation that counts its calls succeeds. *)
Definition third_time (n : nat) : (string + nat) * nat :=
  (if decide (n = 2) then inr n else inl "unavailable", S n).

Lemma with_retry_spec_witness :
  with_retry third_time default_config 0 = Some (Ok 2, 3, [millis 100; millis 200]).
Proof.
  destruct (with_retry_spec third_time default_config ltac:(vm_compute; reflexivity)
              ltac:(vm_compute; discriminate) 0) as (k & Hk & Hfail & Hend & Hrun & _).
  assert (k = 2) as ->.
  { destruct k as [|[|[|k]]]; [| |done|].
    - destruct Hend as [Hend|[v Hend]]; [vm_compute in Hend|]; discriminate.
    - destruct Hend as [Hend|[v Hend]]; [vm_compute in Hend|]; discriminate.
    - destruct (Hfail 2) as [e He]; [lia|discriminate He]. }
  rewrite Hrun. vm_compute. reflexivity.
Defined.

End Retry.
