(* ===== verification/Tenancy.v ===== *)
(** * Tenancy: datasource allowlists and the query governor

    Models [crates/fuse-server/src/tenant.rs].  A tenant's allowlist is a set
    of datasource identifiers, the registry a map from tenant identifier to
    configuration; building it from a list keeps the last configuration of a
    tenant, as collecting into a hash map does. *)

From S2P Require Import Prelude.
From stdpp Require Import base list gmap strings sets pretty.
From Stdlib Require Import NArith Lia.

Record TenantConfig : Type := mkTenant {
  tenant_id : string;
  allowed_datasources : gset string;
  max_concurrent_queries : option N;
  max_rows : option N;
  max_time_ms : option N;
  max_result_bytes : option N;
  max_queries_per_minute : option N;
}.

Definition admin (id : string) : TenantConfig := mkTenant id ∅ None None None None None.

Definition with_datasources (id : string) (datasources : list string) : TenantConfig :=
  mkTenant id (list_to_set datasources) None None None None None.

Definition with_limits (c : TenantConfig) (rows time_ms result_bytes : N) : TenantConfig :=
  mkTenant (tenant_id c) (allowed_datasources c) (max_concurrent_queries c)
    (Some rows) (Some time_ms) (Some result_bytes) (max_queries_per_minute c).

Definition can_access (c : TenantConfig) (ds : string) : bool :=
  bool_decide (allowed_datasources c = ∅) || bool_decide (ds ∈ allowed_datasources c).

(** ** The registry *)

Record TenantRegistry : Type := mkRegistry { tenants : gmap string TenantConfig }.

Definition disabled : TenantRegistry := mkRegistry ∅.

Definition new (configs : list TenantConfig) : TenantRegistry :=
  mkRegistry (foldl (λ m c, <[tenant_id c := c]> m) ∅ configs).

Definition is_enabled (r : TenantRegistry) : bool := negb (bool_decide (tenants r = ∅)).

Definition get (r : TenantRegistry) (id : string) : option TenantConfig := tenants r !! id.

Definition filter_datasources (r : TenantRegistry) (id : string) (datasources : list string)
    : list string :=
  match get r id with
  | Some config => filter (λ ds, can_access config ds = true) datasources
  | None => if is_enabled r then [] else datasources
  end.

(** ** The governor *)

Definition exceeded (id what : string) (n max : N) (unit : string) : string :=
  "tenant '" +:+ id +:+ "' exceeded " +:+ what +:+ " limit: "
    +:+ pretty n +:+ unit +:+ " > " +:+ pretty max +:+ unit.

Definition check_rate_limit (c : TenantConfig) (queries_this_minute : N) : outcome string unit :=
  match max_queries_per_minute c with
  | Some max =>
      if (max <=? queries_this_minute)%N
      then Err ("tenant '" +:+ tenant_id c +:+ "' exceeded rate limit: "
                +:+ pretty queries_this_minute +:+ " queries/min (max " +:+ pretty max +:+ ")")
      else Ok tt
  | None => Ok tt
  end.

(** One of the checks [if let Some(max) = limit { if n > max { return Err } }]. *)
Definition check_limit (limit : option N) (n : N) (msg : N → string) : outcome string unit :=
  match limit with
  | Some max => if (max <? n)%N then Err (msg max) else Ok tt
  | None => Ok tt
  end.

Definition check_limits (c : TenantConfig) (row_count result_bytes elapsed_ms : N) : outcome string unit :=
  _ ← check_limit (max_rows c) row_count
        (λ max, exceeded (tenant_id c) "max_rows" row_count max "");
  _ ← check_limit (max_result_bytes c) result_bytes
        (λ max, exceeded (tenant_id c) "max_result_bytes" result_bytes max "");
  check_limit (max_time_ms c) elapsed_ms
    (λ max, exceeded (tenant_id c) "max_time_ms" elapsed_ms max "ms").

Definition apply_row_limit (c : TenantConfig) (total_rows : N) : N :=
  match max_rows c with Some max => N.min total_rows max | None => total_rows end.

Definition effective_timeout_ms (c : TenantConfig) (request_timeout_ms : N) : N :=
  match max_time_ms c with Some max => N.min request_timeout_ms max | None => request_timeout_ms end.

(** ** Isolation *)

(** The configuration in force for a tenant: the last one given for it. *)
Definition config_of (configs : list TenantConfig) (id : string) : option TenantConfig :=
  last (filter (λ c, tenant_id c = id) configs).

(** What a deployment grants: everything when no tenant is configured;
    otherwise what the tenant's own configuration lists, an empty list
    standing for everything. *)
Definition granted (configs : list TenantConfig) (id ds : string) : Prop :=
  configs = [] ∨
  match config_of configs id with
  | Some c => allowed_datasources c = ∅ ∨ ds ∈ allowed_datasources c
  | None => False
  end.

#[export] Instance TenantConfig_eq_dec : EqDecision TenantConfig.
Proof. solve_decision. Defined.
#[export] Instance granted_dec configs id ds : Decision (granted configs id ds).
Proof. unfold granted. destruct (config_of configs id); apply _. Defined.

Lemma can_access_spec c ds :
  can_access c ds = true ↔ allowed_datasources c = ∅ ∨ ds ∈ allowed_datasources c.
Proof. unfold can_access. by rewrite orb_true_iff, !bool_decide_eq_true. Qed.

Lemma new_lookup configs id : get (new configs) id = config_of configs id.
Proof.
  unfold get, new, config_of. cbn. induction configs as [|c configs IH] using rev_ind; [done|].
  rewrite foldl_app, filter_app. cbn [foldl]. rewrite filter_cons, filter_nil.
  destruct (decide (tenant_id c = id)) as [<-|Hne].
  - by rewrite lookup_insert_eq, last_snoc.
  - by rewrite lookup_insert_ne, app_nil_r.
Qed.

Lemma new_enabled configs : is_enabled (new configs) = negb (bool_decide (configs = [])).
Proof.
  unfold is_enabled. f_equal. apply bool_decide_ext. split; [|by intros ->].
  destruct configs as [|c configs _] using rev_ind; [done|].
  unfold new. cbn. rewrite foldl_app. cbn. intros []%insert_non_empty.
Qed.

(** The datasources a tenant is shown are, in order, exactly the requested
    ones its deployment grants it: with tenants configured, an unknown tenant
    sees none and a known one only those of its own allowlist, whatever the
    other tenants' configurations are. *)
Theorem filter_datasources_exact configs id datasources :
  filter_datasources (new configs) id datasources = filter (granted configs id) datasources.
Proof.
  unfold filter_datasources. rewrite new_lookup, new_enabled.
  destruct (config_of configs id) as [c|] eqn:E.
  - assert (configs ≠ []) as Hne by (intros ->; discriminate E).
    apply list_filter_iff'. intros ds _. unfold granted. rewrite can_access_spec, E. naive_solver.
  - case_bool_decide as Hc; cbn; symmetry.
    + rewrite (list_filter_iff' _ (λ _, True)) by (intros; unfold granted; tauto). apply list_filter_all.
    + rewrite (list_filter_iff' _ (λ _, False)) by (intros; unfold granted; rewrite E; tauto). apply list_filter_none.
Qed.

(** A result cut to the tenant's row limit, of a query that ran within the
    tenant's effective timeout, is refused only for its size in bytes. *)
Lemma governed_result_accepted c total bytes request_ms elapsed :
  (elapsed ≤ effective_timeout_ms c request_ms)%N →
  check_limits c (apply_row_limit c total) bytes elapsed = Ok tt ↔
  ∀ max, max_result_bytes c = Some max → (bytes ≤ max)%N.
Proof.
  unfold check_limits, apply_row_limit, effective_timeout_ms. intros He.
  assert (check_limit (max_rows c) (apply_row_limit c total)
            (λ max, exceeded (tenant_id c) "max_rows" (apply_row_limit c total) max "") = Ok tt) as Hr.
  { unfold check_limit, apply_row_limit. destruct (max_rows c) as [r|]; [|done].
    destruct (N.ltb_spec r (N.min total r)); [lia|done]. }
  assert (check_limit (max_time_ms c) elapsed
            (λ max, exceeded (tenant_id c) "max_time_ms" elapsed max "ms") = Ok tt) as Ht.
  { unfold check_limit, effective_timeout_ms in *. destruct (max_time_ms c) as [t|]; [|done].
    destruct (N.ltb_spec t elapsed); [lia|done]. }
  unfold apply_row_limit in Hr. rewrite Hr, Ht. cbn [mbind outcome_bind]. unfold check_limit.
  destruct (max_result_bytes c) as [b|]; [|done].
  destruct (N.ltb_spec b bytes) as [Hb|Hb]; cbn [mbind outcome_bind]; split; try done.
  - intros H. specialize (H b eq_refl). lia.
  - intros _ max [= <-]. done.
Qed.
