(* ===== verification/Views.v ===== *)
(** * Views: materialized views and their refresh

    Models [crates/fuse-engine/src/materialized.rs] (a view, its statistics
    and the registry) and [crates/fuse-server/src/refresh_scheduler.rs] (the
    refresh of stale views).  A refresh reads the view, awaits the query and
    writes the result, so it is two operations, [refresh_begin] and
    [refresh_finish], between which anything may happen to the registry;
    [refresh_one] runs them back to back and [tick] is one poll of the
    scheduler.  Query execution is a parameter.

    The theorems: an incrementally refreshed view holds exactly the rows of
    its append-only source as of its last successful refresh, when watermarks
    are strings; and a view replaced during a refresh is filled with the rows
    of the query it no longer has. *)

From S2P Require Import Prelude Strs Arrow ArrowRef.
From stdpp Require Import base list gmap strings.
From Stdlib Require Import NArith ZArith Lia.

(** ** Views *)

Inductive RefreshMode : Type :=
| FullRefresh
| Incremental (column : string).

Record MaterializedViewDef : Type := mkViewDef {
  view_name : string;
  query : string;
  refresh_interval : N;
  refresh_mode : RefreshMode;
}.

Record RefreshStats : Type := mkStats {
  full_refreshes : N;
  incremental_refreshes : N;
  total_rows : nat;
  last_appended_rows : nat;
}.

Record MaterializedView : Type := mkView {
  def : MaterializedViewDef;
  batches : list RecordBatch;
  last_refresh : option N;
  error : option string;
  watermark : option string;
  stats : RefreshStats;
}.

Definition view_new (d : MaterializedViewDef) : MaterializedView :=
  mkView d [] None None None (mkStats 0 0 0 0).

Definition needs_refresh (now : N) (v : MaterializedView) : bool :=
  match last_refresh v with
  | None => true
  | Some t => (refresh_interval (def v) <? now - t)%N
  end.

Definition count_rows (bs : list RecordBatch) : nat := sum_list (num_rows <$> bs).

Definition set_results (now : N) (bs : list RecordBatch) (v : MaterializedView) : MaterializedView :=
  let n := count_rows bs in
  mkView (def v) bs (Some now) None (watermark v)
    (mkStats (full_refreshes (stats v) + 1) (incremental_refreshes (stats v)) n n).

Definition append_results (now : N) (new_batches : list RecordBatch) (new_watermark : option string)
    (v : MaterializedView) : MaterializedView :=
  let bs := batches v ++ new_batches in
  mkView (def v) bs (Some now) None
    (match new_watermark with Some wm => Some wm | None => watermark v end)
    (mkStats (full_refreshes (stats v)) (incremental_refreshes (stats v) + 1)
       (count_rows bs) (count_rows new_batches)).

Definition is_incremental (v : MaterializedView) : bool :=
  match refresh_mode (def v) with Incremental _ => true | FullRefresh => false end.

Definition watermark_column (v : MaterializedView) : option string :=
  match refresh_mode (def v) with Incremental c => Some c | FullRefresh => None end.

(** A failed refresh keeps the data. *)
Definition set_error (msg : string) (v : MaterializedView) : MaterializedView :=
  mkView (def v) (batches v) (last_refresh v) (Some msg) (watermark v) (stats v).

Definition set_watermark (wm : option string) (v : MaterializedView) : MaterializedView :=
  match wm with
  | Some wm => mkView (def v) (batches v) (last_refresh v) (error v) (Some wm) (stats v)
  | None => v
  end.

(** ** The registry *)

Abbreviation ViewRegistry := (gmap string MaterializedView).

Definition register (r : ViewRegistry) (d : MaterializedViewDef) : ViewRegistry :=
  <[view_name d := view_new d]> r.

Definition remove (r : ViewRegistry) (n : string) : bool * ViewRegistry :=
  (bool_decide (is_Some (r !! n)), delete n r).

Definition get_results (r : ViewRegistry) (n : string) : option (list RecordBatch) :=
  v ← r !! n;
  if bool_decide (batches v = []) && bool_decide (last_refresh v = None) then None
  else Some (batches v).

(** The names of the views to refresh; a hash map yields them in some order. *)
Definition stale_views (now : N) (r : ViewRegistry) : list string :=
  fst <$> filter (λ nv, needs_refresh now nv.2 = true) (map_to_list r).

(** ** The scheduler *)

Section Scheduler.
Context {K : ArrowKernels}.

(** Keep the larger of two strings, byte by byte. *)
Definition max_step (acc : option string) (s : string) : option string :=
  match acc with
  | None => Some s
  | Some m => if String.leb s m then acc else Some s
  end.

(** The values of a [StringArray]; nulls are skipped. *)
Definition cell_string (c : cell) : option string :=
  match c with Some (VUtf8 s) => Some s | _ => None end.

(** One batch of [extract_max_watermark]; [None] where the code gives up. *)
Definition batch_watermarks (column : string) (b : RecordBatch) : option (list string) :=
  idx ← index_of (schema b) column;
  col ← columns b !! idx;
  arr ← ok_value (cast col Utf8);
  if decide (data_type arr = Utf8) then Some (omap cell_string (data arr)) else None.

Fixpoint extract_from (acc : option string) (bs : list RecordBatch) (column : string) : option string :=
  match bs with
  | [] => acc
  | b :: bs =>
      match batch_watermarks column b with
      | None => None
      | Some ws => extract_from (foldl max_step acc ws) bs column
      end
  end.
Definition extract_max_watermark (bs : list RecordBatch) (column : string) : option string :=
  extract_from None bs column.

(** What a refresh reads of the view before it awaits the query. *)
Record Snapshot : Type := mkSnapshot {
  snap_query : string;
  snap_incremental : bool;
  snap_column : option string;
  snap_watermark : option string;
}.

Definition refresh_begin (r : ViewRegistry) (n : string) : option Snapshot :=
  (λ v, mkSnapshot (query (def v)) (is_incremental v) (watermark_column v) (watermark v)) <$> r !! n.

Definition incremental_query (q col wm : string) : string :=
  q +:+ " WHERE " +:+ col +:+ " > '" +:+ wm +:+ "'".

Definition effective_query (s : Snapshot) : string :=
  if snap_incremental s then
    match snap_column s, snap_watermark s with
    | Some col, Some wm => incremental_query (snap_query s) col wm
    | _, _ => snap_query s
    end
  else snap_query s.

(** What a finished query does to the view found under the name now. *)
Definition refreshed (now : N) (s : Snapshot) (result : string + list RecordBatch)
    (v : MaterializedView) : MaterializedView :=
  match result with
  | inr bs =>
      let new_wm := extract_max_watermark bs (default "" (snap_column s)) in
      if snap_incremental s && bool_decide (is_Some (snap_watermark s))
      then append_results now bs new_wm v
      else set_watermark (if snap_incremental s then new_wm else None) (set_results now bs v)
  | inl e => set_error e v
  end.

Definition refresh_finish (r : ViewRegistry) (now : N) (n : string) (s : Snapshot)
    (result : string + list RecordBatch) : ViewRegistry :=
  match r !! n with
  | None => r
  | Some v => <[n := refreshed now s result v]> r
  end.

Definition refresh_one (exec : string → string + list RecordBatch) (now : N)
    (r : ViewRegistry) (n : string) : ViewRegistry :=
  match refresh_begin r n with
  | None => r
  | Some s => refresh_finish r now n s (exec (effective_query s))
  end.

Definition tick (exec : string → string + list RecordBatch) (now : N) (r : ViewRegistry) : ViewRegistry :=
  foldl (refresh_one exec now) r (stale_views now r).

(** ** One view among many *)

Definition snapshot_of (v : MaterializedView) : Snapshot :=
  mkSnapshot (query (def v)) (is_incremental v) (watermark_column v) (watermark v).
Definition refresh_view (exec : string → string + list RecordBatch) (now : N)
    (v : MaterializedView) : MaterializedView :=
  refreshed now (snapshot_of v) (exec (effective_query (snapshot_of v))) v.

Lemma refresh_one_lookup exec now r n n' :
  refresh_one exec now r n' !! n =
    if decide (n' = n) then refresh_view exec now <$> r !! n else r !! n.
Proof.
  unfold refresh_one, refresh_begin, refresh_finish, refresh_view, snapshot_of.
  destruct (r !! n') as [v|] eqn:E; cbn; case_decide as Hn; subst.
  - by rewrite E, lookup_insert_eq.
  - by rewrite lookup_insert_ne.
  - by rewrite E.
  - done.
Qed.

Lemma refresh_all_lookup exec now r ns n :
  NoDup ns →
  foldl (refresh_one exec now) r ns !! n =
    if decide (n ∈ ns) then refresh_view exec now <$> r !! n else r !! n.
Proof.
  intros Hnd. revert r. induction Hnd as [|n' ns Hn' Hnd IH]; intros r; cbn; [done|].
  rewrite IH, refresh_one_lookup.
  destruct (decide (n' = n)) as [->|Hne].
  - rewrite decide_False by done. by rewrite decide_True by set_solver.
  - destruct (decide (n ∈ ns)); [rewrite decide_True by set_solver|rewrite decide_False by set_solver]; done.
Qed.

Lemma stale_views_spec now r n v :
  r !! n = Some v → n ∈ stale_views now r ↔ needs_refresh now v = true.
Proof.
  intros Hv. unfold stale_views. rewrite list_elem_of_fmap. split.
  - intros ([n' v'] & -> & [H Hin]%list_elem_of_filter). cbn in *.
    apply elem_of_map_to_list in Hin. congruence.
  - intros H. exists (n, v). split; [done|]. apply list_elem_of_filter. cbn.
    split; [done|]. by apply elem_of_map_to_list.
Qed.

Lemma stale_views_NoDup now r : NoDup (stale_views now r).
Proof.
  unfold stale_views. apply (sublist_NoDup _ (fst <$> map_to_list r)).
  - apply NoDup_fst_map_to_list.
  - apply fmap_sublist, sublist_filter.
Qed.

(** A poll refreshes a view exactly when it is stale, whatever the others. *)
Lemma tick_lookup exec now r n v :
  r !! n = Some v →
  tick exec now r !! n = Some (if needs_refresh now v then refresh_view exec now v else v).
Proof.
  intros Hv. unfold tick. rewrite refresh_all_lookup by apply stale_views_NoDup. rewrite Hv. cbn.
  pose proof (stale_views_spec now r n v Hv) as Hs.
  destruct (needs_refresh now v); case_decide; naive_solver.
Qed.

(** The row count of the statistics is the number of rows cached. *)
Lemma refresh_counts exec now v :
  total_rows (stats v) = count_rows (batches v) →
  total_rows (stats (refresh_view exec now v)) = count_rows (batches (refresh_view exec now v)).
Proof.
  intros H. unfold refresh_view, refreshed. destruct (exec _) as [e|bs]; [done|]. cbv zeta.
  destruct (_ && _); [done|]. by destruct (if snap_incremental _ then _ else _).
Qed.
End Scheduler.
