(* ===== verification/ViewsCorrect.v ===== *)
(** * ViewsCorrect: what a refreshed view holds

    The theorems about [Views].  The source of a view is described by the rows
    its query returns at each poll; the hypotheses say that the source only
    grows, with later rows carrying larger watermarks, and that executing the
    query with the added condition returns the rows past the watermark. *)

From S2P Require Import Prelude Strs Arrow ArrowRef Views.
From stdpp Require Import base list gmap strings.
From Stdlib Require Import NArith ZArith Lia.

Definition rows (bs : list RecordBatch) : list (list cell) := concat (batch_rows <$> bs).

Lemma rows_app bs bs' : rows (bs ++ bs') = rows bs ++ rows bs'.
Proof. unfold rows. by rewrite fmap_app, concat_app. Qed.

Lemma omap_fmap {A B C : Type} (g : A → B) (h : B → option C) (l : list A) :
  omap h (g <$> l) = omap (λ x, h (g x)) l.
Proof. induction l as [|x l IH]; cbn; [done|]. by rewrite IH. Qed.

Lemma omap_nil_all {A B : Type} (h : A → option B) (l : list A) :
  Forall (λ x, is_Some (h x)) l → omap h l = [] → l = [].
Proof. destruct 1 as [|x l [y Hy] _]; cbn; [done|]. by rewrite Hy. Qed.

Lemma data_seq a : data a = value_at a <$> seq 0 (array_len a).
Proof.
  apply list_eq. intros i. rewrite list_lookup_fmap. unfold value_at, array_len.
  destruct (decide (i < length (data a))) as [Hi|Hi].
  - rewrite lookup_seq_lt by done. cbn. destruct (lookup_lt_is_Some_2 _ _ Hi) as [c ->]. done.
  - rewrite lookup_seq_ge, lookup_ge_None_2 by lia. done.
Qed.

(** The running maximum of the scheduler is a maximum. *)
Lemma max_step_spec ws :
  match foldl max_step None ws with
  | None => ws = []
  | Some w => w ∈ ws ∧ ∀ s, s ∈ ws → String.le s w
  end.
Proof.
  induction ws as [|s ws IH] using rev_ind; [done|]. rewrite foldl_app. cbn.
  destruct (foldl max_step None ws) as [m|]; cbn.
  - destruct IH as [Hm Hmax]. destruct (String.leb s m) eqn:E.
    + split; [set_solver|]. intros x [Hx| ->%list_elem_of_singleton]%elem_of_app; [auto|].
      unfold String.le. by rewrite E.
    + split; [set_solver|]. intros x [Hx| ->%list_elem_of_singleton]%elem_of_app; [|done].
      destruct (total String.le s m) as [H|H]; [unfold String.le in H; by rewrite E in H|].
      etrans; [by apply Hmax|done].
  - subst ws. split; [set_solver|]. intros x ->%list_elem_of_singleton. done.
Qed.

Section Incremental.
Context {K : ArrowKernels}.
(** Casting a [Utf8] column to [Utf8] returns it. *)
Hypothesis cast_utf8 : ∀ a, data_type a = Utf8 →
  Forall (λ c, is_Some (cell_string c)) (data a) → cast a Utf8 = Ok a.
(** The watermark column of the query's result is a string column. *)
Context (sch : Schema) (col : string) (idx : nat) (fld : Field).
Hypothesis col_at : index_of sch col = Some idx.
Hypothesis fld_at : sch !! idx = Some fld.
Hypothesis fld_utf8 : field_type fld = Utf8.

Definition row_wm (r : list cell) : option string := r !! idx ≫= cell_string.
Definition past (w : string) (r : list cell) : Prop :=
  match row_wm r with Some s => ¬ String.le s w | None => False end.
#[global] Instance past_dec w r : Decision (past w r).
Proof. unfold past. destruct (row_wm r); apply _. Defined.

(** A result batch: well formed, under the schema, without null watermarks. *)
Definition good (b : RecordBatch) : Prop :=
  wf_batch b ∧ schema b = sch ∧ Forall (λ r, is_Some (row_wm r)) (batch_rows b).

Lemma batch_watermarks_good b :
  good b → batch_watermarks col b = Some (omap row_wm (batch_rows b)).
Proof.
  intros (Hwf & Hs & Hall). unfold batch_watermarks. rewrite Hs, col_at. cbn [mbind option_bind].
  pose proof (wf_columns_length _ _ _ Hwf) as Hlen. rewrite Hs in Hlen.
  pose proof (lookup_lt_Some _ _ _ fld_at) as Hlt. rewrite <- Hlen in Hlt.
  destruct (lookup_lt_is_Some_2 _ _ Hlt) as [a Ha]. rewrite Ha. cbn [mbind option_bind].
  pose proof (wf_columns_lookup _ _ _ _ _ Hwf Ha) as Hn.
  unfold wf_batch in Hwf. rewrite Hs in Hwf.
  destruct (wf_columns_type _ _ _ _ _ _ Hwf fld_at Ha) as [Ht _].
  assert (∀ i, row_wm (row_at (columns b) i) = cell_string (value_at a i)) as Hrow
    by (intros i; unfold row_wm, row_at; by rewrite list_lookup_fmap, Ha).
  rewrite cast_utf8; [|congruence|].
  2:{ rewrite data_seq, Hn. unfold batch_rows in Hall. rewrite Forall_forall in Hall.
      apply Forall_fmap, Forall_forall. intros i Hi. cbn. rewrite <- Hrow.
      apply Hall, list_elem_of_fmap. eauto. }
  cbn [ok_value mbind option_bind].
  rewrite decide_True by congruence. f_equal.
  rewrite data_seq, Hn, omap_fmap. unfold batch_rows. rewrite omap_fmap.
  apply list_omap_ext, Forall_Forall2_diag, Forall_true. intros i. by rewrite Hrow.
Qed.

Lemma extract_good acc bs :
  Forall good bs → extract_from acc bs col = foldl max_step acc (omap row_wm (rows bs)).
Proof.
  intros Hbs. revert acc. induction Hbs as [|b bs Hb _ IH]; intros acc; [done|]. cbn [extract_from].
  rewrite (batch_watermarks_good b Hb), IH. unfold rows. cbn. by rewrite omap_app, foldl_app.
Qed.

(** The source: the rows the query returns at poll [n]. *)
Context (src : nat → list (list cell)).
Hypothesis src_watermarked : ∀ n, Forall (λ r, is_Some (row_wm r)) (src n).
Definition later (old new : list (list cell)) : Prop :=
  ∀ r r' s s', r ∈ old → r' ∈ new → row_wm r = Some s → row_wm r' = Some s' → ¬ String.le s' s.
Hypothesis src_grows : ∀ n, ∃ new, src (S n) = src n ++ new ∧ later (src n) new.

(** The view, the clock at each poll and the answers of the query engine. *)
Context (d : MaterializedViewDef) (now : nat → N) (exec : nat → string → string + list RecordBatch).
Hypothesis mode : refresh_mode d = FullRefresh ∨ refresh_mode d = Incremental col.
Hypothesis exec_full : ∀ n bs,
  exec n (query d) = inr bs → Forall good bs ∧ rows bs = src n.
Hypothesis exec_past : ∀ n w bs,
  exec n (incremental_query (query d) col w) = inr bs →
  Forall good bs ∧ rows bs = filter (past w) (src n).

Lemma src_prefix m n : m ≤ n → ∃ new, src n = src m ++ new ∧ later (src m) new.
Proof.
  induction 1 as [|n Hmn (new & Hn & Hl)].
  { exists []. split; [by rewrite app_nil_r|]. intros r r' s s' _ Hr'. set_solver. }
  destruct (src_grows n) as (new' & Hn' & Hl'). exists (new ++ new').
  split; [by rewrite Hn', Hn, app_assoc|].
  intros r r' s s' Hr [Hr'|Hr']%elem_of_app; [by apply Hl|].
  apply Hl'; [|done]. rewrite Hn. set_solver.
Qed.

Definition wm_ok (w : option string) (rs : list (list cell)) : Prop :=
  match w with
  | None => rs = []
  | Some w => w ∈ omap row_wm rs ∧ ∀ s, s ∈ omap row_wm rs → String.le s w
  end.

Lemma wm_ok_extract bs :
  Forall good bs → Forall (λ r, is_Some (row_wm r)) (rows bs) →
  wm_ok (extract_max_watermark bs col) (rows bs).
Proof.
  intros Hg Hr. unfold extract_max_watermark. rewrite extract_good by done.
  pose proof (max_step_spec (omap row_wm (rows bs))) as H. unfold wm_ok.
  destruct (foldl max_step None _); [done|]. by eapply omap_nil_all.
Qed.

(** Past the maximal watermark of a prefix lie exactly the later rows. *)
Lemma filter_past w old new :
  wm_ok (Some w) old → later old new →
  Forall (λ r, is_Some (row_wm r)) old → Forall (λ r, is_Some (row_wm r)) new →
  filter (past w) (old ++ new) = new.
Proof.
  intros [Hw Hmax] Hl Ho Hn. rewrite filter_app.
  apply list_elem_of_omap in Hw as (rw & Hrw & Hwm).
  rewrite (list_filter_iff' _ (λ _, False)), list_filter_none.
  - rewrite (list_filter_iff' _ (λ _, True)), list_filter_all; [done|].
    intros r Hr. split; [done|intros _]. rewrite Forall_forall in Hn. unfold past.
    destruct (Hn r Hr) as [s Hs]. rewrite Hs. eauto.
  - intros r Hr. split; [|done]. unfold past. rewrite Forall_forall in Ho.
    destruct (Ho r Hr) as [s Hs]. rewrite Hs. intros H. apply H, Hmax, list_elem_of_omap. eauto.
Qed.

Lemma wm_ok_append w old new bs :
  wm_ok (Some w) old → later old new → Forall good bs → rows bs = new →
  Forall (λ r, is_Some (row_wm r)) new →
  wm_ok (match extract_max_watermark bs col with Some w' => Some w' | None => Some w end) (old ++ new).
Proof.
  intros [Hw Hmax] Hl Hg Hb Hn. pose proof (wm_ok_extract bs Hg) as He. rewrite Hb in He.
  specialize (He Hn). unfold wm_ok in *. destruct (extract_max_watermark bs col) as [w'|].
  - destruct He as [Hw' Hmax']. rewrite omap_app. split; [set_solver|].
    intros s [Hs|Hs]%elem_of_app; [|by apply Hmax'].
    apply list_elem_of_omap in Hs as (r & Hr & Hrs). apply list_elem_of_omap in Hw' as (r' & Hr' & Hrs').
    destruct (total String.le s w') as [|H]; [done|]. by destruct (Hl r r' s w').
  - subst new. rewrite He, app_nil_r. done.
Qed.

(** The view after [n] polls. *)
Definition holds (n : nat) (v : MaterializedView) : Prop :=
  def v = d ∧
  ((last_refresh v = None ∧ batches v = [] ∧ watermark v = None) ∨
   ∃ m, m < n ∧ last_refresh v = Some (now m) ∧ rows (batches v) = src m ∧
        (refresh_mode d = Incremental col → wm_ok (watermark v) (src m))).

Lemma holds_refreshed_full n v bs :
  def v = d → (watermark v = None ∨ refresh_mode d = FullRefresh) →
  exec n (query d) = inr bs → holds (S n) (refresh_view (exec n) (now n) v).
Proof.
  intros Hd Hw He. destruct (exec_full n bs He) as [Hg Hr].
  assert (effective_query (snapshot_of v) = query d) as Hq.
  { unfold effective_query, snapshot_of, is_incremental, watermark_column. cbn. rewrite Hd.
    destruct (refresh_mode d); [done|]. destruct Hw as [->|]; done. }
  unfold refresh_view. rewrite Hq, He. cbn [refreshed]. cbv zeta.
  unfold snapshot_of, is_incremental, watermark_column. cbn. rewrite Hd.
  destruct mode as [Hm|Hm]; rewrite Hm; cbn.
  { split; [done|]. right. exists n. split_and!; [lia|done..|congruence]. }
  destruct Hw as [Hw|Hw]; [|congruence]. rewrite Hw. cbn.
  split; [by destruct (extract_max_watermark _ _)|]. right. exists n. split; [lia|].
  pose proof (wm_ok_extract bs Hg) as Hwm. rewrite Hr in Hwm. specialize (Hwm (src_watermarked n)).
  destruct (extract_max_watermark bs col); cbn; rewrite ?Hw; auto.
Qed.

Lemma holds_refreshed_past n v m w bs :
  def v = d → m ≤ n → refresh_mode d = Incremental col → watermark v = Some w →
  rows (batches v) = src m → wm_ok (Some w) (src m) →
  exec n (incremental_query (query d) col w) = inr bs →
  holds (S n) (refresh_view (exec n) (now n) v).
Proof.
  intros Hd Hmn Hm Hw Hr Hok He. destruct (exec_past n w bs He) as [Hg Hb].
  assert (effective_query (snapshot_of v) = incremental_query (query d) col w) as Hq.
  { unfold effective_query, snapshot_of, is_incremental, watermark_column. cbn. by rewrite Hd, Hm, Hw. }
  unfold refresh_view. rewrite Hq, He. cbn [refreshed]. cbv zeta.
  unfold snapshot_of, is_incremental, watermark_column. cbn. rewrite Hd, Hm, Hw. cbn.
  destruct (src_prefix m n Hmn) as (new & Hn & Hl).
  pose proof (src_watermarked n) as Hall. rewrite Hn, Forall_app in Hall. destruct Hall as [Ho Hnew].
  rewrite Hn, filter_past in Hb by done.
  split; [done|]. right. exists n. split_and!; [lia|done| |].
  - change (rows (batches v ++ bs) = src n). by rewrite rows_app, Hr, Hb, Hn.
  - intros _. cbn [append_results watermark]. rewrite Hn, Hw. by eapply wm_ok_append.
Qed.

Lemma holds_refresh n v : holds n v → holds (S n) (refresh_view (exec n) (now n) v).
Proof.
  intros Hv. assert (Hd : def v = d) by apply Hv.
  destruct (exec n (effective_query (snapshot_of v))) as [e|bs] eqn:He.
  { unfold refresh_view. rewrite He. destruct Hv as [_ [Hv|(m & ? & ? & ? & ?)]].
    - split; [done|]. by left.
    - split; [done|]. right. exists m. split_and!; [lia|done..]. }
  destruct (decide (watermark v = None)) as [Hw|Hw].
  { eapply (holds_refreshed_full n v bs); [done|by left|]. rewrite <- He. f_equal.
    unfold effective_query, snapshot_of, watermark_column. cbn. rewrite Hd, Hw.
    by destruct (is_incremental v), (refresh_mode d). }
  destruct Hv as [_ [(_ & _ & ?)|(m & Hm & _ & Hr & Hok)]]; [done|].
  destruct (watermark v) as [w|] eqn:E; [|done].
  unfold effective_query, snapshot_of, is_incremental, watermark_column in He.
  cbn in He. rewrite Hd, E in He. destruct mode as [Hmode|Hmode]; rewrite Hmode in He.
  - eapply (holds_refreshed_full n v bs); auto.
  - eapply (holds_refreshed_past n v m w bs); auto. lia.
Qed.

(** The registry after [n] polls, starting when the view is registered. *)
Definition polled (r0 : ViewRegistry) (n : nat) : ViewRegistry :=
  foldl (λ r i, tick (exec i) (now i) r) (register r0 d) (seq 0 n).

(** C6: A view that is polled any number of times, among any other views, with
    queries failing now and then, holds at every moment exactly the rows of
    its source as of its last successful refresh, each once and in order; it
    is empty until the first one.  An incremental view gets there by fetching
    only the rows past its watermark.  Hypotheses (of the section): the
    watermark column is text and never null, the source only grows, and every
    row added has a watermark greater, as a string, than those before it
    ([src_grows]; numbers compared as text repeat rows,
    [numeric_watermark_repeats_rows]); executing the view's query returns the
    rows of the source and executing it with the added condition those past the
    watermark, in well-formed batches of one schema; no other definition is
    registered under the view's name while it is polled
    ([replaced_view_serves_old_rows]). *)
Theorem view_holds_its_source r0 n :
  ∃ v, polled r0 n !! view_name d = Some v ∧ def v = d ∧
    ((last_refresh v = None ∧ batches v = []) ∨
     ∃ m, m < n ∧ last_refresh v = Some (now m) ∧ rows (batches v) = src m).
Proof.
  enough (∃ v, polled r0 n !! view_name d = Some v ∧ holds n v) as (v & Hv & Hd & H).
  { exists v. split_and!; [done..|]. destruct H as [(? & ? & ?)|(m & ? & ? & ? & ?)]; [by left|].
    right. by exists m. }
  unfold polled. induction n as [|n (v & Hv & IH)].
  { exists (view_new d). unfold register. cbn [seq foldl]. rewrite lookup_insert_eq. split; [done|].
    split; [done|]. by left. }
  rewrite seq_S, foldl_app. cbn [foldl Nat.add].
  rewrite (tick_lookup _ _ _ _ _ Hv). eexists. split; [done|].
  destruct (needs_refresh _ _); [by apply holds_refresh|].
  destruct IH as [Hd [?|(m & ? & ?)]]; split; auto. right. exists m. split; [lia|done].
Qed.
End Incremental.

(** ** A source the theorem applies to *)

Module Demo.
Definition sch : Schema := [mkField "ts" Utf8 false].
Definition batch_of (ws : list string) : RecordBatch :=
  mkBatch sch [mkArray Utf8 ((λ w, Some (VUtf8 w)) <$> ws)] (length ws).
Definition rows_of (ws : list string) : list (list cell) := (λ w, [Some (VUtf8 w)]) <$> ws.
Definition stamps : list string := ["2024-01-01"; "2024-01-02"; "2024-01-03"].
Definition source (n : nat) : list (list cell) := rows_of (take n stamps).
Definition view : MaterializedViewDef := mkViewDef "v" "q" 10 (Incremental "ts").
(** Reads the watermark back out of the condition. *)
Definition run (n : nat) (q : string) : string + list RecordBatch :=
  inr [batch_of
    (if String.eqb q "q" then take n stamps
     else let cond := str_drop (String.length "q WHERE ts > '") q in
          let w := str_take (String.length cond - 1) cond in
          filter (λ s, ¬ String.le s w) (take n stamps))].

Lemma ref_cast_utf8 a :
  data_type a = Utf8 → Forall (λ c, is_Some (cell_string c)) (data a) →
  cast (ArrowKernels := RefArrow) a Utf8 = Ok a.
Proof.
  destruct a as [t da]. cbn [data data_type]. intros -> Hda. cbn [cast RefArrow]. unfold ref_cast.
  rewrite decide_True by done. cbn [data]. do 2 f_equal.
  apply list_eq. intros i. rewrite list_lookup_imap. unfold ref_show, value_at. cbn [data].
  destruct (da !! i) as [c|] eqn:E; cbn; [|done].
  eapply Forall_lookup_1 in Hda as [s Hs]; [|done]. by destruct c as [[]|]; simplify_eq.
Qed.

Lemma batch_of_rows ws : batch_rows (batch_of ws) = rows_of ws.
Proof.
  unfold batch_rows, rows_of, batch_of. cbn. apply list_eq. intros i. rewrite !list_lookup_fmap.
  destruct (decide (i < length ws)) as [Hi|Hi].
  - rewrite lookup_seq_lt by done. cbn. unfold value_at. cbn. rewrite list_lookup_fmap.
    destruct (lookup_lt_is_Some_2 _ _ Hi) as [w ->]. done.
  - by rewrite lookup_seq_ge, lookup_ge_None_2 by lia.
Qed.

Lemma rows_of_wm ws : Forall (λ r, is_Some (row_wm 0 r)) (rows_of ws).
Proof. apply Forall_fmap, Forall_true. intros w. by exists w. Qed.

Lemma batch_of_good ws : good sch 0 (batch_of ws).
Proof.
  split; [|split; [done|rewrite batch_of_rows; apply rows_of_wm]].
  split.
  - constructor; [|constructor]. split; [done|]. right. by apply Forall_fmap, Forall_true.
  - constructor; [|constructor]. unfold array_len. cbn. by rewrite length_fmap.
Qed.

Lemma rows_batch_of ws : rows [batch_of ws] = rows_of ws.
Proof.
  unfold rows. change (concat (batch_rows <$> [batch_of ws])) with (batch_rows (batch_of ws) ++ []).
  by rewrite app_nil_r, batch_of_rows.
Qed.

Lemma run_past_eq n w :
  run n (incremental_query "q" "ts" w) = inr [batch_of (filter (λ s, ¬ String.le s w) (take n stamps))].
Proof.
  unfold run. change (incremental_query "q" "ts" w) with ("q WHERE ts > '" +:+ (w +:+ "'")).
  change (String.eqb ("q WHERE ts > '" +:+ (w +:+ "'")) "q") with false. cbv iota zeta.
  rewrite str_drop_exact.
  assert (String.length (w +:+ "'") = S (String.length w)) as ->
    by (clear; induction w as [|a w IH]; [done|]; rewrite str_app_cons; cbn [String.length]; lia).
  cbn [Nat.sub]. by rewrite Nat.sub_0_r, str_take_app.
Qed.

Lemma rows_of_past w l : rows_of (filter (λ s, ¬ String.le s w) l) = filter (past 0 w) (rows_of l).
Proof.
  unfold rows_of. induction l as [|s l IH]; [done|]. rewrite fmap_cons, !filter_cons.
  destruct (decide (past 0 w [Some (VUtf8 s)])) as [H|H]; change (past 0 w _) with (¬ String.le s w) in H;
    [rewrite decide_True by done | rewrite decide_False by done]; rewrite ?fmap_cons, IH; done.
Qed.

Lemma run_past n w bs :
  run n (incremental_query "q" "ts" w) = inr bs →
  Forall (good sch 0) bs ∧ rows bs = filter (past 0 w) (source n).
Proof.
  rewrite run_past_eq. intros [= <-]. split; [constructor; [apply batch_of_good|done]|].
  rewrite rows_batch_of. apply rows_of_past.
Qed.

Lemma later_rows ws ws' :
  Forall (λ s, Forall (λ s', ¬ String.le s' s) ws') ws → later 0 (rows_of ws) (rows_of ws').
Proof.
  intros H r r' s s' (w & -> & Hw)%list_elem_of_fmap (w' & -> & Hw')%list_elem_of_fmap [= <-] [= <-].
  rewrite Forall_forall in H. specialize (H w Hw). rewrite Forall_forall in H. by apply H.
Qed.

Lemma source_grows n : ∃ new, source (S n) = source n ++ new ∧ later 0 (source n) new.
Proof.
  exists (rows_of (drop n (take (S n) stamps))). split.
  - unfold source, rows_of. rewrite <- fmap_app. f_equal.
    rewrite <- (take_drop n (take (S n) stamps)) at 1. f_equal. by rewrite take_take, Nat.min_l by lia.
  - apply later_rows. destruct n as [|[|[|n]]];
      [refine (bool_decide_unpack _ _); vm_compute; exact I..|].
    rewrite drop_ge by (rewrite length_take; cbn; lia). apply Forall_true. done.
Qed.
End Demo.

Lemma view_holds_its_source_witness :
  ∃ v, polled (K := RefArrow) Demo.view (λ i, N.of_nat (20 * i)) Demo.run ∅ 4 !! "v" = Some v ∧
       rows (batches v) = Demo.source 3.
Proof.
  destruct (view_holds_its_source (K := RefArrow)
    Demo.ref_cast_utf8
    Demo.sch "ts" 0 (mkField "ts" Utf8 false) eq_refl eq_refl eq_refl Demo.source
    ltac:(intros n; apply Demo.rows_of_wm) Demo.source_grows
    Demo.view (λ i, N.of_nat (20 * i)) Demo.run ltac:(right; reflexivity)
    ltac:(intros n bs [= <-]; split; [constructor; [apply Demo.batch_of_good|done]|apply Demo.rows_batch_of])
    ltac:(intros n w bs; apply Demo.run_past) ∅ 4) as (v & Hv & Hd & H).
  exists v. split; [exact Hv|]. destruct H as [[H _]|(m & Hm & Ht & Hr)].
  - vm_compute in Hv. injection Hv as <-. discriminate H.
  - rewrite Hr. vm_compute in Hv. injection Hv as <-. cbn in Ht. injection Ht as Ht.
    assert (m = 3) as -> by lia. reflexivity.
Defined.

(** ** Where the refresh goes wrong *)

Lemma fresh_insert (r : ViewRegistry) n v d bs now :
  batches v = bs → last_refresh v = Some now → def v = d →
  get_results (<[n := v]> r) n = Some bs ∧
  ∃ v', (<[n := v]> r) !! n = Some v' ∧ def v' = d ∧ needs_refresh now v' = false.
Proof.
  intros <- Hl <-. unfold get_results. rewrite lookup_insert_eq. cbn [mbind option_bind].
  rewrite (bool_decide_eq_false_2 (last_refresh v = None)), andb_false_r by congruence.
  split; [done|]. exists v. split_and!; [done..|]. unfold needs_refresh. rewrite Hl, N.sub_diag.
  by apply N.ltb_ge, N.le_0_l.
Qed.

(** A view that is replaced by another definition of the same name while
    its refresh awaits the query is then filled with the rows of the old
    query: readers of the new view get them, and the scheduler takes the new
    view for fresh.  The refresh looks the view up again by name and does not
    compare the definition it read before. *)
Theorem replaced_view_serves_old_rows `{K : ArrowKernels} r n s d' bs now :
  refresh_begin r n = Some s → view_name d' = n →
  let r' := refresh_finish (register r d') now n s (inr bs) in
  get_results r' n = Some bs ∧
  ∃ v, r' !! n = Some v ∧ def v = d' ∧ needs_refresh now v = false.
Proof.
  intros _ <-. unfold refresh_finish, register. rewrite lookup_insert_eq. cbv zeta.
  apply fresh_insert; unfold refreshed; cbv zeta; destruct (_ && _);
    try destruct (if snap_incremental s then _ else _); done.
Qed.

Lemma replaced_view_serves_old_rows_witness :
  let old := mkViewDef "v" "select errors" 60 FullRefresh in
  let new := mkViewDef "v" "select users" 60 FullRefresh in
  let answer := Demo.batch_of ["2024-01-01"] in
  let r := register ∅ old in
  let s := mkSnapshot "select errors" false None None in
  get_results (refresh_finish (K := RefArrow) (register r new) 5 "v" s (inr [answer])) "v" = Some [answer].
Proof.
  intros old new answer r s.
  exact (proj1 (replaced_view_serves_old_rows (K := RefArrow) r "v" s new [answer] 5 eq_refl eq_refl)).
Defined.

(** Watermarks are compared as strings, also those of a number column: of the
    rows 9 and 10 the watermark is 9, so the next refresh of the unchanged
    source fetches row 10 once more. *)
Definition id_schema : Schema := [mkField "id" Int64 false].
Definition ids (l : list Z) : RecordBatch :=
  mkBatch id_schema [mkArray Int64 ((λ z, Some (VInt z)) <$> l)] (length l).
Definition id_view : MaterializedViewDef := mkViewDef "v" "q" 10 (Incremental "id").
Definition id_source (q : string) : string + list RecordBatch :=
  if String.eqb q "q" then inr [ids [9; 10]%Z]
  else if String.eqb q "q WHERE id > '9'" then inr [ids [10]%Z]
  else inl "unexpected query".

Lemma numeric_watermark_repeats_rows :
  (λ v, (rows (batches v), watermark v)) <$>
    (polled (K := RefArrow) id_view (λ i, N.of_nat (20 * i)) (λ _, id_source) ∅ 2 !! "v") =
  Some (rows [ids [9; 10; 10]%Z], Some "10").
Proof. vm_compute. reflexivity. Qed.
