(* ===== verification/Transactions.v ===== *)
(** * Transactions: buffered writes and the BEGIN / COMMIT / ROLLBACK statements

    Models [crates/fuse-server/src/transaction.rs] and the part of
    [crates/fuse-server/src/api.rs] that recognises and serves the three
    transaction statements.  The mutex-protected hash map is the state that
    every operation takes and returns; a datasource's [write_batches] is a
    parameter acting on an abstract world.

    The theorems: a transaction returns at COMMIT exactly the writes buffered
    in it since its BEGIN, in order, whatever the other clients do meanwhile;
    the number of open transactions is bounded; and, since no statement ever
    buffers a write, the statements as served write nothing. *)

From S2P Require Import Prelude Strs Arrow Connector Errors.
From stdpp Require Import base list gmap strings.
From Stdlib Require Import NArith Lia.

(** ** The store *)

Record PendingWrite : Type := mkWrite {
  datasource : string;
  write_table : string;
  batches : list RecordBatch;
}.

Record Transaction : Type := mkTxn { writes : list PendingWrite }.

Definition MAX_ACTIVE_TRANSACTIONS : nat := 100.

Abbreviation TransactionStore := (gmap string Transaction).

Definition store_new : TransactionStore := ∅.

Definition begin (s : TransactionStore) (txn_id : string) : bool * TransactionStore :=
  if bool_decide (is_Some (s !! txn_id)) || (MAX_ACTIVE_TRANSACTIONS <=? size s)
  then (false, s)
  else (true, <[txn_id := mkTxn []]> s).

Definition add_write (s : TransactionStore) (txn_id : string) (w : PendingWrite)
    : bool * TransactionStore :=
  match s !! txn_id with
  | Some txn => (true, <[txn_id := mkTxn (writes txn ++ [w])]> s)
  | None => (false, s)
  end.

Definition take_writes (s : TransactionStore) (txn_id : string)
    : option (list PendingWrite) * TransactionStore :=
  (writes <$> s !! txn_id, delete txn_id s).

Definition rollback (s : TransactionStore) (txn_id : string) : bool * TransactionStore :=
  (bool_decide (is_Some (s !! txn_id)), delete txn_id s).

Definition is_active (s : TransactionStore) (txn_id : string) : bool :=
  bool_decide (is_Some (s !! txn_id)).

Definition count (s : TransactionStore) : nat := size s.

(** ** The statements *)

(** [&s[n..]] of a string that starts with a keyword of length [n]. *)
Definition after_keyword (kw query : string) : string :=
  trim (str_drop (String.length kw) (trim query)).
Definition nonempty_id (id : string) : option string :=
  if String.eqb id "" then None else Some id.

(** [parse_begin]; [fresh] is the identifier [uuid_v4] makes up from the clock. *)
Definition parse_begin (fresh query : string) : option string :=
  let lower := to_lowercase (trim query) in
  if String.eqb lower "begin" || String.eqb lower "begin transaction" then Some fresh
  else
    match (if starts_with "begin transaction " lower
           then nonempty_id (after_keyword "begin transaction " query) else None) with
    | Some id => Some id
    | None =>
        if starts_with "begin " lower && negb (starts_with "begin transaction" lower)
        then nonempty_id (after_keyword "begin " query) else None
    end.

Definition parse_commit (query : string) : option string :=
  let lower := to_lowercase (trim query) in
  if String.eqb lower "commit" then None
  else if starts_with "commit " lower then nonempty_id (after_keyword "commit " query)
  else None.

Definition parse_rollback (query : string) : option string :=
  let lower := to_lowercase (trim query) in
  if String.eqb lower "rollback" then None
  else if starts_with "rollback " lower then nonempty_id (after_keyword "rollback " query)
  else None.

Record WriteResult : Type := mkResult { res_datasource : string; res_table : string; rows_written : N }.
Record WriteError : Type :=
  mkError { err_datasource : string; err_table : option string; err_message : string }.

(** The JSON responses, by their fields. *)
Inductive Response : Type :=
| Begun (transaction_id : string)
| Committed (transaction_id : string) (results : list WriteResult) (errors : list WriteError)
| RolledBack (transaction_id : string)
| ErrorJson (status : N) (message : string).

Definition CONFLICT : N := 409.
Definition NOT_FOUND : N := 404.
Definition BAD_REQUEST : N := 400.

Section Statements.
(** [write_batches world datasource table batches] is [None] when no such
    connector is registered. *)
Context {World : Type}
  (write_batches : World → string → string → list RecordBatch → option ((ConnectorError + N) * World)).

(** The COMMIT loop: every write is tried, in order; failures are collected. *)
Fixpoint flush (world : World) (pws : list PendingWrite)
    : list WriteResult * list WriteError * World :=
  match pws with
  | [] => ([], [], world)
  | pw :: pws =>
      match write_batches world (datasource pw) (write_table pw) (batches pw) with
      | Some (inr n, world) =>
          let '(rs, es, world) := flush world pws in
          (mkResult (datasource pw) (write_table pw) n :: rs, es, world)
      | Some (inl e, world) =>
          let '(rs, es, world) := flush world pws in
          (rs, mkError (datasource pw) (Some (write_table pw)) (connector_error_display e) :: es, world)
      | None =>
          let '(rs, es, world) := flush world pws in
          (rs, mkError (datasource pw) None "not found" :: es, world)
      end
  end.

(** [id.or_else(|| params["transaction_id"])]. *)
Definition or_param (o p : option string) : option string :=
  match o with Some id => Some id | None => p end.

Definition handle_begin (s : TransactionStore) (fresh query : string)
    : option (Response * TransactionStore) :=
  match parse_begin fresh query with
  | Some txn_id =>
      let '(ok, s) := begin s txn_id in
      Some (if ok then Begun txn_id
            else ErrorJson CONFLICT ("transaction '" +:+ txn_id +:+ "' already exists"), s)
  | None => None
  end.

Definition handle_commit (s : TransactionStore) (world : World) (query : string) (param : option string)
    : Response * TransactionStore * World :=
  match or_param (parse_commit query) param with
  | None => (ErrorJson BAD_REQUEST "COMMIT requires transaction_id", s, world)
  | Some txn_id =>
      let '(taken, s) := take_writes s txn_id in
      match taken with
      | None => (ErrorJson NOT_FOUND ("transaction '" +:+ txn_id +:+ "' not found"), s, world)
      | Some pws =>
          let '(results, errors, world) := flush world pws in
          (Committed txn_id results errors, s, world)
      end
  end.

Definition handle_rollback (s : TransactionStore) (query : string) (param : option string)
    : Response * TransactionStore :=
  match or_param (parse_rollback query) param with
  | None => (ErrorJson BAD_REQUEST "ROLLBACK requires transaction_id", s)
  | Some txn_id =>
      let '(ok, s) := rollback s txn_id in
      (if ok then RolledBack txn_id
       else ErrorJson NOT_FOUND ("transaction '" +:+ txn_id +:+ "' not found"), s)
  end.

(** The transaction part of the query handler; [None] when the statement is
    passed on to the handlers that follow. *)
Definition handle_transaction (s : TransactionStore) (world : World)
    (fresh query : string) (param : option string)
    : option Response * TransactionStore * World :=
  let lower := to_lowercase (trim query) in
  let begun :=
    if String.eqb lower "begin" || starts_with "begin " lower || String.eqb lower "begin transaction"
    then handle_begin s fresh query else None in
  match begun with
  | Some (r, s) => (Some r, s, world)
  | None =>
      if String.eqb lower "commit" || starts_with "commit " lower
      then let '(r, s, world) := handle_commit s world query param in (Some r, s, world)
      else if String.eqb lower "rollback" || starts_with "rollback " lower
      then let '(r, s) := handle_rollback s query param in (Some r, s, world)
      else (None, s, world)
  end.

(** A session: requests served one after the other. *)
Record Request : Type := mkRequest { req_fresh : string; req_query : string; req_param : option string }.

Fixpoint serve (s : TransactionStore) (world : World) (reqs : list Request)
    : list (option Response) * TransactionStore * World :=
  match reqs with
  | [] => ([], s, world)
  | r :: reqs =>
      let '(resp, s, world) := handle_transaction s world (req_fresh r) (req_query r) (req_param r) in
      let '(resps, s, world) := serve s world reqs in
      (resp :: resps, s, world)
  end.
End Statements.

(** ** The store under concurrent use: any sequence of operations *)

Inductive op : Type :=
| OBegin (id : string)
| OAdd (id : string) (w : PendingWrite)
| OTake (id : string)
| ORollback (id : string).

Definition apply_op (s : TransactionStore) (o : op) : TransactionStore :=
  match o with
  | OBegin id => (begin s id).2
  | OAdd id w => (add_write s id w).2
  | OTake id => (take_writes s id).2
  | ORollback id => (rollback s id).2
  end.

(** The writes a trace buffers in transaction [id]. *)
Definition buffered (id : string) (o : op) : option PendingWrite :=
  match o with OAdd id' w => if decide (id' = id) then Some w else None | _ => None end.
Definition ends (id : string) (o : op) : Prop := o = OTake id ∨ o = ORollback id.

Lemma size_delete_le (s : TransactionStore) id : size (delete id s) ≤ size s.
Proof. rewrite map_size_delete. destruct (s !! id); [lia|done]. Qed.

Lemma apply_op_size s o :
  size s ≤ MAX_ACTIVE_TRANSACTIONS → size (apply_op s o) ≤ MAX_ACTIVE_TRANSACTIONS.
Proof.
  intros Hs. destruct o as [id|id w|id|id]; cbn [apply_op].
  - unfold begin. case_bool_decide as Hid; [done|]. cbn [orb].
    destruct (Nat.leb_spec MAX_ACTIVE_TRANSACTIONS (size s)); [done|]. cbn [snd].
    rewrite map_size_insert_None; [lia|]. by apply eq_None_not_Some.
  - unfold add_write. destruct (s !! id) as [txn|] eqn:E; [|done]. cbn.
    by rewrite map_size_insert_Some by eauto.
  - unfold take_writes. cbn [snd]. etrans; [apply size_delete_le|done].
  - unfold rollback. cbn [snd]. etrans; [apply size_delete_le|done].
Qed.

Lemma apply_op_other s o id txn :
  s !! id = Some txn → ¬ ends id o →
  apply_op s o !! id = Some (mkTxn (writes txn ++ option_list (buffered id o))).
Proof.
  intros Hs Ho. destruct txn as [ws]. cbn. destruct o as [id'|id' w|id'|id']; cbn.
  - rewrite app_nil_r. unfold begin. case_bool_decide as Hid; [done|]. cbn [orb].
    destruct (_ <=? _); [done|]. cbn. rewrite lookup_insert_ne; [done|].
    intros ->. destruct Hid. eauto.
  - unfold add_write. case_decide as Hid; subst; cbn.
    + rewrite Hs. cbn. by rewrite lookup_insert_eq.
    + rewrite app_nil_r. destruct (s !! id'); cbn; [by rewrite lookup_insert_ne|done].
  - rewrite app_nil_r, lookup_delete_ne; [done|]. intros ->. destruct Ho. by left.
  - rewrite app_nil_r, lookup_delete_ne; [done|]. intros ->. destruct Ho. by right.
Qed.

Lemma run_size s ops :
  size s ≤ MAX_ACTIVE_TRANSACTIONS → size (foldl apply_op s ops) ≤ MAX_ACTIVE_TRANSACTIONS.
Proof. revert s; induction ops; cbn; auto using apply_op_size. Qed.

Lemma run_buffers s ops id ws :
  s !! id = Some (mkTxn ws) → Forall (λ o, ¬ ends id o) ops →
  foldl apply_op s ops !! id = Some (mkTxn (ws ++ omap (buffered id) ops)).
Proof.
  intros Hs Hops. revert s ws Hs. induction Hops as [|o ops Ho _ IH]; intros s ws Hs; cbn.
  - by rewrite app_nil_r.
  - erewrite IH; [|by apply apply_op_other]. cbn. rewrite <- app_assoc.
    by destruct (buffered id o).
Qed.

(** A transaction that was begun returns at COMMIT exactly the writes
    buffered in it, in order, whatever sequence of operations on this and the
    other transactions ran in between (none of them ending this one); it is
    closed afterwards, and at no point are more than 100 transactions open. *)
Theorem txn_returns_its_writes before s1 id ops :
  let s0 := foldl apply_op store_new before in
  begin s0 id = (true, s1) →
  Forall (λ o, ¬ ends id o) ops →
  let s2 := foldl apply_op s1 ops in
  (take_writes s2 id).1 = Some (omap (buffered id) ops) ∧
  is_active (take_writes s2 id).2 id = false ∧
  (take_writes (take_writes s2 id).2 id).1 = None ∧
  count s2 ≤ MAX_ACTIVE_TRANSACTIONS.
Proof.
  intros s0 Hb Hops s2.
  assert (s1 !! id = Some (mkTxn [])) as H1.
  { unfold begin in Hb. destruct (_ || _); simplify_eq. by rewrite lookup_insert_eq. }
  assert (s1 = apply_op s0 (OBegin id)) as -> by (cbn; by rewrite Hb).
  pose proof (run_buffers _ ops id [] H1 Hops) as H2. cbn [app] in H2.
  unfold s2, take_writes, is_active, count. cbn [fst snd].
  rewrite H2, lookup_delete_eq. repeat split.
  apply run_size, apply_op_size, run_size. unfold store_new. rewrite map_size_empty. apply Nat.le_0_l.
Qed.

Lemma txn_returns_its_writes_witness :
  let w1 := mkWrite "pg" "t" [] in
  let w2 := mkWrite "s3" "u" [] in
  let ops := [OAdd "b" w2; OBegin "c"; OAdd "a" w1; OTake "b"; OAdd "a" w2] in
  let s2 := foldl apply_op (begin (foldl apply_op store_new [OBegin "b"]) "a").2 ops in
  (take_writes s2 "a").1 = Some [w1; w2].
Proof.
  intros w1 w2 ops s2.
  destruct (txn_returns_its_writes [OBegin "b"] (begin (foldl apply_op store_new [OBegin "b"]) "a").2
              "a" ops) as [H _].
  - vm_compute. reflexivity.
  - repeat constructor; intros [H|H]; discriminate H.
  - exact H.
Defined.

(** ** What the statements can do *)

Definition all_empty (s : TransactionStore) : Prop := map_Forall (λ _ t, writes t = []) s.

Lemma begin_all_empty s id : all_empty s → all_empty (begin s id).2.
Proof.
  intros Hs. unfold begin. destruct (_ || _); [done|]. cbn.
  by apply map_Forall_insert_2.
Qed.

Section StatementFacts.
Context {World : Type}
  (write_batches : World → string → string → list RecordBatch → option ((ConnectorError + N) * World)).

(** COMMIT answers for every write, once. *)
Lemma flush_length world pws :
  length (flush write_batches world pws).1.1 + length (flush write_batches world pws).1.2 = length pws.
Proof.
  revert world; induction pws as [|pw pws IH]; intros world; [done|]. cbn [flush].
  destruct (write_batches _ _ _ _) as [[[e|n] world']|];
    [specialize (IH world')|specialize (IH world')|specialize (IH world)];
    destruct (flush write_batches _ pws) as [[rs es] w]; cbn in *; lia.
Qed.

Definition idle (r : option Response) : Prop :=
  match r with Some (Committed _ rs es) => rs = [] ∧ es = [] | _ => True end.

Lemma handle_transaction_idle s world fresh query param r s' world' :
  handle_transaction write_batches s world fresh query param = (r, s', world') →
  all_empty s → idle r ∧ all_empty s' ∧ world' = world.
Proof.
  unfold handle_transaction, handle_begin. intros H Hs.
  destruct (if _ || _ || _ then _ else _) as [[r0 s0]|] eqn:E; [simplify_eq|clear E; destruct (_ || _)].
  - destruct (_ || _ || _); [|done]. destruct (parse_begin fresh query) as [id|]; [|done].
    pose proof (begin_all_empty s id Hs) as Hb.
    destruct (begin s id) as [[] s0]; by simplify_eq.
  - unfold handle_commit in H. destruct (or_param _ _) as [id|]; [|by simplify_eq].
    unfold take_writes in H. pose proof (map_Forall_delete _ _ id Hs) as Hd.
    destruct (s !! id) as [txn|] eqn:Eid; cbn in H; [|by simplify_eq].
    rewrite (map_Forall_lookup_1 _ _ _ _ Hs Eid) in H. cbn in H. by simplify_eq.
  - unfold handle_rollback, rollback in H. destruct (_ || _); [|by simplify_eq].
    destruct (or_param _ _) as [id|]; [|by simplify_eq].
    pose proof (map_Forall_delete _ _ id Hs) as Hd.
    destruct (bool_decide _); by simplify_eq.
Qed.

(** In any session of BEGIN, COMMIT, ROLLBACK and other statements no
    COMMIT writes anything: every successful COMMIT reports an empty list of
    results and of errors, and no datasource is touched.  The statements never
    buffer a write: [add_write] has no caller outside its own tests. *)
Theorem sessions_commit_nothing world reqs :
  let '(resps, s, world') := serve write_batches store_new world reqs in
  Forall idle resps ∧ all_empty s ∧ world' = world.
Proof.
  assert (∀ s, all_empty s → let '(resps, s', world') := serve write_batches s world reqs in
            Forall idle resps ∧ all_empty s' ∧ world' = world) as H.
  { induction reqs as [|r reqs IH]; intros s Hs; cbn; [done|].
    destruct (handle_transaction _ _ _ _ _ _) as [[resp s1] w1] eqn:E.
    apply handle_transaction_idle in E as (? & H1 & ->); [|done]. specialize (IH s1 H1).
    destruct (serve write_batches s1 world reqs) as [[resps s2] w2].
    destruct IH as (? & ? & ?). auto. }
  apply H. by apply map_Forall_empty.
Qed.
End StatementFacts.
