(* ===== verification/Json.v ===== *)
(** * Json: the JSON values query results are made of

    The server's result operators work on rows of [serde_json::Value].  The
    crate is a dependency: this file fixes the data the code matches on, and
    takes what the code calls of the crate as the class [JsonOps].  What the
    crate documents of these calls is the class [JsonLaws]: the compact text of
    a value is JSON, hence it denotes one value only and ends where the value
    ends.  [RefJson] of the file [JsonRef] is a concrete printer that satisfies
    the laws. *)

From S2P Require Import Prelude Strs.
From stdpp Require Import base list strings.
From Stdlib Require Import NArith ZArith Lia Ascii SpecFloat.

(** ** Values *)

Inductive Number : Type :=
| NInt (z : Z)
| NFloat (f : spec_float).

Local Unset Elimination Schemes.
Inductive Value : Type :=
| JNull
| JBool (b : bool)
| JNumber (n : Number)
| JString (s : string)
| JArray (l : list Value)
| JObject (m : list (string * Value)).
Local Set Elimination Schemes.

(** Induction that reaches the members of arrays and objects. *)
Section ValueInduction.
Context (P : Value → Prop).
Hypothesis P_null : P JNull.
Hypothesis P_bool : ∀ b, P (JBool b).
Hypothesis P_number : ∀ n, P (JNumber n).
Hypothesis P_string : ∀ s, P (JString s).
Hypothesis P_array : ∀ l, Forall P l → P (JArray l).
Hypothesis P_object : ∀ m, Forall (λ kv, P kv.2) m → P (JObject m).

Fixpoint Value_ind (v : Value) : P v :=
  match v with
  | JNull => P_null
  | JBool b => P_bool b
  | JNumber n => P_number n
  | JString s => P_string s
  | JArray l =>
      P_array l ((fix all (l : list Value) : Forall P l :=
                    match l with
                    | [] => Forall_nil_2 P
                    | v :: l => Forall_cons_2 P v l (Value_ind v) (all l)
                    end) l)
  | JObject m =>
      P_object m ((fix all (m : list (string * Value)) : Forall (λ kv, P kv.2) m :=
                     match m with
                     | [] => Forall_nil_2 _
                     | kv :: m => Forall_cons_2 _ kv m (Value_ind kv.2) (all m)
                     end) m)
  end.
End ValueInduction.

Definition is_null (v : Value) : bool := match v with JNull => true | _ => false end.

(** A row, and [row.get(i)]. *)
Abbreviation row := (list Value).

(** ** What the code calls *)

Class JsonOps : Type := {
  to_string : Value → string;            (** [Display], compact JSON text *)
  value_eqb : Value → Value → bool;      (** [PartialEq] *)
  number_as_f64 : Number → option spec_float;
  number_from_f64 : spec_float → option Number;
}.

(** [v.as_f64()]. *)
Definition as_f64 `{JsonOps} (v : Value) : option spec_float :=
  match v with JNumber n => number_as_f64 n | _ => None end.

(** [match v { Value::String(s) => s.clone(), _ => v.to_string() }]. *)
Definition plain_text `{JsonOps} (v : Value) : string :=
  match v with JString s => s | _ => to_string v end.

(** Characters that cannot continue the text of a value. *)
Definition NUL : ascii := ascii_of_nat 0.
Definition delimiter (c : ascii) : bool :=
  match N_of_ascii c with
  | 0 | 44 | 58 | 93 | 124 | 125 => true   (* NUL , : ] | } *)
  | _ => false
  end%N.

(** What may follow the text of a value. *)
Definition stops (x : string) : Prop :=
  match x with EmptyString => True | String c _ => delimiter c = true end.

(** The group a text's first character puts it in: strings, numbers, and the
    rest. *)
Inductive shape : Type := ShString | ShNumber | ShBool | ShArray | ShObject | ShNull.
Definition shape_of (v : Value) : shape :=
  match v with
  | JNull => ShNull | JBool _ => ShBool | JNumber _ => ShNumber
  | JString _ => ShString | JArray _ => ShArray | JObject _ => ShObject
  end.
Definition first_of (sh : shape) (c : ascii) : bool :=
  let n := N_of_ascii c in
  match sh with
  | ShString => (n =? 34)%N
  | ShNumber => ((n =? 45) || (48 <=? n) && (n <=? 57))%N
  | ShArray => (n =? 91)%N
  | ShObject => (n =? 123)%N
  | ShBool => ((n =? 102) || (n =? 116))%N
  | ShNull => (n =? 110)%N
  end.

Definition f64_finite (f : spec_float) : bool :=
  match f with S754_zero _ | S754_finite _ _ _ => true | _ => false end.

Class JsonLaws (J : JsonOps) : Prop := {
  (** the text denotes one value and says where it ends *)
  to_string_delimited v w x y :
    stops x → stops y → to_string v +:+ x = to_string w +:+ y → v = w ∧ x = y;
  to_string_shape v : ∃ c s, to_string v = String c s ∧ first_of (shape_of v) c = true;
  (** JSON numbers are finite *)
  number_finite n f : number_as_f64 n = Some f → f64_finite f = true;
  value_eqb_refl v : value_eqb v v = true;
}.

Lemma to_string_inj `{J : JsonOps, !JsonLaws J} v w : to_string v = to_string w → v = w.
Proof.
  intros H. apply (to_string_delimited v w "" ""); [exact I..|]. by rewrite H.
Qed.

#[export] Instance to_string_Inj `{J : JsonOps, !JsonLaws J} : Inj (=) (=) to_string.
Proof. intros v w. apply to_string_inj. Qed.

Lemma to_string_nonempty `{J : JsonOps, !JsonLaws J} v : to_string v ≠ "".
Proof. destruct (to_string_shape v) as (c & s & -> & _). discriminate. Qed.

(** ** Row keys: the texts of the cells joined with a delimiter *)

Definition row_key `{JsonOps} (sep : ascii) (r : row) : string :=
  join_with (String sep "") (to_string <$> r).

Definition row_tail `{JsonOps} (sep : ascii) (r : row) : string :=
  match r with [] => "" | _ => String sep (row_key sep r) end.

Lemma row_key_cons `{JsonOps} sep v r : row_key sep (v :: r) = to_string v +:+ row_tail sep r.
Proof.
  unfold row_key, row_tail. cbn [fmap list_fmap]. destruct r as [|w r]; [by rewrite str_app_nil|].
  rewrite fmap_cons, join_with_cons. done.
Qed.

Lemma row_tail_stops `{JsonOps} sep r : delimiter sep = true → stops (row_tail sep r).
Proof. by destruct r. Qed.

(** Rows have the same key exactly when they are the same row. *)
Lemma row_key_inj `{J : JsonOps, !JsonLaws J} sep r r' :
  delimiter sep = true → row_key sep r = row_key sep r' → r = r'.
Proof.
  intros Hsep. revert r'. induction r as [|v r IH]; intros [|v' r'] H; [done|..].
  - rewrite row_key_cons in H. destruct (to_string_shape v') as (c & s & E & _).
    rewrite E in H. discriminate H.
  - rewrite row_key_cons in H. destruct (to_string_shape v) as (c & s & E & _).
    rewrite E in H. discriminate H.
  - rewrite !row_key_cons in H.
    apply to_string_delimited in H as [-> H]; [|by apply row_tail_stops..]. f_equal.
    destruct r as [|w r], r' as [|w' r']; [done|discriminate H|discriminate H|].
    apply IH. by injection H as H.
Qed.
