(* ===== verification/JsonRef.v ===== *)
(** * JsonRef: a concrete JSON printer

    An instance of [JsonOps] that satisfies [JsonLaws]: strings are quoted with
    their quotes and backslashes escaped, arrays and objects are written with
    commas, integers in decimal.  It shows that the laws can hold, and lets the
    theorems about the row operators be evaluated on concrete rows. *)

From S2P Require Import Prelude Strs Json.
From stdpp Require Import base list strings pretty countable.
From Stdlib Require Import NArith ZArith Lia Ascii SpecFloat.

(** ** The printer *)

Definition QUOTE : ascii := ascii_of_nat 34.
Definition BACKSLASH : ascii := ascii_of_nat 92.

Definition escape_char (c : ascii) : string :=
  if Ascii.eqb c QUOTE || Ascii.eqb c BACKSLASH then String BACKSLASH (String c "") else String c "".
Fixpoint escape (s : string) : string :=
  match s with
  | EmptyString => ""
  | String c s => escape_char c +:+ escape s
  end.
Definition quoted (s : string) : string := String QUOTE (escape s +:+ String QUOTE "").

Definition float_code (f : spec_float) : N :=
  match f with
  | S754_zero s => if s then 1 else 0
  | S754_finite s m e =>
      5 + Npos (encode (s, m, match e with Z0 => (0%N, xH) | Zpos p => (1%N, p) | Zneg p => (2%N, p) end))
  | S754_infinity s => if s then 3 else 2
  | S754_nan => 4
  end%N.

Definition ref_number (n : Number) : string :=
  match n with
  | NInt z => pretty z
  | NFloat f => "0x" +:+ pretty (float_code f)
  end.

Fixpoint ref_text (v : Value) : string :=
  match v with
  | JNull => "null"
  | JBool b => if b then "true" else "false"
  | JNumber n => ref_number n
  | JString s => quoted s
  | JArray l =>
      "[" +:+ (fix items (l : list Value) : string :=
                 match l with
                 | [] => "]"
                 | v :: l => ref_text v +:+ match l with [] => "]" | _ => "," +:+ items l end
                 end) l
  | JObject m =>
      "{" +:+ (fix members (m : list (string * Value)) : string :=
                 match m with
                 | [] => "}"
                 | (k, v) :: m =>
                     quoted k +:+ ":" +:+ ref_text v
                       +:+ match m with [] => "}" | _ => "," +:+ members m end
                 end) m
  end.

Fixpoint items (l : list Value) : string :=
  match l with
  | [] => "]"
  | v :: l => ref_text v +:+ match l with [] => "]" | _ => "," +:+ items l end
  end.
Fixpoint members (m : list (string * Value)) : string :=
  match m with
  | [] => "}"
  | (k, v) :: m =>
      quoted k +:+ ":" +:+ ref_text v +:+ match m with [] => "}" | _ => "," +:+ members m end
  end.

Lemma ref_text_array l : ref_text (JArray l) = "[" +:+ items l.
Proof. done. Qed.
Lemma ref_text_object m : ref_text (JObject m) = "{" +:+ members m.
Proof. done. Qed.

(** ** Reading back where a text ends *)

(** Two runs of characters of a class, each followed by none of the class. *)
Lemma run_split (p : ascii → bool) s s' x y :
  str_all p s = true → str_all p s' = true →
  match x with EmptyString => True | String c _ => p c = false end →
  match y with EmptyString => True | String c _ => p c = false end →
  s +:+ x = s' +:+ y → s = s' ∧ x = y.
Proof.
  revert s'; induction s as [|a s IH]; intros [|a' s'] Hs Hs' Hx Hy H;
    rewrite ?str_app_cons in H; [done|..].
  - change ("" +:+ x) with x in H. subst x. cbn in Hs'. by rewrite Hx in Hs'.
  - change ("" +:+ y) with y in H. subst y. cbn in Hs. by rewrite Hy in Hs.
  - injection H as -> H. cbn in Hs, Hs'. apply andb_prop in Hs as [_ Hs], Hs' as [_ Hs'].
    destruct (IH s' Hs Hs' Hx Hy H) as [-> ->]. done.
Qed.

Lemma escape_split s s' x y :
  escape s +:+ String QUOTE x = escape s' +:+ String QUOTE y → s = s' ∧ x = y.
Proof.
  revert s'; induction s as [|a s IH]; intros [|a' s'] H; cbn [escape] in H.
  - by injection H as ->.
  - unfold escape_char in H. destruct (_ || _) eqn:E; rewrite ?str_app_cons in H; injection H as H _.
    + discriminate H.
    + subst a'. discriminate E.
  - unfold escape_char in H. destruct (_ || _) eqn:E; rewrite ?str_app_cons in H; injection H as H _.
    + discriminate H.
    + subst a. discriminate E.
  - unfold escape_char in H.
    destruct (Ascii.eqb a QUOTE || Ascii.eqb a BACKSLASH) eqn:E,
      (Ascii.eqb a' QUOTE || Ascii.eqb a' BACKSLASH) eqn:E'; rewrite !str_app_cons in H.
    + injection H as -> H. destruct (IH s' H) as [-> ->]. done.
    + injection H as <- _. discriminate E'.
    + injection H as -> _. discriminate E.
    + injection H as -> H. destruct (IH s' H) as [-> ->]. done.
Qed.

Lemma quoted_split k k' x y : quoted k +:+ x = quoted k' +:+ y → k = k' ∧ x = y.
Proof.
  unfold quoted. rewrite !str_app_cons, <- !str_app_assoc, !str_app_cons.
  intros H. injection H as H. by apply escape_split.
Qed.

(** Characters of a number text. *)
Definition num_char (c : ascii) : bool :=
  let n := N_of_ascii c in ((n =? 45) || (48 <=? n) && (n <=? 57) || (n =? 120))%N.

Lemma digit_num_char c : is_Some (digit_value c) → num_char c = true.
Proof.
  unfold digit_value, num_char. intros [d H].
  destruct ((48 <=? N_of_ascii c) && (N_of_ascii c <=? 57))%N; [|done]. by rewrite orb_true_r.
Qed.

Lemma pretty_num_chars (n : N) : str_all num_char (pretty n) = true.
Proof.
  eapply str_all_impl; [|apply (pretty_digits n)]. intros c Hc.
  apply digit_num_char. by apply bool_decide_eq_true in Hc.
Qed.

Lemma pretty_Z_cases z :
  (∃ n : N, z = Z.of_N n ∧ pretty z = pretty n) ∨
  (∃ n : N, (0 < n)%N ∧ z = (- Z.of_N n)%Z ∧ pretty z = "-" +:+ pretty n).
Proof. destruct z as [|p|p]; [left; by exists 0%N|left; by exists (Npos p)|right; by exists (Npos p)]. Qed.

Lemma ref_number_chars n : str_all num_char (ref_number n) = true.
Proof.
  destruct n as [z|f]; cbn [ref_number].
  - destruct (pretty_Z_cases z) as [(n & -> & ->)|(n & _ & -> & ->)]; rewrite ?str_all_app, pretty_num_chars; done.
  - by rewrite str_all_app, pretty_num_chars.
Qed.

Lemma stops_num x : stops x → match x with EmptyString => True | String c _ => num_char c = false end.
Proof. destruct x as [|c x]; [done|]. cbn. by destruct c as [[] [] [] [] [] [] [] []]. Qed.

Lemma float_code_inj f g : float_code f = float_code g → f = g.
Proof.
  destruct f as [[]|[]| |s m e], g as [[]|[]| |s' m' e']; cbn; try done; try lia. intros H.
  assert (encode (s, m, match e with Z0 => (0%N, xH) | Zpos p => (1%N, p) | Zneg p => (2%N, p) end)
    = encode (s', m', match e' with Z0 => (0%N, xH) | Zpos p => (1%N, p) | Zneg p => (2%N, p) end)) as E by lia.
  apply encode_inj in E. destruct e, e'; by simplify_eq.
Qed.

Lemma ref_number_inj n n' : ref_number n = ref_number n' → n = n'.
Proof.
  assert (∀ (z : Z) f, pretty z ≠ "0x" +:+ pretty (float_code f)) as Hne.
  { intros z f H. destruct (pretty_Z_cases z) as [(m & _ & E)|(m & _ & _ & E)]; rewrite E in H.
    - pose proof (pretty_digits m) as Hd. rewrite H, str_all_app in Hd. discriminate Hd.
    - discriminate H. }
  destruct n as [z|f], n' as [z'|f']; cbn [ref_number]; intros H.
  - f_equal. by apply (inj pretty).
  - by apply Hne in H.
  - symmetry in H. by apply Hne in H.
  - f_equal. apply float_code_inj. rewrite !(str_app_cons "0" "x") in H. injection H as H.
    by apply (inj pretty).
Qed.

Lemma ref_number_first n : ∃ c s, ref_number n = String c s ∧ first_of ShNumber c = true.
Proof.
  destruct n as [z|f]; [|by eexists _, _].
  cbn [ref_number]. destruct (pretty_Z_cases z) as [(m & _ & ->)|(m & _ & _ & ->)]; [|by eexists _, _].
  pose proof (pretty_digits m) as H. pose proof (parse_pretty m) as Hp.
  destruct (pretty m) as [|c s]; [done|]. exists c, s. split; [done|].
  cbn in H. apply andb_prop in H as [H _]. apply bool_decide_eq_true in H as [d H].
  unfold digit_value in H. cbn. destruct (_ && _)%N; [|done]. by rewrite orb_true_r.
Qed.

Lemma ref_text_shape v : ∃ c s, ref_text v = String c s ∧ first_of (shape_of v) c = true.
Proof.
  destruct v as [|[]|n|s|l|m]; try (by eexists _, _). apply ref_number_first.
Qed.

(** Values whose texts start alike have the same shape. *)
Lemma shape_from_first v w c s s' :
  ref_text v = String c s → ref_text w = String c s' → shape_of v = shape_of w.
Proof.
  intros Hv Hw. destruct (ref_text_shape v) as (c1 & s1 & E1 & F1), (ref_text_shape w) as (c2 & s2 & E2 & F2).
  rewrite E1 in Hv. rewrite E2 in Hw. injection Hv as -> _. injection Hw as -> _.
  unfold first_of in *. destruct (shape_of v), (shape_of w); try done; exfalso; cbn in *;
    repeat match goal with
    | H : _ || _ = true |- _ => apply orb_prop in H as [H|H]
    | H : _ && _ = true |- _ => apply andb_prop in H as [? ?]
    | H : (_ =? _)%N = true |- _ => apply N.eqb_eq in H
    | H : (_ <=? _)%N = true |- _ => apply N.leb_le in H
    end; lia.
Qed.

(** One character in front. *)
Lemma char_inj c a b : String c "" +:+ a = String c "" +:+ b → a = b.
Proof. rewrite !str_app_cons. intros H. by injection H as H. Qed.

Definition delimited (v : Value) : Prop :=
  ∀ w x y, stops x → stops y → ref_text v +:+ x = ref_text w +:+ y → v = w ∧ x = y.

Lemma same_shape v w x y : ref_text v +:+ x = ref_text w +:+ y → shape_of v = shape_of w.
Proof.
  destruct (ref_text_shape v) as (c & s & E & _), (ref_text_shape w) as (c' & s' & E' & _).
  intros H. rewrite E, E', !str_app_cons in H. injection H as Hc _. subst c'.
  by eapply shape_from_first.
Qed.

Lemma text_not_char v c x : first_of (shape_of v) c = false → ∀ y, ref_text v +:+ x ≠ String c y.
Proof.
  intros Hc y H. destruct (ref_text_shape v) as (c' & s & E & F).
  rewrite E, str_app_cons in H. injection H as -> _. congruence.
Qed.

Lemma not_bracket v : first_of (shape_of v) "]" = false.
Proof. by destruct v. Qed.

Lemma items_delimited l :
  Forall delimited l → ∀ l' x y, items l +:+ x = items l' +:+ y → l = l' ∧ x = y.
Proof.
  induction 1 as [|v l Hv _ IH]; intros [|v' l'] x y H; cbn [items] in H.
  - by injection H as H.
  - rewrite <- str_app_assoc in H. symmetry in H. by apply text_not_char in H; [|apply not_bracket].
  - rewrite <- str_app_assoc in H. by apply text_not_char in H; [|apply not_bracket].
  - rewrite <- !str_app_assoc in H. apply Hv in H as [-> H].
    + destruct l as [|w l], l' as [|w' l'].
      * by apply char_inj in H as ->.
      * discriminate H.
      * discriminate H.
      * rewrite <- !str_app_assoc in H. apply char_inj in H.
        apply IH in H as [-> ->]. done.
    + by destruct l.
    + by destruct l'.
Qed.

Lemma members_delimited m :
  Forall (λ kv, delimited kv.2) m → ∀ m' x y, members m +:+ x = members m' +:+ y → m = m' ∧ x = y.
Proof.
  induction 1 as [|[k v] m Hv _ IH]; intros [|[k' v'] m'] x y H; cbn [members] in H.
  - by injection H as H.
  - discriminate H.
  - discriminate H.
  - cbn in Hv. rewrite <- !str_app_assoc in H. apply quoted_split in H as [-> H].
    apply char_inj in H. apply Hv in H as [-> H].
    + destruct m as [|w m], m' as [|w' m'].
      * by apply char_inj in H as ->.
      * discriminate H.
      * discriminate H.
      * rewrite <- !str_app_assoc in H. apply char_inj in H.
        apply IH in H as [-> ->]. done.
    + by destruct m.
    + by destruct m'.
Qed.

Lemma ref_text_delimited v : delimited v.
Proof.
  induction v as [|b|n|s|l IH|m IH] using Value_ind; intros w x y Hx Hy H;
    pose proof (same_shape _ _ _ _ H) as Hs; destruct w as [|b'|n'|s'|l'|m']; try done.
  - injection H as H. split; [done|exact H].
  - destruct b, b'; try discriminate H; injection H as H; (split; [done|exact H]).
  - apply (run_split num_char) in H as [H ->]; [|apply ref_number_chars|apply ref_number_chars|by apply stops_num|by apply stops_num].
    by rewrite (ref_number_inj n n' H).
  - apply quoted_split in H as [-> ->]. done.
  - rewrite !ref_text_array, <- !str_app_assoc in H. apply char_inj in H.
    by apply items_delimited in H as [-> ->].
  - rewrite !ref_text_object, <- !str_app_assoc in H. apply char_inj in H.
    by apply members_delimited in H as [-> ->].
Qed.

(** ** The instance *)

Definition RefJson : JsonOps := {|
  to_string := ref_text;
  value_eqb v w := String.eqb (ref_text v) (ref_text w);
  number_as_f64 n :=
    match n with
    | NInt z => let f := binary_normalize 53 1024 z 0 false in if f64_finite f then Some f else None
    | NFloat f => if f64_finite f then Some f else None
    end;
  number_from_f64 f := if f64_finite f then Some (NFloat f) else None;
|}.

#[export] Instance RefJsonLaws : JsonLaws RefJson.
Proof.
  split.
  - intros v w x y Hx Hy. by apply ref_text_delimited.
  - apply ref_text_shape.
  - intros [z|f] g; cbn.
    + destruct (f64_finite (binary_normalize 53 1024 z 0 false)) eqn:E; intros [= <-]; done.
    + destruct (f64_finite f) eqn:E; intros [= <-]; done.
  - intros v. apply String.eqb_refl.
Qed.

(** The printer tells values apart, so it decides their equality. *)
#[export] Instance Value_eq_dec : EqDecision Value.
Proof.
  intros v w. destruct (decide (ref_text v = ref_text w)) as [H|H].
  - left. by apply (to_string_inj (J := RefJson)).
  - right. intros ->. done.
Defined.
