(* ===== verification/Sorting.v ===== *)
(** * Sorting: [slice::sort_by] and the iteration order of B-trees

    Rust's [sort_by] is a stable sort; it is modelled by insertion, with the
    three facts its callers rely on: the result is a permutation, it is sorted
    when the comparator is a total preorder, and elements that compare equal
    keep their order.  [BTreeMap] and [BTreeSet] over strings are finite maps
    and sets iterated in key order. *)

From stdpp Require Import base list gmap strings sets sorting.
From Stdlib Require Import Lia.

(** ** Stable sorting *)

Section SortBy.
Context {A : Type} (cmp : A → A → comparison).

Fixpoint sort_insert (x : A) (l : list A) : list A :=
  match l with
  | [] => [x]
  | y :: l' => match cmp x y with Gt => y :: sort_insert x l' | _ => x :: l end
  end.
Definition sort_by (l : list A) : list A := foldr sort_insert [] l.

Definition sort_le (x y : A) : Prop := cmp x y ≠ Gt.

Lemma sort_insert_Permutation x l : sort_insert x l ≡ₚ x :: l.
Proof.
  induction l as [|y l IH]; [done|]. cbn. destruct (cmp x y); [done..|].
  rewrite IH. apply Permutation_swap.
Qed.

Lemma sort_by_Permutation l : sort_by l ≡ₚ l.
Proof. induction l as [|x l IH]; [done|]. cbn. by rewrite sort_insert_Permutation, IH. Qed.

Lemma sort_by_length l : length (sort_by l) = length l.
Proof. by rewrite sort_by_Permutation. Qed.

(** A comparator that orders: antisymmetric in its outcome, and transitive. *)
Class TotalPreorder : Prop := {
  cmp_antisym x y : cmp y x = CompOpp (cmp x y);
  cmp_trans x y z : sort_le x y → sort_le y z → sort_le x z;
}.

Lemma sort_insert_sorted `{!TotalPreorder} x l :
  StronglySorted sort_le l → StronglySorted sort_le (sort_insert x l).
Proof.
  induction 1 as [|y l Hl IH Hy]; cbn; [repeat constructor|].
  assert (cmp x y ≠ Gt → StronglySorted sort_le (x :: y :: l)) as Hfront.
  { intros Hxy. constructor; [by constructor|]. constructor; [done|].
    eapply Forall_impl; [exact Hy|]. intros z Hz. by apply (cmp_trans x y z). }
  destruct (cmp x y) eqn:E; [by apply Hfront..|].
  constructor; [done|]. rewrite sort_insert_Permutation. constructor; [|done].
  unfold sort_le. by rewrite cmp_antisym, E.
Qed.

Lemma sort_by_sorted `{!TotalPreorder} l : StronglySorted sort_le (sort_by l).
Proof. induction l as [|x l IH]; [constructor|]. by apply sort_insert_sorted. Qed.

(** Elements that compare equal keep their order. *)
Lemma sort_insert_stable (P : A → Prop) `{!∀ x, Decision (P x)} x l :
  (∀ x y, P x → P y → cmp x y = Eq) →
  filter P (sort_insert x l) = filter P (x :: l).
Proof.
  intros HP. induction l as [|y l IH]; [done|]. cbn [sort_insert].
  destruct (cmp x y) eqn:E; [done..|]. rewrite !filter_cons, IH, filter_cons.
  destruct (decide (P x)), (decide (P y)); try done. rewrite HP in E by done. discriminate E.
Qed.

Lemma sort_by_stable (P : A → Prop) `{!∀ x, Decision (P x)} l :
  (∀ x y, P x → P y → cmp x y = Eq) → filter P (sort_by l) = filter P l.
Proof.
  intros HP. induction l as [|x l IH]; [done|]. cbn [sort_by foldr].
  rewrite sort_insert_stable by done. rewrite !filter_cons.
  change (foldr sort_insert [] l) with (sort_by l). by rewrite IH.
Qed.

(** A sorted list is left as it is. *)
Lemma sort_by_id l : StronglySorted sort_le l → sort_by l = l.
Proof.
  induction 1 as [|x l Hl IH Hx]; [done|]. cbn [sort_by foldr].
  change (foldr sort_insert [] l) with (sort_by l). rewrite IH.
  destruct Hx as [|y l Hy _]; [done|]. cbn. unfold sort_le in Hy. by destruct (cmp x y).
Qed.
End SortBy.

(** Comparing by a key, forwards and backwards. *)
Lemma total_preorder_by {A B : Type} (f : A → B) (cmp : B → B → comparison) :
  TotalPreorder cmp → TotalPreorder (λ x y, cmp (f x) (f y)).
Proof. intros [Ha Ht]. split; [intros; apply Ha|]. intros x y z. apply Ht. Qed.

Lemma total_preorder_flip {A : Type} (cmp : A → A → comparison) :
  TotalPreorder cmp → TotalPreorder (λ x y, cmp y x).
Proof.
  intros [Ha Ht]. split; [intros x y; apply Ha|].
  intros x y z Hxy Hyz. by apply (Ht z y x).
Qed.

#[export] Instance compare_N_preorder : TotalPreorder N.compare.
Proof.
  split; [intros; apply N.compare_antisym|]. unfold sort_le. intros x y z. rewrite !N.compare_gt_iff. lia.
Qed.
#[export] Instance compare_Z_preorder : TotalPreorder Z.compare.
Proof.
  split; [intros; apply Z.compare_antisym|]. unfold sort_le. intros x y z. rewrite !Z.compare_gt_iff. lia.
Qed.

Lemma string_sort_le s t : sort_le String.compare s t ↔ String.le s t.
Proof. unfold sort_le, String.le, String.leb. by destruct (String.compare s t). Qed.

#[export] Instance compare_string_preorder : TotalPreorder String.compare.
Proof.
  split; [intros; apply String.compare_antisym|].
  intros x y z. rewrite !string_sort_le. apply transitivity.
Qed.

Lemma StronglySorted_impl_in {A : Type} (R S : A → A → Prop) l :
  (∀ a b, a ∈ l → b ∈ l → R a b → S a b) → StronglySorted R l → StronglySorted S l.
Proof.
  intros H Hl. induction Hl as [|a l Hl IH Ha]; [constructor|]. constructor.
  - apply IH. intros b c Hb Hc. apply H; by right.
  - rewrite Forall_forall in *. intros b Hb. apply H; [by left|by right|auto].
Qed.

(** ** B-trees keyed by strings *)

Definition btree_set (X : gset string) : list string := merge_sort String.le (elements X).
Definition btree_keys {A : Type} (m : gmap string A) : list string := btree_set (dom m).
Definition btree_entries {A : Type} (m : gmap string A) : list (string * A) :=
  omap (λ k, pair k <$> m !! k) (btree_keys m).

Lemma btree_set_elem X s : s ∈ btree_set X ↔ s ∈ X.
Proof. unfold btree_set. by rewrite merge_sort_Permutation, elem_of_elements. Qed.

Lemma btree_set_NoDup X : NoDup (btree_set X).
Proof. unfold btree_set. rewrite merge_sort_Permutation. apply NoDup_elements. Qed.

Lemma btree_set_sorted X : StronglySorted String.le (btree_set X).
Proof. apply (StronglySorted_merge_sort String.le). Qed.

Lemma btree_keys_elem {A : Type} (m : gmap string A) s : s ∈ btree_keys m ↔ is_Some (m !! s).
Proof. unfold btree_keys. by rewrite btree_set_elem, elem_of_dom. Qed.

Lemma btree_entries_elem {A : Type} (m : gmap string A) k x :
  (k, x) ∈ btree_entries m ↔ m !! k = Some x.
Proof.
  unfold btree_entries. rewrite list_elem_of_omap. split.
  - intros (k' & _ & E). destruct (m !! k') eqn:Ek; [|done]. by injection E as <- <-.
  - intros E. exists k. rewrite btree_keys_elem, E. eauto.
Qed.

(** The keys of the entries are the keys in order. *)
Lemma btree_entries_fst {A : Type} (m : gmap string A) : (btree_entries m).*1 = btree_keys m.
Proof.
  unfold btree_entries.
  assert (Forall (λ k, is_Some (m !! k)) (btree_keys m)) as Hall
    by (apply Forall_forall; intros k; by rewrite btree_keys_elem).
  induction Hall as [|k ks [x Hx] _ IH]; [done|]. cbn. rewrite Hx. cbn. by rewrite IH.
Qed.

(** ** Comparing by several keys *)

(** [a.cmp(b).then(...)]. *)
Definition lex_cmp {A : Type} (c1 c2 : A → A → comparison) (x y : A) : comparison :=
  match c1 x y with Eq => c2 x y | o => o end.

Section Lexicographic.
Context {A : Type} (c1 c2 : A → A → comparison).

Lemma cmp_lt_le_trans `{!TotalPreorder c1} x y z : c1 x y = Lt → sort_le c1 y z → c1 x z = Lt.
Proof.
  intros Hxy Hyz. destruct (c1 x z) eqn:E; [|done|]; exfalso;
    (assert (sort_le c1 y x) as H;
     [apply (cmp_trans c1 y z x); [done|unfold sort_le; rewrite (cmp_antisym c1 x z), E; done]
     |unfold sort_le in H; rewrite (cmp_antisym c1 x y), Hxy in H; done]).
Qed.

Lemma cmp_le_lt_trans `{!TotalPreorder c1} x y z : sort_le c1 x y → c1 y z = Lt → c1 x z = Lt.
Proof.
  intros Hxy Hyz. destruct (c1 x z) eqn:E; [|done|]; exfalso;
    (assert (sort_le c1 z y) as H;
     [apply (cmp_trans c1 z x y); [unfold sort_le; rewrite (cmp_antisym c1 x z), E; done|done]
     |unfold sort_le in H; rewrite (cmp_antisym c1 y z), Hyz in H; done]).
Qed.

Lemma cmp_eq_trans `{!TotalPreorder c1} x y z : c1 x y = Eq → c1 y z = Eq → c1 x z = Eq.
Proof.
  intros Hxy Hyz.
  assert (sort_le c1 x z) as H1 by (apply (cmp_trans c1 x y z); unfold sort_le; congruence).
  assert (sort_le c1 z x) as H2
    by (apply (cmp_trans c1 z y x); unfold sort_le; rewrite cmp_antisym by done; by rewrite ?Hxy, ?Hyz).
  unfold sort_le in *. rewrite (cmp_antisym c1 x z) in H2. by destruct (c1 x z).
Qed.

#[export] Instance lex_cmp_preorder : TotalPreorder c1 → TotalPreorder c2 → TotalPreorder (lex_cmp c1 c2).
Proof.
  intros T1 T2. split.
  - intros x y. unfold lex_cmp. rewrite (cmp_antisym c1 x y), (cmp_antisym c2 x y). by destruct (c1 x y).
  - intros x y z. unfold sort_le, lex_cmp.
    destruct (c1 x y) eqn:E1, (c1 y z) eqn:E2; try done; intros H1 H2.
    + rewrite (cmp_eq_trans x y z) by done. by apply (cmp_trans c2 x y z).
    + rewrite (cmp_le_lt_trans x y z); [done| |done]. unfold sort_le. congruence.
    + rewrite (cmp_lt_le_trans x y z); [done|done|]. unfold sort_le. congruence.
    + rewrite (cmp_lt_le_trans x y z); [done|done|]. unfold sort_le. congruence.
Qed.
End Lexicographic.

#[export] Instance compare_nat_preorder : TotalPreorder Nat.compare.
Proof.
  split; [intros; apply Nat.compare_antisym|]. unfold sort_le. intros x y z. rewrite !Nat.compare_gt_iff. lia.
Qed.

(** Permuted lists of distinct strings in string order are the same list. *)
Lemma string_sorted_unique l k :
  StronglySorted String.le l → StronglySorted String.le k → l ≡ₚ k → l = k.
Proof. intros Hl Hk. by apply (StronglySorted_unique String.le). Qed.

(** ** The extreme elements by a key *)

(** [iter.min_by_key(f)] keeps the first of the minima, [iter.max_by_key(f)] the
    last of the maxima. *)
Definition min_by_key {A : Type} (f : A → N) (l : list A) : option A :=
  match l with
  | [] => None
  | x :: l => Some (foldl (λ m y, if (f y <? f m)%N then y else m) x l)
  end.
Definition max_by_key {A : Type} (f : A → N) (l : list A) : option A :=
  match l with
  | [] => None
  | x :: l => Some (foldl (λ m y, if (f y <? f m)%N then m else y) x l)
  end.

(** A fold that keeps the better of two elements keeps a best one. *)
Lemma fold_best {A : Type} (R : A → A → Prop) (pick : A → A → A) `{!PreOrder R} x l :
  (∀ a b, (pick a b = a ∨ pick a b = b) ∧ R (pick a b) a ∧ R (pick a b) b) →
  foldl pick x l ∈ x :: l ∧ ∀ y, y ∈ x :: l → R (foldl pick x l) y.
Proof.
  intros Hpick. induction l as [|y l IH] using rev_ind; cbn [foldl].
  { split; [set_solver|]. intros z ->%list_elem_of_singleton. reflexivity. }
  rewrite foldl_snoc. destruct IH as [Hin Hle]. set (m := foldl pick x l) in *.
  destruct (Hpick m y) as (Hch & Hm & Hy). split; [destruct Hch as [-> | ->]; set_solver|].
  intros z Hz. assert (z = y ∨ z ∈ x :: l) as [->|Hz'] by set_solver; [done|].
  transitivity m; [done|by apply Hle].
Qed.

Section ByKey.
Context {A : Type} (f : A → N).

Lemma min_by_key_Some l :
  l ≠ [] → ∃ m, min_by_key f l = Some m ∧ m ∈ l ∧ ∀ x, x ∈ l → (f m ≤ f x)%N.
Proof.
  destruct l as [|x l]; [done|]. intros _. eexists. split; [done|].
  apply (fold_best (λ a b, f a ≤ f b)%N).
  - split; [intros a; reflexivity|intros a b c; apply N.le_trans].
  - intros a b. destruct (N.ltb_spec (f b) (f a)); split_and!; auto; lia.
Qed.

Lemma max_by_key_Some l :
  l ≠ [] → ∃ m, max_by_key f l = Some m ∧ m ∈ l ∧ ∀ x, x ∈ l → (f x ≤ f m)%N.
Proof.
  destruct l as [|x l]; [done|]. intros _. eexists. split; [done|].
  apply (fold_best (λ a b, f b ≤ f a)%N).
  - split; [intros a; reflexivity|intros a b c Hab Hbc; by etransitivity].
  - intros a b. destruct (N.ltb_spec (f b) (f a)); split_and!; auto; lia.
Qed.

Lemma min_by_key_None l : min_by_key f l = None ↔ l = [].
Proof. by destruct l. Qed.
End ByKey.
