(* ===== verification/PlanTools.v ===== *)
(** * PlanTools: helpers of the core crate on plans, types and co-usage

    Models the small modules of [fuse-core] around plan trees:
    [plan_visitor.rs], [plan_printer.rs], [plan_validator.rs], [plan_merge.rs],
    [planner.rs], [cost_model.rs], [plan_compare.rs], [size_estimator.rs],
    [scalar_expr.rs], [type_map.rs], [schema_compat.rs] and
    [dependency_graph.rs].  The logarithm is a parameter, and so is the order
    in which a hash map is walked. *)

From stdpp Require Import base list strings gmap sets sorting pretty.
From Stdlib Require Import NArith ZArith Lia Ascii SpecFloat Sorted.
From S2P Require Import Prelude Strs Float Sorting Connector LogicalPlan Cost.

(** ** Walking a plan ([plan_visitor.rs]) *)

Fixpoint visit {T : Type} (f : PlanOp → option T) (op : PlanOp) : list T :=
  option_list (f op) ++
  match op with
  | Filter input _ | Project input _ | Sort input _ | Limit input _ => visit f input
  | Scan _ _ => []
  end.

Definition node_count (op : PlanOp) : nat := length (visit (λ _, Some ()) op).
Definition datasources (op : PlanOp) : list string :=
  visit (λ node, match node with Scan ds _ => Some ds | _ => None end) op.
Definition has_filter (op : PlanOp) : bool :=
  negb (bool_decide (visit (λ node, match node with Filter _ _ => Some () | _ => None end) op = [])).

(** ** Printing a plan ([plan_printer.rs]) *)

Definition show_key (k : string * bool) : string := k.1 +:+ " " +:+ (if k.2 then "DESC" else "ASC").

Definition plan_line (op : PlanOp) : string :=
  match op with
  | Scan ds t => "Scan: " +:+ ds +:+ "." +:+ t
  | Filter _ p => "Filter: " +:+ p
  | Project _ cols => "Project: [" +:+ join_with ", " cols +:+ "]"
  | Sort _ keys => "Sort: " +:+ join_with ", " (show_key <$> keys)
  | Limit _ n => "Limit: " +:+ pretty n
  end.

Fixpoint print_plan (op : PlanOp) (indent : nat) : string :=
  let line := str_repeat indent "  " +:+ plan_line op in
  match op with
  | Filter input _ | Project input _ | Sort input _ | Limit input _ => line +:+ newline +:+ print_plan input (S indent)
  | Scan _ _ => line
  end.

(** ** Checking a plan ([plan_validator.rs]) *)

Record PlanError : Type := mkPlanError { err_node : string; err_message : string }.

Definition node_errors (op : PlanOp) : list PlanError :=
  match op with
  | Scan ds t =>
      (if String.eqb ds "" then [mkPlanError "Scan" "empty datasource"] else []) ++
      (if String.eqb t "" then [mkPlanError "Scan" "empty table"] else [])
  | Filter _ p => if String.eqb p "" then [mkPlanError "Filter" "empty predicate"] else []
  | Project _ cols => match cols with [] => [mkPlanError "Project" "empty column list"] | _ => [] end
  | Sort _ keys => match keys with [] => [mkPlanError "Sort" "empty sort keys"] | _ => [] end
  | Limit _ n => if (n =? 0)%N then [mkPlanError "Limit" "limit is zero"] else []
  end.

Fixpoint validate_node (op : PlanOp) : list PlanError :=
  node_errors op ++
  match op with
  | Filter input _ | Project input _ | Sort input _ | Limit input _ => validate_node input
  | Scan _ _ => []
  end.
Definition validate (op : PlanOp) : list PlanError := validate_node op.

(** ** Merged plans ([plan_merge.rs]) *)

Inductive MergeStrategy : Type := Append | HashJoinMerge | Interleave.
Record SubPlan : Type := mkSubPlan { sp_datasource : string; sp_plan : PlanOp }.
Record MergedPlan : Type := mkMerged { sub_plans : list SubPlan; merge_strategy : MergeStrategy }.
Definition merged_union (plans : list SubPlan) : MergedPlan := mkMerged plans Append.
Definition merged_join (left right : SubPlan) : MergedPlan := mkMerged [left; right] HashJoinMerge.
Definition datasource_count (m : MergedPlan) : nat := length (sub_plans m).

(** ** Costs ([cost_model.rs], [plan_compare.rs], [size_estimator.rs]) *)

Definition f_0_005 : f64 := S754_finite false 5764607523034235 (-60).
Definition f_0_5 : f64 := S754_finite false 4503599627370496 (-53).
Definition f_0_7 : f64 := S754_finite false 6305039478318694 (-53).

Record CostEstimate : Type := mkEstimate { est_rows : N; est_cost : f64; io_cost : f64; cpu_cost : f64 }.

Definition scan_cost (rows columns : N) : CostEstimate :=
  let io := fmul (fmul (f64_of_N rows) (f64_of_N columns)) f_0_01 in
  let cpu := fmul (f64_of_N rows) f_0_001 in
  mkEstimate rows (fadd io cpu) io cpu.

Definition join_cost (left_rows right_rows : N) : CostEstimate :=
  let build := fmul (f64_of_N right_rows) f_0_02 in
  let probe := fmul (f64_of_N left_rows) f_0_01 in
  let estimated := f64_as_u64 (fmul (fmul (f64_of_N left_rows) (f64_of_N right_rows)) f_0_1) in
  mkEstimate (N.min estimated (N.max left_rows right_rows)) (fadd build probe) build probe.

Definition sort_cost (log2 : f64 → f64) (rows : N) : CostEstimate :=
  let n := f64_of_N rows in
  let cost := if fltb f_zero n then fmul (fmul n (log2 n)) f_0_005 else f_zero in
  mkEstimate rows cost f_zero cost.

Definition total_cost (estimates : list CostEstimate) : CostEstimate :=
  mkEstimate (from_option est_rows 0%N (last estimates)) (fsum (est_cost <$> estimates))
    (fsum (io_cost <$> estimates)) (fsum (cpu_cost <$> estimates)).

Definition cheaper (a b : CostEstimate) : nat := if fleb (est_cost a) (est_cost b) then 0 else 1.
Definition cheapest (plans : list CostEstimate) : option nat :=
  fst <$> min_by (λ a b, cmp_cost (est_cost a.2) (est_cost b.2)) (enumerate plans).
Definition is_significantly_cheaper (a b : CostEstimate) (threshold : f64) : bool :=
  if feqb (est_cost a) f_zero then false else fltb (fdiv (est_cost b) (est_cost a)) threshold.

Record SizeEstimate : Type := mkSize { size_rows : N; size_bytes : N; confidence : f64 }.

(** [a * b] on [u64], which wraps around in a release build. *)
Definition mul_u64 (a b : N) : N := (a * b) `mod` 18446744073709551616.

Definition estimate (table_rows avg_row_bytes : N) (selectivity : f64) (limit : option N) : SizeEstimate :=
  let filtered := f64_as_u64 (fmul (f64_of_N table_rows) selectivity) in
  let rows := match limit with Some l => N.min filtered l | None => filtered end in
  mkSize rows (mul_u64 rows avg_row_bytes) (if (0 <? table_rows)%N then f_0_7 else f_0_1).

Definition estimate_join (left_rows right_rows : N) (selectivity : f64) : SizeEstimate :=
  let rows := f64_as_u64 (fmul (fmul (f64_of_N left_rows) (f64_of_N right_rows)) selectivity) in
  mkSize (N.min rows (mul_u64 (N.max left_rows right_rows) 2)) (mul_u64 rows 100) f_0_5.

(** ** Execution plans ([planner.rs]) *)

Inductive ExecutionStrategy : Type := SingleSource | FanOut | HashJoinStrategy | UnionAll.
Record ExecutionPlan : Type := mkExecution {
  ep_datasources : list string; pushdown_ops : list string; local_ops : list string;
  ep_cost : CostEstimate; ep_strategy : ExecutionStrategy }.

Definition strategy_name (s : ExecutionStrategy) : string :=
  match s with SingleSource => "SingleSource" | FanOut => "FanOut" | HashJoinStrategy => "HashJoin" | UnionAll => "UnionAll" end.

Definition plan_single (datasource : string) (caps : ConnectorCapabilities) (rows : N) : ExecutionPlan :=
  let ops := [(supports_filtering caps, "filter"); (supports_projection caps, "projection"); (supports_limit caps, "limit")] in
  mkExecution [datasource] (filter (λ o, o.1 = true) ops).*2 (filter (λ o, o.1 = false) ops).*2 (scan_cost rows 5) SingleSource.

Definition plan_join (left right : string) (left_rows right_rows : N) : ExecutionPlan :=
  mkExecution [left; right] ["filter"; "projection"] ["hash_join"; "sort"] (join_cost left_rows right_rows) HashJoinStrategy.

(** ** Scalar expressions ([scalar_expr.rs]) *)

Inductive ScalarExpr : Type :=
| EColumn (c : string)
| ELiteral (v : string)
| EBinary (left : ScalarExpr) (op : string) (right : ScalarExpr)
| EFunction (fname : string) (args : list ScalarExpr)
| EStar.

Definition scalar_eq (l r : ScalarExpr) : ScalarExpr := EBinary l "=" r.
Definition scalar_gt (l r : ScalarExpr) : ScalarExpr := EBinary l ">" r.

Fixpoint scalar_sql (e : ScalarExpr) : string :=
  match e with
  | EColumn c => c
  | ELiteral v => "'" +:+ replace "'" "''" v +:+ "'"
  | EBinary l op r => scalar_sql l +:+ " " +:+ op +:+ " " +:+ scalar_sql r
  | EFunction f args => f +:+ "(" +:+ join_with ", " (scalar_sql <$> args) +:+ ")"
  | EStar => "*"
  end.

(** ** Types ([type_map.rs]) and schemas ([schema_compat.rs]) *)

Inductive DataType : Type :=
| TBoolean | TInt32 | TInt64 | TFloat32 | TFloat64 | TUtf8 | TBinary | TTimestamp | TDate | TNull | TUnknown (name : string).

#[export] Instance DataType_eq_dec : EqDecision DataType.
Proof. solve_decision. Defined.

Definition type_names : list (list string * DataType) :=
  [(["bool"; "boolean"], TBoolean); (["int"; "int32"; "integer"], TInt32); (["bigint"; "int64"; "long"], TInt64);
   (["float"; "float32"; "real"], TFloat32); (["double"; "float64"; "numeric"; "decimal"], TFloat64);
   (["text"; "varchar"; "string"; "utf8"; "keyword"], TUtf8); (["binary"; "bytea"; "blob"], TBinary);
   (["timestamp"; "datetime"; "timestamptz"], TTimestamp); (["date"], TDate); (["null"], TNull)].

Definition from_type_name (name : string) : DataType :=
  let name := to_lowercase name in
  from_option snd (TUnknown name) (List.find (λ r, bool_decide (name ∈ r.1)) type_names).

Definition types_compatible (a b : DataType) : bool :=
  bool_decide (a = b) ||
  match a, b with
  | TInt32, TInt64 | TInt64, TInt32 | TFloat32, TFloat64 | TFloat64, TFloat32 => true
  | (TInt32 | TInt64), (TFloat32 | TFloat64) | (TFloat32 | TFloat64), (TInt32 | TInt64) => true
  | _, _ => false
  end.

Record SchemaCompat : Type := mkCompat {
  compatible : bool; common_columns : list string; left_only : list string; right_only : list string }.

(** [walk] is the order in which the hash set is walked. *)
Definition check_compatibility (walk : gset string → list string) (left right : list string) : SchemaCompat :=
  let l : gset string := list_to_set left in
  let r : gset string := list_to_set right in
  mkCompat (bool_decide (walk (l ∖ r) = []) && bool_decide (walk (r ∖ l) = [])) (walk (l ∩ r)) (walk (l ∖ r)) (walk (r ∖ l)).

(** ** Which datasources are used together ([dependency_graph.rs]) *)

Abbreviation Edges := (gmap (string * string) N).

(** [v.dedup()]: of equal neighbours one is kept. *)
Fixpoint dedup_neighbours (l : list string) : list string :=
  match l with
  | x :: ((y :: _) as l') => if bool_decide (x = y) then dedup_neighbours l' else x :: dedup_neighbours l'
  | _ => l
  end.

(** The pairs of the two loops. *)
Fixpoint pairs_of (l : list string) : list (string * string) :=
  match l with
  | [] => []
  | x :: l => (pair x <$> l) ++ pairs_of l
  end.

Definition bump (m : Edges) (e : string * string) : Edges := <[e := (default 0 (m !! e) + 1)%N]> m.

Definition record (m : Edges) (ds : list string) : Edges :=
  foldl bump m (pairs_of (dedup_neighbours (sort_by String.compare ds))).

Definition by_count {A : Type} (a b : A * N) : comparison := N.compare b.2 a.2.

(** [entries] lists the edges in the order of the hash map. *)
Definition top_pairs (entries : list ((string * string) * N)) (limit : nat) : list ((string * string) * N) :=
  take limit (sort_by by_count entries).

Definition neighbor_of (ds : string) (e : (string * string) * N) : option (string * N) :=
  if bool_decide (e.1.1 = ds) then Some (e.1.2, e.2)
  else if bool_decide (e.1.2 = ds) then Some (e.1.1, e.2) else None.
Definition neighbors (entries : list ((string * string) * N)) (ds : string) : list (string * N) :=
  sort_by by_count (omap (neighbor_of ds) entries).

(** * Printed plans, co-usage counts, types

    A checked plan is read back from its printed text; the edges of the
    dependency graph count the queries that use both datasources; UNION
    compatibility of types is an equivalence. *)

(** ** Reading a printed plan *)

Definition newline_char : ascii := ascii_of_nat 10.
Definition is_newline : ascii → bool := is_char newline_char.
Definition one_line (s : string) : bool := str_all (λ a, negb (is_newline a)) s.

Definition strip_suffix (p s : string) : option string :=
  let n := String.length s - String.length p in
  if String.eqb (str_drop n s) p then Some (str_take n s) else None.

Definition read_key (s : string) : option (string * bool) :=
  match strip_suffix " ASC" s with
  | Some c => Some (c, false)
  | None => (λ c, (c, true)) <$> strip_suffix " DESC" s
  end.

Definition read_list (s : string) : list string := trim <$> split_on (is_char ",") s.

Definition read_step (input : PlanOp) (body : string) : option PlanOp :=
  match str_strip_prefix "Filter: " body, str_strip_prefix "Project: [" body, str_strip_prefix "Sort: " body, str_strip_prefix "Limit: " body with
  | Some p, _, _, _ => Some (Filter input p)
  | _, Some s, _, _ => (λ s, Project input (read_list s)) <$> strip_suffix "]" s
  | _, _, Some s, _ => Sort input <$> mapM read_key (read_list s)
  | _, _, _, Some s => Limit input <$> parse_digits s
  | _, _, _, _ => None
  end.

Fixpoint read_lines (indent : nat) (ls : list string) : option PlanOp :=
  match ls with
  | [] => None
  | l :: ls =>
      body ← str_strip_prefix (str_repeat indent "  ") l;
      match ls with
      | [] => s ← str_strip_prefix "Scan: " body; '(ds, t) ← split_once (is_char ".") s; Some (Scan ds t)
      | _ => input ← read_lines (S indent) ls; read_step input body
      end
  end.
Definition read_plan (s : string) : option PlanOp := read_lines 0 (split_on is_newline s).

(** ** Names that keep to their place in the text *)

Definition in_list (s : string) : bool :=
  str_all (λ a, negb (is_char "," a)) s && first_ok s && last_ok s && one_line s.

Definition clean_node (op : PlanOp) : bool :=
  match op with
  | Scan ds t => str_all (λ a, negb (is_char "." a)) ds && one_line ds && one_line t
  | Filter _ p => one_line p
  | Project _ cols => forallb in_list cols
  | Sort _ keys => forallb (in_list ∘ fst) keys
  | Limit _ _ => true
  end.
Fixpoint clean (op : PlanOp) : bool :=
  clean_node op &&
  match op with
  | Filter input _ | Project input _ | Sort input _ | Limit input _ => clean input
  | Scan _ _ => true
  end.

Lemma strip_suffix_app p s : strip_suffix p (s +:+ p) = Some s.
Proof.
  unfold strip_suffix. rewrite str_length_app, Nat.add_sub, str_drop_exact, String.eqb_refl. by rewrite str_take_app.
Qed.

Lemma read_show_key k : read_key (show_key k) = Some k.
Proof.
  destruct k as [c []]; unfold read_key, show_key; cbn [fst snd]; change (c +:+ " " +:+ ?x) with (c +:+ (String " " x)).
  - assert (strip_suffix " ASC" (c +:+ " DESC") = None) as ->; [|by rewrite (strip_suffix_app " DESC")].
    unfold strip_suffix. rewrite str_length_app. change (String.length " DESC") with 5. change (String.length " ASC") with 4.
    replace (String.length c + 5 - 4) with (String.length c + 1) by lia. by rewrite str_drop_app.
  - by rewrite (strip_suffix_app " ASC").
Qed.

Lemma last_ok_nonempty s : last_ok s = true → s ≠ "".
Proof. by destruct s. Qed.

Lemma read_list_join l : l ≠ [] → Forall (λ s, in_list s = true) l → read_list (join_with ", " l) = l.
Proof.
  intros Hne Hl. unfold read_list. change ", " with ("" +:+ String "," " "). rewrite split_join; [|done..|].
  - apply list_eq_Forall2, Forall2_fmap_l. apply Forall_Forall2_diag. apply (Forall_impl _ _ _ Hl). intros s.
    unfold in_list. intros [[[_ Hf]%andb_prop Hk]%andb_prop _]%andb_prop. by apply trim_id.
  - apply (Forall_impl _ _ _ Hl). intros s. unfold in_list. by intros [[[Hc _]%andb_prop _]%andb_prop _]%andb_prop.
Qed.

Lemma key_in_list k : in_list k.1 = true → in_list (show_key k) = true.
Proof.
  unfold in_list, show_key, one_line. intros [[[Hc Hf]%andb_prop Hk]%andb_prop Ho]%andb_prop.
  rewrite !str_all_app, Hc, Ho, first_ok_app by done. rewrite last_ok_app; [|apply last_ok_app]; by destruct (k.2).
Qed.

Lemma one_line_join l : Forall (λ s, in_list s = true) l → one_line (join_with ", " l) = true.
Proof.
  intros Hl. apply str_all_join; [done|]. apply (Forall_impl _ _ _ Hl). intros s. unfold in_list. by intros [_ Ho]%andb_prop.
Qed.

Lemma one_line_app s t : one_line (s +:+ t) = one_line s && one_line t.
Proof. apply str_all_app. Qed.

Lemma one_line_pretty (n : N) : one_line (pretty n) = true.
Proof.
  eapply str_all_impl, pretty_no_space. intros a. cbn. unfold is_newline, is_char. rewrite !negb_true_iff. intros H.
  destruct (Ascii.eqb_spec newline_char a) as [<-|]; [by vm_compute in H|done].
Qed.

Lemma forallb_Forall {A : Type} (p : A → bool) l : forallb p l = true ↔ Forall (λ x, p x = true) l.
Proof. rewrite forallb_forall, Forall_forall. by setoid_rewrite list_elem_of_In. Qed.

Lemma line_one_line op : clean_node op = true → one_line (plan_line op) = true.
Proof.
  destruct op as [ds t|i p|i cols|i keys|i n]; cbn [clean_node plan_line]; intros H.
  - apply andb_prop in H as [[_ Hd]%andb_prop Ht]. by rewrite !one_line_app, Hd, Ht.
  - by rewrite one_line_app, H.
  - rewrite !one_line_app, one_line_join by by apply forallb_Forall. done.
  - rewrite one_line_app, one_line_join; [done|]. apply Forall_fmap. apply forallb_Forall in H.
    apply (Forall_impl _ _ _ H). intros k. apply key_in_list.
  - by rewrite one_line_app, one_line_pretty.
Qed.

Lemma indent_one_line n : one_line (str_repeat n "  ") = true.
Proof. induction n as [|n IH]; [done|]. cbn [str_repeat]. by rewrite one_line_app, IH. Qed.

(** The lines of a plan. *)
Fixpoint plan_lines (op : PlanOp) (indent : nat) : list string :=
  (str_repeat indent "  " +:+ plan_line op) ::
  match op with
  | Filter input _ | Project input _ | Sort input _ | Limit input _ => plan_lines input (S indent)
  | Scan _ _ => []
  end.

Lemma split_newline s t : one_line s = true → split_on is_newline (s +:+ newline +:+ t) = s :: split_on is_newline t.
Proof. intros Hs. rewrite split_on_app by done. unfold newline. rewrite str_app_cons. cbn [split_on]. cbv [is_newline]. rewrite (Ascii.eqb_refl _ : is_char newline_char (ascii_of_nat 10) = true). by rewrite str_app_nil. Qed.

Lemma print_plan_lines op : clean op = true → ∀ n, split_on is_newline (print_plan op n) = plan_lines op n.
Proof.
  induction op as [ds t|i IH p|i IH cols|i IH keys|i IH k]; intros Hc n; cbn [clean] in Hc; apply andb_prop in Hc as [Hn Hi];
    pose proof (line_one_line _ Hn) as Hl; cbn [print_plan plan_lines].
  1: by rewrite split_on_none by (fold (one_line (str_repeat n "  " +:+ plan_line (Scan ds t))); by rewrite one_line_app, indent_one_line, Hl).
  all: rewrite <- IH by done; rewrite split_newline; [done|]; by rewrite one_line_app, indent_one_line, Hl.
Qed.

Definition plan_input (op : PlanOp) : option PlanOp :=
  match op with Filter i _ | Project i _ | Sort i _ | Limit i _ => Some i | Scan _ _ => None end.

Lemma read_step_line op input : node_errors op = [] → clean_node op = true → plan_input op = Some input →
  read_step input (plan_line op) = Some op.
Proof.
  destruct op as [ds t|i p|i cols|i keys|i n]; cbn [node_errors clean_node plan_input plan_line]; intros Hv Hc [= <-]; unfold read_step.
  - by rewrite strip_prefix_app.
  - rewrite (strip_prefix_app "Project: ["). cbn. rewrite strip_suffix_app. cbn. rewrite read_list_join; [done|by destruct cols|by apply forallb_Forall].
  - rewrite (strip_prefix_app "Sort: "). cbn. rewrite read_list_join; [|by destruct keys|].
    + assert (mapM read_key (show_key <$> keys) = Some keys) as ->; [|done].
      clear. induction keys as [|k keys IH]; [done|]. cbn. by rewrite read_show_key, IH.
    + apply Forall_fmap. apply forallb_Forall in Hc. apply (Forall_impl _ _ _ Hc). intros k. apply key_in_list.
  - rewrite (strip_prefix_app "Limit: "). cbn. by rewrite parse_pretty.
Qed.

Lemma read_lines_back op : validate_node op = [] → clean op = true → ∀ n, read_lines n (plan_lines op n) = Some op.
Proof.
  induction op as [ds t|i IH p|i IH cols|i IH keys|i IH k]; intros Hv Hc n;
    cbn [clean] in Hc; apply andb_prop in Hc as [Hn Hi]; cbn [validate_node] in Hv; apply app_eq_nil in Hv as [He Hv'].
  1: { cbn [plan_lines read_lines]. rewrite strip_prefix_app. cbn [mbind option_bind plan_line]. rewrite (strip_prefix_app "Scan: "). cbn [mbind option_bind].
    cbn [clean_node] in Hn. apply andb_prop in Hn as [[Hd _]%andb_prop _]. unfold split_once. change ("." +:+ t) with (String "." t).
    rewrite find_char_app by done. cbn [find_char is_char Ascii.eqb Bool.eqb fmap option_fmap option_map mbind option_bind]. rewrite Nat.add_0_r, str_take_app, <- Nat.add_1_r, str_drop_app. done. }
  all: cbn [plan_lines read_lines]; rewrite strip_prefix_app; cbn [mbind option_bind];
    pose proof (IH Hv' Hi (S n)) as Hr; destruct (plan_lines i (S n)) as [|l ls]; [done|]; rewrite Hr; cbn [mbind option_bind];
    by apply read_step_line.
Qed.

(** A plan that the validator accepts and whose names keep to one line
    and to their place in a list is determined by its printed text: reading
    the lines back gives the plan. *)
Theorem printed_plans_read_back op : validate op = [] → clean op = true → read_plan (print_plan op 0) = Some op.
Proof. intros Hv Hc. unfold read_plan. rewrite print_plan_lines by done. by apply read_lines_back. Qed.

Definition ex_plan : PlanOp := Limit (Sort (Project (Filter (Scan "pg" "orders") "total > 5") ["id"; "total"]) [("total", true); ("id", false)]) 10.

Lemma printed_plans_read_back_witness : validate ex_plan = [] ∧ read_plan (print_plan ex_plan 0) = Some ex_plan.
Proof. split; [done|]. apply printed_plans_read_back; [done|by vm_compute]. Defined.

(** The validator's answer: nothing exactly when no node of the plan has an
    error of its own. *)
Lemma validate_iff op : validate op = [] ↔ visit (λ n, if decide (node_errors n = []) then None else Some ()) op = [].
Proof.
  unfold validate. induction op as [ds t|i IH p|i IH cols|i IH keys|i IH k]; cbn [validate_node visit];
    destruct (decide (node_errors _ = [])) as [->|Hn]; cbn [option_list app]; rewrite ?IH; try done;
    split; try done; intros [? _]%app_eq_nil; done.
Qed.

(** ** Co-usage *)

Definition used_together (a b : string) (ds : list string) : bool := bool_decide (a ∈ ds) && bool_decide (b ∈ ds).
Definition co_usage (a b : string) (hist : list (list string)) : nat := length (filter (λ ds, used_together a b ds = true) hist).

Definition str_lt (s t : string) : Prop := String.compare s t = Lt.
#[export] Instance str_lt_dec s t : Decision (str_lt s t).
Proof. unfold str_lt. apply _. Defined.

Lemma dedup_neighbours_cons x y l :
  dedup_neighbours (x :: y :: l) = if bool_decide (x = y) then dedup_neighbours (y :: l) else x :: dedup_neighbours (y :: l).
Proof. done. Qed.

Lemma dedup_neighbours_elem l x : x ∈ dedup_neighbours l ↔ x ∈ l.
Proof.
  induction l as [|y [|z l] IH]; [done..|]. rewrite dedup_neighbours_cons. case_bool_decide; [subst|]; rewrite ?elem_of_cons, IH, ?elem_of_cons; tauto.
Qed.

Lemma dedup_neighbours_sorted l : StronglySorted (sort_le String.compare) l → StronglySorted str_lt (dedup_neighbours l).
Proof.
  induction l as [|y [|z l] IH]; intros Hs; [constructor|by repeat constructor|]. inversion Hs as [|? ? Hs' Hy]; subst. rewrite dedup_neighbours_cons.
  specialize (IH Hs'). case_bool_decide as Hyz; [done|]. constructor; [done|]. rewrite Forall_forall. intros x Hx.
  rewrite dedup_neighbours_elem in Hx. rewrite Forall_forall in Hy. inversion Hs' as [|? ? _ Hz]; subst. rewrite Forall_forall in Hz.
  assert (str_lt y z) as Hlt.
  { unfold str_lt. specialize (Hy z ltac:(left)). unfold sort_le in Hy. destruct (String.compare y z) eqn:E; [|done|done].
    by apply String.compare_eq_iff in E. }
  apply elem_of_cons in Hx as [->|Hx]; [done|]. by apply (cmp_lt_le_trans String.compare y z x); [done|apply Hz].
Qed.

Lemma str_lt_irrefl s : ¬ str_lt s s.
Proof. unfold str_lt. pose proof (String.compare_antisym s s). destruct (String.compare s s); naive_solver. Qed.

Lemma graph_pairs_elem l a b : StronglySorted str_lt l → (a, b) ∈ pairs_of l ↔ a ∈ l ∧ b ∈ l ∧ str_lt a b.
Proof.
  induction 1 as [|x l Hs IH Hx]; cbn [pairs_of]; [set_solver|]. rewrite Forall_forall in Hx.
  rewrite elem_of_app, IH, list_elem_of_fmap, !elem_of_cons. split.
  - intros [(y & [= -> ->] & Hy)|(Ha & Hb & Hlt)]; [|tauto]. split; [by left|]. split; [by right|]. by apply Hx.
  - intros ([->|Ha] & [->|Hb] & Hlt); [by apply str_lt_irrefl in Hlt|left; eauto| |tauto].
    exfalso. specialize (Hx a Ha). unfold str_lt in *. rewrite String.compare_antisym, Hx in Hlt. done.
Qed.

Lemma graph_pairs_NoDup l : StronglySorted str_lt l → NoDup (pairs_of l).
Proof.
  induction 1 as [|x l Hs IH Hx]; cbn [pairs_of]; [constructor|]. rewrite Forall_forall in Hx.
  assert (x ∉ l) as Hn by (intros H; by apply (str_lt_irrefl x), Hx).
  apply NoDup_app. split; [|split; [|done]].
  - apply NoDup_fmap; [intros ? ? [=]; done|]. clear -Hs. induction Hs as [|y l Hs IH Hy]; [constructor|]. constructor; [|done].
    rewrite Forall_forall in Hy. intros H. by apply (str_lt_irrefl y), Hy.
  - intros [a b] (y & [= -> ->] & Hy)%list_elem_of_fmap H. apply graph_pairs_elem in H; [|done]. by destruct H.
Qed.

Lemma bump_all l : NoDup l → ∀ m e, default 0%N (foldl bump m l !! e) = (default 0%N (m !! e) + (if decide (e ∈ l) then 1 else 0))%N.
Proof.
  induction 1 as [|x l Hx Hl IH]; intros m e; cbn [foldl].
  - rewrite decide_False by apply not_elem_of_nil. lia.
  - rewrite IH. unfold bump. destruct (decide (x = e)) as [->|Hne].
    + rewrite lookup_insert_eq. cbn. rewrite (decide_False (P := e ∈ l)), (decide_True (P := e ∈ e :: l)) by (done || by left). lia.
    + rewrite lookup_insert_ne by done. destruct (decide (e ∈ l)) as [Hin|Hin].
      * rewrite decide_True by by right. done.
      * rewrite decide_False by (rewrite elem_of_cons; naive_solver). done.
Qed.

Definition used_pairs (ds : list string) : list (string * string) := pairs_of (dedup_neighbours (sort_by String.compare ds)).

Lemma used_pairs_spec ds a b : (a, b) ∈ used_pairs ds ↔ str_lt a b ∧ used_together a b ds = true.
Proof.
  unfold used_pairs, used_together. rewrite graph_pairs_elem by (apply dedup_neighbours_sorted, sort_by_sorted; apply _).
  rewrite !dedup_neighbours_elem, !(sort_by_Permutation String.compare ds), andb_true_iff, !bool_decide_eq_true. tauto.
Qed.

Lemma used_pairs_NoDup ds : NoDup (used_pairs ds).
Proof. apply graph_pairs_NoDup, dedup_neighbours_sorted, sort_by_sorted. apply _. Qed.

(** After any sequence of queries the graph counts co-usage: the count of
    an ordered pair of datasources is the number of queries that used both,
    and an unordered pair has none. *)
Theorem graph_counts_co_usage hist a b :
  default 0%N (foldl record ∅ hist !! (a, b)) = if decide (str_lt a b) then N.of_nat (co_usage a b hist) else 0%N.
Proof.
  induction hist as [|ds hist IH] using rev_ind; [by destruct (decide _)|]. rewrite foldl_snoc. unfold record at 1. fold (used_pairs ds).
  rewrite bump_all by apply used_pairs_NoDup. rewrite IH. unfold co_usage. rewrite filter_app, length_app.
  destruct (decide (str_lt a b)) as [Hlt|Hlt]; [|by rewrite decide_False by (rewrite used_pairs_spec; tauto)].
  destruct (used_together a b ds) eqn:E.
  - rewrite decide_True by by rewrite used_pairs_spec. rewrite filter_cons_True by done. cbn. lia.
  - rewrite decide_False by (rewrite used_pairs_spec, E; naive_solver). rewrite filter_cons_False by by rewrite E. cbn. lia.
Qed.

(** The neighbours of a datasource are those it shares an edge with, the most
    used first, whatever the order of the hash map. *)
Lemma neighbors_spec entries ds : (∀ e n, (e, n) ∈ entries → str_lt e.1 e.2) →
  (∀ d n, (d, n) ∈ neighbors entries ds ↔ ((ds, d), n) ∈ entries ∨ ((d, ds), n) ∈ entries) ∧
  StronglySorted (λ x y, (y.2 ≤ x.2)%N) (neighbors entries ds).
Proof.
  intros He. unfold neighbors. split.
  - intros d n. rewrite (sort_by_Permutation by_count), list_elem_of_omap. split.
    + intros ([[a b] k] & Hin & Hn). unfold neighbor_of in Hn. cbn in Hn. repeat case_bool_decide; naive_solver.
    + intros [Hin|Hin]; eexists; (split; [exact Hin|]); unfold neighbor_of; cbn; [by rewrite bool_decide_eq_true_2|].
      specialize (He _ _ Hin). cbn in He. rewrite bool_decide_eq_false_2, bool_decide_eq_true_2; [done..|]. intros ->. by apply str_lt_irrefl in He.
  - assert (TotalPreorder (λ x y : string * N, by_count x y)) as HT.
    { apply (total_preorder_flip (λ x y : string * N, N.compare x.2 y.2)), (total_preorder_by snd N.compare), _. }
    eapply StronglySorted_impl_in, (sort_by_sorted by_count). intros [a x] [b y] _ _. unfold sort_le, by_count. cbn. rewrite N.compare_gt_iff. lia.
Qed.

(** ** Types *)

Definition numeric (t : DataType) : bool := match t with TInt32 | TInt64 | TFloat32 | TFloat64 => true | _ => false end.

Lemma types_compatible_iff a b : types_compatible a b = true ↔ a = b ∨ numeric a = true ∧ numeric b = true.
Proof.
  unfold types_compatible. rewrite orb_true_iff, bool_decide_eq_true. destruct a, b; cbn; naive_solver.
Qed.

(** UNION compatibility of types is an equivalence: the numeric types are
    one class and every other type is compatible with itself only; and the
    class of a type name does not depend on its case. *)
Theorem union_types_partition :
  Equivalence (λ a b, types_compatible a b = true) ∧
  (∀ a b, types_compatible a b = true ↔ a = b ∨ numeric a = true ∧ numeric b = true) ∧
  ∀ s t, to_lowercase s = to_lowercase t → from_type_name s = from_type_name t.
Proof.
  split; [|split; [exact types_compatible_iff|]].
  - split; [intros a|intros a b|intros a b c]; rewrite !types_compatible_iff; naive_solver.
  - unfold from_type_name. by intros s t ->.
Qed.

(** ** Costs *)

Lemma enumerate_elem {A : Type} (l : list A) i x : (i, x) ∈ enumerate l ↔ l !! i = Some x.
Proof.
  rewrite list_elem_of_lookup. split.
  - intros (j & Hj). rewrite enumerate_lookup in Hj. destruct (l !! j) eqn:E; [|done]. by injection Hj as <- <-.
  - intros H. exists i. by rewrite enumerate_lookup, H.
Qed.

(** Without an estimate that is no number, the index is that of the first
    plan of least cost. *)
Lemma cheapest_is_first_minimum plans : plans ≠ [] → Forall (λ p, est_cost p ≠ S754_nan) plans →
  ∃ i p, cheapest plans = Some i ∧ plans !! i = Some p ∧
    (∀ j q, plans !! j = Some q → rank_compare (float_rank (est_cost p)) (float_rank (est_cost q)) ≠ Gt) ∧
    (∀ j q, j < i → plans !! j = Some q → rank_compare (float_rank (est_cost p)) (float_rank (est_cost q)) = Lt).
Proof.
  intros Hne Hn. rewrite Forall_forall in Hn.
  destruct (min_by_first (λ a b : nat * CostEstimate, cmp_cost (est_cost a.2) (est_cost b.2)) (λ a, float_rank (est_cost a.2)) (enumerate plans))
    as ([i p] & Hm & k & Hk & Hle & Hlt).
  - intros [i x] [j y] Hx%enumerate_elem Hy%enumerate_elem. unfold cmp_cost. cbn.
    apply list_elem_of_lookup_2 in Hx, Hy. by rewrite SFcompare_rank by (by apply Hn).
  - by destruct plans.
  - rewrite enumerate_lookup in Hk. destruct (plans !! k) as [p'|] eqn:E; [|done]. injection Hk as -> ->.
    exists i, p. unfold cheapest. rewrite Hm. split; [done|]. split; [done|]. split.
    + intros j q Hq. apply (Hle j (j, q)). by rewrite enumerate_lookup, Hq.
    + intros j q Hj Hq. apply (Hlt j (j, q) Hj). by rewrite enumerate_lookup, Hq.
Qed.

(** The rows of a join estimate are bounded, its bytes are not: they are taken
    from the rows before the bound. *)
Example join_bytes_ignore_the_bound :
  let e := estimate_join 1000 1000 f_0_5 in size_rows e = 2000%N ∧ size_bytes e = 50000000%N.
Proof. by vm_compute. Qed.

(** The text of an expression does not show how its operators nest. *)
Example nested_operators_look_alike :
  let a := EColumn "a" in let b := EColumn "b" in let c := EColumn "c" in
  scalar_sql (EBinary (EBinary a "-" b) "-" c) = scalar_sql (EBinary a "-" (EBinary b "-" c)).
Proof. done. Qed.

(** Two schemas are compatible exactly when they have the same columns. *)
Lemma compatible_iff walk left right : (∀ X : gset string, elements X ≡ₚ walk X) →
  compatible (check_compatibility walk left right) = true ↔ ∀ c, c ∈ left ↔ c ∈ right.
Proof.
  intros Hw. assert (∀ X : gset string, walk X = [] ↔ X ≡ ∅) as Hnil.
  { intros X. rewrite <- elements_empty_iff. specialize (Hw X). split; intros H; rewrite H in Hw; [by apply Permutation_nil_r in Hw|by apply Permutation_nil_l in Hw]. }
  unfold check_compatibility. cbn. rewrite andb_true_iff, !bool_decide_eq_true, !Hnil. set_unfold. split; [|naive_solver].
  intros [H1 H2] c. destruct (decide (c ∈ left)), (decide (c ∈ right)); naive_solver.
Qed.
