(* ===== verification/RowSets.v ===== *)
(** * RowSets: joins and set operations on result rows

    Models the server's post-execution operators on rows of JSON values that
    compare rows or cells by their text: [crates/fuse-server/src/joiner.rs],
    [set_ops.rs], [intersect.rs], [distinct.rs] and [aggregator.rs].  Hash
    tables and hash sets over texts are [gmap] and [gset].

    The theorems: since the text of a value is injective and self-delimiting,
    every operator is the textbook one on values: a hash join is the nested
    loop over equal keys, distinct keeps the first of equal rows, intersect and
    except select by membership. *)

From S2P Require Import Prelude Strs Json JsonRef.
From stdpp Require Import base list gmap strings sets.
From Stdlib Require Import Lia Ascii.

(** ** The operators *)

Section Operators.
Context `{J : JsonOps}.

(** *** [joiner.rs] *)

Definition row_table_push (rk : nat) (t : gmap string (list row)) (r : row) : gmap string (list row) :=
  match r !! rk with
  | Some key => <[to_string key := default [] (t !! to_string key) ++ [r]]> t
  | None => t
  end.
Definition row_table (rk : nat) (right : list row) : gmap string (list row) :=
  foldl (row_table_push rk) ∅ right.

(** The left row, then the right row without its key column. *)
Definition combine (rk : nat) (lrow rrow : row) : row :=
  lrow ++ omap (λ '(i, val), if Nat.eqb i rk then None else Some val) (enumerate rrow).

Definition probe_row (t : gmap string (list row)) (lk rk : nat) (lrow : row) : list row :=
  match lrow !! lk with
  | None => []
  | Some key =>
      match t !! to_string key with
      | None => []
      | Some matches => combine rk lrow <$> matches
      end
  end.
Definition hash_join (left : list row) (lk : nat) (right : list row) (rk : nat) : list row :=
  concat (probe_row (row_table rk right) lk rk <$> left).

Definition left_probe_row (t : gmap string (list row)) (lk rk null_cols : nat) (lrow : row) : list row :=
  match lrow !! lk with
  | None => []
  | Some key =>
      match t !! to_string key with
      | Some matches => combine rk lrow <$> matches
      | None => [lrow ++ replicate null_cols JNull]
      end
  end.
Definition left_join (left : list row) (lk : nat) (right : list row) (rk right_col_count : nat) : list row :=
  concat (left_probe_row (row_table rk right) lk rk (right_col_count - 1) <$> left).

(** *** [set_ops.rs] *)

Definition key_texts (right : list row) (rk : nat) : gset string :=
  list_to_set (omap (λ r : row, to_string <$> r !! rk) right).

Definition anti_join (left : list row) (lk : nat) (right : list row) (rk : nat) : list row :=
  let right_keys := key_texts right rk in
  filter (λ r : row, from_option (λ v, bool_decide (to_string v ∉ right_keys)) true (r !! lk)) left.

Definition semi_join (left : list row) (lk : nat) (right : list row) (rk : nat) : list row :=
  let right_keys := key_texts right rk in
  filter (λ r : row, from_option (λ v, bool_decide (to_string v ∈ right_keys)) false (r !! lk)) left.

(** *** [intersect.rs] *)

Definition row_keys (rows : list row) : gset string := list_to_set (row_key NUL <$> rows).

Definition intersect (left right : list row) : list row :=
  let right_keys := row_keys right in filter (λ r, row_key NUL r ∈ right_keys) left.
Definition except (left right : list row) : list row :=
  let right_keys := row_keys right in filter (λ r, row_key NUL r ∉ right_keys) left.

(** *** [distinct.rs] *)

Definition distinct (rows : list row) : list row := dedup_seen (row_key NUL) ∅ rows.

Definition count_distinct (rows : list row) (col_idx : nat) : nat :=
  size (key_texts rows col_idx).

(** *** [aggregator.rs] *)

Definition merge_results (results : list (list string * list row)) : list string * list row :=
  match results with
  | [] => ([], [])
  | (columns, _) :: _ => (columns, concat (snd <$> results))
  end.

Definition merge_distinct (results : list (list string * list row)) : list string * list row :=
  let '(columns, rows) := merge_results results in
  (columns, dedup_seen (row_key "|"%char) ∅ rows).
End Operators.

(** ** Specifications on values *)

(** The rows of [right] whose key cell is [key]. *)
Definition partners (right : list row) (rk : nat) (key : Value) : list row :=
  filter (λ r : row, r !! rk = Some key) right.

Definition nested_loop_join (left : list row) (lk : nat) (right : list row) (rk : nat) : list row :=
  concat ((λ l : row, match l !! lk with
                      | Some key => combine rk l <$> partners right rk key
                      | None => []
                      end) <$> left).

Definition nested_loop_left_join (left : list row) (lk : nat) (right : list row) (rk n : nat) : list row :=
  concat ((λ l : row, match l !! lk with
                      | Some key =>
                          match partners right rk key with
                          | [] => [l ++ replicate (n - 1) JNull]
                          | rs => combine rk l <$> rs
                          end
                      | None => []
                      end) <$> left).

(** The rows of [left] whose key cell occurs as a key cell of [right]. *)
Definition has_partner (right : list row) (rk : nat) (v : option Value) : Prop :=
  match v with Some key => partners right rk key ≠ [] | None => False end.

#[export] Instance has_partner_dec right rk v : Decision (has_partner right rk v).
Proof. destruct v; cbn; [|apply _]. destruct (partners right rk _); [right|left]; naive_solver. Defined.

(** ** Lemmas *)

Section Lemmas.
Context `{J : JsonOps, !JsonLaws J}.

Lemma fmap_text_eq (o : option Value) key : to_string <$> o = Some (to_string key) ↔ o = Some key.
Proof. destruct o as [v|]; cbn; [|done]. split; [intros [= H%to_string_inj]; by subst|by intros [= ->]]. Qed.

Lemma row_table_lookup rk right key :
  row_table rk right !! to_string key =
    match partners right rk key with [] => None | rs => Some rs end.
Proof.
  unfold row_table, partners. induction right as [|r right IH] using rev_ind; [done|].
  rewrite foldl_app, filter_app. cbn [foldl]. unfold row_table_push at 1.
  rewrite filter_cons, filter_nil. destruct (r !! rk) as [k|]; cbn [option_map].
  - destruct (decide (Some k = Some key)) as [[= ->]|Hne].
    + rewrite lookup_insert_eq, IH. by destruct (filter _ right).
    + rewrite lookup_insert_ne, app_nil_r by (intros ?%to_string_inj; congruence). exact IH.
  - rewrite decide_False, app_nil_r by done. exact IH.
Qed.

Lemma key_texts_elem right rk key :
  to_string key ∈ key_texts right rk ↔ partners right rk key ≠ [].
Proof.
  unfold key_texts, partners. rewrite elem_of_list_to_set, list_elem_of_omap. split.
  - intros (r & Hr & Hk%fmap_text_eq) Hnil.
    assert (r ∈ filter (λ r : row, r !! rk = Some key) right) as H by by apply list_elem_of_filter.
    rewrite Hnil in H. by apply elem_of_nil in H.
  - intros Hne. destruct (filter _ right) as [|r rs] eqn:E; [done|].
    assert (r ∈ filter (λ r : row, r !! rk = Some key) right) as [Hk Hr]%list_elem_of_filter
      by (rewrite E; set_solver).
    exists r. split; [done|]. by apply fmap_text_eq.
Qed.

Lemma row_keys_elem rows r : row_key NUL r ∈ row_keys rows ↔ r ∈ rows.
Proof.
  unfold row_keys. rewrite elem_of_list_to_set, list_elem_of_fmap. split; [|by eauto].
  intros (r' & H & Hr'). apply row_key_inj in H; [by subst|done].
Qed.

Lemma distinct_nub rows : distinct rows = nub rows.
Proof. apply dedup_nub. intros r r' H. by apply (row_key_inj NUL). Qed.

Lemma merge_distinct_nub results :
  merge_distinct results = ((merge_results results).1, nub (merge_results results).2).
Proof.
  unfold merge_distinct. destruct (merge_results results) as [cols rows]. cbn [fst snd].
  f_equal. apply dedup_nub. intros r r' Hr. by apply (row_key_inj "|"%char).
Qed.

Lemma intersect_by_value left right : intersect left right = filter (λ r, r ∈ right) left.
Proof. apply list_filter_iff. intros r. apply row_keys_elem. Qed.

Lemma except_by_value left right : except left right = filter (λ r, r ∉ right) left.
Proof. apply list_filter_iff. intros r. by rewrite row_keys_elem. Qed.

Lemma semi_join_by_value left lk right rk :
  semi_join left lk right rk = filter (λ r : row, has_partner right rk (r !! lk)) left.
Proof.
  apply list_filter_iff. intros r. destruct (r !! lk) as [key|]; [|done]. cbn [from_option has_partner].
  by rewrite bool_decide_spec, key_texts_elem.
Qed.

Lemma anti_join_by_value left lk right rk :
  anti_join left lk right rk = filter (λ r : row, ¬ has_partner right rk (r !! lk)) left.
Proof.
  apply list_filter_iff. intros r. destruct (r !! lk) as [key|]; cbn [from_option has_partner].
  - by rewrite bool_decide_spec, key_texts_elem.
  - split; [by intros _ ?|by intros _].
Qed.

Lemma count_distinct_nub rows i :
  count_distinct rows i = length (nub (omap (λ r : row, r !! i) rows)).
Proof.
  unfold count_distinct, key_texts.
  assert (list_to_set (omap (λ r : row, to_string <$> r !! i) rows)
          =@{gset string} list_to_set (to_string <$> nub (omap (λ r : row, r !! i) rows))) as ->.
  { apply set_eq. intros s. rewrite !elem_of_list_to_set, list_elem_of_omap, list_elem_of_fmap.
    setoid_rewrite elem_of_nub. setoid_rewrite list_elem_of_omap. split.
    - intros (r & Hr & Hs). destruct (r !! i) as [v|] eqn:E; [|done]. injection Hs as <-. eauto.
    - intros (v & -> & r & Hr & Hv). exists r. by rewrite Hv. }
  rewrite size_list_to_set, length_fmap; [done|]. apply NoDup_fmap; [apply _|apply NoDup_nub].
Qed.

(** The two hash joins on result rows are the nested loops: every left row
    is followed, in right order, by the rest of each right row whose key cell is
    the same value; a left row without such a right row is dropped by the inner
    join and padded with one null per remaining right column by the left join.
    A row too short to have the key column joins with nothing, and the left join
    drops it too. *)
Theorem row_joins_are_nested_loops left lk right rk n :
  hash_join left lk right rk = nested_loop_join left lk right rk ∧
  left_join left lk right rk n = nested_loop_left_join left lk right rk n.
Proof.
  split; unfold hash_join, left_join, nested_loop_join, nested_loop_left_join; f_equal;
    apply list_fmap_ext; intros _ l _; unfold probe_row, left_probe_row;
    destruct (l !! lk) as [key|]; try done; rewrite row_table_lookup;
    by destruct (partners right rk key).
Qed.

(** The operators that compare whole rows or key cells by their text are
    the set operations on values: distinct and the distinct merge keep the first
    of equal rows in order, intersect and except keep the left rows that are, or
    are not, right rows, semi-join and anti-join keep the left rows with, or
    without, a right row of the same key value, and the distinct count is the
    number of different values of the column. *)
Theorem row_set_operators_by_value rows left right lk rk i results :
  distinct rows = nub rows ∧
  merge_distinct results = ((merge_results results).1, nub (merge_results results).2) ∧
  intersect left right = filter (λ r, r ∈ right) left ∧
  except left right = filter (λ r, r ∉ right) left ∧
  semi_join left lk right rk = filter (λ r : row, has_partner right rk (r !! lk)) left ∧
  anti_join left lk right rk = filter (λ r : row, ¬ has_partner right rk (r !! lk)) left ∧
  count_distinct rows i = length (nub (omap (λ r : row, r !! i) rows)).
Proof.
  split_and!; [apply distinct_nub|apply merge_distinct_nub|apply intersect_by_value
    |apply except_by_value|apply semi_join_by_value|apply anti_join_by_value|apply count_distinct_nub].
Qed.

(** Null is a value like any other here: rows whose keys are both null are
    joined, which the engine's join on columnar batches never does. *)
Lemma null_keys_join (l r : row) :
  hash_join [JNull :: l] 0 [JNull :: r] 0 = [combine 0 (JNull :: l) (JNull :: r)].
Proof.
  unfold hash_join, probe_row. cbn [fmap list_fmap lookup list_lookup].
  by rewrite row_table_lookup.
Qed.
End Lemmas.

(** ** Witnesses, with the reference printer *)

Local Existing Instance RefJson.

Lemma row_joins_are_nested_loops_witness :
  let r a b := [JNumber (NInt a); JString b] in
  hash_join [r 1%Z "x"; r 2%Z "y"] 0 [r 2%Z "u"; r 1%Z "v"; r 2%Z "w"] 0 =
    [r 1%Z "x" ++ [JString "v"]; r 2%Z "y" ++ [JString "u"]; r 2%Z "y" ++ [JString "w"]] ∧
  nested_loop_join [r 1%Z "x"; r 2%Z "y"] 0 [r 2%Z "u"; r 1%Z "v"; r 2%Z "w"] 0 =
    hash_join [r 1%Z "x"; r 2%Z "y"] 0 [r 2%Z "u"; r 1%Z "v"; r 2%Z "w"] 0.
Proof.
  intros r. split; [vm_compute; reflexivity|].
  symmetry. apply (row_joins_are_nested_loops _ 0 _ 0 2).
Defined.

Lemma row_set_operators_by_value_witness :
  let a := [JString "a"] in let b := [JNull] in
  distinct [a; b; a] = [a; b] ∧ nub [a; b; a] = distinct [a; b; a].
Proof.
  intros a b. split; [vm_compute; reflexivity|].
  symmetry. apply (row_set_operators_by_value _ [] [] 0 0 0 []).
Defined.
