(* ===== verification/RowColumns.v ===== *)
(** * RowColumns: operators on the columns of result rows

    Models the server's column operators on rows of JSON values:
    [crates/fuse-server/src/projector.rs], [reorder.rs], [union_typed.rs],
    [transpose.rs], [flattener.rs], [pivot.rs], [null_handler.rs],
    [coercer.rs], [type_infer.rs], [case_when.rs], [string_fn.rs],
    [date_fn.rs] and [renamer.rs].  Parsing a float is a parameter. *)

From S2P Require Import Prelude Strs Json JsonRef Sorting.
From stdpp Require Import base list gmap strings sets pretty sorting.
From Stdlib Require Import Lia Ascii SpecFloat.

Abbreviation table := (list string * list row)%type.

(** ** Choosing columns *)

(** [columns.iter().position(|c| c == s)]. *)
Definition column_index (columns : list string) (s : string) : option nat :=
  position (λ c, bool_decide (c = s)) columns.

(** [row.get(i).cloned().unwrap_or(Value::Null)]. *)
Definition cell_at (r : row) (i : nat) : Value := default JNull (r !! i).

Definition project (rows : list row) (columns selected : list string) : table :=
  let indices := omap (column_index columns) selected in
  (omap (λ i, columns !! i) indices, (λ r, cell_at r <$> indices) <$> rows).

Definition reorder (columns : list string) (rows : list row) (desired_order : list string) : table :=
  let indices := column_index columns <$> desired_order in
  let new_cols := omap (λ '(i, idx), match idx with Some _ => desired_order !! i | None => None end)
                    (enumerate indices) in
  let valid_indices := omap id indices in
  (new_cols, (λ r, cell_at r <$> valid_indices) <$> rows).

Definition move_column (columns : list string) (from : string) (to_pos : nat) : list string :=
  let cols := filter (λ c, c ≠ from) columns in
  let pos := to_pos `min` length cols in
  take pos cols ++ from :: drop pos cols.

(** ** [union_typed.rs] *)

Definition unify_columns (left_cols right_cols : list string) : list string :=
  foldl (λ all c, if decide (c ∈ all) then all else all ++ [c]) left_cols right_cols.

Definition align_row (all_cols cols : list string) (r : row) : row :=
  (λ c, default JNull (column_index cols c ≫= λ i, r !! i)) <$> all_cols.

Definition union_aligned (left_cols : list string) (left_rows : list row)
    (right_cols : list string) (right_rows : list row) : table :=
  let all_cols := unify_columns left_cols right_cols in
  (all_cols, (align_row all_cols left_cols <$> left_rows) ++ (align_row all_cols right_cols <$> right_rows)).

(** ** [transpose.rs] *)

Definition transpose (columns : list string) (rows : list row) : table :=
  if decide (rows = [] ∨ columns = []) then (["column"], [])
  else
    ("column" :: ((λ i, "row_" +:+ pretty (N.of_nat (i + 1))) <$> seq 0 (length rows)),
     (λ '(col_idx, col_name), JString col_name :: ((λ r, cell_at r col_idx) <$> rows)) <$> enumerate columns).

(** ** [flattener.rs] *)

Definition dotted (prefix k : string) : string :=
  if decide (prefix = "") then k else prefix +:+ "." +:+ k.

Fixpoint flatten_value (prefix : string) (value : Value) (out : gmap string Value) : gmap string Value :=
  match value with
  | JObject m =>
      (fix each (m : list (string * Value)) (out : gmap string Value) :=
         match m with
         | [] => out
         | (k, v) :: m => each m (flatten_value (dotted prefix k) v out)
         end) m out
  | _ => <[prefix := value]> out
  end.

Definition flatten_rows (rows : list Value) : table :=
  let flat_rows := (λ r, flatten_value "" r ∅) <$> rows in
  let all_keys := foldl (λ keys flat, keys ∪ dom flat) ∅ flat_rows in
  let columns := btree_set all_keys in
  (columns, (λ flat : gmap string Value, (λ c, default JNull (flat !! c)) <$> columns) <$> flat_rows).

(** ** [pivot.rs] *)

Section Pivot.
Context `{J : JsonOps}.

Definition pivot_step (row_col pivot_col value_col : nat)
    (groups : gmap string (gmap string Value)) (r : row) : gmap string (gmap string Value) :=
  let key := default "" (to_string <$> r !! row_col) in
  let pv := default "" (plain_text <$> r !! pivot_col) in
  let val := cell_at r value_col in
  <[key := <[pv := val]> (default ∅ (groups !! key))]> groups.

Definition pivot_groups (rows : list row) (row_col pivot_col value_col : nat) : gmap string (gmap string Value) :=
  foldl (pivot_step row_col pivot_col value_col) ∅ rows.

Definition pivot_headers (rows : list row) (pivot_col : nat) : gset string :=
  foldl (λ X (r : row), match r !! pivot_col with Some v => {[ plain_text v ]} ∪ X | None => X end) ∅ rows.

Definition pivot (rows : list row) (row_col pivot_col value_col : nat) : table :=
  let pivot_cols := btree_set (pivot_headers rows pivot_col) in
  ("key" :: pivot_cols,
   (λ '(key, vals), JString key :: ((λ pc, default JNull (vals !! pc)) <$> pivot_cols))
     <$> btree_entries (pivot_groups rows row_col pivot_col value_col)).
End Pivot.

(** ** [null_handler.rs] *)

Definition or_default (def v : Value) : Value := if is_null v then def else v.
Definition coalesce (rows : list row) (col_idx : nat) (def : Value) : list row :=
  (λ r : row, alter (or_default def) col_idx r) <$> rows.
Definition fill_nulls (rows : list row) (def : Value) : list row :=
  (λ r : row, or_default def <$> r) <$> rows.

Definition count_cell (col_count : nat) (counts : list nat) (iv : nat * Value) : list nat :=
  if (iv.1 <? col_count) && is_null iv.2 then alter S iv.1 counts else counts.
Definition null_counts (rows : list row) (col_count : nat) : list nat :=
  foldl (λ counts r, foldl (count_cell col_count) counts (enumerate r)) (replicate col_count 0) rows.

(** ** [type_infer.rs] *)

Inductive InferredType : Type :=
| TString | TInteger | TFloat | TBoolean | TNull | TArray | TObject | TMixed.

#[export] Instance InferredType_eq_dec : EqDecision InferredType.
Proof. solve_decision. Defined.

Definition infer_type (v : Value) : InferredType :=
  match v with
  | JString _ => TString
  | JNumber (NInt _) => TInteger
  | JNumber _ => TFloat
  | JBool _ => TBoolean
  | JNull => TNull
  | JArray _ => TArray
  | JObject _ => TObject
  end.

Definition column_types (rows : list row) (i : nat) : list InferredType :=
  infer_type <$> filter (λ v, is_null v = false) (omap (λ r : row, r !! i) rows).

Definition infer_column_type (rows : list row) (i : nat) : InferredType :=
  match column_types rows i with
  | [] => TNull
  | t :: _ => if forallb (λ t', bool_decide (t' = t)) (column_types rows i) then t else TMixed
  end.

Definition infer_column_types (rows : list row) (columns : list string) : list (string * InferredType) :=
  (λ '(i, name), (name, infer_column_type rows i)) <$> enumerate columns.

(** ** [coercer.rs] *)

Module Coercer.
Section Coerce.
Context `{J : JsonOps} (parse_f64 : string → option spec_float).

Definition to_string (v : Value) : Value :=
  match v with
  | JString _ => v
  | JNull => JNull
  | _ => JString (Json.to_string v)
  end.

Definition to_number (v : Value) : Value :=
  match v with
  | JNumber _ => v
  | JString s =>
      match parse_f64 s with
      | Some n => default JNull (JNumber <$> number_from_f64 n)
      | None => JNull
      end
  | JBool b => JNumber (NInt (if b then 1 else 0))
  | _ => JNull
  end.

Definition coerce (target : string) (v : Value) : Value :=
  if decide (target = "string") then to_string v
  else if decide (target = "number") then to_number v
  else v.

Definition coerce_column (rows : list row) (col_idx : nat) (target : string) : list row :=
  (λ r : row, alter (coerce target) col_idx r) <$> rows.
End Coerce.
End Coercer.

(** ** [case_when.rs] *)

Record CaseWhen : Type := mkCase { conditions : list ((Value → bool) * Value); case_default : Value }.

Definition case_new (def : Value) : CaseWhen := mkCase [] def.
Definition when (c : CaseWhen) (p : Value → bool) (result : Value) : CaseWhen :=
  mkCase (conditions c ++ [(p, result)]) (case_default c).

Fixpoint first_match (conds : list ((Value → bool) * Value)) (v : Value) : option Value :=
  match conds with
  | [] => None
  | (p, result) :: conds => if p v then Some result else first_match conds v
  end.
Definition evaluate (c : CaseWhen) (v : Value) : Value :=
  default (case_default c) (first_match (conditions c) v).

Definition apply_case (rows : list row) (col : nat) (c : CaseWhen) : list Value :=
  (λ r : row, from_option (evaluate c) (case_default c) (r !! col)) <$> rows.

(** ** [string_fn.rs] *)

Definition on_string (f : string → string) (v : Value) : Value :=
  match v with JString s => JString (f s) | _ => v end.
Definition upper (rows : list row) (col : nat) : list row :=
  (λ r : row, alter (on_string to_uppercase) col r) <$> rows.
Definition lower (rows : list row) (col : nat) : list row :=
  (λ r : row, alter (on_string to_lowercase) col r) <$> rows.
Definition trim_column (rows : list row) (col : nat) : list row :=
  (λ r : row, alter (on_string trim) col r) <$> rows.

Definition concat_columns `{J : JsonOps} (rows : list row) (col_a col_b : nat) (sep : string) : list Value :=
  (λ r : row,
     let a := default "" (plain_text <$> r !! col_a) in
     let b := default "" (plain_text <$> r !! col_b) in
     JString (a +:+ sep +:+ b)) <$> rows.

(** ** [date_fn.rs] *)

Definition extract_date_cell (v : option Value) : Value :=
  match v with
  | Some (JString s) => JString (default s (head (split_on (is_char "T") s)))
  | Some v => v
  | None => JNull
  end.
Definition extract_date (rows : list row) (col : nat) : list Value :=
  (λ r : row, extract_date_cell (r !! col)) <$> rows.

Definition extract_hour_cell (v : option Value) : Value :=
  match v with
  | Some (JString s) =>
      match split_on (is_char "T") s !! 1 with
      | Some time_part =>
          let hour := default "0" (head (split_on (is_char ":") time_part)) in
          match parse_u32 hour with Some h => JNumber (NInt (Z.of_N h)) | None => JNull end
      | None => JNull
      end
  | _ => JNull
  end.
Definition extract_hour (rows : list row) (col : nat) : list Value :=
  (λ r : row, extract_hour_cell (r !! col)) <$> rows.

(** ** [renamer.rs] *)

Definition rename_columns (columns : list string) (aliases : gmap string string) : list string :=
  (λ c, default c (aliases !! c)) <$> columns.

(** [trim_matches] with the double quote. *)
Definition is_dquote : ascii → bool := is_char (ascii_of_nat 34).

Definition add_alias (aliases : gmap string string) (part : string) : gmap string string :=
  let trimmed := trim part in
  match rfind_sub " AS " (to_uppercase trimmed) with
  | None => aliases
  | Some as_pos =>
      let original := trim (str_take as_pos trimmed) in
      let alias := trim_matches is_dquote (trim (str_drop (as_pos + 4) trimmed)) in
      if bool_decide (alias ≠ "") && bool_decide (original ≠ "")
      then <[default original (last (split_whitespace original)) := alias]> aliases
      else aliases
  end.

Definition select_part (query : string) : string :=
  match find_sub " FROM " (to_uppercase query) with
  | Some from_pos => str_take from_pos query
  | None => query
  end.
Definition parse_aliases (query : string) : gmap string string :=
  foldl add_alias ∅ (split_on (is_char ",") (select_part query)).

(** * What the column operators do to a table

    Tables are read by column name: projection, reordering and the aligned
    union move cells without changing what is read under a name; transposing
    twice is the identity; flattening and pivoting put the last value of a path,
    or of a pair of keys, in its cell; the inferred type of a column is the type
    of all its values. *)

(** ** Reading a table by column name *)

(** The cell of [r] under the name [c], null when there is none. *)
Definition named (cols : list string) (r : row) (c : string) : Value :=
  default JNull (column_index cols c ≫= λ i, r !! i).

Lemma column_index_Some cols c i : column_index cols c = Some i → cols !! i = Some c.
Proof.
  intros (d & Hd & E)%position_Some. apply bool_decide_eq_true in E as ->. done.
Qed.

Lemma column_index_None cols c : column_index cols c = None ↔ c ∉ cols.
Proof.
  unfold column_index. rewrite position_None, Forall_forall. split.
  - intros H Hc. specialize (H c Hc). by rewrite bool_decide_eq_false in H.
  - intros H d Hd. apply bool_decide_eq_false. by intros ->.
Qed.

Lemma column_index_elem cols c : c ∈ cols → ∃ i, column_index cols c = Some i ∧ cols !! i = Some c.
Proof.
  intros Hc. destruct (column_index cols c) as [i|] eqn:E.
  - exists i. split; [done|]. by apply column_index_Some.
  - by apply column_index_None in E.
Qed.

(** A row made of one cell per name is read back by name. *)
Lemma named_fmap (g : string → Value) cols c :
  named cols (g <$> cols) c = if decide (c ∈ cols) then g c else JNull.
Proof.
  unfold named. destruct (decide (c ∈ cols)) as [Hc|Hc].
  - destruct (column_index_elem cols c Hc) as (i & -> & Hi). cbn. by rewrite list_lookup_fmap, Hi.
  - by rewrite (proj2 (column_index_None cols c) Hc).
Qed.

Lemma named_absent cols r c : c ∉ cols → named cols r c = JNull.
Proof. intros Hc. unfold named. by rewrite (proj2 (column_index_None cols c) Hc). Qed.

(** ** Choosing columns *)

Lemma omap_index_columns (columns selected : list string) :
  omap (λ i, columns !! i) (omap (column_index columns) selected) = filter (λ c, c ∈ columns) selected.
Proof.
  induction selected as [|s selected IH]; [done|]. cbn [omap list_omap]. rewrite filter_cons.
  destruct (decide (s ∈ columns)) as [Hs|Hs].
  - destruct (column_index_elem columns s Hs) as (i & -> & Hi). cbn [omap list_omap]. by rewrite Hi, IH.
  - rewrite (proj2 (column_index_None columns s) Hs). exact IH.
Qed.

Lemma omap_index_cells (columns selected : list string) (r : row) :
  cell_at r <$> omap (column_index columns) selected = named columns r <$> filter (λ c, c ∈ columns) selected.
Proof.
  induction selected as [|s selected IH]; [done|]. cbn [omap list_omap]. rewrite filter_cons.
  destruct (decide (s ∈ columns)) as [Hs|Hs].
  - destruct (column_index_elem columns s Hs) as (i & E & Hi). rewrite E, !fmap_cons, IH. f_equal.
    unfold named, cell_at. by rewrite E.
  - rewrite (proj2 (column_index_None columns s) Hs). exact IH.
Qed.

Lemma project_spec rows columns selected :
  project rows columns selected =
    (filter (λ c, c ∈ columns) selected,
     (λ r, named columns r <$> filter (λ c, c ∈ columns) selected) <$> rows).
Proof.
  unfold project. rewrite omap_index_columns. f_equal. apply list_fmap_ext.
  intros _ r _. apply omap_index_cells.
Qed.

Lemma reorder_names_from columns (pre desired : list string) :
  omap (λ '(i, idx), match idx with Some _ => (pre ++ desired) !! i | None => None end)
    (enumerate_from (length pre) (column_index columns <$> desired))
  = filter (λ c, c ∈ columns) desired.
Proof.
  revert pre. induction desired as [|d desired IH]; intros pre; [done|].
  rewrite fmap_cons. cbn [enumerate_from omap list_omap]. rewrite filter_cons.
  specialize (IH (pre ++ [d])). rewrite <- app_assoc, length_app, Nat.add_1_r in IH.
  cbn [app] in IH. destruct (decide (d ∈ columns)) as [Hd|Hd].
  - destruct (column_index_elem columns d Hd) as (i & -> & _).
    rewrite lookup_app_r, Nat.sub_diag by done. cbn [lookup list_lookup]. f_equal. exact IH.
  - rewrite (proj2 (column_index_None columns d) Hd). exact IH.
Qed.

Lemma reorder_project columns rows desired : reorder columns rows desired = project rows columns desired.
Proof.
  rewrite project_spec. unfold reorder, enumerate. f_equal.
  - apply (reorder_names_from columns [] desired).
  - apply list_fmap_ext. intros _ r _. rewrite <- omap_index_cells. f_equal.
    clear. induction desired as [|d l IH]; [done|]. cbn. destruct (column_index columns d); cbn; by rewrite IH.
Qed.

Lemma move_column_spec columns from to_pos :
  move_column columns from to_pos ≡ₚ from :: filter (λ c, c ≠ from) columns ∧
  filter (λ c, c ≠ from) (move_column columns from to_pos) = filter (λ c, c ≠ from) columns ∧
  move_column columns from to_pos !! (to_pos `min` length (filter (λ c, c ≠ from) columns)) = Some from.
Proof.
  unfold move_column. set (cols := filter (λ c, c ≠ from) columns).
  assert (filter (λ c, c ≠ from) cols = cols) as Hid.
  { unfold cols. rewrite list_filter_filter. apply list_filter_iff. naive_solver. }
  set (pos := to_pos `min` length cols). split_and!.
  - rewrite <- Permutation_middle. by rewrite take_drop.
  - rewrite filter_app, filter_cons, decide_False by naive_solver. by rewrite <- filter_app, take_drop.
  - rewrite lookup_app_r; rewrite length_take; [|lia].
    replace (pos - pos `min` length cols) with 0 by lia. done.
Qed.

(** Selecting columns and reordering columns are the same operation: the
    result has the requested columns that exist, in the requested order, one
    output row per input row, and under every requested name the output row reads
    as the input row, null when the table has no such column or the row is too
    short for it. *)
Theorem projection_keeps_cells rows columns selected :
  let '(cols, rows') := project rows columns selected in
  reorder columns rows selected = (cols, rows') ∧
  cols = filter (λ c, c ∈ columns) selected ∧
  Forall2 (λ r r', length r' = length cols ∧
                   ∀ c, c ∈ selected → named cols r' c = named columns r c) rows rows'.
Proof.
  rewrite reorder_project, project_spec. split; [done|]. split; [done|].
  apply Forall2_fmap_r, Forall_Forall2_diag, Forall_forall. intros r _.
  split; [by rewrite length_fmap|]. intros c Hc. rewrite named_fmap.
  destruct (decide _) as [_|Hn]; [done|]. symmetry. apply named_absent.
  intros Hc'. apply Hn. by apply list_elem_of_filter.
Qed.

(** ** Aligned union *)

Lemma unify_columns_spec lc rc :
  ∃ extra, unify_columns lc rc = lc ++ extra ∧ NoDup extra ∧
    ∀ c, c ∈ extra ↔ c ∈ rc ∧ c ∉ lc.
Proof.
  unfold unify_columns. induction rc as [|d rc IH] using rev_ind.
  { exists []. rewrite app_nil_r. split_and!; [done|constructor|set_solver]. }
  rewrite foldl_snoc. destruct IH as (extra & -> & Hnd & Hex).
  destruct (decide (d ∈ lc ++ extra)) as [Hd|Hd].
  - exists extra. split_and!; [done..|]. intros c. rewrite Hex. set_solver.
  - exists (extra ++ [d]). rewrite app_assoc. split_and!; [done| |set_solver].
    apply NoDup_app. split_and!; [done|set_solver|apply NoDup_singleton].
Qed.

Lemma align_row_named all cols r c :
  (∀ c, c ∈ cols → c ∈ all) → named all (align_row all cols r) c = named cols r c.
Proof.
  intros Hall. change (align_row all cols r) with (named cols r <$> all). rewrite named_fmap.
  destruct (decide (c ∈ all)); [done|]. symmetry. apply named_absent. eauto.
Qed.

(** The aligned union has the left columns in order followed by the columns
    only the right side has, each once, and consists of the left rows followed by
    the right rows; under every name at all, an output row reads as the row it
    comes from, so a column the row's side lacks reads as null. *)
Theorem union_aligned_keeps_cells lc lr rc rr :
  ∃ extra l' r',
    union_aligned lc lr rc rr = (lc ++ extra, l' ++ r') ∧
    NoDup extra ∧ (∀ c, c ∈ extra ↔ c ∈ rc ∧ c ∉ lc) ∧
    Forall2 (λ r r', ∀ c, named (lc ++ extra) r' c = named lc r c) lr l' ∧
    Forall2 (λ r r', ∀ c, named (lc ++ extra) r' c = named rc r c) rr r'.
Proof.
  destruct (unify_columns_spec lc rc) as (extra & E & Hnd & Hex).
  exists extra, (align_row (lc ++ extra) lc <$> lr), (align_row (lc ++ extra) rc <$> rr).
  unfold union_aligned. rewrite E. split_and!; [done..| |];
    apply Forall2_fmap_r, Forall_Forall2_diag, Forall_forall; intros r _ c; apply align_row_named;
    intros d Hd; apply elem_of_app; [by left|].
  destruct (decide (d ∈ lc)); [by left|right]. by apply Hex.
Qed.

(** ** Transposing *)

Lemma fmap_enumerate_from {A B : Type} (f : nat → A → B) (l : list A) i j :
  ((λ '(k, x), f k x) <$> enumerate_from i l) !! j = f (i + j) <$> l !! j.
Proof. rewrite list_lookup_fmap, enumerate_from_lookup. by destruct (l !! j). Qed.

Lemma transpose_rows columns rows :
  rows ≠ [] → columns ≠ [] →
  transpose columns rows =
    ("column" :: ((λ i, "row_" +:+ pretty (N.of_nat (i + 1))) <$> seq 0 (length rows)),
     (λ '(i, name), JString name :: ((λ r, cell_at r i) <$> rows)) <$> enumerate columns).
Proof. intros. unfold transpose. by rewrite decide_False by naive_solver. Qed.

Lemma cell_at_full (r : row) i v : r !! i = Some v → cell_at r i = v.
Proof. unfold cell_at. by intros ->. Qed.

(** The cells of the columns, one list per column. *)
Definition columns_of (n : nat) (rows : list row) : list row :=
  (λ i, (λ r, cell_at r i) <$> rows) <$> seq 0 n.

Lemma transpose_data columns rows :
  rows ≠ [] → columns ≠ [] →
  tail <$> (transpose columns rows).2 = columns_of (length columns) rows.
Proof.
  intros Hr Hc. rewrite transpose_rows by done. cbn [snd]. rewrite <- list_fmap_compose.
  apply list_eq. intros j. unfold columns_of, enumerate. rewrite !list_lookup_fmap, enumerate_from_lookup.
  destruct (columns !! j) eqn:E.
  - rewrite lookup_seq_lt by (by eapply lookup_lt_Some). done.
  - rewrite lookup_seq_ge by (by apply lookup_ge_None). done.
Qed.

Lemma columns_of_twice n rows :
  Forall (λ r, length r = n) rows → columns_of (length rows) (columns_of n rows) = rows.
Proof.
  intros Hn. apply list_eq. intros i. unfold columns_of at 1. rewrite list_lookup_fmap.
  destruct (rows !! i) as [r|] eqn:Er.
  2: { rewrite lookup_seq_ge by (by apply lookup_ge_None). done. }
  rewrite lookup_seq_lt by (by eapply lookup_lt_Some). cbn [fmap option_fmap option_map]. f_equal.
  assert (length r = n) as Hr by by eapply (Forall_lookup_1 _ _ _ _ Hn).
  apply list_eq. intros j. unfold columns_of. rewrite !list_lookup_fmap.
  destruct (r !! j) as [v|] eqn:Ej.
  - rewrite lookup_seq_lt by (rewrite <- Hr; by eapply lookup_lt_Some). cbn. f_equal.
    apply cell_at_full. rewrite list_lookup_fmap, Er. cbn. f_equal. by apply cell_at_full.
  - rewrite lookup_seq_ge by (rewrite <- Hr; by apply lookup_ge_None). done.
Qed.

(** Transposing a rectangular result puts the column names in the first
    cells and, transposed again without the name columns, gives the rows back. *)
Theorem transpose_twice columns rows :
  rows ≠ [] → columns ≠ [] → Forall (λ r, length r = length columns) rows →
  let t := transpose columns rows in
  omap head t.2 = JString <$> columns ∧
  length t.1 = S (length rows) ∧ Forall (λ r, length r = length t.1) t.2 ∧
  tail <$> (transpose (tail t.1) (tail <$> t.2)).2 = rows.
Proof.
  intros Hr Hc Hn t. assert (t = transpose columns rows) as Et by done.
  rewrite transpose_rows in Et by done. split_and!.
  - rewrite Et. cbn [snd]. unfold enumerate. clear. generalize 0. induction columns as [|c cols IH]; intros k; [done|].
    cbn. f_equal. apply IH.
  - rewrite Et. cbn. by rewrite length_fmap, length_seq.
  - rewrite Et. cbn [fst snd]. apply Forall_fmap, Forall_forall. intros [i c] _. cbn.
    by rewrite !length_fmap, length_seq.
  - assert (tail <$> t.2 = columns_of (length columns) rows) as E2 by by apply transpose_data.
    assert (length (tail t.1) = length rows) as E1 by (rewrite Et; cbn; by rewrite length_fmap, length_seq).
    rewrite transpose_data, E1, E2; [by apply columns_of_twice|..].
    + intros E. apply (f_equal length) in E. unfold columns_of in E.
      rewrite E2 in E. unfold columns_of in E. rewrite length_fmap, length_seq in E. by destruct columns.
    + intros E. rewrite E in E1. by destruct rows.
Qed.

Lemma transpose_twice_witness :
  let rows := [[JBool true; JNull]; [JString "x"; JBool false]; [JNull; JNull]] in
  let t := transpose ["a"; "b"] rows in
  t.2 = [[JString "a"; JBool true; JString "x"; JNull]; [JString "b"; JNull; JBool false; JNull]] ∧
  tail <$> (transpose (tail t.1) (tail <$> t.2)).2 = rows.
Proof.
  intros rows t. split; [vm_compute; reflexivity|].
  apply (transpose_twice ["a"; "b"] rows); [discriminate|discriminate|].
  repeat constructor.
Defined.

(** ** The last value inserted under a key *)

Section LastAt.
Context {K A : Type} `{Countable K}.

Definition last_at (k : K) (l : list (K * A)) : option A :=
  last (omap (λ kv, if decide (kv.1 = k) then Some kv.2 else None) l).

Definition insert_all (m : gmap K A) (l : list (K * A)) : gmap K A :=
  foldl (λ m kv, <[kv.1 := kv.2]> m) m l.

Lemma last_at_snoc k l k' x :
  last_at k (l ++ [(k', x)]) = if decide (k' = k) then Some x else last_at k l.
Proof.
  unfold last_at. rewrite omap_app. cbn [omap list_omap fst snd].
  destruct (decide (k' = k)); [by rewrite last_snoc|by rewrite app_nil_r].
Qed.

Lemma insert_all_lookup m l k :
  insert_all m l !! k = match last_at k l with Some x => Some x | None => m !! k end.
Proof.
  induction l as [|[k' x] l IH] using rev_ind; [done|]. unfold insert_all in *.
  rewrite foldl_snoc, last_at_snoc. cbn [fst snd].
  destruct (decide (k' = k)) as [->|Hne]; [by rewrite lookup_insert_eq|].
  rewrite lookup_insert_ne by done. exact IH.
Qed.

Lemma last_at_is_Some k l : is_Some (last_at k l) ↔ k ∈ l.*1.
Proof.
  unfold last_at. rewrite last_is_Some. induction l as [|[k' x] l IH]; cbn; [set_solver|].
  destruct (decide (k' = k)) as [->|Hne]; [split; [set_solver|done]|].
  rewrite IH. set_solver.
Qed.
End LastAt.

(** ** Flattening *)

(** The scalar and array values of a nested value with their dotted paths, in
    order. *)
Fixpoint leaves (prefix : string) (v : Value) : list (string * Value) :=
  match v with
  | JObject m =>
      (fix each (m : list (string * Value)) :=
         match m with
         | [] => []
         | (k, v) :: m => leaves (dotted prefix k) v ++ each m
         end) m
  | _ => [(prefix, v)]
  end.

Lemma flatten_value_leaves v : ∀ prefix out,
  flatten_value prefix v out = insert_all out (leaves prefix v).
Proof.
  induction v as [| | | | |m IH] using Value_ind; intros prefix out; try done.
  cbn [flatten_value leaves]. revert out. induction IH as [|[k v] m Hv _ IHm]; intros out; [done|].
  cbn [snd] in Hv. rewrite Hv, IHm. unfold insert_all. by rewrite foldl_app.
Qed.

Lemma flatten_lookup r c : flatten_value "" r ∅ !! c = last_at c (leaves "" r).
Proof.
  rewrite flatten_value_leaves, insert_all_lookup, lookup_empty. by destruct (last_at c _).
Qed.

Lemma union_doms_elem (flats : list (gmap string Value)) c :
  c ∈ foldl (λ keys flat, keys ∪ dom flat) (∅ : gset string) flats ↔ ∃ m, m ∈ flats ∧ is_Some (m !! c).
Proof.
  induction flats as [|m flats IH] using rev_ind; [set_solver|].
  rewrite foldl_snoc, elem_of_union, IH, elem_of_dom. set_solver.
Qed.

(** Flattening gives the columns, sorted and without repetition, that are the
    path of a leaf of some row, and in each row, under every name, the last leaf
    with that path, null when the row has none.  So a row in which no two leaves
    have the same path loses nothing, and of leaves whose paths collide only the
    last survives. *)
Theorem flatten_rows_cells rows :
  let '(cols, out) := flatten_rows rows in
  StronglySorted String.le cols ∧ NoDup cols ∧
  (∀ c, c ∈ cols ↔ ∃ r, r ∈ rows ∧ c ∈ (leaves "" r).*1) ∧
  Forall2 (λ r r', ∀ c, named cols r' c = default JNull (last_at c (leaves "" r))) rows out.
Proof.
  unfold flatten_rows. cbv beta iota zeta. set (keys := foldl _ _ _).
  assert (∀ c, c ∈ btree_set keys ↔ ∃ r, r ∈ rows ∧ c ∈ (leaves "" r).*1) as Hkeys.
  { intros c. rewrite btree_set_elem. unfold keys. rewrite union_doms_elem.
    split.
    - intros (m & (r & -> & Hr)%list_elem_of_fmap & Hm).
      rewrite flatten_lookup, last_at_is_Some in Hm. eauto.
    - intros (r & Hr & Hc). exists (flatten_value "" r ∅).
      rewrite flatten_lookup, last_at_is_Some. split; [|done]. apply list_elem_of_fmap. eauto. }
  split_and!; [apply btree_set_sorted|apply btree_set_NoDup|exact Hkeys|].
  rewrite <- list_fmap_compose. apply Forall2_fmap_r, Forall_Forall2_diag, Forall_forall. intros r Hr c.
  cbn [compose]. rewrite (named_fmap (λ c, default JNull (flatten_value "" r ∅ !! c))), flatten_lookup.
  destruct (decide (c ∈ btree_set keys)) as [_|Hc]; [done|].
  destruct (last_at c (leaves "" r)) as [v|] eqn:E; [|done]. destruct Hc. apply Hkeys. exists r.
  split; [done|]. apply last_at_is_Some. by rewrite E.
Qed.

(** Two different leaves of one row can have the same path. *)
Lemma flatten_paths_collide v w :
  flatten_rows [JObject [("a.b", JString v); ("a", JObject [("b", JString w)])]] = (["a.b"], [[JString w]]).
Proof. reflexivity. Qed.

(** ** Pivoting *)

Section PivotCorrect.
Context `{J : JsonOps}.

(** What a row says: under its key and its pivot text, its value. *)
Definition pivot_entry (row_col pivot_col value_col : nat) (r : row) : string * string * Value :=
  (default "" (to_string <$> r !! row_col), default "" (plain_text <$> r !! pivot_col), cell_at r value_col).

Lemma pivot_step_entry rc pc vc g r :
  pivot_step rc pc vc g r =
    let '(k, pv, v) := pivot_entry rc pc vc r in <[k := <[pv := v]> (default ∅ (g !! k))]> g.
Proof. done. Qed.

Lemma pivot_groups_lookup rows rc pc vc k pv :
  pivot_groups rows rc pc vc !! k ≫= (λ m, m !! pv) =
    last_at (k, pv) (pivot_entry rc pc vc <$> rows).
Proof.
  unfold pivot_groups. induction rows as [|r rows IH] using rev_ind; [done|].
  rewrite foldl_snoc, fmap_app, pivot_step_entry. cbn [fmap list_fmap].
  destruct (pivot_entry rc pc vc r) as [[k' pv'] v]. rewrite last_at_snoc.
  destruct (decide (k' = k)) as [->|Hk].
  - rewrite lookup_insert_eq. cbn [mbind option_bind]. destruct (decide (pv' = pv)) as [->|Hpv].
    + by rewrite lookup_insert_eq, decide_True.
    + rewrite lookup_insert_ne, decide_False by congruence.
      rewrite <- IH. by destruct (foldl _ ∅ rows !! k).
  - by rewrite lookup_insert_ne, decide_False by congruence.
Qed.

Lemma pivot_groups_keys rows rc pc vc k :
  is_Some (pivot_groups rows rc pc vc !! k) ↔ k ∈ (λ r, (pivot_entry rc pc vc r).1.1) <$> rows.
Proof.
  unfold pivot_groups. induction rows as [|r rows IH] using rev_ind; [by split; [intros [? ?]|set_solver]|].
  rewrite foldl_snoc, fmap_app, elem_of_app, <- IH, pivot_step_entry. cbn [fmap list_fmap].
  rewrite list_elem_of_singleton. destruct (pivot_entry rc pc vc r) as [[k' pv'] v]. cbn [fst snd].
  destruct (decide (k' = k)) as [->|Hk].
  - rewrite lookup_insert_eq. naive_solver.
  - rewrite lookup_insert_ne by done. naive_solver.
Qed.

Lemma pivot_headers_elem rows pc s :
  s ∈ pivot_headers rows pc ↔ s ∈ omap (λ r : row, plain_text <$> r !! pc) rows.
Proof.
  unfold pivot_headers. induction rows as [|r rows IH] using rev_ind; [set_solver|].
  rewrite foldl_snoc, omap_app, elem_of_app. cbn [omap list_omap].
  destruct (r !! pc) as [v|]; cbn [fmap option_fmap option_map]; set_solver.
Qed.

(** The pivoted table has one row per different key text and one column per
    different pivot text, both in string order without repetition; the cell at a
    key and a pivot column is the value of the last input row with that key and
    that pivot text, null when there is none.  A row without the key column
    counts under the empty key; one without the pivot column only shows when
    some row's pivot text is empty. *)
Theorem pivot_cells rows rc pc vc :
  ∃ keys headers,
    pivot rows rc pc vc =
      ("key" :: headers,
       (λ k, JString k :: ((λ h, default JNull (last_at (k, h) (pivot_entry rc pc vc <$> rows))) <$> headers))
         <$> keys) ∧
    StronglySorted String.le keys ∧ NoDup keys ∧
    (∀ k, k ∈ keys ↔ k ∈ (λ r, (pivot_entry rc pc vc r).1.1) <$> rows) ∧
    StronglySorted String.le headers ∧ NoDup headers ∧
    (∀ h, h ∈ headers ↔ h ∈ omap (λ r : row, plain_text <$> r !! pc) rows).
Proof.
  set (g := pivot_groups rows rc pc vc).
  exists (btree_keys g), (btree_set (pivot_headers rows pc)). split_and!.
  - unfold pivot. fold g. f_equal. rewrite <- (btree_entries_fst g), <- list_fmap_compose.
    apply list_fmap_ext. intros i [k m] Hkm. cbn [compose fst]. f_equal. apply list_fmap_ext. intros _ h _.
    rewrite <- pivot_groups_lookup. fold g.
    apply list_elem_of_lookup_2, btree_entries_elem in Hkm. by rewrite Hkm.
  - apply btree_set_sorted.
  - apply btree_set_NoDup.
  - intros k. rewrite btree_keys_elem. apply pivot_groups_keys.
  - apply btree_set_sorted.
  - apply btree_set_NoDup.
  - intros h. rewrite btree_set_elem. apply pivot_headers_elem.
Qed.
End PivotCorrect.

(** ** Nulls *)

Lemma null_counts_length rows n : length (null_counts rows n) = n.
Proof.
  unfold null_counts. rewrite <- (length_replicate n 0) at 2. generalize (replicate n 0).
  induction rows as [|r rows IH]; intros l; [done|]. cbn [foldl]. rewrite IH.
  clear IH. unfold enumerate. revert l. generalize 0.
  induction r as [|v r IH]; intros i l; [done|]. cbn [enumerate_from foldl]. rewrite IH.
  unfold count_cell. destruct (_ && _); [apply length_alter|done].
Qed.

Lemma count_row_lookup (r : row) n i : ∀ counts k,
  i < n →
  foldl (count_cell n) counts (enumerate_from k r) !! i =
    (if decide (k ≤ i ∧ r !! (i - k) = Some JNull) then S else id) <$> counts !! i.
Proof.
  induction r as [|v r IH]; intros counts k Hi.
  { rewrite decide_False by naive_solver. cbn. by destruct (counts !! i). }
  cbn [enumerate_from foldl]. rewrite IH by done. unfold count_cell. cbn [fst snd].
  destruct (decide (k = i)) as [->|Hne].
  - rewrite (decide_False (P := S i ≤ i ∧ _)) by lia. rewrite Nat.sub_diag.
    rewrite (proj2 (Nat.ltb_lt i n)) by done. cbn [andb lookup list_lookup].
    destruct v; cbn [is_null]; try (rewrite decide_False by naive_solver; by destruct (counts !! i)).
    rewrite decide_True by (split; [lia|done]). rewrite list_lookup_alter_eq. by destruct (counts !! i).
  - assert ((if (k <? n) && is_null v then alter S k counts else counts) !! i = counts !! i) as ->
      by (destruct (_ && _); [by apply list_lookup_alter_ne|done]).
    destruct (decide (k < i)) as [Hlt|Hge].
    + replace (i - k) with (S (i - S k)) by lia. cbn [lookup list_lookup].
      destruct (decide (S k ≤ i ∧ r !! (i - S k) = Some JNull));
        destruct (decide (k ≤ i ∧ r !! (i - S k) = Some JNull)); try done; exfalso; naive_solver lia.
    + rewrite !decide_False by lia. done.
Qed.

Lemma null_counts_lookup rows n i :
  i < n → null_counts rows n !! i = Some (length (filter (λ r : row, r !! i = Some JNull) rows)).
Proof.
  intros Hi. unfold null_counts. induction rows as [|r rows IH] using rev_ind.
  { cbn. by rewrite lookup_replicate_2. }
  rewrite foldl_snoc. unfold enumerate in *. rewrite count_row_lookup, IH, filter_app, length_app, filter_cons by done.
  rewrite Nat.sub_0_r. cbn [fmap option_fmap option_map]. f_equal.
  destruct (decide (r !! i = Some JNull)).
  - rewrite decide_True by (split; [lia|done]). cbn. lia.
  - rewrite decide_False by naive_solver. cbn. lia.
Qed.

(** Replacing nulls by a value leaves none. *)
Lemma fill_nulls_none rows def n i :
  def ≠ JNull → i < n → null_counts (fill_nulls rows def) n !! i = Some 0.
Proof.
  intros Hdef Hi. rewrite null_counts_lookup by done. f_equal.
  unfold fill_nulls. induction rows as [|r rows IH]; [done|].
  rewrite fmap_cons, filter_cons, decide_False; [exact IH|].
  rewrite list_lookup_fmap. destruct (r !! i) as [[]|]; cbn; congruence.
Qed.

Lemma coalesce_spec rows i def :
  def ≠ JNull →
  Forall2 (λ r r', length r' = length r ∧
                   ∀ j, r' !! j = if decide (j = i ∧ r !! j = Some JNull) then Some def else r !! j)
    rows (coalesce rows i def).
Proof.
  intros Hdef. apply Forall2_fmap_r, Forall_Forall2_diag, Forall_forall. intros r _.
  split; [apply length_alter|]. intros j. destruct (decide (j = i)) as [->|Hne].
  - rewrite list_lookup_alter_eq. destruct (r !! i) as [v|]; [|by rewrite decide_False by naive_solver].
    destruct v; cbn; try (by rewrite decide_False by naive_solver). by rewrite decide_True.
  - rewrite list_lookup_alter_ne, decide_False by naive_solver. done.
Qed.

(** ** Types *)

(** The values a column type stands for. *)
Inductive has_type : Value → InferredType → Prop :=
| ty_string s : has_type (JString s) TString
| ty_integer z : has_type (JNumber (NInt z)) TInteger
| ty_float f : has_type (JNumber (NFloat f)) TFloat
| ty_bool b : has_type (JBool b) TBoolean
| ty_array l : has_type (JArray l) TArray
| ty_object m : has_type (JObject m) TObject
| ty_null t : has_type JNull t
| ty_mixed v : has_type v TMixed.

Lemma has_type_iff v t : has_type v t ↔ t = TMixed ∨ v = JNull ∨ infer_type v = t.
Proof.
  split.
  - destruct 1; naive_solver.
  - intros [->|[->|<-]]; [constructor..|]. destruct v as [| |[]| | |]; constructor.
Qed.

(** A column's cells. *)
Definition column_cells (rows : list row) (i : nat) : list Value := omap (λ r : row, r !! i) rows.

Lemma column_types_elem rows i t :
  t ∈ column_types rows i ↔ ∃ v, v ∈ column_cells rows i ∧ v ≠ JNull ∧ infer_type v = t.
Proof.
  unfold column_types, column_cells. rewrite list_elem_of_fmap. setoid_rewrite list_elem_of_filter. split.
  - intros (v & -> & Hv & Hin). exists v. split_and!; [done|by intros ->|done].
  - intros (v & Hin & Hv & <-). exists v. split_and!; [done|by destruct v|done].
Qed.

Lemma column_types_nil rows i :
  column_types rows i = [] ↔ Forall (λ v, v = JNull) (column_cells rows i).
Proof.
  unfold column_types, column_cells. induction (omap _ rows) as [|v l IH]; [done|].
  rewrite filter_cons, Forall_cons. destruct v; cbn [is_null]; rewrite ?decide_False, ?decide_True by done;
    rewrite ?fmap_cons, ?IH; naive_solver.
Qed.

Lemma infer_column_type_cases rows i :
  (infer_column_type rows i = TNull ∧ Forall (λ v, v = JNull) (column_cells rows i)) ∨
  (∃ v, v ∈ column_cells rows i ∧ v ≠ JNull ∧ infer_column_type rows i = infer_type v ∧
        ∀ w, w ∈ column_cells rows i → w ≠ JNull → infer_type w = infer_type v) ∨
  (infer_column_type rows i = TMixed ∧
     ∃ v w, v ∈ column_cells rows i ∧ w ∈ column_cells rows i ∧ v ≠ JNull ∧ w ≠ JNull ∧
            infer_type v ≠ infer_type w).
Proof.
  pose proof (column_types_elem rows i) as Hel. pose proof (column_types_nil rows i) as Hnil.
  unfold infer_column_type. destruct (column_types rows i) as [|t ts]; [left; naive_solver|right].
  destruct (proj1 (Hel t)) as (v & Hv & Hvn & Ht); [set_solver|].
  destruct (forallb _ (t :: ts)) eqn:E; [left|right].
  - exists v. split_and!; [done..|]. intros w Hw Hwn. rewrite forallb_forall in E.
    specialize (E (infer_type w)). rewrite <- list_elem_of_In, bool_decide_eq_true in E.
    rewrite E; [done|]. apply Hel. eauto.
  - split; [done|]. assert (∃ t', t' ∈ t :: ts ∧ t' ≠ t) as (t' & Hin & Hne).
    { apply not_true_iff_false in E. destruct (decide (Forall (λ t', t' = t) (t :: ts))) as [Hall|Hn].
      - destruct E. apply forallb_forall. intros t' Hin. apply bool_decide_eq_true.
        rewrite Forall_forall in Hall. apply Hall. by apply list_elem_of_In.
      - apply not_Forall_Exists, Exists_exists in Hn; [|apply _]. naive_solver. }
    apply Hel in Hin as (w & Hw & Hwn & <-). exists v, w. split_and!; [done..|congruence].
Qed.

(** C38: the type inferred for a column is the type of all its cells: every cell
    present is null or of that type, a type other than null or mixed is the type
    of some cell, null is inferred exactly when no cell has a value, and mixed
    only when two cells have values of different types. *)
Theorem inferred_types_sound rows columns j name t :
  infer_column_types rows columns !! j = Some (name, t) →
  columns !! j = Some name ∧
  Forall (λ v, has_type v t) (column_cells rows j) ∧
  (t = TNull ↔ Forall (λ v, v = JNull) (column_cells rows j)) ∧
  (t = TMixed ↔ ∀ t', Forall (λ v, has_type v t') (column_cells rows j) → t' = TMixed).
Proof.
  unfold infer_column_types, enumerate. rewrite list_lookup_fmap, enumerate_from_lookup.
  destruct (columns !! j) as [c|]; [|done]. cbn. intros [= -> <-]. split; [done|].
  setoid_rewrite Forall_forall. setoid_rewrite has_type_iff.
  destruct (infer_column_type_cases rows j)
    as [[-> Hall]|[(v & Hv & Hvn & -> & Hall)|[-> (v & w & Hv & Hw & Hvn & Hwn & Hne)]]].
  - rewrite Forall_forall in Hall. split_and!; [naive_solver|done|]. split; [done|].
    intros H. apply (H TNull). naive_solver.
  - assert (infer_type v ≠ TNull ∧ infer_type v ≠ TMixed) as [Hn Hm] by by destruct v as [| |[]| | |].
    split_and!; [|naive_solver|].
    + intros w Hw. destruct (decide (w = JNull)); naive_solver.
    + split; [done|]. intros H. apply (H (infer_type v)). intros w Hw.
      destruct (decide (w = JNull)); naive_solver.
  - split_and!; [naive_solver|split; [done|naive_solver]|]. split; [|done]. intros _ t' H.
    pose proof (H v Hv). pose proof (H w Hw). naive_solver.
Qed.

Lemma inferred_types_sound_witness :
  let rows := [[JNumber (NInt 1); JNull]; [JString "x"; JNull]] in
  infer_column_types rows ["a"; "b"] = [("a", TMixed); ("b", TNull)] ∧
  Forall (λ v, has_type v TMixed) (column_cells rows 0).
Proof.
  intros rows. split; [reflexivity|].
  apply (inferred_types_sound rows ["a"; "b"] 0 "a" TMixed). reflexivity.
Defined.

(** *** Coercion gives the column the type asked for *)

Section CoerceCorrect.
Context `{J : JsonOps} (parse_f64 : string → option spec_float).

Lemma column_cells_alter rows i f :
  column_cells ((λ r : row, alter f i r) <$> rows) i = f <$> column_cells rows i.
Proof.
  unfold column_cells. induction rows as [|r rows IH]; [done|].
  rewrite fmap_cons. cbn [omap list_omap]. rewrite list_lookup_alter_eq. destruct (r !! i); cbn; by rewrite IH.
Qed.

Lemma coerce_column_others rows i target j :
  j ≠ i → column_cells (Coercer.coerce_column parse_f64 rows i target) j = column_cells rows j.
Proof.
  intros Hne. unfold column_cells, Coercer.coerce_column. induction rows as [|r rows IH]; [done|].
  rewrite fmap_cons. cbn [omap list_omap]. rewrite list_lookup_alter_ne by done. by rewrite IH.
Qed.

(** Coercing a column to strings leaves strings and the nulls it had; coercing it
    to numbers leaves numbers and nulls; any other target leaves it alone; and
    coercing again changes nothing. *)
Lemma coerce_column_type rows i :
  Forall (λ v, has_type v TString) (column_cells (Coercer.coerce_column parse_f64 rows i "string") i) ∧
  Forall (λ v, has_type v TInteger ∨ has_type v TFloat)
    (column_cells (Coercer.coerce_column parse_f64 rows i "number") i) ∧
  (∀ target, target ≠ "string" → target ≠ "number" → Coercer.coerce_column parse_f64 rows i target = rows).
Proof.
  unfold Coercer.coerce_column. rewrite !column_cells_alter. split_and!.
  - apply Forall_fmap, Forall_forall. intros v _. cbn. destruct v; constructor.
  - apply Forall_fmap, Forall_forall. intros v _. cbn. unfold Coercer.coerce. cbn.
    destruct v as [|b|[z|f]|s|l|m]; try (by (left + right); constructor).
    cbn. destruct (parse_f64 s) as [f|]; [|left; constructor].
    destruct (number_from_f64 f) as [[z|g]|]; cbn; (left + right); by constructor.
  - intros target Hs Hn. rewrite <- (list_fmap_id rows) at 2. apply list_fmap_ext. intros _ r _.
    rewrite <- (list_alter_id id r i) at 2 by done. apply list_alter_ext; [|done].
    intros v _. unfold Coercer.coerce. by rewrite !decide_False.
Qed.

Lemma coerce_idem target v :
  Coercer.coerce parse_f64 target (Coercer.coerce parse_f64 target v) = Coercer.coerce parse_f64 target v.
Proof.
  unfold Coercer.coerce. destruct (decide (target = "string")); [by destruct v|].
  destruct (decide (target = "number")); [|done]. destruct v as [| | |s| |]; try done. cbn.
  destruct (parse_f64 s) as [f|]; [|done]. by destruct (number_from_f64 f).
Qed.
End CoerceCorrect.

(** ** Conditional values *)

(** The result of the first condition that holds, else the default. *)
Lemma evaluate_first c v :
  (∃ pre p result post, conditions c = pre ++ (p, result) :: post ∧ p v = true ∧
     Forall (λ q, q.1 v = false) pre ∧ evaluate c v = result) ∨
  (Forall (λ q, q.1 v = false) (conditions c) ∧ evaluate c v = case_default c).
Proof.
  unfold evaluate. induction (conditions c) as [|[p r] conds IH]; [by right|]. cbn [first_match].
  destruct (p v) eqn:E.
  - left. exists [], p, r, conds. done.
  - destruct IH as [(pre & q & r' & post & -> & Hq & Hpre & Hr)|[Hall Hr]].
    + left. exists ((p, r) :: pre), q, r', post. split_and!; [done..| |done]. by constructor.
    + right. split; [by constructor|done].
Qed.

(** A condition added later counts only where no earlier one holds. *)
Lemma evaluate_when c p result v :
  evaluate (when c p result) v =
    if decide (Exists (λ q, q.1 v = true) (conditions c)) then evaluate c v
    else if p v then result else case_default c.
Proof.
  unfold evaluate, when. cbn [conditions case_default].
  induction (conditions c) as [|[q r] conds IH]; cbn [app first_match].
  - rewrite decide_False by (intros Hx; inversion Hx). cbn. by destruct (p v).
  - destruct (q v) eqn:E.
    + rewrite decide_True by (by constructor). done.
    + rewrite IH. destruct (decide (Exists _ conds)) as [H|H].
      * by rewrite decide_True by (by right).
      * rewrite decide_False; [done|]. intros Hx. apply Exists_cons in Hx as [Hx|Hx]; [cbn in Hx; congruence|done].
Qed.

(** ** Dates and names *)

Lemma extract_date_iso d t :
  str_all (λ a, negb (is_char "T" a)) d = true →
  extract_date_cell (Some (JString (d +:+ "T" +:+ t))) = JString d.
Proof.
  intros Hd. unfold extract_date_cell. change ("T" +:+ t) with (String "T" t).
  rewrite split_on_app by done. cbn [split_on]. change (is_char "T" "T") with true.
  cbn [head default]. by rewrite str_app_nil.
Qed.

Lemma extract_hour_iso d (h : N) m :
  str_all (λ a, negb (is_char "T" a)) d = true →
  str_all (λ a, negb (is_char "T" a)) m = true →
  (h ≤ u32_max)%N →
  extract_hour_cell (Some (JString (d +:+ "T" +:+ pretty h +:+ ":" +:+ m))) = JNumber (NInt (Z.of_N h)).
Proof.
  intros Hd Hm Hh. unfold extract_hour_cell. change ("T" +:+ ?t) with (String "T" t).
  rewrite split_on_app by done. cbn [split_on is_char].
  change (is_char "T" "T") with true. cbn [lookup list_lookup].
  rewrite split_on_none; cbn [lookup list_lookup].
  2: { rewrite !str_all_app, Hm, andb_true_r. by rewrite digits_avoid. }
  change (":" +:+ m) with (String ":" m). rewrite split_on_app by by apply digits_avoid.
  cbn [split_on]. change (is_char ":" ":") with true. cbn [head default].
  rewrite str_app_nil. cbn [from_option id]. unfold parse_u32. rewrite parse_u64_pretty by (unfold u32_max in Hh; unfold u64_max; lia).
  by rewrite (proj2 (N.leb_le _ _) Hh).
Qed.

(** Aliases are looked for between commas, also inside a call. *)
Lemma parse_aliases_calls :
  parse_aliases "SELECT name AS user_name, f(a, b) AS n FROM t AS u" =
    {[ "name" := "user_name"; "b)" := "n" ]}.
Proof. vm_compute. reflexivity. Qed.
