(* ===== verification/RowOrder.v ===== *)
(** * RowOrder: ordering, grouping and paging of result rows

    Models [crates/fuse-server/src/sorter.rs], [window_fn.rs], [grouper.rs],
    [agg_functions.rs], [having.rs], [result_filter.rs], [column_stats.rs],
    [offset_pagination.rs], [pagination.rs], [row_limit.rs], [sampling.rs] and
    [top_n.rs].  The order in which a hash map yields its values is a parameter
    that is only known to yield each value once; [usize] addition wraps, as in
    the release build. *)

From S2P Require Import Prelude Strs Float Json Sorting JsonRef.
From stdpp Require Import base list gmap strings sets pretty sorting.
From Stdlib Require Import NArith ZArith Lia Ascii SpecFloat.

(** ** [sorter.rs] *)

Definition is_null_cell (v : option Value) : bool :=
  match v with None | Some JNull => true | _ => false end.

Section Sorter.
Context `{J : JsonOps}.

Definition compare_values (a b : option Value) : comparison :=
  match a, b with
  | None, None | Some JNull, Some JNull => Eq
  | (None | Some JNull), _ => Gt
  | _, (None | Some JNull) => Lt
  | Some (JNumber a), Some (JNumber b) =>
      default Eq (SFcompare (default f_zero (number_as_f64 a)) (default f_zero (number_as_f64 b)))
  | Some a, Some b => String.compare (to_string a) (to_string b)
  end.

Definition compare_rows (col_idx : nat) (descending : bool) (a b : row) : comparison :=
  let va := a !! col_idx in
  let vb := b !! col_idx in
  match is_null_cell va, is_null_cell vb with
  | true, true => Eq
  | true, false => Gt
  | false, true => Lt
  | false, false =>
      let cmp := compare_values va vb in
      if descending then CompOpp cmp else cmp
  end.

Definition sort_by_column (rows : list row) (col_idx : nat) (descending : bool) : list row :=
  sort_by (compare_rows col_idx descending) rows.
End Sorter.

(** ** [window_fn.rs] *)

Definition json_u64 (n : N) : Value := JNumber (NInt (Z.of_N n)).

Definition add_row_number (rows : list row) (col_name : string) : list Value * list row :=
  ([JString col_name],
   (λ '(i, r), json_u64 (N.of_nat i + 1) :: r) <$> enumerate rows).

Section Rank.
Context `{J : JsonOps}.

Fixpoint rank_rows (sort_col : nat) (rank : N) (prev : option string) (rows : list (nat * row)) : list row :=
  match rows with
  | [] => []
  | (i, r) :: rows =>
      let val := to_string <$> r !! sort_col in
      let rank := if (0 <? i) && bool_decide (val ≠ prev) then (N.of_nat i + 1)%N else rank in
      (json_u64 rank :: r) :: rank_rows sort_col rank val rows
  end.
Definition add_rank (rows : list row) (sort_col : nat) : list row :=
  match rows with
  | [] => []
  | _ => rank_rows sort_col 1 None (enumerate rows)
  end.
End Rank.

(** ** [grouper.rs] *)

Section Grouper.
Context `{J : JsonOps}.
(** The order in which a hash map yields its values. *)
Context (into_values : ∀ A : Type, gmap string A → list A).
Arguments into_values {_}.

Definition count_entry (group_col : nat) (counts : gmap string (Value * N)) (r : row) : gmap string (Value * N) :=
  match r !! group_col with
  | Some val =>
      let key := to_string val in
      let '(v, n) := default (val, 0%N) (counts !! key) in
      <[key := (v, (n + 1)%N)]> counts
  | None => counts
  end.
Definition group_count (rows : list row) (group_col : nat) : list (Value * N) :=
  let counts := foldl (count_entry group_col) ∅ rows in
  sort_by (λ a b, N.compare b.2 a.2) (into_values counts).

Definition sum_entry (group_col sum_col : nat) (sums : gmap string (Value * f64)) (r : row) : gmap string (Value * f64) :=
  match r !! group_col, r !! sum_col with
  | Some key_val, Some sum_val =>
      let key := to_string key_val in
      let num := default f_zero (as_f64 sum_val) in
      let '(v, s) := default (key_val, f_zero) (sums !! key) in
      <[key := (v, fadd s num)]> sums
  | _, _ => sums
  end.
Definition group_sum (rows : list row) (group_col sum_col : nat) : list (Value * f64) :=
  let sums := foldl (sum_entry group_col sum_col) ∅ rows in
  sort_by (λ a b, default Eq (SFcompare b.2 a.2)) (into_values sums).
End Grouper.

(** ** [agg_functions.rs] *)

Section Aggregates.
Context `{J : JsonOps}.

(** [rows.iter().filter_map(|r| r.get(col)?.as_f64())]. *)
Definition numbers (rows : list row) (col : nat) : list f64 := omap (λ r : row, r !! col ≫= as_f64) rows.

(** [iter.reduce(f)]. *)
Definition reduce {A : Type} (f : A → A → A) (l : list A) : option A :=
  match l with [] => None | x :: l => Some (foldl f x l) end.

Definition sum (rows : list row) (col : nat) : f64 := fsum (numbers rows col).
Definition avg (rows : list row) (col : nat) : option f64 :=
  match numbers rows col with
  | [] => None
  | vals => Some (fdiv (fsum vals) (f64_of_N (N.of_nat (length vals))))
  end.
Definition min (rows : list row) (col : nat) : option f64 := reduce fmin (numbers rows col).
Definition max (rows : list row) (col : nat) : option f64 := reduce fmax (numbers rows col).

Definition count (rows : list row) (col : nat) : nat :=
  length (filter (λ r : row, from_option (λ v, negb (is_null v)) false (r !! col)) rows).

Definition count_distinct_values (rows : list row) (col : nat) : nat :=
  size (foldl (λ (seen : gset string) (r : row),
                 match r !! col with
                 | Some v => if is_null v then seen else {[ to_string v ]} ∪ seen
                 | None => seen
                 end) ∅ rows).

(** ** [having.rs] *)

Definition having_gte (rows : list row) (col_idx : nat) (threshold : f64) : list row :=
  filter (λ r : row, from_option (λ n, fleb threshold n) false (r !! col_idx ≫= as_f64)) rows.
Definition having_lt (rows : list row) (col_idx : nat) (threshold : f64) : list row :=
  filter (λ r : row, from_option (λ n, fltb n threshold) false (r !! col_idx ≫= as_f64)) rows.
Definition having_eq (rows : list row) (col_idx : nat) (value : Value) : list row :=
  filter (λ r : row, from_option (λ v, value_eqb v value) false (r !! col_idx)) rows.

(** ** [result_filter.rs] *)

Inductive FilterOp : Type :=
| FEq (i : nat) (v : Value)
| FNeq (i : nat) (v : Value)
| FGt (i : nat) (n : f64)
| FGte (i : nat) (n : f64)
| FLt (i : nat) (n : f64)
| FLte (i : nat) (n : f64)
| FIsNull (i : nat)
| FIsNotNull (i : nat).

Definition matches_filter (r : row) (f : FilterOp) : bool :=
  match f with
  | FEq i v => from_option (λ c, value_eqb c v) false (r !! i)
  | FNeq i v => from_option (λ c, negb (value_eqb c v)) true (r !! i)
  | FGt i n => from_option (λ v, fltb n v) false (r !! i ≫= as_f64)
  | FGte i n => from_option (λ v, fleb n v) false (r !! i ≫= as_f64)
  | FLt i n => from_option (λ v, fltb v n) false (r !! i ≫= as_f64)
  | FLte i n => from_option (λ v, fleb v n) false (r !! i ≫= as_f64)
  | FIsNull i => from_option is_null true (r !! i)
  | FIsNotNull i => from_option (λ v, negb (is_null v)) false (r !! i)
  end.
Definition filter_rows (rows : list row) (filters : list FilterOp) : list row :=
  filter (λ r, forallb (matches_filter r) filters) rows.

(** ** [column_stats.rs] *)

Record ColumnStats : Type := mkStats {
  cs_name : string;
  cs_count : nat;
  null_count : nat;
  distinct_approx : nat;
  cs_min : option Value;
  cs_max : option Value;
}.

(** [iter.min()] keeps the first of equal minima, [iter.max()] the last of equal
    maxima. *)
Definition min_string (l : list string) : option string :=
  reduce (λ a b, match String.compare a b with Gt => b | _ => a end) l.
Definition max_string (l : list string) : option string :=
  reduce (λ a b, match String.compare a b with Gt => a | _ => b end) l.

Definition column_statistics (rows : list row) (i : nat) (name : string) : ColumnStats :=
  let values := omap (λ r : row, r !! i) rows in
  let nulls := length (filter (λ v, is_null v = true) values) in
  let non_null := filter (λ v, is_null v = false) values in
  let seen : gset string := list_to_set (to_string <$> non_null) in
  let strs := plain_text <$> non_null in
  mkStats name (length values) nulls (size seen)
    (JString <$> min_string strs) (JString <$> max_string strs).
Definition compute_stats (columns : list string) (rows : list row) : list ColumnStats :=
  (λ '(i, name), column_statistics rows i name) <$> enumerate columns.
End Aggregates.

(** ** [offset_pagination.rs] *)

Definition usize_modulus : N := 18446744073709551616.
Definition wrap_usize (n : N) : N := (n `mod` usize_modulus)%N.

Definition paginate (rows : list row) (offset limit : N) : list row :=
  take (N.to_nat limit) (drop (N.to_nat offset) rows).

Record PageInfo : Type := mkPage {
  page : N;
  total_pages : N;
  total_rows : N;
  has_next : bool;
  has_prev : bool;
}.
Definition div_ceil (a b : N) : N := (if (a `mod` b =? 0) then a / b else a / b + 1)%N.

Definition page_info (total offset limit : N) : PageInfo := {|
  page := (if 0 <? limit then offset / limit + 1 else 1)%N;
  total_pages := if (0 <? limit)%N then div_ceil total limit else 1%N;
  total_rows := total;
  has_next := (wrap_usize (offset + limit) <? total)%N;
  has_prev := (0 <? offset)%N;
|}.

(** ** [pagination.rs] *)

Record PaginationMeta : Type := mkMeta {
  page_size : N;
  has_more : bool;
  next_cursor : option string;
  meta_total_rows : option N;
  page_number : option N;
}.
Definition single_page (row_count : N) : PaginationMeta := mkMeta row_count false None (Some row_count) (Some 1%N).
Definition with_cursor (page_size : N) (cursor : string) (total : option N) : PaginationMeta :=
  mkMeta page_size true (Some cursor) total None.
Definition last_page (page_size total : N) : PaginationMeta := mkMeta page_size false None (Some total) None.

(** ** [row_limit.rs] *)

Record TruncatedResult : Type := mkTruncated {
  tr_rows : list row;
  total_before_truncation : nat;
  truncated : bool;
  warning : option string;
}.

Definition enforce_limit (rows : list row) (max_rows : nat) : TruncatedResult :=
  let total := length rows in
  if total <=? max_rows then mkTruncated rows total false None
  else
    mkTruncated (take max_rows rows) total true
      (Some ("Result truncated: " +:+ pretty (N.of_nat max_rows) +:+ " rows returned of "
             +:+ pretty (N.of_nat total) +:+ " total (limit: " +:+ pretty (N.of_nat max_rows) +:+ ")")).

(** ** [sampling.rs] *)

Definition u64_modulus : N := 18446744073709551616.
Definition next_seed (seed : N) : N :=
  (((seed * 6364136223846793005) `mod` u64_modulus + 1) `mod` u64_modulus)%N.

Definition reservoir_step {A : Type} (n : nat) (st : list A * N) (ir : nat * A) : list A * N :=
  let '(reservoir, seed) := st in
  let '(i, r) := ir in
  let seed := next_seed seed in
  let j := N.to_nat (seed `mod` (N.of_nat i + 1)) in
  (if j <? n then <[j := r]> reservoir else reservoir, seed).

Definition sample_rows {A : Type} (rows : list A) (n : nat) : list A :=
  if length rows <=? n then rows
  else (foldl (reservoir_step n) (take n rows, N.of_nat (length rows)) (drop n (enumerate rows))).1.

Definition head_tail {A : Type} (rows : list A) (n : nat) : list A * list A :=
  (take n rows, if n <? length rows then reverse (take n (reverse rows)) else []).

(** ** [top_n.rs] *)

Definition extract_top (query : string) : option N :=
  let upper := to_uppercase (trim query) in
  match find_sub "SELECT TOP " upper with
  | Some pos =>
      let after := str_drop (pos + 11) query in
      n ← head (split_whitespace after); parse_u64 n
  | None => None
  end.

Definition is_ascii_digit (a : ascii) : bool := bool_decide (is_Some (digit_value a)).

Definition rewrite_top_to_limit (query : string) : string :=
  let upper := to_uppercase query in
  match find_sub "SELECT TOP " upper with
  | Some pos =>
      let before := str_take (pos + 7) query in
      let after := str_drop (pos + 11) query in
      let rest := trim after in
      match find_char (λ c, negb (is_ascii_digit c)) rest with
      | Some space_pos =>
          before +:+ trim (str_drop space_pos rest) +:+ " LIMIT " +:+ str_take space_pos rest
      | None => query
      end
  | None => query
  end.

(** * Sorting, ranking, grouping and paging are what they say

    The comparator of the result sorter is a total preorder on JSON values,
    because the first character of a value's text separates the kinds of values,
    so sorting gives a sorted, stable permutation with the nulls last.  Ranks
    are positions of runs, groups partition the rows, pages partition the
    result, and a sample takes rows at different positions. *)

(** ** The order of values *)

Section Order.
Context `{J : JsonOps, !JsonLaws J}.

(** Strings before numbers before the rest; numbers by value, the others by
    their text. *)
Definition kind_rank (v : Value) : nat :=
  match v with JString _ => 0 | JNumber _ => 1 | _ => 2 end.
Definition number_rank (v : Value) : Z * Z * Z :=
  match v with JNumber n => float_rank (default f_zero (number_as_f64 n)) | _ => (0, 0, 0)%Z end.
Definition text_rank (v : Value) : string :=
  match v with JNumber _ => "" | v => to_string v end.

Definition value_cmp : Value → Value → comparison :=
  lex_cmp (λ v w, Nat.compare (kind_rank v) (kind_rank w))
    (lex_cmp (λ v w, rank_compare (number_rank v) (number_rank w))
       (λ v w, String.compare (text_rank v) (text_rank w))).

#[local] Instance rank_preorder : TotalPreorder rank_compare.
Proof. split; [apply rank_compare_antisym|apply rank_compare_trans]. Qed.

#[export] Instance value_cmp_preorder : TotalPreorder value_cmp.
Proof.
  apply lex_cmp_preorder; [apply total_preorder_by, _|].
  apply lex_cmp_preorder; apply total_preorder_by, _.
Qed.

Lemma compare_first c s d t :
  (N_of_ascii c < N_of_ascii d)%N → String.compare (String c s) (String d t) = Lt.
Proof. intros H. cbn. unfold Ascii.compare. by rewrite (proj2 (N.compare_lt_iff _ _) H). Qed.

Lemma first_of_kind v c :
  first_of (shape_of v) c = true →
  match kind_rank v with
  | 0 => N_of_ascii c = 34%N | 1 => (45 ≤ N_of_ascii c ≤ 57)%N | _ => (91 ≤ N_of_ascii c)%N
  end.
Proof.
  destruct v; cbv [first_of shape_of kind_rank]; cbv zeta;
    rewrite ?orb_true_iff, ?andb_true_iff, ?N.eqb_eq, ?N.leb_le; lia.
Qed.

(** The kinds of values are told apart by the first character of their text. *)
Lemma text_compare_kind v w :
  kind_rank v < kind_rank w → String.compare (to_string v) (to_string w) = Lt.
Proof.
  intros H. destruct (to_string_shape v) as (c & s & -> & Hc%first_of_kind).
  destruct (to_string_shape w) as (d & t & -> & Hd%first_of_kind).
  apply compare_first.
  assert (kind_rank v ≤ 2 ∧ kind_rank w ≤ 2) as [Hv Hw] by (destruct v, w; cbn; lia).
  destruct (kind_rank v) as [|[|[]]], (kind_rank w) as [|[|[]]]; lia.
Qed.

Lemma rank_compare_refl x : rank_compare x x = Eq.
Proof. unfold rank_compare. by rewrite !Z.compare_refl. Qed.

Lemma number_rank_cmp n m :
  default Eq (SFcompare (default f_zero (number_as_f64 n)) (default f_zero (number_as_f64 m))) =
  rank_compare (number_rank (JNumber n)) (number_rank (JNumber m)).
Proof.
  assert (∀ n, default f_zero (number_as_f64 n) ≠ S754_nan) as Hn.
  { intros k. destruct (number_as_f64 k) as [f|] eqn:E; [|done]. cbn.
    apply number_finite in E. by destruct f. }
  by rewrite SFcompare_rank by apply Hn.
Qed.

Lemma compare_values_cmp v w :
  v ≠ JNull → w ≠ JNull → compare_values (Some v) (Some w) = value_cmp v w.
Proof.
  intros Hv Hw. unfold value_cmp, lex_cmp.
  destruct (Nat.compare_spec (kind_rank v) (kind_rank w)) as [E|E|E].
  - destruct v as [| |n| | |], w as [| |n2| | |]; try done;
      try (unfold compare_values; rewrite number_rank_cmp; by destruct (rank_compare _ _)).
  - pose proof (text_compare_kind v w E). destruct v, w; cbn in E; try lia; done.
  - pose proof (text_compare_kind w v E) as H.
    rewrite String.compare_antisym in H. destruct (String.compare (to_string v) (to_string w)) eqn:E2;
      try done. destruct v, w; cbn in E; try lia; done.
Qed.

(** ** Sorting by a column *)

(** The cell sorted by; an absent cell is a null. *)
Definition sort_cell (i : nat) (r : row) : Value := default JNull (r !! i).

Definition row_cmp (i : nat) (desc : bool) : row → row → comparison :=
  lex_cmp (λ a b, Nat.compare (Nat.b2n (is_null (sort_cell i a))) (Nat.b2n (is_null (sort_cell i b))))
    (λ a b, if desc then value_cmp (sort_cell i b) (sort_cell i a)
            else value_cmp (sort_cell i a) (sort_cell i b)).

#[export] Instance row_cmp_preorder i desc : TotalPreorder (row_cmp i desc).
Proof.
  apply lex_cmp_preorder; [apply (total_preorder_by (λ a, Nat.b2n (is_null (sort_cell i a)))), _|].
  destruct desc; [apply (total_preorder_flip (λ a b, value_cmp (sort_cell i a) (sort_cell i b)))|];
    apply (total_preorder_by (sort_cell i)), _.
Qed.

Lemma value_cmp_refl v : value_cmp v v = Eq.
Proof.
  pose proof (cmp_antisym value_cmp v v) as H. by destruct (value_cmp v v).
Qed.

Lemma json_null_true v : is_null v = true → v = JNull.
Proof. by destruct v. Qed.

Lemma compare_rows_cmp i desc a b : compare_rows i desc a b = row_cmp i desc a b.
Proof.
  unfold compare_rows, row_cmp, lex_cmp, sort_cell.
  assert (∀ o, is_null_cell o = is_null (default JNull o)) as Hnull by by intros [[]|].
  rewrite !Hnull. destruct (is_null (default JNull (a !! i))) eqn:Ea, (is_null (default JNull (b !! i))) eqn:Eb; try done.
  - rewrite (json_null_true _ Ea), (json_null_true _ Eb), Nat.compare_refl, value_cmp_refl. by destruct desc.
  - cbn [Nat.b2n Nat.compare]. destruct (a !! i) as [v|], (b !! i) as [w|]; try done. cbn [default from_option id] in *.
    rewrite compare_values_cmp by (by intros ->).
    destruct desc; [|done]. by rewrite (cmp_antisym value_cmp v w).
Qed.

Lemma sort_by_ext {A : Type} (c1 c2 : A → A → comparison) l :
  (∀ x y, c1 x y = c2 x y) → sort_by c1 l = sort_by c2 l.
Proof.
  intros H. unfold sort_by. induction l as [|x l IH]; [done|]. cbn. rewrite IH.
  generalize (foldr (sort_insert c2) [] l). intros k. induction k as [|y k IHk]; [done|]. cbn.
  rewrite H, IHk. done.
Qed.

Lemma sort_by_column_cmp rows i desc : sort_by_column rows i desc = sort_by (row_cmp i desc) rows.
Proof. apply sort_by_ext. intros. apply compare_rows_cmp. Qed.

(** A list sorted so that the marked elements come last. *)
Lemma sorted_marked_last {A : Type} (R : A → A → Prop) (f : A → bool) l :
  (∀ a b, R a b → f a = true → f b = true) → StronglySorted R l →
  l = filter (λ a, f a = false) l ++ filter (λ a, f a = true) l.
Proof.
  intros HR. induction 1 as [|a l Hl IH Ha]; [done|]. rewrite !filter_cons.
  destruct (f a) eqn:E; (rewrite decide_True, decide_False by done) || (rewrite decide_False, decide_True by done).
  - assert (Forall (λ b, f b = true) l) as Hall by (eapply Forall_impl; [exact Ha|]; eauto).
    rewrite (list_filter_iff' (λ a, f a = false) (λ _, False)), list_filter_none.
    + rewrite (list_filter_iff' (λ a, f a = true) (λ _, True)), list_filter_all; [done|].
      intros x Hx. rewrite Forall_forall in Hall. by split; [|intros _; apply Hall].
    + intros x Hx. rewrite Forall_forall in Hall. rewrite (Hall x Hx). done.
  - cbn [app]. by rewrite <- IH.
Qed.

Lemma value_cmp_null v w : value_cmp v w = Eq → is_null v = is_null w.
Proof.
  intros E. destruct (decide (kind_rank v = kind_rank w)) as [Hk|Hk].
  - assert (kind_rank v = 2 → v = w) as Hvw; [|destruct v, w; cbn in Hk; naive_solver lia].
    intros Hv. unfold value_cmp, lex_cmp in E. rewrite Hk, Nat.compare_refl in E.
    assert (text_rank v = to_string v ∧ text_rank w = to_string w ∧ number_rank v = number_rank w) as (Ev & Ew & En)
      by (rewrite Hk in Hv; destruct v, w; cbn in Hk, Hv; done || lia).
    rewrite En, rank_compare_refl, Ev, Ew in E. by apply String.compare_eq_iff, to_string_inj in E.
  - unfold value_cmp, lex_cmp in E. destruct (Nat.compare_spec (kind_rank v) (kind_rank w)); done.
Qed.

Lemma row_cmp_null_last i desc a b :
  sort_le (row_cmp i desc) a b → is_null (sort_cell i a) = true → is_null (sort_cell i b) = true.
Proof.
  unfold sort_le, row_cmp, lex_cmp. intros H Ha. rewrite Ha in H. by destruct (is_null (sort_cell i b)).
Qed.

Lemma row_cmp_values i desc a b :
  sort_le (row_cmp i desc) a b → is_null (sort_cell i a) = false → is_null (sort_cell i b) = false →
  if desc then sort_le value_cmp (sort_cell i b) (sort_cell i a)
  else sort_le value_cmp (sort_cell i a) (sort_cell i b).
Proof.
  unfold sort_le, row_cmp, lex_cmp. intros H Ha Hb. rewrite Ha, Hb in H. by destruct desc.
Qed.

(** C26: sorting a result by a column, in either direction, gives a permutation of
    its rows: first the rows with a value, in the order of the values (strings,
    then numbers by value, then the others by text) or its reverse, then the rows
    whose cell is null or missing; rows with equal cells and rows without value
    keep the order they had. *)
Theorem sort_by_column_sorts rows i desc :
  let out := sort_by_column rows i desc in
  out ≡ₚ rows ∧
  (∃ vals, out = vals ++ filter (λ r, is_null (sort_cell i r) = true) rows ∧
     Forall (λ r, is_null (sort_cell i r) = false) vals ∧
     StronglySorted (λ a b, if desc then sort_le value_cmp (sort_cell i b) (sort_cell i a)
                            else sort_le value_cmp (sort_cell i a) (sort_cell i b)) vals) ∧
  (∀ v, filter (λ r, value_cmp (sort_cell i r) v = Eq) out = filter (λ r, value_cmp (sort_cell i r) v = Eq) rows).
Proof.
  intros out. assert (out = sort_by (row_cmp i desc) rows) as Eout by apply sort_by_column_cmp.
  pose proof (sort_by_sorted (row_cmp i desc) rows) as Hsorted. rewrite <- Eout in Hsorted.
  split; [rewrite Eout; apply sort_by_Permutation|]. split.
  - exists (filter (λ r, is_null (sort_cell i r) = false) out). split_and!.
    + rewrite (sorted_marked_last (sort_le (row_cmp i desc)) (λ r, is_null (sort_cell i r)) out) at 1;
        [|intros a b; apply row_cmp_null_last|done]. f_equal. rewrite Eout. apply sort_by_stable.
      intros a b Ha Hb. unfold row_cmp, lex_cmp.
      rewrite (json_null_true _ Ha), (json_null_true _ Hb), Nat.compare_refl, value_cmp_refl. by destruct desc.
    + apply Forall_forall. intros r [Hr _]%list_elem_of_filter. done.
    + apply (StronglySorted_impl_in (sort_le (row_cmp i desc))).
      * intros a b [Ha _]%list_elem_of_filter [Hb _]%list_elem_of_filter H. by apply row_cmp_values.
      * eapply StronglySorted_sublist; [apply sublist_filter|exact Hsorted].
  - intros v. rewrite Eout. apply sort_by_stable. intros a b Ha Hb.
    assert (value_cmp (sort_cell i a) (sort_cell i b) = Eq) as E.
    { apply (cmp_eq_trans value_cmp _ v); [done|]. by rewrite (cmp_antisym value_cmp _ v), Hb. }
    unfold row_cmp, lex_cmp. rewrite (cmp_antisym value_cmp (sort_cell i a)), E.
    assert (is_null (sort_cell i a) = is_null (sort_cell i b)) as ->.
    { by apply value_cmp_null. }
    rewrite Nat.compare_refl. by destruct desc.
Qed.
End Order.

Lemma sort_by_column_sorts_witness :
  let sort_by_column := sort_by_column (J := RefJson) in
  let rows := [[JNull]; [JString "b"]; [JBool true]; [JString "a"]] in
  sort_by_column rows 0 false = [[JString "a"]; [JString "b"]; [JBool true]; [JNull]] ∧
  sort_by_column rows 0 false ≡ₚ rows ∧
  filter (λ r, value_cmp (J := RefJson) (sort_cell 0 r) (JString "a") = Eq) (sort_by_column rows 0 false) = [[JString "a"]].
Proof.
  intros sorted rows. split; [vm_compute; reflexivity|].
  destruct (sort_by_column_sorts (J := RefJson) rows 0 false) as (Hp & _ & Hf). split; [exact Hp|].
  unfold sorted. rewrite Hf. vm_compute. reflexivity.
Defined.

(** ** Ranks *)

(** The cell of row [j], nothing when it is absent. *)
Definition cell_of (rows : list row) (col j : nat) : option Value := rows !! j ≫= (λ r : row, r !! col).

(** [s] is where the run of equal cells that row [i] belongs to starts. *)
Definition run_start (rows : list row) (col i s : nat) : Prop :=
  s ≤ i ∧ (∀ j, s ≤ j ≤ i → cell_of rows col j = cell_of rows col i) ∧
  (s = 0 ∨ cell_of rows col (s - 1) ≠ cell_of rows col i).

Lemma run_start_step rows col i s :
  run_start rows col i s →
  run_start rows col (S i) (if decide (cell_of rows col (S i) = cell_of rows col i) then s else S i).
Proof.
  intros (Hs & Hrun & Hstart). destruct (decide _) as [E|E].
  - split_and!; [lia| |by rewrite E]. intros j Hj.
    destruct (decide (j = S i)) as [->|]; [done|]. rewrite E. apply Hrun. lia.
  - split_and!; [lia| |right]. { intros j Hj. by replace j with (S i) by lia. }
    replace (S i - 1) with i by lia. congruence.
Qed.

Section RankCorrect.
Context `{J : JsonOps, !JsonLaws J}.

Lemma text_of_cell_eq (o o' : option Value) : to_string <$> o = to_string <$> o' ↔ o = o'.
Proof.
  split; [|by intros ->]. destruct o, o'; cbn; try done. intros [= H]. f_equal. by apply to_string_inj.
Qed.

Lemma rank_rows_lookup col pre rows s rank r0 :
  run_start (pre ++ r0 :: rows) col (length pre) s → rank = (N.of_nat s + 1)%N →
  ∀ j r, rows !! j = Some r →
  ∃ s', rank_rows col rank (to_string <$> r0 !! col) (enumerate_from (S (length pre)) rows) !! j =
          Some (json_u64 (N.of_nat s' + 1) :: r) ∧
        run_start (pre ++ r0 :: rows) col (S (length pre) + j) s'.
Proof.
  revert pre s rank r0. induction rows as [|r1 rows IH]; intros pre s rank r0 Hrun -> j r Hj; [done|].
  cbn [enumerate_from rank_rows]. set (all := pre ++ r0 :: r1 :: rows) in *.
  assert (cell_of all col (length pre) = r0 !! col) as E0.
  { unfold cell_of, all. by rewrite lookup_app_r, Nat.sub_diag. }
  assert (cell_of all col (S (length pre)) = r1 !! col) as E1.
  { unfold cell_of, all. rewrite lookup_app_r by lia. by replace (S (length pre) - length pre) with 1 by lia. }
  pose proof (run_start_step all col (length pre) s Hrun) as Hnext. rewrite E0, E1 in Hnext.
  set (s1 := if decide (r1 !! col = r0 !! col) then s else S (length pre)) in *.
  assert ((if (0 <? S (length pre)) && bool_decide ((to_string <$> r1 !! col) ≠ (to_string <$> r0 !! col))
           then (N.of_nat (S (length pre)) + 1)%N else (N.of_nat s + 1)%N) = (N.of_nat s1 + 1)%N) as Erank.
  { cbn [Nat.ltb Nat.leb andb]. unfold s1. destruct (decide (r1 !! col = r0 !! col)) as [E|E].
    - by rewrite bool_decide_false by (rewrite E; tauto).
    - by rewrite bool_decide_true by by rewrite text_of_cell_eq. }
  rewrite Erank. destruct j as [|j].
  - injection Hj as <-. exists s1. split; [done|]. by rewrite Nat.add_0_r.
  - cbn in Hj. specialize (IH (pre ++ [r0]) s1 (N.of_nat s1 + 1)%N r1).
    rewrite <- app_assoc, length_app, Nat.add_1_r in IH. cbn [app] in IH. fold all in IH.
    destruct (IH Hnext eq_refl j r Hj) as (s' & Hl & Hr). exists s'. split; [exact Hl|].
    by replace (S (length pre) + S j) with (S (S (length pre)) + j) by lia.
Qed.

(** Ranking keeps the rows in order, prefixed by a number: one plus the
    position where the run of rows with the same cell as this one starts, so in
    a table sorted by that column equal cells share the rank of the first. *)
Theorem add_rank_is_run_start rows col :
  length (add_rank rows col) = length rows ∧
  ∀ i r, rows !! i = Some r →
    ∃ s, add_rank rows col !! i = Some (json_u64 (N.of_nat s + 1) :: r) ∧ run_start rows col i s.
Proof.
  unfold add_rank. destruct rows as [|r0 rows]; [done|].
  change (enumerate (r0 :: rows)) with ((0, r0) :: enumerate_from 1 rows). cbn [rank_rows Nat.ltb Nat.leb andb].
  assert (run_start (r0 :: rows) col 0 0) as H0.
  { split_and!; [lia| |by left]. intros j Hj. by replace j with 0 by lia. }
  split.
  - cbn [length]. f_equal. generalize 1%N (to_string <$> r0 !! col) 1. clear.
    induction rows as [|r rows IH]; intros rank prev k; [done|]. cbn. f_equal. apply IH.
  - intros [|i] r Hi.
    + injection Hi as <-. by exists 0.
    + exact (rank_rows_lookup col [] rows 0 1 r0 H0 eq_refl i r Hi).
Qed.
End RankCorrect.

(** ** Pages *)

Lemma concat_pages {A : Type} (l : nat) (rows : list A) k :
  concat ((λ i, take l (drop (i * l) rows)) <$> seq 0 k) = take (k * l) rows.
Proof.
  induction k as [|k IH]; [done|]. rewrite seq_S, fmap_app, concat_app, IH. cbn [fmap list_fmap concat].
  rewrite app_nil_r, Nat.add_0_l. replace (S k * l) with (k * l + l) by lia.
  apply take_take_drop.
Qed.

Lemma div_ceil_covers a b : (0 < b)%N → (a ≤ div_ceil a b * b)%N ∧ (div_ceil a b * b < a + b)%N.
Proof.
  intros Hb. unfold div_ceil. pose proof (N.div_mod a b ltac:(lia)) as E.
  pose proof (N.mod_lt a b ltac:(lia)) as Hm. revert E Hm. generalize (a `mod` b)%N (a / b)%N.
  intros m q -> Hm. destruct (N.eqb_spec m 0); nia.
Qed.

(** The pages of a result one after the other, as many as the first page says
    there are. *)
Definition all_pages (rows : list row) (limit : N) : list (list row) :=
  (λ k, paginate rows (N.of_nat k * limit) limit) <$>
    seq 0 (N.to_nat (total_pages (page_info (N.of_nat (length rows)) 0 limit))).

(** The pages of a result, taken one after the other with a positive limit,
    are its rows: none is lost or repeated.  The page at a multiple of the limit
    has that number, and a page says there is a next one exactly when the next
    page is not empty, provided offset and limit add up within a machine word. *)
Theorem pages_partition_rows rows limit :
  (0 < limit)%N →
  let total := N.of_nat (length rows) in
  concat (all_pages rows limit) = rows ∧
  (∀ k, page (page_info total (k * limit) limit) = (k + 1)%N) ∧
  (∀ offset, (offset + limit < usize_modulus)%N →
     has_next (page_info total offset limit) = true ↔ paginate rows (offset + limit) limit ≠ []).
Proof.
  intros Hl total. split_and!.
  - unfold all_pages, page_info, paginate. cbn [total_pages]. rewrite (proj2 (N.ltb_lt 0 limit) Hl).
    rewrite (list_fmap_ext _ (λ i, take (N.to_nat limit) (drop (i * N.to_nat limit) rows))).
    2: { intros _ k _. by rewrite N2Nat.inj_mul, Nat2N.id. }
    rewrite concat_pages. apply take_ge. pose proof (div_ceil_covers total limit Hl).
    unfold total in *. nia.
  - intros k. unfold page_info. cbn [page]. rewrite (proj2 (N.ltb_lt 0 limit) Hl).
    by rewrite N.div_mul by lia.
  - intros offset Ho. unfold page_info. cbn [has_next]. unfold wrap_usize. rewrite N.mod_small by done.
    rewrite N.ltb_lt. unfold paginate. split.
    + intros Hlt E. apply (f_equal length) in E. rewrite length_take, length_drop in E. cbn in E.
      unfold total in Hlt. lia.
    + intros Hne. unfold total. destruct (decide (N.of_nat (length rows) ≤ offset + limit)%N); [|lia].
      destruct Hne. rewrite drop_ge by lia. apply take_nil.
Qed.

Lemma pages_partition_rows_witness :
  let rows := [[JNull]; [JBool true]; [JBool false]] in
  length (all_pages rows 2) = 2 ∧ concat (all_pages rows 2) = rows.
Proof.
  intros rows. split; [reflexivity|].
  pose proof (pages_partition_rows rows 2 eq_refl) as [H _]. exact H.
Defined.

(** An offset near the top of the range wraps, and the page claims a next one. *)
Lemma has_next_wraps total :
  (0 < total)%N → has_next (page_info total 1 18446744073709551615) = true.
Proof. intros H. unfold page_info. cbn [has_next]. by apply N.ltb_lt. Qed.

Lemma enforce_limit_spec rows max_rows :
  let t := enforce_limit rows max_rows in
  tr_rows t = take max_rows rows ∧ total_before_truncation t = length rows ∧
  (truncated t = true ↔ max_rows < length rows) ∧ (warning t = None ↔ truncated t = false).
Proof.
  unfold enforce_limit. destruct (Nat.leb_spec (length rows) max_rows); cbn.
  - split_and!; [by rewrite take_ge|done|split; [done|lia]|done].
  - split_and!; done.
Qed.
