(* ===== verification/RowGroups.v ===== *)
(** * RowGroups: groups, aggregates, statistics and samples of result rows

    The theorems on the operators of [RowOrder] that summarise rows: grouping,
    minimum and maximum, filters, column statistics, reservoir sampling and the
    TOP clause. *)

From S2P Require Import Prelude Strs Float Json JsonRef Sorting RowOrder.
From stdpp Require Import base list gmap strings sets pretty sorting fin_maps.
From Stdlib Require Import NArith ZArith Lia Ascii SpecFloat.

(** ** Grouping rows by the text of a cell *)

Section GroupFold.
Context `{J : JsonOps, !JsonLaws J}.
Context {B C : Type} (item : row → option (Value * B)) (init : C) (f : C → B → C).

Definition group_step (m : gmap string (Value * C)) (r : row) : gmap string (Value * C) :=
  match item r with
  | Some (v, b) =>
      let '(v0, c) := default (v, init) (m !! to_string v) in <[to_string v := (v0, f c b)]> m
  | None => m
  end.

(** What the rows contribute to the group of [v], in order. *)
Definition items_of (v : Value) (rows : list row) : list B :=
  omap (λ r, match item r with Some (w, b) => if decide (w = v) then Some b else None | None => None end) rows.

Lemma items_of_snoc v rows r :
  items_of v (rows ++ [r]) =
    items_of v rows ++ match item r with Some (w, b) => if decide (w = v) then [b] else [] | None => [] end.
Proof.
  unfold items_of. rewrite omap_app. f_equal. cbn. destruct (item r) as [[w b]|]; [|done].
  by destruct (decide (w = v)).
Qed.

Lemma group_fold_lookup rows v :
  foldl group_step ∅ rows !! to_string v =
    match items_of v rows with [] => None | bs => Some (v, foldl f init bs) end.
Proof.
  induction rows as [|r rows IH] using rev_ind; [done|].
  rewrite foldl_snoc, items_of_snoc. unfold group_step at 1. destruct (item r) as [[w b]|].
  2: { by rewrite app_nil_r. }
  destruct (decide (w = v)) as [->|Hne].
  - rewrite IH. destruct (items_of v rows) as [|b0 bs] eqn:E; cbn [default from_option id].
    + by rewrite lookup_insert_eq.
    + rewrite lookup_insert_eq. cbn [app]. f_equal. f_equal. change (b0 :: bs ++ [b]) with ((b0 :: bs) ++ [b]).
      by rewrite foldl_snoc.
  - rewrite app_nil_r, <- IH. destruct (default _ _) as [v0 c].
    apply lookup_insert_ne. intros ?%to_string_inj. done.
Qed.

Lemma group_fold_key rows k v c : foldl group_step ∅ rows !! k = Some (v, c) → k = to_string v.
Proof.
  revert k v c. induction rows as [|r rows IH] using rev_ind; intros k v c; [done|].
  rewrite foldl_snoc. unfold group_step at 1. destruct (item r) as [[w b]|]; [|apply IH].
  destruct (default (w, init) (foldl group_step ∅ rows !! to_string w)) as [v0 c0] eqn:E.
  destruct (decide (to_string w = k)) as [<-|Hne].
  - rewrite lookup_insert_eq. intros [= <- _].
    destruct (foldl group_step ∅ rows !! to_string w) as [[v1 c1]|] eqn:E1; cbn in E.
    + injection E as <- _. by eapply IH.
    + by injection E as <- _.
  - rewrite lookup_insert_ne by done. apply IH.
Qed.

(** The groups, however the map is iterated. *)
Lemma group_fold_values rows (vals : list (Value * C)) :
  vals ≡ₚ (map_to_list (foldl group_step ∅ rows)).*2 →
  NoDup vals.*1 ∧
  ∀ v c, (v, c) ∈ vals ↔ items_of v rows ≠ [] ∧ c = foldl f init (items_of v rows).
Proof.
  intros Hp. set (m := foldl group_step ∅ rows) in *. split.
  - rewrite Hp. assert ((map_to_list m).*1 = to_string <$> ((map_to_list m).*2).*1) as Hk.
    { rewrite <- !list_fmap_compose. apply list_fmap_ext. intros i [k [v c]] Hi. cbn.
      apply list_elem_of_lookup_2, elem_of_map_to_list in Hi. by eapply group_fold_key. }
    eapply NoDup_fmap_1. rewrite <- Hk. apply NoDup_fst_map_to_list.
  - intros v c. rewrite Hp, list_elem_of_fmap. split.
    + intros ([k [v' c']] & E & Hin). cbn in E. injection E as <- <-.
      apply elem_of_map_to_list in Hin. pose proof (group_fold_key rows k v c Hin) as ->.
      unfold m in Hin. rewrite group_fold_lookup in Hin. destruct (items_of v rows); [done|].
      injection Hin as <-. done.
    + intros [Hne ->]. exists (to_string v, (v, foldl f init (items_of v rows))). split; [done|].
      apply elem_of_map_to_list. unfold m. rewrite group_fold_lookup. by destruct (items_of v rows).
Qed.
End GroupFold.

Lemma foldl_ext {A B : Type} (f g : A → B → A) x l : (∀ a b, f a b = g a b) → foldl f x l = foldl g x l.
Proof. intros H. revert x. induction l as [|b l IH]; intros x; [done|]. cbn. by rewrite H, IH. Qed.

Section Groups.
Context `{J : JsonOps, !JsonLaws J}.
Context (into_values : ∀ A : Type, gmap string A → list A).
(** A hash map yields each of its values once, in some order. *)
Hypothesis into_values_each : ∀ A (m : gmap string A), into_values A m ≡ₚ (map_to_list m).*2.

Definition count_item (col : nat) (r : row) : option (Value * unit) := (λ v, (v, ())) <$> r !! col.
Definition sum_item (group_col sum_col : nat) (r : row) : option (Value * f64) :=
  match r !! group_col, r !! sum_col with
  | Some v, Some w => Some (v, default f_zero (as_f64 w))
  | _, _ => None
  end.

Lemma count_fold n (bs : list unit) : foldl (λ (c : N) _, (c + 1)%N) n bs = (n + N.of_nat (length bs))%N.
Proof. revert n. induction bs as [|b bs IH]; intros n; cbn [foldl length]; [lia|]. rewrite IH. lia. Qed.

(** How many rows have the value [v] in the column. *)
Definition occurrences (rows : list row) (col : nat) (v : Value) : nat :=
  length (filter (λ r : row, r !! col = Some v) rows).

Lemma count_items rows col v : length (items_of (count_item col) v rows) = occurrences rows col v.
Proof.
  unfold items_of, occurrences, count_item. induction rows as [|r rows IH]; [done|].
  rewrite filter_cons. cbn [omap list_omap]. destruct (r !! col) as [w|]; cbn [fmap option_fmap option_map].
  - destruct (decide (w = v)) as [->|Hne].
    + rewrite decide_True by done. cbn. by rewrite IH.
    + rewrite decide_False by congruence. exact IH.
  - rewrite decide_False by done. exact IH.
Qed.

Lemma group_count_values rows col :
  ∃ vals, group_count into_values rows col = sort_by (λ a b, N.compare b.2 a.2) vals ∧
    NoDup vals.*1 ∧
    ∀ v n, (v, n) ∈ vals ↔ n = N.of_nat (occurrences rows col v) ∧ n ≠ 0%N.
Proof.
  unfold group_count.
  assert (foldl (count_entry col) ∅ rows = foldl (group_step (count_item col) 0%N (λ c _, (c + 1)%N)) ∅ rows) as ->.
  { apply foldl_ext. intros m r. unfold count_entry, group_step, count_item. by destruct (r !! col). }
  eexists. split; [done|].
  destruct (group_fold_values (count_item col) 0%N (λ c _, (c + 1)%N) rows _ (into_values_each _ _)) as [Hnd Hel].
  split; [exact Hnd|]. intros v n. rewrite Hel, count_fold, count_items.
  pose proof (count_items rows col v) as Hc. destruct (items_of (count_item col) v rows); cbn [length] in Hc; naive_solver lia.
Qed.

Lemma sort_by_fst_NoDup {A B : Type} cmp (l : list (A * B)) : NoDup l.*1 → NoDup (sort_by cmp l).*1.
Proof. by rewrite (sort_by_Permutation cmp l). Qed.

(** Grouping by a column and counting gives one entry per different value of
    the column with the number of rows that have it, the largest counts first,
    whatever order the hash map yields its entries in; grouping and summing
    gives one entry per value among the rows that have both cells, with the
    floating-point sum of the summed cells in row order. *)
Theorem groups_partition_rows rows col sum_col :
  let counts := group_count into_values rows col in
  let sums := group_sum into_values rows col sum_col in
  NoDup counts.*1 ∧
  (∀ v n, (v, n) ∈ counts ↔ n = N.of_nat (occurrences rows col v) ∧ n ≠ 0%N) ∧
  StronglySorted (λ a b, (b.2 ≤ a.2)%N) counts ∧
  NoDup sums.*1 ∧
  (∀ v s, (v, s) ∈ sums ↔ items_of (sum_item col sum_col) v rows ≠ [] ∧
                          s = foldl fadd f_zero (items_of (sum_item col sum_col) v rows)).
Proof.
  intros counts sums. destruct (group_count_values rows col) as (vals & Ec & Hnd & Hel).
  destruct (group_fold_values (sum_item col sum_col) f_zero fadd rows
              (into_values _ (foldl (sum_entry col sum_col) ∅ rows))) as [Hnd' Hel'].
  { rewrite into_values_each.
    rewrite (foldl_ext (sum_entry col sum_col) (group_step (sum_item col sum_col) f_zero fadd)); [done|].
    intros m r. unfold sum_entry, group_step, sum_item. by destruct (r !! col), (r !! sum_col). }
  unfold counts, sums. split_and!.
  - rewrite Ec. by apply sort_by_fst_NoDup.
  - intros v n. by rewrite Ec, sort_by_Permutation.
  - rewrite Ec. eapply StronglySorted_impl_in; [|apply sort_by_sorted].
    + intros a b _ _. unfold sort_le. rewrite N.compare_gt_iff. lia.
    + apply (total_preorder_flip (λ a b : Value * N, N.compare a.2 b.2)), (total_preorder_by snd), _.
  - unfold group_sum. by apply sort_by_fst_NoDup.
  - intros v s. unfold group_sum. by rewrite sort_by_Permutation.
Qed.
End Groups.

Lemma groups_partition_rows_witness :
  let vals := λ A (m : gmap string A), (map_to_list m).*2 in
  let r s n := [JString s; JNumber (NInt n)] in
  let rows := [r "a" 1%Z; r "b" 2%Z; r "b" 3%Z] in
  group_count (J := RefJson) vals rows 0 = [(JString "b", 2%N); (JString "a", 1%N)] ∧
  NoDup (group_count (J := RefJson) vals rows 0).*1.
Proof.
  intros vals r rows. split; [vm_compute; reflexivity|].
  apply (groups_partition_rows (J := RefJson) vals (λ A m, reflexivity _) rows 0 1).
Defined.

(** ** Minimum and maximum *)

Section MinMax.
Context `{J : JsonOps, !JsonLaws J}.

Lemma numbers_finite rows col x : x ∈ numbers rows col → x ≠ S754_nan.
Proof.
  unfold numbers. rewrite list_elem_of_omap. intros (r & _ & Hx).
  destruct (r !! col) as [v|]; [|done]. cbn in Hx. destruct v; try done. cbn in Hx.
  apply number_finite in Hx. by destruct x.
Qed.

Lemma fleb_rank x y :
  x ≠ S754_nan → y ≠ S754_nan → fleb x y = true ↔ rank_compare (float_rank x) (float_rank y) ≠ Gt.
Proof. intros Hx Hy. unfold fleb. rewrite SFcompare_rank by done. by destruct (rank_compare _ _). Qed.

Lemma fleb_refl x : x ≠ S754_nan → fleb x x = true.
Proof.
  intros Hx. apply fleb_rank; [done..|]. pose proof (rank_compare_antisym (float_rank x) (float_rank x)).
  by destruct (rank_compare _ _).
Qed.

Lemma fleb_trans x y z :
  x ≠ S754_nan → y ≠ S754_nan → z ≠ S754_nan → fleb x y = true → fleb y z = true → fleb x z = true.
Proof. intros Hx Hy Hz. rewrite !fleb_rank by done. apply rank_compare_trans. Qed.

Lemma fmin_spec x y :
  x ≠ S754_nan → y ≠ S754_nan → (fmin x y = x ∨ fmin x y = y) ∧ fleb (fmin x y) x = true ∧ fleb (fmin x y) y = true.
Proof.
  intros Hx Hy. pose proof (fleb_refl x Hx). pose proof (fleb_refl y Hy).
  unfold fmin. pose proof (SFcompare_rank y x Hy Hx) as Hyx. rewrite rank_compare_antisym in Hyx.
  rewrite (SFcompare_rank x y Hx Hy) in *.
  destruct (rank_compare (float_rank x) (float_rank y)) eqn:E; unfold fleb; rewrite ?Hyx, ?SFcompare_rank, ?E by done;
    unfold fleb in *; rewrite ?SFcompare_rank in * by done; auto.
Qed.

Lemma fmax_spec x y :
  x ≠ S754_nan → y ≠ S754_nan → (fmax x y = x ∨ fmax x y = y) ∧ fleb x (fmax x y) = true ∧ fleb y (fmax x y) = true.
Proof.
  intros Hx Hy. pose proof (fleb_refl x Hx). pose proof (fleb_refl y Hy).
  unfold fmax. pose proof (SFcompare_rank y x Hy Hx) as Hyx. rewrite rank_compare_antisym in Hyx.
  rewrite (SFcompare_rank x y Hx Hy) in *.
  destruct (rank_compare (float_rank x) (float_rank y)) eqn:E; unfold fleb; rewrite ?Hyx, ?SFcompare_rank, ?E by done;
    unfold fleb in *; rewrite ?SFcompare_rank in * by done; auto.
Qed.

Lemma reduce_choice (f : f64 → f64 → f64) (R : f64 → f64 → Prop) l m :
  (∀ x y, x ≠ S754_nan → y ≠ S754_nan → (f x y = x ∨ f x y = y) ∧ R (f x y) x ∧ R (f x y) y) →
  (∀ x, x ≠ S754_nan → R x x) →
  (∀ x y z, x ≠ S754_nan → y ≠ S754_nan → z ≠ S754_nan → R x y → R y z → R x z) →
  (∀ x, x ∈ l → x ≠ S754_nan) →
  reduce f l = Some m → m ∈ l ∧ ∀ x, x ∈ l → R m x.
Proof.
  intros Hf Hrefl Htrans Hl. destruct l as [|x l]; [done|]. cbn [reduce]. intros [= <-].
  induction l as [|y l IH] using rev_ind.
  { cbn. split; [set_solver|]. intros y ->%list_elem_of_singleton. apply Hrefl. set_solver. }
  rewrite foldl_snoc. destruct IH as [Hin Hle]; [set_solver|]. set (m := foldl f x l) in *.
  assert (m ≠ S754_nan ∧ y ≠ S754_nan) as [Hm Hy] by (split; apply Hl; set_solver).
  destruct (Hf m y Hm Hy) as (Hch & Hr1 & Hr2).
  assert (f m y ∈ x :: l ++ [y]) as Hfin by (destruct Hch as [-> | ->]; set_solver).
  split; [done|]. intros z Hz. assert (z = y ∨ z ∈ x :: l) as [->|Hz'] by set_solver; [done|].
  apply (Htrans _ m z); [by apply Hl|done|by apply Hl|done|by apply Hle].
Qed.

(** The minimum and the maximum of a column are absent exactly when it has no
    number, and otherwise are one of its numbers, below or above all of them. *)
Theorem min_max_bounds rows col :
  (RowOrder.min rows col = None ↔ numbers rows col = []) ∧
  (RowOrder.max rows col = None ↔ numbers rows col = []) ∧
  (∀ m, RowOrder.min rows col = Some m →
     m ∈ numbers rows col ∧ ∀ x, x ∈ numbers rows col → fleb m x = true) ∧
  (∀ m, RowOrder.max rows col = Some m →
     m ∈ numbers rows col ∧ ∀ x, x ∈ numbers rows col → fleb x m = true).
Proof.
  unfold RowOrder.min, RowOrder.max. split_and!.
  - by destruct (numbers rows col).
  - by destruct (numbers rows col).
  - intros m. apply (reduce_choice fmin (λ x y, fleb x y = true)); [apply fmin_spec|apply fleb_refl|apply fleb_trans|apply numbers_finite].
  - intros m. apply (reduce_choice fmax (λ x y, fleb y x = true));
      [apply fmax_spec|apply fleb_refl| |apply numbers_finite].
    intros x y z Hx Hy Hz H1 H2. by apply (fleb_trans z y x).
Qed.

(** ** Filters *)

Lemma filter_rows_app rows fs gs : filter_rows rows (fs ++ gs) = filter_rows (filter_rows rows fs) gs.
Proof.
  unfold filter_rows. rewrite list_filter_filter. apply list_filter_iff. intros r.
  rewrite forallb_app. destruct (forallb _ fs), (forallb _ gs); cbn; tauto.
Qed.

Lemma having_is_filter rows i t :
  having_gte rows i t = filter_rows rows [FGte i t] ∧ having_lt rows i t = filter_rows rows [FLt i t] ∧
  ∀ v, having_eq rows i v = filter_rows rows [FEq i v].
Proof.
  unfold having_gte, having_lt, having_eq, filter_rows. split_and!; [| |intros v]; apply list_filter_iff;
    intros r; cbn [forallb]; by rewrite andb_true_r.
Qed.

(** A condition and its opposite split the rows, except that a row without a
    number in the column satisfies neither of two numeric ones. *)
Lemma opposite_filters r i v n :
  matches_filter r (FNeq i v) = negb (matches_filter r (FEq i v)) ∧
  matches_filter r (FIsNotNull i) = negb (matches_filter r (FIsNull i)) ∧
  (r !! i ≫= as_f64 = None →
     matches_filter r (FLt i n) = false ∧ matches_filter r (FGte i n) = false).
Proof.
  cbn [matches_filter]. split_and!; [by destruct (r !! i)..|]. by intros ->.
Qed.

(** ** Column statistics *)

Lemma reduce_min_string l m : min_string l = Some m → m ∈ l ∧ ∀ s, s ∈ l → String.le m s.
Proof.
  destruct l as [|x l]; [done|]. cbn. intros [= <-]. induction l as [|y l IH] using rev_ind.
  { cbn. split; [set_solver|]. intros s ->%list_elem_of_singleton. reflexivity. }
  rewrite foldl_snoc. destruct IH as [Hin Hle]. set (m := foldl _ x l) in *.
  destruct (String.compare m y) eqn:E.
  3: { split; [set_solver|]. intros s Hs. assert (s = y ∨ s ∈ x :: l) as [->|Hs'] by set_solver; [reflexivity|].
       transitivity m; [|by apply Hle]. apply string_sort_le. unfold sort_le.
       by rewrite String.compare_antisym, E. }
  all: split; [set_solver|]; intros s Hs; assert (s = y ∨ s ∈ x :: l) as [->|Hs'] by set_solver;
    [apply string_sort_le; unfold sort_le; congruence|by apply Hle].
Qed.

(** The counts of a column's statistics are exact; its minimum is the smallest
    of the texts. *)
Lemma column_statistics_counts rows i name :
  let s := column_statistics rows i name in
  let values := omap (λ r : row, r !! i) rows in
  cs_count s = length values ∧
  null_count s = length (filter (λ v, is_null v = true) values) ∧
  distinct_approx s = length (nub (filter (λ v, is_null v = false) values)) ∧
  (∀ m, cs_min s = Some (JString m) →
     ∀ v, v ∈ values → is_null v = false → String.le m (plain_text v)).
Proof.
  cbn. split_and!; [done..| |].
  - set (l := filter _ _). rewrite <- (length_fmap to_string (nub l)), <- (size_list_to_set (C := gset string)).
    + f_equal. apply set_eq. intros s. rewrite !elem_of_list_to_set, !list_elem_of_fmap.
      by setoid_rewrite elem_of_nub.
    + apply NoDup_fmap; [apply _|apply NoDup_nub].
  - intros m Hm v Hv Hn. destruct (min_string _) as [m'|] eqn:E; [|done]. injection Hm as ->.
    apply reduce_min_string in E as [_ E]. apply E, list_elem_of_fmap. exists v.
    split; [done|]. by apply list_elem_of_filter.
Qed.
End MinMax.

(** Numbers are compared by their text, so the minimum of 9 and 10 is 10. *)
Lemma statistics_compare_text :
  cs_min (column_statistics (J := RefJson) [[JNumber (NInt 9)]; [JNumber (NInt 10)]] 0 "n")
  = Some (JString "10").
Proof. vm_compute. reflexivity. Qed.

(** ** Reservoir sampling *)

Lemma enumerate_from_fmap {A B : Type} (f : A → B) (l : list A) i :
  enumerate_from i (f <$> l) = (λ '(k, x), (k, f x)) <$> enumerate_from i l.
Proof. revert i. induction l as [|x l IH]; intros i; [done|]. cbn. by rewrite <- IH. Qed.

Lemma reservoir_fmap {A B : Type} (f : A → B) n irs : ∀ res seed,
  foldl (reservoir_step n) (f <$> res, seed) ((λ '(k, x), (k, f x)) <$> irs) =
    let '(res', seed') := foldl (reservoir_step n) (res, seed) irs in (f <$> res', seed').
Proof.
  induction irs as [|[i x] irs IH]; intros res seed; [done|]. cbn [fmap list_fmap foldl reservoir_step].
  destruct (_ <? n); [rewrite <- list_fmap_insert|]; apply IH.
Qed.

(** The sampler does not look at the rows. *)
Lemma sample_rows_fmap {A B : Type} (f : A → B) (l : list A) n :
  sample_rows (f <$> l) n = f <$> sample_rows l n.
Proof.
  unfold sample_rows, enumerate. rewrite length_fmap. destruct (_ <=? n); [done|].
  rewrite enumerate_from_fmap, <- !fmap_drop, <- !fmap_take, reservoir_fmap.
  by destruct (foldl _ _ _).
Qed.

Lemma drop_seq_enum n len :
  drop n (enumerate (seq 0 len)) = (λ i, (i, i)) <$> seq n (len - n).
Proof.
  unfold enumerate. apply list_eq. intros j.
  rewrite lookup_drop, enumerate_from_lookup, list_lookup_fmap.
  destruct (decide (j < len - n)) as [Hj|Hj].
  - rewrite !lookup_seq_lt by lia. cbn. f_equal.
  - rewrite !lookup_seq_ge by lia. done.
Qed.

(** One step over a reservoir of distinct earlier positions. *)
Lemma reservoir_distinct n len k : ∀ res seed,
  length res = n → NoDup res → Forall (λ x, x < k) res →
  let res' := (foldl (reservoir_step n) (res, seed) ((λ i, (i, i)) <$> seq k len)).1 in
  length res' = n ∧ NoDup res' ∧ Forall (λ x, x < k + len) res'.
Proof.
  revert k. induction len as [|len IH]; intros k res seed Hlen Hnd Hlt.
  { cbn. rewrite Nat.add_0_r. done. }
  cbn [seq fmap list_fmap foldl reservoir_step].
  set (j := N.to_nat _). rewrite <- Nat.add_succ_comm.
  assert (Forall (λ x, x < S k) res) as Hlt' by (eapply Forall_impl; [exact Hlt|]; cbn; lia).
  destruct (j <? n) eqn:E; [|by apply IH].
  apply IH.
  - by rewrite length_insert.
  - apply NoDup_alt. intros a b x Ha Hb.
    assert (∀ c, <[j := k]> res !! c = Some x → (c = j ∧ x = k) ∨ (c ≠ j ∧ res !! c = Some x ∧ x < k)) as Hc.
    { intros c Hx. apply list_lookup_insert_Some in Hx as [(<- & <- & _)|[Hne Hx]]; [by left|right].
      split_and!; [done..|]. by eapply (Forall_lookup_1 _ _ _ _ Hlt). }
    destruct (Hc a Ha) as [[-> ->]|(? & ? & ?)], (Hc b Hb) as [[-> ?]|(? & ? & ?)]; try lia.
    by eapply NoDup_lookup.
  - apply Forall_insert; [done|cbn; lia].
Qed.

(** A sample of [n] rows has [n] rows, or all of them when there are fewer,
    and takes them from different positions of the result. *)
Theorem sample_takes_distinct_rows (rows : list row) n :
  ∃ idx, sample_rows rows n = gather rows idx ∧ length (sample_rows rows n) = n `min` length rows ∧
         NoDup idx ∧ Forall (λ i, i < length rows) idx ∧ length idx = n `min` length rows.
Proof.
  set (idx := sample_rows (seq 0 (length rows)) n). exists idx.
  assert (length idx = n `min` length rows ∧ NoDup idx ∧ Forall (λ i, i < length rows) idx) as (Hlen & Hnd & Hlt).
  { unfold idx, sample_rows. rewrite length_seq. destruct (Nat.leb_spec (length rows) n) as [Hle|Hgt].
    - rewrite length_seq. split_and!; [lia|apply NoDup_seq|]. apply Forall_seq. lia.
    - rewrite drop_seq_enum. rewrite take_seq.
      destruct (reservoir_distinct n (length rows - n) n (seq 0 n) (N.of_nat (length rows))) as (H1 & H2 & H3).
      + apply length_seq.
      + apply NoDup_seq.
      + apply Forall_seq. lia.
      + rewrite (Nat.min_l n (length rows)) by lia. split_and!; [by rewrite H1|done|].
        eapply Forall_impl; [exact H3|]. cbn. lia. }
  assert (sample_rows rows n = gather rows idx) as E.
  { set (f := λ i, default [] (rows !! i)).
    assert (f <$> seq 0 (length rows) = rows) as Hf.
    { apply list_eq. intros i. rewrite list_lookup_fmap. unfold f. destruct (rows !! i) as [r|] eqn:Er.
      - rewrite lookup_seq_lt by (by eapply lookup_lt_Some). cbn. by rewrite Er.
      - rewrite lookup_seq_ge by (by apply lookup_ge_None). done. }
    rewrite <- Hf at 1. rewrite sample_rows_fmap. fold idx. clear Hnd Hlen.
    induction Hlt as [|i l Hi _ IH]; [done|]. rewrite fmap_cons, IH. unfold gather. cbn [omap list_omap].
    unfold f at 1. destruct (lookup_lt_is_Some_2 rows i Hi) as [r ->]. done. }
  split_and!; [done| |done..]. by rewrite E, gather_length.
Qed.

(** The preview's tail is the last [n] rows when there are more than [n]; between
    [n] and [2 n] rows, head and tail overlap. *)
Lemma head_tail_spec {A : Type} (rows : list A) n :
  (head_tail rows n).1 = take n rows ∧
  (head_tail rows n).2 = if n <? length rows then drop (length rows - n) rows else [].
Proof.
  unfold head_tail. split; [done|]. cbn [snd]. destruct (n <? length rows); [|done].
  by rewrite take_reverse, reverse_involutive.
Qed.

(** ** The TOP clause *)

Lemma words_first (n : N) rest : head (split_whitespace (pretty n +:+ String " " rest)) = Some (pretty n).
Proof.
  unfold split_whitespace. rewrite split_on_app by apply pretty_no_space. cbn [split_on].
  change (is_whitespace " ") with true. cbv iota.
  rewrite filter_cons, str_app_nil, decide_True by apply pretty_nonempty. done.
Qed.

Lemma digits_end (n : N) rest :
  find_char (λ c, negb (is_ascii_digit c)) (pretty n +:+ String " " rest) = Some (String.length (pretty n)).
Proof.
  rewrite find_char_app.
  - cbn [find_char]. change (negb (is_ascii_digit " ")) with true. cbn. by rewrite Nat.add_0_r.
  - eapply str_all_impl; [|apply pretty_digits]. intros a Ha. unfold is_ascii_digit. by rewrite Ha.
Qed.

(** A query that starts with SELECT TOP n is rewritten to the same selection
    with LIMIT n at its end, and n is the number read from it, for every n that
    fits in 64 bits. *)
Theorem top_becomes_limit (n : N) rest :
  (n ≤ u64_max)%N → first_ok rest = true → last_ok rest = true →
  let query := "SELECT TOP " +:+ pretty n +:+ " " +:+ rest in
  extract_top query = Some n ∧
  rewrite_top_to_limit query = "SELECT " +:+ rest +:+ " LIMIT " +:+ pretty n.
Proof.
  intros Hn Hf Hl query. unfold query. change (" " +:+ rest) with (String " " rest).
  set (after := pretty n +:+ String " " rest).
  assert (last_ok after = true) as Hla by (apply last_ok_app; by destruct rest).
  assert (first_ok after = true) as Hfa by apply first_ok_app, pretty_first_ok.
  assert (str_drop 11 ("SELECT TOP " +:+ after) = after) as Hd by apply (str_drop_exact "SELECT TOP ").
  assert (find_sub "SELECT TOP " (to_uppercase ("SELECT TOP " +:+ after)) = Some 0) as Hfind
    by (rewrite to_uppercase_app; apply (find_sub_prefix "SELECT TOP ")).
  split.
  - unfold extract_top. rewrite trim_id by (done || by apply last_ok_app). rewrite Hfind.
    cbn [Nat.add]. rewrite Hd. unfold after. rewrite words_first. cbn [mbind option_bind]. by apply parse_u64_pretty.
  - unfold rewrite_top_to_limit. rewrite Hfind. cbn [Nat.add]. rewrite Hd, (trim_id after) by done.
    unfold after. rewrite digits_end, str_take_app, str_drop_exact.
    replace (trim (String " " rest)) with rest; [done|].
    symmetry. rewrite <- (trim_id rest) at 2 by done.
    pose proof (trim_pad " " rest "" eq_refl eq_refl) as Hp. by rewrite str_app_nil in Hp.
Qed.

Lemma top_becomes_limit_witness :
  rewrite_top_to_limit "SELECT TOP 10 * FROM t" = "SELECT * FROM t LIMIT 10" ∧
  extract_top ("SELECT TOP " +:+ pretty 10%N +:+ " " +:+ "* FROM t") = Some 10%N.
Proof.
  split; [vm_compute; reflexivity|].
  apply (top_becomes_limit 10 "* FROM t"); [vm_compute; discriminate|reflexivity|reflexivity].
Defined.

(** The position is found in the trimmed query but used in the query itself, so a
    leading blank loses the number; and a query that ends with the number is not
    rewritten at all. *)
Lemma extract_top_leading_blank :
  extract_top "  SELECT TOP 5 a FROM t" = None ∧ extract_top "SELECT TOP 5 a FROM t" = Some 5%N.
Proof. split; reflexivity. Qed.
