(* ===== verification/Logs.v ===== *)
(** * Logs: bounded in-memory logs

    Models [crates/fuse-server/src/history.rs] (the query history and its
    statistics), [audit.rs] (the audit log), [timeout_tracker.rs] and the event
    log of [cdc.rs] with the view dependencies it drives.  Clock readings are
    arguments; entries are serialised by a parameter.

    The theorems: a log keeps the most recent entries up to its bound, in order,
    whatever was recorded before; its queries read the newest first; a view is
    marked for refresh exactly when one of the sources it is registered with
    changed since its mark was last cleared. *)

From S2P Require Import Prelude Strs Float Sorting.
From stdpp Require Import base list gmap strings sets sorting.
From Stdlib Require Import NArith ZArith Lia SpecFloat.

(** ** Bounded pushes *)

Section Bounded.
Context {A : Type}.

(** [if q.len() >= max { q.pop_front() }; q.push_back(x)]. *)
Definition push_pop (max : nat) (l : list A) (x : A) : list A :=
  (if max <=? length l then tail l else l) ++ [x].

(** [v.push(x); if v.len() > max { v.drain(0..v.len() - max) }]. *)
Definition push_drain (max : nat) (l : list A) (x : A) : list A :=
  let l := l ++ [x] in
  if max <? length l then drop (length l - max) l else l.

(** The last [max] elements. *)
Definition last_n (max : nat) (l : list A) : list A := drop (length l - max) l.

(** [l.iter().rev().take(n)]. *)
Definition newest (n : nat) (l : list A) : list A := take n (reverse l).

Lemma last_n_length max l : length (last_n max l) = max `min` length l.
Proof. unfold last_n. rewrite length_drop. lia. Qed.

Lemma last_n_snoc max l x :
  0 < max → last_n max (l ++ [x]) = (if max <=? length (last_n max l) then tail (last_n max l) else last_n max l) ++ [x].
Proof.
  intros Hm. rewrite last_n_length. unfold last_n. rewrite length_app. cbn [length].
  destruct (Nat.leb_spec max (max `min` length l)) as [Hle|Hgt].
  - rewrite drop_app_le by lia. f_equal.
    replace (length l + 1 - max) with (length l - max + 1) by lia. rewrite <- drop_drop.
    by destruct (drop (length l - max) l).
  - rewrite drop_app_le by lia. f_equal. f_equal. lia.
Qed.

Lemma push_pop_all max (l : list A) :
  0 < max → foldl (push_pop max) [] l = last_n max l.
Proof.
  intros Hm. induction l as [|x l IH] using rev_ind; [done|].
  by rewrite foldl_snoc, last_n_snoc, IH.
Qed.

Lemma push_drain_all max (l : list A) : foldl (push_drain max) [] l = last_n max l.
Proof.
  induction l as [|x l IH] using rev_ind; [done|]. rewrite foldl_snoc, IH. unfold push_drain.
  assert (length (last_n max l ++ [x]) = max `min` length l + 1) as Hlen
    by by rewrite length_app, last_n_length.
  rewrite Hlen. unfold last_n in *. rewrite length_app. cbn [length].
  destruct (Nat.ltb_spec max (max `min` length l + 1)) as [Hlt|Hge].
  - destruct (decide (max = 0)) as [->|Hm].
    + rewrite !drop_ge; [done|..]; rewrite ?length_app, ?length_drop; cbn; lia.
    + rewrite !drop_app_le by (rewrite ?length_drop; lia). f_equal. rewrite drop_drop. f_equal. lia.
  - rewrite drop_app_le by lia. do 2 f_equal. lia.
Qed.

(** Reading the newest entries of a bounded log. *)
Lemma newest_last_n n max l : newest n (last_n max l) = take (n `min` max) (reverse l).
Proof.
  unfold newest, last_n. rewrite reverse_drop.
  rewrite take_take. destruct (decide (max ≤ length l ∨ n ≤ length l)).
  - f_equal. lia.
  - rewrite !take_ge by (rewrite length_reverse; lia). done.
Qed.
End Bounded.

(** ** [history.rs] *)

Definition MAX_HISTORY : nat := 50.

Record HistoryEntry : Type := mkHistory {
  h_query : string;
  h_format : string;
  h_timestamp : N;
  latency_ms : N;
  row_count : N;
  h_error : option string;
}.

Record QueryStats : Type := mkQueryStats {
  total_queries : N;
  error_count : N;
  avg_latency_ms : N;
  p95_latency_ms : N;
  total_rows_returned : N;
}.

Module History.
Definition push (q : list HistoryEntry) (e : HistoryEntry) : list HistoryEntry := push_pop MAX_HISTORY q e.
Definition list_entries (q : list HistoryEntry) : list HistoryEntry := reverse q.
Definition recent (q : list HistoryEntry) (max : nat) : list HistoryEntry := newest max q.

(** [iter.sum::<u64>()], wrapping. *)
Definition u64_modulus : N := 18446744073709551616.
Definition sum_u64 (l : list N) : N := foldl (λ a b, (a + b) `mod` u64_modulus)%N 0%N l.

(** The float 0.95, and [f.ceil() as usize] for a float that is not negative. *)
Definition f_0_95 : f64 := S754_finite false 8556839292003942 (-53).
Definition ceil_as_usize (f : f64) : N :=
  match f with
  | S754_finite false m e =>
      if (0 <=? e)%Z then (Npos m * 2 ^ Z.to_N e)%N
      else ((Npos m + 2 ^ Z.to_N (- e) - 1) / 2 ^ Z.to_N (- e))%N
  | _ => 0%N
  end.
Definition p95_index (len : nat) : nat := N.to_nat (ceil_as_usize (fmul (f64_of_N (N.of_nat len)) f_0_95)).

Definition stats (q : list HistoryEntry) : QueryStats :=
  let total := N.of_nat (length q) in
  if (total =? 0)%N then mkQueryStats 0 0 0 0 0
  else
    let errors := N.of_nat (length (filter (λ e, is_Some (h_error e)) q)) in
    let total_rows := sum_u64 (row_count <$> q) in
    let avg := (sum_u64 (latency_ms <$> q) / total)%N in
    let latencies := sort_by N.compare (latency_ms <$> q) in
    let p95 := default 0%N (latencies !! (p95_index (length latencies) `min` (length latencies - 1))) in
    mkQueryStats total errors avg p95 total_rows.
End History.

(** ** [audit.rs] *)

Inductive AuditAction : Type :=
| AQuery | AExplain | AValidate | AListDatasources | AGetSchema | ATraceReconstruction
| ASavedQueryCreate | ASavedQueryDelete.
Inductive AuditStatus : Type := ASuccess | AError | ADenied.

Record AuditEntry : Type := mkAudit {
  a_timestamp : N;
  identity : string;
  a_action : AuditAction;
  a_query : option string;
  a_datasources : list string;
  a_duration_ms : N;
  a_row_count : N;
  a_status : AuditStatus;
  a_error : option string;
  client_ip : option string;
}.

Module Audit.
(** [entries.remove(0)] panics on an empty vector: [None]. *)
Definition audit_record (max_entries : nat) (entries : list AuditEntry) (e : AuditEntry) : option (list AuditEntry) :=
  if max_entries <=? length entries
  then match entries with [] => None | _ :: rest => Some (rest ++ [e]) end
  else Some (entries ++ [e]).

Definition audit_recent (entries : list AuditEntry) (limit : nat) : list AuditEntry := newest limit entries.
Definition for_identity (entries : list AuditEntry) (id : string) (limit : nat) : list AuditEntry :=
  take limit (filter (λ e, identity e = id) (reverse entries)).
Definition audit_count (entries : list AuditEntry) : nat := length entries.

(** The line break of [join]. *)
Definition newline : string := String (Ascii.ascii_of_nat 10) "".
Definition export_ndjson (serialise : AuditEntry → option string) (entries : list AuditEntry) : string :=
  join_with newline (omap serialise entries).
Definition export_since (serialise : AuditEntry → option string) (entries : list AuditEntry) (since : N) : string :=
  join_with newline (omap serialise (filter (λ e, (since ≤ a_timestamp e)%N) entries)).
Definition drain (entries : list AuditEntry) : list AuditEntry * list AuditEntry := ([], entries).
End Audit.

(** ** [timeout_tracker.rs] *)

Definition MAX_ENTRIES : nat := 100.
Record TimeoutEntry : Type := mkTimeout {
  query_id : string;
  t_datasource : string;
  timeout_ms : N;
  elapsed_ms : N;
  t_timestamp : N;
}.

Module Timeouts.
Definition timeout_record (entries : list TimeoutEntry) (query_id datasource : string) (timeout_ms elapsed_ms now : N)
    : list TimeoutEntry :=
  push_pop MAX_ENTRIES entries (mkTimeout query_id datasource timeout_ms elapsed_ms now).
Definition timeout_recent (entries : list TimeoutEntry) (limit : nat) : list TimeoutEntry := newest limit entries.
Definition timeout_count (entries : list TimeoutEntry) : nat := length entries.
Definition count_for_datasource (entries : list TimeoutEntry) (datasource : string) : nat :=
  length (filter (λ e, t_datasource e = datasource) entries).
End Timeouts.

(** ** [cdc.rs] *)

Inductive ChangeType : Type := CInsert | CUpdate | CDelete | CSchemaChange.
Record ChangeEvent : Type := mkChange {
  ce_datasource : string;
  ce_table : string;
  change_type : ChangeType;
  ce_timestamp : N;
}.

Abbreviation source := (string * string)%type.
Record CdcTracker : Type := mkCdc {
  dependencies : gmap string (gset source);
  events : list ChangeEvent;
  pending_refresh : gset string;
  max_events : nat;
}.

Record CdcStats : Type := mkCdcStats { tracked_views : nat; pending_refreshes : nat; total_events : nat }.

Module Cdc.
Definition cdc_new (max_events : nat) : CdcTracker := mkCdc ∅ [] ∅ max_events.

Definition register_view (t : CdcTracker) (view_name : string) (sources : list source) : CdcTracker :=
  mkCdc (<[view_name := list_to_set sources]> (dependencies t)) (events t) (pending_refresh t) (max_events t).

Definition unregister_view (t : CdcTracker) (view_name : string) : CdcTracker :=
  mkCdc (delete view_name (dependencies t)) (events t) (pending_refresh t ∖ {[ view_name ]}) (max_events t).

(** The views that read the source of the event. *)
Definition affected (t : CdcTracker) (e : ChangeEvent) : gset string :=
  dom (filter (λ nd : string * gset source, (ce_datasource e, ce_table e) ∈ nd.2) (dependencies t)).

Definition record_change (t : CdcTracker) (e : ChangeEvent) : gset string * CdcTracker :=
  let affected := affected t e in
  (affected, mkCdc (dependencies t) (push_drain (max_events t) (events t) e)
               (pending_refresh t ∪ affected) (max_events t)).

Definition take_pending (t : CdcTracker) : gset string * CdcTracker :=
  (pending_refresh t, mkCdc (dependencies t) (events t) ∅ (max_events t)).

Definition pending_views (t : CdcTracker) : gset string := pending_refresh t.
Definition dependencies_for (t : CdcTracker) (view_name : string) : option (gset source) :=
  dependencies t !! view_name.
Definition recent_events (t : CdcTracker) (limit : nat) : list ChangeEvent := newest limit (events t).
Definition cdc_stats (t : CdcTracker) : CdcStats :=
  mkCdcStats (size (dependencies t)) (size (pending_refresh t)) (length (events t)).
End Cdc.

(** ** Theorems *)

Lemma audit_record_push max entries e :
  0 < max → Audit.audit_record max entries e = Some (push_pop max entries e).
Proof.
  intros Hm. unfold Audit.audit_record, push_pop. destruct (Nat.leb_spec max (length entries)); [|done].
  destruct entries; [cbn in *; lia|done].
Qed.

Lemma audit_record_all max es : ∀ start,
  0 < max →
  foldl (λ o e, o ≫= λ l, Audit.audit_record max l e) (Some start) es = Some (foldl (push_pop max) start es).
Proof.
  induction es as [|e es IH]; intros start Hm; [done|]. cbn [foldl mbind option_bind].
  rewrite audit_record_push by done. by apply IH.
Qed.

Lemma cdc_events_log t es :
  events (foldl (λ t e, (Cdc.record_change t e).2) t es) = foldl (push_drain (max_events t)) (events t) es.
Proof. revert t. induction es as [|e es IH]; intros t; [done|]. cbn [foldl]. by rewrite IH. Qed.

(** Recording a timeout, with the reading of the clock taken from the entry. *)
Definition record_timeout (l : list TimeoutEntry) (t : TimeoutEntry) : list TimeoutEntry :=
  Timeouts.timeout_record l (query_id t) (t_datasource t) (timeout_ms t) (elapsed_ms t) (t_timestamp t).

Lemma record_timeout_all ts : foldl record_timeout [] ts = last_n MAX_ENTRIES ts.
Proof.
  rewrite <- push_pop_all by (unfold MAX_ENTRIES; lia).
  assert (∀ l t, record_timeout l t = push_pop MAX_ENTRIES l t) as H by by intros l [].
  generalize (@nil TimeoutEntry). induction ts as [|t ts IH]; intros l; [done|]. cbn [foldl]. by rewrite H, IH.
Qed.

(** The bounded logs keep the newest entries: after any entries are recorded
    from empty, the query history holds the last fifty, the timeout tracker the
    last hundred, the audit log and the change log the last as many as they were
    made for, in the order recorded; asking for recent entries gives the newest
    first.  An audit log made for no entries at all panics at the first one. *)
Theorem logs_keep_newest (hs : list HistoryEntry) (ts : list TimeoutEntry)
    (es : list AuditEntry) (cs : list ChangeEvent) max n limit :
  0 < max →
  foldl History.push [] hs = last_n MAX_HISTORY hs ∧
  History.recent (foldl History.push [] hs) limit = take (limit `min` MAX_HISTORY) (reverse hs) ∧
  foldl record_timeout [] ts = last_n MAX_ENTRIES ts ∧
  Timeouts.timeout_recent (foldl record_timeout [] ts) limit = take (limit `min` MAX_ENTRIES) (reverse ts) ∧
  foldl (λ o e, o ≫= λ l, Audit.audit_record max l e) (Some []) es = Some (last_n max es) ∧
  (∀ e, Audit.audit_record 0 [] e = None) ∧
  events (foldl (λ t e, (Cdc.record_change t e).2) (Cdc.cdc_new n) cs) = last_n n cs.
Proof.
  intros Hmax. assert (foldl History.push [] hs = last_n MAX_HISTORY hs) as Eh
    by (apply push_pop_all; unfold MAX_HISTORY; lia).
  split_and!.
  - exact Eh.
  - rewrite Eh. apply newest_last_n.
  - apply record_timeout_all.
  - rewrite record_timeout_all. apply newest_last_n.
  - rewrite audit_record_all by done. by rewrite push_pop_all.
  - done.
  - rewrite cdc_events_log. apply push_drain_all.
Qed.

Lemma logs_keep_newest_witness :
  let e s := mkHistory s "sql" 0 1 0 None in
  let a s := mkAudit 0 s AQuery None [] 0 0 ASuccess None None in
  History.recent (foldl History.push [] [e "a"; e "b"; e "c"]) 2 = [e "c"; e "b"] ∧
  foldl (λ o e, o ≫= λ l, Audit.audit_record 2 l e) (Some []) [a "x"; a "y"; a "z"] = Some [a "y"; a "z"].
Proof.
  intros e a. split; [reflexivity|].
  apply (logs_keep_newest [] [] [a "x"; a "y"; a "z"] [] 2 0 0). lia.
Defined.

(** *** The 95th percentile of the history *)

Lemma sorted_below (l : list N) i x :
  StronglySorted (sort_le N.compare) l → l !! i = Some x →
  i < length (filter (λ y, (y ≤ x)%N) l).
Proof.
  intros Hs. revert i. induction Hs as [|y l Hl IH Hy]; intros i Hi; [done|].
  rewrite filter_cons. destruct i as [|i].
  - injection Hi as ->. rewrite decide_True by reflexivity. cbn. lia.
  - cbn in Hi. specialize (IH i Hi). rewrite decide_True; [cbn; lia|].
    rewrite Forall_forall in Hy. specialize (Hy x (list_elem_of_lookup_2 _ _ _ Hi)).
    unfold sort_le in Hy. rewrite N.compare_gt_iff in Hy. lia.
Qed.

Lemma p95_index_enough n : n ≤ MAX_HISTORY → 0 < n → 95 * n ≤ 100 * (S (History.p95_index n `min` (n - 1))).
Proof.
  intros Hn Hpos. assert (n ∈ seq 1 50) as Hin by (apply elem_of_seq; unfold MAX_HISTORY in Hn; lia). clear Hn Hpos.
  revert n Hin. apply Forall_forall. refine (bool_decide_unpack _ _). vm_compute. exact I.
Qed.

(** At least 95 of 100 queries of the history took no longer than the reported
    percentile, which is the latency of one of them. *)
Lemma history_p95_covers q :
  q ≠ [] → length q ≤ MAX_HISTORY →
  let p95 := p95_latency_ms (History.stats q) in
  p95 ∈ latency_ms <$> q ∧
  95 * length q ≤ 100 * length (filter (λ e, (latency_ms e ≤ p95)%N) q).
Proof.
  intros Hne Hlen. assert (0 < length q) as Hpos by (destruct q; [done|cbn; lia]).
  unfold History.stats. rewrite (proj2 (N.eqb_neq _ _)) by lia. cbn [p95_latency_ms].
  rewrite sort_by_length, length_fmap.
  set (i := History.p95_index (length q) `min` (length q - 1)).
  destruct (lookup_lt_is_Some_2 (sort_by N.compare (latency_ms <$> q)) i) as [x Hx].
  { rewrite sort_by_length, length_fmap. unfold i. lia. }
  rewrite Hx. cbn [default from_option id]. split.
  - rewrite <- (sort_by_Permutation N.compare). by eapply list_elem_of_lookup_2.
  - pose proof (sorted_below _ _ _ (sort_by_sorted N.compare (latency_ms <$> q)) Hx) as Hcount.
    rewrite sort_by_Permutation, list_filter_fmap, length_fmap in Hcount.
    pose proof (p95_index_enough (length q) Hlen Hpos) as Hidx. fold i in Hidx.
    lia.
Qed.

(** The index is the rank itself, one past the nearest-rank position: of twenty
    queries the largest latency is reported. *)
Lemma history_p95_of_twenty : History.p95_index 20 = 19.
Proof. vm_compute. reflexivity. Qed.

(** *** Views marked for refresh *)

Inductive cdc_op : Type :=
| CdcRegister (view : string) (sources : list source)
| CdcUnregister (view : string)
| CdcChange (e : ChangeEvent)
| CdcTake.

Definition cdc_step (t : CdcTracker) (o : cdc_op) : CdcTracker :=
  match o with
  | CdcRegister v srcs => Cdc.register_view t v srcs
  | CdcUnregister v => Cdc.unregister_view t v
  | CdcChange e => (Cdc.record_change t e).2
  | CdcTake => (Cdc.take_pending t).2
  end.
Definition cdc_run (t : CdcTracker) (ops : list cdc_op) : CdcTracker := foldl cdc_step t ops.

(** The sources a view was last registered with, if it still is. *)
Definition registered (v : string) (ops : list cdc_op) : option (gset source) :=
  foldl (λ cur o, match o with
                  | CdcRegister w srcs => if decide (w = v) then Some (list_to_set srcs) else cur
                  | CdcUnregister w => if decide (w = v) then None else cur
                  | _ => cur
                  end) None ops.

(** The operation clears the mark of [v]. *)
Definition clears (v : string) (o : cdc_op) : bool :=
  match o with CdcTake => true | CdcUnregister w => bool_decide (w = v) | _ => false end.

(** The change [e] concerns a view with these sources. *)
Definition concerns (srcs : option (gset source)) (e : ChangeEvent) : Prop :=
  match srcs with Some srcs => (ce_datasource e, ce_table e) ∈ srcs | None => False end.

Lemma cdc_dependencies n ops v : dependencies (cdc_run (Cdc.cdc_new n) ops) !! v = registered v ops.
Proof.
  unfold cdc_run, registered. induction ops as [|o ops IH] using rev_ind; [done|].
  rewrite !foldl_snoc, <- IH. destruct o as [w srcs|w|e|]; cbn; [..|done].
  - destruct (decide (w = v)) as [->|]; [by rewrite lookup_insert_eq|by rewrite lookup_insert_ne].
  - destruct (decide (w = v)) as [->|]; [by rewrite lookup_delete_eq|by rewrite lookup_delete_ne].
  - done.
Qed.

Lemma affected_elem t e v : v ∈ Cdc.affected t e ↔ concerns (dependencies t !! v) e.
Proof.
  unfold Cdc.affected. rewrite elem_of_dom. unfold is_Some. setoid_rewrite map_lookup_filter_Some. cbn.
  destruct (dependencies t !! v) as [srcs|]; cbn; naive_solver.
Qed.

Lemma cdc_pending_step n ops o v :
  v ∈ pending_refresh (cdc_run (Cdc.cdc_new n) (ops ++ [o])) ↔
  (clears v o = false ∧ v ∈ pending_refresh (cdc_run (Cdc.cdc_new n) ops)) ∨
  ∃ e, o = CdcChange e ∧ concerns (registered v ops) e.
Proof.
  rewrite <- (cdc_dependencies n). unfold cdc_run. rewrite foldl_snoc. set (t := foldl _ _ ops).
  destruct o as [w srcs|w|e|]; cbn.
  - naive_solver.
  - rewrite elem_of_difference, elem_of_singleton. case_bool_decide; naive_solver.
  - rewrite elem_of_union, affected_elem. naive_solver.
  - split; [set_solver|]. naive_solver.
Qed.

(** A view is marked for refresh exactly when some change was recorded on one
    of the sources it was registered with at that moment, and since then the
    pending marks were not taken and the view was not removed; re-registering a
    view keeps its mark. *)
Theorem cdc_pending_iff n ops v :
  v ∈ Cdc.pending_views (cdc_run (Cdc.cdc_new n) ops) ↔
  ∃ pre e post, ops = pre ++ CdcChange e :: post ∧ concerns (registered v pre) e ∧
                Forall (λ o, clears v o = false) post.
Proof.
  unfold Cdc.pending_views. induction ops as [|o ops IH] using rev_ind.
  { split; [set_solver|]. intros (pre & e & post & H & _). by destruct pre. }
  rewrite cdc_pending_step, IH. split.
  - intros [(Hc & pre & e & post & -> & He & Hp)|(e & -> & He)].
    + exists pre, e, (post ++ [o]). rewrite <- app_assoc. split_and!; [done..|].
      apply Forall_app. split; [done|by repeat constructor].
    + exists ops, e, []. split_and!; [done..|constructor].
  - intros (pre & e & post & Heq & He & Hp). destruct post as [|p post _] using rev_ind.
    + apply app_inj_tail in Heq as [-> ->]. right. eauto.
    + left. rewrite app_comm_cons, app_assoc in Heq. apply app_inj_tail in Heq as [-> ->].
      apply Forall_app in Hp as [Hp Hlast]. inversion_clear Hlast. eauto 10.
Qed.
