(* ===== verification/Alerts.v ===== *)
(** * Alerts: rules on metrics and on query results

    Models [fuse-server/src/alert_monitor.rs] (rules, active alerts, history)
    with its endpoints in [alert_api.rs], and [fuse-core/src/alerting.rs] (a
    rule evaluated on the batches of a query).  The clock is an argument, the
    texts of floats and the parser of numbers are parameters, and a posted
    notification is an event. *)

From stdpp Require Import base list strings gmap.
From Stdlib Require Import NArith ZArith Lia Ascii SpecFloat.
From S2P Require Import Prelude Strs Float Arrow Logs.

(** ** The monitor ([alert_monitor.rs]) *)

Module Monitor.
Record AlertRule : Type := mkRule {
  id : string; label : string; metric : string; threshold : f64; window_secs : N; webhook_url : option string; enabled : bool }.

Inductive AlertStatus : Type := Firing | Resolved | Acknowledged.

Record FiredAlert : Type := mkFired {
  rule_id : string; fired_name : string; fired_metric : string; fired_value : f64; fired_threshold : f64; fired_at : N; status : AlertStatus }.

Record AlertMonitor : Type := mkMonitor { rules : list AlertRule; history : list FiredAlert; active : gmap string FiredAlert }.

Definition from_rules (rs : list AlertRule) : AlertMonitor := mkMonitor rs [] ∅.
Definition new : AlertMonitor := from_rules [].

Definition add_rule (m : AlertMonitor) (r : AlertRule) : AlertMonitor := mkMonitor (rules m ++ [r]) (history m) (active m).

Definition remove_rule (m : AlertMonitor) (rid : string) : bool * AlertMonitor :=
  let kept := filter (λ r, id r ≠ rid) (rules m) in
  (length kept <? length (rules m), mkMonitor kept (history m) (active m)).

Definition list_history (m : AlertMonitor) (max : nat) : list FiredAlert := newest max (history m).

Definition with_status (s : AlertStatus) (a : FiredAlert) : FiredAlert :=
  mkFired (rule_id a) (fired_name a) (fired_metric a) (fired_value a) (fired_threshold a) (fired_at a) s.

Definition acknowledge (m : AlertMonitor) (rid : string) : bool * AlertMonitor :=
  match active m !! rid with
  | Some a => (true, mkMonitor (rules m) (history m) (<[rid := with_status Acknowledged a]> (active m)))
  | None => (false, m)
  end.

(** [metrics.get(name).copied().unwrap_or(0.0)]. *)
Definition metric_value (metrics : gmap string f64) (name : string) : f64 := default f_zero (metrics !! name).

Definition fired_alert (now : N) (metrics : gmap string f64) (r : AlertRule) : FiredAlert :=
  mkFired (id r) (label r) (metric r) (metric_value metrics (metric r)) (threshold r) now Firing.

Definition over (metrics : gmap string f64) (r : AlertRule) : bool := fltb (threshold r) (metric_value metrics (metric r)).

(** One round of the loop: the active alerts, the history and the new alerts. *)
Definition evaluate_rule (now : N) (metrics : gmap string f64)
    (acc : gmap string FiredAlert * list FiredAlert * list FiredAlert) (r : AlertRule) : gmap string FiredAlert * list FiredAlert * list FiredAlert :=
  let '(act, hist, fired) := acc in
  if negb (enabled r) then acc
  else if over metrics r then
    match act !! id r with
    | None => let a := fired_alert now metrics r in (<[id r := a]> act, hist ++ [a], fired ++ [a])
    | Some _ => acc
    end
  else
    match act !! id r with
    | Some a => (delete (id r) act, hist ++ [with_status Resolved a], fired)
    | None => acc
    end.

Definition HISTORY_CAP : nat := 1000.

Definition evaluate (m : AlertMonitor) (now : N) (metrics : gmap string f64) : list FiredAlert * AlertMonitor :=
  let '(act, hist, fired) := foldl (evaluate_rule now metrics) (active m, history m, []) (rules m) in
  (fired, mkMonitor (rules m) (if HISTORY_CAP <? length hist then drop (length hist - HISTORY_CAP) hist else hist) act).

(** One tick of the background loop: the notifications posted. *)
Definition alert_tick (m : AlertMonitor) (now : N) (metrics : gmap string f64) : list (string * FiredAlert) * AlertMonitor :=
  let '(fired, m) := evaluate m now metrics in
  (omap (λ a, r ← List.find (λ r, bool_decide (id r = rule_id a)) (rules m); (λ url, (url, a)) <$> webhook_url r) fired, m).

(** ** The endpoints ([alert_api.rs]): a status and a text *)

Definition create_rule (m : AlertMonitor) (r : AlertRule) : (N * string) * AlertMonitor :=
  if String.eqb (id r) "" then ((400%N, "rule id is required"), m)
  else if existsb (λ x, bool_decide (id x = id r)) (rules m) then ((409%N, "rule '" +:+ id r +:+ "' already exists"), m)
  else ((201%N, id r), add_rule m r).

Definition delete_rule (m : AlertMonitor) (rid : string) : (N * string) * AlertMonitor :=
  match remove_rule m rid with
  | (true, m) => ((200%N, rid), m)
  | (false, m) => ((200%N, "rule '" +:+ rid +:+ "' not found"), m)
  end.

Definition acknowledge_alert (m : AlertMonitor) (rid : string) : (N * string) * AlertMonitor :=
  match acknowledge m rid with
  | (true, m) => ((200%N, rid), m)
  | (false, m) => ((200%N, "no active alert for rule '" +:+ rid +:+ "'"), m)
  end.
End Monitor.

(** ** A rule on the result of a query ([alerting.rs]) *)

Module Evaluator.
Section Evaluator.
Context (parse_f64 : string → option f64) (show_f64 show_2 : f64 → string).

Inductive ConditionOp : Type := Gt | Gte | Lt | Lte | Eq | Neq.
Record AlertCondition : Type := mkCondition { column : string; operator : ConditionOp; cond_threshold : f64; aggregate : string }.
Inductive NotificationChannel : Type := Log | Webhook (url : string) | Slack (webhook_url : string).
Record AlertRule : Type := mkAlert { rule_name : string; query : string; format : string; condition : AlertCondition; notify : list NotificationChannel; interval_secs : N }.
Inductive AlertState : Type := StateOk | StateFiring.
#[export] Instance AlertState_eq_dec : EqDecision AlertState.
Proof. solve_decision. Defined.
Record AlertResult : Type := mkResult { res_rule : string; state : AlertState; value : f64; res_threshold : f64; message : string }.

(** [z as f64]. *)
Definition f64_of_Z (z : Z) : f64 := binary_normalize 53 1024 z 0 false.
Definition f_infinity (sign : bool) : f64 := S754_infinity sign.
Definition EPSILON : f64 := S754_finite false 4503599627370496 (-104).

Definition cell_f64 (t : DataType) (c : cell) : option f64 :=
  match t, c with
  | Float64, Some (VFloat f) => Some f
  | Int64, Some (VInt z) => Some (f64_of_Z z)
  | Utf8, Some (VUtf8 s) => parse_f64 s
  | _, _ => None
  end.
Definition column_to_f64_vec (a : Array) : list f64 := omap (cell_f64 (data_type a)) (data a).

Definition column_values (bs : list RecordBatch) (col : string) : list f64 :=
  bs ≫= λ b, from_option column_to_f64_vec [] (index_of (schema b) col ≫= λ i, columns b !! i).

Definition aggregate_column (bs : list RecordBatch) (col agg : string) : f64 :=
  match column_values bs col with
  | [] => f_zero
  | vs =>
      let n := f64_of_N (N.of_nat (length vs)) in
      if String.eqb agg "sum" then fsum vs
      else if String.eqb agg "avg" then fdiv (fsum vs) n
      else if String.eqb agg "min" then foldl fmin (f_infinity false) vs
      else if String.eqb agg "max" then foldl fmax (f_infinity true) vs
      else n
  end.

Definition check_condition (v : f64) (op : ConditionOp) (threshold : f64) : bool :=
  match op with
  | Gt => fltb threshold v
  | Gte => fleb threshold v
  | Lt => fltb v threshold
  | Lte => fleb v threshold
  | Eq => fltb (SFabs (fsub v threshold)) EPSILON
  | Neq => fleb EPSILON (SFabs (fsub v threshold))
  end.

Definition op_str (op : ConditionOp) : string :=
  match op with Gt => ">" | Gte => ">=" | Lt => "<" | Lte => "<=" | Eq => "==" | Neq => "!=" end.

Definition evaluate (r : AlertRule) (bs : list RecordBatch) : AlertResult :=
  let c := condition r in
  let v := aggregate_column bs (column c) (aggregate c) in
  mkResult (rule_name r) (if check_condition v (operator c) (cond_threshold c) then StateFiring else StateOk) v (cond_threshold c)
    ("Alert '" +:+ rule_name r +:+ "': " +:+ aggregate c +:+ " " +:+ column c +:+ " " +:+ op_str (operator c) +:+ " " +:+
     show_f64 (cond_threshold c) +:+ " (value=" +:+ show_2 v +:+ ")").

Definition evaluate_all (rs : list AlertRule) (results : gmap string (list RecordBatch)) : list AlertResult :=
  omap (λ r, bs ← results !! rule_name r;
             let res := evaluate r bs in if bool_decide (state res = StateFiring) then Some res else None) rs.
End Evaluator.
End Evaluator.

(** * Alerts are announced once per excursion

    The monitor as a state machine: invariants of every reachable state, what
    one evaluation does to every rule, and which evaluations of a sequence
    announce an alert. *)

Import Monitor.

(** ** One evaluation *)

Section Evaluation.
Context (now : N) (metrics : gmap string f64).
Abbreviation round := (evaluate_rule now metrics).

(** What a rule leaves under its identifier. *)
Definition after_rule (r : AlertRule) (a : option FiredAlert) : option FiredAlert :=
  if negb (enabled r) then a
  else if over metrics r then Some (default (fired_alert now metrics r) a) else None.

Lemma round_active act hist fired r i :
  (round (act, hist, fired) r).1.1 !! i = if decide (i = id r) then after_rule r (act !! i) else act !! i.
Proof.
  unfold evaluate_rule, after_rule. destruct (enabled r); cbn [negb]; [|by case_decide].
  destruct (over metrics r); (destruct (act !! id r) as [a|] eqn:E; cbn [fst snd]); case_decide as Hi; subst;
    rewrite ?lookup_insert_eq, ?lookup_insert_ne, ?lookup_delete_eq, ?lookup_delete_ne, ?E by done; done.
Qed.

Lemma rounds_active rs : NoDup (id <$> rs) → ∀ acc i,
  (foldl round acc rs).1.1 !! i =
    match List.find (λ r, bool_decide (id r = i)) rs with Some r => after_rule r (acc.1.1 !! i) | None => acc.1.1 !! i end.
Proof.
  induction rs as [|r rs IH]; intros Hnd [[act hist] fired] i; [done|]. rewrite fmap_cons in Hnd. apply NoDup_cons in Hnd as [Hr Hnd].
  cbn [foldl List.find]. rewrite IH by done. pose proof (round_active act hist fired r i) as Hra. rewrite Hra.
  case_bool_decide as Hi.
  - rewrite decide_True by done. destruct (List.find _ rs) as [r'|] eqn:E; [|done]. apply find_some in E as [Hin E].
    apply bool_decide_eq_true in E. exfalso. apply Hr. apply list_elem_of_fmap. exists r'. split; [congruence|]. by apply list_elem_of_In.
  - rewrite decide_False by congruence. done.
Qed.

(** The rules that announce an alert: enabled, over the threshold, with no
    alert under their identifier. *)
Definition announces (act : gmap string FiredAlert) (r : AlertRule) : bool :=
  enabled r && over metrics r && bool_decide (act !! id r = None).

Lemma round_fired act hist fired r :
  (round (act, hist, fired) r).2 = fired ++ (if announces act r then [fired_alert now metrics r] else []).
Proof.
  unfold evaluate_rule, announces. destruct (enabled r); cbn [negb andb]; [|by rewrite app_nil_r].
  destruct (over metrics r); destruct (act !! id r); cbn [andb fst snd]; rewrite ?app_nil_r; done.
Qed.

Lemma rounds_fired rs : NoDup (id <$> rs) → ∀ acc act, (∀ r, r ∈ rs → acc.1.1 !! id r = act !! id r) →
  (foldl round acc rs).2 = acc.2 ++ (fired_alert now metrics <$> filter (λ r, announces act r = true) rs).
Proof.
  induction rs as [|r rs IH]; intros Hnd [[a hist] fired] act Ha; cbn [foldl]; [by rewrite app_nil_r|].
  rewrite fmap_cons in Hnd. apply NoDup_cons in Hnd as [Hr Hnd].
  rewrite (IH Hnd _ act).
  - rewrite round_fired. cbn [snd]. assert (announces a r = announces act r) as ->.
    { unfold announces. specialize (Ha r ltac:(left)). cbn in Ha. by rewrite Ha. }
    destruct (announces act r) eqn:E.
    + rewrite filter_cons_True by done. by rewrite <- app_assoc.
    + rewrite filter_cons_False by congruence. by rewrite app_nil_r.
  - intros r' Hr'. pose proof (round_active a hist fired r (id r')) as Hra. rewrite Hra.
    rewrite decide_False; [by apply Ha; right|]. intros Heq. apply Hr. rewrite <- Heq. by apply list_elem_of_fmap_2.
Qed.
End Evaluation.

Definition rules_distinct (m : AlertMonitor) : Prop := NoDup (id <$> rules m).

Lemma find_rule rs r : NoDup (id <$> rs) → r ∈ rs → List.find (λ x, bool_decide (id x = id r)) rs = Some r.
Proof.
  induction rs as [|x rs IH]; [by intros _ ?%not_elem_of_nil|]. rewrite fmap_cons. intros [Hx Hnd]%NoDup_cons [->|Hin]%elem_of_cons; cbn.
  - by rewrite bool_decide_eq_true_2.
  - rewrite bool_decide_eq_false_2; [by apply IH|]. intros Heq. apply Hx. rewrite Heq. by apply list_elem_of_fmap_2.
Qed.

Lemma evaluate_active m now metrics i : rules_distinct m →
  active (evaluate m now metrics).2 !! i =
    match List.find (λ r, bool_decide (id r = i)) (rules m) with Some r => after_rule now metrics r (active m !! i) | None => active m !! i end.
Proof.
  intros Hd. unfold evaluate. pose proof (rounds_active now metrics (rules m) Hd (active m, history m, []) i) as H.
  destruct (foldl _ _ _) as [[act hist] fired]. exact H.
Qed.

Lemma evaluate_fired m now metrics : rules_distinct m →
  (evaluate m now metrics).1 = fired_alert now metrics <$> filter (λ r, announces metrics (active m) r = true) (rules m).
Proof.
  intros Hd. unfold evaluate. pose proof (rounds_fired now metrics (rules m) Hd (active m, history m, []) (active m) (λ _ _, eq_refl)) as H.
  destruct (foldl _ _ _) as [[act hist] fired]. exact H.
Qed.

Lemma evaluate_rules m now metrics : rules (evaluate m now metrics).2 = rules m.
Proof. unfold evaluate. by destruct (foldl _ _ _) as [[act hist] fired]. Qed.

(** ** Sequences of evaluations *)

(** Between evaluations alerts may be acknowledged. *)
Inductive tick : Type := Evaluate (now : N) (metrics : gmap string f64) | Ack (rid : string).

Definition tick_step (m : AlertMonitor) (t : tick) : AlertMonitor :=
  match t with Evaluate now metrics => (evaluate m now metrics).2 | Ack rid => (acknowledge m rid).2 end.

(** What the last evaluation of a sequence said of a rule. *)
Fixpoint was_over (r : AlertRule) (ts : list tick) : bool :=
  match ts with
  | [] => false
  | Evaluate _ metrics :: ts => over metrics r
  | Ack _ :: ts => was_over r ts
  end.

Lemma acknowledge_active m rid i : is_Some (active (acknowledge m rid).2 !! i) ↔ is_Some (active m !! i).
Proof.
  unfold acknowledge. destruct (active m !! rid) as [a|] eqn:E; [|done]. cbn. destruct (decide (i = rid)) as [->|Hne].
  - rewrite lookup_insert_eq, E. by split.
  - by rewrite lookup_insert_ne by done.
Qed.

Lemma ticks_rules m ts : rules (foldl tick_step m ts) = rules m.
Proof.
  revert m. induction ts as [|[now metrics|rid] ts IH]; intros m; [done|..]; cbn [foldl tick_step]; rewrite IH; [apply evaluate_rules|].
  unfold acknowledge. by destruct (active m !! rid).
Qed.

(** An alert is active exactly when the last evaluation was over. *)
Lemma active_iff_over m ts r : rules_distinct m → active m = ∅ → r ∈ rules m → enabled r = true →
  is_Some (active (foldl tick_step m ts) !! id r) ↔ was_over r (reverse ts) = true.
Proof.
  intros Hd He Hr Hen. induction ts as [|t ts IH] using rev_ind.
  - cbn. rewrite He, lookup_empty. split; [by intros []|done].
  - rewrite foldl_snoc, reverse_snoc. destruct t as [now metrics|rid]; cbn [tick_step was_over]; [|by rewrite acknowledge_active].
    rewrite evaluate_active by (unfold rules_distinct; by rewrite ticks_rules). rewrite ticks_rules, find_rule by done.
    unfold after_rule. rewrite Hen. cbn [negb]. destruct (over metrics r); split; done.
Qed.

(** C30: alerts are announced on rising edges.  Starting without alerts, with
    distinct rules, an evaluation announces a rule's alert exactly when the
    rule is enabled, its metric is over the threshold and at the evaluation
    before (if any) it was not; acknowledging in between changes nothing. *)
Theorem alerts_fire_on_rising_edges m ts now metrics r : rules_distinct m → active m = ∅ → r ∈ rules m →
  (fired_alert now metrics r ∈ (evaluate (foldl tick_step m ts) now metrics).1 ↔
   enabled r = true ∧ over metrics r = true ∧ was_over r (reverse ts) = false).
Proof.
  intros Hd He Hr. rewrite evaluate_fired by (unfold rules_distinct; by rewrite ticks_rules). rewrite ticks_rules.
  assert (∀ r', r' ∈ rules m → fired_alert now metrics r = fired_alert now metrics r' → r = r') as Hinj.
  { intros r' Hr' [= Hid _ _ _ _]. pose proof (find_rule _ r Hd Hr) as H1. pose proof (find_rule _ r' Hd Hr') as H2. rewrite <- Hid, H1 in H2. by injection H2. }
  rewrite list_elem_of_fmap. setoid_rewrite list_elem_of_filter. unfold announces. setoid_rewrite andb_true_iff. setoid_rewrite andb_true_iff.
  setoid_rewrite bool_decide_eq_true. split.
  - intros (r' & Heq & ((Hen & Hov) & Hn) & Hin). apply (Hinj r' Hin) in Heq as <-. split; [done|]. split; [done|].
    apply not_true_iff_false. rewrite <- (active_iff_over m ts r) by done. by rewrite Hn; intros [].
  - intros (Hen & Hov & Hw). exists r. split; [done|]. split; [|done]. split; [done|]. apply eq_None_not_Some.
    rewrite (active_iff_over m ts r) by done. by rewrite Hw.
Qed.

(** ** The endpoints *)

Inductive call : Type := Create (r : AlertRule) | Delete (rid : string) | Acknowledge (rid : string) | Tick (now : N) (metrics : gmap string f64).

Definition call_step (m : AlertMonitor) (c : call) : AlertMonitor :=
  match c with
  | Create r => (create_rule m r).2
  | Delete rid => (delete_rule m rid).2
  | Acknowledge rid => (acknowledge_alert m rid).2
  | Tick now metrics => (alert_tick m now metrics).2
  end.

Definition open_alert (i : string) (a : FiredAlert) : Prop := rule_id a = i ∧ status a ≠ Resolved.

Record sound (m : AlertMonitor) : Prop := {
  sound_rules : NoDup (id <$> rules m) ∧ Forall (λ r, id r ≠ "") (rules m);
  sound_active : map_Forall open_alert (active m);
  sound_history : length (history m) ≤ HISTORY_CAP;
}.

Lemma rounds_open now metrics rs : ∀ acc, map_Forall open_alert acc.1.1 → map_Forall open_alert (foldl (evaluate_rule now metrics) acc rs).1.1.
Proof.
  induction rs as [|r rs IH]; intros [[act hist] fired] Ha; [done|]. cbn [foldl]. apply IH. intros i a.
  pose proof (round_active now metrics act hist fired r i) as Hra. rewrite Hra. case_decide as Hi; [|by apply Ha].
  unfold after_rule. destruct (enabled r); cbn [negb]; [|by apply Ha]. destruct (over metrics r); [|done].
  destruct (act !! i) as [b|] eqn:E; cbn; intros [= <-]; [by apply Ha|]. by split.
Qed.

Lemma tick_sound m now metrics : sound m → sound (alert_tick m now metrics).2.
Proof.
  intros [Hr Ha Hh]. unfold alert_tick, evaluate. pose proof (rounds_open now metrics (rules m) (active m, history m, []) Ha) as Ho.
  destruct (foldl _ _ _) as [[act hist] fired]. split; [done|done|]. cbn [history snd].
  destruct (Nat.ltb_spec HISTORY_CAP (length hist)); [rewrite length_drop|]; lia.
Qed.

Lemma create_sound m r : sound m → sound (create_rule m r).2.
Proof.
  intros [[Hd Hn] Ha Hh]. unfold create_rule. destruct (String.eqb_spec (id r) ""); [done|].
  destruct (existsb _ _) eqn:E; [done|]. split; [|done|done]. cbn. split.
  - rewrite fmap_app. apply NoDup_app. split; [done|]. split; [|apply NoDup_singleton]. intros i Hi ->%list_elem_of_singleton.
    apply list_elem_of_fmap in Hi as (x & Hx & Hin). apply not_true_iff_false in E. apply E, existsb_exists. exists x.
    split; [by apply list_elem_of_In|]. by apply bool_decide_eq_true.
  - apply Forall_app_2; [done|]. by apply Forall_singleton.
Qed.

Lemma delete_sound m rid : sound m → sound (delete_rule m rid).2.
Proof.
  intros [[Hd Hn] Ha Hh]. unfold delete_rule, remove_rule. assert (sound (mkMonitor (filter (λ r, id r ≠ rid) (rules m)) (history m) (active m))) as H.
  { split; [|done|done]. cbn. split; [|by apply Forall_filter]. eapply sublist_NoDup; [exact Hd|]. apply fmap_sublist, sublist_filter. }
  by destruct (_ <? _).
Qed.

Lemma acknowledge_sound m rid : sound m → sound (acknowledge_alert m rid).2.
Proof.
  intros [Hr Ha Hh]. unfold acknowledge_alert, acknowledge. destruct (active m !! rid) as [a|] eqn:E; [|done]. split; [done| |done]. cbn.
  apply map_Forall_insert_2; [|done]. by destruct (Ha _ _ E).
Qed.

(** After any sequence of calls to the endpoints and evaluations, the
    rules have distinct identifiers that are not empty, every active alert is
    kept under its rule's identifier and is not resolved, and the history has
    at most a thousand entries. *)
Theorem monitor_sound cs : sound (foldl call_step new cs).
Proof.
  induction cs as [|c cs IH] using rev_ind; [by repeat constructor|]. rewrite foldl_snoc.
  destruct c as [r|rid|rid|now metrics]; [by apply create_sound|by apply delete_sound|by apply acknowledge_sound|by apply tick_sound].
Qed.

(** Two rules on one metric, three evaluations. *)
Definition ex_rule (i : string) (t : N) : AlertRule := mkRule i i "error_rate" (f64_of_N t) 60 (Some "http://hook") true.
Definition ex_metrics (v : N) : gmap string f64 := {["error_rate" := f64_of_N v]}.

Lemma alerts_fire_on_rising_edges_witness :
  let m := from_rules [ex_rule "low" 5; ex_rule "high" 50] in
  fired_alert 3 (ex_metrics 60) (ex_rule "high" 50) ∈ (evaluate (foldl tick_step m [Evaluate 1 (ex_metrics 10); Ack "low"]) 3 (ex_metrics 60)).1.
Proof.
  intros m. apply (alerts_fire_on_rising_edges m [Evaluate 1 (ex_metrics 10); Ack "low"] 3 (ex_metrics 60) (ex_rule "high" 50)).
  - by apply (bool_decide_unpack (NoDup ["low"; "high"])).
  - done.
  - apply elem_of_cons. right. by left.
  - by vm_compute.
Defined.

(** An alert whose rule was deleted stays: no evaluation resolves it, and a
    new rule of the same name does not announce its alert. *)
Lemma deleted_rule_alert_stays m ts i : i ∉ (id <$> rules m) → rules_distinct m →
  is_Some (active m !! i) → is_Some (active (foldl tick_step m ts) !! i).
Proof.
  intros Hi Hd Ha. induction ts as [|t ts IH] using rev_ind; [done|]. rewrite foldl_snoc.
  destruct t as [now metrics|rid]; cbn [tick_step]; [|by rewrite acknowledge_active].
  rewrite evaluate_active by (unfold rules_distinct; by rewrite ticks_rules). rewrite ticks_rules.
  destruct (List.find _ _) as [r|] eqn:E; [|done]. apply find_some in E as [Hin E]. apply bool_decide_eq_true in E. exfalso. apply Hi.
  rewrite <- E. apply list_elem_of_fmap_2. by apply list_elem_of_In.
Qed.

Example recreated_rule_is_silent :
  let m := foldl call_step new [Create (ex_rule "r" 5); Tick 1 (ex_metrics 9); Delete "r"; Tick 2 (ex_metrics 0); Create (ex_rule "r" 5)] in
  (evaluate m 3 (ex_metrics 9)).1 = [].
Proof. by vm_compute. Qed.

(** ** Rules on results *)

Import Evaluator.

(** The alerts reported are those of the rules with results that fire. *)
Lemma evaluate_all_spec parse show show2 rs results res :
  res ∈ evaluate_all parse show show2 rs results ↔
    ∃ r bs, r ∈ rs ∧ results !! rule_name r = Some bs ∧ res = Evaluator.evaluate parse show show2 r bs ∧
      check_condition (aggregate_column parse bs (column (condition r)) (aggregate (condition r))) (operator (condition r)) (cond_threshold (condition r)) = true.
Proof.
  unfold evaluate_all. rewrite list_elem_of_omap. split.
  - intros (r & Hr & H). destruct (results !! rule_name r) as [bs|] eqn:E; [|done]. cbn in H.
    destruct (check_condition _ _ _) eqn:Ec; [|done]. injection H as <-. exists r, bs. split; [done|]. split; [done|]. split; [|done].
    unfold Evaluator.evaluate. by rewrite Ec.
  - intros (r & bs & Hr & Hb & -> & Hc). exists r. split; [done|]. rewrite Hb. cbn. by rewrite Hc.
Qed.

(** A count of a column of texts counts the numbers only. *)
Example text_count_is_zero :
  let b := mkBatch [mkField "level" Utf8 true] [mkArray Utf8 [Some (VUtf8 "error"); Some (VUtf8 "warn")]] 2 in
  aggregate_column (λ _, None) [b] "level" "count" = f_zero.
Proof. done. Qed.
