(* ===== verification/Jobs.v ===== *)
(** * Jobs: asynchronous queries, query deduplication and schedules

    Models [crates/fuse-server/src/async_query.rs] (the job store),
    [dedup.rs] (coalescing of identical queries in flight) and [scheduler.rs]
    (cron fields and the schedule registry).  Clock readings are arguments, the
    order in which a hash map is iterated is a parameter, and a job's result is
    of any type. *)

From S2P Require Import Prelude Strs Sorting Logs.
From stdpp Require Import base list gmap strings sets pretty.
From Stdlib Require Import NArith ZArith Lia Ascii.

(** ** [async_query.rs] *)

Inductive JobStatus : Type := Pending | Running | Completed | Failed | Cancelled.
#[export] Instance JobStatus_eq_dec : EqDecision JobStatus.
Proof. solve_decision. Defined.

Section JobStore.
Context {V : Type}.

Record AsyncJob : Type := mkJob {
  job_id : string;
  status : JobStatus;
  j_query : string;
  j_format : string;
  owner : option string;
  j_result : option V;
  j_error : option string;
  submitted_at : N;
  completed_at : option N;
}.

Record JobStore : Type := mkStore {
  jobs : gmap string AsyncJob;
  ttl : N;
  max_jobs : nat;
}.

Definition store_new (ttl_secs : N) (max_jobs : nat) : JobStore := mkStore ∅ ttl_secs max_jobs.

(** The iteration order of the hash map of jobs. *)
Context (iter : gmap string AsyncJob → list (string * AsyncJob)).

Definition finished (j : AsyncJob) : bool :=
  match status j with Completed | Failed => true | _ => false end.

Definition evict_expired (ttl now : N) (js : gmap string AsyncJob) : gmap string AsyncJob :=
  let cutoff := (now - ttl)%N in
  filter (λ kj, (cutoff < submitted_at kj.2)%N) js.

Definition evict_oldest (js : gmap string AsyncJob) : gmap string AsyncJob :=
  match min_by_key (λ kj, submitted_at kj.2) (filter (λ kj, finished kj.2) (iter js)) with
  | Some (key, _) => delete key js
  | None => js
  end.

(** [now] is read when the job is made, [now'] when expired jobs are dropped. *)
Definition submit (s : JobStore) (id query format : string) (now now' : N) : AsyncJob * JobStore :=
  let job := mkJob id Pending query format None None None now None in
  let js := evict_expired (ttl s) now' (jobs s) in
  let js := if max_jobs s <=? size js then evict_oldest js else js in
  (job, mkStore (<[id := job]> js) (ttl s) (max_jobs s)).

Definition get (s : JobStore) (id : string) : option AsyncJob := jobs s !! id.

(** [if let Some(job) = jobs.get_mut(id) { ... }]. *)
Definition modify (s : JobStore) (id : string) (f : AsyncJob → AsyncJob) : JobStore :=
  mkStore (alter f id (jobs s)) (ttl s) (max_jobs s).

Definition update_status (s : JobStore) (id : string) (st : JobStatus) : JobStore :=
  modify s id (λ j, mkJob (job_id j) st (j_query j) (j_format j) (owner j) (j_result j) (j_error j)
                      (submitted_at j) (completed_at j)).

Definition complete (s : JobStore) (id : string) (result : V) (now : N) : JobStore :=
  modify s id (λ j, mkJob (job_id j) Completed (j_query j) (j_format j) (owner j) (Some result) (j_error j)
                      (submitted_at j) (Some now)).

Definition fail (s : JobStore) (id error : string) (now : N) : JobStore :=
  modify s id (λ j, mkJob (job_id j) Failed (j_query j) (j_format j) (owner j) (j_result j) (Some error)
                      (submitted_at j) (Some now)).

Definition cancellable (j : AsyncJob) : bool :=
  match status j with Pending | Running => true | _ => false end.

Definition cancel (s : JobStore) (id : string) (now : N) : bool * JobStore :=
  match jobs s !! id with
  | Some j =>
      if cancellable j
      then (true, modify s id (λ j, mkJob (job_id j) Cancelled (j_query j) (j_format j) (owner j) (j_result j)
                                      (j_error j) (submitted_at j) (Some now)))
      else (false, s)
  | None => (false, s)
  end.

Definition list_jobs (s : JobStore) : list AsyncJob := (iter (jobs s)).*2.
Definition len (s : JobStore) : nat := size (jobs s).
Definition is_empty (s : JobStore) : bool := bool_decide (jobs s = ∅).

Record AsyncSubmitResponse : Type := mkSubmitted { r_job_id : string; r_status : JobStatus; poll_url : string }.

(** [job_id] is the id generated for the request. *)
Definition submit_async_query (s : JobStore) (job_id query format : string) (now now' : N)
    : AsyncSubmitResponse * JobStore :=
  let '(job, s) := submit s job_id query format now now' in
  (mkSubmitted job_id (status job) ("/api/fuse/query/async/" +:+ job_id), s).
End JobStore.

Arguments AsyncJob : clear implicits.
Arguments JobStore : clear implicits.

(** ** [dedup.rs]

    A broadcast channel is known by a number; [events] is what is done to the
    channels: a receiver subscribes, the sender sends a value, the sender is
    dropped. *)

Inductive DedupeResult : Type :=
| Execute
| Wait (channel : nat).

Inductive channel_event (V : Type) : Type :=
| Subscribed (c : nat)
| Sent (c : nat) (v : V)
| Dropped (c : nat).
Arguments Subscribed {V}.
Arguments Sent {V}.
Arguments Dropped {V}.

Module Dedup.
Section QueryDedup.
Context {V : Type}.

Record QueryDedup : Type := mkDedup {
  inflight : gmap string nat;
  next_channel : nat;
  channel_log : list (channel_event V);
}.

Definition dedup_new : QueryDedup := mkDedup ∅ 0 [].

Definition check (d : QueryDedup) (key : string) : DedupeResult * QueryDedup :=
  match inflight d !! key with
  | Some tx => (Wait tx, mkDedup (inflight d) (next_channel d) (channel_log d ++ [Subscribed tx]))
  | None =>
      let tx := next_channel d in
      (Execute, mkDedup (<[key := tx]> (inflight d)) (S tx) (channel_log d))
  end.

Definition dedup_complete (d : QueryDedup) (key : string) (result : V) : QueryDedup :=
  match inflight d !! key with
  | Some tx => mkDedup (delete key (inflight d)) (next_channel d) (channel_log d ++ [Sent tx result; Dropped tx])
  | None => d
  end.

Definition dedup_cancel (d : QueryDedup) (key : string) : QueryDedup :=
  match inflight d !! key with
  | Some tx => mkDedup (delete key (inflight d)) (next_channel d) (channel_log d ++ [Dropped tx])
  | None => d
  end.

Definition inflight_count (d : QueryDedup) : nat := size (inflight d).
End QueryDedup.
Arguments QueryDedup : clear implicits.
End Dedup.

(** ** [scheduler.rs] *)

Record ScheduledQuery : Type := mkScheduled {
  sq_id : string;
  sq_name : string;
  sq_query : string;
  sq_format : string;
  cron : string;
  enabled : bool;
  alert_on_change : bool;
  alert_on_error : bool;
  created_at : N;
}.
Inductive ExecStatus : Type := ExSuccess | ExFailed | ExChanged.
Record ScheduleExecution : Type := mkExecution {
  schedule_id : string;
  executed_at : N;
  ex_row_count : N;
  ex_latency_ms : N;
  ex_status : ExecStatus;
  ex_error : option string;
}.

(** The field as a value or a comma-separated list of values. *)
Definition list_field_matches (field : string) (value : N) : bool :=
  match parse_u32 field with
  | Some n => (n =? value)%N
  | None => existsb (λ v, bool_decide (parse_u32 (trim v) = Some value)) (split_on (is_char ",") field)
  end.

Definition field_matches (field : string) (value : N) : bool :=
  if decide (field = "*") then true
  else match str_strip_prefix "*/" field with
       | Some interval =>
           match parse_u32 interval with
           | Some n => (0 <? n)%N && (value `mod` n =? 0)%N
           | None => list_field_matches field value
           end
       | None => list_field_matches field value
       end.

Definition cron_matches (cron : string) (minute hour : N) : bool :=
  match split_whitespace cron with
  | m :: h :: _ => field_matches m minute && field_matches h hour
  | _ => false
  end.

Record ScheduleRegistry : Type := mkSchedules {
  schedules : gmap string ScheduledQuery;
  sched_history : list ScheduleExecution;
  max_history : nat;
}.

Module Schedules.
Definition schedules_new (max_history : nat) : ScheduleRegistry := mkSchedules ∅ [] max_history.
Definition add (r : ScheduleRegistry) (s : ScheduledQuery) : ScheduleRegistry :=
  mkSchedules (<[sq_id s := s]> (schedules r)) (sched_history r) (max_history r).
Definition remove (r : ScheduleRegistry) (id : string) : bool * ScheduleRegistry :=
  (bool_decide (is_Some (schedules r !! id)),
   mkSchedules (delete id (schedules r)) (sched_history r) (max_history r)).
Definition schedule_get (r : ScheduleRegistry) (id : string) : option ScheduledQuery := schedules r !! id.
Definition due (iter : gmap string ScheduledQuery → list (string * ScheduledQuery))
    (r : ScheduleRegistry) (minute hour : N) : list ScheduledQuery :=
  filter (λ s, enabled s && cron_matches (cron s) minute hour) (iter (schedules r)).*2.
Definition record_execution (r : ScheduleRegistry) (e : ScheduleExecution) : ScheduleRegistry :=
  mkSchedules (schedules r) (push_drain (max_history r) (sched_history r) e) (max_history r).
Definition history (r : ScheduleRegistry) (id : option string) : list ScheduleExecution :=
  match id with
  | Some id => filter (λ e, schedule_id e = id) (sched_history r)
  | None => sched_history r
  end.
Definition schedules_len (r : ScheduleRegistry) : nat := size (schedules r).
End Schedules.

(** * Jobs, deduplicated queries and cron fields

    The theorems on [Jobs]: how many jobs the store holds and what it forgets,
    that every caller waiting for a query in flight is answered with the result
    of the one execution, and that a cron expression means what its fields say. *)

(** ** The job store *)

Section JobStoreCorrect.
Context {V : Type} (iter : gmap string (AsyncJob V) → list (string * AsyncJob V)).
(** Iterating the hash map yields each job once, in some order. *)
Hypothesis iter_each : ∀ m, iter m ≡ₚ map_to_list m.

(** What evicting the oldest finished job does. *)
Lemma evict_oldest_cases js :
  (∃ k j, js !! k = Some j ∧ finished j = true ∧ evict_oldest iter js = delete k js ∧
          ∀ k' j', js !! k' = Some j' → finished j' = true → (submitted_at j ≤ submitted_at j')%N) ∨
  (evict_oldest iter js = js ∧ ∀ k j, js !! k = Some j → finished j = false).
Proof.
  unfold evict_oldest. set (l := filter _ _).
  assert (∀ k j, (k, j) ∈ l ↔ js !! k = Some j ∧ finished j = true) as Hl.
  { intros k j. unfold l. rewrite list_elem_of_filter, iter_each, elem_of_map_to_list. cbn.
    rewrite Is_true_true. tauto. }
  destruct (decide (l = [])) as [E|E].
  - right. rewrite (proj2 (min_by_key_None _ l)) by done. split; [done|]. intros k j Hj.
    destruct (finished j) eqn:Ef; [|done]. exfalso.
    assert ((k, j) ∈ l) as Hin by by apply Hl. rewrite E in Hin. by apply elem_of_nil in Hin.
  - left. destruct (min_by_key_Some (λ kj, submitted_at kj.2) l E) as ([k j] & -> & Hin & Hmin).
    apply Hl in Hin as [Hj Hf]. exists k, j. split_and!; [done..|]. intros k' j' Hj' Hf'.
    apply (Hmin (k', j')). by apply Hl.
Qed.

Lemma evict_expired_lookup t now (js : gmap string (AsyncJob V)) k j :
  evict_expired t now js !! k = Some j ↔ js !! k = Some j ∧ (now - t < submitted_at j)%N.
Proof. unfold evict_expired. rewrite map_lookup_filter_Some. done. Qed.

Lemma evict_expired_size t now (js : gmap string (AsyncJob V)) : size (evict_expired t now js) ≤ size js.
Proof. apply map_size_filter || (apply map_subseteq_size, map_filter_subseteq). Qed.

(** A job that has ended by itself; the jobs that are not yet a time to live old. *)
Definition ended (j : AsyncJob V) : Prop := status j = Completed ∨ status j = Failed.
Definition live (s : JobStore V) (now : N) : gmap string (AsyncJob V) := filter (λ kj, (now - ttl s < submitted_at kj.2)%N) (jobs s).
Lemma finished_ended (j : AsyncJob V) : finished j = true ↔ ended j.
Proof. unfold finished, ended. destruct (status j); naive_solver. Qed.

(** The job that makes room: none while there is room, else the ended one that
    was submitted first, of several any one, if there is one. *)
Definition makes_room (s : JobStore V) (now : N) (gone : option string) : Prop :=
  if decide (size (live s now) < max_jobs s) then gone = None
  else match gone with
       | Some k => ∃ j, live s now !! k = Some j ∧ ended j ∧
           ∀ k' j', live s now !! k' = Some j' → ended j' → (submitted_at j ≤ submitted_at j')%N
       | None => ∀ k j, live s now !! k = Some j → ¬ ended j
       end.

(** C39: submitting a job makes it readable as pending.  Of the others, those
    submitted a time to live ago or earlier are dropped, whatever they are doing;
    when the rest fills the store, one more is dropped, the ended job submitted
    first, and when there is room none is; all others stay as they were.  A store
    within its bound stays within it, unless none of the jobs left over has ended. *)
Theorem submit_keeps_and_bounds s id query format now now' :
  let '(job, s') := submit iter s id query format now now' in
  get s' id = Some job ∧ status job = Pending ∧ ttl s' = ttl s ∧ max_jobs s' = max_jobs s ∧
  (∃ gone, makes_room s now' gone ∧ ∀ k j, k ≠ id → get s' k = Some j ↔ live s now' !! k = Some j ∧ gone ≠ Some k) ∧
  (len s ≤ max_jobs s → len s' ≤ max_jobs s ∨ ∀ k j, k ≠ id → get s' k = Some j → ¬ ended j).
Proof.
  unfold makes_room, submit, get, len. cbn [jobs status ttl max_jobs].
  change (evict_expired (ttl s) now' (jobs s)) with (live s now'). set (js1 := live s now').
  set (js2 := if max_jobs s <=? size js1 then evict_oldest iter js1 else js1).
  set (job := mkJob id Pending query format None None None now None).
  assert (∃ gone, (if decide (size js1 < max_jobs s) then gone = None
    else match gone with
         | Some k => ∃ j, js1 !! k = Some j ∧ ended j ∧ ∀ k' j', js1 !! k' = Some j' → ended j' → (submitted_at j ≤ submitted_at j')%N
         | None => ∀ k j, js1 !! k = Some j → ¬ ended j
         end) ∧ js2 = match gone with Some k => delete k js1 | None => js1 end) as (gone & Hgone & E2).
  { unfold js2. destruct (decide (size js1 < max_jobs s)) as [Hroom|Hfull].
    - exists None. by rewrite (proj2 (Nat.leb_gt _ _)).
    - rewrite (proj2 (Nat.leb_le _ _)) by lia.
      destruct (evict_oldest_cases js1) as [(k0 & j0 & Hj0 & Hf0 & -> & Hmin)|[-> Hnone]].
      + exists (Some k0). split; [|done]. exists j0. split_and!; [done|by apply finished_ended|]. intros k' j' Hk' He%finished_ended. eauto.
      + exists None. split; [|done]. intros k j Hj He%finished_ended. by rewrite (Hnone k j Hj) in He. }
  split_and!; [apply lookup_insert_eq|done|done|done| |].
  - exists gone. split; [done|]. intros k j Hk. rewrite lookup_insert_ne, E2 by done.
    destruct gone as [k0|]; [|naive_solver]. rewrite lookup_delete_Some. naive_solver.
  - intros Hlen. pose proof (evict_expired_size (ttl s) now' (jobs s)) as Hsz. change (size js1 ≤ size (jobs s)) in Hsz.
    rewrite E2, map_size_insert. destruct (decide (size js1 < max_jobs s)) as [Hroom|Hfull].
    + subst gone. left. destruct (js1 !! id); cbn; lia.
    + destruct gone as [k0|].
      * left. destruct Hgone as (j0 & Hj0 & _). rewrite map_size_delete, Hj0.
        assert (size js1 ≠ 0) by (eapply map_size_ne_0_lookup_2; eauto). destruct (delete k0 js1 !! id); cbn; lia.
      * right. intros k j Hk. rewrite lookup_insert_ne by done. apply Hgone.
Qed.
End JobStoreCorrect.

Lemma submit_keeps_and_bounds_witness :
  let job i st t := mkJob (V := unit) i st "q" "sql" None None None t None in
  let s := mkStore {[ "a" := job "a" Completed 10%N; "b" := job "b" Running 20%N ]} 100%N 2 in
  let s' := (submit map_to_list s "c" "q" "sql" 30%N 30%N).2 in
  get s' "a" = None ∧ is_Some (get s' "b") ∧
  (len s' ≤ 2 ∨ ∀ k j, k ≠ "c" → get s' k = Some j → ¬ ended j).
Proof.
  intros job s s'. split; [reflexivity|]. split; [eexists; reflexivity|].
  pose proof (submit_keeps_and_bounds map_to_list (λ m, reflexivity _) s "c" "q" "sql" 30%N 30%N) as H.
  apply H. vm_compute. lia.
Defined.

Section JobLifecycle.
Context {V : Type}.

(** A job cancelled while it runs is turned into a completed one when its task
    ends. *)
Lemma cancelled_job_completes (s : JobStore V) id j now now' v :
  get s id = Some j → cancellable j = true →
  let '(ok, s1) := Jobs.cancel s id now in
  ok = true ∧ status <$> get s1 id = Some Cancelled ∧
  (λ j, (status j, j_result j)) <$> get (complete s1 id v now') id = Some (Completed, Some v).
Proof.
  unfold get, Jobs.cancel, complete, modify. intros Hj Hc. rewrite Hj, Hc. cbn [jobs].
  split; [done|]. by rewrite !lookup_alter_eq, Hj.
Qed.

(** Only the job named is changed, and finishing a job says when. *)
Lemma other_jobs_kept (s : JobStore V) id k v e now :
  k ≠ id →
  get (complete s id v now) k = get s k ∧ get (fail s id e now) k = get s k ∧ get (Jobs.cancel s id now).2 k = get s k.
Proof.
  intros Hk. unfold get, complete, fail, Jobs.cancel, modify. cbn [jobs]. rewrite !lookup_alter_ne by done.
  split_and!; [done..|]. destruct (jobs s !! id) as [j|]; [|done]. destruct (cancellable j); [|done].
  cbn. by apply lookup_alter_ne.
Qed.

(** Pending and running jobs are never evicted to make room: with a bound of one,
    any number of them fit. *)
Lemma pending_jobs_exceed_bound (iter : gmap string (AsyncJob V) → list (string * AsyncJob V)) ids :
  (∀ m, iter m ≡ₚ map_to_list m) → NoDup ids →
  len (foldl (λ s id, (submit iter s id "q" "sql" 10%N 10%N).2) (store_new 5%N 1) ids) = length ids.
Proof.
  intros Hiter Hnd. set (run := foldl _ _).
  assert (ttl (run ids) = 5%N ∧ max_jobs (run ids) = 1 ∧ len (run ids) = length ids ∧
          ∀ k j, jobs (run ids) !! k = Some j → k ∈ ids ∧ status j = Pending ∧ submitted_at j = 10%N)
    as (_ & _ & Hlen & _); [|done].
  induction ids as [|id ids IH] using rev_ind; [done|].
  apply NoDup_app in Hnd as (Hnd & Hfresh & _). destruct (IH Hnd) as (Ht & Hm & Hlen & Hall).
  unfold run. rewrite foldl_snoc. fold (run ids). unfold submit, len. rewrite Ht, Hm. cbn [snd jobs ttl max_jobs].
  assert (evict_expired 5%N 10%N (jobs (run ids)) = jobs (run ids)) as ->.
  { apply map_filter_id. intros k j Hj%Hall. cbn. destruct Hj as (_ & _ & ->). lia. }
  replace (if 1 <=? size (jobs (run ids)) then evict_oldest iter (jobs (run ids)) else jobs (run ids))
    with (jobs (run ids)).
  2: { destruct (_ <=? _); [|done].
       destruct (evict_oldest_cases iter Hiter (jobs (run ids))) as [(k & j & Hj & Hf & _)|[-> _]]; [|done].
       destruct (Hall k j Hj) as (_ & Hst & _). unfold finished in Hf. by rewrite Hst in Hf. }
  split_and!; [done..| |].
  - rewrite map_size_insert_None, length_app, Nat.add_1_r; [by f_equal|].
    destruct (jobs (run ids) !! id) as [j|] eqn:E; [|done]. apply Hall in E as [Hin _]. set_solver.
  - intros k j [[<- <-]|[Hne Hj]]%lookup_insert_Some; [set_solver|]. apply Hall in Hj. set_solver.
Qed.
End JobLifecycle.

(** ** Coalesced queries *)

Section DedupCorrect.
Context {V : Type}.
Abbreviation dedup := (Dedup.QueryDedup V).

Inductive dedup_op : Type :=
| DCheck (key : string)
| DComplete (key : string) (v : V)
| DCancel (key : string).

Definition dedup_step (d : dedup) (o : dedup_op) : dedup :=
  match o with
  | DCheck k => (Dedup.check d k).2
  | DComplete k v => Dedup.dedup_complete d k v
  | DCancel k => Dedup.dedup_cancel d k
  end.
Definition dedup_run (d : dedup) (ops : list dedup_op) : dedup := foldl dedup_step d ops.

(** The operation ends the execution of [key]. *)
Definition ends (key : string) (o : dedup_op) : bool :=
  match o with DCheck _ => false | DComplete k _ | DCancel k => bool_decide (k = key) end.

(** What a receiver of channel [c] gets, from what happens after it subscribed:
    the value sent first, or that the channel was closed; [None] while it waits. *)
Fixpoint answer (c : nat) (log : list (channel_event V)) : option (option V) :=
  match log with
  | [] => None
  | Sent c' v :: log => if decide (c' = c) then Some (Some v) else answer c log
  | Dropped c' :: log => if decide (c' = c) then Some None else answer c log
  | Subscribed _ :: log => answer c log
  end.

(** Channels in flight are distinct and older than the next one. *)
Definition dedup_inv (d : dedup) : Prop :=
  (∀ k c, Dedup.inflight d !! k = Some c → c < Dedup.next_channel d) ∧
  (∀ k k' c, Dedup.inflight d !! k = Some c → Dedup.inflight d !! k' = Some c → k = k').

Lemma dedup_inv_step d o : dedup_inv d → dedup_inv (dedup_step d o).
Proof.
  intros [Hlt Hinj]. destruct o as [k|k v|k]; cbn; unfold Dedup.check, Dedup.dedup_complete, Dedup.dedup_cancel;
    destruct (Dedup.inflight d !! k) as [c|] eqn:E; try done; split; cbn.
  - intros k' c. rewrite lookup_insert_Some. intros [[<- <-]|[_ H]]; [lia|]. specialize (Hlt _ _ H). lia.
  - intros k1 k2 c. rewrite !lookup_insert_Some.
    intros [[<- <-]|[? H1]] [[<- H2]|[? H2]]; try done.
    + specialize (Hlt _ _ H2). lia.
    + subst. specialize (Hlt _ _ H1). lia.
    + by eapply Hinj.
  - intros k' c' [_ H]%lookup_delete_Some. eauto.
  - intros k1 k2 c' [_ H1]%lookup_delete_Some [_ H2]%lookup_delete_Some. eauto.
  - intros k' c' [_ H]%lookup_delete_Some. eauto.
  - intros k1 k2 c' [_ H1]%lookup_delete_Some [_ H2]%lookup_delete_Some. eauto.
Qed.

Lemma dedup_inv_run ops d : dedup_inv d → dedup_inv (dedup_run d ops).
Proof. revert d. induction ops as [|o ops IH]; intros d Hd; [done|]. by apply IH, dedup_inv_step. Qed.

Lemma dedup_inv_new : dedup_inv Dedup.dedup_new.
Proof. split; cbn; [intros k c H|intros k k' c H]; by rewrite lookup_empty in H. Qed.

Lemma answer_app c l l' : answer c l = None → answer c (l ++ l') = answer c l'.
Proof.
  induction l as [|[c'|c' v|c'] l IH]; cbn; [done|done|..]; destruct (decide (c' = c)); done || apply IH.
Qed.

(** A step that does not end [key] keeps its channel and does not answer it. *)
Lemma dedup_step_waiting d o key c :
  dedup_inv d → Dedup.inflight d !! key = Some c → ends key o = false →
  Dedup.inflight (dedup_step d o) !! key = Some c ∧
  ∃ l, Dedup.channel_log (dedup_step d o) = Dedup.channel_log d ++ l ∧ answer c l = None.
Proof.
  intros [Hlt Hinj] Hc He. destruct o as [k|k v|k]; cbn in He |- *;
    unfold Dedup.check, Dedup.dedup_complete, Dedup.dedup_cancel.
  - destruct (Dedup.inflight d !! k) as [c'|] eqn:E; cbn.
    + split; [done|]. by exists [Subscribed c'].
    + split; [|exists []; by rewrite app_nil_r]. rewrite lookup_insert_ne; [done|]. intros ->. congruence.
  - apply bool_decide_eq_false in He. destruct (Dedup.inflight d !! k) as [c'|] eqn:E; cbn.
    2: { split; [done|]. exists []. by rewrite app_nil_r. }
    rewrite lookup_delete_ne by done. split; [done|]. exists [Sent c' v; Dropped c'].
    assert (c' ≠ c) by (intros ->; by eapply He, Hinj). cbn. by rewrite !decide_False.
  - apply bool_decide_eq_false in He. destruct (Dedup.inflight d !! k) as [c'|] eqn:E; cbn.
    2: { split; [done|]. exists []. by rewrite app_nil_r. }
    rewrite lookup_delete_ne by done. split; [done|]. exists [Dropped c'].
    assert (c' ≠ c) by (intros ->; by eapply He, Hinj). cbn. by rewrite !decide_False.
Qed.

Lemma dedup_run_waiting ops : ∀ d key c,
  dedup_inv d → Dedup.inflight d !! key = Some c → Forall (λ o, ends key o = false) ops →
  Dedup.inflight (dedup_run d ops) !! key = Some c ∧
  ∃ l, Dedup.channel_log (dedup_run d ops) = Dedup.channel_log d ++ l ∧ answer c l = None.
Proof.
  induction ops as [|o ops IH]; intros d key c Hd Hc Hops.
  { split; [done|]. exists []. by rewrite app_nil_r. }
  inversion_clear Hops as [|? ? Ho Hops'].
  destruct (dedup_step_waiting d o key c Hd Hc Ho) as (Hc1 & l1 & Hl1 & Ha1).
  destruct (IH (dedup_step d o) key c (dedup_inv_step d o Hd) Hc1 Hops') as (Hc2 & l2 & Hl2 & Ha2).
  split; [exact Hc2|]. exists (l1 ++ l2). cbn [dedup_run foldl]. unfold dedup_run in Hl2. rewrite Hl2, Hl1, app_assoc.
  split; [done|]. by rewrite answer_app.
Qed.

(** An execution of [key] is running after these operations. *)
Definition in_flight (key : string) (ops : list dedup_op) : bool :=
  foldl (λ b o, match o with
                | DCheck k => if decide (k = key) then true else b
                | DComplete k _ | DCancel k => if decide (k = key) then false else b
                end) false ops.

Lemma inflight_iff key ops :
  is_Some (Dedup.inflight (dedup_run Dedup.dedup_new ops) !! key) ↔ in_flight key ops = true.
Proof.
  unfold dedup_run, in_flight. induction ops as [|o ops IH] using rev_ind.
  { cbn. rewrite lookup_empty. split; [by intros [? ?]|done]. }
  rewrite !foldl_snoc. set (d := foldl dedup_step _ ops) in *. set (b := foldl _ false ops) in *.
  destruct o as [k|k v|k]; cbn; unfold Dedup.check, Dedup.dedup_complete, Dedup.dedup_cancel;
    destruct (Dedup.inflight d !! k) as [c|] eqn:E; cbn; destruct (decide (k = key)) as [->|Hne];
    rewrite ?lookup_insert_eq, ?lookup_delete_eq, ?lookup_insert_ne, ?lookup_delete_ne by done;
    rewrite ?E; try done; naive_solver.
Qed.

(** After any operations, a caller is told to execute exactly when no
    execution of the same key is running.  A caller told to wait waits as long
    as that execution runs, whatever happens to other keys and however many
    callers join, and is answered as soon as it ends: with the result it was
    completed with, or with the channel closed when it was cancelled. *)
Theorem dedup_answers_waiters pre key mid v :
  let d := dedup_run Dedup.dedup_new pre in
  ((Dedup.check d key).1 = Execute ↔ in_flight key pre = false) ∧
  ∀ c, (Dedup.check d key).1 = Wait c → Forall (λ o, ends key o = false) mid →
    let d1 := (Dedup.check d key).2 in
    let d2 := dedup_run d1 mid in
    (∃ l, Dedup.channel_log d2 = Dedup.channel_log d1 ++ l ∧ answer c l = None) ∧
    (∃ l, Dedup.channel_log (Dedup.dedup_complete d2 key v) = Dedup.channel_log d1 ++ l ∧ answer c l = Some (Some v)) ∧
    (∃ l, Dedup.channel_log (Dedup.dedup_cancel d2 key) = Dedup.channel_log d1 ++ l ∧ answer c l = Some None).
Proof.
  intros d. pose proof (dedup_inv_run pre _ dedup_inv_new) as Hd. fold d in Hd.
  pose proof (inflight_iff key pre) as Hin. fold d in Hin. unfold Dedup.check.
  destruct (Dedup.inflight d !! key) as [c0|] eqn:E; cbn [fst snd].
  2: { split; [|done]. split; [intros _|done]. destruct (in_flight key pre); [|done].
       destruct (proj2 Hin eq_refl). congruence. }
  split. { split; [done|]. rewrite (proj1 Hin) by eauto. done. }
  intros c [= ->] Hmid. set (d1 := Dedup.mkDedup _ _ _).
  assert (dedup_inv d1) as Hd1 by done. assert (Dedup.inflight d1 !! key = Some c) as Hc1 by done.
  destruct (dedup_run_waiting mid d1 key c Hd1 Hc1 Hmid) as (Hc2 & l & Hl & Ha). split_and!.
  - by exists l.
  - unfold Dedup.dedup_complete. rewrite Hc2. cbn [Dedup.channel_log]. rewrite Hl, <- app_assoc. eexists. split; [done|].
    rewrite answer_app by done. cbn. by rewrite decide_True.
  - unfold Dedup.dedup_cancel. rewrite Hc2. cbn [Dedup.channel_log]. rewrite Hl, <- app_assoc. eexists. split; [done|].
    rewrite answer_app by done. cbn. by rewrite decide_True.
Qed.
End DedupCorrect.

Lemma dedup_answers_waiters_witness :
  let d := dedup_run (V := nat) Dedup.dedup_new [DCheck "q"; DCheck "r"] in
  (Dedup.check d "q").1 = Wait 0 ∧
  ∃ l, Dedup.channel_log (Dedup.dedup_complete (dedup_run (Dedup.check d "q").2 [DComplete "r" 5]) "q" 7) =
         Dedup.channel_log (Dedup.check d "q").2 ++ l ∧ answer 0 l = Some (Some 7).
Proof.
  intros d. split; [reflexivity|].
  apply (proj2 (dedup_answers_waiters [DCheck "q"; DCheck "r"] "q" [DComplete "r" 5] 7) 0); [reflexivity|].
  repeat constructor.
Defined.

(** ** Cron fields *)

Inductive cron_field : Type :=
| Every
| EveryN (n : N)
| OneOf (n : N) (ns : list N).

Definition print_field (f : cron_field) : string :=
  match f with
  | Every => "*"
  | EveryN n => "*/" +:+ pretty n
  | OneOf n ns => join_with "," (pretty <$> n :: ns)
  end.

Definition field_means (f : cron_field) (v : N) : Prop :=
  match f with
  | Every => True
  | EveryN n => n ≠ 0%N ∧ (n | v)%N
  | OneOf n ns => v ∈ n :: ns
  end.

Definition field_in_range (f : cron_field) : Prop :=
  match f with
  | Every => True
  | EveryN n => (n ≤ u32_max)%N
  | OneOf n ns => Forall (λ m, (m ≤ u32_max)%N) (n :: ns)
  end.

Lemma parse_u32_pretty n : (n ≤ u32_max)%N → parse_u32 (pretty n) = Some n.
Proof.
  intros Hn. unfold parse_u32. rewrite parse_u64_pretty by (unfold u32_max in Hn; unfold u64_max; lia).
  by rewrite (proj2 (N.leb_le _ _) Hn).
Qed.

(** A text that starts with a digit and has a character that is none is not a
    number. *)
Lemma parse_u32_not_digits (n : N) s :
  str_all (λ a, bool_decide (is_Some (digit_value a))) s = false → parse_u32 (pretty n +:+ s) = None.
Proof.
  intros Hs. unfold parse_u32, parse_u64.
  assert (strip_prefix_char "+" (pretty n +:+ s) = None) as ->.
  { pose proof (pretty_digits n) as H. pose proof (pretty_nonempty n).
    destruct (pretty n) as [|a t]; [done|]. rewrite str_app_cons. cbn in H |- *.
    destruct (Ascii.eqb_spec a "+") as [->|]; [done|done]. }
  cbn [default from_option id]. unfold parse_digits.
  destruct (pretty n +:+ s) as [|a t] eqn:E; [done|]. rewrite <- E.
  destruct (digits_value 0 (pretty n +:+ s)) as [m|] eqn:Ed; [|done].
  apply digits_value_digits in Ed. rewrite str_all_app, Hs, andb_false_r in Ed. done.
Qed.

Lemma trim_pretty (n : N) : trim (pretty n) = pretty n.
Proof.
  apply trim_id; [apply pretty_first_ok|].
  pose proof (pretty_no_space n) as H. pose proof (pretty_nonempty n) as Hne. revert H Hne.
  induction (pretty n) as [|a [|b s] IH]; intros H Hne; [done|..]; cbn in H |- *.
  - by apply andb_prop in H as [? _].
  - apply andb_prop in H as [_ H]. by apply IH.
Qed.

Lemma list_field_matches_spec (n : N) (ns : list N) v :
  Forall (λ m, (m ≤ u32_max)%N) (n :: ns) →
  list_field_matches (join_with "," (pretty <$> n :: ns)) v = bool_decide (v ∈ n :: ns).
Proof.
  intros Hr. unfold list_field_matches. destruct ns as [|n' ns].
  { inversion_clear Hr. cbn [fmap list_fmap join_with]. rewrite parse_u32_pretty by done.
    apply eq_bool_prop_intro. rewrite bool_decide_spec, Is_true_true, N.eqb_eq, list_elem_of_singleton. done. }
  rewrite !fmap_cons, join_with_cons, parse_u32_not_digits by done.
  rewrite <- join_with_cons, <- !fmap_cons.
  set (l := n :: n' :: ns) in *.
  assert (trim <$> split_on (is_char ",") (join_with "," (pretty <$> l)) = pretty <$> l) as Hsplit.
  { rewrite (split_join "," "" ""); [|done..|].
    - rewrite <- list_fmap_compose. apply list_fmap_ext. intros _ m _. apply trim_pretty.
    - apply Forall_fmap, Forall_forall. intros m _. cbn [compose]. by apply digits_avoid. }
  apply eq_bool_prop_intro. rewrite Is_true_true, bool_decide_spec, existsb_exists. split.
  - intros (w & Hw & Hp%bool_decide_eq_true).
    assert (trim w ∈ pretty <$> l) as (m & Em & Hm)%list_elem_of_fmap
      by (rewrite <- Hsplit; apply list_elem_of_fmap_2; by apply list_elem_of_In).
    rewrite Em, parse_u32_pretty in Hp; [by injection Hp as <-|]. rewrite Forall_forall in Hr. by apply Hr.
  - intros Hv. assert (pretty v ∈ trim <$> split_on (is_char ",") (join_with "," (pretty <$> l))) as Hin
      by (rewrite Hsplit; by apply list_elem_of_fmap_2).
    apply list_elem_of_fmap in Hin as (w & Ew & Hw). exists w. split; [by apply list_elem_of_In|].
    rewrite <- Ew. apply bool_decide_eq_true, parse_u32_pretty. rewrite Forall_forall in Hr. by apply Hr.
Qed.

Lemma print_list_first (n : N) (ns : list N) :
  ∃ a s, join_with "," (pretty <$> n :: ns) = String a s ∧ is_Some (digit_value a).
Proof.
  pose proof (pretty_digits n) as H. pose proof (pretty_nonempty n) as Hne.
  assert (∃ t, join_with "," (pretty <$> n :: ns) = pretty n +:+ t) as [t ->].
  { destruct ns as [|n' ns]; [exists ""; by rewrite str_app_nil|].
    rewrite !fmap_cons, join_with_cons. eauto. }
  destruct (pretty n) as [|a s]; [done|]. exists a, (s +:+ t). split; [done|].
  cbn in H. by apply andb_prop in H as [?%bool_decide_eq_true _].
Qed.

Lemma field_matches_print f v : field_in_range f → field_matches (print_field f) v = true ↔ field_means f v.
Proof.
  intros Hr. destruct f as [|n|n ns]; [done| |].
  - unfold field_matches, print_field. rewrite decide_False by done.
    unfold str_strip_prefix. rewrite starts_with_app, str_drop_exact, parse_u32_pretty by done.
    cbn [field_means]. rewrite andb_true_iff, N.ltb_lt, N.eqb_eq. split.
    + intros [Hn Hv]. split; [lia|]. by apply N.Lcm0.mod_divide.
    + intros [Hn Hv]. split; [lia|]. by apply N.Lcm0.mod_divide.
  - cbn [print_field field_means].
    rewrite <- (bool_decide_eq_true (v ∈ n :: ns)), <- list_field_matches_spec by done.
    destruct (print_list_first n ns) as (a & s & E & Ha). unfold field_matches.
    assert (a ≠ "*"%char) as Hne by (intros ->; by destruct Ha).
    rewrite decide_False by (rewrite E; congruence).
    unfold str_strip_prefix. replace (starts_with "*/" _) with false; [done|].
    rewrite E. unfold starts_with. cbn [String.prefix]. destruct (ascii_dec "*" a); congruence.
Qed.

Lemma print_field_word f :
  print_field f ≠ "" ∧ str_all (λ a, negb (is_whitespace a)) (print_field f) = true.
Proof.
  destruct f as [|n|n ns]; [done| |].
  - split; [done|]. cbn [print_field]. rewrite str_all_app. by rewrite pretty_no_space.
  - split.
    + destruct (print_list_first n ns) as (a & s & E & _). cbn [print_field]. by rewrite E.
    + cbn [print_field]. generalize n. induction ns as [|n' ns IH]; intros m; [apply pretty_no_space|].
      rewrite !fmap_cons, join_with_cons, !str_all_app, pretty_no_space. apply IH.
Qed.

Lemma split_whitespace_word w rest :
  w ≠ "" → str_all (λ a, negb (is_whitespace a)) w = true →
  split_whitespace (w +:+ String " " rest) = w :: split_whitespace rest ∧ split_whitespace w = [w].
Proof.
  intros Hne Hw. unfold split_whitespace. split.
  - rewrite split_on_app by done. cbn [split_on]. change (is_whitespace " ") with true. cbv iota.
    rewrite str_app_nil, filter_cons, decide_True by done. done.
  - rewrite split_on_none by done. rewrite filter_cons, decide_True by done. done.
Qed.

(** A schedule whose minute and hour fields are a star, a step or a list of
    numbers runs at exactly the minutes and hours the fields stand for: always,
    at the multiples of a positive step, or at the listed values.  The rest of
    the expression, the day, month and weekday fields, is not looked at. *)
Theorem cron_means_its_fields m h rest minute hour :
  field_in_range m → field_in_range h →
  (cron_matches (print_field m +:+ " " +:+ print_field h +:+ " " +:+ rest) minute hour = true ↔
     field_means m minute ∧ field_means h hour) ∧
  (cron_matches (print_field m +:+ " " +:+ print_field h) minute hour = true ↔
     field_means m minute ∧ field_means h hour).
Proof.
  intros Hm Hh. unfold cron_matches.
  assert (∀ s, " " +:+ s = String " " s) as Hsp by done. rewrite !Hsp.
  destruct (print_field_word m) as [Hm1 Hm2], (print_field_word h) as [Hh1 Hh2].
  rewrite !(proj1 (split_whitespace_word (print_field m) _ Hm1 Hm2)).
  rewrite (proj1 (split_whitespace_word (print_field h) rest Hh1 Hh2)).
  rewrite (proj2 (split_whitespace_word (print_field h) rest Hh1 Hh2)).
  by rewrite !andb_true_iff, !field_matches_print.
Qed.

Lemma cron_means_its_fields_witness :
  cron_matches "*/15 2,3 1 1 *" 30 3 = true ∧
  (cron_matches (print_field (EveryN 15) +:+ " " +:+ print_field (OneOf 2 [3%N])) 30 3 = true ↔
    field_means (EveryN 15) 30 ∧ field_means (OneOf 2 [3%N]) 3).
Proof.
  split; [vm_compute; reflexivity|].
  apply (cron_means_its_fields (EveryN 15) (OneOf 2 [3%N]) "1 1 *" 30 3).
  - vm_compute. discriminate.
  - repeat constructor; vm_compute; discriminate.
Defined.

(** ** The schedule registry *)

(** The history keeps the newest executions up to its bound. *)
Lemma schedule_history_newest r es :
  sched_history r = [] →
  Schedules.history (foldl Schedules.record_execution r es) None = last_n (max_history r) es ∧
  ∀ id, Schedules.history (foldl Schedules.record_execution r es) (Some id) =
          filter (λ e, schedule_id e = id) (last_n (max_history r) es).
Proof.
  intros Hr. assert (sched_history (foldl Schedules.record_execution r es) = last_n (max_history r) es) as E.
  { rewrite <- push_drain_all, <- Hr. clear Hr. revert r. induction es as [|e es IH]; intros r; [done|].
    cbn [foldl]. by rewrite IH. }
  split; [exact E|]. intros id. cbn. by rewrite E.
Qed.

Lemma due_iff iter r minute hour s :
  (∀ m, iter m ≡ₚ map_to_list m) →
  s ∈ Schedules.due iter r minute hour ↔
  ∃ id, schedules r !! id = Some s ∧ enabled s = true ∧ cron_matches (cron s) minute hour = true.
Proof.
  intros Hiter. unfold Schedules.due. rewrite list_elem_of_filter, list_elem_of_fmap.
  rewrite Is_true_true, andb_true_iff. setoid_rewrite Hiter. split.
  - intros [[He Hc] ([id s'] & -> & Hin%elem_of_map_to_list)]. eauto.
  - intros (id & Hs & He & Hc). split; [done|]. exists (id, s). split; [done|]. by apply elem_of_map_to_list.
Qed.
