(* ===== verification/Prepared.v ===== *)
(** * Prepared: prepared statements, bound parameters and query templates

    Models [crates/fuse-server/src/prepared.rs], the PREPARE and EXECUTE
    branches of [query_handler] and [bind_params] in [api.rs], and
    [templates.rs].  Parsing a float is a parameter; a slice out of range is a
    panic. *)

From S2P Require Import Prelude Strs Json Sorting JsonRef.
From stdpp Require Import base list gmap strings sets pretty.
From Stdlib Require Import NArith ZArith Lia Ascii SpecFloat.

(** ** Statements *)

Record PreparedStatement : Type := mkPrepared { p_query : string; param_count : N }.
Abbreviation PreparedStatementStore := (gmap string PreparedStatement).
Definition new_store : PreparedStatementStore := ∅.

(** [len < 8 || !trimmed[..8].eq_ignore_ascii_case(keyword)] is false. *)
Definition has_keyword (keyword trimmed : string) : bool :=
  (8 <=? String.length trimmed) && eq_ignore_case (str_take 8 trimmed) keyword.

Definition parse_prepare (query : string) : option (string * string) :=
  let trimmed := trim query in
  if has_keyword "prepare " trimmed then
    let rest := trim (str_drop 8 trimmed) in
    let lower_rest := to_lowercase rest in
    as_pos ← find_sub " as " lower_rest;
    let name := trim (str_take as_pos rest) in
    let template := trim (str_drop (as_pos + 4) rest) in
    if bool_decide (name = "") || bool_decide (template = "") then None else Some (name, template)
  else None.

(** The characters of the quotes. *)
Definition SQ : ascii := "'".
Definition DQ : ascii := ascii_of_nat 34.

Section Values.
Context `{J : JsonOps} (parse_f64 : string → option spec_float).

(** [Value::from(f)]: a float that is not finite is null. *)
Definition json_f64 (f : spec_float) : Value := default JNull (JNumber <$> number_from_f64 f).

(** [s[1..s.len() - 1]]: out of range when the length is one. *)
Definition inner_slice (s : string) : outcome Empty_set string :=
  if String.length s <=? 1 then Panic else Ok (str_take (String.length s - 2) (str_drop 1 s)).

Definition parse_param_value (s : string) : outcome Empty_set Value :=
  if (starts_with_char SQ s && ends_with_char SQ s) || (starts_with_char DQ s && ends_with_char DQ s)
  then inner ← inner_slice s; Ok (JString inner)
  else if eq_ignore_case s "null" then Ok JNull
  else if eq_ignore_case s "true" then Ok (JBool true)
  else if eq_ignore_case s "false" then Ok (JBool false)
  else match parse_i64 s with
       | Some n => Ok (JNumber (NInt n))
       | None => match parse_f64 s with
                 | Some n => Ok (json_f64 n)
                 | None => Ok (JString s)
                 end
       end.

Definition parse_execute (query : string) : outcome Empty_set (option (string * list Value)) :=
  let trimmed := trim query in
  if has_keyword "execute " trimmed then
    let rest := trim (str_drop 8 trimmed) in
    let lower_rest := to_lowercase rest in
    '(name, params) ←
      match find_sub " using " lower_rest with
      | Some pos =>
          let params_str := trim (str_drop (pos + 7) rest) in
          params ← mapM (λ s, parse_param_value (trim s)) (split_on (is_char ",") params_str);
          Ok (trim (str_take pos rest), params)
      | None => Ok (trim (trim_end_while (is_char ";") rest), [])
      end;
    Ok (if bool_decide (name = "") then None else Some (name, params))
  else Ok None.

(** ** Placeholders *)

Definition is_digit (a : ascii) : bool := bool_decide (is_Some (digit_value a)).

(** The digits at the start of [s], and what follows them. *)
Fixpoint span_digits (s : string) : string * string :=
  match s with
  | EmptyString => ("", "")
  | String a s' => if is_digit a then let '(ds, rest) := span_digits s' in (String a ds, rest) else ("", s)
  end.

(** The loop over the bytes, on the rest of the query; it goes at least one byte
    further each time. *)
Fixpoint count_params_go (fuel : nat) (s : string) (max_param : N) : N :=
  match fuel, s with
  | 0, _ | _, EmptyString => max_param
  | S fuel, String a s' =>
      if Ascii.eqb a "$" then
        let '(ds, rest) := span_digits s' in
        count_params_go fuel rest
          (match parse_u64 ds with
           | Some n => if (max_param <? n)%N then n else max_param
           | None => max_param
           end)
      else count_params_go fuel s' max_param
  end.
Definition count_params (query : string) : N := count_params_go (String.length query) query 0.

(** The SQL text of a parameter. *)
Definition quoted (s : string) : string := "'" +:+ replace "'" "''" s +:+ "'".
Definition literal (v : Value) : string :=
  match v with
  | JString s => quoted s
  | JNumber _ => to_string v
  | JBool b => if b then "true" else "false"
  | JNull => "NULL"
  | other => quoted (to_string other)
  end.

Definition placeholder (i : nat) : string := "$" +:+ pretty (N.of_nat (i + 1)).

Definition bind_positional (template : string) (params : list Value) : string :=
  foldl (λ result '(i, v), replace (placeholder i) (literal v) result) template (reverse (enumerate params)).

(** *** Named parameters of a request ([bind_params] of [api.rs]) *)

Definition bind_params (iter : gmap string Value → list (string * Value)) (query : string) (params : gmap string Value) : string :=
  let sorted := sort_by (λ a b, Nat.compare (String.length b.1) (String.length a.1)) (iter params) in
  foldl (λ result '(key, val), replace ("$" +:+ key) (literal val) result) query sorted.

(** ** The statements of a session *)

Inductive Prepared : Type :=
| Confirmed (name : string) (count : N) (template : string)   (** PREPARE was handled *)
| WrongCount (expected : N) (got : nat)
| NotFound (name : string)
| Continue (query : string).                                   (** go on with this query *)

Definition handle_prepared (store : PreparedStatementStore) (query : string)
    : outcome Empty_set (Prepared * PreparedStatementStore) :=
  match parse_prepare query with
  | Some (name, template) =>
      let count := count_params template in
      Ok (Confirmed name count template, <[name := mkPrepared template count]> store)
  | None =>
      executed ← parse_execute query;
      Ok (match executed with
          | Some (name, params) =>
              match store !! name with
              | Some s =>
                  if negb (bool_decide (params = [])) && negb (N.of_nat (length params) =? param_count s)%N
                  then (WrongCount (param_count s) (length params), store)
                  else (Continue (bind_positional (p_query s) params), store)
              | None => (NotFound name, store)
              end
          | None => (Continue query, store)
          end)
  end.
End Values.

(** ** [templates.rs] *)

Record QueryTemplate : Type := mkTemplate {
  t_name : string;
  template : string;
  t_params : list string;
  t_description : option string;
}.

Definition render_step (values : gmap string string) (result : outcome string string) (param : string)
    : outcome string string :=
  text ← result;
  match values !! param with
  | Some val => Ok (replace ("{{" +:+ param +:+ "}}") val text)
  | None => Err ("missing parameter: " +:+ param)
  end.
Definition render (t : QueryTemplate) (values : gmap string string) : outcome string string :=
  foldl (render_step values) (Ok (template t)) (t_params t).

(** * What binding parameters does to a query

    A template is text with placeholders in between; binding puts the SQL text of
    each parameter in its place, provided no parameter's text contains a dollar
    sign.  Preparing a statement and executing it with numbers composes the two
    statements' parsers, the placeholder count and the binding.  Without the
    proviso a parameter can change the query around it. *)

(** ** Replacing in text *)

Definition no_dollar (s : string) : Prop := str_all (λ a, negb (Ascii.eqb a "$")) s = true.

Section Replace.
Context (c : ascii) (pat rep : string).

(** Text without the first character of the pattern is passed over. *)
Lemma replace_skip s t :
  str_all (λ a, negb (Ascii.eqb a c)) s = true →
  replace (String c pat) rep (s +:+ t) = s +:+ replace (String c pat) rep t.
Proof.
  unfold replace. induction s as [|a s IH]; intros H; [done|]. cbn in H. apply andb_prop in H as [Ha Hs].
  rewrite !str_app_cons. cbn [replace_go]. unfold starts_with. cbn [String.prefix].
  destruct (ascii_dec c a) as [<-|Hne]; [by rewrite Ascii.eqb_refl in Ha|]. by rewrite IH.
Qed.

Lemma replace_go_skip s t : replace_go (String c pat) rep (String.length s) (s +:+ t) = replace_go (String c pat) rep 0 t.
Proof. induction s as [|a s IH]; [done|]. rewrite str_app_cons. cbn [String.length replace_go]. apply IH. Qed.

Lemma replace_match t : replace (String c pat) rep (String c pat +:+ t) = rep +:+ replace (String c pat) rep t.
Proof.
  unfold replace. pose proof (starts_with_app (String c pat) t) as H. rewrite str_app_cons in *.
  cbn [replace_go]. rewrite H. cbn [String.length]. f_equal. apply replace_go_skip.
Qed.

Lemma replace_nomatch a t :
  starts_with (String c pat) (String a t) = false →
  replace (String c pat) rep (String a t) = String a (replace (String c pat) rep t).
Proof. intros H. unfold replace. cbn [replace_go]. by rewrite H. Qed.
End Replace.

(** ** Numbers that start like others *)

Lemma digits_value_app s t acc :
  digits_value acc (s +:+ t) = digits_value acc s ≫= λ n, digits_value n t.
Proof.
  revert acc. induction s as [|a s IH]; intros acc; [done|]. rewrite str_app_cons. cbn.
  destruct (digit_value a); cbn; [apply IH|done].
Qed.

Lemma digits_value_grows s : ∀ acc n, digits_value acc s = Some n → (acc ≤ n)%N.
Proof.
  induction s as [|a s IH]; intros acc n H; cbn in H; [by injection H as ->|].
  destruct (digit_value a) as [d|]; cbn in H; [|done]. apply IH in H. lia.
Qed.

(** A printed number is a prefix of a text that starts with a printed number no
    larger, and then with something else than a digit, only when they are the
    same number. *)
Lemma pretty_prefix (k j : N) t :
  (j ≤ k)%N → (∀ a s, t = String a s → is_digit a = false) →
  starts_with (pretty k) (pretty j +:+ t) = true → j = k.
Proof.
  intros Hle Ht [u Hu]%starts_with_iff.
  assert (∃ w, pretty j = pretty k +:+ w) as [w Hw].
  { pose proof (pretty_digits k) as Hd. revert Hd Hu. generalize (pretty k) as p, (pretty j) as q.
    intros p. induction p as [|a p IH]; intros q Hd Hu; [by exists q|].
    cbn in Hd. apply andb_prop in Hd as [Ha Hd]. destruct q as [|b q].
    - change ("" +:+ t) with t in Hu. rewrite str_app_cons in Hu.
      apply Ht in Hu. unfold is_digit in Hu. congruence.
    - rewrite !str_app_cons in Hu. injection Hu as -> Hu. destruct (IH q Hd Hu) as [w ->].
      exists w. by rewrite str_app_cons. }
  pose proof (parse_pretty j) as Hj. unfold parse_digits in Hj. rewrite Hw in Hj.
  assert (digits_value 0 (pretty k +:+ w) = Some j) as Hj' by by destruct (pretty k +:+ w).
  rewrite digits_value_app in Hj'. pose proof (parse_pretty k) as Hk. unfold parse_digits in Hk.
  assert (digits_value 0 (pretty k) = Some k) as Hk' by by destruct (pretty k).
  rewrite Hk' in Hj'. cbn in Hj'. apply digits_value_grows in Hj'. lia.
Qed.

(** ** Templates *)

Inductive slot : Type :=
| Hole (i : nat)            (** the placeholder of parameter [i], counted from 0 *)
| Filled (text : string).

Definition slot_text (s : slot) : string := match s with Hole i => placeholder i | Filled r => r end.

(** Slots, each with the text that follows it. *)
Definition slots_text (ps : list (slot * string)) : string :=
  foldr (λ p acc, slot_text p.1 +:+ (p.2 +:+ acc)) "" ps.

(** The text between has no dollar sign, and a placeholder is followed by
    something else than a digit. *)
Fixpoint slots_ok (ps : list (slot * string)) : Prop :=
  match ps with
  | [] => True
  | (s, t) :: ps =>
      no_dollar t ∧
      match s with
      | Filled r => no_dollar r
      | Hole _ => match t with EmptyString => ps = [] | String a _ => is_digit a = false end
      end ∧ slots_ok ps
  end.

Definition fill_one (k : nat) (r : string) (p : slot * string) : slot * string :=
  match p.1 with Hole i => if decide (i = k) then (Filled r, p.2) else p | Filled _ => p end.

Lemma slots_ok_fill k r ps : no_dollar r → slots_ok ps → slots_ok (fill_one k r <$> ps).
Proof.
  intros Hr. induction ps as [|[s t] ps IH]; [done|]. intros (Ht & Hs & Hps). rewrite fmap_cons.
  destruct s as [i|q]; cbn [fill_one fst snd slots_ok]; [|auto].
  destruct (decide (i = k)); cbn [slots_ok]; split_and!; auto. destruct t; [by subst|done].
Qed.

Lemma slot_tail_nondigit t ps :
  (match t with EmptyString => ps = [] | String a _ => is_digit a = false end) →
  ∀ a s, t +:+ slots_text ps = String a s → is_digit a = false.
Proof.
  intros H a s. destruct t as [|b t]; [subst; done|]. rewrite str_app_cons. intros [= <- _]. done.
Qed.

Lemma replace_slots k r ps :
  slots_ok ps → Forall (λ p, match p.1 with Hole i => i ≤ k | Filled _ => True end) ps →
  replace (placeholder k) r (slots_text ps) = slots_text (fill_one k r <$> ps).
Proof.
  intros Hok Hle. unfold placeholder. change ("$" +:+ ?s) with (String "$" s).
  induction ps as [|[s t] ps IH]; [done|]. destruct Hok as (Ht & Hs & Hok). inversion_clear Hle as [|? ? Hi Hle'].
  rewrite fmap_cons. cbn [slots_text foldr fst snd]. fold (slots_text ps). specialize (IH Hok Hle').
  destruct s as [i|q]; cbn [slot_text fill_one fst snd] in *.
  - destruct (decide (i = k)) as [->|Hne]; cbn [slots_text foldr fst snd slot_text]; fold (slots_text (fill_one k r <$> ps)).
    + unfold placeholder. change ("$" +:+ ?s) with (String "$" s).
      rewrite replace_match, replace_skip by exact Ht. by rewrite IH.
    + unfold placeholder. rewrite <- str_app_assoc. change ("$" +:+ ?s) with (String "$" s).
      rewrite replace_nomatch.
      * rewrite !replace_skip; [by rewrite IH| exact Ht|].
        eapply str_all_impl; [|apply (digits_avoid "$" (N.of_nat (i + 1)))]; [|done].
        intros a. unfold is_char. by rewrite Ascii.eqb_sym.
      * unfold starts_with. cbn [String.prefix]. destruct (ascii_dec "$" "$"); [|done].
        destruct (starts_with (pretty (N.of_nat (k + 1))) (pretty (N.of_nat (i + 1)) +:+ (t +:+ slots_text ps))) eqn:E; [|exact E].
        apply pretty_prefix in E; [lia|lia|by apply slot_tail_nondigit].
  - cbn [slots_text foldr fst snd slot_text]. fold (slots_text (fill_one k r <$> ps)).
    rewrite !replace_skip by done. by rewrite IH.
Qed.

Section Binding.
Context `{J : JsonOps}.

Definition fill (params : list Value) (p : slot * string) : slot * string :=
  match p.1 with
  | Hole i => match params !! i with Some v => (Filled (literal v), p.2) | None => p end
  | Filled _ => p
  end.

Lemma bind_positional_snoc text params v :
  bind_positional text (params ++ [v]) =
    bind_positional (replace (placeholder (length params)) (literal v) text) params.
Proof.
  unfold bind_positional, enumerate. rewrite enumerate_from_app, reverse_app. cbn. done.
Qed.

Lemma bind_slots params : ∀ t0 ps,
  no_dollar t0 → slots_ok ps → Forall (λ v, no_dollar (literal v)) params →
  Forall (λ p, match p.1 with Hole i => i < length params | Filled _ => True end) ps →
  bind_positional (t0 +:+ slots_text ps) params = t0 +:+ slots_text (fill params <$> ps).
Proof.
  induction params as [|v params IH] using rev_ind; intros t0 ps Ht0 Hok Hlit Hin.
  - cbn. f_equal. f_equal. rewrite <- (list_fmap_id ps) at 1. apply list_fmap_ext.
    intros j [s t] Hj. destruct s as [i|]; [|done]. pose proof (Forall_lookup_1 _ _ _ _ Hin Hj) as Hi. cbn in Hi. lia.
  - apply Forall_app in Hlit as [Hlit Hv]. inversion_clear Hv as [|? ? Hv' _]. rewrite bind_positional_snoc.
    set (n := length params) in *.
    assert (replace (placeholder n) (literal v) (t0 +:+ slots_text ps) =
            t0 +:+ slots_text (fill_one n (literal v) <$> ps)) as ->.
    { rewrite <- replace_slots; [unfold placeholder; change ("$" +:+ ?s) with (String "$" s); by apply replace_skip|done|].
      eapply Forall_impl; [exact Hin|]. intros [[i|] t]; cbn; [|done]. rewrite length_app. cbn. lia. }
    rewrite IH; [|done|by apply slots_ok_fill|done|].
    + do 2 f_equal. rewrite <- list_fmap_compose. apply list_fmap_ext. intros j [[i|q] t] Hj; [|done].
      cbn [compose fill_one fill fst snd]. destruct (decide (i = n)) as [->|Hne]; cbn [fill fst snd].
      * by rewrite (list_lookup_middle params [] v n).
      * pose proof (Forall_lookup_1 _ _ _ _ Hin Hj) as Hi. cbn in Hi. rewrite length_app in Hi. cbn in Hi.
        rewrite lookup_app_l by lia. done.
    + apply Forall_fmap. eapply Forall_impl; [exact Hin|]. intros [[i|] t]; cbn; [|done].
      rewrite length_app. cbn. intros Hi. destruct (decide (i = n)); cbn; [done|lia].
Qed.

(** A template: text, then numbered placeholders each followed by text. *)
Definition holes (l : list (nat * string)) : list (slot * string) := (λ p, (Hole p.1, p.2)) <$> l.
Definition template_text (t0 : string) (l : list (nat * string)) : string := t0 +:+ slots_text (holes l).

(** The query meant: the placeholders replaced by what the parameters stand for. *)
Definition bound_text (text : nat → string) (t0 : string) (l : list (nat * string)) : string :=
  t0 +:+ foldr (λ p acc, text p.1 +:+ (p.2 +:+ acc)) "" l.

Lemma bind_template t0 l params :
  no_dollar t0 → slots_ok (holes l) → Forall (λ p, p.1 < length params) l →
  Forall (λ v, no_dollar (literal v)) params →
  bind_positional (template_text t0 l) params =
    bound_text (λ i, from_option literal "" (params !! i)) t0 l.
Proof.
  intros Ht0 Hok Hin Hlit. unfold template_text, bound_text. rewrite bind_slots; [|done..|].
  - f_equal. clear Hok. induction Hin as [|[i t] l Hi _ IH]; [done|].
    cbn [holes fmap list_fmap slots_text foldr fst snd fill] in *.
    destruct (lookup_lt_is_Some_2 params i Hi) as [v Hv]. cbn [fst] in Hv. rewrite Hv.
    cbn [slot_text from_option fst snd]. do 2 f_equal. exact IH.
  - apply Forall_fmap. eapply Forall_impl; [exact Hin|]. done.
Qed.

(** Binding positional parameters replaces every placeholder of the template
    by the SQL text of its parameter, in one go as far as the result shows, when
    the template's text has no other dollar sign, every placeholder has a
    parameter and is not followed by a digit, and no parameter's text contains a
    dollar sign. *)
Theorem bind_positional_fills t0 l params :
  no_dollar t0 → slots_ok (holes l) → Forall (λ p, p.1 < length params) l →
  Forall (λ v, no_dollar (literal v)) params →
  bind_positional (template_text t0 l) params =
    bound_text (λ i, from_option literal "" (params !! i)) t0 l.
Proof. apply bind_template. Qed.
End Binding.

Lemma bind_positional_fills_witness :
  let t0 := "SELECT * FROM t WHERE a = " in
  let l := [(0, " AND b = "); (1, " OR c = "); (0, "")] in
  template_text t0 l = "SELECT * FROM t WHERE a = $1 AND b = $2 OR c = $1" ∧
  bind_positional (J := RefJson) (template_text t0 l) [JString "o'x"; JBool true] =
    bound_text (λ i, from_option (literal (J := RefJson)) "" ([JString "o'x"; JBool true] !! i)) t0 l.
Proof.
  intros t0 l. split; [reflexivity|].
  apply (bind_positional_fills (J := RefJson) t0 l); [reflexivity| |repeat constructor|repeat constructor].
  cbn. repeat split.
Defined.

(** A parameter whose text contains a placeholder is filled in again, and its
    quotes no longer hold: the second value ends inside the first. *)
Lemma parameter_reopens_query :
  bind_positional (J := RefJson) "SELECT * FROM t WHERE a = $1 AND b = $2"
    [JString " OR 1 = 1 --"; JString "$1"] =
  "SELECT * FROM t WHERE a = ' OR 1 = 1 --' AND b = '' OR 1 = 1 --''".
Proof. vm_compute. reflexivity. Qed.

(** ** Counting placeholders *)

Lemma span_digits_app ds t :
  str_all is_digit ds = true → (∀ a s, t = String a s → is_digit a = false) → span_digits (ds +:+ t) = (ds, t).
Proof.
  intros Hds Ht. induction ds as [|a ds IH].
  - change ("" +:+ t) with t. destruct t as [|a t]; [done|]. cbn. by rewrite (Ht a t eq_refl).
  - cbn in Hds. apply andb_prop in Hds as [Ha Hds]. rewrite str_app_cons. cbn. by rewrite Ha, IH.
Qed.

Lemma count_skip s t m : ∀ fuel,
  no_dollar s → String.length (s +:+ t) ≤ fuel →
  ∃ fuel', String.length t ≤ fuel' ∧ count_params_go fuel (s +:+ t) m = count_params_go fuel' t m.
Proof.
  induction s as [|a s IH]; intros fuel Hs Hf; [by exists fuel|]. rewrite str_app_cons in *. cbn in Hs, Hf.
  apply andb_prop in Hs as [Ha Hs]. apply negb_true_iff in Ha. destruct fuel as [|fuel]; [lia|].
  cbn [count_params_go]. rewrite Ha. apply IH; [done|lia].
Qed.

Lemma pretty_is_digits (n : N) : str_all is_digit (pretty n) = true.
Proof. apply pretty_digits. Qed.

(** The largest placeholder number. *)
Definition max_hole (m : N) (l : list (nat * string)) : N :=
  foldl (λ m p, N.max m (N.of_nat (p.1 + 1))) m l.

Lemma count_holes l : ∀ m fuel,
  slots_ok (holes l) → Forall (λ p, (N.of_nat (p.1 + 1) ≤ u64_max)%N) l →
  String.length (slots_text (holes l)) ≤ fuel →
  count_params_go fuel (slots_text (holes l)) m = max_hole m l.
Proof.
  induction l as [|[i t] l IH]; intros m fuel Hok Hr Hf; [by destruct fuel|].
  destruct Hok as (Ht & Hs & Hok). inversion_clear Hr as [|? ? Hi Hr']. cbn [fst snd] in *.
  cbn [holes fmap list_fmap slots_text foldr fst snd slot_text] in *. fold (holes l) in *. fold (slots_text (holes l)) in *.
  unfold placeholder in *. rewrite <- str_app_assoc in *. change ("$" +:+ ?s) with (String "$" s) in *.
  destruct fuel as [|fuel]; [cbn in Hf; lia|]. cbn [count_params_go]. rewrite Ascii.eqb_refl.
  rewrite span_digits_app; [|apply pretty_is_digits|by apply slot_tail_nondigit].
  rewrite parse_u64_pretty by done.
  cbn [String.length] in Hf. rewrite str_length_app in Hf.
  destruct (count_skip t (slots_text (holes l)) (if (m <? N.of_nat (i + 1))%N then N.of_nat (i + 1) else m) fuel)
    as (fuel' & Hf' & ->); [done|lia|].
  rewrite IH by done. cbn [max_hole foldl fst]. f_equal. destruct (N.ltb_spec m (N.of_nat (i + 1))); lia.
Qed.

Lemma count_template t0 l :
  no_dollar t0 → slots_ok (holes l) → Forall (λ p, (N.of_nat (p.1 + 1) ≤ u64_max)%N) l →
  count_params (template_text t0 l) = max_hole 0 l.
Proof.
  intros Ht0 Hok Hr. unfold count_params, template_text.
  destruct (count_skip t0 (slots_text (holes l)) 0 _ Ht0 (le_n _)) as (fuel & Hf & ->).
  by apply count_holes.
Qed.

(** ** Reading the statements *)

Lemma find_sub_after c p s t :
  str_all (λ a, negb (Ascii.eqb a c)) s = true →
  find_sub (String c p) (s +:+ String c p +:+ t) = Some (String.length s).
Proof.
  induction s as [|a s IH]; intros H; [apply (find_sub_prefix (String c p) t)|].
  cbn in H. apply andb_prop in H as [Ha Hs]. rewrite str_app_cons. cbn [find_sub].
  unfold starts_with. cbn [String.prefix]. destruct (ascii_dec c a) as [<-|]; [by rewrite Ascii.eqb_refl in Ha|].
  by rewrite IH.
Qed.

Lemma no_space_lower s :
  str_all (λ a, negb (is_whitespace a)) s = true →
  str_all (λ a, negb (Ascii.eqb a " ")) (to_lowercase s) = true.
Proof.
  induction s as [|a s IH]; [done|]. cbn. intros [Ha Hs]%andb_prop. rewrite IH, andb_true_r by done.
  clear -Ha. destruct a as [[] [] [] [] [] [] [] []]; done.
Qed.

(** A statement of the form keyword, name, separator, rest. *)
Lemma keyword_split kw name sep rest :
  String.length kw = 8 → has_keyword (to_lowercase kw) (kw +:+ name +:+ sep +:+ rest) = true.
Proof.
  intros Hk. unfold has_keyword. rewrite !str_length_app, Hk. cbn [Nat.leb Nat.add andb].
  rewrite <- Hk, str_take_app. unfold eq_ignore_case.
  assert (∀ s, to_lowercase (to_lowercase s) = to_lowercase s) as ->; [|apply String.eqb_refl].
  induction s as [|a s IH]; [done|]. cbn. rewrite IH. f_equal.
  destruct a as [[] [] [] [] [] [] [] []]; done.
Qed.

(** A name: no white space, not empty. *)
Definition word (s : string) : Prop := s ≠ "" ∧ str_all (λ a, negb (is_whitespace a)) s = true.

Lemma word_first_ok s : word s → first_ok s = true.
Proof. intros [Hne H]. destruct s; [done|]. cbn in H. by apply andb_prop in H as [? _]. Qed.

Lemma word_trim s : word s → trim s = s.
Proof.
  intros Hw. apply trim_id; [by apply word_first_ok|]. destruct Hw as [Hne H]. revert H Hne.
  induction s as [|a [|b s] IH]; intros H Hne; [done|..]; cbn in H |- *.
  - by apply andb_prop in H as [? _].
  - apply andb_prop in H as [_ H]. by apply IH.
Qed.

Lemma trim_sep a s : first_ok s = true → last_ok s = true → is_whitespace a = true → trim (String a s) = s.
Proof.
  intros Hf Hl Ha. unfold trim, trim_start. cbn. rewrite Ha. fold (trim_start s).
  rewrite trim_start_id by done. by apply trim_end_id.
Qed.

Lemma prepare_parses name tmpl :
  word name → first_ok tmpl = true → last_ok tmpl = true →
  parse_prepare ("PREPARE " +:+ name +:+ " AS " +:+ tmpl) = Some (name, tmpl).
Proof.
  intros Hw Hf Hl. pose proof (word_first_ok name Hw) as Hwf. unfold parse_prepare.
  assert (last_ok (name +:+ " AS " +:+ tmpl) = true) as Hl' by by repeat apply last_ok_app.
  rewrite (trim_id (_ +:+ _)) by (done || by apply last_ok_app).
  rewrite (keyword_split "PREPARE " name " AS " tmpl eq_refl : has_keyword "prepare " _ = true).
  rewrite (str_drop_exact "PREPARE " _ : str_drop 8 _ = _).
  rewrite (trim_id (name +:+ _)) by (done || by apply first_ok_app).
  rewrite !to_lowercase_app. change (to_lowercase " AS ") with (String " " "as ").
  destruct Hw as [Hne Hns]. rewrite find_sub_after by by apply no_space_lower.
  cbn [mbind option_bind]. rewrite to_lowercase_length, str_take_app, str_drop_app.
  rewrite (str_drop_exact " AS " tmpl : str_drop 4 _ = _).
  rewrite word_trim by done. rewrite trim_id by done.
  rewrite bool_decide_false by done. rewrite bool_decide_false; [done|]. by destruct tmpl.
Qed.

Lemma prepare_not_execute s : parse_prepare ("EXECUTE " +:+ s) = None.
Proof.
  unfold parse_prepare.
  replace (has_keyword "prepare " (trim ("EXECUTE " +:+ s))) with false; [done|]. symmetry.
  unfold has_keyword. rewrite andb_false_iff. right.
  unfold trim. rewrite trim_start_id by done.
  assert (∃ u, trim_end ("EXECUTE " +:+ s) = "E" +:+ u) as [u ->]; [|done].
  unfold trim_end. change ("EXECUTE " +:+ s) with (String "E" ("XECUTE " +:+ s)). cbn [trim_end_while].
  destruct (trim_end_while is_whitespace ("XECUTE " +:+ s)) as [|b u]; [by exists ""|by exists (String b u)].
Qed.

Section Session.
Context `{J : JsonOps} (parse_f64 : string → option spec_float).
(** Numbers are printed in decimal. *)
Hypothesis number_text : ∀ n : N, to_string (JNumber (NInt (Z.of_N n))) = pretty n.

Lemma first_digit (n : N) : ∃ a s, pretty n = String a s ∧ is_digit a = true.
Proof.
  pose proof (pretty_is_digits n) as H. pose proof (pretty_nonempty n).
  destruct (pretty n) as [|a s]; [done|]. cbn in H. apply andb_prop in H as [? _]. eauto.
Qed.

Lemma parse_i64_pretty (n : N) : (Z.of_N n ≤ i64_max)%Z → parse_i64 (pretty n) = Some (Z.of_N n).
Proof.
  intros Hn. unfold parse_i64. destruct (first_digit n) as (a & s & E & Ha).
  assert (strip_prefix_char "-" (pretty n) = None ∧ strip_prefix_char "+" (pretty n) = None) as [-> ->].
  { rewrite E. cbn. revert Ha. clear. destruct a as [[] [] [] [] [] [] [] []]; done. }
  cbn [default from_option id]. rewrite parse_pretty. cbn.
  rewrite (proj2 (Z.leb_le _ _)) by (unfold i64_min; lia). by rewrite (proj2 (Z.leb_le _ _) Hn).
Qed.

Lemma param_number (n : N) :
  (Z.of_N n ≤ i64_max)%Z → parse_param_value parse_f64 (pretty n) = Ok (JNumber (NInt (Z.of_N n))).
Proof.
  intros Hn. unfold parse_param_value. destruct (first_digit n) as (a & s & E & Ha).
  assert (starts_with_char SQ (pretty n) = false ∧ starts_with_char DQ (pretty n) = false) as [-> ->].
  { rewrite E. split; cbn; destruct a as [[] [] [] [] [] [] [] []]; done. }
  assert (∀ w, (match w with String b _ => is_digit b = false ∧ ascii_lower b = b | EmptyString => True end) →
            eq_ignore_case (pretty n) w = false) as Hw.
  { intros w Hb. unfold eq_ignore_case. apply String.eqb_neq. rewrite E. destruct w as [|b w]; [done|].
    cbn. destruct Hb as [Hb Hl]. rewrite Hl. intros [= Hab _]. revert Hab Ha Hb. clear.
    unfold is_digit. destruct a as [[] [] [] [] [] [] [] []]; try done; intros <-; done. }
  cbn [andb orb]. rewrite !Hw by (split; reflexivity). by rewrite parse_i64_pretty.
Qed.

Lemma execute_parses name ns :
  word name → ns ≠ [] → Forall (λ n, (Z.of_N n ≤ i64_max)%Z) ns →
  parse_execute parse_f64 ("EXECUTE " +:+ name +:+ " USING " +:+ join_with ", " (pretty <$> ns)) =
    Ok (Some (name, (λ n, JNumber (NInt (Z.of_N n))) <$> ns)).
Proof.
  intros Hw Hne Hr. pose proof (word_first_ok name Hw) as Hwf. unfold parse_execute.
  set (args := join_with ", " (pretty <$> ns)).
  assert (first_ok args = true ∧ last_ok args = true) as [Haf Hal].
  { unfold args. split.
    - destruct ns as [|n [|n' ns]]; [done|apply pretty_first_ok|].
      rewrite !fmap_cons, join_with_cons. apply first_ok_app, pretty_first_ok.
    - clear Hr. induction ns as [|n [|n' ns] IH]; [done|..].
      + cbn [fmap list_fmap join_with]. rewrite <- (word_trim (pretty n)); [|split; [apply pretty_nonempty|apply pretty_no_space]].
        pose proof (pretty_no_space n) as H. pose proof (pretty_nonempty n) as Hp.
        rewrite word_trim by done. revert H Hp.
        induction (pretty n) as [|a [|b s] IHs]; intros H Hp; [done|..]; cbn in H |- *.
        * by apply andb_prop in H as [? _].
        * apply andb_prop in H as [_ H]. by apply IHs.
      + rewrite !fmap_cons, join_with_cons. repeat apply last_ok_app. rewrite <- fmap_cons. by apply IH. }
  assert (last_ok (name +:+ " USING " +:+ args) = true) as Hl' by by repeat apply last_ok_app.
  rewrite (trim_id (_ +:+ _)) by (done || by apply last_ok_app).
  rewrite (keyword_split "EXECUTE " name " USING " args eq_refl : has_keyword "execute " _ = true).
  rewrite (str_drop_exact "EXECUTE " _ : str_drop 8 _ = _).
  rewrite (trim_id (name +:+ _)) by (done || by apply first_ok_app).
  rewrite !to_lowercase_app. change (to_lowercase " USING ") with (String " " "using ").
  pose proof Hw as [Hn0 Hns]. rewrite find_sub_after by by apply no_space_lower.
  rewrite to_lowercase_length, str_take_app, str_drop_app.
  rewrite (str_drop_exact " USING " args : str_drop 7 _ = _). rewrite (trim_id args) by done.
  assert (mapM (λ s, parse_param_value parse_f64 (trim s)) (split_on (is_char ",") args) =
          Ok ((λ n, JNumber (NInt (Z.of_N n))) <$> ns)) as ->.
  { rewrite <- (mapM_outcome_fmap (parse_param_value parse_f64) trim). unfold args.
    rewrite (split_join "," "" " "); [|done..| |].
    - rewrite !mapM_outcome_fmap. rewrite (mapM_outcome_Ok _ (λ n, JNumber (NInt (Z.of_N n)))); [done|].
      intros n Hn. rewrite word_trim by (split; [apply pretty_nonempty|apply pretty_no_space]).
      apply param_number. rewrite Forall_forall in Hr. by apply Hr.
    - by destruct ns.
    - apply Forall_fmap, Forall_forall. intros n _. cbn [compose]. by apply digits_avoid. }
  cbn [mbind outcome_bind]. rewrite word_trim by done. by rewrite bool_decide_false.
Qed.

(** C25: a statement prepared under a name and executed with as many numbers as
    its template counts placeholders continues with the template whose
    placeholders are replaced by those numbers in decimal, whatever statements
    were prepared before.  There is at least one number, each fits 64 signed bits;
    the name is a word; the text between the placeholders has no dollar sign, none
    is followed by a digit or directly by another, and the template has no blank
    at its ends. *)
Theorem prepare_then_execute store name t0 l ns :
  word name → no_dollar t0 → slots_ok (holes l) →
  first_ok (template_text t0 l) = true → last_ok (template_text t0 l) = true →
  ns ≠ [] → Forall (λ n, (Z.of_N n ≤ i64_max)%Z) ns → max_hole 0 l = N.of_nat (length ns) →
  (N.of_nat (length ns) ≤ u64_max)%N →
  ∃ store',
    handle_prepared parse_f64 store ("PREPARE " +:+ name +:+ " AS " +:+ template_text t0 l) =
      Ok (Confirmed name (N.of_nat (length ns)) (template_text t0 l), store') ∧
    handle_prepared parse_f64 store' ("EXECUTE " +:+ name +:+ " USING " +:+ join_with ", " (pretty <$> ns)) =
      Ok (Continue (bound_text (λ i, from_option pretty "" (ns !! i)) t0 l), store').
Proof.
  intros Hw Ht0 Hok Hf Hl Hne Hr Hmax Hlen.
  assert (∀ m, Forall (λ p : nat * string, (N.of_nat (p.1 + 1) ≤ max_hole m l)%N) l ∧ (m ≤ max_hole m l)%N) as Hbound.
  { clear. induction l as [|p l IH]; intros m; [done|]. cbn [max_hole foldl]. fold (max_hole (N.max m (N.of_nat (p.1 + 1))) l).
    destruct (IH (N.max m (N.of_nat (p.1 + 1)))) as [H1 H2]. split; [constructor; [lia|done]|lia]. }
  destruct (Hbound 0%N) as [Hin _]. rewrite Hmax in Hin.
  assert (count_params (template_text t0 l) = N.of_nat (length ns)) as Hcount.
  { rewrite count_template; [done..|]. eapply Forall_impl; [exact Hin|]. cbn. lia. }
  eexists. split.
  { unfold handle_prepared. rewrite prepare_parses by done. rewrite Hcount. reflexivity. }
  unfold handle_prepared. rewrite prepare_not_execute, execute_parses by done. cbn [mbind outcome_bind].
  rewrite lookup_insert_eq. cbn [param_count p_query]. rewrite length_fmap, N.eqb_refl, andb_false_r.
  rewrite bind_template; [|done|done| |].
  - do 3 f_equal. unfold bound_text. f_equal. clear -number_text. induction l as [|p l IH]; [done|]. cbn [foldr]. rewrite IH. f_equal.
    rewrite list_lookup_fmap. destruct (ns !! p.1) as [n|]; [|done]. cbn. apply number_text.
  - rewrite length_fmap. eapply Forall_impl; [exact Hin|]. cbn. lia.
  - apply Forall_fmap, Forall_forall. intros n _. cbn [compose literal]. rewrite number_text.
    eapply str_all_impl; [|apply (digits_avoid "$" n eq_refl)]. intros a. unfold is_char. by rewrite Ascii.eqb_sym.
Qed.

(** A single quote as a parameter is cut at both ends, which panics. *)
Lemma lone_quote_panics : parse_param_value parse_f64 "'" = Panic.
Proof. reflexivity. Qed.
End Session.

Lemma prepare_then_execute_witness :
  let l := [(0, " AND b < "); (1, "")] in
  ∃ store',
    handle_prepared (J := RefJson) (λ _, None) ∅ "PREPARE p AS SELECT x FROM t WHERE a = $1 AND b < $2" =
      Ok (Confirmed "p" 2 "SELECT x FROM t WHERE a = $1 AND b < $2", store') ∧
    handle_prepared (J := RefJson) (λ _, None) store' "EXECUTE p USING 10, 20" =
      Ok (Continue (bound_text (λ i, from_option pretty "" ([10%N; 20%N] !! i)) "SELECT x FROM t WHERE a = " l), store').
Proof.
  intros l.
  refine (prepare_then_execute (J := RefJson) (λ _, None) _ ∅ "p" "SELECT x FROM t WHERE a = " l [10%N; 20%N]
            _ _ _ _ _ _ _ _ _).
  - intros n. cbn. destruct n; reflexivity.
  - split; [discriminate|reflexivity].
  - reflexivity.
  - cbn. repeat split.
  - reflexivity.
  - reflexivity.
  - discriminate.
  - repeat constructor; vm_compute; discriminate.
  - reflexivity.
  - vm_compute. discriminate.
Defined.

(** ** Templates with named parameters *)

(** Rendering stops at the first parameter without a value. *)
Lemma render_missing t values :
  (∃ text, render t values = Ok text ∧ Forall (λ p, is_Some (values !! p)) (t_params t)) ∨
  (∃ pre p post, t_params t = pre ++ p :: post ∧ values !! p = None ∧
     Forall (λ p, is_Some (values !! p)) pre ∧ render t values = Err ("missing parameter: " +:+ p)).
Proof.
  unfold render. generalize (template t). induction (t_params t) as [|p ps IH]; intros text.
  { left. exists text. split; [done|constructor]. }
  cbn [foldl render_step mbind outcome_bind]. destruct (values !! p) as [v|] eqn:E.
  - destruct (IH (replace ("{{" +:+ p +:+ "}}") v text)) as [(u & Hu & Hall)|(pre & q & post & -> & Hq & Hpre & He)].
    + left. exists u. split; [done|]. constructor; [by rewrite E|done].
    + right. exists (p :: pre), q, post. split_and!; [done..| |done]. constructor; [by rewrite E|done].
  - right. exists [], p, ps. split_and!; [done..|].
    clear IH. induction ps as [|q ps IH]; [done|]. exact IH.
Qed.
