(* ===== verification/Stores.v ===== *)
(** * Stores: time-bounded caches, meters and keyed registries of the server

    Models [crates/fuse-server/src/plan_cache.rs], [explain_cache.rs],
    [schema_cache.rs], [adaptive_cache.rs] (caches with a time to live),
    [usage_metering.rs] and [cost_tracker.rs] (usage totals),
    [query_policy.rs] (denied query patterns), and the keyed stores [tags.rs],
    [bookmarks.rs], [saved_queries.rs], [alias.rs] and [templates.rs].  Clock
    readings are arguments: an instant is a number of nanoseconds, and an entry
    made at [t] has elapsed [now - t].  The order of a hash map is a parameter. *)

From S2P Require Import Prelude Strs Float Json Sorting Prepared JsonRef.
From stdpp Require Import base list gmap strings sets.
From Stdlib Require Import NArith ZArith Lia Ascii.

(** ** [plan_cache.rs] *)

Record CachedPlan : Type := mkPlan {
  sources : list (string * string);
  is_union : bool;
  is_join : bool;
  is_distinct : bool;
  limit : option N;
  offset : N;
  order_by : list (string * bool);
  created : N;
}.

Record PlanCache : Type := mkPlanCache {
  pc_entries : gmap string CachedPlan;
  pc_ttl : N;
  pc_max_size : nat;
  hits : N;
  misses : N;
}.

Definition normalize_query (sql : string) : string :=
  to_lowercase (join_with " " (split_whitespace sql)).

Module Plans.
Section PlanCache.
Context (iter : gmap string CachedPlan → list (string * CachedPlan)).

Definition plans_new (ttl : N) (max_size : nat) : PlanCache := mkPlanCache ∅ ttl max_size 0 0.

Definition live (ttl now : N) (p : CachedPlan) : bool := (now - created p <? ttl)%N.

Definition plan_get (c : PlanCache) (key : string) (now : N) : option CachedPlan * PlanCache :=
  let norm := normalize_query key in
  match pc_entries c !! norm with
  | None => (None, c)
  | Some plan =>
      if live (pc_ttl c) now plan
      then (Some plan, mkPlanCache (pc_entries c) (pc_ttl c) (pc_max_size c) (hits c + 1) (misses c))
      else (None, mkPlanCache (delete norm (pc_entries c)) (pc_ttl c) (pc_max_size c) (hits c) (misses c + 1))
  end.

Definition evict (ttl : N) (max_size : nat) (now : N) (m : gmap string CachedPlan) : gmap string CachedPlan :=
  if max_size <=? size m then
    let m := filter (λ kp, live ttl now kp.2) m in
    if max_size <=? size m then
      match max_by_key (λ kp : string * CachedPlan, (now - created kp.2)%N) (iter m) with
      | Some (oldest_key, _) => delete oldest_key m
      | None => m
      end
    else m
  else m.

Definition plan_insert (c : PlanCache) (key : string) (plan : CachedPlan) (now : N) : PlanCache :=
  let norm := normalize_query key in
  mkPlanCache (<[norm := plan]> (evict (pc_ttl c) (pc_max_size c) now (pc_entries c)))
    (pc_ttl c) (pc_max_size c) (hits c) (misses c).

Definition plans_len (c : PlanCache) : nat := size (pc_entries c).
Definition plans_clear (c : PlanCache) : PlanCache :=
  mkPlanCache ∅ (pc_ttl c) (pc_max_size c) (hits c) (misses c).

Definition f_100 : f64 := f64_of_N 100.
Definition hit_rate (c : PlanCache) : f64 :=
  let h := f64_of_N (hits c) in
  let total := fadd h (f64_of_N (misses c)) in
  if feqb total f_zero then f_zero else fmul (fdiv h total) f_100.
End PlanCache.
End Plans.

(** ** [explain_cache.rs] *)

Record ExplainCache : Type := mkExplainCache {
  ec_entries : gmap string (Value * N);      (** the result and when it was made *)
  ec_ttl : N;
  ec_max_size : nat;
}.

Module Explains.
Definition explains_new (ttl : N) (max_size : nat) : ExplainCache := mkExplainCache ∅ ttl max_size.
Definition explain_get (c : ExplainCache) (query : string) (now : N) : option Value :=
  '(result, created) ← ec_entries c !! query;
  if (now - created <? ec_ttl c)%N then Some result else None.
Definition explain_insert (c : ExplainCache) (query : string) (result : Value) (now : N) : ExplainCache :=
  let m := if ec_max_size c <=? size (ec_entries c)
           then filter (λ ke, (now - ke.2.2 < ec_ttl c)%N) (ec_entries c)
           else ec_entries c in
  mkExplainCache (<[query := (result, now)]> m) (ec_ttl c) (ec_max_size c).
Definition explains_len (c : ExplainCache) : nat := size (ec_entries c).
End Explains.

(** ** [schema_cache.rs] *)

Record SchemaCache : Type := mkSchemaCache { sc_entries : gmap string (Value * N); sc_ttl : N }.

Module Schemas.
Definition schemas_new (ttl : N) : SchemaCache := mkSchemaCache ∅ ttl.
Definition schema_get (c : SchemaCache) (key : string) (now : N) : option Value :=
  '(value, inserted) ← sc_entries c !! key;
  if (now - inserted <? sc_ttl c)%N then Some value else None.
Definition schema_set (c : SchemaCache) (key : string) (value : Value) (now : N) : SchemaCache :=
  mkSchemaCache (<[key := (value, now)]> (sc_entries c)) (sc_ttl c).
Definition invalidate (c : SchemaCache) (key : string) : SchemaCache :=
  mkSchemaCache (delete key (sc_entries c)) (sc_ttl c).
Definition schemas_clear (c : SchemaCache) : SchemaCache := mkSchemaCache ∅ (sc_ttl c).
End Schemas.

(** ** [adaptive_cache.rs] *)

Record QueryFreq : Type := mkFreq { qf_count : N; last_seen : N; qf_datasources : list string }.
Record AdaptiveCache : Type := mkAdaptive {
  frequency : gmap string QueryFreq;
  datasource_ttls : gmap string N;
  default_ttl : N;
  promotion_threshold : N;
  max_tracked : nat;
}.
Record AdaptiveCacheStats : Type := mkAdaptiveStats {
  tracked_queries : nat;
  hot_queries : nat;
  as_threshold : N;
  as_ttls : gmap string N;
}.

Module Adaptive.
Section Adaptive.
Context (iter : gmap string QueryFreq → list (string * QueryFreq)).

(** [u32] addition, wrapping. *)
Definition u32_succ (n : N) : N := ((n + 1) `mod` u32_modulus)%N.

Definition adaptive_new (default_ttl promotion_threshold : N) (max_tracked : nat) : AdaptiveCache :=
  mkAdaptive ∅ ∅ default_ttl promotion_threshold max_tracked.

Definition set_datasource_ttl (c : AdaptiveCache) (ds : string) (ttl : N) : AdaptiveCache :=
  mkAdaptive (frequency c) (<[ds := ttl]> (datasource_ttls c)) (default_ttl c) (promotion_threshold c) (max_tracked c).

Definition with_frequency (c : AdaptiveCache) (m : gmap string QueryFreq) : AdaptiveCache :=
  mkAdaptive m (datasource_ttls c) (default_ttl c) (promotion_threshold c) (max_tracked c).

Definition evict_coldest (max_tracked : nat) (m : gmap string QueryFreq) : gmap string QueryFreq :=
  if max_tracked <=? size m then
    match min_by_key (λ kf : string * QueryFreq, qf_count kf.2) (iter m) with
    | Some (coldest, _) => delete coldest m
    | None => m
    end
  else m.

Definition record_access (c : AdaptiveCache) (fingerprint : string) (ds : list string) (now : N) : bool * AdaptiveCache :=
  match frequency c !! fingerprint with
  | Some entry =>
      let count := u32_succ (qf_count entry) in
      ((promotion_threshold c <=? count)%N,
       with_frequency c (<[fingerprint := mkFreq count now (qf_datasources entry)]> (frequency c)))
  | None =>
      ((promotion_threshold c <=? 1)%N,
       with_frequency c (<[fingerprint := mkFreq 1 now ds]> (evict_coldest (max_tracked c) (frequency c))))
  end.

Definition effective_ttl (c : AdaptiveCache) (ds : list string) : N :=
  match (λ d, default (default_ttl c) (datasource_ttls c !! d)) <$> ds with
  | [] => default_ttl c
  | t :: ts => foldl N.min t ts
  end.

Definition is_hot (c : AdaptiveCache) (fingerprint : string) : bool :=
  from_option (λ f, promotion_threshold c <=? qf_count f)%N false (frequency c !! fingerprint).
Definition access_count (c : AdaptiveCache) (fingerprint : string) : N :=
  from_option qf_count 0%N (frequency c !! fingerprint).
Definition stats (c : AdaptiveCache) : AdaptiveCacheStats :=
  mkAdaptiveStats (size (frequency c))
    (length (filter (λ f, (promotion_threshold c ≤ qf_count f)%N) (iter (frequency c)).*2))
    (promotion_threshold c) (datasource_ttls c).
Definition reset (c : AdaptiveCache) : AdaptiveCache := with_frequency c ∅.
End Adaptive.
End Adaptive.

(** ** [usage_metering.rs]

    The counters are [u64]; they are kept as numbers that do not overflow. *)

Record DatasourceUsage : Type := mkDsUsage { du_query_count : N; du_rows : N; du_bytes : N }.
Record TenantUsage : Type := mkUsage {
  tenant_id : string;
  tu_query_count : N;
  tu_total_rows : N;
  tu_total_bytes : N;
  tu_total_duration_ms : N;
  datasource_breakdown : gmap string DatasourceUsage;
}.

Module Usage.
Abbreviation UsageMeter := (gmap string TenantUsage).

Definition per_ds (ds : list string) (amount : N) : N :=
  match ds with [] => 0%N | _ => (amount / N.of_nat (length ds))%N end.

Definition add_ds (rows bytes : N) (m : gmap string DatasourceUsage) (ds : string) : gmap string DatasourceUsage :=
  let u := default (mkDsUsage 0 0 0) (m !! ds) in
  <[ds := mkDsUsage (du_query_count u + 1) (du_rows u + rows) (du_bytes u + bytes)]> m.

Definition usage_record (m : UsageMeter) (tenant : string) (ds : list string) (rows bytes duration_ms : N) : UsageMeter :=
  let e := default (mkUsage tenant 0 0 0 0 ∅) (m !! tenant) in
  <[tenant := mkUsage (tenant_id e) (tu_query_count e + 1) (tu_total_rows e + rows) (tu_total_bytes e + bytes)
                (tu_total_duration_ms e + duration_ms)
                (foldl (add_ds (per_ds ds rows) (per_ds ds bytes)) (datasource_breakdown e) ds)]> m.

Definition usage_get (m : UsageMeter) (tenant : string) : option TenantUsage := m !! tenant.
Definition reset_tenant (m : UsageMeter) (tenant : string) : UsageMeter := delete tenant m.
Definition reset_all (m : UsageMeter) : UsageMeter := ∅.
End Usage.

(** ** [cost_tracker.rs] *)

Record CostEntry : Type := mkCostEntry {
  ce_query_count : N;
  ce_total_rows : N;
  ce_total_bytes : N;
  ce_total_duration_ms : N;
}.

Module Costs.
Abbreviation CostTracker := (gmap (string * string) CostEntry).
Definition zero_cost : CostEntry := mkCostEntry 0 0 0 0.
Definition cost_add (a b : CostEntry) : CostEntry :=
  mkCostEntry (ce_query_count a + ce_query_count b) (ce_total_rows a + ce_total_rows b)
    (ce_total_bytes a + ce_total_bytes b) (ce_total_duration_ms a + ce_total_duration_ms b).

Definition cost_record (m : CostTracker) (tenant ds : string) (rows bytes duration_ms : N) : CostTracker :=
  let e := default zero_cost (m !! (tenant, ds)) in
  <[(tenant, ds) := mkCostEntry (ce_query_count e + 1) (ce_total_rows e + rows) (ce_total_bytes e + bytes)
                      (ce_total_duration_ms e + duration_ms)]> m.

Definition tenant_step (tenant : string) (acc : gmap string CostEntry) (x : string * string * CostEntry) : gmap string CostEntry :=
  let '((t, ds), e) := x in if decide (t = tenant) then <[ds := e]> acc else acc.
Definition for_tenant (iter : CostTracker → list (string * string * CostEntry)) (m : CostTracker) (tenant : string)
    : gmap string CostEntry := foldl (tenant_step tenant) ∅ (iter m).

Definition merge_step (merged : gmap string CostEntry) (x : string * string * CostEntry) : gmap string CostEntry :=
  let '((_, ds), e) := x in <[ds := cost_add (default zero_cost (merged !! ds)) e]> merged.
Definition all_costs (iter : CostTracker → list (string * string * CostEntry)) (m : CostTracker) : gmap string CostEntry :=
  foldl merge_step ∅ (iter m).
End Costs.

(** ** [query_policy.rs] *)

Inductive PolicyResult : Type := Allowed | Denied (reason : string).
Abbreviation QueryPolicy := (list string).

Module Policy.
Definition with_defaults : QueryPolicy :=
  ["DROP "; "TRUNCATE "; "ALTER "; "CREATE INDEX"; "GRANT "; "REVOKE "].
Definition deny (p : QueryPolicy) (pattern : string) : QueryPolicy := p ++ [to_uppercase pattern].

Definition contains (pat s : string) : bool := bool_decide (is_Some (find_sub pat s)).

Definition check (p : QueryPolicy) (query : string) : PolicyResult :=
  let upper := to_uppercase (trim query) in
  match List.find (λ pattern, contains pattern upper) p with
  | Some pattern => Denied ("query matches deny pattern: " +:+ trim pattern)
  | None => Allowed
  end.
End Policy.

(** ** [tags.rs] *)

Module Tags.
Abbreviation TagRegistry := (gmap string (gset string)).
Definition tag (r : TagRegistry) (query_id t : string) : TagRegistry :=
  <[query_id := {[ t ]} ∪ default ∅ (r !! query_id)]> r.
Definition untag (r : TagRegistry) (query_id t : string) : TagRegistry :=
  alter (λ tags, tags ∖ {[ t ]}) query_id r.
Definition get_tags (r : TagRegistry) (query_id : string) : gset string := default ∅ (r !! query_id).
Definition find_by_tag (r : TagRegistry) (t : string) : gset string :=
  dom (filter (λ it : string * gset string, t ∈ it.2) r).
End Tags.

(** ** Records kept under a key of their own *)

Class Keyed (R : Type) : Type := record_key : R → string.

Section KeyedStore.
Context {R : Type} `{Keyed R}.
Definition save (s : gmap string R) (r : R) : gmap string R := <[record_key r := r]> s.
Definition lookup_key (s : gmap string R) (k : string) : option R := s !! k.
Definition delete_key (s : gmap string R) (k : string) : bool * gmap string R :=
  (bool_decide (is_Some (s !! k)), delete k s).
End KeyedStore.

Record Bookmark : Type := mkBookmark {
  b_id : string;
  b_name : string;
  b_query : string;
  b_format : string;
  b_description : option string;
  b_tags : list string;
  b_created_at : N;
}.
Record SavedQuery : Type := mkSaved {
  sv_name : string;
  sv_query : string;
  sv_format : string;
  sv_description : string;
}.
#[export] Instance bookmark_keyed : Keyed Bookmark := b_id.
#[export] Instance saved_query_keyed : Keyed SavedQuery := sv_name.
#[export] Instance template_keyed : Keyed QueryTemplate := t_name.

Definition bookmark_matches (term : string) (b : Bookmark) : bool :=
  let lower := to_lowercase term in
  Policy.contains lower (to_lowercase (b_name b)) || Policy.contains lower (to_lowercase (b_query b))
  || existsb (λ t, Policy.contains lower (to_lowercase t)) (b_tags b).
Definition search (iter : gmap string Bookmark → list (string * Bookmark)) (s : gmap string Bookmark) (term : string)
    : list Bookmark := filter (λ b, bookmark_matches term b) (iter s).*2.

(** ** [alias.rs] *)

Module Alias.
Abbreviation AliasRegistry := (gmap string string).
Definition alias_set (r : AliasRegistry) (alias datasource_id : string) : AliasRegistry := <[alias := datasource_id]> r.
Definition resolve (r : AliasRegistry) (name : string) : string := default name (r !! name).
Definition remove (r : AliasRegistry) (alias : string) : bool * AliasRegistry :=
  (bool_decide (is_Some (r !! alias)), delete alias r).
End Alias.

(** * What the server's caches, meters and registries keep

    A plan cache returns only what was last cached for the same normalised query
    and is still fresh, and stays within its size; the meters' totals are the
    sums of what was recorded; the query policy denies exactly the queries that
    contain a pattern. *)

(** ** The plan cache *)

Lemma map_size_insert_le {A : Type} (m : gmap string A) k x : size (<[k := x]> m) ≤ S (size m).
Proof. rewrite map_size_insert. destruct (m !! k); cbn; lia. Qed.

Section PlanCacheCorrect.
Context (iter : gmap string CachedPlan → list (string * CachedPlan)).
Hypothesis iter_each : ∀ m, iter m ≡ₚ map_to_list m.

Lemma evict_subset ttl n now m k p : Plans.evict iter ttl n now m !! k = Some p → m !! k = Some p.
Proof.
  unfold Plans.evict. destruct (n <=? size m); [|done]. set (m' := filter _ m).
  assert (m' !! k = Some p → m !! k = Some p) as H by by intros [? _]%map_lookup_filter_Some.
  destruct (n <=? size m'); [|done]. destruct (max_by_key _ _) as [[k' p']|]; [|done].
  intros [_ ?]%lookup_delete_Some. auto.
Qed.

Lemma evict_room ttl n now m : 0 < n → size m ≤ n → size (Plans.evict iter ttl n now m) < n.
Proof.
  intros Hn Hle. unfold Plans.evict. destruct (Nat.leb_spec n (size m)); [|done].
  set (m' := filter _ m). assert (size m' ≤ size m) as Hm' by (apply map_subseteq_size, map_filter_subseteq).
  destruct (Nat.leb_spec n (size m')) as [Hfull|]; [|done].
  assert (iter m' ≠ []) as Hne.
  { intros E. pose proof (iter_each m') as Hp. rewrite E in Hp. symmetry in Hp. apply Permutation_nil_r in Hp.
    apply map_to_list_empty_iff in Hp. rewrite Hp, map_size_empty in Hfull. lia. }
  destruct (max_by_key_Some (λ kp : string * CachedPlan, (now - created kp.2)%N) (iter m') Hne)
    as ([k p] & -> & Hin & _).
  rewrite iter_each, elem_of_map_to_list in Hin. rewrite map_size_delete, Hin. cbn.
  assert (size m' ≠ 0) by (apply map_size_ne_0_lookup; eauto). lia.
Qed.

Inductive plan_op : Type :=
| PInsert (key : string) (plan : CachedPlan) (now : N)
| PGet (key : string) (now : N)
| PClear.

Definition plan_step (c : PlanCache) (o : plan_op) : PlanCache :=
  match o with
  | PInsert k p now => Plans.plan_insert iter c k p now
  | PGet k now => (Plans.plan_get c k now).2
  | PClear => Plans.plans_clear c
  end.

(** The plan last inserted under the normalised query, since the last clear. *)
Definition last_plan (norm : string) (ops : list plan_op) : option CachedPlan :=
  foldl (λ cur o, match o with
                  | PInsert k p _ => if decide (normalize_query k = norm) then Some p else cur
                  | PGet _ _ => cur
                  | PClear => None
                  end) None ops.

Definition plan_run (ttl : N) (n : nat) (ops : list plan_op) : PlanCache :=
  foldl plan_step (Plans.plans_new ttl n) ops.

Lemma plan_run_limits ttl n ops : pc_ttl (plan_run ttl n ops) = ttl ∧ pc_max_size (plan_run ttl n ops) = n.
Proof.
  unfold plan_run. induction ops as [|o ops IH] using rev_ind; [done|]. rewrite foldl_snoc.
  destruct o as [k p now|k now|]; cbn; [done| |done]. unfold Plans.plan_get.
  destruct (_ !! _) as [p|]; [|done]. by destruct (Plans.live _ _ _).
Qed.

Lemma plan_entries_last ttl n ops norm p :
  pc_entries (plan_run ttl n ops) !! norm = Some p → last_plan norm ops = Some p.
Proof.
  unfold plan_run, last_plan. revert norm p. induction ops as [|o ops IH] using rev_ind; intros norm p; [done|].
  rewrite !foldl_snoc. destruct o as [k q now|k now|]; cbn.
  - rewrite lookup_insert_Some. destruct (decide (normalize_query k = norm)); [naive_solver|].
    intros [[? _]|[_ H]]; [done|]. apply IH. by apply evict_subset in H.
  - unfold Plans.plan_get. set (c := foldl _ _ ops) in *. destruct (pc_entries c !! normalize_query k) as [q|]; [|apply IH].
    destruct (Plans.live _ _ _); cbn; [apply IH|]. intros [_ H]%lookup_delete_Some. by apply IH.
  - done.
Qed.

Lemma plan_run_bounded ttl n ops : 0 < n → Plans.plans_len (plan_run ttl n ops) ≤ n.
Proof.
  intros Hn. unfold plan_run, Plans.plans_len. induction ops as [|o ops IH] using rev_ind.
  { cbn [foldl Plans.plans_new pc_entries]. rewrite map_size_empty. lia. }
  pose proof (plan_run_limits ttl n ops) as [Ht Hm]. unfold plan_run in Ht, Hm.
  rewrite foldl_snoc. set (c := foldl _ _ ops) in *. destruct o as [k q now|k now|];
    cbn [plan_step Plans.plan_insert Plans.plans_clear pc_entries]; [| |rewrite map_size_empty; lia].
  - rewrite Ht, Hm. pose proof (evict_room ttl n now (pc_entries c) Hn IH).
    etransitivity; [apply map_size_insert_le|lia].
  - unfold Plans.plan_get. destruct (pc_entries c !! normalize_query k) as [q|] eqn:E; [|done].
    destruct (Plans.live _ _ _); cbn [snd pc_entries]; [done|]. rewrite map_size_delete, E.
    unfold c in *. lia.
Qed.

(** After any operations on a plan cache made for at least one plan, it holds
    no more plans than it was made for, and a lookup returns a plan only if it is
    the one last inserted, since the last clear, under a query that normalises
    the same, and it was made less than a time to live before. *)
Theorem plan_cache_sound ttl n ops key now :
  0 < n →
  Plans.plans_len (plan_run ttl n ops) ≤ n ∧
  ∀ p, (Plans.plan_get (plan_run ttl n ops) key now).1 = Some p →
    last_plan (normalize_query key) ops = Some p ∧ (now - created p < ttl)%N.
Proof.
  intros Hn. split; [by apply plan_run_bounded|]. intros p. unfold Plans.plan_get.
  destruct (pc_entries _ !! _) as [q|] eqn:E; [|done].
  rewrite (proj1 (plan_run_limits ttl n ops)).
  destruct (Plans.live ttl now q) eqn:El; cbn; [|done]. intros [= <-].
  split; [by eapply plan_entries_last|]. by apply N.ltb_lt.
Qed.

(** What was just inserted is found, by any query that normalises the same. *)
Lemma plan_insert_get c key key' p now now' :
  normalize_query key' = normalize_query key → (now' - created p < pc_ttl c)%N →
  (Plans.plan_get (Plans.plan_insert iter c key p now) key' now').1 = Some p.
Proof.
  intros Hk Hl. unfold Plans.plan_get, Plans.plan_insert. cbn [pc_entries pc_ttl]. rewrite Hk, lookup_insert_eq.
  unfold Plans.live. by rewrite (proj2 (N.ltb_lt _ _) Hl).
Qed.

(** Looking up a query that is not cached is not counted as a miss. *)
Lemma absent_plan_no_miss c key now :
  pc_entries c !! normalize_query key = None → Plans.plan_get c key now = (None, c).
Proof. intros H. unfold Plans.plan_get. by rewrite H. Qed.
End PlanCacheCorrect.

Definition sample_plan (t : N) : CachedPlan := mkPlan [("os", "t")] false false false None 0 [] t.

Lemma plan_cache_sound_witness :
  let ops := [PInsert "SELECT *  FROM t" (sample_plan 5) 5; PInsert "x" (sample_plan 7) 7] in
  let c := plan_run map_to_list 100 2 ops in
  (Plans.plan_get c "select * from t" 50).1 = Some (sample_plan 5) ∧
  last_plan (normalize_query "select * from t") ops = Some (sample_plan 5).
Proof.
  intros ops c. split; [vm_compute; reflexivity|].
  apply (plan_cache_sound map_to_list (λ m, reflexivity _) 100 2 ops "select * from t" 50); [lia|].
  vm_compute. reflexivity.
Defined.

(** The whole query is put in lower case, its literals too. *)
Lemma normalize_merges_literals :
  normalize_query "SELECT * FROM t WHERE name = 'Bob'" = normalize_query "SELECT * FROM t WHERE name = 'bob'".
Proof. reflexivity. Qed.

(** ** The other caches *)

(** Fresh entries are never dropped from the explain cache: it outgrows its size. *)
Lemma explain_cache_outgrows :
  Explains.explains_len (foldl (λ c k, Explains.explain_insert c k JNull 5) (Explains.explains_new 100 1) ["a"; "b"; "c"]) = 3.
Proof. vm_compute. reflexivity. Qed.

Lemma explain_cache_get c q q' v now now' :
  (now' - now < ec_ttl c)%N →
  Explains.explain_get (Explains.explain_insert c q v now) q now' = Some v ∧
  (q' ≠ q → Explains.explain_get (Explains.explain_insert c q v now) q' now = Explains.explain_get c q' now).
Proof.
  intros Hl. unfold Explains.explain_get, Explains.explain_insert. cbn [ec_entries ec_ttl]. split.
  - rewrite lookup_insert_eq. cbn. by rewrite (proj2 (N.ltb_lt _ _) Hl).
  - intros Hq. rewrite lookup_insert_ne by done. destruct (_ <=? _); [|done].
    destruct (filter _ _ !! q') as [[r t]|] eqn:E.
    + apply map_lookup_filter_Some in E as [-> _]. done.
    + destruct (ec_entries c !! q') as [[r t]|] eqn:E2; [|done]. cbn.
      destruct (N.ltb_spec (now - t) (ec_ttl c)) as [Hlt|]; [|done].
      rewrite map_lookup_filter_None in E. destruct E as [E|E]; [congruence|]. by destruct (E (r, t) E2).
Qed.

Section AdaptiveCorrect.
Context (iter : gmap string QueryFreq → list (string * QueryFreq)).
Hypothesis iter_each : ∀ m, iter m ≡ₚ map_to_list m.

(** The time to live of a query is the smallest of its datasources'. *)
Lemma effective_ttl_min c ds :
  (ds = [] → Adaptive.effective_ttl c ds = default_ttl c) ∧
  (∀ d, d ∈ ds → (Adaptive.effective_ttl c ds ≤ default (default_ttl c) (datasource_ttls c !! d))%N) ∧
  (ds ≠ [] → ∃ d, d ∈ ds ∧ Adaptive.effective_ttl c ds = default (default_ttl c) (datasource_ttls c !! d)).
Proof.
  unfold Adaptive.effective_ttl. set (f := λ d, default (default_ttl c) (datasource_ttls c !! d)).
  destruct ds as [|d ds]; [split_and!; [done|set_solver|done]|]. rewrite fmap_cons.
  destruct (fold_best N.le N.min (f d) (f <$> ds)) as [Hin Hle].
  { intros a b. destruct (N.min_spec a b) as [[? ->]|[? ->]]; split_and!; auto; lia. }
  rewrite <- fmap_cons in *. split_and!; [done| |].
  - intros e He. apply (Hle (f e)). by apply list_elem_of_fmap_2.
  - intros _. apply list_elem_of_fmap in Hin as (e & E & He). exists e. split; [done|]. exact E.
Qed.

(** Recording an access tells whether the query is now hot, counts it while it is
    tracked, and keeps the number of tracked queries within bounds. *)
Lemma adaptive_record c f ds now :
  let '(hot, c') := Adaptive.record_access iter c f ds now in
  hot = Adaptive.is_hot c' f ∧
  Adaptive.access_count c' f = Adaptive.u32_succ (Adaptive.access_count c f) ∧
  (0 < max_tracked c → size (frequency c) ≤ max_tracked c → size (frequency c') ≤ max_tracked c).
Proof.
  unfold Adaptive.record_access, Adaptive.is_hot, Adaptive.access_count.
  destruct (frequency c !! f) as [e|] eqn:E; cbn [frequency Adaptive.with_frequency promotion_threshold].
  - rewrite lookup_insert_eq. cbn. split_and!; [done..|]. intros _ Hle. rewrite map_size_insert, E. done.
  - rewrite lookup_insert_eq. cbn [from_option qf_count]. split_and!; [done..|]. intros Hpos Hle.
    etransitivity; [apply map_size_insert_le|].
    unfold Adaptive.evict_coldest. destruct (Nat.leb_spec (max_tracked c) (size (frequency c))); [|done].
    assert (iter (frequency c) ≠ []) as Hne.
    { intros E2. pose proof (iter_each (frequency c)) as Hp. rewrite E2 in Hp. symmetry in Hp. apply Permutation_nil_r in Hp.
      apply map_to_list_empty_iff in Hp. rewrite Hp, map_size_empty in *. lia. }
    destruct (min_by_key_Some (λ kf : string * QueryFreq, qf_count kf.2) _ Hne) as ([k q] & -> & Hin & _).
    rewrite iter_each, elem_of_map_to_list in Hin. rewrite map_size_delete, Hin. cbn. lia.
Qed.
End AdaptiveCorrect.

(** ** Usage meters *)

(** What is recorded of a query. *)
Record usage_event : Type := mkUsageEvent {
  ue_tenant : string; ue_datasources : list string; ue_rows : N; ue_bytes : N; ue_duration : N
}.
Definition record_usage (m : Usage.UsageMeter) (e : usage_event) : Usage.UsageMeter :=
  Usage.usage_record m (ue_tenant e) (ue_datasources e) (ue_rows e) (ue_bytes e) (ue_duration e).

Definition sum_N {A : Type} (f : A → N) (l : list A) : N := foldr (λ x acc, f x + acc)%N 0%N l.

Lemma sum_N_app {A : Type} (f : A → N) l k : sum_N f (l ++ k) = (sum_N f l + sum_N f k)%N.
Proof.
  induction l as [|x l IH]; [done|]. cbn [app sum_N foldr]. fold (sum_N f (l ++ k)) (sum_N f l). rewrite IH. lia.
Qed.

#[export] Instance sum_N_perm {A : Type} (f : A → N) : Proper ((≡ₚ) ==> (=)) (sum_N f).
Proof. induction 1; unfold sum_N in *; cbn [foldr]; lia. Qed.

(** The total over the values of a map. *)
Definition sum_map {A : Type} (f : A → N) (m : gmap string A) : N := sum_N (λ kx, f kx.2) (map_to_list m).

Lemma sum_map_insert {A : Type} (f : A → N) m k x :
  (sum_map f (<[k := x]> m) + from_option f 0 (m !! k) = sum_map f m + f x)%N.
Proof.
  unfold sum_map. rewrite <- insert_delete_eq, map_to_list_insert by apply lookup_delete_eq. cbn [sum_N foldr snd].
  fold (sum_N (λ kx : string * A, f kx.2) (map_to_list (delete k m))).
  destruct (m !! k) as [y|] eqn:E; cbn [from_option].
  - rewrite <- (map_to_list_delete m k y E). cbn [sum_N foldr snd].
    fold (sum_N (λ kx : string * A, f kx.2) (map_to_list (delete k m))). lia.
  - rewrite delete_id by done. lia.
Qed.

Lemma add_ds_sum rows bytes m ds :
  sum_map du_rows (foldl (Usage.add_ds rows bytes) m ds) = (sum_map du_rows m + N.of_nat (length ds) * rows)%N.
Proof.
  revert m. induction ds as [|d ds IH]; intros m; cbn [foldl length]; [lia|]. rewrite IH.
  unfold Usage.add_ds at 1.
  pose proof (sum_map_insert du_rows m d (let u := default (mkDsUsage 0 0 0) (m !! d) in
    mkDsUsage (du_query_count u + 1) (du_rows u + rows) (du_bytes u + bytes))) as H.
  cbv zeta in H. cbn [du_rows] in H. destruct (m !! d); cbn [default from_option id du_rows] in *; lia.
Qed.

(** How much of the rows of a query its datasources are charged. *)
Definition charged (e : usage_event) : N :=
  (N.of_nat (length (ue_datasources e)) * Usage.per_ds (ue_datasources e) (ue_rows e))%N.

Lemma charged_le e : (charged e ≤ ue_rows e)%N.
Proof.
  unfold charged, Usage.per_ds. destruct (ue_datasources e) as [|d ds]; [lia|].
  apply N.Div0.mul_div_le.
Qed.

(** After any queries of any tenants are recorded, a tenant's usage counts its
    own queries and adds up their rows, bytes and times exactly; the rows charged
    to its datasources add up to the shares of the queries, rounded down, so
    never to more than its total.  A tenant that recorded nothing has no usage. *)
Theorem usage_adds_up es t :
  let m := foldl record_usage ∅ es in
  let mine := filter (λ e, ue_tenant e = t) es in
  match Usage.usage_get m t with
  | None => mine = []
  | Some u =>
      mine ≠ [] ∧ tenant_id u = t ∧ tu_query_count u = N.of_nat (length mine) ∧
      tu_total_rows u = sum_N ue_rows mine ∧ tu_total_bytes u = sum_N ue_bytes mine ∧
      tu_total_duration_ms u = sum_N ue_duration mine ∧
      sum_map du_rows (datasource_breakdown u) = sum_N charged mine ∧
      (sum_map du_rows (datasource_breakdown u) ≤ tu_total_rows u)%N
  end.
Proof.
  intros m mine.
  assert (match Usage.usage_get m t with
          | None => mine = []
          | Some u => mine ≠ [] ∧ tenant_id u = t ∧ tu_query_count u = N.of_nat (length mine) ∧
              tu_total_rows u = sum_N ue_rows mine ∧ tu_total_bytes u = sum_N ue_bytes mine ∧
              tu_total_duration_ms u = sum_N ue_duration mine ∧
              sum_map du_rows (datasource_breakdown u) = sum_N charged mine
          end) as Hmain.
  { unfold m, mine, Usage.usage_get. clear. induction es as [|e es IH] using rev_ind; [done|].
    rewrite foldl_snoc, filter_app, filter_cons, filter_nil. set (m := foldl _ ∅ es) in *. set (l := filter _ es) in *.
    unfold record_usage at 1, Usage.usage_record. destruct (decide (ue_tenant e = t)) as [Ht|Ht].
    - rewrite Ht, lookup_insert_eq. rewrite !sum_N_app, length_app. cbn [sum_N foldr length].
      destruct (m !! t) as [u|]; cbn [default from_option id tenant_id tu_query_count tu_total_rows
        tu_total_bytes tu_total_duration_ms datasource_breakdown].
      + destruct IH as (Hne & -> & -> & -> & -> & -> & Hs). rewrite add_ds_sum, Hs.
        split_and!; [by destruct l|done|lia..|]. by rewrite N.add_0_r.
      + rewrite IH. rewrite add_ds_sum. split_and!; [done..|cbn; lia|cbn; lia|cbn; lia|cbn; lia|].
        unfold sum_map at 1. rewrite map_to_list_empty. cbn [sum_N foldr]. by rewrite !N.add_0_r.
    - rewrite lookup_insert_ne, app_nil_r by done. exact IH. }
  destruct (Usage.usage_get m t) as [u|]; [|done]. destruct Hmain as (? & ? & ? & Hr & ? & ? & Hs).
  split_and!; try done. rewrite Hs, Hr. clear. induction mine as [|e l IH]; [done|].
  cbn [sum_N foldr]. pose proof (charged_le e). unfold sum_N in *. lia.
Qed.

(** Three rows over two datasources: each is charged one. *)
Lemma usage_remainder_lost :
  (λ u, (tu_total_rows u, sum_map du_rows (datasource_breakdown u))) <$>
    Usage.usage_get (record_usage ∅ (mkUsageEvent "t" ["a"; "b"] 3 0 0)) "t" = Some (3%N, 2%N).
Proof. vm_compute. reflexivity. Qed.

(** *** Costs *)

Lemma costs_add_comm a b : Costs.cost_add a b = Costs.cost_add b a.
Proof. destruct a, b; unfold Costs.cost_add; cbn; f_equal; lia. Qed.
Lemma costs_add_assoc a b c : Costs.cost_add a (Costs.cost_add b c) = Costs.cost_add (Costs.cost_add a b) c.
Proof. destruct a, b, c; unfold Costs.cost_add; cbn; f_equal; lia. Qed.
Lemma costs_add_zero a : Costs.cost_add Costs.zero_cost a = a.
Proof. by destruct a. Qed.

Definition total_cost (l : list CostEntry) : CostEntry := foldr Costs.cost_add Costs.zero_cost l.

Lemma total_cost_app l k : total_cost (l ++ k) = Costs.cost_add (total_cost l) (total_cost k).
Proof.
  induction l as [|x l IH]; cbn; [by rewrite costs_add_zero|].
  unfold total_cost in *. by rewrite IH, costs_add_assoc.
Qed.

#[export] Instance total_cost_perm : Proper ((≡ₚ) ==> (=)) total_cost.
Proof.
  induction 1 as [|x l k _ IH|x y l|l k h _ IH1 _ IH2]; unfold total_cost in *; cbn; [done|by rewrite IH| |congruence].
  by rewrite !costs_add_assoc, (costs_add_comm y x).
Qed.

Record cost_event : Type := mkCostEvent { ce_tenant : string; ce_ds : string; ce_cost : CostEntry }.
(** One query: its rows, bytes and time, counted once. *)
Definition one_query (c : CostEntry) : CostEntry :=
  mkCostEntry 1 (ce_total_rows c) (ce_total_bytes c) (ce_total_duration_ms c).
Definition record_cost (m : Costs.CostTracker) (e : cost_event) : Costs.CostTracker :=
  Costs.cost_record m (ce_tenant e) (ce_ds e) (ce_total_rows (ce_cost e)) (ce_total_bytes (ce_cost e))
    (ce_total_duration_ms (ce_cost e)).

Lemma record_cost_lookup es t d :
  foldl record_cost ∅ es !! (t, d) =
    match filter (λ e, ce_tenant e = t ∧ ce_ds e = d) es with
    | [] => None
    | l => Some (total_cost (one_query ∘ ce_cost <$> l))
    end.
Proof.
  induction es as [|e es IH] using rev_ind; [done|].
  rewrite foldl_snoc, filter_app, filter_cons, filter_nil. set (l := filter _ es) in *.
  unfold record_cost at 1, Costs.cost_record. destruct (decide (ce_tenant e = t ∧ ce_ds e = d)) as [[-> ->]|Hne].
  - rewrite lookup_insert_eq, IH. destruct l as [|x l]; cbn [default from_option id app].
    + f_equal. apply (costs_add_comm Costs.zero_cost (one_query (ce_cost e))).
    + rewrite app_comm_cons, fmap_app, total_cost_app. f_equal.
      change (total_cost (one_query ∘ ce_cost <$> [e])) with (Costs.cost_add (one_query (ce_cost e)) Costs.zero_cost).
      by rewrite (costs_add_comm _ Costs.zero_cost), costs_add_zero.
  - rewrite app_nil_r, lookup_insert_ne by (intros [= ? ?]; naive_solver). exact IH.
Qed.

Section CostsCorrect.
Context (iter : Costs.CostTracker → list (string * string * CostEntry)).
Hypothesis iter_each : ∀ m, iter m ≡ₚ map_to_list m.

Lemma costs_all_fold l d :
  foldl Costs.merge_step ∅ l !! d =
    match filter (λ x : string * string * CostEntry, x.1.2 = d) l with
    | [] => None
    | xs => Some (total_cost xs.*2)
    end.
Proof.
  induction l as [|[[t ds] e] l IH] using rev_ind; [done|].
  rewrite foldl_snoc, filter_app, filter_cons, filter_nil. set (xs := filter _ l) in *. cbn [fst snd Costs.merge_step].
  destruct (decide (ds = d)) as [->|Hne].
  - rewrite lookup_insert_eq, IH. destruct xs as [|x xs]; cbn [default from_option id app].
    + f_equal. apply costs_add_comm.
    + rewrite app_comm_cons, fmap_app, total_cost_app. f_equal. cbn [fmap list_fmap total_cost foldr snd].
      by rewrite (costs_add_comm e), costs_add_zero.
  - rewrite app_nil_r, lookup_insert_ne by done. exact IH.
Qed.

(** The costs of the entries of a datasource. *)
Definition ds_cost (d : string) (l : list (string * string * CostEntry)) : CostEntry :=
  total_cost (filter (λ x : string * string * CostEntry, x.1.2 = d) l).*2.

Lemma ds_cost_perm d l l' : l ≡ₚ l' → ds_cost d l = ds_cost d l'.
Proof. intros H. unfold ds_cost. by rewrite H. Qed.

Lemma ds_cost_cons d k e l :
  ds_cost d ((k, e) :: l) = if decide (k.2 = d) then Costs.cost_add e (ds_cost d l) else ds_cost d l.
Proof. unfold ds_cost. rewrite filter_cons. cbn [fst snd]. by destruct (decide (k.2 = d)). Qed.

(** Adding an event adds its cost to the total of its datasource. *)
Lemma costs_total_record m e d :
  ds_cost d (map_to_list (record_cost m e)) =
    if decide (ce_ds e = d) then Costs.cost_add (ds_cost d (map_to_list m)) (one_query (ce_cost e))
    else ds_cost d (map_to_list m).
Proof.
  set (k := (ce_tenant e, ce_ds e)).
  rewrite (ds_cost_perm d (map_to_list (record_cost m e))
             ((k, Costs.cost_add (default Costs.zero_cost (m !! k)) (one_query (ce_cost e))) :: map_to_list (delete k m))).
  2: { unfold record_cost, Costs.cost_record. fold k. rewrite <- insert_delete_eq.
       rewrite map_to_list_insert by apply lookup_delete_eq. done. }
  rewrite ds_cost_cons. cbn [k snd]. destruct (m !! k) as [c|] eqn:E; cbn [default from_option id].
  - rewrite <- (ds_cost_perm d _ _ (map_to_list_delete m k c E)). rewrite ds_cost_cons. cbn [k snd].
    destruct (decide (ce_ds e = d)); [|done]. rewrite <- !costs_add_assoc. f_equal. apply costs_add_comm.
  - rewrite delete_id by done. destruct (decide (ce_ds e = d)); [|done].
    rewrite costs_add_zero. apply costs_add_comm.
Qed.

Lemma costs_for_tenant_fold l t d e :
  NoDup l.*1 → foldl (Costs.tenant_step t) ∅ l !! d = Some e ↔ (t, d, e) ∈ l.
Proof.
  induction l as [|[[t' ds] e0] l IH] using rev_ind; intros Hnd; [set_solver|].
  rewrite fmap_app in Hnd. apply NoDup_app in Hnd as (Hnd & Hfresh & _). specialize (IH Hnd).
  rewrite foldl_snoc, elem_of_app, list_elem_of_singleton, <- IH. cbn [Costs.tenant_step].
  assert (foldl (Costs.tenant_step t) ∅ l !! ds = Some e → (t', ds) = (t, ds) → ds = d → False) as Hno.
  { intros H [= ->] <-. apply IH in H. apply (Hfresh (t, ds)); [|set_solver].
    apply list_elem_of_fmap. by exists (t, ds, e). }
  destruct (decide (t' = t)) as [->|Ht]; [|naive_solver].
  destruct (decide (ds = d)) as [->|Hd].
  - rewrite lookup_insert_eq. naive_solver.
  - rewrite lookup_insert_ne by done. naive_solver.
Qed.

(** Whatever queries of whatever tenants were recorded, and in whatever order
    the hash map is walked, the cost of a datasource over all tenants is the sum
    over the queries on it, and a tenant is shown for each datasource the sum
    over its own queries on it and nothing else. *)
Theorem costs_add_up es t d :
  let m := foldl record_cost ∅ es in
  Costs.all_costs iter m !! d =
    match filter (λ e, ce_ds e = d) es with [] => None | l => Some (total_cost (one_query ∘ ce_cost <$> l)) end ∧
  Costs.for_tenant iter m t !! d =
    match filter (λ e, ce_tenant e = t ∧ ce_ds e = d) es with
    | [] => None
    | l => Some (total_cost (one_query ∘ ce_cost <$> l))
    end.
Proof.
  intros m. split.
  - unfold Costs.all_costs. rewrite costs_all_fold.
    assert (filter (λ x : string * string * CostEntry, x.1.2 = d) (iter m) = [] ↔ filter (λ e, ce_ds e = d) es = []) as Hnil.
    { rewrite !Forall_filter_nil. rewrite iter_each, !Forall_forall. unfold m. split.
      - intros H e He Hd. assert (is_Some (foldl record_cost ∅ es !! (ce_tenant e, ce_ds e))) as [c Hc].
        { rewrite record_cost_lookup.
          assert (e ∈ filter (λ e', ce_tenant e' = ce_tenant e ∧ ce_ds e' = ce_ds e) es) as Hin
            by by apply list_elem_of_filter.
          destruct (filter _ es); [set_solver|by eexists]. }
        apply (H ((ce_tenant e, ce_ds e), c)); [by apply elem_of_map_to_list|done].
      - intros H [[t' d'] c] Hc%elem_of_map_to_list Hd. cbn in Hd. subst d'. rewrite record_cost_lookup in Hc.
        destruct (filter _ es) as [|e l] eqn:E; [done|].
        assert (e ∈ filter (λ e, ce_tenant e = t' ∧ ce_ds e = d) es) as [[_ Hd] He]%list_elem_of_filter
          by (rewrite E; set_solver).
        by apply (H e). }
    assert (ds_cost d (iter m) = total_cost (one_query ∘ ce_cost <$> filter (λ e, ce_ds e = d) es)) as Hsum.
    { rewrite (ds_cost_perm _ _ _ (iter_each m)). unfold m. clear. induction es as [|e es IH] using rev_ind; [done|].
      rewrite foldl_snoc, costs_total_record, IH, filter_app, filter_cons, filter_nil.
      destruct (decide (ce_ds e = d)); [|by rewrite app_nil_r].
      rewrite fmap_app, total_cost_app. f_equal. cbn [fmap list_fmap total_cost foldr compose].
      by rewrite (costs_add_comm _ Costs.zero_cost), costs_add_zero. }
    unfold ds_cost in Hsum.
    destruct (filter _ (iter m)), (filter _ es); [done|naive_solver|naive_solver|by rewrite Hsum].
  - unfold m. rewrite <- record_cost_lookup. fold m. unfold Costs.for_tenant.
    apply option_eq. intros e. rewrite costs_for_tenant_fold; [by rewrite iter_each, elem_of_map_to_list|].
    rewrite iter_each. apply NoDup_fst_map_to_list.
Qed.
End CostsCorrect.

Lemma costs_add_up_witness :
  let ev t d r := mkCostEvent t d (mkCostEntry 0 r 0 0) in
  let es := [ev "a" "os" 3%N; ev "b" "os" 4%N; ev "a" "pg" 5%N] in
  Costs.all_costs map_to_list (foldl record_cost ∅ es) !! "os" = Some (mkCostEntry 2 7 0 0).
Proof.
  intros ev es.
  destruct (costs_add_up map_to_list (λ m, reflexivity _) es "a" "os") as [-> _].
  vm_compute. reflexivity.
Defined.

(** ** The query policy *)

(** A text occurs in another, anywhere in it. *)
Definition occurs (p s : string) : Prop := ∃ a b, s = a +:+ p +:+ b.

Lemma contains_iff p s : Policy.contains p s = true ↔ occurs p s.
Proof.
  unfold occurs, Policy.contains. rewrite bool_decide_eq_true. induction s as [|c s IH]; cbn [find_sub].
  - destruct (starts_with p "") eqn:E.
    + split; [|by eexists]. intros _. apply starts_with_iff in E as [t E]. by exists "", t.
    + split; [by intros [? ?]|]. intros (a & b & Hab). destruct a; [|done].
      change ("" +:+ ?x) with x in Hab. rewrite (proj2 (starts_with_iff p "")) in E by by exists b. done.
  - destruct (starts_with p (String c s)) eqn:E.
    + split; [|by eexists]. intros _. apply starts_with_iff in E as [t ->]. by exists "", t.
    + rewrite fmap_is_Some, IH. split.
      * intros (a & b & ->). by exists (String c a), b.
      * intros (a & b & Hab). destruct a as [|d a].
        -- change ("" +:+ ?x) with x in Hab. rewrite (proj2 (starts_with_iff p _)) in E by by exists b. done.
        -- rewrite str_app_cons in Hab. injection Hab as <- ->. by exists a, b.
Qed.

(** The policy denies a query exactly when one of its patterns occurs in the
    query put in upper case and trimmed, anywhere in it, and names the first
    such pattern. *)
Theorem policy_denies_patterns p query :
  let upper := to_uppercase (trim query) in
  (Policy.check p query = Allowed ↔ ∀ pat, pat ∈ p → ¬ occurs pat upper) ∧
  (∀ reason, Policy.check p query = Denied reason ↔
     ∃ pre pat post, p = pre ++ pat :: post ∧ occurs pat upper ∧ (∀ q, q ∈ pre → ¬ occurs q upper) ∧
       reason = "query matches deny pattern: " +:+ trim pat).
Proof.
  intros upper. unfold Policy.check. fold upper.
  assert (∀ q, Policy.contains q upper = false ↔ ¬ occurs q upper) as Hno.
  { intros q. by rewrite <- not_true_iff_false, contains_iff. }
  induction p as [|q p IH]; cbn [List.find].
  - split; [split; [intros _ pat []%elem_of_nil|done]|].
    intros reason. split; [done|]. intros ([|? ?] & ? & ? & ? & _); done.
  - destruct (Policy.contains q upper) eqn:E.
    + apply contains_iff in E. split; [split; [done|]; intros H; by destruct (H q ltac:(set_solver))|].
      intros reason. split.
      * intros [= <-]. exists [], q, p. split_and!; [done..|set_solver|done].
      * intros ([|q' pre] & pat & post & Hp & _ & Hpre & ->); injection Hp as -> ->; [done|].
        by destruct (Hpre q' ltac:(set_solver)).
    + apply Hno in E. destruct IH as [IH1 IH2]. split.
      * rewrite IH1. split; [|set_solver]. intros H pat [->|Hpat]%elem_of_cons; [done|by apply H].
      * intros reason. rewrite IH2. split.
        -- intros (pre & pat & post & -> & Hu & Hpre & Hr). exists (q :: pre), pat, post.
           split_and!; [done..| |done]. intros q' [->|Hq']%elem_of_cons; [done|by apply Hpre].
        -- intros ([|q' pre] & pat & post & Hp & Hu & Hpre & Hr); injection Hp as -> ->; [done|].
           exists pre, pat, post. split_and!; [done..| |done]. intros. apply Hpre. set_solver.
Qed.

(** A tab in place of the blank gets a statement past the default patterns, and a
    word inside a literal is denied. *)
Definition TAB : string := String (ascii_of_nat 9) "".
Lemma policy_blank_only :
  Policy.check Policy.with_defaults ("DROP" +:+ TAB +:+ "TABLE t") = Allowed ∧
  Policy.check Policy.with_defaults "SELECT * FROM t WHERE a = 'rain drop x'" =
    Denied "query matches deny pattern: DROP".
Proof. split; vm_compute; reflexivity. Qed.

(** ** Tags, aliases and keyed stores *)

Lemma tags_inverse r q t : q ∈ Tags.find_by_tag r t ↔ t ∈ Tags.get_tags r q.
Proof.
  unfold Tags.find_by_tag, Tags.get_tags. rewrite elem_of_dom. unfold is_Some.
  setoid_rewrite map_lookup_filter_Some. cbn. destruct (r !! q) as [s|]; cbn; set_solver.
Qed.

Lemma tag_untag r q t q' t' :
  (t' ∈ Tags.get_tags (Tags.tag r q t) q' ↔ (q' = q ∧ t' = t) ∨ t' ∈ Tags.get_tags r q') ∧
  (t' ∈ Tags.get_tags (Tags.untag r q t) q' ↔ ¬ (q' = q ∧ t' = t) ∧ t' ∈ Tags.get_tags r q').
Proof.
  unfold Tags.get_tags, Tags.tag, Tags.untag. destruct (decide (q' = q)) as [->|Hne].
  - rewrite lookup_insert_eq, lookup_alter_eq. destruct (r !! q) as [s|]; cbn; set_solver.
  - rewrite lookup_insert_ne, lookup_alter_ne by done. naive_solver.
Qed.

Section KeyedCorrect.
Context {R : Type} `{Keyed R}.

Inductive keyed_op : Type := KSave (r : R) | KDelete (k : string).
Definition keyed_step (s : gmap string R) (o : keyed_op) : gmap string R :=
  match o with KSave r => save s r | KDelete k => (delete_key s k).2 end.

(** A keyed store holds under a key the record saved last with that key, unless
    the key was deleted since. *)
Lemma keyed_store_last ops k r :
  lookup_key (foldl keyed_step ∅ ops) k = Some r ↔
  ∃ pre post, ops = pre ++ KSave r :: post ∧ record_key r = k ∧
    Forall (λ o, match o with KSave r' => record_key r' ≠ k | KDelete k' => k' ≠ k end) post.
Proof.
  unfold lookup_key. induction ops as [|o ops IH] using rev_ind.
  { split; [done|]. intros ([] & ? & ? & _); done. }
  rewrite foldl_snoc.
  assert ((∃ pre post, ops ++ [o] = pre ++ KSave r :: post ∧ record_key r = k ∧
             Forall (λ o, match o with KSave r' => record_key r' ≠ k | KDelete k' => k' ≠ k end) post) ↔
          (o = KSave r ∧ record_key r = k) ∨
          (match o with KSave r' => record_key r' ≠ k | KDelete k' => k' ≠ k end ∧
           foldl keyed_step ∅ ops !! k = Some r)) as ->.
  { rewrite IH. split.
    - intros (pre & post & E & Hk & Hp). destruct post as [|p post _] using rev_ind.
      + apply app_inj_tail in E as [-> ->]. by left.
      + rewrite app_comm_cons, app_assoc in E. apply app_inj_tail in E as [-> ->].
        apply Forall_app in Hp as [Hp Hl]. inversion_clear Hl. right. eauto 10.
    - intros [[-> Hk]|(Ho & pre & post & -> & Hk & Hp)].
      + exists ops, []. split_and!; [done..|constructor].
      + exists pre, (post ++ [o]). rewrite <- app_assoc. split_and!; [done..|].
        apply Forall_app. split; [done|by repeat constructor]. }
  destruct o as [r'|k']; cbn [keyed_step]; unfold save, delete_key; cbn [snd].
  - destruct (decide (record_key r' = k)) as [Hk|Hk].
    + rewrite <- Hk at 1. rewrite lookup_insert_eq. naive_solver.
    + rewrite lookup_insert_ne by done. naive_solver.
  - destruct (decide (k' = k)) as [->|Hk].
    + rewrite lookup_delete_eq. naive_solver.
    + rewrite lookup_delete_ne by done. naive_solver.
Qed.
End KeyedCorrect.

(** Resolving is one step: an alias of an alias is not followed. *)
Lemma alias_resolves r a ds name :
  Alias.resolve (Alias.alias_set r a ds) a = ds ∧
  (name ≠ a → Alias.resolve (Alias.alias_set r a ds) name = Alias.resolve r name) ∧
  (r !! name = None → Alias.resolve r name = name).
Proof.
  unfold Alias.resolve, Alias.alias_set. split_and!.
  - by rewrite lookup_insert_eq.
  - intros Hn. by rewrite lookup_insert_ne.
  - by intros ->.
Qed.
