(* ===== verification/SharedState.v ===== *)
(** * SharedState: stores that live in Redis or in memory

    Models [fuse-server/src/shared_state.rs]: saved queries, query history,
    audit log and tenants, each kept in Redis when a URL is configured and in
    memory otherwise.  The Redis client is the class [RedisClient]; what Redis
    documents of its commands, for a server that answers, is [RedisLaws], and
    [RefRedis] is a small database that satisfies it.  Serialisation is a pair
    of parameters with the law that a record reads back. *)

From stdpp Require Import base list strings gmap pretty.
From Stdlib Require Import NArith ZArith Lia.
From S2P Require Import Prelude Strs Sorting Logs Stores Tenancy.

(** ** Redis *)

Class RedisClient : Type := {
  db : Type;
  (** [get_multiplexed_async_connection()] succeeds *)
  connects : db → bool;
  (** a command that fails answers [None]; errors of writes are ignored *)
  hset : string → string → string → db → db;
  hget : string → string → db → option (option string);
  hdel : string → string → db → option Z * db;
  hvals : string → db → option (list string);
  del : string → db → db;
  lpush : string → string → db → db;
  ltrim : string → Z → Z → db → db;
  lrange : string → Z → Z → db → option (list string);
}.

(** The elements from [start] to [stop], both included; a negative index counts
    from the end. *)
Definition redis_index (len : nat) (i : Z) : Z := if (i <? 0)%Z then Z.max 0 (i + Z.of_nat len) else i.
Definition redis_range (start stop : Z) (l : list string) : list string :=
  let start := redis_index (length l) start in
  let stop := (if (stop <? 0)%Z then stop + Z.of_nat (length l) else stop)%Z in
  if (stop <? start)%Z then [] else take (Z.to_nat (stop - start + 1)) (drop (Z.to_nat start) l).

Class RedisLaws (R : RedisClient) : Type := {
  hashes : db → string → gmap string string;
  lists : db → string → list string;
  connects_true d : connects d = true;
  hset_hashes k f v d : hashes (hset k f v d) k = <[f := v]> (hashes d k);
  hget_hashes k f d : hget k f d = Some (hashes d k !! f);
  hdel_answer k f d : (hdel k f d).1 = Some (if bool_decide (is_Some (hashes d k !! f)) then 1 else 0)%Z;
  hdel_hashes k f d : hashes (hdel k f d).2 k = delete f (hashes d k);
  hvals_hashes k d : ∃ l, hvals k d = Some l ∧ l ≡ₚ (map_to_list (hashes d k)).*2;
  del_hashes k d : hashes (del k d) k = ∅;
  lpush_lists k v d : lists (lpush k v d) k = v :: lists d k;
  ltrim_lists k i j d : lists (ltrim k i j d) k = redis_range i j (lists d k);
  lrange_lists k i j d : lrange k i j d = Some (redis_range i j (lists d k));
}.

(** ** The stores *)

(** [Self::Redis { client, .. }] or [Self::InMemory(store)]. *)
Inductive Shared (D M : Type) : Type :=
| InRedis (d : D)
| InMemory (m : M).
Arguments InRedis {D M} d.
Arguments InMemory {D M} m.

Definition is_redis {D M : Type} (s : Shared D M) : bool := match s with InRedis _ => true | InMemory _ => false end.

(** [redis_client()]: none without a URL, or when the URL cannot be opened. *)
Definition redis_client {D : Type} (url : option string) (open : string → option D) : option D := url ≫= open.

(** [from_env]. *)
Definition from_env {D M : Type} (url : option string) (open : string → option D) (initial : M) : Shared D M :=
  match redis_client url open with Some d => InRedis d | None => InMemory initial end.

Section Stores.
Context `{R : RedisClient}.

(** A record is serialised, stored and read back. *)
Class Serde (A : Type) : Type := { ser : A → option string; de : string → option A }.

(** *** A hash of records *)

Section Hash.
Context {A : Type} `{S : Serde A} (key : string) (field : A → string).

Definition hash_save (a : A) (d : db) : db :=
  if negb (connects d) then d
  else match ser a with Some json => hset key (field a) json d | None => d end.

Definition hash_get (name : string) (d : db) : option A :=
  if negb (connects d) then None
  else data ← hget key name d; s ← data; de s.

Definition hash_delete (name : string) (d : db) : bool * db :=
  if negb (connects d) then (false, d)
  else let '(removed, d) := hdel key name d in ((0 <? default 0 removed)%Z, d).

Definition hash_list (d : db) : list A :=
  if negb (connects d) then [] else omap de (default [] (hvals key d)).

Definition hash_reload (l : list A) (d : db) : db :=
  if negb (connects d) then d
  else foldl (λ d a, match ser a with Some json => hset key (field a) json d | None => d end) (del key d) l.
End Hash.

(** *** A bounded list of records, the newest first *)

Section Log.
Context {A : Type} `{S : Serde A} (key : string) (max : nat).

Definition log_push (a : A) (d : db) : db :=
  if negb (connects d) then d
  else match ser a with
       | Some json => ltrim key 0 (Z.of_nat max - 1) (lpush key json d)
       | None => d
       end.

Definition log_range (stop : Z) (d : db) : list A :=
  if negb (connects d) then [] else omap de (default [] (lrange key 0 stop d)).
Definition log_list (d : db) : list A := log_range (-1) d.

(** [(n - 1) as i64] on a machine word: for [n = 0] it is -1. *)
Definition minus_one (n : nat) : Z := wrap_i64 (Z.of_nat n - 1).
Definition log_recent (n : nat) (d : db) : list A := log_range (minus_one n) d.
End Log.

(** *** Saved queries *)

Definition SAVED_KEY : string := "fuse:saved_queries".
Abbreviation SharedSavedQueries := (Shared db (gmap string SavedQuery)).

Section Saved.
Context `{Serde SavedQuery} (walk : gmap string SavedQuery → list (string * SavedQuery)).
Definition saved_save (s : SharedSavedQueries) (q : SavedQuery) : SharedSavedQueries :=
  match s with InRedis d => InRedis (hash_save SAVED_KEY sv_name q d) | InMemory m => InMemory (save m q) end.
Definition saved_get (s : SharedSavedQueries) (name : string) : option SavedQuery :=
  match s with InRedis d => hash_get SAVED_KEY name d | InMemory m => lookup_key m name end.
Definition saved_delete (s : SharedSavedQueries) (name : string) : bool * SharedSavedQueries :=
  match s with
  | InRedis d => let '(b, d) := hash_delete SAVED_KEY name d in (b, InRedis d)
  | InMemory m => let '(b, m) := delete_key m name in (b, InMemory m)
  end.
Definition saved_list (s : SharedSavedQueries) : list SavedQuery :=
  match s with InRedis d => hash_list SAVED_KEY d | InMemory m => (walk m).*2 end.
End Saved.

(** *** History and audit log *)

Definition HISTORY_KEY : string := "fuse:history".
Abbreviation SharedQueryHistory := (Shared db (list HistoryEntry)).

Section History.
Context `{Serde HistoryEntry}.
Definition shared_push (s : SharedQueryHistory) (e : HistoryEntry) : SharedQueryHistory :=
  match s with InRedis d => InRedis (log_push HISTORY_KEY MAX_HISTORY e d) | InMemory h => InMemory (History.push h e) end.
Definition shared_list (s : SharedQueryHistory) : list HistoryEntry :=
  match s with InRedis d => log_list HISTORY_KEY d | InMemory h => History.list_entries h end.
Definition shared_recent (s : SharedQueryHistory) (max : nat) : list HistoryEntry :=
  match s with InRedis d => log_recent HISTORY_KEY max d | InMemory h => History.recent h max end.
End History.

Definition AUDIT_KEY : string := "fuse:audit".
Definition MAX_AUDIT : nat := 500.
Abbreviation SharedAuditLog := (Shared db (list AuditEntry)).

Section AuditLog.
Context `{Serde AuditEntry}.
(** The in-memory log panics only when it has no room at all. *)
Definition shared_record (s : SharedAuditLog) (e : AuditEntry) : option SharedAuditLog :=
  match s with
  | InRedis d => Some (InRedis (log_push AUDIT_KEY MAX_AUDIT e d))
  | InMemory l => InMemory <$> Audit.audit_record MAX_AUDIT l e
  end.
Definition shared_audit_recent (s : SharedAuditLog) (limit : nat) : list AuditEntry :=
  match s with InRedis d => log_recent AUDIT_KEY limit d | InMemory l => Audit.audit_recent l limit end.
End AuditLog.

(** *** Tenants *)

Definition TENANT_KEY : string := "fuse:tenants".
Abbreviation SharedTenantRegistry := (Shared db (list TenantConfig)).

Section Tenants.
Context `{Serde TenantConfig}.
Definition tenants_list (s : SharedTenantRegistry) : list TenantConfig :=
  match s with InRedis d => hash_list TENANT_KEY d | InMemory l => l end.
Definition tenants_get (s : SharedTenantRegistry) (id : string) : option TenantConfig :=
  match s with InRedis d => hash_get TENANT_KEY id d | InMemory l => List.find (λ c, bool_decide (tenant_id c = id)) l end.

(** The first configuration of that tenant is replaced. *)
Fixpoint replace_first (c : TenantConfig) (l : list TenantConfig) : list TenantConfig :=
  match l with
  | [] => [c]
  | x :: l => if bool_decide (tenant_id x = tenant_id c) then c :: l else x :: replace_first c l
  end.
Definition tenants_put (s : SharedTenantRegistry) (c : TenantConfig) : SharedTenantRegistry :=
  match s with InRedis d => InRedis (hash_save TENANT_KEY tenant_id c d) | InMemory l => InMemory (replace_first c l) end.
Definition tenants_remove (s : SharedTenantRegistry) (id : string) : bool * SharedTenantRegistry :=
  match s with
  | InRedis d => let '(b, d) := hash_delete TENANT_KEY id d in (b, InRedis d)
  | InMemory l => let kept := filter (λ c, tenant_id c ≠ id) l in (length kept <? length l, InMemory kept)
  end.
Definition tenants_reload (s : SharedTenantRegistry) (cs : list TenantConfig) : SharedTenantRegistry :=
  match s with InRedis d => InRedis (hash_reload TENANT_KEY tenant_id cs d) | InMemory _ => InMemory cs end.
End Tenants.
End Stores.

(** ** A database that behaves as documented *)

Definition RefRedis : RedisClient := {|
  db := gmap string (gmap string string) * gmap string (list string);
  connects := λ _, true;
  hset := λ k f v d, (<[k := <[f := v]> (default ∅ (d.1 !! k))]> d.1, d.2);
  hget := λ k f d, Some (default ∅ (d.1 !! k) !! f);
  hdel := λ k f d, (Some (if bool_decide (is_Some (default ∅ (d.1 !! k) !! f)) then 1 else 0)%Z, (<[k := delete f (default ∅ (d.1 !! k))]> d.1, d.2));
  hvals := λ k d, Some (map_to_list (default ∅ (d.1 !! k))).*2;
  del := λ k d, (delete k d.1, delete k d.2);
  lpush := λ k v d, (d.1, <[k := v :: default [] (d.2 !! k)]> d.2);
  ltrim := λ k i j d, (d.1, <[k := redis_range i j (default [] (d.2 !! k))]> d.2);
  lrange := λ k i j d, Some (redis_range i j (default [] (d.2 !! k)));
|}.

#[export] Program Instance RefRedis_laws : RedisLaws RefRedis := {|
  hashes := λ (d : @db RefRedis) k, default ∅ (d.1 !! k); lists := λ (d : @db RefRedis) k, default [] (d.2 !! k) |}.
Next Obligation. done. Qed.
Next Obligation. intros k f v d. cbn. by rewrite lookup_insert_eq. Qed.
Next Obligation. done. Qed.
Next Obligation. done. Qed.
Next Obligation. intros k f d. cbn. by rewrite lookup_insert_eq. Qed.
Next Obligation. intros k d. by eexists. Qed.
Next Obligation. intros k d. cbn. by rewrite lookup_delete_eq. Qed.
Next Obligation. intros k v d. cbn. by rewrite lookup_insert_eq. Qed.
Next Obligation. intros k i j d. cbn. by rewrite lookup_insert_eq. Qed.
Next Obligation. done. Qed.

(** * Redis and memory give the same answers

    With a Redis that answers and records that read back, a store kept in
    Redis cannot be told from one kept in memory: both simulate a finite map
    (saved queries, tenants) or the newest entries of a log (history, audit).
    Lemmas state where the two differ. *)

(** ** Stores of records under a name *)

Record Kv (S A : Type) : Type := mkKv {
  kv_put : S → A → S; kv_get : S → string → option A; kv_delete : S → string → bool * S; kv_list : S → list A }.
Arguments mkKv {S A}.
Arguments kv_put {S A}.
Arguments kv_get {S A}.
Arguments kv_delete {S A}.
Arguments kv_list {S A}.

Inductive kv_op (A : Type) : Type := KPut (a : A) | KGet (n : string) | KDelete (n : string) | KList.
Arguments KPut {A}.
Arguments KGet {A}.
Arguments KDelete {A}.
Arguments KList {A}.
Inductive kv_out (A : Type) : Type := Done | Found (a : option A) | Deleted (b : bool) | Listed (l : list A).
Arguments Done {A}.
Arguments Found {A}.
Arguments Deleted {A}.
Arguments Listed {A}.

Definition kv_step {S A : Type} (K : Kv S A) (s : S) (o : kv_op A) : kv_out A * S :=
  match o with
  | KPut a => (Done, kv_put K s a)
  | KGet n => (Found (kv_get K s n), s)
  | KDelete n => let '(b, s) := kv_delete K s n in (Deleted b, s)
  | KList => (Listed (kv_list K s), s)
  end.
Fixpoint kv_run {S A : Type} (K : Kv S A) (s : S) (os : list (kv_op A)) : list (kv_out A) :=
  match os with
  | [] => []
  | o :: os => let '(x, s) := kv_step K s o in x :: kv_run K s os
  end.

(** Answers are the same up to the order of a listing. *)
Definition same_answer {A : Type} (x y : kv_out A) : Prop :=
  match x, y with Listed l, Listed k => l ≡ₚ k | _, _ => x = y end.

#[export] Instance same_answer_equivalence {A : Type} : Equivalence (@same_answer A).
Proof.
  split.
  - intros []; cbn; reflexivity.
  - intros [] []; cbn; done || (intros; by symmetry).
  - intros [] [] []; cbn; try done; [congruence|congruence|]. apply transitivity.
Qed.

(** A store that simulates another, step by step. *)
Record simulates {S T A : Type} (K : Kv S A) (L : Kv T A) (rel : S → T → Prop) : Prop := {
  sim_put s t a : rel s t → rel (kv_put K s a) (kv_put L t a);
  sim_get s t n : rel s t → kv_get K s n = kv_get L t n;
  sim_delete s t n : rel s t → (kv_delete K s n).1 = (kv_delete L t n).1 ∧ rel (kv_delete K s n).2 (kv_delete L t n).2;
  sim_list s t : rel s t → kv_list K s ≡ₚ kv_list L t;
}.

Lemma kv_run_same {S T A : Type} (K : Kv S A) (L : Kv T A) rel os : simulates K L rel →
  ∀ s t, rel s t → Forall2 same_answer (kv_run K s os) (kv_run L t os).
Proof.
  intros [Hp Hg Hd Hl]. induction os as [|[a|n|n|] os IH]; intros s t Hst; cbn [kv_run kv_step]; [constructor|..].
  - constructor; [done|]. by apply IH, Hp.
  - constructor; [cbn; by rewrite (Hg s t n Hst)|]. by apply IH.
  - specialize (Hd s t n Hst). destruct (kv_delete K s n) as [b s'], (kv_delete L t n) as [b' t']. cbn in Hd. destruct Hd as [-> Hr].
    constructor; [done|]. by apply IH.
  - constructor; [by apply Hl|]. by apply IH.
Qed.

(** The specification: a finite map. *)
Definition map_kv {A : Type} (field : A → string) : Kv (gmap string A) A :=
  mkKv (λ m a, <[field a := a]> m) (λ m n, m !! n) (λ m n, (bool_decide (is_Some (m !! n)), delete n m)) (λ m, (map_to_list m).*2).

(** ** Redis hashes *)

Class SerdeLaws (A : Type) `{Serde A} : Prop := de_ser (a : A) : ∃ s, ser a = Some s ∧ de s = Some a.

Section Hash.
Context `{R : RedisClient, !RedisLaws R} {A : Type} `{S : Serde A, !SerdeLaws A} (key : string) (field : A → string).

Definition text (a : A) : string := default "" (ser a).
Lemma ser_text a : ser a = Some (text a).
Proof. unfold text. by destruct (de_ser a) as (s & -> & _). Qed.
Lemma de_text a : de (text a) = Some a.
Proof. unfold text. by destruct (de_ser a) as (s & -> & Hs). Qed.
Lemma omap_de_text (l : list A) : omap de (text <$> l) = l.
Proof. induction l as [|a l IH]; [done|]. cbn. by rewrite de_text, IH. Qed.

Definition hash_holds (d : db) (m : gmap string A) : Prop := hashes d key = text <$> m.

Definition redis_kv : Kv db A := mkKv (λ d a, hash_save key field a d) (λ d n, hash_get key n d) (λ d n, hash_delete key n d) (hash_list key).

Lemma redis_simulates_map : simulates redis_kv (map_kv field) hash_holds.
Proof.
  split; unfold hash_holds; cbn; intros d m.
  - intros a Hd. unfold hash_save. rewrite connects_true, ser_text. cbn. by rewrite hset_hashes, Hd, fmap_insert.
  - intros n Hd. unfold hash_get. rewrite connects_true, hget_hashes. cbn. rewrite Hd, lookup_fmap. destruct (m !! n); [|done]. cbn. apply de_text.
  - intros n Hd. unfold hash_delete. rewrite connects_true. cbn. pose proof (hdel_answer key n d) as Ha. pose proof (hdel_hashes key n d) as Hh.
    destruct (hdel key n d) as [r d']. cbn in *. subst r. split; [|by rewrite Hh, Hd, fmap_delete]. rewrite Hd, lookup_fmap. by destruct (m !! n).
  - intros Hd. unfold hash_list. rewrite connects_true. cbn. destruct (hvals_hashes key d) as (l & -> & Hl). cbn. rewrite Hl, Hd, map_to_list_fmap.
    rewrite <- list_fmap_compose. change (snd ∘ prod_map id text) with (text ∘ (snd (A := string) (B := A))). by rewrite list_fmap_compose, omap_de_text.
Qed.

(** Reloading keeps, of records of one name, the last. *)
Lemma reload_holds l d : hash_holds (hash_reload key field l d) (foldl (λ m a, <[field a := a]> m) ∅ l).
Proof.
  unfold hash_reload. rewrite connects_true. cbn. assert (hash_holds (del key d) ∅) as H by (unfold hash_holds; by rewrite del_hashes, fmap_empty).
  revert H. generalize (del key d) (∅ : gmap string A). induction l as [|a l IH]; intros d' m Hd; [done|]. cbn [foldl]. rewrite ser_text. apply IH.
  unfold hash_holds in *. by rewrite hset_hashes, Hd, fmap_insert.
Qed.
End Hash.

(** ** Saved queries *)

Section Saved.
Context `{R : RedisClient, !RedisLaws R} `{S : Serde SavedQuery, !SerdeLaws SavedQuery}.
Context (walk : gmap string SavedQuery → list (string * SavedQuery)) (Hwalk : ∀ m, walk m ≡ₚ map_to_list m).

Definition saved_kv : Kv (Shared db (gmap string SavedQuery)) SavedQuery := mkKv saved_save saved_get saved_delete (saved_list walk).

Definition saved_holds (s : Shared db (gmap string SavedQuery)) (m : gmap string SavedQuery) : Prop :=
  match s with InRedis d => hash_holds SAVED_KEY d m | InMemory m' => m' = m end.

Lemma saved_simulates_map : simulates saved_kv (map_kv sv_name) saved_holds.
Proof.
  destruct (redis_simulates_map SAVED_KEY sv_name) as [Hp Hg Hd Hl]. cbn in *.
  split; intros [d|m'] m; cbn; try apply Hp; try apply Hg; try apply Hl; try (intros ? ->; done).
  - intros n Hm. specialize (Hd d m n Hm). by destruct (hash_delete SAVED_KEY n d).
  - intros ->. by rewrite Hwalk.
Qed.
End Saved.

(** ** Tenants *)

Definition tenant_map (l : list TenantConfig) : gmap string TenantConfig := list_to_map ((λ c, (tenant_id c, c)) <$> l).
Definition distinct_tenants (l : list TenantConfig) : Prop := NoDup (tenant_id <$> l).

Lemma tenant_keys l : ((λ c, (tenant_id c, c)) <$> l).*1 = tenant_id <$> l.
Proof. by rewrite <- list_fmap_compose. Qed.

Lemma tenant_map_find l i : List.find (λ c, bool_decide (tenant_id c = i)) l = tenant_map l !! i.
Proof.
  induction l as [|c l IH]; [done|]. unfold tenant_map in *. cbn. case_bool_decide as Hc; [subst; by rewrite lookup_insert_eq|].
  by rewrite lookup_insert_ne.
Qed.

Lemma tenant_map_list l : distinct_tenants l → (map_to_list (tenant_map l)).*2 ≡ₚ l.
Proof.
  intros Hd. unfold tenant_map. rewrite map_to_list_to_map by by rewrite tenant_keys. by rewrite <- list_fmap_compose, list_fmap_id.
Qed.

Lemma replace_first_ids c l : tenant_id <$> replace_first c l = if decide (tenant_id c ∈ tenant_id <$> l) then tenant_id <$> l else (tenant_id <$> l) ++ [tenant_id c].
Proof.
  induction l as [|x l IH]; cbn [replace_first]; [by rewrite decide_False by apply not_elem_of_nil|]. case_bool_decide as Hx.
  - rewrite decide_True by (cbn; rewrite Hx; left). cbn. by rewrite Hx.
  - rewrite !fmap_cons, IH. destruct (decide (tenant_id c ∈ tenant_id <$> l)) as [Hin|Hin].
    + by rewrite decide_True by by right.
    + rewrite decide_False by (rewrite elem_of_cons; naive_solver). done.
Qed.

Lemma replace_first_distinct c l : distinct_tenants l → distinct_tenants (replace_first c l).
Proof.
  unfold distinct_tenants. rewrite replace_first_ids. case_decide as Hin; [done|]. intros Hl. apply NoDup_app. split; [done|].
  split; [|apply NoDup_singleton]. intros i Hi ->%list_elem_of_singleton. done.
Qed.

Lemma replace_first_map c l : tenant_map (replace_first c l) = <[tenant_id c := c]> (tenant_map l).
Proof.
  unfold tenant_map. induction l as [|x l IH]; cbn [replace_first]; [done|]. case_bool_decide as Hx; cbn.
  - by rewrite Hx, insert_insert_eq.
  - rewrite IH. by rewrite insert_insert_ne.
Qed.

Lemma filter_map i l : tenant_map (filter (λ c, tenant_id c ≠ i) l) = delete i (tenant_map l).
Proof.
  unfold tenant_map. induction l as [|x l IH]; [cbn; by rewrite delete_empty|]. destruct (decide (tenant_id x = i)) as [Hx|Hx].
  - rewrite filter_cons_False by naive_solver. cbn. by rewrite IH, Hx, delete_insert_eq.
  - rewrite filter_cons_True by done. cbn. rewrite IH. by rewrite delete_insert_ne.
Qed.

Lemma filter_shorter i l : (length (filter (λ c, tenant_id c ≠ i) l) <? length l) = bool_decide (is_Some (tenant_map l !! i)).
Proof.
  assert (∀ l, length (filter (λ c, tenant_id c ≠ i) l) ≤ length l) as Hle by (intros k; apply length_filter).
  unfold tenant_map. induction l as [|x l IH]; [done|]. destruct (decide (tenant_id x = i)) as [Hx|Hx].
  - rewrite filter_cons_False by naive_solver. cbn. rewrite Hx, lookup_insert_eq. rewrite bool_decide_eq_true_2 by by eexists. apply Nat.leb_le, Hle.
  - rewrite filter_cons_True by done. cbn. rewrite lookup_insert_ne by done. exact IH.
Qed.

Section Tenants.
Context `{R : RedisClient, !RedisLaws R} `{S : Serde TenantConfig, !SerdeLaws TenantConfig}.

Definition tenants_kv : Kv (Shared db (list TenantConfig)) TenantConfig := mkKv tenants_put tenants_get tenants_remove tenants_list.

Definition tenants_hold (s : Shared db (list TenantConfig)) (m : gmap string TenantConfig) : Prop :=
  match s with InRedis d => hash_holds TENANT_KEY d m | InMemory l => distinct_tenants l ∧ tenant_map l = m end.

Lemma tenants_simulate_map : simulates tenants_kv (map_kv tenant_id) tenants_hold.
Proof.
  destruct (redis_simulates_map TENANT_KEY tenant_id) as [Hp Hg Hd Hl]. cbn in *.
  split; intros [d|l] m; cbn; try apply Hp; try apply Hg; try apply Hl.
  - intros c [Hl' <-]. split; [by apply replace_first_distinct|apply replace_first_map].
  - intros i [_ <-]. apply tenant_map_find.
  - intros n Hm. specialize (Hd d m n Hm). by destruct (hash_delete TENANT_KEY n d).
  - intros i [Hl' <-]. split; [apply filter_shorter|]. split; [|apply filter_map].
    eapply sublist_NoDup; [exact Hl'|]. apply fmap_sublist, sublist_filter.
  - intros [Hl' <-]. symmetry. by apply tenant_map_list.
Qed.
End Tenants.

(** ** Logs *)

Section Logs.
Context `{R : RedisClient, !RedisLaws R} {A : Type} `{S : Serde A, !SerdeLaws A} (key : string) (max : nat).

Lemma range_take (n : nat) (l : list string) : 0 < n → redis_range 0 (Z.of_nat n - 1) l = take n l.
Proof.
  intros Hn. unfold redis_range, redis_index. cbn [Z.ltb Z.compare]. destruct (Z.ltb_spec (Z.of_nat n - 1) 0); [lia|].
  destruct (Z.ltb_spec (Z.of_nat n - 1) 0); [lia|]. cbn [Z.to_nat]. rewrite drop_0. f_equal. lia.
Qed.

Lemma range_all (l : list string) : redis_range 0 (-1) l = l.
Proof.
  unfold redis_range, redis_index. cbn [Z.ltb Z.compare]. destruct (Z.ltb_spec (-1 + Z.of_nat (length l)) 0).
  - by destruct l; [|cbn in *; lia].
  - cbn [Z.to_nat]. rewrite drop_0. apply take_ge. lia.
Qed.

(** The list in Redis is the log in memory from its end. *)
Definition log_holds (d : db) (l : list A) : Prop := lists d key = text <$> reverse l ∧ length l ≤ max.

Lemma reverse_push (l : list A) a : 0 < max → length l ≤ max → reverse (push_pop max l a) = take max (a :: reverse l).
Proof.
  intros Hm Hl. unfold push_pop. rewrite reverse_snoc. destruct max as [|k]; [lia|]. cbn [take]. f_equal.
  destruct (Nat.leb_spec (Datatypes.S k) (length l)).
  - destruct l as [|x l]; [cbn in *; lia|]. cbn [tail length] in *. rewrite reverse_cons, take_app_le by (rewrite length_reverse; lia).
    rewrite take_ge; [done|]. rewrite length_reverse. lia.
  - rewrite take_ge; [done|]. rewrite length_reverse. lia.
Qed.

Lemma push_pop_bounded (l : list A) a : 0 < max → length l ≤ max → length (push_pop max l a) ≤ max.
Proof. intros Hm Hl. rewrite <- length_reverse, reverse_push by done. rewrite length_take. lia. Qed.

Lemma log_push_holds d l a : 0 < max → log_holds d l → log_holds (log_push key max a d) (push_pop max l a).
Proof.
  intros Hm [Hd Hl]. split; [|by apply push_pop_bounded]. unfold log_push. rewrite connects_true, ser_text. cbn.
  rewrite ltrim_lists, range_take by done. rewrite lpush_lists, Hd. by rewrite reverse_push, fmap_take by done.
Qed.

Lemma log_list_holds d l : log_holds d l → log_list key d = reverse l.
Proof. intros [Hd _]. unfold log_list, log_range. rewrite connects_true, lrange_lists, range_all, Hd. cbn. apply omap_de_text. Qed.

Lemma minus_one_small (n : nat) : 0 < n → (Z.of_nat n ≤ i64_max)%Z → minus_one n = (Z.of_nat n - 1)%Z.
Proof. intros Hn Hb. unfold minus_one. apply wrap_i64_id. unfold i64_min. lia. Qed.

Lemma log_recent_holds d l n : 0 < n → (Z.of_nat n ≤ i64_max)%Z → log_holds d l → log_recent key n d = newest n l.
Proof.
  intros Hn Hb [Hd _]. unfold log_recent, log_range. rewrite connects_true, lrange_lists, minus_one_small, range_take, Hd by done. cbn.
  unfold newest. rewrite <- fmap_take. apply omap_de_text.
Qed.

(** Asking for no entries gives all of them: one less than nothing is the last
    index. *)
Lemma recent_none_is_all d l : log_holds d l → log_recent key 0 d = reverse l.
Proof. intros H. rewrite <- (log_list_holds d l H). done. Qed.
End Logs.

(** ** The stores of the server *)

(** The logs in memory: any number of pushes keeps them related. *)
Lemma history_holds `{R : RedisClient, !RedisLaws R} `{S : Serde HistoryEntry, !SerdeLaws HistoryEntry} d es :
  lists d HISTORY_KEY = [] →
  ∃ d' h, foldl shared_push (InRedis d) es = InRedis d' ∧ foldl shared_push (InMemory (D := db) []) es = InMemory h ∧ log_holds HISTORY_KEY MAX_HISTORY d' h.
Proof.
  intros Hd. induction es as [|e es IH] using rev_ind.
  - exists d, []. split; [done|]. split; [done|]. split; [by rewrite Hd|cbn; lia].
  - destruct IH as (d' & h & H1 & H2 & H3). rewrite !foldl_snoc, H1, H2. do 2 eexists. split; [done|]. split; [done|].
    apply (log_push_holds (A := HistoryEntry)); [unfold MAX_HISTORY; lia|done].
Qed.

(** Audit entries recorded one by one; [None] would be a panic. *)
Definition record_all `{R : RedisClient} `{S : Serde AuditEntry} (s : Shared db (list AuditEntry)) (es : list AuditEntry) : option (Shared db (list AuditEntry)) :=
  foldl (λ s e, s ≫= λ s, shared_record s e) (Some s) es.

Lemma audit_push max l e : 0 < max → Audit.audit_record max l e = Some (push_pop max l e).
Proof. intros Hm. unfold Audit.audit_record, push_pop. destruct (Nat.leb_spec max (length l)); [|done]. by destruct l; [cbn in *; lia|]. Qed.

Lemma audit_holds `{R : RedisClient, !RedisLaws R} `{S : Serde AuditEntry, !SerdeLaws AuditEntry} d es :
  lists d AUDIT_KEY = [] →
  ∃ d' l, record_all (InRedis d) es = Some (InRedis d') ∧ record_all (InMemory []) es = Some (InMemory l) ∧ log_holds AUDIT_KEY MAX_AUDIT d' l.
Proof.
  intros Hd. assert (0 < MAX_AUDIT) as Hm by (unfold MAX_AUDIT; lia). unfold record_all. induction es as [|e es IH] using rev_ind.
  - exists d, []. split; [done|]. split; [done|]. split; [by rewrite Hd|cbn; lia].
  - destruct IH as (d' & l & H1 & H2 & H3). rewrite !foldl_snoc, H1, H2. cbn [mbind option_bind shared_record]. rewrite audit_push by done. do 2 eexists.
    split; [done|]. split; [done|]. by apply (log_push_holds (A := AuditEntry)).
Qed.

(** The shared logs do not depend on where they are kept.  With a Redis
    that answers, records that read back and nothing stored before, after any
    pushes the history and the audit log list the same entries in Redis and
    in memory, the newest first and at most 50 and 500, and so do requests
    for a positive number of recent entries; no record panics. *)
Theorem shared_logs_agree `{R : RedisClient, !RedisLaws R} `{!Serde HistoryEntry, !SerdeLaws HistoryEntry} `{!Serde AuditEntry, !SerdeLaws AuditEntry}
    d (hs : list HistoryEntry) (es : list AuditEntry) : lists d HISTORY_KEY = [] → lists d AUDIT_KEY = [] →
  let hr := foldl shared_push (InRedis d) hs in
  let hm := foldl shared_push (InMemory []) hs in
  shared_list hr = shared_list hm ∧ shared_list hm = take 50 (reverse hs) ∧
  (∀ n, 0 < n → (Z.of_nat n ≤ i64_max)%Z → shared_recent hr n = shared_recent hm n) ∧
  ∃ ar am, record_all (InRedis d) es = Some ar ∧ record_all (InMemory []) es = Some am ∧
    ∀ n, 0 < n → (Z.of_nat n ≤ i64_max)%Z → shared_audit_recent ar n = shared_audit_recent am n.
Proof.
  intros Hh Ha hr hm. destruct (history_holds d hs Hh) as (d' & h & Hr & Hm & Hl). subst hr hm. rewrite Hr, Hm.
  assert (h = last_n 50 hs) as Eh.
  { assert (∀ es : list HistoryEntry, foldl shared_push (InMemory (D := db) []) es = InMemory (foldl (push_pop MAX_HISTORY) [] es)) as H.
    { intros l. induction l as [|e l IH] using rev_ind; [done|]. by rewrite !foldl_snoc, IH. }
    rewrite H in Hm. injection Hm as <-. apply push_pop_all. unfold MAX_HISTORY. lia. }
  split; [by apply (log_list_holds (A := HistoryEntry) _ MAX_HISTORY)|]. split; [|split].
  - cbn. unfold History.list_entries. rewrite Eh. unfold last_n. rewrite reverse_drop.
    destruct (decide (length hs ≤ 50)); [rewrite !take_ge; [done|..]; rewrite length_reverse; lia|]. f_equal. lia.
  - intros n Hn Hb. by apply (log_recent_holds (A := HistoryEntry) _ MAX_HISTORY).
  - destruct (audit_holds d es Ha) as (d2 & l & H1 & H2 & H3). exists (InRedis d2), (InMemory l). split; [done|]. split; [done|].
    intros n Hn Hb. by apply (log_recent_holds (A := AuditEntry) _ MAX_AUDIT).
Qed.

(** Reloading configurations of different tenants: both stores hold just them. *)
Lemma reload_distinct (cs : list TenantConfig) : ∀ m : gmap string TenantConfig, distinct_tenants cs →
  foldl (λ m a, <[tenant_id a := a]> m) m cs = tenant_map cs ∪ m.
Proof.
  unfold distinct_tenants, tenant_map. induction cs as [|c cs IH]; intros m Hd; [cbn; by rewrite (left_id_L ∅ (∪))|].
  cbn [fmap list_fmap] in Hd. apply NoDup_cons in Hd as [Hni Hd]. cbn [foldl]. rewrite IH by done. cbn.
  rewrite <- insert_union_r, insert_union_l; [done|]. apply not_elem_of_list_to_map_1. by rewrite tenant_keys.
Qed.

(** C28: the shared saved queries and tenants do not depend on where they are
    kept: with a Redis that every call reaches and that answers, records that
    read back and empty stores at the start, any sequence of puts, gets,
    deletes and listings gives the same answers in Redis and in memory, up to
    the order of a listing; and so does any such sequence after the tenants were
    reloaded, into whatever the two stores held, with configurations of
    different names - with two of one name they differ
    ([duplicate_tenants_differ]), and when Redis cannot be reached it is as if
    its store were empty ([unreachable_is_empty]). *)
Theorem shared_maps_agree `{R : RedisClient, !RedisLaws R} `{!Serde SavedQuery, !SerdeLaws SavedQuery} `{!Serde TenantConfig, !SerdeLaws TenantConfig}
    (walk : gmap string SavedQuery → list (string * SavedQuery)) d l cs qs ts :
  (∀ m, walk m ≡ₚ map_to_list m) → hashes d SAVED_KEY = ∅ →
  Forall2 same_answer (kv_run (saved_kv walk) (InRedis d) qs) (kv_run (saved_kv walk) (InMemory ∅) qs) ∧
  (hashes d TENANT_KEY = ∅ → Forall2 same_answer (kv_run tenants_kv (InRedis d) ts) (kv_run tenants_kv (InMemory []) ts)) ∧
  (NoDup (tenant_id <$> cs) →
   Forall2 same_answer (kv_run tenants_kv (tenants_reload (InRedis d) cs) ts) (kv_run tenants_kv (tenants_reload (InMemory l) cs) ts)).
Proof.
  intros Hw Hs.
  assert (∀ (S A : Type) (K : Kv S A) field rel os s t m, simulates K (map_kv field) rel → rel s m → rel t m →
    Forall2 same_answer (kv_run K s os) (kv_run K t os)) as Hboth.
  { intros S A K field rel os s t m Hsim Hs' Ht'. pose proof (kv_run_same K _ rel os Hsim s m Hs') as H1.
    pose proof (kv_run_same K _ rel os Hsim t m Ht') as H2. etransitivity; [exact H1|]. by symmetry. }
  split_and!.
  - eapply Hboth; [by apply saved_simulates_map| |done]. unfold saved_holds, hash_holds. by rewrite Hs, fmap_empty.
  - intros Ht. eapply Hboth; [apply tenants_simulate_map| |]; [unfold tenants_hold, hash_holds; by rewrite Ht, fmap_empty|split; [constructor|done]].
  - intros Hd. eapply (Hboth _ _ _ _ _ _ _ _ (tenant_map cs)); [apply tenants_simulate_map| |by split]. cbn [tenants_reload tenants_hold].
    pose proof (reload_holds TENANT_KEY tenant_id cs d) as H. by rewrite reload_distinct, (right_id_L ∅ (∪)) in H.
Qed.

(** ** Where the two differ *)

(** Of two configurations of one tenant in a reloaded list, Redis answers with
    the last and the store in memory with the first. *)
Lemma duplicate_tenants_differ `{R : RedisClient, !RedisLaws R} `{!Serde TenantConfig, !SerdeLaws TenantConfig} (d : db) (l : list TenantConfig) a b :
  tenant_id a = tenant_id b →
  tenants_get (tenants_reload (InRedis d) [a; b]) (tenant_id a) = Some b ∧
  tenants_get (tenants_reload (InMemory (D := db) l) [a; b]) (tenant_id a) = Some a.
Proof.
  intros Hab. split; cbn [tenants_get tenants_reload].
  - pose proof (sim_get _ _ _ (redis_simulates_map TENANT_KEY tenant_id) _ _ (tenant_id a) (reload_holds TENANT_KEY tenant_id [a; b] d)) as H.
    cbn in H. rewrite H. by rewrite Hab, lookup_insert_eq.
  - cbn. by rewrite bool_decide_eq_true_2.
Qed.

(** When no connection can be had, everything is as if the store were empty,
    and writes are lost without an error. *)
Lemma unreachable_is_empty `{R : RedisClient} `{!Serde TenantConfig} (d : db) id c : connects d = false →
  tenants_list (InRedis d) = [] ∧ tenants_get (InRedis d) id = None ∧ tenants_put (InRedis d) c = InRedis d ∧
  (tenants_remove (InRedis d) id).1 = false.
Proof. intros H. cbn. unfold hash_list, hash_get, hash_save, hash_delete. by rewrite H. Qed.

(** The configured tenants are not put into Redis at the start. *)
Lemma redis_starts_without_tenants `{R : RedisClient, !RedisLaws R} `{!Serde TenantConfig, !SerdeLaws TenantConfig} url open (initial : list TenantConfig) d :
  redis_client url open = Some d → hashes d TENANT_KEY = ∅ → tenants_list (from_env url open initial) = [].
Proof.
  intros Hu Hd. unfold from_env. rewrite Hu. cbn.
  assert (hash_holds (A := TenantConfig) TENANT_KEY d ∅) as Hh by (unfold hash_holds; by rewrite Hd, fmap_empty).
  pose proof (sim_list _ _ _ (redis_simulates_map TENANT_KEY tenant_id) d ∅ Hh) as H. cbn in H. by apply Permutation_nil_r in H.
Qed.

(** ** Records that read back *)

Section CountableSerde.
Context {A : Type} `{Countable A}.
Definition countable_serde : Serde A := {|
  ser := λ a, Some (pretty (N.pos (encode a)));
  de := λ s, n ← parse_digits s; match n with N0 => None | N.pos p => decode p end |}.
Lemma countable_serde_laws : SerdeLaws A (H := countable_serde).
Proof. intros a. exists (pretty (N.pos (encode a))). split; [done|]. unfold de, countable_serde. rewrite parse_pretty. cbn. apply decode_encode. Qed.
End CountableSerde.

#[local] Instance history_eq_dec : EqDecision HistoryEntry.
Proof. solve_decision. Defined.
#[local] Instance history_countable : Countable HistoryEntry.
Proof.
  apply (inj_countable' (λ e, (h_query e, h_format e, h_timestamp e, latency_ms e, row_count e, h_error e))
    (λ '(a, b, c, d, e, f), mkHistory a b c d e f)). by intros [].
Defined.
#[local] Instance action_eq_dec : EqDecision AuditAction.
Proof. solve_decision. Defined.
Definition actions : list AuditAction := [AQuery; AExplain; AValidate; AListDatasources; AGetSchema; ATraceReconstruction; ASavedQueryCreate; ASavedQueryDelete].
#[local] Instance action_countable : Countable AuditAction.
Proof.
  refine (inj_countable (λ a, default 0 (fst <$> list_find (a =.) actions)) (λ n, actions !! n) _). by intros [].
Defined.
#[local] Instance status_eq_dec : EqDecision AuditStatus.
Proof. solve_decision. Defined.
#[local] Instance status_countable : Countable AuditStatus.
Proof.
  refine (inj_countable (λ a, match a with ASuccess => 0 | AError => 1 | ADenied => 2 end) (λ n, [ASuccess; AError; ADenied] !! n) _). by intros [].
Defined.
#[local] Instance audit_eq_dec : EqDecision AuditEntry.
Proof. solve_decision. Defined.
#[local] Instance audit_countable : Countable AuditEntry.
Proof.
  apply (inj_countable' (λ e, (a_timestamp e, identity e, a_action e, a_query e, a_datasources e, a_duration_ms e, a_row_count e, a_status e, a_error e, client_ip e))
    (λ '(a, b, c, d, e, f, g, h, i, j), mkAudit a b c d e f g h i j)). by intros [].
Defined.
#[local] Instance saved_eq_dec : EqDecision SavedQuery.
Proof. solve_decision. Defined.
#[local] Instance saved_countable : Countable SavedQuery.
Proof. apply (inj_countable' (λ q, (sv_name q, sv_query q, sv_format q, sv_description q)) (λ '(a, b, c, d), mkSaved a b c d)). by intros []. Defined.
#[local] Instance tenant_eq_dec : EqDecision TenantConfig.
Proof. solve_decision. Defined.
#[local] Instance tenant_countable : Countable TenantConfig.
Proof.
  apply (inj_countable' (λ t, (tenant_id t, allowed_datasources t, max_concurrent_queries t, max_rows t, max_time_ms t, max_result_bytes t, max_queries_per_minute t))
    (λ '(a, b, c, d, e, f, g), mkTenant a b c d e f g)). by intros [].
Defined.

Definition ex_entry (n : N) : HistoryEntry := mkHistory "SELECT 1" "sql" n 3 1 None.
Definition ex_saved (n : string) : SavedQuery := mkSaved n "SELECT 1" "sql" "".

Lemma shared_logs_agree_witness :
  let s := foldl (shared_push (R := RefRedis) (H := countable_serde)) (InRedis (∅, ∅)) [ex_entry 1; ex_entry 2] in
  shared_list (R := RefRedis) (H := countable_serde) s = [ex_entry 2; ex_entry 1].
Proof.
  destruct (shared_logs_agree (R := RefRedis) (Serde0 := countable_serde) (SerdeLaws0 := countable_serde_laws) (Serde1 := countable_serde) (SerdeLaws1 := countable_serde_laws)
    ((∅, ∅) : @db RefRedis) [ex_entry 1; ex_entry 2] []) as (H1 & H2 & _); [done|done|].
  exact (eq_trans H1 H2).
Defined.

Lemma shared_maps_agree_witness :
  Forall2 same_answer
    (kv_run (saved_kv (R := RefRedis) (S := countable_serde) map_to_list) (InRedis (∅, ∅)) [KPut (ex_saved "a"); KGet "a"; KDelete "b"; KList])
    [Done; Found (Some (ex_saved "a")); Deleted false; Listed [ex_saved "a"]].
Proof.
  destruct (shared_maps_agree (R := RefRedis) (Serde0 := countable_serde) (SerdeLaws0 := countable_serde_laws) (Serde1 := countable_serde) (SerdeLaws1 := countable_serde_laws)
    map_to_list ((∅, ∅) : @db RefRedis) [] [] [KPut (ex_saved "a"); KGet "a"; KDelete "b"; KList] []) as [H _]; [done|done|].
  exact H.
Defined.
