(* ===== verification/Routing.v ===== *)
(** * Routing: where a query goes and how long it may take

    Models the parts of [fuse-server/src] that decide from what was measured:
    [federation.rs] (remote instances and routes), [smart_routing.rs] (the
    fastest connector), [adaptive_timeout.rs], [adaptive_parallelism.rs],
    [pool_stats.rs], [rate_monitor.rs] and [connector_health_history.rs].  The
    clock and the order in which a hash map is walked are arguments. *)

From stdpp Require Import base list strings gmap sorting.
From Stdlib Require Import NArith ZArith Lia SpecFloat Sorted.
From S2P Require Import Prelude Strs Float Sorting Logs.

(** [v.push(x); if v.len() > max { v.remove(0) }]. *)
Definition push_remove {A : Type} (max : nat) (l : list A) (x : A) : list A :=
  let l := l ++ [x] in if max <? length l then tail l else l.

(** ** Instances and routes ([federation.rs]) *)

Module Federation.
Inductive InstanceStatus : Type := Healthy | Unhealthy | Unknown.
#[export] Instance InstanceStatus_eq_dec : EqDecision InstanceStatus.
Proof. solve_decision. Defined.

Record FederatedInstance : Type := mkInstance {
  id : string; url : string; name : option string; datasources : list string; status : InstanceStatus;
  latency_ms : option N; last_checked : option N }.

Abbreviation FederationRegistry := (gmap string FederatedInstance).

Definition register (r : FederationRegistry) (i : FederatedInstance) : FederationRegistry := <[id i := i]> r.
Definition remove (r : FederationRegistry) (n : string) : bool * FederationRegistry := (bool_decide (is_Some (r !! n)), delete n r).
Definition update_status (r : FederationRegistry) (n : string) (s : InstanceStatus) (latency : option N) (now : N) : FederationRegistry :=
  alter (λ i, mkInstance (id i) (url i) (name i) (datasources i) s latency (Some now)) n r.

Inductive RouteTarget : Type := Local | Remote (instance_id url : string) | NotFound.

Definition serves (ds : string) (i : FederatedInstance) : bool := bool_decide (status i = Healthy) && bool_decide (ds ∈ datasources i).

Section Routes.
(** The instances in the order of the hash map, and the local connectors. *)
Context (walk : FederationRegistry → list FederatedInstance) (local : string → bool).

Definition find_owner (r : FederationRegistry) (ds : string) : option (string * string) :=
  (λ i, (id i, url i)) <$> List.find (serves ds) (walk r).

Definition resolve_route (r : FederationRegistry) (ds : string) : RouteTarget :=
  if local ds then Local
  else match find_owner r ds with Some (i, u) => Remote i u | None => NotFound end.

(** Sums of [u64], which wrap. *)
Definition u64_add (a b : N) : N := (a + b) `mod` 2 ^ 64.
Definition route_cost (i : FederatedInstance) : N :=
  u64_add (u64_add (default 100%N (latency_ms i)) match status i with Healthy => 0 | Unknown => 200 | Unhealthy => 10000 end)
    (N.of_nat (length (datasources i))).

Definition cost_based_route (r : FederationRegistry) (ds : string) : RouteTarget :=
  if local ds then Local
  else
    let candidates := (λ i, (i, route_cost i)) <$> filter (λ i, serves ds i = true) (walk r) in
    match sort_by (λ a b, N.compare a.2 b.2) candidates with
    | (best, _) :: _ => Remote (id best) (url best)
    | [] => NotFound
    end.
End Routes.

Record FederationTopology : Type := mkTopology { instance_count : nat; healthy_count : nat; total_datasources : nat; instances : list FederatedInstance }.
Definition topology (walk : FederationRegistry → list FederatedInstance) (r : FederationRegistry) : FederationTopology :=
  let l := walk r in
  mkTopology (length l) (length (filter (λ i, status i = Healthy) l)) (sum_list (length ∘ datasources <$> l)) l.
End Federation.

(** ** Latencies ([smart_routing.rs], [adaptive_timeout.rs]) *)

Module Latencies.
Definition MAX_SAMPLES : nat := 100.
Abbreviation Samples := (gmap string (list N)).

(** [SmartRouter::record]. *)
Definition router_record (m : Samples) (c : string) (latency : N) : Samples :=
  <[c := push_remove MAX_SAMPLES (default [] (m !! c)) latency]> m.

Definition sorted (l : list N) : list N := sort_by N.compare l.
Definition p50 (l : list N) : N := default 0%N (sorted l !! (length l / 2)).

Record ConnectorLatencyStats : Type := mkLatency { connector_id : string; avg_ms : f64; p50_ms : N; p95_ms : N; sample_count : nat }.
Definition stats (m : Samples) (c : string) : option ConnectorLatencyStats :=
  v ← m !! c;
  match v with
  | [] => None
  | _ =>
      let n := length v in
      Some (mkLatency c (fdiv (f64_of_N (History.sum_u64 v)) (f64_of_N (N.of_nat n))) (p50 v)
        (default 0%N (sorted v !! ((n * 95 / 100) `min` (n - 1)))) n)
  end.

Definition candidate (m : Samples) (c : string) : option (string * N) :=
  v ← m !! c; match v with [] => None | _ => Some (c, p50 v) end.
Definition fastest (m : Samples) (candidates : list string) : option string :=
  fst <$> min_by_key snd (omap (candidate m) candidates).

(** [AdaptiveTimeout]: its parameters, and [record]. *)
Record AdaptiveTimeout : Type := mkTimeouts { latencies : Samples; multiplier : f64; min_ms : N; max_ms : N; fallback_ms : N }.
Definition timeouts_new : AdaptiveTimeout := mkTimeouts ∅ (f64_of_N 3) 5000 120000 30000.
Definition timeout_record (t : AdaptiveTimeout) (ds : string) (latency : N) : AdaptiveTimeout :=
  mkTimeouts (<[ds := push_pop MAX_SAMPLES (default [] (latencies t !! ds)) latency]> (latencies t)) (multiplier t) (min_ms t) (max_ms t) (fallback_ms t).

(** [((pct / 100.0) * (len - 1)).ceil() as usize]. *)
Definition percentile_index (pct : N) (len : nat) : nat :=
  N.to_nat (History.ceil_as_usize (fmul (fdiv (f64_of_N pct) (f64_of_N 100)) (f64_of_N (N.of_nat (len - 1))))).
Definition percentile (l : list N) (pct : N) : N := default 0%N (sorted l !! (percentile_index pct (length l) `min` (length l - 1))).

(** [x.clamp(lo, hi)]. *)
Definition clamp (x lo hi : N) : N := if (x <? lo)%N then lo else if (hi <? x)%N then hi else x.
Definition adaptive_ms (t : AdaptiveTimeout) (p95 : N) : N := clamp (f64_as_u64 (fmul (f64_of_N p95) (multiplier t))) (min_ms t) (max_ms t).
Definition timeout_ms_for (t : AdaptiveTimeout) (ds : string) : N :=
  match latencies t !! ds with
  | Some ((_ :: _) as l) => adaptive_ms t (percentile l 95)
  | _ => fallback_ms t
  end.
End Latencies.

(** ** Fan-out ([adaptive_parallelism.rs]) *)

Module Parallelism.
Definition DEFAULT_CONCURRENCY : N := 4.
Definition MIN_CONCURRENCY : N := 1.
Definition MAX_CONCURRENCY : N := 16.
Definition SAMPLES_FOR_ADJUSTMENT : N := 10.
Definition f_0_3 : f64 := S754_finite false 5404319552844595 (-54).
Definition f_0_05 : f64 := S754_finite false 7205759403792794 (-57).

Record DatasourceStats : Type := mkStats { concurrency : N; recent_latencies : list N; recent_errors : N; recent_successes : N }.
Definition fresh : DatasourceStats := mkStats DEFAULT_CONCURRENCY [] 0 0.
Abbreviation AdaptiveParallelism := (gmap string DatasourceStats).

Definition concurrency_for (m : AdaptiveParallelism) (ds : string) : N := from_option concurrency DEFAULT_CONCURRENCY (m !! ds).

Definition adjusted (s : DatasourceStats) : N :=
  let error_rate := fdiv (f64_of_N (recent_errors s)) (f64_of_N (recent_successes s + recent_errors s)) in
  if fltb f_0_3 error_rate then N.max (concurrency s / 2) MIN_CONCURRENCY
  else if fltb error_rate f_0_05 && negb (bool_decide (recent_latencies s = [])) then
    if (History.sum_u64 (recent_latencies s) / N.of_nat (length (recent_latencies s)) <? 500)%N
    then N.min (concurrency s + 1) MAX_CONCURRENCY else concurrency s
  else concurrency s.

Definition maybe_adjust (s : DatasourceStats) : DatasourceStats :=
  if (recent_successes s + recent_errors s <? SAMPLES_FOR_ADJUSTMENT)%N then s
  else mkStats (adjusted s) (recent_latencies s) 0 0.

Definition record_success (m : AdaptiveParallelism) (ds : string) (latency : N) : AdaptiveParallelism :=
  let s := default fresh (m !! ds) in
  <[ds := maybe_adjust (mkStats (concurrency s) (push_pop 100 (recent_latencies s) latency) (recent_errors s) (recent_successes s + 1))]> m.
Definition record_failure (m : AdaptiveParallelism) (ds : string) : AdaptiveParallelism :=
  let s := default fresh (m !! ds) in
  <[ds := maybe_adjust (mkStats (concurrency s) (recent_latencies s) (recent_errors s + 1) (recent_successes s))]> m.
End Parallelism.

(** ** Connections in use ([pool_stats.rs]) *)

Module Pools.
Record PoolState : Type := mkPool { active : N; max_size : N; total_acquired : N; total_timeouts : N }.
Abbreviation PoolStatsTracker := (gmap string PoolState).
Definition u32_add (a b : N) : N := (a + b) `mod` 4294967296.

Definition register (t : PoolStatsTracker) (c : string) (max : N) : PoolStatsTracker := <[c := mkPool 0 max 0 0]> t.
Definition acquire (t : PoolStatsTracker) (c : string) : PoolStatsTracker :=
  alter (λ s, mkPool (u32_add (active s) 1) (max_size s) (total_acquired s + 1) (total_timeouts s)) c t.
Definition release (t : PoolStatsTracker) (c : string) : PoolStatsTracker :=
  alter (λ s, mkPool (active s - 1) (max_size s) (total_acquired s) (total_timeouts s)) c t.
Definition timeout (t : PoolStatsTracker) (c : string) : PoolStatsTracker :=
  alter (λ s, mkPool (active s) (max_size s) (total_acquired s) (total_timeouts s + 1)) c t.

Record PoolStats : Type := mkPoolStats { ps_id : string; ps_active : N; idle : N; ps_max : N; utilization_pct : f64; ps_acquired : N; ps_timeouts : N }.
Definition get (t : PoolStatsTracker) (c : string) : option PoolStats :=
  (λ s, mkPoolStats c (active s) (max_size s - active s) (max_size s)
     (if (0 <? max_size s)%N then fmul (fdiv (f64_of_N (active s)) (f64_of_N (max_size s))) (f64_of_N 100) else f_zero)
     (total_acquired s) (total_timeouts s)) <$> t !! c.
End Pools.

(** ** Queries per second ([rate_monitor.rs]) *)

Module Rate.
(** Times in nanoseconds. *)
Definition cutoff (window_secs : N) : N := window_secs * 1000000000.

Fixpoint drop_old (window now : N) (ts : list N) : list N :=
  match ts with
  | t :: ts' => if (cutoff window <? now - t)%N then drop_old window now ts' else ts
  | [] => []
  end.
Definition record (window : N) (ts : list N) (now : N) : list N := drop_old window now (ts ++ [now]).
Definition in_window (window now : N) (ts : list N) : list N := filter (λ t, (now - t ≤ cutoff window)%N) ts.
Definition qps (window : N) (ts : list N) (now : N) : f64 :=
  if bool_decide (ts = []) || (window =? 0)%N then f_zero
  else fdiv (f64_of_N (N.of_nat (length (in_window window now ts)))) (f64_of_N window).
End Rate.

(** ** Health over time ([connector_health_history.rs]) *)

Module Health.
Definition MAX_ENTRIES : nat := 1000.
Record HealthRecord : Type := mkHealth { timestamp_secs : N; healthy : bool; latency_ms : N; message : option string }.
Record ConnectorHealthSummary : Type := mkSummary {
  connector_id : string; total_checks : nat; healthy_checks : nat; uptime_pct : f64; avg_latency_ms : f64; p99_latency_ms : N; recent : list HealthRecord }.
Abbreviation HealthHistory := (gmap string (list HealthRecord)).

(** The loop pops at most once, since the queue was within its bound. *)
Definition record (m : HealthHistory) (c : string) (r : HealthRecord) : HealthHistory :=
  <[c := push_drain MAX_ENTRIES (default [] (m !! c)) r]> m.

Definition summary (m : HealthHistory) (c : string) (limit : nat) : option ConnectorHealthSummary :=
  (λ es,
     let total := length es in
     let ok := length (filter (λ r, healthy r = true) es) in
     let l := sort_by N.compare (latency_ms <$> es) in
     mkSummary c total ok
       (if 0 <? total then fmul (fdiv (f64_of_N (N.of_nat ok)) (f64_of_N (N.of_nat total))) (f64_of_N 100) else f_zero)
       (if 0 <? total then fdiv (f64_of_N (History.sum_u64 (latency_ms <$> es))) (f64_of_N (N.of_nat total)) else f_zero)
       (default 0%N (l !! ((length l * 99 / 100) `min` (length l - 1)))) (newest limit es)) <$> m !! c.
End Health.

(** * Routes are served, timeouts follow what was measured

    A route leads to a healthy instance that has the datasource, the cheapest
    one when there are several; the timeout of a datasource is three times a
    latency that 95 percent of its last hundred queries kept; the fan-out
    stays within its bounds; the rate counts the queries of the window. *)

(** ** Routes *)

Section Routes.
Import Federation.
Context (walk : FederationRegistry → list FederatedInstance) (local : string → bool).
Context (Hwalk : ∀ r, walk r ≡ₚ (map_to_list r).*2).

(** An instance of the registry that can serve a datasource. *)
Definition server (r : FederationRegistry) (ds : string) (i : FederatedInstance) : Prop :=
  (∃ k, r !! k = Some i) ∧ status i = Healthy ∧ ds ∈ datasources i.

Lemma serves_iff r ds i : i ∈ walk r ∧ serves ds i = true ↔ server r ds i.
Proof.
  unfold server, serves. rewrite (Hwalk r), andb_true_iff, !bool_decide_eq_true, list_elem_of_fmap. split.
  - intros [([k j] & -> & Hk%elem_of_map_to_list) H]. split; [by exists k|done].
  - intros [[k Hk] H]. split; [|done]. exists (k, i). split; [done|]. by apply elem_of_map_to_list.
Qed.

Lemma find_owner_spec r ds :
  match find_owner walk r ds with
  | Some (n, u) => ∃ i, server r ds i ∧ id i = n ∧ url i = u
  | None => ∀ i, ¬ server r ds i
  end.
Proof.
  unfold find_owner. destruct (List.find (serves ds) (walk r)) as [i|] eqn:E; cbn.
  - apply find_some in E as [Hin Hs]. exists i. split; [|done]. apply serves_iff. split; [by apply list_elem_of_In|done].
  - intros i [Hin Hs]%serves_iff. apply list_elem_of_In in Hin. by rewrite (find_none _ _ E i Hin) in Hs.
Qed.

Definition by_cost (a b : FederatedInstance * N) : comparison := N.compare a.2 b.2.
#[local] Instance by_cost_preorder : TotalPreorder by_cost.
Proof. apply (total_preorder_by snd N.compare), _. Qed.

Lemma candidates_spec r ds :
  match sort_by by_cost ((λ i, (i, route_cost i)) <$> filter (λ i, serves ds i = true) (walk r)) with
  | (best, _) :: _ => server r ds best ∧ ∀ i, server r ds i → (route_cost best ≤ route_cost i)%N
  | [] => ∀ i, ¬ server r ds i
  end.
Proof.
  set (l := (λ i, (i, route_cost i)) <$> filter (λ i, serves ds i = true) (walk r)).
  assert (∀ i c, (i, c) ∈ l ↔ server r ds i ∧ c = route_cost i) as Hl.
  { intros i c. unfold l. rewrite list_elem_of_fmap. setoid_rewrite list_elem_of_filter. rewrite <- serves_iff. naive_solver. }
  pose proof (sort_by_Permutation by_cost l) as Hp. pose proof (sort_by_sorted by_cost l) as Hs.
  destruct (sort_by by_cost l) as [|[best c] rest].
  - intros i Hi. assert ((i, route_cost i) ∈ l) as Hin by by apply Hl. rewrite <- Hp in Hin. by apply not_elem_of_nil in Hin.
  - assert ((best, c) ∈ l) as [Hb ->]%Hl by (rewrite <- Hp; by left). split; [done|]. intros i Hi.
    assert ((i, route_cost i) ∈ l) as Hin by by apply Hl. rewrite <- Hp in Hin. apply elem_of_cons in Hin as [[= -> _]|Hin]; [done|].
    inversion Hs as [|? ? _ Hall]; subst. rewrite Forall_forall in Hall. specialize (Hall _ Hin). unfold sort_le, by_cost in Hall. cbn in Hall.
    by apply N.compare_le_iff in Hall.
Qed.

(** What a server costs: its latency, 100 when it is unknown, and one for every
    datasource it has. *)
Definition cost_of_server (i : FederatedInstance) : N :=
  (match latency_ms i with Some l => l | None => 100 end + N.of_nat (length (datasources i)))%N.
Lemma route_cost_server r ds i : server r ds i → (cost_of_server i < 2 ^ 64)%N → route_cost i = cost_of_server i.
Proof.
  unfold cost_of_server. intros (_ & Hs & _) Hfit. unfold route_cost, u64_add. rewrite Hs, N.add_0_r.
  destruct (latency_ms i) as [l|]; cbn [default from_option]; unfold Datatypes.id;
    (rewrite !N.mod_small; [done|lia|..]); rewrite ?N.mod_small; lia.
Qed.

(** C29: a query for a datasource is routed to itself exactly when a local
    connector has the name.  Otherwise both ways of routing find an instance
    exactly when some healthy instance has the datasource, and lead to such an
    instance with its URL; the one that compares costs leads to one whose
    latency (100 when it is unknown) and number of datasources add up to least,
    provided that these sums fit in 64 bits for every such instance. *)
Theorem routes_lead_to_servers r ds :
  (resolve_route walk local r ds = Local ↔ local ds = true) ∧
  (cost_based_route walk local r ds = Local ↔ local ds = true) ∧
  (resolve_route walk local r ds = NotFound ↔ local ds = false ∧ ∀ i, ¬ server r ds i) ∧
  (cost_based_route walk local r ds = NotFound ↔ local ds = false ∧ ∀ i, ¬ server r ds i) ∧
  (∀ n u, resolve_route walk local r ds = Remote n u → ∃ i, server r ds i ∧ id i = n ∧ url i = u) ∧
  (∀ n u, cost_based_route walk local r ds = Remote n u →
     ∃ i, server r ds i ∧ id i = n ∧ url i = u ∧
       ((∀ j, server r ds j → (cost_of_server j < 2 ^ 64)%N) → ∀ j, server r ds j → (cost_of_server i ≤ cost_of_server j)%N)).
Proof.
  unfold resolve_route, cost_based_route. pose proof (find_owner_spec r ds) as Ho. pose proof (candidates_spec r ds) as Hc.
  unfold by_cost in Hc. destruct (local ds); [naive_solver|].
  assert (Hcost : ∀ best, server r ds best → (∀ i, server r ds i → (route_cost best ≤ route_cost i)%N) →
    (∀ j, server r ds j → (cost_of_server j < 2 ^ 64)%N) → ∀ j, server r ds j → (cost_of_server best ≤ cost_of_server j)%N).
  { intros best Hb Hle Hfit j Hj. rewrite <- (route_cost_server r ds best Hb (Hfit _ Hb)), <- (route_cost_server r ds j Hj (Hfit _ Hj)). by apply Hle. }
  destruct (find_owner walk r ds) as [[n u]|]; (destruct (sort_by _ _) as [|[best c] rest]); naive_solver.
Qed.
End Routes.

(** A latency near 2^64 wraps to a cost of nothing, and the farthest instance is the one chosen. *)
Lemma latency_wraps : Federation.route_cost (Federation.mkInstance "a" "" None ["orders"] Federation.Healthy (Some (2 ^ 64 - 1)%N) None) = 0%N.
Proof. reflexivity. Qed.

(** Two instances with the datasource, the second one nearer. *)
Definition ex_instance (n : string) (latency : N) : Federation.FederatedInstance :=
  Federation.mkInstance n ("http://" +:+ n) None ["orders"] Federation.Healthy (Some latency) None.
Definition ex_registry : Federation.FederationRegistry := Federation.register (Federation.register ∅ (ex_instance "a" 80)) (ex_instance "b" 20).

Lemma routes_lead_to_servers_witness :
  ∃ i, server ex_registry "orders" i ∧ Federation.id i = "b".
Proof.
  destruct (routes_lead_to_servers (λ r, (map_to_list r).*2) (λ _, false) (λ _, reflexivity _) ex_registry "orders") as (_ & _ & _ & _ & _ & H).
  destruct (H "b" "http://b") as (i & Hi & Hn & _); [by vm_compute|]. by exists i.
Defined.

(** ** Latencies *)

Import Latencies.

Lemma no_samples (hist : list (string * N)) ds : ds ∉ hist.*1 → filter (λ x, x.1 = ds) hist = [].
Proof. intros Hin. apply Forall_filter_nil, Forall_forall. intros x Hx Heq. apply Hin. rewrite <- Heq. by apply list_elem_of_fmap_2. Qed.

(** The window of a datasource holds its newest latencies. *)
Lemma windows_newest hist ds : ∀ t,
  latencies (foldl (λ t x, timeout_record t x.1 x.2) t hist) !! ds =
    if decide (ds ∈ hist.*1) then Some (foldl (push_pop MAX_SAMPLES) (default [] (latencies t !! ds)) (filter (λ x, x.1 = ds) hist).*2)
    else latencies t !! ds.
Proof.
  induction hist as [|[k v] hist IH] using rev_ind; intros t; [done|].
  rewrite foldl_snoc, filter_app, !fmap_app, foldl_app. cbn [fst snd timeout_record latencies]. destruct (decide (k = ds)) as [->|Hk].
  - rewrite lookup_insert_eq, decide_True by (rewrite elem_of_app; right; by left). rewrite filter_cons_True by done. cbn. rewrite IH.
    destruct (decide (ds ∈ hist.*1)) as [Hin|Hin]; [done|]. by rewrite no_samples.
  - rewrite lookup_insert_ne by done. rewrite IH. rewrite filter_cons_False by done. cbn.
    destruct (decide (ds ∈ hist.*1)) as [Hin|Hin].
    + by rewrite decide_True by (rewrite elem_of_app; by left).
    + rewrite decide_False; [done|]. rewrite elem_of_app, list_elem_of_singleton. naive_solver.
Qed.

Lemma params_kept hist : ∀ t, let t' := foldl (λ t x, timeout_record t x.1 x.2) t hist in
  multiplier t' = multiplier t ∧ min_ms t' = min_ms t ∧ max_ms t' = max_ms t ∧ fallback_ms t' = fallback_ms t.
Proof. induction hist as [|[k v] hist IH]; intros t; [done|]. exact (IH (timeout_record t k v)). Qed.

(** The rounded index is the exact one for every window. *)
Lemma percentile_index_exact n : 0 < n → n ≤ MAX_SAMPLES → percentile_index 95 n = (95 * (n - 1) + 99) / 100.
Proof.
  intros Hn Hm. assert (Forall (λ n, percentile_index 95 n = (95 * (n - 1) + 99) / 100) (seq 1 100)) as H.
  { apply (bool_decide_unpack _). by vm_compute. }
  rewrite Forall_forall in H. apply H, elem_of_seq. unfold MAX_SAMPLES in Hm. lia.
Qed.

Lemma sorted_prefix (l : list N) i v : StronglySorted N.le l → l !! i = Some v → i < length (filter (λ x, (x ≤ v)%N) l).
Proof.
  intros Hs. revert i. induction Hs as [|x l Hs IH Hx]; intros [|i] Hi; [done|done|..]; cbn in Hi.
  - injection Hi as <-. rewrite filter_cons_True by done. cbn. lia.
  - rewrite Forall_forall in Hx. rewrite filter_cons_True by (apply Hx; by eapply list_elem_of_lookup_2). cbn. specialize (IH i Hi). lia.
Qed.

Lemma percentile_spec l : l ≠ [] → length l ≤ MAX_SAMPLES →
  percentile l 95 ∈ l ∧ 95 * length l ≤ 100 * length (filter (λ x, (x ≤ percentile l 95)%N) l).
Proof.
  intros Hne Hm. unfold percentile, Latencies.sorted. assert (0 < length l) as Hl by (destruct l; [done|cbn; lia]).
  rewrite percentile_index_exact by done. set (k := ((95 * (length l - 1) + 99) / 100) `min` (length l - 1)).
  assert (k < length (sort_by N.compare l)) as Hk by (rewrite sort_by_length; unfold k; lia).
  destruct (lookup_lt_is_Some_2 _ _ Hk) as [v Hv]. rewrite Hv. change (default 0%N (Some v)) with v. split.
  - rewrite <- (sort_by_Permutation N.compare l). by eapply list_elem_of_lookup_2.
  - assert (length (filter (λ x, (x ≤ v)%N) l) = length (filter (λ x, (x ≤ v)%N) (sort_by N.compare l))) as -> by by rewrite (sort_by_Permutation N.compare l).
    assert (StronglySorted N.le (sort_by N.compare l)) as Hs.
    { eapply StronglySorted_impl_in, (sort_by_sorted N.compare). intros a b _ _. unfold sort_le. by rewrite N.compare_le_iff. }
    pose proof (sorted_prefix _ _ _ Hs Hv) as Hp. enough (95 * length l ≤ 100 * (k + 1)) by lia. unfold k.
    pose proof (Nat.div_mod (95 * (length l - 1) + 99) 100 ltac:(lia)) as Hd.
    pose proof (Nat.mod_upper_bound (95 * (length l - 1) + 99) 100 ltac:(lia)) as Hr. clear -Hd Hr Hl.
    revert Hd Hr. generalize ((95 * (length l - 1) + 99) / 100) ((95 * (length l - 1) + 99) mod 100). lia.
Qed.

Lemma clamp_spec x lo hi : (lo ≤ hi)%N → (lo ≤ clamp x lo hi ≤ hi)%N.
Proof. intros H. unfold clamp. destruct (N.ltb_spec x lo), (N.ltb_spec hi x); lia. Qed.

(** After any recorded queries the timeout of a datasource is 30 seconds
    when it has none, and otherwise three times a latency that one of its last
    hundred queries had and at least 95 percent of them kept, within 5 and
    120 seconds. *)
Theorem timeouts_follow_latencies hist ds :
  let t := foldl (λ t x, timeout_record t x.1 x.2) timeouts_new hist in
  let l := last_n 100 (filter (λ x, x.1 = ds) hist).*2 in
  (l = [] → timeout_ms_for t ds = 30000%N) ∧
  (l ≠ [] → ∃ p, p ∈ l ∧ 95 * length l ≤ 100 * length (filter (λ x, (x ≤ p)%N) l) ∧
     timeout_ms_for t ds = clamp (f64_as_u64 (fmul (f64_of_N p) (f64_of_N 3))) 5000 120000 ∧
     (5000 ≤ timeout_ms_for t ds ≤ 120000)%N).
Proof.
  intros t l. unfold timeout_ms_for. pose proof (windows_newest hist ds timeouts_new) as Hw. fold t in Hw.
  destruct (params_kept hist timeouts_new) as (Hm & Hlo & Hhi & Hf). fold t in Hm, Hlo, Hhi, Hf.
  assert (foldl (push_pop MAX_SAMPLES) [] (filter (λ x, x.1 = ds) hist).*2 = l) as Hl by (apply push_pop_all; unfold MAX_SAMPLES; lia).
  assert (latencies timeouts_new !! ds = None) as H0 by apply lookup_empty. rewrite H0 in Hw. change (default [] None) with (@nil N) in Hw. rewrite Hl in Hw.
  rewrite Hw. split.
  - intros ->. rewrite Hf. by destruct (decide _).
  - intros Hne. rewrite decide_True.
    2: { apply dec_stable. intros Hin. apply Hne. unfold l. by rewrite no_samples. }
    destruct (percentile_spec l Hne) as [Hin Hc]; [unfold l; rewrite last_n_length; unfold MAX_SAMPLES; lia|].
    exists (percentile l 95). split; [done|]. split; [done|].
    assert (match l with [] => fallback_ms t | _ :: _ => adaptive_ms t (percentile l 95) end = adaptive_ms t (percentile l 95)) as -> by by destruct l.
    unfold adaptive_ms. rewrite Hm, Hlo, Hhi. split; [done|]. by apply clamp_spec.
Qed.

(** The fastest candidate has measurements and the least median of those that do. *)
Lemma fastest_spec m cs c : fastest m cs = Some c →
  c ∈ cs ∧ ∃ l, m !! c = Some l ∧ l ≠ [] ∧ ∀ c' l', c' ∈ cs → m !! c' = Some l' → l' ≠ [] → (p50 l ≤ p50 l')%N.
Proof.
  unfold fastest. pose proof (min_by_key_Some snd (omap (candidate m) cs)) as Hs.
  destruct (min_by_key snd (omap (candidate m) cs)) as [[c0 v]|] eqn:E; [|done]. cbn. intros [= ->].
  destruct (decide (omap (candidate m) cs = [])) as [E0|Hne]; [by rewrite E0 in E|]. destruct (Hs Hne) as (x & [= <-] & Hin & Hle).
  apply list_elem_of_omap in Hin as (c1 & Hc1 & Hcand). unfold candidate in Hcand. destruct (m !! c1) as [l|] eqn:El; [|done].
  destruct l as [|a l]; [done|]. cbn in Hcand. injection Hcand as <- <-. split; [done|]. exists (a :: l). split; [done|]. split; [done|].
  intros c' l' Hc' Hl' Hn. apply (Hle (c', p50 l')). apply list_elem_of_omap. exists c'. split; [done|]. unfold candidate. rewrite Hl'. by destruct l'.
Qed.

(** ** Fan-out *)

Section Fanout.
Import Parallelism.

Inductive outcome_of : Type := Succeeded (ds : string) (latency : N) | Failed (ds : string).
Definition observe (m : AdaptiveParallelism) (o : outcome_of) : AdaptiveParallelism :=
  match o with Succeeded ds l => record_success m ds l | Failed ds => record_failure m ds end.

Definition tuned (s : DatasourceStats) : Prop :=
  (1 ≤ concurrency s ≤ 16)%N ∧ (recent_successes s + recent_errors s < 10)%N ∧ length (recent_latencies s) ≤ 100.

Lemma adjusted_bounds s : (1 ≤ concurrency s ≤ 16)%N → (1 ≤ adjusted s ≤ 16)%N.
Proof.
  intros H. unfold adjusted, MIN_CONCURRENCY, MAX_CONCURRENCY. destruct (fltb f_0_3 _).
  - assert (concurrency s / 2 ≤ 16)%N by (apply N.Div0.div_le_upper_bound; lia). lia.
  - destruct (_ && _); [|lia]. destruct (_ <? _)%N; lia.
Qed.

Lemma maybe_adjust_tuned s : (1 ≤ concurrency s ≤ 16)%N → length (recent_latencies s) ≤ 100 → tuned (maybe_adjust s).
Proof.
  intros Hc Hl. unfold maybe_adjust, tuned, SAMPLES_FOR_ADJUSTMENT. destruct (N.ltb_spec (recent_successes s + recent_errors s) 10); [done|].
  cbn. split; [by apply adjusted_bounds|]. split; [lia|done].
Qed.

Lemma push_pop_length {A : Type} max (l : list A) x : 0 < max → length l ≤ max → length (push_pop max l x) ≤ max.
Proof. intros Hm Hl. unfold push_pop. destruct (Nat.leb_spec max (length l)); rewrite length_app; cbn; [|lia]. destruct l; cbn in *; lia. Qed.

Lemma default_tuned (m : AdaptiveParallelism) ds : map_Forall (λ _, tuned) m → tuned (default fresh (m !! ds)).
Proof. intros H. destruct (m !! ds) as [s|] eqn:E; [by apply (H ds)|]. by split; [|split; [|cbn; lia]]. Qed.

(** After any successes and failures every datasource may be sent between
    1 and 16 queries at once, fewer than ten observations wait for the next
    adjustment, and the windows keep their bound. *)
Theorem fanout_stays_bounded os ds :
  let m := foldl observe ∅ os in
  map_Forall (λ _, tuned) m ∧ (1 ≤ concurrency_for m ds ≤ 16)%N.
Proof.
  intros m. assert (map_Forall (λ _, tuned) m) as Hm.
  { unfold m. clear m. induction os as [|o os IH] using rev_ind; [apply map_Forall_empty|]. rewrite foldl_snoc.
    destruct o as [d l|d]; cbn [observe]; apply map_Forall_insert_2; try done; destruct (default_tuned _ d IH) as (Hc & Ht & Hl);
      apply maybe_adjust_tuned; cbn [concurrency recent_latencies]; try done. apply push_pop_length; [lia|done]. }
  split; [done|]. unfold concurrency_for. destruct (m !! ds) as [s|] eqn:E; cbn; [|unfold DEFAULT_CONCURRENCY; lia].
  by destruct (Hm ds s E).
Qed.
End Fanout.

(** ** The rate *)

Section Rates.
Import Rate.

Lemma filter_Forall {A : Type} (P : A → Prop) `{!∀ x, Decision (P x)} l : Forall P l → filter P l = l.
Proof. induction 1 as [|x l Hx _ IH]; [done|]. by rewrite filter_cons_True, IH. Qed.

Lemma drop_old_window w now ts : StronglySorted N.le ts → drop_old w now ts = in_window w now ts.
Proof.
  induction 1 as [|t ts Hs IH Ht]; [done|]. cbn [drop_old]. unfold in_window in *. destruct (N.ltb_spec (cutoff w) (now - t)) as [H|H].
  - rewrite filter_cons_False by lia. exact IH.
  - rewrite filter_cons_True by done. f_equal. symmetry. apply filter_Forall. rewrite Forall_forall in *. intros x Hx. specialize (Ht x Hx). lia.
Qed.

Lemma in_window_later w now now' ts : (now ≤ now')%N → in_window w now' (in_window w now ts) = in_window w now' ts.
Proof.
  intros Hn. unfold in_window. rewrite list_filter_filter. apply list_filter_iff'. intros x _. lia.
Qed.

(** With a clock that does not go back, what is kept after a query are the
    queries of the window that ends there. *)
Lemma rate_keeps_window w ts now : StronglySorted N.le (ts ++ [now]) →
  foldl (record w) [] (ts ++ [now]) = in_window w now (ts ++ [now]).
Proof.
  revert now. induction ts as [|t ts IH] using rev_ind; intros now Hs.
  - unfold record. cbn [foldl app]. by rewrite drop_old_window.
  - rewrite foldl_snoc. pose proof (proj1 (StronglySorted_app _ _ _) Hs) as (Hle & Hs' & _).
    assert (t ≤ now)%N as Ht by (apply Hle; [apply elem_of_app; right|]; by left). rewrite IH by done. unfold record.
    assert (StronglySorted N.le (in_window w t (ts ++ [t]) ++ [now])) as Hk.
    { eapply StronglySorted_sublist; [|exact Hs]. apply sublist_app; [apply sublist_filter|done]. }
    rewrite drop_old_window by done. unfold in_window at 1. rewrite filter_app. fold (in_window w now (in_window w t (ts ++ [t]))).
    rewrite in_window_later by done. unfold in_window. symmetry. apply filter_app.
Qed.
End Rates.
