(* ===== verification/SqlText.v ===== *)
(** * SqlText: the query texts the SQL connectors send

    Models the generators that turn a [SubQuery] into the text of a query:
    [crates/fuse-core/src/sql.rs] and, under [crates/fuse-connectors],
    [postgres/src/sql.rs] (PostgreSQL, MySQL, SQLite, Redshift),
    [duckdb/src/sql.rs], [clickhouse/src/sql.rs], [s3/src/select.rs] and the
    builders in [lib.rs] of the arrow-flight, athena, bigquery, snowflake,
    timestream, cassandra and spark connectors.

    The generators share the shape of a condition and differ in how they quote
    names, spell operators and write values: a [Dialect] holds what differs and
    [filter_sql] is the shape.  [f64::to_string] is a parameter.  The theorems
    are in [SqlTextCorrect]. *)

From S2P Require Import Prelude Strs Float Connector.
From stdpp Require Import base list strings pretty.
From Stdlib Require Import NArith ZArith Ascii SpecFloat.

(** ** Quoting *)

(** The double quote. *)
Definition DQUOTE : string := String (ascii_of_nat 34) "".
Definition BACKSLASH : string := String (ascii_of_nat 92) "".

Definition quote_ident (name : string) : string := DQUOTE +:+ replace DQUOTE (DQUOTE +:+ DQUOTE) name +:+ DQUOTE.

Definition quote_table (name : string) : string :=
  if starts_with "(" name || starts_with DQUOTE name then name else quote_ident name.

Definition quote_ident_backtick (name : string) : string := "`" +:+ replace "`" "``" name +:+ "`".

Definition quote_table_backtick (name : string) : string :=
  if starts_with "(" name || starts_with "`" name then name else quote_ident_backtick name.

(** [format!("'{}'", s.replace('\'', "''"))]. *)
Definition quote_string (s : string) : string := "'" +:+ replace "'" "''" s +:+ "'".

Definition bool_text (b : bool) : string := if b then "true" else "false".

(** ** Conditions *)

Record Dialect : Type := mkDialect {
  d_ident : string → string;
  d_op : ComparisonOp → string;
  d_scalar : ScalarValue → string;
  d_is_null : string → string;
  d_is_not_null : string → string;
}.

Fixpoint filter_sql (d : Dialect) (f : FilterExpr) : string :=
  match f with
  | FAnd l r => "(" +:+ filter_sql d l +:+ " AND " +:+ filter_sql d r +:+ ")"
  | FOr l r => "(" +:+ filter_sql d l +:+ " OR " +:+ filter_sql d r +:+ ")"
  | FNot e => "NOT (" +:+ filter_sql d e +:+ ")"
  | FComparison field op v => d_ident d field +:+ " " +:+ d_op d op +:+ " " +:+ d_scalar d v
  | FIn field vals => d_ident d field +:+ " IN (" +:+ join_with ", " (d_scalar d <$> vals) +:+ ")"
  | FIsNull field => d_is_null d field
  | FIsNotNull field => d_is_not_null d field
  end.

Definition is_null_text (qi : string → string) (field : string) : string := qi field +:+ " IS NULL".
Definition is_not_null_text (qi : string → string) (field : string) : string := qi field +:+ " IS NOT NULL".

(** The operators on which all the SQL generators agree; [like], [ilike] and
    [contains] are the texts of the other three. *)
Definition op_text (like ilike contains : string) (op : ComparisonOp) : string :=
  match op with
  | OpEq => "=" | OpNeq => "!=" | OpLt => "<" | OpLte => "<=" | OpGt => ">" | OpGte => ">="
  | OpLike => like | OpILike => ilike | OpContains => contains
  end.

(** ** Statements *)

(** The optional clauses of a statement, each with the text that introduces it. *)
Definition text_clause (kw : string) (text : option string) : string :=
  match text with Some t => kw +:+ t | None => "" end.
Definition list_clause (kw : string) (items : list string) : string :=
  match items with [] => "" | _ => kw +:+ join_with ", " items end.

(** [q.projections] with the star left as it is; nothing selected is the star. *)
Definition column_text (qi : string → string) (p : string) : string :=
  if String.eqb p "*" then "*" else qi p.
Definition columns_text (qi : string → string) (ps : list string) : string :=
  match ps with [] => "*" | _ => join_with ", " (column_text qi <$> ps) end.

(** A sort key, with the direction written only when it is descending, or always. *)
Definition sort_text (qi : string → string) (s : SortExpr) : string :=
  if sort_descending s then qi (sort_field s) +:+ " DESC" else qi (sort_field s).
Definition sort_text_dir (qi : string → string) (s : SortExpr) : string :=
  qi (sort_field s) +:+ " " +:+ (if sort_descending s then "DESC" else "ASC").

(** The select list: the groups and the aggregates when there are aggregates,
    the projections otherwise. *)
Definition select_text (qi : string → string) (agg : AggregationExpr → string) (q : SubQuery) : string :=
  match aggregations q with
  | [] => columns_text qi (projections q)
  | aggs => join_with ", " ((qi <$> group_by q) ++ (agg <$> aggs))
  end.

(** What an aggregate is applied to, and its alias. *)
Definition agg_operand (qi : string → string) (a : AggregationExpr) : string :=
  match agg_field a with Some f => qi f | None => "*" end.
Definition agg_text (qi : string → string) (expr : AggFunction → string → string) (a : AggregationExpr) : string :=
  expr (agg_function a) (agg_operand qi a) +:+ " AS " +:+ qi (agg_alias a).

(** [f64::to_string]: a parameter of all generators. *)
Class F64Display : Type := fmt_f64 : spec_float → string.

Section Connectors.
Context `{F64Display}.

(** [scalar_to_sql] of most connectors, up to the text of a boolean and of null. *)
Definition scalar_text (bool : bool → string) (null : string) (v : ScalarValue) : string :=
  match v with
  | SUtf8 s => quote_string s
  | SInt64 n => pretty n
  | SFloat64 f => fmt_f64 f
  | SBoolean b => bool b
  | Null => null
  end.

(** *** PostgreSQL, MySQL, SQLite, Redshift *)

Definition pg_scalar_to_sql : ScalarValue → string := scalar_text bool_text "NULL".
Definition pg_dialect : Dialect :=
  mkDialect quote_ident (op_text "LIKE" "ILIKE" "ILIKE") pg_scalar_to_sql
    (is_null_text quote_ident) (is_not_null_text quote_ident).
Definition pg_filter_to_sql : FilterExpr → string := filter_sql pg_dialect.
Definition pg_agg (fn : AggFunction) (field : string) : string :=
  match fn with
  | Count => "COUNT(" +:+ field +:+ ")"
  | Sum => "SUM(" +:+ field +:+ ")"
  | Avg => "AVG(" +:+ field +:+ ")"
  | Min => "MIN(" +:+ field +:+ ")"
  | Max => "MAX(" +:+ field +:+ ")"
  | CountDistinct | ApproxCountDistinct => "COUNT(DISTINCT " +:+ field +:+ ")"
  | ApproxPercentile p => "PERCENTILE_CONT(" +:+ fmt_f64 p +:+ ") WITHIN GROUP (ORDER BY " +:+ field +:+ ")"
  end.
Definition pg_subquery_to_sql (q : SubQuery) : string :=
  "SELECT " +:+ select_text quote_ident (agg_text quote_ident pg_agg) q +:+
  " FROM " +:+ quote_table (table q) +:+
  text_clause " WHERE " (pg_filter_to_sql <$> filter_expr q) +:+
  list_clause " GROUP BY " (quote_ident <$> group_by q) +:+
  text_clause " HAVING " (pg_filter_to_sql <$> having q) +:+
  list_clause " ORDER BY " (sort_text quote_ident <$> sort q) +:+
  text_clause " LIMIT " (pretty <$> limit q).

(** *** DuckDB *)

Definition duck_scalar_to_sql : ScalarValue → string := scalar_text bool_text "NULL".
Definition duck_dialect : Dialect :=
  mkDialect quote_ident (op_text "LIKE" "ILIKE" "LIKE") duck_scalar_to_sql
    (is_null_text quote_ident) (is_not_null_text quote_ident).
Definition duck_filter_to_sql : FilterExpr → string := filter_sql duck_dialect.
Definition duck_agg (fn : AggFunction) (field : string) : string :=
  match fn with
  | Count => "count(" +:+ field +:+ ")"
  | Sum => "sum(" +:+ field +:+ ")"
  | Avg => "avg(" +:+ field +:+ ")"
  | Min => "min(" +:+ field +:+ ")"
  | Max => "max(" +:+ field +:+ ")"
  | ApproxCountDistinct => "approx_count_distinct(" +:+ field +:+ ")"
  | ApproxPercentile p => "approx_quantile(" +:+ field +:+ ", " +:+ fmt_f64 p +:+ ")"
  | CountDistinct => "count(DISTINCT " +:+ field +:+ ")"
  end.
Definition duck_subquery_to_sql (q : SubQuery) : string :=
  "SELECT " +:+ select_text quote_ident (agg_text quote_ident duck_agg) q +:+
  " FROM " +:+ quote_table (table q) +:+
  text_clause " WHERE " (duck_filter_to_sql <$> filter_expr q) +:+
  list_clause " GROUP BY " (quote_ident <$> group_by q) +:+
  text_clause " HAVING " (duck_filter_to_sql <$> having q) +:+
  list_clause " ORDER BY " (sort_text quote_ident <$> sort q) +:+
  text_clause " LIMIT " (pretty <$> limit q).

(** *** ClickHouse *)

Definition ch_scalar_to_sql : ScalarValue → string := scalar_text (λ b : bool, if b then "1" else "0") "NULL".
Definition ch_dialect : Dialect :=
  mkDialect quote_ident_backtick (op_text "LIKE" "LIKE" "LIKE") ch_scalar_to_sql
    (λ field, "isNull(" +:+ quote_ident_backtick field +:+ ")")
    (λ field, "isNotNull(" +:+ quote_ident_backtick field +:+ ")").
Definition ch_filter_to_sql : FilterExpr → string := filter_sql ch_dialect.
Definition ch_agg (fn : AggFunction) (field : string) : string :=
  match fn with
  | Count => "count(" +:+ field +:+ ")"
  | Sum => "sum(" +:+ field +:+ ")"
  | Avg => "avg(" +:+ field +:+ ")"
  | Min => "min(" +:+ field +:+ ")"
  | Max => "max(" +:+ field +:+ ")"
  | CountDistinct | ApproxCountDistinct => "uniq(" +:+ field +:+ ")"
  | ApproxPercentile p => "quantile(" +:+ fmt_f64 p +:+ ")(" +:+ field +:+ ")"
  end.
Definition ch_subquery_to_sql (q : SubQuery) : string :=
  "SELECT " +:+ select_text quote_ident_backtick (agg_text quote_ident_backtick ch_agg) q +:+
  " FROM " +:+ quote_table_backtick (table q) +:+
  text_clause " WHERE " (ch_filter_to_sql <$> filter_expr q) +:+
  list_clause " GROUP BY " (quote_ident_backtick <$> group_by q) +:+
  text_clause " HAVING " (ch_filter_to_sql <$> having q) +:+
  list_clause " ORDER BY " (sort_text quote_ident_backtick <$> sort q) +:+
  text_clause " LIMIT " (pretty <$> limit q).

(** *** Arrow Flight SQL and Snowflake: the same text; no aggregates *)

Definition flight_scalar_to_sql : ScalarValue → string := scalar_text bool_text "NULL".
Definition flight_dialect : Dialect :=
  mkDialect quote_ident (op_text "LIKE" "LIKE" "LIKE") flight_scalar_to_sql
    (is_null_text quote_ident) (is_not_null_text quote_ident).
Definition flight_filter_to_sql : FilterExpr → string := filter_sql flight_dialect.
Definition build_flight_sql (q : SubQuery) : string :=
  "SELECT " +:+ columns_text quote_ident (projections q) +:+
  " FROM " +:+ quote_table (table q) +:+
  text_clause " WHERE " (flight_filter_to_sql <$> filter_expr q) +:+
  list_clause " GROUP BY " (quote_ident <$> group_by q) +:+
  text_clause " HAVING " (flight_filter_to_sql <$> having q) +:+
  list_clause " ORDER BY " (sort_text quote_ident <$> sort q) +:+
  text_clause " LIMIT " (pretty <$> limit q) +:+
  text_clause " OFFSET " (pretty <$> offset q).

Definition snow_scalar_to_sql : ScalarValue → string := scalar_text bool_text "NULL".
Definition snow_dialect : Dialect :=
  mkDialect quote_ident (op_text "LIKE" "LIKE" "LIKE") snow_scalar_to_sql
    (is_null_text quote_ident) (is_not_null_text quote_ident).
Definition snow_filter_to_sql : FilterExpr → string := filter_sql snow_dialect.
Definition build_snowflake_sql (q : SubQuery) : string :=
  "SELECT " +:+ columns_text quote_ident (projections q) +:+
  " FROM " +:+ quote_table (table q) +:+
  text_clause " WHERE " (snow_filter_to_sql <$> filter_expr q) +:+
  list_clause " GROUP BY " (quote_ident <$> group_by q) +:+
  text_clause " HAVING " (snow_filter_to_sql <$> having q) +:+
  list_clause " ORDER BY " (sort_text quote_ident <$> sort q) +:+
  text_clause " LIMIT " (pretty <$> limit q) +:+
  text_clause " OFFSET " (pretty <$> offset q).

(** *** Athena and Timestream: no HAVING, directions always written *)

Definition upper_bool (b : bool) : string := to_uppercase (bool_text b).

Definition athena_scalar_to_sql : ScalarValue → string := scalar_text upper_bool "NULL".
Definition athena_dialect : Dialect :=
  mkDialect quote_ident (op_text "LIKE" "LIKE" "LIKE") athena_scalar_to_sql
    (is_null_text quote_ident) (is_not_null_text quote_ident).
Definition athena_filter_to_sql : FilterExpr → string := filter_sql athena_dialect.
Definition athena_subquery_to_sql (q : SubQuery) : string :=
  "SELECT " +:+ columns_text quote_ident (projections q) +:+
  " FROM " +:+ quote_table (table q) +:+
  text_clause " WHERE " (athena_filter_to_sql <$> filter_expr q) +:+
  list_clause " GROUP BY " (quote_ident <$> group_by q) +:+
  list_clause " ORDER BY " (sort_text_dir quote_ident <$> sort q) +:+
  text_clause " LIMIT " (pretty <$> limit q) +:+
  text_clause " OFFSET " (pretty <$> offset q).

Definition ts_scalar_to_sql : ScalarValue → string := scalar_text upper_bool "NULL".
Definition ts_dialect : Dialect :=
  mkDialect quote_ident (op_text "LIKE" "LIKE" "LIKE") ts_scalar_to_sql
    (is_null_text quote_ident) (is_not_null_text quote_ident).
Definition ts_filter_to_sql : FilterExpr → string := filter_sql ts_dialect.
Definition ts_subquery_to_sql (q : SubQuery) (database tbl : string) : string :=
  "SELECT " +:+ columns_text quote_ident (projections q) +:+
  " FROM " +:+ quote_ident database +:+ "." +:+ quote_ident tbl +:+
  text_clause " WHERE " (ts_filter_to_sql <$> filter_expr q) +:+
  list_clause " GROUP BY " (quote_ident <$> group_by q) +:+
  list_clause " ORDER BY " (sort_text_dir quote_ident <$> sort q) +:+
  text_clause " LIMIT " (pretty <$> limit q).

(** *** BigQuery: a quote in a literal is written with a backslash *)

Definition bq_scalar_to_sql (v : ScalarValue) : string :=
  match v with
  | Null => "NULL"
  | SBoolean b => bool_text b
  | SInt64 n => pretty n
  | SFloat64 f => fmt_f64 f
  | SUtf8 s => "'" +:+ replace "'" (BACKSLASH +:+ "'") s +:+ "'"
  end.
Definition bq_dialect : Dialect :=
  mkDialect quote_ident_backtick (op_text "LIKE" "LIKE" "LIKE") bq_scalar_to_sql
    (is_null_text quote_ident_backtick) (is_not_null_text quote_ident_backtick).
Definition bq_filter_to_sql : FilterExpr → string := filter_sql bq_dialect.
Definition build_bq_sql (q : SubQuery) (dataset : string) : string :=
  "SELECT " +:+ columns_text quote_ident_backtick (projections q) +:+
  " FROM `" +:+ dataset +:+ "." +:+ table q +:+ "`" +:+
  text_clause " WHERE " (bq_filter_to_sql <$> filter_expr q) +:+
  list_clause " GROUP BY " (quote_ident_backtick <$> group_by q) +:+
  text_clause " HAVING " (bq_filter_to_sql <$> having q) +:+
  list_clause " ORDER BY " (sort_text quote_ident_backtick <$> sort q) +:+
  text_clause " LIMIT " (pretty <$> limit q) +:+
  text_clause " OFFSET " (pretty <$> offset q).

(** *** Spark: names are not quoted *)

Definition spark_scalar_to_sql : ScalarValue → string := scalar_text bool_text "NULL".
Definition spark_dialect : Dialect :=
  mkDialect id (op_text "LIKE" "LIKE" "LIKE") spark_scalar_to_sql (is_null_text id) (is_not_null_text id).
Definition spark_filter_to_sql : FilterExpr → string := filter_sql spark_dialect.
Definition build_spark_sql (q : SubQuery) (database : string) : string :=
  "SELECT " +:+ match projections q with [] => "*" | ps => join_with ", " ps end +:+
  " FROM " +:+ (if String.eqb database "" then table q else database +:+ "." +:+ table q) +:+
  text_clause " WHERE " (spark_filter_to_sql <$> filter_expr q) +:+
  list_clause " GROUP BY " (group_by q) +:+
  text_clause " HAVING " (spark_filter_to_sql <$> having q) +:+
  list_clause " ORDER BY " (sort_text id <$> sort q) +:+
  text_clause " LIMIT " (pretty <$> limit q) +:+
  text_clause " OFFSET " (pretty <$> offset q).

(** *** Cassandra: a condition is a conjunction *)

Definition scalar_to_cql : ScalarValue → string := scalar_text bool_text "null".
Fixpoint filter_to_cql (f : FilterExpr) : string :=
  match f with
  | FComparison field op v =>
      quote_ident field +:+ " " +:+ op_text "=" "=" "=" op +:+ " " +:+ scalar_to_cql v
  | FAnd l r => filter_to_cql l +:+ " AND " +:+ filter_to_cql r
  | FOr l r => filter_to_cql l +:+ " AND " +:+ filter_to_cql r
  | FNot _ => ""
  | FIn field vals => quote_ident field +:+ " IN (" +:+ join_with ", " (scalar_to_cql <$> vals) +:+ ")"
  | FIsNull _ | FIsNotNull _ => ""
  end.
Definition subquery_to_cql (q : SubQuery) (keyspace : string) : string :=
  "SELECT " +:+ columns_text quote_ident (projections q) +:+
  " FROM " +:+ quote_ident keyspace +:+ "." +:+ quote_ident (table q) +:+
  text_clause " WHERE " (filter_to_cql <$> filter_expr q) +:+
  list_clause " ORDER BY " (sort_text_dir quote_ident <$> sort q) +:+
  text_clause " LIMIT " (pretty <$> limit q) +:+
  match filter_expr q with Some _ => " ALLOW FILTERING" | None => "" end.

(** *** S3 Select: names are put between quotes as they are *)

Definition s3_ident (field : string) : string := "s." +:+ DQUOTE +:+ field +:+ DQUOTE.
Definition s3_scalar_to_sql : ScalarValue → string := scalar_text upper_bool "NULL".
Fixpoint filter_to_s3_select_where (f : FilterExpr) : option string :=
  match f with
  | FAnd l r =>
      l ← filter_to_s3_select_where l; r ← filter_to_s3_select_where r;
      Some ("(" +:+ l +:+ ") AND (" +:+ r +:+ ")")
  | FOr l r =>
      l ← filter_to_s3_select_where l; r ← filter_to_s3_select_where r;
      Some ("(" +:+ l +:+ ") OR (" +:+ r +:+ ")")
  | FNot e => e ← filter_to_s3_select_where e; Some ("NOT (" +:+ e +:+ ")")
  | FComparison field op v =>
      Some (s3_ident field +:+ " " +:+ op_text "LIKE" "LIKE" "LIKE" op +:+ " " +:+ s3_scalar_to_sql v)
  | FIn field vals => Some (s3_ident field +:+ " IN (" +:+ join_with ", " (s3_scalar_to_sql <$> vals) +:+ ")")
  | FIsNull field => Some (s3_ident field +:+ " IS NULL")
  | FIsNotNull field => Some (s3_ident field +:+ " IS NOT NULL")
  end.
Definition build_s3_select_query (ps : list string) (f : option FilterExpr) (lim : option N) : string :=
  "SELECT " +:+ match ps with [] => "*" | _ => join_with ", " (s3_ident <$> ps) end +:+
  " FROM s3object s" +:+
  text_clause " WHERE " (f ≫= filter_to_s3_select_where) +:+
  text_clause " LIMIT " (pretty <$> lim).
End Connectors.
