(* ===== verification/SqlTextCorrect.v ===== *)
(** * SqlTextCorrect: what a database reads in the text of a query

    The specification is a reader of SQL: a lexer with quoted names, string
    literals, comments and, where a database has them, backslash escapes, and a
    parser of conditions with the usual precedences.  The theorems say that the
    text a connector sends is read as the condition and the clauses of the
    sub-query, whatever characters its names and values contain, and where that
    fails. *)

From S2P Require Import Prelude Strs Float Connector SqlText.
From stdpp Require Import base list strings pretty.
From Stdlib Require Import NArith ZArith Lia Ascii SpecFloat.

(** ** The lexer *)

Inductive tok : Type :=
| TWord (w : string)
| TIdent (s : string)
| TString (s : string)
| TOp (s : string)
| TSym (c : ascii).

(** Which character quotes a name, inside which quotes a backslash escapes the
    next character, and whether a doubled quote stands for the quote. *)
Record Lexer : Type := mkLexer { lx_ident : ascii; lx_escapes : ascii → bool; lx_doubles : bool }.

Inductive lstate : Type :=
| LBase
| LWord (w : string)
| LOp (w : string)
| LDash
| LComment
| LQuote (q : ascii) (s : string)
| LEscape (q : ascii) (s : string)
| LClose (q : ascii) (s : string).

Definition SQUOTE : ascii := ascii_of_nat 39.
Definition DQ : ascii := ascii_of_nat 34.
Definition BSLASH : ascii := ascii_of_nat 92.

Definition in_range (lo hi : N) (c : ascii) : bool := (lo <=? N_of_ascii c)%N && (N_of_ascii c <=? hi)%N.
Definition word_char (c : ascii) : bool :=
  in_range 48 57 c || in_range 65 90 c || in_range 97 122 c || Ascii.eqb c "_" || Ascii.eqb c ".".
Definition op_char (c : ascii) : bool :=
  Ascii.eqb c "=" || Ascii.eqb c "<" || Ascii.eqb c ">" || Ascii.eqb c "!".

Definition snoc (s : string) (c : ascii) : string := s +:+ String c "".

(** Names are quoted with double quotes or backticks. *)
Class LexerOk (L : Lexer) : Prop := ident_quote : lx_ident L = DQ ∨ lx_ident L = "`"%char.

Section Lex.
Context (L : Lexer).

Definition quoted_tok (q : ascii) (s : string) : tok := if Ascii.eqb q SQUOTE then TString s else TIdent s.

Definition step_base (c : ascii) : list tok * lstate :=
  if is_whitespace c then ([], LBase)
  else if Ascii.eqb c (lx_ident L) || Ascii.eqb c SQUOTE then ([], LQuote c "")
  else if word_char c then ([], LWord (String c ""))
  else if op_char c then ([], LOp (String c ""))
  else if Ascii.eqb c "-" then ([], LDash)
  else ([TSym c], LBase).

(** The token of a state is complete: emit it and go on as at the start. *)
Definition flush (ts : list tok) (c : ascii) : list tok * lstate :=
  let '(us, st) := step_base c in (ts ++ us, st).

Definition lex_step (st : lstate) (c : ascii) : list tok * lstate :=
  match st with
  | LBase => step_base c
  | LWord w => if word_char c then ([], LWord (snoc w c)) else flush [TWord w] c
  | LOp w => if op_char c then ([], LOp (snoc w c)) else flush [TOp w] c
  | LDash =>
      if Ascii.eqb c "-" then ([], LComment)
      else if word_char c then ([], LWord (String "-" (String c "")))
      else flush [TSym "-"] c
  | LComment => ([], if Ascii.eqb c (ascii_of_nat 10) then LBase else LComment)
  | LQuote q s =>
      if Ascii.eqb c q then ([], LClose q s)
      else if Ascii.eqb c BSLASH && lx_escapes L q then ([], LEscape q s)
      else ([], LQuote q (snoc s c))
  | LEscape q s => ([], LQuote q (snoc s c))
  | LClose q s =>
      if Ascii.eqb c q && lx_doubles L then ([], LQuote q (snoc s c)) else flush [quoted_tok q s] c
  end.

Fixpoint lex_run (st : lstate) (s : string) : list tok * lstate :=
  match s with
  | EmptyString => ([], st)
  | String c s =>
      let '(ts, st) := lex_step st c in
      let '(us, st) := lex_run st s in (ts ++ us, st)
  end.

(** What is left at the end of the text; a quote left open is an error. *)
Definition lex_end (st : lstate) : option (list tok) :=
  match st with
  | LBase | LComment => Some []
  | LWord w => Some [TWord w]
  | LOp w => Some [TOp w]
  | LDash => Some [TSym "-"]
  | LClose q s => Some [quoted_tok q s]
  | LQuote _ _ | LEscape _ _ => None
  end.

Definition tokens (s : string) : option (list tok) :=
  let '(ts, st) := lex_run LBase s in (ts ++.) <$> lex_end st.

Lemma lex_run_app st s t :
  lex_run st (s +:+ t) =
    let '(ts, st1) := lex_run st s in let '(us, st2) := lex_run st1 t in (ts ++ us, st2).
Proof.
  revert st. induction s as [|c s IH]; intros st.
  - change ("" +:+ t) with t. cbn [lex_run]. by destruct (lex_run st t) as [us st2].
  - rewrite str_app_cons. cbn [lex_run]. destruct (lex_step st c) as [ts st1]. rewrite IH.
    destruct (lex_run st1 s) as [us st2], (lex_run st2 t) as [vs st3]. by rewrite (assoc_L (++)).
Qed.

(** The characters that end any token. *)
Definition delim (c : ascii) : bool :=
  Ascii.eqb c " " || Ascii.eqb c "(" || Ascii.eqb c ")" || Ascii.eqb c ",".
Definition delim_first (s : string) : bool := match s with EmptyString => true | String c _ => delim c end.

Context `{!LexerOk L}.

(** A text read completely, by itself. *)
Definition reads (s : string) (ts : list tok) : Prop :=
  ∃ us st vs, lex_run LBase s = (us, st) ∧ st ≠ LComment ∧ lex_end st = Some vs ∧ ts = us ++ vs ∧
    ∀ q w, st = LClose q w → q = lx_ident L ∨ q = SQUOTE.

Lemma reads_tokens s ts : reads s ts → tokens s = Some ts.
Proof. intros (us & st & vs & E & _ & Hend & -> & _). unfold tokens. by rewrite E, Hend. Qed.

Lemma lex_step_delim st c vs :
  delim c = true → st ≠ LComment → lex_end st = Some vs →
  (∀ q w, st = LClose q w → q = lx_ident L ∨ q = SQUOTE) →
  lex_step st c = flush vs c.
Proof.
  intros Hc Hst Hend Hq.
  assert (c = " " ∨ c = "(" ∨ c = ")" ∨ c = ",")%char as Hcs.
  { unfold delim in Hc. rewrite !orb_true_iff, !Ascii.eqb_eq in Hc. tauto. }
  destruct st; cbn in Hend; simplify_eq; cbn [lex_step].
  - unfold flush. by destruct (step_base c).
  - by destruct Hcs as [->|[->|[->| ->]]].
  - by destruct Hcs as [->|[->|[->| ->]]].
  - by destruct Hcs as [->|[->|[->| ->]]].
  - destruct (Hq q s eq_refl) as [-> | ->]; [destruct ident_quote as [-> | ->]|];
      by destruct Hcs as [->|[->|[->| ->]]].
Qed.

Lemma reads_delim s t ts us :
  reads s ts → delim_first t = true → reads t us → reads (s +:+ t) (ts ++ us).
Proof.
  intros (ts1 & st & vs & E & Hst & Hend & -> & Hq) Ht (us1 & st' & ws & E' & Hst' & Hend' & -> & Hq').
  destruct t as [|c t].
  - rewrite str_app_nil. cbn in E'. injection E' as <- <-. injection Hend' as <-.
    exists ts1, st, vs. split_and!; [done..| |done]. by rewrite !app_nil_r.
  - exists (ts1 ++ vs ++ us1), st', ws. split_and!; [|done..| |done].
    + rewrite lex_run_app, E. cbn [lex_run] in E' |- *.
      rewrite (lex_step_delim st c vs) by done. unfold flush. unfold lex_step in E'.
      destruct (step_base c) as [us2 st2]. destruct (lex_run st2 t) as [us3 st3].
      injection E' as <- <-. by rewrite <- !(assoc_L (++)).
    + by rewrite <- !(assoc_L (++)).
Qed.

(** A text after which the lexer is where it started. *)
Definition reads_all (s : string) (ts : list tok) : Prop := lex_run LBase s = (ts, LBase).

Lemma reads_all_app s t ts us : reads_all s ts → reads t us → reads (s +:+ t) (ts ++ us).
Proof.
  intros E (us1 & st & vs & E' & Hst & Hend & -> & Hq). exists (ts ++ us1), st, vs.
  split_and!; [|done..| |done]; [|by rewrite (assoc_L (++))]. rewrite lex_run_app, E, E'. done.
Qed.

Lemma reads_all_reads s ts : reads_all s ts → reads s ts.
Proof. intros E. exists ts, LBase, []. split_and!; [done..| |done]. by rewrite app_nil_r. Qed.

(** Words and numbers. *)
Lemma lex_run_word w s : str_all word_char s = true → lex_run (LWord w) s = ([], LWord (w +:+ s)).
Proof.
  revert w. induction s as [|c s IH]; intros w Hs; [by rewrite str_app_nil|].
  cbn in Hs. apply andb_prop in Hs as [Hc Hs]. cbn [lex_run lex_step]. rewrite Hc, IH by done.
  unfold snoc. by rewrite <- str_app_assoc.
Qed.

Definition is_word (s : string) : bool := match s with EmptyString => false | _ => str_all word_char s end.
Definition is_literal_word (s : string) : bool :=
  is_word s || match s with String "-" s => is_word s | _ => false end.
(** A number: an optional sign, a digit, then digits, points and letters. *)
Definition digit_first (s : string) : bool :=
  match s with String c s => in_range 48 57 c && str_all word_char s | _ => false end.
Definition is_number (s : string) : bool :=
  digit_first s || match s with String "-" s => digit_first s | _ => false end.

Lemma step_word c : word_char c = true → step_base c = ([], LWord (String c "")).
Proof.
  intros Hc. unfold step_base. rewrite Hc.
  assert (is_whitespace c = false) as ->.
  { revert Hc. by destruct c as [[] [] [] [] [] [] [] []]. }
  assert (Ascii.eqb c (lx_ident L) || Ascii.eqb c SQUOTE = false) as ->; [|done].
  destruct ident_quote as [-> | ->]; revert Hc; by destruct c as [[] [] [] [] [] [] [] []].
Qed.

Lemma reads_word s : is_word s = true → reads s [TWord s].
Proof.
  destruct s as [|c s]; [done|]. cbn [is_word str_all]. intros [Hc Hs]%andb_prop.
  exists [], (LWord (String c s)), [TWord (String c s)]. split_and!; [|done..].
  cbn [lex_run lex_step]. rewrite step_word by done. by rewrite lex_run_word.
Qed.

Lemma reads_literal_word s : is_literal_word s = true → reads s [TWord s].
Proof.
  unfold is_literal_word. rewrite orb_true_iff. intros [Hs|Hs]; [by apply reads_word|].
  destruct s as [|a [|c s]]; [done|by destruct a as [[] [] [] [] [] [] [] []]|].
  assert (a = "-")%char as -> by (revert Hs; by destruct a as [[] [] [] [] [] [] [] []]).
  cbn [is_word str_all] in Hs. apply andb_prop in Hs as [Hc Hs].
  exists [], (LWord (String "-" (String c s))), [TWord (String "-" (String c s))]. split_and!; [|done..].
  cbn [lex_run lex_step].
  assert (step_base "-" = ([], LDash)) as -> by by destruct ident_quote as [E|E]; unfold step_base; rewrite E.
  cbn [lex_step]. rewrite Hc.
  assert (Ascii.eqb c "-" = false) as -> by (revert Hc; by destruct c as [[] [] [] [] [] [] [] []]).
  by rewrite lex_run_word.
Qed.

End Lex.

(** *** Quotes *)

Section Quotes.
Context (L : Lexer) `{!LexerOk L}.

Definition no_char (c : ascii) (s : string) : bool := str_all (λ a, negb (is_char c a)) s.

(** A name or value between quotes in which the quote is doubled. *)
Definition doubled (q : ascii) (s : string) : string :=
  String q "" +:+ replace (String q "") (String q (String q "")) s +:+ String q "".

Lemma lex_run_doubled q acc s :
  q ≠ BSLASH → lx_doubles L = true → (lx_escapes L q = true → no_char BSLASH s = true) →
  lex_run L (LQuote q acc) (replace (String q "") (String q (String q "")) s) = ([], LQuote q (acc +:+ s)).
Proof.
  intros Hq Hd. revert acc. induction s as [|c s IH]; intros acc Hs.
  - cbn. by rewrite str_app_nil.
  - rewrite replace_char. destruct (Ascii.eqb_spec c q) as [->|Hne].
    + rewrite !str_app_cons. change ("" +:+ ?x) with x. cbn [lex_run lex_step].
      rewrite Ascii.eqb_refl. cbn [lex_run lex_step]. rewrite Ascii.eqb_refl, Hd. cbn [andb]. rewrite IH; [by unfold snoc; rewrite <- str_app_assoc|].
      intros H. specialize (Hs H). cbn in Hs. by apply andb_prop in Hs as [_ Hs].
    + cbn [lex_run lex_step]. rewrite (proj2 (Ascii.eqb_neq c q)) by done.
      destruct (Ascii.eqb c BSLASH && lx_escapes L q) eqn:E.
      * apply andb_prop in E as [->%Ascii.eqb_eq E]. specialize (Hs E). done.
      * rewrite IH; [by unfold snoc; rewrite <- str_app_assoc|].
        intros H. specialize (Hs H). cbn in Hs. by apply andb_prop in Hs as [_ Hs].
Qed.

Lemma step_quote q : q = lx_ident L ∨ q = SQUOTE → step_base L q = ([], LQuote q "").
Proof.
  unfold step_base. intros [-> | ->].
  - rewrite Ascii.eqb_refl. by destruct ident_quote as [-> | ->].
  - by destruct ident_quote as [-> | ->].
Qed.

Lemma reads_doubled q s :
  q = lx_ident L ∨ q = SQUOTE → lx_doubles L = true → (lx_escapes L q = true → no_char BSLASH s = true) →
  reads L (doubled q s) [quoted_tok q s].
Proof.
  intros Hq Hd Hs. exists [], (LClose q s), [quoted_tok q s]. split_and!; [|done..|].
  - unfold doubled. rewrite str_app_cons. cbn [lex_run lex_step].
    rewrite step_quote by done. change ("" +:+ ?x) with x. rewrite lex_run_app, lex_run_doubled.
    + cbn [lex_run lex_step]. by rewrite Ascii.eqb_refl.
    + destruct Hq as [-> | ->]; [destruct ident_quote as [-> | ->]|]; done.
    + done.
    + done.
  - intros q' w [= <- <-]. done.
Qed.
End Quotes.

(** ** The condition a text is read as *)

(** Operators and literals of SQL, by what they mean. *)
Inductive sqlop : Type := SqlEq | SqlNe | SqlLt | SqlLe | SqlGt | SqlGe | SqlLike | SqlILike.
Inductive literal : Type := LNull | LBool (b : bool) | LNumber (digits : string) | LText (s : string).

Inductive cond : Type :=
| CAnd (l r : cond)
| COr (l r : cond)
| CNot (c : cond)
| CCmp (field : string) (op : sqlop) (value : literal)
| CIn (field : string) (vals : list literal)
| CNull (field : string)
| CNotNull (field : string).

Definition kw (w : string) (t : tok) : bool := match t with TWord w' => String.eqb w w' | _ => false end.
Definition sym (c : ascii) (t : tok) : bool := match t with TSym c' => Ascii.eqb c c' | _ => false end.

(** An operator; a literal: keywords in any case, numbers, quoted text. *)
Definition tok_op (t : tok) : option sqlop :=
  match t with
  | TOp "=" => Some SqlEq
  | TOp "!=" | TOp "<>" => Some SqlNe
  | TOp "<" => Some SqlLt
  | TOp "<=" => Some SqlLe
  | TOp ">" => Some SqlGt
  | TOp ">=" => Some SqlGe
  | TWord "LIKE" => Some SqlLike
  | TWord "ILIKE" => Some SqlILike
  | _ => None
  end.
Definition tok_lit (t : tok) : option literal :=
  match t with
  | TString s => Some (LText s)
  | TWord w =>
      if is_number w then Some (LNumber w)
      else if String.eqb (to_uppercase w) "NULL" then Some LNull
      else if String.eqb (to_uppercase w) "TRUE" then Some (LBool true)
      else if String.eqb (to_uppercase w) "FALSE" then Some (LBool false)
      else None
  | _ => None
  end.

(** The values of a list, one at least, up to the closing parenthesis. *)
Fixpoint p_values (ts : list tok) : option (list literal * list tok) :=
  match ts with
  | v :: s :: ts =>
      v ← tok_lit v;
      if sym ")" s then Some ([v], ts)
      else if sym "," s then '(vs, ts) ← p_values ts; Some (v :: vs, ts)
      else None
  | _ => None
  end.

(** A predicate on a named column. *)
Definition p_predicate (ts : list tok) : option (cond * list tok) :=
  match ts with
  | TIdent f :: k :: s :: ts =>
      if kw "IN" k && sym "(" s then '(vs, ts) ← p_values ts; Some (CIn f vs, ts)
      else if kw "IS" k then
        if kw "NULL" s then Some (CNull f, ts)
        else match ts with n :: ts => if kw "NOT" s && kw "NULL" n then Some (CNotNull f, ts) else None | [] => None end
      else o ← tok_op k; v ← tok_lit s; Some (CCmp f o v, ts)
  | k :: s :: TIdent f :: e :: ts =>
      if sym "(" s && sym ")" e then
        if kw "isNull" k then Some (CNull f, ts)
        else if kw "isNotNull" k then Some (CNotNull f, ts) else None
      else None
  | _ => None
  end.

(** OR binds weaker than AND, AND weaker than NOT. *)
Fixpoint p_or (n : nat) (ts : list tok) : option (cond * list tok) :=
  match n with
  | 0 => None
  | S n => '(c, ts) ← p_and n ts; p_or_more n c ts
  end
with p_or_more (n : nat) (c : cond) (ts : list tok) : option (cond * list tok) :=
  match n with
  | 0 => None
  | S n =>
      match ts with
      | k :: ts' => if kw "OR" k then '(d, ts') ← p_and n ts'; p_or_more n (COr c d) ts' else Some (c, ts)
      | [] => Some (c, ts)
      end
  end
with p_and (n : nat) (ts : list tok) : option (cond * list tok) :=
  match n with
  | 0 => None
  | S n => '(c, ts) ← p_not n ts; p_and_more n c ts
  end
with p_and_more (n : nat) (c : cond) (ts : list tok) : option (cond * list tok) :=
  match n with
  | 0 => None
  | S n =>
      match ts with
      | k :: ts' => if kw "AND" k then '(d, ts') ← p_not n ts'; p_and_more n (CAnd c d) ts' else Some (c, ts)
      | [] => Some (c, ts)
      end
  end
with p_not (n : nat) (ts : list tok) : option (cond * list tok) :=
  match n with
  | 0 => None
  | S n =>
      match ts with
      | k :: ts' =>
          if kw "NOT" k then '(c, ts') ← p_not n ts'; Some (CNot c, ts')
          else if sym "(" k then
            '(c, ts') ← p_or n ts';
            match ts' with e :: ts' => if sym ")" e then Some (c, ts') else None | [] => None end
          else p_predicate ts
      | [] => None
      end
  end.

(** The condition of a text: its tokens are read, and none is left. *)
Definition read_cond (L : Lexer) (s : string) : option cond :=
  ts ← tokens L s;
  '(c, rest) ← p_or (8 * length ts + 8) ts;
  match rest with [] => Some c | _ => None end.

(** ** Conditions are read back *)

Lemma reads_const L `{!LexerOk L} s ts :
  (∀ esc dbl, lex_run (mkLexer DQ esc dbl) LBase s = (ts, LBase)) →
  (∀ esc dbl, lex_run (mkLexer "`" esc dbl) LBase s = (ts, LBase)) →
  reads_all L s ts.
Proof.
  intros H1 H2. unfold reads_all. pose proof ident_quote as Hq. destruct L as [iq esc dbl]. cbn in Hq.
  by destruct Hq as [-> | ->].
Qed.

(** A text after which a word is left to be ended. *)
Lemma reads_const_word L `{!LexerOk L} s ts w :
  (∀ esc dbl, lex_run (mkLexer DQ esc dbl) LBase s = (ts, LWord w)) →
  (∀ esc dbl, lex_run (mkLexer "`" esc dbl) LBase s = (ts, LWord w)) →
  reads L s (ts ++ [TWord w]).
Proof.
  intros H1 H2. pose proof ident_quote as Hq. exists ts, (LWord w), [TWord w]. split_and!; [|done..].
  destruct L as [iq esc dbl]. cbn in Hq. by destruct Hq as [-> | ->].
Qed.

(** What a filter means to a database, where databases differ: the operators for
    [ILIKE] and for containment, and the booleans. *)
Record Meaning : Type := mkMeaning { m_ilike : sqlop; m_contains : sqlop; m_bool : bool → literal }.
Definition op_meaning (m : Meaning) (op : ComparisonOp) : sqlop :=
  match op with
  | OpEq => SqlEq | OpNeq => SqlNe | OpLt => SqlLt | OpLte => SqlLe | OpGt => SqlGt | OpGte => SqlGe
  | OpLike => SqlLike | OpILike => m_ilike m | OpContains => m_contains m
  end.
Definition value_meaning `{F64Display} (m : Meaning) (v : ScalarValue) : literal :=
  match v with
  | Null => LNull
  | SBoolean b => m_bool m b
  | SInt64 n => LNumber (pretty n)
  | SFloat64 f => LNumber (fmt_f64 f)
  | SUtf8 s => LText s
  end.
Definition finite (f : spec_float) : bool := match f with S754_nan | S754_infinity _ => false | _ => true end.
(** A value that can be sent: a float is finite. *)
Definition value_sends (value_ok : string → Prop) (v : ScalarValue) : Prop :=
  match v with SUtf8 s => value_ok s | SFloat64 f => finite f = true | _ => True end.

(** What a dialect owes to its database: names, operators, literals and null
    tests are read as what they mean.  [name_ok] and [value_ok] say for which names
    and string values. *)
Class DialectReads `{F64Display} (L : Lexer) (d : Dialect) (m : Meaning) (name_ok value_ok : string → Prop) : Prop := {
  ident_reads s : name_ok s → reads L (d_ident d s) [TIdent s];
  op_reads op : ∃ t, reads L (d_op d op) [t] ∧ tok_op t = Some (op_meaning m op);
  scalar_reads v : value_sends value_ok v → ∃ t, reads L (d_scalar d v) [t] ∧ tok_lit t = Some (value_meaning m v);
  null_reads s : name_ok s →
    ∃ t ts, reads L (d_is_null d s) (t :: ts) ∧ kw "NOT" t = false ∧ sym "(" t = false ∧
      ∀ rest, p_predicate (t :: ts ++ rest) = Some (CNull s, rest);
  not_null_reads s : name_ok s →
    ∃ t ts, reads L (d_is_not_null d s) (t :: ts) ∧ kw "NOT" t = false ∧ sym "(" t = false ∧
      ∀ rest, p_predicate (t :: ts ++ rest) = Some (CNotNull s, rest);
}.

Ltac const_reads :=
  match goal with
  | |- reads_all ?L _ _ => apply (reads_const L); intros; reflexivity
  | |- reads ?L _ _ => apply reads_all_reads, (reads_const L); intros; reflexivity
  end.

(** Unfold the levels of the parser above [p_not]. *)
Ltac parse_step := cbn [p_or p_and p_or_more p_and_more mbind option_bind kw sym String.eqb Ascii.eqb eqb Bool.eqb].

Section ReadBack.
Context `{F : F64Display} (L : Lexer) `{!LexerOk L} (d : Dialect) (M : Meaning) (name_ok value_ok : string → Prop).
Context `{!DialectReads L d M name_ok value_ok}.

(** The condition that a filter means. *)
Fixpoint cond_of (f : FilterExpr) : cond :=
  match f with
  | FAnd l r => CAnd (cond_of l) (cond_of r)
  | FOr l r => COr (cond_of l) (cond_of r)
  | FNot e => CNot (cond_of e)
  | FComparison f op v => CCmp f (op_meaning M op) (value_meaning M v)
  | FIn f vs => CIn f (value_meaning M <$> vs)
  | FIsNull f => CNull f
  | FIsNotNull f => CNotNull f
  end.

(** A filter that can be sent: every value can, and a list of values has one. *)
Fixpoint filter_ok (f : FilterExpr) : Prop :=
  match f with
  | FAnd l r | FOr l r => filter_ok l ∧ filter_ok r
  | FNot e => filter_ok e
  | FComparison f _ v => name_ok f ∧ value_sends value_ok v
  | FIn f vs => name_ok f ∧ vs ≠ [] ∧ Forall (value_sends value_ok) vs
  | FIsNull f | FIsNotNull f => name_ok f
  end.

Fixpoint fsize (f : FilterExpr) : nat :=
  match f with
  | FAnd l r | FOr l r => S (fsize l + fsize r)
  | FNot e => S (fsize e)
  | _ => 1
  end.

(** Tokens that read as the condition [c], however the text goes on. *)
Definition parses (ts : list tok) (size : nat) (c : cond) : Prop :=
  size ≤ length ts ∧ ∀ n rest, 8 * size ≤ n → p_not n (ts ++ rest) = Some (c, rest).

(** Inside parentheses. *)
Lemma parses_or_pair ts us m k c e rest n :
  parses ts m c → parses us k e → 8 * m + 8 * k + 5 ≤ n →
  p_or n (ts ++ TWord "OR" :: us ++ TSym ")" :: rest) = Some (COr c e, TSym ")" :: rest).
Proof.
  intros [_ Hc] [_ He] Hn. do 5 (destruct n as [|n]; [lia|]).
  parse_step. rewrite Hc by lia. parse_step. rewrite He by lia. reflexivity.
Qed.

Lemma parses_and_pair ts us m k c e rest n :
  parses ts m c → parses us k e → 8 * m + 8 * k + 5 ≤ n →
  p_or n (ts ++ TWord "AND" :: us ++ TSym ")" :: rest) = Some (CAnd c e, TSym ")" :: rest).
Proof.
  intros [_ Hc] [_ He] Hn. do 5 (destruct n as [|n]; [lia|]).
  parse_step. rewrite Hc by lia. parse_step. rewrite He by lia. reflexivity.
Qed.

Lemma parses_alone ts m c rest n :
  parses ts m c → 8 * m + 5 ≤ n →
  (match rest with [] => True | t :: _ => kw "AND" t = false ∧ kw "OR" t = false end) →
  p_or n (ts ++ rest) = Some (c, rest).
Proof.
  intros [_ Hc] Hn Hrest. do 4 (destruct n as [|n]; [lia|]). parse_step. rewrite Hc by lia. parse_step.
  destruct rest as [|t rest]; [done|]. destruct Hrest as [Ha Ho]. rewrite Ha. parse_step. by rewrite Ho.
Qed.

Lemma lit_not_close t l : tok_lit t = Some l → sym ")" t = false.
Proof. by destruct t. Qed.
Lemma op_not_keyword t o : tok_op t = Some o → kw "IN" t = false ∧ kw "IS" t = false.
Proof.
  destruct t as [w|o'|s|s|c]; try done. intros Hw. split; apply String.eqb_neq; by intros <-.
Qed.

(** The rest of an IN list. *)
Lemma values_read v vs :
  value_sends value_ok v → Forall (value_sends value_ok) vs →
  ∃ ts, reads L (join_with ", " (d_scalar d <$> v :: vs) +:+ ")") ts ∧
    ∀ rest, p_values (ts ++ rest) = Some (value_meaning M <$> v :: vs, rest).
Proof.
  intros Hv Hvs. revert v Hv. induction Hvs as [|w vs Hw Hvs IH]; intros v Hv; destruct (scalar_reads v Hv) as (t & Ht & Hl).
  - exists [t; TSym ")"]. split_and!; [|intros rest; cbn; by rewrite Hl].
    apply (reads_delim L _ ")" [_] [_]); [done|done|]. const_reads.
  - destruct (IH w Hw) as (ts & Hr & Hp). exists (t :: TSym "," :: ts). split_and!.
    + cbn [fmap list_fmap]. rewrite join_with_cons, <- !str_app_assoc.
      apply (reads_delim L _ _ [_]); [done|done|].
      apply (reads_all_app L ", " _ [_]); [const_reads|done].
    + intros rest. cbn [app p_values]. rewrite Hl. specialize (Hp rest).
      cbn [fmap list_fmap] in Hp |- *. cbn. by rewrite Hp.
Qed.

(** A predicate is a condition by itself. *)
Lemma parses_predicate t ts c :
  kw "NOT" t = false → sym "(" t = false → (∀ rest, p_predicate (t :: ts ++ rest) = Some (c, rest)) →
  parses (t :: ts) 1 c.
Proof.
  intros Hn Hs Hp. split; [cbn; lia|]. intros n rest Hle. destruct n as [|n]; [lia|].
  cbn [app p_not]. by rewrite Hn, Hs.
Qed.

Lemma parses_paren ts m c :
  (∀ n rest, 8 * m + 6 ≤ n → p_or n (ts ++ TSym ")" :: rest) = Some (c, TSym ")" :: rest)) → m ≤ length ts →
  parses (TSym "(" :: ts ++ [TSym ")"]) (S m) c.
Proof.
  intros Hp Hlen. split; [cbn; rewrite length_app; cbn; lia|]. intros n rest Hn. destruct n as [|n]; [lia|].
  cbn [app p_not kw sym]. rewrite <- (assoc_L (++)). cbn [app].
  change (Ascii.eqb "(" "(") with true. cbv iota. rewrite Hp by lia. done.
Qed.

Lemma filter_reads f :
  filter_ok f → ∃ ts, reads L (filter_sql d f) ts ∧ parses ts (fsize f) (cond_of f).
Proof.
  induction f as [l IHl r IHr|l IHl r IHr|e IH|f op v|f vs|f|f]; cbn [filter_ok filter_sql fsize cond_of].
  - intros [(ts & Hr & Hp)%IHl (us & Hr' & Hp')%IHr].
    exists (TSym "(" :: (ts ++ TWord "AND" :: us) ++ [TSym ")"]). split.
    + apply (reads_all_app L "(" _ [_]); [const_reads|]. rewrite <- (assoc_L (++)).
      apply (reads_delim L); [done|done|]. apply (reads_all_app L " AND " _ [_]); [const_reads|].
      apply (reads_delim L); [done|done|]. const_reads.
    + apply parses_paren; [|rewrite length_app; cbn; destruct Hp, Hp'; lia]. intros n rest Hn.
      rewrite <- (assoc_L (++)). cbn [app]. eapply parses_and_pair; [done..|lia].
  - intros [(ts & Hr & Hp)%IHl (us & Hr' & Hp')%IHr].
    exists (TSym "(" :: (ts ++ TWord "OR" :: us) ++ [TSym ")"]). split.
    + apply (reads_all_app L "(" _ [_]); [const_reads|]. rewrite <- (assoc_L (++)).
      apply (reads_delim L); [done|done|]. apply (reads_all_app L " OR " _ [_]); [const_reads|].
      apply (reads_delim L); [done|done|]. const_reads.
    + apply parses_paren; [|rewrite length_app; cbn; destruct Hp, Hp'; lia]. intros n rest Hn.
      rewrite <- (assoc_L (++)). cbn [app]. eapply parses_or_pair; [done..|lia].
  - intros (ts & Hr & Hp)%IH. exists (TWord "NOT" :: TSym "(" :: ts ++ [TSym ")"]). split.
    + apply (reads_all_app L "NOT (" _ [_; _]); [const_reads|].
      apply (reads_delim L); [done|done|]. const_reads.
    + split; [cbn; rewrite length_app; destruct Hp; cbn; lia|]. intros n rest Hn. do 2 (destruct n as [|n]; [lia|]).
      cbn [app p_not kw sym]. change (String.eqb "NOT" "NOT") with true. change (Ascii.eqb "(" "(") with true.
      cbv iota. rewrite <- (assoc_L (++)). rewrite (parses_alone _ _ _ _ _ Hp) by (done || lia). done.
  - intros [Hf Hv]. destruct (op_reads op) as (t & Ht & Hop), (scalar_reads v Hv) as (u & Hu & Hl). exists [TIdent f; t; u]. split.
    + apply (reads_delim L _ _ [_]); [by apply ident_reads|done|].
      apply (reads_all_app L " " _ []); [const_reads|].
      apply (reads_delim L _ _ [_]); [done|done|]. by apply (reads_all_app L " " _ []); [const_reads|].
    + apply parses_predicate; [done..|]. intros rest. cbn [app p_predicate].
      destruct (op_not_keyword t _ Hop) as [-> ->]. rewrite Hop. cbn. by rewrite Hl.
  - intros (Hf & Hne & Hvs). destruct Hvs as [|v vs Hv Hvs]; [done|].
    destruct (values_read v vs Hv Hvs) as (ts & Hr & Hp). exists (TIdent f :: TWord "IN" :: TSym "(" :: ts). split.
    + apply (reads_delim L _ _ [_]); [by apply ident_reads|done|].
      apply (reads_all_app L " IN (" _ [_; _]); [const_reads|done].
    + apply parses_predicate; [done..|]. intros rest. cbn [app p_predicate]. by rewrite Hp.
  - intros Hf. destruct (null_reads f Hf) as (t & ts & Hr & Hn & Hs & Hp). exists (t :: ts). split; [done|].
    by apply parses_predicate.
  - intros Hf. destruct (not_null_reads f Hf) as (t & ts & Hr & Hn & Hs & Hp). exists (t :: ts). split; [done|].
    by apply parses_predicate.
Qed.

Lemma filter_reads_back f : filter_ok f → read_cond L (filter_sql d f) = Some (cond_of f).
Proof.
  intros (ts & Hr & Hp)%filter_reads. unfold read_cond. rewrite (reads_tokens L _ _ Hr). cbn [mbind option_bind].
  rewrite <- (app_nil_r ts) at 2. rewrite (parses_alone _ _ _ _ _ Hp); [done| |done]. destruct Hp as [Hp _]. lia.
Qed.
End ReadBack.

(** ** The connectors *)

(** [f64::to_string] writes digits, a point and a sign, or [NaN] or [inf]. *)
Class F64Words `{F64Display} : Prop := {
  fmt_f64_word f : is_literal_word (fmt_f64 f) = true;
  fmt_f64_number f : finite f = true → is_number (fmt_f64 f) = true }.

(** PostgreSQL, DuckDB, SQLite, Presto and Arrow Flight SQL servers read standard
    SQL; in ClickHouse, BigQuery and in Snowflake's string literals a backslash
    escapes; BigQuery has no doubled quotes. *)
Definition std_lexer : Lexer := mkLexer DQ (λ _, false) true.
Definition clickhouse_lexer : Lexer := mkLexer "`" (λ _, true) true.
Definition snowflake_lexer : Lexer := mkLexer DQ (λ q, Ascii.eqb q SQUOTE) true.
Definition bigquery_lexer : Lexer := mkLexer "`" (λ _, true) false.

#[export] Instance std_lexer_ok : LexerOk std_lexer. Proof. by left. Qed.
#[export] Instance clickhouse_lexer_ok : LexerOk clickhouse_lexer. Proof. by right. Qed.
#[export] Instance snowflake_lexer_ok : LexerOk snowflake_lexer. Proof. by left. Qed.
#[export] Instance bigquery_lexer_ok : LexerOk bigquery_lexer. Proof. by right. Qed.

Definition any (s : string) : Prop := True.
Definition no_backslash (s : string) : Prop := no_char BSLASH s = true.
Definition no_backtick (s : string) : Prop := no_char "`" s = true ∧ no_backslash s.

Lemma digits_word s : str_all (λ a, bool_decide (is_Some (digit_value a))) s = true → str_all word_char s = true.
Proof.
  apply str_all_impl. intros a [d Ha]%bool_decide_eq_true. unfold digit_value in Ha. unfold word_char, in_range.
  by destruct ((48 <=? N_of_ascii a) && (N_of_ascii a <=? 57))%N.
Qed.

Lemma pretty_is_word (n : N) : is_word (pretty n) = true.
Proof. pose proof (pretty_nonempty n). pose proof (digits_word _ (pretty_digits n)). by destruct (pretty n). Qed.

Lemma pretty_Z_word (z : Z) : is_literal_word (pretty z) = true.
Proof.
  unfold is_literal_word. destruct z as [|p|p]; [done|change (pretty (Zpos p)) with (pretty (Npos p)); by rewrite pretty_is_word|].
  change (pretty (Zneg p)) with (String "-" (pretty (Npos p))).
  cbn -[is_word pretty]. by rewrite pretty_is_word, orb_true_r.
Qed.

Section Instances.
Context `{F : F64Display, !F64Words}.

Lemma pretty_digit_first (n : N) : digit_first (pretty n) = true.
Proof.
  pose proof (pretty_is_word n) as Hw. pose proof (pretty_digits n) as Hd. destruct (pretty n) as [|c s]; [done|].
  cbn in Hw, Hd |- *. apply andb_prop in Hw as [_ Hw], Hd as [Hc _]. apply bool_decide_eq_true in Hc as [k Hc].
  unfold digit_value in Hc. rewrite Hw, andb_true_r. unfold in_range. by destruct ((48 <=? N_of_ascii c)%N && (N_of_ascii c <=? 57)%N).
Qed.
Lemma pretty_Z_number (z : Z) : is_number (pretty z) = true.
Proof.
  pose proof (λ p, pretty_digit_first (Npos p)) as Hp. unfold is_number.
  destruct z as [|p|p]; [done|change (pretty (Zpos p)) with (pretty (Npos p)); by rewrite Hp|].
  change (pretty (Zneg p)) with (String "-" (pretty (Npos p))). cbn -[digit_first pretty]. by rewrite Hp, orb_true_r.
Qed.
Lemma number_literal w : is_number w = true → tok_lit (TWord w) = Some (LNumber w).
Proof. intros Hw. cbn [tok_lit]. by rewrite Hw. Qed.

(** Literals of the connectors that double the quote. *)
Lemma scalar_text_reads L `{!LexerOk L} (bt : bool → string) null M v value_ok :
  (∀ b, is_literal_word (bt b) = true ∧ tok_lit (TWord (bt b)) = Some (m_bool M b)) →
  is_word null = true → tok_lit (TWord null) = Some LNull → lx_doubles L = true →
  (∀ s, value_ok s → lx_escapes L SQUOTE = true → no_backslash s) → value_sends value_ok v →
  ∃ t, reads L (scalar_text bt null v) [t] ∧ tok_lit t = Some (value_meaning M v).
Proof.
  intros Hb Hn Hnull Hd Hs Hv. destruct v as [|b|z|f|s]; cbn [scalar_text value_meaning value_sends] in *.
  - exists (TWord null). split; [by apply reads_word|done].
  - destruct (Hb b) as [Hw Hl]. exists (TWord (bt b)). split; [by apply reads_literal_word|done].
  - exists (TWord (pretty z)). split; [apply reads_literal_word; [done|apply pretty_Z_word]|apply number_literal, pretty_Z_number].
  - exists (TWord (fmt_f64 f)). split; [apply reads_literal_word; [done|apply fmt_f64_word]|by apply number_literal, fmt_f64_number].
  - exists (TString s). split; [apply (reads_doubled L SQUOTE s); [by right|done|by apply Hs]|done].
Qed.

Lemma op_text_reads L `{!LexerOk L} l i c M op :
  is_word l = true → tok_op (TWord l) = Some SqlLike → is_word i = true → tok_op (TWord i) = Some (m_ilike M) →
  is_word c = true → tok_op (TWord c) = Some (m_contains M) →
  ∃ t, reads L (op_text l i c op) [t] ∧ tok_op t = Some (op_meaning M op).
Proof.
  assert (∀ o, (∀ esc dbl, lex_run (mkLexer DQ esc dbl) LBase o = ([], LOp o)) →
    (∀ esc dbl, lex_run (mkLexer "`" esc dbl) LBase o = ([], LOp o)) → reads L o [TOp o]) as Ho.
  { intros o H1 H2. pose proof ident_quote as Hq. exists [], (LOp o), [TOp o]. split_and!; [|done..].
    destruct L as [iq esc dbl]. cbn in Hq. by destruct Hq as [-> | ->]. }
  intros Hl Hl' Hi Hi' Hc Hc'. destruct op; cbn [op_text];
    first [eexists; split; [by apply Ho|done]|eexists; split; [by apply reads_word|done]].
Qed.

(** Null tests written after the name. *)
Lemma is_null_reads L `{!LexerOk L} qi s :
  reads L (qi s) [TIdent s] →
  ∃ t ts, reads L (is_null_text qi s) (t :: ts) ∧ kw "NOT" t = false ∧ sym "(" t = false ∧
    ∀ rest, p_predicate (t :: ts ++ rest) = Some (CNull s, rest).
Proof.
  intros Hs. exists (TIdent s), [TWord "IS"; TWord "NULL"]. split_and!; [|done..].
  apply (reads_delim L _ _ [_] _ Hs); [done|].
  apply (reads_const_word L _ [TWord "IS"] "NULL"); intros; reflexivity.
Qed.

Lemma is_not_null_reads L `{!LexerOk L} qi s :
  reads L (qi s) [TIdent s] →
  ∃ t ts, reads L (is_not_null_text qi s) (t :: ts) ∧ kw "NOT" t = false ∧ sym "(" t = false ∧
    ∀ rest, p_predicate (t :: ts ++ rest) = Some (CNotNull s, rest).
Proof.
  intros Hs. exists (TIdent s), [TWord "IS"; TWord "NOT"; TWord "NULL"]. split_and!; [|done..].
  apply (reads_delim L _ _ [_] _ Hs); [done|].
  apply (reads_const_word L _ [TWord "IS"; TWord "NOT"] "NULL"); intros; reflexivity.
Qed.

Lemma std_ident_reads s : reads std_lexer (quote_ident s) [TIdent s].
Proof. by apply (reads_doubled std_lexer DQ s); [left| |]. Qed.

(** What the dialects mean: [ILIKE] is [LIKE] for most, and PostgreSQL has
    containment as [ILIKE]; ClickHouse has no booleans but 1 and 0. *)
Definition like_meaning : Meaning := mkMeaning SqlLike SqlLike LBool.
Definition pg_meaning : Meaning := mkMeaning SqlILike SqlILike LBool.
Definition duck_meaning : Meaning := mkMeaning SqlILike SqlLike LBool.
Definition ch_meaning : Meaning := mkMeaning SqlLike SqlLike (λ b : bool, LNumber (if b then "1" else "0")).

Lemma bool_text_reads b : is_literal_word (bool_text b) = true ∧ tok_lit (TWord (bool_text b)) = Some (LBool b).
Proof. by destruct b. Qed.
Lemma upper_bool_reads b : is_literal_word (upper_bool b) = true ∧ tok_lit (TWord (upper_bool b)) = Some (LBool b).
Proof. by destruct b. Qed.

(** A dialect with standard names, literals and null tests. *)
Lemma std_dialect_reads l i c bt null M :
  is_word l = true → tok_op (TWord l) = Some SqlLike → is_word i = true → tok_op (TWord i) = Some (m_ilike M) →
  is_word c = true → tok_op (TWord c) = Some (m_contains M) →
  (∀ b, is_literal_word (bt b) = true ∧ tok_lit (TWord (bt b)) = Some (m_bool M b)) →
  is_word null = true → tok_lit (TWord null) = Some LNull →
  DialectReads std_lexer
    (mkDialect quote_ident (op_text l i c) (scalar_text bt null) (is_null_text quote_ident) (is_not_null_text quote_ident))
    M any any.
Proof.
  intros. split; intros.
  - apply std_ident_reads.
  - apply op_text_reads; [apply _|done..].
  - by apply (scalar_text_reads std_lexer bt null M v any).
  - apply is_null_reads, std_ident_reads; apply _.
  - apply is_not_null_reads, std_ident_reads; apply _.
Qed.

#[export] Instance pg_reads : DialectReads std_lexer pg_dialect pg_meaning any any.
Proof. apply std_dialect_reads; try done. apply bool_text_reads. Qed.
#[export] Instance duck_reads : DialectReads std_lexer duck_dialect duck_meaning any any.
Proof. apply std_dialect_reads; try done. apply bool_text_reads. Qed.
#[export] Instance flight_reads : DialectReads std_lexer flight_dialect like_meaning any any.
Proof. apply std_dialect_reads; try done. apply bool_text_reads. Qed.
#[export] Instance athena_reads : DialectReads std_lexer athena_dialect like_meaning any any.
Proof. apply std_dialect_reads; try done. apply upper_bool_reads. Qed.
#[export] Instance ts_reads : DialectReads std_lexer ts_dialect like_meaning any any.
Proof. apply std_dialect_reads; try done. apply upper_bool_reads. Qed.

#[export] Instance snow_reads : DialectReads snowflake_lexer snow_dialect like_meaning any no_backslash.
Proof.
  assert (∀ s, reads snowflake_lexer (quote_ident s) [TIdent s]) as Hq.
  { intros s. by apply (reads_doubled snowflake_lexer DQ s); [left| |]. }
  split; intros.
  - apply Hq.
  - apply op_text_reads; [apply _|done..].
  - eapply (scalar_text_reads snowflake_lexer _ _ like_meaning _ no_backslash); try done; apply bool_text_reads.
  - apply is_null_reads, Hq; apply _.
  - apply is_not_null_reads, Hq; apply _.
Qed.

#[export] Instance ch_reads : DialectReads clickhouse_lexer ch_dialect ch_meaning no_backslash no_backslash.
Proof.
  assert (∀ s, no_backslash s → reads clickhouse_lexer (quote_ident_backtick s) [TIdent s]) as Hq.
  { intros s Hs. by apply (reads_doubled clickhouse_lexer "`" s); [left| |]. }
  assert (∀ fn s, is_word fn = true → (∀ esc dbl, lex_run (mkLexer "`" esc dbl) LBase (fn +:+ "(") = ([TWord fn; TSym "("], LBase)) →
    no_backslash s →
    reads clickhouse_lexer (fn +:+ "(" +:+ quote_ident_backtick s +:+ ")") [TWord fn; TSym "("; TIdent s; TSym ")"]) as Hfn.
  { intros fn s Hfn Hrun Hs. rewrite (str_app_assoc fn).
    apply (reads_all_app clickhouse_lexer _ _ [_; _]); [apply Hrun|].
    apply (reads_delim clickhouse_lexer _ _ [_]); [by apply Hq|done|]. const_reads. }
  split; intros.
  - by apply Hq.
  - apply op_text_reads; [apply _|done..].
  - eapply (scalar_text_reads clickhouse_lexer _ _ ch_meaning _ no_backslash); try done; by intros [].
  - eexists _, _. split; [apply (Hfn "isNull" s); done|done].
  - eexists _, _. split; [apply (Hfn "isNotNull" s); done|done].
Qed.

(** BigQuery: quotes escaped in literals, nothing escaped in names. *)
Lemma lex_run_escaped acc s :
  no_backslash s →
  lex_run bigquery_lexer (LQuote SQUOTE acc) (replace "'" (BACKSLASH +:+ "'") s) = ([], LQuote SQUOTE (acc +:+ s)).
Proof.
  revert acc. induction s as [|c s IH]; intros acc Hs; [cbn; by rewrite str_app_nil|].
  unfold no_backslash, no_char in Hs. cbn [str_all] in Hs. apply andb_prop in Hs as [Hc Hs].
  change "'" with (String SQUOTE "") at 1. rewrite replace_char. destruct (Ascii.eqb_spec c SQUOTE) as [->|Hne].
  - change (BACKSLASH +:+ "'") with (String BSLASH (String SQUOTE "")) at 1. rewrite !str_app_cons.
    cbn [lex_run lex_step]. change (Ascii.eqb BSLASH SQUOTE) with false. cbv iota.
    change (Ascii.eqb BSLASH BSLASH && lx_escapes bigquery_lexer SQUOTE) with true. cbn [lex_run lex_step].
    change ("" +:+ ?x) with x. rewrite IH by done. unfold snoc. by rewrite <- str_app_assoc.
  - cbn [lex_run lex_step]. rewrite (proj2 (Ascii.eqb_neq c SQUOTE)) by done.
    unfold is_char in Hc. rewrite Ascii.eqb_sym in Hc. destruct (Ascii.eqb c BSLASH); [done|]. cbn [andb].
    rewrite IH by done. unfold snoc. by rewrite <- str_app_assoc.
Qed.

Lemma lex_run_plain q acc s :
  no_char q s = true → no_backslash s → lex_run bigquery_lexer (LQuote q acc) s = ([], LQuote q (acc +:+ s)).
Proof.
  revert acc. induction s as [|c s IH]; intros acc Hq Hs; [cbn; by rewrite str_app_nil|].
  unfold no_backslash, no_char in *. cbn [str_all] in Hs, Hq. apply andb_prop in Hs as [Hc Hs], Hq as [Hcq Hq].
  unfold is_char in Hc, Hcq. rewrite Ascii.eqb_sym in Hc, Hcq. cbn [lex_run lex_step].
  destruct (Ascii.eqb c q); [done|]. destruct (Ascii.eqb c BSLASH); [done|]. cbn [andb].
  rewrite IH by done. unfold snoc. by rewrite <- str_app_assoc.
Qed.

#[export] Instance bq_reads : DialectReads bigquery_lexer bq_dialect like_meaning no_backtick no_backslash.
Proof.
  assert (∀ s, no_backtick s → reads bigquery_lexer (quote_ident_backtick s) [TIdent s]) as Hq.
  { intros s [Hs Hb]. exists [], (LClose "`" s), [TIdent s]. split_and!; [|done..|intros q w [= <- <-]; by left].
    unfold quote_ident_backtick. rewrite replace_char_none by done. rewrite str_app_cons. cbn [lex_run lex_step].
    rewrite (step_quote bigquery_lexer "`") by by left. change ("" +:+ ?x) with x. rewrite lex_run_app, lex_run_plain by done. done. }
  split; intros.
  - by apply Hq.
  - apply op_text_reads; [apply _|done..].
  - assert (∀ w, is_literal_word w = true → reads bigquery_lexer w [TWord w]) as Hw by (intros w; apply reads_literal_word; apply _).
    destruct v as [|b|z|f|s]; cbn [d_scalar bq_dialect bq_scalar_to_sql value_meaning value_sends] in *.
    + exists (TWord "NULL"). split; [by apply Hw|done].
    + destruct (bool_text_reads b). exists (TWord (bool_text b)). split; [by apply Hw|done].
    + exists (TWord (pretty z)). split; [apply Hw, pretty_Z_word|apply number_literal, pretty_Z_number].
    + exists (TWord (fmt_f64 f)). split; [apply Hw, fmt_f64_word|by apply number_literal, fmt_f64_number].
    + exists (TString s). split; [|done]. exists [], (LClose SQUOTE s), [TString s]. split_and!; [|done..|intros q w [= <- <-]; by right].
      rewrite str_app_cons. cbn [lex_run lex_step]. change (step_base bigquery_lexer "'") with (@nil tok, LQuote SQUOTE "").
      cbv iota beta. change ("" +:+ ?x) with x. rewrite lex_run_app, lex_run_escaped by auto. done.
  - apply is_null_reads, Hq; [apply _|done].
  - apply is_not_null_reads, Hq; [apply _|done].
Qed.
End Instances.

(** ** Theorems *)

(** The condition a SQL connector sends is read by its database as the filter,
    with every name, operator and value as it was, whatever characters they
    contain; for the databases in which a backslash escapes, when names and
    values have none.  The floats are finite, and no list of values is empty. *)
Theorem sql_filters_read_back `{F : F64Display, !F64Words} f :
  (filter_ok any any f →
     read_cond std_lexer (pg_filter_to_sql f) = Some (cond_of pg_meaning f) ∧
     read_cond std_lexer (duck_filter_to_sql f) = Some (cond_of duck_meaning f) ∧
     read_cond std_lexer (flight_filter_to_sql f) = Some (cond_of like_meaning f) ∧
     read_cond std_lexer (athena_filter_to_sql f) = Some (cond_of like_meaning f) ∧
     read_cond std_lexer (ts_filter_to_sql f) = Some (cond_of like_meaning f)) ∧
  (filter_ok any no_backslash f →
     read_cond snowflake_lexer (snow_filter_to_sql f) = Some (cond_of like_meaning f)) ∧
  (filter_ok no_backslash no_backslash f →
     read_cond clickhouse_lexer (ch_filter_to_sql f) = Some (cond_of ch_meaning f)) ∧
  (filter_ok no_backtick no_backslash f →
     read_cond bigquery_lexer (bq_filter_to_sql f) = Some (cond_of like_meaning f)).
Proof.
  split_and!; [intros Hf; split_and!; by apply (filter_reads_back std_lexer _ _ any any)|..].
  - by apply (filter_reads_back snowflake_lexer snow_dialect like_meaning any no_backslash).
  - by apply (filter_reads_back clickhouse_lexer ch_dialect ch_meaning no_backslash no_backslash).
  - by apply (filter_reads_back bigquery_lexer bq_dialect like_meaning no_backtick no_backslash).
Qed.
(** An empty list of values makes a condition no database reads. *)
Lemma empty_list_is_not_read `{F64Display} f : read_cond std_lexer (pg_filter_to_sql (FIn "a" [])) = None ∧
  filter_sql pg_dialect (FIn f []) = quote_ident f +:+ " IN ()".
Proof. split; [vm_compute; reflexivity|done]. Qed.

(** A float printer for the examples. *)
Definition demo_f64 : F64Display := λ _, "1.5".
#[local] Existing Instance demo_f64.
#[local] Instance demo_words : F64Words. Proof. by split. Qed.

Lemma sql_filters_read_back_witness :
  let f := FNot (FComparison ("x" +:+ DQUOTE) OpEq (SUtf8 "O'Brien' OR 1=1 --")) in
  read_cond std_lexer (pg_filter_to_sql f) =
    Some (CNot (CCmp ("x" +:+ DQUOTE) SqlEq (LText "O'Brien' OR 1=1 --"))) ∧
  read_cond clickhouse_lexer (ch_filter_to_sql f) =
    Some (CNot (CCmp ("x" +:+ DQUOTE) SqlEq (LText "O'Brien' OR 1=1 --"))).
Proof.
  intros f. destruct (sql_filters_read_back f) as (Hpg & _ & Hch & _).
  split; [apply Hpg; split; exact I|apply Hch; split; reflexivity].
Defined.

(** A backslash at the end of a value takes the closing quote with it where the
    database escapes with backslashes: in ClickHouse, Snowflake and BigQuery a
    second value then becomes part of the condition. *)
Theorem backslash_value_rewrites_condition `{F64Display} :
  let f q := FAnd (FComparison "x" OpEq (SUtf8 BACKSLASH)) (FComparison "y" OpEq (SUtf8 q)) in
  let rest qi := "' AND " +:+ qi "y" +:+ " = " in
  read_cond clickhouse_lexer (ch_filter_to_sql (f ") OR isNotNull(`x`) -- ")) =
    Some (COr (CCmp "x" SqlEq (LText (rest quote_ident_backtick))) (CNotNull "x")) ∧
  read_cond snowflake_lexer (snow_filter_to_sql (f (") OR " +:+ quote_ident "x" +:+ " IS NOT NULL -- "))) =
    Some (COr (CCmp "x" SqlEq (LText (rest quote_ident))) (CNotNull "x")) ∧
  read_cond bigquery_lexer (bq_filter_to_sql (f ") OR `x` IS NOT NULL -- ")) =
    Some (COr (CCmp "x" SqlEq (LText (rest quote_ident_backtick))) (CNotNull "x")).
Proof. split_and!; vm_compute; reflexivity. Qed.

(** Cassandra is sent a conjunction for a disjunction, and nothing for a
    negation. *)
Lemma cql_or_is_and `{F64Display} l r :
  filter_to_cql (FOr l r) = filter_to_cql (FAnd l r) ∧ filter_to_cql (FNot l) = "".
Proof. done. Qed.

(** Spark is sent names as they are: a name can carry a condition. *)
Lemma spark_name_carries_condition `{F64Display} v :
  spark_filter_to_sql (FComparison "1 = 1 OR x" OpEq v) = "1 = 1 OR x = " +:+ spark_scalar_to_sql v.
Proof. done. Qed.
