(* ===== verification/SqlStatements.v ===== *)
(** * SqlStatements: statements are read back as the sub-query

    A reader of SELECT statements on top of the lexer and the conditions of
    [SqlTextCorrect], and the theorem that the statements the connectors build
    are read as their sub-query: the select list, the table, the conditions, the
    groups, the order and the limit; and what the statements leave out. *)

From S2P Require Import Prelude Strs Float Connector SqlText SqlTextCorrect.
From stdpp Require Import base list strings pretty.
From Stdlib Require Import NArith ZArith Lia Ascii SpecFloat.

(** ** The reader *)

Record statement : Type := mkStatement {
  st_items : list (list tok);
  st_table : string;
  st_where : option cond;
  st_group : list string;
  st_having : option cond;
  st_order : list (string * bool);
  st_limit : option tok;
  st_offset : option tok;
}.

(** The select list: items separated by the commas outside parentheses, up to
    FROM. *)
Fixpoint p_items (depth : nat) (cur : list tok) (ts : list tok) : option (list (list tok) * list tok) :=
  match ts with
  | [] => None
  | t :: ts =>
      if sym "(" t then p_items (S depth) (cur ++ [t]) ts
      else if sym ")" t then p_items (pred depth) (cur ++ [t]) ts
      else match depth with
      | S _ => p_items depth (cur ++ [t]) ts
      | 0 =>
          if kw "FROM" t then Some ([cur], ts)
          else if sym "," t then '(items, ts) ← p_items 0 [] ts; Some (cur :: items, ts)
          else p_items 0 (cur ++ [t]) ts
      end
  end.

(** Names separated by commas, and sort keys with their direction. *)
Fixpoint p_names (ts : list tok) : option (list string * list tok) :=
  match ts with
  | TIdent g :: ts =>
      match ts with
      | s :: ts' => if sym "," s then '(gs, ts) ← p_names ts'; Some (g :: gs, ts) else Some ([g], ts)
      | [] => Some ([g], [])
      end
  | _ => None
  end.

Definition p_direction (ts : list tok) : bool * list tok :=
  match ts with
  | k :: ts' => if kw "DESC" k then (true, ts') else if kw "ASC" k then (false, ts') else (false, ts)
  | [] => (false, [])
  end.

Fixpoint p_keys (n : nat) (ts : list tok) : option (list (string * bool) * list tok) :=
  match n, ts with
  | S n, TIdent g :: ts =>
      let '(desc, ts) := p_direction ts in
      match ts with
      | s :: ts' => if sym "," s then '(gs, ts) ← p_keys n ts'; Some ((g, desc) :: gs, ts) else Some ([(g, desc)], ts)
      | [] => Some ([(g, desc)], [])
      end
  | _, _ => None
  end.

(** A clause introduced by one or two words, or its absence. *)
Definition p_clause {A} (w : string) (p : list tok → option (A * list tok)) (ts : list tok) : option (option A * list tok) :=
  match ts with
  | k :: ts' => if kw w k then '(a, ts) ← p ts'; Some (Some a, ts) else Some (None, ts)
  | [] => Some (None, [])
  end.
Definition p_by {A} (p : list tok → option (A * list tok)) (ts : list tok) : option (A * list tok) :=
  match ts with k :: ts => if kw "BY" k then p ts else None | [] => None end.
Definition p_number (ts : list tok) : option (tok * list tok) :=
  match ts with TWord w :: ts => Some (TWord w, ts) | _ => None end.

Definition read_statement (L : Lexer) (s : string) : option statement :=
  ts ← tokens L s;
  let n := 8 * length ts + 8 in
  match ts with
  | k :: ts =>
      if kw "SELECT" k then
        '(items, ts) ← p_items 0 [] ts;
        match ts with
        | TIdent tbl :: ts =>
            '(w, ts) ← p_clause "WHERE" (p_or n) ts;
            '(g, ts) ← p_clause "GROUP" (p_by p_names) ts;
            '(h, ts) ← p_clause "HAVING" (p_or n) ts;
            '(o, ts) ← p_clause "ORDER" (p_by (p_keys n)) ts;
            '(l, ts) ← p_clause "LIMIT" p_number ts;
            '(f, ts) ← p_clause "OFFSET" p_number ts;
            match ts with
            | [] => Some (mkStatement items tbl w (default [] g) h (default [] o) l f)
            | _ => None
            end
        | _ => None
        end
      else None
  | [] => None
  end.

(** ** Lists with commas *)

Fixpoint comma_toks (l : list (list tok)) : list tok :=
  match l with
  | [] => []
  | [x] => x
  | x :: l => x ++ TSym "," :: comma_toks l
  end.

Lemma comma_toks_cons x y l : comma_toks (x :: y :: l) = x ++ TSym "," :: comma_toks (y :: l).
Proof. done. Qed.

Section Statements.
Context (L : Lexer) `{!LexerOk L}.

Lemma comma_reads texts items :
  Forall2 (reads L) texts items → texts ≠ [] → reads L (join_with ", " texts) (comma_toks items).
Proof.
  intros H Hne. induction H as [|s ts texts items Hs H IH]; [done|].
  destruct H as [|s' ts' texts items Hs' H]; [done|]. rewrite join_with_cons.
  apply (reads_delim L); [done|done|]. apply (reads_all_app L ", " _ [_]); [const_reads|]. by apply IH.
Qed.

(** An item whose commas are inside parentheses. *)
Definition item_ok (it : list tok) : Prop :=
  ∀ cur rest, p_items 0 cur (it ++ rest) = p_items 0 (cur ++ it) rest.

Lemma items_parse items rest :
  Forall item_ok items → items ≠ [] →
  p_items 0 [] (comma_toks items ++ TWord "FROM" :: rest) = Some (items, rest).
Proof.
  intros H Hne. induction H as [|it items Hit H IH]; [done|].
  destruct H as [|it' items Hit' H].
  - cbn [comma_toks]. by rewrite Hit.
  - cbn [comma_toks]. rewrite <- (assoc_L (++)). rewrite Hit. cbn [app p_items sym kw].
    change (Ascii.eqb "(" ",") with false. change (Ascii.eqb ")" ",") with false. change (Ascii.eqb "," ",") with true.
    cbv iota. cbn [comma_toks] in IH. by rewrite IH.
Qed.

(** What follows a clause: a later clause or the end. *)
Definition clauses : list string := ["WHERE"; "GROUP"; "HAVING"; "ORDER"; "LIMIT"; "OFFSET"].
Definition follows (k : nat) (ts : list tok) : Prop :=
  match ts with [] => True | t :: _ => ∃ w, t = TWord w ∧ w ∈ drop k clauses end.

Lemma follows_le j k ts : j ≤ k → follows k ts → follows j ts.
Proof.
  destruct ts as [|t ts]; [done|]. intros Hjk (w & -> & Hw). exists w. split; [done|].
  replace k with (j + (k - j)) in Hw by lia. rewrite <- drop_drop in Hw.
  apply list_elem_of_lookup in Hw as [i Hi]. rewrite lookup_drop in Hi. by eapply list_elem_of_lookup_2.
Qed.

(** A clause of a statement: a text, what it is read as, and its place. *)
Definition clause_part {A} (k : nat) (p : nat → list tok → option (A * list tok)) (text : string) (a : option A) : Prop :=
  delim_first text = true ∧
  ∃ ts, reads L text ts ∧ (ts = [] ∨ ∃ w us, clauses !! k = Some w ∧ ts = TWord w :: us) ∧
    ∀ n rest w, clauses !! k = Some w → 8 * length ts + 8 ≤ n → follows (S k) rest →
      p_clause w (p n) (ts ++ rest) = Some (a, rest).

Lemma clauses_NoDup : NoDup clauses.
Proof. by apply (bool_decide_unpack _). Qed.

Lemma absent_part {A} k (p : nat → list tok → option (A * list tok)) : clause_part k p "" None.
Proof.
  split; [done|]. exists []. split_and!; [by exists [], LBase, []|by left|]. intros n [|t rest] w Hw _ Hf; [done|].
  destruct Hf as (w' & -> & Hin). cbn. destruct (String.eqb_spec w w') as [->|]; [|done]. exfalso.
  apply list_elem_of_lookup in Hin as [i Hi]. rewrite lookup_drop in Hi.
  pose proof (NoDup_lookup _ _ _ _ clauses_NoDup Hw Hi). lia.
Qed.

(** A clause that is there. *)
Lemma present_part {A} k w (p : nat → list tok → option (A * list tok)) kwtext text ts us a :
  clauses !! k = Some w → delim_first kwtext = true → kwtext ≠ "" → reads_all L kwtext (TWord w :: us) → reads L text ts →
  (∀ n rest, 8 * length ts + 8 ≤ n → follows (S k) rest → p n (us ++ ts ++ rest) = Some (a, rest)) →
  clause_part k p (kwtext +:+ text) (Some a).
Proof.
  intros Hw Hd Hne Hkw Ht Hp. split; [by destruct kwtext|]. exists (TWord w :: us ++ ts). split_and!.
  - by apply (reads_all_app L _ _ (TWord w :: us)).
  - right. by eexists _, _.
  - intros n rest w' Hw' Hn Hf. simplify_eq. cbn [p_clause app]. cbn [kw]. rewrite String.eqb_refl.
    rewrite <- (assoc_L (++)), Hp; [done| |done]. cbn [length] in Hn. rewrite length_app in Hn. lia.
Qed.

Definition tail_part (k : nat) (text : string) (ts : list tok) : Prop :=
  delim_first text = true ∧ reads L text ts ∧ follows k ts.

Lemma tail_nil k : tail_part k "" [].
Proof. split_and!; [done|by exists [], LBase, []|done]. Qed.

Lemma tail_cons {A} k (p : nat → list tok → option (A * list tok)) text a rest us :
  clause_part k p text a → tail_part (S k) rest us →
  ∃ ts, tail_part k (text +:+ rest) (ts ++ us) ∧
    ∀ n w, clauses !! k = Some w → 8 * length ts + 8 ≤ n → p_clause w (p n) (ts ++ us) = Some (a, us).
Proof.
  intros (Hd & ts & Hr & Hts & Hp) (Hd' & Hr' & Hf). exists ts. split; [|by eauto]. split_and!.
  - by destruct text.
  - by apply (reads_delim L).
  - destruct Hts as [->|(w & vs & Hw & ->)]; [by apply (follows_le k (S k)); [lia|]|].
    exists w. split; [done|]. apply (list_elem_of_lookup_2 _ 0). by rewrite lookup_drop, Nat.add_0_r.
Qed.

Lemma statement_reads texts items tbl_text tbl w g h o l f wa ga ha oa la fa :
  Forall2 (reads L) texts items → texts ≠ [] → Forall item_ok items → reads L tbl_text [TIdent tbl] →
  clause_part 0 p_or w wa → clause_part 1 (λ _, p_by p_names) g ga → clause_part 2 p_or h ha →
  clause_part 3 (λ n, p_by (p_keys n)) o oa → clause_part 4 (λ _, p_number) l la → clause_part 5 (λ _, p_number) f fa →
  read_statement L ("SELECT " +:+ join_with ", " texts +:+ " FROM " +:+ tbl_text +:+ w +:+ g +:+ h +:+ o +:+ l +:+ f) =
    Some (mkStatement items tbl wa (default [] ga) ha (default [] oa) la fa).
Proof.
  intros Hitems Hne Hok Htbl Hw Hg Hh Ho Hl Hf.
  destruct (tail_cons 5 _ f fa "" [] Hf (tail_nil 6)) as (tf & Tf & Pf). rewrite str_app_nil in Tf.
  destruct (tail_cons 4 _ l la _ _ Hl Tf) as (tl & Tl & Pl).
  destruct (tail_cons 3 _ o oa _ _ Ho Tl) as (to & To & Po).
  destruct (tail_cons 2 _ h ha _ _ Hh To) as (th & Th & Ph).
  destruct (tail_cons 1 _ g ga _ _ Hg Th) as (tg & Tg & Pg).
  destruct (tail_cons 0 _ w wa _ _ Hw Tg) as (tw & (Hdw & Hrw & _) & Pw).
  set (rest := tw ++ tg ++ th ++ to ++ tl ++ tf ++ []) in *.
  assert (reads L ("SELECT " +:+ join_with ", " texts +:+ " FROM " +:+ tbl_text +:+ w +:+ g +:+ h +:+ o +:+ l +:+ f)
    (TWord "SELECT" :: comma_toks items ++ TWord "FROM" :: TIdent tbl :: rest)) as Hr.
  { apply (reads_all_app L "SELECT " _ [_]); [const_reads|]. apply (reads_delim L); [by apply comma_reads|done|].
    apply (reads_all_app L " FROM " _ [_]); [const_reads|]. by apply (reads_delim L _ _ [_]). }
  unfold read_statement. rewrite (reads_tokens L _ _ Hr). cbn [mbind option_bind].
  set (n := 8 * length _ + 8).
  assert (8 * length rest + 8 ≤ n) as Hn by (unfold n; cbn [length]; rewrite length_app; cbn [length]; lia).
  unfold rest in Hn. rewrite !length_app in Hn. cbn [kw]. change (String.eqb "SELECT" "SELECT") with true. cbv iota.
  rewrite items_parse; [|done|by destruct Hitems]. cbn [mbind option_bind].
  rewrite (Pw n "WHERE") by (done || lia). cbn [mbind option_bind].
  rewrite (Pg n "GROUP") by (done || lia). cbn [mbind option_bind].
  rewrite (Ph n "HAVING") by (done || lia). cbn [mbind option_bind].
  rewrite (Po n "ORDER") by (done || lia). cbn [mbind option_bind].
  rewrite (Pl n "LIMIT") by (done || lia). cbn [mbind option_bind].
  rewrite (Pf n "OFFSET") by (done || lia). done.
Qed.
End Statements.

(** ** The clauses the connectors write *)

Section Clauses.
Context `{F : F64Display, !F64Words} (L : Lexer) `{!LexerOk L} (d : Dialect) (M : Meaning) `{!DialectReads L d M any any}.
Hypothesis ident_any : ∀ s, reads L (d_ident d s) [TIdent s].

(** A filter that can be sent: its floats are finite and its lists of values not empty. *)
Definition sendable_filter (f : option FilterExpr) : Prop := from_option (filter_ok any any) True f.

Lemma follows_cases k t rest :
  follows k (t :: rest) →
  t = TWord "WHERE" ∨ t = TWord "GROUP" ∨ t = TWord "HAVING" ∨ t = TWord "ORDER" ∨ t = TWord "LIMIT" ∨ t = TWord "OFFSET".
Proof.
  intros (v & -> & Hv).
  assert (v ∈ clauses) as Hin.
  { apply list_elem_of_lookup in Hv as [i Hi]. rewrite lookup_drop in Hi. by eapply list_elem_of_lookup_2. }
  clear -Hin. unfold clauses in Hin. rewrite !elem_of_cons, elem_of_nil in Hin. naive_solver.
Qed.

Ltac follow_cases Hf := apply follows_cases in Hf as [->|[->|[->|[->|[->| ->]]]]].

Lemma cond_part k kwtext w f :
  clauses !! k = Some w → kwtext = " " +:+ w +:+ " " → reads_all L kwtext [TWord w] → sendable_filter f →
  clause_part L k p_or (text_clause kwtext (filter_sql d <$> f)) (cond_of M <$> f).
Proof.
  intros Hw Hkw Hr Hs. destruct f as [f|]; [|apply absent_part]. cbn.
  destruct (filter_reads L d M any any f Hs) as (ts & Hts & Hp).
  apply (present_part L k w p_or kwtext _ ts []); [done|by subst..|done|done|].
  intros n rest Hn Hf. cbn [app]. apply (parses_alone _ _ _ _ _ Hp); [destruct Hp; lia|].
  destruct rest as [|t rest]; [done|]. by follow_cases Hf.
Qed.

Lemma names_parse g gs k rest :
  follows k rest → p_names (comma_toks ((λ g, [TIdent g]) <$> g :: gs) ++ rest) = Some (g :: gs, rest).
Proof.
  intros Hf. revert g. induction gs as [|g' gs IH]; intros g.
  - cbn. destruct rest as [|t rest]; [done|]. by follow_cases Hf.
  - rewrite !fmap_cons, comma_toks_cons. cbn [app p_names sym]. change (Ascii.eqb "," ",") with true. cbv iota.
    specialize (IH g'). rewrite fmap_cons in IH. by rewrite IH.
Qed.

Lemma idents_read gs : Forall2 (reads L) (d_ident d <$> gs) ((λ g, [TIdent g]) <$> gs).
Proof. induction gs as [|g gs IH]; constructor; [apply ident_any|done]. Qed.

Lemma group_part gs :
  clause_part L 1 (λ _, p_by p_names) (list_clause " GROUP BY " (d_ident d <$> gs)) (match gs with [] => None | _ => Some gs end).
Proof.
  destruct gs as [|g gs]; [apply absent_part|].
  apply (present_part L 1 "GROUP" _ " GROUP BY " _ (comma_toks ((λ g, [TIdent g]) <$> g :: gs)) [TWord "BY"]);
    [done..|const_reads|by apply (comma_reads L); [apply (idents_read (g :: gs))|]|].
  intros n rest _ Hf. cbn [app p_by kw]. change (String.eqb "BY" "BY") with true. cbv iota. by eapply names_parse.
Qed.

(** Sort keys, with or without the ascending direction. *)
Definition key_toks (asc : bool) (s : SortExpr) : list tok :=
  if sort_descending s then [TIdent (sort_field s); TWord "DESC"]
  else if asc then [TIdent (sort_field s); TWord "ASC"] else [TIdent (sort_field s)].
Definition key_text (asc : bool) : SortExpr → string := if asc then sort_text_dir (d_ident d) else sort_text (d_ident d).

Lemma key_reads asc s : reads L (key_text asc s) (key_toks asc s).
Proof.
  assert (∀ w, is_word w = true → reads L (d_ident d (sort_field s) +:+ " " +:+ w) [TIdent (sort_field s); TWord w]) as Hw.
  { intros w Hw. apply (reads_delim L _ _ [_]); [done..|]. apply (reads_all_app L " " _ []); [const_reads|by apply (reads_word L)]. }
  unfold key_text, key_toks, sort_text_dir, sort_text. destruct asc, (sort_descending s); by apply Hw || done.
Qed.

Lemma keys_parse asc s ss n k rest :
  follows k rest → length ss < n →
  p_keys n (comma_toks (key_toks asc <$> s :: ss) ++ rest) =
    Some ((λ s, (sort_field s, sort_descending s)) <$> s :: ss, rest).
Proof.
  intros Hf. revert s n. induction ss as [|s' ss IH]; intros s n Hn; (destruct n as [|n]; [lia|]).
  - cbn [fmap list_fmap comma_toks]. unfold key_toks. destruct (sort_descending s), asc; cbn;
      (destruct rest as [|t rest]; [done|]; by follow_cases Hf).
  - specialize (IH s' n ltac:(cbn in Hn; lia)). rewrite !fmap_cons in IH. rewrite !fmap_cons, comma_toks_cons.
    rewrite <- (assoc_L (++)). cbn [app]. revert IH. generalize (comma_toks (key_toks asc s' :: (key_toks asc <$> ss))).
    intros us IH. unfold key_toks. destruct (sort_descending s), asc; cbn; by rewrite IH.
Qed.

Lemma comma_toks_length items : Forall (λ it, it ≠ []) items → length items ≤ length (comma_toks items).
Proof.
  induction 1 as [|it items Hit Hits IH]; [done|]. destruct it as [|t it]; [done|]. destruct items as [|it' items]; [cbn; lia|].
  rewrite comma_toks_cons, length_app. cbn [length] in *. lia.
Qed.

Lemma order_part asc ss :
  clause_part L 3 (λ n, p_by (p_keys n)) (list_clause " ORDER BY " (key_text asc <$> ss))
    (match ss with [] => None | _ => Some ((λ s, (sort_field s, sort_descending s)) <$> ss) end).
Proof.
  destruct ss as [|s ss]; [apply absent_part|].
  apply (present_part L 3 "ORDER" _ " ORDER BY " _ (comma_toks (key_toks asc <$> s :: ss)) [TWord "BY"]);
    [done..|const_reads| |].
  - apply (comma_reads L); [|done]. apply Forall2_fmap, Forall_Forall2_diag, Forall_true. apply key_reads.
  - intros n rest Hn Hf. cbn [app p_by kw]. change (String.eqb "BY" "BY") with true. cbv iota.
    eapply keys_parse; [done|].
    assert (length (key_toks asc <$> s :: ss) ≤ length (comma_toks (key_toks asc <$> s :: ss))) as Hl.
    { apply comma_toks_length, Forall_fmap, Forall_true. intros x. cbn. unfold key_toks. by destruct (sort_descending x), asc. }
    rewrite length_fmap in Hl. cbn [length] in Hl. lia.
Qed.

Lemma number_part k w kwtext (x : option N) :
  clauses !! k = Some w → kwtext = " " +:+ w +:+ " " → reads_all L kwtext [TWord w] →
  clause_part L k (λ _, p_number) (text_clause kwtext (pretty <$> x)) (TWord ∘ pretty <$> x).
Proof.
  intros Hw Hkw Hr. destruct x as [x|]; [|apply absent_part]. cbn.
  apply (present_part L k w _ kwtext _ [TWord (pretty x)] []); [done|by subst..|done| |done].
  apply (reads_word L), pretty_is_word.
Qed.
End Clauses.

(** ** Statements of the connectors *)

Section ReadStatements.
Context `{F : F64Display, !F64Words}.

(** The select list a sub-query asks for, item by item. *)
Definition column_toks (p : string) : list tok := if String.eqb p "*" then [TSym "*"] else [TIdent p].
Definition columns_toks (ps : list string) : list (list tok) :=
  match ps with [] => [[TSym "*"]] | _ => column_toks <$> ps end.
Definition call_toks (fn : string) (args : list tok) : list tok := TWord fn :: TSym "(" :: args ++ [TSym ")"].
Definition operand_toks (a : AggregationExpr) : list tok :=
  match agg_field a with Some f => [TIdent f] | None => [TSym "*"] end.

Definition pg_agg_toks (fn : AggFunction) (x : list tok) : list tok :=
  match fn with
  | Count => call_toks "COUNT" x
  | Sum => call_toks "SUM" x
  | Avg => call_toks "AVG" x
  | Min => call_toks "MIN" x
  | Max => call_toks "MAX" x
  | CountDistinct | ApproxCountDistinct => call_toks "COUNT" (TWord "DISTINCT" :: x)
  | ApproxPercentile p =>
      call_toks "PERCENTILE_CONT" [TWord (fmt_f64 p)] ++
      TWord "WITHIN" :: call_toks "GROUP" (TWord "ORDER" :: TWord "BY" :: x)
  end.
Definition duck_agg_toks (fn : AggFunction) (x : list tok) : list tok :=
  match fn with
  | Count => call_toks "count" x
  | Sum => call_toks "sum" x
  | Avg => call_toks "avg" x
  | Min => call_toks "min" x
  | Max => call_toks "max" x
  | ApproxCountDistinct => call_toks "approx_count_distinct" x
  | ApproxPercentile p => call_toks "approx_quantile" (x ++ [TSym ","; TWord (fmt_f64 p)])
  | CountDistinct => call_toks "count" (TWord "DISTINCT" :: x)
  end.
Definition select_toks (agg : AggFunction → list tok → list tok) (q : SubQuery) : list (list tok) :=
  match aggregations q with
  | [] => columns_toks (projections q)
  | aggs =>
      ((λ g, [TIdent g]) <$> group_by q) ++
      ((λ a, agg (agg_function a) (operand_toks a) ++ [TWord "AS"; TIdent (agg_alias a)]) <$> aggs)
  end.

(** What a statement should be read as: [offset] and [having] say whether the
    dialect has the clause. *)
Definition statement_of (M : Meaning) (items : list (list tok)) (hav off : bool) (q : SubQuery) : statement :=
  mkStatement items (table q) (cond_of M <$> filter_expr q) (group_by q)
    (if hav then cond_of M <$> having q else None)
    ((λ s, (sort_field s, sort_descending s)) <$> sort q)
    (TWord ∘ pretty <$> limit q) (if off then TWord ∘ pretty <$> offset q else None).

(** A table name that is quoted. *)
Definition plain_table (q : SubQuery) : Prop :=
  starts_with "(" (table q) = false ∧ starts_with DQUOTE (table q) = false.

Lemma table_reads q : plain_table q → reads std_lexer (quote_table (table q)) [TIdent (table q)].
Proof. intros [H1 H2]. unfold quote_table. rewrite H1, H2. apply std_ident_reads. Qed.

(** Text in parentheses after a word. *)
Lemma call_reads fn s ts :
  is_word fn = true → reads std_lexer s ts → reads std_lexer (fn +:+ "(" +:+ s +:+ ")") (call_toks fn ts).
Proof.
  intros Hfn Hs. unfold call_toks. apply (reads_delim std_lexer _ _ [_]); [by apply (reads_word std_lexer)|done|].
  apply (reads_all_app std_lexer "(" _ [_]); [const_reads|]. apply (reads_delim std_lexer); [done|done|]. const_reads.
Qed.

Lemma word_then w s ts :
  is_word w = true → reads std_lexer s ts → reads std_lexer (w +:+ " " +:+ s) (TWord w :: ts).
Proof.
  intros Hw Hs. apply (reads_delim std_lexer _ _ [_]); [by apply (reads_word std_lexer)|done|].
  by apply (reads_all_app std_lexer " " _ []); [const_reads|].
Qed.

Lemma operand_reads a : reads std_lexer (agg_operand quote_ident a) (operand_toks a).
Proof.
  unfold agg_operand, operand_toks. destruct (agg_field a); [apply std_ident_reads|].
  apply (reads_all_reads std_lexer), (reads_const std_lexer); intros; reflexivity.
Qed.

Lemma pg_agg_reads fn s ts : reads std_lexer s ts → reads std_lexer (pg_agg fn s) (pg_agg_toks fn ts).
Proof.
  intros Hs. destruct fn; cbn [pg_agg pg_agg_toks].
  1: by apply (call_reads "COUNT" s). 2: by apply (call_reads "SUM" s). 2: by apply (call_reads "AVG" s).
  2: by apply (call_reads "MIN" s). 2: by apply (call_reads "MAX" s).
  1, 2: by apply (call_reads "COUNT" ("DISTINCT " +:+ s)), (word_then "DISTINCT").
  change (") WITHIN GROUP (ORDER BY " +:+ s +:+ ")") with (")" +:+ (" WITHIN GROUP (ORDER BY " +:+ s +:+ ")")).
  rewrite (str_app_assoc (fmt_f64 p)), (str_app_assoc "PERCENTILE_CONT("). apply (reads_delim std_lexer).
  - apply (call_reads "PERCENTILE_CONT" (fmt_f64 p) [_]); [done|]. apply (reads_literal_word std_lexer), fmt_f64_word.
  - done.
  - apply (reads_all_app std_lexer " " _ []); [const_reads|]. apply (word_then "WITHIN"); [done|].
    apply (reads_all_app std_lexer "GROUP (ORDER BY " (s +:+ ")") [_; _; _; _]); [const_reads|].
    apply (reads_delim std_lexer); [done|done|]. const_reads.
Qed.

Lemma duck_agg_reads fn s ts : reads std_lexer s ts → reads std_lexer (duck_agg fn s) (duck_agg_toks fn ts).
Proof.
  intros Hs. destruct fn; cbn [duck_agg duck_agg_toks].
  1: by apply (call_reads "count" s). 2: by apply (call_reads "sum" s). 2: by apply (call_reads "avg" s).
  2: by apply (call_reads "min" s). 2: by apply (call_reads "max" s).
  2: by apply (call_reads "approx_count_distinct" s).
  - by apply (call_reads "count" ("DISTINCT " +:+ s)), (word_then "DISTINCT").
  - rewrite (str_app_assoc ", "), (str_app_assoc s). apply (call_reads "approx_quantile"); [done|].
    apply (reads_delim std_lexer); [done|done|]. apply (reads_all_app std_lexer ", " _ [_]); [const_reads|].
    apply (reads_literal_word std_lexer), fmt_f64_word.
Qed.

Lemma pg_item_ok a : item_ok (pg_agg_toks (agg_function a) (operand_toks a) ++ [TWord "AS"; TIdent (agg_alias a)]).
Proof.
  intros cur rest. unfold operand_toks. destruct (agg_function a), (agg_field a); cbn; by rewrite <- !(assoc_L (++)).
Qed.
Lemma duck_item_ok a : item_ok (duck_agg_toks (agg_function a) (operand_toks a) ++ [TWord "AS"; TIdent (agg_alias a)]).
Proof.
  intros cur rest. unfold operand_toks. destruct (agg_function a), (agg_field a); cbn; by rewrite <- !(assoc_L (++)).
Qed.

Lemma column_ok p : reads std_lexer (column_text quote_ident p) (column_toks p) ∧ item_ok (column_toks p).
Proof.
  unfold column_text, column_toks. destruct (String.eqb p "*"); split; try done; [|apply std_ident_reads].
  apply (reads_all_reads std_lexer), (reads_const std_lexer); intros; reflexivity.
Qed.

(** The texts of a select list, joined, and what each is read as. *)
Definition select_reads (text : string) (items : list (list tok)) : Prop :=
  ∃ texts, text = join_with ", " texts ∧ texts ≠ [] ∧ Forall2 (reads std_lexer) texts items ∧ Forall item_ok items.

Lemma columns_select ps : select_reads (columns_text quote_ident ps) (columns_toks ps).
Proof.
  destruct ps as [|p ps].
  - exists ["*"]. split_and!; [done..| |by constructor]. constructor; [|done]. apply (column_ok "*").
  - exists (column_text quote_ident <$> p :: ps). split_and!; [done..| |].
    + apply Forall2_fmap, Forall_Forall2_diag, Forall_true. intros x. apply column_ok.
    + apply Forall_fmap, Forall_true. intros x. apply column_ok.
Qed.

Lemma query_select agg agg_toks q :
  (∀ fn s ts, reads std_lexer s ts → reads std_lexer (agg fn s) (agg_toks fn ts)) →
  (∀ a, item_ok (agg_toks (agg_function a) (operand_toks a) ++ [TWord "AS"; TIdent (agg_alias a)])) →
  select_reads (select_text quote_ident (agg_text quote_ident agg) q) (select_toks agg_toks q).
Proof.
  intros Hagg Hok. unfold select_text, select_toks. destruct (aggregations q) as [|a aggs]; [apply columns_select|].
  eexists. split_and!; [done|by destruct (group_by q)|apply Forall2_app|apply Forall_app; split].
  - apply Forall2_fmap, Forall_Forall2_diag, Forall_true. intros g. apply std_ident_reads.
  - apply Forall2_fmap, Forall_Forall2_diag, Forall_true. intros x. unfold agg_text.
    apply (reads_delim std_lexer); [apply Hagg, operand_reads|done|].
    apply (reads_all_app std_lexer " AS " _ [_]); [const_reads|apply std_ident_reads].
  - apply Forall_fmap, Forall_true. done.
  - apply Forall_fmap, Forall_true. apply Hok.
Qed.

(** The statement every standard dialect writes. *)
Lemma std_statement_reads d M `{!DialectReads std_lexer d M any any} (hav off asc : bool) sel items q :
  (∀ s, reads std_lexer (d_ident d s) [TIdent s]) → plain_table q → sendable_filter (filter_expr q) → sendable_filter (having q) → select_reads sel items →
  read_statement std_lexer
    ("SELECT " +:+ sel +:+ " FROM " +:+ quote_table (table q) +:+
     text_clause " WHERE " (filter_sql d <$> filter_expr q) +:+
     list_clause " GROUP BY " (d_ident d <$> group_by q) +:+
     (if hav then text_clause " HAVING " (filter_sql d <$> having q) else "") +:+
     list_clause " ORDER BY " (key_text d asc <$> sort q) +:+
     text_clause " LIMIT " (pretty <$> limit q) +:+
     (if off then text_clause " OFFSET " (pretty <$> offset q) else "")) =
    Some (statement_of M items hav off q).
Proof.
  intros Hd Ht Hw Hh (texts & -> & Hne & Hit & Hok).
  etransitivity; [eapply (statement_reads std_lexer texts items)|].
  - done.
  - done.
  - done.
  - by apply table_reads.
  - apply (cond_part std_lexer d M 0 _ "WHERE"); [done..| |done]. const_reads.
  - apply (group_part std_lexer d), Hd.
  - instantiate (1 := if hav then cond_of M <$> having q else None).
    destruct hav; [|apply absent_part]. apply (cond_part std_lexer d M 2 _ "HAVING"); [done..| |done]. const_reads.
  - apply (order_part std_lexer d), Hd.
  - apply (number_part std_lexer 4 "LIMIT"); [done..|]. const_reads.
  - instantiate (1 := if off then TWord ∘ pretty <$> offset q else None).
    destruct off; [|apply absent_part]. apply (number_part std_lexer 5 "OFFSET"); [done..|]. const_reads.
  - unfold statement_of. f_equal. f_equal; [by destruct (group_by q)|by destruct (sort q)].
Qed.
End ReadStatements.

(** ** Theorems *)


#[local] Instance demo_display : F64Display := demo_f64.
#[local] Instance demo_display_words : F64Words. Proof. by split. Qed.


(** The same sub-query with other aggregates or another offset. *)
Definition with_aggregates (aggs : list AggregationExpr) (q : SubQuery) : SubQuery :=
  mkSubQuery (table q) (projections q) (filter_expr q) aggs (group_by q) (having q) (sort q) (limit q) (offset q) (passthrough q).
Definition with_offset (o : option N) (q : SubQuery) : SubQuery :=
  mkSubQuery (table q) (projections q) (filter_expr q) (aggregations q) (group_by q) (having q) (sort q) (limit q) o (passthrough q).

(** The connectors that declare aggregation but whose statements leave the
    aggregates out. *)
Lemma aggregates_left_out `{F64Display} aggs q db tbl :
  athena_subquery_to_sql (with_aggregates aggs q) = athena_subquery_to_sql q ∧
  build_flight_sql (with_aggregates aggs q) = build_flight_sql q ∧
  build_snowflake_sql (with_aggregates aggs q) = build_snowflake_sql q ∧
  build_bq_sql (with_aggregates aggs q) db = build_bq_sql q db ∧
  ts_subquery_to_sql (with_aggregates aggs q) db tbl = ts_subquery_to_sql q db tbl ∧
  build_spark_sql (with_aggregates aggs q) db = build_spark_sql q db.
Proof. done. Qed.

(** The connectors whose statements leave the offset out. *)
Lemma offset_left_out `{F64Display} o q db tbl :
  pg_subquery_to_sql (with_offset o q) = pg_subquery_to_sql q ∧
  duck_subquery_to_sql (with_offset o q) = duck_subquery_to_sql q ∧
  ch_subquery_to_sql (with_offset o q) = ch_subquery_to_sql q ∧
  ts_subquery_to_sql (with_offset o q) db tbl = ts_subquery_to_sql q db tbl ∧
  subquery_to_cql (with_offset o q) db = subquery_to_cql q db.
Proof. done. Qed.
