(* ===== verification/FileConnectors.v ===== *)
(** * FileConnectors: tables stored as files

    Models what the connectors over object stores compute: the S3 connector's
    table names, partition pruning and limits
    ([crates/fuse-connectors/s3/src/partition.rs] and [lib.rs]), the CSV and
    JSON connector's format, projection and limit ([csv-json/src/lib.rs]), and
    how the Delta Lake and Iceberg connectors read and stream files up to a limit
    ([delta-lake/src/lib.rs], [iceberg/src/lib.rs]; which files, is in [LakeTables]).  Listing and downloading
    objects and decoding Parquet, CSV and JSON are parameters; a channel to the
    client is a function that says which sends are accepted.

    The theorems are in [FileConnectorsCorrect]. *)

From S2P Require Import Prelude Strs Float Arrow Connector SqlText.
From stdpp Require Import base list gmap strings pretty sets.
From Stdlib Require Import NArith ZArith Ascii SpecFloat.

(** ** Suffixes *)

Definition ends_with (suf s : string) : bool :=
  (String.length suf <=? String.length s) && String.eqb (str_drop (String.length s - String.length suf) s) suf.

(** [s.trim_end_matches(suf)]: the suffix is removed as long as it is there. *)
Fixpoint trim_end_matches_go (fuel : nat) (suf s : string) : string :=
  match fuel with
  | 0 => s
  | S fuel =>
      if ends_with suf s then trim_end_matches_go fuel suf (str_take (String.length s - String.length suf) s) else s
  end.
Definition trim_end_matches (suf s : string) : string := trim_end_matches_go (String.length s) suf s.

(** ** Partition pruning *)

Definition insert_partition (m : gmap string string) (segment : string) : gmap string string :=
  match split_once (is_char "=") segment with
  | Some (k, v) => if String.eqb k "" || String.eqb v "" then m else <[k := v]> m
  | None => m
  end.
Definition extract_partitions (key : string) : gmap string string :=
  foldl insert_partition ∅ (split_on (is_char "/") key).

Definition compare_str (partition_val : string) (op : ComparisonOp) (filter_val : string) : bool :=
  match op, String.compare partition_val filter_val with
  | OpEq, Eq => true | OpEq, _ => false
  | OpNeq, Eq => false | OpNeq, _ => true
  | OpLt, Lt => true | OpLt, _ => false
  | OpLte, Gt => false | OpLte, _ => true
  | OpGt, Gt => true | OpGt, _ => false
  | OpGte, Lt => false | OpGte, _ => true
  | OpLike, _ | OpILike, _ | OpContains, _ => true
  end.

Section Partition.
Context `{F64Display}.

Definition scalar_to_str (v : ScalarValue) : option string :=
  match v with
  | SUtf8 s => Some s
  | SInt64 n => Some (pretty n)
  | SFloat64 f => Some (fmt_f64 f)
  | SBoolean b => Some (bool_text b)
  | Null => None
  end.

(** [opt.is_none_or(p)]. *)
Definition is_none_or {A} (p : A → bool) (o : option A) : bool := match o with Some a => p a | None => true end.

Fixpoint partition_matches (f : FilterExpr) (parts : gmap string string) : bool :=
  match f with
  | FAnd l r => partition_matches l parts && partition_matches r parts
  | FOr l r => partition_matches l parts || partition_matches r parts
  | FNot e =>
      match e with
      | FComparison field OpEq v =>
          is_none_or (λ pv, is_none_or (λ fv, negb (String.eqb pv fv)) (scalar_to_str v)) (parts !! field)
      | _ => true
      end
  | FComparison field op v =>
      match parts !! field with
      | None => true
      | Some pv => match scalar_to_str v with None => true | Some fv => compare_str pv op fv end
      end
  | FIn field vals =>
      match parts !! field with
      | None => true
      | Some pv => existsb (λ v, is_none_or (λ fv, String.eqb fv pv) (scalar_to_str v)) vals
      end
  | FIsNull field => match parts !! field with Some _ => false | None => true end
  | FIsNotNull field => match parts !! field with Some _ => true | None => false end
  end.

(** ** The files of a table *)

Definition strip_key (key prefix : string) : string :=
  let stripped := default key (str_strip_prefix prefix key) in default stripped (strip_prefix_char "/" stripped).
Definition first_segment (s : string) : string := default s (head (split_on (is_char "/") s)).

Definition key_to_table_name (key prefix : string) : string :=
  trim_end_matches ".parq" (trim_end_matches ".parquet" (first_segment (strip_key key prefix))).

Definition file_matches (f : option FilterExpr) (key : string) : bool :=
  match f with Some f => partition_matches f (extract_partitions key) | None => true end.

(** [keys] is what listing the bucket gives. *)
Definition find_keys_for_table (prefix : string) (keys : outcome ConnectorError (list string)) (tbl : string)
    (f : option FilterExpr) : outcome ConnectorError (list string) :=
  keys ← keys;
  let matching := filter (λ k, key_to_table_name k prefix = tbl) keys in
  let matching := filter (λ k, file_matches f k = true) matching in
  match matching with
  | [] => Err (SchemaDiscovery ("no Parquet file found for table '" +:+ tbl +:+ "'"))
  | _ => Ok matching
  end.
End Partition.

(** ** Limits *)

Section Limits.
Context `{K : ArrowKernels}.

(** *** The S3 connector *)

(** [take_while] with the counting closure, which also counts the batch at which
    it stops. *)
Fixpoint s3_take_while (limit total : nat) (bs : list RecordBatch) : list RecordBatch * nat :=
  match bs with
  | [] => ([], total)
  | b :: bs =>
      if total <? limit then
        let '(taken, total) := s3_take_while limit (total + num_rows b) bs in (b :: taken, total)
      else ([], total + num_rows b)
  end.

(** The last batch without its excess rows; [last.num_rows() - excess] underflows
    into a panic. *)
Definition trim_last (excess : nat) (bs : list RecordBatch) : outcome ConnectorError (list RecordBatch) :=
  match last bs with
  | None => Ok bs
  | Some b =>
      match excess with
      | 0 => Ok bs
      | _ => if num_rows b <? excess then Panic
             else Ok (take (length bs - 1) bs ++ [batch_slice b 0 (num_rows b - excess)])
      end
  end.

Definition s3_limit (bs : list RecordBatch) (lim : option N) : outcome ConnectorError (list RecordBatch) :=
  match lim with
  | None => Ok bs
  | Some n =>
      let limit := N.to_nat n in
      let '(taken, total) := s3_take_while limit 0 bs in trim_last (total - limit) taken
  end.

(** A Parquet file is read one row group at a time. *)
Context {Bytes : Type}.
Context (get_object_bytes : string → outcome ConnectorError Bytes).
Context (row_group_count : Bytes → outcome ConnectorError nat).
Context (read_row_group : Bytes → nat → list string → outcome ConnectorError (list RecordBatch)).

Definition read_object (ps : list string) (key : string) : outcome ConnectorError (list RecordBatch) :=
  data ← get_object_bytes key;
  n ← row_group_count data;
  groups ← mapM (λ rg, read_row_group data rg ps) (seq 0 n);
  Ok (concat groups).

Definition s3_execute `{F64Display} (prefix : string) (keys : outcome ConnectorError (list string)) (q : SubQuery) :
    outcome ConnectorError (list RecordBatch) :=
  keys ← find_keys_for_table prefix keys (table q) (filter_expr q);
  files ← mapM (read_object (projections q)) keys;
  s3_limit (concat files) (limit q).

(** *** The CSV and JSON connector *)

Inductive FileFormat : Type := Csv | Json.
Definition from_key (key : string) : option FileFormat :=
  let lower := to_lowercase key in
  if ends_with ".csv" lower || ends_with ".csv.gz" lower then Some Csv
  else if ends_with ".json" lower || ends_with ".jsonl" lower || ends_with ".ndjson" lower then Some Json
  else None.

Fixpoint apply_limit_go (remaining : nat) (bs : list RecordBatch) : list RecordBatch :=
  match bs with
  | [] => []
  | b :: bs =>
      if remaining =? 0 then []
      else if num_rows b <=? remaining then b :: apply_limit_go (remaining - num_rows b) bs
      else [batch_slice b 0 remaining]
  end.
Definition apply_limit (bs : list RecordBatch) (lim : option N) : list RecordBatch :=
  match lim with None => bs | Some n => apply_limit_go (N.to_nat n) bs end.

(** [batch.project(&indices)] is Arrow's. *)
Context (batch_project : RecordBatch → list nat → outcome ArrowError RecordBatch).
Definition project_batch (ps : list string) (b : RecordBatch) : option RecordBatch :=
  match omap (index_of (schema b)) ps with
  | [] => None
  | indices => ok_value (batch_project b indices)
  end.
Definition apply_projection (bs : list RecordBatch) (ps : list string) : list RecordBatch :=
  match ps with [] => bs | _ => omap (project_batch ps) bs end.

Context (parse_file : Bytes → FileFormat → outcome ConnectorError (list RecordBatch)).
Definition read_csv_json (key : string) : outcome ConnectorError (list RecordBatch) :=
  match from_key key with
  | None => Ok []
  | Some fmt => data ← get_object_bytes key; parse_file data fmt
  end.
Definition csv_json_execute (files : outcome ConnectorError (list string)) (q : SubQuery) :
    outcome ConnectorError (list RecordBatch) :=
  files ← files;
  all ← mapM read_csv_json files;
  Ok (apply_limit (apply_projection (concat all) (projections q)) (limit q)).

(** *** Delta Lake and Iceberg *)

(** The batches of one file: each is pushed, and the loop ends once the limit is
    reached. *)
Fixpoint push_batches (lim : option nat) (total : nat) (bs : list RecordBatch) : list RecordBatch * nat :=
  match bs with
  | [] => ([], total)
  | b :: bs =>
      let total := total + num_rows b in
      if match lim with Some l => l <=? total | None => false end then ([b], total)
      else let '(pushed, total) := push_batches lim total bs in (b :: pushed, total)
  end.

Context (read_parquet : string → list string → outcome ConnectorError (list RecordBatch)).

Fixpoint read_files (lim : option nat) (ps : list string) (total : nat) (files : list string) :
    outcome ConnectorError (list RecordBatch * nat) :=
  match files with
  | [] => Ok ([], total)
  | file :: files =>
      batches ← read_parquet file ps;
      let '(pushed, total) := push_batches lim total batches in
      if match lim with Some l => l <=? total | None => false end then Ok (pushed, total)
      else '(rest, total) ← read_files lim ps total files; Ok (pushed ++ rest, total)
  end.

Definition lake_execute (files : outcome ConnectorError (list string)) (q : SubQuery) :
    outcome ConnectorError (list RecordBatch) :=
  files ← files;
  let lim := N.to_nat <$> limit q in
  '(all, total) ← read_files lim (projections q) 0 files;
  match lim with Some l => trim_last (total - l) all | None => Ok all end.

(** *** Streaming: the batches sent, and how the call ends *)

(** [accepts i] says whether the [i]-th batch sent is received. *)
Context (accepts : nat → bool).

(** The batches of a file, cut to what is left of the limit; [None] when the
    function returns. *)
Fixpoint stream_batches (lim : option nat) (sent nsent : nat) (bs : list RecordBatch) :
    list RecordBatch * outcome ConnectorError (option (nat * nat)) :=
  match bs with
  | [] => ([], Ok (Some (sent, nsent)))
  | b :: bs =>
      let send b sent :=
        if accepts nsent then
          let '(out, r) := stream_batches lim sent (S nsent) bs in (b :: out, r)
        else ([], Err ChannelClosed) in
      match lim with
      | Some l =>
          if l <=? sent then ([], Ok None)
          else
            let remaining := l - sent in
            let b := if remaining <? num_rows b then batch_slice b 0 remaining else b in
            send b (sent + num_rows b)
      | None => send b sent
      end
  end.

Fixpoint stream_files (lim : option nat) (ps : list string) (sent nsent : nat) (files : list string) :
    list RecordBatch * outcome ConnectorError unit :=
  match files with
  | [] => ([], Ok tt)
  | file :: files =>
      match read_parquet file ps with
      | Ok batches =>
          let '(out, r) := stream_batches lim sent nsent batches in
          match r with
          | Ok (Some (sent, nsent)) => let '(rest, r) := stream_files lim ps sent nsent files in (out ++ rest, r)
          | Ok None => (out, Ok tt)
          | Err e => (out, Err e)
          | Panic => (out, Panic)
          end
      | Err e => ([], Err e)
      | Panic => ([], Panic)
      end
  end.

Definition lake_execute_streaming (files : outcome ConnectorError (list string)) (q : SubQuery) :
    list RecordBatch * outcome ConnectorError unit :=
  match files with
  | Ok files => stream_files (N.to_nat <$> limit q) (projections q) 0 0 files
  | Err e => ([], Err e)
  | Panic => ([], Panic)
  end.

(** *** Streaming from S3 *)

(** Where control goes after a batch: on, to the next file ([break 'rg]), or out
    of the loops ([break 'outer]). *)
Inductive flow : Type := Go | NextFile | Stop.

Fixpoint s3_stream_batches (lim : option nat) (sent nsent : nat) (bs : list RecordBatch) :
    list RecordBatch * outcome ConnectorError (flow * nat * nat) :=
  match bs with
  | [] => ([], Ok (Go, sent, nsent))
  | b :: bs =>
      match lim with
      | Some l =>
          if l <=? sent then ([], Ok (Stop, sent, nsent))
          else
            let remaining := l - sent in
            let b := if remaining <? num_rows b then batch_slice b 0 remaining else b in
            let sent := sent + num_rows b in
            if accepts nsent then
              if l <=? sent then ([b], Ok (NextFile, sent, S nsent))
              else let '(out, r) := s3_stream_batches lim sent (S nsent) bs in (b :: out, r)
            else ([], Err ChannelClosed)
      | None =>
          if accepts nsent then
            let '(out, r) := s3_stream_batches lim sent (S nsent) bs in (b :: out, r)
          else ([], Err ChannelClosed)
      end
  end.

Fixpoint s3_stream_groups (lim : option nat) (ps : list string) (data : Bytes) (sent nsent : nat) (rgs : list nat) :
    list RecordBatch * outcome ConnectorError (flow * nat * nat) :=
  match rgs with
  | [] => ([], Ok (Go, sent, nsent))
  | rg :: rgs =>
      match read_row_group data rg ps with
      | Ok batches =>
          let '(out, r) := s3_stream_batches lim sent nsent batches in
          match r with
          | Ok (Go, sent, nsent) => let '(rest, r) := s3_stream_groups lim ps data sent nsent rgs in (out ++ rest, r)
          | r => (out, r)
          end
      | Err e => ([], Err e)
      | Panic => ([], Panic)
      end
  end.

Fixpoint s3_stream_keys (lim : option nat) (ps : list string) (sent nsent : nat) (keys : list string) :
    list RecordBatch * outcome ConnectorError unit :=
  match keys with
  | [] => ([], Ok tt)
  | key :: keys =>
      match (data ← get_object_bytes key; n ← row_group_count data; Ok (data, n)) with
      | Ok (data, n) =>
          let '(out, r) := s3_stream_groups lim ps data sent nsent (seq 0 n) in
          match r with
          | Ok (Stop, _, _) => (out, Ok tt)
          | Ok (_, sent, nsent) => let '(rest, r) := s3_stream_keys lim ps sent nsent keys in (out ++ rest, r)
          | Err e => (out, Err e)
          | Panic => (out, Panic)
          end
      | Err e => ([], Err e)
      | Panic => ([], Panic)
      end
  end.

Definition s3_execute_streaming `{F64Display} (prefix : string) (keys : outcome ConnectorError (list string))
    (q : SubQuery) : list RecordBatch * outcome ConnectorError unit :=
  match find_keys_for_table prefix keys (table q) (filter_expr q) with
  | Ok keys => s3_stream_keys (N.to_nat <$> limit q) (projections q) 0 0 keys
  | Err e => ([], Err e)
  | Panic => ([], Panic)
  end.
End Limits.
