(* ===== verification/FileConnectorsCorrect.v ===== *)
(** * FileConnectorsCorrect: pruned files hold no wanted row, limits cut rows

    The theorems on [FileConnectors]: partition pruning never skips a file with a
    row that the filter keeps, for conditions that compare partition columns with
    strings; a limit gives the first rows of the files, with the exception of the
    S3 connector's. *)

From S2P Require Import Prelude Strs Float Arrow ArrowRef ArrowTake Connector SqlText FileConnectors.
From stdpp Require Import base list gmap strings pretty sets.
From Stdlib Require Import NArith ZArith Lia Ascii SpecFloat.

(** ** Partition pruning *)

Section Pruning.
Context `{F64Display} (cmp : ComparisonOp → ScalarValue → ScalarValue → bool).

(** Strings are compared as strings. *)
Definition compares_strings : Prop :=
  ∀ op a b, op ∈ [OpEq; OpNeq; OpLt; OpLte; OpGt; OpGte] → cmp op (SUtf8 a) (SUtf8 b) = compare_str a op b.
Hypothesis cmp_strings : compares_strings.

(** A row of a file: its partition columns hold the values in the path. *)
Definition in_partition (parts : gmap string string) (env : string → ScalarValue) : Prop :=
  ∀ k v, parts !! k = Some v → env k = SUtf8 v.

Definition text_or_null (v : ScalarValue) : Prop := match v with SUtf8 _ | Null => True | _ => False end.

(** Partition columns are compared with strings, and only they are tested for
    being there. *)
Fixpoint prunable (parts : gmap string string) (f : FilterExpr) : Prop :=
  match f with
  | FAnd l r | FOr l r => prunable parts l ∧ prunable parts r
  | FNot (FComparison field OpEq v) => is_Some (parts !! field) → text_or_null v
  | FNot _ => True
  | FComparison field _ v => is_Some (parts !! field) → text_or_null v
  | FIn field vs => is_Some (parts !! field) → Forall text_or_null vs
  | FIsNull _ => True
  | FIsNotNull field => is_Some (parts !! field)
  end.

Lemma compare_str_eq a b : compare_str a OpEq b = String.eqb a b.
Proof.
  unfold compare_str. destruct (String.eqb_spec a b) as [->|Hne].
  - assert (String.compare b b = Eq) as -> by (by induction b as [|a b IH]; [|cbn; unfold Ascii.compare; rewrite N.compare_refl]). done.
  - destruct (String.compare a b) eqn:E; [|done..]. by apply String.compare_eq_iff in E.
Qed.

Lemma tri_in_true x vs : tri_in cmp x vs = Some true ↔ ∃ v, v ∈ vs ∧ tri_cmp cmp OpEq x v = Some true.
Proof.
  unfold tri_in. induction vs as [|v vs IH]; cbn [foldr].
  - split; [done|]. by intros (? & ?%elem_of_nil & _).
  - rewrite tri_or_true, IH. setoid_rewrite elem_of_cons. naive_solver.
Qed.

(** Equality of a partition value and a string. *)
Lemma tri_eq_text pv v :
  text_or_null v → tri_cmp cmp OpEq (SUtf8 pv) v = match v with SUtf8 s => Some (String.eqb pv s) | _ => None end.
Proof.
  destruct v; try done. intros _. cbn. rewrite cmp_strings by set_solver. by rewrite compare_str_eq.
Qed.

Lemma kept_rows_match parts env f :
  in_partition parts env → prunable parts f → keeps cmp env f → partition_matches f parts = true.
Proof.
  intros Hin. induction f as [l IHl r IHr|l IHl r IHr|e IH|fd op v|fd vs|fd|fd]; cbn [prunable partition_matches].
  - intros [Hl Hr] [Kl Kr]%keeps_and. by rewrite IHl, IHr.
  - intros [Hl Hr] [K|K]%keeps_or; [by rewrite IHl|]. rewrite IHr by done. by rewrite orb_true_r.
  - destruct e as [| | |fd [] v| | |]; try done. intros Hp HK.
    destruct (parts !! fd) as [pv|] eqn:E; [|done]. cbn [is_none_or]. specialize (Hp ltac:(by eexists)).
    unfold keeps in HK. cbn [eval_filter] in HK. rewrite (Hin _ _ E), tri_eq_text in HK by done.
    destruct v; try done. cbn in *. by destruct (String.eqb pv s).
  - intros Hp HK. destruct (parts !! fd) as [pv|] eqn:E; [|done]. specialize (Hp ltac:(by eexists)).
    unfold keeps in HK. cbn [eval_filter] in HK. rewrite (Hin _ _ E) in HK.
    destruct v; try done. cbn in HK |- *. injection HK as HK.
    destruct op; try done; rewrite cmp_strings in HK by set_solver; done.
  - intros Hp HK. destruct (parts !! fd) as [pv|] eqn:E; [|done]. specialize (Hp ltac:(by eexists)).
    unfold keeps in HK. cbn [eval_filter] in HK. rewrite (Hin _ _ E) in HK.
    apply tri_in_true in HK as (v & Hv & HK). apply existsb_exists. exists v. split; [by apply list_elem_of_In|].
    rewrite Forall_forall in Hp. rewrite tri_eq_text in HK by auto. destruct v; try done. cbn in *.
    by rewrite String.eqb_sym; injection HK.
  - intros _ HK. destruct (parts !! fd) as [pv|] eqn:E; [|done]. unfold keeps in HK. cbn in HK. rewrite (Hin _ _ E) in HK. done.
  - intros [pv ->] _. done.
Qed.
End Pruning.

(** A file that partition pruning leaves out has no row that the filter keeps,
    when the filter compares partition columns with strings and tests no other
    column for being there. *)
Theorem partition_pruning_sound `{F64Display} cmp key env f :
  compares_strings cmp → in_partition (extract_partitions key) env → prunable (extract_partitions key) f →
  file_matches (Some f) key = false → ¬ keeps cmp env f.
Proof.
  intros Hcmp Hin Hp Hm HK. cbn in Hm. by rewrite (kept_rows_match cmp Hcmp _ env) in Hm.
Qed.

Definition demo_cmp (op : ComparisonOp) (x y : ScalarValue) : bool :=
  match x, y with SUtf8 a, SUtf8 b => compare_str a op b | _, _ => false end.

Lemma partition_pruning_sound_witness :
  let key := "logs/day=mon/part-0.parquet" in
  let f := FComparison "day" OpEq (SUtf8 "tue") in
  let env := λ k, if String.eqb k "day" then SUtf8 "mon" else SInt64 1 in
  file_matches (H := λ _, "0") (Some f) key = false ∧ ¬ keeps demo_cmp env f.
Proof.
  intros key f env. split; [reflexivity|].
  apply (partition_pruning_sound (H := λ _, "0") demo_cmp key env f).
  - intros op a b _. reflexivity.
  - assert (extract_partitions key = {[ "day" := "mon" ]}) as -> by (vm_compute; reflexivity).
    intros k v [<- <-]%lookup_singleton_Some. reflexivity.
  - intros _. exact I.
  - reflexivity.
Defined.

(** Numbers are compared as texts: the files of October are left out of what comes
    after September. *)
Lemma number_partitions_pruned `{F64Display} key :
  key = "logs/month=10/part-0.parquet" →
  file_matches (Some (FComparison "month" OpGt (SInt64 9))) key = false ∧
  file_matches (Some (FComparison "month" OpEq (SInt64 10))) key = true.
Proof. intros ->. split; vm_compute; reflexivity. Qed.

(** A test for a column that is not a partition column leaves out every file. *)
Lemma not_null_prunes_all `{F64Display} prefix keys tbl fd :
  (∀ k, k ∈ keys → extract_partitions k !! fd = None) →
  find_keys_for_table prefix (Ok keys) tbl (Some (FIsNotNull fd)) =
    Err (SchemaDiscovery ("no Parquet file found for table '" +:+ tbl +:+ "'")).
Proof.
  intros Hk. unfold find_keys_for_table. cbn [mbind outcome_bind].
  set (matching := filter _ (filter _ keys)). assert (matching = []) as ->; [|done].
  apply Forall_filter_nil, Forall_forall. intros k [_ Hin]%list_elem_of_filter. cbn. by rewrite (Hk k Hin).
Qed.

(** ** Limits *)

Definition rows_of (bs : list RecordBatch) : list (list cell) := concat (batch_rows <$> bs).
Definition rows_up_to (lim : option N) (rows : list (list cell)) : list (list cell) :=
  match lim with Some n => take (N.to_nat n) rows | None => rows end.

Lemma rows_of_app bs cs : rows_of (bs ++ cs) = rows_of bs ++ rows_of cs.
Proof. unfold rows_of. by rewrite fmap_app, concat_app. Qed.

Lemma rows_of_length bs : length (rows_of bs) = sum_list (num_rows <$> bs).
Proof.
  induction bs as [|b bs IH]; [done|]. unfold rows_of in *. cbn. by rewrite length_app, batch_rows_length, IH.
Qed.

Section Limits.
Context `{K : ArrowKernels, !ArrowLaws K}.

Lemma apply_limit_rows bs n :
  Forall wf_batch bs → rows_of (apply_limit_go n bs) = take n (rows_of bs).
Proof.
  intros H. revert n. induction H as [|b bs Hb H IH]; intros n; [by destruct n|]. cbn [apply_limit_go].
  destruct (Nat.eqb_spec n 0) as [->|Hn]; [by rewrite take_0|].
  change (rows_of (b :: bs)) with (batch_rows b ++ rows_of bs).
  destruct (Nat.leb_spec (num_rows b) n).
  - change (rows_of (b :: ?l)) with (batch_rows b ++ rows_of l). rewrite IH.
    rewrite take_app_ge by (rewrite batch_rows_length; lia). by rewrite batch_rows_length.
  - unfold rows_of. cbn [fmap list_fmap concat]. rewrite app_nil_r.
    rewrite take_app_le by (rewrite batch_rows_length; lia). by apply batch_slice_rows; [|lia].
Qed.

(** Dropping the rows past the limit from the last batch. *)
Lemma trim_last_rows bs b n :
  wf_batch b → length (rows_of bs) ≤ n → n ≤ length (rows_of (bs ++ [b])) →
  ∃ out, trim_last (length (rows_of (bs ++ [b])) - n) (bs ++ [b]) = Ok out ∧ rows_of out = take n (rows_of (bs ++ [b])).
Proof.
  intros Hb Hle Hge. unfold trim_last. rewrite last_snoc.
  rewrite rows_of_app, length_app in *. assert (rows_of [b] = batch_rows b) as Eb by (unfold rows_of; cbn; by rewrite app_nil_r).
  rewrite Eb, batch_rows_length in *.
  destruct (length (rows_of bs) + num_rows b - n) as [|k] eqn:Ek.
  - eexists. split; [done|]. rewrite rows_of_app, Eb, take_ge; [done|]. rewrite length_app, batch_rows_length. lia.
  - destruct (Nat.ltb_spec (num_rows b) (S k)); [lia|]. eexists. split; [done|].
    rewrite length_app. cbn [length]. replace (length bs + 1 - 1) with (length bs) by lia. rewrite take_app_length.
    rewrite rows_of_app. unfold rows_of at 2. cbn [fmap list_fmap concat]. rewrite app_nil_r.
    destruct (batch_slice_rows b (num_rows b - S k)) as (-> & _); [done|lia|].
    rewrite take_app_ge by lia. do 2 f_equal. lia.
Qed.

(** *** Delta Lake and Iceberg *)

Lemma push_batches_none total bs : push_batches None total bs = (bs, total + length (rows_of bs)).
Proof.
  revert total. induction bs as [|b bs IH]; intros total; cbn [push_batches]; [f_equal; cbn; lia|].
  rewrite IH. f_equal. change (rows_of (b :: bs)) with (batch_rows b ++ rows_of bs). rewrite length_app, batch_rows_length. lia.
Qed.

(** Either every batch is pushed and the limit is not reached, or the batch that
    reaches it is the last one pushed. *)
Lemma push_batches_spec l total bs :
  total < l →
  let '(pushed, total') := push_batches (Some l) total bs in
  total' = total + length (rows_of pushed) ∧
  ((pushed = bs ∧ total' < l) ∨
   ∃ pre b post, bs = pre ++ b :: post ∧ pushed = pre ++ [b] ∧ total + length (rows_of pre) < l ∧ l ≤ total').
Proof.
  revert total. induction bs as [|b bs IH]; intros total Hlt; cbn [push_batches].
  - split; [cbn; lia|]. by left.
  - destruct (Nat.leb_spec l (total + num_rows b)) as [Hge|Hlt'].
    + assert (length (rows_of [b]) = num_rows b) as E by (unfold rows_of; cbn; by rewrite app_nil_r, batch_rows_length).
      split; [lia|]. right. exists [], b, bs. split_and!; [done..| |lia]. cbn. lia.
    + specialize (IH (total + num_rows b) Hlt'). destruct (push_batches _ _ bs) as [pushed total'].
      destruct IH as [-> IH]. split.
      { change (rows_of (b :: pushed)) with (batch_rows b ++ rows_of pushed). rewrite length_app, batch_rows_length. lia. }
      destruct IH as [[-> Hl]|(pre & b' & post & -> & -> & Hpre & Hl)]; [by left|]. right.
      exists (b :: pre), b', post. split_and!; [done..| |lia].
      change (rows_of (b :: pre)) with (batch_rows b ++ rows_of pre). rewrite length_app, batch_rows_length. lia.
Qed.

Section Lake.
Context (read_parquet : string → list string → outcome ConnectorError (list RecordBatch)).
Context (ps : list string) (content : string → list RecordBatch).

Definition content_of (files : list string) : list RecordBatch := concat (content <$> files).

(** What reading all the files pushes. *)
Definition cut_at (l total : nat) (bs pushed : list RecordBatch) (total' : nat) : Prop :=
  total' = total + length (rows_of pushed) ∧
  ((pushed = bs ∧ total' < l) ∨
   ∃ pre b post, bs = pre ++ b :: post ∧ pushed = pre ++ [b] ∧ total + length (rows_of pre) < l ∧ l ≤ total').

Lemma read_files_spec l total files :
  (∀ file, file ∈ files → read_parquet file ps = Ok (content file)) → total < l →
  ∃ pushed total', read_files read_parquet (Some l) ps total files = Ok (pushed, total') ∧
    cut_at l total (content_of files) pushed total'.
Proof.
  intros Hread. revert total. induction files as [|file files IH]; intros total Hlt; cbn [read_files].
  - eexists _, _. split; [done|]. split; [cbn; lia|]. by left.
  - rewrite Hread by set_solver. cbn [mbind outcome_bind].
    pose proof (push_batches_spec l total (content file) Hlt) as Hp.
    destruct (push_batches (Some l) total (content file)) as [pushed total1]. destruct Hp as [-> Hp].
    change (content_of (file :: files)) with (content file ++ content_of files).
    destruct Hp as [[-> Hl]|(pre & b & post & E & -> & Hpre & Hl)].
    + rewrite (proj2 (Nat.leb_gt _ _) Hl).
      destruct (IH (λ f Hf, Hread f (list_elem_of_further _ _ _ Hf)) _ Hl) as (rest & total2 & -> & -> & Hrest).
      cbn [mbind outcome_bind]. eexists _, _. split; [done|]. split; [rewrite rows_of_app, length_app; lia|].
      destruct Hrest as [[-> Hl2]|(pre & b & post & -> & -> & Hpre & Hl2)]; [by left; split; [|lia]|]. right.
      exists (content file ++ pre), b, post. rewrite rows_of_app, length_app.
      split_and!; [by rewrite <- (assoc_L (++))|by rewrite <- (assoc_L (++))|lia|lia].
    + rewrite (proj2 (Nat.leb_le _ _) Hl). eexists _, _. split; [done|]. split; [done|]. right.
      exists pre, b, (post ++ content_of files). rewrite E. split_and!; [by rewrite <- (assoc_L (++))|done..].
Qed.

Lemma read_files_none total files :
  (∀ file, file ∈ files → read_parquet file ps = Ok (content file)) →
  ∃ total', read_files read_parquet None ps total files = Ok (content_of files, total').
Proof.
  intros Hread. revert total. induction files as [|file files IH]; intros total; cbn [read_files]; [by eexists|].
  rewrite Hread by set_solver. cbn [mbind outcome_bind]. rewrite push_batches_none.
  destruct (IH (λ f Hf, Hread f (list_elem_of_further _ _ _ Hf)) (total + length (rows_of (content file)))) as (total' & ->).
  by eexists.
Qed.

(** A limit of zero: at most one batch is read, and it is emptied. *)
Lemma read_files_zero files :
  (∀ file, file ∈ files → read_parquet file ps = Ok (content file)) →
  ∃ pushed, read_files read_parquet (Some 0) ps 0 files = Ok (pushed, length (rows_of pushed)) ∧
    (pushed = [] ∨ ∃ b, pushed = [b] ∧ b ∈ content_of files).
Proof.
  intros Hread. destruct files as [|file files]; [by exists []; auto|]. cbn [read_files].
  rewrite Hread by set_solver. cbn [mbind outcome_bind].
  destruct (content file) as [|b bs] eqn:E; cbn [push_batches]; [by exists []; auto|]. exists [b]. split.
  - cbn. by rewrite app_nil_r, batch_rows_length.
  - right. exists b. split; [done|]. unfold content_of. cbn. rewrite E. set_solver.
Qed.

Lemma lake_execute_rows files q :
  (∀ file, file ∈ files → read_parquet file ps = Ok (content file)) → projections q = ps →
  Forall wf_batch (content_of files) →
  ∃ bs, lake_execute read_parquet (Ok files) q = Ok bs ∧ rows_of bs = rows_up_to (limit q) (rows_of (content_of files)).
Proof.
  intros Hread Hps Hwf. unfold lake_execute. rewrite Hps. cbn [mbind outcome_bind].
  destruct (limit q) as [n|]; cbn [fmap option_fmap option_map rows_up_to].
  - destruct (decide (N.to_nat n = 0)) as [->|Hn].
    + destruct (read_files_zero files Hread) as (pushed & -> & Hp). cbn [mbind outcome_bind].
      rewrite Nat.sub_0_r, take_0. destruct Hp as [->|(b & -> & Hb)]; [by exists []|].
      destruct (trim_last_rows [] b 0) as (out & Hout & Hrows); [by eapply Forall_forall in Hwf|cbn; lia..|].
      rewrite Nat.sub_0_r in Hout. exists out. split; [exact Hout|]. by rewrite Hrows, take_0.
    + destruct (read_files_spec (N.to_nat n) 0 files Hread ltac:(lia)) as (pushed & total & -> & -> & Hp).
      cbn [mbind outcome_bind]. cbn [plus].
      destruct Hp as [[-> Hl]|(pre & b & post & E & -> & Hpre & Hl)].
      * exists (content_of files). replace (length (rows_of (content_of files)) - N.to_nat n) with 0 by lia.
        split; [|by rewrite take_ge by lia]. unfold trim_last. by destruct (last _).
      * destruct (trim_last_rows pre b (N.to_nat n)) as (out & Hout & Hrows); [|lia|lia|].
        { rewrite E in Hwf. apply Forall_app in Hwf as [_ Hwf]. by inversion Hwf. }
        exists out. split; [exact Hout|]. rewrite Hrows, E. change (b :: post) with ([b] ++ post).
        rewrite (assoc_L (++)), (rows_of_app (pre ++ [b])). by rewrite take_app_le by lia.
  - destruct (read_files_none 0 files Hread) as (total & ->). by eexists.
Qed.

(** *** Streaming *)

Context (accepts : nat → bool).
Hypothesis all_accepted : ∀ i, accepts i = true.

(** The rows that are sent from now on, with [lim] and [sent] as they are. *)
Definition rest_of (lim : option nat) (sent : nat) (rows : list (list cell)) : list (list cell) :=
  match lim with Some l => take (l - sent) rows | None => rows end.

Lemma rest_of_app lim sent sent' rows rows' :
  (∀ l, lim = Some l → l - sent' = l - sent - length rows) →
  rest_of lim sent (rows ++ rows') = rest_of lim sent rows ++ rest_of lim sent' rows'.
Proof. intros H. destruct lim as [l|]; [|done]. cbn. by rewrite take_app, (H l eq_refl). Qed.

(** The batch that is sent. *)
Lemma cut_batch_rows b remaining :
  wf_batch b →
  let b' := if remaining <? num_rows b then batch_slice b 0 remaining else b in
  batch_rows b' = take remaining (batch_rows b) ∧ num_rows b' = min remaining (num_rows b).
Proof.
  intros Hb. cbv zeta. destruct (Nat.ltb_spec remaining (num_rows b)).
  - destruct (batch_slice_rows b remaining) as (-> & -> & _); [done|lia|]. split; [done|lia].
  - rewrite take_ge by (by rewrite batch_rows_length). split; [done|lia].
Qed.

Lemma stream_batches_spec lim sent nsent bs :
  Forall wf_batch bs →
  let '(out, r) := stream_batches accepts lim sent nsent bs in
  rows_of out = rest_of lim sent (rows_of bs) ∧
  (r = Ok None ∧ (∃ l, lim = Some l ∧ l ≤ sent + length (rows_of bs)) ∨
   ∃ sent' nsent', r = Ok (Some (sent', nsent')) ∧ ∀ l, lim = Some l → l - sent' = l - sent - length (rows_of bs)).
Proof.
  intros H. revert sent nsent. induction H as [|b bs Hb H IH]; intros sent nsent; cbn [stream_batches].
  { split; [destruct lim; cbn; by rewrite ?take_nil|]. right. eexists _, _. split; [done|]. cbn. lia. }
  change (rows_of (b :: bs)) with (batch_rows b ++ rows_of bs). rewrite length_app, batch_rows_length.
  destruct lim as [l|].
  - destruct (Nat.leb_spec l sent) as [Hge|Hlt].
    + replace (l - sent) with 0 by lia. cbn [rest_of]. replace (l - sent) with 0 by lia. rewrite take_0.
      split; [done|]. left. split; [done|]. exists l. split; [done|lia].
    + destruct (cut_batch_rows b (l - sent) Hb) as [Hrows Hnum]. cbn zeta in Hrows, Hnum |- *.
      set (b' := if l - sent <? num_rows b then _ else _) in *. rewrite all_accepted.
      specialize (IH (sent + num_rows b') (S nsent)). destruct (stream_batches _ _ _ _ bs) as [out r].
      destruct IH as [Hout Hr]. change (rows_of (b' :: out)) with (batch_rows b' ++ rows_of out).
      split; [rewrite Hout, Hrows; cbn [rest_of]; rewrite take_app, batch_rows_length; do 2 f_equal; lia|].
      destruct Hr as [(-> & l' & [= <-] & Hl)|(sent' & nsent' & -> & Hs)].
      * left. split; [done|]. exists l. split; [done|lia].
      * right. eexists _, _. split; [done|]. intros l' [= <-]. rewrite (Hs l eq_refl). lia.
  - rewrite all_accepted. specialize (IH sent (S nsent)). destruct (stream_batches _ _ _ _ bs) as [out r].
    destruct IH as [Hout Hr]. change (rows_of (b :: out)) with (batch_rows b ++ rows_of out).
    split; [by rewrite Hout|]. destruct Hr as [(-> & l' & [=] & _)|(sent' & nsent' & -> & Hs)]. right. by eexists _, _.
Qed.

Lemma stream_files_rows lim sent nsent files :
  (∀ file, file ∈ files → read_parquet file ps = Ok (content file)) → Forall wf_batch (content_of files) →
  ∃ out, stream_files read_parquet accepts lim ps sent nsent files = (out, Ok tt) ∧
    rows_of out = rest_of lim sent (rows_of (content_of files)).
Proof.
  intros Hread. revert sent nsent. induction files as [|file files IH]; intros sent nsent Hwf; cbn [stream_files].
  { eexists. split; [done|]. destruct lim; cbn; by rewrite ?take_nil. }
  change (content_of (file :: files)) with (content file ++ content_of files) in *. apply Forall_app in Hwf as [Hwf Hwf'].
  rewrite Hread by set_solver. pose proof (stream_batches_spec lim sent nsent (content file) Hwf) as Hs.
  destruct (stream_batches _ _ _ _ (content file)) as [out r]. destruct Hs as [Hout Hr].
  destruct Hr as [(-> & l & -> & Hl)|(sent' & nsent' & -> & Hs)].
  - eexists. split; [done|]. rewrite Hout, rows_of_app. cbn [rest_of]. by rewrite take_app_le by lia.
  - destruct (IH (λ f Hf, Hread f (list_elem_of_further _ _ _ Hf)) sent' nsent' Hwf') as (rest & -> & Hrest).
    eexists. split; [done|]. rewrite rows_of_app, Hout, Hrest, rows_of_app. symmetry. by apply rest_of_app.
Qed.
End Lake.

(** *** Streaming from S3 *)

Section S3Stream.
Context {Bytes : Type} (get_object_bytes : string → outcome ConnectorError Bytes).
Context (row_group_count : Bytes → outcome ConnectorError nat).
Context (read_row_group : Bytes → nat → list string → outcome ConnectorError (list RecordBatch)).
Context (ps : list string) (accepts : nat → bool).
Hypothesis all_accepted : ∀ i, accepts i = true.

(** What is in a file, by row group. *)
Context (groups : string → list (list RecordBatch)).
Definition file_batches (key : string) : list RecordBatch := concat (groups key).
Definition served (key : string) : Prop :=
  ∃ data, get_object_bytes key = Ok data ∧ row_group_count data = Ok (length (groups key)) ∧
    ∀ rg bs, groups key !! rg = Some bs → read_row_group data rg ps = Ok bs.

Definition flow_ok (lim : option nat) (sent : nat) (rows : list (list cell)) (r : flow * nat * nat) : Prop :=
  match r with
  | (Go, sent', _) => ∀ l, lim = Some l → l - sent' = l - sent - length rows
  | (_, sent', _) => ∃ l, lim = Some l ∧ l ≤ sent' ∧ l ≤ sent + length rows
  end.

Lemma s3_stream_batches_spec lim sent nsent bs :
  Forall wf_batch bs →
  ∃ out r, s3_stream_batches accepts lim sent nsent bs = (out, Ok r) ∧
    rows_of out = rest_of lim sent (rows_of bs) ∧ flow_ok lim sent (rows_of bs) r.
Proof.
  intros H. revert sent nsent. induction H as [|b bs Hb H IH]; intros sent nsent; cbn [s3_stream_batches].
  { eexists _, _. split; [done|]. split; [destruct lim; cbn; by rewrite ?take_nil|]. cbn. lia. }
  change (rows_of (b :: bs)) with (batch_rows b ++ rows_of bs).
  destruct lim as [l|].
  - destruct (Nat.leb_spec l sent) as [Hge|Hlt].
    + eexists _, _. split; [done|]. cbn [rest_of]. replace (l - sent) with 0 by lia. rewrite take_0.
      split; [done|]. exists l. split_and!; [done|lia..].
    + destruct (cut_batch_rows b (l - sent) Hb) as [Hrows Hnum]. cbn zeta in Hrows, Hnum |- *.
      set (b' := if l - sent <? num_rows b then _ else _) in *. rewrite all_accepted.
      destruct (Nat.leb_spec l (sent + num_rows b')) as [Hfull|Hnot].
      * eexists _, _. split; [done|]. split.
        { unfold rows_of at 1. cbn [fmap list_fmap concat]. rewrite app_nil_r, Hrows. cbn [rest_of].
          by rewrite take_app_le by (rewrite batch_rows_length; lia). }
        exists l. rewrite length_app, batch_rows_length. split_and!; [done|lia..].
      * destruct (IH (sent + num_rows b') (S nsent)) as (out & r & -> & Hout & Hr). eexists _, _. split; [done|].
        change (rows_of (b' :: out)) with (batch_rows b' ++ rows_of out). split.
        { rewrite Hout, Hrows. cbn [rest_of]. rewrite take_app, batch_rows_length. do 2 f_equal. lia. }
        destruct r as [[[] sent'] nsent']; cbn in Hr |- *; rewrite length_app, batch_rows_length.
        -- intros l' [= <-]. rewrite (Hr l eq_refl). lia.
        -- destruct Hr as (l' & [= <-] & ? & ?). exists l. split_and!; [done|lia..].
        -- destruct Hr as (l' & [= <-] & ? & ?). exists l. split_and!; [done|lia..].
  - rewrite all_accepted. destruct (IH sent (S nsent)) as (out & r & -> & Hout & Hr). eexists _, _. split; [done|].
    change (rows_of (b :: out)) with (batch_rows b ++ rows_of out). split; [by rewrite Hout|].
    destruct r as [[[] sent'] nsent']; cbn in Hr |- *; [done|by destruct Hr as (? & ? & _)..].
Qed.

(** What a step leaves for the ones after it. *)
Lemma flow_go lim sent rows rows' sent' nsent' :
  flow_ok lim sent rows (Go, sent', nsent') →
  rest_of lim sent (rows ++ rows') = rest_of lim sent rows ++ rest_of lim sent' rows'.
Proof. intros Hf. by apply rest_of_app. Qed.

Lemma flow_done lim sent rows rows' fl sent' nsent' :
  fl ≠ Go → flow_ok lim sent rows (fl, sent', nsent') →
  rest_of lim sent (rows ++ rows') = rest_of lim sent rows ∧ ∀ rows'', rest_of lim sent' rows'' = [].
Proof.
  intros Hfl Hf. assert (∃ l, lim = Some l ∧ l ≤ sent' ∧ l ≤ sent + length rows) as (l & -> & H1 & H2) by by destruct fl.
  cbn [rest_of]. split; [by rewrite take_app_le by lia|]. intros rows''. by replace (l - sent') with 0 by lia.
Qed.

Lemma s3_stream_groups_spec lim data gs k sent nsent :
  (∀ rg bs, gs !! rg = Some bs → read_row_group data (k + rg) ps = Ok bs) → Forall wf_batch (concat gs) →
  ∃ out r, s3_stream_groups read_row_group accepts lim ps data sent nsent (seq k (length gs)) = (out, Ok r) ∧
    rows_of out = rest_of lim sent (rows_of (concat gs)) ∧ flow_ok lim sent (rows_of (concat gs)) r.
Proof.
  revert k sent nsent. induction gs as [|bs gs IH]; intros k sent nsent Hread Hwf; cbn [seq s3_stream_groups length].
  { eexists _, _. split; [done|]. split; [destruct lim; cbn; by rewrite ?take_nil|]. cbn. lia. }
  change (concat (bs :: gs)) with (bs ++ concat gs) in *. apply Forall_app in Hwf as [Hwf Hwf'].
  pose proof (Hread 0 bs eq_refl) as Hr0. rewrite Nat.add_0_r in Hr0. rewrite Hr0.
  destruct (s3_stream_batches_spec lim sent nsent bs Hwf) as (out & [[fl sent'] nsent'] & -> & Hout & Hf).
  rewrite rows_of_app. destruct fl.
  - destruct (IH (S k) sent' nsent') as (rest & r & -> & Hrest & Hr); [|done|].
    { intros rg cs Hrg. specialize (Hread (S rg) cs Hrg). by rewrite Nat.add_succ_r in Hread. }
    eexists _, _. split; [done|]. rewrite rows_of_app, Hout, Hrest. split; [by rewrite (flow_go _ _ _ _ _ _ Hf)|].
    cbn in Hf. destruct r as [[[] s2] n2]; cbn in Hr |- *; rewrite length_app.
    + intros l Hl. rewrite (Hr l Hl), (Hf l Hl). lia.
    + destruct Hr as (l & Hl & H1 & H2). specialize (Hf l Hl). exists l. split_and!; [done|lia..].
    + destruct Hr as (l & Hl & H1 & H2). specialize (Hf l Hl). exists l. split_and!; [done|lia..].
  - destruct (flow_done _ _ _ (rows_of (concat gs)) NextFile _ _ ltac:(done) Hf) as [-> _]. eexists _, _. split; [done|]. split; [done|].
    cbn in Hf |- *. rewrite length_app. destruct Hf as (l & Hl & H1 & H2). exists l. split_and!; [done|lia..].
  - destruct (flow_done _ _ _ (rows_of (concat gs)) Stop _ _ ltac:(done) Hf) as [-> _]. eexists _, _. split; [done|]. split; [done|].
    cbn in Hf |- *. rewrite length_app. destruct Hf as (l & Hl & H1 & H2). exists l. split_and!; [done|lia..].
Qed.

Lemma s3_stream_keys_rows lim sent nsent keys :
  Forall served keys → Forall wf_batch (concat (file_batches <$> keys)) →
  ∃ out, s3_stream_keys get_object_bytes row_group_count read_row_group accepts lim ps sent nsent keys = (out, Ok tt) ∧
    rows_of out = rest_of lim sent (rows_of (concat (file_batches <$> keys))).
Proof.
  intros Hserved. revert sent nsent. induction Hserved as [|key keys (data & Hget & Hcount & Hread) Hserved IH];
    intros sent nsent Hwf; cbn [s3_stream_keys].
  { eexists. split; [done|]. destruct lim; cbn; by rewrite ?take_nil. }
  rewrite fmap_cons in *. change (concat (?x :: ?l)) with (x ++ concat l) in *.
  apply Forall_app in Hwf as [Hwf Hwf']. rewrite Hget. cbn [mbind outcome_bind]. rewrite Hcount. cbn [mbind outcome_bind].
  destruct (s3_stream_groups_spec lim data (groups key) 0 sent nsent Hread Hwf) as (out & [[fl sent'] nsent'] & -> & Hout & Hf).
  rewrite rows_of_app. unfold file_batches at 1. destruct fl.
  - destruct (IH sent' nsent' Hwf') as (rest & -> & Hrest). eexists. split; [done|].
    by rewrite rows_of_app, Hout, Hrest, (flow_go _ _ _ _ _ _ Hf).
  - destruct (flow_done _ _ _ (rows_of (concat (file_batches <$> keys))) NextFile _ _ ltac:(done) Hf) as [-> Hnil].
    destruct (IH sent' nsent' Hwf') as (rest & -> & Hrest). eexists. split; [done|].
    by rewrite rows_of_app, Hout, Hrest, Hnil, app_nil_r.
  - destruct (flow_done _ _ _ (rows_of (concat (file_batches <$> keys))) Stop _ _ ltac:(done) Hf) as [-> _].
    eexists. split; [done|]. done.
Qed.
End S3Stream.

(** *** The S3 connector's own limit *)

(** The batches before the limit is reached are all taken. *)
Lemma s3_take_while_prefix l total pre bs :
  total + length (rows_of pre) < l →
  s3_take_while l total (pre ++ bs) =
    let '(taken, total') := s3_take_while l (total + length (rows_of pre)) bs in (pre ++ taken, total').
Proof.
  revert total. induction pre as [|b pre IH]; intros total Hlt; cbn [app s3_take_while].
  - cbn. rewrite Nat.add_0_r. by destruct (s3_take_while l total bs).
  - change (rows_of (b :: pre)) with (batch_rows b ++ rows_of pre) in *. rewrite length_app, batch_rows_length in *.
    destruct (Nat.ltb_spec total l); [|lia]. rewrite IH by lia. rewrite (Nat.add_assoc total).
    by destruct (s3_take_while l (total + num_rows b + length (rows_of pre)) bs).
Qed.

Lemma rows_of_snoc bs b : rows_of (bs ++ [b]) = rows_of bs ++ batch_rows b.
Proof. rewrite rows_of_app. unfold rows_of at 2. cbn. by rewrite app_nil_r. Qed.

Lemma s3_limit_last pre b n :
  wf_batch b → length (rows_of pre) < N.to_nat n →
  ∃ out, s3_limit (pre ++ [b]) (Some n) = Ok out ∧ rows_of out = take (N.to_nat n) (rows_of (pre ++ [b])).
Proof.
  intros Hb Hlt. unfold s3_limit. rewrite s3_take_while_prefix by (cbn; lia). cbn [plus s3_take_while].
  rewrite (proj2 (Nat.ltb_lt _ _) Hlt). rewrite <- (batch_rows_length b), <- length_app, <- rows_of_snoc.
  destruct (decide (N.to_nat n ≤ length (rows_of (pre ++ [b])))) as [Hle|Hgt].
  - apply trim_last_rows; [done|lia|done].
  - exists (pre ++ [b]). replace (length (rows_of (pre ++ [b])) - N.to_nat n) with 0 by lia.
    unfold trim_last. rewrite last_snoc. split; [done|]. by rewrite take_ge by lia.
Qed.

Lemma s3_limit_next pre b next post n :
  wf_batch b → length (rows_of pre) < N.to_nat n ≤ length (rows_of (pre ++ [b])) →
  let excess := length (rows_of (pre ++ [b])) + num_rows next - N.to_nat n in
  if num_rows b <? excess then s3_limit (pre ++ b :: next :: post) (Some n) = Panic
  else ∃ out, s3_limit (pre ++ b :: next :: post) (Some n) = Ok out ∧
         rows_of out = take (N.to_nat n - num_rows next) (rows_of (pre ++ b :: next :: post)).
Proof.
  intros Hb [Hlt Hge] excess.
  assert (excess = length (rows_of pre) + num_rows b + num_rows next - N.to_nat n) as Ex.
  { unfold excess. by rewrite rows_of_snoc, length_app, batch_rows_length. }
  clearbody excess. unfold s3_limit. rewrite s3_take_while_prefix by (cbn; lia). cbn [plus s3_take_while].
  rewrite (proj2 (Nat.ltb_lt _ _) Hlt). rewrite rows_of_snoc, length_app, batch_rows_length in Hge.
  rewrite (proj2 (Nat.ltb_ge _ _) Hge), <- Ex. unfold trim_last. rewrite last_snoc.
  destruct (Nat.ltb_spec (num_rows b) excess) as [Hx|Hx]; [by destruct excess; [lia|]|].
  change (pre ++ b :: next :: post) with (pre ++ [b] ++ next :: post). rewrite (assoc_L (++)), (rows_of_app (pre ++ [b])).
  destruct (trim_last_rows pre b (N.to_nat n - num_rows next)) as (out & Hout & Hrows);
    rewrite ?rows_of_snoc, ?length_app, ?batch_rows_length; [done|lia|lia|].
  rewrite (take_app_le (rows_of pre ++ batch_rows b)) by (rewrite length_app, batch_rows_length; lia).
  rewrite rows_of_snoc in Hrows. rewrite rows_of_snoc, length_app, batch_rows_length in Hout. exists out. split; [|done].
  unfold trim_last in Hout. rewrite last_snoc in Hout.
  replace (length (rows_of pre) + num_rows b - (N.to_nat n - num_rows next)) with excess in Hout by lia.
  rewrite (proj2 (Nat.ltb_ge _ _) Hx) in Hout. by rewrite length_app in Hout.
Qed.
End Limits.

(** ** Theorems on limits *)

(** The CSV and JSON connector, the Delta Lake and Iceberg connectors, whether
    the result is returned or streamed, and the S3 connector when it streams,
    deliver the first rows of the table's files, as many as the limit says, and
    all of them without a limit, when the files can be read and the client
    receives what is sent. *)
Theorem file_limits_cut_rows `{K : ArrowKernels, !ArrowLaws K, F64Display} {Bytes} get_object_bytes row_group_count
    (read_row_group : Bytes → nat → list string → outcome ConnectorError (list RecordBatch)) read_parquet
    bs q files content prefix listing keys groups :
  (Forall wf_batch bs → rows_of (apply_limit bs (limit q)) = rows_up_to (limit q) (rows_of bs)) ∧
  ((∀ file, file ∈ files → read_parquet file (projections q) = Ok (content file)) →
   Forall wf_batch (content_of content files) →
   (∃ out, lake_execute read_parquet (Ok files) q = Ok out ∧
      rows_of out = rows_up_to (limit q) (rows_of (content_of content files))) ∧
   (∃ out, lake_execute_streaming read_parquet (λ _, true) (Ok files) q = (out, Ok tt) ∧
      rows_of out = rows_up_to (limit q) (rows_of (content_of content files)))) ∧
  (find_keys_for_table prefix listing (table q) (filter_expr q) = Ok keys →
   Forall (served get_object_bytes row_group_count read_row_group (projections q) groups) keys →
   Forall wf_batch (concat (file_batches groups <$> keys)) →
   ∃ out, s3_execute_streaming get_object_bytes row_group_count read_row_group (λ _, true) prefix listing q = (out, Ok tt) ∧
     rows_of out = rows_up_to (limit q) (rows_of (concat (file_batches groups <$> keys)))).
Proof.
  assert (∀ rows, rest_of (N.to_nat <$> limit q) 0 rows = rows_up_to (limit q) rows) as Hrest.
  { intros rows. destruct (limit q); cbn; [by rewrite Nat.sub_0_r|done]. }
  split_and!.
  - intros Hwf. unfold apply_limit, rows_up_to. destruct (limit q); [by apply apply_limit_rows|done].
  - intros Hread Hwf. split; [by eapply lake_execute_rows|]. unfold lake_execute_streaming.
    destruct (stream_files_rows read_parquet (projections q) content (λ _, true) (λ _, eq_refl) (N.to_nat <$> limit q) 0 0 files
      Hread Hwf) as (out & -> & Hrows). exists out. by rewrite Hrows, Hrest.
  - intros Hkeys Hserved Hwf. unfold s3_execute_streaming. rewrite Hkeys.
    destruct (s3_stream_keys_rows get_object_bytes row_group_count read_row_group (projections q) (λ _, true) (λ _, eq_refl)
      groups (N.to_nat <$> limit q) 0 0 keys Hserved Hwf) as (out & -> & Hrows). exists out. by rewrite Hrows, Hrest.
Qed.

(** The S3 connector's limit gives the first rows when the batch that reaches
    it is the last one; when another batch follows, that batch's rows are
    subtracted as well: rows are missing, or the subtraction underflows and the
    call panics. *)
Theorem s3_limit_counts_next_batch `{K : ArrowKernels, !ArrowLaws K} pre b next post n :
  wf_batch b → length (rows_of pre) < N.to_nat n →
  (∃ out, s3_limit (pre ++ [b]) (Some n) = Ok out ∧ rows_of out = rows_up_to (Some n) (rows_of (pre ++ [b]))) ∧
  (N.to_nat n ≤ length (rows_of (pre ++ [b])) →
   if num_rows b <? length (rows_of (pre ++ [b])) + num_rows next - N.to_nat n
   then s3_limit (pre ++ b :: next :: post) (Some n) = Panic
   else ∃ out, s3_limit (pre ++ b :: next :: post) (Some n) = Ok out ∧
          rows_of out = take (N.to_nat n - num_rows next) (rows_of (pre ++ b :: next :: post))).
Proof. intros Hb Hlt. split; [by apply s3_limit_last|]. intros Hle. by apply s3_limit_next. Qed.

(** Batches of one integer column, for the examples. *)
Definition int_batch (zs : list Z) : RecordBatch :=
  mkBatch [mkField "x" Int64 false] [mkArray Int64 (Some ∘ VInt <$> zs)] (length zs).

Lemma s3_limit_counts_next_batch_witness :
  let b := int_batch [1; 2]%Z in
  (∃ out, s3_limit (K := RefArrow) [b] (Some 2%N) = Ok out ∧ rows_of out = [[Some (VInt 1)]; [Some (VInt 2)]]) ∧
  (∃ out, s3_limit (K := RefArrow) [b; b] (Some 2%N) = Ok out ∧ rows_of out = []) ∧
  s3_limit (K := RefArrow) [b; int_batch [3; 4; 5]%Z] (Some 2%N) = Panic.
Proof.
  intros b. assert (wf_batch b) as Hwf by (apply (bool_decide_unpack _); vm_compute; exact I).
  destruct (s3_limit_counts_next_batch (K := RefArrow) [] b b [] 2 Hwf ltac:(vm_compute; lia)) as [H1 H2].
  destruct (s3_limit_counts_next_batch (K := RefArrow) [] b (int_batch [3; 4; 5]%Z) [] 2 Hwf ltac:(vm_compute; lia)) as [_ H3].
  split_and!; [exact H1|apply H2; vm_compute; lia|apply H3; vm_compute; lia].
Defined.

Lemma file_limits_cut_rows_witness :
  let b := int_batch [1; 2]%Z in
  let q := mkSubQuery "t" [] None [] [] None [] (Some 3%N) None None in
  ∃ out, lake_execute (K := RefArrow) (λ _ _, Ok [b]) (Ok ["f"; "g"]) q = Ok out ∧
    rows_of out = [[Some (VInt 1)]; [Some (VInt 2)]; [Some (VInt 1)]].
Proof.
  intros b q.
  destruct (file_limits_cut_rows (K := RefArrow) (H := λ _, "0") (λ _, Ok tt) (λ _, Ok 0) (λ _ _ _, Ok []) (λ _ _, Ok [b])
    [] q ["f"; "g"] (λ _, [b]) "" (Ok []) [] (λ _, [])) as (_ & H & _).
  apply H; [done|]. repeat constructor; apply (bool_decide_unpack _); vm_compute; exact I.
Defined.
