(* ===== verification/Tabular.v ===== *)
(** * Tabular: JSON documents and the batches built from them

    Remote systems answer in JSON: [v.get(k)], [v\[k\]], [v.pointer(..)] and the
    [as_*] readers of [serde_json], as the connectors use them.  The connectors
    build a batch column by column; the lemmas here say that the batch has the
    rows the columns were made from. *)

From S2P Require Import Prelude Strs Json Arrow ArrowRef Connector.
From stdpp Require Import base list strings.
From Stdlib Require Import NArith ZArith Lia SpecFloat.

(** ** Reading JSON *)

Fixpoint assoc_get (k : string) (m : list (string * Value)) : option Value :=
  match m with
  | [] => None
  | (k', v) :: m => if String.eqb k' k then Some v else assoc_get k m
  end.
Definition get (v : Value) (k : string) : option Value := match v with JObject m => assoc_get k m | _ => None end.
Definition index (v : Value) (k : string) : Value := default JNull (get v k).
Definition pointer (v : Value) (path : list string) : option Value :=
  foldl (λ acc k, acc ≫= λ v, get v k) (Some v) path.

Definition as_array (v : Value) : option (list Value) := match v with JArray l => Some l | _ => None end.
Definition as_object (v : Value) : option (list (string * Value)) := match v with JObject m => Some m | _ => None end.
Definition as_str (v : Value) : option string := match v with JString s => Some s | _ => None end.
Definition as_bool (v : Value) : option bool := match v with JBool b => Some b | _ => None end.
Definition as_i64 (v : Value) : option Z :=
  match v with JNumber (NInt z) => if ((i64_min <=? z) && (z <=? i64_max))%Z then Some z else None | _ => None end.

(** [v.as_array().unwrap_or(&empty)]. *)
Definition elements_of (v : Value) : list Value := default [] (as_array v).
(** [.iter().filter_map(|x| x\[k\].as_str()...)]. *)
Definition texts_at (k : string) (l : list Value) : list string := omap (λ x, as_str (index x k)) l.

(** ** Building batches *)

Definition empty_batch (s : Schema) : RecordBatch := mkBatch s ((λ f, mkArray (field_type f) []) <$> s) 0.
(** [Field::new(name, DataType::Utf8, true)]. *)
Definition text_field (n : string) : Field := mkField n Utf8 true.

(** A batch built column by column from a list of entries. *)
Section Build.
Context `{K : ArrowKernels, !ArrowLaws K} {R : Type} (fs : list (Field * (R → cell))).

Definition built_columns (rows : list R) : list Array := (λ f, mkArray (field_type f.1) (f.2 <$> rows)) <$> fs.
Definition entry_cells (r : R) : list cell := (λ f, f.2 r) <$> fs.

Lemma built_batch rows :
  fs ≠ [] → Forall (λ f, nullable f.1 = true ∨ ∀ r, f.2 r ≠ None) fs →
  ∃ b, try_new fs.*1 (built_columns rows) = Ok b ∧ batch_rows b = entry_cells <$> rows ∧ schema b = fs.*1.
Proof.
  intros Hne Hnull. exists (mkBatch fs.*1 (built_columns rows) (length rows)). split_and!; [|clear Hnull|done].
  - assert (wf_columns fs.*1 (built_columns rows) (length rows)) as Hwf.
    { split.
      - apply Forall2_fmap, Forall_Forall2_diag. eapply Forall_impl; [exact Hnull|].
        intros x [Hx|Hx]; split; [done|by left|done|]. right. apply Forall_fmap, Forall_true. done.
      - apply Forall_fmap, Forall_true. intros x. unfold compose, array_len. cbn. apply length_fmap. }
    destruct (built_columns rows) as [|c cols] eqn:E; [by unfold built_columns in E; apply fmap_nil_inv in E|].
    assert (array_len c = length rows) as Ec by (destruct Hwf as [_ Hl]; by apply Forall_cons in Hl as [Hl _]).
    rewrite try_new_ok by by rewrite Ec. by rewrite Ec.
  - unfold batch_rows. cbn [columns num_rows]. apply list_eq. intros i. rewrite !list_lookup_fmap.
    destruct (decide (i < length rows)) as [Hi|Hi].
    + rewrite lookup_seq_lt by done. destruct (lookup_lt_is_Some_2 rows i Hi) as [r Hr]. rewrite Hr. cbn. f_equal.
      unfold row_at, built_columns, entry_cells. rewrite <- list_fmap_compose. apply list_fmap_ext. intros _ f _.
      unfold compose, value_at. cbn. by rewrite list_lookup_fmap, Hr.
    + rewrite lookup_seq_ge, lookup_ge_None_2 by lia. done.
Qed.
End Build.

Definition text_cell (s : string) : cell := Some (VUtf8 s).
Definition opt_cell (o : option string) : cell := VUtf8 <$> o.

(** An error of Arrow reported by a connector. *)
Definition as_query_error {A} (r : outcome ArrowError A) : outcome ConnectorError A := map_err QueryFailed r.

(** A table of texts: one column per name, the missing cells of a row null. *)
Section TextTable.
Context `{K : ArrowKernels}.

Definition text_cells (i : nat) (r : list (option string)) : cell := opt_cell (mjoin (r !! i)).
Definition text_table (names : list string) (rows : list (list (option string))) :
    outcome ConnectorError (list RecordBatch) :=
  let schema := text_field <$> names in
  match rows with
  | [] => Ok [empty_batch schema]
  | _ =>
      batch ← as_query_error (try_new schema ((λ i, mkArray Utf8 (text_cells i <$> rows)) <$> seq 0 (length names)));
      Ok [batch]
  end.

(** A row as wide as the table. *)
Definition fit_row (width : nat) (r : list (option string)) : list cell := (λ i, text_cells i r) <$> seq 0 width.

Lemma text_table_rows `{!ArrowLaws K} names rows :
  names ≠ [] ∨ rows = [] →
  ∃ b, text_table names rows = Ok [b] ∧ schema b = text_field <$> names ∧ batch_rows b = fit_row (length names) <$> rows.
Proof.
  intros Hne. destruct rows as [|r rows]; [by eexists|]. destruct Hne as [Hne|]; [|done].
  unfold text_table. set (l := r :: rows).
  set (fs := zip (text_field <$> names) (text_cells <$> seq 0 (length names))).
  assert (length (text_field <$> names) = length (text_cells <$> seq 0 (length names))) as Hlen
    by by rewrite !length_fmap, length_seq.
  assert (fs.*1 = text_field <$> names) as H1 by (apply fst_zip; lia).
  assert (fs.*2 = text_cells <$> seq 0 (length names)) as H2 by (apply snd_zip; lia).
  assert (((λ i, mkArray Utf8 (text_cells i <$> l)) <$> seq 0 (length names)) = built_columns fs l) as ->.
  { transitivity ((λ f : list (option string) → cell, mkArray Utf8 (f <$> l)) <$> fs.*2).
    { by rewrite H2, <- list_fmap_compose. }
    unfold built_columns. rewrite <- list_fmap_compose. apply list_fmap_ext. intros i [f c] Hf. cbn. f_equal.
    assert (f ∈ fs.*1) as Hin by (apply list_elem_of_fmap; exists (f, c); split; [done|by eapply list_elem_of_lookup_2]).
    rewrite H1 in Hin. by apply list_elem_of_fmap in Hin as (n & -> & _). }
  destruct (built_batch fs l) as (b & Hb & Hrows & Hs).
  - intros E. assert (fs.*1 = []) as E' by by rewrite E. rewrite H1 in E'. by apply fmap_nil_inv in E'.
  - apply Forall_forall. intros [f c] Hf. left. cbn.
    assert (f ∈ fs.*1) as Hin by (apply list_elem_of_fmap; by exists (f, c)).
    rewrite H1 in Hin. by apply list_elem_of_fmap in Hin as (n & -> & _).
  - rewrite <- H1, Hb. exists b. cbn. split; [done|]. split; [by rewrite Hs, H1|].
    rewrite Hrows. apply (list_fmap_ext _ _ l). intros _ x _. unfold entry_cells, fit_row.
    transitivity ((λ f : list (option string) → cell, f x) <$> fs.*2); [by rewrite <- list_fmap_compose|].
    by rewrite H2, <- list_fmap_compose.
Qed.
End TextTable.
