(* ===== verification/LakeTables.v ===== *)
(** * LakeTables: which files make up a Delta Lake or Iceberg table

    Models the metadata side of [crates/fuse-connectors/delta-lake/src/lib.rs] (the
    log is replayed into the active files; the schema string) and
    [iceberg/src/lib.rs] (catalog, snapshot, manifest list and manifests; the
    schema).  The object store, the HTTP client and the decoding of a line or a
    body are parameters.

    The theorems: a Delta file is read exactly when a readable entry adds it and
    none from there on removes it; an Iceberg table's files are those the manifests
    of the last snapshot list, in order. *)

From S2P Require Import Prelude Strs Json JsonRef Arrow Connector Sorting Tabular FileConnectors.
From stdpp Require Import base list gmap strings sets sorting.
From Stdlib Require Import NArith ZArith Lia Ascii.

(** ** Delta Lake *)

Record AddAction : Type := mkAdd { add_path : string; add_size : option Z; partition_values : option Value }.
Record MetadataAction : Type := mkMetadata { md_name : option string; schema_string : option string }.
Record DeltaLogEntry : Type := mkEntry {
  de_add : option AddAction;
  de_remove : option string;   (** [RemoveAction], its path *)
  de_metadata : option MetadataAction;
}.

Definition delta_type (t : string) : DataType :=
  if String.eqb t "integer" || String.eqb t "int" then Int32
  else if String.eqb t "long" then Int64
  else if String.eqb t "float" then Float32
  else if String.eqb t "double" then Float64
  else if String.eqb t "boolean" then Boolean
  else Utf8.
Definition delta_field (f : Value) : option Field :=
  name ← as_str (index f "name");
  Some (mkField name (delta_type (default "string" (as_str (index f "type"))))
          (default true (as_bool (index f "nullable")))).
(** [parsed] is the result of parsing the schema's text. *)
Definition parse_delta_schema (parsed : outcome string Value) : outcome ConnectorError Schema :=
  val ← map_err (λ e, QueryFailed ("invalid Delta schema: " +:+ e)) parsed;
  Ok (omap delta_field (elements_of (index val "fields"))).

Definition added (e : DeltaLogEntry) : option string := add_path <$> de_add e.
Definition removed (e : DeltaLogEntry) : option string := de_remove e.
Definition replay (active : gset string) (entry : DeltaLogEntry) : gset string :=
  let active := match added entry with Some p => {[ p ]} ∪ active | None => active end in
  match removed entry with Some p => active ∖ {[ p ]} | None => active end.

Section Delta.
(** The order of iterating a hash set, what the store holds at a path, and
    [serde_json::from_slice] for a line. *)
Context (hash_iter : gset string → list string).
Context (read_log : string → outcome string string) (parse_line : string → option DeltaLogEntry).

Definition resolve_active_files (entries : list DeltaLogEntry) : list string :=
  hash_iter (foldl replay ∅ entries).

Definition log_files (objects : list string) : list string :=
  merge_sort String.le (filter (λ p, ends_with ".json" p = true) objects).

Definition NEWLINE : ascii := ascii_of_nat 10.
Definition log_lines (text : string) : list string := filter (λ l, l ≠ "") (split_on (is_char NEWLINE) text).

Fixpoint log_entries (files : list string) : outcome ConnectorError (list DeltaLogEntry) :=
  match files with
  | [] => Ok []
  | lf :: files =>
      text ← map_err (λ e, QueryFailed ("failed to read " +:+ lf +:+ ": " +:+ e)) (read_log lf);
      rest ← log_entries files;
      Ok (omap parse_line (log_lines text) ++ rest)
  end.

(** [objects] is what listing the log directory gives. *)
Definition resolve_files (objects : outcome string (list string)) : outcome ConnectorError (list string) :=
  objects ← map_err (λ e, QueryFailed ("failed to list _delta_log: " +:+ e)) objects;
  entries ← log_entries (log_files objects);
  Ok (resolve_active_files entries).

(** The connector of a table.  The version it may be configured with is kept and
    never read; [list_log] lists the log directory below an address. *)
Record DeltaLakeConnector : Type := mkDelta { dl_id : string; table_uri : string; dl_version : option Z }.
Definition connector_files (list_log : string → outcome string (list string)) (c : DeltaLakeConnector) : outcome ConnectorError (list string) :=
  resolve_files (list_log (table_uri c)).
End Delta.

(** ** Iceberg *)

Inductive HttpAnswer : Type :=
| SendError (e : string)
| BadBody (e : string)
| Body (v : Value).

Definition iceberg_type_to_arrow (t : string) : DataType :=
  if String.eqb t "boolean" then Boolean
  else if String.eqb t "int" then Int32
  else if String.eqb t "long" then Int64
  else if String.eqb t "float" then Float32
  else if String.eqb t "double" then Float64
  else if String.eqb t "date" then OtherType "Date32"
  else if String.eqb t "timestamp" || String.eqb t "timestamptz" then Int64
  else Utf8.
Definition iceberg_field (f : Value) : option Field :=
  name ← as_str (index f "name");
  Some (mkField name (iceberg_type_to_arrow (default "string" (as_str (index f "type"))))
          (negb (default false (as_bool (index f "required"))))).
Definition parse_iceberg_schema (schema_json : Value) : outcome ConnectorError Schema :=
  Ok (omap iceberg_field (elements_of (index schema_json "fields"))).

Definition extract_manifest_paths (snapshot : Value) : list string :=
  texts_at "manifest_path" (elements_of (index snapshot "manifests")).

Section Iceberg.
Context (catalog_url namespace : string) (http_get : string → HttpAnswer).

Definition tables_url : string := catalog_url +:+ "/v1/namespaces/" +:+ namespace +:+ "/tables".
Definition table_url (tbl : string) : string := tables_url +:+ "/" +:+ tbl.

(** A body that must be there, and one that may be unreadable. *)
Definition fetch (url : string) : outcome ConnectorError Value :=
  match http_get url with SendError e => Err (Connection e) | BadBody e => Err (QueryFailed e) | Body v => Ok v end.
Definition fetch_or (what url : string) (otherwise : Value) : outcome ConnectorError Value :=
  match http_get url with SendError e => Err (QueryFailed (what +:+ e)) | BadBody _ => Ok otherwise | Body v => Ok v end.

Definition entry_path (entry : Value) : option string := as_str (index (index entry "data_file") "file_path").
Fixpoint manifest_files (manifests : list string) : outcome ConnectorError (list string) :=
  match manifests with
  | [] => Ok []
  | path :: manifests =>
      mdata ← fetch_or "failed to fetch manifest: " path (JObject [("entries", JArray [])]);
      rest ← manifest_files manifests;
      Ok (omap entry_path (elements_of (index mdata "entries")) ++ rest)
  end.

Definition resolve_data_files (tbl : string) : outcome ConnectorError (list string) :=
  meta ← fetch (table_url tbl);
  snapshots ← ok_or (as_array (index (index meta "metadata") "snapshots")) (QueryFailed "no snapshots in table metadata");
  snapshot ← ok_or (last snapshots) (QueryFailed "empty snapshots array");
  manifest_list ← ok_or (as_str (index snapshot "manifest-list")) (QueryFailed "no manifest-list in snapshot");
  manifest_json ← fetch_or "failed to fetch manifest list: " manifest_list (JObject [("manifests", JArray [])]);
  data_files ← manifest_files (extract_manifest_paths manifest_json);
  Ok match data_files with
     | [] => omap as_str (elements_of (index snapshot "data_files"))
     | _ => data_files
     end.

Definition iceberg_get_schema (tbl : string) : outcome ConnectorError Schema :=
  json ← fetch (table_url tbl);
  parse_iceberg_schema (index (index json "metadata") "current-schema").
Definition iceberg_discover : outcome ConnectorError (list string) :=
  json ← fetch tables_url;
  Ok (texts_at "name" (elements_of (index json "identifiers"))).
End Iceberg.

(** ** The active files of a Delta table *)

Lemma active_files_iff hash_iter entries p :
  (∀ s : gset string, hash_iter s ≡ₚ elements s) →
  NoDup (resolve_active_files hash_iter entries) ∧
  (p ∈ resolve_active_files hash_iter entries ↔
     ∃ pre e post, entries = pre ++ e :: post ∧ added e = Some p ∧ Forall (λ e, removed e ≠ Some p) (e :: post)).
Proof.
  intros Hiter. unfold resolve_active_files. split; [rewrite Hiter; apply NoDup_elements|].
  rewrite Hiter, elem_of_elements. induction entries as [|e es IH] using rev_ind.
  - split; [set_solver|]. by intros ([|? ?] & ? & ? & ? & _).
  - rewrite foldl_app. cbn [foldl]. unfold replay.
    assert (p ∈ (match added e with Some p => {[p]} ∪ foldl replay ∅ es | None => foldl replay ∅ es end) ↔
            added e = Some p ∨ p ∈ foldl replay ∅ es) as Hadd.
    { destruct (added e); set_solver. }
    transitivity ((added e = Some p ∨ p ∈ foldl replay ∅ es) ∧ removed e ≠ Some p).
    { rewrite <- Hadd. destruct (removed e); set_solver. }
    rewrite IH. split.
    + intros [[Ha|(pre & e' & post & -> & Ha & Hf)] Hr].
      * exists es, e, []. split_and!; [done..|]. by constructor.
      * exists pre, e', (post ++ [e]). split_and!; [by rewrite <- (assoc_L (++))|done|].
        rewrite app_comm_cons. apply Forall_app. split; [done|by constructor].
    + intros (pre & e' & post & E & Ha & Hf). destruct post as [|x post _] using rev_ind.
      * apply app_inj_tail in E as [-> ->]. apply Forall_cons in Hf as [Hr _]. auto.
      * rewrite app_comm_cons, (assoc_L (++)) in E. apply app_inj_tail in E as [-> ->].
        rewrite app_comm_cons in Hf. apply Forall_app in Hf as [Hf Hr]. apply (proj1 (Forall_singleton _ _)) in Hr. split; [|exact Hr]. right.
        by exists pre, e', post.
Qed.

(** *** Log files are replayed in the order of their versions *)

(** Decimal digits of a number below [10 ^ w]. *)
Fixpoint pad (w : nat) (n : N) : string :=
  match w with
  | 0 => EmptyString
  | S w => String (ascii_of_N (48 + n / 10 ^ N.of_nat w)) (pad w (n mod 10 ^ N.of_nat w))
  end.
(** A file of the log: its version with twenty digits. *)
Definition version_name (dir : string) (v : N) : string := dir +:+ pad 20 v +:+ ".json".

Lemma compare_app p s t : String.compare (p +:+ s) (p +:+ t) = String.compare s t.
Proof.
  induction p as [|a p IH]; [done|]. rewrite !str_app_cons. cbn. unfold Ascii.compare. by rewrite N.compare_refl.
Qed.

Lemma pad_monotone w s n m :
  (n ≤ m)%N → (m < 10 ^ N.of_nat w)%N → String.compare (pad w n +:+ s) (pad w m +:+ s) ≠ Gt.
Proof.
  revert n m. induction w as [|w IH]; intros n m Hnm Hm.
  - apply (string_sort_le s s). reflexivity.
  - cbn [pad]. rewrite !str_app_cons. cbn [String.compare]. rewrite Nat2N.inj_succ, N.pow_succ_r' in Hm.
    set (b := (10 ^ N.of_nat w)%N) in *. assert (b ≠ 0)%N as Hb by (by apply N.pow_nonzero).
    assert (m / b < 10)%N as Hd by (apply N.Div0.div_lt_upper_bound; lia).
    assert (n / b ≤ m / b)%N as Hle by (by apply N.Div0.div_le_mono).
    unfold Ascii.compare. rewrite !N_ascii_embedding by lia.
    destruct (N.compare_spec (48 + n / b) (48 + m / b)) as [E|E|E]; [|done|lia].
    apply IH; [|by apply N.mod_lt].
    pose proof (N.div_mod n b Hb). pose proof (N.div_mod m b Hb). assert (n / b = m / b)%N as Eq by lia. rewrite Eq in *. lia.
Qed.

Lemma version_name_le dir v w :
  (v ≤ w)%N → (w < 10 ^ 20)%N → String.le (version_name dir v) (version_name dir w).
Proof. intros. apply string_sort_le. unfold sort_le, version_name. rewrite compare_app. by apply pad_monotone. Qed.

(** Sorting the names puts the versions in order. *)
Lemma log_files_by_version dir objects vs :
  filter (λ p, ends_with ".json" p = true) objects ≡ₚ version_name dir <$> vs → Forall (λ v, v < 10 ^ 20)%N vs →
  log_files objects = version_name dir <$> merge_sort N.le vs.
Proof.
  intros Hf Hvs. unfold log_files. apply (StronglySorted_unique String.le).
  - apply (StronglySorted_merge_sort String.le).
  - assert (Forall (λ v, v < 10 ^ 20)%N (merge_sort N.le vs)) as Hs by by rewrite merge_sort_Permutation.
    pose proof (StronglySorted_merge_sort N.le vs) as Hsort. revert Hs.
    induction Hsort as [|v l _ IH Hv]; intros Hs; [constructor|]. apply Forall_cons in Hs as [Hv0 Hs]. cbn.
    constructor; [by apply IH|]. apply Forall_fmap. rewrite Forall_forall in *. intros w Hw.
    apply version_name_le; auto.
  - by rewrite !merge_sort_Permutation, Hf.
Qed.

Lemma log_entries_all {A} (log : A → string) (text : A → string) read_log parse_line l :
  (∀ v, v ∈ l → read_log (log v) = Ok (text v)) →
  log_entries read_log parse_line (log <$> l) = Ok (omap parse_line (concat (log_lines ∘ text <$> l))).
Proof.
  induction l as [|v l IH]; intros Hr; [done|]. cbn [fmap list_fmap log_entries].
  rewrite (Hr v) by by left. cbn [map_err mbind outcome_bind]. rewrite IH by (intros; apply Hr; by right).
  cbn. by rewrite omap_app.
Qed.


(** A line that cannot be parsed is skipped: a removal that is one leaves its file
    in the table. *)
Definition demo_line (l : string) : option DeltaLogEntry :=
  if String.eqb l "add f" then Some (mkEntry (Some (mkAdd "f" None None)) None None)
  else if String.eqb l "remove f" then Some (mkEntry None (Some "f") None)
  else None.


(** The version of the configuration changes nothing. *)
Lemma version_is_never_read hash_iter read_log parse_line list_log id uri v w :
  connector_files hash_iter read_log parse_line list_log (mkDelta id uri v) = connector_files hash_iter read_log parse_line list_log (mkDelta id uri w).
Proof. done. Qed.

Lemma unreadable_removal_ignored hash_iter read_log objects :
  log_files objects = ["1.json"; "2.json"] →
  read_log "1.json" = Ok "add f" → read_log "2.json" = Ok "remove  f" →
  resolve_files hash_iter read_log demo_line (Ok objects) = Ok (hash_iter {[ "f" ]}).
Proof.
  intros Hl H1 H2. unfold resolve_files. cbn [map_err mbind outcome_bind]. rewrite Hl. cbn [log_entries].
  rewrite H1, H2. reflexivity.
Qed.

(** ** The files of an Iceberg table *)

Lemma manifest_files_all http_get paths mdata :
  (∀ p, p ∈ paths → http_get p = Body (mdata p)) →
  manifest_files http_get paths =
    Ok (concat ((λ p, omap entry_path (elements_of (index (mdata p) "entries"))) <$> paths)).
Proof.
  induction paths as [|p paths IH]; intros Hg; [done|]. cbn [manifest_files]. unfold fetch_or.
  rewrite (Hg p) by by left. cbn [mbind outcome_bind]. rewrite IH by (intros; apply Hg; by right). done.
Qed.

(** The files read for an Iceberg table are the paths that the manifests of the
    table's last snapshot list, in their order; when the manifest list cannot be
    read as JSON the table has no files but those named in the snapshot, and no
    error is reported. *)
Theorem iceberg_reads_last_snapshot catalog_url namespace http_get tbl meta older snapshot url :
  http_get (table_url catalog_url namespace tbl) = Body meta →
  index (index meta "metadata") "snapshots" = JArray (older ++ [snapshot]) →
  index snapshot "manifest-list" = JString url →
  (∀ ml mdata, http_get url = Body ml →
     (∀ p, p ∈ extract_manifest_paths ml → http_get p = Body (mdata p)) →
     let listed := concat ((λ p, omap entry_path (elements_of (index (mdata p) "entries"))) <$> extract_manifest_paths ml) in
     listed ≠ [] → resolve_data_files catalog_url namespace http_get tbl = Ok listed) ∧
  (∀ e, http_get url = BadBody e →
     resolve_data_files catalog_url namespace http_get tbl = Ok (omap as_str (elements_of (index snapshot "data_files")))).
Proof.
  intros Hm Hs Hu.
  assert (resolve_data_files catalog_url namespace http_get tbl =
    manifest_json ← fetch_or http_get "failed to fetch manifest list: " url (JObject [("manifests", JArray [])]);
    data_files ← manifest_files http_get (extract_manifest_paths manifest_json);
    Ok match data_files with [] => omap as_str (elements_of (index snapshot "data_files")) | _ => data_files end) as ->.
  { unfold resolve_data_files, fetch. rewrite Hm. cbn [mbind outcome_bind]. rewrite Hs.
    cbn [as_array ok_or mbind outcome_bind]. rewrite last_snoc. cbn [ok_or mbind outcome_bind]. by rewrite Hu. }
  unfold fetch_or. split; [|by intros e ->].
  intros ml mdata Hml Hp Hne. rewrite Hml. cbn [mbind outcome_bind].
  rewrite (manifest_files_all _ _ mdata) by done. cbn [mbind outcome_bind]. by destruct (concat _).
Qed.

Lemma iceberg_reads_last_snapshot_witness :
  let manifest := JObject [("entries", JArray [JObject [("data_file", JObject [("file_path", JString "f")])]])] in
  let snapshot := JObject [("manifest-list", JString "ml")] in
  let get u := if String.eqb u "ml" then Body (JObject [("manifests", JArray [JObject [("manifest_path", JString "m")]])])
               else if String.eqb u "m" then Body manifest
               else Body (JObject [("metadata", JObject [("snapshots", JArray [snapshot])])]) in
  resolve_data_files "c" "n" get "t" = Ok ["f"].
Proof.
  intros manifest snapshot get.
  destruct (iceberg_reads_last_snapshot "c" "n" get "t" (JObject [("metadata", JObject [("snapshots", JArray [snapshot])])])
    [] snapshot "ml") as [H _]; [reflexivity..|].
  exact (H _ (λ _, manifest) eq_refl ltac:(intros p Hp; apply list_elem_of_singleton in Hp as ->; reflexivity)
    ltac:(discriminate)).
Defined.

(** An entry that the snapshot marks as deleted is read all the same. *)
Lemma deleted_entry_read entry path status :
  entry = JObject [("status", status); ("data_file", JObject [("file_path", JString path)])] →
  entry_path entry = Some path.
Proof. by intros ->. Qed.
