(* ===== verification/Otel.v ===== *)
(** * Otel: the in-memory telemetry store and its connector

    Models [crates/fuse-connectors/otel/src/store.rs] and [lib.rs]: three bounded
    queues of spans, metrics and log records, the time range and service that are
    taken from a filter, and the queries.  A lock-protected queue is a list,
    oldest entry first.

    The theorems: a queue holds the newest entries up to its capacity; a query
    returns the stored entries that pass the extracted condition, newest first,
    and the extracted condition loses no entry that the filter keeps. *)

From S2P Require Import Prelude Strs Arrow ArrowRef Connector Tabular Logs.
From stdpp Require Import base list strings.
From Stdlib Require Import NArith ZArith Lia.

(** ** Rows *)

Record SpanRow : Type := mkSpan {
  sp_trace_id : string; sp_span_id : string; sp_parent_span_id : option string; sp_service_name : string;
  sp_operation : string; sp_status : string; sp_start_time_ns : Z; sp_end_time_ns : Z; sp_duration_ns : Z;
  sp_attributes : option string;
}.

Record MetricRow : Type := mkMetric {
  mt_name : string; mt_description : option string; mt_unit : option string; mt_metric_type : string;
  mt_value : string; mt_timestamp_ns : Z; mt_labels : option string; mt_service_name : option string;
}.

Record LogRow : Type := mkLog {
  lg_timestamp_ns : Z; lg_severity : string; lg_body : string; lg_service_name : option string;
  lg_trace_id : option string; lg_span_id : option string; lg_attributes : option string;
}.

Definition spans_schema : Schema :=
  [mkField "trace_id" Utf8 false; mkField "span_id" Utf8 false; mkField "parent_span_id" Utf8 true;
   mkField "service_name" Utf8 false; mkField "operation" Utf8 false; mkField "status" Utf8 false;
   mkField "start_time_ns" Int64 false; mkField "end_time_ns" Int64 false; mkField "duration_ns" Int64 false;
   mkField "attributes" Utf8 true].

Definition metrics_schema : Schema :=
  [mkField "name" Utf8 false; mkField "description" Utf8 true; mkField "unit" Utf8 true;
   mkField "metric_type" Utf8 false; mkField "value" Utf8 false; mkField "timestamp_ns" Int64 false;
   mkField "labels" Utf8 true; mkField "service_name" Utf8 true].

Definition logs_schema : Schema :=
  [mkField "timestamp_ns" Int64 false; mkField "severity" Utf8 false; mkField "body" Utf8 false;
   mkField "service_name" Utf8 true; mkField "trace_id" Utf8 true; mkField "span_id" Utf8 true;
   mkField "attributes" Utf8 true].

(** ** The store *)

Record OtelFilter : Type := mkFilter { f_service_name : option string; min_time_ns : option Z; max_time_ns : option Z }.
Definition no_filter : OtelFilter := mkFilter None None None.

Record OtelStore : Type := mkOtel {
  spans : list SpanRow; metrics : list MetricRow; logs : list LogRow;
  max_spans : nat; max_metrics : nat; max_logs : nat;
}.

Definition otel_new (ms mm ml : nat) : OtelStore := mkOtel [] [] [] ms mm ml.
Definition counts (s : OtelStore) : nat * nat * nat := (length (spans s), length (metrics s), length (logs s)).

(** [if q.len() >= max { q.pop_front(); } q.push_back(x)]. *)
Definition ring_push {A} (max : nat) (x : A) (q : list A) : list A :=
  (if max <=? length q then tail q else q) ++ [x].

(** [i64::saturating_sub]. *)
Definition saturating_sub_i64 (a b : Z) : Z := Z.max i64_min (Z.min i64_max (a - b)).

Definition ingest_span (s : OtelStore) (trace_id span_id : string) (parent : option string) (service operation status : string)
    (start_ns end_ns : Z) (attributes : string) : OtelStore :=
  let row := mkSpan trace_id span_id parent service operation status start_ns end_ns (saturating_sub_i64 end_ns start_ns)
               (if String.eqb attributes "" then None else Some attributes) in
  mkOtel (ring_push (max_spans s) row (spans s)) (metrics s) (logs s) (max_spans s) (max_metrics s) (max_logs s).

Definition ingest_metric (s : OtelStore) (name : string) (description unit : option string) (metric_type value : string)
    (timestamp_ns : Z) (labels service : option string) : OtelStore :=
  let row := mkMetric name description unit metric_type value timestamp_ns labels service in
  mkOtel (spans s) (ring_push (max_metrics s) row (metrics s)) (logs s) (max_spans s) (max_metrics s) (max_logs s).

Definition ingest_log (s : OtelStore) (timestamp_ns : Z) (severity body : string)
    (service trace_id span_id attributes : option string) : OtelStore :=
  let row := mkLog timestamp_ns severity body service trace_id span_id attributes in
  mkOtel (spans s) (metrics s) (ring_push (max_logs s) row (logs s)) (max_spans s) (max_metrics s) (max_logs s).

(** ** The condition taken from a filter *)

Definition at_least_op (op : ComparisonOp) : bool := match op with OpGte | OpGt => true | _ => false end.
Definition at_most_op (op : ComparisonOp) : bool := match op with OpLte | OpLt => true | _ => false end.
Definition one_of (field a b : string) : bool := String.eqb field a || String.eqb field b.

Fixpoint collect_filter (expr : FilterExpr) (out : OtelFilter) : OtelFilter :=
  match expr with
  | FAnd l r => collect_filter r (collect_filter l out)
  | FComparison field op v =>
      let s := match v with SUtf8 s => Some s | _ => None end in
      let i := match v with SInt64 n => Some n | _ => None end in
      if String.eqb field "service_name" && bool_decide (op = OpEq) then
        match s with Some v => mkFilter (Some v) (min_time_ns out) (max_time_ns out) | None => out end
      else if one_of field "start_time_ns" "timestamp_ns" && at_least_op op then
        match i with Some v => mkFilter (f_service_name out) (Some v) (max_time_ns out) | None => out end
      else if one_of field "end_time_ns" "timestamp_ns" && at_most_op op then
        match i with Some v => mkFilter (f_service_name out) (min_time_ns out) (Some v) | None => out end
      else out
  | _ => out
  end.

Definition extract_otel_filter (f : option FilterExpr) : OtelFilter :=
  match f with Some expr => collect_filter expr no_filter | None => no_filter end.

(** ** Queries *)

(** A bound that is not set holds. *)
Definition check_opt {A} (p : A → bool) (o : option A) : bool := match o with Some a => p a | None => true end.

Definition span_matches (f : OtelFilter) (r : SpanRow) : bool :=
  check_opt (λ svc, String.eqb (sp_service_name r) svc) (f_service_name f) &&
  check_opt (λ min, negb (sp_end_time_ns r <? min)%Z) (min_time_ns f) &&
  check_opt (λ max, negb (max <? sp_start_time_ns r)%Z) (max_time_ns f).

Definition stamped_matches (f : OtelFilter) (service : option string) (timestamp_ns : Z) : bool :=
  check_opt (λ svc, bool_decide (service = Some svc)) (f_service_name f) &&
  check_opt (λ min, negb (timestamp_ns <? min)%Z) (min_time_ns f) &&
  check_opt (λ max, negb (max <? timestamp_ns)%Z) (max_time_ns f).
Definition metric_matches (f : OtelFilter) (r : MetricRow) : bool := stamped_matches f (mt_service_name r) (mt_timestamp_ns r).
Definition log_matches (f : OtelFilter) (r : LogRow) : bool := stamped_matches f (lg_service_name r) (lg_timestamp_ns r).

(** The rows of a query: newest first, those that match, up to the limit; nothing
    when there is none. *)
Definition query_rows {R} (matches : R → bool) (limit : option N) (q : list R) : option (list R) :=
  match filter (λ r, matches r = true) (reverse q) with
  | [] => None
  | filtered => Some (take (match limit with Some l => min (length filtered) (N.to_nat l) | None => length filtered end) filtered)
  end.

Definition str_col (l : list string) : Array := mkArray Utf8 (Some ∘ VUtf8 <$> l).
Definition opt_col (l : list (option string)) : Array := mkArray Utf8 ((λ o : option string, VUtf8 <$> o) <$> l).
Definition int_col (l : list Z) : Array := mkArray Int64 (Some ∘ VInt <$> l).

Definition span_columns (rows : list SpanRow) : list Array :=
  [str_col (sp_trace_id <$> rows); str_col (sp_span_id <$> rows); opt_col (sp_parent_span_id <$> rows);
   str_col (sp_service_name <$> rows); str_col (sp_operation <$> rows); str_col (sp_status <$> rows);
   int_col (sp_start_time_ns <$> rows); int_col (sp_end_time_ns <$> rows); int_col (sp_duration_ns <$> rows);
   opt_col (sp_attributes <$> rows)].
Definition metric_columns (rows : list MetricRow) : list Array :=
  [str_col (mt_name <$> rows); opt_col (mt_description <$> rows); opt_col (mt_unit <$> rows);
   str_col (mt_metric_type <$> rows); str_col (mt_value <$> rows); int_col (mt_timestamp_ns <$> rows);
   opt_col (mt_labels <$> rows); opt_col (mt_service_name <$> rows)].
Definition log_columns (rows : list LogRow) : list Array :=
  [int_col (lg_timestamp_ns <$> rows); str_col (lg_severity <$> rows); str_col (lg_body <$> rows);
   opt_col (lg_service_name <$> rows); opt_col (lg_trace_id <$> rows); opt_col (lg_span_id <$> rows);
   opt_col (lg_attributes <$> rows)].

Section Queries.
Context `{K : ArrowKernels}.

Definition query_spans_filtered (s : OtelStore) (limit : option N) (f : OtelFilter) : option RecordBatch :=
  rows ← query_rows (span_matches f) limit (spans s); ok_value (try_new spans_schema (span_columns rows)).
Definition query_spans (s : OtelStore) (limit : option N) : option RecordBatch := query_spans_filtered s limit no_filter.

Definition query_metrics_filtered (s : OtelStore) (limit : option N) (f : OtelFilter) : option RecordBatch :=
  rows ← query_rows (metric_matches f) limit (metrics s); ok_value (try_new metrics_schema (metric_columns rows)).
Definition query_metrics (s : OtelStore) (limit : option N) : option RecordBatch := query_metrics_filtered s limit no_filter.

Definition query_logs_filtered (s : OtelStore) (limit : option N) (f : OtelFilter) : option RecordBatch :=
  rows ← query_rows (log_matches f) limit (logs s); ok_value (try_new logs_schema (log_columns rows)).
Definition query_logs (s : OtelStore) (limit : option N) : option RecordBatch := query_logs_filtered s limit no_filter.

Definition otel_get_schema (tbl : string) : outcome ConnectorError Schema :=
  if String.eqb tbl "spans" then Ok spans_schema
  else if String.eqb tbl "metrics" then Ok metrics_schema
  else if String.eqb tbl "logs" then Ok logs_schema
  else Err (QueryFailed ("table not found: " +:+ tbl)).

Definition otel_execute (s : OtelStore) (q : SubQuery) : outcome ConnectorError (list RecordBatch) :=
  let f := extract_otel_filter (filter_expr q) in
  batch ← (if String.eqb (table q) "spans" then Ok (query_spans_filtered s (limit q) f)
           else if String.eqb (table q) "metrics" then Ok (query_metrics_filtered s (limit q) f)
           else if String.eqb (table q) "logs" then Ok (query_logs_filtered s (limit q) f)
           else Err (QueryFailed ("table not found: " +:+ table q)));
  match batch with Some b => Ok [b] | None => Ok [] end.
End Queries.

(** ** Specification: rows as the filter sees them *)

Definition opt_scalar (o : option string) : ScalarValue := match o with Some s => SUtf8 s | None => Null end.
Definition lookup_field (fields : list (string * ScalarValue)) (f : string) : ScalarValue :=
  match List.find (λ p, String.eqb (fst p) f) fields with Some p => snd p | None => Null end.

Definition span_env (r : SpanRow) : string → ScalarValue := lookup_field
  [("trace_id", SUtf8 (sp_trace_id r)); ("span_id", SUtf8 (sp_span_id r)); ("parent_span_id", opt_scalar (sp_parent_span_id r));
   ("service_name", SUtf8 (sp_service_name r)); ("operation", SUtf8 (sp_operation r)); ("status", SUtf8 (sp_status r));
   ("start_time_ns", SInt64 (sp_start_time_ns r)); ("end_time_ns", SInt64 (sp_end_time_ns r));
   ("duration_ns", SInt64 (sp_duration_ns r)); ("attributes", opt_scalar (sp_attributes r))].
Definition metric_env (r : MetricRow) : string → ScalarValue := lookup_field
  [("name", SUtf8 (mt_name r)); ("description", opt_scalar (mt_description r)); ("unit", opt_scalar (mt_unit r));
   ("metric_type", SUtf8 (mt_metric_type r)); ("value", SUtf8 (mt_value r)); ("timestamp_ns", SInt64 (mt_timestamp_ns r));
   ("labels", opt_scalar (mt_labels r)); ("service_name", opt_scalar (mt_service_name r))].
Definition log_env (r : LogRow) : string → ScalarValue := lookup_field
  [("timestamp_ns", SInt64 (lg_timestamp_ns r)); ("severity", SUtf8 (lg_severity r)); ("body", SUtf8 (lg_body r));
   ("service_name", opt_scalar (lg_service_name r)); ("trace_id", opt_scalar (lg_trace_id r));
   ("span_id", opt_scalar (lg_span_id r)); ("attributes", opt_scalar (lg_attributes r))].

(** ** Lemmas *)

(** A queue holds the newest entries up to its capacity. *)
Lemma ring_newest {A} max (xs : list A) :
  0 < max → foldl (λ q x, ring_push max x q) [] xs = last_n max xs.
Proof.
  intros Hmax. induction xs as [|x xs IH] using rev_ind; [done|].
  rewrite foldl_app, IH. cbn [foldl]. unfold ring_push. by rewrite last_n_snoc.
Qed.

(** A store made for no entries holds one. *)
Lemma ring_zero {A} (x : A) q : length q ≤ 1 → ring_push 0 x q = [x].
Proof. unfold ring_push. destruct q as [|y [|z q]]; cbn; [done..|lia]. Qed.

Section Extract.
Context (cmp : ComparisonOp → ScalarValue → ScalarValue → bool).

(** Strings are equal when they are the same, times are compared as numbers. *)
Definition compares_times : Prop :=
  (∀ a b, cmp OpEq (SUtf8 a) (SUtf8 b) = true → a = b) ∧
  (∀ x s, cmp OpEq x (SUtf8 s) = true → ∃ t, x = SUtf8 t) ∧
  (∀ op x b, at_least_op op = true → cmp op x (SInt64 b) = true → ∃ a, x = SInt64 a ∧ (b ≤ a)%Z) ∧
  (∀ op x b, at_most_op op = true → cmp op x (SInt64 b) = true → ∃ a, x = SInt64 a ∧ (a ≤ b)%Z).
Hypothesis cmp_ok : compares_times.

(** What the extracted condition says of a row. *)
Definition implied (env : string → ScalarValue) (out : OtelFilter) : Prop :=
  (∀ s, f_service_name out = Some s → env "service_name" = SUtf8 s) ∧
  (∀ v, min_time_ns out = Some v →
     ∃ t, (v ≤ t)%Z ∧ (env "start_time_ns" = SInt64 t ∨ env "timestamp_ns" = SInt64 t)) ∧
  (∀ v, max_time_ns out = Some v →
     ∃ t, (t ≤ v)%Z ∧ (env "end_time_ns" = SInt64 t ∨ env "timestamp_ns" = SInt64 t)).

Lemma kept_comparison env field op v :
  keeps cmp env (FComparison field op v) → cmp op (env field) v = true.
Proof. unfold keeps. cbn. unfold tri_cmp. destruct (env field), v; naive_solver. Qed.

Lemma one_of_true field a b : one_of field a b = true → field = a ∨ field = b.
Proof. unfold one_of. rewrite orb_true_iff, !String.eqb_eq. done. Qed.

Lemma collect_implied env f out : keeps cmp env f → implied env out → implied env (collect_filter f out).
Proof.
  destruct cmp_ok as (Heq & Hstr & Hge & Hle).
  revert out. induction f as [l IHl r IHr| | |field op v| | |]; intros out HK Himp; cbn [collect_filter]; try done.
  - apply keeps_and in HK as [Kl Kr]. auto.
  - apply kept_comparison in HK. destruct Himp as (Hs & Hmin & Hmax).
    destruct (String.eqb field "service_name" && bool_decide (op = OpEq)) eqn:E1.
    { apply andb_prop in E1 as [->%String.eqb_eq ->%bool_decide_eq_true]. destruct v; try done.
      split_and!; [|done..]. cbn. intros s' [= <-]. destruct (Hstr _ _ HK) as [t Et]. rewrite Et in *. by apply Heq in HK as ->. }
    destruct (one_of field "start_time_ns" "timestamp_ns" && at_least_op op) eqn:E2.
    { apply andb_prop in E2 as [Hf%one_of_true Hop]. destruct v; try done. split_and!; [done| |done].
      cbn. intros v [= <-]. destruct (Hge _ _ _ Hop HK) as (a & Ea & Hab). exists a. split; [done|].
      destruct Hf as [-> | ->]; auto. }
    destruct (one_of field "end_time_ns" "timestamp_ns" && at_most_op op) eqn:E3; [|done].
    apply andb_prop in E3 as [Hf%one_of_true Hop]. destruct v; try done. split_and!; [done..|].
    cbn. intros v [= <-]. destruct (Hle _ _ _ Hop HK) as (a & Ea & Hab). exists a. split; [done|].
    destruct Hf as [-> | ->]; auto.
Qed.

Lemma extract_implied env f : keeps_opt cmp env f → implied env (extract_otel_filter f).
Proof. destruct f as [f|]; [|done]. intros HK. by apply collect_implied. Qed.

Lemma kept_span r f :
  (sp_start_time_ns r ≤ sp_end_time_ns r)%Z → keeps_opt cmp (span_env r) f → span_matches (extract_otel_filter f) r = true.
Proof.
  intros Hr (Hs & Hmin & Hmax)%extract_implied. unfold span_matches. rewrite !andb_true_iff. split_and!.
  - destruct (f_service_name _); [|done]. specialize (Hs _ eq_refl). injection Hs as ->. apply String.eqb_refl.
  - destruct (min_time_ns _); [|done]. destruct (Hmin _ eq_refl) as (t & Ht & [[= <-]|[=]]). cbn.
    apply negb_true_iff, Z.ltb_ge. lia.
  - destruct (max_time_ns _); [|done]. destruct (Hmax _ eq_refl) as (t & Ht & [[= <-]|[=]]). cbn.
    apply negb_true_iff, Z.ltb_ge. lia.
Qed.

(** Metrics and logs have one time and may have no service. *)
Lemma kept_stamped env service ts f :
  env "service_name" = opt_scalar service → env "timestamp_ns" = SInt64 ts →
  env "start_time_ns" = Null → env "end_time_ns" = Null →
  keeps_opt cmp env f → stamped_matches (extract_otel_filter f) service ts = true.
Proof.
  intros Es Et E1 E2 (Hs & Hmin & Hmax)%extract_implied. unfold stamped_matches. rewrite !andb_true_iff. split_and!.
  - destruct (f_service_name _); [|done]. specialize (Hs _ eq_refl). cbn. apply bool_decide_eq_true.
    rewrite Es in Hs. destruct service; naive_solver.
  - destruct (min_time_ns _); [|done]. destruct (Hmin _ eq_refl) as (t & Ht & [H|H]); [congruence|].
    cbn. apply negb_true_iff, Z.ltb_ge. assert (t = ts) by congruence. lia.
  - destruct (max_time_ns _); [|done]. destruct (Hmax _ eq_refl) as (t & Ht & [H|H]); [congruence|].
    cbn. apply negb_true_iff, Z.ltb_ge. assert (t = ts) by congruence. lia.
Qed.
End Extract.

(** ** What a query returns *)

Definition otel_cells (out : list RecordBatch) : list (list cell) := concat (batch_rows <$> out).
Definition up_to {A} (lim : option N) (l : list A) : list A := match lim with Some n => take (N.to_nat n) l | None => l end.

(** The entries a query goes through: newest first, those that match. *)
Definition newest_matching {R} (matches : R → bool) (q : list R) : list R := filter (λ r, matches r = true) (reverse q).

Lemma query_rows_up_to {R} matches lim (q : list R) :
  query_rows matches lim q = match newest_matching matches q with [] => None | l => Some (up_to lim l) end.
Proof.
  unfold query_rows, newest_matching. destruct (filter _ _) as [|r l]; [done|]. f_equal.
  destruct lim as [n|]; cbn [up_to]; [|by rewrite take_ge by done].
  destruct (decide (N.to_nat n ≤ length (r :: l))); [by rewrite Nat.min_r by done|].
  rewrite Nat.min_l by lia. by rewrite !take_ge by lia.
Qed.

Definition time_cell (z : Z) : cell := Some (VInt z).

Definition span_fields : list (Field * (SpanRow → cell)) := zip spans_schema
  [text_cell ∘ sp_trace_id; text_cell ∘ sp_span_id; opt_cell ∘ sp_parent_span_id; text_cell ∘ sp_service_name;
   text_cell ∘ sp_operation; text_cell ∘ sp_status; time_cell ∘ sp_start_time_ns; time_cell ∘ sp_end_time_ns;
   time_cell ∘ sp_duration_ns; opt_cell ∘ sp_attributes].
Definition metric_fields : list (Field * (MetricRow → cell)) := zip metrics_schema
  [text_cell ∘ mt_name; opt_cell ∘ mt_description; opt_cell ∘ mt_unit; text_cell ∘ mt_metric_type; text_cell ∘ mt_value;
   time_cell ∘ mt_timestamp_ns; opt_cell ∘ mt_labels; opt_cell ∘ mt_service_name].
Definition log_fields : list (Field * (LogRow → cell)) := zip logs_schema
  [time_cell ∘ lg_timestamp_ns; text_cell ∘ lg_severity; text_cell ∘ lg_body; opt_cell ∘ lg_service_name;
   opt_cell ∘ lg_trace_id; opt_cell ∘ lg_span_id; opt_cell ∘ lg_attributes].

Lemma span_columns_built rows : span_columns rows = built_columns span_fields rows.
Proof. unfold span_columns, str_col, opt_col, int_col. by rewrite <- !list_fmap_compose. Qed.
Lemma metric_columns_built rows : metric_columns rows = built_columns metric_fields rows.
Proof. unfold metric_columns, str_col, opt_col, int_col. by rewrite <- !list_fmap_compose. Qed.
Lemma log_columns_built rows : log_columns rows = built_columns log_fields rows.
Proof. unfold log_columns, str_col, opt_col, int_col. by rewrite <- !list_fmap_compose. Qed.

(** The answer to a query: the matching entries, newest first, up to the limit. *)
Lemma otel_answer `{K : ArrowKernels, !ArrowLaws K} {R} (fs : list (Field * (R → cell))) matches lim (entries : list R)
    (build : list R → outcome ArrowError RecordBatch) :
  fs ≠ [] → Forall (λ f, nullable f.1 = true ∨ ∀ r, f.2 r ≠ None) fs →
  (∀ rows, build rows = try_new fs.*1 (built_columns fs rows)) →
  ∃ out, match (rows ← query_rows matches lim entries; ok_value (build rows)) with Some b => Ok [b] | None => Ok [] end
           = Ok (E := ConnectorError) out ∧
         otel_cells out = entry_cells fs <$> up_to lim (newest_matching matches entries).
Proof.
  intros Hne Hnull Hbuild. rewrite query_rows_up_to. destruct (newest_matching matches entries) as [|r l].
  - exists []. split; [done|]. destruct lim as [n|]; cbn; [by rewrite take_nil|done].
  - cbn [mbind option_bind]. rewrite Hbuild. destruct (built_batch fs (up_to lim (r :: l)) Hne Hnull) as (b & -> & Hb & _).
    exists [b]. split; [done|]. unfold otel_cells. cbn. by rewrite app_nil_r, Hb.
Qed.

Ltac non_null := repeat (apply Forall_cons_2; [cbn; first [by left|by right; intros ?]|]); by apply Forall_nil_2.

(** A query of the telemetry store returns, newest first and up to the limit,
    the stored entries that pass the service and time range taken from its
    filter, each with its cells; an entry the filter keeps passes, if it is a span
    that does not end before it starts, a metric or a log record. *)
Theorem otel_returns_kept_entries `{K : ArrowKernels, !ArrowLaws K} cmp s q :
  compares_times cmp →
  let f := extract_otel_filter (filter_expr q) in
  (table q = "spans" →
     (∃ out, otel_execute s q = Ok out ∧
        otel_cells out = entry_cells span_fields <$> up_to (limit q) (newest_matching (span_matches f) (spans s))) ∧
     ∀ r, r ∈ spans s → (sp_start_time_ns r ≤ sp_end_time_ns r)%Z → keeps_opt cmp (span_env r) (filter_expr q) →
       r ∈ newest_matching (span_matches f) (spans s)) ∧
  (table q = "metrics" →
     (∃ out, otel_execute s q = Ok out ∧
        otel_cells out = entry_cells metric_fields <$> up_to (limit q) (newest_matching (metric_matches f) (metrics s))) ∧
     ∀ r, r ∈ metrics s → keeps_opt cmp (metric_env r) (filter_expr q) → r ∈ newest_matching (metric_matches f) (metrics s)) ∧
  (table q = "logs" →
     (∃ out, otel_execute s q = Ok out ∧
        otel_cells out = entry_cells log_fields <$> up_to (limit q) (newest_matching (log_matches f) (logs s))) ∧
     ∀ r, r ∈ logs s → keeps_opt cmp (log_env r) (filter_expr q) → r ∈ newest_matching (log_matches f) (logs s)).
Proof.
  intros Hcmp f. unfold otel_execute. fold f. split_and!; intros Ht; rewrite Ht; cbn [String.eqb Ascii.eqb Bool.eqb mbind outcome_bind].
  all: split; [|intros r Hr; intros; apply list_elem_of_filter; split; [|by apply elem_of_reverse]].
  - apply (otel_answer span_fields); [done|non_null|]. intros rows. by rewrite span_columns_built.
  - by eapply kept_span.
  - apply (otel_answer metric_fields); [done|non_null|]. intros rows. by rewrite metric_columns_built.
  - by eapply (kept_stamped cmp Hcmp (metric_env r)).
  - apply (otel_answer log_fields); [done|non_null|]. intros rows. by rewrite log_columns_built.
  - by eapply (kept_stamped cmp Hcmp (log_env r)).
Qed.

(** Comparisons of strings and numbers, for the example. *)
Definition plain_cmp (op : ComparisonOp) (x y : ScalarValue) : bool :=
  match op, x, y with
  | OpEq, SUtf8 a, SUtf8 b => String.eqb a b
  | OpGte, SInt64 a, SInt64 b => (b <=? a)%Z
  | OpGt, SInt64 a, SInt64 b => (b <? a)%Z
  | OpLte, SInt64 a, SInt64 b => (a <=? b)%Z
  | OpLt, SInt64 a, SInt64 b => (a <? b)%Z
  | _, _, _ => false
  end.

Lemma plain_cmp_times : compares_times plain_cmp.
Proof.
  split_and!.
  - intros a b. apply String.eqb_eq.
  - intros [] t; cbn; try done. by eexists.
  - intros [] [] v; cbn; try done; intros _ H; eexists; (split; [done|lia]).
  - intros [] [] v; cbn; try done; intros _ H; eexists; (split; [done|lia]).
Qed.

Lemma otel_returns_kept_entries_witness :
  let s := ingest_span (otel_new 5 5 5) "t" "s" None "api" "op" "ok" 10 20 "" in
  let q := mkSubQuery "spans" [] (Some (FComparison "start_time_ns" OpGte (SInt64 10))) [] [] None [] None None None in
  ∃ out, otel_execute (K := RefArrow) s q = Ok out ∧
    otel_cells out = [[text_cell "t"; text_cell "s"; None; text_cell "api"; text_cell "op"; text_cell "ok";
                       time_cell 10; time_cell 20; time_cell 10; None]].
Proof.
  intros s q. destruct (otel_returns_kept_entries (K := RefArrow) plain_cmp s q plain_cmp_times) as (H & _).
  exact (proj1 (H eq_refl)).
Defined.

(** A span recorded as ending before it starts is lost to a query for its start. *)
Lemma backward_span_lost :
  let r := mkSpan "t" "s" None "api" "op" "ok" 10 5 (-5) None in
  let f := FComparison "start_time_ns" OpGte (SInt64 10) in
  keeps plain_cmp (span_env r) f ∧ span_matches (extract_otel_filter (Some f)) r = false.
Proof. split; reflexivity. Qed.
