(* ===== verification/QueryDsl.v ===== *)
(** * QueryDsl: the query bodies sent to OpenSearch and Elasticsearch

    Models [crates/fuse-connectors/opensearch/src/pushdown.rs] and
    [crates/fuse-connectors/elasticsearch/src/pushdown.rs]: a [SubQuery] becomes
    a JSON body.  A [serde_json::Map] is kept in the order of its keys. *)

From S2P Require Import Prelude Strs Float Json JsonRef Sorting Connector SqlText Tabular.
From stdpp Require Import base list gmap strings pretty.
From Stdlib Require Import NArith ZArith Lia Ascii SpecFloat.

Abbreviation json_map := (gmap string Value).
Definition obj1 (k : string) (v : Value) : Value := JObject [(k, v)].
Definition obj_of (m : json_map) : Value := JObject (btree_entries m).
Definition jint (z : Z) : Value := JNumber (NInt z).

Section Dsl.
Context `{J : JsonOps} `{F : F64Display}.

(** [json!(f)] of a float: null when it is not finite. *)
Definition jfloat (f : spec_float) : Value := match number_from_f64 f with Some n => JNumber n | None => JNull end.

(** ** OpenSearch *)

Definition scalar_to_json (v : ScalarValue) : Value :=
  match v with
  | Null => JNull
  | SBoolean b => JBool b
  | SInt64 n => jint n
  | SFloat64 f => jfloat f
  | SUtf8 s => JString s
  end.

(** [pattern.replace('%', "*").replace('_', "?")]. *)
Definition to_wildcard (pattern : string) : string := replace "_" "?" (replace "%" "*" pattern).
Definition match_all : Value := obj1 "match_all" (JObject []).
Definition must_not (q : Value) : Value := obj1 "bool" (obj1 "must_not" (JArray [q])).

Definition translate_comparison (field : string) (op : ComparisonOp) (value : ScalarValue) : Value :=
  let val := scalar_to_json value in
  match op with
  | OpEq => obj1 "term" (obj1 field val)
  | OpNeq => must_not (obj1 "term" (obj1 field val))
  | OpLt => obj1 "range" (obj1 field (obj1 "lt" val))
  | OpLte => obj1 "range" (obj1 field (obj1 "lte" val))
  | OpGt => obj1 "range" (obj1 field (obj1 "gt" val))
  | OpGte => obj1 "range" (obj1 field (obj1 "gte" val))
  | OpLike =>
      match value with
      | SUtf8 pattern => obj1 "wildcard" (obj1 field (obj1 "value" (JString (to_wildcard pattern))))
      | _ => match_all
      end
  | OpILike =>
      match value with
      | SUtf8 pattern =>
          obj1 "wildcard" (obj1 field (JObject [("case_insensitive", JBool true); ("value", JString (to_wildcard pattern))]))
      | _ => match_all
      end
  | OpContains => obj1 "match" (obj1 field (obj1 "query" val))
  end.

Fixpoint translate_filter (expr : FilterExpr) : Value :=
  match expr with
  | FAnd l r => obj1 "bool" (obj1 "must" (JArray [translate_filter l; translate_filter r]))
  | FOr l r =>
      obj1 "bool" (JObject [("minimum_should_match", jint 1); ("should", JArray [translate_filter l; translate_filter r])])
  | FNot e => must_not (translate_filter e)
  | FComparison field op v => translate_comparison field op v
  | FIn field vals => obj1 "terms" (obj1 field (JArray (scalar_to_json <$> vals)))
  | FIsNull field => must_not (obj1 "exists" (obj1 "field" (JString field)))
  | FIsNotNull field => obj1 "exists" (obj1 "field" (JString field))
  end.

Definition field_body (kind : string) (agg : AggregationExpr) : Value :=
  obj1 kind (obj1 "field" (JString (default "_id" (agg_field agg)))).
Definition translate_single_agg (agg : AggregationExpr) : Value :=
  match agg_function agg with
  | Count => field_body "value_count" agg
  | CountDistinct | ApproxCountDistinct => field_body "cardinality" agg
  | Sum => field_body "sum" agg
  | Avg => field_body "avg" agg
  | Min => field_body "min" agg
  | Max => field_body "max" agg
  | ApproxPercentile p =>
      obj1 "percentiles" (JObject [("field", JString (default "_id" (agg_field agg))); ("percents", JArray [jfloat p])])
  end.

Definition agg_map (single : AggregationExpr → Value) (aggs : list AggregationExpr) : json_map :=
  foldl (λ m a, <[agg_alias a := single a]> m) ∅ aggs.

Definition translate_aggregations (aggs : list AggregationExpr) (group_by : list string) : Value :=
  match group_by with
  | [] => obj_of (agg_map translate_single_agg aggs)
  | group_field :: _ =>
      obj1 "group_by" (JObject [("aggs", obj_of (agg_map translate_single_agg aggs));
                                ("terms", JObject [("field", JString group_field); ("size", jint 10000)])])
  end.

Definition order_body (s : SortExpr) : Value :=
  obj1 (sort_field s) (obj1 "order" (JString (if sort_descending s then "desc" else "asc"))).
Definition translate_sort (ss : list SortExpr) : Value := JArray (order_body <$> ss).

(** The body up to the passthrough members; the two connectors differ in how they
    translate the filter and the aggregates. *)
Definition dsl_body (filt : FilterExpr → Value) (aggs : list AggregationExpr → list string → Value) (q : SubQuery) : json_map :=
  let body : json_map := match projections q with [] => ∅ | ps => <["_source" := JArray (JString <$> ps)]> ∅ end in
  let body := <["query" := match filter_expr q with Some f => filt f | None => match_all end]> body in
  match aggregations q with
  | [] =>
      let body := match sort q with [] => body | ss => <["sort" := translate_sort ss]> body end in
      match limit q with Some n => <["size" := jint (Z.of_N n)]> body | None => body end
  | gs => <["size" := jint 0]> (<["aggs" := aggs gs (group_by q)]> body)
  end.

(** The members of an object given for passthrough replace those of the body. *)
Context (parse_passthrough : string → Value).
Definition add_member (m : json_map) (kv : string * Value) : json_map := <[kv.1 := kv.2]> m.
Definition translate_to_query_dsl (q : SubQuery) : Value :=
  let body := dsl_body translate_filter translate_aggregations q in
  obj_of match parse_passthrough <$> passthrough q with
         | Some (JObject extra) => foldl add_member body extra
         | _ => body
         end.

(** ** Elasticsearch *)

Definition scalar_to_wildcard (v : ScalarValue) : string :=
  match v with
  | SUtf8 s => to_wildcard s
  | SInt64 n => pretty n
  | SFloat64 f => fmt_f64 f
  | SBoolean b => bool_text b
  | Null => ""
  end.

Definition es_comparison (field : string) (op : ComparisonOp) (value : ScalarValue) : Value :=
  let v := scalar_to_json value in
  match op with
  | OpEq => obj1 "term" (obj1 field v)
  | OpNeq => must_not (obj1 "term" (obj1 field v))
  | OpLt => obj1 "range" (obj1 field (obj1 "lt" v))
  | OpLte => obj1 "range" (obj1 field (obj1 "lte" v))
  | OpGt => obj1 "range" (obj1 field (obj1 "gt" v))
  | OpGte => obj1 "range" (obj1 field (obj1 "gte" v))
  | OpLike | OpILike | OpContains =>
      obj1 "wildcard" (obj1 field (JObject [("case_insensitive", JBool true); ("value", JString (scalar_to_wildcard value))]))
  end.

Fixpoint es_translate_filter (expr : FilterExpr) : Value :=
  match expr with
  | FAnd l r => obj1 "bool" (obj1 "must" (JArray [es_translate_filter l; es_translate_filter r]))
  | FOr l r =>
      obj1 "bool" (JObject [("minimum_should_match", jint 1); ("should", JArray [es_translate_filter l; es_translate_filter r])])
  | FNot e => must_not (es_translate_filter e)
  | FComparison field op v => es_comparison field op v
  | FIn field vals => obj1 "terms" (obj1 field (JArray (scalar_to_json <$> vals)))
  | FIsNull field => must_not (obj1 "exists" (obj1 "field" (JString field)))
  | FIsNotNull field => obj1 "exists" (obj1 "field" (JString field))
  end.

(** [100.0], and [p * 100.0]. *)
Definition f64_100 : spec_float := binary_normalize 53 1024 100 0 false.
Definition es_single_agg (agg : AggregationExpr) : Value :=
  match agg_function agg with
  | Count | CountDistinct => field_body "value_count" agg
  | Sum => field_body "sum" agg
  | Avg => field_body "avg" agg
  | Min => field_body "min" agg
  | Max => field_body "max" agg
  | ApproxCountDistinct => field_body "cardinality" agg
  | ApproxPercentile p =>
      obj1 "percentiles"
        (JObject [("field", JString (default "_id" (agg_field agg))); ("percents", JArray [jfloat (fmul p f64_100)])])
  end.

Definition translate_aggs (aggs : list AggregationExpr) (group_by : list string) : Value :=
  match group_by with
  | gb :: _ =>
      obj1 gb (JObject [("aggs", obj_of (agg_map es_single_agg aggs)); ("terms", obj1 "field" (JString gb))])
  | [] => obj_of (agg_map es_single_agg aggs)
  end.

Definition es_translate_to_query_dsl (q : SubQuery) : Value := obj_of (dsl_body es_translate_filter translate_aggs q).
End Dsl.

(** * A query body selects the documents that the filter keeps

    The specification is a reader of the query part of a body, [dsl_eval]: a
    document matches it or not, a missing field makes a leaf fail, a malformed
    query is refused ([None]).  The theorem: the bodies of both connectors are
    never refused, and decide every document for which the filter has a truth
    value as the filter does. *)

(** ** Patterns *)

(** A pattern of SQL's [LIKE] without an escape: the percent sign stands for any
    text, the underscore for one character. *)
Fixpoint like (p s : string) : bool :=
  match p with
  | EmptyString => String.eqb s ""
  | String c p' =>
      if Ascii.eqb c "%" then
        (fix star (s : string) : bool := like p' s || match s with EmptyString => false | String _ s' => star s' end) s
      else match s with EmptyString => false | String d s' => (Ascii.eqb c "_" || Ascii.eqb c d) && like p' s' end
  end.
(** A pattern of a wildcard query: the asterisk stands for any text, the question
    mark for one character, and a backslash makes the next character stand for
    itself; at the end of the pattern it stands for itself. *)
Definition ESCAPE : ascii := ascii_of_nat 92.
Fixpoint wildcard (p s : string) : bool :=
  match p with
  | EmptyString => String.eqb s ""
  | String c p' =>
      if Ascii.eqb c "*" then
        (fix star (s : string) : bool := wildcard p' s || match s with EmptyString => false | String _ s' => star s' end) s
      else
        match s with
        | EmptyString => false
        | String d s' =>
            if Ascii.eqb c ESCAPE then
              match p' with
              | String e p'' => Ascii.eqb e d && wildcard p'' s'
              | EmptyString => Ascii.eqb c d && wildcard p' s'
              end
            else (Ascii.eqb c "?" || Ascii.eqb c d) && wildcard p' s'
        end
  end.

(** A pattern without the characters that are special in wildcard queries only. *)
Definition plain_char (a : ascii) : bool := negb (is_char "*" a) && negb (is_char "?" a) && negb (is_char ESCAPE a).
Definition plain_pattern : string → bool := str_all plain_char.

Definition wild_char (a : ascii) : ascii :=
  if Ascii.eqb a "%" then "*" else if Ascii.eqb a "_" then "?" else a.

Lemma to_wildcard_cons a p : to_wildcard (String a p) = String (wild_char a) (to_wildcard p).
Proof.
  unfold to_wildcard, wild_char. rewrite (replace_char "%"). destruct (Ascii.eqb_spec a "%") as [->|Ha].
  - change ("*" +:+ ?x) with (String "*" x). by rewrite replace_char.
  - rewrite replace_char. by destruct (Ascii.eqb_spec a "_").
Qed.

Lemma wildcard_like p s : plain_pattern p = true → wildcard (to_wildcard p) s = like p s.
Proof.
  revert s. induction p as [|a p IH]; intros s; [done|].
  cbn [plain_pattern str_all]. intros [Ha Hp]%andb_prop.
  rewrite to_wildcard_cons. cbn [wildcard like]. unfold wild_char.
  destruct (Ascii.eqb_spec a "%") as [->|Hn].
  - cbn. induction s as [|b s IHs]; by rewrite IH, ?IHs.
  - destruct (Ascii.eqb_spec a "_") as [->|Hu]; cbn [Ascii.eqb orb].
    + destruct s; [done|]. cbn. by rewrite IH.
    + unfold plain_char in Ha. apply andb_prop in Ha as [[H1 H2]%andb_prop H3]. unfold is_char in H1, H2, H3.
      rewrite Ascii.eqb_sym in H1, H2, H3. apply negb_true_iff in H1, H2, H3. rewrite H1, H2, H3. destruct s; [done|]. by rewrite IH.
Qed.

Lemma ascii_lower_wild a : ascii_lower (wild_char a) = wild_char (ascii_lower a).
Proof. destruct a as [[] [] [] [] [] [] [] []]; reflexivity. Qed.

Lemma ascii_lower_plain a : plain_char (ascii_lower a) = plain_char a.
Proof. destruct a as [[] [] [] [] [] [] [] []]; reflexivity. Qed.

Lemma to_lowercase_wildcard p : to_lowercase (to_wildcard p) = to_wildcard (to_lowercase p).
Proof.
  induction p as [|a p IH]; [done|]. rewrite to_wildcard_cons. cbn [to_lowercase].
  by rewrite to_wildcard_cons, IH, ascii_lower_wild.
Qed.

Lemma to_lowercase_plain p : plain_pattern (to_lowercase p) = plain_pattern p.
Proof. induction p as [|a p IH]; [done|]. unfold plain_pattern in *. cbn [to_lowercase str_all]. by rewrite ascii_lower_plain, IH. Qed.

(** ** Objects *)

Lemma assoc_get_map k (m : list (string * Value)) : assoc_get k m = (list_to_map m : gmap string Value) !! k.
Proof.
  induction m as [|[k' v] m IH]; [done|]. cbn. destruct (String.eqb_spec k' k) as [->|Hne];
    [by rewrite lookup_insert_eq|by rewrite lookup_insert_ne].
Qed.

Lemma entries_to_map (m : json_map) : list_to_map (btree_entries m) = m.
Proof.
  apply map_eq. intros k. apply option_eq. intros x. rewrite <- (btree_entries_elem m). symmetry. apply elem_of_list_to_map.
  rewrite btree_entries_fst. apply btree_set_NoDup.
Qed.

Lemma get_obj_of k m : get (obj_of m) k = m !! k.
Proof. cbn. by rewrite assoc_get_map, entries_to_map. Qed.

(** ** What a query selects *)

Definition all_of (rs : list (option bool)) : option bool := forallb id <$> mapM id rs.
Definition any_of (rs : list (option bool)) : option bool := existsb id <$> mapM id rs.

Section Selects.
Context (cmp : ComparisonOp → ScalarValue → ScalarValue → bool) (env : string → ScalarValue).

(** The value in a query; null is refused. *)
Definition json_scalar (v : Value) : option ScalarValue :=
  match v with
  | JBool b => Some (SBoolean b)
  | JNumber (NInt z) => Some (SInt64 z)
  | JNumber (NFloat f) => Some (SFloat64 f)
  | JString s => Some (SUtf8 s)
  | _ => None
  end.

Definition field_is (op : ComparisonOp) (f : string) (v : ScalarValue) : bool :=
  match env f with Null => false | x => cmp op x v end.
Definition field_matches (f : string) (test : string → bool) : bool :=
  match env f with SUtf8 s => test s | _ => false end.

Definition range_op (k : string) : option ComparisonOp :=
  if String.eqb k "lt" then Some OpLt else if String.eqb k "lte" then Some OpLte
  else if String.eqb k "gt" then Some OpGt else if String.eqb k "gte" then Some OpGte else None.

Definition term_leaf (body : Value) : option bool :=
  match body with JObject [(f, v)] => field_is OpEq f <$> json_scalar v | _ => None end.
Definition terms_leaf (body : Value) : option bool :=
  match body with
  | JObject [(f, JArray vs)] => existsb (field_is OpEq f) <$> mapM json_scalar vs
  | _ => None
  end.
Definition range_leaf (body : Value) : option bool :=
  match body with
  | JObject [(f, JObject [(k, v)])] => op ← range_op k; field_is op f <$> json_scalar v
  | _ => None
  end.
Definition wildcard_leaf (body : Value) : option bool :=
  match body with
  | JObject [(f, JObject [(k, JString p)])] => if String.eqb k "value" then Some (field_matches f (wildcard p)) else None
  | JObject [(f, JObject [(c, JBool true); (k, JString p)])] =>
      if String.eqb c "case_insensitive" && String.eqb k "value"
      then Some (field_matches f (λ s, wildcard (to_lowercase p) (to_lowercase s))) else None
  | _ => None
  end.
Definition exists_leaf (body : Value) : option bool :=
  match body with JObject [(k, JString f)] => if String.eqb k "field" then Some (bool_decide (env f ≠ Null)) else None | _ => None end.

Definition leaf (kind : string) (body : Value) : option bool :=
  if String.eqb kind "match_all" then Some true
  else if String.eqb kind "term" then term_leaf body
  else if String.eqb kind "terms" then terms_leaf body
  else if String.eqb kind "range" then range_leaf body
  else if String.eqb kind "wildcard" then wildcard_leaf body
  else if String.eqb kind "exists" then exists_leaf body
  else None.

Definition occurrence (kind : string) (rs : list (option bool)) : option bool :=
  if String.eqb kind "must" then all_of rs
  else if String.eqb kind "must_not" then negb <$> any_of rs
  else if String.eqb kind "should" then any_of rs
  else None.

Fixpoint dsl_eval (q : Value) : option bool :=
  match q with
  | JObject [(kind, body)] =>
      if String.eqb kind "bool" then
        match body with
        | JObject [(k, JArray qs)] => occurrence k (map dsl_eval qs)
        | JObject [(m, JNumber (NInt 1)); (k, JArray qs)] =>
            if String.eqb m "minimum_should_match" then occurrence k (map dsl_eval qs) else None
        | _ => None
        end
      else leaf kind body
  | _ => None
  end.
End Selects.

(** ** The filters *)

Section Filters.
Context `{J : JsonOps} `{F : F64Display}.
Context (cmp : ComparisonOp → ScalarValue → ScalarValue → bool).

(** The store compares as the filter means it. *)
Record store_compares : Prop := {
  neq_is_not_eq x y : cmp OpNeq x y = negb (cmp OpEq x y);
  like_matches x p : cmp OpLike x (SUtf8 p) = match x with SUtf8 s => like p s | _ => false end;
  ilike_matches x p :
    cmp OpILike x (SUtf8 p) = match x with SUtf8 s => like (to_lowercase p) (to_lowercase s) | _ => false end;
}.
Hypothesis compares : store_compares.

(** Values that JSON can carry: not null, and finite. *)
Definition carried (v : ScalarValue) : Prop := json_scalar (scalar_to_json v) = Some v.

(** Patterns are texts without an asterisk, a question mark and a backslash;
    [ops] are the operators the connector translates to the ones it is given. *)
Definition pattern_ok (v : ScalarValue) : Prop :=
  match v with SUtf8 p => plain_pattern p = true | _ => False end.
Fixpoint sendable (ops : list ComparisonOp) (f : FilterExpr) : Prop :=
  match f with
  | FAnd l r | FOr l r => sendable ops l ∧ sendable ops r
  | FNot e => sendable ops e
  | FComparison _ op v =>
      op ∈ ops ∧ match op with OpLike | OpILike => pattern_ok v | _ => carried v end
  | FIn _ vs => Forall carried vs
  | FIsNull _ | FIsNotNull _ => True
  end.
Definition os_ops := [OpEq; OpNeq; OpLt; OpLte; OpGt; OpGte; OpLike; OpILike].
Definition es_ops := [OpEq; OpNeq; OpLt; OpLte; OpGt; OpGte; OpILike].

(** A query decides a document as a three-valued filter does where that is known. *)
Definition agrees (d : option bool) (t : tri) : Prop := ∃ b, d = Some b ∧ ∀ b', t = Some b' → b' = b.

Lemma agrees_not d t : agrees d t → agrees (negb <$> any_of [d]) (tri_not t).
Proof.
  intros (b & -> & Hb). exists (negb b). cbn. split; [by rewrite orb_false_r|].
  destruct t as [c|]; [|done]. intros b' [= <-]. by rewrite (Hb c).
Qed.
Lemma agrees_and d e t u : agrees d t → agrees e u → agrees (all_of [d; e]) (tri_and t u).
Proof.
  intros (b & -> & Hb) (c & -> & Hc). exists (b && c). cbn. split; [by rewrite andb_true_r|].
  intros b'. destruct t as [[]|], u as [[]|]; cbn; intros [= <-];
    rewrite <- ?(Hb _ eq_refl), <- ?(Hc _ eq_refl); by rewrite ?andb_false_r.
Qed.
Lemma agrees_or d e t u : agrees d t → agrees e u → agrees (any_of [d; e]) (tri_or t u).
Proof.
  intros (b & -> & Hb) (c & -> & Hc). exists (b || c). cbn. split; [by rewrite orb_false_r|].
  intros b'. destruct t as [[]|], u as [[]|]; cbn; intros [= <-];
    rewrite <- ?(Hb _ eq_refl), <- ?(Hc _ eq_refl); by rewrite ?orb_true_r.
Qed.

Lemma mapM_carried vs : Forall carried vs → mapM json_scalar (scalar_to_json <$> vs) = Some vs.
Proof. induction 1 as [|v vs Hv _ IH]; [done|]. cbn. rewrite Hv. cbn. by rewrite IH. Qed.

Lemma carried_not_null v : carried v → v ≠ Null.
Proof. by intros H ->. Qed.

(** A field compared with a value: a missing field fails, and is unknown. *)
Lemma field_is_agrees env op f v :
  v ≠ Null → agrees (Some (field_is cmp env op f v)) (tri_cmp cmp op (env f) v).
Proof. intros Hv. eexists. split; [done|]. unfold field_is, tri_cmp. destruct (env f), v; naive_solver. Qed.

Lemma terms_agrees env f vs :
  Forall carried vs → agrees (Some (existsb (field_is cmp env OpEq f) vs)) (tri_in cmp (env f) vs).
Proof.
  induction 1 as [|v vs Hv _ IH]; [by exists false; split; [|intros ? [= <-]]|].
  pose proof (agrees_or _ _ _ _ (field_is_agrees env OpEq f v (carried_not_null v Hv)) IH) as H.
  cbn in H. rewrite orb_false_r in H. exact H.
Qed.

Lemma agrees_weaken d t u : agrees d t → (∀ b, u = Some b → t = Some b) → agrees d u.
Proof. intros (b & -> & Hb) Hu. exists b. naive_solver. Qed.

Lemma neq_agrees env f v : carried v →
  agrees (negb <$> any_of [Some (field_is cmp env OpEq f v)]) (tri_cmp cmp OpNeq (env f) v).
Proof.
  intros Hv%carried_not_null. eapply agrees_weaken; [by apply agrees_not, field_is_agrees|].
  unfold tri_cmp. rewrite (neq_is_not_eq compares). destruct (env f), v; try done; by intros b [= <-].
Qed.

Lemma like_agrees env f p test :
  (∀ s, test s = wildcard (to_wildcard p) s) → plain_pattern p = true →
  agrees (Some (field_matches env f test)) (tri_cmp cmp OpLike (env f) (SUtf8 p)).
Proof.
  intros Ht Hp. eexists. split; [done|]. unfold tri_cmp, field_matches. rewrite (like_matches compares).
  destruct (env f); try done; intros b' [= <-]; [done..|]. by rewrite Ht, wildcard_like.
Qed.

Lemma ilike_agrees env f p :
  plain_pattern p = true →
  agrees (Some (field_matches env f (λ s, wildcard (to_lowercase (to_wildcard p)) (to_lowercase s))))
    (tri_cmp cmp OpILike (env f) (SUtf8 p)).
Proof.
  intros Hp. eexists. split; [done|]. unfold tri_cmp, field_matches. rewrite (ilike_matches compares).
  destruct (env f); try done; intros b' [= <-]; [done..|].
  by rewrite to_lowercase_wildcard, wildcard_like by by rewrite to_lowercase_plain.
Qed.

Lemma is_null_agrees (env : string → ScalarValue) f :
  agrees (negb <$> any_of [Some (bool_decide (env f ≠ Null))]) (Some (bool_decide (env f = Null))).
Proof.
  eexists. split; [done|]. intros b [= <-]. cbn. rewrite orb_false_r. unfold id.
  by repeat case_bool_decide.
Qed.

(** The shapes of the queries. *)
Lemma dsl_must env p q :
  dsl_eval cmp env (obj1 "bool" (obj1 "must" (JArray [p; q]))) = all_of [dsl_eval cmp env p; dsl_eval cmp env q].
Proof. reflexivity. Qed.
Lemma dsl_should env p q :
  dsl_eval cmp env (obj1 "bool" (JObject [("minimum_should_match", jint 1); ("should", JArray [p; q])])) =
    any_of [dsl_eval cmp env p; dsl_eval cmp env q].
Proof. reflexivity. Qed.
Lemma dsl_must_not env q : dsl_eval cmp env (must_not q) = negb <$> any_of [dsl_eval cmp env q].
Proof. reflexivity. Qed.
Lemma dsl_term env f v :
  dsl_eval cmp env (obj1 "term" (obj1 f v)) = field_is cmp env OpEq f <$> json_scalar v.
Proof. reflexivity. Qed.
Lemma dsl_range env f op k v :
  range_op k = Some op → dsl_eval cmp env (obj1 "range" (obj1 f (obj1 k v))) = field_is cmp env op f <$> json_scalar v.
Proof. intros Hk. cbn. by rewrite Hk. Qed.

Lemma range_agrees env f op k v :
  range_op k = Some op → carried v →
  agrees (dsl_eval cmp env (obj1 "range" (obj1 f (obj1 k (scalar_to_json v))))) (tri_cmp cmp op (env f) v).
Proof. intros Hk Hv. rewrite (dsl_range _ _ op), Hv by done. apply field_is_agrees. by apply carried_not_null. Qed.

Lemma os_comparison_agrees env f op v :
  op ∈ os_ops → match op with OpLike | OpILike => pattern_ok v | _ => carried v end →
  agrees (dsl_eval cmp env (translate_comparison f op v)) (tri_cmp cmp op (env f) v).
Proof.
  intros Hop. destruct op; cbn [translate_comparison]; intros Hv; try by apply range_agrees.
  - rewrite dsl_term, Hv. by apply field_is_agrees, carried_not_null.
  - rewrite dsl_must_not, dsl_term, Hv. by apply neq_agrees.
  - destruct v; try done. by apply like_agrees.
  - destruct v; try done. by apply ilike_agrees.
  - unfold os_ops in Hop. set_solver.
Qed.

Lemma es_comparison_agrees env f op v :
  op ∈ es_ops → match op with OpLike | OpILike => pattern_ok v | _ => carried v end →
  agrees (dsl_eval cmp env (es_comparison f op v)) (tri_cmp cmp op (env f) v).
Proof.
  intros Hop. destruct op; cbn [es_comparison]; intros Hv; try by apply range_agrees.
  - rewrite dsl_term, Hv. by apply field_is_agrees, carried_not_null.
  - rewrite dsl_must_not, dsl_term, Hv. by apply neq_agrees.
  - unfold es_ops in Hop. set_solver.
  - destruct v; try done. by apply ilike_agrees.
  - unfold es_ops in Hop. set_solver.
Qed.

(** The two connectors differ in the comparisons only. *)
Section Translation.
Context (tr : FilterExpr → Value) (ops : list ComparisonOp).
Context (comparison : string → ComparisonOp → ScalarValue → Value).
Hypothesis tr_filter : ∀ f,
  tr f = match f with
         | FAnd l r => obj1 "bool" (obj1 "must" (JArray [tr l; tr r]))
         | FOr l r => obj1 "bool" (JObject [("minimum_should_match", jint 1); ("should", JArray [tr l; tr r])])
         | FNot e => must_not (tr e)
         | FComparison field op v => comparison field op v
         | FIn field vals => obj1 "terms" (obj1 field (JArray (scalar_to_json <$> vals)))
         | FIsNull field => must_not (obj1 "exists" (obj1 "field" (JString field)))
         | FIsNotNull field => obj1 "exists" (obj1 "field" (JString field))
         end.
Hypothesis comparison_agrees : ∀ env f op v,
  op ∈ ops → match op with OpLike | OpILike => pattern_ok v | _ => carried v end →
  agrees (dsl_eval cmp env (comparison f op v)) (tri_cmp cmp op (env f) v).

Lemma filter_agrees env f : sendable ops f → agrees (dsl_eval cmp env (tr f)) (eval_filter cmp env f).
Proof.
  induction f as [l IHl r IHr|l IHl r IHr|e IH|fd op v|fd vs|fd|fd]; rewrite tr_filter; cbn [sendable eval_filter].
  - intros [Hl Hr]. rewrite dsl_must. apply agrees_and; auto.
  - intros [Hl Hr]. rewrite dsl_should. apply agrees_or; auto.
  - intros He. rewrite dsl_must_not. apply agrees_not; auto.
  - intros [Hop Hv]. by apply comparison_agrees.
  - intros Hvs. cbn. rewrite mapM_carried by done. by apply terms_agrees.
  - intros _. rewrite dsl_must_not. apply is_null_agrees.
  - intros _. eexists. by split; [|intros b [= <-]].
Qed.
End Translation.

Lemma os_filter_agrees env f :
  sendable os_ops f → agrees (dsl_eval cmp env (translate_filter f)) (eval_filter cmp env f).
Proof. apply (filter_agrees _ _ translate_comparison); [by intros []|apply os_comparison_agrees]. Qed.
Lemma es_filter_agrees env f :
  sendable es_ops f → agrees (dsl_eval cmp env (es_translate_filter f)) (eval_filter cmp env f).
Proof. apply (filter_agrees _ _ es_comparison); [by intros []|apply es_comparison_agrees]. Qed.

(** ** The bodies *)

Definition body_selects (env : string → ScalarValue) (body : Value) : option bool :=
  get body "query" ≫= dsl_eval cmp env.
Definition wanted (env : string → ScalarValue) (f : option FilterExpr) : tri :=
  match f with Some f => eval_filter cmp env f | None => Some true end.

Lemma dsl_body_query filt aggs q :
  dsl_body filt aggs q !! "query" = Some match filter_expr q with Some f => filt f | None => match_all end.
Proof.
  unfold dsl_body. destruct (aggregations q); [destruct (sort q), (limit q)|];
    rewrite ?lookup_insert_ne by done; apply lookup_insert_eq.
Qed.

Lemma body_agrees filt aggs ops q :
  (∀ env f, sendable ops f → agrees (dsl_eval cmp env (filt f)) (eval_filter cmp env f)) →
  (∀ f, filter_expr q = Some f → sendable ops f) →
  ∀ env, agrees (body_selects env (obj_of (dsl_body filt aggs q))) (wanted env (filter_expr q)).
Proof.
  intros Hf Hq env. unfold body_selects. rewrite get_obj_of, dsl_body_query. cbn [mbind option_bind].
  destruct (filter_expr q); [by apply Hf, Hq|]. exists true. by split; [|intros b [= <-]].
Qed.
End Filters.

(** C35: the bodies sent to OpenSearch and Elasticsearch are never refused, and a
    document matches the query in them exactly when the filter is true of it, for
    every document on which the filter is true or false.  For a query without
    members to pass through, whose filter has no value null and no float that
    JSON does not carry, no [CONTAINS], and in patterns, which are texts, no
    asterisk, question mark or backslash ([backslash_pattern_escapes]); for
    Elasticsearch no [LIKE] either, which it is sent without regard to case
    ([es_like_ignores_case]).  The store compares as the filter does, and its
    case folding is that of ASCII. *)
Theorem query_bodies_select `{J : JsonOps} `{F : F64Display} cmp parse_passthrough q :
  store_compares cmp → passthrough q = None →
  ((∀ f, filter_expr q = Some f → sendable os_ops f) →
   ∀ env, agrees (body_selects cmp env (translate_to_query_dsl parse_passthrough q)) (wanted cmp env (filter_expr q))) ∧
  ((∀ f, filter_expr q = Some f → sendable es_ops f) →
   ∀ env, agrees (body_selects cmp env (es_translate_to_query_dsl q)) (wanted cmp env (filter_expr q))).
Proof.
  intros Hcmp Hp. split; intros Hf.
  - unfold translate_to_query_dsl. rewrite Hp. by apply (body_agrees _ _ _ _ _ (os_filter_agrees _ Hcmp)).
  - by apply (body_agrees _ _ _ _ _ (es_filter_agrees _ Hcmp)).
Qed.

(** [LIKE] with case sent to Elasticsearch finds what differs in case. *)
Definition scalar_eqb (x y : ScalarValue) : bool := bool_decide (x = y).
Definition demo_store (op : ComparisonOp) (x y : ScalarValue) : bool :=
  match op, x, y with
  | OpNeq, _, _ => negb (scalar_eqb x y)
  | OpLike, SUtf8 s, SUtf8 p => like p s
  | OpILike, SUtf8 s, SUtf8 p => like (to_lowercase p) (to_lowercase s)
  | OpEq, _, _ => scalar_eqb x y
  | OpLt, SInt64 a, SInt64 b => (a <? b)%Z
  | _, _, _ => false
  end.

Lemma query_bodies_select_witness :
  let f := FOr (FNot (FComparison "n" OpLt (SInt64 3))) (FComparison "name" OpLike (SUtf8 "a%z")) in
  let q := mkSubQuery "t" [] (Some f) [] [] None [] None None None in
  let env := λ k, if String.eqb k "name" then SUtf8 "abcz" else Null in
  body_selects demo_store env (translate_to_query_dsl (J := RefJson) (λ _, JNull) q) = Some true ∧
  agrees (body_selects demo_store env (translate_to_query_dsl (J := RefJson) (λ _, JNull) q)) (Some true).
Proof.
  intros f q env. split; [vm_compute; reflexivity|].
  destruct (query_bodies_select (J := RefJson) (F := λ _, "") demo_store (λ _, JNull) q) as [H _].
  - split; [reflexivity|by intros []|by intros []].
  - reflexivity.
  - apply (H ltac:(intros g [= <-]; repeat split; vm_compute; auto; set_solver) env).
Defined.

(** A backslash is a character of a [LIKE] pattern as any other, and escapes the
    next character in a wildcard query. *)
Definition BACK : string := String ESCAPE "".
Lemma backslash_pattern_escapes `{J : JsonOps} :
  let f := FComparison "path" OpLike (SUtf8 ("C:" +:+ BACK +:+ "%")) in
  let env := λ _ : string, SUtf8 ("C:" +:+ BACK +:+ "logs") in
  eval_filter demo_store env f = Some true ∧ dsl_eval demo_store env (translate_filter f) = Some false.
Proof. split; vm_compute; reflexivity. Qed.

(** [LIKE] is sent to Elasticsearch without regard to case, and [COUNT(DISTINCT)] as
    a count. *)
Lemma es_like_ignores_case `{J : JsonOps} `{F : F64Display} :
  let f := FComparison "name" OpLike (SUtf8 "A%") in
  let env := λ _ : string, SUtf8 "abc" in
  eval_filter demo_store env f = Some false ∧ dsl_eval demo_store env (es_translate_filter f) = Some true.
Proof. split; vm_compute; reflexivity. Qed.

Lemma es_distinct_is_count `{J : JsonOps} a b :
  agg_field a = agg_field b → agg_function a = Count → agg_function b = CountDistinct →
  es_single_agg a = es_single_agg b.
Proof. unfold es_single_agg, field_body. by intros -> -> ->. Qed.

(** Grouping by several fields groups by the first. *)
Lemma later_groups_left_out `{J : JsonOps} aggs g gs :
  translate_aggregations aggs (g :: gs) = translate_aggregations aggs [g] ∧
  translate_aggs aggs (g :: gs) = translate_aggs aggs [g].
Proof. done. Qed.
