(* ===== verification/Search.v ===== *)
(** * Search: OpenSearch and Elasticsearch answers and pages

    Models [crates/fuse-connectors/opensearch/src/lib.rs] (hits and aggregations
    become batches; deep results are fetched page by page, by scrolling or with
    [search_after]), [opensearch/src/schema.rs] (index mappings) and
    [elasticsearch/src/lib.rs].  The cluster is a parameter: a function from request
    to answer, with a state where scrolling has one.  A loop that goes on until the
    cluster has no more pages runs on fuel. *)

From S2P Require Import Prelude Strs Json JsonRef Sorting Arrow ArrowRef Connector SqlText Tabular QueryDsl.
From stdpp Require Import base list gmap strings sorting.
From Stdlib Require Import NArith ZArith Lia Ascii SpecFloat.

(** ** Documents *)

(** A path with dots. *)
Definition get_nested (v : Value) (path : string) : option Value := pointer v (split_on (is_char ".") path).
Definition hits_of (body : Value) : option (list Value) := pointer body ["hits"; "hits"] ≫= as_array.
Definition source_at (hit : Value) (col : string) : option Value := s ← get hit "_source"; get_nested s col.

Section Search.
Context `{K : ArrowKernels} `{J : JsonOps} `{F : F64Display}.

(** A column of texts built from a list of JSON values. *)
Definition text_column (f : Value → option string) (l : list Value) : Array := mkArray Utf8 (opt_cell ∘ f <$> l).

(** ** OpenSearch *)

Definition SCROLL_THRESHOLD : N := 10000.

Definition first_source_keys (hits : list Value) : list string :=
  match (h ← head hits; s ← get h "_source"; as_object s) with Some m => m.*1 | None => ["_id"] end.
Definition hit_columns (q : SubQuery) (hits : list Value) : list string :=
  match projections q with [] => first_source_keys hits | ps => ps end.
Definition hit_text (col : string) (hit : Value) : option string := plain_text <$> source_at hit col.

Definition parse_hits_to_batch (body : Value) (q : SubQuery) : outcome ConnectorError RecordBatch :=
  match default [] (hits_of body) with
  | [] =>
      Ok (empty_batch match projections q with [] => [text_field "_id"] | ps => text_field <$> ps end)
  | hits =>
      let columns := hit_columns q hits in
      as_query_error (try_new (text_field <$> columns) ((λ col, text_column (hit_text col) hits) <$> columns))
  end.

(** A metric of a bucket, or of the whole answer. *)
Definition metric_text (alias : string) (v : Value) : option string :=
  to_string <$> (m ← get v alias; get m "value").
Definition alias_fields (aggs : list AggregationExpr) : list Field := text_field ∘ agg_alias <$> aggs.

Definition parse_agg_response (body : Value) (q : SubQuery) : outcome ConnectorError (list RecordBatch) :=
  aggs ← ok_or (get body "aggregations") (QueryFailed "no aggregations in response");
  match get aggs "group_by" with
  | Some groups =>
      buckets ← ok_or (get groups "buckets" ≫= as_array) (QueryFailed "no buckets in group_by aggregation");
      match buckets with
      | [] => Ok []
      | _ =>
          let key := text_column (λ b, to_string <$> get b "key") buckets in
          let metrics := (λ a, text_column (metric_text (agg_alias a)) buckets) <$> aggregations q in
          batch ← as_query_error
            (try_new (text_field (default "key" (head (group_by q))) :: alias_fields (aggregations q)) (key :: metrics));
          Ok [batch]
      end
  | None =>
      batch ← as_query_error
        (try_new (alias_fields (aggregations q)) ((λ a, text_column (metric_text (agg_alias a)) [aggs]) <$> aggregations q));
      Ok [batch]
  end.

Definition parse_search_response (body : Value) (q : SubQuery) : outcome ConnectorError (list RecordBatch) :=
  match aggregations q with
  | _ :: _ => parse_agg_response body q
  | [] =>
      batch ← parse_hits_to_batch body q;
      Ok (if num_rows batch =? 0 then [] else [batch])
  end.

(** [limit.is_some_and(|l| collected >= l as usize)]. *)
Definition enough (lim : option N) (collected : nat) : bool :=
  match lim with Some l => N.to_nat l <=? collected | None => false end.

Section Cluster.
Context (parse_passthrough : string → Value).
Context {St : Type} (search_scroll : St → Value → St * outcome ConnectorError Value).
Context (scroll : St → string → St * outcome ConnectorError Value).
Context (search : Value → outcome ConnectorError Value).

Definition dsl_of (q : SubQuery) : Value := translate_to_query_dsl parse_passthrough q.

Definition scroll_id_of (body : Value) : outcome ConnectorError string :=
  ok_or (get body "_scroll_id" ≫= as_str) (QueryFailed "missing _scroll_id").

Fixpoint scroll_loop (fuel : nat) (q : SubQuery) (st : St) (body : Value) (collected : nat) :
    option (outcome ConnectorError (list RecordBatch)) :=
  match fuel with
  | 0 => None
  | S fuel =>
      match parse_hits_to_batch body q with
      | Ok batch =>
          if num_rows batch =? 0 then Some (Ok [])
          else
            let collected := collected + num_rows batch in
            if enough (limit q) collected then Some (Ok [batch])
            else
              match scroll_id_of body with
              | Ok id =>
                  match scroll st id with
                  | (st, Ok body) => r ← scroll_loop fuel q st body collected; Some (rest ← r; Ok (batch :: rest))
                  | (_, Err e) => Some (Err e)
                  | (_, Panic) => Some Panic
                  end
              | Err e => Some (Err e)
              | Panic => Some Panic
              end
      | Err e => Some (Err e)
      | Panic => Some Panic
      end
  end.

Definition execute_scroll (fuel : nat) (q : SubQuery) (st : St) : option (outcome ConnectorError (list RecordBatch)) :=
  match search_scroll st (dsl_of q) with
  | (st, Ok body) => scroll_loop fuel q st body 0
  | (_, Err e) => Some (Err e)
  | (_, Panic) => Some Panic
  end.

(** [dsl\[k\] = v] on an object. *)
Definition set_member (k : string) (v : Value) (dsl : Value) : Value :=
  match dsl with JObject m => obj_of (<[k := v]> (list_to_map m)) | dsl => dsl end.
Definition page_size : Z := 1000.
Definition page_request (q : SubQuery) (search_after : option Value) : Value :=
  let dsl := set_member "size" (jint page_size) (dsl_of q) in
  let dsl := match search_after with Some sa => set_member "search_after" sa dsl | None => dsl end in
  match get dsl "sort" with
  | Some _ => dsl
  | None => set_member "sort" (JArray [obj1 "_id" (obj1 "order" (JString "asc"))]) dsl
  end.

Definition next_cursor (body : Value) : option Value := h ← hits_of body; l ← last h; get l "sort".

Fixpoint search_after_loop (fuel : nat) (q : SubQuery) (search_after : option Value) (collected : nat) :
    option (outcome ConnectorError (list RecordBatch)) :=
  match fuel with
  | 0 => None
  | S fuel =>
      match (body ← search (page_request q search_after); batch ← parse_hits_to_batch body q; Ok (body, batch)) with
      | Ok (body, batch) =>
          if num_rows batch =? 0 then Some (Ok [])
          else
            let collected := collected + num_rows batch in
            if enough (limit q) collected then Some (Ok [batch])
            else
              match next_cursor body with
              | None => Some (Ok [batch])
              | sa => r ← search_after_loop fuel q sa collected; Some (rest ← r; Ok (batch :: rest))
              end
      | Err e => Some (Err e)
      | Panic => Some Panic
      end
  end.
Definition execute_search_after (fuel : nat) (q : SubQuery) : option (outcome ConnectorError (list RecordBatch)) :=
  search_after_loop fuel q None 0.

Definition os_execute (fuel : nat) (q : SubQuery) (st : St) : option (outcome ConnectorError (list RecordBatch)) :=
  let deep := match limit q with Some l => (SCROLL_THRESHOLD <? l)%N | None => true end in
  match deep, aggregations q with
  | true, [] => match Connector.sort q with [] => execute_scroll fuel q st | _ => execute_search_after fuel q end
  | _, _ => Some (body ← search (dsl_of q); parse_search_response body q)
  end.

(** Streaming: the batches sent and how the call ends; [accepts n] says whether the
    client takes the batch after [n] others. *)
Fixpoint stream_loop (fuel : nat) (accepts : nat → bool) (q : SubQuery) (st : St) (body : Value) (sent : nat) :
    option (list RecordBatch * outcome ConnectorError unit) :=
  match fuel with
  | 0 => None
  | S fuel =>
      match parse_hits_to_batch body q with
      | Ok batch =>
          if num_rows batch =? 0 then Some ([], Ok tt)
          else if accepts sent then
            match scroll_id_of body with
            | Ok id =>
                match scroll st id with
                | (st, Ok body) => r ← stream_loop fuel accepts q st body (S sent); Some (batch :: r.1, r.2)
                | (_, Err e) => Some ([batch], Err e)
                | (_, Panic) => Some ([batch], Panic)
                end
            | Err e => Some ([batch], Err e)
            | Panic => Some ([batch], Panic)
            end
          else Some ([], Err ChannelClosed)
      | Err e => Some ([], Err e)
      | Panic => Some ([], Panic)
      end
  end.
Definition os_execute_streaming (fuel : nat) (accepts : nat → bool) (q : SubQuery) (st : St) :
    option (list RecordBatch * outcome ConnectorError unit) :=
  match search_scroll st (dsl_of q) with
  | (st, Ok body) => stream_loop fuel accepts q st body 0
  | (_, Err e) => Some ([], Err e)
  | (_, Panic) => Some ([], Panic)
  end.
End Cluster.

(** ** Index mappings *)

(** A type of Arrow, with the nested structures of a mapping. *)
Local Unset Elimination Schemes.
Inductive OsType : Type :=
| Plain (t : DataType)
| StructOf (fields : list (string * OsType)).
Local Set Elimination Schemes.

Definition TIMESTAMP_MS_UTC : DataType := OtherType "Timestamp(Millisecond, Some(UTC))".
Definition os_type_to_arrow (t : string) : DataType :=
  if existsb (String.eqb t) ["text"; "keyword"; "wildcard"] then Utf8
  else if String.eqb t "long" then Int64
  else if String.eqb t "integer" then Int32
  else if String.eqb t "short" then Int16
  else if String.eqb t "byte" then Int8
  else if String.eqb t "double" then Float64
  else if existsb (String.eqb t) ["float"; "half_float"; "scaled_float"] then Float32
  else if String.eqb t "boolean" then Boolean
  else if existsb (String.eqb t) ["date"; "date_nanos"] then TIMESTAMP_MS_UTC
  else if String.eqb t "binary" then OtherType "Binary"
  else Utf8.

(** [fields.sort_by(|a, b| a.name().cmp(b.name()))]. *)
Definition sort_fields (fields : list (string * OsType)) : list (string * OsType) :=
  sort_by (λ a b, String.compare a.1 b.1) fields.

(** The type of a property.  Every member is translated; the one called
    [properties] is used. *)
Fixpoint property_type (def : Value) : OsType :=
  let nested :=
    match def with
    | JObject m =>
        (fix find (m : list (string * Value)) : option (list (string * OsType)) :=
           match m with
           | [] => None
           | (k, v) :: m =>
               if String.eqb k "properties" then
                 match v with
                 | JObject props =>
                     Some ((fix types (props : list (string * Value)) : list (string * OsType) :=
                              match props with [] => [] | (n, d) :: props => (n, property_type d) :: types props end) props)
                 | _ => None
                 end
               else find m
           end) m
    | _ => None
    end in
  match nested with
  | Some fields => StructOf (sort_fields fields)
  | None => Plain (os_type_to_arrow (default "object" (get def "type" ≫= as_str)))
  end.
Definition properties_to_fields (props : list (string * Value)) : list (string * OsType) :=
  sort_fields ((λ nd, (nd.1, property_type nd.2)) <$> props).

Definition props_in (v : Value) : option (list (string * Value)) :=
  m ← get v "mappings"; p ← get m "properties"; as_object p.
Definition find_properties (v : Value) : option (list (string * Value)) :=
  match get v "properties" ≫= as_object with
  | Some props => Some props
  | None => match as_object v with Some obj => head (omap (props_in ∘ snd) obj) | None => None end
  end.
Definition mapping_to_arrow_schema (mapping : Value) : outcome ConnectorError (list (string * OsType)) :=
  props ← ok_or (find_properties mapping) (SchemaDiscovery "no 'properties' found in mapping");
  Ok (properties_to_fields props).

(** ** Elasticsearch *)

Definition es_type_to_arrow (t : string) : DataType :=
  if existsb (String.eqb t) ["long"; "integer"; "short"; "byte"] then Int64
  else if existsb (String.eqb t) ["double"; "float"; "half_float"; "scaled_float"] then Float64
  else if String.eqb t "boolean" then Boolean
  else Utf8.

Definition es_field (nd : string * Value) : Field :=
  mkField nd.1 (es_type_to_arrow (default "keyword" (get nd.2 "type" ≫= as_str))) true.
(** [body] is the answer to the mapping request; a table's name is a key of it. *)
Definition es_get_schema (body : outcome ConnectorError Value) (tbl : string) : outcome ConnectorError Schema :=
  body ← body;
  let direct := pointer body [tbl; "mappings"; "properties"] in
  let props := match direct with
               | Some p => Some p
               | None => m ← as_object body; v ← head m; pointer v.2 ["mappings"; "properties"]
               end in
  props ← ok_or props (SchemaDiscovery ("no mappings for index '" +:+ tbl +:+ "'"));
  match es_field <$> default [] (as_object props) with
  | [] => Err (SchemaDiscovery ("empty mappings for '" +:+ tbl +:+ "'"))
  | fields => Ok fields
  end.

(** The columns: the keys of all documents, each once, in order. *)
Definition see_keys (cols : list string) (hit : Value) : list string :=
  match (s ← get hit "_source"; as_object s) with
  | Some m => foldl (λ cols k, if decide (k ∈ cols) then cols else cols ++ [k]) cols m.*1
  | None => cols
  end.
Definition es_columns (q : SubQuery) (hits : list Value) : list string :=
  match projections q with [] => merge_sort String.le (foldl see_keys [] hits) | ps => ps end.

Definition first_value (col : string) (hits : list Value) : option Value := head (omap (λ h, source_at h col) hits).
Definition es_column (hits : list Value) (col : string) : Field * Array :=
  match first_value col hits with
  | Some (JNumber n) =>
      match as_i64 (JNumber n) with
      | Some _ =>
          (mkField col Int64 true, mkArray Int64 ((λ h, VInt <$> (v ← source_at h col; as_i64 v)) <$> hits))
      | None =>
          (mkField col Float64 true, mkArray Float64 ((λ h, VFloat <$> (v ← source_at h col; as_f64 v)) <$> hits))
      end
  | _ => (text_field col, text_column (hit_text col) hits)
  end.

Definition parse_hits (body : Value) (q : SubQuery) : outcome ConnectorError (list RecordBatch) :=
  hits ← ok_or (hits_of body) (QueryFailed "no hits in Elasticsearch response");
  match hits with
  | [] => Ok []
  | _ =>
      let cols := es_column hits <$> es_columns q hits in
      batch ← as_query_error (try_new cols.*1 cols.*2);
      Ok [batch]
  end.

(** [post] is the cluster's answer to a search. *)
Definition es_execute (post : Value → outcome ConnectorError Value) (q : SubQuery) : outcome ConnectorError (list RecordBatch) :=
  body ← post (es_translate_to_query_dsl q);
  parse_hits body q.

(** *** Versions *)

Inductive EsVersion : Type := V7 | V8.
Definition version_of (major : N) : EsVersion := if (8 <=? major)%N then V8 else V7.
(** [body] is the answer at the base address, if there is one. *)
Definition detect_version (body : option Value) : EsVersion :=
  match body with
  | Some body =>
      version_of (default 7%N (t ← pointer body ["version"; "number"]; s ← as_str t;
                               d ← head (split_on (is_char ".") s); parse_u64 d))
  | None => V7
  end.
End Search.

(** * Every document is returned once

    The theorems on [Search]: paging with [search_after] and scrolling return the
    documents of the index in order, each once, when their sort values differ (and
    lose documents when they do not); the typed columns of Elasticsearch hold the
    values of the documents when a column has values of one kind. *)

Lemma filter_Forall_id {A} (P : A → Prop) `{!∀ x, Decision (P x)} (l : list A) : Forall P l → filter P l = l.
Proof. induction 1 as [|x l Hx _ IH]; [done|]. by rewrite filter_cons_True, IH. Qed.

Section Hits.
Context `{K : ArrowKernels, !ArrowLaws K} `{J : JsonOps}.

(** The cells of a document under some columns. *)
Definition hit_row (cols : list string) (hit : Value) : list cell := (λ col, opt_cell (hit_text col hit)) <$> cols.

Lemma hits_batch body q h hs :
  hits_of body = Some (h :: hs) → hit_columns q (h :: hs) ≠ [] →
  ∃ b, parse_hits_to_batch body q = Ok b ∧ num_rows b = length (h :: hs) ∧
       batch_rows b = hit_row (hit_columns q (h :: hs)) <$> (h :: hs).
Proof.
  intros Hh Hne. unfold parse_hits_to_batch. rewrite Hh. cbn [default from_option id].
  set (hits := h :: hs) in *. set (cols := hit_columns q hits) in *.
  set (fs := (λ col, (text_field col, opt_cell ∘ hit_text col)) <$> cols).
  assert (text_field <$> cols = fs.*1) as -> by (unfold fs; by rewrite <- list_fmap_compose).
  assert (((λ col, text_column (hit_text col) hits) <$> cols) = built_columns fs hits) as ->
    by (unfold fs, built_columns; by rewrite <- list_fmap_compose).
  destruct (built_batch fs hits) as (b & Hb & Hrows & _).
  - by intros ?%fmap_nil_inv.
  - apply Forall_fmap, Forall_true. intros col. by left.
  - exists b. rewrite Hb. split; [done|]. rewrite <- batch_rows_length, Hrows, length_fmap. split; [done|].
    apply list_fmap_ext. intros _ x _. unfold entry_cells, fs, hit_row. by rewrite <- list_fmap_compose.
Qed.

Lemma no_hits_batch body q :
  default [] (hits_of body) = [] → ∃ b, parse_hits_to_batch body q = Ok b ∧ num_rows b = 0.
Proof. intros Hh. unfold parse_hits_to_batch. rewrite Hh. by eexists. Qed.
End Hits.

(** ** search_after *)

Section SearchAfter.
Context `{K : ArrowKernels, !ArrowLaws K} `{J : JsonOps}.
Context (parse_passthrough : string → Value).

(** An index: documents in the order of the sort, with their sort values. *)
Record doc : Type := mkDoc { doc_source : Value; doc_key : Value }.
Context (after : Value → Value → bool) (docs : list doc).

Definition hit_of (d : doc) : Value := JObject [("_source", doc_source d); ("sort", doc_key d)].
Definition page_body (ds : list doc) : Value := obj1 "hits" (obj1 "hits" (JArray (hit_of <$> ds))).
Definition from_cursor (sa : option Value) : list doc :=
  match sa with Some c => filter (λ d, after c (doc_key d) = true) docs | None => docs end.

(** The documented behaviour of the cluster: [size] documents after the cursor. *)
Definition pages_of_index (search : Value → outcome ConnectorError Value) : Prop :=
  ∀ dsl n, get dsl "size" = Some (jint n) → search dsl = Ok (page_body (take (Z.to_nat n) (from_cursor (get dsl "search_after")))).
(** Later documents are after earlier ones and not the other way round. *)
Definition distinct_keys : Prop :=
  StronglySorted (λ a b, after (doc_key a) (doc_key b) = true ∧ after (doc_key b) (doc_key a) = false) docs ∧
  ∀ d, d ∈ docs → after (doc_key d) (doc_key d) = false.

Lemma set_member_obj_of k v m : set_member k v (obj_of m) = obj_of (<[k := v]> m).
Proof. cbn. by rewrite entries_to_map. Qed.

Lemma page_request_members q sa :
  passthrough q = None →
  get (page_request parse_passthrough q sa) "size" = Some (jint 1000) ∧
  get (page_request parse_passthrough q sa) "search_after" = sa.
Proof.
  intros Hp. unfold page_request, dsl_of, translate_to_query_dsl. rewrite Hp. cbn [fmap option_fmap option_map].
  rewrite set_member_obj_of. set (m := dsl_body _ _ q).
  assert (m !! "search_after" = None) as Hm.
  { unfold m, dsl_body. destruct (aggregations q); [destruct (Connector.sort q), (limit q)|];
      rewrite ?lookup_insert_ne by done; by destruct (projections q); rewrite ?lookup_insert_ne by done. }
  destruct sa as [sa|]; rewrite ?set_member_obj_of; destruct (get (obj_of _) "sort");
    rewrite ?set_member_obj_of, !get_obj_of;
    repeat (rewrite lookup_insert_eq || rewrite lookup_insert_ne by done); done.
Qed.

Lemma from_cursor_last pre d post :
  distinct_keys → docs = pre ++ d :: post → from_cursor (Some (doc_key d)) = post.
Proof.
  intros [Hs Hirr] E. cbn. assert (d ∈ docs) as Hd by (rewrite E; set_solver). specialize (Hirr d Hd).
  rewrite E in Hs |- *. rewrite filter_app, filter_cons_False by (rewrite Hirr; done).
  assert (filter (λ d', after (doc_key d) (doc_key d') = true) pre = []) as ->.
  { apply Forall_filter_nil, Forall_forall. intros x Hx Ha.
    destruct (StronglySorted_app_1_elem_of _ _ _ x d Hs Hx ltac:(by left)) as [_ Hb]. congruence. }
  cbn. apply filter_Forall_id. apply StronglySorted_app_1_r in Hs.
  apply StronglySorted_inv in Hs as [_ Hs]. eapply Forall_impl; [exact Hs|]. by intros x [Hx _].
Qed.

(** The number of documents in a page, and of pages for [n] documents. *)
Definition PAGE : nat := Z.to_nat page_size.
Definition pages_up_to (n : nat) : nat := (n + (PAGE - 1)) / PAGE.

Lemma PAGE_pos : 0 < PAGE.
Proof. apply (bool_decide_unpack _). vm_compute. exact I. Qed.
#[local] Opaque PAGE.

Lemma pages_up_to_one n : 0 < n → n ≤ PAGE → pages_up_to n = 1.
Proof. intros. symmetry. apply (Nat.div_unique _ _ _ (n - 1)); lia. Qed.
Lemma pages_up_to_more n : PAGE < n → pages_up_to n = S (pages_up_to (n - PAGE)).
Proof.
  intros. pose proof PAGE_pos. unfold pages_up_to. replace (n + (PAGE - 1)) with ((n - PAGE + (PAGE - 1)) + 1 * PAGE) by lia.
  rewrite Nat.div_add by lia. lia.
Qed.
Lemma pages_up_to_pos n : 0 < n → 1 ≤ pages_up_to n.
Proof. intros. pose proof PAGE_pos. apply Nat.div_le_lower_bound; lia. Qed.

(** The whole pages that reach the limit. *)
Definition whole_pages (lim : option N) (collected : nat) (ds : list doc) : list doc :=
  match lim with
  | Some l => take (PAGE * (pages_up_to (N.to_nat l - collected))) ds
  | None => ds
  end.
Definition below (lim : option N) (collected : nat) : Prop :=
  match lim with Some l => collected < N.to_nat l | None => True end.

Lemma whole_pages_enough lim collected ds :
  enough lim (collected + length (take PAGE ds)) = true → below lim collected → whole_pages lim collected ds = take PAGE ds.
Proof.
  destruct lim as [l|]; [|done]. cbn. intros He%Nat.leb_le Hb. rewrite length_take in He.
  rewrite pages_up_to_one by lia. by rewrite Nat.mul_1_r.
Qed.

Lemma whole_pages_more lim collected ds :
  enough lim (collected + length (take PAGE ds)) = false → below lim collected →
  whole_pages lim collected ds = take PAGE ds ++ whole_pages lim (collected + length (take PAGE ds)) (drop PAGE ds) ∧
  below lim (collected + length (take PAGE ds)).
Proof.
  destruct lim as [l|]; cbn; [|by rewrite take_drop]. intros He%Nat.leb_gt _. split; [|done].
  destruct (decide (length ds ≤ PAGE)) as [Hl|Hl].
  - rewrite (drop_ge ds), take_nil, app_nil_r, (take_ge ds PAGE) by lia. rewrite length_take in He. apply take_ge.
    pose proof (pages_up_to_pos (N.to_nat l - collected) ltac:(lia)). nia.
  - rewrite length_take in *. rewrite Nat.min_l in * by lia. rewrite pages_up_to_more by lia.
    rewrite <- Nat.sub_add_distr. rewrite Nat.mul_succ_r, Nat.add_comm. by rewrite <- take_take_drop.
Qed.

Lemma hits_of_page ds : hits_of (page_body ds) = Some (hit_of <$> ds).
Proof. reflexivity. Qed.

Lemma whole_pages_nil lim collected : whole_pages lim collected [] = [].
Proof. unfold whole_pages. by destruct lim; rewrite ?take_nil. Qed.

Section Index.
Context (search : Value → outcome ConnectorError Value) (q : SubQuery).
Hypothesis index_pages : pages_of_index search.
Hypothesis no_passthrough : passthrough q = None.

Lemma search_page sa : search (page_request parse_passthrough q sa) = Ok (page_body (take PAGE (from_cursor sa))).
Proof.
  destruct (page_request_members q sa no_passthrough) as [Hsz Hsa]. by rewrite (index_pages _ _ Hsz), Hsa.
Qed.

(** No document is left: the loop ends. *)
Lemma search_after_done fuel sa collected :
  from_cursor sa = [] → search_after_loop parse_passthrough search (S fuel) q sa collected = Some (Ok []).
Proof.
  intros Hc. cbn [search_after_loop]. rewrite search_page, Hc, take_nil. cbn [mbind outcome_bind].
  destruct (no_hits_batch (page_body []) q eq_refl) as (b & -> & Hn). cbn [mbind outcome_bind]. by rewrite Hn.
Qed.

(** A page of documents: it is returned, and more is fetched if it is not enough. *)
Lemma search_after_step fuel sa collected d ds page :
  projections q ≠ [] → from_cursor sa = d :: ds → page = take PAGE (d :: ds) →
  ∃ b, batch_rows b = hit_row (projections q) ∘ hit_of <$> page ∧
    search_after_loop parse_passthrough search (S fuel) q sa collected =
      if enough (limit q) (collected + length page) then Some (Ok [b])
      else r ← search_after_loop parse_passthrough search fuel q (doc_key <$> last page) (collected + length page);
           Some (rest ← r; Ok (b :: rest)).
Proof.
  intros Hpr Hc Hpage. cbn [search_after_loop]. rewrite search_page, Hc, <- Hpage. cbn [mbind outcome_bind].
  assert (∃ ds', page = d :: ds') as [ds' E].
  { pose proof PAGE_pos. destruct PAGE as [|n]; [lia|]. by exists (take n ds). }
  assert (hit_columns q (hit_of d :: (hit_of <$> ds')) = projections q) as Hcols by (unfold hit_columns; by destruct (projections q)).
  destruct (hits_batch (page_body page) q (hit_of d) (hit_of <$> ds')) as (b & Hbatch & Hn & Hrows);
    [by rewrite E|by rewrite Hcols|].
  rewrite Hcols in Hrows. change (hit_of d :: (hit_of <$> ds')) with (hit_of <$> (d :: ds')) in Hn, Hrows.
  rewrite <- E in Hn, Hrows. rewrite Hbatch. cbn [mbind outcome_bind]. exists b. rewrite length_fmap in Hn.
  split; [by rewrite Hrows, <- list_fmap_compose|]. rewrite Hn.
  assert ((length page =? 0) = false) as -> by by rewrite E. destruct (enough _ _); [done|].
  unfold next_cursor. rewrite hits_of_page. cbn [mbind option_bind]. rewrite fmap_last.
  destruct (last page) as [dl|] eqn:El; [done|]. apply last_None in El. by rewrite El in E.
Qed.

Lemma search_after_pages fuel : ∀ pre rest sa collected,
  distinct_keys → projections q ≠ [] →
  docs = pre ++ rest → from_cursor sa = rest → below (limit q) collected → length rest ≤ PAGE * fuel →
  ∃ out, search_after_loop parse_passthrough search (S fuel) q sa collected = Some (Ok out) ∧
    concat (batch_rows <$> out) = hit_row (projections q) ∘ hit_of <$> whole_pages (limit q) collected rest.
Proof.
  induction fuel as [|fuel IH]; intros pre rest sa collected Hd Hpr E Hc Hb Hf.
  - destruct rest; [|cbn in Hf; lia]. exists []. by rewrite search_after_done, whole_pages_nil.
  - destruct rest as [|d rest']; [exists []; by rewrite search_after_done, whole_pages_nil|].
    set (rest := d :: rest') in *. destruct (search_after_step (S fuel) sa collected d rest' _ Hpr Hc eq_refl) as (b & Hrows & ->).
    fold rest in Hrows |- *. destruct (enough (limit q) _) eqn:He.
    + exists [b]. split; [done|]. cbn. by rewrite app_nil_r, Hrows, whole_pages_enough.
    + destruct (whole_pages_more (limit q) collected rest He Hb) as [Hw Hb'].
      destruct (last (take PAGE rest)) as [dl|] eqn:El.
      2: { apply last_None in El. pose proof PAGE_pos. assert (length (take PAGE rest) = 0) as Hl by by rewrite El.
           rewrite length_take in Hl. cbn in Hl. lia. }
      apply last_Some in El as [page' El].
      destruct (IH (pre ++ take PAGE rest) (drop PAGE rest) (Some (doc_key dl)) (collected + length (take PAGE rest)))
        as (out & Hout & Hcat); try done.
      * by rewrite E, <- (assoc_L (++)), take_drop.
      * apply (from_cursor_last (pre ++ page')); [done|].
        rewrite E, <- (assoc_L (++)). change (dl :: drop PAGE rest) with ([dl] ++ drop PAGE rest).
        by rewrite (assoc_L (++) page'), <- El, take_drop.
      * rewrite length_drop. lia.
      * cbn [fmap option_fmap option_map]. rewrite Hout. exists (b :: out). split; [done|]. cbn [fmap list_fmap concat].
        by rewrite Hcat, Hrows, Hw, fmap_app.
Qed.

(** Documents with the sort value of the last one of a page are not returned. *)
Lemma tied_documents_left_out fuel d ds :
  projections q ≠ [] → limit q = None → docs = d :: ds → (∀ x y, x ∈ docs → y ∈ docs → after (doc_key x) (doc_key y) = false) →
  ∃ b, execute_search_after parse_passthrough search (S (S fuel)) q = Some (Ok [b]) ∧
    batch_rows b = hit_row (projections q) ∘ hit_of <$> take PAGE docs.
Proof.
  intros Hpr Hl E Htie. destruct (search_after_step (S fuel) None 0 d ds _ Hpr E eq_refl) as (b & Hrows & Hloop).
  exists b. rewrite E. split; [|done]. unfold execute_search_after. rewrite Hloop, Hl. cbn [enough].
  destruct (last (take PAGE (d :: ds))) as [dl|] eqn:El.
  2: { apply last_None in El. pose proof PAGE_pos. assert (length (take PAGE (d :: ds)) = 0) as Hlen by by rewrite El.
       rewrite length_take in Hlen. cbn in Hlen. lia. }
  cbn [fmap option_fmap option_map]. rewrite search_after_done; [done|]. cbn [from_cursor].
  assert (dl ∈ docs) as Hdl.
  { rewrite E. apply last_Some in El as [p El]. rewrite <- (take_drop PAGE (d :: ds)), El. set_solver. }
  apply Forall_filter_nil, Forall_forall. intros x Hx. by rewrite (Htie dl x Hdl Hx).
Qed.
End Index.
End SearchAfter.


(** An index that answers as documented. *)
Definition demo_after (c k : Value) : bool :=
  match c, k with JNumber (NInt a), JNumber (NInt b) => (a <? b)%Z | _, _ => false end.
Definition demo_search (docs : list doc) (dsl : Value) : outcome ConnectorError Value :=
  match get dsl "size" with
  | Some (JNumber (NInt n)) => Ok (page_body (take (Z.to_nat n) (from_cursor demo_after docs (get dsl "search_after"))))
  | _ => Err ChannelClosed
  end.


(** Without columns named, those of the first document of a page are returned: what only later ones have is lost. *)
Lemma star_columns_of_first_document :
  let docs := [mkDoc (obj1 "a" (JString "x")) (jint 1); mkDoc (obj1 "b" (JString "y")) (jint 2)] in
  ∃ b, parse_hits_to_batch (K := RefArrow) (J := RefJson) (page_body docs) (mkSubQuery "t" [] None [] [] None [mkSort "a" false] None None None) = Ok b ∧
    (name <$> schema b) = ["a"] ∧ batch_rows b = [[Some (VUtf8 "x")]; [None]].
Proof. eexists. split; [vm_compute; reflexivity|]. split; vm_compute; reflexivity. Qed.

(** ** Scrolling *)

Section Scroll.
Context `{K : ArrowKernels, !ArrowLaws K} `{J : JsonOps}.
Context {St : Type} (scroll : St → string → St * outcome ConnectorError Value).

(** From a state, the next calls return these answers. *)
Fixpoint serves (st : St) (bodies : list Value) : Prop :=
  match bodies with
  | [] => True
  | b :: bodies => ∀ id, ∃ st', scroll st id = (st', Ok b) ∧ serves st' bodies
  end.

(** An answer with documents and where to go on. *)
Definition page_of (body : Value) (hits : list Value) : Prop :=
  hits_of body = Some hits ∧ hits ≠ [] ∧ ∃ id, get body "_scroll_id" = Some (JString id).

(** The pages up to the one that reaches the limit. *)
Fixpoint pages_until (lim : option N) (collected : nat) (pages : list (list Value)) : list (list Value) :=
  match pages with
  | [] => []
  | p :: pages =>
      p :: if enough lim (collected + length p) then [] else pages_until lim (collected + length p) pages
  end.

Lemma scroll_step fuel q st body hits collected :
  projections q ≠ [] → page_of body hits →
  ∃ b id, batch_rows b = hit_row (projections q) <$> hits ∧
    ∀ st' next, scroll st id = (st', Ok next) →
    scroll_loop scroll (S fuel) q st body collected =
      if enough (limit q) (collected + length hits) then Some (Ok [b])
      else r ← scroll_loop scroll fuel q st' next (collected + length hits); Some (rest ← r; Ok (b :: rest)).
Proof.
  intros Hpr (Hh & Hne & id & Hid). destruct hits as [|h hs]; [done|].
  assert (hit_columns q (h :: hs) = projections q) as Hc by (unfold hit_columns; by destruct (projections q)).
  destruct (hits_batch body q h hs Hh) as (b & Hb & Hn & Hrows); [by rewrite Hc|]. rewrite Hc in Hrows.
  exists b, id. split; [done|]. intros st' next Hsc. cbn [scroll_loop]. rewrite Hb.
  assert ((num_rows b =? 0) = false) as -> by by rewrite Hn. rewrite Hn. destruct (enough _ _); [done|].
  unfold scroll_id_of. rewrite Hid. cbn [mbind option_bind as_str ok_or]. by rewrite Hsc.
Qed.

Lemma scroll_done fuel q st last collected :
  default [] (hits_of last) = [] → scroll_loop scroll (S fuel) q st last collected = Some (Ok []).
Proof. intros Hl. cbn [scroll_loop]. destruct (no_hits_batch last q Hl) as (e & -> & Hz). by rewrite Hz. Qed.

Lemma scroll_pages q : ∀ pages bodies last st collected,
  projections q ≠ [] → default [] (hits_of last) = [] →
  Forall2 page_of bodies pages → ∀ body rest, bodies ++ [last] = body :: rest → serves st rest →
  ∃ out, scroll_loop scroll (S (length pages)) q st body collected = Some (Ok out) ∧
    concat (batch_rows <$> out) = hit_row (projections q) <$> concat (pages_until (limit q) collected pages).
Proof.
  induction pages as [|hits pages IH]; intros bodies last st collected Hpr Hlast Hpages body rest E Hs.
  - apply Forall2_nil_inv_r in Hpages as ->. injection E as <- <-. exists []. by rewrite scroll_done.
  - destruct bodies as [|body' bodies]; [by apply Forall2_nil_cons_inv in Hpages|].
    apply Forall2_cons in Hpages as [Hp Hpages]. injection E as <- <-.
    destruct (scroll_step (S (length pages)) q st body' hits collected Hpr Hp) as (b & id & Hrows & Hstep).
    destruct (bodies ++ [last]) as [|next rest'] eqn:En; [by destruct bodies|].
    destruct (Hs id) as (st' & Hsc & Hs'). cbn [length]. rewrite (Hstep _ _ Hsc). cbn [pages_until].
    destruct (enough _ _); [exists [b]; split; [done|]; cbn; by rewrite !app_nil_r, Hrows|].
    destruct (IH bodies last st' (collected + length hits) Hpr Hlast Hpages next rest' En Hs') as (out & -> & Hcat).
    exists (b :: out). split; [done|]. cbn [fmap list_fmap concat]. by rewrite Hcat, Hrows, fmap_app.
Qed.
End Scroll.

(** An unsorted query that asks for everything or for more than ten thousand
    rows returns, page by page, the documents the cluster serves, until it serves
    an empty page or the limit is reached. *)
Theorem scroll_returns_pages `{K : ArrowKernels, !ArrowLaws K} `{J : JsonOps} parse_passthrough
    {St} search_scroll scroll search (st st0 : St) q body bodies last pages :
  search_scroll st (dsl_of parse_passthrough q) = (st0, Ok body) → serves scroll st0 (bodies ++ [last]) →
  Forall2 page_of (body :: bodies) pages → default [] (hits_of last) = [] →
  projections q ≠ [] → aggregations q = [] → Connector.sort q = [] →
  match limit q with Some l => (SCROLL_THRESHOLD < l)%N | None => True end →
  ∃ out, os_execute parse_passthrough search_scroll scroll search (S (length pages)) q st = Some (Ok out) ∧
    concat (batch_rows <$> out) = hit_row (projections q) <$> concat (pages_until (limit q) 0 pages).
Proof.
  intros Hfirst Hs Hpages Hlast Hpr Ha Hsort Hl. unfold os_execute. rewrite Ha, Hsort.
  assert (match limit q with Some l => (SCROLL_THRESHOLD <? l)%N | None => true end = true) as ->.
  { destruct (limit q); [|done]. by apply N.ltb_lt. }
  unfold execute_scroll. rewrite Hfirst. by eapply scroll_pages.
Qed.

Lemma scroll_returns_pages_witness :
  let page v := JObject [("_scroll_id", JString "s"); ("hits", obj1 "hits" (JArray [obj1 "_source" (obj1 "a" (JString v))]))] in
  let q := mkSubQuery "t" ["a"] None [] [] None [] None None None in
  ∃ out, os_execute (K := RefArrow) (J := RefJson) (λ _, JNull) (λ st _, (st, Ok (page "x"))) (λ n _, (S n, Ok (if n =? 0 then page "y" else JNull)))
           (λ _, Panic) 3 q 0 = Some (Ok out) ∧
    concat (batch_rows <$> out) = [[Some (VUtf8 "x")]; [Some (VUtf8 "y")]].
Proof.
  intros page q.
  destruct (scroll_returns_pages (K := RefArrow) (J := RefJson) (λ _, JNull) (λ st _, (st, Ok (page "x")))
    (λ n _, (S n, Ok (if n =? 0 then page "y" else JNull))) (λ _, Panic) 0 0 q (page "x") [page "y"] JNull
    [[obj1 "_source" (obj1 "a" (JString "x"))]; [obj1 "_source" (obj1 "a" (JString "y"))]]) as (out & E & H).
  - reflexivity.
  - intros id. exists 1. split; [reflexivity|]. intros id'. exists 2. split; [reflexivity|exact I].
  - repeat (constructor; [split; [reflexivity|split; [discriminate|by eexists]]|]). constructor.
  - reflexivity.
  - discriminate.
  - reflexivity.
  - reflexivity.
  - exact I.
  - exists out. split; [exact E|]. rewrite H. reflexivity.
Defined.

(** ** Elasticsearch columns *)

Section EsColumns.
Context `{K : ArrowKernels, !ArrowLaws K} `{J : JsonOps}.

Inductive kind : Type := KInt | KFloat | KText.
Definition kind_of (v : Value) : kind :=
  match v with JNumber n => match as_i64 (JNumber n) with Some _ => KInt | None => KFloat end | _ => KText end.
(** The cell for a value. *)
Definition cell_of (v : Value) : cell :=
  match kind_of v with
  | KInt => VInt <$> as_i64 v
  | KFloat => VFloat <$> as_f64 v
  | KText => Some (VUtf8 (plain_text v))
  end.

(** The values of a column are of one kind. *)
Definition one_kind (hits : list Value) (col : string) : Prop :=
  ∀ h h' v v', h ∈ hits → h' ∈ hits → source_at h col = Some v → source_at h' col = Some v' → kind_of v = kind_of v'.

Definition es_cell (hits : list Value) (col : string) (h : Value) : cell :=
  match first_value col hits with
  | Some v =>
      match kind_of v with
      | KInt => VInt <$> (v ← source_at h col; as_i64 v)
      | KFloat => VFloat <$> (v ← source_at h col; as_f64 v)
      | KText => opt_cell (hit_text col h)
      end
  | None => opt_cell (hit_text col h)
  end.
Definition es_field_type (hits : list Value) (col : string) : DataType :=
  match kind_of <$> first_value col hits with Some KInt => Int64 | Some KFloat => Float64 | _ => Utf8 end.

Lemma es_column_built hits col :
  es_column hits col = (mkField col (es_field_type hits col) true, mkArray (es_field_type hits col) (es_cell hits col <$> hits)).
Proof.
  unfold es_column, es_field_type, es_cell. destruct (first_value col hits) as [[]|]; try done.
  cbn [fmap option_fmap option_map kind_of]. by destruct (as_i64 (JNumber n)).
Qed.

Lemma first_value_elem hits col v : first_value col hits = Some v → ∃ h, h ∈ hits ∧ source_at h col = Some v.
Proof. intros H%head_Some_elem_of. by apply list_elem_of_omap in H as (h & ? & ?); exists h. Qed.

Lemma es_cell_one_kind hits col h :
  one_kind hits col → h ∈ hits → es_cell hits col h = source_at h col ≫= cell_of.
Proof.
  intros Hk Hh. unfold es_cell. destruct (source_at h col) as [v|] eqn:Ev.
  - destruct (first_value col hits) as [w|] eqn:Ew.
    + apply first_value_elem in Ew as (h' & Hh' & Ew). cbn [mbind option_bind]. unfold cell_of.
      rewrite (Hk h h' v w) by done. unfold hit_text. rewrite Ev. by destruct (kind_of w).
    + unfold first_value in Ew. apply head_None in Ew. assert (v ∈ omap (λ h, source_at h col) hits) as Hin
        by (apply list_elem_of_omap; by exists h). rewrite Ew in Hin. by apply elem_of_nil in Hin.
  - unfold hit_text. rewrite Ev. cbn. destruct (first_value col hits); [|done]. by destruct (kind_of v).
Qed.

Lemma es_batch body q hits :
  hits_of body = Some hits → hits ≠ [] → es_columns q hits ≠ [] →
  ∃ b, parse_hits body q = Ok [b] ∧ schema b = (λ c, mkField c (es_field_type hits c) true) <$> es_columns q hits ∧
    batch_rows b = (λ h, (λ c, es_cell hits c h) <$> es_columns q hits) <$> hits.
Proof.
  intros Hh Hne Hcols. unfold parse_hits. rewrite Hh. cbn [ok_or mbind outcome_bind].
  set (fs := (λ c, (mkField c (es_field_type hits c) true, es_cell hits c)) <$> es_columns q hits).
  assert ((es_column hits <$> es_columns q hits).*1 = fs.*1) as ->.
  { unfold fs. rewrite <- !list_fmap_compose. apply list_fmap_ext. intros _ c _. cbn. by rewrite es_column_built. }
  assert ((es_column hits <$> es_columns q hits).*2 = built_columns fs hits) as ->.
  { unfold fs, built_columns. rewrite <- !list_fmap_compose. apply list_fmap_ext. intros _ c _. cbn. by rewrite es_column_built. }
  destruct (built_batch fs hits) as (b & Hb & Hrows & Hs).
  - by intros ?%fmap_nil_inv.
  - apply Forall_fmap, Forall_true. intros c. by left.
  - exists b. rewrite Hb. cbn [as_query_error map_err mbind outcome_bind]. destruct hits as [|h hs]; [done|].
    split; [done|]. rewrite Hs. split; [unfold fs; by rewrite <- list_fmap_compose|]. rewrite Hrows.
    apply list_fmap_ext. intros _ x _. unfold entry_cells, fs. by rewrite <- list_fmap_compose.
Qed.
End EsColumns.

(** An Elasticsearch answer becomes one batch with a row per document; in a
    column whose values are of one kind (integers, other numbers, or the rest) every
    cell holds the document's value, and null where the field is missing. *)
Theorem es_hits_keep_values `{K : ArrowKernels, !ArrowLaws K} `{J : JsonOps} body q hits :
  hits_of body = Some hits → hits ≠ [] → es_columns q hits ≠ [] → (∀ c, c ∈ es_columns q hits → one_kind hits c) →
  ∃ b, parse_hits body q = Ok [b] ∧ name <$> schema b = es_columns q hits ∧
    batch_rows b = (λ h, (λ c, source_at h c ≫= cell_of) <$> es_columns q hits) <$> hits.
Proof.
  intros Hh Hne Hcols Hk. destruct (es_batch body q hits Hh Hne Hcols) as (b & Hb & Hs & Hrows).
  exists b. split; [done|]. rewrite Hs, Hrows. split.
  - rewrite <- list_fmap_compose. by apply list_fmap_id.
  - apply list_fmap_ext. intros i h Hi%list_elem_of_lookup_2. apply list_fmap_ext.
    intros j c Hc%list_elem_of_lookup_2. apply es_cell_one_kind; auto.
Qed.

Lemma es_hits_keep_values_witness :
  let hit v := obj1 "_source" (obj1 "n" v) in
  let hits := [hit (jint 1); hit (jint 2); obj1 "_source" (JObject [])] in
  let q := mkSubQuery "t" [] None [] [] None [] None None None in
  ∃ b, parse_hits (K := RefArrow) (J := RefJson) (obj1 "hits" (obj1 "hits" (JArray hits))) q = Ok [b] ∧
    batch_rows b = [[Some (VInt 1)]; [Some (VInt 2)]; [None]].
Proof.
  intros hit hits q.
  destruct (es_hits_keep_values (K := RefArrow) (J := RefJson) (obj1 "hits" (obj1 "hits" (JArray hits))) q hits) as (b & E & _ & H).
  - reflexivity.
  - discriminate.
  - vm_compute. discriminate.
  - intros c Hc h h' v v' Hh Hh'. vm_compute in Hc. apply list_elem_of_singleton in Hc as ->.
    repeat (apply elem_of_cons in Hh as [->|Hh]); try by apply elem_of_nil in Hh.
    all: repeat (apply elem_of_cons in Hh' as [->|Hh']); try by apply elem_of_nil in Hh'.
    all: cbn; intros; simplify_eq; reflexivity.
  - exists b. split; [exact E|]. rewrite H. vm_compute. reflexivity.
Defined.

(** The first value decides: after an integer, a fraction becomes null. *)
Lemma fraction_after_integer_lost `{J : JsonOps} hits col h h0 z f :
  hits = h0 :: h :: [] → source_at h0 col = Some (JNumber (NInt z)) → (i64_min ≤ z ≤ i64_max)%Z →
  source_at h col = Some (JNumber (NFloat f)) → es_cell hits col h = None.
Proof.
  intros -> H0 Hz Hf. unfold es_cell, first_value. cbn. rewrite H0. cbn.
  assert (((i64_min <=? z) && (z <=? i64_max))%Z = true) as -> by (apply andb_true_intro; lia).
  by rewrite Hf.
Qed.

(** An aggregation asks for no documents, and no documents are no rows: nothing of
    the aggregation is returned. *)
Lemma es_aggregates_return_nothing `{K : ArrowKernels} `{J : JsonOps} `{F : F64Display} post q a aggs rest :
  aggregations q = a :: aggs → post (es_translate_to_query_dsl q) = Ok (JObject (("hits", obj1 "hits" (JArray [])) :: rest)) →
  get (es_translate_to_query_dsl q) "size" = Some (jint 0) ∧ es_execute post q = Ok [].
Proof.
  intros Ha Hp. split.
  - unfold es_translate_to_query_dsl. rewrite get_obj_of. unfold dsl_body. rewrite Ha. apply lookup_insert_eq.
  - unfold es_execute. by rewrite Hp.
Qed.

(** ** Mappings *)

(** A mapping's schema has one field per property, in the order of the names. *)
Lemma mapping_fields_sorted mapping fields :
  mapping_to_arrow_schema mapping = Ok fields →
  ∃ props, find_properties mapping = Some props ∧ fields.*1 ≡ₚ props.*1 ∧ StronglySorted String.le fields.*1.
Proof.
  unfold mapping_to_arrow_schema. destruct (find_properties mapping) as [props|]; [|done]. intros [= <-].
  exists props. split; [done|]. unfold properties_to_fields, sort_fields. split.
  - rewrite sort_by_Permutation, <- list_fmap_compose. done.
  - assert (TotalPreorder (λ a b : string * OsType, String.compare a.1 b.1)) as Hord.
    { split; [intros; apply String.compare_antisym|]. intros x y z H1 H2.
      apply (string_sort_le x.1 z.1). transitivity y.1; by apply string_sort_le. }
    apply (StronglySorted_fmap fst (sort_le (λ a b : string * OsType, String.compare a.1 b.1)));
      [intros x y H; by apply string_sort_le|by apply sort_by_sorted].
Qed.
