(* ===== verification/NetAddr.v ===== *)
(** * NetAddr: addresses and the guard on callback URLs

    Models [crates/fuse-server/src/url_validator.rs] and the parts of the
    Rust standard library it relies on: the parser of [std::net::IpAddr] and
    the predicates on addresses.  The [url] crate is outside the repository:
    what it makes of a text, a scheme and a host, is a parameter. *)

From S2P Require Import Prelude Strs.
From stdpp Require Import base list strings pretty sets.
From Stdlib Require Import NArith ZArith Lia Ascii.

(** ** The parser of [IpAddr] *)

(** A reader takes a prefix of the text or fails and takes nothing. *)
Definition reader (A : Type) : Type := string → option (A * string).

Definition read_given_char (c : ascii) : reader unit := λ s,
  match s with
  | String a s' => if Ascii.eqb a c then Some (tt, s') else None
  | "" => None
  end.

(** [read_separator]: the separator is only read before a later element. *)
Definition read_separator {A : Type} (sep : ascii) (index : nat) (inner : reader A) : reader A := λ s,
  match index with
  | 0 => inner s
  | S _ => match read_given_char sep s with Some (_, s') => inner s' | None => None end
  end.

(** [char::to_digit]. *)
Definition to_digit (radix : N) (a : ascii) : option N :=
  let c := N_of_ascii a in
  let d := if (48 <=? c)%N && (c <=? 57)%N then Some (c - 48)%N
           else if (97 <=? c)%N && (c <=? 122)%N then Some (c - 87)%N
           else if (65 <=? c)%N && (c <=? 90)%N then Some (c - 55)%N
           else None in
  match d with Some v => if (v <? radix)%N then Some v else None | None => None end.

(** The digits at the front, their number and their value. *)
Fixpoint read_digits (radix : N) (count : nat) (acc : N) (s : string) : nat * N * string :=
  match s with
  | String a s' =>
      match to_digit radix a with
      | Some d => read_digits radix (S count) (acc * radix + d) s'
      | None => (count, acc, s)
      end
  | "" => (count, acc, s)
  end.

(** [read_number] for a type whose greatest value is [max]. *)
Definition read_number (radix : N) (max_digits : nat) (allow_zero_prefix : bool) (max : N) : reader N := λ s,
  let has_leading_zero := starts_with_char "0" s in
  let '(count, v, rest) := read_digits radix 0 0 s in
  if max_digits <? count then None
  else if (max <? v)%N then None
  else if count =? 0 then None
  else if negb allow_zero_prefix && has_leading_zero && (1 <? count) then None
  else Some (v, rest).

Record Ipv4 : Type := mkV4 { o1 : N; o2 : N; o3 : N; o4 : N }.

Definition read_octet (i : nat) : reader N := read_separator "." i (read_number 10 3 false 255).

Definition read_ipv4_addr : reader Ipv4 := λ s,
  '(a, s) ← read_octet 0 s; '(b, s) ← read_octet 1 s; '(c, s) ← read_octet 2 s; '(d, s) ← read_octet 3 s;
  Some (mkV4 a b c d, s).

(** [read_groups]: at most [limit] groups of sixteen bits from the one with
    index [i] on; the flag says whether they end in an IPv4 address. *)
Fixpoint read_groups (limit i : nat) (s : string) : list N * bool * string :=
  match limit with
  | 0 => ([], false, s)
  | S limit' =>
      let group :=
        match read_separator ":" i (read_number 16 4 true 65535) s with
        | Some (g, s') => let '(gs, v4, s'') := read_groups limit' (S i) s' in (g :: gs, v4, s'')
        | None => ([], false, s)
        end in
      match limit' with
      | 0 => group
      | S _ =>
          match read_separator ":" i read_ipv4_addr s with
          | Some (v4, s') => ([o1 v4 * 256 + o2 v4; o3 v4 * 256 + o4 v4]%N, true, s')
          | None => group
          end
      end
  end.

(** An IPv6 address is its eight groups. *)
Definition read_ipv6_addr : reader (list N) := λ s,
  let '(head, head_ipv4, s1) := read_groups 8 0 s in
  if length head =? 8 then Some (head, s1)
  else if head_ipv4 then None
  else
    '(_, s2) ← read_given_char ":" s1; '(_, s3) ← read_given_char ":" s2;
    let '(tail, _, s4) := read_groups (8 - (length head + 1)) 0 s3 in
    Some (head ++ replicate (8 - length head - length tail) 0%N ++ tail, s4).

Inductive IpAddr : Type := V4 (a : Ipv4) | V6 (groups : list N).

Definition parse_ip (s : string) : option IpAddr :=
  let r := match read_ipv4_addr s with
           | Some (a, rest) => Some (V4 a, rest)
           | None => match read_ipv6_addr s with Some (g, rest) => Some (V6 g, rest) | None => None end
           end in
  match r with Some (ip, "") => Some ip | _ => None end.

(** [Display] of an IPv4 address. *)
Definition show_v4 (a : Ipv4) : string :=
  pretty (o1 a) +:+ "." +:+ pretty (o2 a) +:+ "." +:+ pretty (o3 a) +:+ "." +:+ pretty (o4 a).

(** ** The predicates on addresses *)

Definition is_loopback (a : Ipv4) : bool := (o1 a =? 127)%N.
Definition is_private (a : Ipv4) : bool :=
  (o1 a =? 10)%N || ((o1 a =? 172)%N && (16 <=? o2 a)%N && (o2 a <=? 31)%N) || ((o1 a =? 192)%N && (o2 a =? 168)%N).
Definition is_link_local (a : Ipv4) : bool := (o1 a =? 169)%N && (o2 a =? 254)%N.
Definition is_unspecified (a : Ipv4) : bool := (o1 a =? 0)%N && (o2 a =? 0)%N && (o3 a =? 0)%N && (o4 a =? 0)%N.
Definition is_broadcast (a : Ipv4) : bool :=
  (o1 a =? 255)%N && (o2 a =? 255)%N && (o3 a =? 255)%N && (o4 a =? 255)%N.

Definition v6_loopback : list N := [0; 0; 0; 0; 0; 0; 0; 1]%N.
Definition v6_unspecified : list N := [0; 0; 0; 0; 0; 0; 0; 0]%N.

(** [is_private_ip]. *)
Definition is_private_ip (ip : IpAddr) : bool :=
  match ip with
  | V4 a => is_loopback a || is_private a || is_link_local a || is_unspecified a || is_broadcast a
  | V6 g => bool_decide (g = v6_loopback) || bool_decide (g = v6_unspecified)
  end.

(** [Display] of the addresses that are refused. *)
Definition show_private (ip : IpAddr) : string :=
  match ip with
  | V4 a => show_v4 a
  | V6 g => if bool_decide (g = v6_loopback) then "::1" else "::"
  end.

(** ** [validate_callback_url] *)

(** What the code takes from a parsed URL. *)
Record Url : Type := mkUrl { scheme : string; host_str : option string }.

(** The host without the brackets of an IPv6 address. *)
Definition bare_host (host : string) : string :=
  match strip_prefix_char "[" host with
  | Some h => if ends_with_char "]" h then str_take (String.length h - 1) h else host
  | None => host
  end.

Definition validate_callback_url (parse_url : string → string + Url) (url : string) : outcome string unit :=
  match parse_url url with
  | inl e => Err ("invalid URL: " +:+ e)
  | inr parsed =>
      if negb (bool_decide (scheme parsed = "http") || bool_decide (scheme parsed = "https"))
      then Err ("scheme '" +:+ scheme parsed +:+ "' not allowed (use http or https)")
      else
        match host_str parsed with
        | None => Err "URL must have a host"
        | Some host =>
            let lower := to_lowercase host in
            if bool_decide (lower = "localhost") || bool_decide (lower = "metadata.google.internal")
            then Err ("host '" +:+ host +:+ "' is blocked")
            else
              let metadata :=
                if bool_decide (host = "169.254.169.254") || bool_decide (host = "fd00:ec2::254")
                then Err "cloud metadata endpoint is blocked" else Ok tt in
              match parse_ip (bare_host host) with
              | Some ip => if is_private_ip ip then Err ("private/reserved IP '" +:+ show_private ip +:+ "' is blocked") else metadata
              | None => metadata
              end
        end
  end.

(** ** What the guard lets through *)

(** The number of an address, and the blocks of the comments in
    [is_private_ip], each as its first address and the length of its prefix. *)
Definition address (a : Ipv4) : N := ((o1 a * 256 + o2 a) * 256 + o3 a) * 256 + o4 a.
Definition in_block (a : Ipv4) (b : Ipv4 * N) : Prop :=
  N.shiftr (address a) (32 - b.2) = N.shiftr (address b.1) (32 - b.2).
Definition blocked_blocks : list (Ipv4 * N) :=
  [(mkV4 127 0 0 0, 8); (mkV4 10 0 0 0, 8); (mkV4 172 16 0 0, 12); (mkV4 192 168 0 0, 16); (mkV4 169 254 0 0, 16);
   (mkV4 0 0 0 0, 32); (mkV4 255 255 255 255, 32)]%N.
Definition octets_fit (a : Ipv4) : Prop := (o1 a < 256 ∧ o2 a < 256 ∧ o3 a < 256 ∧ o4 a < 256)%N.

(** An octet reads back, before a dot and at the end. *)
Lemma octets_read : Forall (λ n : nat, ∀ r,
    read_number 10 3 false 255 (pretty (N.of_nat n) +:+ String "." r) = Some (N.of_nat n, String "." r) ∧
    read_number 10 3 false 255 (pretty (N.of_nat n)) = Some (N.of_nat n, "")) (seq 0 256).
Proof. cbn [seq]. repeat (apply Forall_cons_2; [intros r; split; vm_compute; reflexivity|]). apply Forall_nil_2. Qed.

Lemma octet_read n r : (n < 256)%N →
  read_number 10 3 false 255 (pretty n +:+ String "." r) = Some (n, String "." r) ∧
  read_number 10 3 false 255 (pretty n) = Some (n, "").
Proof.
  intros Hn. pose proof octets_read as H. rewrite Forall_forall in H.
  specialize (H (N.to_nat n)). rewrite N2Nat.id in H. apply H. apply elem_of_seq. lia.
Qed.

Lemma parse_show_v4 a : octets_fit a → parse_ip (show_v4 a) = Some (V4 a).
Proof.
  destruct a as [a b c d]. intros (Ha & Hb & Hc & Hd). cbn in Ha, Hb, Hc, Hd.
  change (show_v4 (mkV4 a b c d)) with
    (pretty a +:+ String "." (pretty b +:+ String "." (pretty c +:+ String "." (pretty d)))).
  unfold parse_ip, read_ipv4_addr, read_octet. cbn [read_separator].
  rewrite (proj1 (octet_read a _ Ha)). cbn [read_given_char Ascii.eqb Bool.eqb mbind option_bind].
  rewrite (proj1 (octet_read b _ Hb)). cbn [read_given_char Ascii.eqb Bool.eqb mbind option_bind].
  rewrite (proj1 (octet_read c _ Hc)). cbn [read_given_char Ascii.eqb Bool.eqb mbind option_bind].
  by rewrite (proj2 (octet_read d "" Hd)).
Qed.

(** The text of an address starts with a digit. *)
Lemma show_v4_first a : ∃ c s, show_v4 a = String c s ∧ is_Some (digit_value c).
Proof.
  unfold show_v4. pose proof (pretty_digits (o1 a)) as Hd. pose proof (pretty_nonempty (o1 a)) as Hn.
  destruct (pretty (o1 a)) as [|c s]; [done|]. cbn [str_all] in Hd. apply andb_prop in Hd as [Hd _].
  exists c, (s +:+ ("." +:+ (pretty (o2 a) +:+ ("." +:+ (pretty (o3 a) +:+ ("." +:+ pretty (o4 a))))))). split; [done|]. by apply bool_decide_eq_true_1 in Hd.
Qed.

Lemma digit_plain c : is_Some (digit_value c) →
  ascii_lower c ≠ "l"%char ∧ ascii_lower c ≠ "m"%char ∧ Ascii.eqb c "[" = false.
Proof.
  intros [n H]. repeat split; [intros Hc|intros Hc|]; revert H; try revert Hc;
    destruct c as [[] [] [] [] [] [] [] []]; vm_compute; congruence.
Qed.

Lemma v4_host a : octets_fit a →
  to_lowercase (show_v4 a) ≠ "localhost" ∧ to_lowercase (show_v4 a) ≠ "metadata.google.internal" ∧
  parse_ip (bare_host (show_v4 a)) = Some (V4 a).
Proof.
  intros Hf. pose proof (parse_show_v4 a Hf) as Hp. destruct (show_v4_first a) as (c & s & E & Hd). rewrite E in *.
  apply digit_plain in Hd as (Hl & Hm & Hb). unfold bare_host. cbn [to_lowercase strip_prefix_char]. rewrite Hb.
  repeat split; [congruence|congruence|exact Hp].
Qed.

(** The prefixes of an address in terms of its octets. *)
Lemma address_prefixes a : octets_fit a →
  N.shiftr (address a) (32 - 8) = o1 a ∧ N.shiftr (address a) (32 - 12) = (o1 a * 16 + o2 a / 16)%N ∧
  N.shiftr (address a) (32 - 16) = (o1 a * 256 + o2 a)%N ∧ N.shiftr (address a) (32 - 32) = address a.
Proof.
  unfold octets_fit, address. intros (Ha & Hb & Hc & Hd). rewrite !N.shiftr_div_pow2.
  change (2 ^ (32 - 8))%N with 16777216%N. change (2 ^ (32 - 12))%N with 1048576%N.
  change (2 ^ (32 - 16))%N with 65536%N. change (2 ^ (32 - 32))%N with 1%N.
  repeat split; symmetry.
  - apply (N.div_unique _ _ _ ((o2 a * 256 + o3 a) * 256 + o4 a)); lia.
  - apply (N.div_unique _ _ _ (((o2 a mod 16) * 256 + o3 a) * 256 + o4 a)).
    + pose proof (N.mod_lt (o2 a) 16). lia.
    + pose proof (N.div_mod (o2 a) 16). lia.
  - apply (N.div_unique _ _ _ (o3 a * 256 + o4 a)); lia.
  - by rewrite N.div_1_r.
Qed.

(** The predicates of the standard library are the blocks. *)
Lemma private_blocks a : octets_fit a → is_private_ip (V4 a) = true ↔ Exists (in_block a) blocked_blocks.
Proof.
  intros Hf. pose proof (address_prefixes a Hf) as (H8 & H12 & H16 & H32). unfold blocked_blocks, in_block.
  rewrite !Exists_cons, Exists_nil. cbn [fst snd]. rewrite H8, H12, H16, H32.
  unfold octets_fit, address, is_private_ip, is_loopback, is_private, is_link_local, is_unspecified, is_broadcast in *.
  rewrite !orb_true_iff, !andb_true_iff, !N.eqb_eq, !N.leb_le.
  repeat match goal with |- context [N.shiftr ?x ?y] => let v := eval vm_compute in (N.shiftr x y) in change (N.shiftr x y) with v end.
  cbn [o1 o2 o3 o4]. clear H8 H12 H16 H32.
  assert ((o1 a * 16 + o2 a / 16 = 2753)%N ↔ (o1 a = 172 ∧ 16 ≤ o2 a ≤ 31)%N) as ->.
  { pose proof (N.div_mod (o2 a) 16 ltac:(done)). pose proof (N.mod_lt (o2 a) 16 ltac:(done)).
    generalize dependent (o2 a / 16)%N. generalize dependent (o2 a mod 16)%N. intros r Hr q Hq. lia. }
  assert ((o1 a * 256 + o2 a = 49320)%N ↔ o1 a = 192%N ∧ o2 a = 168%N) as -> by lia.
  assert ((o1 a * 256 + o2 a = 43518)%N ↔ o1 a = 169%N ∧ o2 a = 254%N) as -> by lia.
  assert ((((o1 a * 256 + o2 a) * 256 + o3 a) * 256 + o4 a = ((0 * 256 + 0) * 256 + 0) * 256 + 0)%N ↔
    o1 a = 0%N ∧ o2 a = 0%N ∧ o3 a = 0%N ∧ o4 a = 0%N) as -> by lia.
  assert ((((o1 a * 256 + o2 a) * 256 + o3 a) * 256 + o4 a = ((255 * 256 + 255) * 256 + 255) * 256 + 255)%N ↔
    o1 a = 255%N ∧ o2 a = 255%N ∧ o3 a = 255%N ∧ o4 a = 255%N) as -> by lia.
  tauto.
Qed.

Lemma public_blocks a : octets_fit a → is_private_ip (V4 a) = false ↔ Forall (λ b, ¬ in_block a b) blocked_blocks.
Proof. intros Ha. by rewrite <- not_true_iff_false, (private_blocks a Ha), Forall_Exists_neg. Qed.

(** The check on the metadata addresses adds nothing for IPv4. *)
Lemma metadata_private a : octets_fit a → is_private_ip (V4 a) = false →
  show_v4 a ≠ "169.254.169.254" ∧ show_v4 a ≠ "fd00:ec2::254".
Proof.
  intros Ha Hp. pose proof (parse_show_v4 a Ha) as H.
  split; intros E; rewrite E in H; vm_compute in H; [|discriminate]. injection H as <-. by vm_compute in Hp.
Qed.

(** C31: A callback URL that is accepted is safe to call as far as its text
    tells: it is an http or https URL with a host that is neither localhost
    nor the metadata host, in any case, and when the host is an IPv4 address
    the URL is accepted exactly when the address lies in none of the
    loopback, private, link-local, unspecified and broadcast blocks. *)
Theorem callback_hosts_checked parse_url url u :
  parse_url url = inr u →
  (validate_callback_url parse_url url = Ok tt →
     (scheme u = "http" ∨ scheme u = "https") ∧
     ∃ h, host_str u = Some h ∧ to_lowercase h ∉ ["localhost"; "metadata.google.internal"]) ∧
  (∀ a, octets_fit a → host_str u = Some (show_v4 a) →
     validate_callback_url parse_url url = Ok tt ↔
       (scheme u = "http" ∨ scheme u = "https") ∧ Forall (λ b, ¬ in_block a b) blocked_blocks).
Proof.
  intros Hu. unfold validate_callback_url. rewrite Hu. cbv zeta. split.
  - destruct (negb _) eqn:Hs; [done|]. apply negb_false_iff, orb_true_iff in Hs. rewrite !bool_decide_eq_true in Hs.
    destruct (host_str u) as [h|]; [|done]. destruct (_ || _) eqn:Hh; [done|]. intros _. split; [done|].
    apply orb_false_iff in Hh. rewrite !bool_decide_eq_false in Hh. exists h. split; [done|]. set_solver.
  - intros a Ha ->. destruct (v4_host a Ha) as (Hl & Hm & ->). rewrite (bool_decide_eq_false_2 _ Hl), (bool_decide_eq_false_2 _ Hm). cbn [orb].
    rewrite <- (public_blocks a Ha). destruct (negb _) eqn:Hs.
    + apply negb_true_iff, orb_false_iff in Hs. rewrite !bool_decide_eq_false in Hs. intuition congruence.
    + apply negb_false_iff, orb_true_iff in Hs. rewrite !bool_decide_eq_true in Hs.
      destruct (is_private_ip (V4 a)) eqn:Hp; [intuition congruence|].
      destruct (metadata_private a Ha Hp) as [H1 H2]. rewrite (bool_decide_eq_false_2 _ H1), (bool_decide_eq_false_2 _ H2). intuition.
Qed.

Lemma callback_hosts_checked_witness :
  validate_callback_url (λ _, inr (mkUrl "https" (Some "93.184.216.34"))) "https://93.184.216.34/hook" = Ok tt.
Proof.
  apply (proj2 (callback_hosts_checked (λ _, inr (mkUrl "https" (Some "93.184.216.34"))) _ _ eq_refl) (mkV4 93 184 216 34));
    [unfold octets_fit; cbn; lia|reflexivity|].
  split; [by right|]. repeat constructor; vm_compute; discriminate.
Defined.

(** IPv6 addresses are barely checked: the address of the metadata service
    is compared with its brackets on, and neither addresses that carry an IPv4
    one nor unique-local or link-local ones are looked at. *)
Lemma internal_v6_accepted :
  Forall (λ h, validate_callback_url (λ _, inr (mkUrl "http" (Some h))) "" = Ok tt)
    ["[fd00:ec2::254]"; "[::ffff:169.254.169.254]"; "[::ffff:7f00:1]"; "[fe80::1]"; "[fc00::1]"].
Proof. repeat constructor. Qed.

Example loopback_v6_refused :
  validate_callback_url (λ _, inr (mkUrl "http" (Some "[::1]"))) "" = Err "private/reserved IP '::1' is blocked".
Proof. reflexivity. Qed.
