(* ===== verification/QueryText.v ===== *)
(** * QueryText: what the query handler reads out of the text of a query

    Models the text functions of [crates/fuse-server/src/api.rs]: the literal
    stripper every keyword search goes through, the clause readers (LIMIT,
    OFFSET, GROUP BY, HAVING, ORDER BY, ON, BETWEEN windows), the statement
    recognisers (views, CREATE TABLE AS, INSERT … SELECT), the source lists of
    both languages, the cursors, the statement splitter and the mapping of
    error texts to HTTP statuses.  An index computed on the lower-cased text
    and used on the text itself is a byte index of both, as on ASCII text.

    The loops that search from a moving index carry as fuel the length of the
    text plus one: every round moves the index by the keyword's length. *)

From S2P Require Import Prelude Strs Arrow Connector Cost.
From stdpp Require Import base list strings pretty.
From Stdlib Require Import NArith ZArith Lia Ascii SpecFloat.

(** ** Text operations *)

Definition SQUOTE : ascii := ascii_of_nat 39.

Definition str_contains (pat s : string) : bool := bool_decide (is_Some (find_sub pat s)).

(** [s.split_once(pat)] for a text pattern. *)
Definition split_once_str (pat s : string) : option (string * string) :=
  (λ i, (str_take i s, str_drop (i + String.length pat) s)) <$> find_sub pat s.

(** [s.rsplit_once(c)]. *)
Definition rsplit_once (c : ascii) (s : string) : option (string * string) :=
  (λ i, (str_take i s, str_drop (S i) s)) <$> rfind_sub (String c "") s.

(** [s.split(p).next()] and [s.rsplit(p).next()]: a split has one part at least. *)
Definition first_part (p : ascii → bool) (s : string) : string := default "" (head (split_on p s)).
Definition last_part (p : ascii → bool) (s : string) : string := default "" (last (split_on p s)).

Fixpoint count_char (c : ascii) (s : string) : nat :=
  match s with
  | EmptyString => 0
  | String a s => (if Ascii.eqb a c then 1 else 0) + count_char c s
  end.

Definition is_ascii_digit (a : ascii) : bool :=
  let n := N_of_ascii a in ((48 <=? n) && (n <=? 57))%N.
Definition is_alphabetic (a : ascii) : bool :=
  let n := N_of_ascii (ascii_lower a) in ((97 <=? n) && (n <=? 122))%N.
Definition is_alphanumeric (a : ascii) : bool := is_alphabetic a || is_ascii_digit a.

(** [u8::is_ascii_whitespace]: unlike [char::is_whitespace], without the
    vertical tab. *)
Definition is_ascii_whitespace (a : ascii) : bool :=
  let n := N_of_ascii a in ((n =? 9) || (n =? 10) || (n =? 12) || (n =? 13) || (n =? 32))%N.

Fixpoint take_chars (p : ascii → bool) (s : string) : string :=
  match s with
  | EmptyString => ""
  | String a s => if p a then String a (take_chars p s) else ""
  end.

(** [&s[i..j]] on a text: a panic when the range is not one of the text. *)
Definition str_slice {E : Type} (i j : nat) (s : string) : outcome E string :=
  if bool_decide (i ≤ j) && bool_decide (j ≤ String.length s)
  then Ok (str_take (j - i) (str_drop i s)) else Panic.

(** ** String literals *)

(** [strip_string_literals]: the state is whether the text is inside quotes. *)
Fixpoint strip_literals (in_quote : bool) (s : string) : string :=
  match s with
  | EmptyString => ""
  | String c s1 =>
      if Ascii.eqb c SQUOTE then
        if in_quote then
          match s1 with
          | String c' s2 =>
              if Ascii.eqb c' SQUOTE then strip_literals true s2
              else String SQUOTE (strip_literals false s1)
          | EmptyString => String SQUOTE (strip_literals false s1)
          end
        else String SQUOTE (strip_literals true s1)
      else if in_quote then strip_literals true s1
      else String c (strip_literals false s1)
  end.
Definition strip_string_literals (query : string) : string := strip_literals false query.

(** ** Clauses *)

Definition is_union_query (query : string) : bool :=
  let lower := to_lowercase (strip_string_literals query) in
  str_contains "union all" lower || str_contains "union " lower.

Definition is_union_distinct (query : string) : bool :=
  let lower := to_lowercase (strip_string_literals query) in
  str_contains "union " lower && negb (str_contains "union all" lower).

(** The number after the last occurrence of a keyword. *)
Definition parse_limit (query : string) : option N :=
  let stripped := to_lowercase (strip_string_literals query) in
  pos ← rfind_sub "limit " stripped;
  let after := trim (str_drop (pos + 6) stripped) in
  parse_u64 (first_part (λ c, negb (is_ascii_digit c)) after).

Definition parse_offset (query : string) : option N :=
  let stripped := to_lowercase (strip_string_literals query) in
  pos ← rfind_sub "offset " stripped;
  let after := trim (str_drop (pos + 7) stripped) in
  parse_u64 (first_part (λ c, negb (is_ascii_digit c)) after).

(** [x.split_once(pat).map(|(c, _)| c).unwrap_or(after)]: when the keyword is
    missing, the result is [after] and not the text searched. *)
Definition cut_or (after pat x : string) : string :=
  match split_once_str pat x with
  | Some (c, _) => c
  | None => after
  end.

Definition parse_group_by (query : string) : list string :=
  let stripped := strip_string_literals query in
  match rfind_sub "group by " (to_lowercase stripped) with
  | None => []
  | Some pos =>
      let after := trim (str_drop (pos + 9) stripped) in
      let clause := trim (cut_or after "limit" (cut_or after "order" (cut_or after "having" after))) in
      filter (λ c, c ≠ "") (trim <$> split_on (is_char ",") clause)
  end.

Record HavingCondition : Type := mkHaving {
  hv_column : string; hv_op : string; hv_value : spec_float }.

Section Having.
Context (parse_f64 : string → option spec_float).

(** The first operator of the list that occurs in the clause decides; a value
    that is no number ends the search. *)
Fixpoint having_ops (ops : list string) (clause : string) : option HavingCondition :=
  match ops with
  | [] => None
  | op :: ops =>
      match find_sub op clause with
      | None => having_ops ops clause
      | Some op_pos =>
          let col := trim (str_take op_pos clause) in
          let val_str := trim (str_drop (op_pos + String.length op) clause) in
          w ← head (split_whitespace val_str);
          value ← parse_f64 w;
          Some (mkHaving col op value)
      end
  end.

Definition parse_having (query : string) : option HavingCondition :=
  let stripped := strip_string_literals query in
  pos ← rfind_sub " having " (to_lowercase stripped);
  let after := trim (str_drop (pos + 8) stripped) in
  let clause := trim (cut_or after " limit" (cut_or after " order" after)) in
  having_ops [">="; "<="; "!="; ">"; "<"; "="] clause.
End Having.

Definition order_part (part : string) : option (string * bool) :=
  match split_whitespace part with
  | [] => None
  | w :: ws =>
      let col := trim_matches (λ c, negb (is_alphanumeric c) && negb (Ascii.eqb c "_")) w in
      if String.eqb col "" then None
      else Some (col, default false ((λ d, String.eqb (to_lowercase d) "desc") <$> head ws))
  end.

Definition parse_order_by (query : string) : list (string * bool) :=
  let stripped := strip_string_literals query in
  match rfind_sub "order by " (to_lowercase stripped) with
  | None => []
  | Some pos =>
      let after := trim (str_drop (pos + 9) stripped) in
      let clause := trim (cut_or after "offset" (cut_or after "limit" after)) in
      omap order_part (split_on (is_char ",") clause)
  end.

Definition build_workload (query : string) : QueryWorkload :=
  let lower := to_lowercase query in
  mkWorkload
    (str_contains "where " lower)
    (str_contains "group by" lower || str_contains "count(" lower || str_contains "sum(" lower
     || str_contains "avg(" lower)
    (str_contains "order by" lower || str_contains "sort " lower)
    (str_contains "limit " lower || str_contains "head " lower)
    (parse_limit query) 0 0 false.

(** ** Sources *)

Definition parse_qualified_name (name : string) : outcome string (string * string) :=
  let clean := default name (head (split_whitespace name)) in
  ok_or (split_once (is_char ".") clean)
    ("expected 'datasource.table', got '" +:+ clean +:+ "'").

Definition parse_ppl_sources (query : string) : outcome string (list (string * string)) :=
  let q := trim query in
  let start := match str_strip_prefix "source" q with
               | Some s => Some s
               | None => str_strip_prefix "search" q
               end in
  rest ← ok_or (s ← start; trim_start <$> strip_prefix_char "=" (trim_start s))
           "PPL query must start with 'source = '";
  let source_part := trim (first_part (is_char "|") rest) in
  mapM (λ s, parse_qualified_name (trim s)) (split_on (is_char ",") source_part).

(** A keyword counts at the start of the text, after white space, an opening
    parenthesis or a comma. *)
Definition is_word_start (lower : string) (abs_pos : nat) : bool :=
  match abs_pos with
  | 0 => true
  | S i => match String.get i lower with
           | Some b => is_ascii_whitespace b || Ascii.eqb b "(" || Ascii.eqb b ","
           | None => false
           end
  end.

Definition ref_end (c : ascii) : bool := is_whitespace c || Ascii.eqb c "," || Ascii.eqb c ")".

(** The body of the loop at one occurrence of the keyword. *)
Definition note_ref (query lower : string) (abs_pos token_start : nat) (refs : list (string * string))
    : list (string * string) :=
  if is_word_start lower abs_pos && Nat.even (count_char SQUOTE (str_take abs_pos query)) then
    match parse_qualified_name (first_part ref_end (trim_start (str_drop token_start query))) with
    | Ok r => if bool_decide (r ∈ refs) then refs else refs ++ [r]
    | _ => refs
    end
  else refs.

Fixpoint keyword_refs (fuel : nat) (query lower keyword : string) (search_from : nat)
    (refs : list (string * string)) : list (string * string) :=
  match fuel with
  | 0 => refs
  | S fuel =>
      match find_sub keyword (str_drop search_from lower) with
      | None => refs
      | Some pos =>
          let abs_pos := search_from + pos in
          let token_start := abs_pos + String.length keyword in
          keyword_refs fuel query lower keyword token_start (note_ref query lower abs_pos token_start refs)
      end
  end.

Definition parse_sql_sources (query : string) : outcome string (list (string * string)) :=
  let lower := to_lowercase query in
  let fuel := S (String.length query) in
  let refs := foldl (λ refs keyword, keyword_refs fuel query lower keyword 0 refs) [] ["from "; "join "] in
  if bool_decide (refs = [])
  then Err "SQL query must contain a FROM clause with a qualified datasource.table reference"
  else Ok refs.

(** The first source only, for the alert evaluation. *)
Definition first_source (r : outcome string (list (string * string))) : outcome string (string * string) :=
  r ≫= λ v, ok_or (head v) "no source found".
Definition parse_ppl_source (query : string) : outcome string (string * string) :=
  first_source (parse_ppl_sources query).
Definition parse_sql_source (query : string) : outcome string (string * string) :=
  first_source (parse_sql_sources query).

(** ** Statements *)

(** The text after a leading keyword, when the statement starts with it. *)
Definition after_start (kw query : string) : option string :=
  if starts_with kw (to_lowercase (trim query))
  then Some (trim (str_drop (String.length kw) (trim query))) else None.

(** [<name> AS <query>] after the keyword. *)
Definition name_as_query (after : string) : option (string * string) :=
  as_pos ← find_sub " as " (to_lowercase after);
  let name := trim (str_take as_pos after) in
  let q := trim (str_drop (as_pos + 4) after) in
  if String.eqb name "" || String.eqb q "" then None else Some (name, q).

Definition parse_create_view (query : string) : option (string * string) :=
  after_start "create view " query ≫= name_as_query.

Definition parse_create_materialized_view (query : string) : option (string * string) :=
  after_start "create materialized view " query ≫= name_as_query.

Definition parse_refresh_materialized_view (query : string) : option string :=
  name ← after_start "refresh materialized view " query;
  if String.eqb name "" then None else Some name.

Definition parse_ctas (query : string) : option (string * string * string) :=
  after ← after_start "create table " query;
  '(dest, inner_query) ← name_as_query after;
  '(ds, tbl) ← ok_value (parse_qualified_name dest);
  Some (ds, tbl, inner_query).

Definition parse_insert_into_select (query : string) : option (string * string * string) :=
  after ← after_start "insert into " query;
  sel_pos ← find_sub " select " (to_lowercase after);
  let dest := trim (str_take sel_pos after) in
  let select_query := trim (str_drop (sel_pos + 1) after) in
  if String.eqb dest "" || String.eqb select_query "" then None
  else '(ds, tbl) ← ok_value (parse_qualified_name dest); Some (ds, tbl, select_query).

(** [rewrite_contains]: the loop from [pos]. *)
Definition CONTAINS_KW : string := " contains '".

Fixpoint contains_loop (fuel : nat) (query lower : string) (pos : nat) : string :=
  match fuel with
  | 0 => ""
  | S fuel =>
      if bool_decide (pos < String.length query) then
        match find_sub CONTAINS_KW (str_drop pos lower) with
        | Some rel =>
            let before := str_take rel (str_drop pos query) in
            let term_start := pos + rel + 11 in
            match find_char (is_char SQUOTE) (str_drop term_start query) with
            | Some end_quote =>
                before +:+ " LIKE '%" +:+ str_take end_quote (str_drop term_start query) +:+ "%'"
                  +:+ contains_loop fuel query lower (term_start + end_quote + 1)
            | None =>
                before +:+ str_take 11 (str_drop (pos + rel) query)
                  +:+ contains_loop fuel query lower term_start
            end
        | None => str_drop pos query
        end
      else ""
  end.

Definition rewrite_contains (query : string) : string :=
  let lower := to_lowercase query in
  if str_contains CONTAINS_KW lower then contains_loop (S (String.length query)) query lower 0 else query.

(** [split_statements]: [current] is the statement read so far, in order. *)
Definition push_stmt (current : string) (stmts : list string) : list string :=
  let trimmed := trim current in
  if String.eqb trimmed "" then stmts else trimmed :: stmts.

Fixpoint split_stmts (in_quote : bool) (current : string) (s : string) : list string :=
  match s with
  | EmptyString => push_stmt current []
  | String c s =>
      if Ascii.eqb c SQUOTE then split_stmts (negb in_quote) (current +:+ String c "") s
      else if Ascii.eqb c ";" && negb in_quote then push_stmt current (split_stmts in_quote "" s)
      else split_stmts in_quote (current +:+ String c "") s
  end.
Definition split_statements (query : string) : list string := split_stmts false "" query.

(** ** Cursors *)

Definition encode_cursor (offset : N) : string := "fuse_c_" +:+ pretty offset.
Definition decode_cursor (cursor : string) : option N :=
  str_strip_prefix "fuse_c_" cursor ≫= parse_u64.

Definition encode_union_cursor (per_source : list (string * N)) (global_offset : N) : string :=
  "fuse_u_" +:+ join_with "," ((λ '(ds, off), ds +:+ ":" +:+ pretty off) <$> per_source)
    +:+ "|" +:+ pretty global_offset.

Definition decode_part (s : string) : option (string * N) :=
  '(ds, off) ← rsplit_once ":" s;
  o ← parse_u64 off;
  Some (ds, o).

Definition decode_union_cursor (cursor : string) : option (list (string * N) * N) :=
  rest ← str_strip_prefix "fuse_u_" cursor;
  '(sources_part, global_part) ← rsplit_once "|" rest;
  global ← parse_u64 global_part;
  Some (omap decode_part (split_on (is_char ",") sources_part), global).

(** ** Sub-queries in an IN *)

(** [find_matching_paren]: the depth starts at one, for the parenthesis
    already passed. *)
Fixpoint matching_paren (depth i : nat) (s : string) : option nat :=
  match s with
  | EmptyString => None
  | String c s =>
      if Ascii.eqb c "(" then matching_paren (S depth) (S i) s
      else if Ascii.eqb c ")" then
        if Nat.eqb (depth - 1) 0 then Some i else matching_paren (depth - 1) (S i) s
      else matching_paren depth (S i) s
  end.
Definition find_matching_paren (s : string) : option nat := matching_paren 1 0 s.

Record InSubquery : Type := mkInSubquery {
  outer_column : string; in_datasource : string; in_table : string;
  inner_column : string; inner_query : string; full_match : string }.

(** The column an inner query selects: the slice starts after [SELECT ] and
    panics when [ FROM ] comes at once. *)
Definition inner_select (inner : string) : outcome string string :=
  match find_sub " from " (to_lowercase inner) with
  | Some sel_end =>
      sel ← str_slice 7 sel_end inner;
      Ok (trim (first_part (is_char ",") (trim sel)))
  | None => Ok "*"
  end.

(** What one occurrence of [ IN (SELECT ] gives. *)
Definition in_subquery_at (stripped : string) (abs_in : nat) : outcome string (list InSubquery) :=
  let col := trim (last_part (λ c, is_whitespace c || Ascii.eqb c "(") (trim (str_take abs_in stripped))) in
  let select_start := abs_in + 5 in
  let inner_sql := str_drop select_start stripped in
  match find_matching_paren inner_sql with
  | None => Ok []
  | Some close =>
      let inner := trim (str_take close inner_sql) in
      match parse_sql_sources inner with
      | Ok ((ds, tbl) :: _) =>
          inner_col ← inner_select inner;
          Ok [mkInSubquery col ds tbl inner_col inner
                (str_take (select_start + close + 1 - abs_in) (str_drop abs_in stripped))]
      | _ => Ok []
      end
  end.

Fixpoint in_subqueries_from (fuel : nat) (stripped lower : string) (pos : nat)
    : outcome string (list InSubquery) :=
  match fuel with
  | 0 => Ok []
  | S fuel =>
      match find_sub " in (select " (str_drop pos lower) with
      | None => Ok []
      | Some in_pos =>
          here ← in_subquery_at stripped (pos + in_pos);
          rest ← in_subqueries_from fuel stripped lower (pos + in_pos + 4);
          Ok (here ++ rest)
      end
  end.

Definition extract_in_subqueries (query : string) : outcome string (list InSubquery) :=
  let stripped := strip_string_literals query in
  let lower := to_lowercase stripped in
  if str_contains " in (select " lower
  then in_subqueries_from (S (String.length lower)) stripped lower 0 else Ok [].

(** ** The ON clause *)

Record TimeWindow : Type := mkWindow { column_a : string; column_b : string; interval_secs : Z }.

(** The first number of the text, and the unit after its first occurrence;
    the product wraps around as it does in a release build. *)
Definition extract_interval_secs (s : string) : option Z :=
  let re_num := take_chars is_ascii_digit (trim_start_while (λ c, negb (is_ascii_digit c)) s) in
  num ← parse_i64 re_num;
  at_num ← find_sub re_num s;
  let after_num := trim_start (str_drop (at_num + String.length re_num) s) in
  let unit := to_lowercase (take_chars is_alphabetic after_num) in
  let is_one_of (l : list string) := bool_decide (unit ∈ l) in
  Some (if is_one_of ["s"; "sec"; "second"; "seconds"] then num
        else if is_one_of ["m"; "min"; "minute"; "minutes"] then wrap_i64 (num * 60)
        else if is_one_of ["h"; "hour"; "hours"] then wrap_i64 (num * 3600)
        else if is_one_of ["d"; "day"; "days"] then wrap_i64 (num * 86400)
        else num)%Z.

Definition parse_time_window (query : string) : option TimeWindow :=
  let lower := to_lowercase (strip_string_literals query) in
  on_pos ← find_sub " on " lower;
  let on_clause := str_drop (on_pos + 4) lower in
  between_pos ← find_sub " between " on_clause;
  let before_between := trim (str_take between_pos on_clause) in
  let col_a := trim (last_part (λ c, is_whitespace c || Ascii.eqb c "(") before_between) in
  if String.eqb col_a "" then None
  else
    let after_between := str_drop (between_pos + 9) on_clause in
    secs ← extract_interval_secs after_between;
    col_b ← List.find (λ t, negb (String.eqb t "") && str_contains "." t && negb (String.eqb t col_a))
              (split_on (λ c, negb (is_alphanumeric c) && negb (Ascii.eqb c ".") && negb (Ascii.eqb c "_"))
                 after_between);
    Some (mkWindow col_a col_b secs).

Definition parse_on_keys (query : string) : option (string * string) :=
  on_pos ← find_sub " on " (to_lowercase query);
  let after := trim (str_drop (on_pos + 4) query) in
  eq_pos ← find_char (is_char "=") after;
  let left_part := trim (str_take eq_pos after) in
  let right_part := trim (str_drop (eq_pos + 1) after) in
  let right_token := first_part is_whitespace right_part in
  let left_col := trim (last_part (is_char ".") left_part) in
  let right_col := trim (last_part (is_char ".") right_token) in
  if String.eqb left_col "" || String.eqb right_col "" then None else Some (left_col, right_col).

(** ** Reports *)

Definition describe_pushdown (sq : SubQuery) : list string :=
  (if bool_decide (projections sq = []) then [] else ["projection: " +:+ join_with ", " (projections sq)]) ++
  (match filter_expr sq with Some _ => ["filter: pushed"] | None => [] end) ++
  (if bool_decide (aggregations sq = []) then []
   else ["aggregation: " +:+ pretty (N.of_nat (length (aggregations sq))) +:+ " agg(s)"]) ++
  (if bool_decide (group_by sq = []) then [] else ["group_by: " +:+ join_with ", " (group_by sq)]) ++
  (match limit sq with Some n => ["limit: " +:+ pretty n] | None => [] end).

Definition any_contains (pats : list string) (s : string) : bool := existsb (λ p, str_contains p s) pats.

Definition connector_error_status (msg : string) : N :=
  let lower := to_lowercase msg in
  if any_contains ["credential"; "authentication"; "security token"; "signing"; "connection refused";
                   "connect error"; "unreachable"] lower then 502
  else if any_contains ["not found"; "does not exist"] lower then 404
  else if any_contains ["timed out"; "timeout"] lower then 408
  else if str_contains "exceeds" lower && str_contains "limit" lower then 413
  else if any_contains ["permission"; "unauthorized"; "not authorized"; "access denied"; "accessdenied"] lower
  then 403
  else 500.

Definition is_server_error (status : N) : bool := ((500 <=? status) && (status <? 600))%N.

(** [error_json]: the body's message, next to the status. *)
Definition error_json (status : N) (message : string) : N * string :=
  (status,
   if is_server_error status && negb (str_contains "timed out" message) && negb (str_contains "cancelled" message)
   then "internal server error" else message).

(** [extract_client_ip]; [header n] is the value of a header that is text. *)
Definition extract_client_ip (header : string → option string) : option string :=
  match header "x-forwarded-for" with
  | Some s => Some (trim (first_part (is_char ",") s))
  | None => trim <$> header "x-real-ip"
  end.
