(* ===== verification/Lineage.v ===== *)
(** * Lineage: which sources flow into a result

    Models [fuse-server/src/lineage.rs]: the table references and operators
    read from the text of a query, the graph made of them, and the store with
    its catalog.  The order in which a hash map is walked is an argument. *)

From stdpp Require Import base list strings gmap relations pretty.
From Stdlib Require Import NArith ZArith Lia Ascii Sorted.
From S2P Require Import Prelude Strs Sorting Logs PlanTools QueryText.

(** ** Lineage of one query *)

Record LineageSource : Type := mkLineageSource { ls_datasource : string; ls_table : string; rows_scanned : option N; bytes_read : option N; push_down_applied : bool }.
Record QueryLineage : Type := mkQueryLineage { ql_id : string; ql_sources : list LineageSource; join_type : option string; ql_timestamp : N }.

Definition lineage_new (query_id : string) (sources : list (string * string)) (now : N) : QueryLineage :=
  mkQueryLineage query_id ((λ s, mkLineageSource s.1 s.2 None None false) <$> sources) None now.
Definition with_join (l : QueryLineage) (t : string) : QueryLineage := mkQueryLineage (ql_id l) (ql_sources l) (Some t) (ql_timestamp l).
Definition datasource_ids (l : QueryLineage) : list string := ls_datasource <$> ql_sources l.
Definition is_cross_source (l : QueryLineage) : bool :=
  1 <? length (dedup_neighbours (sort_by String.compare (datasource_ids l))).

(** ** The text of a query *)

(** What a part of a PPL query names. *)
Definition ppl_refs (part : string) : list string :=
  let trimmed := trim part in
  option_list (rest ← str_strip_prefix "source" trimmed; tbl ← strip_prefix_char "=" (trim rest); t ← head (split_whitespace tbl); if String.eqb t "" then None else Some t) ++
  (if starts_with "lookup" trimmed then option_list (split_whitespace trimmed !! 1) else []).

Definition sql_ref (tokens : list string) (i : nat) : option string :=
  tok ← tokens !! i;
  if String.eqb (to_uppercase tok) "FROM" || String.eqb (to_uppercase tok) "JOIN" then
    next ← tokens !! S i;
    let tbl := trim_end_while (λ a, is_char "," a || is_char ")" a) next in
    if negb (String.eqb tbl "") && negb (starts_with_char "(" tbl) && negb (String.eqb (to_uppercase tbl) "SELECT") then Some tbl else None
  else None.

Definition raw_refs (query format : string) : list string :=
  if String.eqb format "ppl" then split_on (is_char "|") query ≫= ppl_refs
  else let tokens := split_whitespace query in omap (sql_ref tokens) (seq 0 (length tokens)).

Definition extract_table_refs (query format : string) : list string :=
  dedup_neighbours (sort_by String.compare (raw_refs query format)).

Definition detect_transforms (upper : string) : list string :=
  (if str_contains " JOIN " upper then ["JOIN"] else []) ++
  (if str_contains " WHERE " upper || str_contains "| WHERE " upper then ["FILTER"] else []) ++
  (if str_contains " GROUP BY " upper || str_contains "| STATS " upper then ["AGGREGATE"] else []) ++
  (if str_contains " ORDER BY " upper || str_contains "| SORT " upper then ["SORT"] else []) ++
  (if str_contains " UNION " upper then ["UNION"] else []) ++
  (if str_contains "ROW_NUMBER" upper || str_contains "RANK(" upper || str_contains " OVER " upper then ["WINDOW"] else []).

(** ** The graph *)

Inductive NodeType : Type := Source | Transform | Sink.
#[export] Instance NodeType_eq_dec : EqDecision NodeType.
Proof. solve_decision. Defined.
Record LineageNode : Type := mkLineageNode { node_id : string; node_label : string; node_type : NodeType; metadata : list (string * string) }.
Record LineageEdge : Type := mkEdge { edge_from : string; edge_to : string; edge_label : option string }.
Record LineageGraph : Type := mkGraph { lg_query : string; nodes : list LineageNode; edges : list LineageEdge }.

Definition nid (n : nat) : string := "n" +:+ pretty (N.of_nat n).

Definition source_meta (t : string) : list (string * string) :=
  match split_once (is_char ".") t with Some (ds, tbl) => [("datasource", ds); ("table", tbl)] | None => [] end.
Definition source_node (i : nat) (t : string) : LineageNode := mkLineageNode (nid i) t Source (source_meta t).

Definition edges_to (prev : list string) (n : string) : list LineageEdge := (λ p, mkEdge p n None) <$> prev.

(** The operators one after the other, then the result; [k] is the next number. *)
Fixpoint link (k : nat) (prev : list string) (tfs : list string) : list LineageNode * list LineageEdge :=
  match tfs with
  | [] => ([mkLineageNode (nid k) "Result" Sink []], edges_to prev (nid k))
  | tf :: tfs =>
      let '(ns, es) := link (S k) [nid k] tfs in
      (mkLineageNode (nid k) tf Transform [] :: ns, edges_to prev (nid k) ++ es)
  end.

Definition extract_lineage (query format : string) : LineageGraph :=
  let tables := extract_table_refs query format in
  let sources := imap source_node tables in
  let '(ns, es) := link (length tables) (node_id <$> sources) (detect_transforms (to_uppercase query)) in
  mkGraph query (sources ++ ns) es.

(** ** The store *)

(** [e.remove(0)] panics on an empty store that may keep nothing: [None]. *)
Definition store_record (max : nat) (es : list LineageGraph) (g : LineageGraph) : option (list LineageGraph) :=
  if max <=? length es then match es with [] => None | _ :: es => Some (es ++ [g]) end else Some (es ++ [g]).

Record CatalogEntry : Type := mkCatalog { ce_name : string; ce_datasource : string; ce_table : string; query_count : nat }.

Definition source_labels (g : LineageGraph) : list string := node_label <$> filter (λ n, node_type n = Source) (nodes g).
Definition count_label (m : gmap string nat) (l : string) : gmap string nat := <[l := default 0 (m !! l) + 1]> m.
Definition seen (es : list LineageGraph) : gmap string nat := foldl count_label ∅ (es ≫= source_labels).
Definition catalog_entry (e : string * nat) : CatalogEntry :=
  match split_once (is_char ".") e.1 with
  | Some (ds, tbl) => mkCatalog e.1 ds tbl e.2
  | None => mkCatalog e.1 e.1 "" e.2
  end.
Definition by_query_count (a b : CatalogEntry) : comparison := Nat.compare (query_count b) (query_count a).
Definition catalog (walk : gmap string nat → list (string * nat)) (es : list LineageGraph) : list CatalogEntry :=
  sort_by by_query_count (catalog_entry <$> walk (seen es)).

(** ** Properties *)

Definition flows (g : LineageGraph) (a b : string) : Prop := ∃ l, mkEdge a b l ∈ edges g.

#[export] Instance nid_inj : Inj (=) (=) nid.
Proof. intros i j H. unfold nid in H. apply (inj (String.append "n")) in H. apply (inj pretty) in H. lia. Qed.

Lemma link_ids k prev tfs : node_id <$> (link k prev tfs).1 = nid <$> seq k (S (length tfs)).
Proof.
  revert k prev. induction tfs as [|tf tfs IH]; intros k prev; [done|]. cbn [link]. specialize (IH (S k) [nid k]).
  destruct (link (S k) [nid k] tfs) as [ns es]. cbn [fst] in IH. cbn [fst fmap list_fmap]. rewrite IH. done.
Qed.

(** Edges go from earlier numbers to later ones. *)
Lemma link_edges k prev tfs P : Forall P prev → (∀ p, P p → ∃ i, p = nid i ∧ i < k) →
  Forall (λ e, ∃ i j, edge_from e = nid i ∧ edge_to e = nid j ∧ i < j ≤ k + length tfs) (link k prev tfs).2.
Proof.
  revert k prev P. induction tfs as [|tf tfs IH]; intros k prev P Hp Hlt; cbn [link].
  - cbn. apply Forall_fmap. apply (Forall_impl _ _ _ Hp). intros p Hpp. destruct (Hlt p Hpp) as (i & -> & Hi). exists i, k. split; [done|]. split; [done|]. lia.
  - specialize (IH (S k) [nid k] (λ p, p = nid k)). destruct (link (S k) [nid k] tfs) as [ns es]. cbn [snd] in *. apply Forall_app_2.
    + apply Forall_fmap. apply (Forall_impl _ _ _ Hp). intros p Hpp. destruct (Hlt p Hpp) as (i & -> & Hi). exists i, k. split; [done|]. split; [done|]. lia.
    + eapply Forall_impl; [apply IH|].
      * by apply Forall_singleton.
      * intros p ->. exists k. split; [done|lia].
      * intros e (i & j & H1 & H2 & H3). exists i, j. cbn [length]. split; [done|]. split; [done|]. lia.
Qed.

Lemma link_reaches k prev tfs (E : list LineageEdge) : (∀ e, e ∈ (link k prev tfs).2 → e ∈ E) →
  ∀ p, p ∈ prev ++ (nid <$> seq k (length tfs)) → rtc (λ a b, ∃ l, mkEdge a b l ∈ E) p (nid (k + length tfs)).
Proof.
  revert k prev. induction tfs as [|tf tfs IH]; intros k prev HE p Hp; cbn [link] in HE.
  - cbn in Hp. rewrite app_nil_r in Hp. rewrite Nat.add_0_r. apply rtc_once. exists None. apply HE. cbn. unfold edges_to. apply list_elem_of_fmap. by exists p.
  - specialize (IH (S k) [nid k]). destruct (link (S k) [nid k] tfs) as [ns es]. cbn [snd length] in *. rewrite <- Nat.add_succ_comm.
    assert (∀ q, q ∈ [nid k] ++ (nid <$> seq (S k) (length tfs)) → rtc (λ a b, ∃ l, mkEdge a b l ∈ E) q (nid (S k + length tfs))) as IH'.
    { apply IH. intros e He. apply HE, elem_of_app. by right. }
    apply elem_of_app in Hp as [Hp|Hp]; [|by apply IH'].
    eapply rtc_l; [|apply IH'; by left]. exists None. apply HE, elem_of_app. left. unfold edges_to. apply list_elem_of_fmap. by exists p.
Qed.

Lemma sources_ids tables : node_id <$> imap source_node tables = nid <$> seq 0 (length tables).
Proof. rewrite fmap_imap. exact (imap_seq_0 tables nid). Qed.

Lemma sources_labels tables : node_label <$> filter (λ n, node_type n = Source) (imap source_node tables) = tables.
Proof.
  assert (∀ f : nat → nat, node_label <$> filter (λ n, node_type n = Source) (imap (λ i, source_node (f i)) tables) = tables) as H; [|apply (H (λ i, i))].
  induction tables as [|t tables IH]; intros f; [done|]. cbn [imap]. rewrite filter_cons_True by done. rewrite fmap_cons. f_equal. apply (IH (f ∘ S)).
Qed.

Lemma link_types k prev tfs :
  (∃ s, last (link k prev tfs).1 = Some s ∧ node_type s = Sink ∧ node_id s = nid (k + length tfs)) ∧
  filter (λ n, node_type n = Source) (link k prev tfs).1 = [].
Proof.
  revert k prev. induction tfs as [|tf tfs IH]; intros k prev.
  - cbn. rewrite Nat.add_0_r. split; [by eexists|done].
  - cbn [link]. destruct (IH (S k) [nid k]) as [(s & Hl & Ht & Hid) Hf]. destruct (link (S k) [nid k] tfs) as [ns es]. cbn [fst length] in *. split.
    + exists s. rewrite last_cons, Hl. split; [done|]. split; [done|]. rewrite Hid. f_equal. lia.
    + by rewrite filter_cons_False.
Qed.

(** The lineage graph of a query is a pipeline: its nodes carry distinct
    identifiers, its sources are exactly the table references of the text, an
    edge leads from a node to a later one, so that no node reaches itself, and
    from every node the result is reached. *)
Theorem lineage_is_pipeline query format :
  let g := extract_lineage query format in
  NoDup (node_id <$> nodes g) ∧ source_labels g = extract_table_refs query format ∧
  (∀ i j a b, nodes g !! i = Some a → nodes g !! j = Some b → flows g (node_id a) (node_id b) → i < j) ∧
  (∀ a, a ∈ nodes g → ∃ s, node_type s = Sink ∧ last (nodes g) = Some s ∧ rtc (flows g) (node_id a) (node_id s)).
Proof.
  intros g. unfold g, extract_lineage. set (tables := extract_table_refs query format). set (tfs := detect_transforms (to_uppercase query)).
  rewrite sources_ids. pose proof (link_ids (length tables) (nid <$> seq 0 (length tables)) tfs) as Hids.
  pose proof (link_edges (length tables) (nid <$> seq 0 (length tables)) tfs (λ p, ∃ i, p = nid i ∧ i < length tables)) as Hedges.
  pose proof (link_reaches (length tables) (nid <$> seq 0 (length tables)) tfs) as Hreach.
  pose proof (link_types (length tables) (nid <$> seq 0 (length tables)) tfs) as [Hsink Hno].
  destruct (link _ _ _) as [ns es]. cbn [fst snd] in *. cbn [nodes edges].
  assert (node_id <$> (imap source_node tables ++ ns) = nid <$> seq 0 (length tables + S (length tfs))) as Hall.
  { rewrite fmap_app, sources_ids, Hids, <- fmap_app, <- seq_app. done. }
  assert (∀ i a, (imap source_node tables ++ ns) !! i = Some a → node_id a = nid i) as Hat.
  { intros i a Ha. assert ((node_id <$> (imap source_node tables ++ ns)) !! i = Some (node_id a)) as H by by rewrite list_lookup_fmap, Ha.
    rewrite Hall, list_lookup_fmap in H. destruct (seq _ _ !! i) as [x|] eqn:Ex; [|done]. apply lookup_seq in Ex as [-> _]. by injection H. }
  split; [|split; [|split]].
  - rewrite Hall. apply NoDup_fmap; [apply _|]. apply NoDup_seq.
  - unfold source_labels. cbn [nodes]. rewrite filter_app, Hno, app_nil_r. apply sources_labels.
  - intros i j a b Ha Hb [l Hl]. cbn [edges] in Hl. apply Hat in Ha, Hb.
    assert (Forall (λ p, ∃ i, p = nid i ∧ i < length tables) (nid <$> seq 0 (length tables))) as Hp.
    { apply Forall_fmap, Forall_forall. intros x Hx. apply elem_of_seq in Hx. exists x. split; [done|lia]. }
    specialize (Hedges Hp ltac:(done)). rewrite Forall_forall in Hedges. destruct (Hedges _ Hl) as (x & y & Hx & Hy & Hxy). cbn in Hx, Hy.
    rewrite Ha in Hx. rewrite Hb in Hy. apply (inj nid) in Hx, Hy. lia.
  - intros a Ha. destruct Hsink as (s & Hs & Ht & Hid). exists s. split; [done|]. split; [by rewrite last_app, Hs|].
    apply list_elem_of_lookup in Ha as [i Hi]. pose proof (lookup_lt_Some _ _ _ Hi) as Hlt. rewrite (Hat i a Hi), Hid.
    assert (i < length tables + S (length tfs)) as Hlt'.
    { rewrite <- (length_fmap node_id), Hall, length_fmap, length_seq in Hlt. done. }
    destruct (decide (i = length tables + length tfs)) as [->|Hne]; [apply rtc_refl|].
    apply (Hreach es (λ e He, He)). rewrite <- fmap_app, <- seq_app. apply list_elem_of_fmap_2. apply elem_of_seq. lia.
Qed.

(** The catalog lists every table with the number of stored graphs that read
    it, the most read first. *)
Lemma seen_counts ls l : default 0 (foldl count_label ∅ ls !! l) = length (filter (λ x, x = l) ls).
Proof.
  induction ls as [|x ls IH] using rev_ind; [done|]. rewrite foldl_snoc, filter_app, length_app. unfold count_label at 1.
  destruct (decide (x = l)) as [->|Hne].
  - rewrite lookup_insert_eq, filter_cons_True by done. cbn. by rewrite IH.
  - rewrite lookup_insert_ne, filter_cons_False by done. cbn. by rewrite IH, Nat.add_0_r.
Qed.

Lemma catalog_sorted walk es : StronglySorted (λ a b, query_count b ≤ query_count a) (catalog walk es).
Proof.
  assert (TotalPreorder by_query_count) as HT by (apply (total_preorder_flip (λ a b, Nat.compare (query_count a) (query_count b))), (total_preorder_by query_count Nat.compare), _).
  eapply StronglySorted_impl_in, (sort_by_sorted by_query_count). intros a b _ _. unfold sort_le, by_query_count. rewrite Nat.compare_gt_iff. lia.
Qed.

(** Of a list of tables only the first is seen. *)
Example comma_list_loses_tables : extract_table_refs "SELECT * FROM a.t, b.u" "sql" = ["a.t"].
Proof. by vm_compute. Qed.

(** A word in a literal counts as an operator. *)
Example literal_is_transform : detect_transforms (to_uppercase "SELECT * FROM a.t WHERE note = 'no order by here'") = ["FILTER"; "SORT"].
Proof. by vm_compute. Qed.
