(* ===== verification/QueryStrings.v ===== *)
(** * QueryStrings: helpers of the server on query texts

    Models, under [fuse-server/src]: [sanitize.rs], [fingerprint.rs],
    [cache_key.rs], [query_parser.rs], [validate.rs], [rewrite.rs],
    [complexity.rs] and [query_diff.rs]. *)

From stdpp Require Import base list strings pretty.
From Stdlib Require Import NArith ZArith Lia Ascii.
From S2P Require Import Prelude Strs Json QueryText JsonRef.

Definition quote : ascii := "'".
Definition is_quote : ascii → bool := is_char quote.
Definition is_digit (a : ascii) : bool := bool_decide (is_Some (digit_value a)).
Definition is_alnum (a : ascii) : bool :=
  let n := nat_of_ascii (ascii_lower a) in is_digit a || ((97 <=? n) && (n <=? 122)).

(** ** Redaction ([sanitize.rs]) *)

(** [inside] says whether a literal is being skipped. *)
Fixpoint sanitize_go (inside : bool) (s : string) : string :=
  match s with
  | EmptyString => ""
  | String c s' =>
      if inside then
        if is_quote c then
          match s' with
          | String d s'' => if is_quote d then sanitize_go true s'' else sanitize_go false s'
          | EmptyString => ""
          end
        else sanitize_go true s'
      else if is_quote c then "'***'" +:+ sanitize_go true s'
      else String c (sanitize_go false s')
  end.
Definition sanitize_query (q : string) : string := sanitize_go false q.

(** ** Fingerprints ([fingerprint.rs]) *)

Inductive fp_mode : Type := FText | FLiteral | FNumber.

(** [word] says whether the last character written is a letter, a digit or an
    underscore. *)
Fixpoint fp_go (m : fp_mode) (word : bool) (s : string) : string :=
  match s with
  | EmptyString => ""
  | String c s' =>
      let text :=
        if is_quote c then String "?" (fp_go FLiteral false s')
        else if is_digit c && negb word then String "?" (fp_go FNumber false s')
        else String c (fp_go FText (is_alnum c || is_char "_" c) s') in
      match m with
      | FText => text
      | FNumber => if is_digit c || is_char "." c then fp_go FNumber word s' else text
      | FLiteral =>
          if is_quote c then
            match s' with
            | String d s'' => if is_quote d then fp_go FLiteral word s'' else fp_go FText word s'
            | EmptyString => ""
            end
          else fp_go FLiteral word s'
      end
  end.
Definition normalize (s : string) : string := join_with " " (split_whitespace s).
Definition fingerprint (q : string) : string := normalize (fp_go FText false q).

(** ** Cache keys ([cache_key.rs]) *)

Definition build_key (format query : string) (tenant : option string) : string :=
  let normalized := to_lowercase (normalize query) in
  match tenant with
  | Some t => t +:+ ":" +:+ format +:+ ":" +:+ normalized
  | None => format +:+ ":" +:+ normalized
  end.
Definition build_key_with_params (format query : string) (params : list string) : string :=
  let base := build_key format query None in
  match params with [] => base | _ => base +:+ "|" +:+ join_with "," params end.

(** ** Parts of a query ([query_parser.rs]) *)

(** The loop over the places of a keyword; each round moves past one. *)
Fixpoint tables_after (fuel : nat) (keyword upper query : string) (pos : nat) : list string :=
  match fuel with
  | 0 => []
  | S fuel =>
      match find_sub keyword (str_drop pos upper) with
      | None => []
      | Some idx =>
          let start := pos + idx + String.length keyword in
          (match head (split_whitespace (str_drop start query)) with
           | Some token =>
               let clean := trim_end_while (λ a, is_char "," a || is_char ")" a || is_char ";" a) token in
               if negb (String.eqb clean "") && str_contains "." clean then [clean] else []
           | None => []
           end) ++ tables_after fuel keyword upper query start
      end
  end.
Definition extract_tables (query : string) : list string :=
  let upper := to_uppercase query in
  tables_after (S (String.length query)) "FROM " upper query 0 ++ tables_after (S (String.length query)) "JOIN " upper query 0.

Definition extract_limit (query : string) : option N :=
  pos ← rfind_sub "LIMIT " (to_uppercase query);
  t ← head (split_whitespace (trim (str_drop (pos + 6) query)));
  parse_u64 t.

Definition is_read_only (query : string) : bool :=
  let t := to_uppercase (trim query) in starts_with "SELECT" t || starts_with "EXPLAIN" t || starts_with "SHOW" t.

Definition extract_format_hint (query : string) : option string :=
  start ← find_sub "/* format:" query;
  let rest := str_drop (start + 10) query in
  stop ← find_sub "*/" rest;
  Some (trim (str_take stop rest)).

(** ** Requests ([validate.rs]) *)

Record ValidationError : Type := mkValidation { v_field : string; v_message : string }.
Definition validate_request (query format : string) (page_size : option N) (timeout_ms : option N) : list ValidationError :=
  (if String.eqb (trim query) "" then [mkValidation "query" "query cannot be empty"] else []) ++
  (if (1000000 <? N.of_nat (String.length query))%N then [mkValidation "query" "query exceeds maximum length (1MB)"] else []) ++
  (if String.eqb format "sql" || String.eqb format "ppl" then []
   else [mkValidation "format" ("unsupported format '" +:+ format +:+ "', use 'sql' or 'ppl'")]) ++
  (match page_size with
   | Some ps => if (ps =? 0)%N || (10000 <? ps)%N then [mkValidation "page_size" "page_size must be between 1 and 10000"] else []
   | None => []
   end) ++
  (match timeout_ms with
   | Some t => if (300000 <? t)%N then [mkValidation "timeout_ms" "timeout_ms cannot exceed 300000 (5 minutes)"] else []
   | None => []
   end).

(** ** Rewrite rules ([rewrite.rs]) *)

Record RewriteRule : Type := mkRewrite { rw_name : string; rw_apply : string → string }.
Definition apply_rules (query : string) (rules : list RewriteRule) : string := foldl (λ q r, rw_apply r q) query rules.
Definition normalize_whitespace (query : string) : string := normalize query.
Definition add_default_limit (query : string) : string :=
  let upper := to_uppercase query in
  if negb (str_contains "LIMIT" upper) && starts_with "SELECT" upper && negb (str_contains "COUNT(" upper)
  then trim (trim_end_while (is_char ";") query) +:+ " LIMIT 10000" else query.
Definition default_rules : list RewriteRule :=
  [mkRewrite "normalize_whitespace" normalize_whitespace; mkRewrite "add_default_limit" add_default_limit].

(** ** Complexity ([complexity.rs]) *)

Fixpoint count_after (fuel : nat) (keyword upper : string) (pos : nat) : nat :=
  match fuel with
  | 0 => 0
  | S fuel =>
      match find_sub keyword (str_drop pos upper) with
      | None => 0
      | Some idx =>
          let start := pos + idx + String.length keyword in
          match head (split_whitespace (str_drop start upper)) with
          | Some token => if str_contains "." token then 1 else 0
          | None => 0
          end + count_after fuel keyword upper start
      end
  end.
Definition count_datasources (upper : string) : nat :=
  (count_after (S (String.length upper)) "FROM " upper 0 + count_after (S (String.length upper)) "JOIN " upper 0) `max` 1.

Record ComplexityScore : Type := mkScore {
  score : N; datasource_count : nat; has_join : bool; has_union : bool; has_subquery : bool; has_aggregation : bool; level : string }.

Definition points (b : bool) (n : N) : N := if b then n else 0%N.
Definition level_of (s : N) : string :=
  if (s <=? 3)%N then "simple" else if (s <=? 8)%N then "moderate" else if (s <=? 15)%N then "complex" else "very_complex".

Definition score_query (query : string) : ComplexityScore :=
  let upper := to_uppercase query in
  let ds := count_datasources upper in
  let join := str_contains " JOIN " upper in
  let union := str_contains " UNION " upper in
  let sub := str_contains "(SELECT" upper || str_contains "( SELECT" upper in
  let agg := existsb (λ k, str_contains k upper) ["GROUP BY"; "COUNT("; "SUM("; "AVG("; "MAX("; "MIN("] in
  let s := (1 + N.of_nat (ds - 1) * 3 + points join 5 + points union 3 + points sub 4 + points agg 2 + points (str_contains "ORDER BY" upper) 1
            + points (str_contains "WINDOW" upper || str_contains "OVER(" upper || str_contains "OVER (" upper) 3)%N in
  mkScore s ds join union sub agg (level_of s).

(** ** Differences of results ([query_diff.rs]) *)

Record Difference : Type := mkDifference { d_row : nat; d_column : string; d_left : Value; d_right : Value }.
Record DiffResult : Type := mkDiff { schema_match : bool; row_count_match : bool; left_rows : nat; right_rows : nat; differences : list Difference }.

Section Diff.
Context `{J : JsonOps}.

(** The differing cells of one row, in order. *)
Definition row_diffs (cols : list string) (i : nat) (l r : list Value) : list Difference :=
  omap (λ '(j, (c, (x, y))), if value_eqb x y then None else Some (mkDifference i c x y)) (enumerate (zip cols (zip l r))).

(** Rows are compared until there are enough differences. *)
Fixpoint diff_rows (cols : list string) (max : nat) (i : nat) (ls rs : list (list Value)) (acc : list Difference) : list Difference :=
  match ls, rs with
  | l :: ls, r :: rs =>
      let fresh := row_diffs cols i l r in
      let acc := acc ++ take (1 `max` (max - length acc)) fresh in
      if max <=? length acc then acc else diff_rows cols max (S i) ls rs acc
  | _, _ => acc
  end.

Definition diff (lcols : list string) (ls : list (list Value)) (rcols : list string) (rs : list (list Value)) (max : nat) : DiffResult :=
  mkDiff (bool_decide (lcols = rcols)) (length ls =? length rs) (length ls) (length rs) (diff_rows lcols max 0 ls rs []).
End Diff.

(** * What helpers on query texts keep and hide

    A query is texts with holes: string literals and numbers.  Redaction and
    fingerprints depend on the texts only; differences of results are those of
    the cells; and examples show which keys and rules look into literals. *)

(** ** Queries with holes *)

(** The body of a literal, its quotes doubled. *)
Fixpoint dbl (b : string) : string :=
  match b with
  | EmptyString => ""
  | String c b => if is_quote c then String quote (String quote (dbl b)) else String c (dbl b)
  end.

Inductive hole : Type := HLit (body : string) | HNum (digits : string).
Definition hole_text (h : hole) : string := match h with HLit b => "'" +:+ dbl b +:+ "'" | HNum n => n end.

(** Texts, each followed by a hole, then a last text. *)
Definition render (fs : list (string * hole)) (tail : string) : string := foldr (λ f s, f.1 +:+ hole_text f.2 +:+ s) tail fs.
(** The holes filled with something else. *)
Definition fill (mark : hole → string) (fs : list (string * hole)) (tail : string) : string := foldr (λ f s, f.1 +:+ mark f.2 +:+ s) tail fs.

Definition starts_quote (s : string) : bool := match s with String c _ => is_quote c | EmptyString => false end.
Definition unquoted (s : string) : bool := str_all (λ a, negb (is_quote a)) s.

(** *** Redaction *)

(** Texts have no quotes, and a text stands between two literals. *)
Fixpoint sanitizable (fs : list (string * hole)) (tail : string) : bool :=
  match fs with
  | [] => unquoted tail
  | (t, h) :: fs =>
      unquoted t && match h with HLit _ => negb (starts_quote (render fs tail)) | HNum n => unquoted n end && sanitizable fs tail
  end.

Definition redacted (h : hole) : string := match h with HLit _ => "'***'" | HNum n => n end.

Lemma sanitize_text t s : unquoted t = true → sanitize_go false (t +:+ s) = t +:+ sanitize_go false s.
Proof.
  induction t as [|c t IH]; [done|]. cbn [unquoted str_all]. intros [Hc Ht]%andb_prop. apply negb_true_iff in Hc.
  rewrite !str_app_cons. cbn [sanitize_go]. by rewrite Hc, IH.
Qed.

Lemma sanitize_literal b s : starts_quote s = false → sanitize_go true (dbl b +:+ String quote s) = sanitize_go false s.
Proof.
  intros Hs. induction b as [|c b IH]; cbn [dbl].
  - change ("" +:+ ?x) with x. cbn [sanitize_go]. change (is_quote quote) with true. cbn iota. destruct s as [|d s]; [done|]. cbn [starts_quote] in Hs. by rewrite Hs.
  - destruct (is_quote c) eqn:Hc; rewrite !str_app_cons; cbn [sanitize_go].
    + change (is_quote quote) with true. cbn iota. exact IH.
    + rewrite Hc. exact IH.
Qed.

(** Redaction depends on the text around the literals only: of a query
    made of texts and string literals, with a text between two literals, it
    keeps the texts and replaces every literal by the same mark, whatever the
    literals contain, quotes included. *)
Theorem sanitize_redacts_literals fs tail : sanitizable fs tail = true → sanitize_query (render fs tail) = fill redacted fs tail.
Proof.
  unfold sanitize_query. induction fs as [|[t h] fs IH]; cbn [render fill foldr sanitizable]; intros H.
  - rewrite <- (str_app_nil tail) at 1. rewrite sanitize_text by done. apply str_app_nil.
  - apply andb_prop in H as [[Ht Hh]%andb_prop Hs]. cbn [fst snd]. rewrite sanitize_text by done. f_equal. fold (render fs tail). fold (fill redacted fs tail).
    rewrite <- (IH Hs). destruct h as [b|n]; cbn [hole_text redacted].
    + change ("'" +:+ ?x) with (String quote x). rewrite str_app_cons. cbn [sanitize_go]. change (is_quote quote) with true. cbn iota.
      f_equal. rewrite <- str_app_assoc. change ("'" +:+ ?x) with (String quote x). change (String quote "" +:+ ?x) with (String quote x).
      apply sanitize_literal. by apply negb_true_iff.
    + by apply sanitize_text.
Qed.

(** *** Fingerprints *)

Definition is_word (c : ascii) : bool := is_alnum c || is_char "_" c.
Definition in_number (c : ascii) : bool := is_digit c || is_char "." c.

(** A text in which digits occur inside names only. *)
Fixpoint plain (word : bool) (t : string) : bool :=
  match t with
  | EmptyString => true
  | String c t => negb (is_quote c) && negb (is_digit c && negb word) && plain (is_word c) t
  end.
Fixpoint last_word (word : bool) (t : string) : bool :=
  match t with EmptyString => word | String c t => last_word (is_word c) t end.
Definition starts_number (s : string) : bool := match s with String c _ => in_number c | EmptyString => false end.
Definition number (n : string) : bool := match n with String c n => is_digit c && str_all in_number n | EmptyString => false end.

Fixpoint fingerprintable (word : bool) (fs : list (string * hole)) (tail : string) : bool :=
  match fs with
  | [] => plain word tail
  | (t, h) :: fs =>
      plain word t &&
      match h with
      | HLit _ => negb (starts_quote (render fs tail))
      | HNum n => number n && negb (last_word word t) && negb (starts_number (render fs tail))
      end && fingerprintable false fs tail
  end.

Lemma fp_text t s : ∀ w, plain w t = true → fp_go FText w (t +:+ s) = t +:+ fp_go FText (last_word w t) s.
Proof.
  induction t as [|c t IH]; intros w; [done|]. cbn [plain]. intros [[Hq Hd]%andb_prop Ht]%andb_prop. apply negb_true_iff in Hq, Hd.
  rewrite !str_app_cons. cbn [fp_go last_word]. rewrite Hq, Hd. f_equal. by apply IH.
Qed.

Lemma fp_literal b s : starts_quote s = false → fp_go FLiteral false (dbl b +:+ String quote s) = fp_go FText false s.
Proof.
  intros Hs. induction b as [|c b IH]; cbn [dbl].
  - change ("" +:+ ?x) with x. cbn [fp_go]. change (is_quote quote) with true. cbn iota. destruct s as [|d s]; [done|]. cbn [starts_quote] in Hs. by rewrite Hs.
  - destruct (is_quote c) eqn:Hc; rewrite !str_app_cons; cbn [fp_go].
    + change (is_quote quote) with true. cbn iota. exact IH.
    + rewrite Hc. exact IH.
Qed.

Lemma fp_number n s : str_all in_number n = true → starts_number s = false → fp_go FNumber false (n +:+ s) = fp_go FText false s.
Proof.
  intros Hn Hs. induction n as [|c n IH].
  - change ("" +:+ s) with s. destruct s as [|c s]; [done|]. cbn [starts_number] in Hs. cbn [fp_go]. unfold in_number in Hs. by rewrite Hs.
  - cbn [str_all] in Hn. apply andb_prop in Hn as [Hc Hn]. rewrite str_app_cons. cbn [fp_go]. unfold in_number in Hc. rewrite Hc. by apply IH.
Qed.

(** A fingerprint does not depend on literals and numbers: a query made of
    texts, string literals and numbers, kept apart by the texts, has the
    fingerprint of the same query with a question mark in every hole. *)
Theorem fingerprint_hides_values fs tail : fingerprintable false fs tail = true →
  fingerprint (render fs tail) = normalize (fill (λ _, "?") fs tail).
Proof.
  assert (∀ w, fingerprintable w fs tail = true → fp_go FText w (render fs tail) = fill (λ _, "?") fs tail) as H;
    [|intros Hf; unfold fingerprint; f_equal; by apply H].
  induction fs as [|[t h] fs IH]; intros w H; cbn [render fill foldr fingerprintable] in *.
  - rewrite <- (str_app_nil tail) at 1. rewrite fp_text by done. cbn. apply str_app_nil.
  - apply andb_prop in H as [[Ht Hh]%andb_prop Hs]. cbn [fst snd]. rewrite fp_text by done. f_equal.
    change (fp_go FText (last_word w t) (hole_text h +:+ render fs tail) = "?" +:+ fill (λ _, "?") fs tail). rewrite <- (IH false Hs). destruct h as [b|n]; cbn [hole_text].
    + change ("'" +:+ ?x) with (String quote x). rewrite str_app_cons. cbn [fp_go]. change (is_quote quote) with true. cbn iota.
      change ("?" +:+ ?x) with (String "?" x). f_equal. rewrite <- str_app_assoc. change (String quote "" +:+ ?x) with (String quote x).
      apply fp_literal. by apply negb_true_iff.
    + apply andb_prop in Hh as [[Hn Hw]%andb_prop Hr]. apply negb_true_iff in Hw, Hr. destruct n as [|c n]; [done|]. cbn [number] in Hn.
      apply andb_prop in Hn as [Hc Hn]. rewrite str_app_cons. cbn [fp_go].
      assert (is_quote c = false) as Hq.
      { unfold is_quote, is_char. destruct (Ascii.eqb_spec quote c) as [<-|]; [by vm_compute in Hc|done]. }
      rewrite Hq, Hc, Hw. cbn [negb andb]. change ("?" +:+ ?x) with (String "?" x). f_equal. by apply fp_number.
Qed.

Definition ex_holes : list (string * hole) := [("SELECT a1 FROM t WHERE name = ", HLit "O'Brien"); (" AND n > ", HNum "42")].

Lemma sanitize_redacts_literals_witness :
  sanitize_query "SELECT a1 FROM t WHERE name = 'O''Brien' AND n > 42 " = "SELECT a1 FROM t WHERE name = '***' AND n > 42 ".
Proof. apply (sanitize_redacts_literals ex_holes " "). by vm_compute. Defined.

Lemma fingerprint_hides_values_witness :
  fingerprint "SELECT a1 FROM t WHERE name = 'O''Brien' AND n > 42 " = "SELECT a1 FROM t WHERE name = ? AND n > ?".
Proof. exact (fingerprint_hides_values ex_holes " " ltac:(by vm_compute)). Defined.

(** ** Keys *)

(** A key folds the case of literals, and a tenant's key can be another's. *)
Example key_folds_literals : build_key "sql" "SELECT 'A'" None = build_key "sql" "SELECT 'a'" None.
Proof. done. Qed.
Example key_ignores_spaces_in_literals : build_key "sql" "SELECT 'a  b'" None = build_key "sql" "SELECT 'a b'" None.
Proof. by vm_compute. Qed.
Example tenant_key_collides : build_key "sql" "x" (Some "sql") = build_key "sql" "sql:x" None.
Proof. by vm_compute. Qed.
Example parameter_keys_collide : build_key_with_params "sql" "q" ["a,b"] = build_key_with_params "sql" "q" ["a"; "b"].
Proof. by vm_compute. Qed.

(** Keys of tenants whose names and formats have no colon are apart. *)
Lemma colon_split s t u v : str_all (λ a, negb (is_char ":" a)) s = true → str_all (λ a, negb (is_char ":" a)) u = true →
  s +:+ String ":" t = u +:+ String ":" v → s = u ∧ t = v.
Proof.
  revert u. induction s as [|a s IH]; intros [|b u] Hs Hu H; cbn in *.
  - by injection H.
  - injection H as <- _. done.
  - injection H as -> _. done.
  - apply andb_prop in Hs as [_ Hs], Hu as [_ Hu]. injection H as -> H. destruct (IH u Hs Hu H) as [-> ->]. done.
Qed.

Lemma tenant_keys_apart t t' f f' q q' : let ok := str_all (λ a, negb (is_char ":" a)) in
  ok t = true → ok t' = true → ok f = true → ok f' = true → build_key f q (Some t) = build_key f' q' (Some t') → t = t' ∧ f = f'.
Proof.
  intros ok Ht Ht' Hf Hf'. unfold build_key. change (":" +:+ ?x) with (String ":" x). intros H.
  apply colon_split in H as [-> H]; [|done|done]. by apply colon_split in H as [-> _].
Qed.

(** ** Rules *)

(** A column whose name has the word keeps the query without a limit, and
    runs of blanks in a literal are shortened. *)
Example limit_in_name_blocks : apply_rules "SELECT credit_limit FROM t" default_rules = "SELECT credit_limit FROM t".
Proof. by vm_compute. Qed.
Example literal_is_rewritten : apply_rules "SELECT 'a  b' FROM t;" default_rules = "SELECT 'a b' FROM t LIMIT 10000".
Proof. by vm_compute. Qed.

Lemma if_nil {A : Type} (b : bool) (x : A) : (if b then [x] else []) = [] ↔ b = false.
Proof. by destruct b. Qed.

(** A request without errors has a query and known parameters. *)
Lemma validate_request_ok q f ps t : validate_request q f ps t = [] ↔
  trim q ≠ "" ∧ (N.of_nat (String.length q) ≤ 1000000)%N ∧ (f = "sql" ∨ f = "ppl") ∧
  (∀ p, ps = Some p → (1 ≤ p ≤ 10000)%N) ∧ (∀ x, t = Some x → (x ≤ 300000)%N).
Proof.
  unfold validate_request. rewrite !app_nil, !if_nil, String.eqb_neq, N.ltb_ge.
  assert ((if String.eqb f "sql" || String.eqb f "ppl" then [] else [mkValidation "format" ("unsupported format '" +:+ f +:+ "', use 'sql' or 'ppl'")]) = []
    ↔ f = "sql" ∨ f = "ppl") as -> by (destruct (String.eqb_spec f "sql"), (String.eqb_spec f "ppl"); cbn; naive_solver).
  destruct ps as [p|], t as [x|]; rewrite ?if_nil, ?orb_false_iff, ?N.eqb_neq, ?N.ltb_ge.
  - split; [intros (H1 & H2 & H3 & H4 & H5)|intros (H1 & H2 & H3 & H4 & H5); specialize (H4 p eq_refl); specialize (H5 x eq_refl)];
      (split; [done|]); (split; [done|]); (split; [done|]); (split; [|done || (intros ? [= <-]; lia)]); [intros ? [= <-]|]; lia.
  - split; [intros (H1 & H2 & H3 & H4 & _)|intros (H1 & H2 & H3 & H4 & _); specialize (H4 p eq_refl)];
      (split; [done|]); (split; [done|]); (split; [done|]); (split; [|done]); [intros ? [= <-]|]; lia.
  - split; intros (H1 & H2 & H3 & _ & H5); (split; [done|]); (split; [done|]); (split; [done|]); (split; [done|]); [by intros ? [= <-]|by apply H5].
  - naive_solver.
Qed.

(** ** Differences *)

Section Diffs.
Context `{J : JsonOps} (cols : list string).

Fixpoint all_diffs (i : nat) (ls rs : list (list Value)) : list Difference :=
  match ls, rs with l :: ls, r :: rs => row_diffs cols i l r ++ all_diffs (S i) ls rs | _, _ => [] end.

Lemma diff_rows_take max ls rs : ∀ i acc, length acc < max → diff_rows cols max i ls rs acc = take max (acc ++ all_diffs i ls rs).
Proof.
  revert rs. induction ls as [|l ls IH]; intros [|r rs] i acc Ha; cbn [diff_rows all_diffs]; try by rewrite app_nil_r, take_ge by lia.
  replace (1 `max` (max - length acc)) with (max - length acc) by lia.
  assert (length (take (max - length acc) (row_diffs cols i l r)) = (max - length acc) `min` length (row_diffs cols i l r)) as Hlen by apply length_take.
  destruct (Nat.leb_spec max (length (acc ++ take (max - length acc) (row_diffs cols i l r)))) as [Hm|Hm]; rewrite length_app, Hlen in Hm.
  - rewrite take_app, (take_ge acc) by lia. f_equal. rewrite take_app_le by lia. done.
  - rewrite IH by (rewrite length_app, Hlen; lia). rewrite (take_ge (row_diffs cols i l r)) by lia. by rewrite <- app_assoc.
Qed.

(** The report holds the first differing cells of the compared rows, and none
    exactly when those rows agree cell by cell. *)
Lemma diff_reports ls rcols rs max : 0 < max →
  differences (diff cols ls rcols rs max) = take max (all_diffs 0 ls rs) ∧
  (differences (diff cols ls rcols rs max) = [] ↔
   ∀ i l r, ls !! i = Some l → rs !! i = Some r → row_diffs cols i l r = []).
Proof.
  intros Hm. unfold diff. cbn [differences]. rewrite diff_rows_take by (cbn; lia). cbn [app]. split; [done|].
  assert (take max (all_diffs 0 ls rs) = [] ↔ all_diffs 0 ls rs = []) as -> by (destruct max; [lia|by destruct (all_diffs 0 ls rs)]).
  assert (∀ k, all_diffs k ls rs = [] ↔ ∀ i l r, ls !! i = Some l → rs !! i = Some r → row_diffs cols (k + i) l r = []) as H; [|apply (H 0)].
  revert rs. induction ls as [|l ls IH]; intros [|r rs] k; cbn [all_diffs]; [naive_solver..|]. rewrite app_nil, IH. split.
  - intros [H1 H2] [|i] l' r'; cbn; [intros [= <-] [= <-]; by rewrite Nat.add_0_r|]. rewrite <- Nat.add_succ_comm. apply H2.
  - intros H. split; [rewrite <- (Nat.add_0_r k); by apply (H 0)|]. intros i l' r' Hl Hr. rewrite Nat.add_succ_comm. by apply (H (S i)).
Qed.
End Diffs.
