(* ===== verification/CoreStores.v ===== *)
(** * CoreStores: registries of views, schemas, statistics, feedback and replays

    Models [fuse-core/src]: [materialized_view.rs] (the registry of the core
    crate), [metadata_cache.rs], [health_history.rs] and [query_stats.rs]; and
    [fuse-server/src]: [feedback.rs], [query_replay.rs] and [data_quality.rs].
    Clock readings are arguments, in nanoseconds for an [Instant]; the order in
    which a hash map is walked, the texts of floats and rows and the hasher are
    parameters. *)

From S2P Require Import Prelude Strs Float Sorting Json JsonRef Arrow Logs.
From stdpp Require Import base list strings gmap sets pretty.
From Stdlib Require Import NArith ZArith Lia SpecFloat.

Definition secs (n : N) : N := n * 1000000000.
(** Addition of [u64] in a release build. *)
Definition u64_add (a b : N) : N := (a + b) `mod` 18446744073709551616.

(** ** [materialized_view.rs] *)

Module CoreViews.
Inductive ViewStatus : Type := Uninitialized | Refreshing | Fresh | Stale | ErrorStatus (msg : string).
#[export] Instance ViewStatus_eq_dec : EqDecision ViewStatus.
Proof. solve_decision. Defined.

Record MaterializedViewDef : Type := mkDef { v_name : string; v_query : string; v_format : string; refresh_secs : N; max_age_secs : option N }.
Record ViewEntry : Type := mkEntry { def : MaterializedViewDef; batches : option (list RecordBatch); last_refreshed : option N; status : ViewStatus }.
Abbreviation MaterializedViewRegistry := (gmap string ViewEntry).

Definition entry_new (d : MaterializedViewDef) : ViewEntry := mkEntry d None None Uninitialized.
Definition max_age (d : MaterializedViewDef) : N := default ((refresh_secs d * 2) `mod` 18446744073709551616)%N (max_age_secs d).
Definition is_stale (now : N) (e : ViewEntry) : bool :=
  match last_refreshed e with None => true | Some t => (secs (max_age (def e)) <? now - t)%N end.
Definition needs_refresh (now : N) (e : ViewEntry) : bool :=
  match last_refreshed e with None => true | Some t => (secs (refresh_secs (def e)) <? now - t)%N end.

Definition register_from_config (ds : list MaterializedViewDef) (r : MaterializedViewRegistry) : MaterializedViewRegistry :=
  foldl (λ r d, <[v_name d := entry_new d]> r) r ds.
Definition has_view (r : MaterializedViewRegistry) (n : string) : bool := bool_decide (is_Some (r !! n)).
Definition get (r : MaterializedViewRegistry) (now : N) (n : string) : option (list RecordBatch) :=
  e ← r !! n; if is_stale now e || bool_decide (batches e = None) then None else batches e.
Definition get_stale_ok (r : MaterializedViewRegistry) (n : string) : option (list RecordBatch) := e ← r !! n; batches e.
Definition put (n : string) (bs : list RecordBatch) (now : N) (r : MaterializedViewRegistry) : MaterializedViewRegistry :=
  alter (λ e, mkEntry (def e) (Some bs) (Some now) Fresh) n r.
Definition mark_error (n msg : string) (r : MaterializedViewRegistry) : MaterializedViewRegistry :=
  alter (λ e, mkEntry (def e) (batches e) (last_refreshed e) (ErrorStatus msg)) n r.
Definition views_needing_refresh (walk : MaterializedViewRegistry → list ViewEntry) (now : N) (r : MaterializedViewRegistry) : list (string * MaterializedViewDef) :=
  (λ e, (v_name (def e), def e)) <$> filter (λ e, needs_refresh now e = true ∧ status e ≠ Refreshing) (walk r).
Definition status_all (now : N) (r : MaterializedViewRegistry) : gmap string ViewStatus :=
  (λ e, if is_stale now e && bool_decide (batches e ≠ None) then Stale else status e) <$> r.
End CoreViews.

(** ** [metadata_cache.rs] *)

Module Metadata.
Record CachedSchema : Type := mkCached { tables : list string; fields : gmap string (list (string * string)); created : N }.
Record MetadataCache : Type := mkMeta { entries : gmap string CachedSchema; ttl : N }.

Definition new (ttl_secs : N) : MetadataCache := mkMeta ∅ (secs ttl_secs).
Definition fresh (c : MetadataCache) (now : N) (s : CachedSchema) : bool := (now - created s <? ttl c)%N.
Definition get_tables (c : MetadataCache) (now : N) (ds : string) : option (list string) :=
  s ← entries c !! ds; if fresh c now s then Some (tables s) else None.
Definition get_fields (c : MetadataCache) (now : N) (ds t : string) : option (list (string * string)) :=
  s ← entries c !! ds; if fresh c now s then fields s !! t else None.
Definition entry_at (c : MetadataCache) (now : N) (ds : string) : CachedSchema := default (mkCached [] ∅ now) (entries c !! ds).
Definition set_tables (c : MetadataCache) (now : N) (ds : string) (ts : list string) : MetadataCache :=
  mkMeta (<[ds := mkCached ts (fields (entry_at c now ds)) now]> (entries c)) (ttl c).
Definition set_fields (c : MetadataCache) (now : N) (ds t : string) (fs : list (string * string)) : MetadataCache :=
  let s := entry_at c now ds in mkMeta (<[ds := mkCached (tables s) (<[t := fs]> (fields s)) (created s)]> (entries c)) (ttl c).
Definition invalidate (c : MetadataCache) (ds : string) : MetadataCache := mkMeta (delete ds (entries c)) (ttl c).
End Metadata.

(** ** [health_history.rs] *)

Module CoreHealth.
Record HealthSnapshot : Type := mkSnapshot { timestamp : N; healthy : bool; latency_ms : option N }.
Definition DEFAULT_MAX_ENTRIES : nat := 60.
Definition record (max : nat) (m : gmap string (list HealthSnapshot)) (c : string) (s : HealthSnapshot) : gmap string (list HealthSnapshot) :=
  <[c := push_pop max (default [] (m !! c)) s]> m.
Definition get (m : gmap string (list HealthSnapshot)) (c : string) : list HealthSnapshot := default [] (m !! c).
Definition uptime (m : gmap string (list HealthSnapshot)) (c : string) : f64 :=
  match m !! c with
  | Some ((_ :: _) as h) =>
      fdiv (f64_of_N (N.of_nat (length (filter (λ s, healthy s = true) h)))) (f64_of_N (N.of_nat (length h)))
  | _ => f64_of_N 1
  end.
Definition avg_latency (m : gmap string (list HealthSnapshot)) (c : string) : option N :=
  h ← m !! c;
  match omap latency_ms h with
  | [] => None
  | ls => Some (foldl u64_add 0 ls / N.of_nat (length ls))%N
  end.
End CoreHealth.

(** ** [query_stats.rs] *)

Module Collector.
Record QueryStats : Type := mkStats {
  total : N; success : N; errors : N; total_rows : N; total_duration_ms : N; min_duration_ms : N; max_duration_ms : N }.
Definition zero : QueryStats := mkStats 0 0 0 0 0 0 0.
Record Run : Type := mkRun { r_datasource : string; r_success : bool; r_rows : N; r_duration : N }.

Definition add_run (s : QueryStats) (r : Run) : QueryStats :=
  let t := u64_add (total s) 1 in
  mkStats t
    (if r_success r then u64_add (success s) 1 else success s)
    (if r_success r then errors s else u64_add (errors s) 1)
    (u64_add (total_rows s) (r_rows r))
    (u64_add (total_duration_ms s) (r_duration r))
    (if (t =? 1)%N || (r_duration r <? min_duration_ms s)%N then r_duration r else min_duration_ms s)
    (if (max_duration_ms s <? r_duration r)%N then r_duration r else max_duration_ms s).
Definition record (m : gmap string QueryStats) (r : Run) : gmap string QueryStats :=
  <[r_datasource r := add_run (default zero (m !! r_datasource r)) r]> m.
Definition avg_duration (m : gmap string QueryStats) (ds : string) : option N :=
  s ← m !! ds; if (0 <? total s)%N then Some (total_duration_ms s / total s)%N else None.
End Collector.

(** ** [feedback.rs] *)

Module Feedbacks.
Inductive FeedbackStatus : Type := Pending | Reviewed | Replied | Closed.
#[export] Instance FeedbackStatus_eq_dec : EqDecision FeedbackStatus.
Proof. solve_decision. Defined.

Record Reply : Type := mkReply { author : string; rp_message : string; rp_created : N }.
(** The parts a request supplies and the store keeps as they are. *)
Record SubmitRequest : Type := mkRequest {
  feedback_type : string; title : string; description : string; screenshot : option string; page : string; url : string;
  user_agent : string; page_context : string; console_errors : list Value }.
Record Feedback : Type := mkFeedback {
  fb_id : string; submitter : string; request : SubmitRequest; error_texts : list string; fb_status : FeedbackStatus;
  created_at : N; updated_at : N; replies : list Reply }.
Record FeedbackStore : Type := mkStore { fs_entries : gmap string Feedback; max_entries : nat; counter : N }.

Definition new (max : nat) : FeedbackStore := mkStore ∅ max 0.
Definition feedback_id (now seq : N) : string := "fb-" +:+ pretty now +:+ "-" +:+ pretty seq.

Section Store.
Context `{J : JsonOps} (walk : gmap string Feedback → list (string * Feedback)).

Definition evict (max : nat) (m : gmap string Feedback) : gmap string Feedback :=
  if max <=? size m then
    match min_by_key created_at (snd <$> walk m) with Some oldest => delete (fb_id oldest) m | None => m end
  else m.
Definition submit (s : FeedbackStore) (who : string) (req : SubmitRequest) (now : N) : Feedback * FeedbackStore :=
  let id := feedback_id now (counter s) in
  let fb := mkFeedback id who req (to_string <$> console_errors req) Pending now now [] in
  (fb, mkStore (<[id := fb]> (evict (max_entries s) (fs_entries s))) (max_entries s) (u64_add (counter s) 1)).

Definition newest_first (a b : Feedback) : comparison := N.compare (created_at b) (created_at a).
Definition list_all (s : FeedbackStore) : list Feedback := sort_by newest_first (snd <$> walk (fs_entries s)).
Definition list_by_user (s : FeedbackStore) (user : string) : list Feedback :=
  sort_by newest_first (filter (λ f, submitter f = user) (snd <$> walk (fs_entries s))).
End Store.

Definition get (s : FeedbackStore) (id : string) : option Feedback := fs_entries s !! id.
Definition update (s : FeedbackStore) (id : string) (f : Feedback → Feedback) : option (Feedback * FeedbackStore) :=
  fb ← fs_entries s !! id; Some (f fb, mkStore (<[id := f fb]> (fs_entries s)) (max_entries s) (counter s)).
Definition replied (who msg : string) (now : N) (fb : Feedback) : Feedback :=
  mkFeedback (fb_id fb) (submitter fb) (request fb) (error_texts fb) (if bool_decide (fb_status fb = Pending) then Replied else fb_status fb)
    (created_at fb) now (replies fb ++ [mkReply who msg now]).
Definition add_reply (s : FeedbackStore) (id who msg : string) (now : N) : option (Feedback * FeedbackStore) := update s id (replied who msg now).
Definition with_status (st : FeedbackStatus) (now : N) (fb : Feedback) : Feedback :=
  mkFeedback (fb_id fb) (submitter fb) (request fb) (error_texts fb) st (created_at fb) now (replies fb).
Definition set_status (s : FeedbackStore) (id : string) (st : FeedbackStatus) (now : N) : option (Feedback * FeedbackStore) := update s id (with_status st now).
End Feedbacks.

(** ** [query_replay.rs] *)

Module Replay.
Record RecordedQuery : Type := mkRecorded {
  rq_id : string; rq_query : string; rq_format : string; rq_datasources : list string; recorded_at : N; rq_duration_ms : N;
  row_count : nat; column_names : list string; result_hash : string }.
Inductive ColumnDiffType : Type := Added | Removed | TypeChanged | ValuesChanged.
Record ReplayDiff : Type := mkReplayDiff { added_rows : nat; removed_rows : nat; changed_rows : nat; column_diffs : list (string * ColumnDiffType) }.

(** [recs.remove(0)] of an empty vector panics. *)
Definition record (max : nat) (recs : list RecordedQuery) (q : RecordedQuery) : option (list RecordedQuery) :=
  if max <=? length recs then match recs with [] => None | _ :: recs => Some (recs ++ [q]) end else Some (recs ++ [q]).
Definition find_by_datasource (recs : list RecordedQuery) (ds : string) : list RecordedQuery := filter (λ r, ds ∈ rq_datasources r) recs.

Section Compare.
Context `{J : JsonOps} {H : Type} (hash_str : H → string → H) (h0 : H) (finish : H → string) (debug_row : row → string).

Definition hash_results (columns : list string) (rows : list row) : string :=
  finish (foldl (λ h r, foldl (λ h v, hash_str h (to_string v)) h r) (foldl hash_str h0 columns) rows).

Definition column_diffs_of (orig replay : list string) : list (string * ColumnDiffType) :=
  ((λ c, (c, Added)) <$> filter (λ c, c ∉ orig) replay) ++ ((λ c, (c, Removed)) <$> filter (λ c, c ∉ replay) orig).
Definition diff_results (orig_cols : list string) (orig_rows : list row) (replay_cols : list string) (replay_rows : list row) : ReplayDiff :=
  let orig : gset string := list_to_set (debug_row <$> orig_rows) in
  let replay : gset string := list_to_set (debug_row <$> replay_rows) in
  mkReplayDiff (size (replay ∖ orig)) (size (orig ∖ replay)) 0 (column_diffs_of orig_cols replay_cols).
End Compare.

Definition replay_summary (matched : list bool) : gmap string nat :=
  <["mismatched" := length (filter (λ b, b = false) matched)]> (<["matched" := length (filter (λ b, b = true) matched)]> (<["total" := length matched]> ∅)).
End Replay.

(** ** [data_quality.rs] *)

Module Quality.
Inductive QualityCheck : Type :=
| NullRate (column : string) (max_rate : f64)
| RowCount (min max : option N)
| Freshness (column : string) (max_age_secs : N)
| Cardinality (column : string) (min max : option N)
| UniqueRate (column : string) (min_rate : f64).
Record QualityRule : Type := mkRule { q_id : string; q_datasource : string; q_table : string; q_check : QualityCheck; q_enabled : bool }.
Record Violation : Type := mkViolation { rule_id : string; check : string; message : string; actual : f64; threshold : f64 }.
Record TableMetrics : Type := mkMetrics { m_row_count : N; null_rates : gmap string f64; cardinalities : gmap string N; freshness_secs : gmap string N }.

Section Evaluate.
Context (show_1 : f64 → string).  (** [{:.1}] *)
Definition pct (f : f64) : string := show_1 (fmul f (f64_of_N 100)) +:+ "%".

(** A count against its bounds, the lower one first. *)
Definition outside (id kind text : string) (n : N) (unit : string) (lo hi : option N) : option Violation :=
  let below := m ← lo; if (n <? m)%N then Some (mkViolation id (kind +:+ "_min") (text +:+ " has " +:+ pretty n +:+ unit +:+ ", expected >= " +:+ pretty m) (f64_of_N n) (f64_of_N m)) else None in
  match below with
  | Some v => Some v
  | None => m ← hi; if (m <? n)%N then Some (mkViolation id (kind +:+ "_max") (text +:+ " has " +:+ pretty n +:+ unit +:+ ", expected <= " +:+ pretty m) (f64_of_N n) (f64_of_N m)) else None
  end.

Definition evaluate (rule : QualityRule) (m : TableMetrics) : option Violation :=
  let id := q_id rule in let t := q_table rule in
  if q_enabled rule then
    match q_check rule with
    | NullRate c max_rate =>
        rate ← null_rates m !! c;
        if fltb max_rate rate then Some (mkViolation id "null_rate" (t +:+ "." +:+ c +:+ " null rate " +:+ pct rate +:+ " exceeds " +:+ pct max_rate) rate max_rate) else None
    | RowCount lo hi => outside id "row_count" t (m_row_count m) " rows" lo hi
    | Freshness c max_age =>
        age ← freshness_secs m !! c;
        if (max_age <? age)%N then Some (mkViolation id "freshness" (t +:+ "." +:+ c +:+ " is " +:+ pretty age +:+ "s stale, max " +:+ pretty max_age +:+ "s") (f64_of_N age) (f64_of_N max_age)) else None
    | Cardinality c lo hi => card ← cardinalities m !! c; outside id "cardinality" (t +:+ "." +:+ c) card " distinct values" lo hi
    | UniqueRate c min_rate =>
        card ← cardinalities m !! c;
        if (0 <? m_row_count m)%N then
          let rate := fdiv (f64_of_N card) (f64_of_N (m_row_count m)) in
          if fltb rate min_rate then Some (mkViolation id "unique_rate" (t +:+ "." +:+ c +:+ " unique rate " +:+ pct rate +:+ ", expected >= " +:+ pct min_rate) rate min_rate) else None
        else None
    end
  else None.
Definition evaluate_all (rules : list QualityRule) (m : TableMetrics) : list Violation := omap (λ r, evaluate r m) rules.
End Evaluate.
End Quality.

(** * What the registries promise *)

(** ** Views *)

Module CoreViewsCorrect.
Import CoreViews.

Inductive Op : Type := Register (ds : list MaterializedViewDef) | Put (n : string) (bs : list RecordBatch) (now : N) | MarkError (n msg : string).
Definition apply (r : MaterializedViewRegistry) (o : Op) : MaterializedViewRegistry :=
  match o with Register ds => register_from_config ds r | Put n bs now => put n bs now r | MarkError n msg => mark_error n msg r end.

(** What a client of one view sees: its last definition, and what was put since then. *)
Abbreviation slot := (option (MaterializedViewDef * option (list RecordBatch * N))).
Definition slot_step (n : string) (s : slot) (o : Op) : slot :=
  match o with
  | Register ds => from_option (λ d, Some (d, None)) s (last (filter (λ d, v_name d = n) ds))
  | Put n' bs now => if bool_decide (n' = n) then (λ d, (d.1, Some (bs, now))) <$> s else s
  | MarkError _ _ => s
  end.
Definition view_of (e : ViewEntry) : MaterializedViewDef * option (list RecordBatch * N) :=
  (def e, bs ← batches e; t ← last_refreshed e; Some (bs, t)).
Definition paired (e : ViewEntry) : Prop := batches e = None ↔ last_refreshed e = None.

Lemma register_slot n ds : ∀ r, view_of <$> register_from_config ds r !! n = slot_step n (view_of <$> r !! n) (Register ds).
Proof.
  cbn [slot_step]. induction ds as [|d ds IH] using rev_ind; intros r; [done|].
  unfold register_from_config in *. rewrite foldl_app. cbn [foldl]. rewrite filter_app, filter_cons, filter_nil.
  case_decide as Hn.
  - subst n. rewrite lookup_insert_eq, last_snoc. done.
  - rewrite lookup_insert_ne by done. rewrite IH, app_nil_r. done.
Qed.

Lemma register_paired ds : ∀ r : MaterializedViewRegistry, map_Forall (λ _, paired) r → map_Forall (λ _, paired) (register_from_config ds r).
Proof.
  induction ds as [|d ds IH]; intros r Hr; [done|]. cbn. apply IH. apply map_Forall_insert_2; [done|exact Hr].
Qed.

Lemma apply_paired o r : map_Forall (λ _, paired) r → map_Forall (λ _, paired) (apply r o).
Proof.
  destruct o as [ds|n bs now|n msg]; cbn [apply]; [by apply register_paired|..]; intros Hr k e; unfold put, mark_error;
    rewrite lookup_alter_Some; intros [[-> (e' & He' & ->)]|[_ He]]; try (by apply (Hr k)); [done|by apply (Hr k e')].
Qed.

Lemma apply_slot n r o : map_Forall (λ _, paired) r → view_of <$> apply r o !! n = slot_step n (view_of <$> r !! n) o.
Proof.
  intros Hr. destruct o as [ds|n' bs now|n' msg]; cbn [apply]; [apply register_slot|..]; cbn [slot_step]; unfold put, mark_error.
  - case_bool_decide as E; [subst|by rewrite lookup_alter_ne]. rewrite lookup_alter_eq. by destruct (r !! n).
  - destruct (decide (n' = n)) as [->|]; [|by rewrite lookup_alter_ne]. rewrite lookup_alter_eq. by destruct (r !! n).
Qed.

(** A view of the core registry answers what was last put into it.
    After any sequence of registrations, refreshes and failures, a view is
    known exactly when it was registered; its batches are the last ones put
    since its last registration, and are given out only while they are not
    older than its maximal age (unless stale ones are asked for); a failed
    refresh keeps them. *)
Theorem core_views_serve_last_put ops n now :
  let r := foldl apply ∅ ops in
  let s := foldl (slot_step n) None ops in
  has_view r n = bool_decide (is_Some s) ∧
  get_stale_ok r n = (d ← s; fst <$> d.2) ∧
  get r now n = (d ← s; bt ← d.2; if (secs (max_age d.1) <? now - bt.2)%N then None else Some bt.1).
Proof.
  intros r s. assert (Hrs : map_Forall (λ _, paired) r ∧ view_of <$> r !! n = s).
  { subst r s. induction ops as [|o ops IH] using rev_ind; [by split; [apply map_Forall_empty|]|]. rewrite !foldl_app. cbn [foldl].
    destruct IH as [Hp <-]. split; [by apply apply_paired|by apply apply_slot]. }
  destruct Hrs as [Hp <-]. unfold has_view, get_stale_ok, get.
  destruct (r !! n) as [e|] eqn:He; [|done]. specialize (Hp n e He). unfold paired in Hp. unfold view_of, is_stale.
  cbn [fmap option_fmap option_map mbind option_bind fst snd].
  destruct (batches e) as [bs|], (last_refreshed e) as [t|]; cbn; try naive_solver.
  rewrite orb_false_r. by destruct (_ <? _)%N.
Qed.
End CoreViewsCorrect.

(** ** Statistics *)

Module CollectorCorrect.
Import Collector.

Definition u64 (n : N) : N := (n `mod` 18446744073709551616)%N.
Definition total_of (f : Run → N) (rs : list Run) : N := foldl (λ acc r, acc + f r)%N 0%N rs.
Definition count (p : Run → bool) (rs : list Run) : N := N.of_nat (length (filter (λ r, p r = true) rs)).

(** What the statistics of a list of runs are. *)
Definition summary (rs : list Run) (s : QueryStats) : Prop :=
  total s = N.of_nat (length rs) ∧ success s = count r_success rs ∧ errors s = count (negb ∘ r_success) rs ∧
  total_rows s = u64 (total_of r_rows rs) ∧ total_duration_ms s = u64 (total_of r_duration rs) ∧
  (∀ r, r ∈ rs → min_duration_ms s ≤ r_duration r ≤ max_duration_ms s)%N ∧
  (rs ≠ [] → ∃ a b, a ∈ rs ∧ b ∈ rs ∧ min_duration_ms s = r_duration a ∧ max_duration_ms s = r_duration b) ∧
  (rs = [] → s = zero).

Lemma u64_add_small a b : (a + b < 2 ^ 64)%N → u64_add a b = (a + b)%N.
Proof. intros H. apply N.mod_small. exact H. Qed.

Lemma count_le p rs : (count p rs ≤ N.of_nat (length rs))%N.
Proof. unfold count. pose proof (length_filter (λ r, p r = true) rs). lia. Qed.

Lemma count_snoc p rs r : count p (rs ++ [r]) = (count p rs + (if p r then 1 else 0))%N.
Proof.
  unfold count. rewrite filter_app, length_app, filter_cons, filter_nil. destruct (p r); case_decide; try done; cbn; lia.
Qed.

Lemma total_snoc f rs r : total_of f (rs ++ [r]) = (total_of f rs + f r)%N.
Proof. unfold total_of. by rewrite foldl_app. Qed.

Lemma add_run_summary rs s r : (N.of_nat (length rs) + 1 < 2 ^ 64)%N → summary rs s → summary (rs ++ [r]) (add_run s r).
Proof.
  intros Hb (Ht & Hs & He & Hr & Hd & Hin & Hex & Hz). pose proof (count_le r_success rs). pose proof (count_le (negb ∘ r_success) rs).
  unfold summary. rewrite length_app, !count_snoc, !total_snoc. cbn [add_run total success errors total_rows total_duration_ms min_duration_ms max_duration_ms length].
  rewrite Ht, Hs, He, (u64_add_small (N.of_nat (length rs)) 1) by exact Hb.
  split_and!; [lia|destruct (r_success r); rewrite ?u64_add_small by lia; lia
    |unfold compose; destruct (r_success r); cbn [negb]; rewrite ?u64_add_small by (unfold compose in *; lia); lia
    |unfold u64_add, u64; rewrite Hr; unfold u64; apply N.Div0.add_mod_idemp_l|unfold u64_add, u64; rewrite Hd; unfold u64; apply N.Div0.add_mod_idemp_l| | |by destruct rs].
  - intros x [Hx|Hx%list_elem_of_singleton]%elem_of_app; [|subst x].
    + specialize (Hin x Hx). destruct rs as [|y rs]; [by apply not_elem_of_nil in Hx|].
      rewrite (proj2 (N.eqb_neq _ _)) by (cbn [length]; lia). cbn [orb].
      destruct (N.ltb_spec (r_duration r) (min_duration_ms s)), (N.ltb_spec (max_duration_ms s) (r_duration r)); lia.
    + destruct (_ =? 1)%N; cbn [orb]; destruct (N.ltb_spec (r_duration r) (min_duration_ms s)), (N.ltb_spec (max_duration_ms s) (r_duration r)); lia.
  - intros _. destruct rs as [|y rs].
    + rewrite (Hz eq_refl). exists r, r. cbn. split_and!; [left|left|done|]. destruct (N.ltb_spec 0 (r_duration r)); [done|lia].
    + destruct (Hex ltac:(done)) as (a & b & Ha & Hb' & Hmin & Hmax). rewrite (proj2 (N.eqb_neq _ _)) by (cbn [length]; lia). cbn [orb].
      assert (∀ x, x ∈ y :: rs → x ∈ (y :: rs) ++ [r]) as Hl by (intros x Hx; apply elem_of_app; by left).
      assert (r ∈ (y :: rs) ++ [r]) as Hr' by (apply elem_of_app; right; left).
      exists (if (r_duration r <? min_duration_ms s)%N then r else a), (if (max_duration_ms s <? r_duration r)%N then r else b).
      destruct (_ <? min_duration_ms s)%N, (_ <? r_duration r)%N; auto.
Qed.

(** The statistics of a datasource summarise exactly its runs: their
    number, successes and failures, the sums of rows and durations modulo the
    width of the counters, and the least and the greatest duration; runs of
    other datasources do not count. *)
Theorem stats_summarise_runs runs ds :
  (N.of_nat (length runs) < 2 ^ 64)%N →
  let mine := filter (λ r, r_datasource r = ds) runs in
  summary mine (default zero (foldl record ∅ runs !! ds)) ∧ (is_Some (foldl record ∅ runs !! ds) ↔ mine ≠ []).
Proof.
  intros Hb mine. subst mine. induction runs as [|r runs IH] using rev_ind.
  - cbn. split; [|split; [intros []; done|done]]. unfold summary. split_and!; try done. intros r Hr. by apply not_elem_of_nil in Hr.
  - rewrite length_app in Hb. cbn [length] in Hb. destruct IH as [IH1 IH2]; [lia|].
    rewrite foldl_app. cbn [foldl]. set (m := foldl record ∅ runs) in *. unfold record. rewrite filter_app, filter_cons, filter_nil.
    case_decide as E.
    + subst ds. rewrite lookup_insert_eq. cbn [default from_option id]. split; [|split; [by destruct (filter _ _)|by eexists]].
      apply add_run_summary; [|exact IH1]. pose proof (length_filter (λ r0, r_datasource r0 = r_datasource r) runs). lia.
    + rewrite lookup_insert_ne by done. by rewrite app_nil_r.
Qed.
End CollectorCorrect.

Lemma stats_summarise_runs_witness :
  let runs := [Collector.mkRun "a" true 3 10; Collector.mkRun "b" true 1 1; Collector.mkRun "a" false 0 4] in
  Collector.total (default Collector.zero (foldl Collector.record ∅ runs !! "a")) = 2%N.
Proof.
  refine (eq_trans (proj1 (proj1 (CollectorCorrect.stats_summarise_runs
    [Collector.mkRun "a" true 3 10; Collector.mkRun "b" true 1 1; Collector.mkRun "a" false 0 4] "a" _))) _); [vm_compute; done|vm_compute; done].
Defined.

(** ** Feedback *)

Module FeedbacksCorrect.
Import Feedbacks.

Section Sound.
Context `{J : JsonOps} (walk : gmap string Feedback → list (string * Feedback)) (Hwalk : ∀ m, walk m ≡ₚ map_to_list m).

Inductive Op : Type :=
| Submit (who : string) (req : SubmitRequest) (now : N)
| AddReply (id who msg : string) (now : N)
| SetStatus (id : string) (st : FeedbackStatus) (now : N).
Definition apply (s : FeedbackStore) (o : Op) : FeedbackStore :=
  match o with
  | Submit who req now => (submit walk s who req now).2
  | AddReply id who msg now => from_option snd s (add_reply s id who msg now)
  | SetStatus id st now => from_option snd s (set_status s id st now)
  end.

(** Every entry is stored under its identifier, which was made from a number already used. *)
Definition sound (max : nat) (s : FeedbackStore) : Prop :=
  max_entries s = max ∧ size (fs_entries s) ≤ Nat.max 1 max ∧
  map_Forall (λ id fb, fb_id fb = id ∧ ∃ now seq, id = feedback_id now seq ∧ (seq < counter s)%N) (fs_entries s).

Lemma feedback_id_inj now seq now' seq' : feedback_id now seq = feedback_id now' seq' → now = now' ∧ seq = seq'.
Proof.
  unfold feedback_id. intros H%(inj (String.append "fb-")).
  destruct (run_split (λ a, bool_decide (is_Some (digit_value a))) (pretty now) (pretty now') ("-" +:+ pretty seq) ("-" +:+ pretty seq')) as [H1 H2];
    [apply pretty_digits|apply pretty_digits|done|done|exact H|].
  apply (inj pretty) in H1. apply (inj (String.append "-")) in H2. by apply (inj pretty) in H2.
Qed.

Lemma evict_spec max (m : gmap string Feedback) : map_Forall (λ id fb, fb_id fb = id) m →
  (∀ P : string → Feedback → Prop, map_Forall P m → map_Forall P (evict walk max m)) ∧
  (size m ≤ Nat.max 1 max → size (evict walk max m) ≤ Nat.max 1 max - 1).
Proof.
  intros Hid. unfold evict. destruct (Nat.leb_spec max (size m)) as [Hl|Hl]; [|by split; [|lia]].
  destruct (min_by_key created_at (snd <$> walk m)) as [oldest|] eqn:E.
  - assert (Hin : m !! fb_id oldest = Some oldest).
    { destruct (min_by_key_Some created_at (snd <$> walk m)) as (x & Hx & Hxin & _); [intros E'; by rewrite E' in E|].
      rewrite E in Hx. injection Hx as <-. apply list_elem_of_fmap in Hxin as ([k fb] & -> & Hk). rewrite Hwalk in Hk.
      apply elem_of_map_to_list in Hk. cbn. by rewrite (Hid k fb Hk). }
    split; [intros P HP; by apply map_Forall_delete|]. intros Hs. rewrite map_size_delete, Hin. lia.
  - split; [done|]. intros _. apply min_by_key_None in E. apply fmap_nil_inv in E.
    assert (map_to_list m = []) as Em by (apply Permutation_nil; by rewrite <- Hwalk, E).
    apply map_to_list_empty_iff in Em. subst m. rewrite map_size_empty. lia.
Qed.

Lemma update_sound max s id f s' fb : sound max s → (∀ x, fb_id (f x) = fb_id x) → update s id f = Some (fb, s') → sound max s' ∧ counter s' = counter s.
Proof.
  intros (Hm & Hsz & Hall) Hf. unfold update. destruct (fs_entries s !! id) as [x|] eqn:E; [|done]. intros [= <- <-].
  split; [|done]. split; [done|]. cbn. split.
  - rewrite map_size_insert, E. exact Hsz.
  - apply map_Forall_insert_2; [|exact Hall]. rewrite Hf. by apply (Hall id x).
Qed.

Lemma apply_sound max s o : (counter s + 1 < 2 ^ 64)%N → sound max s → sound max (apply s o) ∧ (counter (apply s o) ≤ counter s + 1)%N.
Proof.
  intros Hc Hs. destruct o as [who req now|id who msg now|id st now]; cbn [apply].
  - destruct Hs as (Hm & Hsz & Hall). unfold submit. cbn [snd counter]. assert (Hadd : u64_add (counter s) 1 = (counter s + 1)%N) by (apply N.mod_small; exact Hc).
    rewrite Hadd. split; [|done].
    destruct (evict_spec (max_entries s) (fs_entries s)) as [HP Hsize]; [by intros k x Hk; apply (Hall k x Hk)|].
    split; [done|]. cbn. split.
    + rewrite map_size_insert. rewrite Hm in Hsize |- *. specialize (Hsize Hsz). destruct (evict _ _ _ !! _); unfold id; lia.
    + apply map_Forall_insert_2; [split; [done|]; exists now, (counter s); split; [done|lia]|].
      eapply map_Forall_impl; [exact (HP _ Hall)|]. intros k x (Hid & n & q & -> & Hq). split; [done|]. exists n, q. split; [done|lia].
  - unfold add_reply. destruct (update s id _) as [[fb s']|] eqn:E; cbn; [|split; [done|lia]].
    apply (update_sound max) in E as [H ->]; [|done|done]. split; [done|lia].
  - unfold set_status. destruct (update s id _) as [[fb s']|] eqn:E; cbn; [|split; [done|lia]].
    apply (update_sound max) in E as [H ->]; [|done|done]. split; [done|lia].
Qed.

(** The feedback store stays within its bound and never overwrites a
    report.  After any sequence of submissions, replies and status changes it
    holds at most its maximum (one, when that is zero), each report under its
    identifier, and the identifier of the next report is not in use; the report
    can be read back, and what is lost is at most the oldest one. *)
Theorem feedback_is_kept max ops who req now :
  (N.of_nat (length ops) + 1 < 2 ^ 64)%N →
  let s := foldl apply (new max) ops in
  let r := submit walk s who req now in
  sound max s ∧ fs_entries s !! fb_id r.1 = None ∧ get r.2 (fb_id r.1) = Some r.1 ∧
  ∀ id fb, fs_entries s !! id = Some fb → get r.2 id = Some fb ∨ (max ≤ size (fs_entries s) ∧ get r.2 id = None ∧ ∀ id' fb', fs_entries s !! id' = Some fb' → (created_at fb ≤ created_at fb')%N).
Proof.
  intros Hb s r. assert (Hs : sound max s ∧ (counter s ≤ N.of_nat (length ops))%N).
  { subst s r. induction ops as [|o ops IH] using rev_ind; [split; [by split; [|split; [cbn; rewrite map_size_empty; lia|apply map_Forall_empty]]|done]|].
    rewrite length_app in Hb. cbn [length] in Hb. destruct IH as [IH1 IH2]; [lia|]. rewrite foldl_app, length_app. cbn [foldl length].
    destruct (apply_sound max (foldl apply (new max) ops) o) as [H1 H2]; [lia|done|]. split; [done|lia]. }
  destruct Hs as [Hs Hc]. split; [exact Hs|]. destruct Hs as (Hm & Hsz & Hall).
  assert (Hfresh : fs_entries s !! feedback_id now (counter s) = None).
  { destruct (fs_entries s !! feedback_id now (counter s)) as [x|] eqn:E; [|done].
    destruct (Hall _ x E) as (_ & n & q & [_ <-]%feedback_id_inj & Hq). lia. }
  split; [exact Hfresh|]. unfold r, submit, get. cbn [fst snd fb_id fs_entries]. split; [apply lookup_insert_eq|].
  intros id fb Hid. rewrite lookup_insert_ne by congruence. unfold evict. rewrite Hm.
  destruct (Nat.leb_spec max (size (fs_entries s))) as [Hl|Hl]; [|by left].
  destruct (min_by_key created_at (snd <$> walk (fs_entries s))) as [oldest|] eqn:E; [|by left].
  destruct (decide (fb_id oldest = id)) as [<-|Hne]; [|left; by rewrite lookup_delete_ne].
  destruct (min_by_key_Some created_at (snd <$> walk (fs_entries s))) as (x & Hx & Hxin & Hmin); [intros E'; by rewrite E' in E|].
  rewrite E in Hx. injection Hx as <-. apply list_elem_of_fmap in Hxin as ([k y] & -> & Hk). rewrite Hwalk in Hk.
  apply elem_of_map_to_list in Hk. cbn [snd] in *. destruct (Hall k y Hk) as [Hky _]. rewrite Hky in Hid. rewrite Hid in Hk. injection Hk as <-.
  right. split; [done|]. split; [apply lookup_delete_eq|]. intros id' fb' Hid'. apply Hmin. apply list_elem_of_fmap. exists (id', fb').
  split; [done|]. rewrite Hwalk. by apply elem_of_map_to_list.
Qed.
End Sound.
End FeedbacksCorrect.

Definition plain_request : Feedbacks.SubmitRequest := Feedbacks.mkRequest "general" "t" "d" None "" "" "" "" [].

Lemma feedback_is_kept_witness :
  let s := @FeedbacksCorrect.apply RefJson map_to_list (Feedbacks.new 1) (FeedbacksCorrect.Submit "ann" plain_request 5) in
  Feedbacks.get (@Feedbacks.submit RefJson map_to_list s "bob" plain_request 9).2 "fb-9-1" =
    Some (@Feedbacks.submit RefJson map_to_list s "bob" plain_request 9).1.
Proof.
  refine (proj1 (proj2 (proj2 (@FeedbacksCorrect.feedback_is_kept RefJson map_to_list (λ m, reflexivity _) 1
    [FeedbacksCorrect.Submit "ann" plain_request 5] "bob" plain_request 9 _)))). vm_compute. reflexivity.
Defined.

(** ** Schemas, replays and quality rules *)

(** Fields stored for a datasource whose tables are old cannot be read back. *)
Lemma fields_set_late_are_expired c ds t fs s now :
  Metadata.entries c !! ds = Some s → Metadata.fresh c now s = false →
  Metadata.get_fields (Metadata.set_fields c now ds t fs) now ds t = None.
Proof.
  intros Hs Hf. unfold Metadata.get_fields, Metadata.set_fields, Metadata.entry_at. cbn. rewrite lookup_insert_eq, Hs. cbn.
  unfold Metadata.fresh in *. cbn in *. by rewrite Hf.
Qed.

(** Storing the tables makes fields that had expired readable again. *)
Lemma old_fields_come_back c ds ts t fs s now :
  Metadata.entries c !! ds = Some s → Metadata.fields s !! t = Some fs → (0 < Metadata.ttl c)%N →
  Metadata.get_fields (Metadata.set_tables c now ds ts) now ds t = Some fs.
Proof.
  intros Hs Hf Ht. unfold Metadata.get_fields, Metadata.set_tables, Metadata.entry_at. cbn. rewrite lookup_insert_eq, Hs. cbn.
  unfold Metadata.fresh. cbn. rewrite N.sub_diag. by rewrite (proj2 (N.ltb_lt _ _)).
Qed.

(** A recorder made for no recording panics. *)
Lemma recorder_of_none_panics q : Replay.record 0 [] q = None.
Proof. done. Qed.

(** The hash does not see where a row ends. *)
Lemma hash_ignores_row_ends `{J : JsonOps} {H : Type} (hs : H → string → H) h0 fin cols (r r' : row) :
  Replay.hash_results hs h0 fin cols [r ++ r'] = Replay.hash_results hs h0 fin cols [r; r'].
Proof. unfold Replay.hash_results. cbn [foldl]. by rewrite foldl_app. Qed.

(** The difference of two results does not see how often a row occurs. *)
Lemma repeated_rows_do_not_differ debug cols (r : row) n m :
  Replay.diff_results debug cols (replicate (S n) r) cols (replicate (S m) r) = Replay.diff_results debug cols [r] cols [r].
Proof.
  unfold Replay.diff_results.
  assert (Hset : ∀ k, (list_to_set (debug <$> replicate (S k) r) : gset string) = list_to_set (debug <$> [r])).
  { intros k. apply set_eq. intros x. rewrite !elem_of_list_to_set, !list_elem_of_fmap. split; intros (y & -> & Hy); exists r; split; try done.
    - by apply elem_of_replicate in Hy as [-> _].
    - left.
    - by apply list_elem_of_singleton in Hy as ->.
    - apply elem_of_replicate. split; [done|lia]. }
  by rewrite !Hset.
Qed.

Module QualityCorrect.
Import Quality.

Definition within (n : N) (lo hi : option N) : Prop := (∀ m, lo = Some m → m ≤ n)%N ∧ (∀ m, hi = Some m → n ≤ m)%N.
(** What a check asks of the metrics; a metric that was not observed satisfies it. *)
Definition satisfied (c : QualityCheck) (m : TableMetrics) : Prop :=
  match c with
  | NullRate c max_rate => ∀ rate, null_rates m !! c = Some rate → fltb max_rate rate = false
  | RowCount lo hi => within (m_row_count m) lo hi
  | Freshness c max_age => ∀ age, freshness_secs m !! c = Some age → (age ≤ max_age)%N
  | Cardinality c lo hi => ∀ n, cardinalities m !! c = Some n → within n lo hi
  | UniqueRate c min_rate => ∀ n, cardinalities m !! c = Some n → (0 < m_row_count m)%N →
      fltb (fdiv (f64_of_N n) (f64_of_N (m_row_count m))) min_rate = false
  end.

Lemma outside_within id kind text n unit lo hi : outside id kind text n unit lo hi = None ↔ within n lo hi.
Proof.
  unfold outside, within. destruct lo as [l|]; cbn; [destruct (N.ltb_spec n l)|]; (destruct hi as [h|]; cbn; [destruct (N.ltb_spec h n)|]);
    split; try done; try (intros [H1 H2]; exfalso; first [specialize (H1 _ eq_refl); lia|specialize (H2 _ eq_refl); lia]);
    intros _; split; intros m; try done; intros [= <-]; lia.
Qed.

(** Evaluating quality rules reports exactly the enabled rules the
    metrics do not satisfy, in order, each under its identifier. *)
Theorem quality_reports_violations show rules m :
  rule_id <$> evaluate_all show rules m = q_id <$> filter (λ r, q_enabled r = true ∧ evaluate show r m ≠ None) rules ∧
  ∀ r, r ∈ rules → (evaluate show r m = None ↔ q_enabled r = false ∨ satisfied (q_check r) m).
Proof.
  split.
  - unfold evaluate_all. induction rules as [|r rules IH]; [done|]. rewrite filter_cons. cbn [omap list_omap].
    assert (Hid : ∀ v, evaluate show r m = Some v → rule_id v = q_id r ∧ q_enabled r = true).
    { intros v. unfold evaluate, outside. destruct (q_enabled r); [|done]. destruct (q_check r) as [c x|lo hi|c x|c lo hi|c x]; cbn.
      all: try destruct (_ !! c); cbn; try done; repeat case_match; intros [= <-] || intros; simplify_eq; try done.
      all: repeat match goal with
           | H : _ ≫= _ = Some _ |- _ => destruct lo || destruct hi; cbn in H; try done
           | H : (if ?b then _ else _) = Some _ |- _ => destruct b; [injection H as <-|done]
           end; done. }
    destruct (evaluate show r m) as [v|] eqn:E; cbn.
    + destruct (Hid v eq_refl) as [Hv He]. case_decide as Hd; [|naive_solver]. rewrite fmap_cons. f_equal; [exact Hv|exact IH].
    + case_decide as Hd; [naive_solver|exact IH].
  - intros r _. unfold evaluate. destruct (q_enabled r); [|split; [by left|done]].
    destruct (q_check r) as [c x|lo hi|c x|c lo hi|c x]; cbn [satisfied].
    + destruct (null_rates m !! c) as [rate|]; cbn; [|split; [by right|done]]. destruct (fltb x rate) eqn:E; split; try done; [intros [?|H]; [done|by rewrite (H rate eq_refl) in E]|by right; intros ? [= <-]].
    + rewrite outside_within. naive_solver.
    + destruct (freshness_secs m !! c) as [age|]; cbn; [|split; [by right|done]].
      destruct (N.ltb_spec x age); split; try done; [intros [?|H']; [done|specialize (H' age eq_refl); lia]|by right; intros ? [= <-]].
    + destruct (cardinalities m !! c) as [n|]; cbn; [|split; [by right|done]]. rewrite outside_within.
      split; [by right; intros ? [= <-]|]. intros [?|H']; [done|by apply H'].
    + destruct (cardinalities m !! c) as [n|]; cbn; [|split; [by right|done]]. destruct (N.ltb_spec 0 (m_row_count m)); [|split; [|done]; right; intros; lia].
      destruct (fltb _ x) eqn:E; split; try done; [intros [?|H']; [done|by rewrite (H' n eq_refl) in E]|by right; intros ? [= <-]].
Qed.
End QualityCorrect.
