(* ===== verification/Export.v ===== *)
(** * Export: query results as CSV, NDJSON, text tables and columns

    Models, under [fuse-server/src]: [export.rs] (the download formats),
    [formatter.rs] (a second CSV writer and the text table) and
    [arrow_export.rs] (rows to typed columns and back).  The text of a JSON
    value is the class [JsonOps]; a slice out of range is a panic, [None]. *)

From stdpp Require Import base list strings gmap.
From Stdlib Require Import NArith ZArith Lia Ascii.
From S2P Require Import Prelude Strs Json JsonRef Sorting.

Definition LF : ascii := ascii_of_nat 10.
Definition CR : ascii := ascii_of_nat 13.
Definition TAB : ascii := ascii_of_nat 9.
Definition line_end : string := String LF "".

Definition has_char (c : ascii) (s : string) : bool := negb (str_all (λ a, negb (is_char c a)) s).

(** ** CSV cells *)

(** The characters that make a spreadsheet read a cell as a formula. *)
Definition formula_char (a : ascii) : bool :=
  is_char "=" a || is_char "+" a || is_char "-" a || is_char "@" a || is_char TAB a || is_char CR a.
Definition formula_start (s : string) : bool := match s with "" => false | String a _ => formula_char a end.
Definition guard_formula (s : string) : string := if formula_start s then "'" +:+ s else s.

Definition csv_quote (s : string) : string :=
  if has_char "," s || has_char QUOTE s || has_char LF s
  then String QUOTE (replace (String QUOTE "") (String QUOTE (String QUOTE "")) s) +:+ String QUOTE ""
  else s.

Definition csv_line (cells : list string) : string := join_with "," cells +:+ line_end.
Definition csv_lines (lines : list (list string)) : string := foldr (λ l s, csv_line l +:+ s) "" lines.

Section Downloads.
Context `{J : JsonOps}.

(** [export::csv_escape]: only strings are guarded and quoted. *)
Definition csv_escape (v : Value) : string :=
  match v with
  | JNull => ""
  | JString s => csv_quote (guard_formula s)
  | other => to_string other
  end.
Definition to_csv (columns : list string) (rows : list row) : string := csv_lines (columns :: map (map csv_escape) rows).

(** [serde_json::Map] keeps its keys sorted; a repeated column keeps its last value. *)
Definition ndjson_object (columns : list string) (r : row) : Value :=
  JObject (btree_entries (foldl (λ (m : gmap string Value) ic, <[ic.2 := default JNull (r !! ic.1)]> m) ∅ (imap pair columns))).
Definition to_ndjson (columns : list string) (rows : list row) : string :=
  foldr (λ r s, to_string (ndjson_object columns r) +:+ line_end +:+ s) "" rows.

(** [formatter.rs]. *)
Definition value_str (v : Value) : string :=
  match v with JString s => s | JNull => "NULL" | _ => to_string v end.
Definition fmt_csv_escape (v : Value) : string := csv_quote (guard_formula (value_str v)).
Definition fmt_to_csv (columns : list string) (rows : list row) : string := csv_lines (columns :: map (map fmt_csv_escape) rows).

Fixpoint str_repeat (n : nat) (s : string) : string := match n with 0 => "" | S n => s +:+ str_repeat n s end.
(** [format!("{:<width$}", s)]. *)
Definition pad (w : nat) (s : string) : string := s +:+ str_repeat (w - String.length s) " ".

Definition widths (columns : list string) (rows : list row) : list nat :=
  imap (λ i col, (String.length col `max` foldr Nat.max 0 ((λ v, String.length (value_str v)) <$> omap (λ r : row, r !! i) rows))
                 `max` 3) columns.
(** One line of the table; [widths\[i\]] panics beyond the columns. *)
Definition table_line (ws : list nat) (texts : list string) : option string :=
  cells ← mapM (λ it, w ← ws !! it.1; Some (pad w it.2)) (imap pair texts);
  Some (join_with " | " cells +:+ line_end).
Definition to_table (columns : list string) (rows : list row) : option string :=
  let ws := widths columns rows in
  header ← table_line ws columns;
  let separator := join_with "-+-" ((λ w, str_repeat w "-") <$> ws) +:+ line_end in
  lines ← mapM (λ r, table_line ws (value_str <$> r)) rows;
  Some (header +:+ separator +:+ foldr String.append "" lines).
End Downloads.

(** ** Columns *)

Record ArrowColumn : Type := mkArrowColumn { ac_name : string; ac_type : string; ac_values : list Value; null_count : nat }.

Section Columns.
(** [Number::is_i64]. *)
Context (is_i64 : Number → bool).

Definition value_type (v : Value) : string :=
  match v with
  | JNumber n => if is_i64 n then "int64" else "float64"
  | JBool _ => "boolean"
  | _ => "utf8"
  end.
Definition to_column (rows : list row) (i : nat) (name : string) : ArrowColumn :=
  let values := (λ r : row, default JNull (r !! i)) <$> rows in
  mkArrowColumn name
    (from_option value_type "null" (head (filter (λ v, is_null v = false) values)))
    values (length (filter (λ v, is_null v = true) values)).
Definition to_columnar (columns : list string) (rows : list row) : list ArrowColumn := imap (to_column rows) columns.
End Columns.

Definition to_rows (columns : list ArrowColumn) : list row :=
  match columns with
  | [] => []
  | c :: _ => (λ i, (λ c, default JNull (ac_values c !! i)) <$> columns) <$> seq 0 (length (ac_values c))
  end.

(** * A CSV reader reads the cells back *)

(** ** A reader

    RFC 4180 as CSV libraries read it: a field is quoted from its first
    character or not at all, a doubled quote stands for one, a record ends at a
    line feed or a carriage return and blank lines are skipped. *)

Inductive csv_mode : Type := AtStart | Plain | Inside | AfterQuote.

Fixpoint csv_read (m : csv_mode) (field : string) (record : list string) (s : string) : list (list string) :=
  match s with
  | "" => match m, record with AtStart, [] => [] | _, _ => [record ++ [field]] end
  | String c s =>
      match m with
      | Inside => if is_char QUOTE c then csv_read AfterQuote field record s else csv_read Inside (field +:+ String c "") record s
      | _ =>
          if is_char "," c then csv_read AtStart "" (record ++ [field]) s
          else if is_char LF c || is_char CR c then
            match m, record with
            | AtStart, [] => csv_read AtStart "" [] s
            | _, _ => (record ++ [field]) :: csv_read AtStart "" [] s
            end
          else if is_char QUOTE c then
            match m with
            | AtStart => csv_read Inside "" record s
            | AfterQuote => csv_read Inside (field +:+ String QUOTE "") record s
            | _ => csv_read Plain (field +:+ String c "") record s
            end
          else csv_read Plain (field +:+ String c "") record s
      end
  end.
Definition read_csv (s : string) : list (list string) := csv_read AtStart "" [] s.

(** A text whose reading leaves the reader behind a field. *)
Definition reads_as (t c : string) : Prop :=
  (t = "" ∧ c = "") ∨
  ∃ m, (m = Plain ∨ m = AfterQuote) ∧ ∀ r s, csv_read AtStart "" r (t +:+ s) = csv_read m c r s.

Definition csv_plain_char (a : ascii) : bool := negb (is_char "," a || is_char QUOTE a || is_char LF a || is_char CR a).

Lemma plain_run t : str_all csv_plain_char t = true →
  ∀ f r s, csv_read Plain f r (t +:+ s) = csv_read Plain (f +:+ t) r s.
Proof.
  induction t as [|a t IH]; intros Ht f r s; [by rewrite str_app_nil|].
  cbn in Ht. apply andb_true_iff in Ht as [Ha Ht]. unfold csv_plain_char in Ha.
  rewrite !negb_orb in Ha. repeat (apply andb_true_iff in Ha as [Ha ?%negb_true_iff]). apply negb_true_iff in Ha.
  rewrite str_app_cons. cbn [csv_read]. rewrite Ha, H, H0, H1. cbn [orb].
  rewrite (IH Ht), <- str_app_assoc. done.
Qed.

Lemma plain_reads t : str_all csv_plain_char t = true → reads_as t t.
Proof.
  destruct t as [|a t]; intros Ht; [by left|]. right. exists Plain. split; [by left|]. intros r s.
  transitivity (csv_read Plain "" r (String a t +:+ s)); [|exact (plain_run (String a t) Ht "" r s)]. rewrite str_app_cons.
  cbn in Ht. apply andb_true_iff in Ht as [Ha _]. unfold csv_plain_char in Ha.
  rewrite !negb_orb in Ha. repeat (apply andb_true_iff in Ha as [Ha ?%negb_true_iff]). apply negb_true_iff in Ha.
  cbn [csv_read]. by rewrite Ha, H, H0, H1.
Qed.

Abbreviation doubled t := (replace (String QUOTE "") (String QUOTE (String QUOTE "")) t).

Lemma inside_run t : ∀ f r s, csv_read Inside f r (doubled t +:+ s) = csv_read Inside (f +:+ t) r s.
Proof.
  induction t as [|a t IH]; intros f r s; [by rewrite str_app_nil|].
  rewrite replace_char. destruct (Ascii.eqb_spec a QUOTE) as [->|Hq].
  - rewrite !str_app_cons. cbn [csv_read String.append].
    change (is_char QUOTE QUOTE) with true. change (is_char "," QUOTE) with false.
    change (is_char LF QUOTE || is_char CR QUOTE) with false. cbn match. rewrite IH, <- str_app_assoc. done.
  - rewrite str_app_cons. cbn [csv_read]. unfold is_char at 1. rewrite (proj2 (Ascii.eqb_neq QUOTE a)), IH by done. rewrite <- str_app_assoc. done.
Qed.

Lemma quoted_reads t : reads_as (String QUOTE (doubled t) +:+ String QUOTE "") t.
Proof.
  right. exists AfterQuote. split; [by right|]. intros r s.
  rewrite !str_app_cons. cbn [csv_read]. change (is_char QUOTE QUOTE) with true.
  change (is_char "," QUOTE) with false. change (is_char LF QUOTE || is_char CR QUOTE) with false. cbn match.
  rewrite <- str_app_assoc, inside_run, str_app_cons. done.
Qed.

Lemma has_char_false c s : has_char c s = false ↔ str_all (λ a, negb (is_char c a)) s = true.
Proof. unfold has_char. by rewrite negb_false_iff. Qed.

Lemma str_all_and p q s : str_all (λ a, p a && q a) s = str_all p s && str_all q s.
Proof. induction s as [|a s IH]; [done|]. cbn. rewrite IH. destruct (p a), (q a), (str_all p s); done. Qed.

(** A written cell reads as the text it was made from. *)
Lemma csv_quote_reads s : has_char CR s = false → reads_as (csv_quote s) s.
Proof.
  intros Hcr. unfold csv_quote. destruct (has_char "," s || has_char QUOTE s || has_char LF s) eqn:Hq; [apply quoted_reads|].
  apply plain_reads. apply orb_false_iff in Hq as [[H1 H2]%orb_false_iff H3]. rewrite !has_char_false in *.
  apply (str_all_impl (λ a, (negb (is_char "," a) && negb (is_char QUOTE a)) && (negb (is_char LF a) && negb (is_char CR a)))).
  - intros a. unfold csv_plain_char. by rewrite !negb_orb, !andb_assoc.
  - by rewrite !str_all_and, H1, H2, H3, Hcr.
Qed.

Lemma record_end r c m s : (m = AtStart → r ≠ []) → m ≠ Inside →
  csv_read m c r (String LF s) = (r ++ [c]) :: csv_read AtStart "" [] s.
Proof. intros Hr Hm. cbn [csv_read]. change (is_char "," LF) with false. destruct m, r; try done. by destruct Hr. Qed.

Lemma record_reads ts cs : Forall2 reads_as ts cs → ∀ r s, ts ≠ [] → (r = [] → cs ≠ [""]) →
  csv_read AtStart "" r (join_with "," ts +:+ String LF s) = (r ++ cs) :: csv_read AtStart "" [] s.
Proof.
  induction 1 as [|t c ts cs Ht Hts IH]; intros r s Hne Hr; [done|]. destruct Hts as [|t' c' ts cs Ht' Hts].
  - cbn [join_with]. destruct Ht as [[-> ->]|(m & Hm & Ht)].
    + apply record_end; [intros _ ->; by apply Hr|done].
    + rewrite Ht. apply record_end; [by destruct Hm; subst|by destruct Hm; subst].
  - rewrite join_with_cons, <- str_app_assoc.
    assert (Hstep : ∀ s', csv_read AtStart "" r (t +:+ String "," s') = csv_read AtStart "" (r ++ [c]) s').
    { intros s'. destruct Ht as [[-> ->]|(m & Hm & Ht)]; [done|]. rewrite Ht. destruct Hm; by subst. }
    rewrite <- str_app_assoc, str_app_cons, Hstep. change ("" +:+ ?x) with x. rewrite (IH (r ++ [c]) s); [|done|by destruct r].
    by rewrite <- app_assoc.
Qed.

(** A line that a reader does not skip. *)
Definition visible (cells : list string) : Prop := cells ≠ [] ∧ cells ≠ [""].

Lemma lines_read lines texts : Forall2 (λ ts cs, Forall2 reads_as ts cs ∧ visible cs) lines texts →
  read_csv (csv_lines lines) = texts.
Proof.
  unfold read_csv. induction 1 as [|ts cs lines texts [Hts [Hne Hv]] _ IH]; [done|].
  change (csv_lines (ts :: lines)) with (csv_line ts +:+ csv_lines lines). unfold csv_line. rewrite <- str_app_assoc. unfold line_end at 1. rewrite str_app_cons.
  rewrite (record_reads ts cs Hts); [|by intros ->; inversion Hts; subst|done]. change ("" +:+ csv_lines lines) with (csv_lines lines). by rewrite IH.
Qed.

(** ** What the two writers promise *)

Section Written.
Context `{J : JsonOps}.

(** The text a cell of [export.rs] stands for, and when it can be written. *)
Definition cell_text (v : Value) : string :=
  match v with JNull => "" | JString s => guard_formula s | other => to_string other end.
Definition exportable (v : Value) : bool :=
  match v with JNull => true | JString s => negb (has_char CR s) | other => str_all csv_plain_char (to_string other) end.
Definition fmt_text (v : Value) : string := guard_formula (value_str v).

Lemma guard_formula_safe s : formula_start (guard_formula s) = false.
Proof. unfold guard_formula. by destruct (formula_start s) eqn:E. Qed.

Lemma guard_formula_cr s : has_char CR s = false → has_char CR (guard_formula s) = false.
Proof. unfold guard_formula. intros H. destruct (formula_start s); [|done]. rewrite has_char_false in *. exact H. Qed.

Lemma csv_escape_reads v : exportable v = true → reads_as (csv_escape v) (cell_text v).
Proof.
  destruct v; cbn [exportable csv_escape cell_text]; intros H; try by apply plain_reads.
  - apply csv_quote_reads, guard_formula_cr. by apply negb_true_iff.
Qed.

Lemma header_reads columns : Forall (λ c, str_all csv_plain_char c = true) columns → Forall2 reads_as columns columns.
Proof. induction 1; constructor; [by apply plain_reads|done]. Qed.

Lemma csv_table_reads (esc text : Value → string) (ok : Value → Prop) columns (rows : list row) :
  (∀ v, ok v → reads_as (esc v) (text v)) →
  Forall (λ c, str_all csv_plain_char c = true) columns → visible columns →
  Forall (λ r, visible (map text r) ∧ Forall ok r) rows →
  read_csv (csv_lines (columns :: map (map esc) rows)) = columns :: map (map text) rows.
Proof.
  intros Hok Hc Hv Hr. apply lines_read. constructor; [split; [by apply header_reads|done]|].
  induction Hr as [|r rows [Hvis Hcells] _ IH]; constructor; [|exact IH]. split; [|exact Hvis].
  clear Hvis. induction Hcells as [|v r Hv' _ IH']; constructor; [by apply Hok|exact IH'].
Qed.

(** Both CSV writers can be read back.  When the column names need no
    quoting, no row is blank, no text has a carriage return and, for
    [export.rs], the values that are not strings print without commas and
    quotes, a CSV reader returns the header and for every row the texts of its
    cells; a string never reads back as a formula, and with [formatter.rs]
    no cell does. *)
Theorem csv_reads_back columns (rows : list row) :
  Forall (λ c, str_all csv_plain_char c = true) columns → visible columns →
  (Forall (λ r, visible (map cell_text r) ∧ Forall (λ v, exportable v = true) r) rows →
     read_csv (to_csv columns rows) = columns :: map (map cell_text) rows ∧
     ∀ s, formula_start (cell_text (JString s)) = false) ∧
  (Forall (λ r, visible (map fmt_text r) ∧ Forall (λ v, has_char CR (value_str v) = false) r) rows →
     read_csv (fmt_to_csv columns rows) = columns :: map (map fmt_text) rows ∧
     ∀ v, formula_start (fmt_text v) = false).
Proof.
  intros Hc Hv. split; intros Hr; (split; [|intros; apply guard_formula_safe]).
  - apply (csv_table_reads _ _ (λ v, exportable v = true)); [apply csv_escape_reads|done..].
  - apply (csv_table_reads _ _ (λ v, has_char CR (value_str v) = false)); [|done..].
    intros v Hcr. by apply csv_quote_reads, guard_formula_cr.
Qed.
End Written.

Lemma csv_reads_back_witness :
  read_csv (@to_csv RefJson ["id"; "note"] [[JNumber (NInt 7); JString "=1+1"]; [JNull; JString "a, b"]])
    = [["id"; "note"]; ["7"; "'=1+1"]; [""; "a, b"]].
Proof.
  refine (proj1 (proj1 (@csv_reads_back RefJson ["id"; "note"] [[JNumber (NInt 7); JString "=1+1"]; [JNull; JString "a, b"]] _ _) _)).
  - repeat constructor.
  - by split.
  - repeat constructor; by intros [=].
Defined.

(** An array is written without quotes, so its commas end the cell. *)
Lemma array_spills_over :
  read_csv (@to_csv RefJson ["tags"; "id"] [[JArray [JNumber (NInt 1); JNumber (NInt 2)]; JNumber (NInt 7)]])
    = [["tags"; "id"]; ["[1"; "2]"; "7"]].
Proof. vm_compute. reflexivity. Qed.

(** A carriage return inside a text ends the row. *)
Lemma carriage_return_splits_row :
  read_csv (@to_csv RefJson ["a"; "b"] [[JString ("x" +:+ String CR "y"); JString "z"]]) = [["a"; "b"]; ["x"]; ["y"; "z"]].
Proof. vm_compute. reflexivity. Qed.

(** Column names are written as they are. *)
Lemma header_is_not_quoted : read_csv (@to_csv RefJson ["count(a, b)"] []) = [["count(a"; " b)"]].
Proof. vm_compute. reflexivity. Qed.

(** [formatter.rs] guards negative numbers too. *)
Lemma negative_number_is_text : read_csv (@fmt_to_csv RefJson ["a"; "b"] [[JNumber (NInt (-5)); JNull]]) = [["a"; "b"]; ["'-5"; "NULL"]].
Proof. vm_compute. reflexivity. Qed.

(** ** Columns and rows *)

Lemma to_rows_columnar is_i64 columns (rows : list row) : columns ≠ [] →
  to_rows (to_columnar is_i64 columns rows) = resize (length columns) JNull <$> rows.
Proof.
  intros Hne. unfold to_columnar, to_rows.
  assert (Hlen : ∀ i name, length (ac_values (to_column is_i64 rows i name)) = length rows) by (intros; apply length_fmap).
  destruct (imap (to_column is_i64 rows) columns) as [|c0 cs0] eqn:Hcs; [by destruct columns|].
  assert (Hc0 : length (ac_values c0) = length rows) by (destruct columns; [done|]; injection Hcs as <- _; apply Hlen).
  rewrite Hc0, <- Hcs.
  apply list_eq. intros i. rewrite !list_lookup_fmap. destruct (rows !! i) as [r|] eqn:Hr.
  - rewrite lookup_seq_lt by (by apply lookup_lt_Some in Hr). cbn. f_equal. apply list_eq. intros j.
    rewrite list_lookup_fmap, list_lookup_imap. destruct (columns !! j) as [name|] eqn:Hj; cbn.
    + rewrite list_lookup_fmap, Hr. cbn. apply lookup_lt_Some in Hj. destruct (decide (j < length r)) as [Hl|Hl].
      * rewrite lookup_resize by lia. destruct (lookup_lt_is_Some_2 r j Hl) as [v ->]. done.
      * rewrite lookup_resize_new by lia. rewrite lookup_ge_None_2 by lia. done.
    + apply lookup_ge_None in Hj. symmetry. apply lookup_ge_None. rewrite length_resize. done.
  - apply lookup_ge_None in Hr. rewrite lookup_seq_ge by done. done.
Qed.

(** Turning rows into columns and back gives every row cut or filled up
    with nulls to the number of columns; rows that have a cell for each column
    come back as they were.  A column counts exactly its nulls and the cells
    that are missing. *)
Theorem columns_round_trip is_i64 columns (rows : list row) :
  columns ≠ [] →
  to_rows (to_columnar is_i64 columns rows) = resize (length columns) JNull <$> rows ∧
  (Forall (λ r, length r = length columns) rows → to_rows (to_columnar is_i64 columns rows) = rows) ∧
  ∀ i c, to_columnar is_i64 columns rows !! i = Some c →
    null_count c = length (filter (λ r : row, r !! i = None ∨ r !! i = Some JNull) rows).
Proof.
  intros Hne. split_and!; [by apply to_rows_columnar| |].
  - intros Hl. rewrite to_rows_columnar by done. clear Hne. induction Hl as [|r rows Hr _ IH]; [done|].
    cbn. f_equal; [|exact IH]. by rewrite <- Hr, resize_all.
  - intros i c. unfold to_columnar. rewrite list_lookup_imap. destruct (columns !! i) as [name|]; [|done]. intros [= <-]. cbn.
    induction rows as [|r rows IH]; [done|]. rewrite fmap_cons, !filter_cons.
    destruct (r !! i) as [[]|]; cbn [default is_null]; repeat (case_decide; try naive_solver); cbn; by rewrite ?IH.
Qed.

Lemma columns_round_trip_witness :
  to_rows (to_columnar (λ _, true) ["a"; "b"] [[JNumber (NInt 1); JNull]; [JBool true; JString "x"]])
    = [[JNumber (NInt 1); JNull]; [JBool true; JString "x"]].
Proof. refine (proj1 (proj2 (columns_round_trip _ _ _ _)) _); [done|by repeat constructor]. Defined.

(** ** The text table *)

Lemma table_line_defined ws texts : is_Some (table_line ws texts) ↔ length texts ≤ length ws.
Proof.
  unfold table_line. rewrite <- (length_imap (λ (i : nat) (t : string), (i, t)) texts).
  assert (Hm : is_Some (mapM (λ it, w ← ws !! it.1; Some (pad w it.2)) (imap pair texts)) ↔ length (imap pair texts) ≤ length ws).
  { rewrite mapM_is_Some, Forall_lookup. rewrite length_imap. split.
    - intros H. destruct texts as [|t texts] using rev_ind; [cbn; lia|]. rewrite length_app. cbn.
      assert (Hi : imap pair (texts ++ [t]) !! length texts = Some (length texts, t)).
      { rewrite list_lookup_imap, lookup_app_r, Nat.sub_diag by lia. done. }
      destruct (H _ _ Hi) as [x Hx]. cbn in Hx. destruct (ws !! length texts) eqn:E; [|done]. apply lookup_lt_Some in E. lia.
    - intros Hl i [j t] Hi. rewrite list_lookup_imap in Hi. destruct (texts !! i) eqn:Ht; [|done]. injection Hi as <- <-.
      apply lookup_lt_Some in Ht. destruct (lookup_lt_is_Some_2 ws i) as [w Hw]; [lia|]. cbn. rewrite Hw. by eexists. }
  rewrite <- Hm. destruct (mapM _ _); cbn; split; intros [x Hx]; try done; by eexists.
Qed.

(** A table is made unless a row has more cells than there are columns. *)
Lemma table_defined `{J : JsonOps} columns (rows : list row) :
  is_Some (to_table columns rows) ↔ Forall (λ r, length r ≤ length columns) rows.
Proof.
  unfold to_table. assert (Hw : length (widths columns rows) = length columns) by apply length_imap.
  assert (Hh : is_Some (table_line (widths columns rows) columns)) by (rewrite table_line_defined; lia).
  destruct Hh as [h ->]. cbn [mbind option_bind].
  assert (Hm : is_Some (mapM (λ r, table_line (widths columns rows) (value_str <$> r)) rows) ↔ Forall (λ r : row, length r ≤ length columns) rows).
  { rewrite mapM_is_Some. apply Forall_iff. intros r. unfold compose. by rewrite table_line_defined, length_fmap, Hw. }
  rewrite <- Hm. destruct (mapM _ rows); cbn; split; intros [x Hx]; try done; by eexists.
Qed.
