(* ===== verification/MetricQueries.v ===== *)
(** * MetricQueries: the InfluxDB and Prometheus connectors

    Models [crates/fuse-connectors/influxdb/src/lib.rs] (InfluxQL and Flux
    texts, the JSON and CSV answers) and [prometheus/src/promql.rs] with the
    query path of [prometheus/src/lib.rs].  The HTTP calls are parameters, and
    so are the text of a float, the parser of numbers and of the passthrough
    document.  How the two systems read a quoted value is specified below. *)

From S2P Require Import Prelude Strs Float Json JsonRef Arrow ArrowRef Connector Tabular QueryText Export.
From stdpp Require Import base list strings gmap pretty.
From Stdlib Require Import NArith ZArith Lia Ascii SpecFloat.

(** ** Texts of values and names *)

Definition APOS : ascii := "'".
Definition escape_with (c : ascii) : string := String BACKSLASH (String c "").
Abbreviation one c := (String c "").

(** [chars().filter(..)] with the fallback name. *)
Fixpoint str_filter (p : ascii → bool) (s : string) : string :=
  match s with "" => "" | String a s => if p a then String a (str_filter p s) else str_filter p s end.
Definition clean_name (p : ascii → bool) (s : string) : string :=
  let clean := str_filter p s in if String.eqb clean "" then "_" else clean.

(** The chain of replacements for a literal in the given quotes. *)
Definition escape_chain (q : ascii) (s : string) : string :=
  replace (one NUL) "" (replace (one CR) "\r" (replace (one LF) "\n"
    (replace (one q) (escape_with q) (replace (one BACKSLASH) (escape_with BACKSLASH) s)))).
Definition quote_in (q : ascii) (s : string) : string := String q s +:+ one q.

Section Texts.
Context (show_f64 : spec_float → string).

(** [n.to_string()] of a scalar that is not a text. *)
Definition plain_scalar (v : ScalarValue) : string :=
  match v with
  | SInt64 n => pretty n
  | SFloat64 f => show_f64 f
  | SBoolean b => if b then "true" else "false"
  | _ => "null"
  end.

(** ** InfluxQL and Flux *)

Definition sanitize_influxql (s : string) : string := escape_chain APOS s.
Definition sanitize_identifier (s : string) : string :=
  clean_name (λ c, is_alphanumeric c || is_char "_" c || is_char "." c) s.

Definition op_str (eq : string) (op : ComparisonOp) : string :=
  match op with
  | OpEq => eq | OpNeq => "!=" | OpLt => "<" | OpLte => "<=" | OpGt => ">" | OpGte => ">="
  | OpLike | OpILike | OpContains => "=~"
  end.

Definition influxql_value (v : ScalarValue) : string :=
  match v with SUtf8 s => quote_in APOS (sanitize_influxql s) | v => plain_scalar v end.
Definition influxql_comparison (f : string) (op : ComparisonOp) (v : ScalarValue) : string :=
  sanitize_identifier f +:+ " " +:+ op_str "=" op +:+ " " +:+ influxql_value v.
Fixpoint filter_to_influxql (f : FilterExpr) : string :=
  match f with
  | FAnd l r => "(" +:+ filter_to_influxql l +:+ " AND " +:+ filter_to_influxql r +:+ ")"
  | FOr l r => "(" +:+ filter_to_influxql l +:+ " OR " +:+ filter_to_influxql r +:+ ")"
  | FNot e => "NOT (" +:+ filter_to_influxql e +:+ ")"
  | FComparison field op value => influxql_comparison field op value
  | FIn field vals => "(" +:+ join_with " OR " (influxql_comparison field OpEq <$> vals) +:+ ")"
  | FIsNull field => sanitize_identifier field +:+ " = ''"
  | FIsNotNull field => sanitize_identifier field +:+ " != ''"
  end.
Definition subquery_to_influxql (q : SubQuery) : string :=
  "SELECT " +:+ match projections q with [] => "*" | ps => join_with ", " ps end
  +:+ " FROM " +:+ quote_in QUOTE (table q)
  +:+ from_option (λ f, " WHERE " +:+ filter_to_influxql f) "" (filter_expr q)
  +:+ from_option (λ n, " LIMIT " +:+ pretty n) "" (limit q).

Definition flux_escape (s : string) : string :=
  replace (one QUOTE) (escape_with QUOTE) (replace (one BACKSLASH) (escape_with BACKSLASH) s).
Definition flux_value (v : ScalarValue) : string :=
  match v with SUtf8 s => quote_in QUOTE (flux_escape s) | v => plain_scalar v end.
Definition flux_comparison (f : string) (op : ComparisonOp) (v : ScalarValue) : string :=
  "r." +:+ sanitize_identifier f +:+ " " +:+ op_str "==" op +:+ " " +:+ flux_value v.
Fixpoint filter_to_flux (f : FilterExpr) : string :=
  match f with
  | FAnd l r => "(" +:+ filter_to_flux l +:+ " and " +:+ filter_to_flux r +:+ ")"
  | FOr l r => "(" +:+ filter_to_flux l +:+ " or " +:+ filter_to_flux r +:+ ")"
  | FNot e => "not (" +:+ filter_to_flux e +:+ ")"
  | FComparison field op value => flux_comparison field op value
  | FIn field vals => "(" +:+ join_with " or " (flux_comparison field OpEq <$> vals) +:+ ")"
  | FIsNull field => "not exists r." +:+ sanitize_identifier field
  | FIsNotNull field => "exists r." +:+ sanitize_identifier field
  end.
Definition subquery_to_flux (q : SubQuery) (bucket : string) : string :=
  "from(bucket: " +:+ quote_in QUOTE bucket +:+ ") |> range(start: -30d) |> filter(fn: (r) => r._measurement == " +:+ quote_in QUOTE (table q) +:+ ")"
  +:+ from_option (λ f, " |> filter(fn: (r) => " +:+ filter_to_flux f +:+ ")") "" (filter_expr q)
  +:+ from_option (λ n, " |> limit(n: " +:+ pretty n +:+ ")") "" (limit q).

(** ** PromQL *)

Definition sanitize_promql_value (s : string) : string := escape_chain QUOTE s.
Definition sanitize_label_name (s : string) : string := clean_name (λ c, is_alphanumeric c || is_char "_" c) s.

Definition scalar_to_string (v : ScalarValue) : option string :=
  match v with Null => None | SUtf8 s => Some (sanitize_promql_value s) | v => Some (plain_scalar v) end.

Definition label_matcher (name op v : string) : string := name +:+ op +:+ quote_in QUOTE v.
Fixpoint extract_label_matchers (e : FilterExpr) : list string :=
  match e with
  | FAnd l r => extract_label_matchers l ++ extract_label_matchers r
  | FComparison field op value =>
      match scalar_to_string value with
      | Some v =>
          match op with
          | OpEq => [label_matcher (sanitize_label_name field) "=" v]
          | OpNeq => [label_matcher (sanitize_label_name field) "!=" v]
          | OpLike => [label_matcher (sanitize_label_name field) "=~" v]
          | _ => []
          end
      | None => []
      end
  | FNot (FComparison field op value) =>
      match op, scalar_to_string value with
      | OpEq, Some v => [label_matcher field "!=" v]
      | OpLike, Some v => [label_matcher field "!~" v]
      | _, _ => []
      end
  | _ => []
  end.

Definition agg_text (f : AggFunction) : string :=
  match f with
  | Count | ApproxCountDistinct | CountDistinct => "count"
  | Sum => "sum" | Avg => "avg" | Min => "min" | Max => "max"
  | ApproxPercentile _ => "quantile"
  end.

Definition selector (q : SubQuery) : string :=
  let matchers := from_option extract_label_matchers [] (filter_expr q) in
  table q +:+ match matchers with [] => "" | ms => "{" +:+ join_with ", " ms +:+ "}" end.

Context (parse_passthrough : string → Value).
Definition build_promql (q : SubQuery) : string :=
  let base := selector q in
  match pt ← parse_passthrough <$> passthrough q; func ← get pt "function" ≫= as_str; Some (pt, func) with
  | Some (pt, func) => func +:+ "(" +:+ base +:+ "[" +:+ default "5m" (get pt "range" ≫= as_str) +:+ "])"
  | None =>
      match head (aggregations q) with
      | None => base
      | Some agg =>
          match group_by q with
          | [] => agg_text (agg_function agg) +:+ "(" +:+ base +:+ ")"
          | g => agg_text (agg_function agg) +:+ " by (" +:+ join_with ", " g +:+ ") (" +:+ base +:+ ")"
          end
      end
  end.
End Texts.

(** ** Answers *)

(** [v.pointer(..)]: a step is a key of an object or an index of an array. *)
Definition json_step (v : Value) (k : string) : option Value :=
  match v with
  | JObject m => assoc_get k m
  | JArray l => i ← parse_digits k; l !! N.to_nat i
  | _ => None
  end.
Definition json_pointer (v : Value) (path : list string) : option Value := foldl (λ acc k, acc ≫= λ v, json_step v k) (Some v) path.
(** [r.get(i)] of a row given as an array. *)
Definition item (i : nat) (r : Value) : option Value := as_array r ≫= λ l, l !! i.

(** [(f * 1000.0) as i64]. *)
Definition f64_as_i64 (f : f64) : Z :=
  match f with
  | S754_zero _ | S754_nan => 0
  | S754_infinity s => if s then i64_min else i64_max
  | S754_finite s m e =>
      let z := if (0 <=? e)%Z then Z.shiftl (Zpos m) e else Z.shiftr (Zpos m) (- e) in
      Z.max i64_min (Z.min i64_max (if s then - z else z))
  end%Z.

Section Answers.
Context `{K : ArrowKernels} `{J : JsonOps} (parse_f64 : string → option f64).

(** *** InfluxDB 1: rows of JSON values *)

Definition series_columns (series : Value) : list string := omap as_str (default [] (get series "columns" ≫= as_array)).
Definition series_rows (series : Value) : list Value := default [] (get series "values" ≫= as_array).

(** The first row long enough decides the type; a null there makes a text column. *)
Definition v1_column (rows : list Value) (ic : nat * string) : Field * (Value → cell) :=
  match head (omap (item ic.1) rows) with
  | Some (JNumber n) =>
      if bool_decide (is_Some (as_i64 (JNumber n))) then (mkField ic.2 Int64 true, λ r, VInt <$> (item ic.1 r ≫= as_i64))
      else (mkField ic.2 Float64 true, λ r, VFloat <$> (item ic.1 r ≫= as_f64))
  | _ => (mkField ic.2 Utf8 true, λ r, VUtf8 <$> (item ic.1 r ≫= as_str))
  end.
Definition v1_fields (series : Value) : list (Field * (Value → cell)) :=
  v1_column (series_rows series) <$> imap pair (series_columns series).
Definition parse_v1_response (body : Value) : outcome ConnectorError (list RecordBatch) :=
  match json_pointer body ["results"; "0"; "series"; "0"] with
  | None => Ok []
  | Some series =>
      match series_rows series with
      | [] => Ok []
      | rows => b ← as_query_error (try_new (v1_fields series).*1 (built_columns (v1_fields series) rows)); Ok [b]
      end
  end.

(** *** InfluxDB 2: annotated CSV *)

(** [str::lines]: a final line feed ends the last line, a carriage return before it is dropped. *)
Fixpoint drop_last_cr (s : string) : string :=
  match s with "" => "" | String a "" => if is_char CR a then "" else s | String a s => String a (drop_last_cr s) end.
Definition drop_last_empty (ls : list string) : list string :=
  match reverse ls with "" :: r => reverse r | _ => ls end.
Definition str_lines (s : string) : list string := drop_last_cr <$> drop_last_empty (split_on (is_char LF) s).

Definition data_rows (csv : string) : list string := filter (λ l, starts_with_char "#" l = false ∧ l ≠ "") (str_lines csv).
Definition csv_cells (l : string) : list string := split_on (is_char ",") l.
Definition flux_cell (i : nat) (r : list string) : cell :=
  let v := default "" (r !! i) in if String.eqb v "" then None else Some (VUtf8 v).
Definition flux_fields (headers : list string) : list (Field * (list string → cell)) :=
  imap (λ i h, (text_field h, flux_cell i)) headers.

Definition parse_flux_csv (csv : string) : outcome ConnectorError (list RecordBatch) :=
  match data_rows csv with
  | header :: ((_ :: _) as rows) =>
      let fs := flux_fields (csv_cells header) in
      b ← as_query_error (try_new fs.*1 (built_columns fs (csv_cells <$> rows))); Ok [b]
  | _ => Ok []
  end.
Definition parse_flux_csv_column (csv col : string) : list string :=
  match data_rows csv with
  | header :: ((_ :: _) as rows) =>
      match list_find (λ h, h = col) (csv_cells header) with
      | Some (i, _) => omap (λ l, v ← csv_cells l !! i; if String.eqb v "" then None else Some v) rows
      | None => []
      end
  | _ => []
  end.

(** *** Prometheus *)

Definition timestamp_ms : DataType := OtherType "Timestamp(Millisecond, UTC)".
Definition instant_schema : Schema := [text_field "__name__"; text_field "labels"; mkField "value" Float64 false].
Definition timeseries_schema : Schema :=
  [text_field "__name__"; text_field "labels"; mkField "timestamp" timestamp_ms false; mkField "value" Float64 false].

Definition metric_name (r : Value) : option string := m ← get r "metric"; get m "__name__" ≫= as_str.
Definition metric_labels (r : Value) : option string := to_string <$> get r "metric".
Definition sample_value (v : option Value) : f64 := default S754_nan ((v ≫= as_str) ≫= parse_f64).

Definition vector_fields : list (Field * (Value → cell)) :=
  [(text_field "__name__", λ r, opt_cell (metric_name r)); (text_field "labels", λ r, opt_cell (metric_labels r));
   (mkField "value" Float64 false, λ r, Some (VFloat (sample_value (json_pointer r ["value"; "1"]))))].
Definition parse_vector_results (results : list Value) : outcome ConnectorError (list RecordBatch) :=
  match results with
  | [] => Ok []
  | _ => b ← as_query_error (try_new instant_schema (built_columns vector_fields results)); Ok [b]
  end.

Definition sample_time (sample : Value) : Z :=
  from_option (λ f, f64_as_i64 (fmul f (f64_of_N 1000))) 0%Z (item 0 sample ≫= as_f64).
Definition matrix_samples (results : list Value) : list (Value * Value) :=
  results ≫= λ r, pair r <$> default [] (get r "values" ≫= as_array).
Definition matrix_fields : list (Field * (Value * Value → cell)) :=
  [(text_field "__name__", λ rs, opt_cell (metric_name rs.1)); (text_field "labels", λ rs, opt_cell (metric_labels rs.1));
   (mkField "timestamp" timestamp_ms false, λ rs, Some (VInt (sample_time rs.2)));
   (mkField "value" Float64 false, λ rs, Some (VFloat (sample_value (item 1 rs.2))))].
Definition parse_matrix_results (results : list Value) : outcome ConnectorError (list RecordBatch) :=
  match matrix_samples results with
  | [] => Ok []
  | samples => b ← as_query_error (try_new timeseries_schema (built_columns matrix_fields samples)); Ok [b]
  end.

(** What the API answers, and the check of its status. *)
Definition checked (body : outcome string Value) : outcome ConnectorError Value :=
  body ← map_err QueryFailed body;
  if bool_decide (get body "status" ≫= as_str = Some "success") then Ok body
  else Err (QueryFailed ("Prometheus error: " +:+ default "unknown error" (get body "error" ≫= as_str))).

Context (show_f64 : spec_float → string) (parse_passthrough : string → Value)
        (instant : string → outcome string Value) (range : string → string → string → string → outcome string Value).

Definition prometheus_execute (q : SubQuery) : outcome ConnectorError (list RecordBatch) :=
  let pql := build_promql show_f64 parse_passthrough q in
  let at_or k d pt := default d (get pt k ≫= as_str) in
  body ← match parse_passthrough <$> passthrough q with
         | Some pt =>
             match get pt "start" with
             | Some _ => checked (range pql (at_or "start" "now-1h" pt) (at_or "end" "now" pt) (at_or "step" "15s" pt))
             | None => checked (instant pql)
             end
         | None => checked (instant pql)
         end;
  let result_type := default "vector" (json_pointer body ["data"; "resultType"] ≫= as_str) in
  results ← ok_or (json_pointer body ["data"; "result"] ≫= as_array) (QueryFailed "no result in Prometheus response");
  if String.eqb result_type "matrix" then parse_matrix_results results else parse_vector_results results.

Inductive InfluxVersion : Type := V1 | V2.
Definition influx_execute (v : InfluxVersion) (bucket : string) (query_v1 : string → outcome string Value) (query_v2 : string → outcome string string)
    (q : SubQuery) : outcome ConnectorError (list RecordBatch) :=
  match v with
  | V1 => body ← map_err QueryFailed (query_v1 (subquery_to_influxql show_f64 q)); parse_v1_response body
  | V2 => csv ← map_err QueryFailed (query_v2 (subquery_to_flux show_f64 q bucket)); parse_flux_csv csv
  end.

(** *** Schemas *)

Definition influx_field (row : Value) : Field :=
  let t := default "string" (item 1 row ≫= as_str) in
  mkField (default "field" (item 0 row ≫= as_str)) (if String.eqb t "float" || String.eqb t "integer" then Float64 else Utf8) true.
Definition influx_get_schema (v : InfluxVersion) (query_v1 : string → outcome string Value) (tbl : string) : outcome ConnectorError Schema :=
  match v with
  | V1 =>
      body ← map_err QueryFailed (query_v1 ("SHOW FIELD KEYS FROM " +:+ quote_in QUOTE tbl));
      let rows := default [] (json_pointer body ["results"; "0"; "series"; "0"; "values"] ≫= as_array) in
      Ok (mkField "time" Utf8 false :: (influx_field <$> rows))
  | V2 => Ok [mkField "_time" Utf8 false; mkField "_measurement" Utf8 false; mkField "_field" Utf8 false; mkField "_value" Float64 true]
  end.
Definition prometheus_names (body : Value) : outcome ConnectorError (list string) :=
  names ← ok_or (json_pointer body ["data"] ≫= as_array) (SchemaDiscovery "unexpected response from label values API");
  Ok (omap as_str (names : list Value)).
End Answers.

(** * Quoted values are read back *)

(** A string literal in quotes [q], read behind its opening quote: a backslash
    makes the next character stand for itself, [n] for a line feed and [r] for a
    carriage return.  The value, and what follows the closing quote. *)
Definition unescape (c : ascii) : ascii := if is_char "n" c then LF else if is_char "r" c then CR else c.
Fixpoint read_lit (q : ascii) (s : string) : option (string * string) :=
  match s with
  | "" => None
  | String c s =>
      if is_char q c then Some ("", s)
      else if is_char BACKSLASH c then
        match s with
        | "" => None
        | String d s => prod_map (String (unescape d)) id <$> read_lit q s
        end
      else prod_map (String c) id <$> read_lit q s
  end.
Definition no_nul (s : string) : string := str_filter (λ c, negb (is_char NUL c)) s.

Lemma replace_char_app c rep s t : replace (one c) rep (s +:+ t) = replace (one c) rep s +:+ replace (one c) rep t.
Proof.
  induction s as [|a s IH]; [done|]. rewrite str_app_cons, !replace_char, IH.
  destruct (Ascii.eqb a c); [by rewrite str_app_assoc|done].
Qed.

Lemma escape_chain_cons q a s : escape_chain q (String a s) = escape_chain q (one a) +:+ escape_chain q s.
Proof. change (String a s) with (one a +:+ s). unfold escape_chain. by rewrite !replace_char_app. Qed.

Definition quoting (q : ascii) : Prop := q = APOS ∨ q = QUOTE.

Lemma read_escaped_char q a t : quoting q →
  read_lit q (escape_chain q (one a) +:+ t) = if is_char NUL a then read_lit q t else prod_map (String a) id <$> read_lit q t.
Proof. intros [-> | ->]; destruct a as [[] [] [] [] [] [] [] []]; reflexivity. Qed.

(** An escaped text in quotes reads as the text without its NUL characters,
    and ends at the closing quote. *)
Lemma read_escaped q s rest : quoting q → read_lit q (escape_chain q s +:+ String q rest) = Some (no_nul s, rest).
Proof.
  intros Hq. induction s as [|a s IH].
  - destruct Hq as [-> | ->]; reflexivity.
  - rewrite escape_chain_cons, <- str_app_assoc, read_escaped_char, IH by done. unfold no_nul. cbn [str_filter].
    by destruct (is_char NUL a).
Qed.

Lemma flux_escape_cons a s : flux_escape (String a s) = flux_escape (one a) +:+ flux_escape s.
Proof. change (String a s) with (one a +:+ s). unfold flux_escape. by rewrite !replace_char_app. Qed.

Lemma read_flux_char a t : read_lit QUOTE (flux_escape (one a) +:+ t) = prod_map (String a) id <$> read_lit QUOTE t.
Proof. destruct a as [[] [] [] [] [] [] [] []]; reflexivity. Qed.

Lemma read_flux s rest : read_lit QUOTE (flux_escape s +:+ String QUOTE rest) = Some (s, rest).
Proof. induction s as [|a s IH]; [done|]. by rewrite flux_escape_cons, <- str_app_assoc, read_flux_char, IH. Qed.

Lemma str_filter_all p s : str_all p (str_filter p s) = true.
Proof. induction s as [|a s IH]; [done|]. cbn. destruct (p a) eqn:E; [|done]. cbn. by rewrite E. Qed.

Lemma str_filter_id p s : str_all p s = true → str_filter p s = s.
Proof. induction s as [|a s IH]; [done|]. cbn. intros [-> H]%andb_prop. by rewrite IH. Qed.

Lemma clean_name_all (p : ascii → bool) s : p "_"%char = true → str_all p (clean_name p s) = true ∧ clean_name p s ≠ "".
Proof.
  intros Hu. unfold clean_name. destruct (String.eqb_spec (str_filter p s) "") as [_|Hne]; [cbn; by rewrite Hu|].
  split; [apply str_filter_all|exact Hne].
Qed.

(** No value of a filter leaves its quotes.  In InfluxQL, Flux and PromQL
    a text written as a literal is read, whatever follows it, as that text (in
    the first and last without its NUL characters), and the reader goes on
    exactly behind the closing quote; the names of fields and labels are never
    empty and have only letters, digits, underscores and, in InfluxDB, dots. *)
Theorem metric_literals_contained show s rest field :
  (∃ body, influxql_value show (SUtf8 s) +:+ rest = String APOS body ∧ read_lit APOS body = Some (no_nul s, rest)) ∧
  (∃ body, flux_value show (SUtf8 s) +:+ rest = String QUOTE body ∧ read_lit QUOTE body = Some (s, rest)) ∧
  (∃ v, scalar_to_string show (SUtf8 s) = Some v ∧ read_lit QUOTE (v +:+ String QUOTE rest) = Some (no_nul s, rest)) ∧
  str_all (λ c, is_alphanumeric c || is_char "_" c || is_char "." c) (sanitize_identifier field) = true ∧ sanitize_identifier field ≠ "" ∧
  str_all (λ c, is_alphanumeric c || is_char "_" c) (sanitize_label_name field) = true ∧ sanitize_label_name field ≠ "".
Proof.
  split_and!.
  - eexists. split; [reflexivity|]. rewrite <- str_app_assoc. apply read_escaped. by left.
  - eexists. split; [reflexivity|]. rewrite <- str_app_assoc. apply read_flux.
  - eexists. split; [reflexivity|]. apply read_escaped. by right.
  - by apply clean_name_all.
  - by apply clean_name_all.
  - by apply clean_name_all.
  - by apply clean_name_all.
Qed.

(** * The selector of a PromQL query *)

Inductive MatchOp : Type := MEq | MNeq | MRe | MNre.
Record Matcher : Type := mkMatcher { m_name : string; m_op : MatchOp; m_value : string }.

Definition match_text (o : MatchOp) : string := match o with MEq => "=" | MNeq => "!=" | MRe => "=~" | MNre => "!~" end.
Definition label_char (c : ascii) : bool := is_alphanumeric c || is_char "_" c.

(** ** A reader *)

Fixpoint str_span (p : ascii → bool) (s : string) : string * string :=
  match s with
  | String a s' => if p a then prod_map (String a) id (str_span p s') else ("", s)
  | "" => ("", "")
  end.
Definition read_op (s : string) : option (MatchOp * string) :=
  match str_strip_prefix "=~" s, str_strip_prefix "!~" s, str_strip_prefix "!=" s, str_strip_prefix "=" s with
  | Some r, _, _, _ => Some (MRe, r)
  | _, Some r, _, _ => Some (MNre, r)
  | _, _, Some r, _ => Some (MNeq, r)
  | _, _, _, Some r => Some (MEq, r)
  | _, _, _, _ => None
  end.
Definition read_matcher (s : string) : option (Matcher * string) :=
  let nr := str_span label_char s in
  opr ← read_op nr.2;
  body ← strip_prefix_char QUOTE opr.2;
  vr ← read_lit QUOTE body;
  Some (mkMatcher nr.1 opr.1 vr.1, vr.2).
Fixpoint read_matchers (fuel : nat) (s : string) : option (list Matcher) :=
  match fuel with
  | 0 => None
  | S fuel =>
      mr ← read_matcher s;
      if String.eqb mr.2 "}" then Some [mr.1]
      else rest ← str_strip_prefix ", " mr.2; cons mr.1 <$> read_matchers fuel rest
  end.
(** The metric up to a brace, and the matchers between the braces. *)
Definition read_selector (s : string) : option (string * list Matcher) :=
  match split_once (is_char "{") s with
  | None => Some (s, [])
  | Some (metric, rest) => pair metric <$> read_matchers (String.length rest) rest
  end.

(** ** What the filters become *)

(** A text that can be the value of a label, and a name that is kept. *)
Definition good_label (f : string) (v : ScalarValue) : bool :=
  match v with SUtf8 s => str_all label_char f && negb (String.eqb f "") && negb (has_char NUL s) | _ => false end.
Definition text_of (v : ScalarValue) : string := match v with SUtf8 s => s | _ => "" end.

Fixpoint matchers (e : FilterExpr) : list Matcher :=
  match e with
  | FAnd l r => matchers l ++ matchers r
  | FComparison f OpEq v => [mkMatcher f MEq (text_of v)]
  | FComparison f OpNeq v | FNot (FComparison f OpEq v) => [mkMatcher f MNeq (text_of v)]
  | _ => []
  end.

(** The conjunctions of tests of labels; with [loose], joined with conditions that are left out. *)
Fixpoint label_tests (loose : bool) (e : FilterExpr) : bool :=
  match e with
  | FAnd l r => label_tests loose l && label_tests loose r
  | FComparison f op v =>
      match op with
      | OpEq | OpNeq => good_label f v
      | OpLike => false
      | _ => loose
      end
  | FNot (FComparison f op v) =>
      match op with OpEq => good_label f v | OpLike => false | _ => loose end
  | _ => loose
  end.

Section Selected.
Context (show_f64 : spec_float → string) (cmp : ComparisonOp → ScalarValue → ScalarValue → bool).

Definition matcher_text (m : Matcher) : string := label_matcher (m_name m) (match_text (m_op m)) (sanitize_promql_value (m_value m)).
Definition well_named (m : Matcher) : Prop :=
  str_all label_char (m_name m) = true ∧ has_char NUL (m_value m) = false ∧ (m_op m = MEq ∨ m_op m = MNeq).

Lemma good_label_spec f v : good_label f v = true →
  ∃ s, v = SUtf8 s ∧ str_all label_char f = true ∧ sanitize_label_name f = f ∧ has_char NUL s = false.
Proof.
  destruct v as [| | | |s]; try done. cbn. intros [[Hf Hne]%andb_prop Hs]%andb_prop. apply negb_true_iff in Hne, Hs.
  exists s. split_and!; try done. unfold sanitize_label_name, clean_name. rewrite str_filter_id by exact Hf. by rewrite Hne.
Qed.

Lemma extract_is_matchers loose e : label_tests loose e = true →
  extract_label_matchers show_f64 e = matcher_text <$> matchers e ∧ Forall well_named (matchers e).
Proof.
  induction e as [l IHl r IHr|l IHl r IHr|e IH|f op v|f vs|f|f]; intros H; cbn [extract_label_matchers matchers label_tests] in *; try done.
  - apply andb_prop in H as [Hl Hr]. destruct (IHl Hl) as [-> Hwl], (IHr Hr) as [-> Hwr]. rewrite fmap_app. by rewrite Forall_app.
  - destruct e as [| | |f op v| | |]; try done. destruct op; try done.
    apply good_label_spec in H as (s & -> & Hf & _ & Hs). cbn. split; [done|]. constructor; [|done]. split_and!; [done|done|by right].
  - destruct op; try done; try (by destruct (scalar_to_string show_f64 v));
      apply good_label_spec in H as (s & -> & Hf & Hn & Hs); cbn; rewrite Hn; (split; [done|]); (constructor; [|done]);
      (split_and!; [done|done|]); [by left|by right].
Qed.
(** ** The text is read as the matchers *)

Lemma str_span_app p s c t : str_all p s = true → p c = false → str_span p (s +:+ String c t) = (s, String c t).
Proof.
  intros Hs Hc. induction s as [|a s IH].
  - change ("" +:+ String c t) with (String c t). cbn [str_span]. by rewrite Hc.
  - rewrite str_app_cons. cbn [str_span str_all] in *. apply andb_prop in Hs as [-> Hs]. by rewrite IH.
Qed.

Lemma no_nul_id s : has_char NUL s = false → no_nul s = s.
Proof. rewrite has_char_false. apply str_filter_id. Qed.

Lemma read_matcher_text m rest : well_named m → read_matcher (matcher_text m +:+ rest) = Some (m, rest).
Proof.
  destruct m as [n o v]. intros (Hn & Hv & Ho). cbn [m_name m_op m_value] in *.
  unfold matcher_text, label_matcher, quote_in, read_matcher. cbn [m_name m_op m_value]. rewrite <- !str_app_assoc.
  assert (Hlit : ∀ s, read_lit QUOTE (sanitize_promql_value v +:+ one QUOTE +:+ s) = Some (v, s)).
  { intros s. unfold sanitize_promql_value. change (one QUOTE +:+ s) with (String QUOTE s). rewrite read_escaped by (by right). by rewrite no_nul_id. }
  destruct Ho as [-> | ->]; cbn [match_text]; rewrite str_app_cons, str_span_app by done; cbn [fst snd].
  - change (read_op _) with (Some (MEq, String QUOTE (sanitize_promql_value v +:+ one QUOTE +:+ rest))). cbn [mbind option_bind fst snd].
    change (strip_prefix_char QUOTE (String QUOTE ?x)) with (Some x). cbn [mbind option_bind]. by rewrite Hlit.
  - change (read_op _) with (Some (MNeq, String QUOTE (sanitize_promql_value v +:+ one QUOTE +:+ rest))). cbn [mbind option_bind fst snd].
    change (strip_prefix_char QUOTE (String QUOTE ?x)) with (Some x). cbn [mbind option_bind]. by rewrite Hlit.
Qed.

Lemma read_matchers_text ms : ms ≠ [] → Forall well_named ms → ∀ fuel, length ms ≤ fuel →
  read_matchers fuel (join_with ", " (matcher_text <$> ms) +:+ "}") = Some ms.
Proof.
  intros Hne Hw. induction Hw as [|m ms Hm Hms IH]; [done|]. intros [|fuel] Hf; [cbn in Hf; lia|]. cbn [read_matchers].
  destruct ms as [|m' ms].
  - cbn [fmap list_fmap map join_with]. rewrite read_matcher_text by done. done.
  - rewrite !fmap_cons, join_with_cons, <- !str_app_assoc, read_matcher_text by done. cbn [mbind option_bind fst snd].
    change (String.eqb (", " +:+ _) "}") with false. cbn match. rewrite strip_prefix_app. cbn [mbind option_bind].
    rewrite <- fmap_cons, IH; [done|done|cbn in *; lia].
Qed.
Lemma join_length_le ms : length ms ≤ String.length (join_with ", " (matcher_text <$> ms)).
Proof.
  induction ms as [|m ms IH]; [cbn; lia|]. destruct ms as [|m' ms].
  - cbn [fmap list_fmap map join_with]. unfold matcher_text, label_matcher, quote_in. rewrite str_app_cons, !str_length_app. cbn [String.length length]. lia.
  - change (matcher_text <$> m :: m' :: ms) with (matcher_text m :: matcher_text m' :: (matcher_text <$> ms)).
    rewrite join_with_cons, !str_length_app. change (matcher_text m' :: (matcher_text <$> ms)) with (matcher_text <$> m' :: ms).
    change (String.length ", ") with 2. cbn [length] in *. lia.
Qed.

Lemma selector_reads q loose :
  str_all (λ c, negb (is_char "{" c)) (table q) = true → from_option (label_tests loose) true (filter_expr q) = true →
  read_selector (selector show_f64 q) = Some (table q, from_option matchers [] (filter_expr q)).
Proof.
  intros Ht Hf. unfold selector, read_selector, split_once.
  assert (Hms : from_option (extract_label_matchers show_f64) [] (filter_expr q) = matcher_text <$> from_option matchers [] (filter_expr q)
                ∧ Forall well_named (from_option matchers [] (filter_expr q))).
  { destruct (filter_expr q) as [e|]; [by apply (extract_is_matchers loose)|done]. }
  destruct Hms as [-> Hw]. revert Hw. generalize (from_option matchers [] (filter_expr q)). intros [|m ms] Hw.
  - cbn [fmap list_fmap map]. rewrite str_app_nil, find_char_none by done. done.
  - set (l := m :: ms) in *. set (rest := join_with ", " (matcher_text <$> l) +:+ "}").
    change (match matcher_text <$> l with [] => _ | _ => _ end) with (String "{" rest).
    rewrite find_char_app by done. cbn [find_char]. change (is_char "{" "{") with true. cbn [fmap option_fmap option_map].
    rewrite Nat.add_0_r, str_take_app. replace (S (String.length (table q))) with (String.length (table q) + 1) by lia. rewrite str_drop_app. cbn [str_drop].
    unfold rest. rewrite read_matchers_text; [done|done|done|]. rewrite str_length_app. pose proof (join_length_le l). lia.
Qed.

(** ** The series it selects *)

(** A label that is not there is an empty text. *)
Definition matcher_holds (labels : string → option string) (m : Matcher) : bool :=
  let v := default "" (labels (m_name m)) in
  match m_op m with
  | MEq => bool_decide (v = m_value m)
  | MNeq => bool_decide (v ≠ m_value m)
  | _ => true
  end.
Definition labels_env (labels : string → option string) (f : string) : ScalarValue := from_option SUtf8 Null (labels f).
Definition texts_compare : Prop :=
  ∀ s t, cmp OpEq (SUtf8 s) (SUtf8 t) = bool_decide (s = t) ∧ cmp OpNeq (SUtf8 s) (SUtf8 t) = bool_decide (s ≠ t).

Lemma matcher_decides labels f s x op o :
  texts_compare → (op = OpEq ∧ o = MEq) ∨ (op = OpNeq ∧ o = MNeq) →
  tri_cmp cmp op (labels_env labels f) (SUtf8 s) = Some x → matcher_holds labels (mkMatcher f o s) = x.
Proof.
  intros Hc Ho. unfold labels_env, matcher_holds. cbn [m_name m_op m_value]. destruct (labels f) as [t|]; cbn; [|done].
  destruct (Hc t s) as [Heq Hne]. destruct Ho as [[-> ->]|[-> ->]]; intros [= <-]; done.
Qed.

Lemma matchers_decide labels loose e : texts_compare → label_tests loose e = true →
  (eval_filter cmp (labels_env labels) e = Some true → forallb (matcher_holds labels) (matchers e) = true) ∧
  (loose = false → eval_filter cmp (labels_env labels) e = Some false → forallb (matcher_holds labels) (matchers e) = false).
Proof.
  intros Hc. induction e as [l IHl r IHr|l IHl r IHr|e IH|f op v|f vs|f|f]; cbn [label_tests matchers]; intros H; try (split; [done|by intros ->]).
  - apply andb_prop in H as [Hl Hr]. destruct (IHl Hl) as [Hl1 Hl2], (IHr Hr) as [Hr1 Hr2]. cbn [eval_filter]. rewrite forallb_app. split.
    + intros [H1 H2]%tri_and_true. by rewrite Hl1, Hr1.
    + intros -> Hf. destruct (eval_filter cmp (labels_env labels) l) as [[]|]; [..|];
        destruct (eval_filter cmp (labels_env labels) r) as [[]|]; try done; rewrite ?Hl2, ?Hr2 by done; by rewrite ?andb_false_r.
  - destruct e as [| | |f op v| | |]; try (split; [done|by intros ->]). destruct op; try (split; [done|by intros ->]).
    apply good_label_spec in H as (s & -> & _). cbn [eval_filter forallb text_of].
    assert (∀ y, tri_cmp cmp OpEq (labels_env labels f) (SUtf8 s) = Some y → matcher_holds labels (mkMatcher f MNeq s) = negb y) as Hm.
    { intros y Hy. apply (matcher_decides labels f s _ OpNeq); [done|by right|]. unfold labels_env in *.
      destruct (labels f) as [t|]; [|done]. cbn in *. destruct (Hc t s) as [Heq Hne]. rewrite Hne. injection Hy as <-. rewrite Heq. by rewrite bool_decide_not. }
    destruct (tri_cmp cmp OpEq (labels_env labels f) (SUtf8 s)) as [y|]; [|done]. rewrite (Hm y eq_refl). by destruct y.
  - destruct op; try (split; [done|by intros ->]);
      apply good_label_spec in H as (s & -> & _); cbn [eval_filter forallb text_of];
      (split; [intros Hx|intros _ Hx]); rewrite andb_true_r.
    1,2: apply (matcher_decides labels f s _ OpEq); [done|by left|done].
    1,2: apply (matcher_decides labels f s _ OpNeq); [done|by right|done].
Qed.

(** A PromQL selector loses no series.  The text built for a query reads
    back as the metric and a list of label matchers, and every series whose
    labels the filter keeps passes them; when the filter is a conjunction of
    (in)equalities of labels with texts, a series it rejects does not pass.
    Conditions that are no such test are left out. *)
Theorem promql_selects_series q e loose :
  filter_expr q = Some e → label_tests loose e = true →
  str_all (λ c, negb (is_char "{" c)) (table q) = true → texts_compare →
  ∃ ms, read_selector (selector show_f64 q) = Some (table q, ms) ∧
    ∀ labels,
      (keeps cmp (labels_env labels) e → forallb (matcher_holds labels) ms = true) ∧
      (loose = false → eval_filter cmp (labels_env labels) e = Some false → forallb (matcher_holds labels) ms = false).
Proof.
  intros He Hl Ht Hc. exists (matchers e). split.
  - rewrite (selector_reads q loose Ht); by rewrite He.
  - intros labels. by apply (matchers_decide labels loose).
Qed.
End Selected.

Definition demo_filter : FilterExpr :=
  FAnd (FComparison "job" OpEq (SUtf8 "api")) (FNot (FComparison "env" OpEq (SUtf8 "dev"))).
Definition demo_query : SubQuery := mkSubQuery "up" [] (Some demo_filter) [] [] None [] None None None.
Definition demo_cmp (op : ComparisonOp) (x y : ScalarValue) : bool :=
  match op with OpEq => bool_decide (x = y) | OpNeq => bool_decide (x ≠ y) | _ => false end.

Lemma promql_selects_series_witness :
  ∃ ms, read_selector (selector (λ _, "") demo_query) = Some ("up", ms) ∧
    forallb (matcher_holds (λ l, if String.eqb l "job" then Some "api" else Some "prod")) ms = true ∧
    forallb (matcher_holds (λ _, Some "api")) ms = true ∧
    forallb (matcher_holds (λ _, Some "dev")) ms = false.
Proof.
  destruct (promql_selects_series (λ _, "") demo_cmp demo_query demo_filter false) as (ms & Hr & Hms); [done..| |].
  - intros s t. unfold demo_cmp. split; apply bool_decide_ext; naive_solver.
  - exists ms. split; [exact Hr|]. split_and!; [apply Hms|apply Hms|apply Hms; [done|]]; vm_compute; done.
Defined.

(** In the branch for NOT the name is written as it is. *)
Lemma negated_name_is_raw show f s :
  extract_label_matchers show (FNot (FComparison f OpEq (SUtf8 s))) = [f +:+ "!=" +:+ quote_in QUOTE (sanitize_promql_value s)].
Proof. done. Qed.

(** A disjunction is dropped, and an ordering too. *)
Lemma disjunction_is_dropped show l r f v :
  extract_label_matchers show (FOr l r) = [] ∧ extract_label_matchers show (FComparison f OpGt v) = [].
Proof. split; [done|]. cbn. by destruct (scalar_to_string show v). Qed.

(** * Answers become rows *)

Section AnswerRows.
Context `{K : ArrowKernels, !ArrowLaws K} `{J : JsonOps} (parse_f64 : string → option f64).

Lemma built_answer {R : Type} (fs : list (Field * (R → cell))) (rows : list R) :
  fs ≠ [] → Forall (λ f, nullable f.1 = true ∨ ∀ r, f.2 r ≠ None) fs →
  ∃ b, (b ← as_query_error (try_new fs.*1 (built_columns fs rows)); Ok [b]) = Ok [b] ∧
       batch_rows b = entry_cells fs <$> rows ∧ schema b = fs.*1.
Proof. intros Hne Hn. destruct (built_batch fs rows Hne Hn) as (b & Hb & Hr & Hs). exists b. by rewrite Hb. Qed.

Lemma v1_fields_nullable series : Forall (λ f, nullable f.1 = true ∨ ∀ r, f.2 r ≠ None) (v1_fields series).
Proof.
  apply Forall_fmap, Forall_true. intros ic. left. unfold v1_column, compose.
  destruct (head _) as [[| |n| | |]|]; try done. by case_bool_decide.
Qed.

Lemma flux_fields_nullable headers : Forall (λ f, nullable f.1 = true ∨ ∀ r, f.2 r ≠ None) (flux_fields headers).
Proof.
  apply Forall_lookup. intros i f. unfold flux_fields. rewrite list_lookup_imap. destruct (headers !! i); [|done]. intros [= <-]. by left.
Qed.

(** Every row of an answer becomes a row of the batch.  The rows of an
    InfluxDB 1 series with a named column, the data lines of an InfluxDB 2 CSV
    below its header, the series of a Prometheus vector and the samples of a
    Prometheus matrix are answered, each non-empty list as one batch with one
    row per entry and in order, and none of these readers fails. *)
Theorem answers_keep_their_rows body series csv results :
  (json_pointer body ["results"; "0"; "series"; "0"] = Some series → series_columns series ≠ [] → series_rows series ≠ [] →
     ∃ b, parse_v1_response body = Ok [b] ∧ batch_rows b = entry_cells (v1_fields series) <$> series_rows series) ∧
  (∀ header rows, data_rows csv = header :: rows → rows ≠ [] →
     ∃ b, parse_flux_csv csv = Ok [b] ∧ batch_rows b = entry_cells (flux_fields (csv_cells header)) ∘ csv_cells <$> rows) ∧
  (results ≠ [] →
     ∃ b, parse_vector_results parse_f64 results = Ok [b] ∧ batch_rows b = entry_cells (vector_fields parse_f64) <$> results) ∧
  (matrix_samples results ≠ [] →
     ∃ b, parse_matrix_results parse_f64 results = Ok [b] ∧ batch_rows b = entry_cells (matrix_fields parse_f64) <$> matrix_samples results).
Proof.
  split_and!.
  - intros Hp Hc Hr. unfold parse_v1_response. rewrite Hp.
    destruct (built_answer (v1_fields series) (series_rows series)) as (b & Hb & Hrows & _).
    + intros E%fmap_nil_inv. by destruct (series_columns series).
    + apply v1_fields_nullable.
    + exists b. destruct (series_rows series); [done|]. by split.
  - intros header rows Hd Hr. unfold parse_flux_csv. rewrite Hd.
    destruct (built_answer (flux_fields (csv_cells header)) (csv_cells <$> rows)) as (b & Hb & Hrows & _).
    + unfold flux_fields. intros E. apply (f_equal length) in E. rewrite length_imap in E.
      apply nil_length_inv in E. by apply (split_on_nonempty (is_char ",") header).
    + apply flux_fields_nullable.
    + exists b. destruct rows; [done|]. split; [exact Hb|]. by rewrite Hrows, <- list_fmap_compose.
  - intros Hr. destruct (built_answer (vector_fields parse_f64) results) as (b & Hb & Hrows & _); [done|repeat (apply Forall_cons_2; [(left; done) || (right; done)|]); apply Forall_nil_2|].
    exists b. unfold parse_vector_results. destruct results; [done|]. by split.
  - intros Hr. destruct (built_answer (matrix_fields parse_f64) (matrix_samples results)) as (b & Hb & Hrows & _); [done|repeat (apply Forall_cons_2; [(left; done) || (right; done)|]); apply Forall_nil_2|].
    exists b. unfold parse_matrix_results. destruct (matrix_samples results); [done|]. by split.
Qed.
End AnswerRows.

Lemma answers_keep_their_rows_witness :
  ∃ b, @parse_flux_csv RefArrow ("#x" +:+ line_end +:+ "t,v" +:+ line_end +:+ "1,a" +:+ line_end +:+ "2," +:+ line_end) = Ok [b] ∧
       batch_rows b = [[Some (VUtf8 "1"); Some (VUtf8 "a")]; [Some (VUtf8 "2"); None]].
Proof.
  refine (proj1 (proj2 (@answers_keep_their_rows RefArrow _ RefJson (λ _, None) JNull JNull _ [])) "t,v" ["1,a"; "2,"] _ _); done.
Defined.

(** A series whose first value is null is a text column, and its numbers are lost. *)
Lemma null_first_loses_numbers :
  entry_cells [@v1_column RefJson [JArray [JNull]; JArray [JNumber (NInt 5)]] (0, "x")] <$> [JArray [JNull]; JArray [JNumber (NInt 5)]] = [[None]; [None]].
Proof. vm_compute. reflexivity. Qed.

(** The header of a second table is read as a row of the first. *)
Lemma second_header_is_row :
  data_rows ("a" +:+ line_end +:+ "1" +:+ line_end +:+ line_end +:+ "b" +:+ line_end +:+ "2" +:+ line_end) = ["a"; "1"; "b"; "2"].
Proof. vm_compute. reflexivity. Qed.
