(* ===== verification/DocStores.v ===== *)
(** * DocStores: the MongoDB and Redis connectors

    Models [crates/fuse-connectors/mongodb/src/lib.rs] (filters as query
    documents, documents as batches) and [redis/src/lib.rs] (scanned keys as
    batches).  The drivers are parameters: what a collection, a scan and a read
    of a key answer.  MongoDB's documented matching of query documents is part
    of the specification. *)

From S2P Require Import Prelude Strs Sorting Arrow ArrowRef Connector Tabular.
From stdpp Require Import base list strings gmap sorting.
From Stdlib Require Import NArith ZArith Lia Ascii SpecFloat.

(** ** MongoDB *)

Module Mongo.

(** [bson::Bson]; the kinds the connector does not tell apart are one. *)
Local Unset Elimination Schemes.
Inductive Bson : Type :=
| BDouble (f : spec_float)
| BString (s : string)
| BInt32 (z : Z)
| BInt64 (z : Z)
| BBoolean (b : bool)
| BNull
| BArray (l : list Bson)
| BDocument (d : list (string * Bson))
| BOther (s : string).
Local Set Elimination Schemes.
Abbreviation Document := (list (string * Bson)).

(** [doc.get(key)]. *)
Fixpoint doc_get (k : string) (d : Document) : option Bson :=
  match d with
  | [] => None
  | (k', v) :: d => if String.eqb k' k then Some v else doc_get k d
  end.

Definition get_nested_bson (v : Bson) (path : string) : option Bson :=
  foldl (λ acc k, acc ≫= λ c, match c with BDocument d => doc_get k d | _ => None end) (Some v) (split_on (is_char ".") path).

Definition scalar_to_bson (v : ScalarValue) : Bson :=
  match v with
  | SUtf8 s => BString s
  | SInt64 n => BInt64 n
  | SFloat64 f => BDouble f
  | SBoolean b => BBoolean b
  | Null => BNull
  end.

Definition doc1 (k : string) (v : Bson) : Document := [(k, v)].

(** The pattern of LIKE as a regular expression. *)
Definition like_pattern (v : ScalarValue) : string :=
  match v with SUtf8 s => replace "_" "." (replace "%" ".*" s) | _ => "" end.

Fixpoint filter_to_bson (f : FilterExpr) : Document :=
  match f with
  | FAnd l r => doc1 "$and" (BArray [BDocument (filter_to_bson l); BDocument (filter_to_bson r)])
  | FOr l r => doc1 "$or" (BArray [BDocument (filter_to_bson l); BDocument (filter_to_bson r)])
  | FNot e => doc1 "$nor" (BArray [BDocument (filter_to_bson e)])
  | FComparison field op value =>
      let v := scalar_to_bson value in
      match op with
      | OpEq => doc1 field v
      | OpNeq => doc1 field (BDocument (doc1 "$ne" v))
      | OpLt => doc1 field (BDocument (doc1 "$lt" v))
      | OpLte => doc1 field (BDocument (doc1 "$lte" v))
      | OpGt => doc1 field (BDocument (doc1 "$gt" v))
      | OpGte => doc1 field (BDocument (doc1 "$gte" v))
      | OpLike | OpILike | OpContains =>
          doc1 field (BDocument [("$regex", BString (like_pattern value));
                                 ("$options", BString (if bool_decide (op = OpILike) then "i" else ""))])
      end
  | FIn field vals => doc1 field (BDocument (doc1 "$in" (BArray (scalar_to_bson <$> vals))))
  | FIsNull field => doc1 field (BDocument (doc1 "$exists" (BBoolean false)))
  | FIsNotNull field => doc1 field (BDocument (doc1 "$exists" (BBoolean true)))
  end.

Definition bson_type_to_arrow (v : Bson) : DataType :=
  match v with
  | BInt32 _ | BInt64 _ => Int64
  | BDouble _ => Float64
  | BBoolean _ => Boolean
  | _ => Utf8
  end.

(** [get_schema] of a sampled document. *)
Definition doc_schema (d : Document) : Schema :=
  match filter (λ kv, kv.1 ≠ "_id") d with
  | [] => [mkField "_id" Utf8 true]
  | kvs => (λ kv, mkField kv.1 (bson_type_to_arrow kv.2) true) <$> kvs
  end.
Definition get_schema (sample : outcome string (option Document)) (tbl : string) : outcome ConnectorError Schema :=
  d ← map_err SchemaDiscovery sample;
  d ← ok_or d (SchemaDiscovery ("collection '" +:+ tbl +:+ "' is empty or not found"));
  Ok (doc_schema d).

(** The options of [find]; the projection is an ordered document. *)
Record FindOptions : Type := mkFind { fo_limit : option Z; fo_projection : option (list (string * Z)) }.

Fixpoint doc_insert (k : string) (v : Z) (d : list (string * Z)) : list (string * Z) :=
  match d with
  | [] => [(k, v)]
  | (k', v') :: d => if String.eqb k' k then (k, v) :: d else (k', v') :: doc_insert k v d
  end.
Definition find_options (q : SubQuery) : FindOptions :=
  mkFind ((λ n, wrap_i64 (Z.of_N n)) <$> limit q)
         match projections q with
         | [] => None
         | ps => Some (doc_insert "_id" 0 (foldl (λ d col, doc_insert col 1 d) [] ps))
         end.

Section Batch.
Context `{K : ArrowKernels} (show_bson : Bson → string).

Definition field_of (col : string) (d : Document) : option Bson := get_nested_bson (BDocument d) col.

Definition doc_columns (q : SubQuery) (docs : list Document) : list string :=
  match projections q with
  | [] => btree_set (list_to_set (filter (λ k, k ≠ "_id") (docs ≫= fmap fst)))
  | ps => ps
  end.

(** The cell of a value in a column of a type. *)
Definition bson_cell (t : DataType) (v : option Bson) : cell :=
  match t, v with
  | Int64, Some (BInt64 n | BInt32 n) => Some (VInt n)
  | Float64, Some (BDouble f) => Some (VFloat f)
  | Boolean, Some (BBoolean b) => Some (VBool b)
  | Utf8, Some v => Some (VUtf8 (show_bson v))
  | _, _ => None
  end.
(** The first document that has the field decides the type. *)
Definition column_type (docs : list Document) (col : string) : DataType :=
  from_option bson_type_to_arrow Utf8 (head (omap (field_of col) docs)).
Definition doc_column (docs : list Document) (col : string) : Field * (Document → cell) :=
  let t := column_type docs col in (mkField col t true, λ d, bson_cell t (field_of col d)).

Definition docs_to_batch (docs : list Document) (q : SubQuery) : outcome ConnectorError (list RecordBatch) :=
  let fs := doc_column docs <$> doc_columns q docs in
  b ← as_query_error (try_new fs.*1 (built_columns fs docs)); Ok [b].

(** [find] is the driver's call, with the documents the cursor yields; an
    error while the cursor advances is the error of the call. *)
Context (find : string → Document → FindOptions → outcome string (list Document)).

Definition execute (q : SubQuery) : outcome ConnectorError (list RecordBatch) :=
  docs ← map_err QueryFailed (find (table q) (from_option filter_to_bson [] (filter_expr q)) (find_options q));
  match docs with [] => Ok [] | _ => docs_to_batch docs q end.
End Batch.
End Mongo.

(** ** Redis *)

Module RedisKeys.
Section Redis.
Context `{K : ArrowKernels}.
(** What the pool and the server answer; every scan answers the same. *)
Context (connect : outcome string unit) (scan_match : outcome string (list (outcome string string)))
        (key_kind : string → outcome string string) (hgetall : string → outcome string (gmap string string))
        (get_text : string → outcome string string) (key_pattern : string).

Definition get_connection : outcome ConnectorError unit := map_err (λ e, Connection ("Redis pool get: " +:+ e)) connect.

(** The loop of [scan_keys], with the keys collected so far. *)
Fixpoint scan_loop (max : nat) (keys : list string) (items : list (outcome string string)) : outcome ConnectorError (list string) :=
  match items with
  | [] => Ok keys
  | item :: items =>
      k ← map_err (λ e, QueryFailed ("SCAN key: " +:+ e)) item;
      if bool_decide (max ≤ length (keys ++ [k])) then Ok (keys ++ [k]) else scan_loop max (keys ++ [k]) items
  end.
Definition scan_keys (limit : option N) : outcome ConnectorError (list string) :=
  _ ← get_connection;
  items ← map_err (λ e, QueryFailed ("SCAN: " +:+ e)) scan_match;
  scan_loop (N.to_nat (default 10000%N limit)) [] items.

Definition read_hash (key : string) : outcome ConnectorError (gmap string string) :=
  map_err (λ e, QueryFailed ("HGETALL " +:+ key +:+ ": " +:+ e)) (hgetall key).
Definition read_string (key : string) : outcome ConnectorError string :=
  map_err (λ e, QueryFailed ("GET " +:+ key +:+ ": " +:+ e)) (get_text key).

Definition key_field : Field := mkField "_key" Utf8 false.
Definition sampled_names (keys : list string) : list string :=
  btree_set (⋃ (dom <$> omap (λ k, ok_value (read_hash k)) (take 10 keys))).

Definition infer_schema_from_sample : outcome ConnectorError (Schema * string) :=
  _ ← get_connection;
  keys ← scan_keys (Some 10%N);
  key ← ok_or (head keys) (SchemaDiscovery "no keys match pattern");
  kind ← map_err (λ e, SchemaDiscovery ("TYPE: " +:+ e)) (key_kind key);
  if String.eqb kind "hash" then Ok (key_field :: (text_field <$> sampled_names keys), "hash")
  else if String.eqb kind "string" then Ok ([key_field; mkField "value" Utf8 false], "string")
  else Err (SchemaDiscovery ("unsupported key type: " +:+ kind)).

Definition build_error {A} (r : outcome ArrowError A) (show : ArrowError → string) : outcome ConnectorError A :=
  map_err (λ e, QueryFailed ("build batch: " +:+ show e)) r.
Context (show_arrow : ArrowError → string).

Definition hash_cells (s : Schema) : list (Field * ((string * gmap string string) → cell)) :=
  match s with
  | [] => []
  | f :: fs => (f, λ kr, text_cell kr.1) :: ((λ f, (f, λ kr, opt_cell (kr.2 !! name f))) <$> fs)
  end.
Definition hashes_to_batch (rows : list (string * gmap string string)) (s : Schema) : outcome ConnectorError RecordBatch :=
  build_error (try_new s (built_columns (hash_cells s) rows)) show_arrow.
Definition strings_to_batch (rows : list (string * string)) (s : Schema) : outcome ConnectorError RecordBatch :=
  build_error (try_new s [mkArray Utf8 ((λ kv, text_cell kv.1) <$> rows); mkArray Utf8 ((λ kv, text_cell kv.2) <$> rows)]) show_arrow.

Definition execute (q : SubQuery) : outcome ConnectorError (list RecordBatch) :=
  _ ← get_connection;
  sk ← infer_schema_from_sample;
  keys ← scan_keys (limit q);
  match keys with
  | [] => Ok []
  | _ =>
      if String.eqb sk.2 "hash" then
        b ← hashes_to_batch ((λ k, (k, default ∅ (ok_value (read_hash k)))) <$> keys) sk.1; Ok [b]
      else if String.eqb sk.2 "string" then
        b ← strings_to_batch ((λ k, (k, default "" (ok_value (read_string k)))) <$> keys) sk.1; Ok [b]
      else Err (QueryFailed "unsupported key type")
  end.

(** [discover_schemas]: one table named after the pattern. *)
Definition discover_schemas : string :=
  let t := trim_matches (is_char "_") (replace ":" "_" (replace "*" "" key_pattern)) in
  if String.eqb t "" then "keys" else t.
End Redis.
End RedisKeys.

(** * Query documents select what the filter keeps *)

Section MongoMeaning.
Import Mongo.
(** How values compare, and the regular expressions. *)
Context (bson_cmp : ComparisonOp → Bson → Bson → bool) (regex : string → string → Bson → bool).

(** MongoDB's reading of one operator on the value of a field, which may be missing. *)
Definition op_holds (v : option Bson) (op : string * Bson) : bool :=
  match op with
  | ("$exists", BBoolean b) => Bool.eqb b (bool_decide (is_Some v))
  | (k, arg) =>
      match v with
      | None => bool_decide (k = "$ne")
      | Some x =>
          match k, arg with
          | "$ne", _ => negb (bson_cmp OpEq x arg)
          | "$lt", _ => bson_cmp OpLt x arg
          | "$lte", _ => bson_cmp OpLte x arg
          | "$gt", _ => bson_cmp OpGt x arg
          | "$gte", _ => bson_cmp OpGte x arg
          | "$in", BArray l => existsb (bson_cmp OpEq x) l
          | _, _ => false
          end
      end
  end.

(** A condition on a field: a document of operators, or a value to equal; null
    is also equal to a missing field. *)
Definition condition_holds (v : option Bson) (c : Bson) : bool :=
  match c with
  | BDocument [("$regex", BString p); ("$options", BString o)] => from_option (regex p o) false v
  | BDocument ops => forallb (op_holds v) ops
  | BNull => from_option (λ x, bson_cmp OpEq x BNull) true v
  | c => from_option (λ x, bson_cmp OpEq x c) false v
  end.

(** A query document on a document given by its fields. *)
Fixpoint matches (row : string → option Bson) (q : Bson) : bool :=
  match q with
  | BDocument d =>
      (fix all (d : Document) : bool :=
         match d with
         | [] => true
         | (k, v) :: d =>
             (if String.eqb k "$and" then match v with BArray qs => forallb (matches row) qs | _ => false end
              else if String.eqb k "$or" then match v with BArray qs => existsb (matches row) qs | _ => false end
              else if String.eqb k "$nor" then match v with BArray qs => negb (existsb (matches row) qs) | _ => false end
              else condition_holds (row k) v) && all d
         end) d
  | _ => false
  end.

(** Filters of comparisons with values, on fields that are not operators. *)
Definition plain_name (f : string) : bool := negb (starts_with_char "$" f).
Fixpoint plain (f : FilterExpr) : bool :=
  match f with
  | FAnd l r | FOr l r => plain l && plain r
  | FNot e => plain e
  | FComparison f op v => plain_name f && bool_decide (op ∈ [OpEq; OpNeq; OpLt; OpLte; OpGt; OpGte]) && bool_decide (v ≠ Null)
  | FIn f vs => plain_name f && bool_decide (Null ∉ vs)
  | FIsNull f | FIsNotNull f => plain_name f
  end.

Context (cmp : ComparisonOp → ScalarValue → ScalarValue → bool).

(** The server compares values as the engine does. *)
Definition same_order : Prop :=
  (∀ op x y, x ≠ Null → y ≠ Null → bson_cmp op (scalar_to_bson x) (scalar_to_bson y) = cmp op x y) ∧
  ∀ x y, cmp OpNeq x y = negb (cmp OpEq x y).

(** The document of a row: the fields that are null are missing. *)
Definition doc_of (env : string → ScalarValue) (f : string) : option Bson :=
  match env f with Null => None | v => Some (scalar_to_bson v) end.

Lemma plain_name_not_operator f k : plain_name f = true → starts_with_char "$" k = true → String.eqb f k = false.
Proof. intros H1 H2. apply String.eqb_neq. intros ->. unfold plain_name in H1. by rewrite H2 in H1. Qed.

Lemma matches_field row f c : plain_name f = true → matches row (BDocument (doc1 f c)) = condition_holds (row f) c.
Proof. intros Hf. cbn. rewrite !plain_name_not_operator by done. apply andb_true_r. Qed.

Lemma doc_of_cases env f : (env f = Null ∧ doc_of env f = None) ∨ (env f ≠ Null ∧ doc_of env f = Some (scalar_to_bson (env f))).
Proof. unfold doc_of. destruct (env f); by (left + right). Qed.

Lemma mongo_cmp_some op x y : x ≠ Null → y ≠ Null → tri_cmp cmp op x y = Some (cmp op x y).
Proof. by destruct x, y. Qed.

Lemma comparison_matches env f op v x : same_order → plain (FComparison f op v) = true →
  tri_cmp cmp op (env f) v = Some x → matches (doc_of env) (BDocument (filter_to_bson (FComparison f op v))) = x.
Proof.
  intros [Hc Hneg] Hp Hx. cbn [plain] in Hp. apply andb_prop in Hp as [[Hf Hop]%andb_prop Hv]. apply bool_decide_eq_true in Hop, Hv.
  assert (He : env f ≠ Null) by (intros E; by rewrite E in Hx).
  rewrite mongo_cmp_some in Hx by done. injection Hx as <-.
  destruct (doc_of_cases env f) as [[]|[_ Hd]]; [done|].
  rewrite !elem_of_cons in Hop. destruct Hop as [->|[->|[->|[->|[->|[->|Hn]]]]]]; [..|by apply not_elem_of_nil in Hn];
    cbn [filter_to_bson]; rewrite matches_field by done; rewrite Hd.
  1: { destruct v; try done; cbn [condition_holds scalar_to_bson from_option]; exact (Hc OpEq _ _ He Hv). }
  all: cbn; rewrite ?andb_true_r, ?(Hc _ _ _ He Hv); done.
Qed.
Lemma tri_in_null v vs : tri_in cmp Null (v :: vs) = None.
Proof. revert v. induction vs as [|w vs IH]; intros v; [done|]. unfold tri_in in *. cbn [foldr tri_cmp] in *. by rewrite IH. Qed.

Lemma in_matches env f vs x : same_order → plain (FIn f vs) = true →
  tri_in cmp (env f) vs = Some x → matches (doc_of env) (BDocument (filter_to_bson (FIn f vs))) = x.
Proof.
  intros [Hc _] Hp. cbn [plain filter_to_bson] in *. apply andb_prop in Hp as [Hf Hvs]. apply bool_decide_eq_true in Hvs.
  rewrite matches_field by done. destruct (doc_of_cases env f) as [[He Hd]|[He Hd]]; rewrite Hd; cbn; rewrite andb_true_r.
  - rewrite He. destruct vs as [|v vs]; [by intros [= <-]|]. by rewrite tri_in_null.
  - clear Hd. revert x. induction vs as [|v vs IH]; intros x; cbn; [by intros [= <-]|].
    apply not_elem_of_cons in Hvs as [Hv Hvs]. rewrite mongo_cmp_some by done. rewrite Hc by done.
    specialize (IH Hvs). destruct (foldr _ _ vs) as [y|] eqn:E; [rewrite (IH y E)|]; destruct (cmp OpEq (env f) v); try destruct y; cbn; by intros [= <-].
Qed.
(** The query document of a filter decides a row as the filter does, wherever the filter decides it. *)
Lemma filter_matches env f : same_order → plain f = true →
  ∀ x, eval_filter cmp env f = Some x → matches (doc_of env) (BDocument (filter_to_bson f)) = x.
Proof.
  intros Ho. induction f as [l IHl r IHr|l IHl r IHr|e IH|f op v|f vs|f|f]; intros Hp x Hx.
  1,2: cbn [plain] in Hp; apply andb_prop in Hp as [Hpl Hpr]; specialize (IHl Hpl); specialize (IHr Hpr);
    cbn [eval_filter] in Hx.
  - change (matches _ _) with (matches (doc_of env) (BDocument (filter_to_bson l)) && (matches (doc_of env) (BDocument (filter_to_bson r)) && true) && true).
    revert Hx IHl IHr. destruct (eval_filter cmp env l) as [[]|], (eval_filter cmp env r) as [[]|]; intros [= <-] IHl IHr;
      try rewrite (IHl _ eq_refl); try rewrite (IHr _ eq_refl); cbn; rewrite ?andb_false_r; done.
  - change (matches _ _) with ((matches (doc_of env) (BDocument (filter_to_bson l)) || (matches (doc_of env) (BDocument (filter_to_bson r)) || false)) && true).
    revert Hx IHl IHr. destruct (eval_filter cmp env l) as [[]|], (eval_filter cmp env r) as [[]|]; intros [= <-] IHl IHr;
      try rewrite (IHl _ eq_refl); try rewrite (IHr _ eq_refl); cbn; rewrite ?orb_true_r; done.
  - cbn [plain eval_filter] in *. destruct (eval_filter cmp env e) as [y|]; [|done]. injection Hx as <-.
    change (matches _ _) with (negb (matches (doc_of env) (BDocument (filter_to_bson e)) || false) && true).
    rewrite (IH Hp y eq_refl). by destruct y.
  - by apply comparison_matches.
  - by apply in_matches.
  - cbn [filter_to_bson]. rewrite matches_field by exact Hp. injection Hx as <-. cbn. rewrite andb_true_r.
    destruct (doc_of_cases env f) as [[-> ->]|[He ->]]; [done|]. by rewrite (bool_decide_eq_false_2 (env f = Null)) by done.
  - cbn [filter_to_bson]. rewrite matches_field by exact Hp. injection Hx as <-. cbn. rewrite andb_true_r.
    destruct (doc_of_cases env f) as [[-> ->]|[He ->]]; [done|]. by rewrite (bool_decide_eq_true_2 (env f ≠ Null)) by done.
Qed.
Lemma matches_ext row row' q : (∀ k, row k = row' k) → matches row q = matches row' q.
Proof.
  intros Hr. revert q. fix IH 1. intros q. destruct q as [| | | | | | |d|]; try reflexivity. cbn.
  revert d. fix IHd 1. intros d. destruct d as [|[k v] d]; [reflexivity|]. rewrite (IHd d), (Hr k). f_equal.
  assert (Hall : ∀ l, forallb (matches row) l = forallb (matches row') l ∧ existsb (matches row) l = existsb (matches row') l).
  { fix IHl 1. intros l. destruct l as [|x l]; [split; reflexivity|]. cbn. destruct (IHl l) as [-> ->]. rewrite (IH x); split; reflexivity. }
  destruct v as [| | | | | |l| |]; try reflexivity. destruct (Hall l) as [-> ->]. reflexivity.
Qed.

(** What the server answers: the matching documents of the collection, all of
    them without a limit or with limit 0, otherwise the first. *)
Definition served (coll : list Document) (qd : Document) (o : FindOptions) : list Document :=
  let kept := filter (λ d, matches (λ k, field_of k d) (BDocument qd) = true) coll in
  match fo_limit o with
  | None | Some 0%Z => kept
  | Some n => take (Z.abs_nat n) kept
  end.
End MongoMeaning.

Section MongoRows.
Import Mongo.
Context `{K : ArrowKernels, !ArrowLaws K} (show_bson : Bson → string).

Definition doc_cells (docs : list Document) (cols : list string) (d : Document) : list cell :=
  (λ col, bson_cell show_bson (column_type docs col) (field_of col d)) <$> cols.

Lemma docs_to_batch_rows docs q : doc_columns q docs ≠ [] →
  ∃ b, docs_to_batch show_bson docs q = Ok [b] ∧ batch_rows b = doc_cells docs (doc_columns q docs) <$> docs ∧
       name <$> schema b = doc_columns q docs.
Proof.
  intros Hne. set (fs := doc_column show_bson docs <$> doc_columns q docs).
  destruct (built_batch fs docs) as (b & Hb & Hrows & Hs).
  - intros E%fmap_nil_inv. done.
  - apply Forall_fmap, Forall_true. intros col. by left.
  - exists b. unfold docs_to_batch. fold fs. rewrite Hb. cbn. split; [done|]. split.
    + rewrite Hrows. apply list_fmap_ext. intros _ d _. unfold entry_cells, fs, doc_cells. rewrite <- list_fmap_compose. done.
    + rewrite Hs. unfold fs. rewrite <- !list_fmap_compose. etransitivity; [|apply list_fmap_id]. by apply list_fmap_ext.
Qed.
End MongoRows.

(** ** The connector end to end *)

Lemma filter_ext_on {A : Type} (P Q : A → Prop) `{∀ x, Decision (P x), ∀ x, Decision (Q x)} (l : list A) :
  (∀ x, x ∈ l → (P x ↔ Q x)) → filter P l = filter Q l.
Proof.
  induction l as [|x l IH]; intros HPQ; [done|]. rewrite !filter_cons, IH by (intros y Hy; apply HPQ; by right).
  specialize (HPQ x ltac:(by left)). repeat case_decide; tauto.
Qed.

Section MongoExecute.
Import Mongo.
Context `{K : ArrowKernels, !ArrowLaws K} (show_bson : Bson → string).
Context (bson_cmp : ComparisonOp → Bson → Bson → bool) (regex : string → string → Bson → bool).
Context (cmp : ComparisonOp → ScalarValue → ScalarValue → bool).
Context (find : string → Document → FindOptions → outcome string (list Document)) (coll : string → list Document).

#[local] Instance keeps_opt_dec row f : Decision (keeps_opt cmp row f).
Proof. unfold keeps_opt, keeps. destruct f; apply _. Defined.

(** The documents the filter keeps, up to the limit. *)
Definition wanted (env : Document → string → ScalarValue) (q : SubQuery) : list Document :=
  let kept := filter (λ d, keeps_opt cmp (env d) (filter_expr q)) (coll (table q)) in
  from_option (λ n, take (N.to_nat n) kept) kept (limit q).

Lemma served_wanted env q :
  same_order bson_cmp cmp → from_option plain true (filter_expr q) = true →
  (∀ n, limit q = Some n → 0 < n ≤ Z.to_N i64_max)%N →
  (∀ d, d ∈ coll (table q) → (∀ k, field_of k d = doc_of (env d) k) ∧ ∀ f, filter_expr q = Some f → is_Some (eval_filter cmp (env d) f)) →
  served bson_cmp regex (coll (table q)) (from_option filter_to_bson [] (filter_expr q)) (find_options q) = wanted env q.
Proof.
  intros Ho Hp Hl Henv. unfold served, wanted.
  assert (Hf : filter (λ d, matches bson_cmp regex (λ k, field_of k d) (BDocument (from_option filter_to_bson [] (filter_expr q))) = true) (coll (table q))
               = filter (λ d, keeps_opt cmp (env d) (filter_expr q)) (coll (table q))).
  { apply filter_ext_on. intros d Hd. destruct (Henv d Hd) as [Hrow Hdec]. destruct (filter_expr q) as [f|]; [|done]. cbn [from_option keeps_opt].
    destruct (Hdec f eq_refl) as [x Hx].
    rewrite (matches_ext bson_cmp regex _ (doc_of (env d)) _ Hrow), (filter_matches bson_cmp regex cmp (env d) f Ho Hp x Hx).
    unfold keeps. rewrite Hx. split; [by intros ->|by intros [= ->]]. }
  rewrite Hf. unfold find_options. cbn [fo_limit]. destruct (limit q) as [n|]; [|done]. cbn [fmap option_fmap option_map from_option].
  specialize (Hl n eq_refl). rewrite wrap_i64_id by (unfold i64_min, i64_max in *; lia).
  destruct (Z.of_N n) eqn:E; [lia| |lia]. f_equal. lia.
Qed.
(** The driver answers with the documents the server serves; a projection
    keeps the fields it names. *)
Definition serves : Prop := ∀ q,
  ∃ docs, find (table q) (from_option filter_to_bson [] (filter_expr q)) (find_options q) = Ok docs ∧
    Forall2 (λ d d', ∀ col, projections q = [] ∨ col ∈ projections q → field_of col d' = field_of col d)
      (served bson_cmp regex (coll (table q)) (from_option filter_to_bson [] (filter_expr q)) (find_options q)) docs.

Lemma same_fields_type (cols : list string) docs docs' :
  Forall2 (λ d d', ∀ col, col ∈ cols → field_of col d' = field_of col d) docs docs' →
  ∀ col, col ∈ cols → column_type docs' col = column_type docs col.
Proof.
  intros HF col Hc. unfold column_type. f_equal. induction HF as [|d d' docs docs' Hd _ IH]; [done|].
  cbn. rewrite (Hd col Hc). by destruct (field_of col d).
Qed.

Lemma same_fields_rows (cols : list string) docs docs' :
  Forall2 (λ d d', ∀ col, col ∈ cols → field_of col d' = field_of col d) docs docs' →
  doc_cells show_bson docs' cols <$> docs' = doc_cells show_bson docs cols <$> docs.
Proof.
  intros HF. pose proof (same_fields_type _ _ _ HF) as Ht.
  assert (Hcells : ∀ d d', (∀ col, col ∈ cols → field_of col d' = field_of col d) → doc_cells show_bson docs' cols d' = doc_cells show_bson docs cols d).
  { intros d d' Hd. unfold doc_cells. apply list_fmap_ext. intros i col Hi%list_elem_of_lookup_2. by rewrite Ht, Hd. }
  clear Ht. revert Hcells. generalize (doc_cells show_bson docs' cols), (doc_cells show_bson docs cols). intros g h Hgh.
  induction HF as [|d d' l l' Hd _ IH]; [done|]. cbn. f_equal; [by apply Hgh|exact IH].
Qed.

(** The MongoDB connector returns the documents the filter keeps.  Against
    a server that matches query documents as documented and compares values as
    the engine does, a query whose filter compares fields with values and
    decides every document answers one batch: its rows are, in order, the
    documents of the collection the filter keeps, up to a positive limit, each
    as the cells of the requested columns; nothing when there are none. *)
Theorem mongo_returns_kept env q :
  serves → same_order bson_cmp cmp → from_option plain true (filter_expr q) = true → projections q ≠ [] →
  (∀ n, limit q = Some n → 0 < n ≤ Z.to_N i64_max)%N →
  (∀ d, d ∈ coll (table q) → (∀ k, field_of k d = doc_of (env d) k) ∧ ∀ f, filter_expr q = Some f → is_Some (eval_filter cmp (env d) f)) →
  (wanted env q = [] → Mongo.execute show_bson find q = Ok []) ∧
  (wanted env q ≠ [] → ∃ b, Mongo.execute show_bson find q = Ok [b] ∧ name <$> schema b = projections q ∧
     batch_rows b = doc_cells show_bson (wanted env q) (projections q) <$> wanted env q).
Proof.
  intros Hs Ho Hp Hproj Hl Henv. destruct (Hs q) as (docs & Hfind & HF).
  rewrite (served_wanted env q Ho Hp Hl Henv) in HF. unfold Mongo.execute. rewrite Hfind. cbn [map_err mbind outcome_bind].
  assert (Hcols : doc_columns q docs = projections q) by (unfold doc_columns; by destruct (projections q)).
  split; intros Hw.
  - rewrite Hw in HF. by inversion HF.
  - destruct docs as [|d docs]; [by inversion HF; congruence|]. set (l := d :: docs) in *.
    destruct (docs_to_batch_rows show_bson l q) as (b & Hb & Hrows & Hnames); [by rewrite Hcols|].
    exists b. split; [exact Hb|]. rewrite Hcols in Hnames, Hrows. split; [done|]. rewrite Hrows. apply same_fields_rows.
    eapply Forall2_impl; [exact HF|]. intros x y Hxy col Hcol. apply Hxy. by right.
Qed.
End MongoExecute.

(** ** A concrete server *)

Module MongoRef.
Import Mongo.

Definition unbson (b : Bson) : ScalarValue :=
  match b with
  | BString s => SUtf8 s | BInt64 n | BInt32 n => SInt64 n | BDouble f => SFloat64 f | BBoolean b => SBoolean b | _ => Null
  end.
Definition ref_cmp (op : ComparisonOp) (x y : ScalarValue) : bool :=
  match op with OpEq => bool_decide (x = y) | OpNeq => negb (bool_decide (x = y)) | _ => false end.
Definition ref_bson_cmp (op : ComparisonOp) (x y : Bson) : bool := ref_cmp op (unbson x) (unbson y).

Lemma ref_same_order : same_order ref_bson_cmp ref_cmp.
Proof. split; [|done]. intros op x y _ _. unfold ref_bson_cmp. by destruct x, y. Qed.

(** A document of scalars. *)
Definition flat (d : Document) : Prop := Forall (λ kv, ∃ s, s ≠ Null ∧ kv.2 = scalar_to_bson s) d.
Definition env_of (d : Document) (k : string) : ScalarValue := from_option unbson Null (field_of k d).

Lemma flat_get d k : flat d → doc_get k d = None ∨ ∃ s, s ≠ Null ∧ doc_get k d = Some (scalar_to_bson s).
Proof.
  induction 1 as [|[k' v] d (s & Hs & Hv) _ IH]; [by left|]. cbn in *. destruct (String.eqb k' k); [|exact IH].
  right. exists s. by rewrite Hv.
Qed.

Abbreviation descend := (λ (acc : option Bson) (k : string), acc ≫= λ c, match c with BDocument d => doc_get k d | _ => None end).

Lemma descend_none ks : foldl descend None ks = None.
Proof. by induction ks. Qed.

Lemma descend_scalar s ks : s ≠ Null → foldl descend (Some (scalar_to_bson s)) ks = None ∨ foldl descend (Some (scalar_to_bson s)) ks = Some (scalar_to_bson s).
Proof. intros Hs. destruct ks as [|k ks]; [by right|]. left. cbn. destruct s; apply descend_none. Qed.

Lemma flat_env d k : flat d → field_of k d = doc_of (env_of d) k.
Proof.
  intros Hd. assert (Hf : field_of k d = None ∨ ∃ s, s ≠ Null ∧ field_of k d = Some (scalar_to_bson s)).
  { unfold field_of, get_nested_bson. destruct (split_on (is_char ".") k) as [|p ks] eqn:E; [by apply split_on_nonempty in E|].
    cbn [foldl mbind option_bind]. destruct (flat_get d p Hd) as [->|(s & Hs & ->)]; [left; apply descend_none|].
    destruct (descend_scalar s ks Hs) as [H|H]; [by left|]. right. by exists s. }
  unfold doc_of, env_of. destruct Hf as [->|(s & Hs & ->)]; [done|]. cbn. by destruct s.
Qed.

Definition people (t : string) : list Document := [[("name", BString "ann"); ("age", BInt64 7)]; [("name", BString "bob")]].
Definition ask : SubQuery := mkSubQuery "p" ["name"; "age"] (Some (FIsNotNull "age")) [] [] None [] (Some 5%N) None None.
Definition ref_find (t : string) (qd : Document) (o : FindOptions) : outcome string (list Document) :=
  Ok (served ref_bson_cmp (λ _ _ _, false) (people t) qd o).
End MongoRef.

Lemma mongo_returns_kept_witness :
  ∃ b, @Mongo.execute RefArrow (λ _, "") MongoRef.ref_find MongoRef.ask = Ok [b] ∧
       batch_rows b = [[Some (VUtf8 ""); Some (VInt 7)]].
Proof.
  destruct (proj2 (@mongo_returns_kept RefArrow _ (λ _, "") MongoRef.ref_bson_cmp (λ _ _ _, false) MongoRef.ref_cmp
    MongoRef.ref_find MongoRef.people MongoRef.env_of MongoRef.ask
    ltac:(intros q; eexists; split; [reflexivity|]; apply Forall_Forall2_diag, Forall_true; done)
    MongoRef.ref_same_order eq_refl ltac:(done)
    ltac:(intros n [= <-]; vm_compute; done)
    ltac:(intros d Hd; split; [intros k; apply MongoRef.flat_env; unfold MongoRef.people in Hd; rewrite !elem_of_cons in Hd;
           destruct Hd as [->|[->|Hd]]; [repeat constructor..|by apply not_elem_of_nil in Hd]; eexists (SUtf8 _) + eexists (SInt64 _); done
         |intros f [= <-]; by eexists])) ltac:(vm_compute; done)) as (b & Hb & _ & Hrows).
  exists b. split; [exact Hb|]. exact Hrows.
Defined.

(** ** What the translation does not carry over *)

Section MongoGaps.
Import Mongo.
Context (bson_cmp : ComparisonOp → Bson → Bson → bool) (regex : string → string → Bson → bool).

(** A field stored as null is not found by IS NULL. *)
Lemma stored_null_is_not_null row f : plain_name f = true → row f = Some BNull →
  matches bson_cmp regex row (BDocument (filter_to_bson (FIsNull f))) = false ∧
  matches bson_cmp regex row (BDocument (filter_to_bson (FIsNotNull f))) = true.
Proof. intros Hf Hr. cbn [filter_to_bson]. rewrite !matches_field, Hr by done. done. Qed.

(** A comparison with [!=] is true of a document without the field, and so is equality with null. *)
Lemma missing_field_differs row f v : plain_name f = true → row f = None →
  matches bson_cmp regex row (BDocument (filter_to_bson (FComparison f OpNeq v))) = true ∧
  matches bson_cmp regex row (BDocument (filter_to_bson (FComparison f OpEq Null))) = true.
Proof. intros Hf Hr. cbn [filter_to_bson]. rewrite !matches_field, Hr by done. done. Qed.

(** Limit 0 is no limit. *)
Lemma limit_zero_serves_all coll qd p : served bson_cmp regex coll qd (mkFind (Some 0%Z) p) = served bson_cmp regex coll qd (mkFind None p).
Proof. done. Qed.

(** In a column that starts with a float, whole numbers are lost. *)
Lemma whole_number_is_lost show f n :
  doc_cells show [[("x", BDouble f)]; [("x", BInt64 n)]] ["x"] <$> [[("x", BDouble f)]; [("x", BInt64 n)]] = [[Some (VFloat f)]; [None]].
Proof. done. Qed.
End MongoGaps.

(** * Scanned keys become rows *)

Section RedisRows.
Import RedisKeys.
Context `{K : ArrowKernels, !ArrowLaws K}.

(** The loop returns the first keys of the scan, at least one when there is one. *)
Lemma scan_loop_takes max items : ∀ keys found, items = Ok <$> found →
  scan_loop max keys items = Ok (keys ++ take (Nat.max 1 (max - length keys)) found).
Proof.
  induction items as [|item items IH]; intros keys found E; destruct found as [|k found]; try done.
  - cbn. by rewrite take_nil, app_nil_r.
  - injection E as -> E. cbn [scan_loop map_err mbind outcome_bind].
    case_bool_decide as Hm; rewrite length_app in Hm; cbn [length] in Hm.
    + replace (Nat.max 1 (max - length keys)) with 1 by lia. done.
    + rewrite (IH _ found E), length_app. cbn [length]. rewrite <- app_assoc. do 2 f_equal.
      replace (Nat.max 1 (max - length keys)) with (S (max - length keys - 1)) by lia.
      replace (Nat.max 1 (max - (length keys + 1))) with (max - length keys - 1) by lia. done.
Qed.

Context (key_kind : string → outcome string string) (hgetall : string → outcome string (gmap string string))
        (get_text : string → outcome string string) (show_arrow : ArrowError → string) (found : list string).

Abbreviation scanned := (Ok (Ok <$> found)).
Abbreviation keys_of n := (take (Nat.max 1 (N.to_nat n)) found).
Abbreviation names := (sampled_names hgetall (keys_of 10%N)).
Definition hash_row (k : string) : list cell :=
  text_cell k :: ((λ n, opt_cell (default ∅ (ok_value (read_hash hgetall k)) !! n)) <$> names).
Definition string_row (k : string) : list cell :=
  [text_cell k; text_cell (default "" (ok_value (read_string get_text k)))].

Lemma scan_keys_found limit : scan_keys (Ok ()) scanned limit = Ok (keys_of (default 10000%N limit)).
Proof. unfold scan_keys. cbn [get_connection map_err mbind outcome_bind]. rewrite (scan_loop_takes _ _ [] found eq_refl). cbn [length]. by rewrite Nat.sub_0_r. Qed.

Lemma hash_cells_fst s : (hash_cells s).*1 = s.
Proof. destruct s as [|f fs]; [done|]. cbn. f_equal. rewrite <- list_fmap_compose. etransitivity; [|apply list_fmap_id]. by apply list_fmap_ext. Qed.

Lemma hash_batch ns (rows : list (string * gmap string string)) :
  ∃ b, hashes_to_batch show_arrow rows (key_field :: (text_field <$> ns)) = Ok b ∧
       batch_rows b = (λ kr, text_cell kr.1 :: ((λ n, opt_cell (kr.2 !! n)) <$> ns)) <$> rows.
Proof.
  set (s := key_field :: (text_field <$> ns)). destruct (built_batch (hash_cells s) rows) as (b & Hb & Hrows & _); [done| |].
  - cbn. constructor; [by right|]. rewrite <- list_fmap_compose. apply Forall_fmap, Forall_true. intros n. by left.
  - rewrite hash_cells_fst in Hb. exists b. unfold hashes_to_batch. rewrite Hb. split; [done|]. rewrite Hrows.
    apply list_fmap_ext. intros _ kr _. unfold entry_cells, s. cbn. f_equal. rewrite <- !list_fmap_compose. done.
Qed.

Lemma string_batch (rows : list (string * string)) :
  ∃ b, strings_to_batch show_arrow rows [key_field; mkField "value" Utf8 false] = Ok b ∧
       batch_rows b = (λ kv, [text_cell kv.1; text_cell kv.2]) <$> rows.
Proof.
  set (fs := [(key_field, λ kv : string * string, text_cell kv.1); (mkField "value" Utf8 false, λ kv, text_cell kv.2)]).
  destruct (built_batch fs rows) as (b & Hb & Hrows & _); [done|by repeat (constructor; [by right|])|].
  exists b. unfold strings_to_batch. cbn in Hb. rewrite Hb. split; [done|]. exact Hrows.
Qed.

(** The Redis connector answers one row per key.  When the scan succeeds
    and yields a key, a query returns one batch whose rows are the first keys
    of the scan, as many as the limit (10,000 without one, one when it is 0),
    each with its text or with the cells of its hash under the field names of
    the first ten keys; the kind of the first key decides, and a key that
    cannot be read gives empty cells. *)
Theorem redis_rows_are_keys q k :
  head found = Some k → key_kind k = Ok "hash" ∨ key_kind k = Ok "string" →
  ∃ b, RedisKeys.execute (Ok ()) scanned key_kind hgetall get_text show_arrow q = Ok [b] ∧
       batch_rows b = (if bool_decide (ok_value (key_kind k) = Some "hash") then hash_row else string_row) <$> keys_of (default 10000%N (limit q)).
Proof.
  intros Hk Hkind.
  assert (Hhead : ∀ n, ∃ l, keys_of n = k :: l).
  { intros n. destruct found as [|k0 rest]; [done|]. injection Hk as ->. destruct (Nat.max 1 (N.to_nat n)) eqn:E; [lia|]. cbn. eauto. }
  destruct (Hhead 10%N) as [l10 H10], (Hhead (default 10000%N (limit q))) as [l Hl].
  unfold RedisKeys.execute, infer_schema_from_sample. rewrite !scan_keys_found. cbn [default from_option id]. rewrite H10, Hl.
  cbn [get_connection map_err mbind outcome_bind head ok_or].
  destruct Hkind as [Ek|Ek]; rewrite Ek; cbn [map_err mbind outcome_bind fst snd ok_value].
  - change (String.eqb "hash" "hash") with true. cbn match. cbn [mbind outcome_bind fst snd]. change (String.eqb "hash" "hash") with true. cbn match.
    destruct (hash_batch (sampled_names hgetall (k :: l10)) ((λ k, (k, default ∅ (ok_value (read_hash hgetall k)))) <$> k :: l)) as (b & Hb & Hrows).
    rewrite Hb. exists b. split; [done|]. rewrite Hrows, bool_decide_eq_true_2 by done. rewrite <- list_fmap_compose. unfold hash_row. by rewrite H10.
  - change (String.eqb "string" "hash") with false. change (String.eqb "string" "string") with true. cbn match. cbn [mbind outcome_bind fst snd].
    change (String.eqb "string" "hash") with false. change (String.eqb "string" "string") with true. cbn match.
    destruct (string_batch ((λ k, (k, default "" (ok_value (read_string get_text k)))) <$> k :: l)) as (b & Hb & Hrows).
    rewrite Hb. exists b. split; [done|]. rewrite Hrows, <- list_fmap_compose. done.
Qed.
End RedisRows.

Lemma redis_rows_are_keys_witness :
  ∃ b, @RedisKeys.execute RefArrow (Ok ()) (Ok [Ok "a"; Ok "b"]) (λ _, Ok "string") (λ _, Err "x") (λ k, Ok (k +:+ "!")) (λ _, "")
         (mkSubQuery "t" [] None [] [] None [] (Some 1%N) None None) = Ok [b] ∧
       batch_rows b = [[Some (VUtf8 "a"); Some (VUtf8 "a!")]].
Proof.
  refine (@redis_rows_are_keys RefArrow _ (λ _, Ok "string") (λ _, Err "x") (λ k, Ok (k +:+ "!")) (λ _, "") ["a"; "b"]
    (mkSubQuery "t" [] None [] [] None [] (Some 1%N) None None) "a" _ _); [done|by right].
Defined.

(** A query for no rows returns one. *)
Lemma redis_limit_zero_is_one : RedisKeys.scan_loop 0 [] [Ok "a"; Ok "b"] = Ok ["a"].
Proof. done. Qed.
