(* ===== verification/SqlAnswers.v ===== *)
(** * SqlAnswers: what the SQL services answer

    Models, under [crates/fuse-connectors], the query path of the services that
    are sent SQL or a log query: [athena], [bigquery], [snowflake],
    [timestream], [clickhouse], [spark] and [cloudwatch] ([src/lib.rs] of
    each).  A query is submitted, polled until it is done, and its answer made
    a batch; the SQL texts are those of [SqlText].  The clients are parameters:
    what a service answers to a request, and to the i-th poll. *)

From S2P Require Import Prelude Strs Json JsonRef Arrow ArrowRef Connector SqlText Tabular Export MetricQueries.
From stdpp Require Import base list strings gmap pretty.
From Stdlib Require Import NArith ZArith Lia Ascii SpecFloat.

(** An HTTP response: its status and its body, read as text or as JSON. *)
Record Response : Type := mkResponse {
  is_success : bool; status_text : string; body_text : outcome string string; body_json : outcome string Value }.

(** ** Polling *)

Section Polling.
Context {A B : Type} (ask : nat → outcome ConnectorError A) (decide : A → option (outcome ConnectorError B)) (timeout : ConnectorError).

(** At most [n] polls, from the [i]-th on. *)
Fixpoint poll (n i : nat) : outcome ConnectorError B :=
  match n with
  | 0 => Err timeout
  | S n =>
      a ← ask i;
      match decide a with Some r => r | None => poll n (S i) end
  end.
End Polling.

(** ** BigQuery *)

Module BigQuery.
Section BigQuery.
Context `{K : ArrowKernels} `{F64Display}.
Context (post : string → outcome string Response) (get_job : string → nat → outcome string Response) (get_url : string → outcome string Response).

Definition job_done (j : Value) : option (outcome ConnectorError Value) :=
  if bool_decide (as_bool (index j "jobComplete") = Some true) then Some (Ok j) else None.
Definition read_json (r : outcome string Response) : outcome ConnectorError Value :=
  resp ← map_err Connection r; map_err QueryFailed (body_json resp).
Definition poll_job (job : string) : outcome ConnectorError Value :=
  poll (λ i, read_json (get_job job i)) job_done (QueryFailed "BigQuery job timed out") 120 0.
Definition run_query (sql : string) : outcome ConnectorError Value :=
  resp ← map_err Connection (post sql);
  if is_success resp then
    json ← map_err QueryFailed (body_json resp);
    match job_done json, as_str (index (index json "jobReference") "jobId") with
    | None, Some job => poll_job job
    | _, _ => Ok json
    end
  else Err (QueryFailed ("BigQuery returned " +:+ status_text resp +:+ ": " +:+ default "" (ok_value (body_text resp)))).

Definition bq_columns (j : Value) : list string := texts_at "name" (elements_of (index (index j "schema") "fields")).
Definition bq_rows (j : Value) : list (list (option string)) :=
  (λ r, (λ c, as_str (index c "v")) <$> elements_of (index r "f")) <$> elements_of (index j "rows").
Definition parse_bq_response (j : Value) : outcome ConnectorError (list RecordBatch) := text_table (bq_columns j) (bq_rows j).
Definition execute (dataset : string) (q : SubQuery) : outcome ConnectorError (list RecordBatch) :=
  j ← run_query (build_bq_sql q dataset); parse_bq_response j.

Definition bq_discover (tables_url : string) : outcome ConnectorError (list string) :=
  j ← read_json (get_url tables_url);
  Ok (omap (λ t, as_str (index (index t "tableReference") "tableId")) (elements_of (index j "tables"))).
Definition bq_get_schema (table_url : string) : outcome ConnectorError Schema :=
  j ← read_json (get_url table_url); Ok (text_field <$> bq_columns j).
End BigQuery.
End BigQuery.

(** ** Snowflake *)

Module Snowflake.
Section Snowflake.
Context `{K : ArrowKernels} `{J : JsonOps} `{F64Display}.
Context (post : string → outcome string Response) (get_status : string → nat → outcome string Response).

Definition statement_done (j : Value) : option (outcome ConnectorError Value) :=
  match as_str (index (index j "statementStatus") "status") with
  | Some s =>
      if bool_decide (s ∈ ["SUCCEEDED"; "succeeded"]) then Some (Ok j)
      else if bool_decide (s ∈ ["FAILED"; "failed"])
      then Some (Err (QueryFailed ("Snowflake query failed: " +:+ default "unknown error" (as_str (index j "message")))))
      else None
  | None => None
  end.
Definition poll_results (handle : string) : outcome ConnectorError Value :=
  poll (λ i, BigQuery.read_json (get_status handle i)) statement_done (QueryFailed "Snowflake query timed out") 120 0.
Definition submit_sql (sql : string) : outcome ConnectorError Value :=
  resp ← map_err Connection (post sql);
  if is_success resp then
    json ← map_err QueryFailed (body_json resp);
    match as_str (index json "statementHandle"), as_str (index json "statementStatusUrl") with
    | Some handle, Some _ => poll_results handle
    | _, _ => Ok json
    end
  else Err (QueryFailed ("Snowflake API returned " +:+ status_text resp +:+ ": " +:+ default "" (ok_value (body_text resp)))).

Definition cell_text (v : Value) : option string := match v with JNull => None | JString s => Some s | v => Some (to_string v) end.
Definition snow_columns (j : Value) : list string := texts_at "name" (elements_of (index (index j "resultSetMetaData") "rowType")).
Definition snow_rows (j : Value) : list (list (option string)) := fmap cell_text <$> omap as_array (elements_of (index j "data")).
Definition parse_response (j : Value) : outcome ConnectorError (list RecordBatch) := text_table (snow_columns j) (snow_rows j).
Definition execute (q : SubQuery) : outcome ConnectorError (list RecordBatch) :=
  j ← submit_sql (build_snowflake_sql q); parse_response j.

(** The texts in one column of the rows of an answer. *)
Definition nth_texts (i : nat) (j : Value) : list string := omap (λ r, item i r ≫= as_str) (elements_of (index j "data")).
Definition snow_discover : outcome ConnectorError (list string) := j ← submit_sql "SHOW TABLES"; Ok (nth_texts 1 j).
Definition snow_get_schema (tbl : string) : outcome ConnectorError Schema :=
  j ← submit_sql ("DESCRIBE TABLE " +:+ quote_ident tbl); Ok (text_field <$> nth_texts 0 j).
End Snowflake.
End Snowflake.

(** ** Spark *)

Module Spark.
Section Spark.
Context `{K : ArrowKernels} `{J : JsonOps} `{F64Display} (post : string → outcome string Response).

Definition run_query (sql : string) : outcome ConnectorError Value :=
  resp ← map_err Connection (post sql);
  if is_success resp then map_err QueryFailed (body_json resp)
  else Err (QueryFailed ("Spark returned error: " +:+ default "" (ok_value (body_text resp)))).
Definition spark_columns (j : Value) : list string := texts_at "name" (elements_of (index j "schema")).
Definition spark_rows (j : Value) : list (list (option string)) :=
  (λ r, Snowflake.cell_text <$> elements_of r) <$> elements_of (index j "data").
Definition parse_spark_response (j : Value) : outcome ConnectorError (list RecordBatch) := text_table (spark_columns j) (spark_rows j).
Definition execute (database : string) (q : SubQuery) : outcome ConnectorError (list RecordBatch) :=
  j ← run_query (build_spark_sql q database); parse_spark_response j.
Definition spark_discover : outcome ConnectorError (list string) := j ← run_query "SHOW TABLES"; Ok (Snowflake.nth_texts 1 j).
Definition spark_get_schema (tbl : string) : outcome ConnectorError Schema :=
  j ← run_query ("DESCRIBE " +:+ tbl); Ok (text_field <$> Snowflake.nth_texts 0 j).
End Spark.
End Spark.

(** ** Athena *)

Module Athena.
(** The columns of a result and its rows, the header first. *)
Record ResultSet : Type := mkResultSet { rs_columns : list string; rs_rows : list (list (option string)) }.

Section Athena.
Context `{K : ArrowKernels} `{F64Display}.
Context (start : string → outcome string (option string))
        (state : string → nat → outcome string (option string * option string))  (** the state and its reason *)
        (results : string → outcome string (option ResultSet)).

(** The loop has no bound: [fuel] polls may not be enough, [None]. *)
Fixpoint wait (fuel i : nat) (id : string) : option (outcome ConnectorError unit) :=
  match fuel with
  | 0 => None
  | S fuel =>
      match state id i with
      | Ok (st, reason) =>
          let st := default "" st in
          if String.eqb st "SUCCEEDED" then Some (Ok ())
          else if bool_decide (st ∈ ["FAILED"; "CANCELLED"])
          then Some (Err (QueryFailed ("Athena query " +:+ st +:+ ": " +:+ default "unknown error" reason)))
          else wait fuel (S i) id
      | Err e => Some (Err (QueryFailed e))
      | Panic => Some Panic
      end
  end.
Definition result_batches (rs : option ResultSet) : outcome ConnectorError (list RecordBatch) :=
  match rs with
  | Some (mkResultSet ((_ :: _) as cols) rows) => text_table cols (tail rows)
  | _ => Ok []
  end.
Definition execute_sql (fuel : nat) (sql : string) : option (outcome ConnectorError (list RecordBatch)) :=
  match map_err QueryFailed (start sql) with
  | Ok (Some id) =>
      w ← wait fuel 0 id;
      Some (_ ← w; rs ← map_err QueryFailed (results id); result_batches rs)
  | Ok None => Some (Err (QueryFailed "no execution ID returned"))
  | Err e => Some (Err e)
  | Panic => Some Panic
  end.
Definition execute (fuel : nat) (q : SubQuery) := execute_sql fuel (athena_subquery_to_sql q).
End Athena.

Definition athena_type (t : string) : DataType :=
  let t := to_lowercase t in
  if bool_decide (t ∈ ["int"; "integer"; "bigint"]) then Int64
  else if bool_decide (t ∈ ["double"; "float"; "decimal"]) then Float64
  else if String.eqb t "boolean" then Boolean else Utf8.
Definition athena_schema (cols : list (string * option string)) : Schema :=
  (λ c, mkField c.1 (athena_type (default "string" c.2)) true) <$> cols.
End Athena.

(** ** Timestream *)

Module Timestream.
Definition ts_type_to_arrow (t : string) : DataType :=
  let t := to_uppercase t in
  if String.eqb t "BIGINT" then Int64 else if String.eqb t "DOUBLE" then Float64 else if String.eqb t "BOOLEAN" then Boolean else Utf8.

(** The columns with their scalar types, and the scalar values of the rows. *)
Record Answer : Type := mkAnswer { column_info : list (option string * option string); ts_rows : list (list (option string)) }.
Definition ts_field (c : option string * option string) : Field :=
  mkField (default "unknown" c.1) (from_option ts_type_to_arrow Utf8 c.2) true.

Section Timestream.
Context `{K : ArrowKernels} `{F64Display} (parse_f64 : string → option spec_float).
(** Column [i]: the values of the rows that are long enough.  Only numbers get
    an array of their type. *)
Definition ts_array (rows : list (list (option string))) (i : nat) (f : Field) : Array :=
  let vals := omap (λ r : list (option string), r !! i) rows in
  match field_type f with
  | Int64 => mkArray Int64 ((λ v, VInt <$> (v ≫= parse_i64)) <$> vals)
  | Float64 => mkArray Float64 ((λ v, VFloat <$> (v ≫= parse_f64)) <$> vals)
  | _ => mkArray Utf8 (opt_cell <$> vals)
  end.
Definition ts_batches (a : Answer) : outcome ConnectorError (list RecordBatch) :=
  let fields := ts_field <$> column_info a in
  match column_info a, ts_rows a with
  | [], _ => Ok []
  | _, [] => Ok [empty_batch fields]
  | _, rows => b ← as_query_error (try_new fields (imap (ts_array rows) fields)); Ok [b]
  end.
Definition run_query (query : string → outcome string Answer) (sql : string) : outcome ConnectorError (list RecordBatch) :=
  a ← map_err QueryFailed (query sql); ts_batches a.
Definition execute (query : string → outcome string Answer) (database : string) (q : SubQuery) : outcome ConnectorError (list RecordBatch) :=
  run_query query (ts_subquery_to_sql q database (table q)).
End Timestream.
End Timestream.

(** ** ClickHouse *)

Module ClickHouse.
(** [trim_start_matches] of a text, [fuel] times at most. *)
Fixpoint trim_prefixes (fuel : nat) (p s : string) : string :=
  match fuel with
  | 0 => s
  | S fuel => match str_strip_prefix p s with Some r => trim_prefixes fuel p r | None => s end
  end.
Definition ch_type_to_arrow (t : string) : DataType :=
  let inner := trim_end_while (is_char ")") (trim_prefixes (String.length t) "Nullable(" t) in
  if starts_with "Int" inner || starts_with "UInt" inner then Int64
  else if starts_with "Float" inner || starts_with "Decimal" inner then Float64
  else if String.eqb inner "Bool" then Boolean else Utf8.

Section ClickHouse.
Context `{K : ArrowKernels} `{J : JsonOps} `{F64Display} (parse_json : string → option Value) (post : string → outcome string Response).

(** The status of the response is not looked at. *)
Definition run_query (sql : string) : outcome ConnectorError string :=
  resp ← map_err QueryFailed (post (sql +:+ " FORMAT JSONEachRow")); map_err QueryFailed (body_text resp).

Definition json_lines (text : string) : list Value := omap parse_json (filter (λ l, l ≠ "") (str_lines text)).
Definition nested (path : string) (v : Value) : option Value := pointer v (split_on (is_char ".") path).
Definition ch_column (rows : list Value) (col : string) : Field * (Value → cell) :=
  match head (omap (nested col) rows) with
  | Some (JNumber n) =>
      if bool_decide (is_Some (as_i64 (JNumber n))) then (mkField col Int64 true, λ r, VInt <$> (nested col r ≫= as_i64))
      else (mkField col Float64 true, λ r, VFloat <$> (nested col r ≫= as_f64))
  | Some (JBool _) => (mkField col Boolean true, λ r, VBool <$> (nested col r ≫= as_bool))
  | _ => (text_field col, λ r, VUtf8 ∘ plain_text <$> nested col r)
  end.
Definition ch_columns (rows : list Value) : list string := match rows with r :: _ => from_option (λ m, m.*1) [] (as_object r) | [] => [] end.
Definition parse_json_each_row (text : string) : outcome ConnectorError (list RecordBatch) :=
  match json_lines text with
  | [] => Ok []
  | rows =>
      let fs := ch_column rows <$> ch_columns rows in
      b ← as_query_error (try_new fs.*1 (built_columns fs rows)); Ok [b]
  end.
Definition execute (q : SubQuery) : outcome ConnectorError (list RecordBatch) :=
  text ← run_query (ch_subquery_to_sql q); parse_json_each_row text.

Definition discover_schemas (database : string) : outcome ConnectorError (list string) :=
  text ← run_query ("SELECT name FROM system.tables WHERE database = '" +:+ replace "'" "''" database +:+ "'");
  Ok (omap (λ v, get v "name" ≫= as_str) (json_lines text)).
Definition ch_field (v : Value) : option Field :=
  n ← get v "name" ≫= as_str; t ← get v "type"; Some (mkField n (ch_type_to_arrow (default "String" (as_str t))) true).
Definition get_schema (database tbl : string) : outcome ConnectorError Schema :=
  text ← run_query ("SELECT name, type FROM system.columns WHERE database = '" +:+ database +:+ "' AND table = '" +:+ tbl +:+ "'");
  match omap ch_field (json_lines text) with
  | [] => Err (SchemaDiscovery ("table '" +:+ tbl +:+ "' not found in database '" +:+ database +:+ "'"))
  | fs => Ok fs
  end.
End ClickHouse.

(** [base64_encode] of the credentials. *)
Definition CHARS : string := "ABCDEFGHIJKLMNOPQRSTUVWXYZabcdefghijklmnopqrstuvwxyz0123456789+/".
Definition char_at (i : N) : ascii := default "?"%char (String.get (N.to_nat i) CHARS).
Definition first_index (b0 : N) : N := N.shiftr b0 2.
Definition second_index (b0 b1 : N) : N := N.lor (N.shiftl (N.land b0 3) 4) (N.shiftr b1 4).
Definition third_index (b1 b2 : N) : N := N.lor (N.shiftl (N.land b1 15) 2) (N.shiftr b2 6).
Definition fourth_index (b2 : N) : N := N.land b2 63.
Fixpoint base64_encode (bs : list N) : string :=
  match bs with
  | b0 :: b1 :: b2 :: bs =>
      String (char_at (first_index b0)) (String (char_at (second_index b0 b1))
        (String (char_at (third_index b1 b2)) (String (char_at (fourth_index b2)) (base64_encode bs))))
  | [b0; b1] => String (char_at (first_index b0)) (String (char_at (second_index b0 b1)) (String (char_at (third_index b1 0)) "="))
  | [b0] => String (char_at (first_index b0)) (String (char_at (second_index b0 0)) "==")
  | [] => ""
  end.
End ClickHouse.

(** ** CloudWatch *)

Module CloudWatch.
Abbreviation ResultField := (option string * option string)%type.

Section CloudWatch.
Context `{K : ArrowKernels} `{F64Display}.
Definition scalar_to_insights (v : ScalarValue) : string :=
  match v with
  | Null => "null"
  | SBoolean b => bool_text b
  | SInt64 n => pretty n
  | SFloat64 f => fmt_f64 f
  | SUtf8 s => quote_in QUOTE (replace (String QUOTE "") (escape_with QUOTE) s)
  end.
Definition insights_op (op : ComparisonOp) : string :=
  match op with
  | OpEq => "=" | OpNeq => "!=" | OpLt => "<" | OpLte => "<=" | OpGt => ">" | OpGte => ">="
  | OpLike | OpILike | OpContains => "like"
  end.
Fixpoint filter_to_insights (e : FilterExpr) : option string :=
  match e with
  | FComparison field op value => Some (field +:+ " " +:+ insights_op op +:+ " " +:+ scalar_to_insights value)
  | FAnd l r => l ← filter_to_insights l; r ← filter_to_insights r; Some ("(" +:+ l +:+ " and " +:+ r +:+ ")")
  | FOr l r => l ← filter_to_insights l; r ← filter_to_insights r; Some ("(" +:+ l +:+ " or " +:+ r +:+ ")")
  | FNot e => e ← filter_to_insights e; Some ("not " +:+ e)
  | FIsNotNull field => Some ("ispresent(" +:+ field +:+ ")")
  | _ => None
  end.
Definition build_insights_query (q : SubQuery) : string :=
  join_with " " ("fields @timestamp, @message, @logStream"
    :: option_list ((λ s, "| filter " +:+ s) <$> (filter_expr q ≫= filter_to_insights))
    ++ match sort q with
       | [] => []
       | ss => ["| sort " +:+ join_with ", " ((λ s, sort_field s +:+ " " +:+ (if sort_descending s then "desc" else "asc")) <$> ss)]
       end
    ++ option_list ((λ n, "| limit " +:+ pretty n) <$> limit q)).

Definition log_schema : Schema := [mkField "timestamp" Utf8 false; mkField "message" Utf8 false; mkField "log_stream" Utf8 true].
(** The last value of a field in a row. *)
Definition field_value (name : string) (r : list ResultField) : string :=
  foldl (λ acc f, if String.eqb (default "" f.1) name then default "" f.2 else acc) "" r.
Definition log_fields : list (Field * (list ResultField → cell)) :=
  [(mkField "timestamp" Utf8 false, λ r, text_cell (field_value "@timestamp" r)); (mkField "message" Utf8 false, λ r, text_cell (field_value "@message" r));
   (mkField "log_stream" Utf8 true, λ r, text_cell (field_value "@logStream" r))].
Definition results_to_batches (results : list (list ResultField)) : list RecordBatch :=
  match results with
  | [] => []
  | _ => option_list (ok_value (try_new log_schema (built_columns log_fields results)))
  end.

Context (start_query : Z → Z → string → outcome string (option string)) (get_results : string → nat → outcome string (option string * list (list ResultField))).
Definition query_done (r : option string * list (list ResultField)) : option (outcome ConnectorError (list RecordBatch)) :=
  let st := default "" r.1 in
  if String.eqb st "Complete" then Some (Ok (results_to_batches r.2))
  else if bool_decide (st ∈ ["Failed"; "Cancelled"; "Timeout"]) then Some (Err (QueryFailed ("query " +:+ st))) else None.
Definition execute (now : Z) (q : SubQuery) : outcome ConnectorError (list RecordBatch) :=
  id ← map_err (λ e, QueryFailed ("start_query: " +:+ e)) (start_query (now - 3600) now (build_insights_query q));
  id ← ok_or id (QueryFailed "no query_id");
  poll (λ i, map_err (λ e, QueryFailed ("get_query_results: " +:+ e)) (get_results id i)) query_done (QueryFailed "query timed out after 30s") 60 0.
End CloudWatch.
End CloudWatch.

(** * Finished queries are answered *)

Section PollingFacts.
Context {A B : Type} (ask : nat → outcome ConnectorError A) (decide : A → option (outcome ConnectorError B)) (timeout : ConnectorError).

(** What the [i]-th poll decides: a failed request decides too. *)
Definition decision (i : nat) : option (outcome ConnectorError B) :=
  match ask i with Ok a => decide a | Err e => Some (Err e) | Panic => Some Panic end.

Lemma poll_answers n i k r : (∀ j, j < k → decision (i + j) = None) → k < n → decision (i + k) = Some r → poll ask decide timeout n i = r.
Proof.
  revert i k. induction n as [|n IH]; intros i k Hno Hk Hr; [lia|]. cbn [poll]. destruct k as [|k].
  - rewrite Nat.add_0_r in Hr. unfold decision in Hr. destruct (ask i) as [a|e|]; [cbn; by rewrite Hr|by injection Hr as <-..].
  - pose proof (Hno 0 ltac:(lia)) as H0. rewrite Nat.add_0_r in H0. unfold decision in H0. destruct (ask i) as [a|e|]; [|done..]. cbn. rewrite H0.
    apply (IH (S i) k); [|lia|]; [intros j Hj; replace (S i + j) with (i + S j) by lia; apply Hno; lia|by replace (S i + k) with (i + S k) by lia].
Qed.

Lemma poll_times_out n i : (∀ j, j < n → decision (i + j) = None) → poll ask decide timeout n i = Err timeout.
Proof.
  revert i. induction n as [|n IH]; intros i Hno; [done|]. cbn [poll].
  pose proof (Hno 0 ltac:(lia)) as H0. rewrite Nat.add_0_r in H0. unfold decision in H0. destruct (ask i) as [a|e|]; [|done..]. cbn. rewrite H0.
  apply IH. intros j Hj. replace (S i + j) with (i + S j) by lia. apply Hno. lia.
Qed.
End PollingFacts.

(** *** What a service says of a query when it is asked *)

Inductive Reported (V : Type) : Type :=
| StillRunning
| Finished (v : V)
| FailedWith (why : string)
| NoReport (e : ConnectorError).
Arguments StillRunning {V}.
Arguments Finished {V} v.
Arguments FailedWith {V} why.
Arguments NoReport {V} e.

(** A poll over HTTP: the request fails, the body is no JSON, or the JSON says so. *)
Definition http_reports (says : Value → Reported Value → Prop) (r : outcome string Response) (s : Reported Value) : Prop :=
  match r with
  | Ok resp => match body_json resp with Ok j => says j s | Err e => s = NoReport (QueryFailed e) | Panic => False end
  | Err e => s = NoReport (Connection e)
  | Panic => False
  end.
(** BigQuery: [jobComplete] is the truth value true. *)
Definition bigquery_says (j : Value) (s : Reported Value) : Prop :=
  match s with
  | Finished v => index j "jobComplete" = JBool true ∧ v = j
  | StillRunning => index j "jobComplete" ≠ JBool true
  | _ => False
  end.
(** Snowflake: the status in [statementStatus], in one of two spellings, and the message. *)
Definition snowflake_says (j : Value) (s : Reported Value) : Prop :=
  let status := index (index j "statementStatus") "status" in
  match s with
  | Finished v => (status = JString "SUCCEEDED" ∨ status = JString "succeeded") ∧ v = j
  | FailedWith why => (status = JString "FAILED" ∨ status = JString "failed") ∧
      (∀ m, index j "message" = JString m → why = "Snowflake query failed: " +:+ m) ∧
      ((∀ m, index j "message" ≠ JString m) → why = "Snowflake query failed: unknown error")
  | StillRunning => ∀ w, status = JString w → w ∉ ["SUCCEEDED"; "succeeded"; "FAILED"; "failed"]
  | NoReport _ => False
  end.
(** CloudWatch: the status text; what it finishes with are rows of named fields. *)
Definition cloudwatch_says (r : outcome string (option string * list (list CloudWatch.ResultField)))
    (s : Reported (list (list CloudWatch.ResultField))) : Prop :=
  match s with
  | Finished rows => r = Ok (Some "Complete", rows)
  | FailedWith why => ∃ w rows, r = Ok (Some w, rows) ∧ w ∈ ["Failed"; "Cancelled"; "Timeout"] ∧ why = "query " +:+ w
  | StillRunning => ∃ w rows, r = Ok (w, rows) ∧ ∀ t, w = Some t → t ∉ ["Complete"; "Failed"; "Cancelled"; "Timeout"]
  | NoReport e => ∃ m, r = Err m ∧ e = QueryFailed ("get_query_results: " +:+ m)
  end.

(** The answer to a query whose polls report [reports]: that of the first report
    that the query is over, among the first [n]; [timeout] when there is none. *)
Definition answered_by {V W} (n : nat) (reports : nat → Reported V → Prop) (value : V → W → Prop) (timeout : ConnectorError)
    (answer : outcome ConnectorError W) : Prop :=
  (∀ k, k < n → (∀ j, j < k → reports j StillRunning) →
     (∀ v, reports k (Finished v) → ∃ w, answer = Ok w ∧ value v w) ∧
     (∀ why, reports k (FailedWith why) → answer = Err (QueryFailed why)) ∧
     (∀ e, reports k (NoReport e) → answer = Err e)) ∧
  ((∀ j, j < n → reports j StillRunning) → answer = Err timeout).

(** What a report decides. *)
Definition report_decision {V W} (done : V → W) (s : Reported V) : option (outcome ConnectorError W) :=
  match s with StillRunning => None | Finished v => Some (Ok (done v)) | FailedWith why => Some (Err (QueryFailed why)) | NoReport e => Some (Err e) end.
Lemma poll_answered {A V W} n (ask : nat → outcome ConnectorError A) (decide : A → option (outcome ConnectorError W))
    (reports : nat → Reported V → Prop) (done : V → W) (value : V → W → Prop) timeout :
  (∀ i s, reports i s → decision ask decide i = report_decision done s) → (∀ v, value v (done v)) →
  answered_by n reports value timeout (poll ask decide timeout n 0).
Proof.
  intros Hdec Hv. split.
  - intros k Hk Hrun. assert (Hno : ∀ j, j < k → decision ask decide (0 + j) = None) by (intros j Hj; exact (Hdec _ _ (Hrun j Hj))).
    split_and!; [intros v Hr; exists (done v); split; [|done]|intros why Hr|intros e Hr];
      apply (poll_answers ask decide timeout n 0 k _ Hno Hk); exact (Hdec _ _ Hr).
  - intros Hrun. apply poll_times_out. intros j Hj. exact (Hdec _ _ (Hrun j Hj)).
Qed.

Lemma http_decision (says : Value → Reported Value → Prop) (decide : Value → option (outcome ConnectorError Value)) (get : nat → outcome string Response) :
  (∀ j s, says j s → decide j = report_decision (λ j, j) s) →
  ∀ i s, http_reports says (get i) s → decision (λ i, BigQuery.read_json (get i)) decide i = report_decision (λ j, j) s.
Proof.
  intros Hs i s. unfold http_reports, decision, BigQuery.read_json. destruct (get i) as [resp|e|]; cbn; [|by intros ->|done].
  destruct (body_json resp) as [j|e|]; cbn; [by apply Hs|by intros ->|done].
Qed.
Lemma bigquery_decision j s : bigquery_says j s → BigQuery.job_done j = report_decision (λ j, j) s.
Proof.
  unfold BigQuery.job_done. destruct s; cbn; [|by intros [-> ->]|done|done].
  intros Hn. rewrite bool_decide_eq_false_2; [done|]. intros E. apply Hn. by destruct (index j "jobComplete") as [|[]| | | |].
Qed.
Lemma snowflake_decision j s : snowflake_says j s → Snowflake.statement_done j = report_decision (λ j, j) s.
Proof.
  unfold snowflake_says, Snowflake.statement_done. set (status := index (index j "statementStatus") "status"). destruct s as [|v|why|e]; cbn [report_decision].
  - intros Hw. destruct status as [| | |w| |]; try done. cbn [as_str]. specialize (Hw w eq_refl). rewrite !bool_decide_eq_false_2; [done|set_solver..].
  - intros [[-> | ->] ->]; cbn [as_str]; by rewrite bool_decide_eq_true_2 by set_solver.
  - intros (Hst & Hm & Hno). assert (why = "Snowflake query failed: " +:+ default "unknown error" (as_str (index j "message"))) as ->.
    { destruct (index j "message") as [| | |m| |] eqn:Em; try (rewrite Hno by (intros ?; discriminate); reflexivity). by apply Hm. }
    destruct Hst as [-> | ->]; cbn [as_str]; by rewrite bool_decide_eq_false_2, bool_decide_eq_true_2 by set_solver.
  - done.
Qed.
Lemma cloudwatch_decision `{ArrowKernels} (logs : nat → outcome string (option string * list (list CloudWatch.ResultField))) i s :
  cloudwatch_says (logs i) s →
  decision (λ i, map_err (λ e, QueryFailed ("get_query_results: " +:+ e)) (logs i)) CloudWatch.query_done i =
    report_decision CloudWatch.results_to_batches s.
Proof.
  unfold decision, CloudWatch.query_done. destruct s as [|rows|why|e]; cbn [cloudwatch_says report_decision].
  - intros (w & rows & -> & Hw). cbn [map_err fst]. destruct w as [w|]; [|done]. specialize (Hw w eq_refl). cbn [default from_option]. change (Datatypes.id w) with w.
    destruct (String.eqb_spec w "Complete") as [->|_]; [set_solver|]. rewrite bool_decide_eq_false_2; [done|set_solver].
  - by intros ->.
  - intros (w & rows & -> & Hw & ->). cbn [map_err fst default from_option]. change (Datatypes.id w) with w.
    destruct (String.eqb_spec w "Complete") as [->|_]; [set_solver|]. by rewrite bool_decide_eq_true_2.
  - intros (m & -> & ->). done.
Qed.

(** A line of a log: of several fields with one name the last, and the empty text without one. *)
Definition named_field (n : string) (r : list CloudWatch.ResultField) : string :=
  default "" (f ← last (filter (λ f, default "" f.1 = n) r); f.2).
Definition log_line (r : list CloudWatch.ResultField) : list cell :=
  [Some (VUtf8 (named_field "@timestamp" r)); Some (VUtf8 (named_field "@message" r)); Some (VUtf8 (named_field "@logStream" r))].
Lemma field_value_named n r : CloudWatch.field_value n r = named_field n r.
Proof.
  unfold CloudWatch.field_value, named_field. induction r as [|f r IH] using rev_ind; [done|].
  rewrite foldl_snoc, filter_app, IH. destruct (String.eqb_spec (default "" f.1) n) as [E|E].
  - rewrite filter_cons_True by done. rewrite filter_nil, last_snoc. reflexivity.
  - by rewrite filter_cons_False, filter_nil, app_nil_r by done.
Qed.
Lemma log_batches_rows `{K : ArrowKernels, !ArrowLaws K} rows : concat (batch_rows <$> CloudWatch.results_to_batches rows) = log_line <$> rows.
Proof.
  unfold CloudWatch.results_to_batches. destruct rows as [|r rows]; [done|]. generalize (r :: rows) as rs. clear r rows. intros rs.
  destruct (built_batch CloudWatch.log_fields rs) as (b & Hb & Hr & _); [done|repeat (apply Forall_cons_2; [by right|]); apply Forall_nil_2|].
  change CloudWatch.log_schema with (CloudWatch.log_fields.*1). rewrite Hb.
  change (batch_rows b ++ [] = log_line <$> rs). rewrite app_nil_r, Hr.
  apply list_fmap_ext. intros _ x _. unfold entry_cells, log_line, CloudWatch.log_fields. cbn. by rewrite !field_value_named.
Qed.

Section Athena.
Context (state : string → nat → outcome string (option string * option string)).

(** Athena's state at the [i]-th poll is none of the three that end the loop. *)
Definition athena_running (id : string) (i : nat) : Prop :=
  ∃ st reason, state id i = Ok (st, reason) ∧ default "" st ∉ ["SUCCEEDED"; "FAILED"; "CANCELLED"].

Lemma wait_step id i fuel : athena_running id i → Athena.wait state (S fuel) i id = Athena.wait state fuel (S i) id.
Proof.
  intros (st & reason & E & Hst). cbn [Athena.wait]. rewrite E.
  destruct (String.eqb_spec (default "" st) "SUCCEEDED") as [Es|_]; [rewrite Es in Hst; set_solver|].
  rewrite bool_decide_eq_false_2; [done|set_solver].
Qed.
Lemma wait_answers id k : ∀ i fuel, (∀ j, j < k → athena_running id (i + j)) → k < fuel →
  Athena.wait state fuel i id = Athena.wait state (fuel - k) (i + k) id.
Proof.
  induction k as [|k IH]; intros i fuel Hr Hf; [by rewrite Nat.sub_0_r, Nat.add_0_r|].
  destruct fuel as [|fuel]; [lia|]. rewrite wait_step by (specialize (Hr 0); rewrite Nat.add_0_r in Hr; apply Hr; lia).
  rewrite (IH (S i)); [by rewrite <- Nat.add_succ_comm| |lia]. intros j Hj. rewrite Nat.add_succ_comm. apply Hr. lia.
Qed.
End Athena.

(** C27: a query that a service runs in the background is answered with what the service says of it.  BigQuery and
    Snowflake are asked at most 120 times and CloudWatch 60 times.  The first report that the query is over decides: the
    answer is the one it finished with - for CloudWatch, batches with a row for each line of the log -, the error that it
    failed with, or the error of a request that failed or could not be read; when every one of those reports says that the
    query runs, the answer is an error that says so.  For BigQuery this holds when the query was accepted and not complete
    at once, for Snowflake when it gave a handle and an address for the status, for CloudWatch when it gave an identifier.
    Athena's loop ends, with any fuel above [k], when the [k]-th poll is the first that reports one of the three final
    states or fails, and then answers with success, the reason of the failure, or the error. *)
Theorem finished_queries_are_answered `{K : ArrowKernels, !ArrowLaws K} `{F64Display} post (get : string → nat → outcome string Response)
    state (start : Z → Z → string → outcome string (option string)) logs now q sql id log_id resp j :
  post sql = Ok resp → is_success resp = true → body_json resp = Ok j →
  (index j "jobComplete" ≠ JBool true → index (index j "jobReference") "jobId" = JString id →
   answered_by 120 (λ i, http_reports bigquery_says (get id i)) eq (QueryFailed "BigQuery job timed out") (BigQuery.run_query post get sql)) ∧
  (index j "statementHandle" = JString id → (∃ url, index j "statementStatusUrl" = JString url) →
   answered_by 120 (λ i, http_reports snowflake_says (get id i)) eq (QueryFailed "Snowflake query timed out") (Snowflake.submit_sql post get sql)) ∧
  (start (now - 3600)%Z now (CloudWatch.build_insights_query q) = Ok (Some log_id) →
   answered_by 60 (λ i, cloudwatch_says (logs log_id i)) (λ rows bs, concat (batch_rows <$> bs) = log_line <$> rows)
     (QueryFailed "query timed out after 30s") (CloudWatch.execute start logs now q)) ∧
  (∀ k fuel, (∀ j, j < k → athena_running state id j) → k < fuel →
   (∀ reason, state id k = Ok (Some "SUCCEEDED", reason) → Athena.wait state fuel 0 id = Some (Ok ())) ∧
   (∀ st reason, state id k = Ok (Some st, reason) → st ∈ ["FAILED"; "CANCELLED"] →
      Athena.wait state fuel 0 id = Some (Err (QueryFailed ("Athena query " +:+ st +:+ ": " +:+ default "unknown error" reason)))) ∧
   (∀ e, state id k = Err e → Athena.wait state fuel 0 id = Some (Err (QueryFailed e)))).
Proof.
  intros Hp Hs Hj. split_and!.
  - intros Hc Hid. unfold BigQuery.run_query. rewrite Hp. cbn [map_err mbind outcome_bind]. rewrite Hs, Hj. cbn [map_err mbind outcome_bind].
    rewrite (bigquery_decision j StillRunning Hc), Hid. apply (poll_answered _ _ _ _ (λ j, j)); [|done]. apply http_decision, bigquery_decision.
  - intros Hid [url Hu]. unfold Snowflake.submit_sql. rewrite Hp. cbn [map_err mbind outcome_bind]. rewrite Hs, Hj. cbn [map_err mbind outcome_bind].
    rewrite Hid, Hu. apply (poll_answered _ _ _ _ (λ j, j)); [|done]. apply http_decision, snowflake_decision.
  - intros Hst. unfold CloudWatch.execute. rewrite Hst. apply (poll_answered _ _ _ _ CloudWatch.results_to_batches); [|apply log_batches_rows].
    intros i s. apply cloudwatch_decision.
  - intros k fuel Hr Hk. rewrite (wait_answers state id k 0 fuel Hr Hk), Nat.add_0_l.
    destruct (fuel - k) as [|n] eqn:En; [lia|]. cbn [Athena.wait]. split_and!.
    + by intros reason ->.
    + intros st reason -> Hf. cbn [default from_option]. change (Datatypes.id st) with st.
      destruct (String.eqb_spec st "SUCCEEDED") as [->|_]; [set_solver|]. by rewrite bool_decide_eq_true_2.
    + by intros e ->.
Qed.

Definition started_job : Value := JObject [("jobComplete", JBool false); ("jobReference", JObject [("jobId", JString "j")])].
Lemma finished_queries_are_answered_witness :
  let answer := λ j, Ok (mkResponse true "200 OK" (Ok "") (Ok j)) in
  let poll := λ i, JObject [("jobComplete", JBool (bool_decide (i = 2))); ("rows", JArray [])] in
  @BigQuery.run_query (λ _, answer started_job) (λ _ i, answer (poll i)) "SELECT 1" = Ok (poll 2) ∧
  Athena.wait (λ _ i, Ok (Some (if decide (i < 7) then "RUNNING" else "FAILED"), Some "no such column")) 8 0 "j"
    = Some (Err (QueryFailed "Athena query FAILED: no such column")).
Proof.
  intros answer poll.
  destruct (@finished_queries_are_answered RefArrow _ (λ _, "") (λ _, answer started_job) (λ _ i, answer (poll i))
    (λ _ i, Ok (Some (if decide (i < 7) then "RUNNING" else "FAILED"), Some "no such column")) (λ _ _ _, Ok None) (λ _ _, Err "") 0%Z
    (mkSubQuery "" [] None [] [] None [] None None None) "SELECT 1" "j" "" _ started_job eq_refl eq_refl eq_refl) as (Hb & _ & _ & Ha).
  split.
  - destruct (Hb ltac:(discriminate) eq_refl) as [Hk _]. destruct (Hk 2 ltac:(lia)) as (Hf & _ & _).
    + intros [|[|i]] Hi; [discriminate|discriminate|lia].
    + destruct (Hf (poll 2)) as (w & -> & <-); [by split|done].
  - refine (proj1 (proj2 (Ha 7 8 _ _)) "FAILED" (Some "no such column") eq_refl _); [|lia|set_solver].
    intros i Hi. exists (Some "RUNNING"), (Some "no such column"). case_decide; [|lia]. split; [done|]. cbn. set_solver.
Defined.

(** Athena's loop has no bound: a query that stays queued is polled for ever. *)
Lemma athena_waits_forever state id : (∀ i, athena_running state id i) → ∀ fuel, Athena.wait state fuel 0 id = None.
Proof.
  intros Hr fuel. generalize 0. induction fuel as [|fuel IH]; intros i; [done|]. by rewrite wait_step.
Qed.

(** * Answers keep their rows *)

Section AnswerRows.
Context `{K : ArrowKernels, !ArrowLaws K} `{J : JsonOps} `{F64Display} (parse_json : string → option Value) (parse_f64 : string → option spec_float).

(** A table of texts with these columns and rows. *)
Definition text_answer (names : list string) (rows : list (list (option string))) (r : outcome ConnectorError (list RecordBatch)) : Prop :=
  ∃ b, r = Ok [b] ∧ schema b = text_field <$> names ∧ batch_rows b = fit_row (length names) <$> rows.

Lemma ch_column_nullable rows col : nullable (ClickHouse.ch_column rows col).1 = true.
Proof. unfold ClickHouse.ch_column. destruct (head _) as [[]|]; try done. by case_bool_decide. Qed.

(** A row of Timestream: each text read as the type of its column. *)
Definition ts_cell (t : DataType) (v : option string) : cell :=
  match t with Int64 => VInt <$> (v ≫= parse_i64) | Float64 => VFloat <$> (v ≫= parse_f64) | _ => opt_cell v end.
Definition ts_reader (f : Field) (i : nat) (r : list (option string)) : cell := r !! i ≫= ts_cell (field_type f).

Lemma ts_built rows fs : Forall (λ r, length r = length fs) rows → Forall (λ f, field_type f ≠ Boolean) fs →
  Forall (λ f, ∃ c, f = Timestream.ts_field c) fs →
  imap (Timestream.ts_array parse_f64 rows) fs = built_columns (imap (λ i f, (f, ts_reader f i)) fs) rows.
Proof.
  intros Hl Hb Hc. unfold built_columns. apply list_eq. intros i. rewrite list_lookup_fmap, !list_lookup_imap.
  destruct (fs !! i) as [f|] eqn:Ef; [|done]. cbn. f_equal.
  assert (Hi : i < length fs) by by eapply lookup_lt_Some.
  eapply Forall_lookup_1 in Hb; [|exact Ef]. eapply Forall_lookup_1 in Hc as [c Hc]; [|exact Ef]. clear Ef. subst f.
  assert (Hcells : ∀ t, ts_cell t <$> omap (λ r : list (option string), r !! i) rows = (λ r, r !! i ≫= ts_cell t) <$> rows).
  { intros t. clear Hb. induction Hl as [|r rows Hr _ IH]; [done|]. cbn. destruct (lookup_lt_is_Some_2 r i ltac:(lia)) as [v Hv].
    rewrite Hv. cbn. by rewrite IH. }
  unfold Timestream.ts_array, ts_reader. destruct (field_type (Timestream.ts_field c)) eqn:Et; cbn; rewrite <- Hcells; try done.
  all: exfalso; try congruence; revert Et; cbn; destruct c as [n [t|]]; cbn; try done. all: unfold Timestream.ts_type_to_arrow; by repeat destruct (String.eqb _ _).
Qed.

Lemma bind_text_answer {A} (r : outcome ConnectorError A) (a : A) names rows (g : A → outcome ConnectorError (list RecordBatch)) :
  r = Ok a → g a = text_table names rows → names ≠ [] ∨ rows = [] → text_answer names rows (a ← r; g a).
Proof. intros -> Hg Hne. cbn. rewrite Hg. by apply text_table_rows. Qed.

(** What a service answers to the SQL text of a query reaches the engine row by row: BigQuery, Snowflake, Spark
    and Athena give a table of texts with the columns they name, in their order, and null where a row is short or a
    cell is no text; CloudWatch gives a time, a message and a stream per row; ClickHouse's lines and Timestream's
    rows are read with the types of their columns, the first row deciding in ClickHouse. *)
Theorem sql_answers_keep_rows post get start state results fuel q dataset ts_query :
  (∀ j, BigQuery.run_query post get (build_bq_sql q dataset) = Ok j → BigQuery.bq_columns j ≠ [] ∨ BigQuery.bq_rows j = [] →
     text_answer (BigQuery.bq_columns j) (BigQuery.bq_rows j) (BigQuery.execute post get dataset q)) ∧
  (∀ j, Snowflake.submit_sql post get (build_snowflake_sql q) = Ok j → Snowflake.snow_columns j ≠ [] ∨ Snowflake.snow_rows j = [] →
     text_answer (Snowflake.snow_columns j) (Snowflake.snow_rows j) (Snowflake.execute post get q)) ∧
  (∀ j, Spark.run_query post (build_spark_sql q dataset) = Ok j → Spark.spark_columns j ≠ [] ∨ Spark.spark_rows j = [] →
     text_answer (Spark.spark_columns j) (Spark.spark_rows j) (Spark.execute post dataset q)) ∧
  (∀ job cols rows, start (athena_subquery_to_sql q) = Ok (Some job) → Athena.wait state fuel 0 job = Some (Ok ()) →
     results job = Ok (Some (Athena.mkResultSet cols rows)) → cols ≠ [] →
     ∃ r, Athena.execute start state results fuel q = Some r ∧ text_answer cols (tail rows) r) ∧
  (∀ rows, rows ≠ [] →
     ∃ b, CloudWatch.results_to_batches rows = [b] ∧ batch_rows b = entry_cells CloudWatch.log_fields <$> rows) ∧
  (∀ text, let rows := ClickHouse.json_lines parse_json text in
     ClickHouse.run_query post (ch_subquery_to_sql q) = Ok text → ClickHouse.ch_columns rows ≠ [] →
     ∃ b, ClickHouse.execute parse_json post q = Ok [b] ∧ name <$> schema b = name ∘ fst ∘ ClickHouse.ch_column rows <$> ClickHouse.ch_columns rows ∧
       batch_rows b = entry_cells (ClickHouse.ch_column rows <$> ClickHouse.ch_columns rows) <$> rows) ∧
  (∀ a, let fs := Timestream.ts_field <$> Timestream.column_info a in
     ts_query (ts_subquery_to_sql q dataset (table q)) = Ok a → fs ≠ [] → Timestream.ts_rows a ≠ [] →
     Forall (λ r, length r = length fs) (Timestream.ts_rows a) → Forall (λ f, field_type f ≠ Boolean) fs →
     ∃ b, Timestream.execute parse_f64 ts_query dataset q = Ok [b] ∧ schema b = fs ∧
       batch_rows b = (λ r, imap (λ i f, ts_reader f i r) fs) <$> Timestream.ts_rows a).
Proof.
  split_and!.
  - intros j Hj. by apply (bind_text_answer _ j).
  - intros j Hj. by apply (bind_text_answer _ j).
  - intros j Hj. by apply (bind_text_answer _ j).
  - intros job cols rows Hs Hw Hr Hc. unfold Athena.execute, Athena.execute_sql. rewrite Hs. cbn. rewrite Hw. cbn. rewrite Hr. cbn.
    eexists. split; [done|]. unfold Athena.result_batches. destruct cols; [done|]. apply text_table_rows. by left.
  - intros rows Hr. destruct (built_batch CloudWatch.log_fields rows) as (b & Hb & Hrows & _); [done| |].
    + repeat (apply Forall_cons_2; [by right|]). apply Forall_nil_2.
    + exists b. unfold CloudWatch.results_to_batches. destruct rows; [done|]. split; [|done].
      change (CloudWatch.log_schema) with (CloudWatch.log_fields.*1). by rewrite Hb.
  - intros text rows Ht Hc. destruct (built_answer (ClickHouse.ch_column rows <$> ClickHouse.ch_columns rows) rows) as (b & Hb & Hrows & Hsch).
    + by intros E%fmap_nil_inv.
    + apply Forall_fmap, Forall_true. intros col. left. apply ch_column_nullable.
    + exists b. unfold ClickHouse.execute. rewrite Ht. cbn. unfold ClickHouse.parse_json_each_row.
      fold rows. assert (rows ≠ []) as Hne by (by intros ->). split; [by destruct rows|]. split; [|done].
      by rewrite Hsch, <- !list_fmap_compose.
  - intros a fs Hq Hf Hr Hl Hb. destruct (built_answer (imap (λ i f, (f, ts_reader f i)) fs) (Timestream.ts_rows a)) as (b & Hb' & Hrows & Hsch).
    + by destruct fs.
    + apply Forall_forall. intros x (i & c & -> & Hc)%elem_of_lookup_imap. left. cbn. apply list_elem_of_lookup_2, list_elem_of_fmap in Hc as (? & -> & _). done.
    + assert (Hsc : (imap (λ i f, (f, ts_reader f i)) fs).*1 = fs) by (by apply list_eq; intros i; rewrite list_lookup_fmap, list_lookup_imap; destruct (fs !! i)).
      rewrite Hsc in *. exists b. split; [|split; [done|]].
      * unfold Timestream.execute, Timestream.run_query. rewrite Hq. cbn. 
        rewrite <- ts_built in Hb' by (done || (apply Forall_fmap, Forall_true; intros c; by exists c)).
        revert Hb'. subst fs. unfold Timestream.ts_batches. destruct (Timestream.column_info a); [done|].
        by destruct (Timestream.ts_rows a).
      * rewrite Hrows. apply list_fmap_ext. intros _ r _. unfold entry_cells. rewrite fmap_imap. done.
Qed.
End AnswerRows.

Section AnswersWitness.
Definition polled_answer (i : nat) : Value :=
  if decide (i = 0) then JObject [("jobComplete", JBool false)]
  else JObject [("jobComplete", JBool true); ("schema", JObject [("fields", JArray [JObject [("name", JString "n")]; JObject [("name", JString "m")]])]);
                ("rows", JArray [JObject [("f", JArray [JObject [("v", JString "1")]; JObject [("v", JNull)]])]; JObject [("f", JArray [JObject [("v", JString "2")]])]])].
Definition started_answer : Value := JObject [("jobComplete", JBool false); ("jobReference", JObject [("jobId", JString "j")])].
Definition response (j : Value) : outcome string Response := Ok (mkResponse true "200 OK" (Ok "") (Ok j)).
End AnswersWitness.

Lemma sql_answers_keep_rows_witness :
  ∃ b, @BigQuery.execute RefArrow (λ _, "") (λ _, response started_answer) (λ _ i, response (polled_answer i)) "ds"
         (mkSubQuery "t" [] None [] [] None [] None None None) = Ok [b] ∧
       batch_rows b = [[Some (VUtf8 "1"); None]; [Some (VUtf8 "2"); None]].
Proof.
  destruct (proj1 (@sql_answers_keep_rows RefArrow _ RefJson (λ _, "") (λ _, None) (λ _, None) (λ _, response started_answer) (λ _ i, response (polled_answer i))
    (λ _, Ok None) (λ _ _, Err "") (λ _, Ok None) 0 (mkSubQuery "t" [] None [] [] None [] None None None) "ds" (λ _, Err ""))
    (polled_answer 1) ltac:(vm_compute; reflexivity) ltac:(left; vm_compute; discriminate)) as (b & Hb & _ & Hr).
  exists b. split; [exact Hb|]. rewrite Hr. vm_compute. reflexivity.
Defined.

(** ** What the readers do not carry over *)

(** A text that BigQuery sends as a number or a truth value is null. *)
Lemma bigquery_scalars_are_null v : as_str v = None →
  BigQuery.bq_rows (JObject [("rows", JArray [JObject [("f", JArray [JObject [("v", v)]])]])]) = [[None]].
Proof. intros Hv. cbn. by rewrite Hv. Qed.

(** A Timestream answer with a Boolean column is refused: its texts are put in a column of texts. *)
Lemma timestream_booleans_fail :
  ∃ e, @Timestream.ts_batches RefArrow (λ _, None) (Timestream.mkAnswer [(Some "up", Some "BOOLEAN")] [[Some "true"]]) = Err e.
Proof. eexists. vm_compute. reflexivity. Qed.
(** A row shorter than the columns shifts the values below it, and the columns no longer have one length. *)
Lemma timestream_short_rows_fail :
  ∃ e, @Timestream.ts_batches RefArrow (λ _, None)
         (Timestream.mkAnswer [(Some "a", Some "VARCHAR"); (Some "b", Some "VARCHAR")] [[Some "1"]; [Some "2"; Some "3"]]) = Err e.
Proof. eexists. vm_compute. reflexivity. Qed.

Section ClickHouseGaps.
Context `{K : ArrowKernels, !ArrowLaws K} `{J : JsonOps} `{F64Display} (parse_json : string → option Value).

(** A query ClickHouse refuses is answered with no rows: the text of the error is no JSON, and its lines are dropped. *)
Lemma clickhouse_errors_are_empty post q text :
  ClickHouse.run_query post (ch_subquery_to_sql q) = Ok text → Forall (λ l, parse_json l = None) (str_lines text) →
  ClickHouse.execute parse_json post q = Ok [].
Proof.
  intros Ht Hl. unfold ClickHouse.execute. rewrite Ht. cbn. unfold ClickHouse.parse_json_each_row.
  assert (ClickHouse.json_lines parse_json text = []) as ->; [|done]. unfold ClickHouse.json_lines.
  induction Hl as [|l ls Hl _ IH]; [done|]. cbn. case_decide; [|done]. cbn. by rewrite Hl.
Qed.
End ClickHouseGaps.

(** A column named with a dot is looked up as a path and is null. *)
Lemma clickhouse_dotted_column_is_null n :
  (@ClickHouse.ch_column RefJson [JObject [("a.b", JNumber (NInt n))]] "a.b").2 (JObject [("a.b", JNumber (NInt n))]) = None.
Proof. done. Qed.
(** In a column of texts null is the text [null]. *)
Lemma clickhouse_null_is_text :
  entry_cells [@ClickHouse.ch_column RefJson [JObject [("a", JNull)]] "a"] (JObject [("a", JNull)]) = [Some (VUtf8 "null")].
Proof. vm_compute. reflexivity. Qed.

(** A nullable type is read as the type itself. *)
Lemma clickhouse_nullable_type t : t ∈ ["Int64"; "UInt8"; "Float64"; "Bool"; "String"; "DateTime"] →
  ClickHouse.ch_type_to_arrow ("Nullable(" +:+ t +:+ ")") = ClickHouse.ch_type_to_arrow t.
Proof. rewrite !elem_of_cons. intros [->|[->|[->|[->|[->|[->|[]%not_elem_of_nil]]]]]]; vm_compute; reflexivity. Qed.

Section CloudWatchGaps.
Context `{F64Display}.

(** A conjunct CloudWatch cannot express drops the whole filter of the query. *)
Lemma cloudwatch_drops_filter f g q : CloudWatch.filter_to_insights g = None → filter_expr q = Some (FAnd f g) → sort q = [] → limit q = None →
  CloudWatch.build_insights_query q = "fields @timestamp, @message, @logStream".
Proof.
  intros Hg Hf Hs Hl. unfold CloudWatch.build_insights_query. rewrite Hf, Hs, Hl. cbn.
  destruct (CloudWatch.filter_to_insights f); cbn; [by rewrite Hg|done].
Qed.
Lemma cloudwatch_in_list_is_dropped f vs : CloudWatch.filter_to_insights (FIn f vs) = None.
Proof. done. Qed.
(** A backslash is not escaped, so a text that ends in one escapes the closing quote. *)
Lemma cloudwatch_backslash_ends_open :
  CloudWatch.scalar_to_insights (SUtf8 "\") = String QUOTE ("\" +:+ String QUOTE "").
Proof. vm_compute. reflexivity. Qed.
End CloudWatchGaps.

(** * Credentials *)

Module Base64.
Import ClickHouse.

(** The value of a digit and the bytes four digits stand for. *)
Fixpoint position (c : ascii) (s : string) : option N :=
  match s with "" => None | String a s => if Ascii.eqb a c then Some 0%N else N.succ <$> position c s end.
Definition digit (c : ascii) : option N := position c CHARS.
Definition PAD : ascii := "="%char.
Fixpoint base64_decode (s : string) : option (list N) :=
  match s with
  | "" => Some []
  | String a (String b (String c (String d rest))) =>
      x ← digit a; y ← digit b;
      let b0 := N.lor (N.shiftl x 2) (N.shiftr y 4) in
      if Ascii.eqb c PAD then (if Ascii.eqb d PAD && String.eqb rest "" then Some [b0] else None)
      else
        z ← digit c;
        let b1 := N.lor (N.shiftl (N.land y 15) 4) (N.shiftr z 2) in
        if Ascii.eqb d PAD then (if String.eqb rest "" then Some [b0; b1] else None)
        else w ← digit d; bs ← base64_decode rest; Some (b0 :: b1 :: N.lor (N.shiftl (N.land z 3) 6) w :: bs)
  | _ => None
  end.

Definition up_to (n : nat) : list N := N.of_nat <$> seq 0 n.
Lemma all_up_to (p : N → bool) n : forallb p (up_to n) = true → ∀ x, (x < N.of_nat n)%N → p x = true.
Proof.
  intros Hp x Hx. rewrite forallb_forall in Hp. apply Hp, list_elem_of_In. unfold up_to. apply list_elem_of_fmap.
  exists (N.to_nat x). split; [lia|]. apply elem_of_seq. lia.
Qed.
Lemma all_pairs (p : N → N → bool) : forallb (λ x, forallb (p x) (up_to 256)) (up_to 256) = true →
  ∀ x y, (x < 256)%N → (y < 256)%N → p x y = true.
Proof.
  intros Hp x y Hx Hy. apply (all_up_to (p x) 256); [|lia].
  by apply (all_up_to (λ x, forallb (p x) (up_to 256)) 256); [|lia].
Qed.

Lemma base64_digit i : (i < 64)%N → digit (char_at i) = Some i ∧ Ascii.eqb (char_at i) PAD = false.
Proof.
  intros Hi. assert (H : bool_decide (digit (char_at i) = Some i ∧ Ascii.eqb (char_at i) PAD = false) = true); [|by apply bool_decide_eq_true in H].
  revert i Hi. apply (all_up_to (λ i, bool_decide (digit (char_at i) = Some i ∧ Ascii.eqb (char_at i) PAD = false)) 64). vm_compute. reflexivity.
Qed.
Definition first_chunk (x y : N) : Prop :=
  (first_index x < 64 ∧ second_index x y < 64 ∧ N.lor (N.shiftl (first_index x) 2) (N.shiftr (second_index x y) 4) = x ∧
   N.land (second_index x y) 15 = N.shiftr y 4)%N.
Definition second_chunk (y z : N) : Prop :=
  (third_index y z < 64 ∧ fourth_index z < 64 ∧ N.lor (N.shiftl (N.shiftr y 4) 4) (N.shiftr (third_index y z) 2) = y ∧
   N.lor (N.shiftl (N.land (third_index y z) 3) 6) (fourth_index z) = z)%N.
#[local] Instance first_chunk_dec x y : Decision (first_chunk x y).
Proof. unfold first_chunk. apply _. Defined.
#[local] Instance second_chunk_dec y z : Decision (second_chunk y z).
Proof. unfold second_chunk. apply _. Defined.
Lemma chunks x y : (x < 256)%N → (y < 256)%N → first_chunk x y ∧ second_chunk x y.
Proof.
  intros Hx Hy. assert (H : bool_decide (first_chunk x y ∧ second_chunk x y) = true); [|by apply bool_decide_eq_true in H].
  revert x y Hx Hy. apply (all_pairs (λ x y, bool_decide (first_chunk x y ∧ second_chunk x y))). vm_compute. reflexivity.
Qed.
End Base64.

Section CredentialsRoundTrip.
Import ClickHouse Base64.

Ltac decode_digits :=
  repeat match goal with
  | H : (?i < 64)%N |- context [digit (char_at ?i)] => rewrite (proj1 (base64_digit i H)); cbn [mbind option_bind]
  | H : (?i < 64)%N |- context [Ascii.eqb (char_at ?i) PAD] => rewrite (proj2 (base64_digit i H))
  end.

Lemma decode_three x y z s bs : (x < 256)%N → (y < 256)%N → (z < 256)%N → base64_decode s = Some bs →
  base64_decode (String (char_at (first_index x)) (String (char_at (second_index x y))
    (String (char_at (third_index y z)) (String (char_at (fourth_index z)) s)))) = Some (x :: y :: z :: bs).
Proof.
  intros Hx Hy Hz Hs. destruct (chunks x y Hx Hy) as [(H1 & H2 & Ex & Ey) _], (chunks y z Hy Hz) as [_ (H3 & H4 & Ey' & Ez)].
  cbn [base64_decode]. decode_digits. rewrite Hs. cbn [mbind option_bind]. by rewrite Ex, Ey, Ey', Ez.
Qed.
Lemma decode_two x y : (x < 256)%N → (y < 256)%N → base64_decode (base64_encode [x; y]) = Some [x; y].
Proof.
  intros Hx Hy. destruct (chunks x y Hx Hy) as [(H1 & H2 & Ex & Ey) _], (chunks y 0 Hy ltac:(lia)) as [_ (H3 & _ & Ey' & _)].
  cbn [base64_encode base64_decode]. decode_digits. cbn. by rewrite Ex, Ey, Ey'.
Qed.
Lemma decode_one x : (x < 256)%N → base64_decode (base64_encode [x]) = Some [x].
Proof.
  intros Hx. destruct (chunks x 0 Hx ltac:(lia)) as [(H1 & H2 & Ex & _) _].
  cbn [base64_encode base64_decode]. decode_digits. cbn. by rewrite Ex.
Qed.

(** The credentials sent to ClickHouse are Base64: decoding the text gives back the bytes, for every sequence
    of bytes, whatever is left over of the last group of three. *)
Theorem base64_round_trip bs : Forall (λ b, (b < 256)%N) bs → base64_decode (base64_encode bs) = Some bs.
Proof.
  induction bs as [bs IH] using (induction_ltof1 _ (@length N)). unfold ltof in IH. intros Hb.
  destruct bs as [|x [|y [|z bs]]]; [done| | |]; repeat (apply Forall_cons in Hb as [? Hb]).
  - by apply decode_one.
  - by apply decode_two.
  - apply decode_three; [done..|]. apply IH; [cbn; lia|done].
Qed.
End CredentialsRoundTrip.

Lemma base64_round_trip_witness :
  ClickHouse.base64_encode [117; 58; 112; 119]%N = "dTpwdw==" ∧ Base64.base64_decode "dTpwdw==" = Some [117; 58; 112; 119]%N.
Proof.
  split; [vm_compute; reflexivity|]. apply (base64_round_trip [117; 58; 112; 119]%N). repeat constructor.
Defined.
