(* ===== verification/SqlRows.v ===== *)
(** * SqlRows: rows read from and written to SQL databases

    Models, under [crates/fuse-connectors], [postgres/src/lib.rs] (PostgreSQL,
    MySQL, SQLite and Redshift), [duckdb/src/lib.rs], [arrow-flight/src/lib.rs]
    and the connector to another server in [fuse/src/lib.rs]: the batches made
    of the rows a database returns, the INSERT statements made of batches, the
    ticket of a Flight request and the query sent to a remote server.  The
    queries themselves are those of [SqlText].

    The clients are parameters: the rows a statement returns and how a value is
    read as a Rust type, and a database as a state with the effect of a
    statement.  A text is read back with the lexer of [SqlTextCorrect]. *)

From S2P Require Import Prelude Strs Json JsonRef Arrow ArrowRef Connector SqlText SqlTextCorrect SqlStatements Tabular SqlAnswers.
From stdpp Require Import base list strings gmap pretty.
From Stdlib Require Import NArith ZArith Lia Ascii SpecFloat.

(** ** Rows to batches *)

Module SqlRead.
(** A value of the database and the Rust types it can be read as. *)
Class ValueReader (V : Type) : Type := {
  get_i64 : V → option Z; get_f64 : V → option spec_float; get_bool : V → option bool; get_string : V → option string }.

Section Read.
Context `{K : ArrowKernels} {V : Type} `{ValueReader V}.

(** Column [i] of the rows read as one type, the values that are not of it null. *)
Definition column_as {A} (read : V → option A) (wrap : A → ArrayValue) (i : nat) (row : list V) : cell := wrap <$> (row !! i ≫= read).
Definition any_cell (cells : list cell) : bool := existsb (λ c, bool_decide (is_Some c)) cells.

(** The first type in which a value of the column can be read. *)
Definition first_typed (attempts : list (DataType * (list V → cell))) (rows : list (list V)) : DataType * (list V → cell) :=
  default (Utf8, λ _, None) (head (filter (λ a, any_cell (a.2 <$> rows) = true) attempts)).
Definition as_i64 (i : nat) := (Int64, column_as get_i64 VInt i).
Definition as_f64 (i : nat) := (Float64, column_as get_f64 VFloat i).
Definition as_bool (i : nat) := (Boolean, column_as get_bool VBool i).
Definition as_text (i : nat) := (Utf8, column_as get_string VUtf8 i).

Definition typed_column (attempts : nat → list (DataType * (list V → cell))) (rows : list (list V)) (i : nat) (col : string) :
    Field * (list V → cell) :=
  let a := first_typed (attempts i) rows in (mkField col a.1 true, a.2).
(** [rows\[0\].columns()] names the columns. *)
Definition rows_to_batch (attempts : nat → list (DataType * (list V → cell))) (names : list string) (rows : list (list V)) :
    outcome ConnectorError (list RecordBatch) :=
  let fs := imap (typed_column attempts rows) names in
  b ← as_query_error (try_new fs.*1 (built_columns fs rows)); Ok [b].

Definition pg_rows_to_batch := rows_to_batch (λ i, [as_i64 i; as_f64 i; as_bool i; as_text i]).
Definition my_rows_to_batch := rows_to_batch (λ i, [as_i64 i; as_f64 i; as_text i]).
Definition sqlite_rows_to_batch := rows_to_batch (λ i, [as_i64 i; as_f64 i; as_text i]).
End Read.

Inductive Pool : Type := Postgres | Mysql | Sqlite.

Section Execute.
Context `{K : ArrowKernels} `{F64Display} {V : Type} `{ValueReader V} (fetch_all : string → outcome string (list string * list (list V))).

Definition execute (pool : Pool) (q : SubQuery) : outcome ConnectorError (list RecordBatch) :=
  answer ← map_err QueryFailed (fetch_all (pg_subquery_to_sql q));
  match answer.2 with
  | [] => Ok []
  | rows =>
      match pool with
      | Postgres => pg_rows_to_batch answer.1 rows
      | Mysql => my_rows_to_batch answer.1 rows
      | Sqlite => sqlite_rows_to_batch answer.1 rows
      end
  end.
End Execute.

Definition sql_type_to_arrow (t : string) : DataType :=
  let t := to_lowercase t in
  if bool_decide (t ∈ ["integer"; "int"; "int4"; "int8"; "bigint"; "smallint"; "tinyint"]) then Int64
  else if bool_decide (t ∈ ["float"; "double"; "real"; "numeric"; "decimal"; "float4"; "float8"]) then Float64
  else if bool_decide (t ∈ ["boolean"; "bool"; "tinyint(1)"]) then Boolean else Utf8.
Definition duckdb_type_to_arrow (t : string) : DataType :=
  let t := to_uppercase t in
  if bool_decide (t ∈ ["BIGINT"; "INTEGER"; "SMALLINT"; "TINYINT"; "HUGEINT"; "INT"; "INT4"; "INT8"]) then Int64
  else if bool_decide (t ∈ ["DOUBLE"; "FLOAT"; "REAL"; "DECIMAL"; "NUMERIC"]) then Float64
  else if bool_decide (t ∈ ["BOOLEAN"; "BOOL"]) then Boolean else Utf8.

(** The statement that lists the columns of a table, and its text in SQLite. *)
Definition columns_sql (pool : Pool) (tbl : string) : string :=
  match pool with
  | Postgres => "SELECT column_name, data_type FROM information_schema.columns WHERE table_name = $1 ORDER BY ordinal_position"
  | Mysql => "SELECT column_name, data_type FROM information_schema.columns WHERE table_name = ? ORDER BY ordinal_position"
  | Sqlite => "PRAGMA table_info(" +:+ tbl +:+ ")"
  end.
Definition schema_of (to_arrow : string → DataType) (tbl : string) (rows : outcome string (list (string * string))) : outcome ConnectorError Schema :=
  rows ← map_err SchemaDiscovery rows;
  match (λ r, mkField r.1 (to_arrow r.2) true) <$> rows with
  | [] => Err (SchemaDiscovery ("table '" +:+ tbl +:+ "' not found"))
  | fs => Ok fs
  end.
Definition get_schema (describe : string → outcome string (list (string * string))) (pool : Pool) (tbl : string) : outcome ConnectorError Schema :=
  schema_of sql_type_to_arrow tbl (describe (columns_sql pool tbl)).
Definition duck_get_schema (describe : string → outcome string (list (string * string))) (tbl : string) : outcome ConnectorError Schema :=
  schema_of duckdb_type_to_arrow tbl
    (describe ("SELECT column_name, data_type FROM information_schema.columns WHERE table_name = '" +:+ replace "'" "''" tbl +:+
               "' ORDER BY ordinal_position")).

Section DuckDb.
Context `{K : ArrowKernels} `{F64Display} {V : Type} (duck_text : V → option (option string)) (duck_i64 : V → option (option Z))
        (duck_f64 : V → option (option spec_float)).

(** A value as a text: read as a text, an integer or a float, in this order. *)
Definition duck_value (v : V) : option string :=
  match duck_text v, duck_i64 v, duck_f64 v with
  | Some t, _, _ => t
  | None, Some n, _ => pretty <$> n
  | None, None, Some f => fmt_f64 <$> f
  | None, None, None => None
  end.
Definition duck_execute (query : string → outcome string (list string * outcome string (list (list V)))) (q : SubQuery) :
    outcome ConnectorError (list RecordBatch) :=
  answer ← map_err QueryFailed (query (duck_subquery_to_sql q));
  rows ← map_err QueryFailed answer.2;
  if bool_decide (answer.1 = []) || bool_decide (length rows = 0) then Ok [] : outcome ConnectorError (list RecordBatch)
  else text_table answer.1 ((λ r : list V, duck_value <$> r) <$> rows).
End DuckDb.

(** The password in the address of a Redshift cluster, [%XX] for the bytes that
    may not stand in it. *)
Definition unreserved (a : ascii) : bool :=
  let n := N_of_ascii a in
  ((48 <=? n) && (n <=? 57) || (65 <=? n) && (n <=? 90) || (97 <=? n) && (n <=? 122))%N ||
  is_char "-" a || is_char "_" a || is_char "." a || is_char "~" a.
Definition hex_digit (n : N) : ascii := ascii_of_N (if (n <? 10)%N then 48 + n else 55 + n)%N.
Definition percent (a : ascii) : string :=
  if unreserved a then String a ""
  else String "%" (String (hex_digit (N_of_ascii a / 16)) (String (hex_digit (N_of_ascii a mod 16)) "")).
Fixpoint encode_password (s : string) : string := match s with "" => "" | String a s => percent a +:+ encode_password s end.
Definition redshift_url (user password host : string) (port : N) (db : string) : string :=
  "postgres://" +:+ user +:+ ":" +:+ encode_password password +:+ "@" +:+ host +:+ ":" +:+ pretty port +:+ "/" +:+ db.
End SqlRead.

(** ** Batches to INSERT statements *)

Module SqlWrite.
Import SqlRead.

Section Write.
Context `{F64Display} (fmt_f32 : spec_float → string) (debug : Array → string).

(** [cell_to_sql_literal]: a type that is not listed is written with the debug
    text of its whole array. *)
Definition cell_to_sql_literal (b : RecordBatch) (col row : nat) : string :=
  let arr := default (mkArray Utf8 []) (columns b !! col) in
  match value_at arr row with
  | None => "NULL"
  | Some v =>
      match data_type arr, v with
      | Int64, VInt z | Int32, VInt z => pretty z
      | Float64, VFloat f => fmt_f64 f
      | Float32, VFloat f => fmt_f32 f
      | Boolean, VBool b => bool_text b
      | Int64, _ | Int32, _ | Float64, _ | Float32, _ | Boolean, _ => "NULL"
      | Utf8, VUtf8 s => quote_string s
      | _, _ => quote_string (debug arr)
      end
  end.
(** DuckDB's [cell_to_sql]: other types, [Float32] among them, are the empty text. *)
Definition cell_to_sql (b : RecordBatch) (col row : nat) : string :=
  let arr := default (mkArray Utf8 []) (columns b !! col) in
  match value_at arr row with
  | None => "NULL"
  | Some v =>
      match data_type arr, v with
      | Int64, VInt z | Int32, VInt z => pretty z
      | Float64, VFloat f => fmt_f64 f
      | Boolean, VBool b => bool_text b
      | Int64, _ | Int32, _ | Float64, _ | Boolean, _ => "NULL"
      | Utf8, VUtf8 s => quote_string s
      | _, _ => quote_string ""
      end
  end.

(** The names of the columns are quoted, but a quote inside one is not doubled. *)
Definition col_list (b : RecordBatch) : string := join_with ", " ((λ f, DQUOTE +:+ name f +:+ DQUOTE) <$> schema b).
Definition row_values (cell : RecordBatch → nat → nat → string) (b : RecordBatch) (row : nat) : string :=
  "(" +:+ join_with ", " ((λ c, cell b c row) <$> seq 0 (length (columns b))) +:+ ")".
Definition insert_into (cell : RecordBatch → nat → nat → string) (tbl : string) (b : RecordBatch) (rows : list nat) : string :=
  "INSERT INTO " +:+ tbl +:+ " (" +:+ col_list b +:+ ") VALUES " +:+ join_with ", " (row_values cell b <$> rows).
Definition insert_statements (pool : Pool) (tbl : string) (b : RecordBatch) : list string :=
  let rows := seq 0 (num_rows b) in
  match pool with
  | Postgres | Mysql => [insert_into cell_to_sql_literal tbl b rows]
  | Sqlite => (λ r, insert_into cell_to_sql_literal tbl b [r]) <$> rows
  end.

(** A database: its state and what a statement does to it. *)
Context {Db : Type} (exec : Db → string → Db * outcome string N).

(** The statements in order, up to the first that fails; the rows affected. *)
Fixpoint run_all (total : N) (stmts : list string) (db : Db) : Db * outcome ConnectorError N :=
  match stmts with
  | [] => (db, Ok total)
  | s :: stmts =>
      match exec db s with
      | (db, Ok n) => run_all (total + n) stmts db
      | (db, Err e) => (db, Err (QueryFailed e))
      | (db, Panic) => (db, Panic)
      end
  end.
Definition write_one (pool : Pool) (tbl : string) (b : RecordBatch) (db : Db) : Db * outcome ConnectorError N :=
  run_all 0 (insert_statements pool tbl b) db.
Fixpoint write_from (total : N) (pool : Pool) (tbl : string) (bs : list RecordBatch) (db : Db) : Db * outcome ConnectorError N :=
  match bs with
  | [] => (db, Ok total)
  | b :: bs =>
      if num_rows b =? 0 then write_from total pool tbl bs db
      else match write_one pool tbl b db with
           | (db, Ok n) => write_from (total + n) pool tbl bs db
           | r => r
           end
  end.
Definition write_batches : Pool → string → list RecordBatch → Db → Db * outcome ConnectorError N := write_from 0.

(** DuckDB counts the rows itself. *)
Fixpoint duck_write_from (total : N) (tbl : string) (bs : list RecordBatch) (db : Db) : Db * outcome ConnectorError N :=
  match bs with
  | [] => (db, Ok total)
  | b :: bs =>
      if num_rows b =? 0 then duck_write_from total tbl bs db
      else match exec db (insert_into cell_to_sql tbl b (seq 0 (num_rows b))) with
           | (db, Ok _) => duck_write_from (total + N.of_nat (num_rows b)) tbl bs db
           | (db, Err e) => (db, Err (QueryFailed e))
           | (db, Panic) => (db, Panic)
           end
  end.
Definition duck_write_batches : string → list RecordBatch → Db → Db * outcome ConnectorError N := duck_write_from 0.
End Write.
End SqlWrite.

(** ** Another server *)

Module Remote.
Section Remote.
Context `{K : ArrowKernels} `{J : JsonOps} `{F64Display}.

(** Names are not quoted; all three pattern operators are LIKE. *)
Definition fuse_scalar_to_sql : ScalarValue → string := scalar_text bool_text "NULL".
Definition fuse_dialect : Dialect :=
  mkDialect id (op_text "LIKE" "LIKE" "LIKE") fuse_scalar_to_sql (is_null_text id) (is_not_null_text id).
Definition fuse_filter_to_sql : FilterExpr → string := filter_sql fuse_dialect.
Definition build_remote_sql (q : SubQuery) : string :=
  "SELECT " +:+ match projections q with [] => "*" | ps => join_with ", " ps end +:+
  " FROM " +:+ table q +:+
  text_clause " WHERE " (fuse_filter_to_sql <$> filter_expr q) +:+
  list_clause " GROUP BY " (group_by q) +:+
  text_clause " HAVING " (fuse_filter_to_sql <$> having q) +:+
  list_clause " ORDER BY " (sort_text id <$> sort q) +:+
  text_clause " LIMIT " (pretty <$> limit q) +:+
  text_clause " OFFSET " (pretty <$> offset q).

Definition json_to_batches (columns : list string) (rows : list (list Value)) : outcome ConnectorError (list RecordBatch) :=
  match columns, rows with
  | [], _ | _, [] => Ok [empty_batch (text_field <$> columns)]
  | _, _ => text_table columns ((λ r : list Value, Snowflake.cell_text <$> r) <$> rows)
  end.
Definition response_columns (j : Value) : list string := omap as_str (elements_of (index j "columns")).
Definition response_rows (j : Value) : list (list Value) := omap as_array (elements_of (index j "rows")).
Definition execute (post : string → outcome string Response) (q : SubQuery) : outcome ConnectorError (list RecordBatch) :=
  resp ← map_err Connection (post (build_remote_sql q));
  if is_success resp then
    j ← map_err QueryFailed (body_json resp); json_to_batches (response_columns j) (response_rows j)
  else Err (QueryFailed ("remote Fuse returned " +:+ status_text resp +:+ ": " +:+ default "" (ok_value (body_text resp)))).

(** Datasource and table of a name, the identifier of the connector without a dot. *)
Definition split_table (id tbl : string) : string * string := default (id, tbl) (split_once (is_char ".") tbl).
Context (get_json : string → outcome string Value) (base_url id : string).
Definition fields_url (ds tbl : string) : string := base_url +:+ "/api/fuse/datasources/" +:+ ds +:+ "/schemas/" +:+ tbl +:+ "/fields".
Definition schemas_url (ds : string) : string := base_url +:+ "/api/fuse/datasources/" +:+ ds +:+ "/schemas".
Definition get_schema (tbl : string) : outcome ConnectorError Schema :=
  let '(ds, tbl) := split_table id tbl in
  j ← map_err Connection (get_json (fields_url ds tbl));
  Ok ((λ f, text_field (default "unknown" (as_str (index f "name")))) <$> elements_of j).
Definition table_names (ds : string) (j : Value) : list string :=
  omap (λ t, (λ n, ds +:+ "." +:+ n) <$> match as_str t with Some n => Some n | None => as_str (index t "name") end) (elements_of j).
Fixpoint schemas_of (datasources : list Value) : outcome ConnectorError (list string) :=
  match datasources with
  | [] => Ok []
  | d :: ds =>
      match as_str (index d "id") with
      | Some id => j ← map_err Connection (get_json (schemas_url id)); rest ← schemas_of ds; Ok (table_names id j ++ rest)
      | None => schemas_of ds
      end
  end.
Definition discover_schemas : outcome ConnectorError (list string) :=
  j ← map_err Connection (get_json (base_url +:+ "/api/fuse/datasources")); schemas_of (elements_of j).
End Remote.
End Remote.

(** ** Arrow Flight *)

Module Flight.
Inductive FlightMode : Type := FlightSql | PlainFlight.

(** The batches of a stream, up to the first error. *)
Fixpoint collect_stream (what : string) (items : list (outcome string RecordBatch)) : outcome ConnectorError (list RecordBatch) :=
  match items with
  | [] => Ok []
  | i :: items => b ← map_err (λ e, QueryFailed (what +:+ e)) i; bs ← collect_stream what items; Ok (b :: bs)
  end.

Section Flight.
Context `{F64Display} `{J : JsonOps}.
(** The clients: opening one, the endpoints of a statement, the stream of a ticket. *)
Context {Ticket : Type} (connect : outcome ConnectorError unit) (execute_sql : string → outcome string (list (option Ticket)))
        (do_get : Ticket → outcome string (list (outcome string RecordBatch))) (ticket_of : string → Ticket).

Definition get_batches (failed : string) (t : Ticket) : outcome ConnectorError (list RecordBatch) :=
  items ← map_err (λ e, QueryFailed (failed +:+ e)) (do_get t); collect_stream "Flight stream error: " items.
Fixpoint endpoint_batches (endpoints : list (option Ticket)) : outcome ConnectorError (list RecordBatch) :=
  match endpoints with
  | [] => Ok []
  | Some t :: es => bs ← get_batches "Flight SQL do_get failed: " t; rest ← endpoint_batches es; Ok (bs ++ rest)
  | None :: es => endpoint_batches es
  end.
Definition execute_flight_sql (sql : string) : outcome ConnectorError (list RecordBatch) :=
  _ ← connect;
  endpoints ← map_err (λ e, QueryFailed ("Flight SQL execute failed: " +:+ e)) (execute_sql sql);
  endpoint_batches endpoints.

(** [build_flight_ticket]: serde_json keeps the keys of an object sorted. *)
Definition flight_ticket (q : SubQuery) : Value :=
  JObject (option_list ((λ f, ("filter", JString (flight_filter_to_sql f))) <$> filter_expr q)
    ++ option_list ((λ n, ("limit", JNumber (NInt (Z.of_N n)))) <$> limit q)
    ++ option_list ((λ n, ("offset", JNumber (NInt (Z.of_N n)))) <$> offset q)
    ++ match projections q with [] => [] | ps => [("projections", JArray (JString <$> ps))] end
    ++ match sort q with
       | [] => []
       | ss => [("sort", JArray ((λ s, JObject [("desc", JBool (sort_descending s)); ("field", JString (sort_field s))]) <$> ss))]
       end
    ++ [("table", JString (table q))]).
Definition build_flight_ticket (q : SubQuery) : string := to_string (flight_ticket q).
Definition execute_flight_ticket (q : SubQuery) : outcome ConnectorError (list RecordBatch) :=
  _ ← connect; get_batches "Flight do_get failed: " (ticket_of (build_flight_ticket q)).
Definition execute (mode : FlightMode) (q : SubQuery) : outcome ConnectorError (list RecordBatch) :=
  match mode with FlightSql => execute_flight_sql (build_flight_sql q) | PlainFlight => execute_flight_ticket q end.
End Flight.
End Flight.

(** * Rows are kept *)

Section RowsKept.
Import SqlRead.
Context `{K : ArrowKernels, !ArrowLaws K} `{F64Display} {V : Type} `{ValueReader V}.

(** What each database is read with. *)
Definition attempts (pool : Pool) (i : nat) : list (DataType * (list V → cell)) :=
  match pool with
  | Postgres => [as_i64 i; as_f64 i; as_bool i; as_text i]
  | Mysql | Sqlite => [as_i64 i; as_f64 i; as_text i]
  end.
(** The value of a column in a row: its first reading. *)
Definition first_cell (l : list (DataType * (list V → cell))) (row : list V) : cell :=
  foldr (λ a acc, match a.2 row with Some c => Some c | None => acc end) None l.
(** A column of one type: none of its values can be read as another. *)
Definition one_type (l : list (DataType * (list V → cell))) (rows : list (list V)) : Prop :=
  ∃ t, Forall (λ row, Forall (λ a, a.1 ≠ t → a.2 row = None) l) rows.

Lemma first_cell_none (l : list (DataType * (list V → cell))) row : Forall (λ a, a.2 row = None) l → first_cell l row = None.
Proof. induction 1 as [|a l Ha _ IH]; [done|]. cbn. by rewrite Ha. Qed.

Lemma any_cell_in (cells : list cell) c : c ∈ cells → c ≠ None → any_cell cells = true.
Proof.
  intros Hin Hc. apply existsb_exists. exists c. split; [by apply list_elem_of_In|].
  apply bool_decide_eq_true_2. destruct c; [by eexists|done].
Qed.
Lemma any_cell_some (cells : list cell) : any_cell cells = true → ∃ c, c ∈ cells ∧ c ≠ None.
Proof. intros (c & Hc & Hs)%existsb_exists. exists c. split; [by apply list_elem_of_In|]. by destruct c; apply bool_decide_eq_true in Hs as [? ?]. Qed.

(** Past the readings of other types the one that is taken is the first cell. *)
Lemma first_cell_of (l : list (DataType * (list V → cell))) a t row : NoDup l.*1 → a ∈ l → a.1 = t → Forall (λ b, b.1 ≠ t → b.2 row = None) l →
  first_cell l row = a.2 row.
Proof.
  intros Hnd Ha Ht. induction l as [|b l IH]; [by apply not_elem_of_nil in Ha|]. intros [Hb Hl]%Forall_cons.
  cbn [fmap list_fmap] in Hnd. apply NoDup_cons in Hnd as [Hn Hnd]. cbn [first_cell foldr]. apply elem_of_cons in Ha as [->|Ha].
  - destruct (b.2 row); [done|]. apply first_cell_none. apply Forall_forall. intros x Hx. rewrite Forall_forall in Hl.
    apply (Hl x Hx). intros E. apply Hn. apply list_elem_of_fmap. exists x. split; [congruence|done].
  - rewrite Hb; [by apply IH|]. intros E. apply Hn. apply list_elem_of_fmap. exists a. split; [congruence|done].
Qed.

Lemma first_typed_cells l rows row : NoDup l.*1 → one_type l rows → row ∈ rows → (first_typed l rows).2 row = first_cell l row.
Proof.
  intros Hnd [t Ht] Hrow. unfold first_typed. rewrite Forall_forall in Ht. pose proof (Ht row Hrow) as Hr.
  destruct (filter _ l) as [|a l'] eqn:E; cbn.
  - symmetry. apply first_cell_none. apply Forall_forall. intros a Ha. destruct (a.2 row) eqn:Ea; [|done]. exfalso.
    assert (a ∈ filter (λ a, any_cell (a.2 <$> rows) = true) l) as Hf; [|by rewrite E in Hf; apply not_elem_of_nil in Hf].
    apply list_elem_of_filter. split; [|done]. apply (any_cell_in _ (a.2 row)); [|by rewrite Ea]. apply list_elem_of_fmap. by exists row.
  - assert (Hin : a ∈ filter (λ a, any_cell (a.2 <$> rows) = true) l) by (rewrite E; by left).
    apply list_elem_of_filter in Hin as [(c & (row' & -> & Hrow')%list_elem_of_fmap & Hc)%any_cell_some Hin].
    symmetry. apply (first_cell_of _ _ t); [done|done| |done].
    destruct (decide (a.1 = t)) as [|Hne]; [done|]. exfalso. apply Hc. pose proof (Ht row' Hrow') as Hr'. rewrite Forall_forall in Hr'. by apply Hr'.
Qed.

Lemma attempts_distinct pool i : NoDup (attempts pool i).*1.
Proof. by destruct pool; apply (bool_decide_unpack _); vm_compute. Qed.

(** The rows PostgreSQL, MySQL and SQLite return become one batch: a column per column of the answer, named as
    it is, and a row per row, in order; when a column holds values of one type every value that can be read is kept,
    and what cannot be read is null.  An answer without rows is no batch. *)
Theorem sql_rows_kept pool q names rows fetch_all :
  fetch_all (pg_subquery_to_sql q) = Ok (names, rows) →
  (rows = [] → execute fetch_all pool q = Ok []) ∧
  (rows ≠ [] → names ≠ [] → (∀ i, i < length names → one_type (attempts pool i) rows) →
   ∃ b, execute fetch_all pool q = Ok [b] ∧ name <$> schema b = names ∧
     batch_rows b = (λ row, imap (λ i _, first_cell (attempts pool i) row) names) <$> rows).
Proof.
  intros Hf. split; [intros ->; unfold execute; by rewrite Hf|]. intros Hr Hn Ht.
  set (fs := imap (typed_column (attempts pool) rows) names).
  destruct (built_batch fs rows) as (b & Hb & Hrows & Hs).
  - unfold fs. by destruct names.
  - apply Forall_forall. intros f (i & n & -> & _)%elem_of_lookup_imap. by left.
  - exists b. split_and!.
    + unfold execute. rewrite Hf. cbn. destruct rows as [|row rows]; [done|].
      transitivity (rows_to_batch (attempts pool) names (row :: rows)); [by destruct pool|].
      unfold rows_to_batch. fold fs. by rewrite Hb.
    + rewrite Hs. unfold fs. apply list_eq. intros i. rewrite !list_lookup_fmap, list_lookup_imap. by destruct (names !! i).
    + rewrite Hrows. apply list_eq. intros j. rewrite !list_lookup_fmap. destruct (rows !! j) as [row|] eqn:Ej; [|done]. cbn. f_equal.
      unfold entry_cells, fs. apply list_eq. intros i. rewrite list_lookup_fmap, !list_lookup_imap.
      destruct (names !! i) as [n|] eqn:En; [|done]. cbn. f_equal.
      apply first_typed_cells; [apply attempts_distinct|apply Ht; by eapply lookup_lt_Some|by eapply list_elem_of_lookup_2].
Qed.
End RowsKept.

(** Values read as what they are. *)
#[local] Instance plain_reader : SqlRead.ValueReader cell := {|
  SqlRead.get_i64 := λ v, match v with Some (VInt z) => Some z | _ => None end;
  SqlRead.get_f64 := λ v, match v with Some (VFloat f) => Some f | _ => None end;
  SqlRead.get_bool := λ v, match v with Some (VBool b) => Some b | _ => None end;
  SqlRead.get_string := λ v, match v with Some (VUtf8 s) => Some s | _ => None end |}.

Lemma sql_rows_kept_witness :
  ∃ b, @SqlRead.execute RefArrow (λ _, "") cell plain_reader
         (λ _, Ok (["id"; "up"], [[Some (VInt 1); None]; [Some (VInt 2); Some (VBool true)]]))
         SqlRead.Postgres (mkSubQuery "t" [] None [] [] None [] None None None) = Ok [b] ∧
       batch_rows b = [[Some (VInt 1); None]; [Some (VInt 2); Some (VBool true)]].
Proof.
  destruct (proj2 (@sql_rows_kept RefArrow _ (λ _, "") cell plain_reader SqlRead.Postgres (mkSubQuery "t" [] None [] [] None [] None None None)
    ["id"; "up"] [[Some (VInt 1); None]; [Some (VInt 2); Some (VBool true)]]
    (λ _, Ok (["id"; "up"], [[Some (VInt 1); None]; [Some (VInt 2); Some (VBool true)]])) eq_refl)
    ltac:(done) ltac:(done)) as (b & Hb & _ & Hr).
  - intros [|[|i]] Hi; [exists Int64|exists Boolean|cbn in Hi; lia]; repeat constructor; done.
  - exists b. split; [exact Hb|]. rewrite Hr. vm_compute. reflexivity.
Defined.

(** In a column with an integer the texts are lost: SQLite stores both in one column. *)
Lemma sqlite_mixed_column_loses_text :
  let rows := [[Some (VInt 1)]; [Some (VUtf8 "a")]] in
  (SqlRead.first_typed (attempts (V := cell) SqlRead.Sqlite 0) rows).2 <$> rows = [Some (VInt 1); None].
Proof. vm_compute. reflexivity. Qed.
(** What cannot be read as one of the types tried, such as a truth value in MySQL and SQLite, is null. *)
Lemma unread_column_is_null {V : Type} `{SqlRead.ValueReader V} pool i (rows : list (list V)) :
  Forall (λ row, ∀ v, row !! i = Some v → SqlRead.get_i64 v = None ∧ SqlRead.get_f64 v = None ∧ SqlRead.get_bool v = None ∧ SqlRead.get_string v = None) rows →
  Forall (λ row, first_cell (attempts pool i) row = None) rows.
Proof.
  intros Hrs. eapply Forall_impl; [exact Hrs|]. cbv beta. intros row Hr. apply first_cell_none. unfold attempts, SqlRead.as_i64, SqlRead.as_f64, SqlRead.as_bool, SqlRead.as_text, SqlRead.column_as.
  destruct (row !! i) as [v|] eqn:E; [destruct (Hr v eq_refl) as (E1 & E2 & E3 & E4)|];
    destruct pool; repeat (apply Forall_cons_2; [cbn; rewrite E; cbn; by rewrite ?E1, ?E2, ?E3, ?E4|]); apply Forall_nil_2.
Qed.

(** * Statements insert the rows they are made of *)

Section InsertReads.
Import SqlRead SqlWrite.
Context `{F : F64Display, !F64Words} (fmt_f32 : spec_float → string) (debug : Array → string).

(** The rows of a VALUES list and an INSERT statement: table, columns, rows of
    as many literals. *)
Fixpoint p_rows (n : nat) (ts : list tok) : option (list (list literal)) :=
  match n, ts with
  | S n, s :: ts =>
      if sym "(" s then
        '(vs, ts) ← p_values ts;
        match ts with
        | [] => Some [vs]
        | c :: ts => if sym "," c then rows ← p_rows n ts; Some (vs :: rows) else None
        end
      else None
  | _, _ => None
  end.
Definition read_insert (s : string) : option (string * list string * list (list literal)) :=
  ts ← tokens std_lexer s;
  match ts with
  | TWord i :: TWord o :: TWord t :: p :: ts =>
      if String.eqb i "INSERT" && String.eqb o "INTO" && sym "(" p then
        '(names, ts) ← p_names ts;
        match ts with
        | c :: v :: ts =>
            if sym ")" c && kw "VALUES" v then
              rows ← p_rows (length ts) ts;
              if forallb (λ r, length r =? length names) rows then Some (t, names, rows) else None
            else None
        | _ => None
        end
      else None
  | _ => None
  end.

(** The literal of a cell, its token, and the types that have one. *)
Definition cell_lit (c : cell) : literal :=
  match c with
  | None => LNull
  | Some (VInt z) => LNumber (pretty z)
  | Some (VFloat f) => LNumber (fmt_f64 f)
  | Some (VBool b) => LBool b
  | Some (VUtf8 s) | Some (VOther s) => LText s
  end.
Definition cell_tok (c : cell) : tok :=
  match c with
  | None => TWord "NULL"
  | Some (VInt z) => TWord (pretty z)
  | Some (VFloat f) => TWord (fmt_f64 f)
  | Some (VBool b) => TWord (bool_text b)
  | Some (VUtf8 s) | Some (VOther s) => TString s
  end.
Definition typed (t : DataType) (c : cell) : Prop :=
  match c, t with
  | Some (VFloat f), Float64 => finite f = true
  | None, _ | Some (VInt _), (Int64 | Int32) | Some (VBool _), Boolean | Some (VUtf8 _), Utf8 => True
  | _, _ => False
  end.
(** A batch the connectors can write: a column at least, of integers, finite
    64-bit floats, booleans or texts, a name for each, and names without a quote. *)
Definition writable (b : RecordBatch) : Prop :=
  columns b ≠ [] ∧ length (schema b) = length (columns b) ∧ Forall (λ f, no_char DQ (name f) = true) (schema b) ∧
  Forall (λ a, data_type a ∈ [Int64; Int32; Float64; Boolean; Utf8] ∧ Forall (typed (data_type a)) (data a)) (columns b).

Lemma typed_lit t c : typed t c → tok_lit (cell_tok c) = Some (cell_lit c).
Proof.
  destruct c as [[z|f|s|[]|s]|]; try done; intros Ht; cbn [cell_tok cell_lit].
  - apply number_literal, pretty_Z_number.
  - apply number_literal, fmt_f64_number. by destruct t.
Qed.

Lemma typed_text t c : typed t c →
  reads std_lexer (match c with None => "NULL" | Some (VInt z) => pretty z | Some (VFloat f) => fmt_f64 f | Some (VBool b) => bool_text b
                   | Some (VUtf8 s) | Some (VOther s) => quote_string s end) [cell_tok c].
Proof.
  intros Ht. destruct c as [[z|f|s|[]|s]|]; cbn [cell_tok bool_text].
  - apply (reads_literal_word std_lexer), pretty_Z_word.
  - apply (reads_literal_word std_lexer), fmt_f64_word.
  - by apply (reads_doubled std_lexer SQUOTE s); [right| |].
  - by apply (reads_word std_lexer).
  - by apply (reads_word std_lexer).
  - by apply (reads_doubled std_lexer SQUOTE s); [right| |].
  - by apply (reads_word std_lexer).
Qed.

(** Every cell text of a writable batch reads as its literal, in both writers. *)
Definition writes (cell : RecordBatch → nat → nat → string) : Prop :=
  ∀ b c a r, writable b → columns b !! c = Some a → reads std_lexer (cell b c r) [cell_tok (value_at a r)].

Lemma value_typed a r : Forall (typed (data_type a)) (data a) → typed (data_type a) (value_at a r).
Proof.
  intros Ht. unfold value_at. destruct (data a !! r) as [x|] eqn:E; [|done]. by eapply Forall_lookup_1 in Ht.
Qed.
Lemma writers_write : writes (cell_to_sql_literal fmt_f32 debug) ∧ writes cell_to_sql.
Proof.
  split; intros b c a r (_ & _ & _ & Hc) Ha; (eapply Forall_lookup_1 in Hc as [Hd Ht]; [|exact Ha]);
    pose proof (value_typed a r Ht) as Hv; pose proof (typed_text _ _ Hv) as Hr;
    unfold cell_to_sql_literal, cell_to_sql; rewrite Ha; cbn [default from_option]; change (Datatypes.id a) with a;
    rewrite !elem_of_cons in Hd; destruct (value_at a r) as [[]|]; try done;
    destruct Hd as [E|[E|[E|[E|[E|[]%not_elem_of_nil]]]]]; rewrite E in *; done.
Qed.

Definition singles (ts : list tok) : list (list tok) := (λ t, [t]) <$> ts.
Definition row_toks (vs : list tok) : list tok := TSym "(" :: comma_toks (singles vs) ++ [TSym ")"].
(** Tokens that are literals. *)
Definition literals : list tok → list literal → Prop := Forall2 (λ t l, tok_lit t = Some l).

Lemma p_values_singles ts ls rest : ts ≠ [] → literals ts ls →
  p_values (comma_toks (singles ts) ++ TSym ")" :: rest) = Some (ls, rest).
Proof.
  intros Hne. induction 1 as [|t l ts ls Hl Hls IH]; [done|]. destruct Hls as [|u k ts ls Hk Hls]; [cbn; by rewrite Hl|].
  unfold singles. cbn [fmap list_fmap]. rewrite comma_toks_cons. cbn [app p_values]. rewrite Hl. cbn [mbind option_bind].
  change (sym ")" (TSym ",")) with false. change (sym "," (TSym ",")) with true. cbv iota.
  specialize (IH ltac:(done)). unfold singles in IH. cbn [fmap list_fmap] in IH. by rewrite IH.
Qed.
Lemma p_names_singles n names rest : p_names (comma_toks (singles (TIdent <$> n :: names)) ++ TSym ")" :: rest) = Some (n :: names, TSym ")" :: rest).
Proof.
  revert n. induction names as [|m names IH]; intros n; [done|].
  unfold singles. cbn [fmap list_fmap]. rewrite comma_toks_cons. cbn [app p_names].
  change (sym "," (TSym ",")) with true. cbv iota. specialize (IH m). unfold singles in IH. cbn [fmap list_fmap] in IH. by rewrite IH.
Qed.
Lemma p_rows_comma row rows lits n : Forall (λ ts, ts ≠ []) (row :: rows) → Forall2 literals (row :: rows) lits →
  S (length rows) ≤ n → p_rows n (comma_toks (row_toks <$> row :: rows)) = Some lits.
Proof.
  revert row lits n. induction rows as [|row' rows IH]; intros row lits n [Hne Hnes]%Forall_cons Hl Hn;
    (destruct n as [|n]; [cbn in Hn; lia|]); apply Forall2_cons_inv_l in Hl as (ls & lits' & Hls & Hl & ->).
  - apply Forall2_nil_inv_l in Hl as ->. cbn [fmap list_fmap comma_toks row_toks p_rows]. change (sym "(" (TSym "(")) with true. cbv iota.
    by rewrite (p_values_singles _ ls).
  - cbn [fmap list_fmap]. rewrite comma_toks_cons. cbn [row_toks app p_rows]. change (sym "(" (TSym "(")) with true. cbv iota.
    rewrite <- (assoc_L (++)). cbn [app]. rewrite (p_values_singles _ ls) by done. cbn [mbind option_bind].
    change (sym "," (TSym ",")) with true. cbv iota.
    pose proof (IH row' lits' n Hnes Hl ltac:(cbn in Hn; lia)) as E. cbn [fmap list_fmap] in E. by rewrite E.
Qed.
Lemma comma_toks_count l : Forall (λ t : list tok, t ≠ []) l → length l ≤ length (comma_toks l).
Proof.
  induction 1 as [|t l Ht Hl IH]; [done|]. destruct t as [|x t]; [done|].
  destruct l as [|u l]; [cbn; lia|]. rewrite comma_toks_cons, length_app. cbn [length] in *. lia.
Qed.

Definition batch_toks (b : RecordBatch) (r : nat) : list tok := cell_tok <$> row_at (columns b) r.
Definition batch_lits (b : RecordBatch) (r : nat) : list literal := cell_lit <$> row_at (columns b) r.
Lemma batch_literals b r : writable b → literals (batch_toks b r) (batch_lits b r).
Proof.
  intros (_ & _ & _ & Hc). unfold literals, batch_toks, batch_lits, row_at. rewrite <- !list_fmap_compose.
  apply Forall2_fmap, Forall_Forall2_diag. eapply Forall_impl; [exact Hc|]. cbv beta. intros a [_ Ha].
  by apply (typed_lit (data_type a)), value_typed.
Qed.

Lemma row_values_reads cell b r : writes cell → writable b → reads std_lexer (row_values cell b r) (row_toks (batch_toks b r)).
Proof.
  intros Hw Hb. unfold row_values, row_toks. apply (reads_all_app std_lexer "(" _ [_]); [const_reads|].
  apply (reads_delim std_lexer); [|done|const_reads]. apply (comma_reads std_lexer).
  - unfold singles, batch_toks, row_at. rewrite <- !list_fmap_compose. apply Forall2_fmap. apply Forall2_same_length_lookup_2.
    { by rewrite length_seq. }
    intros i c a Hc Ha. rewrite lookup_seq in Hc. destruct Hc as [-> Hlt]. cbn. by apply Hw.
  - destruct Hb as [Hne _]. by destruct (columns b).
Qed.
Lemma col_list_reads b : writable b → reads std_lexer (col_list b) (comma_toks (singles (TIdent <$> (name <$> schema b)))).
Proof.
  intros (Hc & Hl & Hq & _). unfold col_list, singles. apply (comma_reads std_lexer); [|by destruct (schema b), (columns b)].
  rewrite <- !list_fmap_compose. apply Forall2_fmap, Forall_Forall2_diag. eapply Forall_impl; [exact Hq|]. intros f Hf.
  pose proof (reads_doubled std_lexer DQ (name f) ltac:(by left) eq_refl ltac:(done)) as Hr.
  unfold doubled in Hr. by rewrite (replace_char_none DQ _ _ Hf) in Hr.
Qed.

(** An INSERT statement of a writable batch says what it inserts. *)
Lemma insert_read cell tbl b r rows : writes cell → writable b → is_word tbl = true →
  read_insert (insert_into cell tbl b (r :: rows)) = Some (tbl, name <$> schema b, batch_lits b <$> r :: rows).
Proof.
  intros Hw Hb Ht. unfold read_insert.
  assert (reads std_lexer (insert_into cell tbl b (r :: rows))
    ([TWord "INSERT"; TWord "INTO"] ++ [TWord tbl] ++ [TSym "("] ++ comma_toks (singles (TIdent <$> (name <$> schema b))) ++
     [TSym ")"; TWord "VALUES"] ++ comma_toks (row_toks <$> (batch_toks b <$> r :: rows)))) as Hr.
  { unfold insert_into. apply (reads_all_app std_lexer "INSERT INTO " _ [_; _]); [const_reads|].
    apply (reads_delim std_lexer); [by apply (reads_word std_lexer)|done|].
    apply (reads_all_app std_lexer " (" _ [_]); [const_reads|]. apply (reads_delim std_lexer); [by apply col_list_reads|done|].
    apply (reads_all_app std_lexer ") VALUES " _ [_; _]); [const_reads|].
    apply (comma_reads std_lexer); [|done]. rewrite <- list_fmap_compose. apply Forall2_fmap, Forall_Forall2_diag, Forall_true.
    intros x. by apply row_values_reads. }
  rewrite (reads_tokens std_lexer _ _ Hr). cbn [mbind option_bind app].
  change (String.eqb "INSERT" "INSERT" && String.eqb "INTO" "INTO" && sym "(" (TSym "(")) with true. cbv iota.
  pose proof Hb as (Hc & Hs & _ & _).
  assert (forallb (λ l, length l =? length (name <$> schema b)) (batch_lits b <$> r :: rows) = true) as Hlen.
  { apply forallb_forall. intros l (x & <- & _)%in_map_iff. apply Nat.eqb_eq. unfold batch_lits, row_at. rewrite !length_fmap. by symmetry. }
  destruct (schema b) as [|f fs]; [by destruct (columns b)|].
  pose proof (p_names_singles (name f) (name <$> fs) (TWord "VALUES" :: comma_toks (row_toks <$> (batch_toks b <$> r :: rows)))) as En.
  change (name <$> f :: fs) with (name f :: (name <$> fs)) in Hlen |- *. cbn [app] in En |- *.
  cbn [fmap list_fmap] in En |- *. rewrite En. cbn [mbind option_bind].
  change (sym ")" (TSym ")") && kw "VALUES" (TWord "VALUES")) with true. cbv iota.
  pose proof (p_rows_comma (batch_toks b r) (batch_toks b <$> rows) (batch_lits b <$> r :: rows)) as Er. cbn [fmap list_fmap] in Er, Hlen |- *.
  rewrite Er; [cbn [mbind option_bind]; by rewrite Hlen|..].
  - change (batch_toks b r :: (batch_toks b <$> rows)) with (batch_toks b <$> r :: rows). apply Forall_fmap, Forall_true. intros x.
    unfold compose, batch_toks, row_at. by destruct (columns b).
  - change (Forall2 literals (batch_toks b <$> r :: rows) (batch_lits b <$> r :: rows)).
    apply Forall2_fmap, Forall_Forall2_diag, Forall_true. intros x. by apply batch_literals.
  - pose proof (comma_toks_count (row_toks <$> (batch_toks b <$> r :: rows))) as Hcount. rewrite length_fmap in Hcount. cbn [fmap list_fmap] in Hcount. apply Hcount.
    change (row_toks (batch_toks b r) :: (row_toks <$> (batch_toks b <$> rows))) with (row_toks <$> (batch_toks b <$> r :: rows)).
    apply Forall_fmap, Forall_true. done.
Qed.
End InsertReads.

Section InsertsAppend.
Import SqlRead SqlWrite.
Context `{F : F64Display, !F64Words} (fmt_f32 : spec_float → string) (debug : Array → string).

(** A database that appends what it reads: the table, the columns and the
    literals of each row. *)
Abbreviation Inserted := (string * list string * list literal)%type.
Definition append_exec (db : list Inserted) (s : string) : list Inserted * outcome string N :=
  match read_insert s with
  | Some (tbl, names, rows) => (db ++ ((λ r, (tbl, names, r)) <$> rows), Ok (N.of_nat (length rows)))
  | None => (db, Err "syntax error")
  end.
Definition inserted (tbl : string) (b : RecordBatch) : list Inserted := (λ r : list cell, (tbl, name <$> schema b, cell_lit <$> r)) <$> batch_rows b.
Definition total_rows (bs : list RecordBatch) : N := foldr (λ b n, N.of_nat (num_rows b) + n)%N 0%N bs.

Lemma append_insert cell tbl b r rows db : writes cell → writable b → is_word tbl = true →
  append_exec db (insert_into cell tbl b (r :: rows)) =
    (db ++ ((λ r, (tbl, name <$> schema b, batch_lits b r)) <$> r :: rows), Ok (N.of_nat (length (r :: rows)))).
Proof.
  intros Hw Hb Ht. unfold append_exec. rewrite insert_read by done. by rewrite <- list_fmap_compose, length_fmap.
Qed.

Lemma append_each cell tbl b rows : writes cell → writable b → is_word tbl = true → ∀ db total,
  run_all append_exec total ((λ r, insert_into cell tbl b [r]) <$> rows) db =
    (db ++ ((λ r, (tbl, name <$> schema b, batch_lits b r)) <$> rows), Ok (total + N.of_nat (length rows))%N).
Proof.
  intros Hw Hb Ht. induction rows as [|r rows IH]; intros db total; [cbn; by rewrite app_nil_r, N.add_0_r|].
  cbn [fmap list_fmap run_all]. rewrite append_insert by done. cbn [fmap list_fmap]. rewrite IH, <- (assoc_L (++)). cbn [app length].
  f_equal. f_equal. lia.
Qed.

Lemma inserted_rows tbl b : (λ r, (tbl, name <$> schema b, batch_lits b r)) <$> seq 0 (num_rows b) = inserted tbl b.
Proof. unfold inserted, batch_rows. by rewrite <- list_fmap_compose. Qed.

Lemma append_one pool tbl b db : writable b → is_word tbl = true → num_rows b ≠ 0 →
  write_one fmt_f32 debug append_exec pool tbl b db = (db ++ inserted tbl b, Ok (N.of_nat (num_rows b))).
Proof.
  intros Hb Ht Hn. pose proof (writers_write fmt_f32 debug) as [Hw _]. unfold write_one, insert_statements.
  destruct pool; [| |by rewrite append_each, inserted_rows, length_seq].
  all: destruct (seq 0 (num_rows b)) as [|r rows] eqn:E; [by destruct (num_rows b)|]; cbn [run_all];
    rewrite append_insert, <- E, inserted_rows, length_seq by done; by rewrite N.add_0_l.
Qed.

(** C22: writing batches appends their rows, in order and once each: a database that inserts the rows it reads in each
    statement holds afterwards what it held and, for every row of every batch, the table, the names of the columns and
    the literals of the cells; the count returned is the number of rows.  So for PostgreSQL with a statement per batch,
    SQLite with a statement per row, and DuckDB; not for MySQL, which reads the quoted names of the columns as texts and a
    backslash in a text as an escape, whereas the database here reads standard SQL.  The table is a plain word.  A batch
    that has rows has a column at least, of 64- or 32-bit integers, finite 64-bit floats, booleans or texts, and names
    without a double quote: the other types are not written as what they are, and [NaN] is not a literal. *)
Theorem inserts_append_rows pool tbl bs db : pool ≠ Mysql → is_word tbl = true → Forall (λ b, num_rows b = 0 ∨ writable b) bs →
  write_batches fmt_f32 debug append_exec pool tbl bs db = (db ++ concat (inserted tbl <$> bs), Ok (total_rows bs)) ∧
  duck_write_batches append_exec tbl bs db = (db ++ concat (inserted tbl <$> bs), Ok (total_rows bs)).
Proof.
  intros _ Ht Hbs. unfold write_batches, duck_write_batches.
  change (total_rows bs) with (0 + total_rows bs)%N at 1 2. generalize 0%N at 1 2 3 4 as total.
  revert db. induction Hbs as [|b bs Hb Hbs IH]; intros db total.
  { cbn. by rewrite app_nil_r, N.add_0_r. }
  cbn [write_from duck_write_from fmap list_fmap concat total_rows foldr]. destruct (Nat.eqb_spec (num_rows b) 0) as [E|Hn].
  { rewrite E. assert (inserted tbl b = []) as -> by (unfold inserted, batch_rows; by rewrite E). cbn [app]. apply IH. }
  destruct Hb as [Hb|Hb]; [done|]. rewrite append_one by done. destruct (seq 0 (num_rows b)) as [|r rows] eqn:E; [by destruct (num_rows b)|].
  pose proof (writers_write fmt_f32 debug) as [_ Hw]. rewrite append_insert, <- E, inserted_rows by done.
  destruct (IH (db ++ inserted tbl b) (total + N.of_nat (num_rows b))%N) as [E1 E2]. rewrite E1, E2.
  rewrite <- !(assoc_L (++)), N.add_assoc. done.
Qed.
End InsertsAppend.

#[local] Instance plain_f64 : F64Display := λ _, "0".
#[local] Instance plain_f64_words : F64Words.
Proof. by split. Qed.

Section InsertWitness.
Definition two_rows : RecordBatch :=
  mkBatch [mkField "id" Int64 true; mkField "who" Utf8 true]
    [mkArray Int64 [Some (VInt 1); Some (VInt (-2))]; mkArray Utf8 [Some (VUtf8 "O'Neil"); None]] 2.
End InsertWitness.

Lemma inserts_append_rows_witness :
  SqlWrite.write_batches (λ _, "") (λ _, "") append_exec SqlRead.Sqlite "people" [two_rows] [] =
    ([("people", ["id"; "who"], [LNumber "1"; LText "O'Neil"]); ("people", ["id"; "who"], [LNumber "-2"; LNull])], Ok 2%N).
Proof.
  refine (proj1 (@inserts_append_rows _ _ (λ _, "") (λ _, "") SqlRead.Sqlite "people" [two_rows] [] _ eq_refl _)); [discriminate|].
  apply Forall_cons_2; [right|apply Forall_nil_2]. split_and!; [done|done|repeat constructor|].
  apply Forall_cons_2; [split; [set_solver|repeat constructor]|]. apply Forall_cons_2; [split; [set_solver|repeat constructor]|apply Forall_nil_2].
Defined.

(** A quote in the name of a column ends the name: here the name carries the values that are inserted. *)
Lemma quoted_column_name_splits :
  let b := mkBatch [mkField ("a" +:+ DQUOTE +:+ ") VALUES (1) -- ") Int64 true] [mkArray Int64 [Some (VInt 7)]] 1 in
  read_insert (SqlWrite.insert_into (SqlWrite.cell_to_sql_literal (λ _, "") (λ _, "")) "t" b [0]) = Some ("t", ["a"], [[LNumber "1"]]).
Proof. vm_compute. reflexivity. Qed.
(** A float that is no number is written as a word, which no database reads as a literal. *)
Lemma nan_is_not_read : read_insert ("INSERT INTO t (" +:+ DQUOTE +:+ "a" +:+ DQUOTE +:+ ") VALUES (NaN)") = None.
Proof. vm_compute. reflexivity. Qed.
(** The name of the table is not quoted: it may end the statement. *)
Lemma table_name_is_raw tbl b rows cell :
  ∃ rest, SqlWrite.insert_into cell tbl b rows = "INSERT INTO " +:+ tbl +:+ rest.
Proof. by eexists. Qed.
(** DuckDB writes a 32-bit float, or a value of any type it does not list, as the empty text. *)
Lemma duck_float32_is_empty f :
  SqlWrite.cell_to_sql (mkBatch [mkField "x" Float32 true] [mkArray Float32 [Some (VFloat f)]] 1) 0 0 = "''".
Proof. vm_compute. reflexivity. Qed.
(** The other databases get the text of the whole column in every row. *)
Lemma unlisted_type_writes_column fmt_f32 debug n a r v :
  value_at (mkArray Int16 a) r = Some v →
  SqlWrite.cell_to_sql_literal fmt_f32 debug (mkBatch [mkField n Int16 true] [mkArray Int16 a] (length a)) 0 r = quote_string (debug (mkArray Int16 a)).
Proof. intros Hv. unfold SqlWrite.cell_to_sql_literal. cbn [columns lookup list_lookup default from_option]. change (Datatypes.id ?x) with x. by rewrite Hv. Qed.
(** A statement that fails leaves what the statements before it inserted: there is no transaction. *)
Lemma failed_write_is_partial e :
  SqlWrite.write_batches (Db := nat) (λ _, "") (λ _, "") (λ n _, match n with 0 => (1, Ok 2%N) | _ => (n, Err e) end)
    SqlRead.Postgres "t" [two_rows; two_rows] 0 = (1, Err (QueryFailed e)).
Proof. vm_compute. reflexivity. Qed.

(** * Credentials, the remote server and Flight *)

Section Passwords.
Import SqlRead.

(** The value of a hexadecimal digit, and [%XX] decoded. *)
Definition hex_value (a : ascii) : option N :=
  let n := N_of_ascii a in
  if ((48 <=? n) && (n <=? 57))%N then Some (n - 48)%N else if ((65 <=? n) && (n <=? 70))%N then Some (n - 55)%N else None.
Fixpoint percent_decode (s : string) : option string :=
  match s with
  | "" => Some ""
  | String a rest =>
      if is_char "%" a then
        match rest with
        | String h (String l rest) => x ← hex_value h; y ← hex_value l; r ← percent_decode rest; Some (String (ascii_of_N (16 * x + y)) r)
        | _ => None
        end
      else String a <$> percent_decode rest
  end.

Lemma percent_facts a : unreserved a = true ∧ is_char "%" a = false ∨
  unreserved a = false ∧ hex_value (hex_digit (N_of_ascii a / 16)) = Some (N_of_ascii a / 16)%N ∧
  hex_value (hex_digit (N_of_ascii a mod 16)) = Some (N_of_ascii a mod 16)%N ∧
  unreserved (hex_digit (N_of_ascii a / 16)) = true ∧ unreserved (hex_digit (N_of_ascii a mod 16)) = true.
Proof. destruct a as [[] [] [] [] [] [] [] []]; vm_compute; tauto. Qed.

(** The password in the address of a Redshift cluster is encoded: decoding [%XX] gives it back, byte for byte, and the
    text holds only letters, digits, hyphens, underscores, dots, tildes and the percent sign, so that no character of a
    password can end it or be read as another part of the address. *)
Theorem password_round_trip s :
  percent_decode (encode_password s) = Some s ∧ str_all (λ a, unreserved a || is_char "%" a) (encode_password s) = true.
Proof.
  induction s as [|a s [IH Hall]]; [done|]. cbn [encode_password]. unfold percent.
  destruct (percent_facts a) as [(Hu & Hp)|(Hu & Hh & Hl & Uh & Ul)]; rewrite Hu.
  - change (String a "" +:+ encode_password s) with (String a (encode_password s)). cbn [percent_decode str_all]. rewrite Hp, IH, Hu, Hall. done.
  - rewrite !str_app_cons. change ("" +:+ ?x) with x. cbn [percent_decode str_all]. change (is_char "%" "%") with true. cbv iota.
    rewrite Hh, Hl, IH, Uh, Ul, Hall. cbn [mbind option_bind orb andb]. split; [|done]. do 2 f_equal.
    rewrite <- N.div_mod by done. by rewrite ascii_N_embedding.
Qed.
End Passwords.

Section RemoteRows.
Import Remote.
Context `{K : ArrowKernels, !ArrowLaws K} `{J : JsonOps} `{F64Display}.

(** The rows a remote server answers, as texts. *)
Lemma remote_rows_kept post q resp j :
  post (build_remote_sql q) = Ok resp → is_success resp = true → body_json resp = Ok j →
  response_columns j ≠ [] ∨ response_rows j = [] →
  text_answer (response_columns j) ((λ r : list Value, Snowflake.cell_text <$> r) <$> response_rows j) (execute post q).
Proof.
  intros Hp Hs Hj Hne. unfold execute. rewrite Hp. cbn. rewrite Hs, Hj. cbn. unfold json_to_batches.
  destruct (response_columns j) as [|c cs].
  { destruct Hne as [| ->]; [done|]. by eexists. }
  destruct (response_rows j) as [|r rs]; [by eexists|]. apply text_table_rows. by left.
Qed.

(** The aggregates of a query are not in the text sent to the remote server, though the connector says it aggregates. *)
Lemma remote_aggregates_are_lost q aggs :
  build_remote_sql q = build_remote_sql (mkSubQuery (table q) (projections q) (filter_expr q) aggs (group_by q) (having q) (sort q) (limit q) (offset q) (passthrough q)).
Proof. done. Qed.
End RemoteRows.

Section FlightStreams.
Import Flight.
Context `{F64Display} `{J : JsonOps} {Ticket : Type}.

Lemma collect_all what (bs : list RecordBatch) : collect_stream what (Ok <$> bs) = Ok bs.
Proof. induction bs as [|b bs IH]; [done|]. cbn. by rewrite IH. Qed.
Lemma endpoints_all (do_get : Ticket → outcome string (list (outcome string RecordBatch))) endpoints (served : Ticket → list RecordBatch) :
  (∀ t, Some t ∈ endpoints → do_get t = Ok (Ok <$> served t)) → endpoint_batches do_get endpoints = Ok (concat (served <$> omap id endpoints)).
Proof.
  induction endpoints as [|[t|] es IH]; intros Hs; [done| |].
  - cbn [endpoint_batches]. unfold get_batches. rewrite (Hs t) by by left. cbn. rewrite collect_all. cbn.
    rewrite IH; [done|]. intros u Hu. apply Hs. by right.
  - apply IH. intros u Hu. apply Hs. by right.
Qed.

(** What a ticket says, read from its JSON. *)
Definition sort_key (v : Value) : option (string * bool) := f ← as_str (index v "field"); d ← as_bool (index v "desc"); Some (f, d).
Definition count_at (v : Value) (k : string) : option N := Z.to_N <$> as_i64 (index v k).
Definition read_ticket (v : Value) : option (string * list string * option string * list (string * bool) * option N * option N) :=
  t ← as_str (index v "table");
  Some (t, omap as_str (elements_of (index v "projections")), as_str (index v "filter"), omap sort_key (elements_of (index v "sort")),
    count_at v "limit", count_at v "offset").

Lemma omap_strings (l : list string) : omap as_str (JString <$> l) = l.
Proof. induction l as [|s l IH]; [done|]. cbn. by rewrite IH. Qed.
Lemma omap_keys (l : list SortExpr) :
  omap sort_key ((λ s, JObject [("desc", JBool (sort_descending s)); ("field", JString (sort_field s))]) <$> l) =
  (λ s, (sort_field s, sort_descending s)) <$> l.
Proof. induction l as [|s l IH]; [done|]. cbn. by rewrite IH. Qed.

Definition count_value (o : option N) : Value := match o with Some n => JNumber (NInt (Z.of_N n)) | None => JNull end.
Lemma count_reads o : (∀ n, o = Some n → (n <= Z.to_N i64_max)%N) → Z.to_N <$> as_i64 (count_value o) = o.
Proof.
  destruct o as [n|]; [|done]. intros Hn. specialize (Hn n eq_refl). unfold i64_max in Hn. cbn [count_value as_i64].
  assert ((i64_min <=? Z.of_N n)%Z && (Z.of_N n <=? i64_max)%Z = true) as ->; [|cbn; by rewrite N2Z.id].
  apply andb_true_intro. unfold i64_min, i64_max. rewrite !Z.leb_le. lia.
Qed.
Lemma ticket_fields q :
  index (flight_ticket q) "table" = JString (table q) ∧
  index (flight_ticket q) "projections" = match projections q with [] => JNull | ps => JArray (JString <$> ps) end ∧
  index (flight_ticket q) "filter" = match filter_expr q with Some f => JString (flight_filter_to_sql f) | None => JNull end ∧
  index (flight_ticket q) "sort" = match sort q with
    | [] => JNull | ss => JArray ((λ s, JObject [("desc", JBool (sort_descending s)); ("field", JString (sort_field s))]) <$> ss) end ∧
  index (flight_ticket q) "limit" = count_value (limit q) ∧
  index (flight_ticket q) "offset" = count_value (offset q).
Proof. unfold flight_ticket. by destruct (filter_expr q), (limit q), (offset q), (projections q), (sort q). Qed.

(** Arrow Flight returns what the server streams: with SQL the batches of the tickets of all endpoints, in order,
    endpoints without one skipped; with a plain ticket the batches of its stream.  The ticket says the table, the
    projections, the filter as SQL, the sort keys with their direction, the limit and the offset of the query. *)
Theorem flight_returns_streams (execute_sql : string → outcome string (list (option Ticket))) do_get ticket_of q endpoints served :
  execute_sql (build_flight_sql q) = Ok endpoints →
  (∀ t, Some t ∈ endpoints ∨ t = ticket_of (build_flight_ticket q) → do_get t = Ok (Ok <$> served t)) →
  (∀ n, limit q = Some n ∨ offset q = Some n → (n <= Z.to_N i64_max)%N) →
  execute (Ok ()) execute_sql do_get ticket_of FlightSql q = Ok (concat (served <$> omap id endpoints)) ∧
  execute (Ok ()) execute_sql do_get ticket_of PlainFlight q = Ok (served (ticket_of (build_flight_ticket q))) ∧
  read_ticket (flight_ticket q) = Some (table q, projections q, flight_filter_to_sql <$> filter_expr q,
    (λ s, (sort_field s, sort_descending s)) <$> sort q, limit q, offset q).
Proof.
  intros He Hs Hn. split_and!.
  - cbn [execute]. unfold execute_flight_sql. cbn [mbind outcome_bind]. rewrite He. cbn. apply endpoints_all. intros t Ht. apply Hs. by left.
  - cbn [execute]. unfold execute_flight_ticket, get_batches. cbn [mbind outcome_bind]. rewrite Hs by by right. cbn. by rewrite collect_all.
  - destruct (ticket_fields q) as (Et & Ep & Ef & Es & El & Eo). unfold read_ticket, count_at. rewrite Et, Ep, Ef, Es, El, Eo.
    rewrite !count_reads by auto. cbn [as_str mbind option_bind].
    assert (omap as_str (elements_of match projections q with [] => JNull | ps => JArray (JString <$> ps) end) = projections q) as ->
      by (destruct (projections q); [done|apply omap_strings]).
    destruct (filter_expr q), (sort q) as [|s so]; try done; cbn [elements_of as_array default from_option];
      change (Datatypes.id ?x) with x; by rewrite omap_keys.
Qed.
End FlightStreams.

Lemma flight_returns_streams_witness :
  let q := mkSubQuery "t" ["a"] None [] [] None [mkSort "a" true] (Some 5%N) None None in
  @Flight.execute plain_f64 RefJson nat (Ok ()) (λ _, Ok [Some 1; None; Some 2]) (λ t, Ok (Ok <$> repeat two_rows t)) String.length Flight.FlightSql q = Ok [two_rows; two_rows; two_rows] ∧
  @read_ticket (@Flight.flight_ticket _ q) = Some ("t", ["a"], None, [("a", true)], Some 5%N, None).
Proof.
  intros q. destruct (@flight_returns_streams _ RefJson nat (λ _, Ok [Some 1; None; Some 2]) (λ t, Ok (Ok <$> repeat two_rows t)) String.length q
    [Some 1; None; Some 2] (repeat two_rows) eq_refl ltac:(done)) as (H1 & _ & H3).
  - intros n [[= <-]|[=]]. vm_compute. discriminate.
  - split; [exact H1|exact H3].
Defined.
