(* ===== verification/WasmPlugins.v ===== *)
(** * WasmPlugins: connectors loaded as WebAssembly modules

    Models [fuse-server/src/wasm_plugin.rs]: loading with its integrity and
    import checks, the directory scan, the registry, and the exchange of JSON
    texts through the linear memory of a module.  The WebAssembly engine is a
    parameter: an instance is what it exports, functions that answer and change
    the memory.  Pointers are the 32-bit integers of the source, cast to 64
    bits; a sum that overflows wraps, a slice out of range is a panic. *)

From S2P Require Import Prelude Strs Json JsonRef Arrow ArrowRef Connector Tabular.
From stdpp Require Import base list strings gmap pretty.
From Stdlib Require Import NArith ZArith Lia Ascii.

Definition WASM_FUEL_LIMIT : N := 10000000.
Definition WASM_MAX_INPUT_SIZE : N := 1048576.

Record PluginSecurityConfig : Type := mkSecurity {
  sha256 : option string; max_fuel : option N; max_memory_mb : option N; max_execution_ms : option N; allow_wasi : bool }.
Definition default_security : PluginSecurityConfig := mkSecurity None None None None false.
Record PluginManifest : Type := mkManifest { mf_id : string; mf_enabled : option bool; mf_security : PluginSecurityConfig }.

(** ** Linear memory *)

Abbreviation bytes := (list N).
Definition bytes_of (s : string) : bytes := N_of_ascii <$> String.list_ascii_of_string s.

(** [x as usize] of an [i32], and a sum of two [usize]. *)
Definition as_usize (x : Z) : Z := (x `mod` 2 ^ 64)%Z.
Definition usize_add (a b : Z) : Z := ((a + b) `mod` 2 ^ 64)%Z.

(** [&data\[start..end\]]. *)
Definition slice {E : Type} (start stop : Z) (data : bytes) : outcome E bytes :=
  if ((start <=? stop) && (stop <=? Z.of_nat (length data)))%Z
  then Ok (take (Z.to_nat (stop - start)) (drop (Z.to_nat start) data)) else Panic.
Definition copy_into {E : Type} (start : Z) (src data : bytes) : outcome E bytes :=
  let stop := usize_add start (Z.of_nat (length src)) in
  if ((start <=? stop) && (stop <=? Z.of_nat (length data)))%Z
  then Ok (take (Z.to_nat start) data ++ src ++ drop (Z.to_nat stop) data) else Panic.

(** What a module exports; a call answers and leaves the memory as it is then. *)
Record Instance_ : Type := mkInstance {
  i_memory : option bytes;
  i_alloc : option (Z → bytes → outcome string (Z * bytes));
  i_type : option (bytes → outcome string (Z * Z * bytes));
  i_func : string → option (Z → Z → bytes → outcome string (Z * Z * bytes)) }.
(** A module file: its content, the modules it imports from, and its instances
    with a given amount of fuel. *)
Record WasmFile : Type := mkFile { f_bytes : bytes; f_module : outcome string (list string); f_instance : N → outcome string Instance_ }.

Record WasmPlugin : Type := mkPlugin { p_id : string; p_type : string; p_file : WasmFile; p_security : PluginSecurityConfig }.

Section Plugins.
Context (sha256_hex : bytes → string) (from_utf8 : bytes → outcome string string).

(** ** Loading *)

Definition verify_wasm_sha256 (path : string) (content : bytes) (expected_hex : string) : outcome string unit :=
  if String.eqb (sha256_hex content) (to_lowercase expected_hex) then Ok ()
  else Err ("SHA-256 mismatch for " +:+ path +:+ ": expected " +:+ expected_hex +:+ ", got " +:+ sha256_hex content).

Definition is_wasi (m : string) : bool := String.eqb m "wasi_snapshot_preview1" || starts_with "wasi:" m.

(** The text at a pointer and length a call returned. *)
Definition read_output (out_of_bounds : ConnectorError) (utf8 : string → ConnectorError) (ptr len : Z) (data : bytes) : outcome ConnectorError string :=
  let start := as_usize ptr in
  let stop := usize_add start (as_usize len) in
  if (Z.of_nat (length data) <? stop)%Z then Err out_of_bounds
  else out ← slice start stop data; map_err utf8 (from_utf8 out).

Definition probe_connector_type (file : WasmFile) (fuel : N) : outcome ConnectorError string :=
  inst ← map_err (λ e, Connection ("wasm instantiate: " +:+ e)) (f_instance file fuel);
  func ← ok_or (i_type inst) (Connection "wasm: missing 'connector_type' export");
  mem ← match i_memory inst with Some m => Ok m | None => Ok [] end;
  r ← map_err (λ e, Connection ("wasm connector_type call: " +:+ e)) (func mem);
  _ ← ok_or (i_memory inst) (Connection "wasm: no memory export");
  read_output (Connection "wasm: connector_type out of bounds") (λ e, Connection ("wasm: invalid utf8: " +:+ e)) r.1.1 r.1.2 r.2.

Definition load (id path : string) (file : WasmFile) (security : PluginSecurityConfig) : outcome ConnectorError WasmPlugin :=
  _ ← match sha256 security with
      | Some expected => map_err (λ e, Connection ("wasm integrity: " +:+ e)) (verify_wasm_sha256 path (f_bytes file) expected)
      | None => Ok ()
      end;
  imports ← map_err (λ e, Connection ("wasm load '" +:+ path +:+ "': " +:+ e)) (f_module file);
  if negb (allow_wasi security) && existsb is_wasi imports
  then Err (Connection ("wasm plugin '" +:+ id +:+ "' requires WASI but allow_wasi=false in manifest"))
  else
    t ← probe_connector_type file (default WASM_FUEL_LIMIT (max_fuel security));
    Ok (mkPlugin id t file security).

(** ** Calls *)

Definition call_json_fn (p : WasmPlugin) (func_name input : string) : outcome ConnectorError string :=
  if (WASM_MAX_INPUT_SIZE <? N.of_nat (String.length input))%N
  then Err (QueryFailed ("wasm input too large: " +:+ pretty (N.of_nat (String.length input)) +:+ " bytes (max " +:+ pretty WASM_MAX_INPUT_SIZE +:+ ")"))
  else
    inst ← map_err (λ e, Connection ("wasm instantiate: " +:+ e)) (f_instance (p_file p) (default WASM_FUEL_LIMIT (max_fuel (p_security p))));
    mem ← ok_or (i_memory inst) (Connection "wasm: no memory export");
    alloc ← ok_or (i_alloc inst) (Connection "wasm: missing 'alloc' export");
    let input_bytes := bytes_of input in
    let len := Z.of_nat (length input_bytes) in
    a ← map_err (λ e, Connection ("wasm alloc: " +:+ e)) (alloc len mem);
    mem ← copy_into (as_usize a.1) input_bytes a.2;
    func ← ok_or (i_func inst func_name) (Connection ("wasm: missing '" +:+ func_name +:+ "' export"));
    r ← map_err (λ e, QueryFailed ("wasm " +:+ func_name +:+ ": " +:+ e)) (func a.1 len mem);
    read_output (QueryFailed ("wasm " +:+ func_name +:+ ": output out of bounds")) (λ e, QueryFailed ("wasm: invalid utf8: " +:+ e)) r.1.1 r.1.2 r.2.

(** ** The connector *)

Context `{K : ArrowKernels} `{J : JsonOps}.
(** [serde_json::from_str], and the order of the keys of a hash map. *)
Context (parse_rows : string → outcome string (list (gmap string Value))) (parse_names : string → outcome string (list string))
        (keys : gmap string Value → list string).

Definition query_json (q : SubQuery) : string :=
  to_string (JObject [("limit", from_option (λ n, JNumber (NInt (Z.of_N n))) JNull (limit q));
                      ("projections", JArray (JString <$> projections q)); ("table", JString (table q))]).

Definition wasm_column (c : string) : Field * (gmap string Value → cell) :=
  (text_field c, λ r, VUtf8 ∘ plain_text <$> r !! c).
Definition rows_to_batch (rows : list (gmap string Value)) : outcome ConnectorError (list RecordBatch) :=
  match rows with
  | [] => Ok []
  | r :: _ =>
      let fs := wasm_column <$> keys r in
      b ← as_query_error (try_new fs.*1 (built_columns fs rows)); Ok [b]
  end.
Definition execute (p : WasmPlugin) (q : SubQuery) : outcome ConnectorError (list RecordBatch) :=
  result ← call_json_fn p "execute" (query_json q);
  rows ← map_err (λ e, QueryFailed ("wasm result parse: " +:+ e)) (parse_rows result);
  rows_to_batch rows.
Definition get_schema (p : WasmPlugin) (tbl : string) : outcome ConnectorError Schema :=
  json ← call_json_fn p "get_schema" tbl;
  fields ← map_err (λ e, SchemaDiscovery ("wasm: " +:+ e)) (parse_names json);
  Ok (text_field <$> (fields : list string)).
Definition discover_schemas (p : WasmPlugin) : outcome ConnectorError (list string) :=
  json ← call_json_fn p "discover_schemas" "{}";
  map_err (λ e, SchemaDiscovery ("wasm: " +:+ e)) (parse_names json).

(** ** Directories and the registry *)

(** An entry: a directory with its manifest and the module files in it, or a
    file with its extension and stem. *)
Inductive DirEntry : Type :=
| SubDir (path : string) (manifest : option (outcome string PluginManifest)) (files : string → option WasmFile)
| PlainFile (path : string) (extension : option string) (stem : string) (file : WasmFile).

Definition load_entry (e : DirEntry) : outcome ConnectorError (list WasmPlugin) :=
  match e with
  | SubDir path (Some (Ok mf)) files =>
      if bool_decide (mf_enabled mf = Some false) then Ok []
      else match files (mf_id mf +:+ ".wasm") with
           | Some file => p ← load (mf_id mf) (path +:+ "/" +:+ mf_id mf +:+ ".wasm") file (mf_security mf); Ok [p]
           | None => Ok []
           end
  | SubDir _ _ _ => Ok []
  | PlainFile path ext stem file =>
      if bool_decide (ext = Some "wasm") then p ← load stem path file default_security; Ok [p] else Ok []
  end.
(** A plugin that fails to load is left out; a panic ends the scan. *)
Fixpoint load_plugins (es : list DirEntry) : outcome ConnectorError (list WasmPlugin) :=
  match es with
  | [] => Ok []
  | e :: es =>
      match load_entry e with
      | Ok ps => rest ← load_plugins es; Ok (ps ++ rest)
      | Err _ => load_plugins es
      | Panic => Panic
      end
  end.
Definition load_plugins_from_dir (dir : option (list DirEntry)) : outcome ConnectorError (list WasmPlugin) :=
  from_option load_plugins (Ok []) dir.
Definition load_from_dir (reg : list WasmPlugin) (dir : option (list DirEntry)) : outcome ConnectorError (list WasmPlugin) :=
  ps ← load_plugins_from_dir dir; Ok (reg ++ ps).
Definition register (reg : list WasmPlugin) (p : WasmPlugin) : list WasmPlugin := reg ++ [p].
Definition list_ids (reg : list WasmPlugin) : list string := p_id <$> reg.
End Plugins.

(** * Only checked modules are loaded, and texts cross the memory whole *)

Section Loaded.
Context (sha256_hex : bytes → string) (from_utf8 : bytes → outcome string string).

(** What loading has checked of a plugin. *)
Definition verified (p : WasmPlugin) : Prop :=
  (∀ expected, sha256 (p_security p) = Some expected → sha256_hex (f_bytes (p_file p)) = to_lowercase expected) ∧
  ∃ imports, f_module (p_file p) = Ok imports ∧ (allow_wasi (p_security p) = false → Forall (λ m, is_wasi m = false) imports).

Lemma map_err_ok {E E' A : Type} (f : E → E') (m : outcome E A) a : map_err f m = Ok a → m = Ok a.
Proof. destruct m; [by intros [= ->]|done|done]. Qed.

Lemma load_verified id path file security p : load sha256_hex from_utf8 id path file security = Ok p →
  verified p ∧ p_id p = id ∧ p_file p = file ∧ p_security p = security.
Proof.
  unfold load. intros (u & Hsha & H)%bind_ok_inv. apply bind_ok_inv in H as (imports & Him%map_err_ok & H).
  destruct (negb (allow_wasi security) && existsb is_wasi imports) eqn:Hw; [done|].
  apply bind_ok_inv in H as (t & _ & [= <-]). split; [|done]. split; cbn.
  - intros expected He. rewrite He in Hsha. apply map_err_ok in Hsha. unfold verify_wasm_sha256 in Hsha.
    destruct (String.eqb_spec (sha256_hex (f_bytes file)) (to_lowercase expected)); [done|done].
  - exists imports. split; [done|]. intros Ha. rewrite Ha in Hw. cbn in Hw. clear - Hw.
    induction imports as [|m imports IH]; [apply Forall_nil_2|]. cbn in Hw. apply orb_false_iff in Hw as [Hm Hw]. constructor; [done|by apply IH].
Qed.

(** The plugin a directory entry asks for, with the limits it gives. *)
Definition entry_security (e : DirEntry) (id : string) : option PluginSecurityConfig :=
  match e with
  | SubDir _ (Some (Ok mf)) _ => if bool_decide (mf_id mf = id ∧ mf_enabled mf ≠ Some false) then Some (mf_security mf) else None
  | PlainFile _ (Some ext) stem _ => if bool_decide (ext = "wasm" ∧ stem = id) then Some default_security else None
  | _ => None
  end.

Lemma load_entry_verified e ps : load_entry sha256_hex from_utf8 e = Ok ps →
  Forall (λ p, verified p ∧ entry_security e (p_id p) = Some (p_security p)) ps.
Proof.
  destruct e as [path [[mf| |]|] files|path ext stem file]; cbn [load_entry]; try (intros [= <-]; apply Forall_nil_2).
  - case_bool_decide as He; [intros [= <-]; apply Forall_nil_2|]. destruct (files _) as [file|]; [|intros [= <-]; apply Forall_nil_2].
    intros (p & (Hv & Hi & _ & Hs)%load_verified & [= <-])%bind_ok_inv. constructor; [|apply Forall_nil_2]. split; [done|]. cbn.
    by rewrite bool_decide_eq_true_2, Hs.
  - case_bool_decide as He; [|intros [= <-]; apply Forall_nil_2]. subst ext.
    intros (p & (Hv & Hi & _ & Hs)%load_verified & [= <-])%bind_ok_inv. constructor; [|apply Forall_nil_2]. split; [done|]. cbn.
    by rewrite bool_decide_eq_true_2, Hs.
Qed.

Lemma load_plugins_verified es : ∀ ps, load_plugins sha256_hex from_utf8 es = Ok ps →
  Forall (λ p, verified p ∧ ∃ e, e ∈ es ∧ entry_security e (p_id p) = Some (p_security p)) ps.
Proof.
  induction es as [|e es IH]; cbn [load_plugins]; intros ps; [intros [= <-]; apply Forall_nil_2|].
  assert (Hmono : ∀ l, Forall (λ p, verified p ∧ ∃ e, e ∈ es ∧ entry_security e (p_id p) = Some (p_security p)) l →
    Forall (λ p, verified p ∧ ∃ e', e' ∈ e :: es ∧ entry_security e' (p_id p) = Some (p_security p)) l).
  { intros l Hl. eapply Forall_impl; [exact Hl|]. intros p [Hv (e' & He' & Hs)]. split; [done|]. exists e'. split; [by right|done]. }
  destruct (load_entry sha256_hex from_utf8 e) as [qs|err|] eqn:El; [|by intros H; apply Hmono, IH|done].
  intros (rest & Hrest & [= <-])%bind_ok_inv. apply Forall_app. split; [|by apply Hmono, IH].
  eapply Forall_impl; [exact (load_entry_verified e qs El)|]. intros p [Hv Hs]. split; [done|]. exists e. split; [left|done].
Qed.

(** Only checked modules become connectors.  Every plugin of a registry
    filled from directories has the limits of its manifest, or the default ones
    when it is a bare file, its content has the SHA-256 sum these ask for, and
    it imports nothing of WASI unless they allow it; a plugin that is disabled
    is not loaded. *)
Theorem plugins_are_verified reg dir reg' :
  Forall verified reg → load_from_dir sha256_hex from_utf8 reg dir = Ok reg' →
  Forall verified reg' ∧ reg `prefix_of` reg' ∧
  ∀ p, p ∈ drop (length reg) reg' → ∃ es e, dir = Some es ∧ e ∈ es ∧ entry_security e (p_id p) = Some (p_security p).
Proof.
  intros Hreg. unfold load_from_dir. intros (ps & Hps & [= <-])%bind_ok_inv. rewrite drop_app_length.
  assert (Hall : Forall (λ p, verified p ∧ ∃ es e, dir = Some es ∧ e ∈ es ∧ entry_security e (p_id p) = Some (p_security p)) ps).
  { destruct dir as [es|]; cbn in Hps; [|injection Hps as <-; apply Forall_nil_2].
    eapply Forall_impl; [exact (load_plugins_verified es ps Hps)|]. intros p [Hv (e & He & Hs)]. split; [done|]. by exists es, e. }
  split; [apply Forall_app; split; [done|]; eapply Forall_impl; [exact Hall|]; by intros p []|].
  split; [by eexists|]. intros p Hp. rewrite Forall_forall in Hall. by apply Hall.
Qed.
End Loaded.

Lemma plugins_are_verified_witness :
  let inst := mkInstance (Some [116%N]) None (Some (λ m, Ok (0%Z, 1%Z, m))) (λ _, None) in
  let file := mkFile [7%N] (Ok ["env"]) (λ _, Ok inst) in
  let mf := mkManifest "a" None (mkSecurity (Some "AB") None None None false) in
  ∃ reg, load_from_dir (λ _, "ab") (λ _, Ok "t") [] (Some [SubDir "d" (Some (Ok mf)) (λ _, Some file)]) = Ok reg ∧
    length reg = 1 ∧ Forall (verified (λ _, "ab")) reg.
Proof.
  intros inst file mf. eexists. split; [vm_compute; reflexivity|]. split; [reflexivity|].
  refine (proj1 (plugins_are_verified (λ _, "ab") (λ _, Ok "t") [] (Some [SubDir "d" (Some (Ok mf)) (λ _, Some file)]) _ _ _)).
  - apply Forall_nil_2.
  - vm_compute. reflexivity.
Defined.

(** ** The exchange *)

Lemma as_usize_id x : (0 ≤ x < 2 ^ 64)%Z → as_usize x = x.
Proof. intros H. apply Z.mod_small. lia. Qed.

Lemma usize_add_id a b : (0 ≤ a)%Z → (0 ≤ b)%Z → (a + b < 2 ^ 64)%Z → usize_add a b = (a + b)%Z.
Proof. intros. apply Z.mod_small. lia. Qed.

Lemma bytes_of_length s : length (bytes_of s) = String.length s.
Proof. unfold bytes_of. rewrite length_fmap. induction s; cbn; congruence. Qed.

(** The memory with a text written at a place. *)
Definition written (a : nat) (src m : bytes) : bytes := take a m ++ src ++ drop (a + length src) m.

Lemma written_holds a src m : a + length src ≤ length m → take (length src) (drop a (written a src m)) = src ∧ length (written a src m) = length m.
Proof.
  intros H. unfold written. split.
  - rewrite drop_app_length' by (rewrite length_take; lia). apply take_app_length.
  - rewrite !length_app, length_take, length_drop. lia.
Qed.

Lemma copy_into_written {E} a src m : a + length src ≤ length m → (Z.of_nat (length m) < 2 ^ 64)%Z →
  @copy_into E (Z.of_nat a) src m = Ok (written a src m).
Proof.
  intros H Hm. unfold copy_into. rewrite usize_add_id by lia.
  rewrite (proj2 (Z.leb_le _ _)), (proj2 (Z.leb_le _ _)) by lia. cbn [andb]. unfold written. by rewrite Nat2Z.id, <- Nat2Z.inj_add, Nat2Z.id.
Qed.

Lemma read_output_inside from_utf8 e u ptr len data : (Z.of_nat ptr < 2 ^ 31)%Z → (Z.of_nat len < 2 ^ 31)%Z →
  read_output from_utf8 e u (Z.of_nat ptr) (Z.of_nat len) data =
    if bool_decide (ptr + len ≤ length data) then map_err u (from_utf8 (take len (drop ptr data))) else Err e.
Proof.
  intros Hp Hl. unfold read_output, slice. rewrite !as_usize_id, usize_add_id by lia. case_bool_decide as Hb.
  - rewrite (proj2 (Z.ltb_ge _ _)), (proj2 (Z.leb_le _ _)), (proj2 (Z.leb_le _ _)) by lia. cbn [andb mbind outcome_bind].
    replace (Z.of_nat ptr + Z.of_nat len - Z.of_nat ptr)%Z with (Z.of_nat len) by lia. by rewrite !Nat2Z.id.
  - rewrite (proj2 (Z.ltb_lt _ _)) by lia. done.
Qed.

(** Texts cross the memory of a module whole and within its bounds.  When
    a module allocates room for the input inside its memory and answers with a
    pointer and a length that are not negative, the exported function finds
    exactly the input at the pointer it is given, and the call returns exactly
    the bytes the answer points at, or an error when they are not all inside
    the memory; it does not panic. *)
Theorem wasm_call_exchanges from_utf8 p name input inst mem alloc func a m1 op ol m3 :
  (N.of_nat (String.length input) ≤ WASM_MAX_INPUT_SIZE)%N →
  f_instance (p_file p) (default WASM_FUEL_LIMIT (max_fuel (p_security p))) = Ok inst →
  i_memory inst = Some mem → i_alloc inst = Some alloc → i_func inst name = Some func →
  let len := String.length input in
  alloc (Z.of_nat len) mem = Ok (Z.of_nat a, m1) → a + len ≤ length m1 → (Z.of_nat (length m1) < 2 ^ 32)%Z →
  let m2 := written a (bytes_of input) m1 in
  func (Z.of_nat a) (Z.of_nat len) m2 = Ok (Z.of_nat op, Z.of_nat ol, m3) → (Z.of_nat op < 2 ^ 31)%Z → (Z.of_nat ol < 2 ^ 31)%Z →
  take len (drop a m2) = bytes_of input ∧ length m2 = length m1 ∧
  call_json_fn from_utf8 p name input =
    if bool_decide (op + ol ≤ length m3)
    then map_err (λ e, QueryFailed ("wasm: invalid utf8: " +:+ e)) (from_utf8 (take ol (drop op m3)))
    else Err (QueryFailed ("wasm " +:+ name +:+ ": output out of bounds")).
Proof.
  intros Hsize Hi Hm Ha Hf len Halloc Hin Hbound m2 Hfun Hop Hol. pose proof (bytes_of_length input) as Hlen. fold len in Hlen.
  destruct (written_holds a (bytes_of input) m1) as [H1 H2]; [lia|]. rewrite Hlen in H1. split; [exact H1|]. split; [exact H2|].
  unfold call_json_fn. rewrite (proj2 (N.ltb_ge _ _)) by exact Hsize. rewrite Hi. cbn [map_err mbind outcome_bind].
  rewrite Hm, Ha, Hlen. cbn [ok_or mbind outcome_bind]. rewrite Halloc. cbn [map_err mbind outcome_bind fst snd].
  rewrite as_usize_id, copy_into_written by lia. cbn [mbind outcome_bind]. rewrite Hf. cbn [ok_or mbind outcome_bind].
  fold m2. rewrite Hfun. cbn [map_err mbind outcome_bind fst snd]. by rewrite read_output_inside.
Qed.

(** A module that returns the bytes it was given. *)
Definition echo : Instance_ :=
  mkInstance (Some (replicate 8 0%N)) (Some (λ _ m, Ok (1%Z, m))) None (λ _, Some (λ p l m, Ok (p, l, m))).

Lemma wasm_call_exchanges_witness :
  call_json_fn (λ b, Ok (String.string_of_list_ascii (ascii_of_N <$> b))) (mkPlugin "e" "t" (mkFile [] (Ok []) (λ _, Ok echo)) default_security) "f" "{}" = Ok "{}".
Proof.
  refine (proj2 (proj2 (wasm_call_exchanges (λ b, Ok (String.string_of_list_ascii (ascii_of_N <$> b)))
    (mkPlugin "e" "t" (mkFile [] (Ok []) (λ _, Ok echo)) default_security) "f" "{}" echo (replicate 8 0%N)
    (λ _ m, Ok (1%Z, m)) (λ p l m, Ok (p, l, m)) 1 (replicate 8 0%N) 1 2 [0;123;125;0;0;0;0;0]%N _ _ _ _ _ _ _ _ _ _ _))); try reflexivity; first [cbn; lia | vm_compute; done].
Defined.

(** A negative pointer passes the check of the bounds and panics: the sum of
    the cast pointer and the length wraps to a small number. *)
Lemma negative_pointer_panics from_utf8 e u data : read_output from_utf8 e u (-1) 1 data = Panic.
Proof. unfold read_output, slice. change (usize_add (as_usize (-1)) (as_usize 1)) with 0%Z. by rewrite (proj2 (Z.ltb_ge _ _)) by lia. Qed.

(** The input is copied to the allocated pointer without a check. *)
Lemma allocation_outside_panics {E} a src m : length m < a + length src → (Z.of_nat a + Z.of_nat (length src) < 2 ^ 64)%Z →
  @copy_into E (Z.of_nat a) src m = Panic.
Proof. intros H Hb. unfold copy_into. rewrite usize_add_id by lia. rewrite (proj2 (Z.leb_gt (_ + _) _)) by lia. by rewrite andb_false_r. Qed.

(** The filter of a query is not sent. *)
Lemma filter_is_not_sent `{J : JsonOps} t ps f f' l :
  query_json (mkSubQuery t ps f [] [] None [] l None None) = query_json (mkSubQuery t ps f' [] [] None [] l None None).
Proof. done. Qed.
