(* ===== verification/Kafka.v ===== *)
(** * Kafka: messages of a topic as rows

    Models [crates/fuse-connectors/kafka/src/lib.rs]: the filter on messages,
    the loop over the partitions and the columns built from the messages.  The
    broker and its client are parameters: the partitions of a topic, their
    first and last offsets and the messages one fetch returns. *)

From S2P Require Import Prelude Strs Json Arrow ArrowRef Connector Tabular QueryText.
From stdpp Require Import base list strings sets.
From Stdlib Require Import NArith ZArith Lia Ascii SpecFloat.

Record Message : Type := mkMessage { msg_key : option string; msg_offset : Z; msg_ts : Z; msg_payload : option string }.

Class KafkaBroker : Type := {
  (** why the client cannot be built *)
  broker_error : option string;
  (** the topics and the number of their partitions, or an error *)
  broker_topics : string + list (string * nat);
  (** why a partition cannot be reached *)
  partition_error : string → nat → option string;
  earliest : string → nat → option Z;
  latest : string → nat → option Z;
  (** what one fetch from an offset returns; the last argument is how long
      the broker may wait *)
  fetch_records : string → nat → Z → Z → string + list Message;
  (** the text of a member of a JSON payload *)
  payload_field : string → string → option string;
}.

(** ** [matches_filter] *)

Definition matches_key (op : ComparisonOp) (k v : string) : bool :=
  match op with
  | OpEq => bool_decide (k = v)
  | OpNeq => bool_decide (k ≠ v)
  | OpLike => str_contains v k
  | _ => true
  end.

Definition matches_timestamp (op : ComparisonOp) (t v : Z) : bool :=
  match op with
  | OpEq => (t =? v)%Z
  | OpGt => (v <? t)%Z
  | OpGte => (v <=? t)%Z
  | OpLt => (t <? v)%Z
  | OpLte => (t <=? v)%Z
  | _ => true
  end.

Fixpoint matches_filter (f : FilterExpr) (key : option string) (timestamp : Z) : bool :=
  match f with
  | FComparison field op value =>
      if bool_decide (field = "_key") then
        match value with SUtf8 v => matches_key op (default "" key) v | _ => true end
      else if bool_decide (field = "_timestamp") then
        match value with SInt64 v => matches_timestamp op timestamp v | _ => true end
      else true
  | FAnd a b => matches_filter a key timestamp && matches_filter b key timestamp
  | FOr a b => matches_filter a key timestamp || matches_filter b key timestamp
  | FNot e => negb (matches_filter e key timestamp)
  | _ => true
  end.

Definition passes (f : option FilterExpr) (m : Message) : bool :=
  match f with Some f => matches_filter f (msg_key m) (msg_ts m) | None => true end.

Section Consume.
Context `{K : ArrowKernels} `{B : KafkaBroker}.

(** ** The loop *)

(** The messages of one fetch, until there are enough. *)
Fixpoint take_messages (f : option FilterExpr) (max : nat) (pid : nat) (kept : list (nat * Message)) (l : list Message)
    : list (nat * Message) :=
  match l with
  | [] => kept
  | m :: l =>
      if max <=? length kept then kept
      else take_messages f max pid (if passes f m then kept ++ [(pid, m)] else kept) l
  end.

Fixpoint consume_partitions (topic : string) (f : option FilterExpr) (max : nat) (pids : list nat) (kept : list (nat * Message))
    : outcome ConnectorError (list (nat * Message)) :=
  match pids with
  | [] => Ok kept
  | pid :: pids =>
      if max <=? length kept then Ok kept
      else
        match partition_error topic pid with
        | Some e => Err (Connection ("kafka partition " +:+ pretty.pretty (N.of_nat pid) +:+ ": " +:+ e))
        | None =>
            let start := default 0%Z (earliest topic pid) in
            let stop := default 0%Z (latest topic pid) in
            if (stop <=? start)%Z then consume_partitions topic f max pids kept
            else
              match fetch_records topic pid start (as_i32 (N.of_nat (max - length kept))) with
              | inl e => Err (QueryFailed ("kafka fetch: " +:+ e))
              | inr l => consume_partitions topic f max pids (take_messages f max pid kept l)
              end
        end
  end.

(** ** The columns *)

Definition key_col : Field * (nat * Message → cell) := (mkField "_key" Utf8 true, λ x, VUtf8 <$> msg_key x.2).
Definition partition_col : Field * (nat * Message → cell) := (mkField "_partition" Int64 false, λ x, Some (VInt (Z.of_nat x.1))).
Definition offset_col : Field * (nat * Message → cell) := (mkField "_offset" Int64 false, λ x, Some (VInt (msg_offset x.2))).
Definition timestamp_col : Field * (nat * Message → cell) := (mkField "_timestamp" Int64 false, λ x, Some (VInt (msg_ts x.2))).
Definition payload_col : Field * (nat * Message → cell) := (mkField "_payload" Utf8 true, λ x, VUtf8 <$> msg_payload x.2).
Definition json_col (jf : string) : Field * (nat * Message → cell) :=
  (mkField jf Utf8 true, λ x, VUtf8 <$> (msg_payload x.2 ≫= λ p, payload_field p jf)).

Definition kafka_schema : Schema := (key_col.1 :: partition_col.1 :: offset_col.1 :: timestamp_col.1 :: [payload_col.1]).

(** The columns a projection asks for, the metadata first. *)
Definition kafka_columns (projections : list string) : list (Field * (nat * Message → cell)) :=
  let all := bool_decide (projections = []) in
  let wanted c := if all || bool_decide (name c.1 ∈ projections) then [c] else [] in
  wanted key_col ++ wanted partition_col ++ wanted offset_col ++ wanted timestamp_col ++ wanted payload_col ++
  (if all then [] else json_col <$> filter (λ p, starts_with "_" p = false) projections).

(** [consume_topic]. *)
Definition consume_topic (topic : string) (projections : list string) (f : option FilterExpr) (lim : option N)
    : outcome ConnectorError (list RecordBatch) :=
  match broker_error, broker_topics with
  | Some e, _ => Err (Connection ("kafka: " +:+ e))
  | None, inl e => Err (Connection ("kafka topics: " +:+ e))
  | None, inr topics =>
      match List.find (λ t, bool_decide (t.1 = topic)) topics with
      | None => Err (QueryFailed ("topic '" +:+ topic +:+ "' not found"))
      | Some (_, partitions) =>
          kept ← consume_partitions topic f (N.to_nat (default 1000%N lim)) (seq 0 partitions) [];
          if bool_decide (length kept = 0) then Ok []
          else
            let fs := kafka_columns projections in
            if bool_decide (length fs = 0) then Ok []
            else match try_new fs.*1 (built_columns fs kept) with
                 | Ok b => Ok [b]
                 | Err e => Err (QueryFailed ("arrow: " +:+ e))
                 | Panic => Panic
                 end
      end
  end.

Definition kafka_execute (q : SubQuery) : outcome ConnectorError (list RecordBatch) :=
  consume_topic (table q) (projections q) (filter_expr q) (limit q).
End Consume.

(** ** What is returned *)

Lemma take_messages_spec f max pid l : ∀ kept, length kept ≤ max →
  take_messages f max pid kept l = kept ++ take (max - length kept) ((λ m, (pid, m)) <$> filter (λ m, passes f m = true) l).
Proof.
  induction l as [|m l IH]; intros kept Hk; cbn [take_messages]; [cbn; by rewrite take_nil, app_nil_r|].
  destruct (Nat.leb_spec max (length kept)).
  { replace (max - length kept) with 0 by lia. by rewrite app_nil_r. }
  destruct (passes f m) eqn:Hp.
  - rewrite filter_cons_True, IH by (done || rewrite length_app; cbn; lia). rewrite length_app. cbn [length fmap list_fmap].
    replace (max - length kept) with (S (max - (length kept + 1))) by lia. by rewrite <- app_assoc.
  - rewrite filter_cons_False, IH by (done || congruence || lia). done.
Qed.

Section Consumed.
Context `{K : ArrowKernels, !ArrowLaws K} `{B : KafkaBroker}.

(** The messages of a topic, partition by partition, as one fetch gives them. *)
Definition partition_messages (topic : string) (fetched : nat → list Message) (pid : nat) : list (nat * Message) :=
  if (default 0 (latest topic pid) <=? default 0 (earliest topic pid))%Z then [] else (λ m, (pid, m)) <$> fetched pid.
Definition topic_messages (topic : string) (fetched : nat → list Message) (partitions : nat) : list (nat * Message) :=
  seq 0 partitions ≫= partition_messages topic fetched.

(** Every partition answers, however long it may wait. *)
Definition answers (topic : string) (fetched : nat → list Message) : Prop :=
  ∀ pid, partition_error topic pid = None ∧ ∀ wait, fetch_records topic pid (default 0%Z (earliest topic pid)) wait = inr (fetched pid).

Definition passing (f : option FilterExpr) (l : list (nat * Message)) : list (nat * Message) := filter (λ x, passes f x.2 = true) l.

Lemma passing_tagged f pid l : passing f ((λ m, (pid, m)) <$> l) = (λ m, (pid, m)) <$> filter (λ m, passes f m = true) l.
Proof. unfold passing. by rewrite list_filter_fmap. Qed.

Lemma consume_spec topic f max fetched pids : answers topic fetched → ∀ kept, length kept ≤ max →
  consume_partitions topic f max pids kept =
    Ok (kept ++ take (max - length kept) (passing f (pids ≫= partition_messages topic fetched))).
Proof.
  intros Ha. induction pids as [|pid pids IH]; intros kept Hk; cbn [consume_partitions]; [cbn; by rewrite take_nil, app_nil_r|].
  destruct (Nat.leb_spec max (length kept)).
  { replace (max - length kept) with 0 by lia. by rewrite app_nil_r. }
  destruct (Ha pid) as [-> Hf]. rewrite Hf. cbn [mbind list_bind]. unfold passing. rewrite filter_app. fold (passing f).
  unfold partition_messages at 1. destruct (default 0 (latest topic pid) <=? default 0 (earliest topic pid))%Z; [by rewrite IH|].
  fold (passing f ((λ m, (pid, m)) <$> fetched pid)). rewrite passing_tagged, take_messages_spec by lia.
  set (mine := (λ m, (pid, m)) <$> filter (λ m, passes f m = true) (fetched pid)).
  rewrite IH by (rewrite length_app, length_take; lia). fold (passing f (pids ≫= partition_messages topic fetched)).
  rewrite length_app, length_take, <- app_assoc. do 2 f_equal. rewrite take_app. do 2 f_equal. lia.
Qed.

(** The rows of the returned batches. *)
Definition kafka_rows (bs : list RecordBatch) : list (list cell) := bs ≫= batch_rows.

Lemma kafka_columns_nullable ps : Forall (λ c : Field * (nat * Message → cell), nullable c.1 = true ∨ ∀ r, c.2 r ≠ None) (kafka_columns ps).
Proof.
  assert (∀ (b : bool) (c : Field * (nat * Message → cell)), nullable c.1 = true ∨ (∀ r, c.2 r ≠ None) →
    Forall (λ c : Field * (nat * Message → cell), nullable c.1 = true ∨ ∀ r, c.2 r ≠ None) (if b then [c] else [])) as Hone.
  { intros [] c Hc; [by apply Forall_singleton|constructor]. }
  unfold kafka_columns. repeat apply Forall_app_2; [apply Hone; first [by left|by right]..|].
  destruct (bool_decide _); [constructor|]. apply Forall_fmap, Forall_true. intros jf. by left.
Qed.
End Consumed.

(** ** Which messages the filter lets through *)

(** Comparisons of texts and of integers are those of the values. *)
Record plain_cmp (cmp : ComparisonOp → ScalarValue → ScalarValue → bool) : Prop := {
  cmp_text_eq a b : cmp OpEq (SUtf8 a) (SUtf8 b) = bool_decide (a = b);
  cmp_text_neq a b : cmp OpNeq (SUtf8 a) (SUtf8 b) = bool_decide (a ≠ b);
  cmp_int op a b : op ∈ [OpEq; OpGt; OpGte; OpLt; OpLte] → cmp op (SInt64 a) (SInt64 b) = matches_timestamp op a b;
}.

(** The columns of a message. *)
Definition of_message (env : string → ScalarValue) (m : Message) : Prop :=
  env "_key" = from_option SUtf8 Null (msg_key m) ∧ env "_timestamp" = SInt64 (msg_ts m).

(** The filters that are decided exactly: orders of the timestamp, and tests
    of a key that is there. *)
Fixpoint decided (keyed : bool) (f : FilterExpr) : bool :=
  match f with
  | FComparison field op (SInt64 _) => bool_decide (field = "_timestamp") && bool_decide (op ∈ [OpEq; OpGt; OpGte; OpLt; OpLte])
  | FComparison field op (SUtf8 _) => bool_decide (field = "_key") && keyed && bool_decide (op ∈ [OpEq; OpNeq])
  | FAnd a b | FOr a b => decided keyed a && decided keyed b
  | FNot e => decided keyed e
  | _ => false
  end.

(** The filters that lose no message: no pattern on the key, and nothing but
    decided filters under a negation. *)
Fixpoint lossless (keyed : bool) (f : FilterExpr) : bool :=
  match f with
  | FComparison field op _ => negb (bool_decide (field = "_key") && bool_decide (op = OpLike))
  | FAnd a b | FOr a b => lossless keyed a && lossless keyed b
  | FNot e => decided keyed e
  | _ => true
  end.

Section Filtering.
Context (cmp : ComparisonOp → ScalarValue → ScalarValue → bool) (Hcmp : plain_cmp cmp).

Lemma decided_exact env m f : of_message env m → decided (bool_decide (is_Some (msg_key m))) f = true →
  eval_filter cmp env f = Some (matches_filter f (msg_key m) (msg_ts m)).
Proof.
  intros [Hk Ht]. induction f as [a IHa b IHb|a IHa b IHb|e IH|field op v|field vs|field|field]; cbn [decided matches_filter eval_filter]; [..|done|done|done].
  - intros [Ha Hb]%andb_prop. rewrite IHa, IHb by done. by destruct (matches_filter a _ _), (matches_filter b _ _).
  - intros [Ha Hb]%andb_prop. rewrite IHa, IHb by done. by destruct (matches_filter a _ _), (matches_filter b _ _).
  - intros He. by rewrite IH.
  - destruct v as [| |z| |s]; try done.
    + intros [Hf Ho]%andb_prop. apply bool_decide_eq_true in Hf as ->. apply bool_decide_eq_true in Ho.
      rewrite Ht. cbn. by rewrite (cmp_int _ Hcmp).
    + intros [[Hf Hy]%andb_prop Ho]%andb_prop. apply bool_decide_eq_true in Hf as ->. apply bool_decide_eq_true in Ho, Hy as [k Hy].
      rewrite Hk, Hy. cbn. apply elem_of_cons in Ho as [->|[->|Ho%not_elem_of_nil]%elem_of_cons]; [|by rewrite (cmp_text_neq _ Hcmp)|done].
      by rewrite (cmp_text_eq _ Hcmp).
Qed.

Lemma lossless_keeps env m f : of_message env m → lossless (bool_decide (is_Some (msg_key m))) f = true →
  keeps cmp env f → matches_filter f (msg_key m) (msg_ts m) = true.
Proof.
  intros Hm. induction f as [a IHa b IHb|a IHa b IHb|e IH|field op v|field vs|field|field]; cbn [lossless matches_filter]; [..|done|done|done].
  - intros [Ha Hb]%andb_prop [Ka Kb]%keeps_and. by rewrite IHa, IHb.
  - intros [Ha Hb]%andb_prop [Ka|Kb]%keeps_or; [by rewrite IHa|by rewrite IHb, orb_true_r].
  - intros He Hke. unfold keeps in Hke. cbn in Hke. rewrite (decided_exact env m e Hm He) in Hke. by injection Hke.
  - intros Hl Hke. unfold keeps in Hke. cbn in Hke. destruct Hm as [Hk Ht].
    destruct (bool_decide (field = "_key")) eqn:Ef; [apply bool_decide_eq_true in Ef as ->|].
    + rewrite Hk in Hke. destruct v as [| | | |s]; [done..|]. destruct (msg_key m) as [k|]; [|done]. cbn in Hke.
      destruct op; cbn; try done; injection Hke; [by rewrite (cmp_text_eq _ Hcmp)|by rewrite (cmp_text_neq _ Hcmp)].
    + destruct (bool_decide (field = "_timestamp")) eqn:Eg; [apply bool_decide_eq_true in Eg as ->|done].
      rewrite Ht in Hke. destruct v as [| |z| |]; [done..| |done|done]. cbn in Hke.
      destruct op; try done; rewrite (cmp_int _ Hcmp) in Hke by set_solver; by injection Hke.
Qed.
End Filtering.

(** A topic is read as its messages: with the partitions answering, a
    query returns the cells of exactly the fetched messages that pass its
    filter, partition by partition and in order, up to its limit (a thousand
    without one); and a message the filter keeps passes it, for filters
    without a pattern on the key and with only decided tests under NOT. *)
Theorem kafka_returns_messages `{K : ArrowKernels, !ArrowLaws K} `{B : KafkaBroker} q topics partitions fetched :
  broker_error = None → broker_topics = inr topics → List.find (λ t, bool_decide (t.1 = table q)) topics = Some (table q, partitions) →
  answers (table q) fetched → kafka_columns (projections q) ≠ [] →
  (∃ bs, kafka_execute q = Ok bs ∧
     kafka_rows bs = entry_cells (kafka_columns (projections q)) <$>
       take (N.to_nat (default 1000%N (limit q))) (passing (filter_expr q) (topic_messages (table q) fetched partitions))) ∧
  (∀ cmp env m f, plain_cmp cmp → of_message env m → filter_expr q = Some f →
     lossless (bool_decide (is_Some (msg_key m))) f = true → keeps cmp env f → passes (filter_expr q) m = true).
Proof.
  intros He Ht Hf Ha Hc. split; [|intros cmp env m f Hcmp Hm -> Hl Hk; by apply (lossless_keeps cmp Hcmp env)].
  unfold kafka_execute, consume_topic. rewrite He, Ht, Hf, (consume_spec _ _ _ fetched) by (done || cbn; lia).
  cbn [mbind outcome_bind app length]. rewrite Nat.sub_0_r. fold (topic_messages (table q) fetched partitions).
  destruct (take _ _) as [|m kept]; [by exists []|]. rewrite bool_decide_eq_false_2 by done.
  rewrite bool_decide_eq_false_2 by (by destruct (kafka_columns (projections q))).
  destruct (built_batch (kafka_columns (projections q)) (m :: kept) Hc (kafka_columns_nullable _)) as (b & -> & Hb & _).
  exists [b]. split; [done|]. unfold kafka_rows. cbn. by rewrite app_nil_r, Hb.
Qed.

(** A broker with one partition of three messages. *)
Definition ex_messages : list Message :=
  [mkMessage (Some "a") 0 10 None; mkMessage (Some "b") 1 20 None; mkMessage None 2 30 None]%Z.
Definition ex_broker : KafkaBroker := {|
  broker_error := None; broker_topics := inr [("events", 1)]; partition_error := λ _ _, None;
  earliest := λ _ _, Some 0%Z; latest := λ _ _, Some 3%Z; fetch_records := λ _ _ _ _, inr ex_messages;
  payload_field := λ _ _, None |}.
Definition ex_query (f : FilterExpr) : SubQuery := mkSubQuery "events" ["_offset"] (Some f) [] [] None [] (Some 2%N) None None.
Definition ex_after : FilterExpr := FComparison "_timestamp" OpGt (SInt64 10).

Lemma kafka_returns_messages_witness :
  ∃ bs, kafka_execute (K := RefArrow) (B := ex_broker) (ex_query ex_after) = Ok bs ∧ kafka_rows bs = [[Some (VInt 1)]; [Some (VInt 2)]].
Proof.
  destruct (kafka_returns_messages (K := RefArrow) (B := ex_broker) (ex_query ex_after) [("events", 1)] 1 (λ _, ex_messages))
    as [(bs & Hbs & Hr) _]; [done|done|done|by intros pid|done|].
  exists bs. split; [exact Hbs|]. rewrite Hr. by vm_compute.
Defined.

(** A negated test of a field of the payload lets nothing through, since the
    test itself lets everything through. *)
Lemma negated_field_loses_all field op v key ts : field ≠ "_key" → field ≠ "_timestamp" →
  matches_filter (FNot (FComparison field op v)) key ts = false.
Proof. intros Hk Ht. cbn. by rewrite !bool_decide_eq_false_2 by done. Qed.

(** A pattern is looked for as it is written, its percent signs too. *)
Example like_pattern_is_substring :
  matches_filter (FComparison "_key" OpLike (SUtf8 "order-%")) (Some "order-17") 0 = false ∧
  matches_filter (FComparison "_key" OpLike (SUtf8 "17")) (Some "order-17") 0 = true.
Proof. done. Qed.
