(* ===== verification/Dynamo.v ===== *)
(** * Dynamo: filters as DynamoDB expressions

    Models [crates/fuse-connectors/dynamodb/src/expr.rs] and the query path of
    [lib.rs]: the choice between Query and Scan, the expressions with their
    name and value aliases, and the batch made of the items.  The AWS client
    is a parameter, and so is the text of a float. *)

From S2P Require Import Prelude Strs Json Arrow ArrowRef Connector Tabular QueryText.
From stdpp Require Import base list strings gmap sorting pretty.
From Stdlib Require Import NArith ZArith Lia Ascii SpecFloat.

(** [AttributeValue], the kinds the connector reads one by one. *)
Inductive AttributeValue : Type :=
| AvS (s : string)
| AvN (n : string)
| AvBool (b : bool)
| AvNull
| AvOther (debug : string).

#[export] Instance AttributeValue_eq_dec : EqDecision AttributeValue.
Proof. solve_decision. Defined.

Section Expressions.
Context (show_f64 : spec_float → string).

Definition scalar_to_av (v : ScalarValue) : option AttributeValue :=
  match v with
  | SUtf8 s => Some (AvS s)
  | SInt64 n => Some (AvN (pretty n))
  | SFloat64 f => Some (AvN (show_f64 f))
  | SBoolean b => Some (AvBool b)
  | Null => None
  end.

(** An expression, the aliases of names and the aliases of values. *)
Definition ExprResult : Type := option (string * list (string * string) * list (string * AttributeValue)).

Fixpoint build_key_condition (f : FilterExpr) (pk : string) : ExprResult :=
  match f with
  | FComparison field OpEq value =>
      if bool_decide (field = pk) then
        (λ av, ("#pk = :pk", [("#pk", pk)], [(":pk", av)])) <$> scalar_to_av value
      else None
  | FAnd l r => match build_key_condition l pk with Some x => Some x | None => build_key_condition r pk end
  | _ => None
  end.

(** The aliases given so far; their numbers are the counters. *)
Record Aliases : Type := mkAliases { a_names : list (string * string); a_values : list (string * AttributeValue); c_n : nat; c_v : nat }.

Definition name_alias (i : nat) : string := "#n" +:+ pretty (N.of_nat i).
Definition value_alias (i : nat) : string := ":v" +:+ pretty (N.of_nat i).

Definition add_name (field : string) (a : Aliases) : string * Aliases :=
  (name_alias (c_n a), mkAliases (a_names a ++ [(name_alias (c_n a), field)]) (a_values a) (S (c_n a)) (c_v a)).
Definition add_value (av : AttributeValue) (a : Aliases) : string * Aliases :=
  (value_alias (c_v a), mkAliases (a_names a) (a_values a ++ [(value_alias (c_v a), av)]) (c_n a) (S (c_v a))).

Definition op_text (op : ComparisonOp) : option string :=
  match op with
  | OpEq => Some "=" | OpNeq => Some "<>" | OpLt => Some "<" | OpLte => Some "<=" | OpGt => Some ">" | OpGte => Some ">="
  | OpLike | OpILike | OpContains => None
  end.

(** The placeholders of the values of an IN list that are not null. *)
Fixpoint in_placeholders (vals : list ScalarValue) (a : Aliases) : list string * Aliases :=
  match vals with
  | [] => ([], a)
  | v :: vals =>
      match scalar_to_av v with
      | Some av =>
          let '(va, a) := add_value av a in
          let '(ps, a) := in_placeholders vals a in (va :: ps, a)
      | None => in_placeholders vals a
      end
  end.

(** [translate]; the aliases of a part that gives no text stay. *)
Fixpoint translate (f : FilterExpr) (pk : option string) (a : Aliases) : option string * Aliases :=
  match f with
  | FAnd l r =>
      let '(le, a) := translate l pk a in
      let '(re, a) := translate r pk a in
      (match le, re with
       | Some l, Some r => Some ("(" +:+ l +:+ " AND " +:+ r +:+ ")")
       | Some l, None => Some l
       | None, Some r => Some r
       | None, None => None
       end, a)
  | FOr l r =>
      match translate l pk a with
      | (None, a) => (None, a)
      | (Some l, a) =>
          match translate r pk a with
          | (None, a) => (None, a)
          | (Some r, a) => (Some ("(" +:+ l +:+ " OR " +:+ r +:+ ")"), a)
          end
      end
  | FNot e =>
      match translate e pk a with
      | (None, a) => (None, a)
      | (Some t, a) => (Some ("NOT (" +:+ t +:+ ")"), a)
      end
  | FComparison field op value =>
      if bool_decide (pk = Some field) && bool_decide (op = OpEq) then (None, a)
      else
        match scalar_to_av value with
        | None => (None, a)
        | Some av =>
            let '(na, a) := add_name field a in
            let '(va, a) := add_value av a in
            (Some match op_text op with
                  | Some o => na +:+ " " +:+ o +:+ " " +:+ va
                  | None => "begins_with(" +:+ na +:+ ", " +:+ va +:+ ")"
                  end, a)
        end
  | FIn field vals =>
      let '(na, a) := add_name field a in
      let '(ps, a) := in_placeholders vals a in
      (match ps with [] => None | _ => Some (na +:+ " IN (" +:+ join_with ", " ps +:+ ")") end, a)
  | FIsNull field => let '(na, a) := add_name field a in (Some ("attribute_not_exists(" +:+ na +:+ ")"), a)
  | FIsNotNull field => let '(na, a) := add_name field a in (Some ("attribute_exists(" +:+ na +:+ ")"), a)
  end.

Definition build_filter_expression (f : FilterExpr) (pk : option string) : ExprResult :=
  match translate f pk (mkAliases [] [] 0 0) with
  | (Some e, a) => if String.eqb e "" then None else Some (e, a_names a, a_values a)
  | (None, _) => None
  end.

(** ** The request *)

Definition projection_expr (cols : list string) : string * list (string * string) :=
  let names := imap (λ i col, ("#p" +:+ pretty (N.of_nat i), col)) cols in (join_with ", " names.*1, names).

Record DynamoRequest : Type := mkDynamo {
  dr_table : string; key_condition : option string; filter_expression : option string; projection : option string;
  attribute_names : list (string * string); attribute_values : list (string * AttributeValue); dr_limit : option Z }.

Definition build_request (tbl : string) (q : SubQuery) (key : ExprResult) (pk : option string) : DynamoRequest :=
  let fe := filter_expr q ≫= λ f, build_filter_expression f (match key with Some _ => pk | None => None end) in
  let pe := match projections q with [] => None | cols => Some (projection_expr cols) end in
  mkDynamo tbl ((λ x, x.1.1) <$> key) ((λ x, x.1.1) <$> fe) (fst <$> pe)
    (from_option (λ x, x.1.2) [] key ++ from_option (λ x, x.1.2) [] fe ++ from_option snd [] pe)
    (from_option snd [] key ++ from_option snd [] fe) (as_i32 <$> limit q).

(** ** The items *)

Abbreviation item := (gmap string AttributeValue).

Class DynamoClient : Type := {
  table_prefix : string;
  (** the hash key that DescribeTable names *)
  partition_key : string → option string;
  send : DynamoRequest → string + list item;
  parse_f64 : string → option spec_float;
}.

Section Items.
Context `{K : ArrowKernels} `{D : DynamoClient}.

Definition attr_to_string (v : AttributeValue) : string :=
  match v with
  | AvS s => s
  | AvN n => n
  | AvBool b => if b then "true" else "false"
  | AvNull => ""
  | AvOther d => d
  end.

(** The columns: those asked for, or every attribute of the items in order. *)
Definition item_columns (q : SubQuery) (items : list item) : list string :=
  match projections q with
  | [] => merge_sort String.le (elements (⋃ (dom <$> items)))
  | ps => ps
  end.

Definition item_column (items : list item) (col : string) : Field * (item → cell) :=
  match head (omap (λ i : item, i !! col) items) with
  | Some (AvN _) => (mkField col Float64 true, λ i, match i !! col with Some (AvN s) => VFloat <$> parse_f64 s | _ => None end)
  | Some (AvBool _) => (mkField col Boolean true, λ i, match i !! col with Some (AvBool b) => Some (VBool b) | _ => None end)
  | _ => (mkField col Utf8 true, λ i, VUtf8 ∘ attr_to_string <$> i !! col)
  end.

Definition items_to_batch (items : list item) (q : SubQuery) : outcome ConnectorError (list RecordBatch) :=
  let fs := item_column items <$> item_columns q items in
  b ← as_query_error (try_new fs.*1 (built_columns fs items)); Ok [b].

Definition ddb_table (tbl : string) : string := if String.eqb table_prefix "" then tbl else table_prefix +:+ tbl.

Definition is_resource_not_found (e : string) : bool :=
  str_contains "ResourceNotFoundException" e || str_contains "resource not found" e.

(** Query when the filter fixes the partition key, Scan otherwise. *)
Definition query_request (q : SubQuery) : DynamoRequest :=
  let tbl := ddb_table (table q) in
  let pk := partition_key tbl in
  build_request tbl q (pk ≫= λ pk, filter_expr q ≫= λ f, build_key_condition f pk) pk.

Definition dynamo_execute (q : SubQuery) : outcome ConnectorError (list RecordBatch) :=
  let tbl := ddb_table (table q) in
  match send (query_request q) with
  | inl e => Err (QueryFailed (if is_resource_not_found e then "table '" +:+ tbl +:+ "' not found in DynamoDB" else e))
  | inr [] => Ok []
  | inr items => items_to_batch items q
  end.
End Items.
End Expressions.

(** * The expressions select what the filter keeps

    The documented part of DynamoDB's expression language is an inductive
    type with its text and its meaning on an item.  An item holds the values
    of a row that are not null. *)

(** ** The expression language *)

Inductive DExpr : Type :=
| DCompare (op : ComparisonOp) (n v : string)
| DIn (n : string) (vs : list string)
| DExists (n : string)
| DMissing (n : string)
| DAnd (l r : DExpr)
| DOr (l r : DExpr)
| DNot (e : DExpr).

(** The comparison operators of the expression language; it has none for patterns. *)
Definition dynamo_operator (op : ComparisonOp) : option string :=
  match op with
  | OpEq => Some "="
  | OpNeq => Some "<>"
  | OpLt => Some "<"
  | OpLte => Some "<="
  | OpGt => Some ">"
  | OpGte => Some ">="
  | _ => None
  end.
Fixpoint expr_text (e : DExpr) : string :=
  match e with
  | DCompare op n v => n +:+ " " +:+ default "" (dynamo_operator op) +:+ " " +:+ v
  | DIn n vs => n +:+ " IN (" +:+ join_with ", " vs +:+ ")"
  | DExists n => "attribute_exists(" +:+ n +:+ ")"
  | DMissing n => "attribute_not_exists(" +:+ n +:+ ")"
  | DAnd l r => "(" +:+ expr_text l +:+ " AND " +:+ expr_text r +:+ ")"
  | DOr l r => "(" +:+ expr_text l +:+ " OR " +:+ expr_text r +:+ ")"
  | DNot e => "NOT (" +:+ expr_text e +:+ ")"
  end.

Section Meaning.
(** How values compare, and what a comparison with an attribute that is not
    there gives. *)
Context (av_cmp : ComparisonOp → AttributeValue → AttributeValue → bool) (absent : ComparisonOp → bool).

(** An alias stands for what the request says. *)
Definition resolve {A : Type} (l : list (string * A)) (alias : string) : option A :=
  snd <$> List.find (λ x, bool_decide (x.1 = alias)) l.

Definition compare_at (names : list (string * string)) (values : list (string * AttributeValue)) (row : string → option AttributeValue)
    (op : ComparisonOp) (n v : string) : bool :=
  match resolve names n ≫= row, resolve values v with
  | Some x, Some y => av_cmp op x y
  | _, _ => absent op
  end.

Fixpoint dyn_eval (names : list (string * string)) (values : list (string * AttributeValue)) (row : string → option AttributeValue)
    (e : DExpr) : bool :=
  match e with
  | DCompare op n v => compare_at names values row op n v
  | DIn n vs => existsb (compare_at names values row OpEq n) vs
  | DExists n => bool_decide (is_Some (resolve names n ≫= row))
  | DMissing n => bool_decide (resolve names n ≫= row = None)
  | DAnd l r => dyn_eval names values row l && dyn_eval names values row r
  | DOr l r => dyn_eval names values row l || dyn_eval names values row r
  | DNot e => negb (dyn_eval names values row e)
  end.
End Meaning.

(** ** Aliases *)

(** The aliases in use are numbered in order. *)
Definition numbered (a : Aliases) : Prop :=
  (a_names a).*1 = name_alias <$> seq 0 (c_n a) ∧ (a_values a).*1 = value_alias <$> seq 0 (c_v a).
Definition extends (a b : Aliases) : Prop := a_names a `prefix_of` a_names b ∧ a_values a `prefix_of` a_values b.

#[export] Instance extends_preorder : PreOrder extends.
Proof. split; [by split|]. intros a b c [H1 H2] [H3 H4]. split; by etransitivity. Qed.

#[export] Instance name_alias_inj : Inj (=) (=) name_alias.
Proof. intros i j H. unfold name_alias in H. apply (inj (String.append "#n")) in H. apply (inj pretty) in H. lia. Qed.
#[export] Instance value_alias_inj : Inj (=) (=) value_alias.
Proof. intros i j H. unfold value_alias in H. apply (inj (String.append ":v")) in H. apply (inj pretty) in H. lia. Qed.

(** What the aliases stand for in a request that holds them. *)
Definition covers (a : Aliases) (names : list (string * string)) (values : list (string * AttributeValue)) : Prop :=
  (∀ k x, resolve (a_names a) k = Some x → resolve names k = Some x) ∧
  (∀ k x, resolve (a_values a) k = Some x → resolve values k = Some x).

Lemma resolve_app {A : Type} (l l' : list (string * A)) k x : resolve l k = Some x → resolve (l ++ l') k = Some x.
Proof.
  unfold resolve. induction l as [|[k' y] l IH]; cbn; [done|]. case_bool_decide; [done|]. exact IH.
Qed.

Lemma resolve_fresh {A : Type} (l l' : list (string * A)) k : k ∉ l.*1 → resolve (l ++ l') k = resolve l' k.
Proof.
  unfold resolve. induction l as [|[k' y] l IH]; cbn; intros Hk; [done|].
  apply not_elem_of_cons in Hk as [Hk Hl]. rewrite bool_decide_eq_false_2 by congruence. by apply IH.
Qed.

Lemma resolve_elem {A : Type} (l : list (string * A)) k x : resolve l k = Some x → k ∈ l.*1.
Proof.
  unfold resolve. induction l as [|[k' y] l IH]; cbn; [done|]. case_bool_decide; [intros _; subst; left|]. intros H'. right. by apply IH.
Qed.

Lemma covers_extends a b names values : extends a b → covers b names values → covers a names values.
Proof. intros [[l Hl] [l' Hl']] [Hn Hv]. rewrite Hl in Hn. rewrite Hl' in Hv. split; intros k x H; [apply Hn|apply Hv]; by apply resolve_app. Qed.

Lemma seq_fresh (f : nat → string) `{!Inj (=) (=) f} n : f n ∉ f <$> seq 0 n.
Proof. intros H. apply list_elem_of_fmap in H as (i & Hi & Hs). apply (inj f) in Hi. apply elem_of_seq in Hs. lia. Qed.

Lemma resolve_last {A : Type} (l : list (string * A)) (f : nat → string) `{!Inj (=) (=) f} n x :
  l.*1 = f <$> seq 0 n → resolve (l ++ [(f n, x)]) (f n) = Some x.
Proof. intros Hl. rewrite resolve_fresh by (rewrite Hl; apply seq_fresh, _). unfold resolve. cbn. by rewrite bool_decide_eq_true_2. Qed.

Lemma add_name_spec field a : numbered a →
  numbered (add_name field a).2 ∧ extends a (add_name field a).2 ∧
  ∀ names values, covers (add_name field a).2 names values → resolve names (add_name field a).1 = Some field.
Proof.
  intros [Hn Hv]. unfold add_name. cbn [fst snd]. split; [|split].
  - split; cbn [a_names a_values c_n c_v]; [|done]. rewrite fmap_app, Hn, seq_S, fmap_app. done.
  - split; cbn; [by apply prefix_app_r|done].
  - intros names values [H _]. by apply H, (resolve_last _ name_alias).
Qed.

Lemma add_value_spec av a : numbered a →
  numbered (add_value av a).2 ∧ extends a (add_value av a).2 ∧
  ∀ names values, covers (add_value av a).2 names values → resolve values (add_value av a).1 = Some av.
Proof.
  intros [Hn Hv]. unfold add_value. cbn [fst snd]. split; [|split].
  - split; cbn [a_names a_values c_n c_v]; [done|]. rewrite fmap_app, Hv, seq_S, fmap_app. done.
  - split; cbn; [done|by apply prefix_app_r].
  - intros names values [_ H]. by apply H, (resolve_last _ value_alias).
Qed.

(** ** What is translated *)

Section Translated.
Context (show_f64 : spec_float → string).
Abbreviation to_av := (scalar_to_av show_f64).

(** Filters of comparisons and non-empty lists of values that are not null;
    a pattern is another test here. *)
Fixpoint plain (f : FilterExpr) : bool :=
  match f with
  | FAnd l r | FOr l r => plain l && plain r
  | FNot e => plain e
  | FComparison _ op v => bool_decide (is_Some (dynamo_operator op)) && bool_decide (v ≠ Null)
  | FIn _ vs => bool_decide (vs ≠ []) && bool_decide (Null ∉ vs)
  | FIsNull _ | FIsNotNull _ => true
  end.

(** Without a test of the key for equality. *)
Fixpoint key_free (pk : option string) (f : FilterExpr) : bool :=
  match f with
  | FAnd l r | FOr l r => key_free pk l && key_free pk r
  | FNot e => key_free pk e
  | FComparison field op _ => negb (bool_decide (pk = Some field) && bool_decide (op = OpEq))
  | _ => true
  end.

(** With one test of the key for equality, as a conjunct. *)
Fixpoint keyed (pk : string) (f : FilterExpr) : bool :=
  match f with
  | FAnd l r => (keyed pk l && key_free (Some pk) r) || (key_free (Some pk) l && keyed pk r)
  | FComparison field op _ => bool_decide (field = pk) && bool_decide (op = OpEq)
  | _ => false
  end.

(** Some conjunct tests the key for equality. *)
Fixpoint key_conjunct (pk : string) (f : FilterExpr) : bool :=
  match f with
  | FAnd l r => key_conjunct pk l || key_conjunct pk r
  | FComparison field OpEq _ => bool_decide (field = pk)
  | _ => false
  end.
Lemma no_key_conjunct pk f : key_conjunct pk f = false → build_key_condition show_f64 f pk = None.
Proof.
  induction f as [l IHl r IHr|l IHl r IHr|e IH|field op v|field vs|field|field]; cbn [key_conjunct build_key_condition]; try done.
  - intros [Hl Hr]%orb_false_iff. by rewrite IHl, IHr.
  - destruct op; try done. by intros ->.
Qed.

Context (cmp : ComparisonOp → ScalarValue → ScalarValue → bool).
Context (av_cmp : ComparisonOp → AttributeValue → AttributeValue → bool) (absent : ComparisonOp → bool).

(** DynamoDB compares the values as the engine does. *)
Definition same_order : Prop := ∀ op x y x' y', to_av x = Some x' → to_av y = Some y' → av_cmp op x' y' = cmp op x y.
Context (Hcmp : same_order).

Definition item_of (env : string → ScalarValue) : string → option AttributeValue := λ f, to_av (env f).
Abbreviation holds names values env := (dyn_eval av_cmp absent names values (item_of env)).

Lemma to_av_none v : to_av v = None ↔ v = Null.
Proof. by destruct v. Qed.

(** A part of the text says what a filter says wherever the filter decides. *)
Definition says (e : DExpr) (a : Aliases) (f : FilterExpr) : Prop := ∀ names values, covers a names values →
  ∀ env x, eval_filter cmp env f = Some x → holds names values env e = x.

Lemma says_extends e a b f : extends a b → says e a f → says e b f.
Proof. intros Hab Hs names values Hc. apply Hs. by apply (covers_extends a b). Qed.

Lemma compare_at_says names values env n v field op y y' : resolve names n = Some field → resolve values v = Some y' →
  to_av y = Some y' → ∀ x, tri_cmp cmp op (env field) y = Some x → compare_at av_cmp absent names values (item_of env) op n v = x.
Proof.
  intros Hn Hv Hy x Hx. unfold compare_at. rewrite Hn, Hv. cbn. unfold item_of.
  destruct (to_av (env field)) as [x'|] eqn:E; [|apply to_av_none in E; by rewrite E in Hx].
  rewrite (Hcmp op _ _ _ _ E Hy). destruct (env field), y; cbn in Hx; try done; by injection Hx.
Qed.

(** The placeholders stand for the values of the list. *)
Lemma placeholders_spec vs : ∀ a, numbered a → Null ∉ vs →
  numbered (in_placeholders show_f64 vs a).2 ∧ extends a (in_placeholders show_f64 vs a).2 ∧
  ∀ names values, covers (in_placeholders show_f64 vs a).2 names values →
    Forall2 (λ v p, ∃ av, to_av v = Some av ∧ resolve values p = Some av) vs (in_placeholders show_f64 vs a).1.
Proof.
  induction vs as [|v vs IH]; intros a Ha Hv; cbn [in_placeholders fst snd]; [by split; [|split; [|constructor]]|].
  apply not_elem_of_cons in Hv as [Hv Hvs]. destruct (to_av v) as [av|] eqn:E; [|by apply to_av_none in E].
  destruct (add_value_spec av a Ha) as (H1 & H2 & H3). destruct (add_value av a) as [p a1]. cbn [fst snd] in *.
  destruct (IH a1 H1 Hvs) as (H4 & H5 & H6). destruct (in_placeholders show_f64 vs a1) as [ps a2]. cbn [fst snd] in *.
  split; [done|]. split; [by etransitivity|]. intros names values Hc. constructor; [|by apply (H6 names)].
  exists av. split; [done|]. apply (H3 names). by apply (covers_extends a1 a2).
Qed.

Lemma in_says names values env n field vs ps : resolve names n = Some field →
  Forall2 (λ v p, ∃ av, to_av v = Some av ∧ resolve values p = Some av) vs ps →
  ∀ x, tri_in cmp (env field) vs = Some x → existsb (compare_at av_cmp absent names values (item_of env) OpEq n) ps = x.
Proof.
  intros Hn. induction 1 as [|v p vs ps (av & Hv & Hp) _ IH]; intros x; cbn; [by intros [= <-]|]. unfold tri_in in *. cbn.
  pose proof (compare_at_says names values env n p field OpEq v av Hn Hp Hv) as Hone.
  destruct (tri_cmp cmp OpEq (env field) v) as [y|]; [rewrite (Hone y) by done|]; (destruct (foldr _ _ vs) as [z|]; [rewrite (IH z) by done|]);
    try destruct y; try destruct z; cbn; intros [= <-]; rewrite ?orb_true_r; done.
Qed.

(** A translation: the text of an expression that says what the filter says. *)
Definition translates (f : FilterExpr) (a : Aliases) (r : option string * Aliases) : Prop :=
  ∃ e, r.1 = Some (expr_text e) ∧ numbered r.2 ∧ extends a r.2 ∧ says e r.2 f.

Lemma comparison_translates field op v pk a : plain (FComparison field op v) = true → key_free pk (FComparison field op v) = true →
  numbered a → translates (FComparison field op v) a (translate show_f64 (FComparison field op v) pk a).
Proof.
  cbn [plain key_free translate]. intros [Ho Hv]%andb_prop Hk Ha. apply bool_decide_eq_true in Ho as [o Ho], Hv. apply negb_true_iff in Hk. rewrite Hk.
  destruct (to_av v) as [av|] eqn:E; [|by apply to_av_none in E].
  destruct (add_name_spec field a Ha) as (H1 & H2 & H3). destruct (add_name field a) as [na a1]. cbn [fst snd] in *.
  destruct (add_value_spec av a1 H1) as (H4 & H5 & H6). destruct (add_value av a1) as [va a2]. cbn [fst snd] in *.
  exists (DCompare op na va). cbn [fst snd expr_text].
  assert (op_text op = dynamo_operator op) as -> by by destruct op. rewrite Ho. cbn [default]. split; [done|]. split; [done|]. split; [by etransitivity|].
  intros names values Hc env x Hx. cbn [dyn_eval]. apply (compare_at_says _ _ _ _ _ field _ v av); [|by apply (H6 names)|done|done].
  apply (H3 names values). by apply (covers_extends a1 a2).
Qed.

Lemma in_translates field vs pk a : plain (FIn field vs) = true → numbered a →
  translates (FIn field vs) a (translate show_f64 (FIn field vs) pk a).
Proof.
  cbn [plain translate]. intros [Hn Hv]%andb_prop Ha. apply bool_decide_eq_true in Hn, Hv.
  destruct (add_name_spec field a Ha) as (H1 & H2 & H3). destruct (add_name field a) as [na a1]. cbn [fst snd] in *.
  destruct (placeholders_spec vs a1 H1 Hv) as (H4 & H5 & H6). destruct (in_placeholders show_f64 vs a1) as [ps a2]. cbn [fst snd] in *.
  exists (DIn na ps). assert (ps ≠ []) as Hps.
  { intros ->. specialize (H6 (a_names a2) (a_values a2) ltac:(by split)). inversion H6. by subst. }
  cbn [fst snd expr_text]. split; [by destruct ps|]. split; [done|]. split; [by etransitivity|].
  intros names values Hc env x Hx. cbn [dyn_eval]. apply (in_says _ _ _ _ field vs); [|by apply (H6 names)|done].
  apply (H3 names values). by apply (covers_extends a1 a2).
Qed.

Lemma null_translates field pk a : numbered a →
  translates (FIsNull field) a (translate show_f64 (FIsNull field) pk a) ∧
  translates (FIsNotNull field) a (translate show_f64 (FIsNotNull field) pk a).
Proof.
  intros Ha. cbn [translate]. destruct (add_name_spec field a Ha) as (H1 & H2 & H3). destruct (add_name field a) as [na a1]. cbn [fst snd] in *.
  split; [exists (DMissing na)|exists (DExists na)]; (split; [done|]); (split; [done|]); (split; [done|]);
    intros names values Hc env x [= <-]; cbn [dyn_eval]; rewrite (H3 names values Hc); cbn; unfold item_of; apply bool_decide_ext;
    rewrite <- ?not_eq_None_Some, to_av_none; tauto.
Qed.

Lemma translate_plain f pk : plain f = true → key_free pk f = true → ∀ a, numbered a → translates f a (translate show_f64 f pk a).
Proof.
  induction f as [l IHl r IHr|l IHl r IHr|e IH|field op v|field vs|field|field]; intros Hp Hk a Ha.
  1,2: cbn [plain key_free] in Hp, Hk; apply andb_prop in Hp as [Hpl Hpr], Hk as [Hkl Hkr]; cbn [translate];
    (destruct (IHl Hpl Hkl a Ha) as (el & Hel & Hnl & Hxl & Hsl)); (destruct (translate show_f64 l pk a) as [tl a1]); cbn [fst snd] in *; subst tl;
    (destruct (IHr Hpr Hkr a1 Hnl) as (er & Her & Hnr & Hxr & Hsr)); (destruct (translate show_f64 r pk a1) as [tr a2]); cbn [fst snd] in *; subst tr.
  1: exists (DAnd el er). 2: exists (DOr el er).
  1,2: (split; [done|]); (split; [done|]); (split; [by etransitivity|]);
    apply (says_extends _ _ _ _ Hxr) in Hsl; intros names values Hc env x; cbn [eval_filter dyn_eval]; specialize (Hsl names values Hc env); specialize (Hsr names values Hc env);
    (destruct (eval_filter cmp env l) as [[]|]; [rewrite (Hsl _ eq_refl)|rewrite (Hsl _ eq_refl)|]);
    (destruct (eval_filter cmp env r) as [[]|]; [rewrite (Hsr _ eq_refl)|rewrite (Hsr _ eq_refl)|]);
    cbn; intros [= <-]; rewrite ?andb_false_r, ?orb_true_r; done.
  - cbn [plain key_free] in Hp, Hk. cbn [translate]. destruct (IH Hp Hk a Ha) as (el & Hel & Hnl & Hxl & Hsl). destruct (translate show_f64 e pk a) as [tl a1].
    cbn [fst snd] in *. subst tl. exists (DNot el). split; [done|]. split; [done|]. split; [done|]. intros names values Hc env x. cbn [eval_filter dyn_eval].
    specialize (Hsl names values Hc env). destruct (eval_filter cmp env e) as [y|]; [|done]. rewrite (Hsl _ eq_refl). by intros [= <-].
  - by apply comparison_translates.
  - by apply in_translates.
  - by apply null_translates.
  - by apply null_translates.
Qed.

(** ** The key condition *)

Lemma key_free_no_condition f pk : key_free (Some pk) f = true → build_key_condition show_f64 f pk = None.
Proof.
  induction f as [l IHl r IHr|l IHl r IHr|e IH|field op v|field vs|field|field]; cbn [key_free build_key_condition]; try done.
  - intros [Hl Hr]%andb_prop. by rewrite IHl, IHr.
  - destruct op; try done. intros H. destruct (bool_decide_reflect (field = pk)) as [->|]; [|done].
    by rewrite !bool_decide_eq_true_2 in H by done.
Qed.

Definition key_result (pk : string) (av : AttributeValue) : ExprResult := Some ("#pk = :pk", [("#pk", pk)], [(":pk", av)]).

(** The filter of a keyed request: its expression is what is left when the
    equality of the key is taken out. *)
Definition splits (f : FilterExpr) (pk : string) (a : Aliases) (r : option string * Aliases) (v : ScalarValue) : Prop :=
  ∃ e, r.1 = expr_text <$> e ∧ numbered r.2 ∧ extends a r.2 ∧
    ∀ names values, covers r.2 names values → ∀ env x, env pk ≠ Null → eval_filter cmp env f = Some x →
      cmp OpEq (env pk) v && from_option (holds names values env) true e = x.

Lemma tri_cmp_some op x v : x ≠ Null → v ≠ Null → tri_cmp cmp op x v = Some (cmp op x v).
Proof. by destruct x, v. Qed.

Lemma conjunction_splits (L R : tri) k a b x :
  (∀ y, L = Some y → k && a = y) → (∀ y, R = Some y → b = y) → tri_and L R = Some x → k && (a && b) = x.
Proof.
  intros HL HR. destruct L as [y|]; [specialize (HL y eq_refl)|]; (destruct R as [z|]; [specialize (HR z eq_refl)|]); clear -HL HR;
    destruct k, a, b; cbn in *; subst; cbn; congruence.
Qed.

Lemma translate_keyed f pk : plain f = true → keyed pk f = true → ∀ a, numbered a →
  ∃ v av, to_av v = Some av ∧ build_key_condition show_f64 f pk = key_result pk av ∧ splits f pk a (translate show_f64 f (Some pk) a) v.
Proof.
  induction f as [l IHl r IHr|l IHl r IHr|e IH|field op v|field vs|field|field]; intros Hp Hk a Ha; try done.
  - cbn [plain keyed] in Hp, Hk. apply andb_prop in Hp as [Hpl Hpr]. cbn [build_key_condition translate].
    apply orb_true_iff in Hk as [[Hk Hf]%andb_prop|[Hf Hk]%andb_prop].
    + destruct (IHl Hpl Hk a Ha) as (v & av & Hv & Hb & el & Hel & Hnl & Hxl & Hsl). exists v, av. rewrite Hb. split; [done|]. split; [done|].
      destruct (translate show_f64 l (Some pk) a) as [tl a1]. cbn [fst snd] in *. subst tl.
      destruct (translate_plain r (Some pk) Hpr Hf a1 Hnl) as (er & Her & Hnr & Hxr & Hsr). destruct (translate show_f64 r (Some pk) a1) as [tr a2].
      cbn [fst snd] in *. subst tr. exists (Some (match el with Some el => DAnd el er | None => er end)). cbn [fst snd].
      split; [by destruct el|]. split; [done|]. split; [by etransitivity|]. intros names values Hc env x Hn Hx.
      pose proof (covers_extends _ _ _ _ Hxr Hc) as Hc1.
      rewrite <- (conjunction_splits _ _ _ _ _ x (λ y, Hsl names values Hc1 env y Hn) (Hsr names values Hc env) Hx). by destruct el.
    + rewrite (key_free_no_condition l) by done.
      destruct (translate_plain l (Some pk) Hpl Hf a Ha) as (el & Hel & Hnl & Hxl & Hsl). destruct (translate show_f64 l (Some pk) a) as [tl a1].
      cbn [fst snd] in *. subst tl.
      destruct (IHr Hpr Hk a1 Hnl) as (v & av & Hv & Hb & er & Her & Hnr & Hxr & Hsr). exists v, av. split; [done|]. split; [done|].
      destruct (translate show_f64 r (Some pk) a1) as [tr a2]. cbn [fst snd] in *. subst tr.
      exists (Some (match er with Some er => DAnd el er | None => el end)). cbn [fst snd].
      split; [by destruct er|]. split; [done|]. split; [by etransitivity|]. intros names values Hc env x Hn Hx. cbn [eval_filter] in Hx.
      pose proof (covers_extends _ _ _ _ Hxr Hc) as Hc1. rewrite tri_and_comm in Hx.
      rewrite <- (conjunction_splits _ _ _ _ _ x (λ y, Hsr names values Hc env y Hn) (Hsl names values Hc1 env) Hx).
      destruct er; cbn; [by rewrite (andb_comm (holds _ _ _ el))|done].
  - cbn [plain keyed] in Hp, Hk. apply andb_prop in Hk as [Hf Ho], Hp as [_ Hv]. apply bool_decide_eq_true in Hf, Ho, Hv. subst field op.
    destruct (to_av v) as [av|] eqn:E; [|by apply to_av_none in E]. exists v, av. cbn [build_key_condition translate].
    rewrite !bool_decide_eq_true_2, E by done. split; [done|]. split; [done|]. exists None. split; [done|]. split; [done|]. split; [done|].
    intros names values _ env x Hn Hx. cbn [eval_filter] in Hx. rewrite tri_cmp_some in Hx by done. injection Hx as <-. apply andb_true_r.
Qed.

(** ** The request *)

Lemma expr_text_nonempty e : String.eqb (expr_text e) "" = false.
Proof. destruct e as [op n v|n vs|n|n|l r|l r|e]; try done; cbn [expr_text]; by destruct n. Qed.

(** The aliases of the filter are those of a whole request: the key's come
    first and are named otherwise. *)
Lemma request_covers a (key_names names : list (string * string)) key_values values : numbered a →
  Forall (λ x, x.1 = "#pk") key_names → Forall (λ x : string * AttributeValue, x.1 = ":pk") key_values →
  covers a (key_names ++ a_names a ++ names) (key_values ++ a_values a ++ values).
Proof.
  assert (∀ (f : nat → string) (A : Type) (l kl l' : list (string * A)) n c k x, (∀ i, f i ≠ c) → l.*1 = f <$> seq 0 n →
    Forall (λ x, x.1 = c) kl → resolve l k = Some x → resolve (kl ++ l ++ l') k = Some x) as Hone.
  { intros f A l kl l' n c k x Hf Hl Hkl Hx. rewrite resolve_fresh; [by apply resolve_app|].
    apply resolve_elem in Hx. rewrite Hl in Hx. apply list_elem_of_fmap in Hx as (i & -> & _).
    intros Hin. apply list_elem_of_fmap in Hin as (y & Hy & Hin). rewrite Forall_forall in Hkl. rewrite (Hkl y Hin) in Hy. by apply (Hf i). }
  intros [Hn Hv] Hkn Hkv. split; intros k x; [by apply (Hone name_alias _ _ _ _ (c_n a) "#pk")|by apply (Hone value_alias _ _ _ _ (c_v a) ":pk")].
Qed.

Definition no_aliases : Aliases := mkAliases [] [] 0 0.
Lemma no_aliases_numbered : numbered no_aliases.
Proof. done. Qed.

(** What a request selects, read as its texts say. *)
Definition request_reads (r : DynamoRequest) (kc fe : option DExpr) : Prop :=
  key_condition r = expr_text <$> kc ∧ filter_expression r = expr_text <$> fe.
Definition request_selects (r : DynamoRequest) (kc fe : option DExpr) (env : string → ScalarValue) : bool :=
  from_option (holds (attribute_names r) (attribute_values r) env) true kc &&
  from_option (holds (attribute_names r) (attribute_values r) env) true fe.

Lemma scan_selects tbl q f pk : filter_expr q = Some f → plain f = true → ∃ fe, let r := build_request show_f64 tbl q None pk in
  request_reads r None fe ∧ ∀ env x, eval_filter cmp env f = Some x → request_selects r None fe env = x.
Proof.
  intros Hf Hp. assert (key_free None f = true) as Hk.
  { clear. induction f as [l IHl r IHr|l IHl r IHr|e IH| | | |]; cbn [key_free]; by rewrite ?IHl, ?IHr, ?IH. }
  destruct (translate_plain f None Hp Hk no_aliases no_aliases_numbered) as (e & He & Hn & _ & Hs). exists (Some e).
  unfold build_request, build_filter_expression, request_reads. rewrite Hf. cbn [mbind option_bind]. fold no_aliases.
  destruct (translate show_f64 f None no_aliases) as [t a]. cbn [fst snd] in *. subst t. rewrite expr_text_nonempty.
  split; [done|]. intros env x Hx. unfold request_selects. cbn [attribute_names attribute_values from_option fst snd andb].
  apply Hs; [|done]. rewrite <- (app_nil_r (a_values a)). by apply (request_covers a [] _ []).
Qed.

Lemma query_selects tbl q f pk : filter_expr q = Some f → plain f = true → keyed pk f = true →
  ∃ av fe, build_key_condition show_f64 f pk = key_result pk av ∧ let r := build_request show_f64 tbl q (key_result pk av) (Some pk) in
  request_reads r (Some (DCompare OpEq "#pk" ":pk")) fe ∧
  ∀ env x, env pk ≠ Null → eval_filter cmp env f = Some x → request_selects r (Some (DCompare OpEq "#pk" ":pk")) fe env = x.
Proof.
  intros Hf Hp Hk. destruct (translate_keyed f pk Hp Hk no_aliases no_aliases_numbered) as (v & av & Hv & Hb & e & He & Hn & _ & Hs).
  exists av, e. split; [done|]. unfold build_request, build_filter_expression, request_reads. rewrite Hf. cbn [mbind option_bind key_result]. fold no_aliases.
  destruct (translate show_f64 f (Some pk) no_aliases) as [t a]. cbn [fst snd] in *.
  assert (∀ names env, env pk ≠ Null → compare_at av_cmp absent ([("#pk", pk)] ++ names) ([(":pk", av)] ++ from_option snd [] (match e with Some e => Some (expr_text e, a_names a, a_values a) | None => None end)) (item_of env) OpEq "#pk" ":pk" = cmp OpEq (env pk) v) as Hkey.
  { intros names env Hne. apply (compare_at_says _ _ _ _ _ pk _ v av); [done..|]. apply tri_cmp_some; [done|]. intros ->. done. }
  subst t. destruct e as [e|]; cbn [fmap option_fmap option_map].
  - rewrite expr_text_nonempty. split; [done|]. intros env x Hne Hx. unfold request_selects. cbn [attribute_names attribute_values from_option fst snd dyn_eval].
    cbn [from_option snd] in Hkey. rewrite Hkey by done. refine (Hs _ _ _ env x Hne Hx).
    rewrite <- (app_nil_r (a_values a)). by apply (request_covers a [("#pk", pk)] _ [(":pk", av)]); [|apply Forall_singleton|apply Forall_singleton].
  - split; [done|]. intros env x Hne Hx. unfold request_selects. cbn [attribute_names attribute_values from_option fst snd dyn_eval].
    cbn [from_option] in Hkey. rewrite Hkey by done. refine (Hs (a_names a) (a_values a) _ env x Hne Hx). by split.
Qed.
End Translated.

(** C33: The request built for a query selects what its filter keeps, for a
    filter of comparisons without patterns ([LIKE] becomes a prefix test,
    [like_is_begins_with]), lists of values that are not empty, and null tests,
    without the value null.  When the table has a partition key, either one
    conjunct of the filter tests it for equality and the rest of the filter does
    not, or no conjunct does; a second test of the key, or one in a disjunction,
    is dropped ([second_key_value_dropped], [key_disjunction_dropped]).  Then the
    key condition and the filter expression are texts of the expression
    language, and with the aliases the request carries they decide every item
    that has the key, and for which the filter has a truth value, as the filter
    does, by Query or by Scan - if DynamoDB compares the values sent as the
    engine compares those they stand for. *)
Theorem dynamo_requests_select `{D : DynamoClient} show_f64 cmp av_cmp absent q f :
  same_order show_f64 cmp av_cmp → filter_expr q = Some f → plain f = true →
  (∀ pk, partition_key (ddb_table (table q)) = Some pk → keyed pk f = true ∨ key_conjunct pk f = false) →
  ∃ kc fe, request_reads (query_request show_f64 q) kc fe ∧
    ∀ env x, (∀ pk, partition_key (ddb_table (table q)) = Some pk → env pk ≠ Null) → eval_filter cmp env f = Some x →
      request_selects show_f64 av_cmp absent (query_request show_f64 q) kc fe env = x.
Proof.
  intros Hc Hf Hp Hk. unfold query_request. rewrite Hf. cbn [mbind option_bind].
  destruct (partition_key (ddb_table (table q))) as [pk|]; cbn [mbind option_bind].
  - destruct (Hk pk eq_refl) as [Hk'|Hk'].
    + destruct (query_selects show_f64 cmp av_cmp absent Hc (ddb_table (table q)) q f pk Hf Hp Hk') as (av & fe & -> & Hr & Hs).
      exists (Some (DCompare OpEq "#pk" ":pk")), fe. split; [done|]. intros env x Hne. apply Hs. by apply Hne.
    + rewrite (no_key_conjunct show_f64 pk f Hk'). destruct (scan_selects show_f64 cmp av_cmp absent Hc (ddb_table (table q)) q f (Some pk) Hf Hp) as (fe & Hr & Hs).
      exists None, fe. split; [done|]. intros env x _. apply Hs.
  - destruct (scan_selects show_f64 cmp av_cmp absent Hc (ddb_table (table q)) q f None Hf Hp) as (fe & Hr & Hs).
    exists None, fe. split; [done|]. intros env x _. apply Hs.
Qed.

(** A table keyed by [id]; values are compared as texts. *)
Definition ex_dynamo : DynamoClient := {| table_prefix := "prod_"; partition_key := λ _, Some "id"; send := λ _, inr []; parse_f64 := λ _, None |}.
Definition ex_av_cmp (op : ComparisonOp) (x y : AttributeValue) : bool :=
  match op with OpEq => bool_decide (x = y) | OpNeq => bool_decide (x ≠ y) | _ => false end.
Definition ex_show (_ : spec_float) : string := "0".
Definition ex_cmp (op : ComparisonOp) (x y : ScalarValue) : bool :=
  ex_av_cmp op (default AvNull (scalar_to_av ex_show x)) (default AvNull (scalar_to_av ex_show y)).
Definition ex_orders : FilterExpr :=
  FAnd (FComparison "id" OpEq (SInt64 7)) (FOr (FIn "state" [SUtf8 "new"; SUtf8 "open"]) (FNot (FIsNull "owner"))).
Definition ex_orders_query (f : FilterExpr) : SubQuery := mkSubQuery "orders" ["id"] (Some f) [] [] None [] (Some 5%N) None None.
Definition ex_row (f : string) : ScalarValue :=
  if String.eqb f "id" then SInt64 7 else if String.eqb f "state" then SUtf8 "open" else Null.

Lemma dynamo_requests_select_witness :
  ∃ kc fe, request_reads (query_request (D := ex_dynamo) ex_show (ex_orders_query ex_orders)) kc fe ∧
    request_selects ex_show ex_av_cmp (λ _, false) (query_request (D := ex_dynamo) ex_show (ex_orders_query ex_orders)) kc fe ex_row = true.
Proof.
  destruct (dynamo_requests_select (D := ex_dynamo) ex_show ex_cmp ex_av_cmp (λ _, false) (ex_orders_query ex_orders) ex_orders)
    as (kc & fe & Hr & Hs); [|done|by vm_compute|intros pk [= <-]; left; by vm_compute|].
  - intros op x y x' y' Hx Hy. unfold ex_cmp. by rewrite Hx, Hy.
  - exists kc, fe. split; [exact Hr|]. apply Hs; [by intros pk [= <-]|by vm_compute].
Defined.

(** A second test of the key is dropped: the request asks for the first value
    only, and no text is left for the other. *)
Example second_key_value_dropped :
  let r := query_request (D := ex_dynamo) ex_show (ex_orders_query (FAnd (FComparison "id" OpEq (SInt64 7)) (FComparison "id" OpEq (SInt64 8)))) in
  key_condition r = Some "#pk = :pk" ∧ filter_expression r = None ∧ attribute_values r = [(":pk", AvN "7")].
Proof. by vm_compute. Qed.

(** A disjunction that tests the key is dropped with its other half, whose
    aliases stay in the request though no text uses them. *)
Example key_disjunction_dropped :
  let r := query_request (D := ex_dynamo) ex_show (ex_orders_query
    (FAnd (FComparison "id" OpEq (SInt64 7))
       (FAnd (FOr (FComparison "state" OpEq (SUtf8 "new")) (FComparison "id" OpEq (SInt64 8))) (FIsNotNull "owner")))) in
  filter_expression r = Some "attribute_exists(#n1)" ∧ attribute_values r = [(":pk", AvN "7"); (":v0", AvS "new")].
Proof. by vm_compute. Qed.

(** A pattern becomes a prefix that keeps its percent sign. *)
Example like_is_begins_with :
  let r := query_request (D := ex_dynamo) ex_show (ex_orders_query (FComparison "owner" OpLike (SUtf8 "al%"))) in
  filter_expression r = Some "begins_with(#n0, :v0)" ∧ attribute_values r = [(":v0", AvS "al%")].
Proof. by vm_compute. Qed.
