(* ===== verification/QueryTextCorrect.v ===== *)
(** * QueryTextCorrect: theorems on the query texts

    The contents of string literals are invisible to the clause readers; the
    sources of a SQL text are exactly the qualified names after a FROM or JOIN
    that stands at a word start outside quotes; the statement splitter and the
    two cursors read back what was joined and encoded; the parenthesis of an
    IN sub-query is the one that closes it; and the cases in which a reader
    does not do what its comment says. *)

From S2P Require Import Prelude Strs Arrow Connector QueryText.
From stdpp Require Import base list strings pretty sets.
From Stdlib Require Import NArith ZArith Lia Ascii SpecFloat.

(** ** Literals *)

(** A literal of the query: its quotes doubled, between quotes. *)
Definition literal (s : string) : string :=
  String SQUOTE (replace (String SQUOTE "") (String SQUOTE (String SQUOTE "")) s) +:+ String SQUOTE "".

Definition no_quote (s : string) : Prop := str_all (λ a, negb (Ascii.eqb a SQUOTE)) s = true.
Definition no_quote_first (s : string) : Prop :=
  match s with String a _ => a ≠ SQUOTE | EmptyString => True end.

(** A query as a text without quotes followed by literals, each with the
    (non-empty) text after it. *)
Fixpoint with_literals (ls : list (string * string)) : string :=
  match ls with
  | [] => ""
  | (c, t) :: ls => literal c +:+ t +:+ with_literals ls
  end.
Definition separated (ls : list (string * string)) : Prop :=
  Forall (λ '(_, t), no_quote t ∧ t ≠ "") ls.

Lemma strip_open s t : no_quote s → strip_literals false (s +:+ t) = s +:+ strip_literals false t.
Proof.
  unfold no_quote. induction s as [|a s IH]; [done|]. cbn [str_all]. intros [Ha Hs]%andb_prop.
  rewrite !str_app_cons. cbn [strip_literals]. apply negb_true_iff in Ha. by rewrite Ha, IH.
Qed.

Lemma strip_inside s t : no_quote_first t →
  strip_literals true (replace (String SQUOTE "") (String SQUOTE (String SQUOTE "")) s +:+ String SQUOTE t) =
    String SQUOTE (strip_literals false t).
Proof.
  intros Ht. induction s as [|a s IH].
  - change (strip_literals true (String SQUOTE t) = String SQUOTE (strip_literals false t)).
    destruct t as [|b t]; [done|]. cbn [strip_literals no_quote_first] in *.
    apply Ascii.eqb_neq in Ht. by rewrite Ascii.eqb_refl, Ht.
  - rewrite replace_char. destruct (Ascii.eqb_spec a SQUOTE) as [->|Ha].
    + rewrite !str_app_cons. cbn [strip_literals]. by rewrite !Ascii.eqb_refl.
    + rewrite str_app_cons. cbn [strip_literals]. apply Ascii.eqb_neq in Ha. by rewrite Ha.
Qed.

Lemma literal_app s t :
  literal s +:+ t =
    String SQUOTE (replace (String SQUOTE "") (String SQUOTE (String SQUOTE "")) s +:+ String SQUOTE t).
Proof. unfold literal. by rewrite <- str_app_assoc, str_app_cons. Qed.

Lemma strip_literal s t : no_quote_first t →
  strip_literals false (literal s +:+ t) = String SQUOTE (String SQUOTE (strip_literals false t)).
Proof. intros. rewrite literal_app. cbn [strip_literals]. by rewrite Ascii.eqb_refl, strip_inside. Qed.

Lemma separated_first t ls : no_quote t → t ≠ "" → no_quote_first (t +:+ with_literals ls).
Proof.
  destruct t as [|a t]; [done|]. unfold no_quote. cbn [str_all]. intros [Ha _]%andb_prop _.
  rewrite str_app_cons. cbn. by apply Ascii.eqb_neq, negb_true_iff.
Qed.

Fixpoint emptied (ls : list (string * string)) : string :=
  match ls with
  | [] => ""
  | (_, t) :: ls => String SQUOTE (String SQUOTE (t +:+ emptied ls))
  end.

Lemma strip_with_literals ls : separated ls → strip_literals false (with_literals ls) = emptied ls.
Proof.
  induction 1 as [|[c t] ls [Ht Hne] _ IH]; [done|]. cbn [with_literals emptied].
  rewrite strip_literal by by apply separated_first. by rewrite strip_open, IH.
Qed.

Lemma strip_query t0 ls : no_quote t0 → separated ls →
  strip_string_literals (t0 +:+ with_literals ls) = t0 +:+ emptied ls.
Proof. intros. unfold strip_string_literals. by rewrite strip_open, strip_with_literals. Qed.

Lemma emptied_texts ls ls' : ls.*2 = ls'.*2 → emptied ls = emptied ls'.
Proof.
  revert ls'. induction ls as [|[c t] ls IH]; intros [|[c' t'] ls'] [=]; [done|]. subst.
  cbn. by rewrite (IH ls').
Qed.

(** The contents of string literals never change what the handler reads:
    two queries with the same text outside their literals give the same
    LIMIT, OFFSET, GROUP BY and ORDER BY, the same HAVING condition, the same
    join window and the same answers to whether the query is a UNION, whatever
    the literals contain (quotes, keywords and separators included). *)
Theorem literals_are_invisible parse_f64 t0 ls ls' :
  no_quote t0 → separated ls → ls.*2 = ls'.*2 →
  let q := t0 +:+ with_literals ls in
  let q' := t0 +:+ with_literals ls' in
  parse_limit q = parse_limit q' ∧ parse_offset q = parse_offset q' ∧
  parse_group_by q = parse_group_by q' ∧ parse_order_by q = parse_order_by q' ∧
  parse_having parse_f64 q = parse_having parse_f64 q' ∧ parse_time_window q = parse_time_window q' ∧
  is_union_query q = is_union_query q' ∧ is_union_distinct q = is_union_distinct q' ∧
  extract_in_subqueries q = extract_in_subqueries q'.
Proof.
  intros H0 Hls Heq q q'.
  assert (separated ls') as Hls'.
  { unfold separated in *.
    assert (Forall (λ t, no_quote t ∧ t ≠ "") ls.*2) as H by (apply Forall_fmap; eapply Forall_impl; [done|by intros []]).
    rewrite Heq in H. apply Forall_fmap in H. eapply Forall_impl; [done|by intros []]. }
  assert (strip_string_literals q = strip_string_literals q') as Hs
    by (unfold q, q'; rewrite !strip_query by done; f_equal; by apply emptied_texts).
  unfold parse_limit, parse_offset, parse_group_by, parse_order_by, parse_having, parse_time_window,
    is_union_query, is_union_distinct, extract_in_subqueries.
  by rewrite Hs.
Qed.

(** ** Sources *)

(** [kw] stands at index [i] of [s]. *)
Definition occurs (kw s : string) (i : nat) : Prop := starts_with kw (str_drop i s) = true.

Lemma find_sub_spec kw s :
  match find_sub kw s with
  | Some i => occurs kw s i ∧ (∀ j, j < i → ¬ occurs kw s j) ∧ (i = 0 ∨ i ≤ String.length s)
  | None => ∀ j, ¬ occurs kw s j
  end.
Proof.
  unfold occurs. induction s as [|a s IH]; cbn [find_sub].
  - destruct (starts_with kw "") eqn:Hp; [split; [done|]; split; [lia|auto]|].
    intros [|j]; cbn [str_drop]; by rewrite Hp.
  - destruct (starts_with kw (String a s)) eqn:Hp; [split; [done|]; split; [lia|auto]|].
    destruct (find_sub kw s) as [i|]; cbn [fmap option_fmap option_map].
    + destruct IH as (H1 & H2 & H3). split; [done|]. split; [|cbn; lia].
      intros [|j] Hj; cbn [str_drop]; [by rewrite Hp|]. apply H2. lia.
    + intros [|j]; cbn [str_drop]; [by rewrite Hp|]. apply IH.
Qed.

Lemma get_drop i k s : String.get k (str_drop i s) = String.get (i + k) s.
Proof. revert s. induction i as [|i IH]; intros [|a s]; [done..| |apply IH]. by destruct k. Qed.

Lemma get_app_l k s t : k < String.length s → String.get k (s +:+ t) = String.get k s.
Proof.
  revert k. induction s as [|a s IH]; cbn; [lia|]. intros [|k] Hk; [done|]. apply IH. lia.
Qed.

Lemma occurs_get kw s i k : occurs kw s i → k < String.length kw → String.get (i + k) s = String.get k kw.
Proof.
  intros [t Ht]%starts_with_iff Hk. rewrite <- get_drop, Ht. by apply get_app_l.
Qed.

(** A keyword whose first character does not come back in it. *)
Definition no_border (kw : string) : Prop :=
  ∀ k, 0 < k < String.length kw → String.get k kw ≠ String.get 0 kw.

Lemma occurs_apart kw s i j :
  no_border kw → occurs kw s i → occurs kw s j → i < j → i + String.length kw ≤ j.
Proof.
  intros Hb Hi Hj Hlt. destruct (decide (i + String.length kw ≤ j)) as [|Hn]; [done|exfalso].
  apply (Hb (j - i)); [lia|].
  rewrite <- (occurs_get kw s i (j - i)) by (done || lia).
  rewrite <- (occurs_get kw s j 0) by (done || lia). f_equal. lia.
Qed.

(** [r] is the qualified name after the keyword at [i], and the keyword counts. *)
Definition names_at (query kw : string) (i : nat) (r : string * string) : Prop :=
  is_word_start (to_lowercase query) i = true ∧
  Nat.even (count_char SQUOTE (str_take i query)) = true ∧
  parse_qualified_name (first_part ref_end (trim_start (str_drop (i + String.length kw) query))) = Ok r.

Lemma note_ref_spec query kw i refs r :
  r ∈ note_ref query (to_lowercase query) i (i + String.length kw) refs ↔ r ∈ refs ∨ names_at query kw i r.
Proof.
  unfold note_ref, names_at.
  destruct (is_word_start _ i); [|cbn; naive_solver].
  destruct (Nat.even _); [|cbn; naive_solver]. cbn [andb].
  destruct (parse_qualified_name _) as [r'| |]; [|naive_solver..].
  case_bool_decide; [naive_solver|]. rewrite elem_of_app, list_elem_of_singleton. naive_solver.
Qed.

Lemma note_ref_NoDup query lower i j refs : NoDup refs → NoDup (note_ref query lower i j refs).
Proof.
  intros H. unfold note_ref. destruct (_ && _); [|done]. destruct (parse_qualified_name _) as [r| |]; [|done..].
  case_bool_decide; [done|]. apply NoDup_app. split; [done|]. split; [|apply NoDup_singleton].
  by intros x Hx ->%list_elem_of_singleton.
Qed.

Lemma keyword_refs_NoDup fuel query lower kw : ∀ from refs,
  NoDup refs → NoDup (keyword_refs fuel query lower kw from refs).
Proof.
  induction fuel as [|fuel IH]; [done|]. intros from refs H. cbn [keyword_refs].
  destruct (find_sub _ _); [|done]. by apply IH, note_ref_NoDup.
Qed.

Lemma occurs_drop kw s i j : occurs kw (str_drop i s) j ↔ occurs kw s (i + j).
Proof.
  unfold occurs. replace (str_drop j (str_drop i s)) with (str_drop (i + j) s); [done|].
  revert s. induction i as [|i IH]; intros [|a s]; [done..| |apply IH]. by destruct j.
Qed.

Lemma occurs_bound kw s i : kw ≠ "" → occurs kw s i → i < String.length s.
Proof.
  intros Hkw Ho. destruct kw as [|c kw]; [done|].
  pose proof (occurs_get _ _ _ 0 Ho ltac:(cbn; lia)) as Hg. rewrite Nat.add_0_r in Hg. cbn in Hg.
  clear Ho. revert i Hg. induction s as [|a s IH]; [by intros [|i]|]. intros [|i]; cbn; [lia|].
  intros ?%IH. lia.
Qed.

Lemma keyword_refs_spec query kw fuel : no_border kw → kw ≠ "" → ∀ from refs r,
  String.length query < fuel + from →
  r ∈ keyword_refs fuel query (to_lowercase query) kw from refs ↔
    r ∈ refs ∨ ∃ i, from ≤ i ∧ occurs kw (to_lowercase query) i ∧ names_at query kw i r.
Proof.
  intros Hb Hne. assert (0 < String.length kw) as Hlen by (destruct kw; [done|cbn; lia]).
  induction fuel as [|fuel IH]; intros from refs r Hf.
  - cbn. split; [auto|]. intros [?|(i & Hi & Ho & _)]; [done|].
    apply occurs_bound in Ho; [|done]. rewrite to_lowercase_length in Ho. lia.
  - cbn [keyword_refs]. pose proof (find_sub_spec kw (str_drop from (to_lowercase query))) as Hs.
    destruct (find_sub kw _) as [pos|].
    + destruct Hs as (Ho & Hfirst & _). rewrite occurs_drop in Ho.
      rewrite IH by lia. rewrite note_ref_spec.
      split.
      * intros [[?|?]|(i & ? & ? & ?)]; [by left|right; exists (from + pos)..|right; exists i]; naive_solver lia.
      * intros [?|(i & Hi & Hoi & Hn)]; [by left; left|].
        destruct (lt_eq_lt_dec i (from + pos)) as [[Hlt| ->]|Hgt]; [|by left; right|].
        -- destruct (Hfirst (i - from)); [lia|]. rewrite occurs_drop. by replace (from + (i - from)) with i by lia.
        -- right. exists i. split; [|done]. by apply (occurs_apart kw (to_lowercase query)).
    + split; [auto|]. intros [?|(i & Hi & Ho & _)]; [done|]. destruct (Hs (i - from)).
      rewrite occurs_drop. by replace (from + (i - from)) with i by lia.
Qed.

Definition keywords : list string := ["from "; "join "].

Lemma keywords_ok kw : kw ∈ keywords → no_border kw ∧ kw ≠ "".
Proof.
  assert (∀ c t, Forall (λ a, a ≠ Some c) ((λ k, String.get k t) <$> seq 0 (String.length t)) →
            no_border (String c t)) as Hgen.
  { intros c t Hall [|k] Hk; cbn in *; [lia|]. rewrite Forall_fmap, Forall_lookup in Hall.
    apply (Hall k k). rewrite lookup_seq. lia. }
  unfold keywords. rewrite !elem_of_cons, elem_of_nil.
  intros [-> |[-> |[]]]; (split; [|done]); apply Hgen; cbn; by repeat constructor.
Qed.

Lemma sql_refs query :
  ∃ refs, NoDup refs ∧ (∀ r, r ∈ refs ↔ ∃ kw i, kw ∈ keywords ∧ occurs kw (to_lowercase query) i ∧ names_at query kw i r) ∧
    parse_sql_sources query = if bool_decide (refs = [])
      then Err "SQL query must contain a FROM clause with a qualified datasource.table reference" else Ok refs.
Proof.
  unfold parse_sql_sources. cbn [foldl].
  set (refs1 := keyword_refs _ _ _ "from " 0 []). set (refs := keyword_refs _ _ _ "join " 0 refs1).
  exists refs. split_and!; [by apply keyword_refs_NoDup, keyword_refs_NoDup, NoDup_nil_2| |done].
  intros r. unfold refs, refs1.
  destruct (keywords_ok "from ") as [? ?]; [set_solver|]. destruct (keywords_ok "join ") as [? ?]; [set_solver|].
  rewrite !keyword_refs_spec by (done || lia).
  rewrite elem_of_nil. unfold keywords.
  split; [intros [[[]|(i & ? & ? & ?)]|(i & ? & ? & ?)]; eexists _, i; (split; [|done]); set_solver|].
  intros (kw & i & Hkw & ? & ?). rewrite !elem_of_cons, elem_of_nil in Hkw.
  destruct Hkw as [-> |[-> |[]]]; [left; right|right]; exists i; auto with lia.
Qed.

(** *** The sources a text names, without the scanner

    A source is written as a keyword, blanks and a qualified name: the keyword
    stands at the start of the text or after white space, an opening parenthesis
    or a comma, with an even number of quotes before it; the name is cut at its
    first dot and ends at white space, a comma, a closing parenthesis or the end
    of the text. *)

(** Tab, line feed, form feed, carriage return, blank, parenthesis, comma. *)
Definition may_precede (c : ascii) : Prop := N_of_ascii c ∈ [9; 10; 12; 13; 32; 40; 44]%N.
(** A character of a name: not white space, comma or closing parenthesis. *)
Definition name_char (c : ascii) : bool := bool_decide (N_of_ascii c ∉ [9; 10; 11; 12; 13; 32; 41; 44]%N).
Definition not_dot (c : ascii) : bool := bool_decide (N_of_ascii c ≠ 46%N).

Definition names_source (query : string) (r : string * string) : Prop :=
  ∃ before kw blank rest,
    query = before +:+ kw +:+ blank +:+ r.1 +:+ "." +:+ r.2 +:+ rest ∧
    to_lowercase kw ∈ ["from "; "join "] ∧ str_all is_whitespace blank = true ∧
    (∀ b c, before = b +:+ String c "" → may_precede c) ∧ Nat.Even (count_char SQUOTE before) ∧
    str_all (λ c, name_char c && not_dot c) r.1 = true ∧ str_all name_char r.2 = true ∧
    (∀ c t, rest = String c t → name_char c = false).

Lemma lower_split s : ∀ i, i ≤ String.length s → s = str_take i s +:+ str_drop i s ∧ String.length (str_take i s) = i.
Proof.
  induction s as [|a s IH]; intros [|i] Hi; cbn in *; try done; [lia|]. destruct (IH i ltac:(lia)) as [H1 H2].
  split; [rewrite str_app_cons; by f_equal|by f_equal].
Qed.
Lemma lower_drop i s : to_lowercase (str_drop i s) = str_drop i (to_lowercase s).
Proof. revert i. induction s as [|a s IH]; intros [|i]; try done. apply IH. Qed.
Lemma lower_take i s : to_lowercase (str_take i s) = str_take i (to_lowercase s).
Proof. revert i. induction s as [|a s IH]; intros [|i]; try done. cbn. by rewrite IH. Qed.
Lemma drop_drop i j s : str_drop j (str_drop i s) = str_drop (i + j) s.
Proof. revert s. induction i as [|i IH]; intros [|a s]; try done; [by destruct j|apply IH]. Qed.

(** An occurrence of a keyword cuts the text in three. *)
Lemma occurs_cut kw q i : kw ≠ "" → occurs kw (to_lowercase q) i ↔
  ∃ a k t, q = a +:+ k +:+ t ∧ String.length a = i ∧ to_lowercase k = kw.
Proof.
  intros Hne. split.
  - intros Ho. pose proof (occurs_bound _ _ _ Hne Ho) as Hi. rewrite to_lowercase_length in Hi.
    unfold occurs in Ho. rewrite <- lower_drop in Ho. apply starts_with_iff in Ho as [t Ht].
    destruct (lower_split q i ltac:(lia)) as [Hs Hl]. set (s := str_drop i q) in *.
    assert (String.length kw ≤ String.length s) as Hk
      by (apply (f_equal String.length) in Ht; rewrite to_lowercase_length, str_length_app in Ht; lia).
    destruct (lower_split s (String.length kw) Hk) as [Hs2 Hl2].
    exists (str_take i q), (str_take (String.length kw) s), (str_drop (String.length kw) s). rewrite <- Hs2.
    split_and!; [done..|]. rewrite lower_take, Ht. apply str_take_app.
  - intros (a & k & t & -> & <- & <-). unfold occurs.
    rewrite <- lower_drop, str_drop_exact, to_lowercase_app. apply starts_with_app.
Qed.

(** The first part of a text and what follows it. *)
Lemma first_part_app p s t : str_all (λ a, negb (p a)) s = true → (∀ c u, t = String c u → p c = true) →
  first_part p (s +:+ t) = s.
Proof.
  intros Hs Ht. unfold first_part. rewrite split_on_app by done. destruct t as [|c u]; cbn [split_on].
  - cbn. by rewrite str_app_nil.
  - rewrite (Ht c u eq_refl). cbn. by rewrite str_app_nil.
Qed.
Lemma first_part_cons p a s : first_part p (String a s) = if p a then "" else String a (first_part p s).
Proof.
  unfold first_part. cbn [split_on]. destruct (p a); [done|].
  destruct (split_on p s) eqn:E; [by apply split_on_nonempty in E|done].
Qed.
Lemma first_part_cut p s : ∃ t, s = first_part p s +:+ t ∧ str_all (λ a, negb (p a)) (first_part p s) = true ∧
  (∀ c u, t = String c u → p c = true).
Proof.
  induction s as [|a s (t & Hs & Ha & Ht)]; [by exists ""|]. rewrite first_part_cons.
  destruct (p a) eqn:Hp.
  - exists (String a s). split_and!; [done..|]. by intros c u [= <- <-].
  - exists t. rewrite str_app_cons, <- Hs. cbn [str_all]. by rewrite Hp.
Qed.

Lemma split_once_iff p s a b : (∀ c d, p c = true → p d = true → c = d) →
  split_once p s = Some (a, b) ↔ ∃ c, p c = true ∧ s = a +:+ String c b ∧ str_all (λ x, negb (p x)) a = true.
Proof.
  intros Hp. split.
  - revert a. induction s as [|x s IH]; intros a; [done|]. unfold split_once. cbn [find_char]. destruct (p x) eqn:Hx.
    + cbn. intros [= <- <-]. exists x. split_and!; [done| |done]. by destruct s.
    + destruct (find_char p s) as [i|] eqn:Hf; [|done]. cbn. intros [= <- <-].
      destruct (IH (str_take i s)) as (c & Hc & Hs & Ha); [unfold split_once; by rewrite Hf|].
      exists c. rewrite str_app_cons, <- Hs. cbn [str_all]. by rewrite Hx, Ha.
  - intros (c & Hc & -> & Ha). unfold split_once. rewrite find_char_app by done. cbn. rewrite Hc. cbn.
    rewrite Nat.add_0_r, str_take_app. do 2 f_equal.
    change (str_drop (S (String.length a)) (a +:+ String c b) = b).
    rewrite <- Nat.add_1_r, str_drop_app. by destruct b.
Qed.

Lemma ref_end_char c : ref_end c = negb (name_char c).
Proof. by destruct c as [[] [] [] [] [] [] [] []]. Qed.
Lemma is_dot_char c : is_char "." c = negb (not_dot c).
Proof. by destruct c as [[] [] [] [] [] [] [] []]. Qed.

Lemma str_all_ext p q s : (∀ c, p c = q c) → str_all p s = str_all q s.
Proof. intros H. induction s as [|a s IH]; [done|]. cbn. by rewrite H, IH. Qed.
Lemma str_all_both p q s : str_all (λ c, p c && q c) s = str_all p s && str_all q s.
Proof.
  induction s as [|a s IH]; [done|]. cbn. rewrite IH. by destruct (p a), (q a), (str_all p s), (str_all q s).
Qed.

(** A qualified name at the start of a text. *)
Lemma qualified_name_iff s r :
  parse_qualified_name (first_part ref_end s) = Ok r ↔
  ∃ rest, s = r.1 +:+ "." +:+ r.2 +:+ rest ∧ str_all (λ c, name_char c && not_dot c) r.1 = true ∧
    str_all name_char r.2 = true ∧ (∀ c t, rest = String c t → name_char c = false).
Proof.
  destruct r as [ds tbl]. cbn [fst snd].
  assert (∀ w, str_all name_char w = true → parse_qualified_name w = Ok (ds, tbl) ↔ split_once (is_char ".") w = Some (ds, tbl)) as Hparse.
  { intros w Hw. unfold parse_qualified_name, split_whitespace.
    rewrite split_on_none.
    2:{ eapply str_all_impl; [|exact Hw]. intros c. by destruct c as [[] [] [] [] [] [] [] []]. }
    assert (default w (head (filter (λ w : string, w ≠ "") [w])) = w) as ->.
    { rewrite filter_cons. case_decide; [done|]. by rewrite filter_nil. }
    destruct (split_once _ w) as [x|]; cbn; split; congruence. }
  assert (∀ c d, is_char "." c = true → is_char "." d = true → c = d) as Hinj.
  { unfold is_char. intros c d <-%Ascii.eqb_eq <-%Ascii.eqb_eq. done. }
  split.
  - destruct (first_part_cut ref_end s) as (t & Hs & Hall & Ht). set (w := first_part ref_end s) in *.
    assert (str_all name_char w = true) as Hw by (rewrite <- Hall; apply str_all_ext; intros c; by rewrite ref_end_char, negb_involutive).
    intros (c & Hc & Hwc & Hds)%Hparse%(split_once_iff _ _ _ _ Hinj); [|done].
    apply Ascii.eqb_eq in Hc as <-. exists t. rewrite Hwc in Hs, Hw.
    rewrite str_all_app in Hw. cbn [str_all] in Hw. apply andb_prop in Hw as [Hd [_ Htb]%andb_prop].
    split_and!; [|rewrite str_all_both, Hd|done|].
    + rewrite Hs, <- str_app_assoc. by rewrite str_app_cons.
    + rewrite andb_true_l. etrans; [|exact Hds]. apply str_all_ext. intros c. by rewrite is_dot_char, negb_involutive.
    + intros c u Hc. specialize (Ht c u Hc). rewrite ref_end_char in Ht. by apply negb_true_iff.
  - intros (rest & -> & Hds & Htb & Hrest). rewrite str_all_both in Hds. apply andb_prop in Hds as [Hd Hnd].
    assert (str_all name_char (ds +:+ "." +:+ tbl) = true) as Hw by (rewrite !str_all_app, Hd, Htb; done).
    assert (ds +:+ "." +:+ tbl +:+ rest = (ds +:+ "." +:+ tbl) +:+ rest) as -> by by rewrite <- !str_app_assoc.
    rewrite first_part_app; [apply Hparse; [done|]; apply (split_once_iff _ _ _ _ Hinj)| |].
    + exists "."%char. split_and!; [done..|]. etrans; [|exact Hnd]. apply str_all_ext. intros c. by rewrite is_dot_char, negb_involutive.
    + etrans; [|exact Hw]. apply str_all_ext. intros c. by rewrite ref_end_char, negb_involutive.
    + intros c u Hc. rewrite ref_end_char, (Hrest c u Hc). done.
Qed.

Lemma trim_start_cut s : ∃ b, s = b +:+ trim_start s ∧ str_all is_whitespace b = true.
Proof.
  induction s as [|a s (b & Hs & Hb)]; [by exists ""|]. unfold trim_start in *. cbn [trim_start_while].
  destruct (is_whitespace a) eqn:Ha; [|by exists ""].
  exists (String a b). rewrite str_app_cons, <- Hs. cbn [str_all]. by rewrite Ha, Hb.
Qed.
Lemma trim_start_blanks b s : str_all is_whitespace b = true → trim_start (b +:+ s) = trim_start s.
Proof.
  induction b as [|a b IH]; [done|]. cbn [str_all]. intros [Ha Hb]%andb_prop. rewrite str_app_cons.
  unfold trim_start in *. cbn [trim_start_while]. rewrite Ha. by apply IH.
Qed.

Lemma get_last b c s : String.get (String.length b) (b +:+ String c s) = Some c.
Proof. induction b as [|a b IH]; [done|]. rewrite str_app_cons. apply IH. Qed.
Lemma last_cut a : a = "" ∨ ∃ b c, a = b +:+ String c "".
Proof.
  induction a as [|x a [->|(b & c & ->)]]; [by left|right..]; [by exists "", x|exists (String x b), c].
  by rewrite str_app_cons.
Qed.

Lemma word_start_iff a t : is_word_start (to_lowercase (a +:+ t)) (String.length a) = true ↔
  (∀ b c, a = b +:+ String c "" → may_precede c).
Proof.
  destruct (last_cut a) as [->|(b & c & ->)].
  { split; [|done]. intros _ b c. by destruct b. }
  assert (String.length (b +:+ String c "") = S (String.length b)) as -> by (rewrite str_length_app; cbn; lia).
  cbn [is_word_start]. rewrite <- str_app_assoc, to_lowercase_app. change (String c "" +:+ t) with (String c t).
  cbn [to_lowercase]. rewrite <- (to_lowercase_length b), get_last.
  assert ((is_ascii_whitespace (ascii_lower c) || Ascii.eqb (ascii_lower c) "(" || Ascii.eqb (ascii_lower c) ",") =
          bool_decide (may_precede c)) as -> by by destruct c as [[] [] [] [] [] [] [] []].
  rewrite bool_decide_eq_true. split.
  - intros Hc b' c' H. assert (c = c') as <-; [|done]. apply (f_equal (λ s, String.get (String.length b) s)) in H as Hg.
    assert (String.length b = String.length b') as Hl
      by (apply (f_equal String.length) in H; rewrite !str_length_app in H; cbn in H; lia).
    rewrite get_last, Hl, get_last in Hg. congruence.
  - intros H. by apply (H b c).
Qed.

Lemma names_source_iff q r :
  (∃ kw i, kw ∈ keywords ∧ occurs kw (to_lowercase q) i ∧ names_at q kw i r) ↔ names_source q r.
Proof.
  unfold names_source, names_at. split.
  - intros (kw & i & Hkw & Ho & Hw & Hq & Hp). destruct (keywords_ok kw Hkw) as [_ Hne].
    apply occurs_cut in Ho as (a & k & t & -> & <- & <-); [|done].
    rewrite to_lowercase_length, str_drop_app, str_drop_exact in Hp. rewrite str_take_app in Hq.
    destruct (trim_start_cut t) as (b & Ht & Hb). apply qualified_name_iff in Hp as (rest & Hrest & H1 & H2 & H3).
    rewrite Hrest in Ht. exists a, k, b, rest. split_and!; [by rewrite Ht|done|done| | |done..].
    + by apply (word_start_iff a (k +:+ t)).
    + by apply Nat.even_spec.
  - intros (a & k & b & rest & -> & Hkw & Hb & Hw & Hq & H1 & H2 & H3).
    destruct (keywords_ok _ Hkw) as [_ Hne]. exists (to_lowercase k), (String.length a). split; [done|]. split.
    { apply occurs_cut; [done|]. by exists a, k, (b +:+ r.1 +:+ "." +:+ r.2 +:+ rest). }
    split_and!.
    + by apply word_start_iff.
    + rewrite str_take_app. by apply Nat.even_spec.
    + rewrite to_lowercase_length, str_drop_app, str_drop_exact, trim_start_blanks by done.
      rewrite trim_start_id; [apply qualified_name_iff; by exists rest|].
      destruct r as [[|c ds] tbl]; cbn [fst snd] in *; [done|]. rewrite str_app_cons. cbn [str_all first_ok] in *.
      apply andb_prop in H1 as [[Hc _]%andb_prop _]. by destruct c as [[] [] [] [] [] [] [] []].
Qed.


(** ** Cursors *)

Definition avoids (c : ascii) (s : string) : Prop := str_all (λ a, negb (is_char c a)) s = true.

Lemma rfind_char_none c s : avoids c s → rfind_sub (String c "") s = None.
Proof.
  unfold avoids. induction s as [|a s IH]; [done|]. cbn [str_all rfind_sub]. intros [Ha Hs]%andb_prop.
  rewrite IH by done. unfold starts_with. cbn. destruct (ascii_dec c a) as [->|]; [|done].
  unfold is_char in Ha. by rewrite Ascii.eqb_refl in Ha.
Qed.

Lemma rfind_char_last c s t : avoids c t → rfind_sub (String c "") (s +:+ String c t) = Some (String.length s).
Proof.
  intros Ht. induction s as [|a s IH].
  - change (rfind_sub (String c "") (String c t) = Some 0). cbn [rfind_sub].
    rewrite rfind_char_none by done. unfold starts_with. cbn. destruct (ascii_dec c c); [|done]. by destruct t.
  - rewrite str_app_cons. cbn [rfind_sub String.length]. by rewrite IH.
Qed.

Lemma rsplit_once_last c s t : avoids c t → rsplit_once c (s +:+ String c t) = Some (s, t).
Proof.
  intros Ht. unfold rsplit_once. rewrite rfind_char_last by done. cbn [fmap option_fmap option_map].
  rewrite str_take_app. do 2 f_equal.
  replace (S (String.length s)) with (String.length s + 1) by lia. by rewrite str_drop_app.
Qed.

Lemma split_joined c ws : ws ≠ [] → Forall (avoids c) ws →
  split_on (is_char c) (join_with (String c "") ws) = ws.
Proof.
  intros Hne Hall. induction Hall as [|w ws Hw Hws IH]; [done|].
  destruct ws as [|w' ws]; [by apply split_on_none|].
  rewrite join_with_cons, str_app_cons.
  change (w +:+ String c ("" +:+ join_with (String c "") (w' :: ws))) with
    (w +:+ String c (join_with (String c "") (w' :: ws))).
  rewrite split_on_app by done. cbn [split_on]. rewrite (Ascii.eqb_refl c : is_char c c = true).
  by rewrite str_app_nil, IH.
Qed.

Lemma decode_encoded_part ds (off : N) : (off ≤ u64_max)%N → decode_part (ds +:+ ":" +:+ pretty off) = Some (ds, off).
Proof.
  intros Ho. unfold decode_part. change (":" +:+ pretty off) with (String ":" (pretty off)).
  rewrite rsplit_once_last by by apply digits_avoid. cbn. by rewrite parse_u64_pretty.
Qed.

(** The names and numbers a cursor carries. *)
Definition cursor_ok (per_source : list (string * N)) : Prop :=
  Forall (λ '(ds, off), avoids "," ds ∧ (off ≤ u64_max)%N) per_source.

(** A cursor decodes to what was encoded: the offset of a plain cursor,
    and the offset of every source with the global offset of a UNION cursor,
    when the offsets fit a [usize] and no datasource name has a comma (colons
    and bars are allowed).  Neither decoder takes the other's cursors. *)
Theorem cursors_round_trip per_source (g : N) :
  cursor_ok per_source → (g ≤ u64_max)%N →
  decode_cursor (encode_cursor g) = Some g ∧
  decode_union_cursor (encode_union_cursor per_source g) = Some (per_source, g) ∧
  decode_cursor (encode_union_cursor per_source g) = None ∧
  decode_union_cursor (encode_cursor g) = None.
Proof.
  intros Hok Hg. split; [|split; [|done]].
  - unfold decode_cursor, encode_cursor, str_strip_prefix. rewrite starts_with_app, str_drop_exact.
    by apply parse_u64_pretty.
  - unfold decode_union_cursor, encode_union_cursor, str_strip_prefix.
    rewrite starts_with_app. cbn [mbind option_bind]. rewrite str_drop_exact.
    change ("|" +:+ pretty g) with (String "|" (pretty g)).
    rewrite rsplit_once_last by by apply digits_avoid. cbn [mbind option_bind].
    rewrite parse_u64_pretty by done. cbn [mbind option_bind]. do 2 f_equal.
    destruct per_source as [|s ss]; [done|]. rewrite split_joined; [|done|].
    + induction Hok as [|[ds off] l [_ Ho] _ IH]; [done|]. rewrite fmap_cons. cbn [omap list_omap].
      rewrite decode_encoded_part by done. by rewrite IH.
    + apply Forall_fmap. eapply Forall_impl; [exact Hok|]. intros [ds off] [Hds _].
      change (avoids "," (ds +:+ ":" +:+ pretty off)). unfold avoids. rewrite !str_all_app, Hds.
      by apply (digits_avoid ",").
Qed.

Lemma cursors_round_trip_witness :
  let l := [("logs:eu|1", 20); ("metrics", 7)]%N in
  decode_cursor (encode_cursor 27) = Some 27%N ∧ decode_union_cursor (encode_union_cursor l 27) = Some (l, 27%N).
Proof.
  intros l. destruct (cursors_round_trip l 27) as (? & ? & _); [|done|by split].
  by repeat constructor.
Defined.

(** ** Statements *)

(** A statement as the splitter sees it: quotes close, and a semicolon only
    stands between quotes.  [in_quote] is the state at its start. *)
Fixpoint closed_stmt (in_quote : bool) (s : string) : bool :=
  match s with
  | EmptyString => negb in_quote
  | String c s =>
      if Ascii.eqb c SQUOTE then closed_stmt (negb in_quote) s
      else (in_quote || negb (Ascii.eqb c ";")) && closed_stmt in_quote s
  end.

Lemma split_stmts_run s : ∀ in_quote current t,
  closed_stmt in_quote s = true →
  split_stmts in_quote current (s +:+ t) = split_stmts false (current +:+ s) t.
Proof.
  induction s as [|c s IH]; intros q current t.
  - cbn. destruct q; [done|]. by rewrite str_app_nil.
  - rewrite str_app_cons. cbn [closed_stmt split_stmts].
    assert (∀ x : string, (current +:+ String c "") +:+ x = current +:+ String c x) as Happ
      by (intros x; by rewrite <- str_app_assoc).
    destruct (Ascii.eqb c SQUOTE); [intros H; rewrite IH by done; by rewrite Happ|].
    intros [Hc H]%andb_prop.
    assert (Ascii.eqb c ";" && negb q = false) as -> by (destruct q, (Ascii.eqb c ";"); done).
    rewrite IH by done. by rewrite Happ.
Qed.

(** A statement of a script: closed, without blanks around it and not empty. *)
Definition stmt (s : string) : Prop := closed_stmt false s = true ∧ trim s = s ∧ s ≠ "".

Lemma push_stmt_padded l s r stmts :
  str_all is_whitespace l = true → str_all is_whitespace r = true → stmt s →
  push_stmt (l +:+ s +:+ r) stmts = s :: stmts.
Proof.
  intros Hl Hr (_ & Ht & Hne). unfold push_stmt. rewrite trim_pad by done. rewrite Ht.
  by destruct (String.eqb_spec s "").
Qed.

Lemma closed_blank w : str_all is_whitespace w = true → closed_stmt false w = true.
Proof.
  induction w as [|a w IH]; [done|]. cbn [str_all closed_stmt]. intros [Ha Hw]%andb_prop.
  destruct (Ascii.eqb_spec a SQUOTE) as [->|]; [done|]. destruct (Ascii.eqb_spec a ";") as [->|]; [done|].
  by rewrite IH.
Qed.

Lemma split_stmts_join l r ss :
  str_all is_whitespace l = true → str_all is_whitespace r = true → Forall stmt ss → ss ≠ [] → ∀ w,
  str_all is_whitespace w = true →
  split_stmts false w (join_with (l +:+ ";" +:+ r) ss) = ss.
Proof.
  intros Hl Hr Hall. induction Hall as [|s ss Hs Hss IH]; [done|]. intros _ w Hw.
  destruct ss as [|s' ss].
  - cbn [join_with]. rewrite <- (str_app_nil s) at 1. rewrite split_stmts_run by apply Hs.
    cbn [split_stmts]. rewrite <- (str_app_nil (w +:+ s)), <- str_app_assoc. by apply push_stmt_padded.
  - rewrite join_with_cons. rewrite split_stmts_run by apply Hs.
    rewrite <- !str_app_assoc, split_stmts_run by by apply closed_blank.
    change (";" +:+ r +:+ join_with (l +:+ ";" +:+ r) (s' :: ss)) with
      (String ";" (r +:+ join_with (l +:+ ";" +:+ r) (s' :: ss))).
    cbn [split_stmts]. change (Ascii.eqb ";" SQUOTE) with false. change (Ascii.eqb ";" ";" && negb false) with true.
    cbv iota. rewrite <- str_app_assoc, push_stmt_padded by done. f_equal.
    rewrite split_stmts_run by by apply closed_blank. by apply IH.
Qed.

(** Splitting a script gives its statements back: for statements whose
    quotes close and whose semicolons are all inside string literals, joined
    with a semicolon and any white space around it, the splitter returns
    exactly these statements, in order. *)
Theorem script_round_trip l r ss :
  str_all is_whitespace l = true → str_all is_whitespace r = true → Forall stmt ss →
  split_statements (join_with (l +:+ ";" +:+ r) ss) = ss.
Proof.
  intros Hl Hr Hall. destruct ss as [|s ss]; [done|]. by apply split_stmts_join.
Qed.

Lemma script_round_trip_witness :
  split_statements "SELECT * FROM a.t WHERE m = 'x;y''z'; SELECT 1" =
    ["SELECT * FROM a.t WHERE m = 'x;y''z'"; "SELECT 1"].
Proof.
  apply (script_round_trip "" " " ["SELECT * FROM a.t WHERE m = 'x;y''z'"; "SELECT 1"]); [done..|].
  by repeat constructor.
Defined.

(** ** Parentheses *)

(** Texts whose parentheses match. *)
Inductive balanced : string → Prop :=
| balanced_nil : balanced ""
| balanced_char c s : c ≠ "("%char → c ≠ ")"%char → balanced s → balanced (String c s)
| balanced_group s t : balanced s → balanced t → balanced ("(" +:+ s +:+ ")" +:+ t).

Lemma matching_paren_balanced s : balanced s → ∀ depth i t, 0 < depth →
  matching_paren depth i (s +:+ t) = matching_paren depth (i + String.length s) t.
Proof.
  induction 1 as [|c s Ho Hc _ IH|s s' _ IH _ IH']; intros depth i t Hd.
  - change ("" +:+ t) with t. by rewrite Nat.add_0_r.
  - rewrite str_app_cons. cbn [matching_paren String.length].
    apply Ascii.eqb_neq in Ho as ->. apply Ascii.eqb_neq in Hc as ->. rewrite IH by done. f_equal. lia.
  - rewrite <- !str_app_assoc. change ("(" +:+ ?x) with (String "(" x). cbn [matching_paren].
    change (Ascii.eqb "(" "(") with true. cbv iota. rewrite IH by lia.
    change (")" +:+ s' +:+ t) with (String ")" (s' +:+ t)). cbn [matching_paren].
    change (Ascii.eqb ")" "(") with false. change (Ascii.eqb ")" ")") with true. cbv iota.
    replace (S depth - 1) with depth by lia. destruct (Nat.eqb_spec depth 0); [lia|].
    rewrite IH' by done. f_equal. cbn [String.length]. rewrite str_length_app, str_app_cons. cbn [String.length]. change ("" +:+ s') with s'. lia.
Qed.

(** The parenthesis that ends an IN sub-query is the one that closes it:
    whatever groups the sub-query contains, the text up to the position found
    is the whole sub-query. *)
Theorem matching_paren_closes s t : balanced s →
  find_matching_paren (s +:+ ")" +:+ t) = Some (String.length s) ∧
  str_take (String.length s) (s +:+ ")" +:+ t) = s.
Proof.
  intros Hs. split; [|apply str_take_app].
  unfold find_matching_paren. rewrite matching_paren_balanced by (done || lia).
  change (")" +:+ t) with (String ")" t). by cbn.
Qed.

Lemma matching_paren_closes_witness :
  find_matching_paren "(SELECT f(x) FROM a.b) x) AND y" = Some 24.
Proof.
  apply (matching_paren_closes "(SELECT f(x) FROM a.b) x" " AND y").
  apply (balanced_group "SELECT f(x) FROM a.b" " x"); repeat (apply balanced_char; [done..|]); [|constructor].
  apply (balanced_group "x" " FROM a.b"); repeat (apply balanced_char; [done..|]); constructor.
Defined.

(** ** Where a reader does not do what it says *)

Lemma digits_in_drop n s :
  str_all (λ a, negb (is_ascii_digit a)) s = true → str_all (λ a, negb (is_ascii_digit a)) (str_drop n s) = true.
Proof.
  revert s. induction n as [|n IH]; intros [|a s]; [done..|]. cbn [str_all str_drop].
  intros [_ Hs]%andb_prop. by apply IH.
Qed.

Lemma no_digits_lower s :
  str_all (λ a, negb (is_ascii_digit a)) s = true →
  str_all (λ a, negb (is_ascii_digit a)) (to_lowercase s) = true.
Proof.
  induction s as [|a s IH]; [done|]. cbn [str_all to_lowercase]. intros [Ha Hs]%andb_prop.
  rewrite IH by done. rewrite andb_true_r. revert Ha. clear. destruct a as [[] [] [] [] [] [] [] []]; done.
Qed.

Lemma trim_start_all p s : str_all p s = true → trim_start_while p s = "".
Proof.
  induction s as [|a s IH]; [done|]. cbn [str_all trim_start_while]. intros [-> Hs]%andb_prop. by apply IH.
Qed.

Lemma no_digits_no_window query :
  str_all (λ a, negb (is_ascii_digit a)) (strip_string_literals query) = true → parse_time_window query = None.
Proof.
  intros H%no_digits_lower. unfold parse_time_window.
  destruct (find_sub " on " _) as [i|]; [|done]. cbn [mbind option_bind].
  destruct (find_sub " between " _) as [j|]; [|done]. cbn [mbind option_bind].
  destruct (String.eqb _ ""); [done|]. unfold extract_interval_secs at 1.
  rewrite trim_start_all by by apply digits_in_drop, digits_in_drop. done.
Qed.

(** The time window of a join is only read from digits outside quotes:
    the notation its comment gives, an INTERVAL with a quoted amount on both
    sides, is never recognised, because the amounts are stripped with the
    other literals before the window is parsed; such a join is not filtered. *)
Theorem quoted_interval_ignored t0 ls :
  no_quote t0 → separated ls →
  str_all (λ a, negb (is_ascii_digit a)) (t0 +:+ emptied ls) = true →
  parse_time_window (t0 +:+ with_literals ls) = None.
Proof. intros. apply no_digits_no_window. by rewrite strip_query. Qed.

Definition window_query : string :=
  "SELECT * FROM a.x JOIN b.y ON x.ts BETWEEN y.ts - INTERVAL ".

Lemma quoted_interval_ignored_witness :
  parse_time_window (window_query +:+ "'5 minutes' AND y.ts + INTERVAL '5 minutes' ORDER BY x.ts") = None ∧
  parse_time_window (window_query +:+ "5 AND y.ts + INTERVAL 5 ORDER BY x.ts") = Some (mkWindow "x.ts" "y.ts" 5).
Proof.
  split; [|reflexivity].
  apply (quoted_interval_ignored window_query [("5 minutes", " AND y.ts + INTERVAL "); ("5 minutes", " ORDER BY x.ts")]);
    [done| |done]. by repeat constructor.
Defined.

(** A sub-query that selects nothing stops the handler with a panic. *)
Lemma empty_select_panics :
  extract_in_subqueries "SELECT * FROM a.b WHERE x IN (SELECT FROM c.d)" = Panic.
Proof. reflexivity. Qed.

(** The readers of GROUP BY and HAVING look for the next clause in lower case
    only, and a keyword that is missing restores the whole rest: an upper-case
    LIMIT, or a HAVING without an ORDER BY, becomes part of the last column. *)
Lemma group_by_keeps_next_clause :
  parse_group_by "SELECT a FROM d.t GROUP BY a, b LIMIT 5" = ["a"; "b LIMIT 5"] ∧
  parse_group_by "select a from d.t group by a having count(*) > 1 limit 5" = ["a having count(*) > 1"] ∧
  parse_group_by "select a from d.t group by a, b having count(*) > 1" = ["a"; "b having count(*) > 1"].
Proof. done. Qed.

(** Only the first name of a comma-separated FROM list is found. *)
Lemma from_list_loses_sources :
  parse_sql_sources "SELECT * FROM logs.a, metrics.b" = Ok [("logs", "a")].
Proof. reflexivity. Qed.

(** A server error shows its text only when it is a timeout or a cancellation. *)
Lemma server_error_hidden status msg :
  is_server_error status = true →
  (error_json status msg).2 = "internal server error" ∨
  str_contains "timed out" msg = true ∨ str_contains "cancelled" msg = true.
Proof.
  intros H. unfold error_json. rewrite H. destruct (str_contains "timed out" msg), (str_contains "cancelled" msg); auto.
Qed.

Lemma literals_are_invisible_witness :
  let q s := "SELECT * FROM a.t WHERE m = " +:+ with_literals [(s, " LIMIT 3")] in
  parse_limit (q "ok") = parse_limit (q "it's ORDER BY x LIMIT 9") ∧ parse_limit (q "ok") = Some 3%N.
Proof.
  intros q. split; [|reflexivity].
  apply (literals_are_invisible (λ _, None) "SELECT * FROM a.t WHERE m = " [("ok", " LIMIT 3")]
    [("it's ORDER BY x LIMIT 9", " LIMIT 3")]); [done| |done]. by repeat constructor.
Defined.
