(* ===== verification/Security.v ===== *)
(** * Security: field policies on results and datasource permissions

    Models [crates/fuse-core/src/security.rs]: the policy engine that decides
    per field whether a user sees it, sees it masked or does not see it, the
    filter that applies the decision to result batches, and the rules that
    grant roles permissions on datasources. *)

From S2P Require Import Prelude Strs Arrow ArrowRef Connector Merger.
From stdpp Require Import base list strings gmap.
From Stdlib Require Import NArith ZArith Lia SpecFloat.

(** ** Policies *)

Record PolicyConfig : Type := mkPolicy {
  pol_datasource : string; pol_index : option string;
  deny_fields : list string; mask_fields : list string; allowed_roles : list string }.

Record SecurityConfig : Type := mkSecurity { sec_enabled : bool; policies : list PolicyConfig }.

Inductive FieldPolicy : Type := Allow | Deny | Mask.
#[export] Instance FieldPolicy_eq_dec : EqDecision FieldPolicy.
Proof. solve_decision. Defined.

Record UserContext : Type := mkUser { username : string; roles : list string }.

(** [PolicyEngine]: the list of policies. *)
Definition engine_new (c : SecurityConfig) : list PolicyConfig := policies c.

Definition policy_matches (datasource index : string) (p : PolicyConfig) : bool :=
  String.eqb (pol_datasource p) datasource &&
  match pol_index p with None => true | Some i => String.eqb i index end.

Definition matching_policies (engine : list PolicyConfig) (datasource index : string) : list PolicyConfig :=
  filter (λ p, policy_matches datasource index p = true) engine.

(** The user has a role the policy lets through. *)
Definition exempt (user : UserContext) (p : PolicyConfig) : bool :=
  negb (bool_decide (allowed_roles p = [])) &&
  existsb (λ r, bool_decide (r ∈ allowed_roles p)) (roles user).

Definition deny_field (m : gmap string FieldPolicy) (f : string) : gmap string FieldPolicy :=
  match m !! f with Some _ => <[f := Deny]> m | None => m end.
Definition mask_field (m : gmap string FieldPolicy) (f : string) : gmap string FieldPolicy :=
  match m !! f with
  | Some fp => if decide (fp = Deny) then m else <[f := Mask]> m
  | None => m
  end.

Definition apply_policy (user : UserContext) (m : gmap string FieldPolicy) (p : PolicyConfig)
    : gmap string FieldPolicy :=
  if exempt user p then m
  else foldl mask_field (foldl deny_field m (deny_fields p)) (mask_fields p).

Definition evaluate (engine : list PolicyConfig) (datasource index : string) (fields : list string)
    (user : UserContext) : gmap string FieldPolicy :=
  foldl (apply_policy user) (list_to_map ((λ f, (f, Allow)) <$> fields))
    (matching_policies engine datasource index).

(** ** The filter on results *)

Definition mask_column (col : Array) : Array :=
  mkArray Utf8 ((λ i, if is_null col i then None else Some (VUtf8 "****")) <$> seq 0 (array_len col)).

(** The columns kept, with their index and policy. *)
Definition kept_columns (s : Schema) (m : gmap string FieldPolicy) : list (nat * Field * FieldPolicy) :=
  omap (λ '(i, f), let policy := default Allow (m !! name f) in
                   if decide (policy = Deny) then None else Some (i, f, policy)) (enumerate s).

Section ResultFilter.
Context `{K : ArrowKernels}.

Definition filter_batch (kept : list (nat * Field * FieldPolicy)) (b : RecordBatch) : outcome EngineError RecordBatch :=
  cols ← mapM (λ '(i, _, policy), col ← column b i;
                  Ok (if decide (policy = Mask) then mask_column col else col)) kept;
  map_err ArrowErr (try_new ((λ '(_, f, _), f) <$> kept) cols).

Definition filter_batches (engine : list PolicyConfig) (batches : list RecordBatch) (datasource index : string)
    (user : UserContext) : outcome EngineError (list RecordBatch) :=
  match batches with
  | [] => Ok []
  | b0 :: _ =>
      let m := evaluate engine datasource index (name <$> schema b0) user in
      mapM (filter_batch (kept_columns (schema b0) m)) batches
  end.
End ResultFilter.

(** ** Permissions on datasources *)

Inductive DatasourcePermission : Type := Read | Write | Admin.
#[export] Instance DatasourcePermission_eq_dec : EqDecision DatasourcePermission.
Proof. solve_decision. Defined.

Record DatasourceAccessRule : Type := mkRule {
  rule_datasource : string; rule_roles : list string; permissions : list DatasourcePermission }.

Definition rbac_check (rules : list DatasourceAccessRule) (user : UserContext) (datasource : string)
    (required : DatasourcePermission) : bool :=
  bool_decide (rules = []) ||
  existsb (λ r, String.eqb (rule_datasource r) datasource && bool_decide (required ∈ permissions r) &&
                existsb (λ role, bool_decide (role ∈ roles user)) (rule_roles r)) rules.

Definition filter_readable (rules : list DatasourceAccessRule) (user : UserContext) (datasources : list string)
    : list string :=
  filter (λ ds, rbac_check rules user ds Read = true) datasources.

(** ** What a policy decides *)

(** The policy speaks of this user on this table, and names the field. *)
Definition denied (engine : list PolicyConfig) (ds index : string) (user : UserContext) (f : string) : Prop :=
  ∃ p, p ∈ engine ∧ policy_matches ds index p = true ∧ exempt user p = false ∧ f ∈ deny_fields p.
Definition masked (engine : list PolicyConfig) (ds index : string) (user : UserContext) (f : string) : Prop :=
  ∃ p, p ∈ engine ∧ policy_matches ds index p = true ∧ exempt user p = false ∧ f ∈ mask_fields p.

Lemma deny_fields_lookup fs : ∀ m f, foldl deny_field m fs !! f =
  if decide (f ∈ fs) then const Deny <$> (m !! f) else m !! f.
Proof.
  induction fs as [|g fs IH]; intros m f; cbn [foldl].
  { by rewrite decide_False by set_solver. }
  rewrite IH. unfold deny_field. destruct (decide (f = g)) as [->|Hne].
  - rewrite (decide_True (P := g ∈ g :: fs)) by set_solver.
    destruct (m !! g) eqn:E; [rewrite lookup_insert_eq|rewrite E]; by destruct (decide (g ∈ fs)).
  - assert (match m !! g with Some _ => <[g := Deny]> m | None => m end !! f = m !! f) as ->
      by (destruct (m !! g); [by rewrite lookup_insert_ne|done]).
    by destruct (decide (f ∈ fs)), (decide (f ∈ g :: fs)); try done; exfalso; set_solver.
Qed.

Definition mask_policy (fp : FieldPolicy) : FieldPolicy := if decide (fp = Deny) then Deny else Mask.

Lemma mask_fields_lookup fs : ∀ m f, foldl mask_field m fs !! f =
  if decide (f ∈ fs) then mask_policy <$> (m !! f) else m !! f.
Proof.
  induction fs as [|g fs IH]; intros m f; cbn [foldl].
  { by rewrite decide_False by set_solver. }
  rewrite IH. unfold mask_field, mask_policy. destruct (decide (f = g)) as [->|Hne].
  - rewrite (decide_True (P := g ∈ g :: fs)) by set_solver.
    destruct (m !! g) as [fp|] eqn:E; [|rewrite E; by destruct (decide (g ∈ fs))].
    destruct (decide (fp = Deny)) as [->|];
      [rewrite E|rewrite lookup_insert_eq]; by destruct (decide (g ∈ fs)); cbn; rewrite ?decide_True, ?decide_False by done.
  - assert (match m !! g with Some fp => if decide (fp = Deny) then m else <[g := Mask]> m | None => m end !! f = m !! f)
      as -> by (destruct (m !! g) as [fp|]; [destruct (decide (fp = Deny)); [done|by rewrite lookup_insert_ne]|done]).
    by destruct (decide (f ∈ fs)), (decide (f ∈ g :: fs)); try done; exfalso; set_solver.
Qed.

(** What the policies [ps] decide for a field that starts at [start]. *)
Definition decides (ps : list PolicyConfig) (user : UserContext) (f : string) (start fp : FieldPolicy) : Prop :=
  let d := start = Deny ∨ ∃ p, p ∈ ps ∧ exempt user p = false ∧ f ∈ deny_fields p in
  let k := start = Mask ∨ ∃ p, p ∈ ps ∧ exempt user p = false ∧ f ∈ mask_fields p in
  (fp = Deny ↔ d) ∧ (fp = Mask ↔ ¬ d ∧ k).

Lemma apply_policy_lookup user m p f :
  apply_policy user m p !! f =
    if exempt user p then m !! f
    else let o := if decide (f ∈ deny_fields p) then const Deny <$> (m !! f) else m !! f in
         if decide (f ∈ mask_fields p) then mask_policy <$> o else o.
Proof.
  unfold apply_policy. destruct (exempt user p); [done|]. by rewrite mask_fields_lookup, deny_fields_lookup.
Qed.

Lemma exists_cons {A : Type} (P : A → Prop) x l : (∃ y, y ∈ x :: l ∧ P y) ↔ P x ∨ ∃ y, y ∈ l ∧ P y.
Proof. setoid_rewrite elem_of_cons. naive_solver. Qed.
Lemma exists_nil {A : Type} (P : A → Prop) : (∃ y, y ∈ @nil A ∧ P y) ↔ False.
Proof. setoid_rewrite elem_of_nil. naive_solver. Qed.

(** One policy decides, then the others. *)
Lemma policy_decides user f m p start : m !! f = Some start →
  ∃ mid, apply_policy user m p !! f = Some mid ∧ decides [p] user f start mid.
Proof.
  intros Hm. rewrite apply_policy_lookup, Hm. unfold decides. setoid_rewrite exists_cons. setoid_rewrite exists_nil.
  destruct (exempt user p) eqn:He; [exists start; split; [done|destruct start; naive_solver]|].
  destruct (decide (f ∈ deny_fields p)), (decide (f ∈ mask_fields p)); cbn;
    (eexists; split; [done|]); unfold mask_policy; destruct start; cbn; naive_solver.
Qed.

Lemma decides_cons p ps user f start mid fp :
  decides [p] user f start mid → decides ps user f mid fp → decides (p :: ps) user f start fp.
Proof.
  unfold decides. rewrite !exists_cons, !exists_nil.
  intros [D1 K1] [D2 K2]. rewrite D2, K2, D1, K1. clear.
  generalize (start = Deny) (start = Mask) (exempt user p = false ∧ f ∈ deny_fields p)
    (exempt user p = false ∧ f ∈ mask_fields p) (∃ y, y ∈ ps ∧ exempt user y = false ∧ f ∈ deny_fields y)
    (∃ y, y ∈ ps ∧ exempt user y = false ∧ f ∈ mask_fields y). tauto.
Qed.

Lemma policies_decide user f ps : ∀ m start, m !! f = Some start →
  ∃ fp, foldl (apply_policy user) m ps !! f = Some fp ∧ decides ps user f start fp.
Proof.
  induction ps as [|p ps IH]; intros m start Hm; cbn [foldl].
  { exists start. split; [done|]. unfold decides. rewrite !exists_nil. destruct start; naive_solver. }
  destruct (policy_decides user f m p start Hm) as (mid & Ho & Hd).
  destruct (IH _ _ Ho) as (fp & Hfp & Hd'). exists fp. split; [done|]. by eapply decides_cons.
Qed.

Lemma evaluate_decides engine ds index fields user f : f ∈ fields →
  ∃ fp, evaluate engine ds index fields user !! f = Some fp ∧
    (fp = Deny ↔ denied engine ds index user f) ∧
    (fp = Mask ↔ ¬ denied engine ds index user f ∧ masked engine ds index user f).
Proof.
  intros Hf. destruct (policies_decide user f (matching_policies engine ds index)
    (list_to_map ((λ f, (f, Allow)) <$> fields)) Allow) as (fp & H & Hd).
  { destruct (list_to_map _ !! f) as [fp|] eqn:E.
    - apply elem_of_list_to_map_2, list_elem_of_fmap in E as (g & [= -> ->] & _). done.
    - apply not_elem_of_list_to_map_2 in E. exfalso. apply E. rewrite <- list_fmap_compose.
      apply list_elem_of_fmap. by exists f. }
  exists fp. split; [done|]. unfold decides, matching_policies in Hd. unfold denied, masked.
  destruct Hd as [Hd Hk]. rewrite Hd, Hk.
  assert (∀ (P : PolicyConfig → Prop),
    (∃ p, p ∈ filter (λ p, policy_matches ds index p = true) engine ∧ exempt user p = false ∧ P p) ↔
    (∃ p, p ∈ engine ∧ policy_matches ds index p = true ∧ exempt user p = false ∧ P p)) as Hex
    by (intros P; split; intros (q & Hq & ?); exists q; rewrite list_elem_of_filter in *; naive_solver).
  rewrite !Hex. naive_solver.
Qed.

(** ** What the filter returns *)

Lemma kept_spec s m i f fp :
  (i, f, fp) ∈ kept_columns s m ↔ s !! i = Some f ∧ fp = default Allow (m !! name f) ∧ fp ≠ Deny.
Proof.
  unfold kept_columns. rewrite list_elem_of_omap. setoid_rewrite list_elem_of_lookup. setoid_rewrite enumerate_lookup.
  split.
  - intros ([j g] & (k & Hk) & H). apply fmap_Some in Hk as (g' & Hg & [= -> ->]).
    destruct (decide (default Allow (m !! name g') = Deny)) as [|Hd]; [done|]. by injection H as -> -> <-.
  - intros (Hs & -> & Hd). exists (i, f). split; [exists i; by rewrite Hs|]. by rewrite decide_False.
Qed.

Lemma kept_fields_sublist s m : ((λ '(_, f, _), f) <$> kept_columns s m) `sublist_of` s.
Proof.
  unfold kept_columns, enumerate. generalize 0 at 1. induction s as [|f s IH]; intros i; [done|].
  cbn [enumerate_from omap list_omap].
  destruct (decide _); [by apply sublist_cons|]. cbn [fmap list_fmap]. by apply sublist_skip.
Qed.

Lemma mask_column_value col i :
  value_at (mask_column col) i = const (VUtf8 "****") <$> value_at col i.
Proof.
  unfold mask_column, value_at at 1. cbn [data]. rewrite list_lookup_fmap.
  destruct (decide (i < array_len col)) as [Hi|Hi].
  - rewrite lookup_seq_lt by done. cbn. unfold is_null. by case_bool_decide as Hn; [rewrite Hn|destruct (value_at col i)].
  - rewrite lookup_seq_ge by lia. unfold value_at. by rewrite lookup_ge_None_2 by (unfold array_len in Hi; lia).
Qed.

Lemma mask_column_len col : array_len (mask_column col) = array_len col.
Proof. unfold mask_column, array_len. cbn. by rewrite length_fmap, length_seq. Qed.

Lemma mask_conforms f col : field_type f = Utf8 → conforms f col → conforms f (mask_column col).
Proof.
  intros Ht [_ Hn]. split; [done|]. destruct Hn as [|Hn]; [by left|right].
  cbn. apply Forall_fmap, Forall_forall. intros i Hi%elem_of_seq. cbn.
  destruct (is_null col i) eqn:Hni; [|done]. apply is_null_true in Hni. exfalso.
  destruct (lookup_lt_is_Some_2 (data col) i) as [c Hc]; [unfold array_len in Hi; lia|].
  rewrite Forall_lookup in Hn. apply (Hn i c Hc). unfold value_at in Hni. by rewrite Hc in Hni.
Qed.

(** The column the filter puts under a kept field. *)
Definition shown_column (b : RecordBatch) (k : nat * Field * FieldPolicy) : Array :=
  let '(i, _, fp) := k in
  let col := default (mkArray Utf8 []) (columns b !! i) in
  if decide (fp = Mask) then mask_column col else col.

Section FilterSpec.
Context `{K : ArrowKernels, !ArrowLaws K}.

Lemma filter_batch_ok b m :
  let kept := kept_columns (schema b) m in
  wf_batch b → kept ≠ [] → (∀ i f, (i, f, Mask) ∈ kept → field_type f = Utf8) →
  filter_batch kept b = Ok (mkBatch ((λ '(_, f, _), f) <$> kept) (shown_column b <$> kept) (num_rows b)).
Proof.
  intros kept Hwf Hne Hutf. unfold filter_batch.
  assert (∀ i f fp, (i, f, fp) ∈ kept → ∃ col, columns b !! i = Some col ∧ conforms f col ∧ array_len col = num_rows b)
    as Hcol.
  { intros i f fp (Hf & _)%kept_spec. destruct Hwf as [H2 Hlen].
    destruct (Forall2_lookup_l _ _ _ _ _ H2 Hf) as (col & Hc & Hconf). exists col. split; [done|]. split; [done|].
    by eapply Forall_lookup_1 in Hlen. }
  rewrite (mapM_outcome_Ok _ (shown_column b)).
  2:{ intros [[i f] fp] Hk. destruct (Hcol i f fp Hk) as (col & Hc & _). unfold column, shown_column. by rewrite Hc. }
  cbn [mbind outcome_bind].
  assert (wf_columns ((λ '(_, f, _), f) <$> kept) (shown_column b <$> kept) (num_rows b)) as Hw.
  { split.
    - apply Forall2_fmap, Forall_Forall2_diag, Forall_forall. intros [[i f] fp] Hk.
      destruct (Hcol i f fp Hk) as (col & Hc & Hconf & _). unfold shown_column. rewrite Hc. cbn.
      case_decide; [|done]. subst fp. apply mask_conforms; [by eapply Hutf|done].
    - apply Forall_fmap, Forall_forall. intros [[i f] fp] Hk. destruct (Hcol i f fp Hk) as (col & Hc & _ & Hl).
      unfold shown_column. cbn. rewrite Hc. cbn. case_decide; [by rewrite mask_column_len|done]. }
  destruct kept as [|k kept]; [done|]. rewrite !fmap_cons in *.
  assert (array_len (shown_column b k) = num_rows b) as Hk by by destruct Hw as [_ [? ?]%Forall_cons].
  rewrite try_new_ok by by rewrite Hk. by rewrite Hk.
Qed.
End FilterSpec.

(** [b'] is what the user may see of [b]. *)
Definition visible_part (engine : list PolicyConfig) (ds index : string) (user : UserContext) (b b' : RecordBatch) : Prop :=
  num_rows b' = num_rows b ∧ schema b' `sublist_of` schema b ∧
  (∀ f, f ∈ schema b' ↔ f ∈ schema b ∧ ¬ denied engine ds index user (name f)) ∧
  Forall2 (λ f col', ∃ i col, schema b !! i = Some f ∧ columns b !! i = Some col ∧
     (masked engine ds index user (name f) → ∀ row, value_at col' row = const (VUtf8 "****") <$> value_at col row) ∧
     (¬ masked engine ds index user (name f) → col' = col)) (schema b') (columns b').

(** The policy of every field of the schema, as the engine decides it. *)
Definition policy_map (engine : list PolicyConfig) (ds index : string) (user : UserContext) (s : Schema)
    : gmap string FieldPolicy := evaluate engine ds index (name <$> s) user.

Section Visible.
Context (engine : list PolicyConfig) (ds index : string) (user : UserContext) (s : Schema).
Abbreviation m := (policy_map engine ds index user s).

Lemma policy_map_lookup f : f ∈ s →
  ∃ fp, m !! name f = Some fp ∧ (fp = Deny ↔ denied engine ds index user (name f)) ∧
    (fp = Mask ↔ ¬ denied engine ds index user (name f) ∧ masked engine ds index user (name f)).
Proof. intros Hf. apply evaluate_decides, list_elem_of_fmap. by exists f. Qed.

Lemma kept_iff f : (∃ i fp, (i, f, fp) ∈ kept_columns s m) ↔ f ∈ s ∧ ¬ denied engine ds index user (name f).
Proof.
  setoid_rewrite kept_spec. split.
  - intros (i & fp' & Hi & -> & Hn). assert (f ∈ s) as Hf by by eapply list_elem_of_lookup_2. split; [done|].
    destruct (policy_map_lookup f Hf) as (fp & Hfp & Hd & _). by rewrite Hfp, Hd in Hn.
  - intros [Hf Hn]. destruct (policy_map_lookup f Hf) as (fp & Hfp & Hd & _).
    apply list_elem_of_lookup in Hf as [i Hi]. exists i, fp. rewrite Hfp. by rewrite Hd.
Qed.

Lemma kept_masked i f : (i, f, Mask) ∈ kept_columns s m → f ∈ s ∧ masked engine ds index user (name f).
Proof.
  intros (Hf & Hfp & _)%kept_spec. apply list_elem_of_lookup_2 in Hf. split; [done|].
  destruct (policy_map_lookup f Hf) as (fp & Hl & _ & Hmk). rewrite Hl in Hfp. cbn in Hfp. subst fp. by apply Hmk.
Qed.

Lemma shown_visible b : wf_batch b → schema b = s →
  visible_part engine ds index user b
    (mkBatch ((λ '(_, f, _), f) <$> kept_columns s m) (shown_column b <$> kept_columns s m) (num_rows b)).
Proof.
  intros [H2 _] Hsb. split; [done|]. cbn [Arrow.schema Arrow.columns]. rewrite Hsb in *.
  split; [apply kept_fields_sublist|]. split.
  - intros f. rewrite <- kept_iff, list_elem_of_fmap. split.
    + intros ([[i f'] fp] & -> & Hin). eauto.
    + intros (i & fp & Hin). by exists (i, f, fp).
  - apply Forall2_fmap, Forall_Forall2_diag, Forall_forall. intros [[i f] fp] Hin.
    apply kept_spec in Hin as (Hf & Hfp & Hnd). destruct (Forall2_lookup_l _ _ _ _ _ H2 Hf) as (col & Hc & _).
    destruct (policy_map_lookup f) as (fp' & Hl & Hd & Hmk); [by eapply list_elem_of_lookup_2|].
    rewrite Hl in Hfp. cbn in Hfp. subst fp'. exists i, col. split; [done|]. split; [done|]. cbn. rewrite Hc. cbn.
    split; [intros Hms; rewrite decide_True by tauto; intros row; apply mask_column_value|].
    intros Hms. rewrite decide_False; [done|]. tauto.
Qed.
End Visible.

(** C14: Field policies hold on every result of at least one batch, all of one
    schema: with some field left to the user
    and masked fields of text type, the filter succeeds and returns, batch by
    batch and row by row, exactly the fields no applicable policy denies, in
    their order; a masked field shows four asterisks for every value and its
    nulls, and every other field keeps its column. *)
Theorem field_policies_enforced `{K : ArrowKernels, !ArrowLaws K} engine bs ds index user s :
  bs ≠ [] → Forall (λ b, wf_batch b ∧ schema b = s) bs →
  (∃ f, f ∈ s ∧ ¬ denied engine ds index user (name f)) →
  (∀ f, f ∈ s → masked engine ds index user (name f) → field_type f = Utf8) →
  ∃ out, filter_batches engine bs ds index user = Ok out ∧
    Forall2 (visible_part engine ds index user) bs out.
Proof.
  intros Hne Hbs (f0 & Hf0) Hutf. set (kept := kept_columns s (policy_map engine ds index user s)).
  exists ((λ b, mkBatch ((λ '(_, f, _), f) <$> kept) (shown_column b <$> kept) (num_rows b)) <$> bs). split.
  - destruct bs as [|b0 bs]; [done|]. cbn [filter_batches].
    assert (schema b0 = s) as -> by by apply Forall_cons in Hbs as [[_ ?] _].
    apply mapM_outcome_Ok. intros b Hb. rewrite Forall_forall in Hbs. destruct (Hbs b Hb) as [Hwf Hsb].
    unfold kept. rewrite <- Hsb. apply filter_batch_ok; [done|rewrite Hsb..].
    + apply kept_iff in Hf0 as (i & fp & Hin). intros E. rewrite E in Hin. by apply not_elem_of_nil in Hin.
    + intros i f [Hf Hm]%kept_masked. by apply Hutf.
  - apply Forall2_fmap_r, Forall_Forall2_diag. eapply Forall_impl; [exact Hbs|].
    intros b [Hwf Hsb]. by apply shown_visible.
Qed.

(** ** Examples *)

Definition ex_policy : PolicyConfig := mkPolicy "logs" None ["ssn"] ["email"; "age"] ["admin"].
Definition ex_field (n : string) (t : DataType) : Field := mkField n t true.
Definition ex_users : RecordBatch :=
  mkBatch [ex_field "id" Int64; ex_field "ssn" Utf8; ex_field "email" Utf8]
    [mkArray Int64 [Some (VInt 1); Some (VInt 2)]; mkArray Utf8 [Some (VUtf8 "s1"); None];
     mkArray Utf8 [Some (VUtf8 "a@b"); None]] 2.

Lemma field_policies_enforced_witness :
  (∃ out, filter_batches (K := RefArrow) [ex_policy] [ex_users] "logs" "app" (mkUser "bob" ["viewer"]) = Ok out ∧
     Forall2 (visible_part [ex_policy] "logs" "app" (mkUser "bob" ["viewer"])) [ex_users] out) ∧
  filter_batches (K := RefArrow) [ex_policy] [ex_users] "logs" "app" (mkUser "bob" ["viewer"]) =
    Ok [mkBatch [ex_field "id" Int64; ex_field "email" Utf8]
          [mkArray Int64 [Some (VInt 1); Some (VInt 2)]; mkArray Utf8 [Some (VUtf8 "****"); None]] 2].
Proof.
  split; [|vm_compute; reflexivity].
  apply (field_policies_enforced [ex_policy] [ex_users] "logs" "app" (mkUser "bob" ["viewer"]) (schema ex_users)).
  - done.
  - constructor; [|constructor]. split; [|done]. by apply (bool_decide_eq_true_1 (wf_batch ex_users)).
  - exists (ex_field "id" Int64). split; [left|]. intros (p & Hp & _ & _ & Hf).
    apply list_elem_of_singleton in Hp as ->. apply list_elem_of_singleton in Hf. discriminate Hf.
  - intros f Hf (p & Hp & _ & _ & Hm). apply list_elem_of_singleton in Hp as ->. cbn in Hf.
    rewrite !elem_of_cons, elem_of_nil in Hf. destruct Hf as [-> |[-> |[-> |[]]]]; [|done..].
    cbn in Hm. rewrite !elem_of_cons, elem_of_nil in Hm. naive_solver.
Defined.

(** Masking a column that is not text puts a text column under the old field:
    the batch is refused and the whole result is an error. *)
Definition ex_ages : RecordBatch :=
  mkBatch [ex_field "id" Int64; ex_field "age" Int64]
    [mkArray Int64 [Some (VInt 1)]; mkArray Int64 [Some (VInt 42)]] 1.

Lemma masked_number_fails :
  ∃ e, filter_batches (K := RefArrow) [ex_policy] [ex_ages] "logs" "app" (mkUser "bob" ["viewer"]) = Err e.
Proof. eexists. vm_compute. reflexivity. Qed.

(** A datasource nobody has a rule for is closed as soon as one rule exists. *)
Lemma readable_exact rules user ds l : rules ≠ [] →
  ds ∈ filter_readable rules user l ↔ ds ∈ l ∧
    ∃ r role, r ∈ rules ∧ rule_datasource r = ds ∧ Read ∈ permissions r ∧ role ∈ rule_roles r ∧ role ∈ roles user.
Proof.
  intros Hne. unfold filter_readable, rbac_check. rewrite list_elem_of_filter.
  rewrite bool_decide_eq_false_2 by done. cbn [orb].
  assert (∀ {A} (q : A → bool) k, existsb q k = true ↔ ∃ x, x ∈ k ∧ q x = true) as Hex.
  { intros A q k. rewrite existsb_exists. by setoid_rewrite list_elem_of_In. }
  rewrite Hex. setoid_rewrite andb_true_iff. setoid_rewrite andb_true_iff. setoid_rewrite Hex.
  setoid_rewrite bool_decide_eq_true. setoid_rewrite String.eqb_eq. naive_solver.
Qed.
