(* ===== verification/ServerState.v ===== *)
(** * ServerState: the small stores the query handler reads and writes

    Models the result cache of [crates/fuse-server/src/plan_cache.rs], the
    running queries and the discovery cache of [crates/fuse-server/src/api.rs]
    and the dollar estimates of [crates/fuse-server/src/cost_estimator.rs].
    The clock is the argument [now]; the order in which a hash map is visited
    is the parameter [iter]. *)

From S2P Require Import Prelude Strs Float Json Sorting QueryText.
From stdpp Require Import base list strings gmap pretty sets.
From Stdlib Require Import NArith ZArith Lia Ascii SpecFloat.

(** ** The result cache *)

Section ResultCache.
Context {V : Type}.

Record CachedResult : Type := mkCached { response_json : V; cr_created : N }.
Record ResultCache : Type := mkResultCache {
  rc_entries : gmap string CachedResult; rc_ttl : N; rc_max_size : nat }.

Context (iter : gmap string CachedResult → list (string * CachedResult)).

Definition results_new (ttl : N) (max_size : nat) : ResultCache := mkResultCache ∅ ttl max_size.
Definition with_entries (c : ResultCache) (m : gmap string CachedResult) : ResultCache :=
  mkResultCache m (rc_ttl c) (rc_max_size c).

Definition fresh (ttl now : N) (r : CachedResult) : bool := (now - cr_created r <? ttl)%N.

(** An expired entry is removed when it is read. *)
Definition result_get (c : ResultCache) (key : string) (now : N) : option CachedResult * ResultCache :=
  match rc_entries c !! key with
  | None => (None, c)
  | Some r => if fresh (rc_ttl c) now r then (Some r, c) else (None, with_entries c (delete key (rc_entries c)))
  end.

(** At capacity: drop what expired, then the oldest entry. *)
Definition make_room (ttl : N) (max_size : nat) (now : N) (m : gmap string CachedResult) : gmap string CachedResult :=
  if max_size <=? size m then
    let m := filter (λ kv, fresh ttl now kv.2 = true) m in
    if max_size <=? size m then
      match min_by_key (λ kv : string * CachedResult, cr_created kv.2) (iter m) with
      | Some (oldest_key, _) => delete oldest_key m
      | None => m
      end
    else m
  else m.

Definition result_insert (c : ResultCache) (key : string) (v : V) (now : N) : ResultCache :=
  with_entries c (<[key := mkCached v now]> (make_room (rc_ttl c) (rc_max_size c) now (rc_entries c))).

Definition invalidate_by_datasource (c : ResultCache) (datasource : string) : ResultCache :=
  with_entries c (filter (λ kv, str_contains datasource kv.1 = false) (rc_entries c)).
Definition results_clear (c : ResultCache) : ResultCache := with_entries c ∅.
Definition results_len (c : ResultCache) : nat := size (rc_entries c).
End ResultCache.
Arguments CachedResult : clear implicits.
Arguments ResultCache : clear implicits.

(** ** Running queries *)

(** The queries with a live token, and the tokens that were cancelled. *)
Record RunningQueries : Type := mkRunning { live_tokens : gset string; cancelled_tokens : gset string }.

Definition running_new : RunningQueries := mkRunning ∅ ∅.
Definition running_insert (r : RunningQueries) (id : string) : RunningQueries :=
  mkRunning ({[id]} ∪ live_tokens r) (cancelled_tokens r ∖ {[id]}).
Definition running_remove (r : RunningQueries) (id : string) : RunningQueries :=
  mkRunning (live_tokens r ∖ {[id]}) (cancelled_tokens r).
Definition running_cancel (r : RunningQueries) (id : string) : bool * RunningQueries :=
  if decide (id ∈ live_tokens r)
  then (true, mkRunning (live_tokens r ∖ {[id]}) ({[id]} ∪ cancelled_tokens r)) else (false, r).
Definition running_count (r : RunningQueries) : nat := size (live_tokens r).
Definition cancel_all (r : RunningQueries) : RunningQueries := mkRunning ∅ (live_tokens r ∪ cancelled_tokens r).

(** ** The discovery cache of the API *)

Module Discovery.
Record SchemaCacheEntry : Type := mkEntry { sc_data : Value; cached_at : N }.
Record SchemaCache : Type := mkSchemas { sc_entries : gmap string SchemaCacheEntry; sc_ttl_secs : N }.

(** [now - cached_at] in [u64]: a release build wraps around. *)
Definition age (now cached : N) : N := ((now + 18446744073709551616 - cached) `mod` 18446744073709551616)%N.

Definition schema_get (c : SchemaCache) (key : string) (now : N) : option Value :=
  entry ← sc_entries c !! key;
  if (sc_ttl_secs c <? age now (cached_at entry))%N then None else Some (sc_data entry).
Definition schema_set (c : SchemaCache) (key : string) (data : Value) (now : N) : SchemaCache :=
  mkSchemas (<[key := mkEntry data now]> (sc_entries c)) (sc_ttl_secs c).
End Discovery.

(** ** Dollar estimates *)

Module Dollars.
Record CostEstimate : Type := mkEstimate {
  ce_datasource : string; ce_connector_type : string; ce_rows : N; ce_bytes : N; cost_usd : f64; breakdown : string }.
Record QueryCostEstimate : Type := mkQueryCost { total_cost_usd : f64; per_datasource : list CostEstimate }.

(** [f.ceil()] of a float that is not negative. *)
Definition fceil (f : f64) : f64 :=
  match f with
  | S754_finite false m e =>
      if (0 <=? e)%Z then f
      else f64_of_N ((Npos m + 2 ^ Z.to_N (- e) - 1) / 2 ^ Z.to_N (- e))
  | _ => f
  end.

Definition f_TB : f64 := f64_of_N (1024 * 1024 * 1024 * 1024).
Definition f_GB : f64 := f64_of_N (1024 * 1024 * 1024).
Definition f_64MB : f64 := f64_of_N (64 * 1024 * 1024).
Definition f_one : f64 := f64_of_N 1.
Definition f_6_25 : f64 := S754_finite false 7036874417766400 (-50).
Definition f_rcu : f64 := S754_finite false 4722366482869645 (-74).
Definition f_get : f64 := S754_finite false 7378697629483821 (-64).
Definition f_0_005 : f64 := S754_finite false 5764607523034235 (-60).
Definition f_0_01 : f64 := S754_finite false 5764607523034235 (-59).

Section Estimates.
(** [show_fixed n] is [{:.n}]; [TIMES] is the multiplication sign. *)
Context (show_fixed : nat → f64 → string).
Definition TIMES : string := String (ascii_of_nat 195) (String (ascii_of_nat 151) "").

Definition connector_cost (connector_type : string) (rows bytes : N) : f64 * string :=
  let one_of (l : list string) := bool_decide (connector_type ∈ l) in
  let r := f64_of_N rows in
  let b := f64_of_N bytes in
  if one_of ["athena"] then
    let tb := fdiv b f_TB in
    (fmul tb (f64_of_N 5), show_fixed 4 tb +:+ " TB scanned " +:+ TIMES +:+ " $5/TB")
  else if one_of ["bigquery"] then
    let tb := fdiv b f_TB in
    (fmul tb f_6_25, show_fixed 4 tb +:+ " TB processed " +:+ TIMES +:+ " $6.25/TB")
  else if one_of ["dynamodb"] then
    let rcus := fceil (fdiv r (f64_of_N 4)) in
    (fmul rcus f_rcu, show_fixed 0 rcus +:+ " RCUs " +:+ TIMES +:+ " $0.25/M")
  else if one_of ["s3"; "s3-o11y"] then
    let requests := fmax (fceil (fdiv b f_64MB)) f_one in
    (fmul requests f_get, show_fixed 0 requests +:+ " GET requests " +:+ TIMES +:+ " $0.0004")
  else if one_of ["cloudwatch"] then
    let gb := fdiv b f_GB in
    (fmul gb f_0_005, show_fixed 2 gb +:+ " GB scanned " +:+ TIMES +:+ " $0.005/GB")
  else if one_of ["timestream"] then
    let gb := fdiv b f_GB in
    (fmul gb f_0_01, show_fixed 2 gb +:+ " GB scanned " +:+ TIMES +:+ " $0.01/GB")
  else if one_of ["snowflake"] then
    let credits := fmul (fmax (fceil (fdiv r (f64_of_N 100000))) f_one) f_0_01 in
    (fmul credits (f64_of_N 3), show_fixed 2 credits +:+ " credits " +:+ TIMES +:+ " $3/credit")
  else (f_zero, "no cost model (self-hosted)").

Definition estimate_cost (connector_type datasource : string) (rows bytes : N) : CostEstimate :=
  let '(cost, text) := connector_cost connector_type rows bytes in
  mkEstimate datasource connector_type rows bytes cost text.

Definition estimate_query_cost (datasources : list (string * string * N * N)) : QueryCostEstimate :=
  let per := (λ '(ds, ct, rows, bytes), estimate_cost ct ds rows bytes) <$> datasources in
  mkQueryCost (fsum (cost_usd <$> per)) per.
End Estimates.
End Dollars.

(** ** Theorems *)

Section ResultCacheSpec.
Context {V : Type} (iter : gmap string (CachedResult V) → list (string * CachedResult V))
  (iter_ok : ∀ m, Permutation (iter m) (map_to_list m)).
Implicit Types c : ResultCache V.

Lemma make_room_lookup ttl n now (m : gmap string (CachedResult V)) k r :
  make_room iter ttl n now m !! k = Some r → m !! k = Some r.
Proof.
  unfold make_room. destruct (n <=? size m); [|done].
  set (m' := filter _ m). assert (∀ k r, m' !! k = Some r → m !! k = Some r) as Hm'
    by (intros ? ? [? _]%map_lookup_filter_Some; done).
  destruct (n <=? size m'); [|apply Hm'].
  destruct (min_by_key _ _) as [[o ?]|]; [|apply Hm']. intros [_ ?]%lookup_delete_Some. by apply Hm'.
Qed.

Lemma make_room_size ttl n now (m : gmap string (CachedResult V)) :
  0 < n → size m ≤ n → size (make_room iter ttl n now m) < n.
Proof.
  intros Hn Hm. unfold make_room. destruct (Nat.leb_spec n (size m)) as [Hle|]; [|lia].
  set (m' := filter _ m). destruct (Nat.leb_spec n (size m')) as [Hle'|]; [|lia].
  assert (size m' ≤ size m) as Hsz by (apply map_subseteq_size, map_filter_subseteq).
  assert (iter m' ≠ []) as Hne.
  { intros E. pose proof (Permutation_length (iter_ok m')) as HL. rewrite E in HL.
    rewrite length_map_to_list in HL. cbn in HL. lia. }
  destruct (min_by_key_Some (λ kv : string * CachedResult V, cr_created kv.2) (iter m') Hne) as ([k r] & -> & Hin & _).
  rewrite iter_ok in Hin. apply elem_of_map_to_list in Hin.
  rewrite map_size_delete_Some by by rewrite Hin. lia.
Qed.

(** A cached result is returned unchanged, under its own key only, and
    only while it is younger than the time to live; storing results never
    makes the cache exceed its capacity. *)
Theorem result_cache_serves_fresh c key v now now' key' :
  0 < rc_max_size c → results_len c ≤ rc_max_size c → (now ≤ now')%N →
  let c' := result_insert iter c key v now in
  results_len c' ≤ rc_max_size c ∧
  (result_get c' key now').1 = (if (now' - now <? rc_ttl c)%N then Some (mkCached v now) else None) ∧
  (key' ≠ key → ∀ r, (result_get c' key' now').1 = Some r → (result_get c key' now').1 = Some r).
Proof.
  intros Hn Hlen Hnow c'. unfold results_len, c', result_insert, result_get, with_entries.
  cbn [rc_entries rc_ttl rc_max_size]. split; [|split].
  - rewrite map_size_insert. pose proof (make_room_size (rc_ttl c) (rc_max_size c) now (rc_entries c) Hn Hlen).
    destruct (make_room _ _ _ _ _ !! key); unfold id; lia.
  - rewrite lookup_insert_eq. unfold fresh. cbn. by destruct (_ <? _)%N.
  - intros Hne r. rewrite lookup_insert_ne by done.
    destruct (make_room _ _ _ _ _ !! key') as [r'|] eqn:E; [|done]. apply make_room_lookup in E as ->.
    by destruct (fresh (rc_ttl c) now' r').
Qed.
End ResultCacheSpec.

Lemma result_cache_serves_fresh_witness :
  let c : ResultCache string := results_new 30 2 in
  let c' := result_insert map_to_list c "sql:q" "rows" 100 in
  (result_get c' "sql:q" 110).1 = Some (mkCached "rows" 100) ∧ (result_get c' "sql:q" 130).1 = None.
Proof.
  intros c c'. split.
  - destruct (result_cache_serves_fresh map_to_list (λ m, reflexivity _) c "sql:q" "rows" 100 110 "sql:r")
      as (_ & H & _); [cbn; lia|vm_compute; lia|lia|]. exact H.
  - destruct (result_cache_serves_fresh map_to_list (λ m, reflexivity _) c "sql:q" "rows" 100 130 "sql:r")
      as (_ & H & _); [cbn; lia|vm_compute; lia|lia|]. exact H.
Defined.

(** A token is live or cancelled, never both, and a removed query has no live token. *)
Definition running_inv (r : RunningQueries) : Prop := live_tokens r ## cancelled_tokens r.

Lemma running_ops_inv r id :
  running_inv r → running_inv (running_insert r id) ∧ running_inv (running_remove r id) ∧
  running_inv (running_cancel r id).2 ∧ running_inv (cancel_all r) ∧
  (id ∉ live_tokens (running_remove r id)) ∧ ((running_cancel r id).1 = bool_decide (id ∈ live_tokens r)) ∧
  (id ∉ live_tokens r → live_tokens (running_remove (running_insert r id) id) = live_tokens r).
Proof.
  unfold running_inv, running_insert, running_remove, running_cancel, cancel_all. intros H.
  split_and!; cbn; try set_solver.
  - destruct (decide _); cbn; set_solver.
  - destruct (decide _) as [Hd|Hd]; cbn; symmetry;
      [by apply bool_decide_eq_true_2|by apply bool_decide_eq_false_2].
Qed.
