(* ===== verification/Results.v ===== *)
(** * Results: what the query handler does with the rows of a query

    Models the operators of [crates/fuse-server/src/api.rs] on result batches:
    the HAVING filter, the re-aggregation of the groups of several sources,
    the global page (OFFSET, LIMIT and cursor), the values of an IN sub-query,
    and the JSON and NDJSON renderings.  Arrow's filter and array
    concatenation are the class [RowKernels], with what Arrow documents of
    them in [RowLaws]; [RefRows] is a concrete model. *)

From S2P Require Import Prelude Strs Float Json Arrow ArrowRef Connector Merger QueryText.
From stdpp Require Import base list strings gmap pretty.
From Stdlib Require Import NArith ZArith Lia Ascii SpecFloat.

(** ** Kernels *)

(** The rows of a column or batch whose flag is set. *)
Fixpoint select_flags {A : Type} (flags : list bool) (l : list A) : list A :=
  match flags, l with
  | b :: flags, x :: l => if (b : bool) then x :: select_flags flags l else select_flags flags l
  | _, _ => []
  end.
Definition count_true (flags : list bool) : nat := length (filter (λ b, b = true) flags).
Definition filter_ref (b : RecordBatch) (flags : list bool) : RecordBatch :=
  mkBatch (schema b) ((λ a, mkArray (data_type a) (select_flags flags (data a))) <$> columns b) (count_true flags).

Class RowKernels : Type := {
  filter_record_batch : RecordBatch → list bool → outcome ArrowError RecordBatch;
  concat_arrays : list Array → outcome ArrowError Array;
}.

Class RowLaws (R : RowKernels) : Prop := {
  filter_record_batch_ok b flags :
    wf_batch b → length flags = num_rows b → filter_record_batch b flags = Ok (filter_ref b flags);
  concat_arrays_ok t a l :
    Forall (λ a, data_type a = t) (a :: l) → concat_arrays (a :: l) = Ok (mkArray t (concat (data <$> a :: l)));
}.

Definition RefRows : RowKernels := {|
  filter_record_batch b flags := Ok (filter_ref b flags);
  concat_arrays l :=
    match l with
    | [] => Err "concat requires input of at least one array"
    | a :: _ =>
        if decide (Forall (λ a', data_type a' = data_type a) l) then Ok (mkArray (data_type a) (concat (data <$> l)))
        else Err "It is not possible to concatenate arrays of different data types"
    end |}.

#[export] Instance RefRows_laws : RowLaws RefRows.
Proof.
  constructor; [done|]. intros t a l H. cbn. rewrite decide_True.
  - apply Forall_cons in H as [<- _]. done.
  - eapply Forall_impl; [exact H|]. intros a' ->. by apply Forall_cons in H as [<- _].
Qed.

(** [array.slice(i, 1)]. *)
Definition slice_one (a : Array) (i : nat) : Array := mkArray (data_type a) (take 1 (drop i (data a))).

(** [array_value_to_string(…).unwrap_or_default()]. *)
Definition shown `{K : ArrowKernels} (a : Array) (i : nat) : string :=
  match array_value_to_string a i with inr s => s | inl _ => "" end.

(** The groups of a re-aggregation: the values of the group columns, and a sum
    per aggregate column. *)
Abbreviation Groups := (gmap (list string) (list f64)).

Section Results.
Context `{K : ArrowKernels} `{R : RowKernels} (parse_f64 : string → option spec_float).

(** ** HAVING ([apply_having_filter]) *)

Definition f_epsilon : f64 := S754_finite false 4503599627370496 (-104).

Definition having_passes (h : HavingCondition) (val : f64) : bool :=
  let v := hv_value h in
  if String.eqb (hv_op h) ">" then fltb v val
  else if String.eqb (hv_op h) ">=" then fleb v val
  else if String.eqb (hv_op h) "<" then fltb val v
  else if String.eqb (hv_op h) "<=" then fleb val v
  else if String.eqb (hv_op h) "=" then fltb (SFabs (fsub val v)) f_epsilon
  else if String.eqb (hv_op h) "!=" then fleb f_epsilon (SFabs (fsub val v))
  else true.

(** The test of one row: nulls and texts that are no numbers fail it. *)
Definition having_row (h : HavingCondition) (col : Array) (i : nat) : bool :=
  if is_null col i then false
  else match parse_f64 (shown col i) with
       | Some v => having_passes h v
       | None => false
       end.

Definition having_column (h : HavingCondition) (s : Schema) : option nat :=
  position (λ f, String.eqb (to_lowercase (name f)) (to_lowercase (hv_column h))) s.

(** A batch without the column is left out. *)
Definition having_batch (h : HavingCondition) (b : RecordBatch) : option RecordBatch :=
  idx ← having_column h (schema b);
  col ← columns b !! idx;
  ok_value (filter_record_batch b (having_row h col <$> seq 0 (num_rows b))).
Definition apply_having_filter (bs : list RecordBatch) (h : HavingCondition) : list RecordBatch :=
  omap (having_batch h) bs.

(** ** Groups of several sources ([reaggregate_batches]) *)

Definition group_key (group_indices : list nat) (b : RecordBatch) (row : nat) : outcome string (list string) :=
  mapM (λ i, col ← column b i; Ok (shown col row)) group_indices.

(** [entry[j] += v] where the cell is a number. *)
Definition add_cell (b : RecordBatch) (row : nat) (entry : list f64) (x : nat * nat) : outcome string (list f64) :=
  let '(j, col_idx) := x in
  col ← column b col_idx;
  if is_null col row then Ok entry
  else match parse_f64 (shown col row) with
       | Some v => Ok (alter (λ s, fadd s v) j entry)
       | None => Ok entry
       end.

Fixpoint foldM {A B : Type} (f : A → B → outcome string A) (a : A) (l : list B) : outcome string A :=
  match l with
  | [] => Ok a
  | x :: l => a ← f a x; foldM f a l
  end.

Definition add_row (group_indices agg_indices : list nat) (b : RecordBatch) (groups : Groups) (row : nat)
    : outcome string Groups :=
  key ← group_key group_indices b row;
  let entry := default (replicate (length agg_indices) f_zero) (groups !! key) in
  entry ← foldM (add_cell b row) entry (enumerate agg_indices);
  Ok (<[key := entry]> groups).

Definition add_batch (group_indices agg_indices : list nat) (groups : Groups) (b : RecordBatch)
    : outcome string Groups :=
  foldM (add_row group_indices agg_indices b) groups (seq 0 (num_rows b)).

(** The indices of the group columns and of the others but [_datasource]. *)
Definition group_indices_of (s : Schema) (group_cols : list string) : list nat := omap (index_of s) group_cols.
Definition agg_indices_of (s : Schema) (group_indices : list nat) : list nat :=
  omap (λ '(i, f), if bool_decide (i ∈ group_indices) || String.eqb (name f) "_datasource" then None else Some i)
    (enumerate s).

Definition name_at (s : Schema) (i : nat) : string := from_option name "" (s !! i).

(** [keys] is the order in which the map's keys are visited. *)
Definition reaggregate_batches (keys : Groups → list (list string)) (bs : list RecordBatch) (group_cols : list string)
    : outcome string (list RecordBatch) :=
  match bs, group_cols with
  | [], _ | _, [] => Ok bs
  | b0 :: _, _ =>
      let s := schema b0 in
      let group_indices := group_indices_of s group_cols in
      let agg_indices := agg_indices_of s group_indices in
      match group_indices with
      | [] => Ok bs
      | _ =>
          groups ← foldM (add_batch group_indices agg_indices) ∅ bs;
          let ks := keys groups in
          let out_schema := ((λ i, mkField (name_at s i) Utf8 true) <$> group_indices) ++
                            ((λ i, mkField (name_at s i) Float64 true) <$> agg_indices) in
          let key_column gi := mkArray Utf8 ((λ k, VUtf8 <$> k !! gi) <$> ks) in
          let sum_column ai := mkArray Float64 ((λ k, VFloat <$> (groups !! k ≫= λ e, e !! ai)) <$> ks) in
          match try_new out_schema ((key_column <$> seq 0 (length group_indices)) ++
                                    (sum_column <$> seq 0 (length agg_indices))) with
          | Ok b => Ok [b]
          | Err _ => Ok bs
          | Panic => Panic
          end
      end
  end.

(** ** The page (OFFSET, LIMIT, cursor) *)

Definition count_rows (bs : list RecordBatch) : nat := sum_list (num_rows <$> bs).

(** All rows as pairs of a batch and an index. *)
Definition all_rows (bs : list RecordBatch) : list (RecordBatch * nat) :=
  bs ≫= λ b, (λ i, (b, i)) <$> seq 0 (num_rows b).

Definition page_column (rows : list (RecordBatch * nat)) (col_idx : nat) : outcome ArrowError Array :=
  slices ← mapM (λ '(b, i), col ← column b col_idx; Ok (slice_one col i)) rows;
  concat_arrays slices.

Definition page_batches (bs : list RecordBatch) (offset : nat) (page_size : option nat)
    : outcome string (list RecordBatch) :=
  if (0 <? offset) || bool_decide (is_Some page_size) then
    let rows := drop offset (all_rows bs) in
    let rows := take (default (length rows) page_size) rows in
    match rows, bs with
    | [], _ | _, [] => Ok []
    | _, b0 :: _ =>
        match mapM (page_column rows) (seq 0 (length (schema b0))) ≫= try_new (schema b0) with
        | Ok b => Ok [b]
        | Err _ => Ok []
        | Panic => Panic
        end
    end
  else Ok bs.

(** ** Renderings *)

Definition cell_json (col : Array) (row : nat) : Value :=
  if is_null col row then JNull else JString (shown col row).

Definition json_row (b : RecordBatch) (row : nat) : list Value := (λ col, cell_json col row) <$> columns b.

Definition batches_to_json (bs : list RecordBatch) : list string * list (list Value) :=
  match bs with
  | [] => ([], [])
  | b0 :: _ => (name <$> schema b0, bs ≫= λ b, json_row b <$> seq 0 (num_rows b))
  end.

(** One object per row, the columns of the first batch as keys; a
    [serde_json::Map] is ordered by key. *)
Fixpoint map_insert (k : string) (v : Value) (m : list (string * Value)) : list (string * Value) :=
  match m with
  | [] => [(k, v)]
  | (k', v') :: m' =>
      match String.compare k k' with
      | Lt => (k, v) :: m
      | Eq => (k, v) :: m'
      | Gt => (k', v') :: map_insert k v m'
      end
  end.

Definition ndjson_object (cols : list string) (b : RecordBatch) (row : nat) : outcome string Value :=
  entries ← mapM (λ '(i, n), col ← column b i; Ok (n, cell_json col row)) (enumerate cols);
  Ok (JObject (foldl (λ m '(k, v), map_insert k v m) [] entries)).

Definition NEWLINE : string := String (ascii_of_nat 10) "".

Definition batches_to_ndjson `{J : JsonOps} (bs : list RecordBatch) : outcome string string :=
  match bs with
  | [] => Ok ""
  | b0 :: _ =>
      let cols := name <$> schema b0 in
      lines ← mapM (λ '(b, row), v ← ndjson_object cols b row; Ok (to_string v +:+ NEWLINE)) (all_rows bs);
      Ok (String.concat "" lines)
  end.

(** [estimate_batches_size]; the memory of an array is Arrow's to say. *)
Definition estimate_batches_size (array_memory_size : Array → N) (bs : list RecordBatch) : N :=
  foldr N.add 0%N ((λ b, foldr N.add 0%N (array_memory_size <$> columns b)) <$> bs).

(** The comparison that [check_result_size] and the handler make; zero means no limit. *)
Definition size_limit (size max_bytes : N) : outcome string unit :=
  if (max_bytes =? 0)%N then Ok tt
  else if (max_bytes <? size)%N
  then Err ("result size " +:+ pretty size +:+ " bytes exceeds max_result_bytes limit of " +:+ pretty max_bytes +:+ " bytes")
  else Ok tt.

Definition check_result_size (array_memory_size : Array → N) (bs : list RecordBatch) (max_bytes : N) : outcome string unit :=
  size_limit (estimate_batches_size array_memory_size bs) max_bytes.

(** ** The values of an IN sub-query *)

(** The texts of the first column that are not null. *)
Definition column_values (b : RecordBatch) : outcome string (list string) :=
  col ← column b 0;
  Ok (omap (λ i, if is_null col i then None
                 else match array_value_to_string col i with inr s => Some s | inl _ => None end) (seq 0 (num_rows b))).

Definition in_values (bs : list RecordBatch) : outcome string (list string) :=
  vs ← mapM column_values bs; Ok (concat vs).

Definition in_list (values : list string) : string :=
  join_with ", " ((λ v, "'" +:+ replace (String SQUOTE "") (String SQUOTE (String SQUOTE "")) v +:+ "'") <$> values).
End Results.
