(* ===== verification/ResultsCorrect.v ===== *)
(** * ResultsCorrect: theorems on the operators on result rows

    The page of a result is the slice of its rows; the HAVING filter keeps
    exactly the rows that satisfy the condition; re-aggregation puts every
    row in the group of its key and sums it there; the JSON of a result has
    one array per row with the texts of its cells. *)

From S2P Require Import Prelude Strs Float Json Arrow ArrowRef Connector Merger QueryText Results.
From stdpp Require Import base list strings gmap sets.
From Stdlib Require Import NArith ZArith Lia Ascii SpecFloat.

(** The rows of several batches. *)
Definition rows_of (bs : list RecordBatch) : list (list cell) := bs ≫= batch_rows.

(** The batches of a result share a schema that has columns. *)
Definition uniform (s : Schema) (bs : list RecordBatch) : Prop :=
  s ≠ [] ∧ Forall (λ b, wf_batch b ∧ schema b = s) bs.

(** ** Pages *)

Definition row_of (x : RecordBatch * nat) : list cell := row_at (columns x.1) x.2.

Lemma rows_of_all bs : row_of <$> all_rows bs = rows_of bs.
Proof.
  unfold all_rows, rows_of. induction bs as [|b bs IH]; [done|]. cbn [mbind list_bind].
  rewrite fmap_app, IH. f_equal. unfold batch_rows. rewrite <- list_fmap_compose. done.
Qed.

Lemma all_rows_elem bs b i : (b, i) ∈ all_rows bs → b ∈ bs ∧ i < num_rows b.
Proof.
  unfold all_rows. rewrite list_elem_of_bind. setoid_rewrite list_elem_of_fmap. setoid_rewrite elem_of_seq.
  intros (b' & (i' & [= -> ->] & Hi) & Hb). split; [done|lia].
Qed.

Lemma slice_one_data a i : i < array_len a → data (slice_one a i) = [value_at a i].
Proof.
  unfold slice_one, value_at, array_len. cbn [data]. intros Hi.
  destruct (lookup_lt_is_Some_2 (data a) i Hi) as [c Hc]. rewrite Hc. cbn.
  rewrite (drop_S _ c) by done. cbn. by rewrite take_0.
Qed.

Section Page.
Context `{K : ArrowKernels, !ArrowLaws K} `{R : RowKernels, !RowLaws R}.
Context (s : Schema) (bs : list RecordBatch).
Hypothesis Hu : uniform s bs.

Definition cell_of (j : nat) (x : RecordBatch * nat) : cell :=
  from_option (λ a, value_at a x.2) None (columns x.1 !! j).

Lemma row_column x j f : x ∈ all_rows bs → s !! j = Some f →
  ∃ col, columns x.1 !! j = Some col ∧ conforms f col ∧ x.2 < array_len col ∧ cell_of j x = value_at col x.2.
Proof.
  destruct x as [b i]. intros [Hb Hi]%all_rows_elem Hf. destruct Hu as [_ Hall]. rewrite Forall_forall in Hall.
  destruct (Hall b Hb) as [[H2 Hlen] Hs]. rewrite Hs in H2.
  destruct (Forall2_lookup_l _ _ _ _ _ H2 Hf) as (col & Hc & Hconf). exists col. unfold cell_of. cbn [fst snd].
  rewrite Hc. split; [done|]. split; [done|]. split; [|done].
  eapply Forall_lookup_1 in Hlen; [|exact Hc]. by rewrite Hlen.
Qed.

Lemma page_column_ok rows j f : rows ≠ [] → Forall (λ x, x ∈ all_rows bs) rows → s !! j = Some f →
  page_column rows j = Ok (mkArray (field_type f) (cell_of j <$> rows)).
Proof.
  intros Hne Hrows Hf. unfold page_column.
  rewrite (mapM_outcome_Ok _ (λ x, mkArray (field_type f) [cell_of j x])).
  2:{ intros [b i] Hx. rewrite Forall_forall in Hrows.
      destruct (row_column (b, i) j f (Hrows _ Hx) Hf) as (col & Hc & [Ht _] & Hi & Hcell). cbn [fst snd] in *.
      unfold column. rewrite Hc. cbn. f_equal. rewrite Hcell, <- slice_one_data by done.
      unfold slice_one. cbn. by rewrite Ht. }
  cbn [mbind outcome_bind]. destruct rows as [|x rows]; [done|]. rewrite fmap_cons.
  rewrite (concat_arrays_ok (field_type f)).
  - do 3 f_equal. cbn. f_equal. clear. induction rows as [|y l IH]; [done|]. cbn. by rewrite IH.
  - constructor; [done|]. apply Forall_fmap, Forall_forall. done.
Qed.

Definition page_array (rows : list (RecordBatch * nat)) (x : nat * Field) : Array :=
  mkArray (field_type x.2) (cell_of x.1 <$> rows).

Lemma page_array_conforms rows j f : Forall (λ x, x ∈ all_rows bs) rows → s !! j = Some f →
  conforms f (page_array rows (j, f)).
Proof.
  intros Hrows Hf. split; [done|]. cbn.
  destruct (nullable f) eqn:Hn; [by left|right]. apply Forall_fmap. eapply Forall_impl; [exact Hrows|].
  intros x Hx. change (cell_of j x ≠ None). destruct (row_column x j f Hx Hf) as (col & Hc & [_ Hnn] & Hi & ->).
  destruct Hnn as [|Hnn]; [congruence|]. unfold value_at, array_len in *.
  destruct (lookup_lt_is_Some_2 _ _ Hi) as [c Hc']. rewrite Hc'. by eapply Forall_lookup_1 in Hnn.
Qed.

Lemma page_array_row rows k x : rows !! k = Some x → x ∈ all_rows bs →
  row_at (page_array rows <$> enumerate s) k = row_of x.
Proof.
  intros Hk Hx. unfold row_of, row_at. apply list_eq. intros j. rewrite !list_lookup_fmap, enumerate_lookup.
  destruct x as [b i]. cbn [fst snd]. destruct (s !! j) as [f|] eqn:Hf.
  - destruct (row_column (b, i) j f Hx Hf) as (col & Hc & _ & _ & Hcell). cbn [fst snd] in *. rewrite Hc. cbn.
    unfold value_at at 1. cbn. rewrite list_lookup_fmap, Hk. cbn. by rewrite Hcell.
  - destruct (columns b !! j) as [col|] eqn:Hc; [|done]. exfalso.
    apply all_rows_elem in Hx as [Hb _]. destruct Hu as [_ Hall]. rewrite Forall_forall in Hall.
    destruct (Hall b Hb) as [[H2 _] Hs]. rewrite Hs in H2. apply Forall2_length in H2.
    apply lookup_lt_Some in Hc. apply lookup_ge_None in Hf. lia.
Qed.

Lemma page_rows_ok rows : rows ≠ [] → Forall (λ x, x ∈ all_rows bs) rows →
  ∃ b, mapM (page_column rows) (seq 0 (length s)) ≫= try_new s = Ok b ∧ schema b = s ∧ batch_rows b = row_of <$> rows.
Proof.
  intros Hne Hrows. set (cols := page_array rows <$> enumerate s).
  assert (mapM (page_column rows) (seq 0 (length s)) = Ok cols) as ->.
  { assert (seq 0 (length s) = (enumerate s).*1) as ->.
    { apply list_eq. intros j. rewrite list_lookup_fmap, enumerate_lookup. destruct (s !! j) eqn:E; cbn.
      - apply lookup_lt_Some in E. by rewrite lookup_seq_lt.
      - apply lookup_ge_None in E. by rewrite lookup_seq_ge. }
    rewrite mapM_outcome_fmap. apply mapM_outcome_Ok. intros [j f] (i & Hi)%list_elem_of_lookup.
    rewrite enumerate_lookup in Hi. apply fmap_Some in Hi as (f' & Hf & [= -> ->]). by apply page_column_ok. }
  assert (wf_columns s cols (length rows)) as Hwf.
  { split.
    - apply Forall2_same_length_lookup_2; [unfold cols, enumerate; by rewrite length_fmap, enumerate_from_length|].
      intros j f a Hf. unfold cols. rewrite list_lookup_fmap, enumerate_lookup, Hf. intros [= <-].
      by apply page_array_conforms.
    - apply Forall_fmap, Forall_forall. intros [j f] _. unfold array_len. cbn. by rewrite length_fmap. }
  cbn [mbind outcome_bind]. destruct cols as [|c cs] eqn:Ecols.
  { exfalso. destruct Hu as [Hs _]. apply Hs. apply wf_columns_length in Hwf. by destruct s. }
  assert (array_len c = length rows) as Hc by by destruct Hwf as [_ [? ?]%Forall_cons].
  rewrite try_new_ok by by rewrite Hc. eexists. split; [done|]. split; [done|].
  unfold batch_rows. cbn [num_rows columns]. rewrite Hc, <- Ecols. apply list_eq. intros k.
  rewrite !list_lookup_fmap. destruct (rows !! k) as [x|] eqn:Hk.
  - rewrite lookup_seq_lt by by eapply lookup_lt_Some. cbn. f_equal. apply page_array_row; [done|].
    by eapply Forall_lookup_1 in Hrows.
  - apply lookup_ge_None in Hk. by rewrite lookup_seq_ge.
Qed.
End Page.

(** The rows a page is meant to show. *)
Definition slice {A : Type} (off : nat) (size : option nat) (rows : list A) : list A :=
  match size with Some n => take n (drop off rows) | None => drop off rows end.

Lemma page_batches_slice `{K : ArrowKernels, !ArrowLaws K} `{R : RowKernels, !RowLaws R} s bs off size :
  uniform s bs →
  ∃ out, page_batches bs off size = Ok out ∧ Forall (λ b, schema b = s) out ∧
    rows_of out = slice off size (rows_of bs).
Proof.
  intros Hu. unfold page_batches.
  destruct ((0 <? off) || bool_decide (is_Some size)) eqn:E.
  2:{ apply orb_false_iff in E as [Ho Hn%bool_decide_eq_false]. apply Nat.ltb_ge in Ho.
      assert (off = 0) as -> by lia. destruct size; [by destruct Hn|].
      exists bs. split; [done|]. split; [|done]. eapply Forall_impl; [apply Hu|]. naive_solver. }
  set (rest := drop off (all_rows bs)). set (rows := take (default (length rest) size) rest).
  assert (row_of <$> rows = slice off size (rows_of bs)) as Hrows.
  { unfold rows, rest, slice. rewrite fmap_take, fmap_drop, rows_of_all. destruct size; cbn; [done|].
    rewrite take_ge; [done|]. rewrite length_drop, <- rows_of_all, length_fmap, length_drop. done. }
  assert (Forall (λ x, x ∈ all_rows bs) rows) as Hin.
  { apply Forall_forall. intros x Hx. unfold rows, rest in Hx. apply elem_of_take in Hx as (i & Hi & _).
    rewrite lookup_drop in Hi. by eapply list_elem_of_lookup_2. }
  destruct rows as [|x rs] eqn:Er.
  { exists []. rewrite <- Hrows. done. }
  destruct bs as [|b0 bs0] eqn:Eb.
  { unfold rows, rest in Er. change (all_rows []) with (@nil (RecordBatch * nat)) in Er. by rewrite drop_nil, take_nil in Er. }
  assert (schema b0 = s) as -> by by destruct Hu as [_ [[_ ?] _]%Forall_cons].
  destruct (page_rows_ok s (b0 :: bs0) Hu (x :: rs)) as (b & -> & Hs & Hb); [done..|].
  exists [b]. split; [done|]. split; [by constructor|]. unfold rows_of. cbn. by rewrite app_nil_r, Hb.
Qed.

(** The page the handler sends is the slice of the result it names: the
    rows after the offset, at most as many as the page size, in order and with
    their cells, whatever batches the rows came in; it never fails on batches
    of one schema. *)
Theorem page_is_slice `{K : ArrowKernels, !ArrowLaws K} `{R : RowKernels, !RowLaws R} s bs off size :
  uniform s bs →
  ∃ out, page_batches bs off size = Ok out ∧ Forall (λ b, schema b = s) out ∧
    rows_of out = slice off size (rows_of bs).
Proof. apply page_batches_slice. Qed.

(** ** HAVING *)

(** The positions of the set flags. *)
Fixpoint positions (flags : list bool) : list nat :=
  match flags with
  | [] => []
  | b :: flags => (if (b : bool) then [0] else []) ++ (S <$> positions flags)
  end.

Lemma positions_count flags : length (positions flags) = count_true flags.
Proof.
  unfold count_true. induction flags as [|b flags IH]; [done|]. cbn [positions].
  rewrite length_app, length_fmap, IH, filter_cons. by destruct b.
Qed.

Lemma positions_bound flags : Forall (λ i, i < length flags) (positions flags).
Proof.
  induction flags as [|b flags IH]; [done|]. cbn [positions length]. apply Forall_app. split.
  - destruct b; [|done]. constructor; [lia|done].
  - apply Forall_fmap. eapply Forall_impl; [exact IH|]. cbn. intros. lia.
Qed.

Lemma positions_filter (p : nat → bool) n m : (λ i, n + i) <$> positions (p <$> seq n m) = filter (λ i, p i = true) (seq n m).
Proof.
  revert n. induction m as [|m IH]; intros n; [done|]. cbn [seq]. rewrite fmap_cons. cbn [positions].
  rewrite fmap_app, filter_cons, <- (IH (S n)), <- list_fmap_compose.
  rewrite (list_fmap_ext ((λ i, n + i) ∘ S) (λ i, S n + i) _) by (intros; cbn; lia).
  destruct (p n); cbn; [|done]. by rewrite Nat.add_0_r.
Qed.

Lemma gather_cons_S {A : Type} (x : A) l idx : gather (x :: l) (S <$> idx) = gather l idx.
Proof. unfold gather. induction idx as [|i idx IH]; [done|]. cbn. by rewrite IH. Qed.

Lemma select_positions {A : Type} flags : ∀ l : list A, length l = length flags →
  select_flags flags l = gather l (positions flags).
Proof.
  induction flags as [|b flags IH]; intros [|x l] [=]; [done|]. cbn [select_flags positions].
  rewrite gather_app, gather_cons_S, IH by done. by destruct b.
Qed.

Lemma gather_lookup {A : Type} (l : list A) idx k : Forall (λ i, i < length l) idx →
  gather l idx !! k = idx !! k ≫= λ i, l !! i.
Proof.
  intros H. revert k. induction H as [|i idx Hi _ IH]; intros k; [done|]. unfold gather. cbn [omap list_omap].
  destruct (lookup_lt_is_Some_2 l i Hi) as [x Hx]. rewrite Hx. destruct k as [|k]; cbn; [done|]. apply IH.
Qed.

Lemma filter_ref_rows b flags : wf_batch b → length flags = num_rows b →
  batch_rows (filter_ref b flags) = row_at (columns b) <$> positions flags.
Proof.
  intros [H2 Hlen] Hl. unfold batch_rows, filter_ref. cbn [num_rows columns].
  rewrite <- positions_count. apply list_eq. intros k. rewrite !list_lookup_fmap.
  destruct (positions flags !! k) as [i|] eqn:Hk.
  - rewrite lookup_seq_lt by by eapply lookup_lt_Some. cbn. f_equal. unfold row_at. rewrite <- list_fmap_compose.
    apply list_fmap_ext. intros j a Ha. unfold compose, value_at. cbn [data].
    assert (length (data a) = length flags) as Hla by (rewrite Hl; by eapply Forall_lookup_1 in Hlen).
    rewrite select_positions, gather_lookup, Hk by (done || (rewrite Hla; apply positions_bound)). done.
  - apply lookup_ge_None in Hk. by rewrite lookup_seq_ge.
Qed.

(** The test of HAVING on a row of a result, with the column's index. *)
Definition row_passes `{K : ArrowKernels} parse_f64 (h : HavingCondition) (idx : nat) (x : RecordBatch * nat) : Prop :=
  ∃ col, columns x.1 !! idx = Some col ∧ having_row parse_f64 h col x.2 = true.
#[export] Instance row_passes_dec `{K : ArrowKernels} parse_f64 h idx x : Decision (row_passes parse_f64 h idx x).
Proof.
  unfold row_passes. destruct (columns x.1 !! idx) as [col|].
  - destruct (having_row parse_f64 h col x.2) eqn:E; [left; eauto|right; intros (? & [= <-] & ?); congruence].
  - right. naive_solver.
Defined.

Lemma having_batch_rows `{K : ArrowKernels, R : RowKernels, !RowLaws R} parse_f64 h s idx b :
  wf_batch b → schema b = s → having_column h s = Some idx →
  ∃ b', having_batch parse_f64 h b = Some b' ∧
    batch_rows b' = row_of <$> filter (row_passes parse_f64 h idx) ((λ i, (b, i)) <$> seq 0 (num_rows b)).
Proof.
  intros Hwf Hs Hidx. unfold having_batch. rewrite Hs, Hidx. cbn [mbind option_bind].
  destruct (columns b !! idx) as [col|] eqn:Hc.
  2:{ exfalso. apply position_Some in Hidx as (f & Hf & _). destruct Hwf as [H2 _]. rewrite Hs in H2.
      destruct (Forall2_lookup_l _ _ _ _ _ H2 Hf) as (? & ? & _). congruence. }
  cbn [mbind option_bind]. set (flags := having_row _ _ _ <$> _).
  assert (length flags = num_rows b) as Hfl by (unfold flags; by rewrite length_fmap, length_seq).
  rewrite filter_record_batch_ok by done. eexists. split; [done|]. rewrite filter_ref_rows by done.
  rewrite list_filter_fmap, <- list_fmap_compose.
  assert (positions flags = filter (λ i, having_row parse_f64 h col i = true) (seq 0 (num_rows b))) as ->.
  { rewrite <- positions_filter. symmetry. apply list_fmap_id. }
  rewrite (list_filter_iff' _ (λ i, row_passes parse_f64 h idx (b, i))).
  - done.
  - intros i _. unfold row_passes. cbn [fst snd]. rewrite Hc. naive_solver.
Qed.

(** HAVING keeps exactly the rows that satisfy it: when the column of the
    condition exists (in any case of its name), the filtered result has, in
    order and unchanged, the rows whose value in that column is a number on
    the right side of the bound; rows with a null or a text that is no number
    are dropped. *)
Theorem having_keeps_exactly `{K : ArrowKernels, R : RowKernels, !RowLaws R} parse_f64 h s bs idx :
  uniform s bs → having_column h s = Some idx →
  rows_of (apply_having_filter parse_f64 bs h) = row_of <$> filter (row_passes parse_f64 h idx) (all_rows bs).
Proof.
  intros [_ Hall] Hidx. induction Hall as [|b bs [Hwf Hs] _ IH]; [done|].
  unfold apply_having_filter, all_rows. cbn [omap list_omap mbind list_bind].
  destruct (having_batch_rows parse_f64 h s idx b Hwf Hs Hidx) as (b' & -> & Hb).
  rewrite filter_app, fmap_app, <- Hb. unfold rows_of. cbn [mbind list_bind]. f_equal. exact IH.
Qed.

(** ** JSON *)

Lemma json_rows_of `{K : ArrowKernels} bs :
  (batches_to_json bs).2 = (λ x, json_row x.1 x.2) <$> all_rows bs.
Proof.
  destruct bs as [|b0 bs]; [done|]. cbn [batches_to_json snd]. generalize (b0 :: bs). clear. intros bs.
  unfold all_rows. induction bs as [|b bs IH]; [done|]. cbn [mbind list_bind]. rewrite fmap_app, <- IH.
  by rewrite <- list_fmap_compose.
Qed.

Lemma all_rows_length bs : length (all_rows bs) = count_rows bs.
Proof.
  unfold all_rows, count_rows. induction bs as [|b bs IH]; [done|]. cbn [mbind list_bind fmap list_fmap sum_list].
  by rewrite length_app, length_fmap, length_seq, IH.
Qed.

Lemma json_row_count `{K : ArrowKernels} bs : length (batches_to_json bs).2 = count_rows bs.
Proof. by rewrite json_rows_of, length_fmap, all_rows_length. Qed.

(** ** Re-aggregation *)

Section Reaggregate.
Context `{K : ArrowKernels} (parse_f64 : string → option spec_float) (s : Schema).

(** The key of a row and the number in one of its columns, of a well-formed batch. *)
Definition key_of (gi : list nat) (x : RecordBatch * nat) : list string :=
  (λ i, from_option (λ col, shown col x.2) "" (columns x.1 !! i)) <$> gi.
Definition number_of (j : nat) (x : RecordBatch * nat) : option f64 :=
  col ← columns x.1 !! j;
  if is_null col x.2 then None else parse_f64 (shown col x.2).

(** The sums of a list of rows, starting from [entry]. *)
Definition add_number (acc : f64) (o : option f64) : f64 := match o with Some v => fadd acc v | None => acc end.
Definition add_numbers (ai : list nat) (entry : list f64) (x : RecordBatch * nat) : list f64 :=
  zip_with add_number entry ((λ j, number_of j x) <$> ai).

Definition in_range (idx : list nat) : Prop := Forall (λ i, i < length s) idx.

(** A row of a batch of the schema. *)
Definition row_ok (x : RecordBatch * nat) : Prop := wf_batch x.1 ∧ schema x.1 = s.

Lemma row_col x i : row_ok x → i < length s → ∃ col, columns x.1 !! i = Some col.
Proof.
  intros [Hwf Hs] Hi. apply lookup_lt_is_Some_2. apply wf_columns_length in Hwf. rewrite Hwf, Hs. done.
Qed.

Lemma group_key_ok gi x : row_ok x → in_range gi → group_key gi x.1 x.2 = Ok (key_of gi x).
Proof.
  intros Hx Hgi. apply mapM_outcome_Ok. intros i Hi. unfold in_range in Hgi. rewrite Forall_forall in Hgi.
  destruct (row_col x i Hx (Hgi i Hi)) as [col Hc]. unfold column. by rewrite Hc.
Qed.

Lemma add_cells_ok x ai : row_ok x → in_range ai → ∀ pre rest, length rest = length ai →
  foldM (add_cell parse_f64 x.1 x.2) (pre ++ rest) (enumerate_from (length pre) ai) = Ok (pre ++ add_numbers ai rest x).
Proof.
  intros Hx. induction ai as [|j ai IH]; intros Hai pre rest Hlen.
  { destruct rest; [done|discriminate]. }
  destruct rest as [|e rest]; [discriminate|]. apply Forall_cons in Hai as [Hj Hai]. injection Hlen as Hlen.
  cbn [enumerate_from foldM add_cell]. destruct (row_col x j Hx Hj) as [col Hc]. unfold column. rewrite Hc.
  cbn [mbind outcome_bind].
  assert (∀ e', (pre ++ e' :: rest) = (pre ++ [e']) ++ rest ∧ S (length pre) = length (pre ++ [e'])) as Hsh
    by (intros e'; rewrite <- app_assoc, length_app; cbn; split; [done|lia]).
  assert (∀ e', foldM (add_cell parse_f64 x.1 x.2) (pre ++ e' :: rest) (enumerate_from (S (length pre)) ai) =
                Ok (pre ++ e' :: add_numbers ai rest x)) as Hrest.
  { intros e'. destruct (Hsh e') as [-> ->]. rewrite IH by done. by rewrite <- app_assoc. }
  unfold add_numbers. rewrite fmap_cons. cbn [zip_with]. unfold number_of at 1. rewrite Hc. cbn [mbind option_bind].
  destruct (is_null col x.2); cbn [mbind outcome_bind add_number]; [apply Hrest|].
  destruct (parse_f64 (shown col x.2)) as [v|]; cbn [mbind outcome_bind add_number]; [|apply Hrest].
  rewrite alter_app_r_alt by lia. rewrite Nat.sub_diag. cbn. apply Hrest.
Qed.

Definition zeros (ai : list nat) : list f64 := replicate (length ai) f_zero.

(** Adding a row to the groups. *)
Definition put_row (gi ai : list nat) (g : Groups) (x : RecordBatch * nat) : Groups :=
  <[key_of gi x := add_numbers ai (default (zeros ai) (g !! key_of gi x)) x]> g.

Definition entries_ok (ai : list nat) (g : Groups) : Prop := ∀ k e, g !! k = Some e → length e = length ai.

Lemma put_row_ok gi ai g x : entries_ok ai g → entries_ok ai (put_row gi ai g x).
Proof.
  intros Hg k e. unfold put_row. rewrite lookup_insert_Some. intros [[<- <-]|[_ Hk]]; [|by eapply Hg].
  unfold add_numbers, zeros. rewrite length_zip_with, length_fmap.
  destruct (g !! _) as [e|] eqn:E; cbn; [rewrite (Hg _ _ E)|rewrite length_replicate]; lia.
Qed.

Lemma add_row_ok gi ai g x : row_ok x → in_range gi → in_range ai → entries_ok ai g →
  add_row parse_f64 gi ai x.1 g x.2 = Ok (put_row gi ai g x).
Proof.
  intros Hx Hgi Hai Hg. unfold add_row. rewrite group_key_ok by done. cbn [mbind outcome_bind].
  pose proof (add_cells_ok x ai Hx Hai [] (default (zeros ai) (g !! key_of gi x))) as H. cbn in H.
  unfold enumerate. change (replicate (length ai) f_zero) with (zeros ai). rewrite H; [done|].
  destruct (g !! _) as [e|] eqn:E; cbn; [by apply (Hg _ _ E)|unfold zeros; by rewrite length_replicate].
Qed.

Lemma add_batch_ok gi ai b : wf_batch b → schema b = s → in_range gi → in_range ai → ∀ l g, entries_ok ai g →
  foldM (add_row parse_f64 gi ai b) g l = Ok (foldl (put_row gi ai) g ((λ i, (b, i)) <$> l)) ∧
  entries_ok ai (foldl (put_row gi ai) g ((λ i, (b, i)) <$> l)).
Proof.
  intros Hwf Hs Hgi Hai. induction l as [|i l IH]; intros g Hg; [done|].
  cbn [foldM fmap list_fmap foldl]. pose proof (add_row_ok gi ai g (b, i) (conj Hwf Hs) Hgi Hai Hg) as Hr.
  cbn [fst snd] in Hr. rewrite Hr. cbn [mbind outcome_bind]. apply IH. by apply put_row_ok.
Qed.

Lemma add_batches_ok gi ai bs : Forall (λ b, wf_batch b ∧ schema b = s) bs → in_range gi → in_range ai → ∀ g,
  entries_ok ai g → foldM (add_batch parse_f64 gi ai) g bs = Ok (foldl (put_row gi ai) g (all_rows bs)).
Proof.
  intros Hall Hgi Hai. induction Hall as [|b bs [Hwf Hs] _ IH]; intros g Hg; [done|].
  cbn [foldM]. destruct (add_batch_ok gi ai b Hwf Hs Hgi Hai (seq 0 (num_rows b)) g Hg) as [Hok Hg'].
  change (foldM _ g _) with (add_batch parse_f64 gi ai g b) in Hok. rewrite Hok.
  cbn [mbind outcome_bind]. rewrite IH by done. unfold all_rows. cbn [mbind list_bind]. by rewrite foldl_app.
Qed.

(** The entry of a group: the rows of its key, added in order. *)
Lemma put_rows_lookup gi ai rows k :
  foldl (put_row gi ai) ∅ rows !! k =
    match filter (λ x, key_of gi x = k) rows with
    | [] => None
    | l => Some (foldl (add_numbers ai) (zeros ai) l)
    end.
Proof.
  induction rows as [|x rows IH] using rev_ind; [done|]. rewrite foldl_snoc, filter_app, filter_cons, filter_nil.
  unfold put_row at 1. destruct (decide (key_of gi x = k)) as [Hk|Hk].
  - rewrite Hk, lookup_insert_eq. set (l := filter _ rows) in *.
    change (foldl (λ g y, put_row gi ai g y) ∅ rows) with (foldl (put_row gi ai) ∅ rows) in *. rewrite IH.
    destruct l as [|y l]; [done|]. cbn [default]. rewrite <- app_comm_cons.
    by rewrite (app_comm_cons l [x] y), foldl_snoc.
  - rewrite lookup_insert_ne by done. by rewrite app_nil_r.
Qed.
End Reaggregate.

Lemma group_indices_range s cols : in_range s (group_indices_of s cols).
Proof.
  apply Forall_forall. intros i (c & Hc & Hi)%list_elem_of_omap. apply index_of_Some in Hi.
  destruct Hi as (f & Hf & _). by eapply lookup_lt_Some.
Qed.

Lemma agg_indices_range s gi : in_range s (agg_indices_of s gi).
Proof.
  apply Forall_forall. intros i ([j f] & Hj & Hi)%list_elem_of_omap.
  destruct (bool_decide _ || _); [done|]. injection Hi as ->.
  apply list_elem_of_lookup in Hj as [k Hk]. rewrite enumerate_lookup in Hk.
  apply fmap_Some in Hk as (f' & Hf & [= -> ->]). by eapply lookup_lt_Some.
Qed.

Lemma seq_lookup_fmap {A B : Type} (f : A → B) (l : list A) n : length l = n →
  (λ i, f <$> l !! i) <$> seq 0 n = (λ x, Some (f x)) <$> l.
Proof.
  intros <-. apply list_eq. intros i. rewrite !list_lookup_fmap. destruct (l !! i) as [x|] eqn:E; cbn.
  - rewrite lookup_seq_lt by by eapply lookup_lt_Some. cbn. by rewrite E.
  - apply lookup_ge_None in E. by rewrite lookup_seq_ge.
Qed.

(** The output row of a group. *)
Definition group_row (k : list string) (sums : list f64) : list cell :=
  ((λ t, Some (VUtf8 t)) <$> k) ++ ((λ v, Some (VFloat v)) <$> sums).

(** The sums of the group [k] of a result. *)
Definition group_sums `{K : ArrowKernels} parse_f64 (gi ai : list nat) (bs : list RecordBatch) (k : list string) : list f64 :=
  foldl (add_numbers parse_f64 ai) (zeros ai) (filter (λ x, key_of gi x = k) (all_rows bs)).

Lemma foldl_add_length `{K : ArrowKernels} parse_f64 ai l : ∀ e, length e = length ai →
  length (foldl (add_numbers parse_f64 ai) e l) = length ai.
Proof.
  induction l as [|x l IH]; intros e He; [done|]. cbn [foldl]. apply IH. unfold add_numbers.
  rewrite length_zip_with, length_fmap. lia.
Qed.

Section Output.
Context `{K : ArrowKernels, !ArrowLaws K} (parse_f64 : string → option spec_float) (s : Schema) (gi ai : list nat)
  (bs : list RecordBatch) (ks : list (list string)).
Abbreviation groups := (foldl (put_row parse_f64 gi ai) ∅ (all_rows bs)).
Definition key_columns : list Array := (λ i, mkArray Utf8 ((λ k, VUtf8 <$> k !! i) <$> ks)) <$> seq 0 (length gi).
Definition sum_columns : list Array :=
  (λ i, mkArray Float64 ((λ k, VFloat <$> (groups !! k ≫= λ e, e !! i)) <$> ks)) <$> seq 0 (length ai).

Lemma output_row r k : ks !! r = Some k → (∃ x, x ∈ all_rows bs ∧ key_of gi x = k) →
  row_at (key_columns ++ sum_columns) r = group_row k (group_sums parse_f64 gi ai bs k).
Proof.
  intros Hr (x & Hx & Hk). unfold row_at, group_row, key_columns, sum_columns. rewrite fmap_app, <- !list_fmap_compose.
  assert (length k = length gi) as Hkl by (rewrite <- Hk; unfold key_of; by rewrite length_fmap).
  assert (groups !! k = Some (group_sums parse_f64 gi ai bs k)) as Hg.
  { rewrite put_rows_lookup. unfold group_sums. destruct (filter _ _) eqn:E; [|done]. exfalso.
    apply (not_elem_of_nil x). rewrite <- E. by apply list_elem_of_filter. }
  f_equal.
  - rewrite <- (seq_lookup_fmap VUtf8 k (length gi)) by done. apply list_fmap_ext. intros _ i _.
    unfold compose, value_at. cbn [data]. rewrite list_lookup_fmap, Hr. done.
  - rewrite <- (seq_lookup_fmap VFloat _ (length ai)).
    2:{ apply foldl_add_length. unfold zeros. by rewrite length_replicate. }
    apply list_fmap_ext. intros _ i _. unfold compose, value_at. cbn [data]. rewrite list_lookup_fmap, Hr. cbn.
    by rewrite Hg.
Qed.

Lemma output_ok : gi ≠ [] → (∀ k, k ∈ ks → ∃ x, x ∈ all_rows bs ∧ key_of gi x = k) →
  ∃ b, try_new (((λ i, mkField (name_at s i) Utf8 true) <$> gi) ++ ((λ i, mkField (name_at s i) Float64 true) <$> ai))
         (key_columns ++ sum_columns) = Ok b ∧
    batch_rows b = (λ k, group_row k (group_sums parse_f64 gi ai bs k)) <$> ks ∧
    name <$> schema b = name_at s <$> (gi ++ ai).
Proof.
  intros Hgi Hks. set (sch := _ ++ _). set (cols := key_columns ++ sum_columns).
  assert (wf_columns sch cols (length ks)) as Hwf.
  { split.
    - apply Forall2_app; apply Forall2_fmap; apply Forall2_same_length_lookup_2; rewrite ?length_seq; try done;
        intros; by apply conforms_nullable.
    - apply Forall_app. split; apply Forall_fmap, Forall_forall; intros i _; unfold compose, array_len; cbn; by rewrite length_fmap. }
  destruct cols as [|c cs] eqn:Ec.
  { exfalso. unfold cols, key_columns in Ec. by destruct gi. }
  assert (array_len c = length ks) as Hc by by destruct Hwf as [_ [? ?]%Forall_cons].
  rewrite try_new_ok by by rewrite Hc. eexists. split; [done|]. split.
  - unfold batch_rows. cbn [num_rows columns]. rewrite Hc, <- Ec. apply list_eq. intros r. rewrite !list_lookup_fmap.
    destruct (ks !! r) as [k|] eqn:Hr.
    + rewrite lookup_seq_lt by by eapply lookup_lt_Some. cbn. f_equal. apply output_row; [done|].
      by eapply Hks, list_elem_of_lookup_2.
    + apply lookup_ge_None in Hr. by rewrite lookup_seq_ge.
  - cbn [schema]. unfold sch. by rewrite !fmap_app, <- !list_fmap_compose.
Qed.
End Output.

Lemma match_nonempty {A B : Type} (l : list A) (x y : B) : l ≠ [] → match l with [] => x | _ => y end = y.
Proof. by destruct l. Qed.

Lemma groups_keys `{K : ArrowKernels} parse_f64 gi ai rows k :
  k ∈ (map_to_list (foldl (put_row parse_f64 gi ai) ∅ rows)).*1 ↔ ∃ x, x ∈ rows ∧ key_of gi x = k.
Proof.
  rewrite list_elem_of_fmap. split.
  - intros ([k' e] & -> & Hk%elem_of_map_to_list). rewrite put_rows_lookup in Hk.
    destruct (filter _ rows) as [|x l] eqn:E; [done|]. exists x.
    assert (x ∈ filter (λ x, key_of gi x = k') rows) as Hx by (rewrite E; left). by apply list_elem_of_filter in Hx as [? ?].
  - intros (x & Hx & Hk). exists (k, foldl (add_numbers parse_f64 ai) (zeros ai) (filter (λ x, key_of gi x = k) rows)).
    split; [done|]. apply elem_of_map_to_list. rewrite put_rows_lookup.
    destruct (filter _ rows) eqn:E; [|done]. exfalso. apply (not_elem_of_nil x). rewrite <- E. by apply list_elem_of_filter.
Qed.

(** C18: Re-aggregation groups the rows of all sources exactly: the result is
    one row per combination of group values that occurs, each once, and its
    other columns are the sums, taken in the order of the rows, of the numbers
    the rows of that group hold there; no row is lost or counted twice.  The
    values of a group are compared as they are displayed.  There is at least one
    batch, all are of one schema, and it has some group column. *)
Theorem reaggregation_sums_groups `{K : ArrowKernels, !ArrowLaws K} parse_f64 keys s bs cols :
  (∀ g : Groups, keys g ≡ₚ (map_to_list g).*1) →
  uniform s bs → bs ≠ [] → group_indices_of s cols ≠ [] →
  let gi := group_indices_of s cols in
  let ai := agg_indices_of s gi in
  ∃ b ks, reaggregate_batches parse_f64 keys bs cols = Ok [b] ∧ NoDup ks ∧
    (∀ k, k ∈ ks ↔ ∃ x, x ∈ all_rows bs ∧ key_of gi x = k) ∧
    batch_rows b = (λ k, group_row k (group_sums parse_f64 gi ai bs k)) <$> ks ∧
    name <$> schema b = name_at s <$> (gi ++ ai).
Proof.
  intros Hkeys [_ Hall] Hbs Hgi gi ai. set (groups := foldl (put_row parse_f64 gi ai) ∅ (all_rows bs)).
  assert (∀ k, k ∈ keys groups ↔ ∃ x, x ∈ all_rows bs ∧ key_of gi x = k) as Hin
    by (intros k; rewrite Hkeys; apply groups_keys).
  destruct (output_ok parse_f64 s gi ai bs (keys groups)) as (b & Hb & Hrows & Hn); [done|naive_solver|].
  exists b, (keys groups). split; [|split; [rewrite Hkeys; apply NoDup_fst_map_to_list|done]].
  destruct bs as [|b0 bs0]; [done|]. destruct cols as [|c cols]; [done|]. cbn [reaggregate_batches].
  assert (schema b0 = s) as -> by by apply Forall_cons in Hall as [[_ ?] _]. fold gi. fold ai.
  rewrite match_nonempty by done.
  rewrite (add_batches_ok parse_f64 s); [|done|apply group_indices_range|apply agg_indices_range|by intros ??].
  cbn [mbind outcome_bind]. unfold key_columns, sum_columns in Hb. unfold groups in *. clear groups. by rewrite Hb.
Qed.

(** ** Examples *)

Definition ex_parse (t : string) : option spec_float := f64_of_N <$> parse_u64 t.
Definition ex_schema : Schema := [mkField "host" Utf8 true; mkField "cnt" Int64 true; mkField "_datasource" Utf8 false].
Definition ex_part (ds : string) (rows : list (string * Z)) : RecordBatch :=
  mkBatch ex_schema
    [mkArray Utf8 ((λ r, Some (VUtf8 r.1)) <$> rows); mkArray Int64 ((λ r, Some (VInt r.2)) <$> rows);
     mkArray Utf8 (replicate (length rows) (Some (VUtf8 ds)))] (length rows).
Definition ex_parts : list RecordBatch :=
  [ex_part "east" [("a", 3); ("b", 5)]%Z; ex_part "west" [("a", 4)]%Z].

Lemma ex_uniform : uniform ex_schema ex_parts.
Proof.
  split; [done|]. repeat (constructor; [split; [|done]; by apply (bool_decide_eq_true_1 (wf_batch _))|]). constructor.
Qed.

Lemma page_is_slice_witness :
  ∃ out, page_batches (K := RefArrow) (R := RefRows) ex_parts 1 (Some 1) = Ok out ∧
    rows_of out = [[Some (VUtf8 "b"); Some (VInt 5); Some (VUtf8 "east")]].
Proof.
  destruct (page_is_slice (K := RefArrow) (R := RefRows) ex_schema ex_parts 1 (Some 1) ex_uniform) as (out & H1 & _ & H2).
  exists out. split; [exact H1|]. rewrite H2. reflexivity.
Defined.

Definition ex_having : HavingCondition := mkHaving "CNT" ">=" (f64_of_N 4).

Lemma having_keeps_exactly_witness :
  rows_of (apply_having_filter (K := RefArrow) (R := RefRows) ex_parse ex_parts ex_having) =
    [[Some (VUtf8 "b"); Some (VInt 5); Some (VUtf8 "east")]; [Some (VUtf8 "a"); Some (VInt 4); Some (VUtf8 "west")]].
Proof.
  rewrite (having_keeps_exactly (K := RefArrow) (R := RefRows) ex_parse ex_having ex_schema ex_parts 1);
    [vm_compute; reflexivity|apply ex_uniform|reflexivity].
Defined.

Lemma reaggregation_sums_groups_witness :
  ∃ b ks, reaggregate_batches (K := RefArrow) ex_parse (λ g, (map_to_list g).*1) ex_parts ["host"] = Ok [b] ∧
    (["a"] ∈ ks ∧ group_sums (K := RefArrow) ex_parse [0] [1] ex_parts ["a"] = [f64_of_N 7]) ∧
    batch_rows b = (λ k, group_row k (group_sums (K := RefArrow) ex_parse [0] [1] ex_parts k)) <$> ks.
Proof.
  destruct (reaggregation_sums_groups (K := RefArrow) ex_parse (λ g, (map_to_list g).*1) ex_schema ex_parts ["host"])
    as (b & ks & H1 & _ & H3 & H4 & _); [done|apply ex_uniform|done|done|].
  exists b, ks. split; [exact H1|]. split; [|exact H4]. split; [|vm_compute; reflexivity].
  apply H3. exists (ex_part "east" [("a", 3); ("b", 5)]%Z, 0). split; [|reflexivity].
  apply list_elem_of_bind. eexists. split; [|left]. left.
Defined.

(** Every column that is not a group column is summed, whatever aggregate it
    holds: the maxima 3 and 4 of two sources become 7. *)
Lemma maxima_are_summed :
  group_sums (K := RefArrow) ex_parse [0] [1]
    [mkBatch [mkField "host" Utf8 true; mkField "max_cpu" Int64 true]
       [mkArray Utf8 [Some (VUtf8 "a"); Some (VUtf8 "a")]; mkArray Int64 [Some (VInt 3); Some (VInt 4)]] 2] ["a"] = [f64_of_N 7].
Proof. vm_compute. reflexivity. Qed.
