(* ===== verification/Federate.v ===== *)
(** * Federate: running a query on one or several datasources

    Models the execution part of [crates/fuse-server/src/api.rs]
    ([execute_single], [execute_union], [execute_join], the CTEs and the
    in-memory operators on their results) with the connector registry of
    [crates/fuse-core/src/registry.rs].

    A request runs in the monad [exec]: it sees and changes the registry (a
    CTE registers its rows as a datasource), notes what it tells the trackers
    and which connectors it calls as a list of [Event]s, and returns, fails
    with a text or panics.  The tasks a UNION spawns run side by side and to
    their end, whatever becomes of the query; they share nothing but the
    trackers, and their events are listed source by source.  [interrupted] is
    what a query leaves behind that is dropped before its end: the future of a
    single query or a join stops where it is, spawned tasks do not.  What the
    code takes from outside (the SQL parser, the clock, injected faults,
    timeouts, the texts of foreign errors) is the class [QueryEnv]. *)

From S2P Require Import Prelude Strs Float Ppl SqlToSubquery Arrow Connector Errors Rewrite Merger Join QueryText Results.
From stdpp Require Import base list strings gmap pretty.
From Stdlib Require Import NArith ZArith Lia Ascii SpecFloat.

(** ** The registry ([registry.rs]) *)

(** A connector with its type; its identifier is [connector_id]. *)
Record Source : Type := mkSource { connector_type : string; connector : FederatedConnector }.
Definition source_id (s : Source) : string := @connector_id (connector s).

Abbreviation Registry := (gmap string Source).

Definition registry_new : Registry := ∅.
Definition register (r : Registry) (s : Source) : outcome RegistryError Registry :=
  match r !! source_id s with
  | Some _ => Err (DuplicateId (source_id s))
  | None => Ok (<[source_id s := s]> r)
  end.
Definition registry_get (r : Registry) (id : string) : option Source := r !! id.
Definition datasource_names (r : Registry) : gset string := dom r.

(** ** Trackers

    [Contacted] is a call of a connector; the other events go to the trackers. *)

Inductive Event : Type :=
| Contacted (ds : string)
| PoolAcquire (ds : string) | PoolRelease (ds : string) | PoolTimeout (ds : string)
| Health (ds : string) (ok : bool) (ms : N) (error : option string)
| ParallelSuccess (ds : string) (ms : N) | ParallelFailure (ds : string)
| Routed (ds : string) (ms : N)
| LatencyNoted (ds : string) (ms : N)
| QueryCounted (format : string) (ok : bool) (ms : N)
| CostNoted (ds connector_type : string) (usd : f64).

(** ** What comes from outside *)

Class QueryEnv : Type := {
  env_parse_sql : string → string + list Statement;
  env_show_expr : SqlExpr → string;
  env_parse_f64 : string → option spec_float;
  (** a fault injected for a datasource, and whether it exceeds 25 seconds *)
  chaos_fail : string → option string;
  timed_out : string → bool;
  elapsed_ms : string → N;
  memory_size : RecordBatch → N;
  (** texts of a task that panicked, of an engine error, of [{:.1}] *)
  join_error : string → string;
  engine_error_display : EngineError → string;
  show_ratio : f64 → string;
  (** [obj.insert] of the range on the serialised passthrough *)
  put_range : option JsonText → string → string → string → option JsonText;
}.

(** ** The monad *)

Record World : Type := mkWorld { registry : Registry; events : list Event }.

Definition exec (A : Type) : Type := World → World * outcome string A.

#[export] Instance exec_ret : MRet exec := λ A a w, (w, Ok a).
#[export] Instance exec_bind : MBind exec := λ A B f m w,
  match m w with
  | (w, Ok a) => f a w
  | (w, Err e) => (w, Err e)
  | (w, Panic) => (w, Panic)
  end.

Definition lift {A : Type} (m : outcome string A) : exec A := λ w, (w, m).
Definition fail {A : Type} (e : string) : exec A := lift (Err e).
Definition tell (es : list Event) : exec unit := λ w, (mkWorld (registry w) (events w ++ es), Ok tt).
Definition get_registry : exec Registry := λ w, (w, Ok (registry w)).
Definition get_source (id : string) : exec (option Source) := λ w, (w, Ok (registry_get (registry w) id)).
(** [let _ = registry.register(c)]: a duplicate changes nothing and is not reported. *)
Definition try_register (s : Source) : exec unit := λ w,
  (match register (registry w) s with Ok r => mkWorld r (events w) | _ => w end, Ok tt).
(** The result of a call as a value; a panic stays one. *)
Definition attempt {A : Type} (m : exec A) : exec (string + A) := λ w,
  match m w with
  | (w, Ok a) => (w, Ok (inr a))
  | (w, Err e) => (w, Ok (inl e))
  | (w, Panic) => (w, Panic)
  end.

(** ** Results *)

Record DatasourceStat : Type := mkStat { stat_rows : N; stat_latency_ms : N }.
Record PartialError : Type := mkPartial { pe_datasource : string; pe_error : string }.

Local Unset Elimination Schemes.
Inductive ProfileNode : Type :=
| mkNode (op : string) (datasource : option string) (actual_rows actual_ms : N) (data_bytes estimated_rows : option N)
    (estimated_cost : f64) (detail : option string) (pushdown : list string) (estimate_accuracy : option string)
    (children : list ProfileNode).
Local Set Elimination Schemes.

Definition node_ms (n : ProfileNode) : N := let 'mkNode _ _ _ ms _ _ _ _ _ _ _ := n in ms.
Definition node_estimate (n : ProfileNode) : option N := let 'mkNode _ _ _ _ _ e _ _ _ _ _ := n in e.

Record FederatedResult : Type := mkFederated {
  fed_batches : list RecordBatch;
  fed_stats : option (gmap string DatasourceStat);
  fed_datasources : list string;
  fed_connector_types : gmap string string;
  fed_profile : list ProfileNode;
  fed_partial_errors : list PartialError }.

Definition f64_of_Z (z : Z) : f64 := binary_normalize 53 1024 z 0 false.

Section Federate.
Context `{K : ArrowKernels} `{R : RowKernels} `{E : QueryEnv}.

Definition accuracy (est rows : N) : option string :=
  if ((0 <? est) && (0 <? rows))%N
  then Some (show_ratio (fdiv (f64_of_N est) (f64_of_N rows)) +:+ "x (est " +:+ pretty est +:+ " vs actual " +:+
             pretty rows +:+ ")")
  else None.

(** [ProfileNode::scan] and [ProfileNode::parent]. *)
Definition node_scan (ds : string) (rows ms bytes : N) (pushdown : list string) : ProfileNode :=
  let default_estimate := 10000%N in
  mkNode "RemoteScan" (Some ds) rows ms (Some bytes) (Some default_estimate)
    (fadd (f64_of_N bytes) (fmul (f64_of_N ms) (f64_of_N 10))) (Some ("Scan " +:+ ds)) pushdown
    (accuracy default_estimate rows) [].

Definition node_parent (op : string) (rows ms : N) (children : list ProfileNode) : ProfileNode :=
  let cost := fadd (fsum ((λ c, f64_of_N (node_ms c)) <$> children)) (f64_of_N ms) in
  let est_rows := foldr N.add 0%N (omap node_estimate children) in
  mkNode op None rows ms None (if (0 <? est_rows)%N then Some est_rows else None) cost None []
    (accuracy est_rows rows) children.

Definition bytes_of (bs : list RecordBatch) : N := foldr N.add 0%N (memory_size <$> bs).

(** ** The sub-query of a text ([build_sub_query]) *)

Definition empty_subquery (tbl : string) (lim : option N) : SubQuery :=
  mkSubQuery tbl [] None [] [] None [] lim None None.

Definition with_table (q : SubQuery) (tbl : string) : SubQuery :=
  mkSubQuery tbl (projections q) (filter_expr q) (aggregations q) (group_by q) (having q) (sort q) (limit q)
    (offset q) (passthrough q).

Definition ppl_error_display (e : PplParseError) : string := "PPL parse error: " +:+ ppl_msg e.

Definition build_sub_query (query format tbl : string) : outcome string SubQuery :=
  sql ← (if String.eqb format "ppl" then
           parsed ← map_err (λ e, "PPL parse error: " +:+ ppl_error_display e) (parse_ppl query);
           map_err (λ e, "PPL translation error: " +:+ ppl_error_display e) (ppl_to_sql parsed)
         else Ok query);
  match sql_to_subquery env_parse_sql env_show_expr env_parse_f64 sql with
  | Ok sq => Ok (with_table sq tbl)
  | Err _ => Ok (empty_subquery tbl None)
  | Panic => Panic
  end.

(** ** One datasource ([execute_single]) *)

Definition with_range (q : SubQuery) (range : option (string * string * string)) : SubQuery :=
  match range with
  | None => q
  | Some (start, end_, step) =>
      mkSubQuery (table q) (projections q) (filter_expr q) (aggregations q) (group_by q) (having q) (sort q)
        (limit q) (offset q) (put_range (passthrough q) start end_ step)
  end.

Definition not_found {A : Type} (ds_id : string) : exec A := fail ("datasource '" +:+ ds_id +:+ "' not found").

Definition execute_single (query format : string) (src : string * string) (range : option (string * string * string))
    : exec FederatedResult :=
  let '(ds_id, tbl) := src in
  found ← get_source ds_id;
  match found with
  | None => not_found ds_id
  | Some c =>
      sub_query ← lift (build_sub_query query format tbl);
      let sub_query := with_range sub_query range in
      match chaos_fail ds_id with
      | Some err => fail err
      | None =>
          tell [PoolAcquire ds_id; Contacted ds_id];;
          match @execute (connector c) sub_query with
          | Panic => lift Panic
          | Err e =>
              let msg := connector_error_display e in
              tell [PoolRelease ds_id; PoolTimeout ds_id; Health ds_id false (elapsed_ms ds_id) (Some msg)];;
              fail msg
          | Ok batches =>
              tell [PoolRelease ds_id];;
              mret (mkFederated batches None [ds_id] {[ds_id := connector_type c]}
                [node_scan ds_id (N.of_nat (count_rows batches)) (elapsed_ms ds_id) (bytes_of batches)
                   (describe_pushdown sub_query)] [])
          end
      end
  end.

(** ** Several datasources ([execute_union]) *)

(** [add_datasource_column]: a batch the new column cannot be added to is
    left out. *)
Definition tag_batch (ds : string) (b : RecordBatch) : option RecordBatch :=
  ok_value (try_new (schema b ++ [mkField "_datasource" Utf8 false])
              (columns b ++ [mkArray Utf8 (replicate (num_rows b) (Some (VUtf8 ds)))])).
Definition add_datasource_column (bs : list RecordBatch) (ds : string) : list RecordBatch :=
  omap (tag_batch ds) bs.

(** The outcome of a connector call under the 25-second timeout. *)
Definition timed_execute (ds : string) (c : Source) (sq : SubQuery) : outcome ConnectorError (list RecordBatch) :=
  if timed_out ds then Err (QueryFailed ("connector '" +:+ ds +:+ "' timed out"))
  else @execute (connector c) sq.

(** One spawned task: its events, and what awaiting it gives. *)
Definition run_task (ds : string) (c : Source) (sq : SubQuery)
    : list Event * outcome ConnectorError (list RecordBatch) * N :=
  match chaos_fail ds with
  | Some err => ([], Err (QueryFailed err), 0%N)
  | None =>
      let latency := elapsed_ms ds in
      match timed_execute ds c sq with
      | Panic => ([PoolAcquire ds; Contacted ds], Panic, latency)
      | Ok batches =>
          ([PoolAcquire ds; Contacted ds; PoolRelease ds; ParallelSuccess ds latency; Health ds true latency None; Routed ds latency],
           Ok batches, latency)
      | Err e =>
          ([PoolAcquire ds; Contacted ds; PoolRelease ds] ++ (if timed_out ds then [PoolTimeout ds] else []) ++
           [ParallelFailure ds; Health ds false latency (Some (connector_error_display e))], Err e, latency)
      end
  end.

(** What the loop over the handles collects. *)
Record Gathered : Type := mkGathered {
  batch_sets : list (list RecordBatch); ds_stats : gmap string DatasourceStat;
  gathered_sources : list string; scan_nodes : list ProfileNode; partial_errors : list PartialError }.

Definition gather_step (g : Gathered) (ds : string) (result : outcome ConnectorError (list RecordBatch)) (latency : N)
    : outcome string Gathered :=
  match result with
  | Panic => Err ("task join error: " +:+ join_error ds)
  | Ok batches =>
      let rows := N.of_nat (count_rows batches) in
      Ok (mkGathered (batch_sets g ++ [add_datasource_column batches ds]) (<[ds := mkStat rows latency]> (ds_stats g))
            (gathered_sources g ++ [ds]) (scan_nodes g ++ [node_scan ds rows latency (bytes_of batches) []])
            (partial_errors g))
  | Err e =>
      Ok (mkGathered (batch_sets g) (<[ds := mkStat 0 latency]> (ds_stats g)) (gathered_sources g ++ [ds])
            (scan_nodes g) (partial_errors g ++ [mkPartial ds (connector_error_display e)]))
  end.

(** The tasks of the sources that are registered, with their sub-queries. *)
Definition spawned (r : Registry) (refs : list (string * string)) (per_source : list SubQuery)
    : list (string * Source * SubQuery) :=
  omap (λ '(ds, _, sq), (λ c, (ds, c, sq)) <$> registry_get r ds) (zip refs per_source).

Definition task_events (t : string * Source * SubQuery) : list Event := (run_task t.1.1 t.1.2 t.2).1.1.

(** The loop over the handles stops at a task that panicked; the others run on. *)
Fixpoint await_all (tasks : list (string * Source * SubQuery)) (g : Gathered) : outcome string Gathered :=
  match tasks with
  | [] => Ok g
  | (ds, c, sq) :: tasks =>
      let '(_, result, latency) := run_task ds c sq in
      g ← gather_step g ds result latency; await_all tasks g
  end.

Definition connector_types_of (r : Registry) (refs : list (string * string)) : gmap string string :=
  list_to_map (reverse (omap (λ '(ds, _), (λ c, (ds, connector_type c)) <$> registry_get r ds) refs)).

Definition FANOUT_LIMIT : N := 10000.

Definition union_subqueries (query format : string) (refs : list (string * string)) (table0 : string)
    : outcome string (list SubQuery) :=
  match build_sub_query query format table0 with
  | Panic => Panic
  | r =>
      let base_sq := default (empty_subquery "" None) (ok_value r) in
      Ok (push_down_to_sources base_sq ((λ '(_, tbl), empty_subquery tbl (Some FANOUT_LIMIT)) <$> refs))
  end.

Definition execute_union (query format : string) (refs : list (string * string)) : exec FederatedResult :=
  match refs with
  | [] => lift Panic
  | (_, table0) :: _ =>
      per_source ← lift (union_subqueries query format refs table0);
      r ← get_registry;
      let tasks := spawned r refs per_source in
      tell (tasks ≫= task_events);;
      g ← lift (await_all tasks (mkGathered [] ∅ [] [] []));
      if bool_decide (batch_sets g = []) && negb (bool_decide (partial_errors g = []))
      then fail (join_with "; " ((λ e, pe_datasource e +:+ ": " +:+ pe_error e) <$> partial_errors g))
      else
        merged ← lift (map_err engine_error_display (union_batches (batch_sets g)));
        mret (mkFederated merged (Some (ds_stats g)) (gathered_sources g) (connector_types_of r refs)
                [node_parent "UnionAll" (N.of_nat (count_rows merged)) 0 (scan_nodes g)] (partial_errors g))
  end.

(** ** Two datasources joined ([execute_join]) *)

(** [find_join_key]: a column of the same name, then one of the same name in
    any case. *)
Definition find_join_key (a b : Schema) : option (string * string) :=
  match List.find (λ f, bool_decide (is_Some (index_of b (name f)))) a with
  | Some f => Some (name f, name f)
  | None =>
      head (omap (λ fa, (λ fb, (name fa, name fb)) <$>
                          List.find (λ fb, String.eqb (to_lowercase (name fb)) (to_lowercase (name fa))) b) a)
  end.

(** [filter_time_window]: the test of one row. *)
(** [(a - b).abs()] of two [i64], as a release build computes it. *)
Definition abs_diff_i64 (a b : Z) : Z := wrap_i64 (Z.abs (wrap_i64 (a - b))).

Definition within_window (secs : Z) (val_a val_b : string) : bool :=
  match parse_i64 val_a, parse_i64 val_b with
  | Some a, Some b => Z.leb (abs_diff_i64 a b) secs
  | _, _ =>
      match env_parse_f64 val_a, env_parse_f64 val_b with
      | Some a, Some b => fleb (SFabs (fsub a b)) (f64_of_Z secs)
      | _, _ => true
      end
  end.

Definition window_row (secs : Z) (col_a col_b : Array) (i : nat) : bool :=
  if is_null col_a i || is_null col_b i then false else within_window secs (shown col_a i) (shown col_b i).

(** A batch without one of the columns is left out. *)
Definition window_batch (tw : TimeWindow) (b : RecordBatch) : option RecordBatch :=
  idx_a ← index_of (schema b) (last_part (is_char ".") (column_a tw));
  idx_b ← index_of (schema b) (last_part (is_char ".") (column_b tw));
  col_a ← columns b !! idx_a;
  col_b ← columns b !! idx_b;
  ok_value (filter_record_batch b (window_row (interval_secs tw) col_a col_b <$> seq 0 (num_rows b))).
Definition filter_time_window (bs : list RecordBatch) (tw : TimeWindow) : list RecordBatch :=
  omap (window_batch tw) bs.

(** The trackers after one side of the join answered. *)
Definition join_side_events (ds : string) (res : string + list RecordBatch) : list Event :=
  let latency := elapsed_ms ds in
  match res with
  | inr _ => [ParallelSuccess ds latency; Routed ds latency; Health ds true latency None]
  | inl e => [ParallelFailure ds; Health ds false latency (Some e)]
  end.

(** The 25-second timeout of a side is an error at once; its own error is kept
    until both sides are recorded. *)
Definition join_side (ds : string) (c : Source) (sq : SubQuery) : outcome string (string + list RecordBatch) :=
  if timed_out ds then Err ("connector '" +:+ ds +:+ "' timed out")
  else match @execute (connector c) sq with
       | Ok bs => Ok (inr bs)
       | Err e => Ok (inl (connector_error_display e))
       | Panic => Panic
       end.

Definition join_types (ds_a ds_b : string) (c_a c_b : Source) : gmap string string :=
  <[ds_b := connector_type c_b]> {[ds_a := connector_type c_a]}.

Record Side : Type := mkSide {
  side_batches : list RecordBatch; side_key : string; side_ds : string; side_rows : nat; side_latency : N }.

(** From the two answers on: key, side order, hash join, window. *)
Definition join_answers (query ds_a ds_b : string) (c_a c_b : Source) (a0 : RecordBatch) (as_ : list RecordBatch)
    (b0 : RecordBatch) (bs_ : list RecordBatch) (stats : gmap string DatasourceStat) : exec FederatedResult :=
  let batches_a := a0 :: as_ in
  let batches_b := b0 :: bs_ in
  '(key_a, key_b) ← lift (ok_or (match parse_on_keys query with
                                 | Some ks => Some ks
                                 | None => find_join_key (schema a0) (schema b0)
                                 end) "no common column found for JOIN key");
  let a := mkSide batches_a key_a ds_a (count_rows batches_a) (elapsed_ms ds_a) in
  let b := mkSide batches_b key_b ds_b (count_rows batches_b) (elapsed_ms ds_b) in
  let '(lhs, rhs) := if side_rows b <=? side_rows a then (a, b) else (b, a) in
  joined ← lift (map_err engine_error_display
                   (hash_join (add_datasource_column (side_batches lhs) (side_ds lhs)) (side_key lhs)
                      (add_datasource_column (side_batches rhs) (side_ds rhs)) (side_key rhs) Inner));
  let joined := match parse_time_window query with Some tw => filter_time_window joined tw | None => joined end in
  let scan (s : Side) (note : string) :=
    node_scan (side_ds s) (N.of_nat (side_rows s)) (side_latency s) (bytes_of (side_batches s)) [note] in
  mret (mkFederated joined (Some stats) [ds_a; ds_b] (join_types ds_a ds_b c_a c_b)
          [node_parent "HashJoin" (N.of_nat (count_rows joined)) (elapsed_ms "join")
             [scan lhs "probe side"; scan rhs "build side (smaller)"]] []).

Definition execute_join (query : string) (refs : list (string * string)) : exec FederatedResult :=
  match refs with
  | [(ds_a, table_a); (ds_b, table_b)] =>
      found_a ← get_source ds_a;
      found_b ← get_source ds_b;
      match found_a, found_b with
      | None, _ => not_found ds_a
      | _, None => not_found ds_b
      | Some c_a, Some c_b =>
          match chaos_fail ds_a, chaos_fail ds_b with
          | Some err, _ => fail err
          | None, Some err => fail err
          | None, None =>
              tell [PoolAcquire ds_a; PoolAcquire ds_b; Contacted ds_a; Contacted ds_b];;
              let res_a := join_side ds_a c_a (empty_subquery table_a (Some FANOUT_LIMIT)) in
              let res_b := join_side ds_b c_b (empty_subquery table_b (Some FANOUT_LIMIT)) in
              match res_a, res_b with
              | Panic, _ | _, Panic => lift Panic
              | Err e, _ => tell [PoolRelease ds_a; PoolRelease ds_b; PoolTimeout ds_a];; fail e
              | Ok _, Err e => tell [PoolRelease ds_a; PoolRelease ds_b; PoolTimeout ds_b];; fail e
              | Ok res_a, Ok res_b =>
                  tell ([PoolRelease ds_a; PoolRelease ds_b] ++ join_side_events ds_a res_a ++
                        join_side_events ds_b res_b);;
                  match res_a, res_b with
                  | inl e, _ => fail e
                  | _, inl e => fail e
                  | inr batches_a, inr batches_b =>
                      let stats := <[ds_b := mkStat (N.of_nat (count_rows batches_b)) (elapsed_ms ds_b)]>
                                     {[ds_a := mkStat (N.of_nat (count_rows batches_a)) (elapsed_ms ds_a)]} in
                      match batches_a, batches_b with
                      | a0 :: as_, b0 :: bs_ => join_answers query ds_a ds_b c_a c_b a0 as_ b0 bs_ stats
                      | _, _ => mret (mkFederated [] (Some stats) [ds_a; ds_b] (join_types ds_a ds_b c_a c_b) [] [])
                      end
                  end
              end
          end
      end
  | _ => fail ("JOIN requires exactly 2 datasources, got " +:+ pretty (N.of_nat (length refs)))
  end.

(** ** Common table expressions *)

(** [MemoryConnector]: it answers every query with all its rows. *)
Definition memory_capabilities : ConnectorCapabilities := {|
  supports_filtering := false; supports_projection := false; supports_aggregation := false;
  supports_sorting := false; supports_limit := false; supports_join := false;
  max_concurrent_queries := 1; supports_streaming := false; latency_class := Low |}.

Definition memory_connector (name : string) (bs : list RecordBatch) : Source :=
  mkSource "memory" {| connector_id := name; capabilities := memory_capabilities; execute := λ _, Ok bs |}.
Definition memory_get_schema (bs : list RecordBatch) : outcome ConnectorError Schema :=
  ok_or (schema <$> head bs) (QueryFailed "empty CTE").
Definition memory_streaming (bs : list RecordBatch) : list (outcome ConnectorError RecordBatch) := Ok <$> bs.

Definition has_rows (bs : list RecordBatch) : bool := existsb (λ b, negb (Nat.eqb (num_rows b) 0)) bs.

(** What a round of the recursion does next. *)
Definition MAX_ITERATIONS : nat := 100.

Fixpoint recursive_rounds (n : nat) (cte_name recursive_sql format : string) (all_batches working_set : list RecordBatch)
    : exec (option (list RecordBatch)) :=
  match n with
  | 0 => mret (Some all_batches)
  | S n =>
      if negb (has_rows working_set) then mret (Some all_batches)
      else
        try_register (memory_connector cte_name working_set);;
        match parse_sql_sources recursive_sql with
        | Err _ => mret None
        | Panic => lift Panic
        | Ok rec_refs =>
            match rec_refs with
            | [] | _ :: _ :: _ :: _ => mret (Some all_batches)
            | _ =>
                rec_result ← attempt (match rec_refs with
                                      | [r] => execute_single recursive_sql format r None
                                      | _ => execute_join recursive_sql rec_refs
                                      end);
                match rec_result with
                | inr fed =>
                    if has_rows (fed_batches fed)
                    then recursive_rounds n cte_name recursive_sql format (all_batches ++ fed_batches fed) (fed_batches fed)
                    else mret (Some all_batches)
                | inl _ => mret (Some all_batches)
                end
            end
        end
  end.

Definition execute_recursive_cte (cte_name inner_sql format : string) : exec (option (list RecordBatch)) :=
  match find_sub " union all " (to_lowercase inner_sql) with
  | None => mret None
  | Some union_pos =>
      let base_sql := trim (str_take union_pos inner_sql) in
      let recursive_sql := trim (str_drop (union_pos + 11) inner_sql) in
      match parse_sql_sources base_sql with
      | Ok [r] =>
          base_result ← attempt (execute_single base_sql format r None);
          match base_result with
          | inl _ => mret None
          | inr fed => recursive_rounds MAX_ITERATIONS cte_name recursive_sql format (fed_batches fed) (fed_batches fed)
          end
      | Panic => lift Panic
      | _ => mret None
      end
  end.

(** The definitions of a WITH clause, and the text where reading them ended. *)
Definition skip_blank (s : string) : string := trim_start_while is_ascii_whitespace s.

Fixpoint cte_loop (fuel : nat) (s : string) (defs : list (string * string)) : list (string * string) * string :=
  match fuel with
  | 0 => (defs, s)
  | S fuel =>
      let s := skip_blank s in
      if String.eqb s "" then (defs, s)
      else
        let name_ := take_chars (λ c, negb (is_ascii_whitespace c) && negb (Ascii.eqb c "(")) s in
        let cte_name := trim name_ in
        let s := skip_blank (str_drop (String.length name_) s) in
        if negb (String.eqb (to_lowercase (str_take 2 s)) "as") then (defs, s)
        else
          let s := skip_blank (str_drop 2 s) in
          if negb (starts_with_char "(" s) then (defs, s)
          else
            let s := str_drop 1 s in
            match find_matching_paren s with
            | None => (defs, s)
            | Some close =>
                let defs := defs ++ [(cte_name, trim (str_take close s))] in
                let s := skip_blank (str_drop (close + 1) s) in
                if starts_with_char "," s then cte_loop fuel (str_drop 1 s) defs else (defs, s)
            end
  end.

(** The clause of a query: whether it is recursive, its definitions and the
    main query; [None] when the query has none. *)
Definition parse_ctes (query : string) : option (bool * list (string * string) * string) :=
  let lower := to_lowercase query in
  let trimmed := trim_start lower in
  if negb (starts_with "with " trimmed) then None
  else
    let is_recursive := starts_with "with recursive " trimmed in
    with_start ← find_sub "with " lower;
    let pos := with_start + 5 + (if is_recursive then 10 else 0) in
    let '(defs, s) := cte_loop (S (String.length query)) (str_drop pos query) [] in
    match defs with [] => None | _ => Some (is_recursive, defs, trim s) end.

Definition run_cte (format : string) (is_recursive : bool) (d : string * string) : exec unit :=
  let '(cte_name, inner_sql) := d in
  if is_recursive && str_contains " union all " (to_lowercase inner_sql) then
    batches ← execute_recursive_cte cte_name inner_sql format;
    match batches with
    | Some bs => try_register (memory_connector cte_name bs)
    | None => mret tt
    end
  else
    match parse_sql_sources inner_sql with
    | Panic => lift Panic
    | Err _ => mret tt
    | Ok inner_refs =>
        result ← attempt (match inner_refs with
                          | [r] => execute_single inner_sql format r None
                          | _ => if is_union_query inner_sql then execute_union inner_sql format inner_refs
                                 else execute_join inner_sql inner_refs
                          end);
        match result with
        | inr fed => try_register (memory_connector cte_name (fed_batches fed))
        | inl _ => mret tt
        end
    end.

Fixpoint run_ctes (format : string) (is_recursive : bool) (defs : list (string * string)) : exec unit :=
  match defs with
  | [] => mret tt
  | d :: defs => run_cte format is_recursive d;; run_ctes format is_recursive defs
  end.

(** [resolve_ctes]: the main query and its sources. *)
Definition resolve_ctes (query format : string) (refs : list (string * string))
    : exec (string * list (string * string)) :=
  match parse_ctes query with
  | None => mret (query, refs)
  | Some (is_recursive, defs, main_query) =>
      run_ctes format is_recursive defs;;
      match parse_sql_sources main_query with
      | Ok new_refs => mret (main_query, new_refs)
      | Err _ => mret (main_query, refs)
      | Panic => lift Panic
      end
  end.
(** ** A whole query *)

Definition fans_out (query format : string) (refs : list (string * string)) : bool :=
  match refs with [_] => false | _ => String.eqb format "ppl" || is_union_query query end.

Definition execute_query (query format : string) (refs : list (string * string)) (range : option (string * string * string))
    : exec FederatedResult :=
  match refs with
  | [r] => execute_single query format r range
  | _ => if String.eqb format "ppl" || is_union_query query then execute_union query format refs
         else execute_join query refs
  end.

(** A query whose future is dropped ([select!] with the timeout and the
    cancellation) after its first [before] events.  The first poll of a UNION
    spawns all its tasks, and a dropped handle does not stop its task. *)
Definition interrupted (before : nat) (query format : string) (refs : list (string * string))
    (range : option (string * string * string)) (w : World) : World :=
  let es := drop (length (events w)) (events (execute_query query format refs range w).1) in
  mkWorld (registry w)
    (events w ++ (if fans_out query format refs then (if Nat.eqb before 0 then [] else es) else take before es)).
End Federate.
