(* ===== verification/FederateCorrect.v ===== *)
(** * FederateCorrect: theorems on the execution of queries

    Every connection slot taken is returned, and no query ever replaces a
    registered datasource; a UNION merges the answers of exactly the sources
    that answered and reports the others; a WITH clause reads back; and what
    the code does not do: a recursive CTE never advances, a CTE that is used
    without a qualifier is not used at all, a join reads no other clause. *)

From S2P Require Import Prelude Strs Float Ppl SqlToSubquery Arrow ArrowRef Connector Errors Rewrite Merger MergerCorrect Join QueryText.
From S2P Require Import QueryTextCorrect Results Federate.
From stdpp Require Import base list strings gmap pretty.
From Stdlib Require Import NArith ZArith Lia Ascii SpecFloat.

(** The monad, one step at a time. *)
Lemma bind_run {A B : Type} (m : exec A) (f : A → exec B) w :
  (m ≫= f) w = match m w with (w, Ok a) => f a w | (w, Err e) => (w, Err e) | (w, Panic) => (w, Panic) end.
Proof. done. Qed.

(** ** Slots and registrations *)

(** No registered connector panics. *)
Definition calm (r : Registry) : Prop := ∀ id c sq, r !! id = Some c → @execute (connector c) sq ≠ Panic.

Definition slot (ds : string) (e : Event) : Z :=
  match e with
  | PoolAcquire d => if decide (d = ds) then 1 else 0
  | PoolRelease d => if decide (d = ds) then -1 else 0
  | _ => 0
  end.
(** The slots of [ds] taken and not returned. *)
Definition opened (ds : string) (es : list Event) : Z := foldr Z.add 0%Z (slot ds <$> es).

Lemma opened_app ds es es' : opened ds (es ++ es') = (opened ds es + opened ds es')%Z.
Proof. unfold opened. induction es as [|e es IH]; [done|]. cbn. rewrite IH. lia. Qed.

(** What a part of a request does that runs to its end: no registered source
    is removed or replaced, and as many slots are open as before. *)
Definition settles {A : Type} (m : exec A) (w : World) : Prop :=
  registry w ⊆ registry (m w).1 ∧ ∀ ds, opened ds (events (m w).1) = opened ds (events w).

(** Parts that settle wherever no connector panics. *)
Definition orderly {A : Type} (m : exec A) : Prop := ∀ w, calm (registry w) →
  calm (registry (m w).1) ∧ settles m w.

Lemma orderly_ret {A : Type} (a : A) : orderly (mret a).
Proof. by intros w Hw. Qed.
Lemma orderly_lift {A : Type} (o : outcome string A) : orderly (lift o).
Proof. by intros w Hw. Qed.
Lemma orderly_get_source id : orderly (get_source id).
Proof. by intros w Hw. Qed.
Lemma orderly_get_registry : orderly get_registry.
Proof. by intros w Hw. Qed.

Lemma orderly_bind {A B : Type} (m : exec A) (f : A → exec B) :
  orderly m → (∀ a, orderly (f a)) → orderly (m ≫= f).
Proof.
  intros Hm Hf w Hw. destruct (Hm w Hw) as (Hw1 & Hs1 & Ho1). unfold settles. rewrite bind_run.
  destruct (m w) as [w1 [a|e|]]; cbn [fst] in *; [|by split_and!..].
  destruct (Hf a w1 Hw1) as (Hw2 & Hs2 & Ho2). split; [done|]. split; [by transitivity (registry w1)|].
  intros ds. by rewrite Ho2, Ho1.
Qed.

Lemma orderly_attempt {A : Type} (m : exec A) : orderly m → orderly (attempt m).
Proof.
  intros Hm w Hw. specialize (Hm w Hw). unfold settles, attempt in *. by destruct (m w) as [w1 [a|e|]].
Qed.

Lemma orderly_tell es : (∀ ds, opened ds es = 0%Z) → orderly (tell es).
Proof.
  intros Hes w Hw. split; [done|]. split; [done|]. intros ds. cbn [tell fst events].
  rewrite opened_app, Hes. lia.
Qed.

(** A sequence that starts with [tell es] and ends with [tell es']. *)
Lemma orderly_tell_then {A : Type} es es' (m : exec A) :
  (∀ ds, opened ds (es ++ es') = 0%Z) → orderly m → orderly (tell es;; (tell es';; m)).
Proof.
  intros Hes Hm w Hw. destruct (Hm (mkWorld (registry w) ((events w ++ es) ++ es')) Hw) as (H1 & H2 & Ho).
  change ((tell es;; (tell es';; m)) w) with (m (mkWorld (registry w) ((events w ++ es) ++ es'))).
  split; [done|]. split; [done|].
  intros ds. change ((tell es;; (tell es';; m)) w) with (m (mkWorld (registry w) ((events w ++ es) ++ es'))).
  rewrite Ho. cbn [events]. rewrite <- app_assoc, opened_app, Hes. lia.
Qed.

Lemma orderly_register n bs : orderly (try_register (memory_connector n bs)).
Proof.
  intros w Hw. unfold settles, try_register, register. destruct (registry w !! _) eqn:E; [done|]. cbn [registry events fst].
  split; [|split; [by apply insert_subseteq|done]].
  intros id c sq. rewrite lookup_insert_Some. intros [[_ <-]|[_ Hc]]; [done|by eapply Hw].
Qed.

(** Reading the registry: what follows may rely on it being calm. *)
Lemma orderly_bind_registry {A : Type} (f : Registry → exec A) :
  (∀ r, calm r → orderly (f r)) → orderly (get_registry ≫= f).
Proof. intros Hf w Hw. exact (Hf (registry w) Hw w Hw). Qed.

(** A source that is found does not panic. *)
Definition calm_source (c : Source) : Prop := ∀ sq, @execute (connector c) sq ≠ Panic.

Lemma orderly_bind_source {A : Type} id (f : option Source → exec A) :
  orderly (f None) → (∀ c, calm_source c → orderly (f (Some c))) → orderly (get_source id ≫= f).
Proof.
  intros Hn Hf w Hw.
  change ((get_source id ≫= f) w) with (f (registry_get (registry w) id) w). unfold settles.
  change ((get_source id ≫= f) w) with (f (registry_get (registry w) id) w).
  unfold registry_get. destruct (registry w !! id) as [c|] eqn:Hc; [|by apply Hn].
  apply Hf; [|done]. intros sq. by eapply Hw.
Qed.

Create HintDb orderly.
#[export] Hint Resolve orderly_ret orderly_lift orderly_get_source orderly_get_registry orderly_register : orderly.

(** Slots of a concrete list of events. *)
Ltac count_slots := intros; unfold opened; cbn; repeat case_decide; lia.

Section Orderly.
Context `{K : ArrowKernels} `{R : RowKernels} `{E : QueryEnv}.

Lemma orderly_single query format src range : orderly (execute_single query format src range).
Proof.
  destruct src as [ds tbl]. unfold execute_single, not_found, fail. apply orderly_bind_source; [auto with orderly|].
  intros c Hc. apply orderly_bind; [auto with orderly|]. intros sq.
  destruct (chaos_fail ds); [auto with orderly|]. specialize (Hc (with_range sq range)).
  destruct (@execute (connector c) (with_range sq range)) as [bs|e|]; [..|done];
    apply orderly_tell_then; auto with orderly; count_slots.
Qed.

Lemma run_task_slots ds c sq : calm_source c →
  (∀ d, opened d (run_task ds c sq).1.1 = 0%Z) ∧ (run_task ds c sq).1.2 ≠ Panic.
Proof.
  intros Hc. unfold run_task. destruct (chaos_fail ds); [done|]. unfold timed_execute.
  destruct (timed_out ds); cbn; [split; [count_slots|done]|].
  specialize (Hc sq). destruct (@execute (connector c) sq); [split; [count_slots|done]..|done].
Qed.

(** The tasks of a UNION return their slots, whatever becomes of the query. *)
Lemma tasks_slots tasks : Forall (λ '(_, c, _), calm_source c) tasks →
  ∀ d, opened d (tasks ≫= task_events) = 0%Z.
Proof.
  intros Hall d. induction Hall as [|[[ds c] sq] tasks Hc _ IH]; [done|].
  cbn [mbind list_bind]. rewrite opened_app. destruct (run_task_slots ds c sq Hc) as [Hs _].
  unfold task_events at 1. cbn [fst snd]. rewrite Hs. exact IH.
Qed.

Lemma spawned_calm r refs per : calm r → Forall (λ '(_, c, _), calm_source c) (spawned r refs per).
Proof.
  intros Hr. apply Forall_forall. intros [[ds c] sq] Hin. unfold spawned in Hin.
  apply list_elem_of_omap in Hin as ([[d t] q] & _ & Hc). apply fmap_Some in Hc as (c' & Hc & [= -> -> ->]).
  intros q'. by eapply Hr.
Qed.

Lemma orderly_union query format refs : orderly (execute_union query format refs).
Proof.
  unfold execute_union. destruct refs as [|[ds0 t0] refs]; [auto with orderly|].
  apply orderly_bind; [auto with orderly|]. intros per.
  apply orderly_bind_registry. intros r Hr.
  apply orderly_bind; [by apply orderly_tell, tasks_slots, spawned_calm|]. intros _.
  apply orderly_bind; [auto with orderly|]. intros g. unfold fail.
  destruct (_ && _); [auto with orderly|]. apply orderly_bind; auto with orderly.
Qed.

Lemma orderly_join_answers query ds_a ds_b c_a c_b a0 as_ b0 bs_ stats :
  orderly (join_answers query ds_a ds_b c_a c_b a0 as_ b0 bs_ stats).
Proof.
  unfold join_answers. apply orderly_bind; [auto with orderly|]. intros [key_a key_b].
  destruct (_ <=? _); apply orderly_bind; auto with orderly.
Qed.

Lemma join_side_slots ds res d : opened d (join_side_events ds res) = 0%Z.
Proof. destruct res; unfold join_side_events; count_slots. Qed.

Lemma join_side_calm ds c sq : calm_source c → join_side ds c sq ≠ Panic.
Proof.
  intros Hc. unfold join_side. destruct (timed_out ds); [done|]. specialize (Hc sq).
  by destruct (@execute (connector c) sq).
Qed.

Lemma orderly_join query refs : orderly (execute_join query refs).
Proof.
  unfold execute_join, not_found, fail.
  destruct refs as [|[ds_a table_a] [|[ds_b table_b] [|]]]; [auto with orderly..| |auto with orderly].
  apply orderly_bind_source; [apply orderly_bind; auto with orderly|]. intros c_a Ha.
  apply orderly_bind_source; [auto with orderly|]. intros c_b Hb.
  destruct (chaos_fail ds_a), (chaos_fail ds_b); [auto with orderly..|].
  pose proof (join_side_calm ds_a c_a (empty_subquery table_a (Some FANOUT_LIMIT)) Ha) as Hna.
  pose proof (join_side_calm ds_b c_b (empty_subquery table_b (Some FANOUT_LIMIT)) Hb) as Hnb.
  destruct (join_side ds_a c_a (empty_subquery table_a (Some FANOUT_LIMIT))) as [ra|ea|]; [..|done];
    (destruct (join_side ds_b c_b (empty_subquery table_b (Some FANOUT_LIMIT))) as [rb|eb|]; [..|done]);
    (apply orderly_tell_then; [try count_slots|auto with orderly]).
  - intros d. rewrite !opened_app, !join_side_slots. revert d. count_slots.
  - destruct ra as [|[|a0 as_]], rb as [|[|b0 bs_]]; auto with orderly. apply orderly_join_answers.
Qed.

Lemma orderly_rounds n cte sql format : ∀ all ws, orderly (recursive_rounds n cte sql format all ws).
Proof.
  induction n as [|n IH]; intros all ws; cbn [recursive_rounds]; [auto with orderly|].
  destruct (has_rows ws); cbn [negb]; [|auto with orderly]. apply orderly_bind; [auto with orderly|]. intros _.
  destruct (parse_sql_sources sql) as [[|r [|r' [|]]]| |]; auto with orderly;
    (apply orderly_bind; [apply orderly_attempt; first [apply orderly_single|apply orderly_join]|]);
    intros [e|fed]; auto with orderly; destruct (has_rows _); auto with orderly.
Qed.

Lemma orderly_recursive cte sql format : orderly (execute_recursive_cte cte sql format).
Proof.
  unfold execute_recursive_cte. destruct (find_sub _ _); [|auto with orderly].
  destruct (parse_sql_sources _) as [[|r [|]]| |]; auto with orderly.
  apply orderly_bind; [apply orderly_attempt, orderly_single|]. intros [e|fed]; [auto with orderly|apply orderly_rounds].
Qed.

Lemma orderly_cte format recursive d : orderly (run_cte format recursive d).
Proof.
  destruct d as [cte sql]. unfold run_cte. destruct (_ && _).
  - apply orderly_bind; [apply orderly_recursive|]. intros [bs|]; auto with orderly.
  - destruct (parse_sql_sources sql) as [refs| |]; auto with orderly.
    apply orderly_bind; [apply orderly_attempt|intros [e|fed]; auto with orderly].
    destruct refs as [|r [|]]; [|apply orderly_single|]; destruct (is_union_query sql);
      first [apply orderly_union|apply orderly_join].
Qed.

Lemma orderly_resolve query format refs : orderly (resolve_ctes query format refs).
Proof.
  unfold resolve_ctes. destruct (parse_ctes query) as [[[recursive defs] main]|]; [|auto with orderly].
  apply orderly_bind.
  - induction defs as [|d defs IH]; cbn [run_ctes]; [auto with orderly|]. apply orderly_bind; [apply orderly_cte|auto].
  - intros _. destruct (parse_sql_sources main); auto with orderly.
Qed.
End Orderly.

(** The same for a whole query, and for a UNION that is dropped before its end. *)
Lemma orderly_query `{K : ArrowKernels} `{R : RowKernels} `{E : QueryEnv} query format refs range :
  orderly (execute_query query format refs range).
Proof.
  unfold execute_query. destruct refs as [|r [|r' refs]]; [|apply orderly_single|];
    (destruct (_ || _); [apply orderly_union|apply orderly_join]).
Qed.

(** Every part of a request only adds events. *)
Definition appends {A : Type} (m : exec A) : Prop := ∀ w, ∃ es, events (m w).1 = events w ++ es.
Lemma appends_bind {A B : Type} (m : exec A) (f : A → exec B) :
  appends m → (∀ a, appends (f a)) → appends (m ≫= f).
Proof.
  intros Hm Hf w. rewrite bind_run. destruct (Hm w) as (es & He). destruct (m w) as [w1 [a|e|]]; [|by exists es..].
  destruct (Hf a w1) as (es' & He'). exists (es ++ es'). cbn [fst] in *. by rewrite He', He, app_assoc.
Qed.
Lemma appends_same {A : Type} (m : exec A) : (∀ w, (m w).1 = w) → appends m.
Proof. intros H w. exists []. by rewrite H, app_nil_r. Qed.
Lemma appends_tell es : appends (tell es).
Proof. intros w. by exists es. Qed.
Lemma appends_lift {A : Type} (o : outcome string A) : appends (lift o).
Proof. by apply appends_same. Qed.
Lemma appends_ret {A : Type} (a : A) : appends (mret a).
Proof. by apply appends_same. Qed.
Lemma appends_registry : appends get_registry.
Proof. by apply appends_same. Qed.
Create HintDb appends.
#[export] Hint Resolve appends_tell appends_lift appends_ret appends_registry appends_bind : appends.

Lemma union_appends `{K : ArrowKernels} `{R : RowKernels} `{E : QueryEnv} query format refs :
  appends (execute_union query format refs).
Proof.
  unfold execute_union, fail. destruct refs as [|[ds0 t0] refs]; [auto with appends|].
  apply appends_bind; [auto with appends|]. intros per. apply appends_bind; [auto with appends|]. intros r.
  apply appends_bind; [auto with appends|]. intros _. apply appends_bind; [auto with appends|]. intros g.
  destruct (_ && _); auto with appends.
Qed.

Lemma fans_out_union `{K : ArrowKernels} `{R : RowKernels} `{E : QueryEnv} query format refs range :
  fans_out query format refs = true → execute_query query format refs range = execute_union query format refs.
Proof. unfold fans_out, execute_query. by destruct refs as [|r [|r' refs]]; [intros ->|done|intros ->]. Qed.

(** C20: A query that runs to its end returns every connection slot it takes.
    Where no registered connector panics, running a query on one source, as a
    UNION or a JOIN, and resolving its CTEs, recursive ones included, opens no
    slot that it does not close, whatever the connectors answer, fail, time
    out on or are made to fail with, and whether the query succeeds, fails or
    panics later; no registered datasource is removed or replaced by the CTEs a
    query registers; and a UNION returns its slots even when it is interrupted
    (cancelled or timed out as a whole), because its tasks run on.  The cases
    this excludes do leak: [interrupted_single_leaks], [panicking_task_leaks]. *)
Theorem queries_return_slots `{K : ArrowKernels} `{R : RowKernels} `{E : QueryEnv} query format refs range w :
  (∀ id c sq, registry w !! id = Some c → @execute (connector c) sq ≠ Panic) →
  settles (execute_query query format refs range) w ∧
  settles (resolve_ctes query format refs) w ∧
  (fans_out query format refs = true → ∀ before ds,
     opened ds (events (interrupted before query format refs range w)) = opened ds (events w)).
Proof.
  intros Hw. split; [by apply orderly_query|]. split; [by apply orderly_resolve|].
  intros Hf before ds. unfold interrupted. rewrite Hf. cbn [events].
  destruct (Nat.eqb before 0); [by rewrite app_nil_r|].
  pose proof (orderly_query query format refs range w Hw) as (_ & _ & Ho).
  rewrite (fans_out_union _ _ _ _ Hf) in *. destruct (union_appends query format refs w) as (es & He).
  specialize (Ho ds). by rewrite He, drop_app_length, <- He.
Qed.

(** A query on one source that is dropped while the connector works keeps its
    slot for ever. *)
Lemma interrupted_single_leaks `{K : ArrowKernels} `{R : RowKernels} `{E : QueryEnv} query format ds tbl range c sq w :
  registry w !! ds = Some c → build_sub_query query format tbl = Ok sq → chaos_fail ds = None →
  opened ds (events (interrupted 2 query format [(ds, tbl)] range w)) = (opened ds (events w) + 1)%Z.
Proof.
  intros Hc Hq Hch. unfold interrupted, fans_out, execute_query, execute_single. rewrite bind_run.
  unfold get_source, registry_get. rewrite Hc, bind_run. unfold lift at 1. rewrite Hq, Hch, bind_run.
  assert (∀ es : list Event, take 2 (drop (length (events w)) ((events w ++ [PoolAcquire ds; Contacted ds]) ++ es)) =
                [PoolAcquire ds; Contacted ds]) as Ht.
  { intros es. by rewrite <- app_assoc, drop_app_length. }
  cbn [tell fst snd events registry].
  assert (opened ds [PoolAcquire ds; Contacted ds] = 1%Z) as H1 by (cbn; by rewrite decide_True).
  destruct (@execute (connector c) (with_range sq range)); cbn [events fst]; rewrite opened_app;
    [rewrite bind_run; cbn [tell fst events mret exec_ret]|rewrite bind_run; cbn [tell fst events fail lift]|cbn [lift fst events]];
    [by rewrite Ht, H1..|].
  specialize (Ht []). rewrite app_nil_r in Ht. by rewrite Ht, H1.
Qed.

(** ** UNION *)

(** A row by the names of its columns; a column the batch lacks is null. *)
Definition cell_of (b : RecordBatch) (i : nat) (n : string) : cell :=
  match index_of (schema b) n with
  | Some j => from_option (λ a, value_at a i) None (columns b !! j)
  | None => None
  end.
Definition named_rows (b : RecordBatch) : list (string → cell) := cell_of b <$> seq 0 (num_rows b).
Definition same_row (r r' : string → cell) : Prop := ∀ n, r n = r' n.
#[export] Instance same_row_equiv : Equivalence same_row.
Proof. split; [by intros r n|by intros r r' H n|intros r r' r'' H H' n; by rewrite H]. Qed.
Definition tagged (ds : string) (r : string → cell) (n : string) : cell :=
  if decide (n = "_datasource") then Some (VUtf8 ds) else r n.

(** Batches that can be merged as they are: well formed, a column name has one
    type, and none is the name of the tag. *)
Definition compatible (bs : list RecordBatch) : Prop :=
  Forall wf_batch bs ∧
  (∀ f g, f ∈ concat (schema <$> bs) → g ∈ concat (schema <$> bs) → name f = name g → field_type f = field_type g) ∧
  "_datasource" ∉ name <$> concat (schema <$> bs).

Lemma index_of_snoc s f n :
  index_of (s ++ [f]) n =
  match index_of s n with Some i => Some i | None => if String.eqb (name f) n then Some (length s) else None end.
Proof.
  unfold index_of. induction s as [|g s IH]; cbn; [by destruct (String.eqb _ _)|].
  destruct (String.eqb (name g) n); [done|]. rewrite IH.
  destruct (position _ s); [done|]. by destruct (String.eqb (name f) n).
Qed.

Section Tags.
Context `{K : ArrowKernels, !ArrowLaws K}.

Definition tag_field : Field := mkField "_datasource" Utf8 false.
Definition tag_column (ds : string) (b : RecordBatch) : Array := mkArray Utf8 (replicate (num_rows b) (Some (VUtf8 ds))).

Lemma tag_wf ds b : wf_batch b →
  wf_columns (schema b ++ [tag_field]) (columns b ++ [tag_column ds b]) (num_rows b).
Proof.
  intros [Hc Hl]. split.
  - apply Forall2_app; [done|]. constructor; [|done]. split; [done|right].
    by apply Forall_replicate.
  - apply Forall_app. split; [done|]. constructor; [|done]. unfold array_len. cbn. apply length_replicate.
Qed.

Lemma tag_batch_ok ds b : wf_batch b →
  tag_batch ds b = Some (mkBatch (schema b ++ [tag_field]) (columns b ++ [tag_column ds b]) (num_rows b)).
Proof.
  intros Hb. pose proof (tag_wf ds b Hb) as Hw. unfold tag_batch. fold tag_field. fold (tag_column ds b).
  destruct (columns b ++ [tag_column ds b]) as [|c cols] eqn:Ec; [by destruct (columns b)|].
  assert (array_len c = num_rows b) as Hc by (destruct Hw as [_ Hw]; by apply Forall_cons in Hw as [? _]).
  rewrite <- Hc in Hw. rewrite try_new_ok by done. by rewrite Hc.
Qed.

Lemma tag_rows ds b : wf_batch b → "_datasource" ∉ name <$> schema b →
  Forall2 same_row (named_rows (mkBatch (schema b ++ [tag_field]) (columns b ++ [tag_column ds b]) (num_rows b)))
    (tagged ds <$> named_rows b).
Proof.
  intros Hb Hn. unfold named_rows. rewrite <- list_fmap_compose. apply Forall2_fmap. cbn [num_rows].
  apply Forall_Forall2_diag, Forall_forall. intros i Hi%elem_of_seq n. unfold compose, tagged, cell_of. cbn [schema columns].
  rewrite index_of_snoc. pose proof (wf_columns_length _ _ _ Hb) as Hlen.
  destruct (index_of (schema b) n) as [j|] eqn:Hj.
  - destruct (index_of_Some _ _ _ Hj) as (f & Hf & Hfn).
    assert (n ≠ "_datasource") as Hne.
    { intros ->. apply Hn. rewrite <- Hfn. apply list_elem_of_fmap. exists f. split; [done|]. by eapply list_elem_of_lookup_2. }
    rewrite decide_False by done. rewrite lookup_app_l; [done|]. rewrite Hlen. by eapply lookup_lt_Some.
  - case_decide as Hd.
    + subst n. cbn [tag_field name]. change (String.eqb "_datasource" "_datasource") with true. cbn [from_option]. rewrite <- Hlen, list_lookup_middle by done.
      cbn. unfold value_at. cbn. rewrite lookup_replicate_2; [done|lia].
    + destruct (String.eqb_spec (name tag_field) n) as [E|E]; [by destruct Hd|done].
Qed.

(** Tagging the batches of a source. *)
Lemma tag_all ds bs : Forall wf_batch bs → "_datasource" ∉ name <$> concat (schema <$> bs) →
  Forall wf_batch (add_datasource_column bs ds) ∧
  schema <$> add_datasource_column bs ds = (λ s, s ++ [tag_field]) ∘ schema <$> bs ∧
  Forall2 same_row (concat (named_rows <$> add_datasource_column bs ds)) (tagged ds <$> concat (named_rows <$> bs)).
Proof.
  unfold add_datasource_column. induction 1 as [|b bs Hb Hbs IH]; [by intros _; split_and!; constructor|].
  cbn [fmap list_fmap concat]. rewrite fmap_app, elem_of_app. intros Hn.
  cbn [omap list_omap]. rewrite tag_batch_ok by done. fold (omap (tag_batch ds) bs).
  destruct IH as (IH1 & IH2 & IH3); [tauto|]. split_and!.
  - constructor; [by apply (tag_wf ds b)|done].
  - cbn. by rewrite <- IH2.
  - cbn [fmap list_fmap concat]. rewrite fmap_app. apply Forall2_app; [apply tag_rows; tauto|exact IH3].
Qed.

(** The merged batches hold the rows they are made of. *)
Lemma aligned_rows target b r : wf_batch b → wf_batch r → schema r = target → num_rows r = num_rows b →
  Forall2 (aligned_from b) target (columns r) →
  (∀ f g, f ∈ target → g ∈ schema b → name f = name g → field_type f = field_type g) →
  (∀ f, f ∈ schema b → name f ∈ name <$> target) →
  Forall2 same_row (named_rows r) (named_rows b).
Proof.
  intros Hb Hr Hs Hlen Hal Hty Hsub. unfold named_rows. rewrite Hlen. apply Forall2_fmap, Forall_Forall2_diag, Forall_forall.
  intros i Hi%elem_of_seq n. unfold cell_of. rewrite Hs.
  destruct (index_of target n) as [j|] eqn:Hj.
  - destruct (index_of_Some _ _ _ Hj) as (f & Hf & <-).
    destruct (Forall2_lookup_l _ _ _ _ _ Hal Hf) as (a & Ha & Hfrom). rewrite Ha. cbn [from_option].
    unfold aligned_from in Hfrom. destruct (index_of (schema b) (name f)) as [k|] eqn:Hk.
    + destruct Hfrom as (col & Hcol & Heq). rewrite Hcol. cbn [from_option].
      destruct (index_of_Some _ _ _ Hk) as (g & Hg & Hgn).
      pose proof (wf_columns_type _ _ _ _ _ _ Hb Hg Hcol) as [Ht _].
      rewrite decide_True in Heq; [by subst|]. rewrite Ht. symmetry. apply Hty; [by eapply list_elem_of_lookup_2..|done].
    + subst a. unfold value_at. cbn. rewrite lookup_replicate_2; [done|lia].
  - assert (index_of (schema b) n = None) as ->; [|done].
    apply index_of_None. apply index_of_None in Hj. intros Hin. apply Hj.
    apply list_elem_of_fmap in Hin as (f & -> & Hf). by apply Hsub.
Qed.

Lemma union_rows sets :
  let all := concat sets in
  Forall wf_batch all →
  (∀ f g, f ∈ concat (schema <$> all) → g ∈ concat (schema <$> all) → name f = name g → field_type f = field_type g) →
  ∃ merged, union_batches sets = Ok merged ∧
    Forall2 same_row (concat (named_rows <$> merged)) (concat (named_rows <$> all)).
Proof.
  intros all Hwf Hty. destruct (all_same (schema <$> all)) eqn:Hsame.
  { unfold union_batches. fold all. rewrite Hsame. exists all. split; [by destruct all|]. reflexivity. }
  pose proof (union_schema_widest (schema <$> all)) as (Hnames & _ & Htypes).
  assert (∀ f g, f ∈ union_schema (schema <$> all) → g ∈ concat (schema <$> all) → name f = name g → field_type f = field_type g) as Hagree.
  { intros f g Hf Hg Hn.
    assert (∀ a b, a ∈ types_of (name f) (concat (schema <$> all)) → b ∈ types_of (name f) (concat (schema <$> all)) →
              comparable a b) as Hcmp.
    { intros a b Ha Hb. apply list_elem_of_fmap in Ha as (x & -> & Hx), Hb as (y & -> & Hy).
      apply list_elem_of_filter in Hx as [Hxn Hx], Hy as [Hyn Hy].
      left. rewrite (Hty x y Hx Hy) by congruence. apply widens_refl. }
    destruct (Htypes f Hf Hcmp) as [Hin _].
    apply list_elem_of_fmap in Hin as (x & -> & Hx). apply list_elem_of_filter in Hx as [Hxn Hx].
    apply Hty; [done..|congruence]. }
  assert (∀ b, b ∈ all → ∀ g, g ∈ schema b → g ∈ concat (schema <$> all)) as Hsub.
  { intros b Hb g Hg. apply elem_of_concat. exists (schema b). split; [done|]. apply list_elem_of_fmap. by exists b. }
  assert (∀ g, g ∈ concat (schema <$> all) → name g ∈ name <$> union_schema (schema <$> all)) as Hcover.
  { intros g Hg. rewrite Hnames. pose proof (dedup_keys id ∅ (name <$> concat (schema <$> all)) (name g)) as H.
    rewrite !list_fmap_id in H. apply H. split; [apply list_elem_of_fmap; by exists g|apply not_elem_of_empty]. }
  destruct (union_batches_aligned sets) as (res & Hres & Hal); fold all; [done|done| |].
  { apply Forall_forall. intros b Hb f i col Hf Hi Hcol Hne. destruct Hne.
    destruct (index_of_Some _ _ _ Hi) as (g & Hg & Hgn). rewrite Forall_forall in Hwf.
    destruct (wf_columns_type _ _ _ _ _ _ (Hwf b Hb) Hg Hcol) as [-> _]. symmetry.
    apply Hagree; [done| |done]. apply (Hsub b); [done|]. by eapply list_elem_of_lookup_2. }
  exists res. split; [done|]. fold all in Hal.
  assert (Forall2 (λ r b, Forall2 same_row (named_rows r) (named_rows b)) res all) as H.
  { apply Forall2_flip. rewrite Forall2_lookup in Hal |- *. intros i. specialize (Hal i).
    destruct (all !! i) as [b|] eqn:Hb, (res !! i) as [r|] eqn:Hr; inversion Hal as [? ? (H1 & H2 & H3 & H4)|]; subst; constructor.
    apply list_elem_of_lookup_2 in Hb. rewrite Forall_forall in Hwf.
    eapply aligned_rows; [by apply Hwf|done|exact H1|done|exact H4| |].
    - intros f g Hf Hg. apply Hagree; [done|by eapply Hsub].
    - intros g Hg. by apply Hcover, (Hsub b). }
  clear -H. induction H as [|r b res all Hrb _ IH]; [constructor|]. cbn [fmap list_fmap concat]. by apply Forall2_app.
Qed.
End Tags.

(** What one source replies to its sub-query: an injected fault, the timeout,
    its error as a text, or its rows. *)
Definition reply_of `{E : QueryEnv} (ds : string) (c : Source) (sq : SubQuery) : string + list RecordBatch :=
  match chaos_fail ds with
  | Some fault => inl ("query execution failed: " +:+ fault)
  | None =>
      if timed_out ds then inl ("query execution failed: connector '" +:+ ds +:+ "' timed out")
      else match @execute (connector c) sq with
           | Ok bs => inr bs
           | Err e => inl (connector_error_display e)
           | Panic => inl ""
           end
  end.

(** The replies of the registered sources, in the order of the query. *)
Fixpoint replies `{E : QueryEnv} (r : Registry) (refs : list (string * string)) (per : list SubQuery)
    : list (string * (string + list RecordBatch)) :=
  match refs, per with
  | (ds, _) :: refs, sq :: per =>
      match r !! ds with
      | Some c => (ds, reply_of ds c sq) :: replies r refs per
      | None => replies r refs per
      end
  | _, _ => []
  end.
Definition answered (rs : list (string * (string + list RecordBatch))) : list (string * list RecordBatch) :=
  omap (λ '(ds, a), match a with inr bs => Some (ds, bs) | inl _ => None end) rs.
Definition failed (rs : list (string * (string + list RecordBatch))) : list (string * string) :=
  omap (λ '(ds, a), match a with inl e => Some (ds, e) | inr _ => None end) rs.

Section Union.
Context `{K : ArrowKernels} `{R : RowKernels} `{E : QueryEnv}.

(** A task that does not panic replies as its source does. *)
Lemma run_task_reply ds c sq : calm_source c → ∃ es lat,
  run_task ds c sq = (es, match reply_of ds c sq with
                          | inr bs => Ok bs
                          | inl e => (run_task ds c sq).1.2 end, lat) ∧
  match reply_of ds c sq with
  | inr _ => True
  | inl e => ∃ e', (run_task ds c sq).1.2 = Err e' ∧ connector_error_display e' = e
  end.
Proof.
  intros Hc. unfold run_task, reply_of. destruct (chaos_fail ds) as [fault|].
  { eexists _, _. split; [done|]. by eexists. }
  unfold timed_execute. destruct (timed_out ds); cbn.
  { eexists _, _. split; [done|]. by eexists. }
  specialize (Hc sq). destruct (@execute (connector c) sq) as [bs|e|]; [..|done]; eexists _, _; split; try done. by eexists.
Qed.

Lemma await_spec r refs : calm r → ∀ per g, ∃ g',
  await_all (spawned r refs per) g = Ok g' ∧
  let rs := replies r refs per in
  batch_sets g' = batch_sets g ++ ((λ '(ds, bs), add_datasource_column bs ds) <$> answered rs) ∧
  gathered_sources g' = gathered_sources g ++ rs.*1 ∧
  ((λ e, (pe_datasource e, pe_error e)) <$> partial_errors g') =
    ((λ e, (pe_datasource e, pe_error e)) <$> partial_errors g) ++ failed rs.
Proof.
  intros Hr. induction refs as [|[ds t] refs IH]; intros per g.
  { exists g. cbn. by rewrite !app_nil_r. }
  destruct per as [|sq per].
  { exists g. cbn. by rewrite !app_nil_r. }
  unfold spawned. cbn [zip zip_with omap list_omap replies]. unfold registry_get at 1.
  destruct (r !! ds) as [c|] eqn:Hc; cbn [fmap option_fmap option_map]; [|apply IH].
  fold (omap (λ '(ds, _, sq), (λ c, (ds, c, sq)) <$> registry_get r ds) (zip refs per)). fold (spawned r refs per).
  cbn [await_all]. destruct (run_task_reply ds c sq) as (es & lat & Hrun & Hrep); [intros q; by eapply Hr|].
  unfold answered, failed. cbn [omap list_omap fmap list_fmap fst].
  destruct (reply_of ds c sq) as [e|bs] eqn:Er.
  - destruct Hrep as (e' & He' & <-). rewrite He' in Hrun. rewrite Hrun. cbn [gather_step mbind outcome_bind].
    edestruct IH as (g' & -> & H1 & H2 & H3). exists g'. split; [done|]. rewrite H1, H2, H3. cbn.
    rewrite fmap_app, <- !app_assoc. by split_and!.
  - rewrite Hrun. cbn [gather_step mbind outcome_bind].
    edestruct IH as (g' & -> & H1 & H2 & H3). exists g'. split; [done|]. rewrite H1, H2, H3. cbn.
    rewrite <- !app_assoc. by split_and!.
Qed.

Lemma replies_sources r refs per : length per = length refs →
  (replies r refs per).*1 = filter (λ ds, is_Some (r !! ds)) refs.*1.
Proof.
  revert per. induction refs as [|[ds t] refs IH]; intros [|sq per]; try done. intros [= Hl]. cbn [replies fmap list_fmap fst].
  rewrite filter_cons. destruct (r !! ds) as [c|] eqn:Hc.
  - rewrite decide_True by eauto. cbn. by rewrite IH.
  - rewrite decide_False by (by intros [? [=]]). by apply IH.
Qed.

Lemma union_subqueries_length query format refs t0 per :
  union_subqueries query format refs t0 = Ok per → length per = length refs.
Proof.
  unfold union_subqueries. destruct (build_sub_query query format t0); [..|done]; intros [= <-];
    unfold push_down_to_sources; by rewrite !length_fmap.
Qed.

Lemma calm_explicit r : (∀ id c sq, r !! id = Some c → @execute (connector c) sq ≠ Panic) → calm r.
Proof. done. Qed.

(** The tagged answers of all sources. *)
Lemma tagged_answers `{!ArrowLaws K} l : compatible (concat l.*2) →
  let sets := (λ '(ds, bs), add_datasource_column bs ds) <$> l in
  Forall wf_batch (concat sets) ∧
  schema <$> concat sets = (λ s, s ++ [tag_field]) ∘ schema <$> concat l.*2 ∧
  Forall2 same_row (concat (named_rows <$> concat sets))
    (l ≫= λ '(ds, bs), tagged ds <$> concat (named_rows <$> bs)).
Proof.
  intros (Hwf & _ & Hn) sets. subst sets. induction l as [|[ds bs] l IH]; [by split_and!; constructor|].
  cbn [fmap list_fmap concat snd] in Hwf, Hn |- *. rewrite fmap_app, concat_app, fmap_app, elem_of_app in Hn.
  apply Forall_app in Hwf as [Hb Hl]. destruct (tag_all ds bs Hb) as (T1 & T2 & T3); [tauto|].
  destruct IH as (I1 & I2 & I3); [done|tauto|]. split_and!.
  - by apply Forall_app.
  - by rewrite !fmap_app, T2, I2.
  - rewrite fmap_app, concat_app. cbn [mbind list_bind]. by apply Forall2_app.
Qed.
End Union.

(** C5: A UNION returns the rows of exactly the sources that answered, and
    reports the others.  With the sub-queries [per] built, no registered
    connector panicking and answers that can be merged without a cast
    ([compatible]: well-formed batches, one type per column name, no column
    named _datasource), every registered source of the query is asked once.
    When none answers and some fail, the query fails with the list of their
    errors; otherwise its rows are those of the answers in the order of the
    query, each with the name of its source in the column _datasource (a column
    a source does not have is null), and next to them are the errors of the
    sources that failed (an injected fault, the 25-second timeout or their own
    error) and the names of all sources asked. *)
Theorem union_reports_failures `{K : ArrowKernels, !ArrowLaws K} `{R : RowKernels} `{E : QueryEnv}
    query format refs t0 rest per w :
  refs = t0 :: rest →
  (∀ id c sq, registry w !! id = Some c → @execute (connector c) sq ≠ Panic) →
  union_subqueries query format refs t0.2 = Ok per →
  let rs := replies (registry w) refs per in
  compatible (concat (answered rs).*2) →
  let result := (execute_union query format refs w).2 in
  if decide (answered rs = [] ∧ failed rs ≠ [])
  then result = Err (join_with "; " ((λ '(ds, e), ds +:+ ": " +:+ e) <$> failed rs))
  else ∃ fed, result = Ok fed ∧
         Forall2 same_row (concat (named_rows <$> fed_batches fed))
           (answered rs ≫= λ '(ds, bs), tagged ds <$> concat (named_rows <$> bs)) ∧
         ((λ e, (pe_datasource e, pe_error e)) <$> fed_partial_errors fed) = failed rs ∧
         fed_datasources fed = filter (λ ds, is_Some (registry w !! ds)) refs.*1.
Proof.
  intros -> Hcalm Hper rs Hcomp result. destruct t0 as [ds0 tbl0]. cbn [snd] in Hper.
  destruct (await_spec (registry w) ((ds0, tbl0) :: rest) Hcalm per (mkGathered [] ∅ [] [] [])) as (g & Haw & H).
  cbv zeta in H. fold rs in H. destruct H as (Hb & Hs & He0). cbn [batch_sets gathered_sources app] in Hb, Hs.
  assert (((λ e, (pe_datasource e, pe_error e)) <$> partial_errors g) = failed rs) as He by exact He0. clear He0.
  assert (rs.*1 = filter (λ ds, is_Some (registry w !! ds)) ((ds0, tbl0) :: rest).*1) as Hsrc
    by (apply replies_sources; by eapply union_subqueries_length).
  clearbody rs.
  eassert (result = _) as Hres.
  { unfold result, execute_union. rewrite Hper. rewrite bind_run. unfold lift at 1. rewrite bind_run.
    unfold get_registry. rewrite bind_run. unfold tell. rewrite bind_run. unfold lift at 1. rewrite Haw. reflexivity. }
  assert (bool_decide (batch_sets g = []) && negb (bool_decide (partial_errors g = [])) =
          bool_decide (answered rs = [] ∧ failed rs ≠ [])) as Hbd.
  { rewrite Hb, <- He. apply eq_true_iff_eq. rewrite andb_true_iff, negb_true_iff, bool_decide_eq_false, !bool_decide_eq_true.
    split; intros [H1 H2].
    - split; [by apply fmap_nil_inv in H1|by intros H%fmap_nil_inv].
    - split; [by rewrite H1|by intros H; rewrite H in H2]. }
  rewrite Hbd in Hres. case_decide as Hd.
  { rewrite bool_decide_true in Hres by done. rewrite Hres. cbn. rewrite <- He, <- list_fmap_compose. done. }
  rewrite bool_decide_false in Hres by done.
  destruct (tagged_answers (answered rs) Hcomp) as (Hwf & Hsch & Hrows).
  destruct (union_rows ((λ '(ds, bs), add_datasource_column bs ds) <$> answered rs) Hwf) as (merged & Hm & Hmr).
  { rewrite Hsch. destruct Hcomp as (_ & Hty & Hno).
    assert (∀ f, f ∈ concat ((λ s, s ++ [tag_field]) ∘ schema <$> concat (answered rs).*2) →
              f = tag_field ∨ f ∈ concat (schema <$> concat (answered rs).*2)) as Hin.
    { intros f (s & Hf & Hs')%elem_of_concat. apply list_elem_of_fmap in Hs' as (b & -> & Hbin).
      apply elem_of_app in Hf as [Hf|Hf%list_elem_of_singleton]; [right|by left].
      apply elem_of_concat. exists (schema b). split; [done|]. apply list_elem_of_fmap. by exists b. }
    intros f f' [->|Hf]%Hin [->|Hf']%Hin Hn; [done|..|by apply Hty];
      (destruct Hno; apply list_elem_of_fmap; eexists; split; [|eassumption]; done). }
  rewrite Hb, Hm in Hres. cbn in Hres. eexists. split; [exact Hres|]. cbn [fed_batches fed_partial_errors fed_datasources].
  split_and!; [by etrans|done|]. by rewrite Hs.
Qed.

(** A task that panics keeps its slot: the UNION then fails with the text of
    the panic, and the slot is never returned. *)
Lemma panicking_task_leaks `{K : ArrowKernels} `{R : RowKernels} `{E : QueryEnv} query format ds tbl per sq w c :
  union_subqueries query format [(ds, tbl)] tbl = Ok (sq :: per) → registry w !! ds = Some c →
  chaos_fail ds = None → timed_out ds = false → @execute (connector c) sq = Panic →
  let '(w', r) := execute_union query format [(ds, tbl)] w in
  r = Err ("task join error: " +:+ join_error ds) ∧ opened ds (events w') = (opened ds (events w) + 1)%Z.
Proof.
  intros Hper Hc Hch Hto Hp. unfold execute_union. rewrite Hper. rewrite bind_run. unfold lift at 1. rewrite bind_run.
  unfold get_registry, spawned, registry_get. cbn [zip zip_with omap list_omap]. rewrite Hc.
  cbn [fmap option_fmap option_map mbind list_bind]. unfold task_events. cbn [fst snd].
  assert (run_task ds c sq = ([PoolAcquire ds; Contacted ds], Panic, elapsed_ms ds)) as Hrun.
  { unfold run_task, timed_execute. by rewrite Hch, Hto, Hp. }
  cbn [await_all]. rewrite Hrun, bind_run. unfold tell. rewrite bind_run. cbn [lift gather_step mbind outcome_bind].
  split; [done|]. cbn [events]. rewrite opened_app. cbn. by rewrite decide_True.
Qed.

(** ** Recursive CTEs *)

Section Recursive.
Context `{K : ArrowKernels} `{R : RowKernels} `{E : QueryEnv}.

(** Querying a CTE returns all its rows, whatever the query asks. *)
Lemma memory_single query format n tbl rows sq w :
  registry w !! n = Some (memory_connector n rows) → chaos_fail n = None → build_sub_query query format tbl = Ok sq →
  ∃ w' fed, execute_single query format (n, tbl) None w = (w', Ok fed) ∧ fed_batches fed = rows ∧ registry w' = registry w.
Proof.
  intros Hn Hc Hq. unfold execute_single. rewrite bind_run. unfold get_source, registry_get. rewrite Hn, bind_run.
  unfold lift. rewrite Hq, Hc. by eexists _, _.
Qed.

Lemma rounds_repeat n cte sql format tbl rows sq :
  has_rows rows = true → parse_sql_sources sql = Ok [(cte, tbl)] → chaos_fail cte = None →
  build_sub_query sql format tbl = Ok sq → ∀ all w, registry w !! cte = Some (memory_connector cte rows) →
  ∃ w', recursive_rounds n cte sql format all rows w = (w', Ok (Some (all ++ concat (replicate n rows)))).
Proof.
  intros Hr Hp Hc Hq. induction n as [|n IH]; intros all w Hw; cbn [recursive_rounds].
  { exists w. cbn. by rewrite app_nil_r. }
  rewrite Hr, Hp. cbn [negb]. rewrite bind_run. unfold try_register, register.
  change (source_id (memory_connector cte rows)) with cte. rewrite Hw. rewrite bind_run. unfold attempt.
  destruct (memory_single sql format cte tbl rows sq w Hw Hc Hq) as (w1 & fed & -> & Hf & Hr1).
  rewrite Hf, Hr. destruct (IH (all ++ rows) w1) as [w2 Hw2]; [by rewrite Hr1|].
  exists w2. rewrite Hw2. cbn [replicate concat]. by rewrite app_assoc.
Qed.
End Recursive.

(** The same batches, some number of times. *)
Definition copies (n : nat) (bs : list RecordBatch) : list RecordBatch := concat (replicate n bs).

(** A recursive CTE never advances: the rows the first round registers
    under the name of the CTE are never replaced, so a recursive part that
    reads the CTE sees the base rows in every round; the result is the base
    rows followed by a hundred more copies of them, whatever the recursive
    part filters or computes. *)
Theorem recursive_cte_repeats `{K : ArrowKernels} `{R : RowKernels} `{E : QueryEnv} cte inner format pos src w w1 fed tbl sq :
  find_sub " union all " (to_lowercase inner) = Some pos →
  let base_sql := trim (str_take pos inner) in
  let recursive_sql := trim (str_drop (pos + 11) inner) in
  parse_sql_sources base_sql = Ok [src] → execute_single base_sql format src None w = (w1, Ok fed) →
  has_rows (fed_batches fed) = true → registry w1 !! cte = None →
  parse_sql_sources recursive_sql = Ok [(cte, tbl)] → chaos_fail cte = None →
  build_sub_query recursive_sql format tbl = Ok sq →
  (execute_recursive_cte cte inner format w).2 =
    Ok (Some (fed_batches fed ++ copies 100 (fed_batches fed))).
Proof.
  intros Hpos base rec Hb Hs Hrows Hfresh Hp Hc Hq. unfold copies, execute_recursive_cte. rewrite Hpos. fold base. fold rec.
  rewrite Hb, bind_run. unfold attempt. rewrite Hs. unfold MAX_ITERATIONS. generalize 99. intros n.
  cbn [recursive_rounds replicate concat]. rewrite Hrows, Hp. cbn [negb]. rewrite bind_run.
  unfold try_register, register. change (source_id (memory_connector cte (fed_batches fed))) with cte. rewrite Hfresh.
  set (w2 := mkWorld _ _). assert (registry w2 !! cte = Some (memory_connector cte (fed_batches fed))) as Hw2
    by apply lookup_insert_eq.
  rewrite bind_run. unfold attempt. destruct (memory_single rec format cte tbl _ sq w2 Hw2 Hc Hq) as (w3 & fed' & -> & Hf & Hr3).
  rewrite Hf, Hrows.
  destruct (rounds_repeat n cte rec format tbl _ sq Hrows Hp Hc Hq (fed_batches fed ++ fed_batches fed) w3) as [w4 ->];
    [by rewrite Hr3|]. cbn [snd]. by rewrite app_assoc.
Qed.

(** ** WITH clauses *)

Definition cte_text (d : string * string) : string := d.1 +:+ " AS (" +:+ d.2 +:+ ")".
Definition with_clause (defs : list (string * string)) (main : string) : string :=
  "WITH " +:+ join_with ", " (cte_text <$> defs) +:+ " " +:+ main.

(** A name the clause reads: not empty, without blanks or parentheses. *)
Definition cte_name_char (c : ascii) : bool := negb (is_whitespace c) && negb (Ascii.eqb c "(").
Definition cte_ok (d : string * string) : Prop :=
  d.1 ≠ "" ∧ str_all cte_name_char d.1 = true ∧ balanced d.2 ∧ trim d.2 = d.2.
(** A main query: without blanks around it, and not starting with a comma. *)
Definition main_ok (main : string) : Prop :=
  trim main = main ∧ starts_with_char "," main = false ∧ skip_blank main = main.

Lemma ascii_blank c : is_ascii_whitespace c = true → is_whitespace c = true.
Proof. destruct c as [[] [] [] [] [] [] [] []]; done. Qed.

Lemma skip_blank_name d t : cte_ok d → skip_blank (cte_text d +:+ t) = cte_text d +:+ t.
Proof.
  intros (Hne & Hn & _). unfold cte_text. destruct d as [[|a n] sql]; [done|]. cbn [fst] in *.
  cbn [str_all] in Hn. apply andb_prop in Hn as [[Ha _]%andb_prop _]. rewrite !str_app_cons.
  unfold skip_blank. cbn [trim_start_while]. destruct (is_ascii_whitespace a) eqn:E; [|done].
  apply ascii_blank in E. by rewrite E in Ha.
Qed.

Lemma take_name n t : str_all cte_name_char n = true →
  take_chars (λ c, negb (is_ascii_whitespace c) && negb (Ascii.eqb c "(")) (n +:+ " " +:+ t) = n.
Proof.
  induction n as [|a n IH]; [done|]. cbn [str_all]. intros [[Ha Hp]%andb_prop Hn]%andb_prop.
  rewrite str_app_cons. cbn [take_chars]. destruct (is_ascii_whitespace a) eqn:E.
  { apply ascii_blank in E. by rewrite E in Ha. }
  cbn [negb andb]. rewrite Hp. by rewrite IH.
Qed.

Lemma name_trim n : n ≠ "" → str_all cte_name_char n = true → trim n = n.
Proof.
  intros Hne Hn. assert (str_all (λ a, negb (is_whitespace a)) n = true) as Hw.
  { eapply str_all_impl; [|exact Hn]. by intros a [? _]%andb_prop. }
  clear Hn. apply trim_id.
  - destruct n as [|a n]; [done|]. cbn in *. by apply andb_prop in Hw as [? _].
  - induction n as [|a n IH]; [done|]. cbn [str_all] in Hw. apply andb_prop in Hw as [Ha Hn].
    destruct n as [|b n]; [exact Ha|]. by apply IH.
Qed.

(** One definition of the clause. *)
Lemma cte_loop_step fuel s d tail defs : cte_ok d → skip_blank s = cte_text d +:+ tail →
  cte_loop (S fuel) s defs =
    (if starts_with_char "," (skip_blank tail) then cte_loop fuel (str_drop 1 (skip_blank tail)) (defs ++ [d])
     else (defs ++ [d], skip_blank tail)).
Proof.
  intros Hd Hs. cbn [cte_loop]. rewrite Hs. destruct d as [n sql]. pose proof Hd as (Hne & Hn & Hb & Ht). cbn [fst snd] in *.
  assert (String.eqb (cte_text (n, sql) +:+ tail) "" = false) as ->.
  { destruct n as [|a n]; [done|]. unfold cte_text. cbn [fst]. by rewrite !str_app_cons. }
  assert (cte_text (n, sql) +:+ tail = n +:+ " " +:+ ("AS (" +:+ sql +:+ ")" +:+ tail)) as ->.
  { unfold cte_text. cbn [fst snd]. by rewrite <- !str_app_assoc. }
  rewrite take_name, str_drop_exact, name_trim by done.
  change (skip_blank (" " +:+ ?x)) with (skip_blank x). set (x := sql +:+ ")" +:+ tail).
  change (skip_blank ("AS (" +:+ x)) with ("AS (" +:+ x).
  change (negb (String.eqb (to_lowercase (str_take 2 ("AS (" +:+ x))) "as")) with false. cbv iota.
  change (skip_blank (str_drop 2 ("AS (" +:+ x))) with ("(" +:+ x).
  change (negb (starts_with_char "(" ("(" +:+ x))) with false. cbv iota.
  change (str_drop 1 ("(" +:+ x)) with x. unfold find_matching_paren, x.
  rewrite matching_paren_balanced by (done || lia). change (")" +:+ tail) with (String ")" tail).
  assert (matching_paren 1 (0 + String.length sql) (String ")" tail) = Some (String.length sql)) as -> by done.
  rewrite str_take_app, Ht. rewrite Nat.add_comm. change (1 + String.length sql) with (S (String.length sql)).
  replace (S (String.length sql)) with (String.length sql + 1) by lia. by rewrite str_drop_app.
Qed.

Lemma cte_loop_defs main : main_ok main → ∀ defs fuel s acc, defs ≠ [] → Forall cte_ok defs → length defs ≤ fuel →
  skip_blank s = join_with ", " (cte_text <$> defs) +:+ " " +:+ main →
  cte_loop fuel s acc = (acc ++ defs, main).
Proof.
  intros (_ & Hcomma & Hskip). induction defs as [|d defs IH]; [done|]. intros fuel s acc _ Hall Hf Hs.
  apply Forall_cons in Hall as [Hd Hall]. destruct fuel as [|fuel]; [cbn in Hf; lia|].
  destruct defs as [|d' defs].
  - rewrite (cte_loop_step fuel s d (" " +:+ main)) by done.
    change (skip_blank (" " +:+ main)) with (skip_blank main). by rewrite Hskip, Hcomma.
  - rewrite !fmap_cons, join_with_cons, <- !fmap_cons in Hs. set (rest := join_with ", " _) in Hs.
    rewrite <- !str_app_assoc in Hs.
    rewrite (cte_loop_step fuel s d (", " +:+ rest +:+ " " +:+ main)) by done.
    change (skip_blank (", " +:+ ?x)) with (", " +:+ x). change (starts_with_char "," (", " +:+ ?x)) with true. cbv iota.
    change (str_drop 1 (", " +:+ ?x)) with (" " +:+ x).
    rewrite (IH fuel (" " +:+ rest +:+ " " +:+ main) (acc ++ [d])); [by rewrite <- app_assoc|done..|cbn in *; lia|].
    change (skip_blank (" " +:+ ?x)) with (skip_blank x). unfold rest.
    apply Forall_cons in Hall as [Hd' _]. destruct defs as [|d'' defs]; [by apply skip_blank_name|].
    rewrite !fmap_cons, join_with_cons, <- !str_app_assoc. by apply skip_blank_name.
Qed.

(** A word followed by a blank starts with another one and a blank only when
    they are the same word. *)
Lemma word_prefix p n t t' : str_all (λ c, negb (Ascii.eqb c " ")) p = true → str_all (λ c, negb (Ascii.eqb c " ")) n = true →
  n +:+ String " " t = p +:+ String " " t' → n = p.
Proof.
  revert n. induction p as [|a p IH]; intros [|b n]; cbn [str_all]; [done|..].
  - intros _ [Hb _]%andb_prop [= -> _]. done.
  - intros [Ha _]%andb_prop _ [= <- _]. done.
  - intros [_ Hp]%andb_prop [_ Hn]%andb_prop. rewrite !str_app_cons. intros [= -> H]. f_equal. by apply IH.
Qed.

Lemma lower_no_blank n : str_all cte_name_char n = true → str_all (λ c, negb (Ascii.eqb c " ")) (to_lowercase n) = true.
Proof.
  induction n as [|a n IH]; [done|]. cbn [str_all to_lowercase]. intros [Ha Hn]%andb_prop. rewrite IH by done.
  rewrite andb_true_r. revert Ha. clear. destruct a as [[] [] [] [] [] [] [] []]; done.
Qed.

(** A WITH clause reads back: for definitions with a name and a query
    whose parentheses match (nested ones included), separated by commas, and a
    main query, the parser finds exactly these definitions, in order, and
    exactly this main query; a clause that does not start with RECURSIVE is
    not taken for a recursive one. *)
Theorem with_clause_round_trip d defs main :
  Forall cte_ok (d :: defs) → main_ok main → to_lowercase d.1 ≠ "recursive" →
  parse_ctes (with_clause (d :: defs) main) = Some (false, d :: defs, main).
Proof.
  intros Hall Hmain Hrec. unfold parse_ctes, with_clause.
  set (body := join_with ", " (cte_text <$> d :: defs) +:+ " " +:+ main).
  set (lower := to_lowercase ("WITH " +:+ body)).
  assert (lower = "with " +:+ to_lowercase body) as Hl by apply to_lowercase_app.
  change (trim_start lower) with (trim_start ("with " +:+ to_lowercase body)).
  change (trim_start ("with " +:+ ?x)) with ("with " +:+ x). rewrite starts_with_app. cbn [negb]. rewrite Hl, find_sub_prefix.
  cbn [mbind option_bind].
  assert (starts_with "with recursive " ("with " +:+ to_lowercase body) = false) as ->.
  { apply not_true_iff_false. intros [t Ht]%starts_with_iff. apply Hrec.
    change ("with recursive " +:+ t) with ("with " +:+ "recursive" +:+ String " " t) in Ht.
    assert (to_lowercase body = "recursive" +:+ String " " t) as Hb by by injection Ht.
    assert (∃ u, body = d.1 +:+ String " " u) as [u Hu].
    { unfold body. destruct defs; [|rewrite !fmap_cons, join_with_cons]; unfold cte_text; cbn [fmap list_fmap join_with];
        eexists; rewrite <- !str_app_assoc; reflexivity. }
    rewrite Hu, to_lowercase_app in Hb. cbn [to_lowercase] in Hb.
    apply Forall_cons in Hall as [(_ & Hn & _) _]. eapply word_prefix; [done|by apply lower_no_blank|exact Hb]. }
  change (str_drop (0 + 5 + 0) ("WITH " +:+ body)) with body.
  rewrite (cte_loop_defs main Hmain (d :: defs)); [|done|done| |].
  - destruct Hmain as (Ht & _). by rewrite Ht.
  - rewrite str_length_app. apply le_S. change (String.length "WITH ") with 5.
    enough (length (d :: defs) ≤ String.length body) by lia. unfold body. clear. rewrite str_length_app.
    enough (length (d :: defs) ≤ String.length (join_with ", " (cte_text <$> d :: defs))) by lia.
    revert d. induction defs as [|d' defs IH]; intros d.
    + unfold cte_text. cbn [fmap list_fmap join_with]. rewrite !str_length_app. cbn. lia.
    + rewrite !fmap_cons, join_with_cons, <- fmap_cons. rewrite !str_length_app. specialize (IH d'). unfold cte_text at 1.
      rewrite !str_length_app. cbn in *. lia.
  - destruct defs as [|d' defs]; apply Forall_cons in Hall as [Hd _]; unfold body; [by apply skip_blank_name|].
    rewrite !fmap_cons, join_with_cons, <- !str_app_assoc. by apply skip_blank_name.
Qed.

(** ** CTEs that are not used *)

(** A part that never fails (it may panic). *)
Definition unfailing {A : Type} (m : exec A) : Prop := ∀ w e, (m w).2 ≠ Err e.

Lemma unfailing_bind {A B : Type} (m : exec A) (f : A → exec B) : unfailing m → (∀ a, unfailing (f a)) → unfailing (m ≫= f).
Proof.
  intros Hm Hf w e. rewrite bind_run. specialize (Hm w). destruct (m w) as [w1 [a|e'|]]; cbn in *; [by apply Hf|by destruct (Hm e')|done].
Qed.
Lemma unfailing_attempt {A : Type} (m : exec A) : unfailing (attempt m).
Proof. intros w e. unfold attempt. by destruct (m w) as [w1 [| |]]. Qed.
Lemma unfailing_ret {A : Type} (a : A) : unfailing (mret a).
Proof. by intros w e. Qed.
Lemma unfailing_panic {A : Type} : unfailing (lift (A := A) Panic).
Proof. by intros w e. Qed.
Lemma unfailing_register s : unfailing (try_register s).
Proof. by intros w e. Qed.
Create HintDb unfailing.
#[export] Hint Resolve unfailing_attempt unfailing_ret unfailing_panic unfailing_register unfailing_bind : unfailing.

Section Unused.
Context `{K : ArrowKernels} `{R : RowKernels} `{E : QueryEnv}.

Lemma unfailing_rounds n cte sql format : ∀ all ws, unfailing (recursive_rounds n cte sql format all ws).
Proof.
  induction n as [|n IH]; intros all ws; cbn [recursive_rounds]; [auto with unfailing|].
  destruct (has_rows ws); cbn [negb]; [|auto with unfailing]. apply unfailing_bind; [auto with unfailing|]. intros _.
  destruct (parse_sql_sources sql) as [[|r [|r' [|]]]| |]; auto with unfailing;
    (apply unfailing_bind; [auto with unfailing|]); intros [e|fed]; auto with unfailing; destruct (has_rows _); auto with unfailing.
Qed.

Lemma unfailing_cte format recursive d : unfailing (run_cte format recursive d).
Proof.
  destruct d as [cte sql]. unfold run_cte. destruct (_ && _).
  - apply unfailing_bind; [|intros []; auto with unfailing]. unfold execute_recursive_cte.
    destruct (find_sub _ _); [|auto with unfailing]. destruct (parse_sql_sources _) as [[|r [|]]| |]; auto with unfailing.
    apply unfailing_bind; [auto with unfailing|]. intros []; [auto with unfailing|apply unfailing_rounds].
  - destruct (parse_sql_sources sql); auto with unfailing. apply unfailing_bind; [auto with unfailing|]. intros []; auto with unfailing.
Qed.

Lemma unfailing_ctes format recursive defs : unfailing (run_ctes format recursive defs).
Proof.
  induction defs as [|d defs IH]; cbn [run_ctes]; [auto with unfailing|]. apply unfailing_bind; [apply unfailing_cte|auto].
Qed.

Lemma resolve_main query format refs w recursive defs main :
  parse_ctes query = Some (recursive, defs, main) → (resolve_ctes query format refs w).2 ≠ Panic →
  (resolve_ctes query format refs w).2 =
    match parse_sql_sources main with Ok new => Ok (main, new) | Err _ => Ok (main, refs) | Panic => Panic end.
Proof.
  intros Hp. unfold resolve_ctes. rewrite Hp, bind_run. pose proof (unfailing_ctes format recursive defs w) as Hu.
  destruct (run_ctes format recursive defs w) as [w1 [[]|e|]]; cbn in *; [|by destruct (Hu e)|done].
  by destruct (parse_sql_sources main).
Qed.
End Unused.

(** A CTE that is used by its plain name is not used: a main query that
    names no qualified source keeps the sources of the whole text, which are
    those of the CTE's own query, and is then run on them itself, without what
    the CTE selected or filtered. *)
Theorem plain_cte_is_bypassed `{K : ArrowKernels} `{R : RowKernels} `{E : QueryEnv} query format refs w recursive defs main e :
  parse_ctes query = Some (recursive, defs, main) → parse_sql_sources main = Err e →
  (resolve_ctes query format refs w).2 ≠ Panic →
  (resolve_ctes query format refs w).2 = Ok (main, refs).
Proof. intros Hp Hm Hn. rewrite (resolve_main query format refs w recursive defs main) by done. by rewrite Hm. Qed.

(** A join reads nothing of the query but its ON clause: WHERE, the selected
    columns, and the kind of join change nothing. *)
Lemma join_reads_on_only `{K : ArrowKernels} `{R : RowKernels} `{E : QueryEnv} query query' refs :
  parse_on_keys query = parse_on_keys query' → parse_time_window query = parse_time_window query' →
  execute_join query refs = execute_join query' refs.
Proof. intros Hk Hw. unfold execute_join, join_answers. by rewrite Hk, Hw. Qed.

Lemma left_join_is_inner `{K : ArrowKernels} `{R : RowKernels} `{E : QueryEnv} refs :
  execute_join "SELECT a.x FROM a.t LEFT JOIN b.u ON t.id = u.id WHERE t.n > 5" refs =
  execute_join "SELECT * FROM a.t JOIN b.u ON t.id = u.id " refs.
Proof. by apply join_reads_on_only. Qed.

(** ** Examples *)

Definition ex_env : QueryEnv := {|
  env_parse_sql := λ _, inl "no parser"; env_show_expr := λ _, ""; env_parse_f64 := λ t, f64_of_N <$> parse_u64 t;
  chaos_fail := λ _, None; timed_out := λ ds, String.eqb ds "slow"; elapsed_ms := λ _, 5%N;
  memory_size := λ b, N.of_nat (num_rows b); join_error := λ ds, "panic in " +:+ ds; engine_error_display := λ _, "engine error";
  show_ratio := λ _, "1.0"; put_range := λ p _ _ _, p |}.

Definition ex_rows (l : list Z) : list RecordBatch :=
  [mkBatch [mkField "n" Int64 true] [mkArray Int64 ((λ z, Some (VInt z)) <$> l)] (length l)].
Definition ex_world : World :=
  mkWorld {[ "logs" := memory_connector "logs" (ex_rows [1; 2]%Z); "slow" := memory_connector "slow" (ex_rows [9]%Z) ]} [].

Lemma ex_calm : calm (registry ex_world).
Proof.
  intros id c sq Hc. cbn in Hc. rewrite lookup_insert_Some in Hc. destruct Hc as [[_ <-]|[_ Hc]]; [done|].
  apply lookup_singleton_Some in Hc as [_ <-]. done.
Qed.

Lemma ex_compatible : compatible (ex_rows [1; 2]%Z).
Proof.
  split_and!.
  - constructor; [|done]. by apply (bool_decide_eq_true_1 (wf_batch _)).
  - intros f g Hf Hg _. cbn in Hf, Hg. apply list_elem_of_singleton in Hf as ->, Hg as ->. done.
  - by apply (bool_decide_eq_true_1 ("_datasource" ∉ _)).
Qed.

(** What the rows hold under some names. *)
Definition cells_at (ns : list string) (l : list (string → cell)) : list (list cell) := (λ r : string → cell, r <$> ns) <$> l.
Lemma same_rows_cells ns l l' : Forall2 same_row l l' → cells_at ns l = cells_at ns l'.
Proof.
  induction 1 as [|r r' l l' Hr _ IH]; [done|]. cbn. unfold cells_at in IH. rewrite IH. f_equal. apply list_fmap_ext. intros i n _. apply Hr.
Qed.

Lemma union_reports_failures_witness :
  let q := "SELECT * FROM logs.app UNION ALL SELECT * FROM slow.app" in
  let refs := [("logs", "app"); ("slow", "app")] in
  ∃ fed, (execute_union (K := RefArrow) (E := ex_env) q "sql" refs ex_world).2 = Ok fed ∧
    cells_at ["n"; "_datasource"] (concat (named_rows <$> fed_batches fed)) =
      [[Some (VInt 1); Some (VUtf8 "logs")]; [Some (VInt 2); Some (VUtf8 "logs")]] ∧
    ((λ e, (pe_datasource e, pe_error e)) <$> fed_partial_errors fed) =
      [("slow", "query execution failed: connector 'slow' timed out")] ∧
    fed_datasources fed = ["logs"; "slow"].
Proof.
  intros q refs.
  set (per := [empty_subquery "app" (Some FANOUT_LIMIT); empty_subquery "app" (Some FANOUT_LIMIT)]).
  assert (answered (replies (E := ex_env) (registry ex_world) refs per) = [("logs", ex_rows [1; 2]%Z)]) as Ha
    by (vm_compute; reflexivity).
  assert (failed (replies (E := ex_env) (registry ex_world) refs per) =
            [("slow", "query execution failed: connector 'slow' timed out")]) as Hf by (vm_compute; reflexivity).
  pose proof (union_reports_failures (K := RefArrow) (R := RefRows) (E := ex_env) q "sql" refs ("logs", "app") [("slow", "app")]
    per ex_world eq_refl ex_calm eq_refl) as H.
  cbv zeta in H. rewrite Ha, Hf in H. cbn [fmap list_fmap concat snd] in H.
  change (concat [ex_rows [1; 2]%Z]) with (ex_rows [1; 2]%Z) in H. specialize (H ex_compatible).
  rewrite decide_False in H by (by intros [? _]). destruct H as (fed & H1 & H2 & H3 & H4).
  exists fed. split; [exact H1|]. split; [|split; [exact H3|rewrite H4; vm_compute; reflexivity]].
  rewrite (same_rows_cells _ _ _ H2). vm_compute. reflexivity.
Defined.

Lemma queries_return_slots_witness :
  let q := "SELECT * FROM logs.app UNION ALL SELECT * FROM slow.app" in
  let w := (execute_query (K := RefArrow) (R := RefRows) (E := ex_env) q "sql" [("logs", "app"); ("slow", "app")] None ex_world).1 in
  length (events w) = 12 ∧ opened "slow" (events w) = 0%Z.
Proof.
  intros q w. split; [vm_compute; reflexivity|].
  destruct (queries_return_slots (K := RefArrow) (R := RefRows) (E := ex_env) q "sql" [("logs", "app"); ("slow", "app")] None
              ex_world ex_calm) as ((_ & H) & _).
  exact (H "slow").
Defined.

(** A query on [logs] that is cancelled while the connector works. *)
Example cancelled_query_leaks :
  opened "logs" (events (interrupted (K := RefArrow) (R := RefRows) (E := ex_env) 2 "SELECT * FROM logs.app" "sql" [("logs", "app")] None ex_world)) = 1%Z.
Proof. vm_compute. reflexivity. Qed.

Lemma recursive_cte_repeats_witness :
  let inner := "SELECT n FROM logs.app UNION ALL SELECT n FROM seq.x WHERE n < 5" in
  (execute_recursive_cte (K := RefArrow) (R := RefRows) (E := ex_env) "seq" inner "sql" ex_world).2 =
    Ok (Some (ex_rows [1; 2]%Z ++ copies 100 (ex_rows [1; 2]%Z))).
Proof.
  intros inner.
  destruct (execute_single (E := ex_env) "SELECT n FROM logs.app" "sql" ("logs", "app") None ex_world) as [w1 r] eqn:Er.
  pose proof Er as Hf. vm_compute in Hf. destruct r as [fed| |]; [|discriminate Hf..].
  assert (fed_batches fed = ex_rows [1; 2]%Z) as Hb by by injection Hf as <- <-.
  assert (registry w1 !! "seq" = None) as Hn by by injection Hf as <- <-.
  rewrite <- Hb.
  apply (recursive_cte_repeats (K := RefArrow) (R := RefRows) (E := ex_env) "seq" inner "sql" 22 ("logs", "app") ex_world w1 fed
           "x" (empty_subquery "x" None)); try done. by rewrite Hb.
Defined.

Lemma with_clause_round_trip_witness :
  parse_ctes "WITH a AS (SELECT f(x) FROM logs.t), b AS (SELECT 1) SELECT * FROM a.r JOIN b.r" =
    Some (false, [("a", "SELECT f(x) FROM logs.t"); ("b", "SELECT 1")], "SELECT * FROM a.r JOIN b.r").
Proof.
  apply (with_clause_round_trip ("a", "SELECT f(x) FROM logs.t") [("b", "SELECT 1")] "SELECT * FROM a.r JOIN b.r"); [|done..].
  constructor; [|constructor; [|constructor]]; (split; [done|]; split; [done|]; split; [|done]);
    repeat (apply balanced_char; [done..|]); [|constructor].
  apply (balanced_group "x" " FROM logs.t"); repeat (apply balanced_char; [done..|]); constructor.
Defined.

Lemma plain_cte_is_bypassed_witness :
  let q := "WITH recent AS (SELECT * FROM logs.app WHERE level = 'error') SELECT * FROM recent" in
  (resolve_ctes (K := RefArrow) (R := RefRows) (E := ex_env) q "sql" [("logs", "app")] ex_world).2 =
    Ok ("SELECT * FROM recent", [("logs", "app")]).
Proof.
  intros q.
  eapply (plain_cte_is_bypassed (K := RefArrow) (R := RefRows) (E := ex_env) q "sql" [("logs", "app")] ex_world false
    [("recent", "SELECT * FROM logs.app WHERE level = 'error'")] "SELECT * FROM recent");
    [reflexivity|reflexivity|vm_compute; discriminate].
Defined.
