(* ===== verification/Streams.v ===== *)
(** * Streams: rows streamed to a client, and telemetry taken in

    Models [crates/fuse-server/src/streaming.rs] (a query answered as
    server-sent events: columns, batches of rows, progress, the end or an error),
    [sse_stream.rs] (their text) and [otel_ingest.rs] (traces, metrics and logs
    posted as OTLP JSON and stored in the telemetry store of [Otel]).

    The call of a connector, [st_stream], gives the list of what it sends on the
    channel and what it returns; the handler drops the second.  The
    store behind the ingest routes is passed from one request to the next; the
    JSON parser is a parameter. *)

From S2P Require Import Prelude Strs Float Json JsonRef Sorting Arrow ArrowRef Connector SqlText Tabular Logs Otel Errors Results Federate FederateCorrect.
From stdpp Require Import base list gmap strings pretty.
From Stdlib Require Import NArith ZArith Lia Ascii SpecFloat.

(** ** Rows as events *)

Module Sse.
Abbreviation json_row := (list Value).

Inductive SseEvent : Type :=
| Metadata (columns : list string)
| Batch (rows : list json_row) (batch_num : N) (batch_rows : nat)
| Progress (batches_sent total_rows total_bytes : N)
| Done (total_rows total_bytes batches_sent : N)
| ErrorEvent (message : string).

(** The JSON of an event, its fields in the order they are declared. *)
Definition number (n : N) : Value := JNumber (NInt (Z.of_N n)).
Definition event_json (e : SseEvent) : Value :=
  match e with
  | Metadata cs => JObject [("type", JString "metadata"); ("columns", JArray (JString <$> cs))]
  | Batch rows n k => JObject [("type", JString "batch"); ("rows", JArray (JArray <$> rows)); ("batch_num", number n); ("batch_rows", number (N.of_nat k))]
  | Progress s r b => JObject [("type", JString "progress"); ("batches_sent", number s); ("total_rows", number r); ("total_bytes", number b)]
  | Done r b s => JObject [("type", JString "done"); ("total_rows", number r); ("total_bytes", number b); ("batches_sent", number s)]
  | ErrorEvent m => JObject [("type", JString "error"); ("message", JString m)]
  end.

Definition DEFAULT_BATCH_SIZE : nat := 500.
Definition batch_size_of (requested : option nat) : nat := Nat.min (Nat.max (default DEFAULT_BATCH_SIZE requested) 1) (N.to_nat 10000).

Record Progressed : Type := mkProgressed { total_rows : N; total_bytes : N; batches_sent : N; row_buffer : list json_row }.
Definition started : Progressed := mkProgressed 0 0 0 [].

Section Stream.
Context `{K : ArrowKernels} (memory_size : RecordBatch → N) (batch_size : nat).

Definition json_cell (col : Array) (i : nat) : Value := if is_null col i then JNull else JString (shown col i).
Definition batch_to_rows (b : RecordBatch) : list json_row :=
  (λ i, (λ c, json_cell c i) <$> columns b) <$> seq 0 (num_rows b).

(** The buffer is sent when it is full, with a progress event every five batches. *)
Definition push_row (st : Progressed) (row : json_row) : Progressed * list SseEvent :=
  let buffer := row_buffer st ++ [row] in
  if batch_size <=? length buffer then
    let sent := (batches_sent st + 1)%N in
    let rows := (total_rows st + N.of_nat (length buffer))%N in
    (mkProgressed rows (total_bytes st) sent [],
     Batch buffer sent (length buffer) :: (if (sent mod 5 =? 0)%N then [Progress sent rows (total_bytes st)] else []))
  else (mkProgressed (total_rows st) (total_bytes st) (batches_sent st) buffer, []).
Fixpoint push_rows (st : Progressed) (rows : list json_row) : Progressed * list SseEvent :=
  match rows with
  | [] => (st, [])
  | r :: rows => let '(st, es) := push_row st r in let '(st, es') := push_rows st rows in (st, es ++ es')
  end.
Definition push_batch (st : Progressed) (b : RecordBatch) : Progressed * list SseEvent :=
  push_rows (mkProgressed (total_rows st) (total_bytes st + memory_size b) (batches_sent st) (row_buffer st)) (batch_to_rows b).

(** What is left in the buffer is the last batch. *)
Definition finish (st : Progressed) : list SseEvent :=
  match row_buffer st with
  | [] => [Done (total_rows st) (total_bytes st) (batches_sent st)]
  | rows =>
      let sent := (batches_sent st + 1)%N in
      [Batch rows sent (length rows); Done (total_rows st + N.of_nat (length rows)) (total_bytes st) sent]
  end.
(** [rx.recv()] until the channel is closed, by the end or by a panic of the
    connector, or brings an error. *)
Fixpoint receive (st : Progressed) (items : list (outcome ConnectorError RecordBatch)) : list SseEvent :=
  match items with
  | [] => finish st
  | Ok b :: items => let '(st, es) := push_batch st b in es ++ receive st items
  | Err e :: _ => [ErrorEvent (connector_error_display e)]
  | Panic :: _ => finish st
  end.
End Stream.

(** *** The source a query names *)

Definition parse_qualified_name (name : string) : outcome string (string * string) :=
  match split_once (is_char ".") name with
  | Some r => Ok r
  | None => Err ("expected 'datasource.table', got '" +:+ name +:+ "'")
  end.
Definition parse_ppl_source (query : string) : outcome string (string * string) :=
  match s ← str_strip_prefix "source" (trim query); str_strip_prefix "=" (trim_start s) with
  | Some s =>
      let source_part := trim (default "" (head (split_on (is_char "|") (trim_start s)))) in
      parse_qualified_name (trim (default "" (head (split_on (is_char ",") source_part))))
  | None => Err "PPL query must start with 'source = '"
  end.
Definition parse_sql_source (query : string) : outcome string (string * string) :=
  match find_sub "from " (to_lowercase query) with
  | None => Err "SQL query must contain FROM clause"
  | Some pos =>
      match split_whitespace (trim_start (str_drop (pos + 5) query)) with
      | token :: _ => parse_qualified_name token
      | [] => Err "expected table reference after FROM"
      end
  end.

(** A registered connector: the columns of a table, and of a streaming call what
    it sends on the channel and what it returns. *)
Record StreamSource : Type := mkStreamSource {
  st_columns : string → outcome ConnectorError (list string);
  st_stream : SubQuery → list (outcome ConnectorError RecordBatch) * outcome ConnectorError unit }.
(** The connectors' [execute_streaming]: the batches of [execute]; its error is
    returned, not sent. *)
Definition sent_by (r : outcome ConnectorError (list RecordBatch)) : list (outcome ConnectorError RecordBatch) * outcome ConnectorError unit :=
  match r with Ok bs => (Ok <$> bs, Ok ()) | Err e => ([], Err e) | Panic => ([], Panic) end.

Section Handler.
Context `{K : ArrowKernels} `{E : QueryEnv} (registry : string → option StreamSource).

Definition stream_handler (query format : string) (requested : option nat) : list SseEvent :=
  let format := to_lowercase format in
  match (if String.eqb format "ppl" then parse_ppl_source query else parse_sql_source query) with
  | Err e => [ErrorEvent e]
  | Panic => []
  | Ok (ds_id, tbl) =>
      match registry ds_id with
      | None => [ErrorEvent ("datasource '" +:+ ds_id +:+ "' not found")]
      | Some c =>
          match st_columns c tbl with
          | Err e => [ErrorEvent (connector_error_display e)]
          | Panic => []
          | Ok cols =>
              Metadata cols ::
              match build_sub_query query format tbl with
              | Ok sq => let '(sent, _returned) := st_stream c sq in receive memory_size (batch_size_of requested) started sent
              | Err e => [ErrorEvent e]
              | Panic => []
              end
          end
      end
  end.
End Handler.
End Sse.

(** The text of an event of [sse_stream.rs]: its name and its JSON on a line each. *)
Module SseText.
Inductive StreamEvent : Type :=
| Started (query_id : string)
| StreamSchema (columns : list (string * string))
| Rows (rows : list (list Value)) (batch_index : N)
| Complete (total_rows elapsed_ms : N)
| StreamError (message : string).

Definition event_type (e : StreamEvent) : string :=
  match e with Started _ => "started" | StreamSchema _ => "schema" | Rows _ _ => "rows" | Complete _ _ => "complete" | StreamError _ => "error" end.
Definition event_fields (e : StreamEvent) : list (string * Value) :=
  match e with
  | Started id => [("query_id", JString id)]
  | StreamSchema cs => [("columns", JArray ((λ c, JObject [("name", JString c.1); ("data_type", JString c.2)]) <$> cs))]
  | Rows rows i => [("rows", JArray (JArray <$> rows)); ("batch_index", Sse.number i)]
  | Complete r ms => [("total_rows", Sse.number r); ("elapsed_ms", Sse.number ms)]
  | StreamError m => [("message", JString m)]
  end.
Definition LF : string := String (ascii_of_nat 10) "".
Definition event_value (e : StreamEvent) : Value := JObject (("event", JString (event_type e)) :: event_fields e).
Definition format_sse `{J : JsonOps} (e : StreamEvent) : string :=
  "event: " +:+ event_type e +:+ LF +:+ "data: " +:+ to_string (event_value e) +:+ LF +:+ LF.
End SseText.

(** ** Telemetry *)

Module Ingest.
Section Ingest.
Context `{J : JsonOps} `{F64Display}.

Definition opt_get (v : option Value) (k : string) : option Value := v ≫= λ v, get v k.
Definition arrays_at (v : Value) (k : string) : list Value := default [] (get v k ≫= as_array).
Definition text_at (v : Value) (k : string) : option string := get v k ≫= as_str.
Definition json_u64 (v : Value) : option N :=
  match v with JNumber (NInt z) => if ((0 <=? z) && (z <? 2 ^ 64))%Z then Some (Z.to_N z) else None | _ => None end.

Definition parse_nano (v : option Value) : Z :=
  default 0%Z (v ≫= λ v, match as_str v with Some s => Some (default 0%Z (parse_i64 s)) | None => as_i64 v end).
(** The value of the first attribute named [service.name], if it is a text. *)
Definition extract_service_name (resource : option Value) : string :=
  default "" (attrs ← opt_get resource "attributes"; arr ← as_array attrs;
    a ← head (filter (λ a, text_at a "key" = Some "service.name") arr); opt_get (get a "value") "stringValue" ≫= as_str).

(** The records of a payload, each with the service of its resource. *)
Definition records (resources scopes leaves : string) (body : Value) : list (string * Value) :=
  rs ← arrays_at body resources; ss ← arrays_at rs scopes;
  (λ leaf, (extract_service_name (get rs "resource"), leaf)) <$> arrays_at ss leaves.
Definition some_service (svc : string) : option string := if String.eqb svc "" then None else Some svc.

Definition span_status (code : N) : string :=
  if (code =? 0)%N then "UNSET" else if (code =? 1)%N then "OK" else if (code =? 2)%N then "ERROR" else "UNKNOWN".
Definition ingest_span_json (s : OtelStore) (r : string * Value) : OtelStore :=
  let '(svc, span) := r in
  ingest_span s (default "" (text_at span "traceId")) (default "" (text_at span "spanId")) (text_at span "parentSpanId") svc
    (default "" (text_at span "name")) (span_status (default 0%N (opt_get (get span "status") "code" ≫= json_u64)))
    (parse_nano (get span "startTimeUnixNano")) (parse_nano (get span "endTimeUnixNano")) (from_option to_string "" (get span "attributes")).
Definition ingest_log_json (s : OtelStore) (r : string * Value) : OtelStore :=
  let '(svc, rec) := r in
  ingest_log s (parse_nano (get rec "timeUnixNano")) (default "UNSPECIFIED" (text_at rec "severityText"))
    (default "" (opt_get (get rec "body") "stringValue" ≫= as_str)) (some_service svc) (text_at rec "traceId") (text_at rec "spanId")
    (to_string <$> get rec "attributes").

(** A data point: its value, its time and its labels. *)
Definition DataPoint : Type := string * Z * option string.
Definition point_value (dp : Value) : string :=
  match get dp "asDouble" ≫= as_f64 with
  | Some f => fmt_f64 f
  | None => default "0" (v ← get dp "asInt"; match as_str v with Some s => Some s | None => pretty <$> as_i64 v end)
  end.
(** The object of the labels: of two with one name the last counts, in the order of the names. *)
Definition label_of (a : Value) : option (string * string) :=
  k ← text_at a "key"; v ← opt_get (get a "value") "stringValue" ≫= as_str; Some (k, v).
Definition labels_map (attrs : list Value) : gmap string string := foldl (λ m kv, <[kv.1 := kv.2]> m) ∅ (omap label_of attrs).
Definition labels_text (attrs : list Value) : string := to_string (JObject (prod_map id JString <$> btree_entries (labels_map attrs))).
Definition data_point (dp : Value) : DataPoint :=
  (point_value dp, parse_nano (get dp "timeUnixNano"), labels_text <$> (get dp "attributes" ≫= as_array)).
Definition metric_kind (metric : Value) : option string :=
  head (filter (λ k, is_Some (get metric k)) ["gauge"; "sum"; "histogram"]).
Definition extract_data_points (metric : Value) : string * list DataPoint :=
  match metric_kind metric with
  | None => ("unknown", [])
  | Some k => (k, data_point <$> default [] (opt_get (get metric k) "dataPoints" ≫= as_array))
  end.
(** The data points of a payload: each with its metric and its service. *)
Definition metric_points (body : Value) : list (string * Value * string * DataPoint) :=
  '(svc, metric) ← records "resourceMetrics" "scopeMetrics" "metrics" body;
  (λ p, (svc, metric, (extract_data_points metric).1, p)) <$> (extract_data_points metric).2.
Definition ingest_point (s : OtelStore) (p : string * Value * string * DataPoint) : OtelStore :=
  let '(svc, metric, kind, (value, ts, labels)) := p in
  ingest_metric s (default "" (text_at metric "name")) (text_at metric "description") (text_at metric "unit") kind value ts labels (some_service svc).

(** Every record of a list taken in, and their number. *)
Definition take_in {R} (step : OtelStore → R → OtelStore) (s : OtelStore) (rs : list R) : OtelStore * N :=
  foldl (λ acc r, (step acc.1 r, (acc.2 + 1)%N)) (s, 0%N) rs.
Definition ingest_traces_from_json (s : OtelStore) (body : Value) : OtelStore * N :=
  take_in ingest_span_json s (records "resourceSpans" "scopeSpans" "spans" body).
Definition ingest_metrics_from_json (s : OtelStore) (body : Value) : OtelStore * N := take_in ingest_point s (metric_points body).
Definition ingest_logs_from_json (s : OtelStore) (body : Value) : OtelStore * N :=
  take_in ingest_log_json s (records "resourceLogs" "scopeLogs" "logRecords" body).

(** The handlers: the content type, the body as the JSON parser reads it. *)
Definition is_protobuf (content_type : option string) : bool :=
  from_option (λ ct, bool_decide (is_Some (find_sub "application/x-protobuf" ct))) false content_type.
Definition UNSUPPORTED_MEDIA_TYPE : N := 415.
Definition BAD_REQUEST : N := 400.
Definition OK : N := 200.
Definition refused : Value :=
  JObject [("error", JString "Protobuf decoding not yet supported. Send JSON with Content-Type: application/json");
           ("hint", JString "Set OTEL_EXPORTER_OTLP_PROTOCOL=http/json in your OTel SDK configuration")].
Definition ingest (from_json : OtelStore → Value → OtelStore * N) (s : OtelStore) (content_type : option string) (body : string + Value) :
    OtelStore * (N * Value) :=
  if is_protobuf content_type then (s, (UNSUPPORTED_MEDIA_TYPE, refused))
  else match body with
       | inr v => let '(s, n) := from_json s v in (s, (OK, JObject [("accepted", Sse.number n)]))
       | inl e => (s, (BAD_REQUEST, JObject [("error", JString ("Invalid JSON: " +:+ e))]))
       end.
Definition ingest_traces := ingest ingest_traces_from_json.
Definition ingest_metrics := ingest ingest_metrics_from_json.
Definition ingest_logs := ingest ingest_logs_from_json.
Definition otel_health (s : OtelStore) : Value :=
  let '(sp, me, lo) := counts s in
  let count n := JObject [("count", Sse.number (N.of_nat n))] in
  JObject [("signals", JObject [("logs", count lo); ("metrics", count me); ("traces", count sp)]); ("status", JString "ready")].
End Ingest.
End Ingest.

(** * Every row is delivered *)

Section StreamDelivers.
Import Sse.
Context `{K : ArrowKernels} (memory_size : RecordBatch → N) (batch_size : nat).

(** The rows of the batch events, and what each of them says of itself. *)
Definition batches_of (es : list SseEvent) : list (list json_row) :=
  omap (λ e, match e with Batch rows _ _ => Some rows | _ => None end) es.
Definition numbers_of (es : list SseEvent) : list N := omap (λ e, match e with Batch _ n _ => Some n | _ => None end) es.
(** Numbers count from [k]; a batch counts its rows; a progress event comes after
    each fifth batch and tells the rows sent by then. *)
Definition event_ok (e : SseEvent) : Prop :=
  match e with
  | Batch rows _ k => k = length rows
  | Progress s r _ => (s mod 5 = 0)%N ∧ r = (s * N.of_nat batch_size)%N
  | _ => True
  end.
(** What has been sent are full batches. *)
Definition full_batches (st : Progressed) : Prop :=
  length (row_buffer st) < batch_size ∧ total_rows st = (batches_sent st * N.of_nat batch_size)%N.
(** A step sends full batches, numbered on from those sent, and keeps the rest. *)
Definition delivers (st : Progressed) (rows : list json_row) (r : Progressed * list SseEvent) : Prop :=
  full_batches r.1 ∧ concat (batches_of r.2) ++ row_buffer r.1 = row_buffer st ++ rows ∧
  Forall (λ b, length b = batch_size) (batches_of r.2) ∧ Forall event_ok r.2 ∧
  batches_sent r.1 = (batches_sent st + N.of_nat (length (batches_of r.2)))%N ∧
  numbers_of r.2 = (λ i, batches_sent st + N.of_nat i)%N <$> seq 1 (length (batches_of r.2)).

Lemma delivers_nil st : full_batches st → delivers st [] (st, []).
Proof. intros Hf. split_and!; [done|by rewrite app_nil_r|constructor|constructor|cbn; lia|done]. Qed.

Lemma numbers_app k n m :
  (λ i, k + N.of_nat i)%N <$> seq 1 (n + m) = ((λ i, k + N.of_nat i)%N <$> seq 1 n) ++ ((λ i, k + N.of_nat n + N.of_nat i)%N <$> seq 1 m).
Proof.
  rewrite seq_app, fmap_app. f_equal. replace (1 + n) with (n + 1) by lia. rewrite <- (fmap_add_seq n 1 m), <- list_fmap_compose.
  apply list_fmap_ext. intros _ i _. cbn. lia.
Qed.

Lemma delivers_app st rows rows' st1 st2 es es' :
  delivers st rows (st1, es) → delivers st1 rows' (st2, es') → delivers st (rows ++ rows') (st2, es ++ es').
Proof.
  intros (_ & Hc & Hl & He & Hn & Hm) (Hf & Hc' & Hl' & He' & Hn' & Hm'). cbn [fst snd] in *.
  unfold delivers. cbn [fst snd]. unfold batches_of, numbers_of in *. rewrite !omap_app, !length_app. split_and!.
  - done.
  - rewrite concat_app, <- (assoc_L (++)), Hc', (assoc_L (++)), Hc. by rewrite <- (assoc_L (++)).
  - by apply Forall_app.
  - by apply Forall_app.
  - rewrite Hn', Hn. lia.
  - by rewrite Hm, Hm', Hn, numbers_app.
Qed.

Lemma push_row_delivers st r : full_batches st → 0 < batch_size → delivers st [r] (push_row batch_size st r).
Proof.
  intros [Hl Ht] Hpos. unfold push_row. destruct (Nat.leb_spec batch_size (length (row_buffer st ++ [r]))) as [Hle|Hgt].
  - assert (Hlen : length (row_buffer st ++ [r]) = batch_size) by (rewrite length_app in *; cbn in *; lia).
    rewrite Hlen. set (sent := (batches_sent st + 1)%N). set (tot := (total_rows st + N.of_nat batch_size)%N).
    assert (Htot : tot = (sent * N.of_nat batch_size)%N) by (unfold tot, sent; lia).
    split_and!.
    + split; [done|exact Htot].
    + destruct (sent mod 5 =? 0)%N; cbn; by rewrite !app_nil_r.
    + destruct (sent mod 5 =? 0)%N; cbn; by repeat constructor.
    + destruct (N.eqb_spec (sent mod 5) 0) as [E|E]; cbn; repeat constructor; done.
    + destruct (sent mod 5 =? 0)%N; cbn; lia.
    + destruct (sent mod 5 =? 0)%N; done.
  - split_and!; [by split|done|constructor|constructor|cbn; lia|done].
Qed.

Lemma push_rows_delivers rows : ∀ st, full_batches st → 0 < batch_size → delivers st rows (push_rows batch_size st rows).
Proof.
  induction rows as [|r rows IH]; intros st Hf Hpos; [by apply delivers_nil|]. cbn [push_rows].
  pose proof (push_row_delivers st r Hf Hpos) as H1. destruct (push_row batch_size st r) as [st1 es].
  pose proof (IH st1 (proj1 H1) Hpos) as H2. destruct (push_rows batch_size st1 rows) as [st2 es'].
  exact (delivers_app st [r] rows st1 st2 es es' H1 H2).
Qed.
Lemma push_batch_delivers st b : full_batches st → 0 < batch_size → delivers st (batch_to_rows b) (push_batch memory_size batch_size st b).
Proof. intros Hf Hpos. apply (push_rows_delivers (batch_to_rows b) (mkProgressed _ _ _ _)); done. Qed.

Lemma push_rows_bytes rows : ∀ st, total_bytes (push_rows batch_size st rows).1 = total_bytes st.
Proof.
  induction rows as [|r rows IH]; intros st; [done|]. cbn [push_rows].
  assert (total_bytes (push_row batch_size st r).1 = total_bytes st) as E by (unfold push_row; by destruct (batch_size <=? _)).
  destruct (push_row batch_size st r) as [st1 es]. specialize (IH st1). destruct (push_rows batch_size st1 rows). cbn in *. congruence.
Qed.
Definition bytes_sum (bs : list RecordBatch) : N := foldr (λ b n, memory_size b + n)%N 0%N bs.

(** The events of a stream without errors: full batches, then what is left and
    the totals. *)
Lemma receive_delivers bs : ∀ st, full_batches st → 0 < batch_size →
  ∃ st' es, receive memory_size batch_size st (Ok <$> bs) = es ++ finish st' ∧ delivers st (concat (batch_to_rows <$> bs)) (st', es) ∧
    total_bytes st' = (total_bytes st + bytes_sum bs)%N.
Proof.
  induction bs as [|b bs IH]; intros st Hf Hpos; [exists st, []; split; [done|split; [by apply delivers_nil|cbn; lia]]|].
  cbn [fmap list_fmap receive concat]. pose proof (push_batch_delivers st b Hf Hpos) as H1.
  pose proof (push_rows_bytes (batch_to_rows b) (mkProgressed (total_rows st) (total_bytes st + memory_size b) (batches_sent st) (row_buffer st))) as Hb.
  fold (push_batch memory_size batch_size st b) in Hb.
  destruct (push_batch memory_size batch_size st b) as [st1 es1]. destruct (IH st1 (proj1 H1) Hpos) as (st' & es & E & H2 & Hb').
  exists st', (es1 ++ es). split_and!; [cbn [fmap list_fmap] in E |- *; by rewrite E, (assoc_L (++))|by eapply delivers_app|].
  cbn [fst total_bytes] in Hb. rewrite Hb', Hb. cbn [bytes_sum foldr]. fold (bytes_sum bs). lia.
Qed.
Lemma receive_fails bs e rest : ∀ st, full_batches st → 0 < batch_size →
  ∃ st' es, receive memory_size batch_size st ((Ok <$> bs) ++ Err e :: rest) = es ++ [ErrorEvent (connector_error_display e)] ∧
    delivers st (concat (batch_to_rows <$> bs)) (st', es).
Proof.
  induction bs as [|b bs IH]; intros st Hf Hpos; [exists st, []; split; [done|by apply delivers_nil]|].
  cbn [fmap list_fmap receive concat app]. pose proof (push_batch_delivers st b Hf Hpos) as H1.
  destruct (push_batch memory_size batch_size st b) as [st1 es1]. destruct (IH st1 (proj1 H1) Hpos) as (st' & es & E & H2).
  exists st', (es1 ++ es). split; [cbn [fmap list_fmap] in E |- *; by rewrite E, (assoc_L (++))|]. by eapply delivers_app.
Qed.
End StreamDelivers.

Section StreamHandler.
Import Sse.
Context `{K : ArrowKernels} `{E : QueryEnv} (registry : string → option StreamSource).

End StreamHandler.


(** A connector whose query fails returns the error and sends nothing: the client is told that it is done, with no rows. *)
Lemma failed_query_is_done `{K : ArrowKernels} `{E : QueryEnv} registry query format requested ds tbl c cols sq e :
  (if String.eqb (to_lowercase format) "ppl" then Sse.parse_ppl_source query else Sse.parse_sql_source query) = Ok (ds, tbl) →
  registry ds = Some c → Sse.st_columns c tbl = Ok cols → build_sub_query query (to_lowercase format) tbl = Ok sq →
  Sse.st_stream c sq = Sse.sent_by (Err e) →
  Sse.stream_handler registry query format requested = [Sse.Metadata cols; Sse.Done 0 0 0].
Proof. intros Hp Hr Hc Hq Hs. unfold Sse.stream_handler. by rewrite Hp, Hr, Hc, Hq, Hs. Qed.
(** Only the table after the first FROM is read: a join, or a union, is answered with the rows of one table. *)
Lemma joined_table_is_not_read :
  Sse.parse_sql_source "SELECT * FROM a.x JOIN b.y ON x.id = y.id" = Ok ("a", "x") ∧
  Sse.parse_sql_source "SELECT n FROM a.x UNION ALL SELECT n FROM b.y" = Ok ("a", "x").
Proof. split; vm_compute; reflexivity. Qed.
(** A line break after FROM is not seen. *)
Lemma from_needs_a_space :
  Sse.parse_sql_source ("SELECT * FROM" +:+ SseText.LF +:+ "a.x") = Err "SQL query must contain FROM clause".
Proof. vm_compute. reflexivity. Qed.

(** * Every record is stored *)

Section RecordsStored.
Import Ingest.
Context `{J : JsonOps} `{F64Display}.

(** The rows a payload's records stand for. *)
Definition span_row (r : string * Value) : SpanRow :=
  let '(svc, span) := r in
  let start := parse_nano (get span "startTimeUnixNano") in let stop := parse_nano (get span "endTimeUnixNano") in
  let attrs := from_option to_string "" (get span "attributes") in
  mkSpan (default "" (text_at span "traceId")) (default "" (text_at span "spanId")) (text_at span "parentSpanId") svc
    (default "" (text_at span "name")) (span_status (default 0%N (opt_get (get span "status") "code" ≫= json_u64)))
    start stop (saturating_sub_i64 stop start) (if String.eqb attrs "" then None else Some attrs).
Definition log_row (r : string * Value) : LogRow :=
  let '(svc, rec) := r in
  mkLog (parse_nano (get rec "timeUnixNano")) (default "UNSPECIFIED" (text_at rec "severityText"))
    (default "" (opt_get (get rec "body") "stringValue" ≫= as_str)) (some_service svc) (text_at rec "traceId") (text_at rec "spanId")
    (to_string <$> get rec "attributes").
Definition metric_row (p : string * Value * string * DataPoint) : MetricRow :=
  let '(svc, metric, kind, (value, ts, labels)) := p in
  mkMetric (default "" (text_at metric "name")) (text_at metric "description") (text_at metric "unit") kind value ts labels (some_service svc).

(** A store that can hold something and holds no more than it can. *)
Definition sound_store (s : OtelStore) : Prop :=
  0 < max_spans s ∧ length (spans s) ≤ max_spans s ∧ 0 < max_metrics s ∧ length (metrics s) ≤ max_metrics s ∧
  0 < max_logs s ∧ length (logs s) ≤ max_logs s.
Definition with_spans (s : OtelStore) (q : list SpanRow) : OtelStore := mkOtel q (metrics s) (logs s) (max_spans s) (max_metrics s) (max_logs s).
Definition with_metrics (s : OtelStore) (q : list MetricRow) : OtelStore := mkOtel (spans s) q (logs s) (max_spans s) (max_metrics s) (max_logs s).
Definition with_logs (s : OtelStore) (q : list LogRow) : OtelStore := mkOtel (spans s) (metrics s) q (max_spans s) (max_metrics s) (max_logs s).

Lemma ring_from {A} max (q xs : list A) : 0 < max → length q ≤ max → foldl (λ q x, ring_push max x q) q xs = last_n max (q ++ xs).
Proof.
  intros Hm Hq. rewrite <- (ring_newest max (q ++ xs) Hm), foldl_app. f_equal. rewrite ring_newest by done.
  unfold last_n. by replace (length q - max) with 0 by lia.
Qed.

(** A fold that pushes one row per record, seen on the queue. *)
Lemma take_in_queue {R Row} (step : OtelStore → R → OtelStore) (row : R → Row) (max : OtelStore → nat) (queue : OtelStore → list Row)
    (set : OtelStore → list Row → OtelStore) :
  (∀ s r, step s r = set s (ring_push (max s) (row r) (queue s))) →
  (∀ s q, max (set s q) = max s ∧ queue (set s q) = q) → (∀ s q q', set (set s q) q' = set s q') → (∀ s, set s (queue s) = s) →
  ∀ rs s, 0 < max s → length (queue s) ≤ max s →
  take_in step s rs = (set s (last_n (max s) (queue s ++ (row <$> rs))), N.of_nat (length rs)).
Proof.
  intros Hstep Hget Hset Hid rs s Hm Hq. rewrite <- (ring_from (max s) (queue s) (row <$> rs) Hm Hq). unfold take_in.
  change (N.of_nat (length rs)) with (0 + N.of_nat (length rs))%N. clear Hm Hq. generalize 0%N as n. revert s.
  induction rs as [|r rs IH]; intros s n; [cbn; by rewrite Hid, N.add_0_r|].
  cbn [foldl fst snd fmap list_fmap]. rewrite Hstep, IH. destruct (Hget s (ring_push (max s) (row r) (queue s))) as [-> ->].
  rewrite Hset. f_equal. cbn [length]. lia.
Qed.

(** Telemetry posted as JSON is stored: every span, data point and log record of the payload becomes one row, in the
    order of the payload, with the service of its resource; the answer counts them; the store keeps the newest rows up to
    its capacity, and the other two signals as they were.  A Protobuf body is refused with 415 and a body that is no JSON
    with 400, and both leave the store as it was. *)
Theorem otlp_records_stored s ct body : sound_store s →
  (is_protobuf ct = false →
   let spans' := records "resourceSpans" "scopeSpans" "spans" body in
   let points := metric_points body in
   let logs' := records "resourceLogs" "scopeLogs" "logRecords" body in
   ingest_traces s ct (inr body) = (with_spans s (last_n (max_spans s) (spans s ++ (span_row <$> spans'))),
     (OK, JObject [("accepted", Sse.number (N.of_nat (length spans')))])) ∧
   ingest_metrics s ct (inr body) = (with_metrics s (last_n (max_metrics s) (metrics s ++ (metric_row <$> points))),
     (OK, JObject [("accepted", Sse.number (N.of_nat (length points)))])) ∧
   ingest_logs s ct (inr body) = (with_logs s (last_n (max_logs s) (logs s ++ (log_row <$> logs'))),
     (OK, JObject [("accepted", Sse.number (N.of_nat (length logs')))]))) ∧
  (∀ step b, is_protobuf ct = true → ingest step s ct b = (s, (415, refused))%N) ∧
  (∀ step e, is_protobuf ct = false → ingest step s ct (inl e) = (s, (400, JObject [("error", JString ("Invalid JSON: " +:+ e))]))%N).
Proof.
  intros (Hs1 & Hs2 & Hm1 & Hm2 & Hl1 & Hl2). split_and!.
  - intros Hct spans' points logs'. unfold ingest_traces, ingest_metrics, ingest_logs, ingest. rewrite Hct.
    unfold ingest_traces_from_json, ingest_metrics_from_json, ingest_logs_from_json. fold spans' points logs'. split_and!.
    + rewrite (take_in_queue ingest_span_json span_row max_spans spans with_spans); try done; [by intros ? []|by intros []].
    + rewrite (take_in_queue ingest_point metric_row max_metrics metrics with_metrics); try done; [by intros ? [[[] ?] [[] ?]]|by intros []].
    + rewrite (take_in_queue ingest_log_json log_row max_logs logs with_logs); try done; [by intros ? []|by intros []].
  - intros step b Hct. unfold ingest. by rewrite Hct.
  - intros step e Hct. unfold ingest. by rewrite Hct.
Qed.

(** A histogram is stored with the value 0, whatever its sum and its counts. *)
Lemma histogram_value_is_zero dp : get dp "asDouble" = None → get dp "asInt" = None → point_value dp = "0".
Proof. intros Hd Hi. unfold point_value. by rewrite Hd, Hi. Qed.
(** Summaries and exponential histograms are accepted and dropped. *)
Lemma summary_is_dropped metric : get metric "gauge" = None → get metric "sum" = None → get metric "histogram" = None →
  extract_data_points metric = ("unknown", []).
Proof. intros Hg Hs Hh. unfold extract_data_points, metric_kind. cbn. rewrite Hg, Hs, Hh. by repeat (rewrite decide_False by by intros []). Qed.
(** A time that is not an integer is 1970. *)
Lemma unread_time_is_zero s : parse_i64 s = None → parse_nano (Some (JString s)) = 0%Z.
Proof. intros Hs. cbn. by rewrite Hs. Qed.
End RecordsStored.

Lemma otlp_records_stored_witness :
  let s := otel_new 10 10 2 in
  let log := λ m, JObject [("timeUnixNano", JString "5"); ("body", JObject [("stringValue", JString m)])] in
  let body := JObject [("resourceLogs", JArray [JObject [("scopeLogs", JArray [JObject [("logRecords", JArray [log "a"; log "b"; log "c"])]])]])] in
  lg_body <$> logs (@Ingest.ingest_logs RefJson s (Some "application/json") (inr body)).1 = ["b"; "c"].
Proof.
  intros s log body. rewrite (proj2 (proj2 (proj1 (@otlp_records_stored RefJson (λ _, "") s (Some "application/json") body
    ltac:(unfold sound_store; cbn; lia)) eq_refl))).
  vm_compute. reflexivity.
Defined.
