(* ===== verification/QueryHandler.v ===== *)
(** * QueryHandler: POST /api/fuse/query

    Models [query_handler] of [crates/fuse-server/src/api.rs] from the request
    to the reply: parameters, prepared statements, the result cache, the
    transaction statements, CREATE TABLE AS, INSERT … SELECT and the view
    statements, plans, CTEs, tenant isolation, IN sub-queries, execution under
    a timeout and a cancellation, and everything that happens to the rows
    before they are sent.

    The handler is a state machine step on [AppState], written in the monad
    [handler]: an early [return] of the code is the [Err] of the outcome, with
    the reply in it.  A request comes with an [Ambient]: the clock, whether
    the execution is interrupted and after how many tracker events, and the
    headers.  A cached response is kept as the record it serialises. *)

From S2P Require Import Prelude Strs Float Json Prepared Stores Logs Tenancy Transactions Views Arrow Connector Errors.
From S2P Require Import Merger QueryText Security ServerState Results Federate.
From stdpp Require Import base list strings gmap pretty.
From Stdlib Require Import NArith ZArith Lia Ascii SpecFloat.

(** ** Requests and replies *)

Record QueryRequest : Type := mkQueryRequest {
  rq_query : string; rq_format : string; analyze : bool; timeout_ms : option N; result_format : string;
  rq_params : gmap string Value; rq_start : option string; rq_end : option string; rq_step : option string;
  rq_cursor : option string; rq_page_size : option N }.

Inductive Role : Type := Viewer | Editor | AdminRole.
Record AuthIdentity : Type := mkAuth { auth_identity : string; auth_role : Role }.
(** [format!("{:?}", role).to_lowercase()]. *)
Definition role_text (r : Role) : string :=
  match r with Viewer => "viewer" | Editor => "editor" | AdminRole => "admin" end.

Record Ambient : Type := mkAmbient {
  amb_now : N; amb_elapsed : N;
  amb_times_out : N → bool; amb_cancelled : bool; amb_before : nat;
  amb_fresh : string; amb_header : string → option string }.

Record QueryMetadata : Type := mkMetadata {
  md_total_rows : N; md_format : string; trace_id : string; datasources_queried : option (list string);
  datasource_stats : option (gmap string DatasourceStat); cost_estimate : option Dollars.QueryCostEstimate }.

Record ExecutionProfile : Type := mkProfile {
  total_ms : N; nodes : list ProfileNode; cache_hit : option bool; optimizer_rules_applied : list string }.

Record QueryResponse : Type := mkResponse {
  resp_columns : list string; resp_rows : list (list Value); metadata : QueryMetadata;
  execution_profile : option ExecutionProfile; resp_partial_errors : list PartialError; next_cursor : option string }.

Inductive Reply : Type :=
| RError (status : N) (message : string)
| RPrepared (name : string) (count : N) (template : string)
| RTransaction (r : Transactions.Response)
| RWritten (status : N) (message : string) (rows_written rows_selected : N)
| RViewCreated (message name query : string)
| RMaterialized (message name query : string) (rows : nat) (initial_refresh_error : option string)
| RRefreshed (name : string) (rows : nat)
| RTooLarge (message query_id : string)
| RNdjson (body : string)
| RCsv (body : string)
| RJson (r : QueryResponse).

(** [error_json(status, msg).into_response()]. *)
Definition error_reply (status : N) (msg : string) : Reply := let '(s, m) := error_json status msg in RError s m.

(** ** State *)

Record AppState : Type := mkApp {
  world : World;
  view_registry : ViewRegistry;
  history : list HistoryEntry;
  running : RunningQueries;
  plan_cache : PlanCache;
  result_cache : ResultCache QueryResponse;
  tenant_registry : TenantRegistry;
  audit_log : list AuditEntry;
  prepared_statements : PreparedStatementStore;
  transactions : TransactionStore;
  adaptive_cache : AdaptiveCache;
  query_counter : N;
  written : list (string * string * list RecordBatch) }.

(** The configuration that never changes, and what comes from outside. *)
Class HandlerEnv : Type := {
  max_result_bytes : N;
  audit_capacity : nat;
  column_rbac : option (list PolicyConfig);
  adaptive_timeout_for : string → N;
  params_iter : gmap string Value → list (string * Value);
  plans_iter : gmap string CachedPlan → list (string * CachedPlan);
  results_iter : gmap string (CachedResult QueryResponse) → list (string * CachedResult QueryResponse);
  frequency_iter : gmap string QueryFreq → list (string * QueryFreq);
  group_keys : Groups → list (list string);
  write_batches : Source → string → list RecordBatch → ConnectorError + N;
  batches_to_csv : list RecordBatch → string;
  env_show_fixed : nat → f64 → string;
}.

(** ** The monad *)

Definition handler (A : Type) : Type := AppState → AppState * outcome Reply A.

#[export] Instance handler_ret : MRet handler := λ A a s, (s, Ok a).
#[export] Instance handler_bind : MBind handler := λ A B f m s,
  match m s with
  | (s, Ok a) => f a s
  | (s, Err r) => (s, Err r)
  | (s, Panic) => (s, Panic)
  end.

Definition reply {A : Type} (r : Reply) : handler A := λ s, (s, Err r).
Definition panic {A : Type} : handler A := λ s, (s, Panic).
Definition gets {A : Type} (f : AppState → A) : handler A := λ s, (s, Ok (f s)).
Definition modify (f : AppState → AppState) : handler unit := λ s, (f s, Ok tt).

Definition set_world (w : World) (s : AppState) : AppState :=
  mkApp w (view_registry s) (history s) (running s) (plan_cache s) (result_cache s) (tenant_registry s) (audit_log s)
    (prepared_statements s) (transactions s) (adaptive_cache s) (query_counter s) (written s).
Definition set_views (v : ViewRegistry) (s : AppState) : AppState :=
  mkApp (world s) v (history s) (running s) (plan_cache s) (result_cache s) (tenant_registry s) (audit_log s)
    (prepared_statements s) (transactions s) (adaptive_cache s) (query_counter s) (written s).
Definition set_history (h : list HistoryEntry) (s : AppState) : AppState :=
  mkApp (world s) (view_registry s) h (running s) (plan_cache s) (result_cache s) (tenant_registry s) (audit_log s)
    (prepared_statements s) (transactions s) (adaptive_cache s) (query_counter s) (written s).
Definition set_running (r : RunningQueries) (s : AppState) : AppState :=
  mkApp (world s) (view_registry s) (history s) r (plan_cache s) (result_cache s) (tenant_registry s) (audit_log s)
    (prepared_statements s) (transactions s) (adaptive_cache s) (query_counter s) (written s).
Definition set_plans (p : PlanCache) (s : AppState) : AppState :=
  mkApp (world s) (view_registry s) (history s) (running s) p (result_cache s) (tenant_registry s) (audit_log s)
    (prepared_statements s) (transactions s) (adaptive_cache s) (query_counter s) (written s).
Definition set_results (c : ResultCache QueryResponse) (s : AppState) : AppState :=
  mkApp (world s) (view_registry s) (history s) (running s) (plan_cache s) c (tenant_registry s) (audit_log s)
    (prepared_statements s) (transactions s) (adaptive_cache s) (query_counter s) (written s).
Definition set_audit (a : list AuditEntry) (s : AppState) : AppState :=
  mkApp (world s) (view_registry s) (history s) (running s) (plan_cache s) (result_cache s) (tenant_registry s) a
    (prepared_statements s) (transactions s) (adaptive_cache s) (query_counter s) (written s).
Definition set_prepared (p : PreparedStatementStore) (s : AppState) : AppState :=
  mkApp (world s) (view_registry s) (history s) (running s) (plan_cache s) (result_cache s) (tenant_registry s)
    (audit_log s) p (transactions s) (adaptive_cache s) (query_counter s) (written s).
Definition set_transactions (t : TransactionStore) (wr : list (string * string * list RecordBatch)) (s : AppState) : AppState :=
  mkApp (world s) (view_registry s) (history s) (running s) (plan_cache s) (result_cache s) (tenant_registry s)
    (audit_log s) (prepared_statements s) t (adaptive_cache s) (query_counter s) wr.
Definition set_adaptive (a : AdaptiveCache) (s : AppState) : AppState :=
  mkApp (world s) (view_registry s) (history s) (running s) (plan_cache s) (result_cache s) (tenant_registry s)
    (audit_log s) (prepared_statements s) (transactions s) a (query_counter s) (written s).
Definition set_counter (n : N) (s : AppState) : AppState :=
  mkApp (world s) (view_registry s) (history s) (running s) (plan_cache s) (result_cache s) (tenant_registry s)
    (audit_log s) (prepared_statements s) (transactions s) (adaptive_cache s) n (written s).

Section Handler.
Context `{K : ArrowKernels} `{R : RowKernels} `{J : JsonOps} `{E : QueryEnv} `{HE : HandlerEnv}.

(** Running a part of the request on the registry; a panic stays one. *)
Definition run_exec {A : Type} (m : exec A) : handler (string + A) := λ s,
  match m (world s) with
  | (w, Ok a) => (set_world w s, Ok (inr a))
  | (w, Err e) => (set_world w s, Ok (inl e))
  | (w, Panic) => (set_world w s, Panic)
  end.

Definition or_panic {A : Type} (o : outcome string A) (k : string → handler A) : handler A :=
  match o with Ok a => mret a | Err e => k e | Panic => panic end.

(** What the trackers are told, and the calls of connectors. *)
Definition note (es : list Event) : handler unit :=
  modify (λ s, set_world (mkWorld (registry (world s)) (events (world s) ++ es)) s).

(** [format!("q-{:016x}", QUERY_COUNTER.fetch_add(1))]. *)
Definition hex_digit (d : N) : ascii := ascii_of_N (if (d <? 10)%N then 48 + d else 87 + d).
Fixpoint hex_go (digits : nat) (n : N) (acc : string) : string :=
  match digits with
  | 0 => acc
  | S digits => hex_go digits (n / 16)%N (String (hex_digit (n `mod` 16)%N) acc)
  end.
Definition next_query_id : handler string := λ s,
  (set_counter (query_counter s + 1)%N s, Ok ("q-" +:+ hex_go 16 (query_counter s) "")).

(** *** Prepared statements *)

Definition prepare_stage (query : string) : handler string := λ s,
  match handle_prepared env_parse_f64 (prepared_statements s) query with
  | Ok (Confirmed name count template, store) => (set_prepared store s, Err (RPrepared name count template))
  | Ok (WrongCount expected got, store) =>
      (set_prepared store s,
       Err (error_reply 400 ("expected " +:+ pretty expected +:+ " parameters, got " +:+ pretty (N.of_nat got))))
  | Ok (Prepared.NotFound name, store) =>
      (set_prepared store s, Err (error_reply 404 ("prepared statement '" +:+ name +:+ "' not found")))
  | Ok (Continue query, store) => (set_prepared store s, Ok query)
  | Err e => match e with end
  | Panic => (s, Panic)
  end.

(** *** The result cache *)

Definition with_trace (id : string) (r : QueryResponse) : QueryResponse :=
  let m := metadata r in
  mkResponse (resp_columns r) (resp_rows r)
    (mkMetadata (md_total_rows m) (md_format m) id (datasources_queried m) (datasource_stats m) (cost_estimate m))
    (execution_profile r) (resp_partial_errors r) (next_cursor r).

Definition cache_stage (amb : Ambient) (key query_id : string) : handler unit := λ s,
  let '(hit, c) := result_get (result_cache s) key (amb_now amb) in
  (set_results c s, match hit with
                    | Some r => Err (RJson (with_trace query_id (response_json r)))
                    | None => Ok tt
                    end).

(** *** BEGIN, COMMIT and ROLLBACK *)

Definition string_param (req : QueryRequest) (k : string) : option string :=
  v ← rq_params req !! k; match v with JString s => Some s | _ => None end.

(** A write of a commit: the connectors are looked up in the registry.  The
    state is what was written and which connectors were called. *)
Definition commit_write (reg : Registry) (done : list (string * string * list RecordBatch) * list Event) (ds tbl : string)
    (bs : list RecordBatch)
    : option ((ConnectorError + N) * (list (string * string * list RecordBatch) * list Event)) :=
  let '(wr, es) := done in
  c ← registry_get reg ds;
  Some (match write_batches c tbl bs with
        | inr n => (inr n, (wr ++ [(ds, tbl, bs)], es ++ [Contacted ds]))
        | inl e => (inl e, (wr, es ++ [Contacted ds]))
        end).

Definition transaction_stage (amb : Ambient) (req : QueryRequest) (query : string) : handler unit := λ s,
  let '(resp, txns, (wr, es)) :=
    handle_transaction (commit_write (registry (world s))) (transactions s) (written s, []) (amb_fresh amb) query
      (string_param req "transaction_id") in
  (set_world (mkWorld (registry (world s)) (events (world s) ++ es)) (set_transactions txns wr s),
   match resp with Some r => Err (RTransaction r) | None => Ok tt end).

(** *** CREATE TABLE AS and INSERT … SELECT *)

(** The rows of the inner query, run on its first source. *)
Definition select_rows (select_query : string) : handler (list RecordBatch) :=
  match parse_sql_sources select_query with
  | Ok ((src_ds, src_table) :: _) =>
      reg ← gets (λ s, registry (world s));
      match registry_get reg src_ds with
      | None => reply (error_reply 404 ("source datasource '" +:+ src_ds +:+ "' not found"))
      | Some c =>
          sq ← or_panic (build_sub_query select_query "sql" src_table) (λ e, reply (error_reply 400 e));
          note [Contacted src_ds];;
          match @execute (connector c) sq with
          | Ok bs => mret bs
          | Err e => let msg := connector_error_display e in reply (error_reply (connector_error_status msg) msg)
          | Panic => panic
          end
      end
  | Panic => panic
  | _ => reply (error_reply 400 "failed to parse source query")
  end.

Definition copy_rows (status : N) (message : string → string → string) (dest_ds dest_table select_query : string)
    : handler unit :=
  batches ← select_rows select_query;
  reg ← gets (λ s, registry (world s));
  match registry_get reg dest_ds with
  | None => reply (error_reply 404 ("destination datasource '" +:+ dest_ds +:+ "' not found"))
  | Some c =>
      note [Contacted dest_ds];;
      match write_batches c dest_table batches with
      | inr n =>
          modify (λ s, set_transactions (transactions s) (written s ++ [(dest_ds, dest_table, batches)]) s);;
          reply (RWritten status (message dest_ds dest_table) n (N.of_nat (count_rows batches)))
      | inl e => let msg := connector_error_display e in reply (error_reply (connector_error_status msg) msg)
      end
  end.

Definition write_stage (query : string) : handler unit :=
  match parse_ctas query with
  | Some (ds, tbl, sel) => copy_rows 201 (λ d t, "table '" +:+ d +:+ "." +:+ t +:+ "' created") ds tbl sel
  | None =>
      match parse_insert_into_select query with
      | Some (ds, tbl, sel) => copy_rows 200 (λ d t, "inserted into '" +:+ d +:+ "." +:+ t +:+ "'") ds tbl sel
      | None => mret tt
      end
  end.

(** *** Views *)

Definition view_rows (view_query : string) : handler (string + list RecordBatch) :=
  match parse_sql_sources view_query with
  | Ok ((ds_id, tbl) :: _) =>
      reg ← gets (λ s, registry (world s));
      match registry_get reg ds_id with
      | None => mret (inl ("datasource '" +:+ ds_id +:+ "' not found"))
      | Some c =>
          match build_sub_query view_query "sql" tbl with
          | Err e => mret (inl e)
          | Panic => panic
          | Ok sq =>
              note [Contacted ds_id];;
              match @execute (connector c) sq with
              | Ok bs => mret (inr bs)
              | Err e => mret (inl (connector_error_display e))
              | Panic => panic
              end
          end
      end
  | Panic => panic
  | _ => mret (inl "failed to parse view query sources")
  end.

Definition view_def (n q : string) : MaterializedViewDef := mkViewDef n q 300 FullRefresh.

Definition on_views (f : ViewRegistry → ViewRegistry) : handler unit :=
  modify (λ s, set_views (f (view_registry s)) s).

Definition create_materialized (amb : Ambient) (n q : string) : handler unit :=
  let msg := "materialized view '" +:+ n +:+ "' created" in
  on_views (λ v, Views.register v (view_def n q));;
  rows ← view_rows q;
  match rows with
  | inr bs => on_views (alter (Views.set_results (amb_now amb) bs) n);; reply (RMaterialized msg n q (count_rows bs) None)
  | inl e => on_views (alter (set_error e) n);; reply (RMaterialized msg n q 0 (Some e))
  end.

Definition refresh_materialized (amb : Ambient) (n : string) : handler unit :=
  views ← gets view_registry;
  match views !! n with
  | None => reply (error_reply 404 ("materialized view '" +:+ n +:+ "' not found"))
  | Some v =>
      rows ← view_rows (Views.query (def v));
      match rows with
      | inr bs => on_views (alter (Views.set_results (amb_now amb) bs) n);; reply (RRefreshed n (count_rows bs))
      | inl e => on_views (alter (set_error e) n);; reply (error_reply 500 e)
      end
  end.

Definition view_stage (amb : Ambient) (query : string) : handler unit :=
  match parse_create_materialized_view query with
  | Some (n, q) => create_materialized amb n q
  | None =>
      match parse_refresh_materialized_view query with
      | Some n => refresh_materialized amb n
      | None =>
          match parse_create_view query with
          | Some (n, q) =>
              modify (λ s, set_views (Views.register (view_registry s) (view_def n q)) s);;
              reply (RViewCreated ("view '" +:+ n +:+ "' created") n q)
          | None => mret tt
          end
      end
  end.

(** *** Plan, CTEs, existence and tenant *)

Definition parse_sources (format query : string) : outcome string (list (string * string)) :=
  if String.eqb format "ppl" then parse_ppl_sources query else parse_sql_sources query.

Definition plan_stage (amb : Ambient) (format key query : string)
    : handler (option CachedPlan * list (string * string)) :=
  cached ← (λ s, let '(p, c) := Plans.plan_get (plan_cache s) key (amb_now amb) in (set_plans c s, Ok p));
  let refs := match cached with Some plan => Ok (sources plan) | None => parse_sources format query end in
  match refs with
  | Ok [] => reply (error_reply 400 "no datasource.table references found")
  | Ok r => mret (cached, r)
  | Err e => reply (error_reply 400 e)
  | Panic => panic
  end.

Definition cte_stage (query format : string) (refs : list (string * string)) : handler (string * list (string * string)) :=
  r ← run_exec (resolve_ctes query format refs);
  match r with
  | inr qr => mret qr
  | inl e => reply (error_reply 500 e)
  end.

Definition exists_stage (refs : list (string * string)) : handler unit :=
  reg ← gets (λ s, registry (world s));
  match List.find (λ r : string * string, bool_decide (registry_get reg r.1 = None)) refs with
  | Some (ds_id, _) => reply (error_reply 404 ("datasource '" +:+ ds_id +:+ "' not found"))
  | None => mret tt
  end.

Definition tenant_of (auth : option AuthIdentity) (req : QueryRequest) : option string :=
  match auth with
  | Some a => Some (auth_identity a)
  | None => string_param req "_tenant_id"
  end.

Definition tenant_stage (tenant_id : option string) (refs : list (string * string)) : handler unit :=
  reg ← gets tenant_registry;
  match tenant_id with
  | Some tid =>
      if is_enabled reg then
        let allowed := filter_datasources reg tid refs.*1 in
        match List.find (λ r : string * string, negb (bool_decide (r.1 ∈ allowed))) refs with
        | Some (ds_id, _) =>
            reply (error_reply 403 ("tenant '" +:+ tid +:+ "' does not have access to datasource '" +:+ ds_id +:+ "'"))
        | None => mret tt
        end
      else mret tt
  | None => mret tt
  end.

Definition DEFAULT_TIMEOUT_MS : N := 30000.

Definition effective_timeout (amb : Ambient) (req : QueryRequest) (tenants : TenantRegistry) (tenant_id : option string)
    (refs : list (string * string)) : N :=
  let base :=
    match timeout_ms req, (amb_header amb "x-fuse-timeout-ms" ≫= parse_u64), refs with
    | Some ms, _, _ => ms
    | None, Some ms, _ => ms
    | None, None, (first_ds, _) :: _ => adaptive_timeout_for first_ds
    | None, None, [] => DEFAULT_TIMEOUT_MS
    end in
  match tenant_id ≫= Tenancy.get tenants with
  | Some c => effective_timeout_ms c base
  | None => base
  end.

(** *** IN sub-queries *)

Definition in_subquery_sq (format : string) (isq : InSubquery) : outcome string SubQuery :=
  match build_sub_query (inner_query isq) format (in_table isq) with
  | Ok sq => Ok sq
  | Err _ => Ok (mkSubQuery (in_table isq) [inner_column isq] None [] [] None [] None None None)
  | Panic => Panic
  end.

(** One sub-query: its values replace it in the text, when there are any. *)
Definition resolve_in (format : string) (resolved : string) (isq : InSubquery) : handler string :=
  reg ← gets (λ s, registry (world s));
  match registry_get reg (in_datasource isq) with
  | None => mret resolved
  | Some c =>
      sq ← or_panic (in_subquery_sq format isq) (λ _, panic);
      note [Contacted (in_datasource isq)];;
      match @execute (connector c) sq with
      | Panic => panic
      | Err _ => mret resolved
      | Ok bs =>
          values ← or_panic (in_values bs) (λ _, panic);
          mret (match values with
                | [] => resolved
                | _ => replace (full_match isq) (" IN (" +:+ in_list values +:+ ")") resolved
                end)
      end
  end.

Fixpoint resolve_all (format : string) (resolved : string) (isqs : list InSubquery) : handler string :=
  match isqs with
  | [] => mret resolved
  | isq :: isqs => resolved ← resolve_in format resolved isq; resolve_all format resolved isqs
  end.

Definition in_stage (format query : string) (refs : list (string * string)) : handler (string * list (string * string)) :=
  isqs ← or_panic (extract_in_subqueries query) (λ _, panic);
  match isqs with
  | [] => mret (query, refs)
  | _ =>
      resolved ← resolve_all format query isqs;
      match parse_sources format resolved with
      | Ok new_refs => mret (resolved, new_refs)
      | Err _ => mret (resolved, refs)
      | Panic => panic
      end
  end.

(** *** Execution *)

Definition range_of (req : QueryRequest) : option (string * string * string) :=
  match rq_start req, rq_end req, rq_step req with
  | Some s, Some e, Some st => Some (s, e, st)
  | _, _, _ => None
  end.

(** Under [select!]: the execution may be interrupted. *)
Definition run_interruptible (amb : Ambient) (timeout : N) (query format : string) (refs : list (string * string))
    (range : option (string * string * string)) : handler (string + FederatedResult) :=
  let stop (e : string) : handler (string + FederatedResult) := λ s,
    (set_world (interrupted (amb_before amb) query format refs range (world s)) s, Ok (inl e)) in
  if amb_cancelled amb then stop "query cancelled"
  else if amb_times_out amb timeout then stop ("query timed out after " +:+ pretty timeout +:+ "ms")
  else run_exec (execute_query query format refs range).

(** *** The rows of a success *)

Record Clauses : Type := mkClauses {
  cl_order_by : list (string * bool); cl_limit : option N; cl_distinct : bool; cl_offset : N }.

Definition read_clauses (query : string) : Clauses :=
  mkClauses (parse_order_by query) (parse_limit query)
    (str_contains "select distinct" (to_lowercase (strip_string_literals query)) || is_union_distinct query)
    (default 0%N (parse_offset query)).

(** The clauses of the cached plan, or of the text, whose plan is then stored. *)
Definition clauses_stage (amb : Ambient) (cached : option CachedPlan) (key query : string) (refs : list (string * string))
    : handler Clauses :=
  match cached with
  | Some plan => mret (mkClauses (order_by plan) (Stores.limit plan) (is_distinct plan) (Stores.offset plan))
  | None =>
      let cl := read_clauses query in
      let union := is_union_query query in
      let plan := mkPlan refs union ((1 <? length refs) && negb union) (cl_distinct cl) (cl_limit cl) (cl_offset cl)
                    (cl_order_by cl) (amb_now amb) in
      modify (λ s, set_plans (Plans.plan_insert plans_iter (plan_cache s) key plan (amb_now amb)) s);;
      mret cl
  end.

Definition regroup (query : string) (fed : FederatedResult) : outcome string (list RecordBatch) :=
  let cols := parse_group_by query in
  if negb (bool_decide (cols = [])) && (1 <? length (fed_datasources fed))
  then reaggregate_batches env_parse_f64 group_keys (fed_batches fed) cols
  else Ok (fed_batches fed).

Definition having_stage (query : string) (bs : list RecordBatch) : list RecordBatch :=
  match parse_having env_parse_f64 query with
  | Some h => apply_having_filter env_parse_f64 bs h
  | None => bs
  end.

(** [res.unwrap_or_default()]. *)
Definition or_empty {A : Type} (r : outcome EngineError (list A)) : outcome string (list A) :=
  match r with Ok l => Ok l | Err _ => Ok [] | Panic => Panic end.

Definition order_stage (order_by : list (string * bool)) (bs : list RecordBatch) : outcome string (list RecordBatch) :=
  match order_by, bs with
  | [], _ | _, [] => Ok bs
  | _, b0 :: _ =>
      let found := omap (λ '(col, d), (λ i, (i, d)) <$> index_of (schema b0) col) order_by in
      match found with
      | [] => Ok bs
      | _ => or_empty (sort_batches bs found.*1 found.*2 None)
      end
  end.

Definition distinct_stage (is_distinct : bool) (bs : list RecordBatch) : outcome string (list RecordBatch) :=
  match bs with
  | b0 :: _ =>
      if is_distinct then or_empty (dedup_batches bs (filter (λ n, n ≠ "_datasource") (name <$> schema b0)))
      else Ok bs
  | [] => Ok bs
  end.

(** [usize] addition as a release build computes it. *)
Definition usize_add (a b : N) : N := ((a + b) `mod` 18446744073709551616)%N.

Definition rbac_stage (auth : option AuthIdentity) (tenant_id : option string) (fed : FederatedResult)
    (refs : list (string * string)) (bs : list RecordBatch) : outcome string (list RecordBatch) :=
  match column_rbac with
  | None => Ok bs
  | Some engine =>
      let user := mkUser (default "" tenant_id) (match auth with Some a => [role_text (auth_role a)] | None => [] end) in
      or_empty (filter_batches engine bs (default "" (head (fed_datasources fed))) (default "" (head refs.*2)) user)
  end.

(** What is sent: the page with its offset and size, and how many rows there were. *)
Record Page : Type := mkPage {
  pg_batches : list RecordBatch; pg_offset : N; pg_size : option N; pg_total : nat }.

Definition result_rows (auth : option AuthIdentity) (tenant_id : option string) (req : QueryRequest) (query : string)
    (refs : list (string * string)) (cl : Clauses) (fed : FederatedResult) : outcome string Page :=
  bs ← regroup query fed;
  let bs := having_stage query bs in
  bs ← order_stage (cl_order_by cl) bs;
  bs ← distinct_stage (cl_distinct cl) bs;
  let cursor_offset := default 0%N (rq_cursor req ≫= decode_cursor) in
  let off := usize_add (cl_offset cl) cursor_offset in
  let page_size := match rq_page_size req with Some n => Some n | None => cl_limit cl end in
  paged ← page_batches bs (N.to_nat off) (N.to_nat <$> page_size);
  shown_bs ← rbac_stage auth tenant_id fed refs paged;
  Ok (mkPage shown_bs off page_size (count_rows bs)).

(** *** The reply to a success *)

Definition costs (fed : FederatedResult) (rows bytes : N) : option Dollars.QueryCostEstimate :=
  let est := Dollars.estimate_query_cost env_show_fixed
    ((λ ds, (ds, default "unknown" (fed_connector_types fed !! ds),
             match fed_stats fed ≫= (λ m, m !! ds) with Some st => stat_rows st | None => rows end, bytes)) <$>
       fed_datasources fed) in
  if fltb f_zero (Dollars.total_cost_usd est) then Some est else None.

Definition cost_events (c : option Dollars.QueryCostEstimate) : list Event :=
  match c with
  | None => []
  | Some ce => omap (λ e, if fltb f_zero (Dollars.cost_usd e)
                          then Some (CostNoted (Dollars.ce_datasource e) (Dollars.ce_connector_type e) (Dollars.cost_usd e))
                          else None) (Dollars.per_datasource ce)
  end.

Definition audit (e : AuditEntry) : handler unit := λ s,
  match Audit.audit_record audit_capacity (audit_log s) e with
  | Some l => (set_audit l s, Ok tt)
  | None => (s, Panic)
  end.

(** History, trackers, audit and metrics of a success, in the code's order. *)
Definition record_success (amb : Ambient) (req : QueryRequest) (tenant_id : option string) (fed : FederatedResult)
    (total_rows : N) : handler unit :=
  let ms := amb_elapsed amb in
  modify (λ s, set_history (History.push (history s)
    (mkHistory (rq_query req) (rq_format req) (amb_now amb) ms total_rows None)) s);;
  note (fed_datasources fed ≫= λ ds, [LatencyNoted ds ms; Routed ds ms; Health ds true ms None]);;
  audit (mkAudit (amb_now amb) (default "anonymous" tenant_id) AQuery (Some (rq_query req)) (fed_datasources fed) ms
           total_rows ASuccess None (extract_client_ip (amb_header amb)));;
  note [QueryCounted (rq_format req) true ms].

Definition send_json (amb : Ambient) (req : QueryRequest) (query_id key : string) (fed : FederatedResult) (pg : Page)
    (ce : option Dollars.QueryCostEstimate) : handler Reply :=
  let '(cols, rows) := batches_to_json (pg_batches pg) in
  let row_count := length rows in
  let resp :=
    mkResponse cols rows
      (mkMetadata (N.of_nat row_count) (rq_format req) query_id
         (if 1 <? length (fed_datasources fed) then Some (fed_datasources fed) else None) (fed_stats fed) ce)
      (if analyze req then Some (mkProfile (amb_elapsed amb) (fed_profile fed) (Some false) []) else None)
      (fed_partial_errors fed)
      (let upto := usize_add (pg_offset pg) (N.of_nat row_count) in
       if bool_decide (is_Some (pg_size pg)) && (upto <? N.of_nat (pg_total pg))%N
       then Some (encode_cursor upto) else None) in
  modify (λ s, set_adaptive (Adaptive.record_access frequency_iter (adaptive_cache s) key (fed_datasources fed) (amb_now amb)).2 s);;
  modify (λ s, set_results (result_insert results_iter (result_cache s) key resp (amb_now amb)) s);;
  note (cost_events ce);;
  mret (RJson resp).

Definition succeed (amb : Ambient) (auth : option AuthIdentity) (req : QueryRequest) (tenant_id : option string)
    (query_id result_key plan_key query : string) (refs : list (string * string)) (cached : option CachedPlan)
    (fed : FederatedResult) : handler Reply :=
  cl ← clauses_stage amb cached plan_key query refs;
  pg ← or_panic (result_rows auth tenant_id req query refs cl fed) (λ _, panic);
  let bs := pg_batches pg in
  let total_rows := N.of_nat (length (batches_to_json bs).2) in
  let result_bytes := bytes_of bs in
  let ce := costs fed total_rows result_bytes in
  match size_limit result_bytes max_result_bytes with
  | Err e => reply (RTooLarge e query_id)
  | Panic => panic
  | Ok _ =>
      tenants ← gets tenant_registry;
      match (match tenant_id ≫= Tenancy.get tenants with
             | Some c => check_limits c total_rows result_bytes (amb_elapsed amb)
             | None => Ok tt
             end) with
      | Err e => reply (error_reply 429 e)
      | Panic => panic
      | Ok _ =>
          record_success amb req tenant_id fed total_rows;;
          if String.eqb (result_format req) "ndjson" then
            body ← or_panic (batches_to_ndjson bs) (λ _, panic); mret (RNdjson body)
          else if String.eqb (result_format req) "csv" then mret (RCsv (batches_to_csv bs))
          else send_json amb req query_id result_key fed pg ce
      end
  end.

(** *** The reply to a failure *)

Definition fail_query (amb : Ambient) (req : QueryRequest) (tenant_id : option string) (e : string) : handler Reply :=
  let ms := amb_elapsed amb in
  modify (λ s, set_history (History.push (history s)
    (mkHistory (rq_query req) (rq_format req) (amb_now amb) ms 0 (Some e))) s);;
  note [QueryCounted (rq_format req) false ms];;
  audit (mkAudit (amb_now amb) (default "anonymous" tenant_id) AQuery (Some (rq_query req)) [] ms 0 AError (Some e)
           (extract_client_ip (amb_header amb)));;
  mret (error_reply (if str_contains "timed out" e || str_contains "cancelled" e then 504 else connector_error_status e) e).

(** ** The handler *)

(** The text of the request with its parameters filled in. *)
Definition bound_text (req : QueryRequest) : string :=
  if bool_decide (rq_params req = ∅) then rq_query req else bind_params params_iter (rq_query req) (rq_params req).

(** A request that is let through to the execution. *)
Record Accepted : Type := mkAccepted {
  ad_id : string; ad_key : string; ad_cached : option CachedPlan; ad_query : string; ad_refs : list (string * string);
  ad_tenant : option string; ad_timeout : N }.

(** From the start to the computation of the timeout. *)
Definition admit_request (amb : Ambient) (auth : option AuthIdentity) (req : QueryRequest) : handler Accepted :=
  let format := to_lowercase (rq_format req) in
  query_id ← next_query_id;
  query ← prepare_stage (bound_text req);
  let query := rewrite_contains query in
  let key := format +:+ ":" +:+ query in
  cache_stage amb key query_id;;
  transaction_stage amb req query;;
  write_stage query;;
  view_stage amb query;;
  '(cached, refs) ← plan_stage amb format key query;
  '(query, refs) ← cte_stage query format refs;
  exists_stage refs;;
  let tenant_id := tenant_of auth req in
  tenant_stage tenant_id refs;;
  tenants ← gets tenant_registry;
  mret (mkAccepted query_id key cached query refs tenant_id (effective_timeout amb req tenants tenant_id refs)).

(** From the registration of the running query to the reply. *)
Definition run_admitted (amb : Ambient) (auth : option AuthIdentity) (req : QueryRequest) (a : Accepted) : handler Reply :=
  let format := to_lowercase (rq_format req) in
  modify (λ s, set_running (running_insert (running s) (ad_id a)) s);;
  '(query, refs) ← in_stage format (ad_query a) (ad_refs a);
  result ← run_interruptible amb (ad_timeout a) query format refs (range_of req);
  modify (λ s, set_running (running_remove (running s) (ad_id a)) s);;
  match result with
  | inr fed => succeed amb auth req (ad_tenant a) (ad_id a) (ad_key a) (ad_key a) query refs (ad_cached a) fed
  | inl e => fail_query amb req (ad_tenant a) e
  end.

Definition handle (amb : Ambient) (auth : option AuthIdentity) (req : QueryRequest) : handler Reply :=
  a ← admit_request amb auth req; run_admitted amb auth req a.

(** [query_handler]: an early reply is a reply. *)
Definition query_handler (amb : Ambient) (auth : option AuthIdentity) (req : QueryRequest) (s : AppState)
    : AppState * option Reply :=
  match handle amb auth req s with
  | (s, Ok r) | (s, Err r) => (s, Some r)
  | (s, Panic) => (s, None)
  end.
End Handler.
