(* ===== verification/QueryHandlerCorrect.v ===== *)
(** * QueryHandlerCorrect: theorems on POST /api/fuse/query

    What a request may touch, what it leaves behind and what it returns: a
    tenant's plain query contacts only datasources granted to the tenant, while
    the statements run before the check contact any; the executed queries are
    recorded once in the history and the audit log, and no other request is; the
    set of running queries is restored; a cached response is returned whoever
    asks and whatever page they ask for; an OFFSET is applied twice. *)

From S2P Require Import Prelude Strs Float Json JsonRef Prepared Stores Logs Tenancy Transactions Views Arrow ArrowRef.
From S2P Require Import Connector Errors Merger QueryText Security ServerState Results ResultsCorrect Federate FederateCorrect QueryHandler.
From stdpp Require Import base list strings gmap pretty.
From Stdlib Require Import NArith ZArith Lia Ascii SpecFloat.

(** ** Reasoning on the handler *)

(** Started in a state with [P], the part ends with a value in a state with
    [Q], or replies early in a state with [P']; nothing is said of a panic. *)
Definition triple {A : Type} (P : AppState → Prop) (m : handler A) (Q : A → AppState → Prop) (P' : AppState → Prop) : Prop :=
  ∀ s, P s → match m s with
             | (s', Ok a) => Q a s'
             | (s', Err _) => P' s'
             | (_, Panic) => True
             end.

Lemma handler_bind_run {A B : Type} (m : handler A) (f : A → handler B) s :
  (m ≫= f) s = match m s with (s, Ok a) => f a s | (s, Err r) => (s, Err r) | (s, Panic) => (s, Panic) end.
Proof. done. Qed.

Lemma triple_bind {A B : Type} (P : AppState → Prop) (m : handler A) (Q : A → AppState → Prop) (f : A → handler B)
    (Q' : B → AppState → Prop) (P' : AppState → Prop) :
  triple P m Q P' → (∀ a, triple (Q a) (f a) Q' P') → triple P (m ≫= f) Q' P'.
Proof.
  intros Hm Hf s Hs. rewrite handler_bind_run. specialize (Hm s Hs). destruct (m s) as [s1 [a|r|]]; [by apply Hf|done..].
Qed.

Lemma triple_ret {A : Type} (a : A) (Q : A → AppState → Prop) P' : triple (Q a) (mret a) Q P'.
Proof. by intros s. Qed.
Lemma triple_gets {A : Type} (f : AppState → A) P P' : triple P (gets f) (λ a s, P s ∧ a = f s) P'.
Proof. by intros s. Qed.
Lemma triple_reply {A : Type} r (P : AppState → Prop) (Q : A → AppState → Prop) : triple P (reply r) Q P.
Proof. by intros s. Qed.
Lemma triple_panic {A : Type} P P' (Q : A → AppState → Prop) : triple P panic Q P'.
Proof. by intros s. Qed.
Lemma triple_modify f P (Q : AppState → Prop) P' : (∀ s, P s → Q (f s)) → triple P (modify f) (λ _, Q) P'.
Proof. intros Hf s Hs. by apply Hf. Qed.
Lemma triple_weaken {A : Type} (P1 P2 : AppState → Prop) (m : handler A) Q1 Q2 P1' P2' :
  triple P1 m Q1 P1' → (∀ s, P2 s → P1 s) → (∀ a s, Q1 a s → Q2 a s) → (∀ s, P1' s → P2' s) → triple P2 m Q2 P2'.
Proof. intros H HP HQ HP' s Hs. specialize (H s (HP s Hs)). destruct (m s) as [s1 [| |]]; auto. Qed.

(** A part that keeps what [view] shows of the state. *)
Definition keeps {A B : Type} (view : AppState → B) (m : handler A) : Prop :=
  ∀ s, match (m s).2 with Panic => True | _ => view (m s).1 = view s end.

Lemma keeps_triple {A B : Type} (view : AppState → B) (m : handler A) (P : B → Prop) :
  keeps view m → triple (λ s, P (view s)) m (λ _ s, P (view s)) (λ s, P (view s)).
Proof. intros Hk s Hs. specialize (Hk s). destruct (m s) as [s1 [| |]]; cbn in *; [by rewrite Hk..|done]. Qed.

Lemma keeps_bind {A B C : Type} (view : AppState → C) (m : handler A) (f : A → handler B) :
  keeps view m → (∀ a, keeps view (f a)) → keeps view (m ≫= f).
Proof.
  intros Hm Hf s. rewrite handler_bind_run. specialize (Hm s). destruct (m s) as [s1 [a|r|]]; cbn in *; [|done..].
  specialize (Hf a s1). destruct (f a s1) as [s2 [| |]]; cbn in *; [by rewrite Hf..|done].
Qed.
Lemma keeps_ret {A B : Type} (view : AppState → B) (a : A) : keeps view (mret a).
Proof. by intros s. Qed.
Lemma keeps_reply {A B : Type} (view : AppState → B) r : keeps view (reply (A := A) r).
Proof. by intros s. Qed.
Lemma keeps_panic {A B : Type} (view : AppState → B) : keeps view (panic (A := A)).
Proof. by intros s. Qed.
Lemma keeps_gets {A B : Type} (view : AppState → B) (f : AppState → A) : keeps view (gets f).
Proof. by intros s. Qed.
Lemma keeps_modify {B : Type} (view : AppState → B) f : (∀ s, view (f s) = view s) → keeps view (modify f).
Proof. intros Hf s. apply Hf. Qed.
Lemma keeps_or_panic {A B : Type} (view : AppState → B) (o : outcome string A) k :
  (∀ e, keeps view (k e)) → keeps view (or_panic o k).
Proof. intros Hk. destruct o; [by intros s|apply Hk|by intros s]. Qed.

Create HintDb keeps.
#[export] Hint Resolve keeps_bind keeps_ret keeps_reply keeps_panic keeps_gets keeps_or_panic : keeps.

(** ** What the stages before the execution keep *)

(** The logs, the running queries and the tenants. *)
Definition core (s : AppState) : list HistoryEntry * list AuditEntry * RunningQueries * TenantRegistry :=
  (history s, audit_log s, running s, tenant_registry s).
(** … and the trackers. *)
Definition full (s : AppState) : list HistoryEntry * list AuditEntry * RunningQueries * TenantRegistry * list Event :=
  (core s, events (world s)).

Lemma full_core {A : Type} (m : handler A) : keeps full m → keeps core m.
Proof. intros Hm s. specialize (Hm s). destruct (m s) as [s1 [| |]]; cbn in *; [by apply (f_equal fst) in Hm..|done]. Qed.

Section Stages.
Context `{K : ArrowKernels} `{R : RowKernels} `{J : JsonOps} `{E : QueryEnv} `{HE : HandlerEnv}.

Lemma next_id_keeps : keeps full next_query_id.
Proof. by intros s. Qed.

Lemma prepare_keeps query : keeps full (prepare_stage query).
Proof.
  intros s. unfold prepare_stage. destruct (handle_prepared _ _ _) as [[[] store]|[]|]; done.
Qed.

Lemma cache_keeps amb key id : keeps full (cache_stage amb key id).
Proof. intros s. unfold cache_stage. by destruct (result_get _ _ _) as [[r|] c]. Qed.

Lemma transaction_keeps amb req query : keeps core (transaction_stage amb req query).
Proof.
  intros s. unfold transaction_stage. by destruct (handle_transaction _ _ _ _ _ _) as [[[r|] t] [wr es]].
Qed.

Lemma note_keeps es : keeps core (note es).
Proof. by apply keeps_modify. Qed.

Lemma select_keeps query : keeps core (select_rows query).
Proof.
  unfold select_rows. destruct (parse_sql_sources query) as [[|[ds tbl] refs]| |]; auto with keeps.
  apply keeps_bind; [auto with keeps|]. intros reg. destruct (registry_get reg ds); [|auto with keeps].
  apply keeps_bind; [auto with keeps|]. intros sq. apply keeps_bind; [apply note_keeps|]. intros _.
  destruct (execute sq); auto with keeps.
Qed.

Lemma write_keeps query : keeps core (write_stage query).
Proof.
  assert (∀ status msg ds tbl sel, keeps core (copy_rows status msg ds tbl sel)) as Hc.
  { intros. unfold copy_rows. apply keeps_bind; [apply select_keeps|]. intros bs. apply keeps_bind; [auto with keeps|].
    intros reg. destruct (registry_get reg ds); [|auto with keeps]. apply keeps_bind; [apply note_keeps|]. intros _.
    destruct (write_batches _ _ _); [auto with keeps|].
    apply keeps_bind; [by apply keeps_modify|auto with keeps]. }
  unfold write_stage. destruct (parse_ctas query) as [[[ds tbl] sel]|]; [apply Hc|].
  destruct (parse_insert_into_select query) as [[[ds tbl] sel]|]; [apply Hc|auto with keeps].
Qed.

Lemma view_rows_keeps query : keeps core (view_rows query).
Proof.
  unfold view_rows. destruct (parse_sql_sources query) as [[|[ds tbl] refs]| |]; auto with keeps.
  apply keeps_bind; [auto with keeps|]. intros reg. destruct (registry_get reg ds); [|auto with keeps].
  destruct (build_sub_query _ _ _); auto with keeps. apply keeps_bind; [apply note_keeps|]. intros _.
  destruct (execute _); auto with keeps.
Qed.

Lemma on_views_keeps f : keeps full (on_views f).
Proof. by apply keeps_modify. Qed.

Lemma view_keeps amb query : keeps core (view_stage amb query).
Proof.
  unfold view_stage. destruct (parse_create_materialized_view query) as [[n q]|].
  { unfold create_materialized. apply keeps_bind; [apply full_core, on_views_keeps|]. intros _.
    apply keeps_bind; [apply view_rows_keeps|]. intros [e|bs]; (apply keeps_bind; [apply full_core, on_views_keeps|auto with keeps]). }
  destruct (parse_refresh_materialized_view query) as [n|].
  { unfold refresh_materialized. apply keeps_bind; [auto with keeps|]. intros views.
    destruct (views !! n); [|auto with keeps]. apply keeps_bind; [apply view_rows_keeps|].
    intros [e|bs]; (apply keeps_bind; [apply full_core, on_views_keeps|auto with keeps]). }
  destruct (parse_create_view query) as [[n q]|]; [|auto with keeps].
  apply keeps_bind; [by apply keeps_modify|auto with keeps].
Qed.

Lemma plan_keeps amb format key query : keeps full (plan_stage amb format key query).
Proof.
  unfold plan_stage. apply keeps_bind; [intros s; by destruct (Plans.plan_get _ _ _)|]. intros cached.
  destruct (match cached with Some plan => _ | None => _ end) as [[|r refs]| |]; auto with keeps.
Qed.

Lemma cte_keeps query format refs : keeps core (cte_stage query format refs).
Proof.
  unfold cte_stage. apply keeps_bind; [|intros []; auto with keeps].
  intros s. unfold run_exec. by destruct (resolve_ctes _ _ _ _) as [w [| |]].
Qed.

(** Without a WITH clause nothing happens. *)
Lemma cte_none query format refs s : parse_ctes query = None → cte_stage query format refs s = (s, Ok (query, refs)).
Proof.
  intros Hp. unfold cte_stage. rewrite handler_bind_run. unfold run_exec, resolve_ctes. rewrite Hp. by destruct s as [[] ? ? ? ? ? ? ? ? ? ? ? ?].
Qed.

Lemma exists_keeps refs : keeps full (exists_stage refs).
Proof. unfold exists_stage. apply keeps_bind; [auto with keeps|]. intros reg. destruct (List.find _ _) as [[]|]; auto with keeps. Qed.

Lemma tenant_keeps tid refs : keeps full (tenant_stage tid refs).
Proof.
  unfold tenant_stage. apply keeps_bind; [auto with keeps|]. intros reg. destruct tid as [tid|]; [|auto with keeps].
  destruct (is_enabled reg); [|auto with keeps]. destruct (List.find _ _) as [[]|]; auto with keeps.
Qed.

(** It only panics or goes on. *)
Lemma resolve_in_keeps format q isq : keeps core (resolve_in format q isq).
Proof.
  unfold resolve_in. apply keeps_bind; [auto with keeps|]. intros reg. destruct (registry_get reg _); [|auto with keeps].
  apply keeps_bind; [auto with keeps|]. intros sq. apply keeps_bind; [apply note_keeps|]. intros _.
  destruct (execute sq); auto with keeps.
Qed.

Lemma in_keeps format query refs : keeps core (in_stage format query refs).
Proof.
  unfold in_stage. apply keeps_bind; [auto with keeps|]. intros [|i isqs]; [auto with keeps|].
  apply keeps_bind.
  - generalize (i :: isqs) as l, query as q. induction l as [|isq l IH]; intros q; cbn [resolve_all]; [auto with keeps|].
    apply keeps_bind; [apply resolve_in_keeps|auto].
  - intros q. destruct (parse_sources format q); auto with keeps.
Qed.

Definition goes_on {A : Type} (m : handler A) : Prop := ∀ s r, (m s).2 ≠ Err r.
Lemma goes_on_bind {A B : Type} (m : handler A) (f : A → handler B) : goes_on m → (∀ a, goes_on (f a)) → goes_on (m ≫= f).
Proof. intros Hm Hf s r. rewrite handler_bind_run. specialize (Hm s). destruct (m s) as [s1 [a|r'|]]; [apply Hf|by destruct (Hm r')|done]. Qed.
Lemma goes_on_ret {A : Type} (a : A) : goes_on (mret a).
Proof. by intros s r. Qed.
Lemma goes_on_panic {A : Type} : goes_on (panic (A := A)).
Proof. by intros s r. Qed.
Lemma goes_on_gets {A : Type} (f : AppState → A) : goes_on (gets f).
Proof. by intros s r. Qed.
Lemma goes_on_modify f : goes_on (modify f).
Proof. by intros s r. Qed.
Lemma goes_on_or_panic {A : Type} (o : outcome string A) : goes_on (or_panic o (λ _, panic)).
Proof. intros s r. by destruct o. Qed.

Lemma resolve_in_goes_on format q isq : goes_on (resolve_in format q isq).
Proof.
  unfold resolve_in. apply goes_on_bind; [apply goes_on_gets|]. intros reg. destruct (registry_get reg _); [|apply goes_on_ret].
  apply goes_on_bind; [apply goes_on_or_panic|]. intros sq. apply goes_on_bind; [apply goes_on_modify|]. intros _.
  destruct (execute sq); [|apply goes_on_ret|apply goes_on_panic].
  apply goes_on_bind; [apply goes_on_or_panic|]. intros v. apply goes_on_ret.
Qed.

Lemma in_goes_on format query refs : goes_on (in_stage format query refs).
Proof.
  unfold in_stage. apply goes_on_bind; [apply goes_on_or_panic|]. intros [|i isqs]; [apply goes_on_ret|].
  apply goes_on_bind.
  - generalize (i :: isqs) as l, query as q. induction l as [|isq l IH]; intros q; cbn [resolve_all]; [apply goes_on_ret|].
    apply goes_on_bind; [apply resolve_in_goes_on|auto].
  - intros q. destruct (parse_sources format q); [apply goes_on_ret..|apply goes_on_panic].
Qed.

Lemma in_no_reply format query refs s r s' : in_stage format query refs s ≠ (s', Err r).
Proof. intros H. apply (in_goes_on format query refs s r). by rewrite H. Qed.

Lemma run_keeps amb timeout query format refs range : keeps core (run_interruptible amb timeout query format refs range).
Proof.
  intros s. unfold run_interruptible. destruct (amb_cancelled amb); [done|]. destruct (amb_times_out amb timeout); [done|].
  unfold run_exec. by destruct (execute_query _ _ _ _ (world s)) as [w [| |]].
Qed.

Lemma run_no_reply amb timeout query format refs range s r s' : run_interruptible amb timeout query format refs range s ≠ (s', Err r).
Proof.
  unfold run_interruptible. destruct (amb_cancelled amb); [done|]. destruct (amb_times_out amb timeout); [done|].
  unfold run_exec. by destruct (execute_query _ _ _ _ (world s)) as [w [| |]].
Qed.
End Stages.

(** ** The records of a request *)

Section Records.
Context `{K : ArrowKernels} `{R : RowKernels} `{J : JsonOps} `{E : QueryEnv} `{HE : HandlerEnv}.

Lemma admit_keeps amb auth req : keeps core (admit_request amb auth req).
Proof.
  unfold admit_request. apply keeps_bind; [apply full_core, next_id_keeps|]. intros id.
  apply keeps_bind; [apply full_core, prepare_keeps|]. intros q.
  apply keeps_bind; [apply full_core, cache_keeps|]. intros _.
  apply keeps_bind; [apply transaction_keeps|]. intros _.
  apply keeps_bind; [apply write_keeps|]. intros _.
  apply keeps_bind; [apply view_keeps|]. intros _.
  apply keeps_bind; [apply full_core, plan_keeps|]. intros [cached refs].
  apply keeps_bind; [apply cte_keeps|]. intros [q' refs'].
  apply keeps_bind; [apply full_core, exists_keeps|]. intros _.
  apply keeps_bind; [apply full_core, tenant_keeps|]. intros _.
  apply keeps_bind; auto with keeps.
Qed.

(** The logs and the running queries, without the tenants. *)
Definition logs (s : AppState) : list HistoryEntry * list AuditEntry := (history s, audit_log s).

(** One entry in the history and one in the audit log, of this request. *)
Definition recorded (req : QueryRequest) (tenant : option string) (l l' : list HistoryEntry * list AuditEntry) : Prop :=
  ∃ h a, l'.1 = History.push l.1 h ∧ Audit.audit_record audit_capacity l.2 a = Some l'.2 ∧
    h_query h = rq_query req ∧ a_query a = Some (rq_query req) ∧ identity a = default "anonymous" tenant ∧
    (h_error h = None ↔ a_status a = ASuccess) ∧ a_error a = h_error h ∧ a_row_count a = row_count h.

Lemma audit_run a s : audit a s = match Audit.audit_record audit_capacity (audit_log s) a with
  | Some l => (set_audit l s, Ok tt) | None => (s, Panic) end.
Proof. done. Qed.

Lemma fail_records amb req tenant e s : match fail_query amb req tenant e s with
  | (s', Ok _) => recorded req tenant (logs s) (logs s') ∧ running s' = running s
  | (_, Err _) => False
  | (_, Panic) => True
  end.
Proof.
  unfold fail_query. rewrite handler_bind_run. cbn [modify]. rewrite handler_bind_run. unfold note. cbn [modify].
  rewrite handler_bind_run, audit_run. cbn [audit_log set_world set_history].
  destruct (Audit.audit_record _ _ _) as [l|] eqn:Ea; [|done]. split; [|done].
  unfold logs. cbn. eexists _, _. split; [done|]. split; [exact Ea|]. by cbn.
Qed.

Lemma record_success_records amb req tenant fed rows s : match record_success amb req tenant fed rows s with
  | (s', Ok _) => recorded req tenant (logs s) (logs s') ∧ running s' = running s
  | (_, Err _) => False
  | (_, Panic) => True
  end.
Proof.
  unfold record_success. rewrite handler_bind_run. cbn [modify]. rewrite handler_bind_run. unfold note. cbn [modify].
  rewrite handler_bind_run, audit_run. cbn [audit_log set_world set_history].
  destruct (Audit.audit_record _ _ _) as [l|] eqn:Ea; [|done]. cbn. split; [|done].
  unfold logs. eexists _, _. split; [done|]. split; [exact Ea|]. by cbn.
Qed.

(** After the records: only the caches and the trackers change. *)
Definition logs_running (s : AppState) : list HistoryEntry * list AuditEntry * RunningQueries := (logs s, running s).

Lemma send_keeps amb req id key fed pg ce : keeps logs_running (send_json amb req id key fed pg ce).
Proof.
  unfold send_json. destruct (batches_to_json (pg_batches pg)) as [cols rows].
  repeat (apply keeps_bind; [by apply keeps_modify|intros _]). auto with keeps.
Qed.

Lemma clauses_keeps amb cached key query refs : keeps logs_running (clauses_stage amb cached key query refs).
Proof.
  unfold clauses_stage. destruct cached; [auto with keeps|]. apply keeps_bind; [by apply keeps_modify|auto with keeps].
Qed.

Lemma logs_running_eq s s' : logs_running s' = logs_running s → logs s' = logs s ∧ running s' = running s.
Proof. intros [= Hh Ha Hr]. unfold logs. by rewrite Hh, Ha, Hr. Qed.

Lemma succeed_records amb auth req tenant id rk pk query refs cached fed s :
  match succeed amb auth req tenant id rk pk query refs cached fed s with
  | (s', Ok _) => recorded req tenant (logs s) (logs s') ∧ running s' = running s
  | (s', Err _) => logs s' = logs s ∧ running s' = running s
  | (_, Panic) => True
  end.
Proof.
  unfold succeed. rewrite handler_bind_run. pose proof (clauses_keeps amb cached pk query refs s) as Hc.
  destruct (clauses_stage amb cached pk query refs s) as [s1 [cl|r|]]; cbn [fst snd] in Hc; [|by apply logs_running_eq|done].
  apply logs_running_eq in Hc as [Hl Hr]. rewrite handler_bind_run.
  destruct (result_rows auth tenant req query refs cl fed) as [pg|e|]; cbn [or_panic]; [|done..].
  cbn [mret handler_ret]. set (bs := pg_batches pg). set (rows := N.of_nat _).
  destruct (size_limit _ _); [|done..]. rewrite handler_bind_run. cbn [gets].
  destruct (match tenant ≫= Tenancy.get (tenant_registry s1) with Some c => _ | None => _ end) as [[]|e|]; [|done..].
  rewrite handler_bind_run. pose proof (record_success_records amb req tenant fed rows s1) as Hrec.
  destruct (record_success amb req tenant fed rows s1) as [s2 [[]|r|]]; [|done..].
  rewrite Hl, Hr in Hrec. destruct (String.eqb (result_format req) "ndjson").
  { rewrite handler_bind_run. by destruct (batches_to_ndjson bs). }
  destruct (String.eqb (result_format req) "csv"); [done|].
  pose proof (send_keeps amb req id rk fed pg (costs fed rows (bytes_of bs)) s2) as Hs.
  assert (∀ r' s3, send_json amb req id rk fed pg (costs fed rows (bytes_of bs)) s2 ≠ (s3, Err r')) as Hn.
  { intros r' s3. unfold send_json. by destruct (batches_to_json _). }
  destruct (send_json amb req id rk fed pg _ s2) as [s3 [r|r|]]; cbn [fst snd] in Hs; [|by destruct (Hn r s3)|done].
  apply logs_running_eq in Hs as [-> ->]. done.
Qed.

Lemma core_logs s s' : core s' = core s → logs s' = logs s ∧ running s' = running s.
Proof. intros [= Hh Ha Hr _]. unfold logs. by rewrite Hh, Ha, Hr. Qed.

Lemma run_admitted_records amb auth req a s :
  match run_admitted amb auth req a s with
  | (s', Ok _) => recorded req (ad_tenant a) (logs s) (logs s') ∧
                  running s' = running_remove (running_insert (running s) (ad_id a)) (ad_id a)
  | (s', Err _) => logs s' = logs s ∧ running s' = running_remove (running_insert (running s) (ad_id a)) (ad_id a)
  | (_, Panic) => True
  end.
Proof.
  unfold run_admitted. rewrite handler_bind_run. cbn [modify]. set (s1 := set_running _ s). rewrite handler_bind_run.
  pose proof (in_keeps (to_lowercase (rq_format req)) (ad_query a) (ad_refs a) s1) as Hi.
  pose proof (λ r s', in_no_reply (to_lowercase (rq_format req)) (ad_query a) (ad_refs a) s1 r s') as Hn.
  destruct (in_stage _ _ _ s1) as [s2 [[query refs]|r|]]; [|by destruct (Hn r s2)|done]. cbn [fst snd] in Hi.
  apply core_logs in Hi as [Hl2 Hr2]. rewrite handler_bind_run.
  pose proof (run_keeps amb (ad_timeout a) query (to_lowercase (rq_format req)) refs (range_of req) s2) as Hk.
  pose proof (λ r s', run_no_reply amb (ad_timeout a) query (to_lowercase (rq_format req)) refs (range_of req) s2 r s') as Hn'.
  destruct (run_interruptible _ _ _ _ _ _ s2) as [s3 [result|r|]]; [|by destruct (Hn' r s3)|done].
  cbn [fst snd] in Hk. apply core_logs in Hk as [Hl3 Hr3]. rewrite handler_bind_run. cbn [modify]. set (s4 := set_running _ s3).
  assert (logs s4 = logs s) as Hl4 by (change (logs s4) with (logs s3); by rewrite Hl3, Hl2).
  assert (running s4 = running_remove (running_insert (running s) (ad_id a)) (ad_id a)) as Hr4
    by (unfold s4; cbn; by rewrite Hr3, Hr2).
  destruct result as [e|fed].
  - pose proof (fail_records amb req (ad_tenant a) e s4) as Hf. rewrite Hl4, Hr4 in Hf.
    by destruct (fail_query _ _ _ _ s4) as [s5 [| |]].
  - pose proof (succeed_records amb auth req (ad_tenant a) (ad_id a) (ad_key a) (ad_key a) query refs (ad_cached a) fed s4) as Hs.
    rewrite Hl4, Hr4 in Hs. by destruct (succeed _ _ _ _ _ _ _ _ _ _ _ s4) as [s5 [| |]].
Qed.

(** The tenant and the identifier of an admitted request. *)
Lemma admit_fields amb auth req s s' a : admit_request amb auth req s = (s', Ok a) →
  ad_tenant a = tenant_of auth req ∧ ad_id a = "q-" +:+ hex_go 16 (query_counter s) "".
Proof.
  unfold admit_request. rewrite handler_bind_run. cbn [next_query_id].
  repeat (rewrite handler_bind_run;
          match goal with |- context [match ?m ?st with _ => _ end] => destruct (m st) as [? [?|?|]]; [|discriminate..] end;
          repeat match goal with x : _ * _ |- _ => destruct x end).
  cbn. by intros [= _ <-].
Qed.
End Records.

(** What a request leaves in the logs, by the way it ends. *)
Lemma handle_records `{K : ArrowKernels} `{R : RowKernels} `{J : JsonOps} `{E : QueryEnv} `{HE : HandlerEnv} amb auth req s :
  match handle amb auth req s with
  | (s', Ok _) => recorded req (tenant_of auth req) (logs s) (logs s')
  | (s', Err _) => logs s' = logs s
  | (_, Panic) => True
  end.
Proof.
  unfold handle. rewrite handler_bind_run. pose proof (admit_keeps amb auth req s) as Ha.
  destruct (admit_request amb auth req s) as [s1 [a|r|]] eqn:Ead; cbn [fst snd] in Ha; [|by apply core_logs in Ha as [-> _]|done].
  apply core_logs in Ha as [Hl _]. destruct (admit_fields amb auth req s s1 a Ead) as [Ht _].
  pose proof (run_admitted_records amb auth req a s1) as Hr. rewrite Hl, Ht in Hr.
  destruct (run_admitted amb auth req a s1) as [s2 [| |]]; naive_solver.
Qed.


(** A request that is answered early (from the cache, by a statement, or
    refused: bad, unknown, forbidden, too large or over the tenant's limits)
    leaves the history and the audit log as they were. *)
Theorem early_replies_are_unrecorded `{K : ArrowKernels} `{R : RowKernels} `{J : JsonOps} `{E : QueryEnv} `{HE : HandlerEnv}
    amb auth req s s' r :
  handle amb auth req s = (s', Err r) → logs s' = logs s.
Proof. intros Hr. pose proof (handle_records amb auth req s) as H. by rewrite Hr in H. Qed.

(** The queries that can be cancelled, and the identifier of the next one. *)
Definition in_flight (s : AppState) : gset string := live_tokens (running s).
Definition request_id (s : AppState) : string := "q-" +:+ hex_go 16 (query_counter s) "".

(** A request that is answered leaves the running queries as it found
    them: whether it is served, fails, is refused, times out or is cancelled,
    its own entry is removed and no other is. *)
Theorem running_queries_restored `{K : ArrowKernels} `{R : RowKernels} `{J : JsonOps} `{E : QueryEnv} `{HE : HandlerEnv} amb auth req s :
  request_id s ∉ in_flight s →
  (query_handler amb auth req s).2 ≠ None →
  in_flight (query_handler amb auth req s).1 = in_flight s.
Proof.
  intros Hid. unfold in_flight, request_id in *. unfold query_handler, handle. rewrite handler_bind_run. pose proof (admit_keeps amb auth req s) as Ha.
  destruct (admit_request amb auth req s) as [s1 [a|r|]] eqn:Ead; cbn [fst snd] in Ha; [|apply core_logs in Ha as [_ Ha]; cbn; by rewrite Ha|done].
  apply core_logs in Ha as [_ Hr1]. destruct (admit_fields amb auth req s s1 a Ead) as [_ Hi].
  assert (live_tokens (running_remove (running_insert (running s1) (ad_id a)) (ad_id a)) = live_tokens (running s)) as Hl.
  { rewrite Hr1, Hi. cbn. apply leibniz_equiv. set_solver. }
  pose proof (run_admitted_records amb auth req a s1) as Hr.
  destruct (run_admitted amb auth req a s1) as [s2 [r|r|]]; cbn; [|..|done]; intros _; destruct Hr as [_ ->]; exact Hl.
Qed.

(** ** Which datasources are contacted *)

Section Contacts.
Context `{K : ArrowKernels} `{R : RowKernels} `{J : JsonOps} `{E : QueryEnv} `{HE : HandlerEnv}.

(** The datasources the events call: every call of a connector is an event. *)
Definition contacts (es : list Event) : list string :=
  omap (λ e, match e with Contacted ds => Some ds | _ => None end) es.

Lemma contacts_app es es' : contacts (es ++ es') = contacts es ++ contacts es'.
Proof. apply omap_app. Qed.

(** The new events of a part only contact the datasources of [allowed]. *)
Definition contacts_only {A : Type} (allowed : list string) (m : exec A) : Prop :=
  ∀ w, ∃ es, events (m w).1 = events w ++ es ∧ Forall (λ ds, ds ∈ allowed) (contacts es).

Lemma contacts_bind {A B : Type} l (m : exec A) (f : A → exec B) :
  contacts_only l m → (∀ a, contacts_only l (f a)) → contacts_only l (m ≫= f).
Proof.
  intros Hm Hf w. rewrite bind_run. destruct (Hm w) as (es & He & Hes). destruct (m w) as [w1 [a|e|]]; [|by exists es..].
  destruct (Hf a w1) as (es' & He' & Hes'). exists (es ++ es'). cbn [fst] in *. rewrite He', He, app_assoc. split; [done|].
  rewrite contacts_app. by apply Forall_app.
Qed.
Lemma contacts_lift {A : Type} l (o : outcome string A) : contacts_only l (lift o).
Proof. intros w. exists []. by rewrite app_nil_r. Qed.
Lemma contacts_ret {A : Type} l (a : A) : contacts_only l (mret a).
Proof. intros w. exists []. by rewrite app_nil_r. Qed.
Lemma contacts_source l id : contacts_only l (get_source id).
Proof. intros w. exists []. by rewrite app_nil_r. Qed.
Lemma contacts_tell l es : Forall (λ ds, ds ∈ l) (contacts es) → contacts_only l (tell es).
Proof. intros H w. by exists es. Qed.

Create HintDb contacts.
#[local] Hint Resolve contacts_bind contacts_lift contacts_ret contacts_source contacts_tell : contacts.

Lemma single_contacts query format src range : contacts_only [src.1] (execute_single query format src range).
Proof.
  destruct src as [ds tbl]. unfold execute_single, not_found, fail. apply contacts_bind; [auto with contacts|].
  intros [c|]; [|auto with contacts]. apply contacts_bind; [auto with contacts|]. intros sq.
  destruct (chaos_fail ds); [auto with contacts|]. apply contacts_bind; [apply contacts_tell; repeat constructor|]. intros _.
  destruct (execute (with_range sq range)); auto with contacts;
    (apply contacts_bind; [apply contacts_tell; repeat constructor|auto with contacts]).
Qed.

Lemma task_contacts ds c sq : Forall (λ d, d = ds) (contacts (run_task ds c sq).1.1).
Proof.
  unfold run_task. destruct (chaos_fail ds); [constructor|]. unfold timed_execute.
  destruct (timed_out ds); [by repeat constructor|]. destruct (execute sq); by repeat constructor.
Qed.

Lemma union_contacts query format refs : contacts_only refs.*1 (execute_union query format refs).
Proof.
  unfold execute_union. destruct refs as [|[ds0 t0] refs]; [auto with contacts|].
  apply contacts_bind; [auto with contacts|]. intros per. apply contacts_bind; [intros w; exists []; by rewrite app_nil_r|]. intros r.
  apply contacts_bind.
  - apply contacts_tell. apply Forall_forall. intros d Hd. unfold contacts in Hd.
    apply list_elem_of_omap in Hd as (e & He & Hd). apply list_elem_of_bind in He as (t & He & Ht).
    assert (d = t.1.1) as ->.
    { pose proof (task_contacts t.1.1 t.1.2 t.2) as Hall. rewrite Forall_forall in Hall. apply Hall.
      unfold contacts. apply list_elem_of_omap. by exists e. }
    destruct t as [[ds c] sq]. unfold spawned in Ht. apply list_elem_of_omap in Ht as ([[d t] q] & Hz & Hc).
    apply fmap_Some in Hc as (c' & _ & [= -> -> ->]).
    apply elem_of_zip_l in Hz. apply list_elem_of_fmap. by exists (d, t).
  - intros _. apply contacts_bind; [auto with contacts|]. intros g. unfold fail.
    destruct (_ && _); [auto with contacts|]. apply contacts_bind; auto with contacts.
Qed.

Lemma join_contacts query refs : contacts_only refs.*1 (execute_join query refs).
Proof.
  unfold execute_join, not_found, fail.
  destruct refs as [|[ds_a table_a] [|[ds_b table_b] [|]]]; [auto with contacts..| |auto with contacts].
  apply contacts_bind; [auto with contacts|]. intros found_a. apply contacts_bind; [auto with contacts|]. intros found_b.
  destruct found_a as [c_a|]; [|auto with contacts]. destruct found_b as [c_b|]; [|auto with contacts].
  destruct (chaos_fail ds_a), (chaos_fail ds_b); [auto with contacts..|].
  apply contacts_bind; [apply contacts_tell; repeat constructor; set_solver|]. intros _.
  destruct (join_side ds_a c_a (empty_subquery table_a (Some FANOUT_LIMIT))) as [ra|ea|],
    (join_side ds_b c_b (empty_subquery table_b (Some FANOUT_LIMIT))) as [rb|eb|]; auto with contacts;
    (apply contacts_bind; [apply contacts_tell|]); try (by repeat constructor); auto with contacts.
  - destruct ra, rb; by repeat constructor.
  - intros _. destruct ra as [|[|a0 as_]], rb as [|[|b0 bs_]]; auto with contacts.
    unfold join_answers. apply contacts_bind; [auto with contacts|]. intros [ka kb].
    destruct (_ <=? _); apply contacts_bind; auto with contacts.
Qed.

Lemma execute_contacts query format refs range : contacts_only refs.*1 (execute_query query format refs range).
Proof.
  unfold execute_query. destruct refs as [|r [|r' refs]]; [|apply single_contacts|];
    destruct (_ || _); first [apply union_contacts|apply join_contacts].
Qed.
End Contacts.

(** ** Tenant isolation *)

Section Isolation.
Context `{K : ArrowKernels} `{R : RowKernels} `{J : JsonOps} `{E : QueryEnv} `{HE : HandlerEnv}.

Definition asked (s : AppState) : list string := contacts (events (world s)).
Definition may_access (reg : TenantRegistry) (tid ds : string) : Prop :=
  ∃ c, Tenancy.get reg tid = Some c ∧ can_access c ds = true.

(** A query that is none of the statements the handler runs before it checks
    the tenant, and has no part that calls other sources: no WITH clause, no IN
    sub-query, not CREATE TABLE AS, INSERT … SELECT, CREATE or REFRESH
    MATERIALIZED VIEW, and not COMMIT. *)
Definition plain_query (q : string) : Prop :=
  parse_ctes q = None ∧ extract_in_subqueries q = Ok [] ∧
  parse_ctas q = None ∧ parse_insert_into_select q = None ∧
  parse_create_materialized_view q = None ∧ parse_refresh_materialized_view q = None ∧
  starts_with "commit" (to_lowercase (trim q)) = false.

Lemma full_asked s s' : full s' = full s → asked s' = asked s ∧ tenant_registry s' = tenant_registry s.
Proof. intros [= _ _ _ Ht He]. unfold asked. by rewrite He. Qed.

Lemma find_None_all {A : Type} (p : A → bool) l : List.find p l = None → ∀ x, x ∈ l → p x = false.
Proof. intros H x Hx. eapply find_none; [exact H|by apply list_elem_of_In]. Qed.

Lemma tenant_admits tid refs s s' : tenant_stage (Some tid) refs s = (s', Ok tt) → is_enabled (tenant_registry s) = true →
  ∀ ds, ds ∈ refs.*1 → may_access (tenant_registry s) tid ds.
Proof.
  unfold tenant_stage. rewrite handler_bind_run. cbn [gets]. intros H He ds Hds. rewrite He in H.
  destruct (List.find _ refs) as [[]|] eqn:Ef; [discriminate H|].
  apply list_elem_of_fmap in Hds as ([d t] & -> & Hin).
  pose proof (find_None_all _ _ Ef (d, t) Hin) as Hd. apply negb_false_iff, bool_decide_eq_true in Hd. cbn [fst] in *.
  unfold filter_datasources in Hd. destruct (Tenancy.get (tenant_registry s) tid) as [c|] eqn:Hc.
  - apply list_elem_of_filter in Hd as [Hd _]. by exists c.
  - rewrite He in Hd. by apply not_elem_of_nil in Hd.
Qed.

Lemma prepare_continue query q s s' : prepare_stage query s = (s', Ok q) →
  ∃ store, handle_prepared env_parse_f64 (prepared_statements s) query = Ok (Continue q, store).
Proof.
  unfold prepare_stage. destruct (handle_prepared _ _ _) as [[[] store]|[]|]; intros [=]; subst; eauto.
Qed.

(** A stage that went on, with what it kept. *)
Lemma stage_full {A : Type} (m : handler A) s s1 r : keeps full m → m s = (s1, r) → r ≠ Panic → full s1 = full s.
Proof. intros Hk Hm Hr. specialize (Hk s). rewrite Hm in Hk. by destruct r. Qed.

(** Pass a stage that keeps everything: afterwards [new] compares the state
    with the first one. *)
Ltac next_stage lem prev s' x new :=
  rewrite handler_bind_run;
  match type of lem with
  | keeps _ ?m =>
      match goal with |- context [m ?st] => destruct (m st) as [s' [x|?|]] eqn:new end
  end; [| |done]; apply (stage_full _ _ _ _ lem) in new; [|done| |done]; rewrite prev in new; [|done].

(** The stages before the tenant check call nobody for such a query. *)
Lemma plain_transaction amb req q : starts_with "commit" (to_lowercase (trim q)) = false → keeps full (transaction_stage amb req q).
Proof.
  intros Hc s. unfold transaction_stage, handle_transaction.
  assert (String.eqb (to_lowercase (trim q)) "commit" || starts_with "commit " (to_lowercase (trim q)) = false) as Hno.
  { apply orb_false_iff. split.
    - apply String.eqb_neq. intros Eq. by rewrite Eq in Hc.
    - apply not_true_iff_false. intros [t Eq]%starts_with_iff. rewrite Eq in Hc.
      change ("commit " +:+ t) with ("commit" +:+ String " " t) in Hc. by rewrite starts_with_app in Hc. }
  rewrite Hno. unfold full.
  destruct (if String.eqb (to_lowercase (trim q)) "begin" || starts_with "begin " (to_lowercase (trim q)) ||
               String.eqb (to_lowercase (trim q)) "begin transaction" then _ else None) as [[r st]|];
    [cbn; by rewrite app_nil_r|].
  destruct (String.eqb (to_lowercase (trim q)) "rollback" || starts_with "rollback " (to_lowercase (trim q)));
    [destruct (handle_rollback _ _ _) as [r st]|]; cbn; by rewrite app_nil_r.
Qed.

Lemma plain_write q : parse_ctas q = None → parse_insert_into_select q = None → keeps full (write_stage q).
Proof. intros H1 H2. unfold write_stage. rewrite H1, H2. auto with keeps. Qed.

Lemma plain_view amb q : parse_create_materialized_view q = None → parse_refresh_materialized_view q = None → keeps full (view_stage amb q).
Proof.
  intros H1 H2. unfold view_stage. rewrite H1, H2. destruct (parse_create_view q) as [[n v]|]; [|auto with keeps].
  apply keeps_bind; [by apply keeps_modify|auto with keeps].
Qed.

Lemma admit_isolated amb auth req s q store :
  handle_prepared env_parse_f64 (prepared_statements s) (bound_text req) = Ok (Continue q, store) →
  plain_query (rewrite_contains q) →
  match admit_request amb auth req s with
  | (s', Ok a) => full s' = full s ∧ ad_query a = rewrite_contains q ∧
      ∀ tid ds, tenant_of auth req = Some tid → is_enabled (tenant_registry s) = true → ds ∈ (ad_refs a).*1 →
        may_access (tenant_registry s) tid ds
  | (s', Err _) => full s' = full s
  | (_, Panic) => True
  end.
Proof.
  intros Hp (Hcte & _ & Hctas & Hins & Hcv & Hrv & Hcom). unfold admit_request. rewrite handler_bind_run. cbn [next_query_id].
  set (s0 := set_counter _ s). assert (full s0 = full s) as H0 by done. rewrite handler_bind_run.
  destruct (prepare_stage (bound_text req) s0) as [s1 [q1|r|]] eqn:E1;
    [|rewrite <- H0; by eapply stage_full; [apply prepare_keeps|exact E1|]|done].
  assert (q1 = q) as -> by (destruct (prepare_continue _ _ _ _ E1) as [st Hst]; change (prepared_statements s0) with (prepared_statements s) in Hst; congruence).
  apply (stage_full _ _ _ _ (prepare_keeps _)) in E1 as H1; [|done]. rewrite H0 in H1. clear E1 H0.
  set (qr := rewrite_contains q) in *. set (key := to_lowercase (rq_format req) +:+ ":" +:+ qr).
  next_stage (cache_keeps amb key ("q-" +:+ hex_go 16 (query_counter s) "")) H1 s2 x2 E2.
  next_stage (plain_transaction amb req qr Hcom) E2 s3 x3 E3.
  next_stage (plain_write qr Hctas Hins) E3 s4 x4 E4.
  next_stage (plain_view amb qr Hcv Hrv) E4 s5 x5 E5.
  next_stage (plan_keeps amb (to_lowercase (rq_format req)) key qr) E5 s6 x6 E6. destruct x6 as [cached refs].
  rewrite handler_bind_run, (cte_none _ _ _ _ Hcte).
  next_stage (exists_keeps refs) E6 s7 x7 E7.
  rewrite handler_bind_run. destruct (tenant_stage (tenant_of auth req) refs s7) as [s8 [[]|r|]] eqn:E8; [| |done];
    pose proof (stage_full _ _ _ _ (tenant_keeps _ _) E8) as H8; rewrite E7 in H8; [|by apply H8].
  rewrite handler_bind_run. cbn. split; [by apply H8|]. split; [done|]. intros tid ds Htid Hen Hds.
  destruct (full_asked _ _ E7) as [_ Hreg]. rewrite <- Hreg in *. rewrite Htid in E8. by eapply tenant_admits.
Qed.

(** After the execution nobody is contacted any more. *)
Lemma note_asked es : contacts es = [] → keeps asked (note es).
Proof. intros He. apply keeps_modify. intros s. unfold asked. cbn. by rewrite contacts_app, He, app_nil_r. Qed.

Lemma audit_asked a : keeps asked (audit a).
Proof. intros s. unfold audit. by destruct (Audit.audit_record _ _ _). Qed.

Lemma contacts_none (l : list string) (f : string → list Event) : (∀ d, contacts (f d) = []) → contacts (l ≫= f) = [].
Proof. intros Hf. induction l as [|d l IH]; [done|]. cbn [mbind list_bind]. by rewrite contacts_app, Hf, IH. Qed.

Lemma fail_asked amb req tenant e : keeps asked (fail_query amb req tenant e).
Proof.
  unfold fail_query. repeat (apply keeps_bind; [first [by apply keeps_modify|by apply note_asked|apply audit_asked]|intros _]).
  auto with keeps.
Qed.

Lemma cost_contacts ce : contacts (cost_events ce) = [].
Proof.
  destruct ce as [ce|]; [|done]. cbn. induction (Dollars.per_datasource ce) as [|e l IH]; [done|]. cbn.
  destruct (fltb _ _); cbn; apply IH.
Qed.

Lemma succeed_asked amb auth req tenant id rk pk query refs cached fed :
  keeps asked (succeed amb auth req tenant id rk pk query refs cached fed).
Proof.
  unfold succeed. apply keeps_bind.
  { unfold clauses_stage. destruct cached; [auto with keeps|]. apply keeps_bind; [by apply keeps_modify|auto with keeps]. }
  intros cl. apply keeps_bind; [auto with keeps|]. intros pg. destruct (size_limit _ _); [|auto with keeps..].
  apply keeps_bind; [auto with keeps|]. intros tenants.
  destruct (match tenant ≫= Tenancy.get tenants with Some c => _ | None => _ end); [|auto with keeps..].
  apply keeps_bind.
  { unfold record_success. apply keeps_bind; [by apply keeps_modify|]. intros _.
    apply keeps_bind; [by apply note_asked, contacts_none|]. intros _. apply keeps_bind; [apply audit_asked|]. intros _.
    by apply note_asked. }
  intros _. destruct (String.eqb _ "ndjson"); [auto with keeps|]. destruct (String.eqb _ "csv"); [auto with keeps|].
  unfold send_json. destruct (batches_to_json _) as [cols rows].
  repeat (apply keeps_bind; [first [by apply keeps_modify|apply note_asked, cost_contacts]|intros _]). auto with keeps.
Qed.

(** The execution contacts the sources it is given, interrupted or not. *)
Lemma run_asked amb timeout query format refs range s ds :
  ds ∈ asked (run_interruptible amb timeout query format refs range s).1 → ds ∈ asked s ∨ ds ∈ refs.*1.
Proof.
  destruct (execute_contacts query format refs range (world s)) as (es & He & Hes).
  rewrite Forall_forall in Hes.
  assert (∀ es', es' `sublist_of` es → ds ∈ contacts (events (world s) ++ es') → ds ∈ asked s ∨ ds ∈ refs.*1) as Hsub.
  { intros es' Hs. rewrite contacts_app, elem_of_app. intros [|Hin]; [by left|right]. apply Hes.
    unfold contacts in *. rewrite list_elem_of_omap in *. destruct Hin as (e & Hin & Hd). exists e. split; [|done].
    by eapply elem_of_sublist. }
  assert (∀ n, ds ∈ contacts (events (interrupted n query format refs range (world s))) → ds ∈ asked s ∨ ds ∈ refs.*1) as Hint.
  { intros n. unfold interrupted. rewrite He, drop_app_length. cbn [events]. apply Hsub.
    destruct (fans_out _ _ _); [|apply sublist_take]. destruct (Nat.eqb n 0); [apply sublist_nil_l|done]. }
  unfold run_interruptible. destruct (amb_cancelled amb); [|destruct (amb_times_out amb timeout)]; [apply Hint..|].
  unfold run_exec, asked. destruct (execute_query query format refs range (world s)) as [w [| |]]; cbn in *; rewrite He; apply Hsub; reflexivity.
Qed.

Lemma in_none format query refs s : extract_in_subqueries query = Ok [] → in_stage format query refs s = (s, Ok (query, refs)).
Proof. intros H. unfold in_stage. by rewrite handler_bind_run, H. Qed.

Lemma run_admitted_asked amb auth req a s : extract_in_subqueries (ad_query a) = Ok [] →
  match run_admitted amb auth req a s with
  | (_, Panic) => True
  | (s', _) => ∀ ds, ds ∈ asked s' → ds ∈ asked s ∨ ds ∈ (ad_refs a).*1
  end.
Proof.
  intros Hin. unfold run_admitted. rewrite handler_bind_run. cbn [modify]. set (s1 := set_running _ s).
  rewrite handler_bind_run, (in_none _ _ _ _ Hin), handler_bind_run.
  pose proof (run_asked amb (ad_timeout a) (ad_query a) (to_lowercase (rq_format req)) (ad_refs a) (range_of req) s1) as Hr.
  destruct (run_interruptible _ _ _ _ _ _ s1) as [s2 [result|r|]]; [|exact Hr|done].
  rewrite handler_bind_run. cbn [modify fst] in *. set (s3 := set_running _ s2). change (asked s2) with (asked s3) in Hr.
  change (asked s1) with (asked s) in Hr.
  destruct result as [e|fed].
  - pose proof (fail_asked amb req (ad_tenant a) e s3) as Hk.
    destruct (fail_query _ _ _ _ s3) as [s4 [| |]]; cbn [fst snd] in Hk; [by rewrite Hk..|done].
  - pose proof (succeed_asked amb auth req (ad_tenant a) (ad_id a) (ad_key a) (ad_key a) (ad_query a) (ad_refs a) (ad_cached a) fed s3) as Hk.
    destruct (succeed _ _ _ _ _ _ _ _ _ _ _ s3) as [s4 [| |]]; cbn [fst snd] in Hk; [by rewrite Hk..|done].
Qed.
End Isolation.

(** C4: A tenant's plain query contacts only what the tenant may access: when
    tenants are configured and the request carries an identity, every
    datasource whose connector a query calls is one its tenant's configuration
    grants, whatever the plan cache, the prepared statements and the parameters
    hold, whether the execution is cancelled or times out, and however the
    request ends, short of a panic.  A query is plain ([plain_query]) when it
    has no WITH clause and no IN sub-query and is not CREATE TABLE AS,
    INSERT … SELECT, CREATE or REFRESH MATERIALIZED VIEW or COMMIT: those
    statements and the queries of a WITH clause are run before the check, for
    sources the tenant may not access ([create_table_skips_the_tenant_check],
    [view_skips_the_tenant_check], [cte_skips_the_tenant_check]); the sources
    of IN sub-queries are not followed here. *)
Theorem tenant_contacts_granted `{K : ArrowKernels} `{R : RowKernels} `{J : JsonOps} `{E : QueryEnv} `{HE : HandlerEnv}
    amb auth req s tid q store :
  tenant_of auth req = Some tid → is_enabled (tenant_registry s) = true →
  handle_prepared env_parse_f64 (prepared_statements s) (bound_text req) = Ok (Continue q, store) →
  plain_query (rewrite_contains q) →
  (query_handler amb auth req s).2 ≠ None →
  ∀ ds, ds ∈ asked (query_handler amb auth req s).1 → ds ∈ asked s ∨ may_access (tenant_registry s) tid ds.
Proof.
  intros Htid Hen Hp Hplain. unfold query_handler, handle. rewrite handler_bind_run.
  pose proof (admit_isolated amb auth req s q store Hp Hplain) as Ha.
  destruct (admit_request amb auth req s) as [s1 [a|r|]]; [|apply full_asked in Ha as [Ha _]; cbn; rewrite Ha; auto|done].
  destruct Ha as (Hf & Hq & Hg). apply full_asked in Hf as [Hf _].
  destruct Hplain as (_ & Hin & _). rewrite <- Hq in Hin. pose proof (run_admitted_asked amb auth req a s1 Hin) as Hr.
  destruct (run_admitted amb auth req a s1) as [s2 [r|r|]]; cbn; [| |done]; intros _ ds Hds;
    (apply Hr in Hds as [Hds|Hds]; [left; by rewrite <- Hf|right; by apply Hg]).
Qed.

(** ** The result cache *)

(** A cached response is given to whoever asks: a fresh entry under the
    text of the query is returned at once, with a new trace identifier, for
    every identity and every tenant (also one that may not access the
    datasource), and for every cursor, page size, result format and role: the
    lookup comes before the tenant check and its key is the text alone. *)
Theorem cached_response_ignores_caller `{K : ArrowKernels} `{R : RowKernels} `{J : JsonOps} `{E : QueryEnv} `{HE : HandlerEnv}
    amb auth req s q store r c :
  handle_prepared env_parse_f64 (prepared_statements s) (bound_text req) = Ok (Continue q, store) →
  result_get (result_cache s) (to_lowercase (rq_format req) +:+ ":" +:+ rewrite_contains q) (amb_now amb) = (Some r, c) →
  (query_handler amb auth req s).2 =
    Some (RJson (with_trace (request_id s) (response_json r))).
Proof.
  intros Hp Hc. unfold query_handler, handle, admit_request. rewrite !handler_bind_run. cbn [next_query_id].
  rewrite handler_bind_run. unfold prepare_stage. change (prepared_statements (set_counter _ s)) with (prepared_statements s).
  rewrite Hp, handler_bind_run. unfold cache_stage.
  change (result_cache (set_prepared store (set_counter _ s))) with (result_cache s). by rewrite Hc.
Qed.

(** Without an identity there is no tenant check at all. *)
Lemma anonymous_is_not_checked refs s : tenant_stage None refs s = (s, Ok tt).
Proof. done. Qed.

(** ** OFFSET *)

(** An OFFSET is applied twice: the sub-query carries it to the connector,
    and the handler skips as many rows again of what the connector returns. On
    one source whose connector honours OFFSET and LIMIT the page is the slice
    of a slice; when the offset is not smaller than the limit, it is empty,
    whatever the source holds. *)
Theorem offset_applied_twice `{K : ArrowKernels, !ArrowLaws K} `{R : RowKernels, !RowLaws R} `{J : JsonOps} `{E : QueryEnv} `{HE : HandlerEnv}
    auth tenant req query refs fed ds sch (o l : N) all :
  column_rbac = None → fed_datasources fed = [ds] → parse_having env_parse_f64 query = None →
  rq_cursor req = None → rq_page_size req = None → (o ≤ u64_max)%N →
  uniform sch (fed_batches fed) → rows_of (fed_batches fed) = slice (N.to_nat o) (Some (N.to_nat l)) all →
  ∃ pg, result_rows auth tenant req query refs (mkClauses [] (Some l) false o) fed = Ok pg ∧
    rows_of (pg_batches pg) = slice (N.to_nat o) (Some (N.to_nat l)) (slice (N.to_nat o) (Some (N.to_nat l)) all) ∧
    ((l ≤ o)%N → rows_of (pg_batches pg) = []).
Proof.
  intros Hrb Hds Hhv Hcur Hps Ho Hu Hrows. unfold result_rows, regroup. rewrite Hds. cbn [length Nat.ltb Nat.leb].
  rewrite andb_false_r. cbn [mbind outcome_bind]. unfold having_stage. rewrite Hhv.
  cbn [cl_order_by cl_distinct cl_offset cl_limit order_stage mbind outcome_bind].
  assert (distinct_stage false (fed_batches fed) = Ok (fed_batches fed)) as -> by by destruct (fed_batches fed).
  cbn [mbind outcome_bind]. rewrite Hcur, Hps. cbn [mbind option_bind default].
  assert (usize_add o 0 = o) as -> by (unfold usize_add; rewrite N.add_0_r, N.mod_small; [done|unfold u64_max in Ho; lia]).
  change (N.to_nat <$> Some l) with (Some (N.to_nat l)).
  destruct (page_batches_slice sch (fed_batches fed) (N.to_nat o) (Some (N.to_nat l)) Hu) as (out & -> & _ & Hout).
  cbn [mbind outcome_bind]. unfold rbac_stage. rewrite Hrb. cbn [mbind outcome_bind]. eexists. split; [done|]. cbn [pg_batches].
  rewrite Hout, Hrows. split; [done|]. intros Hle. unfold slice. rewrite drop_ge; [by rewrite take_nil|].
  rewrite length_take. lia.
Qed.

(** ** Examples *)

Definition ex_handler : HandlerEnv := {|
  max_result_bytes := 0; audit_capacity := 100; column_rbac := None; adaptive_timeout_for := λ _, 1000%N;
  params_iter := map_to_list; plans_iter := map_to_list; results_iter := map_to_list; frequency_iter := map_to_list;
  group_keys := λ g, (map_to_list g).*1; write_batches := λ _ _ bs, inr (N.of_nat (count_rows bs));
  batches_to_csv := λ _, ""; env_show_fixed := λ _ _, "" |}.

Definition ex_request (q : string) : QueryRequest := mkQueryRequest q "sql" false None "json" ∅ None None None None None.
Definition ex_ambient : Ambient := mkAmbient 100 7 (λ _, false) false 0 "txn" (λ _, None).
(** Two tenants: [ops] may read [logs], [web] may not. *)
Definition ex_state : AppState :=
  mkApp ex_world ∅ [] running_new (Plans.plans_new 60 10) (results_new 60 10)
    (Tenancy.new [with_datasources "ops" ["logs"]; with_datasources "web" ["slow"]]) [] ∅ ∅
    (Adaptive.adaptive_new 30 3 10) 1 [].

Definition ex_query : string := "SELECT n FROM logs.app ORDER BY n DESC LIMIT 1".
Definition serve_query (who : string) (q : string) (s : AppState) : AppState * option Reply :=
  query_handler (K := RefArrow) (R := RefRows) (J := RefJson) (E := ex_env) (HE := ex_handler) ex_ambient
    (Some (mkAuth who Viewer)) (ex_request q) s.

(** A request from end to end. *)
Example served : (serve_query "ops" ex_query ex_state).2 =
  Some (RJson (mkResponse ["n"] [[JString "2"]]
    (mkMetadata 1 "sql" "q-0000000000000001" None None None) None [] (Some "fuse_c_1"))).
Proof. vm_compute. reflexivity. Qed.

Example refused : (serve_query "web" ex_query ex_state).2 =
  Some (RError 403 "tenant 'web' does not have access to datasource 'logs'").
Proof. vm_compute. reflexivity. Qed.

(** After [ops] was served, [web] gets the rows it was refused. *)
Lemma cached_response_ignores_caller_witness :
  let s := (serve_query "ops" ex_query ex_state).1 in
  (serve_query "web" ex_query s).2 =
    Some (RJson (mkResponse ["n"] [[JString "2"]]
      (mkMetadata 1 "sql" "q-0000000000000002" None None None) None [] (Some "fuse_c_1"))).
Proof.
  intros s. unfold serve_query at 1.
  destruct (result_get (result_cache s) ("sql:" +:+ ex_query) 100) as [[r|] c] eqn:Hr; [|vm_compute in Hr; discriminate Hr].
  rewrite (cached_response_ignores_caller (K := RefArrow) (R := RefRows) (J := RefJson) (E := ex_env) (HE := ex_handler) ex_ambient
             (Some (mkAuth "web" Viewer)) (ex_request ex_query) s ex_query ∅ r c); [|vm_compute; reflexivity|exact Hr].
  vm_compute in Hr. injection Hr as <- _. vm_compute. reflexivity.
Defined.


(** A query refused for its tenant is not audited. *)
Lemma denied_queries_are_unaudited :
  (serve_query "web" ex_query ex_state).2 = Some (RError 403 "tenant 'web' does not have access to datasource 'logs'") ∧
  audit_log (serve_query "web" ex_query ex_state).1 = [] ∧ history (serve_query "web" ex_query ex_state).1 = [].
Proof. split_and!; vm_compute; reflexivity. Qed.

Lemma tenant_contacts_granted_witness :
  let h := query_handler (K := RefArrow) (R := RefRows) (J := RefJson) (E := ex_env) (HE := ex_handler) ex_ambient
    (Some (mkAuth "ops" Viewer)) (ex_request ex_query) ex_state in
  asked h.1 = ["logs"] ∧ may_access (tenant_registry ex_state) "ops" "logs".
Proof.
  intros h. split; [vm_compute; reflexivity|].
  assert (H := tenant_contacts_granted (K := RefArrow) (R := RefRows) (J := RefJson) (E := ex_env) (HE := ex_handler) ex_ambient
    (Some (mkAuth "ops" Viewer)) (ex_request ex_query) ex_state "ops" ex_query ∅).
  edestruct H as [Ha|Ha]; [..|exact Ha];
    [reflexivity|vm_compute; reflexivity|vm_compute; reflexivity| | | |vm_compute in Ha; by apply not_elem_of_nil in Ha].
  - split_and!; vm_compute; reflexivity.
  - vm_compute. discriminate.
  - vm_compute. left.
Defined.

(** The statements that run before the tenant check read any source: [web] may
    not access [logs], but copies its rows, or keeps them in a view. *)
Lemma create_table_skips_the_tenant_check :
  let r := serve_query "web" "CREATE TABLE slow.copy AS SELECT n FROM logs.app" ex_state in
  asked r.1 = ["logs"; "slow"] ∧ ¬ may_access (tenant_registry ex_state) "web" "logs" ∧
  (written r.1).*2 = [ex_rows [1; 2]%Z].
Proof.
  split; [vm_compute; reflexivity|]. split; [|vm_compute; reflexivity].
  intros (c & Hc & Ha). vm_compute in Hc. injection Hc as <-. by vm_compute in Ha.
Qed.

Lemma cte_skips_the_tenant_check :
  asked (serve_query "web" "WITH c AS (SELECT n FROM logs.app) SELECT * FROM slow.app" ex_state).1 = ["logs"; "slow"].
Proof. vm_compute. reflexivity. Qed.

Lemma view_skips_the_tenant_check :
  asked (serve_query "web" "CREATE MATERIALIZED VIEW v AS SELECT n FROM logs.app" ex_state).1 = ["logs"].
Proof. vm_compute. reflexivity. Qed.

Lemma running_queries_restored_witness :
  in_flight (serve_query "ops" ex_query ex_state).1 = in_flight ex_state.
Proof.
  apply (running_queries_restored (K := RefArrow) (R := RefRows) (J := RefJson) (E := ex_env) (HE := ex_handler) ex_ambient
    (Some (mkAuth "ops" Viewer)) (ex_request ex_query) ex_state); [apply not_elem_of_empty|vm_compute; discriminate].
Defined.

Lemma offset_applied_twice_witness :
  let fed := mkFederated (ex_rows [11; 12]%Z) None ["logs"] ∅ [] [] in
  ∃ pg, result_rows (K := RefArrow) (R := RefRows) (E := ex_env) (HE := ex_handler) None None (ex_request "q") "q" []
          (mkClauses [] (Some 2%N) false 10%N) fed = Ok pg ∧ rows_of (pg_batches pg) = [].
Proof.
  intros fed.
  destruct (offset_applied_twice (K := RefArrow) (R := RefRows) (J := RefJson) (E := ex_env) (HE := ex_handler) None None (ex_request "q")
    "q" [] fed "logs" [mkField "n" Int64 true] 10 2 ((λ z, [Some (VInt z)]) <$> [1; 2; 3; 4; 5; 6; 7; 8; 9; 10; 11; 12; 13]%Z))
    as (pg & H1 & _ & H2); [done|done|vm_compute; reflexivity|done|done|done| |reflexivity|].
  - split; [done|]. constructor; [|constructor]. split; [|done]. by apply (bool_decide_eq_true_1 (wf_batch _)).
  - exists pg. split; [exact H1|]. apply H2. lia.
Defined.

(** DISTINCT sorts its rows again: the order of an ORDER BY … DESC is lost. *)
Lemma distinct_forgets_order :
  ∃ sorted, order_stage (K := RefArrow) [("n", true)] (ex_rows [1; 3; 2]%Z) = Ok sorted ∧
    rows_of sorted = (λ z, [Some (VInt z)]) <$> [3; 2; 1]%Z ∧
    ∃ out, distinct_stage (K := RefArrow) true sorted = Ok out ∧ rows_of out = (λ z, [Some (VInt z)]) <$> [1; 2; 3]%Z.
Proof.
  eexists. split; [vm_compute; reflexivity|]. split; [reflexivity|]. eexists. split; [vm_compute; reflexivity|]. reflexivity.
Qed.

(** An IN sub-query with a string literal is never replaced: its text is taken
    from the stripped query, which no longer occurs in the query. *)
Lemma in_with_literal_unresolved :
  let q := "SELECT * FROM logs.app WHERE id IN (SELECT id FROM slow.t WHERE c = 'US')" in
  (in_stage (K := RefArrow) (E := ex_env) "sql" q [("logs", "app"); ("slow", "t")] ex_state).2 = Ok (q, [("logs", "app"); ("slow", "t")]).
Proof. vm_compute. reflexivity. Qed.

(** A sub-query that selects nothing panics after the query was registered as
    running; the entry stays. *)
Lemma panic_leaks_running :
  let r := serve_query "nobody" "SELECT * FROM logs.app WHERE x IN (SELECT FROM logs.t)"
    (mkApp (world ex_state) ∅ [] running_new (plan_cache ex_state) (result_cache ex_state) (Tenancy.new []) [] ∅ ∅ (adaptive_cache ex_state) 1 []) in
  r.2 = None ∧ "q-0000000000000001" ∈ live_tokens (running r.1).
Proof. intros r. split; [vm_compute; reflexivity|]. apply (bool_decide_eq_true_1 (_ ∈ live_tokens (running r.1))). vm_compute. reflexivity. Qed.
