(* ===== verification/Access.v ===== *)
(** * Access: who may call the server

    Models [crates/fuse-server/src/auth.rs] (API keys, roles, key rotation),
    [request_signing.rs], [rate_limit.rs], the endpoint that rotates keys in
    [api.rs] and the stack of middleware that [build_router_with_limits] of
    [lib.rs] puts around the routes.  A middleware takes the rest of the stack
    as its last argument; the state [W] stands for everything the handlers
    keep.  HMAC and the token buckets of the governor crate are parameters,
    clock readings are arguments. *)

From S2P Require Import Prelude Strs Float Json Prepared Stores Logs Tenancy Transactions Views Arrow Connector Errors.
From S2P Require Import Merger NetAddr QueryText Security ServerState Results Federate QueryHandler.
From stdpp Require Import base list strings gmap pretty.
From Stdlib Require Import NArith ZArith Lia Ascii.

(** ** Requests and responses *)

Section Responses.
Context {B : Type}.

(** An error is a JSON object with the message; anything else is what a
    handler answers. *)
Inductive Response : Type :=
| Refused (status : N) (headers : list (string * string)) (error : string)
| Served (body : B).

Definition unauthorized (msg : string) : Response :=
  Refused 401 [("content-type", "application/json"); ("www-authenticate", "Bearer")] msg.
End Responses.
Arguments Response : clear implicits.

(** ** Roles and keys *)

Record ApiKeyEntry : Type := mkKey { api_key : string; key_identity : string; key_role : Role }.

Definition role_rank (r : Role) : nat := match r with Viewer => 0 | Editor => 1 | AdminRole => 2 end.
Definition role_has (r required : Role) : bool := role_rank required <=? role_rank r.

(** [{:?}] of a role. *)
Definition role_debug (r : Role) : string := match r with Viewer => "Viewer" | Editor => "Editor" | AdminRole => "Admin" end.

Definition require_role {B : Type} (identity : option AuthIdentity) (required : Role) (auth_enabled : bool)
    : Response B + unit :=
  if negb auth_enabled then inr tt
  else match identity with
       | Some id =>
           if role_has (auth_role id) required then inr tt
           else inl (Refused 403 [("content-type", "application/json")]
                  ("insufficient permissions: role " +:+ role_debug required +:+ " required, you have " +:+ role_debug (auth_role id)))
       | None => inl (unauthorized "authentication required")
       end.

(** [AuthState]: collecting into a map keeps the last entry of a key. *)
Abbreviation AuthState := (gmap string ApiKeyEntry).
Definition auth_disabled : AuthState := ∅.
Definition auth_new (entries : list ApiKeyEntry) : AuthState := foldl (λ m e, <[api_key e := e]> m) ∅ entries.
Definition auth_enabled (a : AuthState) : bool := negb (bool_decide (a = ∅)).
Definition auth_validate (a : AuthState) (key : string) : option ApiKeyEntry := a !! key.

(** ** Key rotation *)

Record GracePeriodKey : Type := mkGrace { grace_entry : ApiKeyEntry; expires_at : N }.
(** The keys behind their lock, which a panic while it is held poisons. *)
Record RotationState : Type := mkRotation { active : gmap string ApiKeyEntry; grace : list GracePeriodKey; poisoned : bool }.

Record RotationResult : Type := mkRotated {
  rr_identity : string; rr_new_key : string; grace_period_secs : N; old_key_expires_at_unix : N }.

Definition rotation_new (initial_keys : list ApiKeyEntry) : RotationState := mkRotation (auth_new initial_keys) [] false.

(** [generate_api_key]: the nanoseconds of the clock and a linear function of
    them, both as sixteen hexadecimal digits. *)
Definition as_u64 (n : N) : N := n `mod` 18446744073709551616.
Definition generate_api_key (nanos : N) : string :=
  let ts := as_u64 nanos in
  "fuse-" +:+ hex_go 16 ts "" +:+ hex_go 16 (as_u64 (as_u64 (ts * 6364136223846793005) + 1442695040888963407)) "".

Section Rotation.
(** The order in which the map of active keys is visited. *)
Context (keys_iter : gmap string ApiKeyEntry → list (string * ApiKeyEntry)).

(** The last second of the steady clock: [Instant + Duration] panics beyond it. *)
Definition INSTANT_MAX : N := 2 ^ 63 - 1.

(** The instants of a rotation: of the steady clock in seconds, of the system
    clock in nanoseconds when the key is made, and in seconds when the result is.
    The grace period is computed while the lock is held and before anything is
    changed; a poisoned lock rotates nothing.  The end of the grace period that
    is reported wraps. *)
Definition rotate (st : RotationState) (identity : string) (grace_secs : N) (now nanos unix : N)
    : outcome string (option RotationResult) * RotationState :=
  if poisoned st then (Ok None, st)
  else
    match List.find (λ e, bool_decide (key_identity e = identity)) (keys_iter (active st)).*2 with
    | None => (Ok None, st)
    | Some old_entry =>
        let new_key := generate_api_key nanos in
        let new_entry := mkKey new_key (key_identity old_entry) (key_role old_entry) in
        if (INSTANT_MAX <? now + grace_secs)%N then (Panic, mkRotation (active st) (grace st) true)
        else
          (Ok (Some (mkRotated identity new_key grace_secs (as_u64 (unix + grace_secs)))),
           mkRotation (<[new_key := new_entry]> (delete (api_key old_entry) (active st)))
             (grace st ++ [mkGrace old_entry (now + grace_secs)]) false)
    end.

(** [validate]: keys whose grace is over are dropped first; a poisoned lock
    knows no key. *)
Definition rotation_validate (st : RotationState) (key : string) (now : N) : option ApiKeyEntry * RotationState :=
  if poisoned st then (None, st)
  else
    let st := mkRotation (active st) (filter (λ g, (now < expires_at g)%N) (grace st)) false in
    match active st !! key with
    | Some e => (Some e, st)
    | None => (grace_entry <$> List.find (λ g, bool_decide (api_key (grace_entry g) = key)) (grace st), st)
    end.

(** These unwrap the lock. *)
Definition list_identities (st : RotationState) : outcome string (list string) :=
  if poisoned st then Panic else Ok ((λ p, key_identity p.2) <$> keys_iter (active st)).
Definition grace_count (st : RotationState) : outcome string nat := if poisoned st then Panic else Ok (length (grace st)).

(** [rotate_key_handler]. *)
Definition rotate_key_handler (st : RotationState) (identity : option AuthIdentity) (who : string) (grace_req : option N)
    (now nanos unix : N) : outcome string (Response RotationResult) * RotationState :=
  match require_role identity AdminRole (bool_decide (is_Some identity)) with
  | inl resp => (Ok resp, st)
  | inr _ =>
      match rotate st who (default 3600%N grace_req) now nanos unix with
      | (Ok (Some r), st') => (Ok (Served r), st')
      | (Ok None, st') => (Ok (Refused 404 [] ("no API key found for identity '" +:+ who +:+ "'")), st')
      | (Err e, st') => (Err e, st')
      | (Panic, st') => (Panic, st')
      end
  end.
End Rotation.

(** ** Signatures *)

(** [HmacSha256::new_from_slice] and what the resulting code does with a text. *)
Class Hmac : Type := { hmac_new : string → option (string → string) }.

Record SigningKey : Type := mkSigningKey { key_id : string; secret : string }.
Record SigningConfig : Type := mkSigning { secrets : list SigningKey; max_age_secs : N }.

Definition signing_disabled : SigningConfig := mkSigning [] 300.
Definition signing_enabled (c : SigningConfig) : bool := negb (bool_decide (length (secrets c) = 0)).

Inductive SigningError : Type := InvalidFormat | InvalidSignature | InvalidKey | Expired.

Definition signing_error_display (e : SigningError) : string :=
  match e with
  | InvalidFormat => "invalid signature format (expected sha256=<hex>)"
  | InvalidSignature => "invalid request signature"
  | InvalidKey => "invalid signing key"
  | Expired => "request timestamp expired"
  end.

Fixpoint hex_encode (bytes : string) : string :=
  match bytes with
  | "" => ""
  | String a rest =>
      let n := N_of_ascii a in
      String (hex_digit (n / 16)) (String (hex_digit (n mod 16)) (hex_encode rest))
  end.

(** [u8::from_str_radix] on two characters: a plus sign is allowed. *)
Definition hex_byte (a b : ascii) : option ascii :=
  if Ascii.eqb a "+" then ascii_of_N <$> to_digit 16 b
  else match to_digit 16 a, to_digit 16 b with
       | Some h, Some l => Some (ascii_of_N (h * 16 + l))
       | _, _ => None
       end.

Fixpoint hex_decode (s : string) : option string :=
  match s with
  | "" => Some ""
  | String a (String b rest) =>
      match hex_byte a b, hex_decode rest with
      | Some c, Some bytes => Some (String c bytes)
      | _, _ => None
      end
  | String _ "" => None
  end.

Definition build_payload (timestamp : option N) (body : string) : string :=
  match timestamp with
  | Some ts => pretty ts +:+ "." +:+ body
  | None => body
  end.

Section Signing.
Context `{H : Hmac}.

(** The loop over the configured keys. *)
Fixpoint verify_keys (keys : list SigningKey) (payload expected : string) : SigningError + unit :=
  match keys with
  | [] => inl InvalidSignature
  | key :: keys =>
      match hmac_new (secret key) with
      | None => inl InvalidKey
      | Some mac => if bool_decide (mac payload = expected) then inr tt else verify_keys keys payload expected
      end
  end.

Definition abs_diff (a b : N) : N := if (a <? b)%N then (b - a)%N else (a - b)%N.

Definition verify_signature (config : SigningConfig) (signature_header : string) (timestamp : option N) (body : string)
    (now : N) : SigningError + unit :=
  if negb (signing_enabled config) then inr tt
  else if match timestamp with Some ts => (max_age_secs config <? abs_diff now ts)%N | None => false end then inl Expired
  else
    match str_strip_prefix "sha256=" signature_header with
    | None => inl InvalidFormat
    | Some hex_sig =>
        match hex_decode hex_sig with
        | None => inl InvalidFormat
        | Some expected => verify_keys (secrets config) (build_payload timestamp body) expected
        end
    end.

(** [sign_request]; a key that is refused panics. *)
Definition sign_request (key : string) (timestamp : option N) (body : string) : outcome SigningError string :=
  match hmac_new key with
  | Some mac => Ok ("sha256=" +:+ hex_encode (mac (build_payload timestamp body)))
  | None => Panic
  end.
End Signing.

(** ** Middleware *)

(** A header that is there may not be readable as text. *)
Record Request : Type := mkRequest {
  method : string; path : string; header_value : string → option (option string); req_body : string;
  ext_auth : option AuthState; ext_signing : option SigningConfig; ext_identity : option AuthIdentity }.

Definition header_text (r : Request) (k : string) : option string := mjoin (header_value r k).
Definition with_identity (r : Request) (id : AuthIdentity) : Request :=
  mkRequest (method r) (path r) (header_value r) (req_body r) (ext_auth r) (ext_signing r) (Some id).
Definition with_auth (r : Request) (a : AuthState) : Request :=
  mkRequest (method r) (path r) (header_value r) (req_body r) (Some a) (ext_signing r) (ext_identity r).

Definition is_public_path (p : string) : bool :=
  bool_decide (p ∈ ["/api/fuse/health"; "/metrics"; "/"; "/playground"]).

(** [extract_api_key]: a key header that is no text ends the search. *)
Definition extract_api_key (r : Request) : option string :=
  match header_value r "x-api-key" with
  | Some v => v
  | None =>
      match header_text r "authorization" with
      | Some s => trim <$> str_strip_prefix "Bearer " s
      | None => None
      end
  end.

Section Middleware.
Context {W B : Type}.

Definition Next : Type := Request → W → W * Response B.

Definition auth_middleware (next : Next) : Next := λ req w,
  match ext_auth req with
  | None => next req w
  | Some auth =>
      if negb (auth_enabled auth) then next req w
      else if is_public_path (path req) then next req w
      else
        match extract_api_key req with
        | None => (w, unauthorized "missing API key — set x-api-key header")
        | Some k =>
            match auth_validate auth k with
            | Some entry => next (with_identity req (mkAuth (key_identity entry) (key_role entry))) w
            | None => (w, unauthorized "invalid API key")
            end
        end
  end.

Definition error_response (status : N) (msg : string) : Response B := Refused status [("content-type", "application/json")] msg.

(** [signing_middleware]; reading the body fails beyond ten megabytes. *)
Definition signing_middleware `{H : Hmac} (now : N) (next : Next) : Next := λ req w,
  match ext_signing req with
  | None => next req w
  | Some config =>
      if negb (signing_enabled config) then next req w
      else if is_public_path (path req) then next req w
      else if negb (bool_decide (method req = "POST")) then next req w
      else if (10 * 1024 * 1024 <? N.of_nat (String.length (req_body req)))%N
      then (w, error_response 413 "request body too large")
      else
        match header_text req "x-fuse-signature" with
        | Some sig =>
            match verify_signature config sig (header_text req "x-fuse-timestamp" ≫= parse_u64) (req_body req) now with
            | inl e => (w, error_response 401 (signing_error_display e))
            | inr _ => next req w
            end
        | None => (w, error_response 401 "missing X-Fuse-Signature header")
        end
  end.
End Middleware.

(** ** Rate limits *)

(** A limiter of the governor crate: a check answers whether the call is
    within the quota and counts it if so.  A keyed limiter has one such state
    per key. *)
Class Governor : Type := {
  bucket : Type;
  bucket_new : N → bucket;
  bucket_check : bucket → N → bool * bucket;
}.

Section RateLimit.
Context `{G : Governor}.

Definition default_bucket {K : Type} `{Countable K} (rpm : N) (m : gmap K bucket) (k : K) : bucket :=
  default (bucket_new rpm) (m !! k).

Record RateLimitState : Type := mkLimits {
  global : bucket; per_ip : gmap string bucket; per_key : gmap string bucket; ip_rpm : N; key_rpm : N }.

(** [with_key_limit] panics on a limit of zero. *)
Definition with_key_limit (global_rpm per_ip_rpm per_key_rpm : N) : outcome string RateLimitState :=
  if (global_rpm =? 0)%N || (per_ip_rpm =? 0)%N || (per_key_rpm =? 0)%N then Panic
  else Ok (mkLimits (bucket_new global_rpm) ∅ ∅ per_ip_rpm per_key_rpm).

Definition limits_new (global_rpm per_ip_rpm : N) : outcome string RateLimitState := with_key_limit global_rpm per_ip_rpm 200.

Definition check_global (l : RateLimitState) (now : N) : bool * RateLimitState :=
  let '(ok, b) := bucket_check (global l) now in (ok, mkLimits b (per_ip l) (per_key l) (ip_rpm l) (key_rpm l)).
Definition check_ip (l : RateLimitState) (ip : string) (now : N) : bool * RateLimitState :=
  let '(ok, b) := bucket_check (default_bucket (ip_rpm l) (per_ip l) ip) now in
  (ok, mkLimits (global l) (<[ip := b]> (per_ip l)) (per_key l) (ip_rpm l) (key_rpm l)).
Definition check_key (l : RateLimitState) (id : string) (now : N) : bool * RateLimitState :=
  let '(ok, b) := bucket_check (default_bucket (key_rpm l) (per_key l) id) now in
  (ok, mkLimits (global l) (per_ip l) (<[id := b]> (per_key l)) (ip_rpm l) (key_rpm l)).

Definition too_many (msg : string) {B : Type} : Response B :=
  Refused 429 [("Retry-After", "60"); ("X-RateLimit-Remaining", "0"); ("Content-Type", "application/json")] msg.

(** The addresses are kept by their canonical texts; [show_ip] gives them. *)
Context (show_ip : IpAddr → string).

Definition extract_ip (r : Request) : option IpAddr :=
  match header_text r "x-forwarded-for" ≫= (λ s, parse_ip (trim (first_part (is_char ",") s))) with
  | Some ip => Some ip
  | None => header_text r "x-real-ip" ≫= (λ s, parse_ip (trim s))
  end.

Definition ip_key (r : Request) : string := show_ip (default (V4 (mkV4 0 0 0 0)) (extract_ip r)).

(** [rate_limit_middleware]; the state is the limiters and the handlers'. *)
Definition rate_limit_middleware {W B : Type} (now : N) (next : @Next (RateLimitState * W) B) : @Next (RateLimitState * W) B :=
  λ req '(l, w),
  let '(ok, l) := check_global l now in
  if negb ok then ((l, w), too_many "rate limit exceeded")
  else
    let '(ok, l) := check_ip l (ip_key req) now in
    if negb ok then ((l, w), too_many "rate limit exceeded")
    else
      match ext_identity req with
      | None => next req (l, w)
      | Some id =>
          let '(ok, l) := check_key l (auth_identity id) now in
          if negb ok then ((l, w), too_many "rate limit exceeded for API key") else next req (l, w)
      end.

(** ** The stack of [build_router_with_limits] *)

(** The layers that decide, from the outside in: the authentication state is
    attached, the signature is checked, the key is checked, the limits are
    applied, the route runs.  The layers for tracing, compression, response
    headers and versions pass every request on. *)
Definition layers `{H : Hmac} {W B : Type} (auth : AuthState) (now : N) (routes : @Next (RateLimitState * W) B)
    : @Next (RateLimitState * W) B :=
  λ req, signing_middleware now (auth_middleware (rate_limit_middleware now routes)) (with_auth req auth).

(** The router attaches [AuthState::default()]. *)
Definition build_router `{H : Hmac} {W B : Type} (now : N) (routes : @Next (RateLimitState * W) B) : @Next (RateLimitState * W) B :=
  layers auth_disabled now routes.
End RateLimit.

(** ** Concurrency per datasource *)

(** The semaphore of the tokio crate: a permit is taken, or there is none. *)
Class Semaphore : Type := {
  semaphore : Type;
  semaphore_new : nat → semaphore;
  try_take : semaphore → option semaphore;
  give_back : semaphore → semaphore;
  available_permits : semaphore → nat;
}.

Section DatasourceLimiter.
Context `{Sem : Semaphore}.

Definition DatasourceLimiter : Type := gmap string semaphore.
Definition limiter_new : DatasourceLimiter := ∅.
Definition limiter_register (l : DatasourceLimiter) (ds : string) (max_concurrent : nat) : DatasourceLimiter :=
  match l !! ds with
  | Some _ => l
  | None => <[ds := semaphore_new (if max_concurrent =? 0 then 16 else max_concurrent)]> l
  end.

(** The outcome of [acquire]: no such datasource, a permit, or waiting for
    one to be returned. *)
Inductive Acquired : Type := Unknown | Permit | Waiting.
Definition limiter_acquire (l : DatasourceLimiter) (ds : string) : Acquired * DatasourceLimiter :=
  match l !! ds with
  | None => (Unknown, l)
  | Some s => match try_take s with Some s' => (Permit, <[ds := s']> l) | None => (Waiting, l) end
  end.
Definition limiter_release (l : DatasourceLimiter) (ds : string) : DatasourceLimiter := alter give_back ds l.
Definition available (l : DatasourceLimiter) (ds : string) : option nat := available_permits <$> l !! ds.
Definition datasource_count (l : DatasourceLimiter) : nat := size l.
End DatasourceLimiter.
