(* ===== verification/AccessCorrect.v ===== *)
(** * AccessCorrect: what the middleware, the signatures and the key rotation guarantee *)

From S2P Require Import Prelude Strs NetAddr QueryHandler Access.
From stdpp Require Import base list strings gmap pretty.
From Stdlib Require Import NArith Lia Ascii Sorted.

(** HMAC takes a key of any length. *)
Class HmacTotal (H : Hmac) : Prop := { hmac_total : ∀ k, is_Some (hmac_new k) }.

(** ** Hexadecimal text *)

Lemma hex_byte_digits c : hex_byte (hex_digit (N_of_ascii c / 16)) (hex_digit (N_of_ascii c mod 16)) = Some c.
Proof. by destruct c as [[] [] [] [] [] [] [] []]. Qed.

Lemma hex_round_trip s : hex_decode (hex_encode s) = Some s.
Proof. induction s as [|c s IH]; [done|]. cbn [hex_encode hex_decode]. by rewrite hex_byte_digits, IH. Qed.

(** ** Signatures *)

Section Signatures.
Context `{H : Hmac} `{HT : !HmacTotal H}.

Definition mac_of (key payload : string) : option string := (λ mac, mac payload) <$> hmac_new key.

Lemma verify_keys_iff keys payload tag :
  verify_keys keys payload tag = inr tt ↔ ∃ k, k ∈ keys ∧ mac_of (secret k) payload = Some tag.
Proof.
  induction keys as [|k keys IH]; cbn [verify_keys].
  - split; [done|]. intros (k & Hk & _). by apply not_elem_of_nil in Hk.
  - unfold mac_of in *. destruct (hmac_total (secret k)) as [mac Hm]. rewrite Hm.
    destruct (bool_decide _) eqn:Hb.
    + apply bool_decide_eq_true in Hb. split; [|done]. intros _. exists k. rewrite Hm. split; [left|]. cbn. by rewrite Hb.
    + apply bool_decide_eq_false in Hb. rewrite IH. split; intros (k' & Hk & E).
      * exists k'. split; [by right|done].
      * apply elem_of_cons in Hk as [->|Hk]; [|by exists k']. rewrite Hm in E. cbn in E. congruence.
Qed.

(** The timestamp is recent enough, where there is one. *)
Definition recent (c : SigningConfig) (timestamp : option N) (now : N) : Prop :=
  ∀ ts, timestamp = Some ts → (abs_diff now ts ≤ max_age_secs c)%N.

Lemma verify_iff c sig ts body now : signing_enabled c = true →
  verify_signature c sig ts body now = inr tt ↔
    recent c ts now ∧ ∃ hex tag k, str_strip_prefix "sha256=" sig = Some hex ∧ hex_decode hex = Some tag ∧
      k ∈ secrets c ∧ mac_of (secret k) (build_payload ts body) = Some tag.
Proof.
  intros He. unfold verify_signature. rewrite He. cbn [negb].
  destruct (match ts with Some t => _ | None => false end) eqn:Ht.
  - split; [done|]. intros [Hr _]. destruct ts as [t|]; [|done]. apply N.ltb_lt in Ht. specialize (Hr t eq_refl). lia.
  - assert (recent c ts now) as Hr.
    { intros t ->. apply N.ltb_ge in Ht. exact Ht. }
    destruct (str_strip_prefix _ _) as [hex|]; [|split; [done|]; intros (_ & ? & ? & ? & ? & _); done].
    destruct (hex_decode hex) as [tag|] eqn:Hd; [|split; [done|]; intros (_ & ? & ? & ? & [= <-] & ? & _); congruence].
    rewrite verify_keys_iff. split.
    + intros (k & Hk & Hm). split; [done|]. by exists hex, tag, k.
    + intros (_ & ? & ? & k & [= <-] & E & Hk & Hm). exists k. split; [done|]. congruence.
Qed.

Lemma sign_shape key ts body sig : sign_request key ts body = Ok sig →
  ∃ tag, sig = "sha256=" +:+ hex_encode tag ∧ mac_of key (build_payload ts body) = Some tag.
Proof.
  unfold sign_request, mac_of. destruct (hmac_new key) as [mac|]; [|done]. intros [= <-]. by eexists.
Qed.
End Signatures.


(** Replay protection is undone by leaving the timestamp out: the signed
    text is the timestamp, a dot and the body, so the signature of a request
    with a timestamp is also one of the request without a timestamp header
    whose body starts with that timestamp and dot, and such a request is
    accepted at any time, however old it is. *)
Theorem timestamp_moves_into_body `{H : Hmac} `{HT : !HmacTotal H} c key t body sig now :
  key ∈ secrets c → sign_request (secret key) (Some t) body = Ok sig →
  verify_signature c sig None (pretty t +:+ "." +:+ body) now = inr tt.
Proof.
  intros Hk Hs. apply sign_shape in Hs as (tag & -> & Hm). apply verify_iff.
  - unfold signing_enabled. destruct (secrets c); [by apply not_elem_of_nil in Hk|done].
  - split; [by intros ? [=]|]. exists (hex_encode tag), tag, key. rewrite strip_prefix_app, hex_round_trip. done.
Qed.

(** ** The stack of middleware *)

Section Guard.
Context `{G : Governor} (show_ip : IpAddr → string).

(** The request as the routes see it: with the identity of its key, where
    keys are required. *)
Definition identified (auth : AuthState) (r r' : Request) : Prop :=
  if auth_enabled auth && negb (is_public_path (path r))
  then ∃ k e, extract_api_key r = Some k ∧ auth !! k = Some e ∧
              r' = with_identity (with_auth r auth) (mkAuth (key_identity e) (key_role e))
  else r' = with_auth r auth.

(** The three limits have room for the request. *)
Definition within_limits (l : RateLimitState) (now : N) (r : Request) : Prop :=
  (bucket_check (global l) now).1 = true ∧
  (bucket_check (default_bucket (ip_rpm l) (per_ip l) (ip_key show_ip r)) now).1 = true ∧
  ∀ id, ext_identity r = Some id → (bucket_check (default_bucket (key_rpm l) (per_key l) (auth_identity id)) now).1 = true.

(** A refusal: nothing of the handlers' state has changed. *)
Definition refused {W B : Type} (w : W) (res : (RateLimitState * W) * Response B) : Prop :=
  ∃ l' status headers e, res = ((l', w), Refused status headers e) ∧ status ∈ [401; 413; 429]%N.

Lemma rate_spec {W B : Type} now (next : @Next (RateLimitState * W) B) r l w :
  (within_limits l now r ∧ ∃ l', rate_limit_middleware show_ip now next r (l, w) = next r (l', w)) ∨
  (¬ within_limits l now r ∧ refused w (rate_limit_middleware show_ip now next r (l, w))).
Proof.
  unfold rate_limit_middleware, within_limits, refused, check_global, check_ip, check_key.
  destruct (bucket_check (global l) now) as [[] g]; cbn [negb fst snd ip_rpm per_ip per_key key_rpm global];
    [|right; split; [by intros [? _]|]; repeat eexists; set_solver].
  destruct (bucket_check (default_bucket (ip_rpm l) _ _) now) as [[] i]; cbn [negb fst snd ip_rpm per_ip per_key key_rpm];
    [|right; split; [by intros (_ & ? & _)|]; repeat eexists; set_solver].
  destruct (ext_identity r) as [id|]; [|left; split; [done|]; by eexists].
  destruct (bucket_check (default_bucket (key_rpm l) _ _) now) as [[] b] eqn:Eb; cbn [negb].
  - left. split; [|by eexists]. split; [done|]. split; [done|]. intros ? [= <-]. by rewrite Eb.
  - right. split; [|repeat eexists; set_solver]. intros (_ & _ & Hk). specialize (Hk id eq_refl). by rewrite Eb in Hk.
Qed.

Lemma auth_spec {W B : Type} auth (next : @Next (RateLimitState * W) B) r l w :
  (∃ r', identified auth r r' ∧ auth_middleware next (with_auth r auth) (l, w) = next r' (l, w)) ∨
  ((∀ r', ¬ identified auth r r') ∧ refused w (auth_middleware next (with_auth r auth) (l, w))).
Proof.
  unfold auth_middleware, identified, refused, auth_validate. change (ext_auth (with_auth r auth)) with (Some auth).
  change (path (with_auth r auth)) with (path r). change (extract_api_key (with_auth r auth)) with (extract_api_key r).
  cbv beta iota.
  destruct (auth_enabled auth) eqn:He; cbn [negb andb]; [|left; by exists (with_auth r auth)].
  destruct (is_public_path (path r)) eqn:Hp; cbn [negb]; [left; by exists (with_auth r auth)|].
  destruct (extract_api_key r) as [k|]; [|right; split; [by intros ? (? & ? & [=] & _)|]; repeat eexists; set_solver].
  destruct (auth !! k) as [e|] eqn:Ek; [left; exists (with_identity (with_auth r auth) (mkAuth (key_identity e) (key_role e))); split; [by exists k, e|done]|].
  right. split; [intros ? (? & ? & [= <-] & ? & _); congruence|]. repeat eexists; set_solver.
Qed.
End Guard.

Section SignatureGuard.
Context `{G : Governor} `{H : Hmac} `{HT : !HmacTotal H}.

Definition timestamp_of (r : Request) : option N := header_text r "x-fuse-timestamp" ≫= parse_u64.

(** What a request needs for its signature: nothing on public paths, on
    other methods than POST and where signing is off. *)
Definition signature_fits (now : N) (r : Request) : Prop :=
  ∀ c, ext_signing r = Some c → secrets c ≠ [] → is_public_path (path r) = false → method r = "POST" →
    (N.of_nat (String.length (req_body r)) ≤ 10485760)%N ∧ recent c (timestamp_of r) now ∧
    ∃ sig hex tag k, header_text r "x-fuse-signature" = Some sig ∧ str_strip_prefix "sha256=" sig = Some hex ∧
      hex_decode hex = Some tag ∧ k ∈ secrets c ∧ mac_of (secret k) (build_payload (timestamp_of r) (req_body r)) = Some tag.

Lemma signing_spec {W B : Type} now (next : @Next (RateLimitState * W) B) r l w :
  (signature_fits now r ∧ signing_middleware now next r (l, w) = next r (l, w)) ∨
  (¬ signature_fits now r ∧ refused w (signing_middleware now next r (l, w))).
Proof.
  unfold signing_middleware, signature_fits, refused. destruct (ext_signing r) as [c|] eqn:Ec; [|left; split; [done|done]].
  destruct (signing_enabled c) eqn:He; cbn [negb].
  2:{ left. split; [|done]. intros ? [= <-] Hs. unfold signing_enabled in He. destruct (secrets c); [done|discriminate He]. }
  destruct (is_public_path (path r)) eqn:Hp; [left; split; [done|done]|].
  destruct (bool_decide (method r = "POST")) eqn:Hm; cbn [negb];
    [apply bool_decide_eq_true in Hm|apply bool_decide_eq_false in Hm; left; split; [done|done]].
  assert (secrets c ≠ []) as Hne by (unfold signing_enabled in He; by destruct (secrets c)).
  change (10 * 1024 * 1024)%N with 10485760%N. destruct (10485760 <? _)%N eqn:Hsz.
  { right. apply N.ltb_lt in Hsz. split; [intros Hf; destruct (Hf c) as [? _]; auto; lia|]. repeat eexists. set_solver. }
  apply N.ltb_ge in Hsz. destruct (header_text r "x-fuse-signature") as [sig|] eqn:Hsig.
  2:{ right. split; [intros Hf; destruct (Hf c) as (_ & _ & ? & ? & ? & ? & ? & _); auto; congruence|]. repeat eexists. set_solver. }
  fold (timestamp_of r). destruct (verify_signature _ _ _ _ _) as [e|[]] eqn:Hv.
  - right. split; [|repeat eexists; set_solver]. intros Hf.
    destruct (Hf c) as (_ & Hr & ? & hex & tag & k & [= <-] & Hx); auto.
    assert (verify_signature c sig (timestamp_of r) (req_body r) now = inr tt) as Hok; [|congruence].
    apply verify_iff; [done|]. split; [done|]. by exists hex, tag, k.
  - left. split; [|done]. intros ? [= <-] _ _ _. apply verify_iff in Hv as (Hr & hex & tag & k & Hx); [|done].
    split; [done|]. split; [done|]. by exists sig, hex, tag, k.
Qed.

End SignatureGuard.

(** C15: The routes are reached exactly by the requests that may reach them:
    a request that needs a signature has one of a configured key over its own
    body, recent where it is dated; one that needs a key has a configured one,
    and the routes see exactly the identity and role of that key and no other;
    and the global, address and key limits have room for it. Any other request
    is refused with 401, 413 or 429, and nothing the handlers keep changes. *)
Theorem routes_are_guarded `{G : Governor} `{H : Hmac} `{HT : !HmacTotal H} show_ip {W B : Type} auth now
    (routes : @Next (RateLimitState * W) B) r l w :
  (∃ r' l', signature_fits now r ∧ identified auth r r' ∧ within_limits show_ip l now r' ∧
     layers show_ip auth now routes r (l, w) = routes r' (l', w)) ∨
  (refused w (layers show_ip auth now routes r (l, w)) ∧
   (signature_fits now r → ∀ r', identified auth r r' → ¬ within_limits show_ip l now r')).
Proof.
  unfold layers.
  destruct (signing_spec now (auth_middleware (rate_limit_middleware show_ip now routes)) (with_auth r auth) l w) as [[Hs ->]|[Hs Hr]].
  2:{ right. split; [exact Hr|]. intros Hf. by destruct Hs. }
  destruct (auth_spec auth (rate_limit_middleware show_ip now routes) r l w) as [(r' & Hi & ->)|[Hi Hr]].
  2:{ right. split; [exact Hr|]. intros _ r' Hr'. by destruct (Hi r'). }
  destruct (rate_spec show_ip now routes r' l w) as [(Hw & l' & ->)|[Hw Hr]].
  - left. exists r', l'. done.
  - right. split; [exact Hr|]. intros _ r'' Hr'' Hw'. apply Hw.
    revert Hi Hr''. unfold identified. destruct (_ && _); [|intros -> ->; done].
    intros (k & e & Hk & He & ->) (k' & e' & Hk' & He' & ->). congruence.
Qed.

(** ** Key rotation *)

(** Every entry of the map is visited once. *)
Definition visits_all {A : Type} (iter : gmap string A → list (string * A)) : Prop := ∀ m, iter m ≡ₚ map_to_list m.

Inductive KeyOp : Type :=
| DoRotate (identity : string) (grace_secs now nanos unix : N)
| DoValidate (key : string) (now : N).

Definition op_time (o : KeyOp) : N := match o with DoRotate _ _ now _ _ => now | DoValidate _ now => now end.

Section Rotation.
Context (iter : gmap string ApiKeyEntry → list (string * ApiKeyEntry)) (Hiter : visits_all iter).

Definition key_step (st : RotationState) (o : KeyOp) : RotationState :=
  match o with
  | DoRotate who g now nanos unix => (Access.rotate iter st who g now nanos unix).2
  | DoValidate k now => (rotation_validate st k now).2
  end.

(** The ledger: every key that was ever issued, with the end of its life
    once it has been replaced.  A rotation whose grace period ends beyond the
    clock closes it: no key is known from then on. *)
Definition Lease : Type := ApiKeyEntry * option N.

Definition holds (who : string) (x : Lease) : bool := bool_decide (x.2 = None) && bool_decide (key_identity x.1 = who).
Definition end_lease (who : string) (until : N) (x : Lease) : Lease := if holds who x then (x.1, Some until) else x.

Definition ledger_step (L : list Lease) (o : KeyOp) : list Lease :=
  match o with
  | DoRotate who g now nanos _ =>
      match List.find (holds who) L with
      | Some (e, _) =>
          if (2 ^ 63 - 1 <? now + g)%N then [] else
          (end_lease who (now + g) <$> L) ++ [(mkKey (generate_api_key nanos) who (key_role e), None)]
      | None => L
      end
  | DoValidate _ _ => L
  end.

(** The entry a key stands for at a time. *)
Definition lease_live (now : N) (x : Lease) : bool := match x.2 with None => true | Some t => (now <? t)%N end.
Definition lease_of (key : string) (now : N) (x : Lease) : bool := bool_decide (api_key x.1 = key) && lease_live now x.
Definition ledger_lookup (L : list Lease) (key : string) (now : N) : option ApiKeyEntry :=
  fst <$> List.find (lease_of key now) L.

(** Keys are issued once, and an identity has one key at a time. *)
Definition ledger_ok (L : list Lease) : Prop :=
  NoDup ((λ x : Lease, api_key x.1) <$> L) ∧
  ∀ e e', (e, None) ∈ L → (e', None) ∈ L → key_identity e = key_identity e' → e = e'.

Definition tracks (st : RotationState) (L : list Lease) (now : N) : Prop :=
  poisoned st = false ∧
  (∀ k e, active st !! k = Some e ↔ (e, None) ∈ L ∧ api_key e = k) ∧
  (∀ e t, (now < t)%N → mkGrace e t ∈ grace st ↔ (e, Some t) ∈ L).
Definition represents (st : RotationState) (L : list Lease) (now : N) : Prop :=
  (poisoned st = true ∧ L = []) ∨ tracks st L now.

Lemma find_elem {A : Type} (f : A → bool) l x : List.find f l = Some x → x ∈ l ∧ f x = true.
Proof. intros Hf. apply List.find_some in Hf as [Hi Hx]. split; [by apply list_elem_of_In|done]. Qed.
Lemma find_no_elem {A : Type} (f : A → bool) l x : List.find f l = None → x ∈ l → f x = false.
Proof. intros Hf Hx. apply (List.find_none _ _ Hf). by apply list_elem_of_In. Qed.

Lemma ledger_key_unique L x y : ledger_ok L → x ∈ L → y ∈ L → api_key x.1 = api_key y.1 → x = y.
Proof.
  intros [Hnd _] Hx Hy E. apply list_elem_of_lookup in Hx as [i Hi]. apply list_elem_of_lookup in Hy as [j Hj].
  assert (i = j) as ->; [|congruence]. apply (NoDup_lookup _ i j (api_key x.1) Hnd); apply list_lookup_fmap_Some; eauto.
Qed.

(** What [validate] answers is the entry of the ledger. *)
Lemma validate_lookup st L key now : ledger_ok L → represents st L now →
  (rotation_validate st key now).1 = ledger_lookup L key now.
Proof.
  intros Hok [[Hp ->]|(Hp & Ha & Hg)]; unfold rotation_validate, ledger_lookup; rewrite Hp; [done|]. cbn [active grace].
  destruct (List.find (lease_of key now) L) as [[e u]|] eqn:Ef.
  - apply find_elem in Ef as [He Hb]. apply andb_prop in Hb as [Hk Hl]. apply bool_decide_eq_true in Hk. cbn in Hk.
    destruct u as [t|].
    + cbn in Hl. apply N.ltb_lt in Hl. destruct (active st !! key) as [e'|] eqn:Ea.
      { apply Ha in Ea as [He' Hk']. assert ((e', None) = (e, Some t)) as [=]. apply (ledger_key_unique L); [done..|]. cbn. congruence. }
      cbn [fst]. destruct (List.find _ (filter _ _)) as [[e' t']|] eqn:Eg; cbn.
      * apply find_elem in Eg as [Hg' Hk']. apply list_elem_of_filter in Hg' as [Ht' Hg']. cbn in Ht', Hk'.
        apply bool_decide_eq_true in Hk'. apply Hg in Hg'; [|done].
        assert ((e', Some t') = (e, Some t)) as [= -> _]; [|done]. apply (ledger_key_unique L); [done..|]. cbn. congruence.
      * apply Hg in He; [|done]. apply (find_no_elem _ _ (mkGrace e t)) in Eg; [|by apply list_elem_of_filter].
        cbn in Eg. by apply bool_decide_eq_false in Eg.
    + assert (active st !! key = Some e) as -> by (apply Ha; done). done.
  - pose proof (λ x, find_no_elem _ _ x Ef) as Hn. destruct (active st !! key) as [e|] eqn:Ea.
    { apply Ha in Ea as [He Hk]. apply Hn in He. unfold lease_of in He. cbn in He. rewrite (bool_decide_eq_true_2 _ Hk) in He. done. }
    cbn [fst]. destruct (List.find _ (filter _ _)) as [[e t]|] eqn:Eg; [|reflexivity]. apply find_elem in Eg as [Hg' Hk]. cbn in Hk.
    apply bool_decide_eq_true in Hk. apply list_elem_of_filter in Hg' as [Ht Hg']. cbn in Ht. apply Hg in Hg'; [|done].
    apply Hn in Hg'. unfold lease_of in Hg'. cbn in Hg'. rewrite (bool_decide_eq_true_2 _ Hk) in Hg'. cbn in Hg'. apply N.ltb_ge in Hg'. lia.
Qed.

Lemma validate_represents st L key t now : represents st L t → (t ≤ now)%N → represents (rotation_validate st key now).2 L now.
Proof.
  intros [[Hp ->]|(Hp & Ha & Hg)] Ht; unfold rotation_validate; rewrite Hp; [by left|]. cbn [active grace].
  assert (represents (mkRotation (active st) (filter (λ g, (now < expires_at g)%N) (grace st)) false) L now) as Hr.
  { right. split; [done|]. split; [exact Ha|]. intros e u Hu. cbn [grace]. rewrite list_elem_of_filter. cbn. rewrite Hg by lia. tauto. }
  by destruct (active st !! key).
Qed.
Lemma ended_active who u (L : list Lease) e : (e, None) ∈ end_lease who u <$> L ↔ (e, None) ∈ L ∧ key_identity e ≠ who.
Proof.
  rewrite list_elem_of_fmap. unfold end_lease, holds. split.
  - intros ([e' o] & E & He). cbn [fst snd] in E. destruct o; [by destruct (_ && _)|]. rewrite (bool_decide_eq_true_2 (None = None)) in E by done.
    cbn [andb] in E. destruct (bool_decide _) eqn:Hb; [done|]. apply bool_decide_eq_false in Hb. by injection E as ->.
  - intros [He Hw]. exists (e, None). cbn [fst snd]. by rewrite (bool_decide_eq_false_2 _ Hw), andb_false_r.
Qed.

Lemma ended_grace who u (L : list Lease) e t :
  (e, Some t) ∈ end_lease who u <$> L ↔ (e, Some t) ∈ L ∨ ((e, None) ∈ L ∧ key_identity e = who ∧ t = u).
Proof.
  rewrite list_elem_of_fmap. unfold end_lease, holds. split.
  - intros ([e' o] & E & He). cbn [fst snd] in E. destruct o as [t'|].
    + rewrite (bool_decide_eq_false_2 (Some t' = None)) in E by done. cbn [andb] in E. injection E as -> ->. by left.
    + rewrite (bool_decide_eq_true_2 (None = None)) in E by done. cbn [andb] in E. destruct (bool_decide _) eqn:Hb; [|done].
      apply bool_decide_eq_true in Hb. right. injection E as -> ->. done.
  - intros [He|(He & Hw & ->)].
    + exists (e, Some t). cbn [fst snd]. by rewrite (bool_decide_eq_false_2 (Some t = None)).
    + exists (e, None). cbn [fst snd]. by rewrite (bool_decide_eq_true_2 _ Hw).
Qed.

Lemma ended_keys who u (L : list Lease) : (λ x : Lease, api_key x.1) <$> (end_lease who u <$> L) = (λ x : Lease, api_key x.1) <$> L.
Proof. rewrite <- list_fmap_compose. apply list_fmap_ext. intros _ [e o] _. unfold end_lease. cbn. by destruct (holds who (e, o)). Qed.

Lemma active_elem st L now e : tracks st L now → e ∈ (iter (active st)).*2 ↔ (e, None) ∈ L.
Proof.
  intros (_ & Ha & _). rewrite list_elem_of_fmap. split.
  - intros ([k e'] & -> & He). rewrite (Hiter (active st)), elem_of_map_to_list in He. by apply Ha in He as [? _].
  - intros He. exists (api_key e, e). rewrite (Hiter (active st)), elem_of_map_to_list. split; [done|]. by apply Ha.
Qed.

Lemma holds_iff who e o : holds who (e, o) = true ↔ o = None ∧ key_identity e = who.
Proof. unfold holds. cbn. by rewrite andb_true_iff, !bool_decide_eq_true. Qed.

(** The key that is rotated is the one the ledger has for the identity. *)
Lemma rotate_finds st L now who : ledger_ok L → tracks st L now →
  List.find (λ e, bool_decide (key_identity e = who)) (iter (active st)).*2 = fst <$> List.find (holds who) L.
Proof.
  intros Hok Hr. destruct (List.find (holds who) L) as [[e o]|] eqn:EL; cbn.
  - apply find_elem in EL as [He Hh]. apply holds_iff in Hh as [-> Hw].
    destruct (List.find _ (iter _).*2) as [e'|] eqn:Ea.
    + apply find_elem in Ea as [He' Hw']. apply (active_elem st L now) in He'; [|done]. apply bool_decide_eq_true in Hw'.
      f_equal. apply (proj2 Hok); [done..|congruence].
    + apply (find_no_elem _ _ e) in Ea; [by apply bool_decide_eq_false in Ea|]. by apply (active_elem st L now).
  - destruct (List.find _ (iter _).*2) as [e|] eqn:Ea; [|done]. apply find_elem in Ea as [He Hw]. apply bool_decide_eq_true in Hw.
    apply (active_elem st L now) in He; [|done]. apply (find_no_elem _ _ _ EL) in He.
    assert (holds who (e, None) = true) as Hh by by apply holds_iff. congruence.
Qed.

Lemma rotate_represents st L t who g now nanos unix : ledger_ok L → represents st L t → (t ≤ now)%N →
  generate_api_key nanos ∉ ((λ x : Lease, api_key x.1) <$> L) →
  ledger_ok (ledger_step L (DoRotate who g now nanos unix)) ∧
  represents (key_step st (DoRotate who g now nanos unix)) (ledger_step L (DoRotate who g now nanos unix)) now.
Proof.
  intros Hok [[Hp ->]|Hr] Ht Hf; cbn [key_step ledger_step]; unfold Access.rotate.
  { rewrite Hp. split; [done|]. by left. }
  pose proof Hr as (Hp & Ha & Hg). rewrite Hp, (rotate_finds st L t who Hok Hr).
  destruct (List.find (holds who) L) as [[e o]|] eqn:EL; cbn [fmap option_fmap option_map fst snd].
  2:{ split; [done|]. right. split; [done|]. split; [exact Ha|]. intros e u Hu. apply Hg. lia. }
  change INSTANT_MAX with (2 ^ 63 - 1)%N. destruct (2 ^ 63 - 1 <? now + g)%N.
  { split; [|by left]. split; [constructor|]. intros x y Hx. by apply not_elem_of_nil in Hx. }
  apply find_elem in EL as [He Hh]. apply holds_iff in Hh as [-> Hw].
  set (nk := generate_api_key nanos) in *. set (ne := mkKey nk who (key_role e)). rewrite Hw. fold ne.
  assert (∀ x, (x, None) ∈ L → api_key x ≠ nk) as Hfresh.
  { intros x Hx E. apply Hf. apply list_elem_of_fmap. by exists (x, None). }
  split; [split|right; split; [done|split]].
  - rewrite fmap_app, ended_keys. apply NoDup_app. split; [apply Hok|]. split; [|apply NoDup_singleton].
    intros k Hk Hk'. apply list_elem_of_singleton in Hk'. by rewrite Hk' in Hk.
  - intros x y. rewrite !elem_of_app, !ended_active, !list_elem_of_singleton.
    intros [[Hx Hxw]|[= ->]] [[Hy Hyw]|[= ->]] E; [by apply (proj2 Hok)|by destruct Hxw|by destruct Hyw|done].
  - intros k x. cbn [active snd]. rewrite lookup_insert_Some, lookup_delete_Some, elem_of_app, ended_active, list_elem_of_singleton, Ha.
    split.
    + intros [[<- <-]|(Hk & Hd & Hx & Hkx)]; [by split; [right|]|]. split; [left; split; [done|]|done].
      intros Hxw. apply Hd. assert (x = e) as -> by (apply (proj2 Hok); [done..|congruence]). done.
    + intros [[[Hx Hxw]|[= ->]] Hk]; [right|by left]. split; [intros ->; by apply (Hfresh x)|]. split; [|done].
      intros E. apply Hxw. assert ((x, None) = (e, None) :> Lease) as [= ->]; [|done]. apply (ledger_key_unique L); [done..|]. cbn. congruence.
  - intros x u Hu. cbn [grace snd]. rewrite !elem_of_app, !list_elem_of_singleton, ended_grace, (Hg x u) by lia. split.
    + intros [?|[= -> ->]]; [by left; left|]. by left; right.
    + intros [[?|(Hx & Hxw & ->)]|[=]]; [by left|]. right. f_equal. apply (proj2 Hok); [done..|congruence].
Qed.

(** Entries with distinct keys are found under their keys. *)
Lemma auth_new_lookup entries k e : NoDup (api_key <$> entries) →
  auth_new entries !! k = Some e ↔ e ∈ entries ∧ api_key e = k.
Proof.
  unfold auth_new. induction entries as [|x l IH] using rev_ind; intros Hnd.
  - cbn [foldl]. rewrite lookup_empty. split; [done|]. intros [He _]. by apply not_elem_of_nil in He.
  - rewrite foldl_snoc, lookup_insert_Some, elem_of_app, list_elem_of_singleton.
    rewrite fmap_app in Hnd. apply NoDup_app in Hnd as (Hnd & Hd & _). rewrite (IH Hnd). split.
    + intros [[<- <-]|(Hk & He & <-)]; [by split; [right|]|]. by split; [left|].
    + intros [[He| ->] Hk]; [right|by left]. split; [|done]. intros Hx. apply (Hd (api_key e)).
      * by apply list_elem_of_fmap_2.
      * apply list_elem_of_singleton. congruence.
Qed.

(** A key that is made is new. *)
Fixpoint keys_fresh (L : list Lease) (ops : list KeyOp) : Prop :=
  match ops with
  | [] => True
  | o :: ops =>
      match o with DoRotate _ _ _ nanos _ => generate_api_key nanos ∉ ((λ x : Lease, api_key x.1) <$> L) | _ => True end ∧
      keys_fresh (ledger_step L o) ops
  end.

Lemma run_represents ops : ∀ st L t now, ledger_ok L → represents st L t → keys_fresh L ops →
  StronglySorted N.le ((t :: (op_time <$> ops)) ++ [now]) →
  ledger_ok (foldl ledger_step L ops) ∧ represents (foldl key_step st ops) (foldl ledger_step L ops) now.
Proof.
  induction ops as [|o ops IH]; intros st L t now Hok Hr Hf Hs; cbn [app fmap list_fmap] in Hs.
  - split; [done|]. apply StronglySorted_inv in Hs as [_ Hs]. apply Forall_cons in Hs as [Hle _]. destruct Hr as [?|(Hp & Ha & Hg)]; [by left|right].
    split; [done|]. split; [exact Ha|]. intros e u Hu. apply Hg. lia.
  - apply StronglySorted_inv in Hs as [Hs Hle]. apply Forall_cons in Hle as [Hle _]. destruct Hf as [Hn Hf]. cbn [foldl].
    assert (ledger_ok (ledger_step L o) ∧ represents (key_step st o) (ledger_step L o) (op_time o)) as [Hok' Hr'].
    { destruct o as [who g now' nanos unix|k now']; [by apply (rotate_represents st L t)|].
      split; [done|]. by apply (validate_represents st L k t). }
    by apply (IH _ _ (op_time o)).
Qed.
End Rotation.

(** C16: Key rotation keeps its promise: after any sequence of rotations and
    validations in the order of time, a key is accepted exactly when it was
    issued and either is still its identity's key or was replaced and its
    grace period is not over, and it stands for the identity and role it was
    issued with; a rotation changes no other identity's key.  The initial keys
    and their identities differ, and a key that is made is new.  A rotation
    whose grace period ends beyond the last second of the steady clock panics
    with the lock held, and from then on no key is accepted. *)
Theorem rotation_refines_ledger iter initial ops key now :
  visits_all iter → NoDup (api_key <$> initial) → NoDup (key_identity <$> initial) →
  let L := (λ e, (e, None)) <$> initial in
  keys_fresh L ops → StronglySorted N.le ((op_time <$> ops) ++ [now]) →
  (rotation_validate (foldl (key_step iter) (rotation_new initial) ops) key now).1 =
    ledger_lookup (foldl ledger_step L ops) key now.
Proof.
  intros Hit Hk Hi L Hf Hs. 
  assert (ledger_ok L) as Hok.
  { unfold L. split; [by rewrite <- list_fmap_compose|]. intros e e' He He' E.
    apply list_elem_of_fmap in He as (? & [= <-] & He). apply list_elem_of_fmap in He' as (? & [= <-] & He').
    apply list_elem_of_lookup in He as [i Hei]. apply list_elem_of_lookup in He' as [j Hej].
    assert (i = j) as ->; [|congruence]. apply (NoDup_lookup _ i j (key_identity e) Hi); apply list_lookup_fmap_Some; eauto. }
  assert (represents (rotation_new initial) L 0) as Hr.
  { right. split; [done|]. split; cbn [rotation_new active grace].
    - intros k e. rewrite (auth_new_lookup initial k e Hk). unfold L. rewrite list_elem_of_fmap.
      split; [intros [He <-]; split; [by exists e|done]|intros [(? & [= <-] & He) <-]; done].
    - intros e t _. split; [by intros ?%not_elem_of_nil|]. intros He. by apply list_elem_of_fmap in He as (? & [=] & _). }
  destruct (run_represents iter Hit ops (rotation_new initial) L 0 now Hok Hr Hf) as [Hok' Hr'].
  - cbn [app]. constructor; [exact Hs|]. apply Forall_forall. intros n _. lia.
  - by apply validate_lookup.
Qed.

(** A rotation whose grace period ends beyond the steady clock takes every key
    with it: the request panics with the lock held, and no key, old or new, is
    accepted afterwards. *)
Lemma long_grace_period_refuses_everyone iter st who g now nanos unix e key later :
  poisoned st = false →
  List.find (λ e, bool_decide (key_identity e = who)) (iter (active st)).*2 = Some e →
  (INSTANT_MAX < now + g)%N →
  (Access.rotate iter st who g now nanos unix).1 = Panic ∧
  (rotation_validate (Access.rotate iter st who g now nanos unix).2 key later).1 = None.
Proof.
  intros Hp Hf Hg. unfold Access.rotate. rewrite Hp, Hf. apply N.ltb_lt in Hg as ->. done.
Qed.

(** ** The router *)

(** The router admits everyone: it attaches an authentication state
    without keys and no signing configuration, so every request that the
    limits have room for reaches its route, whatever key or signature it
    carries or lacks, and without an identity; the tenant of a query is then
    what the query's own parameters say, and the endpoint that rotates keys
    rotates them for anyone. *)
Theorem router_admits_everyone `{G : Governor} `{H : Hmac} show_ip {W B : Type} now (routes : @Next (RateLimitState * W) B) r l w :
  ext_signing r = None → ext_identity r = None → within_limits show_ip l now r →
  ∃ r' l', build_router show_ip now routes r (l, w) = routes r' (l', w) ∧ ext_identity r' = None ∧
    req_body r' = req_body r ∧
    (∀ qr, tenant_of (ext_identity r') qr = string_param qr "_tenant_id") ∧
    (∀ iter st who g t nanos unix,
       (rotate_key_handler iter st (ext_identity r') who g t nanos unix).2 =
       (Access.rotate iter st who (default 3600%N g) t nanos unix).2).
Proof.
  intros Hs Hid Hw. unfold build_router, layers, signing_middleware. cbn [ext_signing with_auth]. rewrite Hs.
  unfold auth_middleware. cbn [ext_auth with_auth]. change (auth_enabled auth_disabled) with false. cbn [negb].
  destruct (rate_spec show_ip now routes (with_auth r auth_disabled) l w) as [(_ & l' & Hl)|[Hn _]]; [|by destruct Hn].
  exists (with_auth r auth_disabled), l'. cbn [with_auth ext_identity req_body] in *. split; [by rewrite <- Hl|]. rewrite Hid.
  repeat split. intros iter st who g t nanos unix. unfold rotate_key_handler. cbn.
  by destruct (Access.rotate iter st who (default 3600%N g) t nanos unix) as [[[]| |]].
Qed.

(** ** Instances and witnesses *)

(** A code that shows its key and text, and a quota that never refills. *)
Definition plain_hmac : Hmac := {| hmac_new := λ k, Some (λ p, k +:+ "|" +:+ p) |}.
#[export] Instance plain_hmac_total : HmacTotal plain_hmac.
Proof. constructor. intros k. by eexists. Qed.

Definition count_governor : Governor := {|
  bucket := N; bucket_new := λ rpm, rpm; bucket_check := λ b _, if (b =? 0)%N then (false, b) else (true, (b - 1)%N) |}.

Definition ex_signing : SigningConfig := mkSigning [mkSigningKey "k1" "s3cret"] 300.
Definition ex_limits : @RateLimitState count_governor := @mkLimits count_governor 2%N ∅ ∅ 2 2.
Definition ex_req (headers : list (string * string)) (body : string) (c : option SigningConfig) : Request :=
  mkRequest "POST" "/api/fuse/query" (λ k, Some <$> (list_to_map headers : gmap string string) !! k) body None c None.
Definition ex_routes : @Next (@RateLimitState count_governor * nat) string :=
  λ r '(l, n), ((l, S n), Served (default "anonymous" (auth_identity <$> ext_identity r))).
Definition ex_keys : list ApiKeyEntry := [mkKey "key-alice" "alice" AdminRole; mkKey "key-bob" "bob" Viewer].
Definition ex_show (ip : IpAddr) : string := match ip with V4 a => show_v4 a | V6 _ => "v6" end.


Lemma timestamp_moves_into_body_witness :
  verify_signature (H := plain_hmac) ex_signing ("sha256=" +:+ hex_encode "s3cret|1000.hello") None "1000.hello" 999999 = inr tt.
Proof.
  apply (timestamp_moves_into_body (H := plain_hmac) ex_signing (mkSigningKey "k1" "s3cret") 1000 "hello"); [left|reflexivity].
Defined.

Lemma routes_are_guarded_witness :
  refused (G := count_governor) 0 (layers (G := count_governor) (H := plain_hmac) ex_show (auth_new ex_keys) 7 ex_routes
    (ex_req [("x-api-key", "key-eve")] "{}" None) (ex_limits, 0)).
Proof.
  destruct (routes_are_guarded (G := count_governor) (H := plain_hmac) ex_show (auth_new ex_keys) 7 ex_routes
    (ex_req [("x-api-key", "key-eve")] "{}" None) ex_limits 0) as [(r' & l' & _ & Hi & _)|[Hr _]]; [|exact Hr].
  unfold identified in Hi. destruct (_ && _) eqn:Hc in Hi; [|vm_compute in Hc; discriminate Hc].
  destruct Hi as (k & e & Hk & He & _). vm_compute in Hk. injection Hk as <-. by vm_compute in He.
Defined.

Lemma rotation_refines_ledger_witness :
  let st := foldl (key_step map_to_list) (rotation_new ex_keys) [DoRotate "alice" 300 10 123456789 0; DoValidate "key-bob" 20] in
  (rotation_validate st "key-alice" 200).1 = Some (mkKey "key-alice" "alice" AdminRole) ∧
  (rotation_validate st "key-alice" 400).1 = None ∧
  (rotation_validate st (generate_api_key 123456789) 400).1 = Some (mkKey (generate_api_key 123456789) "alice" AdminRole).
Proof.
  intros st.
  assert (∀ key now, (20 ≤ now)%N → (rotation_validate st key now).1 = ledger_lookup (foldl ledger_step ((λ e, (e, None)) <$> ex_keys)
      [DoRotate "alice" 300 10 123456789 0; DoValidate "key-bob" 20]) key now) as Hl.
  { intros key now Hn. apply rotation_refines_ledger.
    - intros m. reflexivity.
    - by apply (bool_decide_eq_true_1 (NoDup _)).
    - by apply (bool_decide_eq_true_1 (NoDup _)).
    - split; [|done]. apply (bool_decide_unpack _). vm_compute. exact I.
    - cbn. repeat constructor; lia. }
  rewrite !Hl by lia. by vm_compute.
Defined.

Lemma router_admits_everyone_witness :
  ∃ r' l', build_router (G := count_governor) (H := plain_hmac) ex_show 7 ex_routes (ex_req [("x-api-key", "key-eve")] "{}" None) (ex_limits, 0)
    = ex_routes r' (l', 0) ∧ ext_identity r' = None.
Proof.
  destruct (router_admits_everyone (G := count_governor) (H := plain_hmac) ex_show 7 ex_routes
    (ex_req [("x-api-key", "key-eve")] "{}" None) ex_limits 0) as (r' & l' & Hr & Hid & _); [done|done|by repeat split|].
  by exists r', l'.
Defined.

(** A request whose key is refused does not count against any limit, so
    keys can be guessed without being slowed down. *)
Lemma refused_keys_uncounted `{G : Governor} `{H : Hmac} show_ip {W B : Type} auth now (routes : @Next (RateLimitState * W) B) r l w k :
  ext_signing r = None → auth_enabled auth = true → is_public_path (path r) = false →
  extract_api_key r = Some k → auth !! k = None →
  layers show_ip auth now routes r (l, w) = ((l, w), unauthorized "invalid API key").
Proof.
  intros Hs He Hp Hk Ha. unfold layers, signing_middleware. change (ext_signing (with_auth r auth)) with (ext_signing r). rewrite Hs.
  unfold auth_middleware, auth_validate. change (ext_auth (with_auth r auth)) with (Some auth).
  change (path (with_auth r auth)) with (path r). change (extract_api_key (with_auth r auth)) with (extract_api_key r).
  cbv beta iota. by rewrite He, Hp, Hk, Ha.
Qed.

(** The client names the address it is counted under. *)
Lemma forwarded_header_decides show_ip r s ip : header_text r "x-forwarded-for" = Some s →
  parse_ip (trim (QueryText.first_part (is_char ",") s)) = Some ip → ip_key show_ip r = show_ip ip.
Proof. intros Hh Hp. unfold ip_key, extract_ip. rewrite Hh. cbn. by rewrite Hp. Qed.

(** A request that the limit of its address refuses has used up a call of
    the limit that all clients share. *)
Example refused_address_counts_globally :
  let spent := @mkLimits count_governor 2%N {["0.0.0.0" := 0%N]} ∅ 2 2 in
  (@global count_governor (layers (G := count_governor) (H := plain_hmac) ex_show ∅ 7 ex_routes (ex_req [] "{}" None) (spent, 0)).1.1) = 1%N.
Proof. by vm_compute. Qed.

(** The plus sign of Rust's integer parser makes a second text of a code. *)
Example plus_sign_is_hex : hex_decode "+f" = hex_decode "0f".
Proof. done. Qed.
