(* ===== verification/Webhooks.v ===== *)
(** * Webhooks: subscriptions and their delivery

    Models [crates/fuse-server/src/webhook.rs]: the registry of subscriptions,
    the dead-letter queue, conditions, delivery with retries and the endpoints
    that create, delete and test a subscription.  The HTTP client, SHA-256,
    the secret in the environment and [f64::powi] are parameters; what a
    delivery does is the list of its events. *)

From S2P Require Import Prelude Strs Float Ppl SqlToSubquery Json Arrow Connector Errors Rewrite Merger Join JsonRef ArrowRef FederateCorrect.
From S2P Require Import NetAddr QueryText Security Results Federate QueryHandler Access.
From stdpp Require Import base list strings gmap pretty relations.
From Stdlib Require Import NArith ZArith Lia Ascii SpecFloat.

(** ** Retries *)

Record RetryConfig : Type := mkRetry {
  max_retries : N; initial_backoff_ms : N; backoff_multiplier : f64; max_backoff_ms : N }.

(** [RetryConfig::default()]. *)
Definition retry_default : RetryConfig := mkRetry 5 500 (f64_of_N 2) 30000.

(** ** The dead-letter queue *)

Record DeadLetterEntry : Type := mkDead {
  dl_subscription : string; dl_url : string; dl_payload : Value; dl_attempts : N; dl_error : string; failed_at : N }.

Record DeadLetterQueue : Type := mkDlq { dlq_entries : list DeadLetterEntry; dlq_max : nat }.

Definition dlq_new (max_entries : nat) : DeadLetterQueue := mkDlq [] max_entries.

(** [push]; taking the oldest entry out of an empty queue panics. *)
Definition dlq_push (q : DeadLetterQueue) (e : DeadLetterEntry) : outcome string DeadLetterQueue :=
  if dlq_max q <=? length (dlq_entries q) then
    match dlq_entries q with
    | [] => Panic
    | _ :: rest => Ok (mkDlq (rest ++ [e]) (dlq_max q))
    end
  else Ok (mkDlq (dlq_entries q ++ [e]) (dlq_max q)).

Definition dlq_len (q : DeadLetterQueue) : nat := length (dlq_entries q).
Definition dlq_clear (q : DeadLetterQueue) : DeadLetterQueue := mkDlq [] (dlq_max q).

(** ** Conditions *)

Inductive ThresholdOp : Type := TGt | TGte | TLt | TLte | TEq.
Inductive WebhookCondition : Type :=
| RowsReturned
| Threshold (column : string) (operator : ThresholdOp) (value : f64).

Definition evaluate_op (op : ThresholdOp) (actual threshold : f64) : bool :=
  match op with
  | TGt => fltb threshold actual
  | TGte => fleb threshold actual
  | TLt => fltb actual threshold
  | TLte => fleb actual threshold
  | TEq => fltb (SFabs (fsub actual threshold)) f_epsilon
  end.

Definition evaluate_condition `{J : JsonOps} (c : WebhookCondition) (columns : list string) (rows : list (list Value)) : bool :=
  match c with
  | RowsReturned => negb (bool_decide (length rows = 0))
  | Threshold column op value =>
      match list_find (λ n, n = column) columns with
      | None => false
      | Some (i, _) =>
          match (head rows ≫= λ cells : list Value, cells !! i) ≫= as_f64 with
          | Some actual => evaluate_op op actual value
          | None => false
          end
      end
  end.

(** ** Subscriptions *)

Record WebhookSubscription : Type := mkSub {
  sub_id : string; sub_name : string; sub_query : string; sub_format : string; condition : WebhookCondition;
  callback_url : string; enabled : bool; fire_count : N; last_evaluated : option N; last_error : option string;
  retry_config : RetryConfig }.

Record WebhookPayload : Type := mkPayload {
  wp_subscription : string; wp_name : string; wp_query : string; wp_row_count : N; wp_columns : list string;
  sample_rows : list (list Value); fired_at : N }.

(** The JSON value of a payload, its members in the order of the struct. *)
Definition payload_value (p : WebhookPayload) : Value :=
  JObject [("subscription_id", JString (wp_subscription p)); ("subscription_name", JString (wp_name p));
           ("query", JString (wp_query p)); ("row_count", JNumber (NInt (Z.of_N (wp_row_count p))));
           ("columns", JArray (JString <$> wp_columns p)); ("sample_rows", JArray (JArray <$> sample_rows p));
           ("fired_at", JNumber (NInt (Z.of_N (fired_at p))))].

Record WebhookRegistry : Type := mkWebhooks {
  subs : gmap string WebhookSubscription; next_id : N; dlq : DeadLetterQueue }.

Definition webhooks_new : WebhookRegistry := mkWebhooks ∅ 1 (dlq_new 1000).

Definition with_id (s : WebhookSubscription) (id : string) : WebhookSubscription :=
  mkSub id (sub_name s) (sub_query s) (sub_format s) (condition s) (callback_url s) (enabled s) (fire_count s)
    (last_evaluated s) (last_error s) (retry_config s).

(** The counter is an atomic [u64] that wraps. *)
Definition webhook_register (r : WebhookRegistry) (s : WebhookSubscription) : string * WebhookRegistry :=
  let id := "wh-" +:+ pretty (next_id r) in
  (id, mkWebhooks (<[id := with_id s id]> (subs r)) (as_u64 (next_id r + 1)) (dlq r)).

Definition webhook_get (r : WebhookRegistry) (id : string) : option WebhookSubscription := subs r !! id.
Definition webhook_delete (r : WebhookRegistry) (id : string) : bool * WebhookRegistry :=
  (bool_decide (is_Some (subs r !! id)), mkWebhooks (delete id (subs r)) (next_id r) (dlq r)).

Definition fired (t : N) (e : option string) (s : WebhookSubscription) : WebhookSubscription :=
  mkSub (sub_id s) (sub_name s) (sub_query s) (sub_format s) (condition s) (callback_url s) (enabled s)
    (as_u64 (fire_count s + 1)) (Some t) e (retry_config s).
Definition evaluated (t : N) (e : option string) (s : WebhookSubscription) : WebhookSubscription :=
  mkSub (sub_id s) (sub_name s) (sub_query s) (sub_format s) (condition s) (callback_url s) (enabled s)
    (fire_count s) (Some t) e (retry_config s).

Definition update_after_fire (r : WebhookRegistry) (id : string) (t : N) (e : option string) : WebhookRegistry :=
  mkWebhooks (alter (fired t e) id (subs r)) (next_id r) (dlq r).
Definition update_after_eval (r : WebhookRegistry) (id : string) (t : N) (e : option string) : WebhookRegistry :=
  mkWebhooks (alter (evaluated t e) id (subs r)) (next_id r) (dlq r).
Definition enabled_subscriptions (r : WebhookRegistry) : gmap string WebhookSubscription :=
  filter (λ p, enabled p.2 = true) (subs r).

(** ** Delivery *)

Class WebhookEnv : Type := {
  env_parse_url : string → string + Url;
  (** why the HTTP client cannot be built *)
  client_error : option string;
  (** the answer to the post of an attempt: a transport error or a status *)
  answer : N → string → string + N;
  show_status : N → string;
  sha256 : string → string;
  webhook_secret : option string;
  powi : f64 → N → f64;
}.

Record DeliveryOutcome : Type := mkOutcome { success : bool; attempts : N; delivery_error : option string }.

Inductive DeliveryEvent : Type :=
| Slept (ms : N)
| Posted (url body signature : string).

Section Delivery.
Context `{J : JsonOps} `{WE : WebhookEnv}.

Definition backoff_duration (c : RetryConfig) (attempt : N) : N :=
  N.min (f64_as_u64 (fmul (f64_of_N (initial_backoff_ms c)) (powi (backoff_multiplier c) attempt))) (max_backoff_ms c).

(** The digest of the secret followed by the body. *)
Definition compute_webhook_signature (body : string) : string :=
  "sha256=" +:+ hex_encode (sha256 (default "fuse-default-secret" webhook_secret +:+ body)).

Definition is_success (status : N) : bool := ((200 <=? status) && (status <? 300))%N.

Definition try_deliver (attempt : N) (url : string) (p : WebhookPayload) : (string + unit) * list DeliveryEvent :=
  match validate_callback_url env_parse_url url with
  | Ok _ =>
      let body := to_string (payload_value p) in
      let ev := [Posted url body (compute_webhook_signature body)] in
      match answer attempt url with
      | inl e => (inl ("webhook delivery failed: " +:+ e), ev)
      | inr status => if is_success status then (inr tt, ev) else (inl ("webhook returned HTTP " +:+ show_status status), ev)
      end
  | Err e => (inl ("SSRF blocked: " +:+ e), [])
  | Panic => (inl "", [])
  end.

(** The loop over the attempts that are left. *)
Fixpoint deliver_attempts (n : nat) (attempt total : N) (last_err : string) (url : string) (p : WebhookPayload)
    (c : RetryConfig) : DeliveryOutcome * list DeliveryEvent :=
  match n with
  | 0 => (mkOutcome false total (Some last_err), [])
  | S n =>
      let slept := if (0 <? attempt)%N then [Slept (backoff_duration c (attempt - 1))] else [] in
      match try_deliver attempt url p with
      | (inr _, ev) => (mkOutcome true (attempt + 1) None, slept ++ ev)
      | (inl e, ev) =>
          let '(o, evs) := deliver_attempts n (attempt + 1) total e url p c in (o, slept ++ ev ++ evs)
      end
  end.

(** The number of attempts is added in a [u32]. *)
Definition deliver_webhook_with_retry (url : string) (p : WebhookPayload) (c : RetryConfig) : DeliveryOutcome * list DeliveryEvent :=
  match client_error with
  | Some e => (mkOutcome false 0 (Some ("client build failed: " +:+ e)), [])
  | None =>
      let total := ((max_retries c + 1) `mod` 4294967296)%N in
      deliver_attempts (N.to_nat total) 0 total "" url p c
  end.

Definition deliver_webhook (url : string) (p : WebhookPayload) : (string + unit) * list DeliveryEvent :=
  let '(o, ev) := deliver_webhook_with_retry url p (mkRetry 0 500 (f64_of_N 2) 30000) in
  (if success o then inr tt else inl (default "" (delivery_error o)), ev).
End Delivery.

(** ** Endpoints *)

Record CreateWebhookRequest : Type := mkCreate {
  cw_name : string; cw_query : string; cw_format : string; cw_condition : WebhookCondition; cw_callback_url : string;
  cw_retry : RetryConfig }.

Inductive TestReply : Type :=
| NotFired (error : string)
| Unmet (row_count : nat)
| Fired (row_count : nat) (n : N) (error : option string).

Definition guarded {B : Type} (identity : option AuthIdentity) : Response B + unit :=
  require_role identity Editor (bool_decide (is_Some identity)).

Section Endpoints.
Context `{K : ArrowKernels} `{J : JsonOps} `{E : QueryEnv} `{WE : WebhookEnv}.

Definition create_webhook (r : WebhookRegistry) (identity : option AuthIdentity) (req : CreateWebhookRequest)
    : Response string * WebhookRegistry :=
  match guarded identity with
  | inl resp => (resp, r)
  | inr _ =>
      match validate_callback_url env_parse_url (cw_callback_url req) with
      | Ok _ =>
          let '(id, r) := webhook_register r (mkSub "" (cw_name req) (cw_query req) (cw_format req) (cw_condition req)
            (cw_callback_url req) true 0 None None (cw_retry req)) in (Served id, r)
      | Err e => (Refused 400 [] ("invalid callback_url: " +:+ e), r)
      | Panic => (Refused 500 [] "", r)
      end
  end.

Definition delete_webhook (r : WebhookRegistry) (identity : option AuthIdentity) (id : string) : Response unit * WebhookRegistry :=
  match guarded identity with
  | inl resp => (resp, r)
  | inr _ =>
      match webhook_delete r id with
      | (true, r) => (Served tt, r)
      | (false, r) => (Refused 404 [] "not found", r)
      end
  end.

(** The rows of the subscription's query, as a webhook may see them; an error
    of the connector is noted, other errors are not. *)
Inductive Ran : Type := RanRows (cols : list string) (rows : list (list Value)) | RanError (e : string) | NotRun (e : string).

Definition webhook_user : UserContext := mkUser "webhook" [].

Definition run_subscription (reg : Registry) (rbac : option (list PolicyConfig)) (s : WebhookSubscription) : outcome string Ran :=
  match (if bool_decide (sub_format s = "ppl") then parse_ppl_sources (sub_query s) else parse_sql_sources (sub_query s)) with
  | Panic => Panic
  | Ok ((ds_id, tbl) :: _) =>
      match registry_get reg ds_id with
      | None => Ok (NotRun ("datasource '" +:+ ds_id +:+ "' not found"))
      | Some c =>
          match build_sub_query (sub_query s) (sub_format s) tbl with
          | Panic => Panic
          | Err e => Ok (NotRun e)
          | Ok sq =>
              match @execute (connector c) sq with
              | Panic => Panic
              | Err e => Ok (RanError (connector_error_display e))
              | Ok batches =>
                  bs ← match rbac with
                       | Some engine =>
                           match filter_batches engine batches ds_id tbl webhook_user with
                           | Ok bs => Ok bs | Err _ => Ok [] | Panic => Panic
                           end
                       | None => Ok batches
                       end;
                  let '(cols, rows) := batches_to_json bs in Ok (RanRows cols rows)
              end
          end
      end
  | _ => Ok (NotRun "failed to parse query sources")
  end.

(** [test_webhook]; the answer, the registry and what was sent. *)
Definition test_webhook (reg : Registry) (rbac : option (list PolicyConfig)) (now : N) (r : WebhookRegistry)
    (identity : option AuthIdentity) (id : string) : outcome string (Response TestReply * WebhookRegistry * list DeliveryEvent) :=
  match guarded identity with
  | inl resp => Ok (resp, r, [])
  | inr _ =>
      match webhook_get r id with
      | None => Ok (Refused 404 [] "not found", r, [])
      | Some s =>
          ran ← run_subscription reg rbac s;
          match ran with
          | NotRun e => Ok (Served (NotFired e), r, [])
          | RanError e => Ok (Served (NotFired e), update_after_eval r id now (Some e), [])
          | RanRows cols rows =>
              if evaluate_condition (condition s) cols rows then
                let p := mkPayload (sub_id s) (sub_name s) (sub_query s) (N.of_nat (length rows)) cols (take 10 rows) now in
                let '(o, ev) := deliver_webhook_with_retry (callback_url s) p (retry_config s) in
                let error := if success o then None else delivery_error o in
                let r := update_after_fire r id now error in
                q ← (if success o then Ok (dlq r)
                     else dlq_push (dlq r) (mkDead (sub_id s) (callback_url s) (payload_value p) (attempts o)
                                              (default "" (delivery_error o)) now));
                Ok (Served (Fired (length rows) (attempts o) error), mkWebhooks (subs r) (next_id r) q, ev)
              else Ok (Served (Unmet (length rows)), update_after_eval r id now None, [])
          end
      end
  end.
End Endpoints.

(** * What subscriptions and deliveries guarantee *)

(** ** Conditions *)

(** The cells of an answer are texts or nulls. *)
Lemma json_cells_text `{K : ArrowKernels} bs cells v : cells ∈ (batches_to_json bs).2 → v ∈ cells → v = JNull ∨ ∃ s, v = JString s.
Proof.
  unfold batches_to_json. destruct bs as [|b bs]; [by intros ?%not_elem_of_nil|]. cbn [snd].
  intros Hc Hv. apply list_elem_of_bind in Hc as (b' & Hc & _). apply list_elem_of_fmap in Hc as (i & -> & _). unfold json_row in Hv.
  apply list_elem_of_fmap in Hv as (col & -> & _). unfold cell_json. destruct (Arrow.is_null col i); eauto.
Qed.

Lemma threshold_unmet `{K : ArrowKernels} `{J : JsonOps} bs column op value :
  evaluate_condition (Threshold column op value) (batches_to_json bs).1 (batches_to_json bs).2 = false.
Proof.
  cbn [evaluate_condition]. destruct (list_find _ _) as [[i n]|]; [|done].
  destruct (head (batches_to_json bs).2) as [cells|] eqn:Eh; [|done]. cbn [mbind option_bind].
  destruct (cells !! i) as [v|] eqn:Ev; [|done]. cbn.
  destruct (json_cells_text bs cells v) as [->|[s ->]]; [by apply head_Some_elem_of|by apply list_elem_of_lookup_2 in Ev|done..].
Qed.

(** ** Delivery *)

Section Delivery.
Context `{J : JsonOps} `{WE : WebhookEnv}.

Definition posts (ev : list DeliveryEvent) : list (string * string * string) :=
  omap (λ e, match e with Posted u b s => Some (u, b, s) | _ => None end) ev.
Definition sleeps (ev : list DeliveryEvent) : list N := omap (λ e, match e with Slept ms => Some ms | _ => None end) ev.

(** The callback passes the guard, and an attempt is answered with a success. *)
Definition callable (url : string) : Prop := validate_callback_url env_parse_url url = Ok tt.
Definition answered (url : string) (k : N) : Prop := ∃ st, answer k url = inr st ∧ is_success st = true.

(** The post of a payload. *)
Definition the_post (url : string) (p : WebhookPayload) : string * string * string :=
  let body := to_string (payload_value p) in (url, body, compute_webhook_signature body).

Lemma posts_app a b : posts (a ++ b) = posts a ++ posts b.
Proof. apply omap_app. Qed.
Lemma sleeps_app a b : sleeps (a ++ b) = sleeps a ++ sleeps b.
Proof. apply omap_app. Qed.

Lemma try_spec k url p :
  (callable url ∧ answered url k ∧ ∃ ev, try_deliver k url p = (inr tt, ev) ∧ posts ev = [the_post url p] ∧ sleeps ev = []) ∨
  (¬ (callable url ∧ answered url k) ∧ ∃ e ev, try_deliver k url p = (inl e, ev) ∧ sleeps ev = [] ∧
     ((callable url ∧ posts ev = [the_post url p]) ∨ (¬ callable url ∧ posts ev = []))).
Proof.
  unfold try_deliver, callable, answered. destruct (validate_callback_url env_parse_url url) as [[]|e|] eqn:Ev;
    [|right; split; [by intros [[=] _]|]; do 2 eexists; split; [done|]; split; [done|]; right; done..].
  destruct (answer k url) as [e|st] eqn:Ea.
  - right. split; [by intros [_ (? & [=] & _)]|]. do 2 eexists. split; [done|]. split; [done|]. by left.
  - destruct (is_success st) eqn:Es.
    + left. split; [done|]. split; [by eexists|]. by eexists.
    + right. split; [intros [_ (? & [= <-] & ?)]; congruence|]. do 2 eexists. split; [done|]. split; [done|]. by left.
Qed.

(** The sleep before each attempt but the first. *)
Definition pauses (c : RetryConfig) (k : N) (n : nat) : list N :=
  (λ i, backoff_duration c (k + N.of_nat i)) <$> seq 0 n.

Lemma pauses_S c k n : pauses c k (S n) = backoff_duration c k :: pauses c (k + 1) n.
Proof.
  unfold pauses. cbn [seq fmap list_fmap]. f_equal; [f_equal; lia|]. rewrite <- fmap_S_seq, <- list_fmap_compose.
  apply list_fmap_ext. intros i x _. cbn. f_equal. lia.
Qed.
Definition lead (c : RetryConfig) (k : N) : list N := if (0 <? k)%N then [backoff_duration c (k - 1)] else [].

Lemma lead_S c k : lead c (k + 1) = [backoff_duration c k].
Proof. unfold lead. destruct (N.ltb_spec 0 (k + 1)); [|lia]. do 2 f_equal. lia. Qed.

Lemma lead_events c k :
  sleeps (if (0 <? k)%N then [Slept (backoff_duration c (k - 1))] else []) = lead c k ∧
  posts (if (0 <? k)%N then [Slept (backoff_duration c (k - 1))] else []) = [].
Proof. unfold lead. by destruct (0 <? k)%N. Qed.

(** The sleeps of [n] attempts. *)
Definition all_pauses (c : RetryConfig) (k : N) (n : nat) : list N :=
  match n with 0 => [] | S m => lead c k ++ pauses c k m end.

Lemma all_pauses_S c k n : all_pauses c k (S n) = lead c k ++ all_pauses c (k + 1) n.
Proof. destruct n as [|n]; [done|]. cbn [all_pauses]. by rewrite lead_S, pauses_S. Qed.

(** The attempts from the [k]-th on. *)
Lemma attempts_spec url p c total n : ∀ k err,
  let r := deliver_attempts n k total err url p c in
  (∀ i : nat, i < n → callable url → answered url (k + N.of_nat i) → (∀ j : nat, j < i → ¬ answered url (k + N.of_nat j)) →
     r.1 = mkOutcome true (k + N.of_nat i + 1) None ∧ posts r.2 = replicate (S i) (the_post url p) ∧
     sleeps r.2 = all_pauses c k (S i)) ∧
  (callable url → (∀ i : nat, i < n → ¬ answered url (k + N.of_nat i)) →
     success r.1 = false ∧ attempts r.1 = total ∧ posts r.2 = replicate n (the_post url p) ∧ sleeps r.2 = all_pauses c k n) ∧
  (¬ callable url → success r.1 = false ∧ attempts r.1 = total ∧ posts r.2 = []).
Proof.
  induction n as [|n IH]; intros k err r; [split; [intros i; lia|by split]|].
  subst r. cbn [deliver_attempts]. destruct (lead_events c k) as [Hls Hlp].
  destruct (try_spec k url p) as [(Hc & Ha & ev & -> & Hp & Hs)|(Hn & e & ev & -> & Hs & Hp)].
  - cbn [fst snd success attempts]. rewrite posts_app, sleeps_app, Hls, Hlp, Hp, Hs. split; [|split; [|done]].
    + intros [|i] Hi _ _ Hj; [|by destruct (Hj 0 ltac:(lia)); rewrite N.add_0_r]. split; [f_equal; lia|done].
    + intros _ Hna. destruct (Hna 0 ltac:(lia)). by rewrite N.add_0_r.
  - specialize (IH (k + 1)%N e). destruct (deliver_attempts n (k + 1) total e url p c) as [o evs]. cbn [fst snd] in *.
    rewrite !posts_app, !sleeps_app, Hls, Hlp, Hs. cbn [app]. destruct IH as (IH1 & IH2 & IH3).
    assert (∀ x : nat, k + N.of_nat (S x) = k + 1 + N.of_nat x)%N as Hsh by lia. split; [|split].
    + intros [|i] Hi Hc Ha Hj; [destruct Hn; rewrite N.add_0_r in Ha; done|]. rewrite Hsh in Ha |- *.
      destruct (IH1 i) as (-> & -> & ->); [lia|done|done| |].
      { intros j Hij. rewrite <- Hsh. apply Hj. lia. }
      destruct Hp as [[_ ->]|[? _]]; [|done]. by rewrite (all_pauses_S c k (S i)).
    + intros Hc Hna. destruct IH2 as (-> & -> & -> & ->); [done|intros i Hi; rewrite <- Hsh; apply Hna; lia|].
      destruct Hp as [[_ ->]|[? _]]; [|done]. by rewrite (all_pauses_S c k n).
    + intros Hc. destruct (IH3 Hc) as (-> & -> & ->). by destruct Hp as [[? _]|[_ ->]].
Qed.
End Delivery.

(** A delivery is retried as configured and accounted for: where the
    callback passes the guard, the payload is posted, with the same body and
    signature, up to the first attempt that is answered with a success, and
    otherwise one time more than the retries allow, and the outcome says
    which and after how many attempts; before each further attempt there is a
    pause, never longer than the longest configured. Where the callback does
    not pass the guard at the time of the delivery, nothing is posted. *)
Theorem deliveries_accounted `{J : JsonOps} `{WE : WebhookEnv} url p c :
  client_error = None → (max_retries c + 1 < 4294967296)%N →
  let r := deliver_webhook_with_retry url p c in
  (∀ k : nat, (N.of_nat k ≤ max_retries c)%N → callable url → answered url (N.of_nat k) →
     (∀ j : nat, j < k → ¬ answered url (N.of_nat j)) →
     r.1 = mkOutcome true (N.of_nat k + 1) None ∧ posts r.2 = replicate (S k) (the_post url p) ∧ sleeps r.2 = pauses c 0 k) ∧
  (callable url → (∀ k : nat, (N.of_nat k ≤ max_retries c)%N → ¬ answered url (N.of_nat k)) →
     success r.1 = false ∧ attempts r.1 = (max_retries c + 1)%N ∧
     posts r.2 = replicate (S (N.to_nat (max_retries c))) (the_post url p) ∧ sleeps r.2 = pauses c 0 (N.to_nat (max_retries c))) ∧
  (¬ callable url → success r.1 = false ∧ posts r.2 = []) ∧
  Forall (λ ms, (ms ≤ max_backoff_ms c)%N) (pauses c 0 (N.to_nat (max_retries c))).
Proof.
  intros Hcl Hmax r. subst r. unfold deliver_webhook_with_retry. rewrite Hcl, N.mod_small by done.
  destruct (attempts_spec url p c (max_retries c + 1) (N.to_nat (max_retries c + 1)) 0 "") as (H1 & H2 & H3). cbv zeta in *.
  split; [|split; [|split]].
  - intros k Hk Hc Ha Hj. destruct (H1 k) as (-> & -> & ->); [lia|done..|]. done.
  - intros Hc Hna. destruct H2 as (-> & -> & -> & ->); [done|intros i Hi; apply Hna; lia|].
    replace (N.to_nat (max_retries c + 1)) with (S (N.to_nat (max_retries c))) by lia. done.
  - intros Hc. by destruct (H3 Hc) as (-> & _ & ->).
  - apply Forall_forall. intros ms Hms. apply list_elem_of_fmap in Hms as (i & -> & _). unfold backoff_duration. lia.
Qed.

(** ** The endpoints *)

Lemma guarded_refuses {B : Type} identity (resp : Response B) : guarded identity = inl resp → ∃ st h e, resp = Refused st h e.
Proof.
  unfold guarded, require_role. destruct (negb _); [done|]. destruct identity as [id|]; [|intros [= <-]; unfold unauthorized; eauto].
  destruct (role_has _ _); [done|]. intros [= <-]. eauto.
Qed.

Section Endpoints.
Context `{K : ArrowKernels} `{J : JsonOps} `{E : QueryEnv} `{WE : WebhookEnv}.

Lemma ran_rows reg rbac s cols rows : run_subscription reg rbac s = Ok (RanRows cols rows) → ∃ bs, (cols, rows) = batches_to_json bs.
Proof.
  unfold run_subscription. destruct (if bool_decide (sub_format s = "ppl") then parse_ppl_sources (sub_query s) else parse_sql_sources (sub_query s))
    as [[|[ds tbl] refs]| |]; [done| |done..].
  destruct (registry_get reg ds) as [c|]; [|done]. destruct (build_sub_query _ _ _) as [sq| |]; [|done..].
  destruct (@execute (connector c) sq) as [bs| |]; [|done..].
  destruct (match rbac with Some _ => _ | None => _ end) as [bs'| |]; [|done..]. cbn [mbind outcome_bind].
  destruct (batches_to_json bs') as [cols' rows'] eqn:Eb. intros [= <- <-]. by exists bs'.
Qed.

(** What a test of a subscription amounts to. *)
Inductive tested (now : N) (r : WebhookRegistry) (id : string) : Response TestReply → WebhookRegistry → list DeliveryEvent → Prop :=
| tested_refused st h e : tested now r id (Refused st h e) r []
| tested_not_run e : tested now r id (Served (NotFired e)) r []
| tested_failed s e : webhook_get r id = Some s →
    tested now r id (Served (NotFired e)) (update_after_eval r id now (Some e)) []
| tested_unmet s bs : webhook_get r id = Some s →
    evaluate_condition (condition s) (batches_to_json bs).1 (batches_to_json bs).2 = false →
    tested now r id (Served (Unmet (length (batches_to_json bs).2))) (update_after_eval r id now None) []
| tested_fired s bs p o ev q : webhook_get r id = Some s →
    evaluate_condition (condition s) (batches_to_json bs).1 (batches_to_json bs).2 = true →
    deliver_webhook_with_retry (callback_url s) p (retry_config s) = (o, ev) →
    (if success o then q = dlq r else ∃ d, dlq_push (dlq r) d = Ok q) →
    let error := if success o then None else delivery_error o in
    tested now r id (Served (Fired (length (batches_to_json bs).2) (attempts o) error))
      (mkWebhooks (alter (fired now error) id (subs r)) (next_id r) q) ev.

Lemma test_webhook_tested reg rbac now r identity id resp r' ev :
  test_webhook reg rbac now r identity id = Ok (resp, r', ev) → tested now r id resp r' ev.
Proof.
  unfold test_webhook. destruct (guarded identity) as [resp0|] eqn:Hg.
  { intros [= <- <- <-]. apply guarded_refuses in Hg as (st & h & e & ->). constructor. }
  destruct (webhook_get r id) as [s|] eqn:Hs; [|intros [= <- <- <-]; constructor].
  destruct (run_subscription reg rbac s) as [ran| |] eqn:Er; [|done..]. cbn [mbind outcome_bind].
  destruct ran as [cols rows|e|e]; [|intros [= <- <- <-]; by econstructor..].
  apply ran_rows in Er as [bs Eb].
  assert (cols = (batches_to_json bs).1 ∧ rows = (batches_to_json bs).2) as [-> ->] by by rewrite <- Eb.
  destruct (evaluate_condition _ _ _) eqn:Ec; [|intros [= <- <- <-]; by econstructor].
  destruct (deliver_webhook_with_retry _ _ _) as [o evs] eqn:Ed. cbn [dlq subs next_id update_after_fire].
  match goal with |- (?m ≫= _) = _ → _ => destruct m as [q| |] eqn:Eq; [|done..] end. cbn [mbind outcome_bind]. intros [= <- <- <-].
  eapply tested_fired; [exact Hs|exact Ec|exact Ed|]. destruct (success o); [by injection Eq as <-|eauto].
Qed.
End Endpoints.

(** A threshold never fires: the values of an answer are texts, never
    JSON numbers, so no value can be compared with the threshold, and a
    subscription with a threshold condition is never delivered, whatever its
    query returns. *)
Theorem threshold_never_fires `{K : ArrowKernels} `{J : JsonOps} `{E : QueryEnv} `{WE : WebhookEnv}
    reg rbac now r identity id s column op value resp r' ev :
  webhook_get r id = Some s → condition s = Threshold column op value →
  test_webhook reg rbac now r identity id = Ok (resp, r', ev) →
  posts ev = [] ∧ ∀ n k e, resp ≠ Served (Fired n k e).
Proof.
  intros Hs Hc Ht. apply test_webhook_tested in Ht.
  destruct Ht as [st h e|e|s' e Hs'|s' bs Hs' Hu|s' bs p o ev q Hs' Hu Hd Hq error]; [done..|].
  assert (s' = s) as -> by congruence. rewrite Hc, threshold_unmet in Hu. discriminate Hu.
Qed.

(** ** The registry over time *)

Section Registry.
Context `{K : ArrowKernels} `{J : JsonOps} `{E : QueryEnv} `{WE : WebhookEnv}.

(** The calls that change the registry. *)
Inductive webhook_step : WebhookRegistry → WebhookRegistry → Prop :=
| step_create r identity req : webhook_step r (create_webhook r identity req).2
| step_delete r identity id : webhook_step r (delete_webhook r identity id).2
| step_test reg rbac now r identity id resp r' ev :
    test_webhook reg rbac now r identity id = Ok (resp, r', ev) → webhook_step r r'
| step_clear r : webhook_step r (mkWebhooks (subs r) (next_id r) (dlq_clear (dlq r))).

(** Every subscription is under its own identifier, made from a number that
    was already given out, with a callback that passed the guard; the queue
    keeps to its bound. *)
Definition webhooks_inv (r : WebhookRegistry) : Prop :=
  (∀ id s, subs r !! id = Some s → sub_id s = id ∧ callable (callback_url s) ∧ ∃ n, id = "wh-" +:+ pretty n ∧ (n < next_id r)%N) ∧
  dlq_len (dlq r) ≤ 1000 ∧ dlq_max (dlq r) = 1000.

Lemma push_bounded q d q' : dlq_max q = 1000 → dlq_len q ≤ 1000 → dlq_push q d = Ok q' → dlq_len q' ≤ 1000 ∧ dlq_max q' = 1000.
Proof.
  unfold dlq_push, dlq_len. intros Hm Hl. destruct (Nat.leb_spec (dlq_max q) (length (dlq_entries q))).
  - destruct (dlq_entries q) as [|e l]; [done|]. intros [= <-]. cbn in *. rewrite length_app. cbn. lia.
  - intros [= <-]. cbn. rewrite length_app. cbn. lia.
Qed.

Lemma alter_inv (f : WebhookSubscription → WebhookSubscription) r id :
  (∀ s, sub_id (f s) = sub_id s ∧ callback_url (f s) = callback_url s) →
  (∀ id s, subs r !! id = Some s → sub_id s = id ∧ callable (callback_url s) ∧ ∃ n, id = "wh-" +:+ pretty n ∧ (n < next_id r)%N) →
  ∀ id' s, alter f id (subs r) !! id' = Some s → sub_id s = id' ∧ callable (callback_url s) ∧ ∃ n, id' = "wh-" +:+ pretty n ∧ (n < next_id r)%N.
Proof.
  intros Hf Hi id' s Hs. apply lookup_alter_Some in Hs as [(-> & s0 & Hs0 & ->)|[_ Hs]]; [|by apply Hi].
  destruct (Hf s0) as [-> ->]. by apply Hi.
Qed.

Lemma webhook_step_inv r r' : (next_id r < u64_top)%N → webhooks_inv r → webhook_step r r' →
  webhooks_inv r' ∧ (next_id r' ≤ next_id r + 1)%N.
Proof.
  intros Hn Hinv. pose proof Hinv as (Hi & Hl & Hm). destruct 1 as [r identity req|r identity id|reg rbac now r identity id resp r' ev Ht|r].
  - unfold create_webhook. destruct (guarded identity); [split; [done|]; cbn; lia|].
    destruct (validate_callback_url _ _) as [[]| |] eqn:Hv; [|split; [done|]; cbn; lia..].
    cbn. unfold as_u64. rewrite N.mod_small by (unfold u64_top in Hn; lia). split; [|cbn; lia]. split; [|done]. cbn.
    intros id s Hs. apply lookup_insert_Some in Hs as [[<- <-]|[_ Hs]]; cbn.
    + split; [done|]. split; [exact Hv|]. exists (next_id r). split; [done|lia].
    + destruct (Hi _ _ Hs) as (? & ? & n & ? & ?). split; [done|]. split; [done|]. exists n. split; [done|lia].
  - unfold delete_webhook. destruct (guarded identity); [split; [done|]; cbn; lia|].
    unfold webhook_delete. destruct (bool_decide _); cbn; (split; [|lia]; split; [|done]; cbn; intros id' s Hs;
      apply lookup_delete_Some in Hs as [_ Hs]; by apply Hi).
  - apply test_webhook_tested in Ht. destruct Ht as [st h e|e|s' e Hs'|s' bs Hs' Hu|s' bs p o ev q Hs' Hu Hd Hq error];
      [split; [done|lia]..| | |]; cbn; (split; [|lia]); (split; [cbn; by apply alter_inv|]); cbn; [done|done|].
    destruct (success o); [by subst|]. destruct Hq as [d Hq]. by apply (push_bounded (dlq r) d).
  - split; [|cbn; lia]. split; [done|]. cbn. lia.
Qed.

Lemma steps_inv n r : nsteps webhook_step n webhooks_new r → (N.of_nat n + 1 ≤ u64_top)%N →
  webhooks_inv r ∧ (next_id r ≤ N.of_nat n + 1)%N.
Proof.
  revert r. induction n as [|n IH]; intros r Hs Hn.
  - inversion Hs; subst. split; [|cbn; lia]. split; [|by cbn; lia]. intros id s. cbn. by rewrite lookup_empty.
  - apply nsteps_inv_r in Hs as (r' & Hs & Hst). destruct (IH r' Hs ltac:(lia)) as [Hi Hb].
    destruct (webhook_step_inv r' r ltac:(lia) Hi Hst). split; [done|]. lia.
Qed.
End Registry.

(** C32: The registry stays sound: after any sequence of calls to its
    endpoints (fewer than fit a 64-bit counter), by whoever and in any order,
    every subscription is found under its own identifier and has a callback
    that passed the guard, a new subscription never takes the identifier of
    an existing one, and the dead-letter queue holds at most a thousand
    entries and can always take another. *)
Theorem webhook_registry_sound `{K : ArrowKernels} `{J : JsonOps} `{E : QueryEnv} `{WE : WebhookEnv} n r :
  nsteps webhook_step n webhooks_new r → (N.of_nat n + 1 ≤ u64_top)%N →
  webhooks_inv r ∧
  (∀ identity req id r', create_webhook r identity req = (Served id, r') → subs r !! id = None ∧ is_Some (subs r' !! id)) ∧
  (∀ d, ∃ q, dlq_push (dlq r) d = Ok q).
Proof.
  intros Hs Hn. destruct (steps_inv n r Hs Hn) as [Hinv _]. pose proof Hinv as (Hi & Hl & Hm).
  split; [done|]. split.
  - intros identity req id r'. unfold create_webhook. destruct (guarded identity) as [resp|] eqn:Hg.
    { apply guarded_refuses in Hg as (st & h & e & ->). done. }
    destruct (validate_callback_url _ _); [|done..]. unfold webhook_register. intros [= <- <-]. cbn [subs]. split; [|rewrite lookup_insert_eq; by eexists].
    destruct (subs r !! _) as [s|] eqn:Hs'; [|done]. apply Hi in Hs' as (_ & _ & m & Hid & Hlt).
    apply (inj (String.append "wh-")) in Hid. apply (inj pretty) in Hid. lia.
  - intros d. unfold dlq_push. rewrite Hm. destruct (Nat.leb_spec 1000 (length (dlq_entries (dlq r)))); [|by eexists].
    destruct (dlq_entries (dlq r)); [cbn in *; lia|by eexists].
Qed.

(** ** Witnesses *)

(** A receiver that answers the third attempt. *)
Definition ex_webhooks : WebhookEnv := {|
  env_parse_url := λ _, inr (mkUrl "https" (Some "hooks.example.com")); client_error := None;
  answer := λ k _, if (k <? 2)%N then inr 503%N else inr 200%N; show_status := pretty; sha256 := λ s, s;
  webhook_secret := None; powi := λ b n, N.iter n (fmul b) (f64_of_N 1) |}.
Definition ex_payload : WebhookPayload := mkPayload "wh-1" "errors" "SELECT n FROM logs.app" 2 ["n"] [] 100.
Definition ex_url : string := "https://hooks.example.com/x".
Definition ex_sub (c : WebhookCondition) : CreateWebhookRequest := mkCreate "errors" "SELECT n FROM logs.app" "sql" c ex_url retry_default.

Lemma deliveries_accounted_witness :
  let r := deliver_webhook_with_retry (J := RefJson) (WE := ex_webhooks) ex_url ex_payload retry_default in
  r.1 = mkOutcome true 3 None ∧ sleeps r.2 = [500; 1000]%N.
Proof.
  destruct (deliveries_accounted (J := RefJson) (WE := ex_webhooks) ex_url ex_payload retry_default) as (H & _); [done|done|].
  destruct (H 2) as (H1 & _ & H3); [done|done|by exists 200%N| |].
  - intros j Hj. destruct j as [|[|j]]; [by intros (st & [= <-] & ?)..|lia].
  - split; [exact H1|]. rewrite H3. by vm_compute.
Defined.

Lemma threshold_never_fires_witness :
  let r := (create_webhook (WE := ex_webhooks) webhooks_new None (ex_sub (Threshold "n" TGt (f64_of_N 0)))).2 in
  ∃ resp r' ev, test_webhook (K := RefArrow) (J := RefJson) (E := ex_env) (WE := ex_webhooks) (registry ex_world) None 100 r None "wh-1"
    = Ok (resp, r', ev) ∧ posts ev = [].
Proof.
  intros r.
  destruct (test_webhook (K := RefArrow) (J := RefJson) (E := ex_env) (WE := ex_webhooks) (registry ex_world) None 100 r None "wh-1")
    as [[[resp r'] ev]| |] eqn:Et; [|vm_compute in Et; discriminate Et..].
  exists resp, r', ev. split; [done|].
  destruct (webhook_get r "wh-1") as [s|] eqn:Es; [|vm_compute in Es; discriminate Es].
  eapply (threshold_never_fires (registry ex_world) None 100 r None "wh-1" s "n" TGt (f64_of_N 0)); [exact Es| |exact Et].
  vm_compute in Es. by injection Es as <-.
Defined.

Lemma webhook_registry_sound_witness :
  let r := (create_webhook (WE := ex_webhooks) webhooks_new None (ex_sub RowsReturned)).2 in
  webhooks_inv (WE := ex_webhooks) r ∧ subs r !! "wh-2" = None.
Proof.
  intros r.
  destruct (webhook_registry_sound (K := RefArrow) (J := RefJson) (E := ex_env) (WE := ex_webhooks) 1 r) as (Hi & Hc & _).
  - apply nsteps_once. apply step_create.
  - done.
  - split; [exact Hi|]. by apply (Hc None (ex_sub RowsReturned) "wh-2" (create_webhook (WE := ex_webhooks) r None (ex_sub RowsReturned)).2).
Defined.

(** With the largest retry limit the number of attempts wraps to zero: the
    delivery fails without having been tried. *)
Lemma largest_limit_never_tries `{J : JsonOps} `{WE : WebhookEnv} url p i m b : client_error = None →
  deliver_webhook_with_retry url p (mkRetry 4294967295 i m b) = (mkOutcome false 0 (Some ""), []).
Proof. intros H. unfold deliver_webhook_with_retry. by rewrite H. Qed.
