(* ===== verification/Configuration.v ===== *)
(** * Configuration: the configuration file, its secrets, and the registry built from it

    Models [crates/fuse-core/src/secrets.rs] ([secret://] references),
    [config.rs] (the configuration and its validation), [tls.rs] (the TLS table
    of a connector), [url.rs], [version.rs] and [config_validator.rs], and the
    part of [crates/fuse-server/src/main.rs] up to the router: the validation, the
    connector registry, the limits on each datasource and the rate limits.

    TOML values are a tree; a hash map of properties is the list of its entries
    in the order it is walked.  The resolver of secrets, the file system, the
    address parser and the factories are parameters. *)

From S2P Require Import Prelude Strs Prepared Connector Errors Security QueryText QueryTextCorrect Otel Federate Access.
From stdpp Require Import base list gmap strings sets pretty.
From Stdlib Require Import NArith ZArith Lia Ascii SpecFloat.

(** ** TOML values *)

Local Unset Elimination Schemes.
Inductive TomlValue : Type :=
| TString (s : string)
| TInteger (z : Z)
| TFloat (f : spec_float)
| TBoolean (b : bool)
| TDatetime (s : string)
| TArray (l : list TomlValue)
| TTable (t : list (string * TomlValue)).
Local Set Elimination Schemes.

Abbreviation Properties := (list (string * TomlValue)).

Definition TomlValue_ind (P : TomlValue → Prop)
    (Hs : ∀ s, P (TString s)) (Hi : ∀ z, P (TInteger z)) (Hf : ∀ f, P (TFloat f)) (Hb : ∀ b, P (TBoolean b))
    (Hd : ∀ s, P (TDatetime s)) (Ha : ∀ l, P (TArray l)) (Ht : ∀ t, Forall (λ kv, P kv.2) t → P (TTable t)) : ∀ v, P v :=
  fix ind v :=
    match v with
    | TString s => Hs s | TInteger z => Hi z | TFloat f => Hf f | TBoolean b => Hb b | TDatetime s => Hd s | TArray l => Ha l
    | TTable t => Ht t ((fix go t : Forall (λ kv, P kv.2) t :=
                           match t with [] => Forall_nil_2 _ | kv :: t => Forall_cons_2 _ kv t (ind kv.2) (go t) end) t)
    end.

Fixpoint prop (k : string) (t : Properties) : option TomlValue :=
  match t with [] => None | (k', v) :: t => if String.eqb k' k then Some v else prop k t end.
Definition toml_str (v : TomlValue) : option string := match v with TString s => Some s | _ => None end.
Definition toml_integer (v : TomlValue) : option Z := match v with TInteger z => Some z | _ => None end.
Definition toml_table (v : TomlValue) : option Properties := match v with TTable t => Some t | _ => None end.

(** ** [secrets.rs] *)

Module Secrets.
Definition SECRET_PREFIX : string := "secret://".
Definition is_secret_ref (s : string) : bool := starts_with SECRET_PREFIX s.
Definition secret_name (s : string) : option string := str_strip_prefix SECRET_PREFIX s.
Definition full_key (prefix key : string) : string := if String.eqb prefix "" then key else prefix +:+ "." +:+ key.

(** An entry under its full key, and the entries of the tables inside it. *)
Fixpoint validate_value (connector_id key : string) (v : TomlValue) : list string :=
  match v with
  | TString s =>
      match secret_name s with
      | Some n =>
          if String.eqb (trim n) ""
          then ["connector '" +:+ connector_id +:+ "': property '" +:+ key +:+ "' has empty secret:// reference"] else []
      | None => []
      end
  | TTable t => flat_map (λ kv : string * TomlValue, validate_value connector_id (full_key key kv.1) kv.2) t
  | _ => []
  end.
Definition validate_secret_refs (connector_id : string) (props : Properties) : list string :=
  flat_map (λ kv : string * TomlValue, validate_value connector_id (full_key "" kv.1) kv.2) props.

Fixpoint collect_value (key : string) (v : TomlValue) : list (string * string) :=
  match v with
  | TString s =>
      match secret_name s with
      | Some n => if String.eqb (trim n) "" then [] else [(key, n)]
      | None => []
      end
  | TTable t => flat_map (λ kv : string * TomlValue, collect_value (full_key key kv.1) kv.2) t
  | _ => []
  end.
Definition collect_secret_refs (props : Properties) : list (string * string) :=
  flat_map (λ kv : string * TomlValue, collect_value (full_key "" kv.1) kv.2) props.

Section Resolve.
Context (get_secret : string → string + string).

Definition resolve_name (key name : string) : outcome FuseError TomlValue :=
  match get_secret name with
  | inr s => Ok (TString s)
  | inl e => Err (FConfig CONFIG_SECRET_RESOLVE ("key '" +:+ key +:+ "': " +:+ e))
  end.
Fixpoint resolve_value (key : string) (v : TomlValue) : outcome FuseError TomlValue :=
  match v with
  | TString s => match secret_name s with Some n => resolve_name key n | None => Ok (TString s) end
  | TTable t =>
      inner ← (fix resolve_table (t : Properties) : outcome FuseError Properties :=
         match t with
         | [] => Ok []
         | (k, v) :: t => v ← resolve_value (key +:+ "." +:+ k) v; t ← resolve_table t; Ok ((k, v) :: t)
         end) t;
      Ok (TTable inner)
  | v => Ok v
  end.
Fixpoint resolve_secrets_with (props : Properties) : outcome FuseError Properties :=
  match props with
  | [] => Ok []
  | (k, v) :: props => v ← resolve_value k v; props ← resolve_secrets_with props; Ok ((k, v) :: props)
  end.

Fixpoint has_secret_ref (v : TomlValue) : bool :=
  match v with
  | TString s => is_secret_ref s
  | TTable t => existsb (λ kv : string * TomlValue, has_secret_ref kv.2) t
  | _ => false
  end.
(** No client is made when there is nothing to resolve. *)
Definition resolve_secrets (props : Properties) : outcome FuseError Properties :=
  if existsb (λ kv : string * TomlValue, has_secret_ref kv.2) props then resolve_secrets_with props else Ok props.
End Resolve.
End Secrets.

(** ** [tls.rs] *)

Module Tls.
Record TlsConfig : Type := mkTls { ca_cert : option string; client_cert : option string; client_key : option string }.
Definition from_properties (props : Properties) : option TlsConfig :=
  t ← prop "tls" props ≫= toml_table;
  Some (mkTls (prop "ca_cert" t ≫= toml_str) (prop "client_cert" t ≫= toml_str) (prop "client_key" t ≫= toml_str)).
Definition is_configured (c : TlsConfig) : bool :=
  bool_decide (is_Some (ca_cert c)) || bool_decide (is_Some (client_cert c)) || bool_decide (is_Some (client_key c)).

Section Files.
Context (file_exists : string → bool).
Definition check_file_exists (path field : string) : outcome FuseError unit :=
  if file_exists path then Ok () else Err (config ("tls." +:+ field +:+ " file not found: " +:+ path)).
Definition tls_validate (c : TlsConfig) : outcome FuseError unit :=
  _ ← match ca_cert c with Some p => check_file_exists p "ca_cert" | None => Ok () end;
  match client_cert c, client_key c with
  | Some cert, Some key => _ ← check_file_exists cert "client_cert"; check_file_exists key "client_key"
  | Some _, None => Err (config "tls.client_cert requires tls.client_key")
  | None, Some _ => Err (config "tls.client_key requires tls.client_cert")
  | None, None => Ok ()
  end.
End Files.
End Tls.

(** ** [config.rs] *)

Module FuseConfig.
Import Secrets Tls.

Record CacheConfig : Type := mkCacheConfig {
  max_entries : N; max_bytes : N; plan_cache_ttl_secs : N; plan_cache_max_entries : N; result_cache_ttl_secs : N; result_cache_max_entries : N }.
Definition default_cache : CacheConfig := mkCacheConfig 1024 (256 * 1024 * 1024) 300 1000 60 500.
Record EngineConfig : Type := mkEngineConfig {
  bind : string; max_concurrent_queries : N; default_timeout : string; rate_limit_global : N; rate_limit_per_ip : N;
  cors_origins : list string; max_result_bytes : N; cache : CacheConfig }.
(** The engine of a file with an empty [engine] table. *)
Definition default_engine : EngineConfig := mkEngineConfig "0.0.0.0:9400" 64 "30s" 1000 100 [] 104857600 default_cache.
Record ConnectorConfig : Type := mkConnectorConfig { cc_id : string; cc_type : string; properties : Properties }.
Record FuseConfig : Type := mkFuseConfig { engine : EngineConfig; connectors : list ConnectorConfig; security : SecurityConfig }.

(** [n as u32], [n as u64]. *)
Definition max_connections (c : ConnectorConfig) (dflt : N) : N :=
  from_option (λ n, Z.to_N (n mod 2 ^ 32)) dflt (prop "max_connections" (properties c) ≫= toml_integer).
Definition connection_timeout_secs (c : ConnectorConfig) (dflt : N) : N :=
  from_option (λ n, Z.to_N (n mod 2 ^ 64)) dflt (prop "connection_timeout_secs" (properties c) ≫= toml_integer).
Definition tls_config (c : ConnectorConfig) : option TlsConfig := from_properties (properties c).

Section Validate.
(** The address parser's complaint, and the files there are. *)
Context (bind_error : string → option string) (file_exists : string → bool) (known_types : list string).

Definition label (i : nat) (c : ConnectorConfig) : string :=
  if String.eqb (cc_id c) "" then "connector[" +:+ pretty i +:+ "]" else "connector '" +:+ cc_id c +:+ "'".
Definition id_errors (seen : list string) (i : nat) (c : ConnectorConfig) : list string :=
  if String.eqb (cc_id c) "" then [label i c +:+ ": id is required"]
  else if bool_decide (cc_id c ∈ seen) then [label i c +:+ ": duplicate connector id"] else [].
Definition type_errors (i : nat) (c : ConnectorConfig) : list string :=
  if String.eqb (cc_type c) "" then [label i c +:+ ": type is required"]
  else if bool_decide (cc_type c ∈ known_types) then []
  else [label i c +:+ ": unknown type '" +:+ cc_type c +:+ "' (known: " +:+ join_with ", " known_types +:+ ")"].
Definition tls_errors (i : nat) (c : ConnectorConfig) : list string :=
  match tls_config c with
  | Some t => match tls_validate file_exists t with Err e => [label i c +:+ ": tls: " +:+ fuse_error_display e] | _ => [] end
  | None => []
  end.
Fixpoint connector_errors (seen : list string) (i : nat) (cs : list ConnectorConfig) : list string :=
  match cs with
  | [] => []
  | c :: cs =>
      id_errors seen i c ++ type_errors i c ++ tls_errors i c ++ validate_secret_refs (cc_id c) (properties c)
      ++ connector_errors (if String.eqb (cc_id c) "" then seen else cc_id c :: seen) (S i) cs
  end.
Definition engine_errors (e : EngineConfig) : list string :=
  from_option (λ m, ["engine.bind: invalid bind address '" +:+ bind e +:+ "': " +:+ m]) [] (bind_error (bind e))
  ++ (if (max_concurrent_queries e =? 0)%N then ["engine.max_concurrent_queries must be > 0"] else []).
Definition LINE_ITEM : string := String (ascii_of_nat 10) "  - ".
Definition validate (cfg : FuseConfig) : outcome FuseError unit :=
  match engine_errors (engine cfg) ++ connector_errors [] 0 (connectors cfg) with
  | [] => Ok ()
  | errors =>
      Err (FConfig CONFIG_INVALID ("configuration has " +:+ pretty (length errors) +:+ " error(s):" +:+ LINE_ITEM +:+ join_with LINE_ITEM errors))
  end.
End Validate.
End FuseConfig.

(** ** The registry at startup ([main.rs]) *)

Module Startup.
Import Secrets FuseConfig.

Definition known_types : list string :=
  ["opensearch"; "elasticsearch"; "postgres"; "mysql"; "dynamodb"; "s3"; "s3-o11y"; "prometheus"; "cloudwatch"; "redis"; "csv-json";
   "mongodb"; "influxdb"; "clickhouse"; "kafka"; "redshift"; "duckdb"; "sqlite"; "otel"; "delta-lake"; "iceberg"].
(** The types of the factories, in their order. *)
Definition factory_types : list string :=
  ["opensearch"; "s3-o11y"; "dynamodb"; "postgres"; "mysql"; "redshift"; "sqlite"; "elasticsearch"; "mongodb"; "influxdb"; "clickhouse";
   "cloudwatch"; "csv-json"; "redis"; "duckdb"; "otel"; "delta-lake"; "iceberg"].

Record Factory : Type := mkFactory { f_type : string; f_create : ConnectorConfig → outcome ConnectorError Source }.

(** What ends the start: an invalid file, or a name registered twice. *)
Inductive StartError : Type := InvalidConfig (e : FuseError) | NotRegistered (e : RegistryError).

Section Fill.
Context (get_secret : string → string + string) (factories : list Factory) (otel_connector : string → OtelStore → Source).

(** [n as usize], 100000 without the property. *)
Definition capacity (c : ConnectorConfig) (k : string) : nat :=
  N.to_nat (from_option (λ n, Z.to_N (n mod 2 ^ 64)) 100000%N (prop k (properties c) ≫= toml_integer)).
Definition otel_store_of (c : ConnectorConfig) : OtelStore := otel_new (capacity c "max_spans") (capacity c "max_metrics") (capacity c "max_logs").
Definition resolved (c : ConnectorConfig) (props : Properties) : ConnectorConfig := mkConnectorConfig (cc_id c) (cc_type c) props.

Definition State : Type := Registry * option OtelStore.
Definition put (st : State) (s : Source) (store : option OtelStore) : outcome RegistryError State :=
  r ← register st.1 s; Ok (r, match store with Some o => Some o | None => st.2 end).
(** One connector: what cannot be resolved, has no factory or is not created is skipped. *)
Definition start_one (c : ConnectorConfig) (st : State) : outcome RegistryError State :=
  match resolve_secrets get_secret (properties c) with
  | Ok props =>
      let c := resolved c props in
      if String.eqb (cc_type c) "otel" then let store := otel_store_of c in put st (otel_connector (cc_id c) store) (Some store)
      else match head (filter (λ f, f_type f = cc_type c) factories) with
           | Some f => match f_create f c with Ok s => put st s None | Err _ => Ok st | Panic => Panic end
           | None => Ok st
           end
  | Err _ => Ok st
  | Panic => Panic
  end.
(** [registry.register(connector)?] ends the start of the server. *)
Fixpoint start_all (cs : list ConnectorConfig) (st : State) : outcome RegistryError State :=
  match cs with [] => Ok st | c :: cs => st ← start_one c st; start_all cs st end.

(** The queries a datasource may run at a time: [n as u64 as usize], 16 without the property. *)
Definition max_queries (c : ConnectorConfig) : N :=
  from_option (λ n, Z.to_N (n mod 2 ^ 64)) 16%N (prop "max_concurrent_queries" (properties c) ≫= toml_integer).
(** [tokio::sync::Semaphore::MAX_PERMITS]: [Semaphore::new] panics above it. *)
Definition MAX_PERMITS : N := 2 ^ 61 - 1.
Context `{Sem : Semaphore} `{Gov : Governor}.
Fixpoint register_limits (cs : list ConnectorConfig) (l : DatasourceLimiter) : outcome StartError DatasourceLimiter :=
  match cs with
  | [] => Ok l
  | c :: cs =>
      if bool_decide (l !! cc_id c = None) && (MAX_PERMITS <? max_queries c)%N then Panic
      else register_limits cs (limiter_register l (cc_id c) (N.to_nat (max_queries c)))
  end.

(** The start of the server up to its router: the file is validated, the registry
    and the limits are built; [RateLimitState::new] panics on a limit of zero. *)
Record Started : Type := mkStarted {
  sv_registry : Registry; sv_otel : option OtelStore; sv_datasources : DatasourceLimiter; sv_rates : RateLimitState }.
Definition start (bind_error : string → option string) (file_exists : string → bool) (cfg : FuseConfig) : outcome StartError Started :=
  match validate bind_error file_exists known_types cfg with
  | Err e => Err (InvalidConfig e)
  | Panic => Panic
  | Ok _ =>
      match start_all (connectors cfg) (registry_new, None) with
      | Err e => Err (NotRegistered e)
      | Panic => Panic
      | Ok (registry, store) =>
          limits ← register_limits (connectors cfg) limiter_new;
          match limits_new (rate_limit_global (engine cfg)) (rate_limit_per_ip (engine cfg)) with
          | Ok rates => Ok (mkStarted registry store limits rates)
          | _ => Panic
          end
      end
  end.
End Fill.
End Startup.

(** ** [url.rs] *)

Module Urls.
Record ConnectorUrl : Type := mkUrl { scheme : string; host : string; port : option N; path : string; is_tls : bool }.

Definition tls_scheme (s : string) : bool := bool_decide (s ∈ ["https"; "grpcs"; "rediss"; "amqps"]).
Definition parse_u16 (s : string) : option N := n ← parse_u64 s; if (n <=? 65535)%N then Some n else None.
Definition split_authority (authority : string) : string * option N :=
  match rsplit_once ":" authority with
  | Some (h, p) => match parse_u16 p with Some port => (h, Some port) | None => (authority, None) end
  | None => (authority, None)
  end.
Definition parse (url : string) : outcome string ConnectorUrl :=
  match find_sub "://" url with
  | None => Err ("missing scheme in URL: " +:+ url)
  | Some i =>
      let scheme := str_take i url in
      let rest := str_drop (i + 3) url in
      let '(authority, path) := match find_sub "/" rest with Some j => (str_take j rest, str_drop j rest) | None => (rest, "/") end in
      let '(host, port) := split_authority authority in
      Ok (mkUrl scheme host port path (tls_scheme scheme))
  end.
Definition to_url (u : ConnectorUrl) : string :=
  match port u with
  | Some p => scheme u +:+ "://" +:+ host u +:+ ":" +:+ pretty p +:+ path u
  | None => scheme u +:+ "://" +:+ host u +:+ path u
  end.
End Urls.

(** ** [version.rs] *)

Module Versions.
Record ConnectorVersion : Type := mkVersion { major : N; minor : N; patch : N }.
Definition current : ConnectorVersion := mkVersion 1 0 0.
Definition minimum_supported : ConnectorVersion := mkVersion 1 0 0.
Definition show (v : ConnectorVersion) : string := pretty (major v) +:+ "." +:+ pretty (minor v) +:+ "." +:+ pretty (patch v).
(** The derived order: by the fields in turn. *)
Definition version_lt (v w : ConnectorVersion) : bool :=
  (major v <? major w)%N || (major v =? major w)%N && ((minor v <? minor w)%N || (minor v =? minor w)%N && (patch v <? patch w)%N).

Inductive Compatibility : Type := Compatible | ConnectorAhead (connector engine : ConnectorVersion) | Incompatible (reason : string).
Definition is_usable (c : Compatibility) : bool := match c with Incompatible _ => false | _ => true end.
Definition check (engine minimum v : ConnectorVersion) : Compatibility :=
  if negb (major v =? major engine)%N then Incompatible ("major version mismatch: engine=" +:+ show engine +:+ ", connector=" +:+ show v)
  else if version_lt v minimum then Incompatible ("connector version " +:+ show v +:+ " is below minimum " +:+ show minimum)
  else if (minor engine <? minor v)%N then ConnectorAhead v engine else Compatible.
End Versions.

(** ** [config_validator.rs] *)

Module Required.
Record ConfigError : Type := mkConfigError { field : string; message : string }.
Definition missing (props : list string) (k msg : string) : list ConfigError := if bool_decide (k ∈ props) then [] else [mkConfigError k msg].
Definition validate_connector_config (id connector_type : string) (props : list string) : list ConfigError :=
  (if String.eqb id "" then [mkConfigError "id" "connector id cannot be empty"] else [])
  ++ (if String.eqb connector_type "" then [mkConfigError "type" "connector type cannot be empty"] else [])
  ++ (if bool_decide (connector_type ∈ ["opensearch"; "elasticsearch"]) then missing props "url" (connector_type +:+ " requires 'url'")
      else if bool_decide (connector_type ∈ ["postgres"; "mysql"]) then missing props "url" "SQL connector requires 'url'"
      else if String.eqb connector_type "s3" then missing props "bucket" "S3 connector requires 'bucket'" else []).
End Required.

(** * Secrets *)

Section SecretsCorrect.
Import Secrets.

(** The values at the leaves of the tables, each with the keys that lead to it. *)
Fixpoint leaves (path : list string) (v : TomlValue) : list (list string * TomlValue) :=
  match v with
  | TTable t => flat_map (λ kv : string * TomlValue, leaves (path ++ [kv.1]) kv.2) t
  | v => [(path, v)]
  end.
Definition props_leaves (props : Properties) : list (list string * TomlValue) := flat_map (λ kv : string * TomlValue, leaves [kv.1] kv.2) props.
(** The keys joined with dots. *)
Definition path_key (path : list string) : string := foldl full_key "" path.
Definition dotted (path : list string) : string := match path with [] => "" | k :: ks => foldl (λ a k, a +:+ "." +:+ k) k ks end.
(** A leaf that refers to a secret without a name, and the secret of one that names it. *)
Definition named_secret (v : TomlValue) : option string := match v with TString s => secret_name s | _ => None end.
Definition blank_secret (v : TomlValue) : bool := match named_secret v with Some n => String.eqb (trim n) "" | None => false end.

Lemma flat_map_omap {A B C : Type} (f : A → list B) (g : B → option C) (h : A → list C) l :
  Forall (λ x, h x = omap g (f x)) l → flat_map h l = omap g (flat_map f l).
Proof. induction 1 as [|x l Hx _ IH]; [done|]. cbn. by rewrite omap_app, Hx, IH. Qed.

Lemma path_key_snoc path k : path_key (path ++ [k]) = full_key (path_key path) k.
Proof. unfold path_key. by rewrite foldl_app. Qed.

Lemma validate_leaves id v : ∀ path, validate_value id (path_key path) v =
  omap (λ l : list string * TomlValue, if blank_secret l.2 then Some ("connector '" +:+ id +:+ "': property '" +:+ path_key l.1 +:+ "' has empty secret:// reference") else None)
    (leaves path v).
Proof.
  induction v as [s|z|f|b|s|l|t IH] using TomlValue_ind; intros path; try done.
  - cbn [validate_value leaves omap list_omap fst snd]. unfold blank_secret, named_secret.
    destruct (secret_name s) as [n|]; [|done]. by destruct (String.eqb (trim n) "").
  - cbn [validate_value leaves]. apply flat_map_omap. eapply Forall_impl; [exact IH|]. intros kv Hkv. rewrite <- path_key_snoc. apply Hkv.
Qed.
Lemma collect_leaves v : ∀ path, collect_value (path_key path) v =
  omap (λ l : list string * TomlValue, if blank_secret l.2 then None else pair (path_key l.1) <$> named_secret l.2) (leaves path v).
Proof.
  induction v as [s|z|f|b|s|l|t IH] using TomlValue_ind; intros path; try done.
  - cbn [collect_value leaves omap list_omap fst snd]. unfold blank_secret, named_secret.
    destruct (secret_name s) as [n|]; [|done]. by destruct (String.eqb (trim n) "").
  - cbn [collect_value leaves]. apply flat_map_omap. eapply Forall_impl; [exact IH|]. intros kv Hkv. rewrite <- path_key_snoc. apply Hkv.
Qed.

Section Resolved.
Context (get_secret : string → string + string).

(** What a leaf should become: the secret it names, or itself. *)
Definition resolve_leaf (v : TomlValue) : string + TomlValue :=
  match named_secret v with
  | Some n => match get_secret n with inr s => inr (TString s) | inl e => inl e end
  | None => inr v
  end.
(** The leaves in order, resolved up to the first whose secret is not found. *)
Fixpoint resolve_all (ls : list (list string * TomlValue)) : outcome FuseError (list (list string * TomlValue)) :=
  match ls with
  | [] => Ok []
  | (p, v) :: ls =>
      match resolve_leaf v with
      | inr w => ls ← resolve_all ls; Ok ((p, w) :: ls)
      | inl e => Err (FConfig CONFIG_SECRET_RESOLVE ("key '" +:+ dotted p +:+ "': " +:+ e))
      end
  end.

Lemma resolve_all_app l l' : resolve_all (l ++ l') = (a ← resolve_all l; b ← resolve_all l'; Ok (a ++ b)).
Proof.
  induction l as [|[p v] l IH]; cbn [app resolve_all mbind outcome_bind]; [by destruct (resolve_all l')|].
  destruct (resolve_leaf v); [done|]. rewrite IH. destruct (resolve_all l); cbn; try done. by destruct (resolve_all l').
Qed.

Lemma dotted_snoc path k : path ≠ [] → dotted (path ++ [k]) = dotted path +:+ "." +:+ k.
Proof. destruct path as [|p path]; [done|]. intros _. cbn. by rewrite foldl_app. Qed.

(** Resolving a value resolves its leaves. *)
Lemma resolve_value_leaves v : ∀ path, path ≠ [] →
  (w ← resolve_value get_secret (dotted path) v; Ok (leaves path w)) = resolve_all (leaves path v).
Proof.
  induction v as [s|z|f|b|s|l|t IH] using TomlValue_ind; intros path Hp; try done.
  - cbn [resolve_value leaves resolve_all]. unfold resolve_leaf, named_secret, resolve_name.
    destruct (secret_name s) as [n|]; [|done]. by destruct (get_secret n).
  - cbn [resolve_value leaves].
    match goal with |- context [mbind _ (?g t)] => set (go := g) end.
    assert (H : (u ← go t; Ok (flat_map (λ kv : string * TomlValue, leaves (path ++ [kv.1]) kv.2) u)) =
                resolve_all (flat_map (λ kv : string * TomlValue, leaves (path ++ [kv.1]) kv.2) t)).
    { induction IH as [|[k v] t Hv _ IHt]; [done|]. cbn [flat_map fst snd] in Hv |- *. rewrite resolve_all_app, <- IHt, <- (Hv (path ++ [k])) by by destruct path.
      rewrite dotted_snoc by done. cbn [go]. fold go.
      destruct (resolve_value get_secret (dotted path +:+ "." +:+ k) v); try done. cbn. by destruct (go t). }
    rewrite <- H. by destruct (go t).
Qed.
Lemma resolve_props_leaves props : (w ← resolve_secrets_with get_secret props; Ok (props_leaves w)) = resolve_all (props_leaves props).
Proof.
  induction props as [|[k v] props IH]; [done|]. unfold props_leaves in *. cbn [flat_map fst snd resolve_secrets_with].
  rewrite resolve_all_app, <- IH, <- (resolve_value_leaves v [k]) by done. cbn [dotted foldl].
  destruct (resolve_value get_secret k v); try done. cbn. by destruct (resolve_secrets_with get_secret props).
Qed.

Lemma resolve_all_ok ls ws : resolve_all ls = Ok ws → Forall2 (λ l w, w.1 = l.1 ∧ resolve_leaf l.2 = inr w.2) ls ws.
Proof.
  revert ws. induction ls as [|[p v] ls IH]; intros ws; cbn [resolve_all]; [intros [= <-]; constructor|].
  destruct (resolve_leaf v) as [e|w] eqn:Ew; [done|]. destruct (resolve_all ls) as [ws'| |]; cbn; try done.
  intros [= <-]. constructor; [by split|by apply IH].
Qed.
Lemma resolve_all_err ls e : resolve_all ls = Err e →
  ∃ before p v after msg, ls = before ++ (p, v) :: after ∧ Forall (λ l, ∃ w, resolve_leaf l.2 = inr w) before ∧ resolve_leaf v = inl msg ∧
    e = FConfig CONFIG_SECRET_RESOLVE ("key '" +:+ dotted p +:+ "': " +:+ msg).
Proof.
  induction ls as [|[p v] ls IH]; cbn [resolve_all]; [done|]. destruct (resolve_leaf v) as [msg|w] eqn:Ew.
  - intros [= <-]. exists [], p, v, ls, msg. split_and!; [done|constructor|done|done].
  - destruct (resolve_all ls) as [ws|e'|]; cbn; try done. intros [= ->]. destruct IH as (before & p' & v' & after & msg & -> & Hb & Hv & He); [done|].
    exists ((p, v) :: before), p', v', after, msg. split_and!; [done|by constructor; [exists w|]|done|done].
Qed.
Lemma resolve_all_total ls : Forall (λ l, ∃ w, resolve_leaf l.2 = inr w) ls → ∃ ws, resolve_all ls = Ok ws.
Proof.
  induction 1 as [|[p v] ls (w & Hw) _ (ws & IH)]; [by eexists|]. cbn [resolve_all snd] in *. rewrite Hw, IH. by eexists.
Qed.
Lemma resolve_all_never_panics ls : resolve_all ls ≠ Panic.
Proof. induction ls as [|[p v] ls IH]; [done|]. cbn [resolve_all]. destruct (resolve_leaf v); [done|]. by destruct (resolve_all ls). Qed.

(** Without a reference there is nothing to do. *)
Lemma no_reference v : has_secret_ref v = false → ∀ path, Forall (λ l, named_secret l.2 = None) (leaves path v).
Proof.
  induction v as [s|z|f|b|s|l|t IH] using TomlValue_ind; intros Hr path; cbn [leaves]; try by (constructor; [done|constructor]).
  - constructor; [|constructor]. cbn [snd named_secret]. unfold secret_name, str_strip_prefix. cbn [has_secret_ref] in Hr. unfold is_secret_ref in Hr. by rewrite Hr.
  - cbn [has_secret_ref] in Hr. induction IH as [|kv t Hkv _ IHt]; [constructor|]. cbn [existsb flat_map] in *. apply orb_false_elim in Hr as [H1 H2].
    apply Forall_app. split; [by apply Hkv|by apply IHt].
Qed.
Lemma resolve_secrets_leaves props : (w ← resolve_secrets get_secret props; Ok (props_leaves w)) = resolve_all (props_leaves props).
Proof.
  unfold resolve_secrets. destruct (existsb _ props) eqn:E; [apply resolve_props_leaves|]. cbn [mbind outcome_bind].
  assert (Forall (λ l, named_secret l.2 = None) (props_leaves props)) as Hl.
  { induction props as [|kv props IH]; [constructor|]. cbn [existsb] in E. apply orb_false_elim in E as [E1 E2].
    unfold props_leaves. cbn [flat_map]. apply Forall_app. split; [by apply no_reference|by apply IH]. }
  induction Hl as [|[p v] ls Hv _ IH]; [done|]. cbn [resolve_all snd] in *. unfold resolve_leaf at 1. by rewrite Hv, <- IH.
Qed.
End Resolved.

Lemma refs_of_leaves {C : Type} (f : string → TomlValue → list C) (g : list string * TomlValue → option C) props :
  (∀ v path, f (path_key path) v = omap g (leaves path v)) → flat_map (λ kv : string * TomlValue, f (full_key "" kv.1) kv.2) props = omap g (props_leaves props).
Proof. intros Hf. apply flat_map_omap, Forall_true. intros kv. apply (Hf kv.2 [kv.1]). Qed.

(** Validation reports nothing exactly when no reference is without a name. *)
Lemma refs_valid connector_id props : validate_secret_refs connector_id props = [] ↔ Forall (λ l, blank_secret l.2 = false) (props_leaves props).
Proof.
  pose proof (refs_of_leaves _ _ props (validate_leaves connector_id)) as HV. fold (validate_secret_refs connector_id props) in HV.
  rewrite HV. generalize (props_leaves props) as ls. induction ls as [|l ls IH]; [by split; constructor|].
  rewrite Forall_cons, <- IH. cbn [omap list_omap]. destruct (blank_secret l.2); [split; [done|by intros [? _]]|tauto].
Qed.

(** Every reference to a secret, in whatever table it stands, is resolved.  After a successful resolution each text that
    starts with [secret://] is the secret of that name and every other value is as it was, in the same place; the only error is
    that of the first secret that is not found, and it names the key.  Validation reports exactly the references without a name,
    collection lists exactly the others, and when validation reports nothing and every secret it collects is there, resolution
    succeeds. *)
Theorem secrets_are_resolved get_secret connector_id props :
  (∀ r, resolve_secrets get_secret props = Ok r →
     Forall2 (λ l w, w.1 = l.1 ∧ resolve_leaf get_secret l.2 = inr w.2) (props_leaves props) (props_leaves r)) ∧
  (∀ e, resolve_secrets get_secret props = Err e →
     ∃ before p v after msg, props_leaves props = before ++ (p, v) :: after ∧ Forall (λ l, ∃ w, resolve_leaf get_secret l.2 = inr w) before ∧
       resolve_leaf get_secret v = inl msg ∧ e = FConfig CONFIG_SECRET_RESOLVE ("key '" +:+ dotted p +:+ "': " +:+ msg)) ∧
  (validate_secret_refs connector_id props = [] ↔ Forall (λ l, blank_secret l.2 = false) (props_leaves props)) ∧
  (∀ k n, (k, n) ∈ collect_secret_refs props ↔ ∃ p v, (p, v) ∈ props_leaves props ∧ k = path_key p ∧ named_secret v = Some n ∧ blank_secret v = false) ∧
  (validate_secret_refs connector_id props = [] → (∀ k n, (k, n) ∈ collect_secret_refs props → ∃ s, get_secret n = inr s) →
     ∃ r, resolve_secrets get_secret props = Ok r).
Proof.
  pose proof (resolve_secrets_leaves get_secret props) as HR.
  pose proof (refs_of_leaves _ _ props collect_leaves) as HC. fold (collect_secret_refs props) in HC.
  pose proof (refs_valid connector_id props) as H3.
  assert (H4 : ∀ k n, (k, n) ∈ collect_secret_refs props ↔ ∃ p v, (p, v) ∈ props_leaves props ∧ k = path_key p ∧ named_secret v = Some n ∧ blank_secret v = false).
  { intros k n. rewrite HC, list_elem_of_omap. split.
    - intros ([p v] & Hin & E). exists p, v. cbn [fst snd] in E. destruct (blank_secret v); [done|]. destruct (named_secret v); [|done]. by injection E as <- <-.
    - intros (p & v & Hin & -> & Hn & Hb). exists (p, v). split; [done|]. cbn [fst snd]. by rewrite Hb, Hn. }
  split_and!; [| |exact H3|exact H4|].
  - intros r Er. rewrite Er in HR. by apply resolve_all_ok.
  - intros e Er. rewrite Er in HR. by apply resolve_all_err.
  - intros Hv%H3 Hs. destruct (resolve_all_total get_secret (props_leaves props)) as [ws Hws].
    + apply Forall_forall. intros [p v] Hin. unfold resolve_leaf. cbn [snd]. destruct (named_secret v) as [n|] eqn:En; [|by eexists].
      rewrite Forall_forall in Hv. destruct (Hs (path_key p) n) as [s ->]; [|by eexists]. apply H4. exists p, v. split_and!; [done..|]. by apply (Hv (p, v)).
    + rewrite Hws in HR. destruct (resolve_secrets get_secret props) as [r| |]; [by exists r|done..].
Qed.
End SecretsCorrect.

Lemma secrets_are_resolved_witness :
  let props := [("url", TString "secret://db/url"); ("auth", TTable [("user", TString "admin"); ("password", TString "secret://db/pw")])] in
  ∃ r, Secrets.resolve_secrets (λ n, inr ("<" +:+ n +:+ ">")) props = Ok r ∧
    Forall2 (λ l w, w.1 = l.1 ∧ resolve_leaf (λ n, inr ("<" +:+ n +:+ ">")) l.2 = inr w.2) (props_leaves props) (props_leaves r).
Proof.
  intros props. destruct (secrets_are_resolved (λ n, inr ("<" +:+ n +:+ ">")) "pg" props) as (H1 & _ & _ & _ & H5).
  destruct (H5 eq_refl) as [r Hr]; [intros k n _; by eexists|]. exists r. split; [exact Hr|by apply H1].
Defined.

(** A reference inside an array is neither resolved nor validated. *)
Lemma secret_in_array_stays get_secret connector_id k l :
  Secrets.resolve_secrets get_secret [(k, TArray l)] = Ok [(k, TArray l)] ∧ Secrets.validate_secret_refs connector_id [(k, TArray l)] = [].
Proof. done. Qed.

(** * Validation *)

Section ValidateCorrect.
Import FuseConfig Tls.
Context (file_exists : string → bool) (known : list string).

(** TLS files that exist, and a certificate and its key together. *)
Definition tls_sound (t : TlsConfig) : Prop :=
  (∀ p, p ∈ option_list (ca_cert t) ++ option_list (client_cert t) ++ option_list (client_key t) → file_exists p = true) ∧
  (is_Some (client_cert t) ↔ is_Some (client_key t)).
Definition connector_sound (c : ConnectorConfig) : Prop :=
  cc_id c ≠ "" ∧ cc_type c ≠ "" ∧ cc_type c ∈ known ∧ (∀ t, tls_config c = Some t → tls_sound t) ∧
  Forall (λ l, blank_secret l.2 = false) (props_leaves (properties c)).

Lemma check_file p f : (∃ u, check_file_exists file_exists p f = Ok u) ↔ file_exists p = true.
Proof. unfold check_file_exists. destruct (file_exists p); [|by split; [intros [? ?]|]]. split; [done|]. by eexists. Qed.

Lemma tls_validate_sound t : (∃ u, tls_validate file_exists t = Ok u) ↔ tls_sound t.
Proof.
  unfold tls_sound. destruct t as [ca cert key]. cbn [ca_cert client_cert client_key]. unfold tls_validate, check_file_exists. cbn [ca_cert client_cert client_key].
  assert (Hin : ∀ (P : Prop) l, (∀ p : string, p ∈ l → file_exists p = true) ∧ P ↔ Forall (λ p, file_exists p = true) l ∧ P) by (intros P l; by rewrite Forall_forall).
  rewrite Hin.
  destruct ca as [ca|]; [destruct (file_exists ca) eqn:Eca|]; destruct cert as [cert|]; (try destruct (file_exists cert) eqn:Ec);
    destruct key as [key|]; (try destruct (file_exists key) eqn:Ek); cbn; rewrite ?Forall_cons, ?Forall_nil; split;
    try (intros [? [=]]); try (by eexists);
    try (intros _; split_and!; try done; by split; eauto);
    try (intros [Hf [H1 H2]]; try (destruct H1 as [? [=]]; eauto); try (destruct H2 as [? [=]]; eauto); intuition congruence).
Qed.

Lemma tls_errors_none i c : tls_errors file_exists i c = [] ↔ ∀ t, tls_config c = Some t → tls_sound t.
Proof.
  unfold tls_errors. destruct (tls_config c) as [t|]; [|done]. assert (Hnp : tls_validate file_exists t ≠ Panic).
  { unfold tls_validate, check_file_exists. destruct (ca_cert t); [destruct (file_exists _)|]; destruct (client_cert t), (client_key t); cbn; repeat destruct (file_exists _); done. }
  split.
  - intros E t' [= <-]. apply tls_validate_sound. destruct (tls_validate file_exists t); [by eexists|done|done].
  - intros Ht. specialize (Ht t eq_refl). apply tls_validate_sound in Ht as [u ->]. done.
Qed.
Lemma type_errors_none i c : type_errors known i c = [] ↔ cc_type c ≠ "" ∧ cc_type c ∈ known.
Proof.
  unfold type_errors. destruct (String.eqb_spec (cc_type c) ""); [split; [done|tauto]|]. case_bool_decide; [done|]. split; [done|tauto].
Qed.

Lemma connector_errors_none cs : ∀ seen i, connector_errors file_exists known seen i cs = [] ↔
  Forall connector_sound cs ∧ NoDup (cc_id <$> cs) ∧ Forall (λ c, cc_id c ∉ seen) cs.
Proof.
  induction cs as [|c cs IH]; intros seen i; cbn [connector_errors fmap list_fmap].
  { split; [|done]. intros _. split_and!; constructor. }
  rewrite !app_nil, IH, type_errors_none, tls_errors_none, !Forall_cons, NoDup_cons. clear IH.
  rewrite refs_valid.
  unfold id_errors, connector_sound. destruct (String.eqb_spec (cc_id c) "") as [E|E]; [split; [by intros [? _]|tauto]|].
  case_bool_decide as Hc; [split; [by intros [? _]|tauto]|]. split.
  - intros (_ & (Ht & Ht') & Htl & Hsec & Hcs & Hnd & Hseen). split_and!; try done.
    + intros (c' & Ec & Hc')%list_elem_of_fmap. rewrite Forall_forall in Hseen. specialize (Hseen c' Hc'). rewrite <- Ec in Hseen. apply Hseen. by left.
    + eapply Forall_impl; [exact Hseen|]. intros x Hx Hin. apply Hx. by right.
  - intros ((( _ & Ht & Ht' & Htl & Hsec) & Hcs) & (Hni & Hnd) & _ & Hseen). split_and!; try done.
    rewrite Forall_forall in *. intros x Hx [Hin|Hin]%elem_of_cons; [|by eapply Hseen].
    apply Hni. apply list_elem_of_fmap. by exists x.
Qed.
End ValidateCorrect.


(** * The registry at startup *)

Section StartupCorrect.
Import FuseConfig Startup Secrets.
Context (get_secret : string → string + string) (factories : list Factory) (otel_connector : string → OtelStore → Source).

(** The connector a configuration stands for, if its secrets are found, its type has a factory and it can be made. *)
Definition built (c : ConnectorConfig) : option Source :=
  match resolve_secrets get_secret (properties c) with
  | Ok props =>
      let c := resolved c props in
      if String.eqb (cc_type c) "otel" then Some (otel_connector (cc_id c) (otel_store_of c))
      else head (filter (λ f, f_type f = cc_type c) factories) ≫= λ f, ok_value (f_create f c)
  | _ => None
  end.

(** A factory makes a connector with the name it is given, or fails. *)
Definition names_kept : Prop :=
  (∀ f c, f ∈ factories → f_create f c ≠ Panic ∧ ∀ s, f_create f c = Ok s → source_id s = cc_id c) ∧ (∀ id o, source_id (otel_connector id o) = id).

Lemma put_fresh st s o : st.1 !! source_id s = None → ∃ o', put st s o = Ok (<[source_id s := s]> st.1, o').
Proof. intros Hf. unfold put, register. rewrite Hf. cbn. by eexists. Qed.

Lemma start_one_built c st : names_kept → st.1 !! cc_id c = None →
  ∃ o, start_one get_secret factories otel_connector c st = Ok (match built c with Some s => <[cc_id c := s]> st.1 | None => st.1 end, o).
Proof.
  intros [Hf Ho] Hfresh. unfold start_one, built. destruct (resolve_secrets get_secret (properties c)) as [props|e|] eqn:Er.
  - cbn [cc_type cc_id resolved]. destruct (String.eqb (cc_type c) "otel").
    + destruct (put_fresh st (otel_connector (cc_id c) (otel_store_of (resolved c props))) (Some (otel_store_of (resolved c props)))) as [o Hp]; [by rewrite Ho|].
      exists o. by rewrite Hp, Ho.
    + destruct (filter _ factories) as [|f fs] eqn:Ef; cbn; [exists st.2; by destruct st|].
      assert (Hin : f ∈ factories) by (eapply list_elem_of_filter; rewrite Ef; by left).
      destruct (Hf f (resolved c props) Hin) as [Hnp Hid]. destruct (f_create f (resolved c props)) as [s|e|] eqn:Ec; [|exists st.2; by destruct st|done].
      specialize (Hid s eq_refl). cbn [cc_id resolved] in Hid. destruct (put_fresh st s None) as [o Hp]; [by rewrite Hid|]. exists o. cbn. by rewrite Hp, Hid.
  - exists st.2. by destruct st.
  - exfalso. pose proof (resolve_secrets_leaves get_secret (properties c)) as HR. rewrite Er in HR. by apply (resolve_all_never_panics get_secret (props_leaves (properties c))).
Qed.

Lemma start_all_built cs : ∀ st, names_kept → NoDup (cc_id <$> cs) → (∀ c, c ∈ cs → st.1 !! cc_id c = None) →
  ∃ r o, start_all get_secret factories otel_connector cs st = Ok (r, o) ∧
    ∀ id s, r !! id = Some s ↔ st.1 !! id = Some s ∨ ∃ c, c ∈ cs ∧ cc_id c = id ∧ built c = Some s.
Proof.
  induction cs as [|c cs IH]; intros st Hn Hnd Hfresh.
  { exists st.1, st.2. split; [by destruct st|]. intros id s. split; [by left|]. intros [?|(c & []%not_elem_of_nil & _)]. done. }
  cbn [fmap list_fmap] in Hnd. apply NoDup_cons in Hnd as [Hni Hnd]. cbn [start_all].
  destruct (start_one_built c st Hn (Hfresh c ltac:(by left))) as [o ->]. cbn [mbind outcome_bind].
  set (r1 := match built c with Some s => <[cc_id c := s]> st.1 | None => st.1 end).
  assert (Hne : ∀ c', c' ∈ cs → cc_id c' ≠ cc_id c) by (intros c' Hc' E; apply Hni, list_elem_of_fmap; by exists c').
  destruct (IH (r1, o) Hn Hnd) as (r & o' & Hr & Hspec).
  { intros c' Hc'. cbn [fst]. unfold r1. specialize (Hfresh c' ltac:(by right)). specialize (Hne c' Hc'). destruct (built c); [by rewrite lookup_insert_ne|done]. }
  exists r, o'. split; [done|]. intros id s. rewrite Hspec. cbn [fst].
  assert (H1 : r1 !! id = Some s ↔ st.1 !! id = Some s ∨ cc_id c = id ∧ built c = Some s).
  { unfold r1. pose proof (Hfresh c ltac:(by left)) as Hc. destruct (built c) as [s'|]; [|split; [by left|by intros [?|[_ ?]]]].
    rewrite lookup_insert_Some. split.
    - intros [[-> <-]|[_ ?]]; auto.
    - intros [Hs|[<- [= <-]]]; [|by left]. right. split; [|done]. intros <-. by rewrite Hc in Hs. }
  rewrite H1. split.
  - intros [[?|[? ?]]|(c' & Hc' & ? & ?)]; [by left|right; exists c; split; [by left|done]|right; exists c'; split; [by right|done]].
  - intros [?|(c' & [->|Hc']%elem_of_cons & ? & ?)]; [by left; left|by left; right|right; by exists c'].
Qed.

Context `{Sem : Semaphore} `{Gov : Governor}.

(** The limits the file sets are limits: no rate is zero, and no datasource gets more permits than a semaphore holds. *)
Definition limits_sound (cfg : FuseConfig) : Prop :=
  rate_limit_global (engine cfg) ≠ 0%N ∧ rate_limit_per_ip (engine cfg) ≠ 0%N ∧ Forall (λ c, max_queries c ≤ 2 ^ 61 - 1)%N (connectors cfg).

Lemma register_limits_spec cs : ∀ l : gmap string semaphore, NoDup (cc_id <$> cs) → (∀ c, c ∈ cs → l !! cc_id c = None) →
  (Forall (λ c, max_queries c ≤ 2 ^ 61 - 1)%N cs → ∃ l', register_limits cs l = Ok l' ∧
     ∀ id, l' !! id = match list_find (λ c, cc_id c = id) cs with
                      | Some (_, c) => Some (semaphore_new (if (max_queries c =? 0)%N then 16 else N.to_nat (max_queries c)))
                      | None => l !! id end) ∧
  (¬ Forall (λ c, max_queries c ≤ 2 ^ 61 - 1)%N cs → register_limits cs l = Panic).
Proof.
  induction cs as [|c cs IH]; intros l Hnd Hfresh; [split; [intros _; by exists l|intros []; constructor]|].
  cbn [fmap list_fmap] in Hnd. apply NoDup_cons in Hnd as [Hni Hnd]. cbn [register_limits].
  rewrite bool_decide_eq_true_2 by (apply Hfresh; by left). cbn [andb]. unfold MAX_PERMITS.
  assert (Hl : limiter_register l (cc_id c) (N.to_nat (max_queries c)) =
    <[cc_id c := semaphore_new (if (max_queries c =? 0)%N then 16 else N.to_nat (max_queries c))]> l).
  { unfold limiter_register. pose proof (Hfresh c ltac:(by left)) as Hnone. cbv beta in Hnone. unfold DatasourceLimiter in *. rewrite Hnone.
    destruct (N.eqb_spec (max_queries c) 0) as [->|E], (Nat.eqb_spec (N.to_nat (max_queries c)) 0); [done|done|lia|done]. }
  destruct (N.ltb_spec (2 ^ 61 - 1) (max_queries c)) as [Hlt|Hle].
  { split; [intros [? _]%Forall_cons; lia|done]. }
  destruct (IH (limiter_register l (cc_id c) (N.to_nat (max_queries c))) Hnd) as [H1 H2].
  { intros c' Hc'. rewrite Hl, lookup_insert_ne; [apply Hfresh; by right|]. intros E. apply Hni, list_elem_of_fmap. by exists c'. }
  rewrite Forall_cons. split.
  - intros [_ Hcs]. destruct (H1 Hcs) as (l' & -> & Hspec). exists l'. split; [done|]. intros id. rewrite Hspec, Hl. cbn [list_find].
    destruct (decide (cc_id c = id)) as [<-|Hne].
    + destruct (list_find (λ c', cc_id c' = cc_id c) cs) as [[i c']|] eqn:Ef; [|by rewrite lookup_insert_eq].
      apply list_find_Some in Ef as (Hi & E & _). exfalso. apply Hni, list_elem_of_fmap. exists c'. split; [done|by eapply list_elem_of_lookup_2].
    + destruct (list_find (λ c', cc_id c' = id) cs) as [[i c']|]; [done|]. by rewrite lookup_insert_ne.
  - intros Hn. apply H2. intros Hcs. by apply Hn.
Qed.

(** C23: the start of the server.  An invalid configuration ends it with the error of the validation.  A valid one starts,
    up to the router, if no rate limit is zero and no datasource is given more permits than a semaphore holds; otherwise
    the start panics, although the validation passed.  When it starts, the registry holds exactly the connectors that can
    be made: for every entry whose secrets are found, whose type has a factory and whose connector is created, that
    connector under the name of the entry, and nothing else - an entry that cannot be made is left out and stops nobody
    else; and every entry has as many permits as it asks for, 16 when it asks for none.  The factories make connectors
    with the name they are given, or fail, and do not panic. *)
Theorem startup_registers_validated bind_error file_exists cfg : names_kept →
  let started := start get_secret factories otel_connector bind_error file_exists cfg in
  match validate bind_error file_exists known_types cfg with
  | Ok _ =>
      (limits_sound cfg → ∃ s, started = Ok s ∧
         (∀ id c, sv_registry s !! id = Some c ↔ ∃ e, e ∈ connectors cfg ∧ cc_id e = id ∧ built e = Some c) ∧
         (∀ e, e ∈ connectors cfg → sv_datasources s !! cc_id e =
            Some (semaphore_new (if (max_queries e =? 0)%N then 16 else N.to_nat (max_queries e))))) ∧
      (¬ limits_sound cfg → started = Panic)
  | Err e => started = Err (InvalidConfig e)
  | Panic => False
  end.
Proof.
  intros Hn started. unfold started, start. destruct (validate bind_error file_exists known_types cfg) as [u|e|] eqn:Hv; [|done|].
  2: { unfold validate in Hv. by destruct (engine_errors _ _ ++ _). }
  unfold validate in Hv. destruct (engine_errors _ _ ++ _) as [|? ?] eqn:E; [|done]. apply app_nil in E as [_ E].
  apply connector_errors_none in E as (_ & Hnd & _).
  destruct (start_all_built (connectors cfg) (registry_new, None) Hn Hnd) as (r & o & -> & Hs); [done|].
  destruct (register_limits_spec (connectors cfg) limiter_new Hnd) as [Hok Hbad]; [done|].
  unfold limits_new, with_key_limit, limits_sound. split.
  - intros (Hg & Hi & Hc). destruct (Hok Hc) as (l & -> & Hl). cbn [mbind outcome_bind].
    rewrite (proj2 (N.eqb_neq _ _) Hg), (proj2 (N.eqb_neq _ _) Hi). cbn. eexists. split; [done|]. cbn [sv_registry sv_datasources]. split.
    + intros id c. rewrite Hs. cbn [fst]. unfold registry_new. rewrite lookup_empty. split; [by intros [?|?]|by right].
    + intros e He. rewrite Hl. destruct (list_find (λ c, cc_id c = cc_id e) (connectors cfg)) as [[i c]|] eqn:Ef.
      * apply list_find_Some in Ef as (Hci & Ec & _). apply list_elem_of_lookup in He as [j Hj].
        assert (i = j) as ->; [|rewrite Hci in Hj; by injection Hj as ->]. eapply (NoDup_lookup (cc_id <$> connectors cfg)); [done|by rewrite list_lookup_fmap, Hci|].
        rewrite list_lookup_fmap, Hj. cbn. by rewrite Ec.
      * apply list_find_None in Ef. rewrite Forall_forall in Ef. by destruct (Ef e He).
  - intros Hns. destruct (decide (Forall (λ c, max_queries c ≤ 2 ^ 61 - 1)%N (connectors cfg))) as [Hc|Hc]; [|by rewrite (Hbad Hc)].
    destruct (Hok Hc) as (l & -> & _). cbn [mbind outcome_bind].
    destruct (N.eqb_spec (rate_limit_global (engine cfg)) 0), (N.eqb_spec (rate_limit_per_ip (engine cfg)) 0); try done. tauto.
Qed.
End StartupCorrect.

(** Two entries: one whose secret is found and one whose type has no factory. *)
Definition ex_source (id : string) : Source :=
  mkSource "postgres" {| connector_id := id;
    capabilities := full;
    execute := λ _, Ok [] |}.
Definition ex_factory : Startup.Factory := Startup.mkFactory "postgres" (λ c, Ok (ex_source (FuseConfig.cc_id c))).
Definition ex_config : FuseConfig.FuseConfig :=
  FuseConfig.mkFuseConfig FuseConfig.default_engine
    [FuseConfig.mkConnectorConfig "db" "postgres" [("url", TString "secret://db/url")];
     FuseConfig.mkConnectorConfig "metrics" "prometheus" []] (mkSecurity false []).


(** Counters for semaphores and buckets. *)
#[local] Instance ex_semaphore : Semaphore := {| semaphore := nat; semaphore_new n := n; try_take n := Some n; give_back n := n; available_permits n := n |}.
#[local] Instance ex_governor : Governor := {| bucket := N; bucket_new n := n; bucket_check b _ := (true, b) |}.

Lemma startup_registers_validated_witness :
  ∃ s, Startup.start (λ n, inr n) [ex_factory] (λ id _, ex_source id) (λ _, None) (λ _, false) ex_config = Ok s ∧
    Startup.sv_registry s !! "db" = Some (ex_source "db") ∧ Startup.sv_registry s !! "metrics" = None ∧
    Startup.sv_datasources s !! "db" = Some 16.
Proof.
  destruct (startup_registers_validated (λ n, inr n) [ex_factory] (λ id _, ex_source id) (λ _, None) (λ _, false) ex_config) as [H _].
  - split; [|done]. intros f c ->%list_elem_of_singleton. split; [done|]. by intros s [= <-].
  - destruct H as (s & Hs & Hr & Hd); [split; [done|split; [done|repeat constructor; vm_compute; discriminate]]|]. exists s. split_and!; [exact Hs| | |].
    + apply Hr. exists (FuseConfig.mkConnectorConfig "db" "postgres" [("url", TString "secret://db/url")]). split; [by left|done].
    + destruct (Startup.sv_registry s !! "metrics") as [c|] eqn:E; [|done]. apply Hr in E as (e & He & Hid & Hb). cbn [FuseConfig.connectors ex_config] in He.
      rewrite !elem_of_cons, elem_of_nil in He. destruct He as [->|[->|[]]]; discriminate.
    + apply (Hd (FuseConfig.mkConnectorConfig "db" "postgres" [("url", TString "secret://db/url")])). by left.
Defined.

(** A rate limit of zero passes the validation and ends the start with a panic; so does a negative number of queries for
    a datasource, which becomes a number near 2^64. *)
Definition with_rate (n : N) : FuseConfig.EngineConfig :=
  FuseConfig.mkEngineConfig "0.0.0.0:9400" 64 "30s" n 100 [] 104857600 FuseConfig.default_cache.
Lemma zero_rate_limit_panics get_secret factories otel :
  let cfg := FuseConfig.mkFuseConfig (with_rate 0) [] (mkSecurity false []) in
  FuseConfig.validate (λ _, None) (λ _, false) Startup.known_types cfg = Ok () ∧
  Startup.start get_secret factories otel (λ _, None) (λ _, false) cfg = Panic.
Proof. split; reflexivity. Qed.
Lemma negative_queries_panic get_secret factories otel :
  let cfg := FuseConfig.mkFuseConfig (with_rate 1) [FuseConfig.mkConnectorConfig "db" "kafka" [("max_concurrent_queries", TInteger (-1))]] (mkSecurity false []) in
  FuseConfig.validate (λ _, None) (λ _, false) Startup.known_types cfg = Ok () ∧
  (factories = [] → Startup.start get_secret factories otel (λ _, None) (λ _, false) cfg = Panic).
Proof. split; [by vm_compute|]. intros ->. by vm_compute. Qed.

(** Types that pass the validation and have no factory: their entries are left out with a warning. *)
Lemma known_without_factory :
  filter (λ t, t ∉ Startup.factory_types) Startup.known_types = ["s3"; "prometheus"; "kafka"].
Proof. by vm_compute. Qed.

(** A negative number of connections becomes a number near 2^32. *)
Lemma negative_connections_wrap id t d :
  FuseConfig.max_connections (FuseConfig.mkConnectorConfig id t [("max_connections", TInteger (-1))]) d = 4294967295%N.
Proof. done. Qed.

(** A TLS table without any path is a TLS configuration that configures nothing, and validation accepts it. *)
Lemma empty_tls_configures_nothing file_exists :
  ∃ t, Tls.from_properties [("tls", TTable [])] = Some t ∧ Tls.is_configured t = false ∧ Tls.tls_validate file_exists t = Ok ().
Proof. by eexists. Qed.

(** * Addresses *)

Section UrlCorrect.
Import Urls.

Lemma avoids_app c s t : avoids c s → avoids c t → avoids c (s +:+ t).
Proof. unfold avoids. intros Hs Ht. by rewrite str_all_app, Hs, Ht. Qed.

Lemma find_sub_at c p s t : avoids c s → find_sub (String c p) (s +:+ String c p +:+ t) = Some (String.length s).
Proof. intros Hs. apply find_sub_after. eapply str_all_impl; [|exact Hs]. intros a. unfold is_char. by rewrite Ascii.eqb_sym. Qed.

Lemma str_drop_at s t : str_drop (String.length s) (s +:+ t) = t.
Proof. rewrite <- (Nat.add_0_r (String.length s)), str_drop_app. done. Qed.

Lemma parse_parts sch authority rest : avoids ":" sch → avoids "/" authority →
  parse (sch +:+ "://" +:+ authority +:+ String "/" rest) =
    Ok (let hp := split_authority authority in mkUrl sch hp.1 hp.2 (String "/" rest) (tls_scheme sch)).
Proof.
  intros Hs Ha. unfold parse. change ("://" +:+ authority +:+ String "/" rest) with (String ":" "//" +:+ (authority +:+ String "/" rest)).
  rewrite find_sub_at, str_take_app, str_drop_app by done. change (str_drop 3 (String ":" "//" +:+ ?t)) with t.
  change (String "/" rest) with (String "/" "" +:+ rest). rewrite find_sub_at by done.
  rewrite str_take_app, str_drop_at. change (String "/" "" +:+ rest) with (String "/" rest).
  by destruct (split_authority authority).
Qed.

Lemma split_host_port h (p : N) : (p ≤ 65535)%N → split_authority (h +:+ ":" +:+ pretty p) = (h, Some p).
Proof.
  intros Hp. unfold split_authority. change (":" +:+ pretty p) with (String ":" (pretty p)). rewrite rsplit_once_last by by apply digits_avoid.
  unfold parse_u16. rewrite parse_u64_pretty by (unfold u64_max; lia). cbn. by destruct (N.leb_spec p 65535); [|lia].
Qed.
Lemma split_host h : avoids ":" h → split_authority h = (h, None).
Proof. intros Hh. unfold split_authority, rsplit_once. by rewrite rfind_char_none. Qed.

Lemma split_authority_port a q : (split_authority a).2 = Some q → (q ≤ 65535)%N.
Proof.
  unfold split_authority, parse_u16. destruct (rsplit_once ":" a) as [[h p]|]; [|done].
  destruct (parse_u64 p) as [n|]; cbn; [|done]. destruct (N.leb_spec n 65535); [|done]. by intros [= <-].
Qed.
Lemma find_char_tail c t j : find_sub (String c "") t = Some j → ∃ r, str_drop j t = String c r.
Proof.
  revert j. induction t as [|a t IH]; intros j; [done|]. cbn [find_sub]. unfold starts_with. cbn [String.prefix].
  destruct (ascii_dec c a) as [<-|].
  - replace (String.prefix "" t) with true by by destruct t. intros [= <-]. by exists t.
  - destruct (find_sub (String c "") t) as [i|]; [|done]. intros [= <-]. by apply IH.
Qed.

(** The parts an address can be written from: a scheme without a colon, a host without a slash, and without a colon when
    there is no port, a port of 16 bits, a path from the root, and the flag the scheme says. *)
Definition url_sound (u : ConnectorUrl) : Prop :=
  avoids ":" (scheme u) ∧ avoids "/" (host u) ∧ (port u = None → avoids ":" (host u)) ∧ (∀ p, port u = Some p → (p ≤ 65535)%N) ∧
  (∃ rest, path u = String "/" rest) ∧ is_tls u = tls_scheme (scheme u).

(** An address written from sound parts is read back as those parts; what is read has a port of 16 bits, a path from
    the root and the flag of its scheme, and reading fails exactly when the text has no scheme. *)
Theorem url_round_trip u url :
  (url_sound u → parse (to_url u) = Ok u) ∧
  (∀ v, parse url = Ok v → (∀ p, port v = Some p → (p ≤ 65535)%N) ∧ (∃ rest, path v = String "/" rest) ∧ is_tls v = tls_scheme (scheme v)) ∧
  ((∃ e, parse url = Err e) ↔ find_sub "://" url = None).
Proof.
  split.
  - intros (Hs & Hh & Hn & Hp & (rest & Er) & Ht). destruct u as [s h [p|] pa t]; cbn [scheme host port path is_tls] in *; subst; unfold to_url; cbn [scheme host port path].
    + rewrite (str_app_assoc ":"), (str_app_assoc h).
      rewrite parse_parts, split_host_port; [done|by apply Hp|done|].
      apply avoids_app; [done|]. change (":" +:+ pretty p) with (String ":" "" +:+ pretty p). apply avoids_app; [done|by apply digits_avoid].
    + rewrite parse_parts, split_host by auto. done.
  - unfold parse. destruct (find_sub "://" url) as [i|]; [|split; [done|by split; [|eexists]]].
    set (after := str_drop (i + 3) url).
    assert (Hr : ∃ r, (match find_sub "/" after with Some j => (str_take j after, str_drop j after) | None => (after, "/") end).2 = String "/" r).
    { destruct (find_sub "/" after) as [j|] eqn:Ej; [|by exists ""]. by apply find_char_tail. }
    destruct (match find_sub "/" after with Some j => _ | None => _ end) as [a pa]. cbn [snd] in Hr.
    pose proof (split_authority_port a) as Hsp. destruct (split_authority a) as [h p'] eqn:Esp. cbn [snd] in Hsp.
    split; [|by split; [intros [? [=]]|]]. by intros v [= <-].
Qed.
End UrlCorrect.

Lemma url_round_trip_witness : Urls.parse (Urls.to_url (Urls.mkUrl "https" "search.local" (Some 9200%N) "/logs" true)) =
  Ok (Urls.mkUrl "https" "search.local" (Some 9200%N) "/logs" true).
Proof. apply (url_round_trip _ ""). split_and!; try done; [by intros p [= <-]|by exists "logs"]. Defined.

(** A port that is no number of 16 bits stays in the host, and the host of a numbered address without a port loses its end. *)
Lemma bad_port_joins_host :
  Urls.parse "http://db:70000/x" = Ok (Urls.mkUrl "http" "db:70000" None "/x" false) ∧
  Urls.parse "http://[::1]/x" = Ok (Urls.mkUrl "http" "[::1]" None "/x" false) ∧
  Urls.parse "http://fe80::1/x" = Ok (Urls.mkUrl "http" "fe80:" (Some 1%N) "/x" false).
Proof. by vm_compute. Qed.

(** * Versions *)

(** A connector is usable with this engine exactly when its major version is the engine's: no connector of that major
    version is below the minimum, and one with a newer minor version is reported as ahead and not refused. *)
Theorem usable_same_major v :
  (Versions.is_usable (Versions.check Versions.current Versions.minimum_supported v) = true ↔ Versions.major v = 1%N) ∧
  (Versions.check Versions.current Versions.minimum_supported v = Versions.Compatible ↔ Versions.major v = 1%N ∧ Versions.minor v = 0%N).
Proof.
  destruct v as [a b c]. unfold Versions.check, Versions.version_lt. cbn.
  destruct (N.eqb_spec a 1) as [->|]; cbn; [|split; split; try done; by intros [? _]].
  assert (Hlt : ((b <? 0) || (b =? 0) && (c <? 0))%N = false).
  { destruct (N.ltb_spec b 0), (N.ltb_spec c 0); cbn; lia. }
  rewrite Hlt. destruct (N.ltb_spec 0 b); split; split; try done; try (intros [? ?]; lia); intros _; split; lia.
Qed.
