(* ===== verification/Endpoints.v ===== *)
(** * Endpoints: the handlers around the query endpoint

    Models handlers of [crates/fuse-server/src/api.rs] other than
    [query_handler]: the downloads and the comparison of two queries, the
    listing of datasources with the schema cache, the validation and the
    explanation of a query, the REST interface of the materialized views, the
    evaluation of the alert rules, the search for a trace, several statements
    in one request, and the translation of a question to SQL.

    A handler is a function of the parts of the state it uses.  Its answer is
    an [outcome]: the body, or the status and the message of [error_json].
    The schemas a connector discovers are parameters. *)

From S2P Require Import Prelude Strs Float Json JsonRef Sorting Stores Logs Tenancy Transactions Views Arrow Connector Errors Cost SqlText SqlToSubquery.
From S2P Require Import Alerts CoreStores MetricQueries Export Merger QueryText QueryTextCorrect QueryStrings Security ServerState ArrowRef Results Federate FederateCorrect QueryHandler QueryHandlerCorrect.
From stdpp Require Import base list strings gmap pretty sorting.
From Stdlib Require Import NArith ZArith Lia Ascii SpecFloat.
Import Json.

Abbreviation Answer := (outcome (N * string)).
Definition refuse {A : Type} (status : N) (msg : string) : Answer A := Err (error_json status msg).
Definition no_datasource {A : Type} (id : string) : Answer A := refuse 404 ("datasource '" +:+ id +:+ "' not found").

(** ** Downloads and comparisons *)

Module Downloads.
Section Downloads.
Context `{K : ArrowKernels} `{J : JsonOps} `{E : QueryEnv}.

(** The sources of the text, at least one. *)
Definition sources_of (query format : string) : Answer (list (string * string)) :=
  match parse_sources format query with
  | Ok [] | Err _ => refuse 400 "no datasource.table references found"
  | Ok refs => Ok refs
  | Panic => Panic
  end.

(** The rows of every source, one after the other. *)
Fixpoint fetch_all (reg : Registry) (query format : string) (refs : list (string * string)) : Answer (list RecordBatch) :=
  match refs with
  | [] => Ok []
  | (ds_id, tbl) :: refs =>
      match registry_get reg ds_id with
      | None => no_datasource ds_id
      | Some c =>
          sq ← map_err (error_json 400) (build_sub_query query format tbl);
          b ← map_err (λ e, error_json 500 (connector_error_display e)) (@execute (connector c) sq);
          rest ← fetch_all reg query format refs;
          Ok (b ++ rest)
      end
  end.
Definition fetch (reg : Registry) (req_query req_format : string) : Answer (list RecordBatch) :=
  let format := to_lowercase req_format in
  let query := rewrite_contains req_query in
  refs ← sources_of query format; fetch_all reg query format refs.

(** A string is always quoted. *)
Definition download_cell (v : Value) : string :=
  match v with
  | JString s => String QUOTE (replace (String QUOTE "") (String QUOTE (String QUOTE "")) s) +:+ String QUOTE ""
  | JNull => ""
  | other => to_string other
  end.
Definition export_csv_handler (reg : Registry) (query format : string) : Answer string :=
  batches ← fetch reg query format;
  let '(columns, rows) := batches_to_json batches in
  Ok (csv_lines (columns :: map (map download_cell) rows)).

Definition record_of (columns : list string) (r : row) : Value := Export.ndjson_object columns r.
Definition export_json_handler (reg : Registry) (query format : string) : Answer (list Value) :=
  batches ← fetch reg query format;
  let '(columns, rows) := batches_to_json batches in Ok (record_of columns <$> rows).

(** [run_query] of [query_diff_handler]: every source passes the field policies for a user without name and roles. *)
Definition nobody : UserContext := mkUser "" [].
Definition or_nothing {A : Type} (r : outcome EngineError (list A)) : outcome string (list A) :=
  match r with Ok l => Ok l | Err _ => Ok [] | Panic => Panic end.
Definition shown_batches (rbac : option (list PolicyConfig)) (ds_id tbl : string) (bs : list RecordBatch) : outcome string (list RecordBatch) :=
  match rbac with None => Ok bs | Some engine => or_nothing (filter_batches engine bs ds_id tbl nobody) end.
Fixpoint run_sources (rbac : option (list PolicyConfig)) (reg : Registry) (query format : string) (refs : list (string * string))
    : outcome string (list RecordBatch) :=
  match refs with
  | [] => Ok []
  | (ds_id, tbl) :: refs =>
      c ← ok_or (registry_get reg ds_id) ("datasource '" +:+ ds_id +:+ "' not found");
      sq ← build_sub_query query format tbl;
      bs ← map_err connector_error_display (@execute (connector c) sq);
      bs ← shown_batches rbac ds_id tbl bs;
      rest ← run_sources rbac reg query format refs;
      Ok (bs ++ rest)
  end.
Definition run_query (rbac : option (list PolicyConfig)) (reg : Registry) (query format : string)
    : outcome string (list string * list (list Value)) :=
  let query := rewrite_contains query in
  match parse_sources format query with
  | Ok [] | Err _ => Err "no datasource.table references found"
  | Ok refs => bs ← run_sources rbac reg query format refs; Ok (batches_to_json bs)
  | Panic => Panic
  end.

Record QueryDiff : Type := mkQueryDiff {
  diff_a : list string * list (list Value); diff_b : list string * list (list Value);
  same_schema : bool; same_row_count : bool; same_data : bool; row_count_diff : Z }.
Definition compare_results (a b : list string * list (list Value)) : QueryDiff :=
  let schema_eq := bool_decide (a.1 = b.1) in
  let count_eq := length a.2 =? length b.2 in
  mkQueryDiff a b schema_eq count_eq (schema_eq && count_eq && bool_decide (a.2 = b.2)) (Z.of_nat (length b.2) - Z.of_nat (length a.2)).
Definition query_diff_handler (rbac : option (list PolicyConfig)) (reg : Registry) (query_a query_b format : string) : Answer QueryDiff :=
  let fmt := to_lowercase format in
  match run_query rbac reg query_a fmt, run_query rbac reg query_b fmt with
  | Panic, _ | _, Panic => Panic
  | Ok a, Ok b => Ok (compare_results a b)
  | Err e, _ => refuse 400 ("query_a failed: " +:+ e)
  | _, Err e => refuse 400 ("query_b failed: " +:+ e)
  end.
End Downloads.
End Downloads.

(** ** Datasources and their schemas *)

Inductive SchemaType : Type := SIndex | STable | SBucket | SMetricName.
Record SchemaInfo : Type := mkSchemaInfo { si_name : string; si_type : SchemaType; estimated_row_count : option N }.
Record DatasourceInfo : Type := mkDatasourceInfo { di_id : string; di_type : string; di_capabilities : ConnectorCapabilities }.
Record FieldInfo : Type := mkFieldInfo { fi_name : string; fi_type : string; fi_nullable : bool }.

Module Listing.
Import Discovery.

Definition datasource_info (s : Source) : DatasourceInfo := mkDatasourceInfo (source_id s) (connector_type s) (@capabilities (connector s)).
(** [registry.list()] walks a hash map. *)
Definition list_datasources (walk : Registry → list Source) (reg : Registry) : list DatasourceInfo := datasource_info <$> walk reg.

Definition schema_type_text (t : SchemaType) : string :=
  match t with SIndex => "index" | STable => "table" | SBucket => "bucket" | SMetricName => "metricname" end.
(** [serde_json::to_value]: the keys of an object are sorted. *)
Definition schema_value (s : SchemaInfo) : Value :=
  JObject [("estimated_row_count", from_option (λ n, JNumber (NInt (Z.of_N n))) JNull (estimated_row_count s));
           ("name", JString (si_name s)); ("schema_type", JString (schema_type_text (si_type s)))].
Definition field_value (f : FieldInfo) : Value :=
  JObject [("data_type", JString (fi_type f)); ("name", JString (fi_name f)); ("nullable", JBool (fi_nullable f))].

Section Schemas.
(** What the connectors say of their tables, and [format!("{:?}", data_type)]. *)
Context (discover : Source → outcome ConnectorError (list SchemaInfo)) (get_schema : Source → string → outcome ConnectorError Schema)
  (type_debug : DataType → string).

Definition schemas_key (id : string) : string := "schemas:" +:+ id.
Definition fields_key (id tbl : string) : string := "fields:" +:+ id +:+ ":" +:+ tbl.
Definition field_info (f : Field) : FieldInfo := mkFieldInfo (name f) (type_debug (field_type f)) (nullable f).

Definition get_schemas (reg : Registry) (cache : SchemaCache) (id : string) (now : N) : Answer Value * SchemaCache :=
  match schema_get cache (schemas_key id) now with
  | Some cached => (Ok cached, cache)
  | None =>
      match registry_get reg id with
      | None => (no_datasource id, cache)
      | Some c =>
          match discover c with
          | Ok schemas => let val := JArray (schema_value <$> schemas) in (Ok val, schema_set cache (schemas_key id) val now)
          | Err e => let msg := connector_error_display e in (refuse (connector_error_status msg) msg, cache)
          | Panic => (Panic, cache)
          end
      end
  end.

Definition get_fields (reg : Registry) (cache : SchemaCache) (id tbl : string) (now : N) : Answer Value * SchemaCache :=
  match schema_get cache (fields_key id tbl) now with
  | Some cached => (Ok cached, cache)
  | None =>
      match registry_get reg id with
      | None => (no_datasource id, cache)
      | Some c =>
          match get_schema c tbl with
          | Ok s => let val := JArray ((λ f, field_value (field_info f)) <$> s) in (Ok val, schema_set cache (fields_key id tbl) val now)
          | Err _ => (Ok (JArray []), cache)
          | Panic => (Panic, cache)
          end
      end
  end.
End Schemas.
End Listing.

(** ** Validation and explanation *)

Module Inspect.
Record ValidateResponse : Type := mkValidate { valid : bool; v_error : option string }.
Record ExplainResponse : Type := mkExplain {
  ex_plan : string; plan_display : option string; plan_tree : option PlanNode; ex_profile : option ExecutionProfile;
  ex_complexity : option ComplexityScore; ex_cost : option Dollars.QueryCostEstimate }.

Section Inspect.
Context `{K : ArrowKernels} `{R : RowKernels} `{J : JsonOps} `{E : QueryEnv} `{HE : HandlerEnv}.
Context (discover : Source → outcome ConnectorError (list SchemaInfo)) (show_cost : f64 → string).

Definition identity_of (auth : option AuthIdentity) : string := from_option auth_identity "anonymous" auth.
Definition note_audit (amb : Ambient) (auth : option AuthIdentity) (action : AuditAction) (query : string) (ds : list string)
    (error : option string) : handler unit :=
  audit (mkAudit (amb_now amb) (identity_of auth) action (Some query) ds (amb_elapsed amb) 0
           (match error with Some _ => AError | None => ASuccess end) error (extract_client_ip (amb_header amb))).

(** The first source that is not there, or whose table is not listed. *)
Fixpoint missing_source (reg : Registry) (refs : list (string * string)) : outcome string unit :=
  match refs with
  | [] => Ok ()
  | (ds_id, tbl) :: refs =>
      match registry_get reg ds_id with
      | None => Err ("datasource '" +:+ ds_id +:+ "' not found in registry")
      | Some c =>
          match discover c with
          | Ok schemas =>
              if existsb (λ s, String.eqb (si_name s) tbl) schemas then missing_source reg refs
              else Err ("table '" +:+ tbl +:+ "' not found in datasource '" +:+ ds_id +:+ "'")
          | Err e => Err ("failed to discover schemas for '" +:+ ds_id +:+ "': " +:+ connector_error_display e)
          | Panic => Panic
          end
      end
  end.

Definition validate_handler (amb : Ambient) (auth : option AuthIdentity) (req : QueryRequest) : handler ValidateResponse :=
  match parse_sources (to_lowercase (rq_format req)) (rq_query req) with
  | Ok refs =>
      reg ← gets (λ s, registry (world s));
      match missing_source reg refs with
      | Err e => mret (mkValidate false (Some e))
      | Panic => panic
      | Ok _ => note_audit amb auth AValidate (rq_query req) refs.*1 None;; mret (mkValidate true None)
      end
  | Err e => note_audit amb auth AValidate (rq_query req) [] (Some e);; mret (mkValidate false (Some e))
  | Panic => panic
  end.

Definition plan_of (reg : Registry) (query : string) (refs : list (string * string)) : PlanNode :=
  let workload := build_workload query in
  let caps := omap (λ r : string * string, (λ c, @capabilities (connector c)) <$> registry_get reg r.1) refs in
  match refs with
  | [r] => plan_single r.1 r.2 (default Connector.full (head caps)) workload
  | _ =>
      if is_union_query query then plan_union refs caps workload (parse_limit query)
      else match refs with
           | [r0; r1] => plan_join_node r0 r1 (default Connector.full (head caps)) (default Connector.full (caps !! 1)) "auto"
           | _ => leaf "Unknown" (pretty (length refs) +:+ " datasources")
           end
  end.

(** [EXPLAIN ANALYZE]: the query is run and its rows are dropped. *)
Definition profile_of (amb : Ambient) (req : QueryRequest) (format : string) (refs : list (string * string)) : handler (option ExecutionProfile) :=
  if analyze req then
    r ← run_exec (execute_query (rq_query req) format refs None);
    mret (match r with inr fed => Some (mkProfile (amb_elapsed amb) (fed_profile fed) (Some false) []) | inl _ => None end)
  else mret None.

Definition dollars_of (reg : Registry) (tree : PlanNode) (refs : list (string * string)) : option Dollars.QueryCostEstimate :=
  let est_rows := default 10000%N (node_rows tree) in
  let est := Dollars.estimate_query_cost env_show_fixed
    ((λ r : string * string, (r.1, from_option connector_type "" (registry_get reg r.1), est_rows, (est_rows * 1024)%N)) <$> refs) in
  if fltb f_zero (Dollars.total_cost_usd est) then Some est else None.

Definition explain_handler (amb : Ambient) (auth : option AuthIdentity) (req : QueryRequest) : handler ExplainResponse :=
  let format := to_lowercase (rq_format req) in
  match parse_sources format (rq_query req) with
  | Ok refs =>
      reg ← gets (λ s, registry (world s));
      let tree := plan_of reg (rq_query req) refs in
      prof ← profile_of amb req format refs;
      note_audit amb auth AExplain (rq_query req) refs.*1 None;;
      mret (mkExplain (to_text show_cost tree 0) (Some (to_tree show_cost tree)) (Some tree) prof (Some (score_query (rq_query req)))
              (dollars_of reg tree refs))
  | Err e => note_audit amb auth AExplain (rq_query req) [] (Some e);; reply (error_reply 400 e)
  | Panic => panic
  end.
End Inspect.
End Inspect.

(** ** Materialized views over REST *)

Module ViewsApi.
Inductive ViewReply : Type :=
| Created (name query : string) (refresh_interval_secs : N)
| Deleted (name : string)
| RowsOf (columns : list string) (rows : list (list Value)) (total_rows : N)
| Refreshed (name : string).
Record ViewInfo : Type := mkViewInfo { vi_name : string; stale : bool }.

Section Views.
Context `{K : ArrowKernels} `{R : RowKernels} `{E : QueryEnv}.

Definition create_view (views : ViewRegistry) (n q : string) (refresh_interval_secs : option N) : Answer ViewReply * ViewRegistry :=
  if String.eqb n "" || String.eqb q "" then (refuse 400 "name and query are required", views)
  else let refresh_secs := default 300%N refresh_interval_secs in
       (Ok (Created n q refresh_secs), Views.register views (mkViewDef n q refresh_secs FullRefresh)).

Definition no_view {A : Type} (n : string) : Answer A := refuse 404 ("view '" +:+ n +:+ "' not found").
Definition delete_view (views : ViewRegistry) (n : string) : Answer ViewReply * ViewRegistry :=
  let '(found, views') := Views.remove views n in (if found then Ok (Deleted n) else no_view n, views').

(** [view_registry.list()] walks a hash map. *)
Definition list_views (walk : ViewRegistry → list string) (views : ViewRegistry) (now : N) : list ViewInfo :=
  (λ n, mkViewInfo n (from_option (needs_refresh now) true (views !! n))) <$> walk views.

Definition get_view (views : ViewRegistry) (n : string) : Answer ViewReply :=
  match Views.get_results views n with
  | None =>
      match views !! n with
      | None => no_view n
      | Some _ => refuse 503 ("view '" +:+ n +:+ "' not yet refreshed")
      end
  | Some batches => let '(columns, rows) := batches_to_json batches in Ok (RowsOf columns rows (N.of_nat (length rows)))
  end.

(** Only the first source of the view's query is read; an error is kept in the view. *)
Definition refresh_view (reg : Registry) (views : ViewRegistry) (now : N) (n : string) : Answer ViewReply * ViewRegistry :=
  match views !! n with
  | None => (no_view n, views)
  | Some v =>
      let failed (status : N) (answer stored : string) := (refuse status answer, <[n := set_error stored v]> views) in
      match parse_sql_sources (Views.query (def v)) with
      | Ok ((ds_id, tbl) :: _) =>
          match registry_get reg ds_id with
          | None => let msg := "datasource '" +:+ ds_id +:+ "' not found" in failed 404%N msg msg
          | Some c =>
              match build_sub_query (Views.query (def v)) "sql" tbl with
              | Err e => failed 400%N e e
              | Panic => (Panic, views)
              | Ok sq =>
                  match @execute (connector c) sq with
                  | Ok batches => (Ok (Refreshed n), <[n := Views.set_results now batches v]> views)
                  | Err e => failed 500%N (connector_error_display e) (connector_error_display e)
                  | Panic => (Panic, views)
                  end
              end
          end
      | Panic => (Panic, views)
      | _ => failed 400%N "failed to parse view query" "failed to parse view query"
      end
  end.
End Views.
End ViewsApi.

(** ** Alert rules, evaluated now *)

Module Alerting.
Import Evaluator.
Record AlertInfo : Type := mkAlertInfo { ai_name : string; ai_query : string; ai_format : string; ai_interval_secs : N }.
Definition list_alerts (rules : list AlertRule) : list AlertInfo :=
  (λ r, mkAlertInfo (rule_name r) (Evaluator.query r) (Evaluator.format r) (interval_secs r)) <$> rules.

Section Alerting.
Context `{E : QueryEnv} (show_f64 show_2 : f64 → string).

(** The batches of a rule: [None] when it is skipped with a warning. *)
Definition rule_batches (reg : Registry) (r : AlertRule) : outcome string (option (list RecordBatch)) :=
  match (if String.eqb (Evaluator.format r) "ppl" then parse_ppl_source (Evaluator.query r) else parse_sql_source (Evaluator.query r)) with
  | Ok (ds_id, tbl) =>
      match registry_get reg ds_id with
      | None => Ok None
      | Some c =>
          match build_sub_query (Evaluator.query r) (Evaluator.format r) tbl with
          | Ok sq => match @execute (connector c) sq with Ok bs => Ok (Some bs) | Err _ => Ok None | Panic => Panic end
          | Err _ => Ok None
          | Panic => Panic
          end
      end
  | Err _ => Ok None
  | Panic => Panic
  end.
Definition firing (r : AlertRule) (bs : list RecordBatch) : option AlertResult :=
  let result := Evaluator.evaluate env_parse_f64 show_f64 show_2 r bs in if bool_decide (state result = StateFiring) then Some result else None.
Fixpoint evaluate_alerts (reg : Registry) (rules : list AlertRule) : outcome string (list AlertResult) :=
  match rules with
  | [] => Ok []
  | r :: rules =>
      found ← rule_batches reg r;
      rest ← evaluate_alerts reg rules;
      Ok (option_list (found ≫= firing r) ++ rest)
  end.
End Alerting.
End Alerting.

(** ** The search for a trace *)

Module Trace.
Record TraceSpan : Type := mkSpan { ts_datasource : string; ts_timestamp : option Value; ts_fields : gmap string Value }.
Record TraceResponse : Type := mkTrace {
  tr_id : string; spans : list TraceSpan; datasources_searched : list string; datasources_matched : list string; total_spans : N }.

Section Trace.
Context `{K : ArrowKernels} (discover : Source → outcome ConnectorError (list SchemaInfo)).

Definition trace_query (tbl trace_id : string) : SubQuery :=
  mkSubQuery tbl [] (Some (FComparison "trace_id" OpEq (SUtf8 trace_id))) [] [] None [] (Some 1000%N) None None.
(** What the task of a datasource returns; a task that panics is skipped. *)
Definition trace_task (trace_id : string) (c : Source) : list RecordBatch :=
  match discover c with
  | Ok (s :: _) =>
      if String.eqb (si_name s) "" then []
      else match @execute (connector c) (trace_query (si_name s) trace_id) with Ok bs => bs | _ => [] end
  | _ => []
  end.

Definition is_timestamp (column : string) : bool :=
  let l := to_lowercase column in
  String.eqb l "timestamp" || String.eqb l "@timestamp" || String.eqb l "time" || String.eqb l "ts".
Definition span_of (ds : string) (cols : list string) (ts_idx : option nat) (r : list Value) : TraceSpan :=
  mkSpan ds (ts_idx ≫= λ i, r !! i) (foldl (λ m cv, <[cv.1 := cv.2]> m) ∅ (zip cols r)).
Definition spans_of (trace_id ds : string) (c : Source) : list TraceSpan :=
  let '(cols, rows) := batches_to_json (trace_task trace_id c) in
  span_of ds cols (position is_timestamp cols) <$> rows.

Definition timestamp_text (s : TraceSpan) : string := match ts_timestamp s with Some (JString t) => t | _ => "" end.
Definition by_timestamp (a b : TraceSpan) : comparison := String.compare (timestamp_text a) (timestamp_text b).

(** [registry.connectors()] walks a hash map. *)
Definition trace_handler (connectors : list (string * Source)) (trace_id : string) : TraceResponse :=
  let found := (λ dc : string * Source, (dc.1, spans_of trace_id dc.1 dc.2)) <$> connectors in
  let all := sort_by by_timestamp (found ≫= snd) in
  mkTrace trace_id all connectors.*1 (filter (λ f : string * list TraceSpan, f.2 ≠ []) found).*1 (N.of_nat (length all)).
End Trace.
End Trace.

(** ** Several statements *)

Module Multi.
Record StatementResult : Type := mkStatementResult { sr_status : N; sr_data : Value }.
Inductive MultiReply : Type := One (r : Reply) | Results (results : list StatementResult) (count : nat).

Section Multi.
Context `{K : ArrowKernels} `{R : RowKernels} `{J : JsonOps} `{E : QueryEnv} `{HE : HandlerEnv}.
(** The status and the body of a reply, and the JSON parser. *)
Context (status_of : Reply → N) (body_of : Reply → string) (parse_json : string → option Value).

Definition BODY_LIMIT : N := 10000000.
Definition body_text (r : Reply) : string := if (N.of_nat (String.length (body_of r)) <=? BODY_LIMIT)%N then body_of r else "".
Definition statement_result (r : Reply) : StatementResult :=
  mkStatementResult (status_of r) (default (JObject [("error", JString "parse error")]) (parse_json (body_text r))).

(** [HeaderMap::new()]: the statements run without the headers of the request. *)
Definition without_headers (amb : Ambient) : Ambient :=
  mkAmbient (amb_now amb) (amb_elapsed amb) (amb_times_out amb) (amb_cancelled amb) (amb_before amb) (amb_fresh amb) (λ _, None).
Definition with_query (req : QueryRequest) (q : string) : QueryRequest :=
  mkQueryRequest q (rq_format req) (analyze req) (timeout_ms req) (result_format req) (rq_params req) (rq_start req) (rq_end req) (rq_step req)
    (rq_cursor req) (rq_page_size req).

(** The statements in turn, each with its own ambient; a panic ends the request. *)
Fixpoint run_statements (ambs : nat → Ambient) (i : nat) (auth : option AuthIdentity) (req : QueryRequest) (stmts : list string) (s : AppState)
    : AppState * option (list StatementResult) :=
  match stmts with
  | [] => (s, Some [])
  | stmt :: stmts =>
      match query_handler (without_headers (ambs i)) auth (with_query req stmt) s with
      | (s, Some r) =>
          let '(s, rest) := run_statements ambs (S i) auth req stmts s in
          (s, (λ l, statement_result r :: l) <$> rest)
      | (s, None) => (s, None)
      end
  end.

Definition multi_query_handler (ambs : nat → Ambient) (auth : option AuthIdentity) (req : QueryRequest) (s : AppState)
    : AppState * option MultiReply :=
  let statements := split_statements (rq_query req) in
  if length statements <=? 1 then
    let '(s, r) := query_handler (without_headers (ambs 0)) auth req s in (s, One <$> r)
  else
    let '(s, results) := run_statements ambs 0 auth req statements s in (s, (λ l, Results l (length l)) <$> results).
End Multi.
End Multi.

(** ** Questions *)

Module NlSql.
Record DatasourceSchema : Type := mkDsSchema { ns_datasource : string; ns_tables : list string }.

(** [s.chars().filter(p).collect()]. *)
Fixpoint keep_chars (p : ascii → bool) (s : string) : string :=
  match s with "" => "" | String a s => if p a then String a (keep_chars p s) else keep_chars p s end.
(** Strip what cannot be in a name. *)
Definition ident_char (c : ascii) : bool := is_alphanumeric c || is_char "_" c.
Definition sanitize_nl_identifier (s : string) : string :=
  let clean := keep_chars ident_char s in if String.eqb clean "" then "_" else clean.
Definition extract_keyword_after (text keyword : string) : option string :=
  pos ← find_sub keyword text;
  head (split_whitespace (trim (str_drop (pos + String.length keyword) text))).
Definition extract_number (text : string) : option N := head (omap parse_u64 (split_whitespace text)).

Definition qualified (src : string * string) : string := quote_ident src.1 +:+ "." +:+ quote_ident src.2.

(** The pairs the loop pushes; it stops at the second one. *)
Definition push_new (found : list (string * string)) (e : string * string) : list (string * string) :=
  if bool_decide (e ∈ found) then found else found ++ [e].
Definition mention_tables (q : string) (s : DatasourceSchema) (found : list (string * string)) : list (string * string) :=
  foldl (λ found t, if (length found <? 2) && str_contains (to_lowercase t) q then found ++ [(ns_datasource s, t)] else found) found (ns_tables s).
Definition mention_source (q : string) (s : DatasourceSchema) (found : list (string * string)) : list (string * string) :=
  match ns_tables s with
  | t :: _ => if (length found <? 2) && str_contains (to_lowercase (ns_datasource s)) q then push_new found (ns_datasource s, t) else found
  | [] => found
  end.
Definition mentioned (q : string) (schemas : list DatasourceSchema) : list (string * string) :=
  foldl (λ found s, mention_source q s (mention_tables q s found)) [] schemas.
Definition find_two_tables (q : string) (schemas : list DatasourceSchema) : option ((string * string) * (string * string)) :=
  match mentioned q schemas with
  | a :: b :: _ => Some (a, b)
  | _ =>
      match schemas with
      | s1 :: s2 :: _ =>
          Some ((ns_datasource s1, default "table1" (head (ns_tables s1))), (ns_datasource s2, default "table2" (head (ns_tables s2))))
      | _ => None
      end
  end.

Definition guess_join_column (q : string) : option string :=
  let hinted := omap (λ prefix,
    col ← extract_keyword_after q prefix;
    let clean := sanitize_nl_identifier col in
    if (2 <=? String.length clean) && str_contains "_" clean then Some clean else None) ["on "; "by "; "using "; "where "] in
  match hinted with
  | c :: _ => Some c
  | [] => List.find (λ c, str_contains c q) ["user_id"; "trace_id"; "order_id"; "id"; "customer_id"; "session_id"]
  end.

Definition join_text (l r : string * string) (col : string) : string :=
  "SELECT a.*, b.* FROM " +:+ qualified l +:+ " a JOIN " +:+ qualified r +:+ " b ON a." +:+ quote_ident col +:+ " = b." +:+ quote_ident col
  +:+ " LIMIT 100".
Definition join_keywords : list string := ["join"; "combine"; "correlate"; "enrich"; "merge"; "link"].
Definition try_generate_join (q : string) (schemas : list DatasourceSchema) : option string :=
  if negb (existsb (λ kw, str_contains kw q) join_keywords) || (length schemas <? 2) then None
  else
    '(l, r) ← find_two_tables q schemas;
    Some (join_text l r (sanitize_nl_identifier (default "id" (guess_join_column q)))).

Definition first_table (schemas : list DatasourceSchema) : string * string :=
  (from_option ns_datasource "datasource" (head schemas), default "logs" (head schemas ≫= λ s, head (ns_tables s))).
Definition generate_sql_from_nl (question : string) (schemas : list DatasourceSchema) : string :=
  let q := to_lowercase question in
  let source := qualified (first_table schemas) in
  match try_generate_join q schemas with
  | Some sql => sql
  | None =>
      if str_contains "count" q && str_contains "by" q then
        let col := quote_ident (sanitize_nl_identifier (default "host" (extract_keyword_after q "by"))) in
        "SELECT " +:+ col +:+ ", COUNT(*) AS count FROM " +:+ source +:+ " GROUP BY " +:+ col +:+ " ORDER BY count DESC LIMIT 20"
      else if str_contains "top" q || str_contains "most" q then
        "SELECT * FROM " +:+ source +:+ " ORDER BY timestamp DESC LIMIT " +:+ pretty (N.min (default 10%N (extract_number q)) 1000)
      else if str_contains "error" q || str_contains "fail" q then
        "SELECT * FROM " +:+ source +:+ " WHERE status >= 500 ORDER BY timestamp DESC LIMIT 20"
      else if str_contains "between" q || str_contains "last" q then
        "SELECT * FROM " +:+ source +:+ " ORDER BY timestamp DESC LIMIT 100"
      else "SELECT * FROM " +:+ source +:+ " LIMIT 20"
  end.

(** The endpoint: the prompt is only shown, the text is made by the rules above and run when it is asked for. *)
Record NlQueryResponse : Type := mkNl {
  nl_question : string; generated_sql : string; schema_context : list DatasourceSchema; prompt : string;
  nl_results : option Value; nl_error : option string }.

Section Handler.
Context `{K : ArrowKernels} `{R : RowKernels} `{J : JsonOps} `{E : QueryEnv} `{HE : HandlerEnv}.
Context (discover : Source → outcome ConnectorError (list SchemaInfo)) (body_of : Reply → string) (parse_json : string → option Value).

(** [table_names().unwrap_or_default()]. *)
Definition table_names (c : Source) : outcome string (list string) :=
  match discover c with Ok l => Ok (si_name <$> l) | Err _ => Ok [] | Panic => Panic end.
Definition schema_of (c : Source) : outcome string DatasourceSchema := ts ← table_names c; Ok (mkDsSchema (source_id c) ts).
Definition schema_line (s : DatasourceSchema) : string :=
  match ns_tables s with
  | [] => "Datasource '" +:+ ns_datasource s +:+ "': (use " +:+ ns_datasource s +:+ ".table_name)" +:+ NEWLINE
  | ts => "Datasource '" +:+ ns_datasource s +:+ "': tables: " +:+ join_with ", " ts +:+ NEWLINE
  end.
Definition prompt_text (schemas : list DatasourceSchema) (question : string) : string :=
  "You are a SQL query generator for the Fuse federated query engine." +:+ NEWLINE
  +:+ "Fuse queries use datasource.table syntax (e.g. SELECT * FROM cluster_a.logs)." +:+ NEWLINE
  +:+ "Fuse supports: SELECT, JOIN, UNION ALL, GROUP BY, HAVING, ORDER BY, LIMIT," +:+ NEWLINE
  +:+ "CTEs (WITH), window functions, CONTAINS for full-text search," +:+ NEWLINE
  +:+ "and cross-datasource queries." +:+ NEWLINE +:+ NEWLINE
  +:+ "Available datasources and tables:" +:+ NEWLINE
  +:+ foldr String.append "" (schema_line <$> schemas) +:+ NEWLINE +:+ "User question: " +:+ question +:+ NEWLINE +:+ NEWLINE
  +:+ "Generate a single SQL query. Return ONLY the SQL, no explanation.".

Definition generated_request (sql : string) : QueryRequest := mkQueryRequest sql "sql" false None "json" ∅ None None None None None.
Definition runnable (sql : string) : bool := let t := to_uppercase (trim_start sql) in starts_with "SELECT" t || starts_with "EXPLAIN" t.

Definition nl_to_sql_handler (walk : Registry → list Source) (amb : Ambient) (auth : option AuthIdentity) (question : string) (run : bool) (s : AppState)
    : AppState * option NlQueryResponse :=
  match mapM schema_of (walk (registry (world s))) with
  | Ok schemas =>
      let sql := generate_sql_from_nl question schemas in
      let response := mkNl question sql schemas (prompt_text schemas question) in
      if run && negb (String.eqb sql "") then
        if negb (runnable sql) then (s, Some (response None (Some "generated SQL rejected: only SELECT/EXPLAIN queries can be auto-executed")))
        else match query_handler (Multi.without_headers amb) auth (generated_request sql) s with
             | (s, Some r) =>
                 (s, Some (response (if (N.of_nat (String.length (body_of r)) <=? Multi.BODY_LIMIT)%N then parse_json (body_of r) else None) None))
             | (s, None) => (s, None)
             end
      else (s, Some (response None None))
  | _ => (s, None)
  end.
End Handler.
End NlSql.

(** ** The stores over REST *)

Module StoresApi.
(** [params.get(k).and_then(|v| v.parse().ok())]. *)
Definition number_param (params : gmap string string) (k : string) : option N := (params !! k) ≫= parse_u64.
(** [limit * 2] in [usize], as a release build computes it. *)
Definition twice (n : N) : N := ((n * 2) `mod` 18446744073709551616)%N.

(** The filters of the history, in the code's order. *)
Definition history_keeps (params : gmap string string) (e : HistoryEntry) : bool :=
  match number_param params "since" with Some t => (t <=? h_timestamp e)%N | None => true end
  && match params !! "status" with
     | Some st => if String.eqb st "error" then bool_decide (is_Some (h_error e)) else if String.eqb st "success" then bool_decide (h_error e = None) else true
     | None => true
     end
  && match params !! "datasource" with Some ds => str_contains ds (h_query e) | None => true end
  && match params !! "q" with Some q => str_contains (to_lowercase q) (to_lowercase (h_query e)) | None => true end.
Definition history_handler (history : list HistoryEntry) (params : gmap string string) : list HistoryEntry :=
  let limit := default 100%N (number_param params "limit") in
  take (N.to_nat limit) (filter (λ e, history_keeps params e = true) (History.recent history (N.to_nat (twice limit)))).

(** The audit log as JSON entries or as lines. *)
Inductive AuditReply : Type := Entries (entries : list Value) | Ndjson (body : string).
Section Audit.
Context (to_value : AuditEntry → Value) (serialise : AuditEntry → option string) (parse_json : string → option Value).
Definition audit_handler (log : list AuditEntry) (params : gmap string string) : AuditReply :=
  let limit := N.to_nat (default 50%N (number_param params "limit")) in
  let ndjson := String.eqb (default "json" (params !! "format")) "ndjson" in
  let answer (es : list AuditEntry) := if ndjson then Ndjson (Audit.export_ndjson serialise es) else Entries (to_value <$> es) in
  match params !! "identity" with
  | Some id => answer (Audit.for_identity log id limit)
  | None =>
      match number_param params "since" with
      | Some since =>
          let body := Audit.export_since serialise log since in
          if ndjson then Ndjson body else Entries (omap parse_json (str_lines body))
      | None => answer (Audit.audit_recent log limit)
      end
  end.
End Audit.

(** Saved queries. *)
Definition get_saved_query (s : gmap string SavedQuery) (n : string) : Answer SavedQuery :=
  match lookup_key s n with Some sq => Ok sq | None => refuse 404 ("saved query '" +:+ n +:+ "' not found") end.
Definition save_query (s : gmap string SavedQuery) (sq : SavedQuery) : gmap string SavedQuery := save s sq.
Definition delete_saved_query (s : gmap string SavedQuery) (n : string) : Answer unit * gmap string SavedQuery :=
  let '(found, s) := delete_key s n in (if found then Ok () else refuse 404 ("saved query '" +:+ n +:+ "' not found"), s).

(** The query that runs under an identifier is cancelled. *)
Definition cancel_query (r : RunningQueries) (id : string) : Answer string * RunningQueries :=
  let '(found, r) := running_cancel r id in
  (if found then Ok id else refuse 404 ("query '" +:+ id +:+ "' not found or already completed"), r).
Definition list_running_queries (walk : gset string → list string) (r : RunningQueries) : list string := walk (live_tokens r).

(** [clear_cache_handler] clears the result cache only. *)
Definition clear_cache_handler {V : Type} (c : ResultCache V) : ResultCache V := results_clear c.

(** Feedback: who may see, answer and close it. *)
Section Feedback.
Import Feedbacks.
Context `{J : JsonOps} (walk : gmap string Feedback → list (string * Feedback)).
Definition user_of (auth : option AuthIdentity) (dflt : string) : string := from_option auth_identity dflt auth.
Definition submit_feedback_handler (fs : FeedbackStore) (auth : option AuthIdentity) (req : SubmitRequest) (now : N) : string * FeedbackStore :=
  let '(fb, fs) := submit walk fs (user_of auth "anonymous") req now in (fb_id fb, fs).
Definition list_feedback_handler (fs : FeedbackStore) (auth : option AuthIdentity) : list Feedback := list_by_user walk fs (user_of auth "anonymous").
Definition get_feedback_handler (fs : FeedbackStore) (auth : option AuthIdentity) (id : string) : Answer Feedback :=
  let user := user_of auth "anonymous" in
  match Feedbacks.get fs id with
  | Some fb => if String.eqb (submitter fb) user || String.eqb user "admin" then Ok fb else refuse 403 "not your feedback"
  | None => refuse 404 "feedback not found"
  end.
Definition admin_list_feedback_handler (has_rbac : bool) (fs : FeedbackStore) (auth : option AuthIdentity) : Answer (list Feedback) :=
  let user := user_of auth "anonymous" in
  if negb (String.eqb user "admin") && negb (String.eqb user "anonymous") && has_rbac then refuse 403 "admin only" else Ok (list_all walk fs).
Definition admin_reply_feedback_handler (fs : FeedbackStore) (auth : option AuthIdentity) (id msg : string) (now : N) : Answer Feedback * FeedbackStore :=
  match add_reply fs id (user_of auth "admin") msg now with
  | Some (fb, fs) => (Ok fb, fs)
  | None => (refuse 404 "feedback not found", fs)
  end.
Definition admin_status_feedback_handler (fs : FeedbackStore) (id : string) (st : FeedbackStatus) (now : N) : Answer Feedback * FeedbackStore :=
  match set_status fs id st now with
  | Some (fb, fs) => (Ok fb, fs)
  | None => (refuse 404 "feedback not found", fs)
  end.
End Feedback.
End StoresApi.

(** * What the endpoints promise *)

(** ** Downloads *)

Section DownloadsCorrect.
Import Downloads.
Context `{K : ArrowKernels} `{J : JsonOps} `{E : QueryEnv}.

(** What one source contributes. *)
Definition source_batches (reg : Registry) (query format : string) (r : string * string) : Answer (list RecordBatch) :=
  match registry_get reg r.1 with
  | None => no_datasource r.1
  | Some c =>
      sq ← map_err (error_json 400) (build_sub_query query format r.2);
      map_err (λ e, error_json 500 (connector_error_display e)) (@execute (connector c) sq)
  end.

Lemma fetch_all_mapM reg query format refs :
  fetch_all reg query format refs = (l ← mapM (source_batches reg query format) refs; Ok (concat l)).
Proof.
  induction refs as [|[ds tbl] refs IH]; [done|]. cbn [fetch_all mapM]. rewrite IH.
  set (k := mapM (source_batches reg query format) refs). unfold source_batches. cbn [fst snd].
  destruct (registry_get reg ds) as [c|]; [|reflexivity].
  destruct (map_err (error_json 400) (build_sub_query query format tbl)) as [sq| |]; [|reflexivity..]. cbn [mbind outcome_bind].
  destruct (map_err _ (execute sq)) as [b| |]; [|reflexivity..]. cbn [mbind outcome_bind]. by destruct k.
Qed.

Lemma string_cells (b : RecordBatch) i v : v ∈ json_row b i → v = JNull ∨ ∃ s, v = JString s.
Proof. intros (col & -> & _)%list_elem_of_fmap. unfold cell_json. destruct (Arrow.is_null col i); [by left|right; by eexists]. Qed.

Lemma json_rows bs r : r ∈ (batches_to_json bs).2 → ∃ b i, r = json_row b i.
Proof.
  destruct bs as [|b0 bs]; [by intros ?%not_elem_of_nil|]. unfold batches_to_json. cbn [snd].
  intros (b & (i & -> & _)%list_elem_of_fmap & _)%list_elem_of_bind. by exists b, i.
Qed.

(** The text of a cell. *)
Definition text_of (v : Value) : string := match v with JString s => s | _ => "" end.

(** A download holds the rows of every source of the text, source by source as the connectors return them, and nothing
    else; it fails as the first source that fails.  When the column names need no quoting and no row is blank, a CSV
    reader gets back the header and every row, whatever the texts hold. *)
Theorem downloads_read_back reg req_query req_format refs :
  let format := to_lowercase req_format in
  let query := rewrite_contains req_query in
  parse_sources format query = Ok refs → refs ≠ [] →
  fetch reg req_query req_format = (l ← mapM (source_batches reg query format) refs; Ok (concat l)) ∧
  ∀ batches, fetch reg req_query req_format = Ok batches →
    ∃ csv, export_csv_handler reg req_query req_format = Ok csv ∧
      let '(columns, rows) := batches_to_json batches in
      (Forall (λ c, str_all csv_plain_char c = true) columns → visible columns → Forall (λ r, visible (map text_of r)) rows →
       read_csv csv = columns :: map (map text_of) rows) ∧
      export_json_handler reg req_query req_format = Ok (record_of columns <$> rows).
Proof.
  intros format query Hp Hne.
  assert (Hf : fetch reg req_query req_format = (l ← mapM (source_batches reg query format) refs; Ok (concat l))).
  { unfold fetch, sources_of. fold format query. rewrite Hp. destruct refs; [done|]. apply fetch_all_mapM. }
  split; [exact Hf|]. intros batches Hb. unfold export_csv_handler, export_json_handler. rewrite Hb. cbn [mbind outcome_bind].
  destruct (batches_to_json batches) as [columns rows] eqn:Ej. eexists. split; [done|]. split; [|done].
  assert (Hcells : Forall (Forall (λ v, v = JNull ∨ ∃ s, v = JString s)) rows).
  { apply Forall_forall. intros r Hr. destruct (json_rows batches r) as (b & i & ->); [by rewrite Ej|]. apply Forall_forall, string_cells. }
  intros Hc Hv Hr. apply (csv_table_reads download_cell text_of (λ v, v = JNull ∨ ∃ s, v = JString s)); [|done|done|].
  - intros v [->|[s ->]]; [by left|]. apply quoted_reads.
  - apply Forall_and. done.
Qed.

Lemma diff_equality (a b : list string * list (list Value)) :
  (same_data (compare_results a b) = true ↔ a = b) ∧ (same_data (compare_results a b) = true → row_count_diff (compare_results a b) = 0%Z).
Proof.
  assert (H : same_data (compare_results a b) = true ↔ a = b).
  { destruct a as [ca ra], b as [cb rb]. unfold compare_results. cbn. rewrite !andb_true_iff, !bool_decide_eq_true, Nat.eqb_eq. split; [naive_solver|].
    by intros [= -> ->]. }
  split; [done|]. intros ->%H. cbn. lia.
Qed.
End DownloadsCorrect.

Lemma downloads_read_back_witness :
  ∃ csv, @Downloads.export_csv_handler RefArrow RefJson ex_env (registry ex_world) "SELECT * FROM logs.app" "SQL" = Ok csv ∧ read_csv csv = [["n"]; ["1"]; ["2"]].
Proof.
  destruct (@downloads_read_back RefArrow RefJson ex_env (registry ex_world) "SELECT * FROM logs.app" "SQL" [("logs", "app")]) as [_ H]; [by vm_compute|done|].
  destruct (H (ex_rows [1; 2]%Z)) as (csv & Hcsv & Hr & _); [by vm_compute|]. exists csv. split; [exact Hcsv|].
  rewrite Hr; [by vm_compute|by repeat constructor|by split|]. repeat constructor; by intros [=].
Defined.

Definition in_quotes (s : string) : string := String QUOTE (s +:+ String QUOTE "").

(** A join is downloaded as the rows of its two sources, one after the other. *)
Lemma download_is_no_join :
  let reg : Registry := {[ "a" := memory_connector "a" (ex_rows [1]%Z); "b" := memory_connector "b" (ex_rows [2; 3]%Z) ]} in
  @Downloads.export_csv_handler RefArrow RefJson ex_env reg "SELECT * FROM a.t JOIN b.u ON t.n = u.n" "sql" =
    Ok (csv_lines [["n"]; [in_quotes "1"]; [in_quotes "2"]; [in_quotes "3"]]).
Proof. vm_compute. reflexivity. Qed.

(** A field that the policies deny to everybody is in the download and not in the comparison. *)
Lemma download_shows_denied_field :
  let engine := [mkPolicy "logs" None ["n"] [] []] in
  (shown ← @Downloads.run_query RefArrow ex_env (Some engine) (registry ex_world) "SELECT * FROM logs.app" "sql"; Ok shown.1) = Ok [] ∧
  @Downloads.export_csv_handler RefArrow RefJson ex_env (registry ex_world) "SELECT * FROM logs.app" "sql" = Ok (csv_lines [["n"]; [in_quotes "1"]; [in_quotes "2"]]).
Proof. split; vm_compute; reflexivity. Qed.

(** ** Validation and explanation *)

Section InspectCorrect.
Import Inspect.
Context `{K : ArrowKernels} `{R : RowKernels} `{J : JsonOps} `{E : QueryEnv} `{HE : HandlerEnv}.
Context (discover : Source → outcome ConnectorError (list SchemaInfo)) (show_cost : f64 → string).

(** The source is registered and lists the table. *)
Definition listed (reg : Registry) (r : string * string) : Prop :=
  ∃ c schemas, registry_get reg r.1 = Some c ∧ discover c = Ok schemas ∧ r.2 ∈ si_name <$> schemas.

Lemma missing_source_none reg refs : missing_source discover reg refs = Ok () ↔ Forall (listed reg) refs.
Proof.
  induction refs as [|[ds tbl] refs IH]; [by split; [constructor|]|]. cbn [missing_source]. rewrite Forall_cons, <- IH. clear IH. split.
  - destruct (registry_get reg ds) as [c|] eqn:Ec; [|done]. destruct (discover c) as [schemas| |] eqn:Ed; [|done..].
    destruct (existsb _ schemas) eqn:Ex; [|done]. intros H. split; [|done]. exists c, schemas. split_and!; [done..|].
    apply existsb_exists in Ex as (s & Hs & Heq). apply String.eqb_eq in Heq as <-. apply list_elem_of_fmap. exists s. split; [done|]. by apply list_elem_of_In.
  - intros [(c & schemas & Hc & Hd & Hin) H]. cbn [fst snd] in *. rewrite Hc, Hd. assert (existsb (λ s, String.eqb (si_name s) tbl) schemas = true) as ->; [|done].
    apply existsb_exists. apply list_elem_of_fmap in Hin as (s & -> & Hs). exists s. split; [by apply list_elem_of_In|apply String.eqb_refl].
Qed.

(** An entry of the audit log, and nothing else. *)
Definition audited (s s' : AppState) (entry : AuditEntry) : Prop :=
  ∃ log, Audit.audit_record audit_capacity (audit_log s) entry = Some log ∧ s' = set_audit log s.
Lemma note_audit_ok amb auth action q ds e s s' u : note_audit amb auth action q ds e s = (s', Ok u) →
  audited s s' (mkAudit (amb_now amb) (identity_of auth) action (Some q) ds (amb_elapsed amb) 0
                  (match e with Some _ => AError | None => ASuccess end) e (extract_client_ip (amb_header amb))).
Proof. unfold note_audit, audit, audited. destruct (Audit.audit_record _ _ _) as [log|]; [|done]. intros [= <- _]. by exists log. Qed.
Lemma note_audit_never_fails amb auth action q ds e s r : (note_audit amb auth action q ds e s).2 ≠ Err r.
Proof. unfold note_audit, audit. by destruct (Audit.audit_record _ _ _). Qed.

(** A query is valid exactly when its sources can be read from the text, every one is registered, and its connector
    lists the table.  Validating runs nothing: an answer changes the audit log at most, by one entry with the sources
    when the query is valid and by one with the error when the text has no sources. *)
Theorem valid_queries_have_sources amb auth req s s' v :
  validate_handler discover amb auth req s = (s', Ok v) →
  (valid v = true ↔ ∃ refs, parse_sources (to_lowercase (rq_format req)) (rq_query req) = Ok refs ∧ Forall (listed (registry (world s))) refs) ∧
  (valid v = true ↔ v_error v = None) ∧
  (s' = s ∨ ∃ entry, audited s s' entry ∧ a_action entry = AValidate ∧ identity entry = identity_of auth ∧
     (a_status entry = ASuccess ↔ valid v = true) ∧ a_error entry = v_error v).
Proof.
  unfold validate_handler. destruct (parse_sources _ _) as [refs|e|].
  - rewrite handler_bind_run. cbn [gets]. destruct (missing_source discover (registry (world s)) refs) as [[]|e|] eqn:Em; [| |done].
    + pose proof Em as Hl. apply missing_source_none in Hl. rewrite handler_bind_run. destruct (note_audit _ _ _ _ _ _ _) as [s1 [u|r|]] eqn:Ea; [|by apply (f_equal snd), note_audit_never_fails in Ea|done].
      intros [= <- <-]. cbn [valid v_error]. split_and!; [split; [by exists refs|done]|done|]. right. eexists. split; [by eapply note_audit_ok|done].
    + intros [= <- <-]. cbn [valid v_error]. split_and!; [|done|by left]. split; [done|]. intros (refs' & [= <-] & Hl). apply missing_source_none in Hl. by rewrite Hl in Em.
  - rewrite handler_bind_run. destruct (note_audit _ _ _ _ _ _ _) as [s1 [u|r|]] eqn:Ea; [|by apply (f_equal snd), note_audit_never_fails in Ea|done].
    intros [= <- <-]. cbn [valid v_error]. split_and!; [split; [done|by intros (? & [=] & _)]|done|]. right. eexists. split; [by eapply note_audit_ok|done].
  - done.
Qed.

(** An explained query runs only when it is asked to be analysed; then it runs as the query handler would run it, whatever
    the tenants of the state may read, and the rows are dropped. *)
Theorem explain_runs_when_asked amb auth req refs s s' x :
  parse_sources (to_lowercase (rq_format req)) (rq_query req) = Ok refs →
  explain_handler show_cost amb auth req s = (s', Ok x) →
  world s' = (if analyze req then (execute_query (rq_query req) (to_lowercase (rq_format req)) refs None (world s)).1 else world s) ∧
  tenant_registry s' = tenant_registry s ∧ history s' = history s ∧ result_cache s' = result_cache s ∧ written s' = written s ∧
  plan_tree x = Some (plan_of (registry (world s)) (rq_query req) refs) ∧ (analyze req = false → ex_profile x = None).
Proof.
  intros Hp. unfold explain_handler. rewrite Hp, handler_bind_run. cbn [gets]. rewrite handler_bind_run. unfold profile_of.
  assert (Hend : ∀ s1 p, (note_audit amb auth AExplain (rq_query req) refs.*1 None;; mret (mkExplain
      (to_text show_cost (plan_of (registry (world s)) (rq_query req) refs) 0) (Some (to_tree show_cost (plan_of (registry (world s)) (rq_query req) refs)))
      (Some (plan_of (registry (world s)) (rq_query req) refs)) p (Some (score_query (rq_query req)))
      (dollars_of (registry (world s)) (plan_of (registry (world s)) (rq_query req) refs) refs))) s1 = (s', Ok x) →
    ∃ log, s' = set_audit log s1 ∧ ex_profile x = p ∧ plan_tree x = Some (plan_of (registry (world s)) (rq_query req) refs)).
  { intros s1 p. rewrite handler_bind_run. destruct (note_audit _ _ _ _ _ _ s1) as [s2 [u|r|]] eqn:Ea; [|done..]. intros [= <- <-].
    apply note_audit_ok in Ea as (log & _ & ->). by exists log. }
  destruct (analyze req); rewrite ?handler_bind_run.
  - unfold run_exec. destruct (execute_query _ _ _ _ (world s)) as [w [fed|e|]]; [| |done]; intros (log & -> & _ & ?)%Hend; by destruct s.
  - intros (log & -> & ? & ?)%Hend. by destruct s.
Qed.
End InspectCorrect.

Definition ex_discover (c : Source) : outcome ConnectorError (list SchemaInfo) := Ok [mkSchemaInfo "app" STable None].
Definition ex_explained (analyze : bool) : QueryRequest :=
  mkQueryRequest "SELECT n FROM logs.app" "sql" analyze None "json" ∅ None None None None None.

Lemma valid_queries_have_sources_witness :
  ∃ s' v, Inspect.validate_handler (HE := ex_handler) ex_discover ex_ambient None (ex_explained false) ex_state = (s', Ok v) ∧ Inspect.valid v = true ∧ Inspect.v_error v = None.
Proof.
  destruct (Inspect.validate_handler (HE := ex_handler) ex_discover ex_ambient None (ex_explained false) ex_state) as [s' [v|r|]] eqn:Ev;
    [|vm_compute in Ev; discriminate Ev..].
  destruct (valid_queries_have_sources (HE := ex_handler) ex_discover ex_ambient None (ex_explained false) ex_state s' v Ev) as (H1 & H2 & _).
  assert (Inspect.valid v = true) as Hv.
  { apply H1. exists [("logs", "app")]. split; [by vm_compute|]. constructor; [|constructor].
    exists (memory_connector "logs" (ex_rows [1; 2]%Z)), [mkSchemaInfo "app" STable None]. split_and!; [by vm_compute|done|by left]. }
  exists s', v. split_and!; [done|done|by apply H2].
Defined.

(** The tenant [web] may not read [logs], and an analysed explanation reads it for them. *)
Lemma explain_runs_when_asked_witness :
  let auth := Some (mkAuth "web" Viewer) in
  let x := Inspect.explain_handler (K := RefArrow) (R := RefRows) (E := ex_env) (HE := ex_handler) (λ _, "") ex_ambient auth (ex_explained true) ex_state in
  ¬ may_access (tenant_registry ex_state) "web" "logs" ∧ asked x.1 = ["logs"] ∧
  (serve_query "web" "SELECT n FROM logs.app" ex_state).2 = Some (RError 403 "tenant 'web' does not have access to datasource 'logs'").
Proof.
  intros auth x. split_and!; [intros (c & Hc & Ha); vm_compute in Hc; injection Hc as <-; vm_compute in Ha; discriminate Ha| |by vm_compute].
  destruct x as [s' [y|r|]] eqn:Ex; [|vm_compute in Ex; discriminate Ex..].
  destruct (explain_runs_when_asked (K := RefArrow) (R := RefRows) (E := ex_env) (HE := ex_handler) (λ _, "") ex_ambient auth (ex_explained true)
    [("logs", "app")] ex_state s' y) as [Hw _]; [by vm_compute|exact Ex|]. unfold asked. cbn [fst]. rewrite Hw. by vm_compute.
Defined.

(** ** Views *)

Section ViewsApiCorrect.
Import ViewsApi.
Context `{K : ArrowKernels} `{R : RowKernels} `{E : QueryEnv}.

(** What the view's query reads: its first source, asked with its text. *)
Definition view_source (reg : Registry) (q : string) (bs : list RecordBatch) : Prop :=
  ∃ ds tbl refs c sq, parse_sql_sources q = Ok ((ds, tbl) :: refs) ∧ registry_get reg ds = Some c ∧ build_sub_query q "sql" tbl = Ok sq ∧
    @execute (connector c) sq = Ok bs.

Lemma get_view_insert views n v m : m ≠ n → get_view (<[n := v]> views) m = get_view views m.
Proof. intros Hne. unfold get_view, Views.get_results. by rewrite lookup_insert_ne. Qed.
Lemma get_view_error views n v msg m : views !! n = Some v → get_view (<[n := set_error msg v]> views) m = get_view views m.
Proof.
  intros Hv. destruct (decide (m = n)) as [->|Hne]; [|by apply get_view_insert]. unfold get_view, Views.get_results. by rewrite lookup_insert_eq, Hv.
Qed.

(** A view over REST.  A created view answers that it was not refreshed; a refresh that succeeds makes it answer the rows
    its first source returned for the whole text, and one that fails leaves what every view answers as it was and says why; a
    deleted view is not found; and no operation on a view changes what another one answers. *)
Theorem view_endpoints_serve views n q secs reg now :
  (n ≠ "" → q ≠ "" → get_view (create_view views n q secs).2 n = refuse 503 ("view '" +:+ n +:+ "' not yet refreshed")) ∧
  (∀ v' r, refresh_view reg views now n = (Ok r, v') → ∃ v bs, views !! n = Some v ∧ view_source reg (Views.query (def v)) bs ∧
     get_view v' n = Ok (RowsOf (batches_to_json bs).1 (batches_to_json bs).2 (N.of_nat (length (batches_to_json bs).2)))) ∧
  (∀ v' e, refresh_view reg views now n = (Err e, v') → ∀ m, get_view v' m = get_view views m) ∧
  get_view (delete_view views n).2 n = no_view n ∧
  (∀ m, m ≠ n → get_view (create_view views n q secs).2 m = get_view views m ∧ get_view (refresh_view reg views now n).2 m = get_view views m ∧
     get_view (delete_view views n).2 m = get_view views m).
Proof.
  split_and!.
  - intros Hn Hq. unfold create_view. destruct (String.eqb_spec n ""), (String.eqb_spec q ""); try done. cbn [orb snd].
    unfold Views.register, get_view, Views.get_results. cbn [view_name]. by rewrite lookup_insert_eq.
  - intros v' r. unfold refresh_view. destruct (views !! n) as [v|] eqn:Ev; [|done]. destruct (parse_sql_sources _) as [[|[ds tbl] refs]| |] eqn:Ep; try done.
    destruct (registry_get reg ds) as [c|] eqn:Ec; [|done]. destruct (build_sub_query _ _ _) as [sq| |] eqn:Es; try done.
    destruct (execute sq) as [bs| |] eqn:Ex; try done. intros [= <- <-]. exists v, bs. split_and!; [done|by exists ds, tbl, refs, c, sq|].
    unfold get_view, Views.get_results. rewrite lookup_insert_eq. cbn [mbind option_bind Views.set_results batches last_refresh].
    rewrite (bool_decide_false (Some now = None)), andb_false_r by done. by destruct (batches_to_json bs).
  - intros v' e. unfold refresh_view. destruct (views !! n) as [v|] eqn:Ev; [|by intros [= _ <-]].
    destruct (parse_sql_sources _) as [[|[ds tbl] refs]| |]; try by (intros [= _ <-] m; by apply get_view_error).
    destruct (registry_get reg ds) as [c|]; [|by intros [= _ <-] m; by apply get_view_error].
    destruct (build_sub_query _ _ _) as [sq| |]; [|by intros [= _ <-] m; by apply get_view_error|done].
    destruct (execute sq) as [bs|ce|]; [done|by intros [= _ <-] m; by apply get_view_error|done].
  - unfold delete_view, Views.remove, get_view, Views.get_results. cbn [snd]. by rewrite lookup_delete_eq.
  - intros m Hne. split_and!.
    + unfold create_view. destruct (_ || _); [done|]. by apply get_view_insert.
    + unfold refresh_view. destruct (views !! n) as [v|]; [|done].
      destruct (parse_sql_sources _) as [[|[ds tbl] refs]| |]; try by apply get_view_insert. 2: done.
      destruct (registry_get reg ds) as [c|]; [|by apply get_view_insert].
      destruct (build_sub_query _ _ _) as [sq| |]; [|by apply get_view_insert|done]. by destruct (execute sq); [apply get_view_insert..|].
    + unfold delete_view, Views.remove, get_view, Views.get_results. cbn [snd]. by rewrite lookup_delete_ne.
Qed.
End ViewsApiCorrect.

Lemma view_endpoints_serve_witness :
  let v0 := (ViewsApi.create_view (∅ : gmap string MaterializedView) "v" "SELECT * FROM logs.app" None).2 in
  let v1 := (@ViewsApi.refresh_view ex_env (registry ex_world) v0 7 "v").2 in
  ViewsApi.get_view (K := RefArrow) v0 "v" = refuse 503 "view 'v' not yet refreshed" ∧ ViewsApi.get_view (K := RefArrow) v1 "w" = ViewsApi.get_view (K := RefArrow) v0 "w".
Proof.
  intros v0 v1. destruct (view_endpoints_serve (K := RefArrow) (E := ex_env) (∅ : gmap string MaterializedView) "v" "SELECT * FROM logs.app" None (registry ex_world) 7) as [H1 _].
  destruct (view_endpoints_serve (K := RefArrow) (E := ex_env) v0 "v" "" None (registry ex_world) 7) as (_ & _ & _ & _ & H5).
  split; [by apply H1|]. by apply H5.
Defined.

(** ** Alerts *)

(** A rule that cannot be read, has no datasource or fails stops none of the others: the answer is what the other rules find
    firing, in the order of the rules, and never an error. *)
Theorem alert_evaluation_skips_broken `{E : QueryEnv} show_f64 show_2 reg rules :
  (∀ e, Alerting.evaluate_alerts show_f64 show_2 reg rules ≠ Err e) ∧
  ∀ results, Alerting.evaluate_alerts show_f64 show_2 reg rules = Ok results →
    results = omap (λ r, match Alerting.rule_batches reg r with
                         | Ok (Some bs) => Alerting.firing show_f64 show_2 r bs
                         | _ => None
                         end) rules.
Proof.
  induction rules as [|r rules [IH1 IH2]]; [by split; [|intros ? [= <-]]|]. cbn [Alerting.evaluate_alerts omap list_omap].
  assert (Hne : ∀ e, Alerting.rule_batches reg r ≠ Err e).
  { intros e. unfold Alerting.rule_batches. destruct (if String.eqb _ _ then _ else _) as [[ds tbl]| |]; try done.
    destruct (registry_get reg ds) as [c|]; [|done]. destruct (build_sub_query _ _ _) as [sq| |]; try done. by destruct (execute sq). }
  destruct (Alerting.rule_batches reg r) as [[bs|]|e|]; [| |by destruct (Hne e)|done]; cbn [mbind outcome_bind];
    (destruct (Alerting.evaluate_alerts _ _ reg rules) as [rest|e|]; [|by destruct (IH1 e)|done]); (split; [done|]); intros results [= <-].
  - specialize (IH2 rest eq_refl). cbn [mbind option_bind]. destruct (Alerting.firing show_f64 show_2 r bs); by rewrite <- IH2.
  - by apply IH2.
Qed.

Lemma alert_evaluation_skips_broken_witness :
  let rule n q := Evaluator.mkAlert n q "sql" (Evaluator.mkCondition "n" Evaluator.Gt (f64_of_N 1) "count") [] 60 in
  let rules := [rule "broken" "no source"; rule "busy" "SELECT n FROM logs.app"] in
  ∃ results, @Alerting.evaluate_alerts ex_env (λ _, "") (λ _, "") (registry ex_world) rules = Ok results ∧ Evaluator.res_rule <$> results = ["busy"].
Proof.
  intros rule rules. destruct (@Alerting.evaluate_alerts ex_env (λ _, "") (λ _, "") (registry ex_world) rules) as [results|e|] eqn:Er; [|vm_compute in Er; discriminate Er..].
  exists results. split; [done|]. by rewrite (proj2 (@alert_evaluation_skips_broken ex_env (λ _, "") (λ _, "") (registry ex_world) rules) results Er).
Defined.

(** ** Traces *)

Section TraceCorrect.
Import Trace.
Context `{K : ArrowKernels} (discover : Source → outcome ConnectorError (list SchemaInfo)).

Lemma by_timestamp_order : TotalPreorder by_timestamp.
Proof. exact (total_preorder_by timestamp_text String.compare _). Qed.

Lemma span_source trace_id ds c s : s ∈ spans_of discover trace_id ds c → ts_datasource s = ds.
Proof. unfold spans_of. destruct (batches_to_json _) as [cols rows]. by intros (r & -> & _)%list_elem_of_fmap. Qed.

(** The timeline of a trace holds the spans every datasource returns and no others, in the order of their timestamps and,
    for equal ones, in the order in which they came; the datasources that matched are those with a span, and the total is
    the number of spans. *)
Theorem trace_is_timeline connectors trace_id :
  let t := trace_handler discover connectors trace_id in
  let found := connectors ≫= (λ dc, spans_of discover trace_id dc.1 dc.2) in
  spans t ≡ₚ found ∧
  StronglySorted (λ a b, String.le (timestamp_text a) (timestamp_text b)) (spans t) ∧
  (∀ ts, filter (λ s, timestamp_text s = ts) (spans t) = filter (λ s, timestamp_text s = ts) found) ∧
  (∀ d, d ∈ datasources_matched t ↔ ∃ s, s ∈ spans t ∧ ts_datasource s = d) ∧
  total_spans t = N.of_nat (length found).
Proof.
  intros t found. pose proof by_timestamp_order as Hord.
  assert (Hs : spans t = sort_by by_timestamp found).
  { unfold t, trace_handler, found. cbn [spans]. f_equal. by rewrite list_fmap_bind. }
  rewrite Hs. split_and!.
  - apply sort_by_Permutation.
  - eapply StronglySorted_impl_in, (sort_by_sorted by_timestamp). intros a b _ _. apply string_sort_le.
  - intros ts. apply sort_by_stable. intros x y <- Hy. unfold by_timestamp. rewrite Hy. pose proof (String.compare_antisym (timestamp_text x) (timestamp_text x)) as Ha. by destruct (String.compare _ _).
  - intros d. unfold t, trace_handler. cbn [datasources_matched]. rewrite list_elem_of_fmap. setoid_rewrite list_elem_of_filter. split.
    + intros ([d' l] & -> & Hl & ([d0 c] & E & Hin)%list_elem_of_fmap). injection E as -> ->. cbn [fst snd] in *.
      destruct (spans_of discover trace_id d0 c) as [|s l] eqn:El; [done|]. exists s. split.
      * rewrite sort_by_Permutation. apply list_elem_of_bind. exists (d0, c). split; [|done]. cbn. rewrite El. by left.
      * apply (span_source trace_id d0 c). rewrite El. by left.
    + intros (s & Hin & <-). rewrite sort_by_Permutation in Hin. apply list_elem_of_bind in Hin as ([d0 c] & Hin & Hc). cbn [fst snd] in Hin.
      exists (d0, spans_of discover trace_id d0 c). rewrite (span_source _ _ _ _ Hin). split_and!; [done| |apply list_elem_of_fmap; by exists (d0, c)].
      cbn. intros E. rewrite E in Hin. by apply not_elem_of_nil in Hin.
  - unfold t, trace_handler. cbn [total_spans]. rewrite sort_by_length. do 2 f_equal. unfold found. by rewrite list_fmap_bind.
Qed.
End TraceCorrect.

(** The timeline compares timestamps as texts, and reads every datasource, whoever asks. *)
Lemma trace_order_is_textual :
  let rows := [mkBatch [mkField "ts" Int64 true] [mkArray Int64 [Some (VInt 9); Some (VInt 10)]] 2] in
  let t := @Trace.trace_handler RefArrow ex_discover [("slow", memory_connector "slow" rows)] "t1" in
  Trace.timestamp_text <$> Trace.spans t = ["10"; "9"].
Proof. vm_compute. reflexivity. Qed.

(** ** Several statements *)

Section MultiCorrect.
Import Multi.
Context `{K : ArrowKernels} `{R : RowKernels} `{J : JsonOps} `{E : QueryEnv} `{HE : HandlerEnv}.
Context (status_of : Reply → N) (body_of : Reply → string) (parse_json : string → option Value).

(** One statement, as a request of its own. *)
Definition step_of (ambs : nat → Ambient) (auth : option AuthIdentity) (req : QueryRequest) (k : nat) (stmt : string) (s s' : AppState) (r : Reply) : Prop :=
  query_handler (without_headers (ambs k)) auth (with_query req stmt) s = (s', Some r).

(** The statements run one after the other, each from the state the one before left. *)
Inductive runs (ambs : nat → Ambient) (auth : option AuthIdentity) (req : QueryRequest) : nat → list string → AppState → list Reply → AppState → Prop :=
| runs_done k s : runs ambs auth req k [] s [] s
| runs_step k stmt stmts s s1 s' r rs : step_of ambs auth req k stmt s s1 r → runs ambs auth req (S k) stmts s1 rs s' →
    runs ambs auth req k (stmt :: stmts) s (r :: rs) s'.

Lemma run_statements_runs ambs auth req stmts : ∀ k s s' l,
  run_statements status_of body_of parse_json ambs k auth req stmts s = (s', Some l) ↔
  ∃ rs, runs ambs auth req k stmts s rs s' ∧ l = statement_result status_of body_of parse_json <$> rs.
Proof.
  induction stmts as [|stmt stmts IH]; intros k s s' l; cbn [run_statements].
  { split; [intros [= <- <-]; exists []; by split; [constructor|]|]. intros (rs & Hr & ->). inversion Hr; subst. done. }
  destruct (query_handler (without_headers (ambs k)) auth (with_query req stmt) s) as [s1 [r|]] eqn:Eq.
  - destruct (run_statements _ _ _ _ _ _ _ _ s1) as [s2 o] eqn:Er. split.
    + intros [= <- Ho]. destruct o as [l'|]; [|done]. cbn in Ho. injection Ho as <-. apply IH in Er as (rs & Hr & ->).
      exists (r :: rs). split; [by eapply runs_step|done].
    + intros (rs & Hr & ->). inversion Hr as [|? ? ? ? s1' ? r' rs' Hs Hr']; subst. unfold step_of in Hs. rewrite Eq in Hs. injection Hs as <- <-.
      assert (run_statements status_of body_of parse_json ambs (S k) auth req stmts s1 = (s', Some (statement_result status_of body_of parse_json <$> rs'))) as H
        by (apply IH; by exists rs'). rewrite Er in H. injection H as <- ->. done.
  - split; [done|]. intros (rs & Hr & _). inversion Hr as [|? ? ? ? s1' ? r' rs' Hs Hr']; subst. unfold step_of in Hs. by rewrite Eq in Hs.
Qed.

(** Several statements in one request run in their order, each as a query of its own on the state the one before left,
    without the headers of the request; the answer has one result per statement, in the same order, whatever the
    results are, so a failure stops nothing.  A single statement is answered as the query handler answers it. *)
Theorem statements_run_in_order ambs auth req s s' reply :
  multi_query_handler status_of body_of parse_json ambs auth req s = (s', Some reply) ↔
  if length (split_statements (rq_query req)) <=? 1 then
    ∃ r, reply = One r ∧ query_handler (without_headers (ambs 0)) auth req s = (s', Some r)
  else
    ∃ rs, runs ambs auth req 0 (split_statements (rq_query req)) s rs s' ∧ length rs = length (split_statements (rq_query req)) ∧
      reply = Results (statement_result status_of body_of parse_json <$> rs) (length rs).
Proof.
  unfold multi_query_handler. destruct (length (split_statements (rq_query req)) <=? 1).
  - destruct (query_handler _ _ _ _) as [s1 [r|]]; cbn; (split; [|intros (r' & Hr & Heq)]); try done; [intros [= <- <-]; by exists r|].
    by injection Heq as <- <-; subst.
  - destruct (run_statements _ _ _ _ _ _ _ _ s) as [s1 o] eqn:Er. split.
    + intros [= <- Ho]. destruct o as [l|]; [|done]. cbn in Ho. injection Ho as <-. apply run_statements_runs in Er as (rs & Hr & ->).
      exists rs. split_and!; [done| |by rewrite length_fmap]. clear -Hr. induction Hr; cbn; congruence.
    + intros (rs & Hr & _ & ->). assert (run_statements status_of body_of parse_json ambs 0 auth req (split_statements (rq_query req)) s =
        (s', Some (statement_result status_of body_of parse_json <$> rs))) as H by (apply run_statements_runs; by exists rs).
      rewrite Er in H. injection H as <- ->. cbn. by rewrite length_fmap.
Qed.
End MultiCorrect.

(** ** Questions *)

Section NlSqlCorrect.
Import NlSql.

(** The text between the quoted names. *)
Fixpoint outside (quoted : bool) (s : string) : string :=
  match s with
  | "" => ""
  | String c s => if is_char QUOTE c then outside (negb quoted) s else if quoted then outside quoted s else String c (outside quoted s)
  end.

Lemma quote_is_QUOTE : SqlText.DQUOTE = String QUOTE "".
Proof. done. Qed.

Lemma outside_doubled n s : outside true (replace SqlText.DQUOTE (SqlText.DQUOTE +:+ SqlText.DQUOTE) n +:+ s) = outside true s.
Proof.
  rewrite quote_is_QUOTE. induction n as [|a n IH]; [done|]. rewrite replace_char. destruct (Ascii.eqb_spec a QUOTE) as [->|Hne].
  - rewrite <- str_app_assoc, !str_app_cons. cbn [outside]. change (is_char QUOTE QUOTE) with true. cbn [negb]. exact IH.
  - rewrite str_app_cons. cbn [outside]. unfold is_char at 1. rewrite (proj2 (Ascii.eqb_neq QUOTE a)) by done. exact IH.
Qed.
Lemma outside_quoted n s : outside false (quote_ident n +:+ s) = outside false s.
Proof.
  unfold quote_ident. rewrite <- !str_app_assoc. rewrite quote_is_QUOTE at 1. rewrite str_app_cons. cbn [outside].
  change (is_char QUOTE QUOTE) with true. cbn [negb]. change ("" +:+ ?x) with x. rewrite outside_doubled. rewrite quote_is_QUOTE. done.
Qed.
Lemma outside_qualified src s : outside false (qualified src +:+ s) = String "." (outside false s).
Proof. unfold qualified. rewrite <- !str_app_assoc, outside_quoted. change ("." +:+ ?x) with (String "." x). cbn [outside]. change (is_char QUOTE ".") with false. by rewrite outside_quoted. Qed.
Lemma outside_plain t s : str_all (λ a, negb (is_char QUOTE a)) t = true → outside false (t +:+ s) = t +:+ outside false s.
Proof. induction t as [|a t IH]; [done|]. cbn [str_all]. intros [Ha%negb_true_iff Ht]%andb_prop. rewrite !str_app_cons. cbn [outside]. rewrite Ha. by rewrite IH. Qed.

(** The quoted names of a text, with their doubled quotes undone. *)
Inductive name_mode : Type := Out | In (acc : string) | Closing (acc : string).
Fixpoint names (m : name_mode) (s : string) : list string :=
  match s with
  | "" => match m with Out => [] | In acc | Closing acc => [acc] end
  | String c s =>
      if is_char QUOTE c then match m with Out => names (In "") s | In acc => names (Closing acc) s | Closing acc => names (In (acc +:+ String QUOTE "")) s end
      else match m with Out => names Out s | In acc => names (In (acc +:+ String c "")) s | Closing acc => acc :: names Out s end
  end.
Definition no_quote (s : string) : bool := str_all (λ a, negb (is_char QUOTE a)) s.

Lemma names_plain t s : no_quote t = true → names Out (t +:+ s) = names Out s.
Proof. unfold no_quote. induction t as [|a t IH]; [done|]. cbn [str_all]. intros [Ha%negb_true_iff Ht]%andb_prop. rewrite str_app_cons. cbn [names]. rewrite Ha. by apply IH. Qed.
Lemma names_doubled n s : ∀ acc, names (In acc) (replace SqlText.DQUOTE (SqlText.DQUOTE +:+ SqlText.DQUOTE) n +:+ s) = names (In (acc +:+ n)) s.
Proof.
  rewrite quote_is_QUOTE. induction n as [|a n IH]; intros acc; [by rewrite str_app_nil|]. rewrite replace_char. destruct (Ascii.eqb_spec a QUOTE) as [->|Hne].
  - rewrite <- str_app_assoc, !str_app_cons. cbn [names]. change (is_char QUOTE QUOTE) with true. cbn match.
    etransitivity; [exact (IH _)|]. rewrite <- str_app_assoc. done.
  - rewrite str_app_cons. cbn [names]. unfold is_char at 1. rewrite (proj2 (Ascii.eqb_neq QUOTE a)) by done. rewrite IH, <- str_app_assoc. done.
Qed.
Lemma names_quoted n c s : is_char QUOTE c = false → names Out (quote_ident n +:+ String c s) = n :: names Out (String c s).
Proof.
  intros Hc. unfold quote_ident. rewrite <- !str_app_assoc. rewrite quote_is_QUOTE at 1. rewrite str_app_cons. cbn [names].
  change (is_char QUOTE QUOTE) with true. cbn match. etransitivity; [exact (names_doubled n _ "")|]. change ("" +:+ n) with n.
  rewrite quote_is_QUOTE, str_app_cons. cbn [names]. change (is_char QUOTE QUOTE) with true. cbn match. change ("" +:+ ?x) with x. cbn [names]. by rewrite Hc.
Qed.
Lemma names_qualified src c s : is_char QUOTE c = false → names Out (qualified src +:+ String c s) = src.1 :: src.2 :: names Out (String c s).
Proof.
  intros Hc. unfold qualified. rewrite <- !str_app_assoc. change ("." +:+ ?x) with (String "." x). rewrite names_quoted by done. f_equal.
  cbn [names]. change (is_char QUOTE ".") with false. cbn match. by apply names_quoted.
Qed.

(** Where the names may come from. *)
Definition from_listing (schemas : list DatasourceSchema) (n : string) : Prop :=
  (∃ s, s ∈ schemas ∧ (n = ns_datasource s ∨ n ∈ ns_tables s)) ∨ n ∈ ["datasource"; "logs"; "table1"; "table2"].
Definition plain_name (n : string) : Prop := n ≠ "" ∧ str_all ident_char n = true.

Lemma keep_chars_all p s : str_all p (keep_chars p s) = true.
Proof. induction s as [|a s IH]; [done|]. cbn. destruct (p a) eqn:E; [|done]. cbn. by rewrite E. Qed.
Lemma sanitize_plain s : plain_name (sanitize_nl_identifier s).
Proof. unfold sanitize_nl_identifier, plain_name. destruct (String.eqb_spec (keep_chars ident_char s) ""); [done|]. split; [done|apply keep_chars_all]. Qed.

Definition listed_pair (schemas : list DatasourceSchema) (p : string * string) : Prop := from_listing schemas p.1 ∧ from_listing schemas p.2.
Lemma mentioned_listed q schemas : Forall (listed_pair schemas) (mentioned q schemas).
Proof.
  unfold mentioned. cut (∀ l found, (∀ s, s ∈ l → s ∈ schemas) → Forall (listed_pair schemas) found →
    Forall (listed_pair schemas) (foldl (λ found s, mention_source q s (mention_tables q s found)) found l)); [intros H; apply H; [done|constructor]|].
  induction l as [|s l IH]; intros found Hl Hf; [done|]. cbn [foldl]. apply IH; [intros; apply Hl; by right|]. specialize (Hl s ltac:(by left)).
  assert (Ht : Forall (listed_pair schemas) (mention_tables q s found)).
  { unfold mention_tables. cut (∀ ts fd, (∀ t, t ∈ ts → t ∈ ns_tables s) → Forall (listed_pair schemas) fd → Forall (listed_pair schemas)
      (foldl (λ found t, if (length found <? 2) && str_contains (to_lowercase t) q then found ++ [(ns_datasource s, t)] else found) fd ts)); [intros H; by apply H|].
    induction ts as [|t ts IHt]; intros fd Hts Hfd; [done|]. cbn [foldl]. apply IHt; [intros; apply Hts; by right|]. destruct (_ && _); [|done].
    apply Forall_app. split; [done|]. constructor; [|constructor]. split; left; exists s; split; try done; [by left|right; apply Hts; by left]. }
  unfold mention_source. destruct (ns_tables s) as [|t ts] eqn:Ets; [done|]. destruct (_ && _); [|done]. unfold push_new. case_bool_decide; [done|].
  apply Forall_app. split; [done|]. constructor; [|constructor]. split; left; exists s; (split; [done|]); [by left|right; cbn; rewrite Ets; by left].
Qed.
Lemma head_table_listed schemas s t : s ∈ schemas → t ∈ ["table1"; "table2"; "logs"] → from_listing schemas (default t (head (ns_tables s))).
Proof. intros Hs Ht. destruct (ns_tables s) as [|t' ts] eqn:E; cbn; [right; set_solver|]. left. exists s. split; [done|]. right. rewrite E. by left. Qed.
Lemma find_two_listed q schemas l r : find_two_tables q schemas = Some (l, r) → listed_pair schemas l ∧ listed_pair schemas r.
Proof.
  unfold find_two_tables. pose proof (mentioned_listed q schemas) as Hm. destruct (mentioned q schemas) as [|a [|b rest]].
  3: { intros [= <- <-]. by apply Forall_cons in Hm as [? [? _]%Forall_cons]. }
  all: destruct schemas as [|s1 [|s2 rest]]; [done..|]; intros [= <- <-]; split; split; cbn [fst snd];
    (left; eexists; split; [|by left]; set_solver) || (apply head_table_listed; set_solver).
Qed.
Lemma first_table_listed schemas : listed_pair schemas (first_table schemas).
Proof.
  unfold first_table. destruct schemas as [|s rest]; cbn; split; cbn [fst snd]; try (right; set_solver); [left; exists s; split; [by left|by left]|].
  apply head_table_listed; set_solver.
Qed.

Lemma runnable_select r : runnable ("SELECT " +:+ r) = true.
Proof.
  unfold runnable. change (trim_start ("SELECT " +:+ r)) with ("SELECT " +:+ r). rewrite to_uppercase_app.
  change (to_uppercase "SELECT " +:+ to_uppercase r) with ("SELECT" +:+ (" " +:+ to_uppercase r)). by rewrite starts_with_app.
Qed.

(** Simplify [outside] and [names] on a generated text. *)
Ltac read_generated :=
  repeat first
    [ rewrite outside_qualified | rewrite outside_quoted
    | match goal with |- context [outside false (?t +:+ ?s)] => is_ground t; rewrite (outside_plain t s) by done end ].

(** The texts between the names. *)
Definition templates : list string :=
  ["SELECT a.*, b.* FROM . a JOIN . b ON a. = b. LIMIT 100"; "SELECT , COUNT(*) AS count FROM . GROUP BY  ORDER BY count DESC LIMIT 20";
   "SELECT * FROM . WHERE status >= 500 ORDER BY timestamp DESC LIMIT 20"; "SELECT * FROM . ORDER BY timestamp DESC LIMIT 100"; "SELECT * FROM . LIMIT 20"].

Lemma join_text_reads l r col : outside false (join_text l r col) = "SELECT a.*, b.* FROM . a JOIN . b ON a. = b. LIMIT 100" ∧
  names Out (join_text l r col) = [l.1; l.2; r.1; r.2; col; col].
Proof.
  unfold join_text. split; [read_generated; reflexivity|].
  rewrite names_plain by done. change (" a JOIN " +:+ ?x) with (String " " ("a JOIN " +:+ x)). rewrite names_qualified by done. do 2 f_equal.
  change (String " " ("a JOIN " +:+ ?x)) with (" a JOIN " +:+ x). rewrite names_plain by done. change (" b ON a." +:+ ?x) with (String " " ("b ON a." +:+ x)).
  rewrite names_qualified by done. do 2 f_equal. change (String " " ("b ON a." +:+ ?x)) with (" b ON a." +:+ x). rewrite names_plain by done.
  change (" = b." +:+ ?x) with (String " " ("= b." +:+ x)). rewrite names_quoted by done. f_equal.
  change (String " " ("= b." +:+ ?x)) with (" = b." +:+ x). rewrite names_plain by done. change " LIMIT 100" with (String " " "LIMIT 100"). by rewrite names_quoted.
Qed.
Lemma count_text_reads col src :
  let t := "SELECT " +:+ quote_ident col +:+ ", COUNT(*) AS count FROM " +:+ qualified src +:+ " GROUP BY " +:+ quote_ident col +:+ " ORDER BY count DESC LIMIT 20" in
  outside false t = "SELECT , COUNT(*) AS count FROM . GROUP BY  ORDER BY count DESC LIMIT 20" ∧ names Out t = [col; src.1; src.2; col].
Proof.
  intros t. unfold t. split; [read_generated; reflexivity|].
  rewrite names_plain by done. change (", COUNT(*) AS count FROM " +:+ ?x) with (String "," (" COUNT(*) AS count FROM " +:+ x)). rewrite names_quoted by done. f_equal.
  change (String "," (" COUNT(*) AS count FROM " +:+ ?x)) with (", COUNT(*) AS count FROM " +:+ x). rewrite names_plain by done.
  change (" GROUP BY " +:+ ?x) with (String " " ("GROUP BY " +:+ x)). rewrite names_qualified by done. do 2 f_equal.
  change (String " " ("GROUP BY " +:+ ?x)) with (" GROUP BY " +:+ x). rewrite names_plain by done.
  change " ORDER BY count DESC LIMIT 20" with (String " " "ORDER BY count DESC LIMIT 20"). by rewrite names_quoted.
Qed.
Lemma scan_text_reads src tail : no_quote tail = true →
  outside false ("SELECT * FROM " +:+ qualified src +:+ String " " tail) = "SELECT * FROM ." +:+ String " " tail ∧
  names Out ("SELECT * FROM " +:+ qualified src +:+ String " " tail) = [src.1; src.2].
Proof.
  intros Ht. split.
  - rewrite outside_plain, outside_qualified by done. rewrite <- (str_app_nil (String " " tail)) at 1. rewrite outside_plain by exact Ht.
    cbn [outside]. by rewrite str_app_nil.
  - rewrite names_plain, names_qualified by done. do 2 f_equal. rewrite <- (str_app_nil (String " " tail)). by rewrite names_plain.
Qed.

(** C24: what a question can do.  The text made from a question is a fixed text around quoted names, with a limit of at most
    1000 rows at the end when it asks for the top ones; the names are those of the listed datasources and tables, the
    defaults, or one made of letters, digits and underscores; and it is always a SELECT, so it is run when it is asked to be. *)
Theorem generated_sql_is_contained question schemas :
  let sql := generate_sql_from_nl question schemas in
  (outside false sql ∈ templates ∨ ∃ n, (n ≤ 1000)%N ∧ outside false sql = "SELECT * FROM . ORDER BY timestamp DESC LIMIT " +:+ pretty n) ∧
  Forall (λ n, from_listing schemas n ∨ plain_name n) (names Out sql) ∧ runnable sql = true.
Proof.
  intros sql. unfold sql, generate_sql_from_nl. set (q := to_lowercase question). pose proof (first_table_listed schemas) as [Hf1 Hf2].
  destruct (try_generate_join q schemas) as [j|] eqn:Ej.
  { unfold try_generate_join in Ej. destruct (_ || _); [done|]. destruct (find_two_tables q schemas) as [[l r]|] eqn:Et; [|done].
    injection Ej as <-. destruct (find_two_listed q schemas l r Et) as [[? ?] [? ?]]. pose proof (sanitize_plain (default "id" (guess_join_column q))).
    destruct (join_text_reads l r (sanitize_nl_identifier (default "id" (guess_join_column q)))) as [-> ->].
    split_and!; [left; by left|by repeat (constructor; [auto|])|apply runnable_select]. }
  destruct (_ && _).
  { pose proof (sanitize_plain (default "host" (extract_keyword_after q "by"))).
    destruct (count_text_reads (sanitize_nl_identifier (default "host" (extract_keyword_after q "by"))) (first_table schemas)) as [-> ->].
    split_and!; [left; unfold templates; set_solver|by repeat (constructor; [auto|])|apply runnable_select]. }
  destruct (str_contains "top" q || str_contains "most" q).
  { set (n := N.min _ 1000). change (" ORDER BY timestamp DESC LIMIT " +:+ pretty n) with (String " " ("ORDER BY timestamp DESC LIMIT " +:+ pretty n)).
    destruct (scan_text_reads (first_table schemas) ("ORDER BY timestamp DESC LIMIT " +:+ pretty n)) as [-> ->].
    { unfold no_quote. rewrite str_all_app. by apply digits_avoid. }
    split_and!; [right; exists n; split; [unfold n; lia|done]|by repeat (constructor; [auto|])|apply runnable_select]. }
  destruct (str_contains "error" q || str_contains "fail" q); [|destruct (str_contains "between" q || str_contains "last" q)];
    (edestruct (scan_text_reads (first_table schemas)) as [-> ->]; [|split_and!; [left; unfold templates; set_solver|by repeat (constructor; [auto|])|apply runnable_select]]); done.
Qed.
End NlSqlCorrect.

(** The names are quoted, and the query handler reads them with their quotes: what is generated is always refused when it is
    run, as no datasource has a name in quotes. *)
Lemma generated_sql_finds_no_source :
  let sql := NlSql.generate_sql_from_nl "show the latest" [NlSql.mkDsSchema "logs" ["app"]] in
  parse_sql_sources sql = Ok [(quote_ident "logs", quote_ident "app")] ∧
  (serve_query "ops" sql ex_state).2 = Some (RError 404 ("datasource '" +:+ quote_ident "logs" +:+ "' not found")) ∧
  is_Some (registry ex_world !! "logs").
Proof. split_and!; [vm_compute; reflexivity..|by eexists]. Qed.

(** ** The history and the schemas *)

(** With a limit of at least 25 the answer is the newest entries that pass the filters, of all that are kept. *)
Lemma history_answers history params :
  let limit := default 100%N (StoresApi.number_param params "limit") in
  length history ≤ MAX_HISTORY → (25 ≤ limit < 2 ^ 63)%N →
  StoresApi.history_handler history params = take (N.to_nat limit) (filter (λ e, StoresApi.history_keeps params e = true) (reverse history)).
Proof.
  intros limit Hl Hlim. unfold StoresApi.history_handler. fold limit. do 2 f_equal. unfold History.recent, newest.
  apply take_ge. rewrite length_reverse. unfold StoresApi.twice. rewrite N.mod_small by lia. unfold MAX_HISTORY in Hl. lia.
Qed.

(** With a smaller one only the twice as many newest entries are looked at, so older matches are missed. *)
Lemma history_misses_older_match :
  let entry q e := mkHistory q "sql" 0 0 0 e in
  StoresApi.history_handler [entry "a" (Some "failed"); entry "b" None; entry "c" None] {[ "limit" := "1"; "status" := "error" ]} = [].
Proof. vm_compute. reflexivity. Qed.

Section ListingCorrect.
Import Listing Discovery.
Context (reg : Registry) (type_debug : DataType → string) (ttl : N).
(** What the connectors say at a time. *)
Context (discover : N → Source → outcome ConnectorError (list SchemaInfo)) (get_schema : N → Source → string → outcome ConnectorError Schema).

(** A request, at its time. *)
Inductive schema_op : Type := AskSchemas (id : string) (now : N) | AskFields (id tbl : string) (now : N).
Definition schema_step (cache : SchemaCache) (o : schema_op) : SchemaCache :=
  match o with
  | AskSchemas id now => (get_schemas (discover now) reg cache id now).2
  | AskFields id tbl now => (get_fields (get_schema now) type_debug reg cache id tbl now).2
  end.

Definition discovered (id : string) (t : N) (v : Value) : Prop :=
  ∃ c schemas, registry_get reg id = Some c ∧ discover t c = Ok schemas ∧ v = JArray (schema_value <$> schemas).
Definition schemas_sound (cache : SchemaCache) : Prop :=
  sc_ttl_secs cache = ttl ∧ ∀ id e, sc_entries cache !! schemas_key id = Some e → discovered id (cached_at e) (sc_data e).

Lemma keys_differ id id' tbl : schemas_key id ≠ fields_key id' tbl.
Proof. by intros [=]. Qed.
Lemma schemas_key_inj id id' : schemas_key id = schemas_key id' → id = id'.
Proof. by intros [=]. Qed.

Lemma schema_step_sound cache o : schemas_sound cache → schemas_sound (schema_step cache o).
Proof.
  intros [Ht Hs]. destruct o as [id now|id tbl now]; cbn [schema_step].
  - unfold get_schemas. destruct (schema_get cache (schemas_key id) now); [done|]. destruct (registry_get reg id) as [c|] eqn:Ec; [|done].
    destruct (discover now c) as [schemas| |] eqn:Ed; [|done..]. split; [done|]. cbn [snd schema_set sc_entries]. intros id' e.
    destruct (decide (schemas_key id' = schemas_key id)) as [Heq|Hne].
    + apply schemas_key_inj in Heq as ->. rewrite lookup_insert_eq. intros [= <-]. by exists c, schemas.
    + rewrite lookup_insert_ne by done. apply Hs.
  - unfold get_fields. destruct (schema_get cache (fields_key id tbl) now); [done|]. destruct (registry_get reg id) as [c|]; [|done].
    destruct (get_schema now c tbl) as [s| |]; [|done..]. split; [done|]. cbn [snd schema_set sc_entries]. intros id' e.
    rewrite lookup_insert_ne by (intros E; by apply (keys_differ id' id tbl)). apply Hs.
Qed.

(** After any requests, the schemas that are answered for a datasource are those its connector said at a time that is no
    older than the time to live of the cache: at this time, or at an earlier request's. *)
Theorem schema_answers_are_fresh ops id now v :
  let cache := foldl schema_step (mkSchemas ∅ ttl) ops in
  (get_schemas (discover now) reg cache id now).1 = Ok v → ∃ t, discovered id t v ∧ (t = now ∨ (age now t ≤ ttl)%N).
Proof.
  intros cache. assert (schemas_sound cache) as [Ht Hs].
  { unfold cache. cut (∀ c, schemas_sound c → schemas_sound (foldl schema_step c ops)).
    - intros H. apply H. split; [done|]. intros id' e. cbn. by rewrite lookup_empty.
    - induction ops as [|o ops' IH]; intros c Hc; [done|]. cbn [foldl]. apply IH. by apply schema_step_sound. }
  unfold get_schemas. destruct (schema_get cache (schemas_key id) now) as [w|] eqn:Eg.
  - intros [= ->]. unfold schema_get in Eg. destruct (sc_entries cache !! schemas_key id) as [e|] eqn:Ee; [|done]. cbn in Eg.
    destruct (N.ltb_spec (sc_ttl_secs cache) (age now (cached_at e))); [done|]. injection Eg as <-. exists (cached_at e). split; [by apply Hs|]. right. by rewrite <- Ht.
  - destruct (registry_get reg id) as [c|] eqn:Ec; [|done]. destruct (discover now c) as [schemas|e|] eqn:Ed; [|done|done]. intros [= <-]. exists now. split; [by exists c, schemas|by left].
Qed.

(** Datasources and tables with colons share the entries of the cache. *)
Lemma field_keys_collide : fields_key "a:b" "c" = fields_key "a" "b:c".
Proof. done. Qed.
End ListingCorrect.

Lemma schema_answers_are_fresh_witness :
  ∃ t, discovered (registry ex_world) (λ _, ex_discover) "logs" t (JArray [Listing.schema_value (mkSchemaInfo "app" STable None)]) ∧ (t = 9%N ∨ (Discovery.age 9 t ≤ 300)%N).
Proof.
  apply (schema_answers_are_fresh (registry ex_world) (λ _, "") 300 (λ _, ex_discover) (λ _ _ _, Ok []) [AskSchemas "logs" 5] "logs" 9). by vm_compute.
Defined.

(** ** Feedback *)

(** The answers and the status of feedback can be changed without any role, and the list of all feedback is for anybody
    without a name. *)
Lemma feedback_admin_is_open walk has_rbac fs id fb msg st now :
  Feedbacks.get fs id = Some fb →
  (∃ fb' fs', StoresApi.admin_reply_feedback_handler fs (Some (mkAuth "guest" Viewer)) id msg now = (Ok fb', fs')) ∧
  (∃ fb' fs', StoresApi.admin_status_feedback_handler fs id st now = (Ok fb', fs')) ∧
  StoresApi.admin_list_feedback_handler walk has_rbac fs None = Ok (Feedbacks.list_all walk fs).
Proof.
  unfold Feedbacks.get. intros Hf. unfold StoresApi.admin_reply_feedback_handler, StoresApi.admin_status_feedback_handler, Feedbacks.add_reply, Feedbacks.set_status, Feedbacks.update.
  rewrite Hf. cbn. split_and!; [by do 2 eexists..|done].
Qed.
